(* ===== verification/_CoqProject ===== *)
-Q . S2P
Prelude.v
SwizzledPtr.v
SortedArray.v
ArtNode.v
Node4.v
Node16.v
KeyScan.v
Node48.v
Node256.v
NodeConvert.v
Node.v
Bytes.v
WalCodec.v
WalHeader.v
WalFrame.v
Reconcile.v
Recovery.v
Rebuild.v
WalWriter.v
Watermark.v
WalSegment.v
Edges.v
Tree.v
DatShared.v
DatBuilder.v
DatIncremental.v
Zipper.v
DatZipper.v
SetZipper.v
ZipperAlgebra.v
Page.v
Bucket.v
BucketMap.v
BucketOps.v
Dawg.v
DawgZipper.v
DawgBuilder.v
DawgVersion.v
DawgConcurrent.v
TraversalGraph.v
DawgProjection.v
SuffixClasses.v
SuffixAutomaton.v
SuffixTexts.v
SuffixIndex.v
SuffixRecords.v
SuffixCompact.v
SuffixDictionary.v
SuffixRefinement.v
SuffixQueries.v
SuffixZipper.v
Publication.v
SuffixProperties.v
EdgeStore.v
OverlayNode.v
OverlayWalk.v
OverlayFault.v
CounterCodec.v
OverlayReplay.v
OverlayDurable.v
