(* ===== verification/Prelude.v ===== *)
(** * libdictenstein: a verification development

    libdictenstein is a Rust library of dictionaries: maps from byte, character or
    integer strings to values, kept in memory or on disk.  This development models
    its data structures in Rocq and proves what they do.  Source paths below are
    relative to src/src.

    ** The program and its model

    - The persistent trie (persistent_artrie) is an adaptive radix tree.  Its nodes
      have up to 4, 16, 48 or 256 children and change type as they grow and shrink
      (nodes/): [ArtNode.v] has the header, the prefix and the node interface as a
      class with laws, [SortedArray.v], [Node4.v], [Node16.v], [KeyScan.v],
      [Node48.v], [Node256.v] the four types, [NodeConvert.v] the conversions and
      [Node.v] the enum that dispatches.  A child is a 64-bit word that is a disk
      location or a memory pointer and that threads switch between the two
      (core/swizzled_ptr.rs): [SwizzledPtr.v], whose operations are programs of
      atomic actions.  Leaves are 8 KiB pages of sorted suffixes (bucket.rs):
      [Page.v], [Bucket.v], [BucketMap.v], [BucketOps.v], on the bytes of the page.
    - The trie logs every change before it applies it (core/wal, core/recovery.rs).
      [Bytes.v], [WalCodec.v], [WalHeader.v] and [WalFrame.v] are the byte formats
      and the reader, [WalWriter.v] the buffered writer with the file it writes,
      [WalSegment.v] the lock-free appends as interleaved atomic actions, and
      [Watermark.v] the contiguous-prefix frontier.  [Reconcile.v] orders the logged
      operations, [Recovery.v] replays a log after a crash and [Rebuild.v] makes a
      trie from log segments alone.
    - Writers share the trie through an overlay (core/overlay, lockfree_cas.rs): a tree
      of immutable nodes whose root is replaced by compare-and-swap, and whose edges
      lead to nodes in memory or on disk.  [EdgeStore.v] has the edges of a node,
      [OverlayNode.v] the node, [OverlayWalk.v] the walks, the loading of a durable
      node and the copying of a path, [OverlayFault.v] the reads that load what they
      need and the eviction, [CounterCodec.v] the counters of values.
      [OverlayReplay.v] replays a log into an overlay; [OverlayDurable.v] has the
      threads that write durably, one access to shared state at a time: the log, the
      root, the commit sequence, the lookup cache and the watermark.
    - The double-array trie (double_array_trie) is a static dictionary in five
      parallel arrays: [Tree.v] (breadth-first traversal), [DatShared.v] (lookup, the
      validator of untrusted arrays, checked and unchecked cursors), [DatBuilder.v]
      (the static builder), [DatIncremental.v] (the incremental builder) and
      [DatZipper.v] (the dictionaries and their zippers).
    - The dynamic DAWG (dynamic_dawg/lockfree.rs) is a concurrent dictionary that
      shares suffixes.  [Edges.v] and [Dawg.v] have the immutable nodes, in a memory
      that only grows, and the copying of a path; [DawgZipper.v] the traversals;
      [DawgBuilder.v] the builder of a minimal graph from sorted terms;
      [DawgVersion.v] one turn of the load-prepare-publish loop of every operation;
      [DawgConcurrent.v] threads that interleave such turns.  [TraversalGraph.v] is
      the packed snapshot graph of lib.rs, and [DawgProjection.v] makes one from a
      revision of the DAWG.
    - The suffix automaton (suffix_automaton) indexes texts for substring search.
      [SuffixClasses.v] says why the online construction is right, apart from the
      code; [SuffixAutomaton.v] is the construction on the nodes, [SuffixTexts.v] its
      loop over a text.  [SuffixIndex.v] has the index with all its operations and
      queries, [SuffixRecords.v], [SuffixCompact.v] and [SuffixDictionary.v] the
      records, the compaction and the invariant of the whole, [SuffixRefinement.v]
      the abstract machine and the simulation, [SuffixQueries.v] the queries,
      [SuffixZipper.v] the zipper.  [Publication.v] is the loop that publishes
      revisions through one atomic pointer, for any operations, and
      [SuffixProperties.v] what follows for the index.
    - Zippers (zipper.rs, iterator.rs and the *_zipper.rs files) walk any dictionary:
      [Zipper.v] has the traits as classes with laws and the iterators, [SetZipper.v]
      union, intersection and the differences of dictionaries as zippers, and
      [ZipperAlgebra.v] what the iterators return for every lawful zipper.  The
      double-array dictionaries, the DAWG and the suffix automaton are instances, so
      those results hold for them.

    ** How the code is translated

    Code that can panic returns [exec A], the option type: [Ret] is a normal return
    and [Panic] a panic, an arithmetic check or, in the unchecked readers, a read out
    of bounds.  Errors are [result].  A w-bit integer is a [Z] with the wrap-around
    written out, as in a release build; [debug_assert!] is left out.  A map of the
    code is a [gmap], a vector a list, a page or file a list of bytes.  Labels of
    characters and bytes are [nat].  Loops are structural where the code consumes a
    list and run on fuel elsewhere; running out of fuel is a panic, so every theorem
    that a function returns also shows that its fuel is enough.  The bounds are named
    at the definitions: a decoder has one unit for every byte left, a traversal one
    for every edge, a breadth-first loop one for every node.  Iterators are stated
    with a bound on the number of calls after which any more give the same.

    ** What is proved

    - Refinement to finite maps: of the nodes (C1), bucket pages (C15), both
      double-array builders (C12, C13) and the DAWG, whose concurrent
      operations are linearizable and lock-free (C6, C30).
    - The suffix index refines its list of sources under any sequence of operations
      (C8) and any interleaving of threads (C7); its snapshots and its
      iteration over all substrings are exact (C22, C23).
    - The overlay: its edge stores are maps (C19); an evicted tree has the same keys
      and faulting reads of it are exact (C16); durable writes are linearizable in
      the order of their generations (C5), and after a crash at any point the log
      gives back what was acknowledged (C4); counters do not wrap (C38).
    - Crash safety: recovery gives back what was logged, whole transactions only, on
      every file content (C2, C3); what was synced survives (C11); acknowledged
      concurrent appends are in the file (C10);
      corrupted frames are found (C32); the order of replay is last writer wins
      (C9); incremental recovery and recovery agree (C33); an overlay
      rebuild is complete (C34); the watermark is exact (C31).
    - Memory safety of unchecked code: the validator accepts exactly the well-formed
      layouts (C21), the builder makes such a layout (C14), unchecked cursors on
      it stay in bounds (C20), and so do the readers of a compact graph (C28),
      which represents the DAWG revision it was made from (C17).
    - Child pointers: their protocol under interleaved threads (C29).
    - Functional results: round trips of dictionaries (C24,
      C27), set algebra and prefix iteration (C25, C26), minimality
      after compaction (C18), decoding that never panics (C35).
    - Defects, each as a theorem on a concrete run or as a general theorem
      (C36, C37, C39, C40), and unnumbered theorems of
      the same files (overlapping transactions, an append behind a torn tail, aborted
      transactions in a rebuild, the overwritten root of the incremental builder, the
      waste an emptied bucket keeps, a union that restores removed texts, a child
      pointer lost to a race).  Other theorems without a number are the round trip of
      log records, the encoding bounds of a child word, the set operations on zippers
      and the deserialization of the suffix index.

    ** Not modelled

    - Files, directories, clocks, memory mapping and threads themselves (the disk and
      buffer managers, the asynchronous writer, group commit, eviction): operating
      system calls with little logic of their own.  File contents and the result of a
      write are arguments of the models that need them.
    - Reference counting and reclamation (Arc, arc-swap, epochs): memory only grows in
      the models, which is what retaining a version means to its reader.  Memory
      orders are taken as sequentially consistent.
    - Of the overlay: the eviction coordinator (a refused eviction or load appears as a
      publication that does not land), the batch plan for branching candidates, the
      enumeration of keys, checkpoints and the encoding of nodes in arenas.  The decoded
      record of an arena slot is a parameter with a well-formedness hypothesis, and the
      bincode layout of a counter another; both have concrete instances.  A faulting
      read is one step, because each of its rounds looks at one published root.
    - The character, integer and vocabulary variants of the persistent trie; the
      compact DAWG of substrings (scdawg); DawgCore, the mutable predecessor of the
      DAWG; the Bloom filter and the bijective map.  They repeat what is modelled over
      other units, or stand apart from it.
    - Serialization through third-party crates, the foreign-function interface and
      the path map, which calls a third-party trie. *)

From stdpp Require Import prelude gmap sorting.

(** ** Notations

    Rust code that can panic (an index out of range, a failed [assert!]) is
    modelled in the option monad: [Some] is a normal return, [None] is the
    panic.  The names [Ret] and [Panic] keep that reading apart from Rust's
    own [Option]. *)

Declare Scope rust_scope.
Delimit Scope rust_scope with rust.
Notation "'exec' A" := (option A) (at level 1, A at level 9, only parsing) : type_scope.
Notation Ret := Some (only parsing).
Notation Panic := None (only parsing).

(** Rust's [Result<A, E>]. *)
Inductive result (A E : Type) : Type :=
| Ok (a : A)
| Err (e : E).
Arguments Ok {A E} a.
Arguments Err {A E} e.

(** [m?] in a function that returns a [Result] and may panic. *)
Definition try_bind {A B E} (m : exec (result A E)) (k : A → exec (result B E)) : exec (result B E) :=
  r ← m; match r with Ok x => k x | Err e => Ret (Err e) end.

(** ** Machine integers

    An unsigned w-bit integer is a [Z] in [0, 2^w); [uN] is Rust's [as uN]. *)

Definition u8 (z : Z) : Z := (z mod 2 ^ 8)%Z.
Definition u16 (z : Z) : Z := (z mod 2 ^ 16)%Z.
Definition u32 (z : Z) : Z := (z mod 2 ^ 32)%Z.
Definition u64 (z : Z) : Z := (z mod 2 ^ 64)%Z.

(** Rust's [as i64]: the two's-complement reading of the low 64 bits. *)
Definition i64 (z : Z) : Z := ((z + 2 ^ 63) mod 2 ^ 64 - 2 ^ 63)%Z.

Definition is_u8 (z : Z) : Prop := (0 ≤ z < 2 ^ 8)%Z.
Definition is_u16 (z : Z) : Prop := (0 ≤ z < 2 ^ 16)%Z.
Definition is_u32 (z : Z) : Prop := (0 ≤ z < 2 ^ 32)%Z.
Definition is_u64 (z : Z) : Prop := (0 ≤ z < 2 ^ 64)%Z.
Definition is_i64 (z : Z) : Prop := (- 2 ^ 63 ≤ z < 2 ^ 63)%Z.

(** A Rust [&[u8]] or [Vec<u8>]. *)
Definition is_bytes (l : list Z) : Prop := Forall is_u8 l.

#[global] Instance is_u8_dec z : Decision (is_u8 z).
Proof. unfold is_u8. apply _. Defined.
#[global] Instance is_u64_dec z : Decision (is_u64 z).
Proof. unfold is_u64. apply _. Defined.
#[global] Instance is_bytes_dec l : Decision (is_bytes l).
Proof. unfold is_bytes. apply _. Defined.

(** ** Loops and arrays *)

(** [a[i] = x] on a slice or array: panics when [i] is out of range. *)
Definition store {A} (l : list A) (i : nat) (x : A) : exec (list A) :=
  if decide (i < length l) then Ret (<[i := x]> l) else Panic.

(** [&l[..n]]: panics when [n] is past the end. *)
Definition slice_to {A} (l : list A) (n : nat) : exec (list A) :=
  if decide (n ≤ length l) then Ret (take n l) else Panic.

(** [for x in l { s = f(s, x) }], where the body may panic. *)
Fixpoint foldM {A S} (f : S → A → exec S) (s : S) (l : list A) : exec S :=
  match l with
  | [] => Ret s
  | x :: l => s' ← f s x; foldM f s' l
  end.

(** [for i in i..i + n { if let Some(r) = f(i) { return Some(r) } } None]. *)
Fixpoint for_return {R} (f : nat → exec (option R)) (i n : nat) : exec (option R) :=
  match n with
  | O => Ret None
  | S n =>
      r ← f i;
      match r with
      | Some x => Ret (Some x)
      | None => for_return f (S i) n
      end
  end.

(** [l.iter().filter_map(f).collect()], where the closure may panic. *)
Fixpoint filter_mapM {A B} (f : A → exec (option B)) (l : list A) : exec (list B) :=
  match l with
  | [] => Ret []
  | x :: l => r ← f x; t ← filter_mapM f l; Ret (match r with Some y => y :: t | None => t end)
  end.

(** [l.iter().enumerate()] *)
Definition enumerate {A} (l : list A) : list (Z * A) := zip (seqZ 0 (Z.of_nat (length l))) l.

(** ** Automation *)

Create HintDb dict.
#[export] Hint Constructors StronglySorted : dict.
#[export] Hint Extern 4 (_ ≤ _)%nat => lia : dict.
#[export] Hint Extern 4 (_ < _)%nat => lia : dict.
#[export] Hint Extern 4 (_ ≤ _)%Z => lia : dict.
#[export] Hint Extern 4 (_ < _)%Z => lia : dict.

(** Case analysis on the boolean and decidable tests of a model. *)
Ltac dict_case :=
  repeat first
    [ case_bool_decide
    | case_decide
    | match goal with
      | |- context [(?a =? ?b)%Z] => destruct (Z.eqb_spec a b)
      | |- context [(?a <? ?b)%Z] => destruct (Z.ltb_spec a b)
      | |- context [(?a <=? ?b)%Z] => destruct (Z.leb_spec a b)
      end ].

(** ** Lemmas on loops and arrays *)

Lemma store_Some {A} (l : list A) i x :
  i < length l → store l i x = Some (<[i := x]> l).
Proof. intros. unfold store. by rewrite decide_True. Qed.

Lemma store_inv {A} (l l' : list A) i x :
  store l i x = Some l' → i < length l ∧ l' = <[i := x]> l.
Proof. unfold store. case_decide; naive_solver. Qed.

Lemma foldM_app {A S} (f : S → A → option S) s l1 l2 :
  foldM f s (l1 ++ l2) = foldM f s l1 ≫= λ s', foldM f s' l2.
Proof.
  revert s. induction l1 as [|x l1 IH]; intros s; simpl; [done|].
  destruct (f s x); simpl; auto.
Qed.

(** The loop invariant rule: [P l s] holds of the items consumed so far. *)
Lemma foldM_inv {A S} (P : list A → S → Prop) (f : S → A → option S) s l :
  P [] s →
  (∀ done x rest s, l = done ++ x :: rest → P done s →
    ∃ s', f s x = Some s' ∧ P (done ++ [x]) s') →
  ∃ s', foldM f s l = Some s' ∧ P l s'.
Proof.
  intros H0 Hstep.
  assert (∀ rest done s0, l = done ++ rest → P done s0 →
    ∃ s', foldM f s0 rest = Some s' ∧ P l s') as Hgen.
  { induction rest as [|x rest IH]; intros done s0 Hl HP; simpl.
    - rewrite app_nil_r in Hl. subst. eauto.
    - destruct (Hstep done x rest s0 Hl HP) as (s1 & -> & HP1). simpl.
      apply (IH (done ++ [x])); [by rewrite <-app_assoc|done]. }
  by apply (Hgen l [] s).
Qed.

(** What a [for] loop with an early return computes. *)
Lemma for_return_spec {R} (f : nat → option (option R)) i n :
  (∀ j, i ≤ j < i + n → is_Some (f j)) →
  ∃ r, for_return f i n = Some r ∧
    match r with
    | None => ∀ j, i ≤ j < i + n → f j = Some None
    | Some x => ∃ j, i ≤ j < i + n ∧ f j = Some (Some x) ∧
                  ∀ j', i ≤ j' < j → f j' = Some None
    end.
Proof.
  revert i. induction n as [|n IH]; intros i Hf; simpl.
  - exists None. split; [done|]. intros. lia.
  - destruct (Hf i) as [[x|] Hi]; [lia|..]; rewrite Hi; simpl.
    + exists (Some x). split; [done|]. exists i. repeat split; auto with lia.
    + destruct (IH (S i)) as (r & -> & Hr); [intros; apply Hf; lia|].
      exists r. split; [done|]. destruct r as [x|].
      * destruct Hr as (j & ? & ? & Hlt). exists j. repeat split; [lia..|done|].
        intros j' ?. destruct (decide (j' = i)) as [->|]; [done|]. apply Hlt. lia.
      * intros j ?. destruct (decide (j = i)) as [->|]; [done|]. apply Hr. lia.
Qed.

Lemma filter_mapM_spec {A B} (f : A → option (option B)) g (l : list A) :
  (∀ x, x ∈ l → f x = Some (g x)) → filter_mapM f l = Some (omap g l).
Proof.
  intros Hf. induction l as [|x l IH]; simpl; [done|].
  rewrite (Hf x), IH by set_solver. simpl. by destruct (g x).
Qed.

Lemma mapM_pure {A B} (f : A → option B) (g : A → B) (l : list A) :
  (∀ x, x ∈ l → f x = Some (g x)) → mapM f l = Some (g <$> l).
Proof.
  intros Hf. apply mapM_Some, Forall2_fmap_r, Forall_Forall2_diag, Forall_forall. exact Hf.
Qed.

Lemma omap_ext' {A B} (f g : A → option B) (l : list A) : (∀ x, x ∈ l → f x = g x) → omap f l = omap g l.
Proof.
  intros Hfg. induction l as [|x l IH]; simpl; [done|].
  rewrite (Hfg x) by set_solver. destruct (g x); [f_equal|]; apply IH; set_solver.
Qed.

Lemma omap_enumerate {A B} (f : Z → A → option B) (l : list A) :
  omap (λ p, f p.1 p.2) (enumerate l) =
  omap (λ k, x ← l !! Z.to_nat k; f k x) (seqZ 0 (Z.of_nat (length l))).
Proof.
  unfold enumerate.
  assert (∀ m, omap (λ p, f p.1 p.2) (zip (seqZ m (Z.of_nat (length l))) l) =
    omap (λ k, x ← l !! Z.to_nat (k - m); f k x) (seqZ m (Z.of_nat (length l)))) as Hgen.
  { induction l as [|x l IH]; intros m; [done|]. simpl length.
    rewrite Nat2Z.inj_succ, seqZ_cons, Z.pred_succ by lia. simpl.
    rewrite Z.sub_diag. simpl. rewrite IH.
    rewrite (omap_ext' (λ k, x0 ← (x :: l) !! Z.to_nat (k - m); f k x0)
      (λ k, x0 ← l !! Z.to_nat (k - Z.succ m); f k x0)); [done|].
    intros k [? ?]%elem_of_seqZ.
    replace (Z.to_nat (k - m)) with (S (Z.to_nat (k - Z.succ m))) by lia. done. }
  rewrite Hgen. apply omap_ext'. intros k _. by rewrite Z.sub_0_r.
Qed.

Lemma StronglySorted_lookup_lt {A} (R : A → A → Prop) l i j x y :
  StronglySorted R l → (i < j)%nat → l !! i = Some x → l !! j = Some y → R x y.
Proof.
  intros Hl. revert i j. induction Hl as [|z l _ IH Hz]; intros [|i] [|j] Hij Hx Hy;
    simplify_eq/=; try lia.
  - by eapply Forall_lookup_1 in Hz.
  - apply (IH i j); auto with lia.
Qed.

(** ** Lemmas on machine integers *)

Lemma u8_id z : is_u8 z → u8 z = z.
Proof. unfold u8, is_u8. intros. apply Z.mod_small. lia. Qed.
Lemma u16_id z : is_u16 z → u16 z = z.
Proof. unfold u16, is_u16. intros. apply Z.mod_small. lia. Qed.
Lemma u32_id z : is_u32 z → u32 z = z.
Proof. unfold u32, is_u32. intros. apply Z.mod_small. lia. Qed.
Lemma u64_id z : is_u64 z → u64 z = z.
Proof. unfold u64, is_u64. intros. apply Z.mod_small. lia. Qed.
Lemma i64_id z : is_i64 z → i64 z = z.
Proof. unfold i64, is_i64. intros. rewrite Z.mod_small; lia. Qed.

(** ** Lemmas on bit fields *)

Lemma lor_shiftl_add a b n :
  (0 ≤ n)%Z → (0 ≤ b < 2 ^ n)%Z → Z.lor (Z.shiftl a n) b = (a * 2 ^ n + b)%Z.
Proof.
  intros Hn Hb. rewrite <-Z.shiftl_mul_pow2 by done.
  symmetry. apply Z.add_nocarry_lor. apply Z.bits_inj'. intros i Hi.
  rewrite Z.land_spec, Z.bits_0. destruct (decide (i < n)%Z).
  - by rewrite Z.shiftl_spec_low.
  - rewrite <-(Z.mod_small b (2 ^ n)) by lia.
    rewrite Z.mod_pow2_bits_high by lia. apply andb_false_r.
Qed.

Lemma lor_mul_add a b n :
  (0 ≤ n)%Z → (0 ≤ b < 2 ^ n)%Z → Z.lor (a * 2 ^ n) b = (a * 2 ^ n + b)%Z.
Proof. intros. rewrite <-(lor_shiftl_add a b n), Z.shiftl_mul_pow2 by lia. done. Qed.

Lemma land_mask a n : (0 ≤ n)%Z → Z.land a (Z.shiftl 1 n - 1) = (a mod 2 ^ n)%Z.
Proof.
  intros. rewrite Z.shiftl_1_l, Z.sub_1_r, <-Z.ones_equiv. by apply Z.land_ones.
Qed.

Lemma land_pow2_eqb a n :
  (0 ≤ n)%Z → (Z.land a (2 ^ n) =? 0)%Z = negb (Z.testbit a n).
Proof.
  intros Hn. destruct (Z.testbit a n) eqn:E; simpl.
  - apply Z.eqb_neq. intros H. apply (f_equal (λ z, Z.testbit z n)) in H.
    rewrite Z.land_spec, E, Z.bits_0, Z.pow2_bits_true in H by done. simpl in H. done.
  - apply Z.eqb_eq, Z.bits_inj'. intros i Hi.
    rewrite Z.land_spec, Z.bits_0, Z.pow2_bits_eqb by done.
    destruct (Z.eqb_spec n i) as [->|]; [by rewrite E|apply andb_false_r].
Qed.

(** The top bit of a w-bit word. *)
Lemma testbit_top a n : (0 ≤ n)%Z → (0 ≤ a < 2 ^ (n + 1))%Z → Z.testbit a n = (2 ^ n <=? a)%Z.
Proof.
  intros Hn Ha. rewrite Z.pow_add_r in Ha by lia.
  rewrite Z.testbit_eqb by done.
  destruct (Z.leb_spec (2 ^ n) a).
  - rewrite <-(Z.div_unique_pos a (2 ^ n) 1 (a - 2 ^ n)) by lia. done.
  - by rewrite Z.div_small by lia.
Qed.

(** Two arrays updated in one loop are two loops, when neither panics. *)
Lemma foldM_pair {A S T} (f : S → A → option S) (g : T → A → option T) s t l s' t' :
  foldM f s l = Some s' → foldM g t l = Some t' →
  foldM (λ '(x, y) i, x' ← f x i; y' ← g y i; Ret (x', y')) (s, t) l = Some (s', t').
Proof.
  revert s t. induction l as [|x l IH]; intros s t Hf Hg; simpl in *; [by simplify_eq|].
  destruct (f s x) as [s1|]; simpl in *; [|done].
  destruct (g t x) as [t1|]; simpl in *; [|done]. auto.
Qed.

Lemma StronglySorted_NoDup {A} (R : A → A → Prop) (l : list A) : (∀ x, ¬ R x x) → StronglySorted R l → NoDup l.
Proof.
  intros HR. induction 1 as [|x l _ IH Hx]; constructor; [|done]. intros Hin. rewrite Forall_forall in Hx. by apply (HR x), Hx.
Qed.

Lemma StronglySorted_weaken {A} (R Q : A → A → Prop) (l : list A) :
  (∀ a b, R a b → Q a b) → StronglySorted R l → StronglySorted Q l.
Proof.
  intros HRQ Hl. induction Hl as [|x l _ IH Hx]; constructor; [done|]. eapply Forall_impl; [exact Hx|]. auto.
Qed.

Lemma StronglySorted_filter {A} (R : A → A → Prop) (P : A → Prop) `{∀ x, Decision (P x)} l :
  StronglySorted R l → StronglySorted R (filter P l).
Proof.
  induction 1 as [|x l _ IH Hx]; [constructor|]. rewrite filter_cons. case_decide; [|done].
  constructor; [done|]. apply Forall_forall. intros y [_ Hy]%list_elem_of_filter.
  rewrite Forall_forall in Hx. auto.
Qed.

Lemma StronglySorted_seq i n : StronglySorted lt (seq i n).
Proof.
  revert i. induction n as [|n IH]; intros i; [constructor|]. cbn. constructor; [apply IH|].
  apply Forall_forall. intros x Hx%elem_of_seq. lia.
Qed.
