(* ===== verification/SwizzledPtr.v ===== *)
(** * Swizzled pointers (src/src/persistent_artrie/core/swizzled_ptr.rs)

    A [SwizzledPtr] is an atomic 64-bit state word next to an atomic memory
    pointer.  With bit 63 of the word clear it is null (0) or a packed disk
    reference; with it set it is a memory state or one of two transitional
    states.  Every operation that touches the two atomics is a program of
    atomic actions ([prog]), so the same definition has a sequential meaning
    ([run]) and a concurrent one ([cstep], the interleaving of threads on one
    pointer in sequentially consistent order).  [debug_assert!]s are compiled
    out, as in a release build. *)

From stdpp Require Import prelude.
From S2P Require Import Prelude.

Local Open Scope Z_scope.

(** ** Constants *)

Definition SWIZZLE_FLAG : Z := Z.shiftl 1 63.
Definition MEMORY_STATE : Z := SWIZZLE_FLAG.
Definition INSTALLING_MEMORY_STATE : Z := Z.lor SWIZZLE_FLAG 1.
Definition EVICTING_MEMORY_STATE : Z := Z.lor SWIZZLE_FLAG 2.

Definition BLOCK_ID_SHIFT : Z := 40.
Definition OFFSET_SHIFT : Z := 18.
Definition BLOCK_ID_BITS : Z := 23.
Definition OFFSET_BITS : Z := 22.
Definition FLAGS_BITS : Z := 18.
Definition BLOCK_ID_MASK : Z := Z.shiftl 1 BLOCK_ID_BITS - 1.
Definition OFFSET_MASK : Z := Z.shiftl 1 OFFSET_BITS - 1.
Definition FLAGS_MASK : Z := Z.shiftl 1 FLAGS_BITS - 1.
Definition MAX_BLOCK_ID : Z := Z.shiftl 1 BLOCK_ID_BITS - 1.
Definition MAX_OFFSET : Z := Z.shiftl 1 OFFSET_BITS - 1.

(** ** Node types *)

Inductive NodeType : Set :=
| TNode4 | TNode16 | TNode48 | TNode256 | TBucket
| TCharNode4 | TCharNode16 | TCharNode48 | TCharBucket.

#[global] Instance NodeType_eq_dec : EqDecision NodeType.
Proof. solve_decision. Defined.

(** The [#[repr(u8)]] discriminants. *)
Definition NodeType_code (t : NodeType) : Z :=
  match t with
  | TNode4 => 4 | TNode16 => 16 | TNode48 => 48 | TNode256 => 0 | TBucket => 1
  | TCharNode4 => 104 | TCharNode16 => 116 | TCharNode48 => 148 | TCharBucket => 101
  end.

Definition NodeType_from_u8 (value : Z) : option NodeType :=
  match value with
  | 4 => Some TNode4
  | 16 => Some TNode16
  | 48 => Some TNode48
  | 0 => Some TNode256
  | 1 => Some TBucket
  | 104 => Some TCharNode4
  | 116 => Some TCharNode16
  | 148 => Some TCharNode48
  | 101 => Some TCharBucket
  | _ => None
  end.

Definition is_byte_level (t : NodeType) : bool :=
  match t with
  | TNode4 | TNode16 | TNode48 | TNode256 | TBucket => true
  | _ => false
  end.

Definition is_char_level (t : NodeType) : bool :=
  match t with
  | TCharNode4 | TCharNode16 | TCharNode48 | TCharBucket => true
  | _ => false
  end.

(** ** Errors, locations and the pointer itself *)

Inductive SwizzleError : Set :=
| AlreadySwizzled
| AlreadyUnswizzled
| RaceCondition
| NullPointer
| BlockIdOverflow (block_id : Z)
| OffsetOverflow (offset : Z)
| InvalidNodeType (value : Z).

Record DiskLocation := mkDiskLocation {
  block_id : Z;
  offset : Z;
  node_type : NodeType;
}.

Record ArenaSlot := mkArenaSlot {
  arena_id : Z;
  slot_id : Z;
}.

(** [memory_ptr] is the address held by the [AtomicPtr]; 0 is the null
    pointer. *)
Record SwizzledPtr := mkPtr {
  state : Z;
  memory_ptr : Z;
}.

#[global] Instance SwizzledPtr_eq_dec : EqDecision SwizzledPtr.
Proof. solve_decision. Defined.

Definition null : SwizzledPtr := mkPtr 0 0.

(** The packed disk reference built by [on_disk] and [unswizzle]. *)
Definition encode_disk (block_id offset : Z) (t : NodeType) : Z :=
  Z.lor
    (Z.lor (Z.shiftl (Z.land block_id BLOCK_ID_MASK) BLOCK_ID_SHIFT)
           (Z.shiftl (Z.land offset OFFSET_MASK) OFFSET_SHIFT))
    (Z.land (NodeType_code t) FLAGS_MASK).

Definition on_disk (block_id offset : Z) (t : NodeType) : SwizzledPtr :=
  mkPtr (encode_disk block_id offset t) 0.

Definition try_on_disk (block_id offset : Z) (t : NodeType) : result SwizzledPtr SwizzleError :=
  if MAX_BLOCK_ID <? block_id then Err (BlockIdOverflow block_id)
  else if MAX_OFFSET <? offset then Err (OffsetOverflow offset)
  else Ok (on_disk block_id offset t).

Definition in_memory (ptr : Z) : exec SwizzledPtr :=
  if ptr =? 0 then Panic else Ret (mkPtr MEMORY_STATE ptr).

Definition is_null (p : SwizzledPtr) : bool := state p =? 0.

Definition is_swizzled (p : SwizzledPtr) : bool :=
  (state p =? MEMORY_STATE) && negb (memory_ptr p =? 0).

Definition is_on_disk (p : SwizzledPtr) : bool :=
  negb (state p =? 0) && (Z.land (state p) SWIZZLE_FLAG =? 0).

(** [disk_location] reads the state word once. *)
Definition decode_disk (val : Z) : option DiskLocation :=
  if (val =? 0) || negb (Z.land val SWIZZLE_FLAG =? 0) then None
  else
    let block_id := u32 (Z.land (Z.shiftr val BLOCK_ID_SHIFT) BLOCK_ID_MASK) in
    let offset := u32 (Z.land (Z.shiftr val OFFSET_SHIFT) OFFSET_MASK) in
    let type_byte := u8 (Z.land val FLAGS_MASK) in
    t ← NodeType_from_u8 type_byte;
    Some (mkDiskLocation block_id offset t).

Definition disk_location (p : SwizzledPtr) : option DiskLocation := decode_disk (state p).

Definition to_raw (p : SwizzledPtr) : Z := state p.
Definition from_raw (raw : Z) : SwizzledPtr := mkPtr raw 0.

Definition as_arena_slot (p : SwizzledPtr) : option ArenaSlot :=
  loc ← disk_location p;
  if block_id loc <? 1 then None
  else Some (mkArenaSlot (block_id loc - 1) (offset loc)).

(** [u32::saturating_add(1)]. *)
Definition from_arena_slot (slot : ArenaSlot) (t : NodeType) : SwizzledPtr :=
  on_disk (Z.min (arena_id slot + 1) (2 ^ 32 - 1)) (slot_id slot) t.

(** [u32::checked_add(1)]. *)
Definition try_from_arena_slot (slot : ArenaSlot) (t : NodeType) :
    result SwizzledPtr SwizzleError :=
  if 2 ^ 32 - 1 <? arena_id slot + 1 then Err (BlockIdOverflow (arena_id slot))
  else try_on_disk (arena_id slot + 1) (slot_id slot) t.

(** [u64] arithmetic, wrapping as in a release build. *)
Definition file_offset (loc : DiskLocation) (block_size : Z) : Z :=
  u64 (block_id loc * block_size + offset loc).

Definition ArenaSlot_to_u64 (s : ArenaSlot) : Z :=
  Z.lor (u64 (Z.shiftl (arena_id s) 32)) (slot_id s).

Definition ArenaSlot_from_u64 (value : Z) : ArenaSlot :=
  mkArenaSlot (u32 (Z.shiftr value 32)) (u32 (Z.land value 0xFFFFFFFF)).

(** ** Atomic programs

    One constructor per atomic access the code makes to its own two fields.
    [CasState] is [compare_exchange]: it yields [Ok] of the value it replaced
    or [Err] of the value it found.  [PAbort] is a failed [assert!]. *)

Inductive prog (R : Type) : Type :=
| PRet (r : R)
| PAbort
| LoadState (k : Z → prog R)
| LoadPtr (k : Z → prog R)
| StoreState (v : Z) (k : prog R)
| StorePtr (v : Z) (k : prog R)
| CasState (expected new : Z) (k : result Z Z → prog R).
Arguments PRet {R} r.
Arguments PAbort {R}.
Arguments LoadState {R} k.
Arguments LoadPtr {R} k.
Arguments StoreState {R} v k.
Arguments StorePtr {R} v k.
Arguments CasState {R} expected new k.

(** Sequential composition. *)
Fixpoint pbind {A B} (q : prog A) (f : A → prog B) : prog B :=
  match q with
  | PRet r => f r
  | PAbort => PAbort
  | LoadState k => LoadState (λ v, pbind (k v) f)
  | LoadPtr k => LoadPtr (λ v, pbind (k v) f)
  | StoreState v k => StoreState v (pbind k f)
  | StorePtr v k => StorePtr v (pbind k f)
  | CasState e n k => CasState e n (λ r, pbind (k r) f)
  end.

Definition compare_exchange (p : SwizzledPtr) (expected new : Z) : SwizzledPtr * result Z Z :=
  if state p =? expected then (mkPtr new (memory_ptr p), Ok expected) else (p, Err (state p)).

(** The first atomic action of a program, and what is left of it. *)
Definition act {R} (q : prog R) (p : SwizzledPtr) : option (prog R * SwizzledPtr) :=
  match q with
  | PRet _ | PAbort => None
  | LoadState k => Some (k (state p), p)
  | LoadPtr k => Some (k (memory_ptr p), p)
  | StoreState v k => Some (k, mkPtr v (memory_ptr p))
  | StorePtr v k => Some (k, mkPtr (state p) v)
  | CasState e n k => let '(p', r) := compare_exchange p e n in Some (k r, p')
  end.

(** Running a program alone. [None] is a panic. *)
Fixpoint run {R} (q : prog R) (p : SwizzledPtr) : exec (R * SwizzledPtr) :=
  match q with
  | PRet r => Ret (r, p)
  | PAbort => Panic
  | LoadState k => run (k (state p)) p
  | LoadPtr k => run (k (memory_ptr p)) p
  | StoreState v k => run k (mkPtr v (memory_ptr p))
  | StorePtr v k => run k (mkPtr (state p) v)
  | CasState e n k => let '(p', r) := compare_exchange p e n in run (k r) p'
  end.

(** Threads racing on one pointer. *)
Definition config (R : Type) : Type := SwizzledPtr * list (prog R).

Inductive cstep {R} : config R → config R → Prop :=
| cstep_at (i : nat) q q' p p' ts :
    ts !! i = Some q → act q p = Some (q', p') → cstep (p, ts) (p', <[i := q']> ts).

(** The run of one schedule: the threads that move, in order. *)
Fixpoint run_schedule {R} (sched : list nat) (c : config R) : option (config R) :=
  match sched with
  | [] => Some c
  | i :: sched =>
      q ← c.2 !! i;
      '(q', p') ← act q c.1;
      run_schedule sched (p', <[i := q']> c.2)
  end.

(** ** The operations *)

Definition swizzle (ptr : Z) : prog (result unit SwizzleError) :=
  if ptr =? 0 then PAbort else
  LoadState (λ old,
    if old =? MEMORY_STATE then PRet (Err AlreadySwizzled)
    else if negb (Z.land old SWIZZLE_FLAG =? 0) then PRet (Err RaceCondition)
    else if old =? 0 then PRet (Err AlreadyUnswizzled)
    else CasState old INSTALLING_MEMORY_STATE (λ r,
      match r with
      | Err _ => PRet (Err RaceCondition)
      | Ok _ => StorePtr ptr (StoreState MEMORY_STATE (PRet (Ok tt)))
      end)).

Definition unswizzle (block_id offset : Z) (t : NodeType) : prog (result Z SwizzleError) :=
  if MAX_BLOCK_ID <? block_id then PRet (Err (BlockIdOverflow block_id))
  else if MAX_OFFSET <? offset then PRet (Err (OffsetOverflow offset))
  else LoadState (λ old,
    if Z.land old SWIZZLE_FLAG =? 0 then PRet (Err AlreadyUnswizzled)
    else if negb (old =? MEMORY_STATE) then PRet (Err RaceCondition)
    else
      let new := encode_disk block_id offset t in
      CasState MEMORY_STATE EVICTING_MEMORY_STATE (λ r,
        match r with
        | Err _ => PRet (Err RaceCondition)
        | Ok _ =>
            LoadPtr (λ old_ptr,
              if old_ptr =? 0 then StoreState MEMORY_STATE (PRet (Err RaceCondition))
              else StorePtr 0 (StoreState new (PRet (Ok old_ptr))))
        end)).

Definition as_ptr : prog (option Z) :=
  LoadState (λ s,
    if negb (s =? MEMORY_STATE) then PRet None
    else LoadPtr (λ ptr, PRet (if ptr =? 0 then None else Some ptr))).

Definition store_raw (value : Z) : prog unit := StorePtr 0 (StoreState value (PRet tt)).

Definition compare_exchange_raw (expected new : Z) : prog (result Z Z) :=
  if negb (Z.land expected SWIZZLE_FLAG =? 0) || negb (Z.land new SWIZZLE_FLAG =? 0)
  then LoadState (λ s, PRet (Err s))
  else CasState expected new (λ r, PRet r).

(** The argument pointers of the two child operations are read first and not
    shared with other threads, so they are passed as values. *)
Definition try_insert_child (new_child : SwizzledPtr) : prog (result unit Z) :=
  let new_raw := state new_child in
  if new_raw =? MEMORY_STATE then
    let new_ptr := memory_ptr new_child in
    if new_ptr =? 0 then LoadState (λ s, PRet (Err s))
    else CasState 0 INSTALLING_MEMORY_STATE (λ r,
      match r with
      | Ok _ => StorePtr new_ptr (StoreState MEMORY_STATE (PRet (Ok tt)))
      | Err actual => PRet (Err actual)
      end)
  else if negb (Z.land new_raw SWIZZLE_FLAG =? 0) then LoadState (λ s, PRet (Err s))
  else pbind (compare_exchange_raw 0 new_raw) (λ r,
    match r with
    | Ok _ => PRet (Ok tt)
    | Err actual => PRet (Err actual)
    end).

Definition try_update_child (expected_child new_child : SwizzledPtr) : prog (result unit Z) :=
  let expected_raw := state expected_child in
  let new_raw := state new_child in
  let expected_ptr := memory_ptr expected_child in
  let new_ptr := memory_ptr new_child in
  if (negb (Z.land expected_raw SWIZZLE_FLAG =? 0) && negb (expected_raw =? MEMORY_STATE))
     || (negb (Z.land new_raw SWIZZLE_FLAG =? 0) && negb (new_raw =? MEMORY_STATE))
  then LoadState (λ s, PRet (Err s))
  else
    match expected_raw =? MEMORY_STATE, new_raw =? MEMORY_STATE with
    | false, false =>
        pbind (compare_exchange_raw expected_raw new_raw) (λ r,
          match r with
          | Ok _ => StorePtr 0 (PRet (Ok tt))
          | Err actual => PRet (Err actual)
          end)
    | false, true =>
        if new_ptr =? 0 then LoadState (λ s, PRet (Err s))
        else CasState expected_raw INSTALLING_MEMORY_STATE (λ r,
          match r with
          | Ok _ => StorePtr new_ptr (StoreState MEMORY_STATE (PRet (Ok tt)))
          | Err actual => PRet (Err actual)
          end)
    | true, false =>
        if expected_ptr =? 0 then LoadState (λ s, PRet (Err s))
        else LoadState (λ s0,
          if negb (s0 =? MEMORY_STATE) then LoadState (λ s, PRet (Err s))
          else LoadPtr (λ m0,
            if negb (m0 =? expected_ptr) then LoadState (λ s, PRet (Err s))
            else CasState MEMORY_STATE EVICTING_MEMORY_STATE (λ r,
              match r with
              | Err actual => PRet (Err actual)
              | Ok _ =>
                  LoadPtr (λ actual_ptr,
                    if negb (actual_ptr =? expected_ptr)
                    then StoreState MEMORY_STATE (PRet (Err MEMORY_STATE))
                    else StorePtr 0 (StoreState new_raw (PRet (Ok tt))))
              end)))
    | true, true =>
        if (expected_ptr =? 0) || (new_ptr =? 0) then LoadState (λ s, PRet (Err s))
        else LoadState (λ s0,
          if negb (s0 =? MEMORY_STATE) then LoadState (λ s, PRet (Err s))
          else LoadPtr (λ m0,
            if negb (m0 =? expected_ptr) then LoadState (λ s, PRet (Err s))
            else CasState MEMORY_STATE INSTALLING_MEMORY_STATE (λ r,
              match r with
              | Err actual => PRet (Err actual)
              | Ok _ =>
                  LoadPtr (λ actual_ptr,
                    if negb (actual_ptr =? expected_ptr)
                    then StoreState MEMORY_STATE (PRet (Err MEMORY_STATE))
                    else StorePtr new_ptr (StoreState MEMORY_STATE (PRet (Ok tt))))
              end)))
    end.

(** ** Bit-field lemmas *)

Definition loc_ok (b o : Z) : Prop := 0 ≤ b ≤ MAX_BLOCK_ID ∧ 0 ≤ o ≤ MAX_OFFSET.

Lemma NodeType_code_range t : 0 ≤ NodeType_code t < 256.
Proof. by destruct t. Qed.

Lemma NodeType_from_code t : NodeType_from_u8 (NodeType_code t) = Some t.
Proof. by destruct t. Qed.

Lemma encode_disk_arith b o t :
  encode_disk b o t = (b mod 2 ^ 23) * 2 ^ 40 + (o mod 2 ^ 22) * 2 ^ 18 + NodeType_code t.
Proof.
  unfold encode_disk, BLOCK_ID_MASK, OFFSET_MASK, FLAGS_MASK, BLOCK_ID_BITS, OFFSET_BITS,
    FLAGS_BITS, BLOCK_ID_SHIFT, OFFSET_SHIFT.
  rewrite !land_mask by lia.
  rewrite (Z.mod_small (NodeType_code t)) by (pose proof (NodeType_code_range t); lia).
  pose proof (NodeType_code_range t).
  pose proof (Z.mod_pos_bound b (2 ^ 23)). pose proof (Z.mod_pos_bound o (2 ^ 22)).
  rewrite (Z.shiftl_mul_pow2 (o mod _)) by lia.
  rewrite lor_shiftl_add by lia.
  replace (b mod 2 ^ 23 * 2 ^ 40 + o mod 2 ^ 22 * 2 ^ 18)
    with ((b mod 2 ^ 23 * 2 ^ 22 + o mod 2 ^ 22) * 2 ^ 18) by lia.
  rewrite lor_mul_add by lia. lia.
Qed.

Lemma encode_disk_range b o t : 0 ≤ encode_disk b o t < 2 ^ 63.
Proof.
  rewrite encode_disk_arith. pose proof (NodeType_code_range t).
  pose proof (Z.mod_pos_bound b (2 ^ 23)). pose proof (Z.mod_pos_bound o (2 ^ 22)). lia.
Qed.

Lemma MEMORY_STATE_eq : MEMORY_STATE = 2 ^ 63.
Proof. done. Qed.

Lemma flag_clear v : 0 ≤ v < 2 ^ 63 → Z.land v SWIZZLE_FLAG = 0.
Proof.
  intros. apply Z.eqb_eq. unfold SWIZZLE_FLAG. rewrite Z.shiftl_1_l, land_pow2_eqb by lia.
  rewrite testbit_top by lia. destruct (Z.leb_spec (2 ^ 63) v); [lia|done].
Qed.

Lemma decode_encode b o t :
  loc_ok b o → encode_disk b o t ≠ 0 →
  decode_disk (encode_disk b o t) = Some (mkDiskLocation b o t).
Proof.
  intros [Hb Ho] Hne. unfold decode_disk.
  rewrite (proj2 (Z.eqb_neq _ _) Hne), flag_clear by apply encode_disk_range. simpl.
  unfold BLOCK_ID_MASK, OFFSET_MASK, FLAGS_MASK, BLOCK_ID_BITS, OFFSET_BITS,
    FLAGS_BITS, BLOCK_ID_SHIFT, OFFSET_SHIFT in *.
  unfold MAX_BLOCK_ID, MAX_OFFSET, BLOCK_ID_BITS, OFFSET_BITS in Hb, Ho.
  rewrite Z.shiftl_1_l in Hb, Ho.
  rewrite !land_mask, !Z.shiftr_div_pow2, encode_disk_arith by lia.
  pose proof (NodeType_code_range t).
  rewrite !(Z.mod_small b), !(Z.mod_small o) by lia.
  set (v := b * 2 ^ 40 + o * 2 ^ 18 + NodeType_code t).
  assert ((v / 2 ^ 40) mod 2 ^ 23 = b) as ->
    by (rewrite <-(Z.div_unique_pos v (2 ^ 40) b (o * 2 ^ 18 + NodeType_code t)) by (unfold v; lia);
        rewrite Z.mod_small; lia).
  assert ((v / 2 ^ 18) mod 2 ^ 22 = o) as ->.
  { rewrite <-(Z.div_unique_pos v (2 ^ 18) (b * 2 ^ 22 + o) (NodeType_code t)) by (unfold v; lia).
    rewrite Z.add_comm, Z.mod_add, Z.mod_small; lia. }
  assert (v mod 2 ^ 18 = NodeType_code t) as ->.
  { unfold v. replace (b * 2 ^ 40 + o * 2 ^ 18 + NodeType_code t)
      with (NodeType_code t + (b * 2 ^ 22 + o) * 2 ^ 18) by lia.
    rewrite Z.mod_add, Z.mod_small; lia. }
  rewrite u8_id by (unfold is_u8; lia). rewrite !u32_id by (unfold is_u32; lia).
  by rewrite NodeType_from_code.
Qed.

(** The only packed reference that collides with the null word. *)
Lemma encode_disk_zero b o t :
  loc_ok b o → encode_disk b o t = 0 ↔ (b = 0 ∧ o = 0 ∧ t = TNode256).
Proof.
  intros [Hb Ho]. rewrite encode_disk_arith.
  unfold MAX_BLOCK_ID, MAX_OFFSET, BLOCK_ID_BITS, OFFSET_BITS in Hb, Ho.
  rewrite Z.shiftl_1_l in Hb, Ho.
  rewrite !Z.mod_small by lia. pose proof (NodeType_code_range t).
  split.
  - intros. assert (b = 0) by lia. assert (o = 0) by lia.
    assert (NodeType_code t = 0) by lia. by destruct t.
  - intros (-> & -> & ->). done.
Qed.

Lemma on_disk_facts b o t :
  loc_ok b o → (b, o, t) ≠ (0, 0, TNode256) →
  disk_location (on_disk b o t) = Some (mkDiskLocation b o t) ∧
  is_on_disk (on_disk b o t) = true ∧
  is_null (on_disk b o t) = false ∧
  is_swizzled (on_disk b o t) = false.
Proof.
  intros Hok Hne.
  assert (encode_disk b o t ≠ 0) as Hnz.
  { intros (-> & -> & ->)%encode_disk_zero; done. }
  pose proof (encode_disk_range b o t). pose proof MEMORY_STATE_eq.
  unfold disk_location, is_on_disk, is_null, is_swizzled. simpl.
  rewrite (proj2 (Z.eqb_neq _ _) Hnz), flag_clear, decode_encode by done.
  by rewrite (proj2 (Z.eqb_neq _ MEMORY_STATE)) by lia.
Qed.

(** ** Disk references *)

(** A packed disk reference decodes to exactly the block, offset and node
    type it was built from, for every representable coordinate but the one
    whose encoding is the null word (block 0, offset 0, [Node256]); it is on
    disk, not swizzled and not null, and its raw word survives
    [to_raw]/[from_raw]. *)
Theorem disk_location_roundtrip b o t :
  loc_ok b o → (b, o, t) ≠ (0, 0, TNode256) →
  disk_location (on_disk b o t) = Some (mkDiskLocation b o t) ∧
  is_on_disk (on_disk b o t) = true ∧
  is_null (on_disk b o t) = false ∧
  is_swizzled (on_disk b o t) = false ∧
  from_raw (to_raw (on_disk b o t)) = on_disk b o t.
Proof.
  intros Hok Hne. destruct (on_disk_facts b o t) as (? & ? & ? & ?); auto.
Qed.

Lemma disk_location_roundtrip_witness :
  disk_location (on_disk 5 77 TNode48) = Some (mkDiskLocation 5 77 TNode48).
Proof. apply (disk_location_roundtrip 5 77 TNode48); vm_compute; intuition congruence. Defined.

(** The exception is real: a [Node256] at block 0, offset 0 is within the
    documented coordinate range, is accepted by the checked constructor, and
    yields the null pointer, whose location cannot be read back. *)
Theorem on_disk_node256_origin_is_null :
  try_on_disk 0 0 TNode256 = Ok null ∧
  is_null (on_disk 0 0 TNode256) = true ∧
  disk_location (on_disk 0 0 TNode256) = None.
Proof. vm_compute. done. Qed.

Definition slot_ok (s : ArenaSlot) : Prop := is_u32 (arena_id s) ∧ is_u32 (slot_id s).

(** Arena slots.  The checked constructor accepts exactly the slots the
    packed pointer can represent, what it builds reads back as the same slot
    and type, and a rejected slot names the coordinate that overflowed. *)
Theorem try_from_arena_slot_spec s t :
  slot_ok s →
  match try_from_arena_slot s t with
  | Ok p => arena_id s + 1 ≤ MAX_BLOCK_ID ∧ slot_id s ≤ MAX_OFFSET ∧
            as_arena_slot p = Some s ∧ is_null p = false ∧
            disk_location p = Some (mkDiskLocation (arena_id s + 1) (slot_id s) t)
  | Err (BlockIdOverflow b) =>
      MAX_BLOCK_ID < arena_id s + 1 ∧ (b = arena_id s + 1 ∨ arena_id s = 2 ^ 32 - 1 ∧ b = arena_id s)
  | Err (OffsetOverflow o) =>
      arena_id s + 1 ≤ MAX_BLOCK_ID ∧ MAX_OFFSET < slot_id s ∧ o = slot_id s
  | Err _ => False
  end.
Proof.
  destruct s as [a sl]. intros [Ha Hs]. unfold is_u32 in *. simpl in *.
  assert (MAX_BLOCK_ID = 2 ^ 23 - 1) as HB by done.
  assert (MAX_OFFSET = 2 ^ 22 - 1) as HO by done.
  unfold try_from_arena_slot, try_on_disk. simpl.
  destruct (Z.ltb_spec (2 ^ 32 - 1) (a + 1)); [lia|].
  destruct (Z.ltb_spec MAX_BLOCK_ID (a + 1)); [lia|].
  destruct (Z.ltb_spec MAX_OFFSET sl); [lia|].
  assert (loc_ok (a + 1) sl) as Hok by (unfold loc_ok; lia).
  destruct (on_disk_facts (a + 1) sl t) as (Hloc & _ & Hnull & _); [done| |].
  { intros [=]. lia. }
  unfold as_arena_slot. rewrite Hloc. simpl.
  destruct (Z.ltb_spec (a + 1) 1); [lia|].
  rewrite Z.add_simpl_r. auto.
Qed.

Lemma try_from_arena_slot_spec_witness :
  match try_from_arena_slot (mkArenaSlot 7 9) TBucket with
  | Ok p => as_arena_slot p = Some (mkArenaSlot 7 9)
  | Err _ => False
  end.
Proof.
  pose proof (try_from_arena_slot_spec (mkArenaSlot 7 9) TBucket) as H.
  vm_compute in H |- *. destruct H as (_ & _ & H & _); [intuition congruence|]. exact H.
Defined.

(** ** The transition protocol

    A thread that moves the word to a transitional state owns the pointer until
    it stores a stable state back; every other thread only loads or tries a
    CAS.  [obeys] and [owns] say this of a program: [obeys] for a thread that
    does not own the pointer, [owns m] for its owner when [memory_ptr] is [m]. *)

Definition disk_word (v : Z) : Prop := 0 ≤ v < 2 ^ 63.
Definition stable (v : Z) : Prop := v = MEMORY_STATE ∨ disk_word v.
Definition transitional (v : Z) : Prop :=
  v = INSTALLING_MEMORY_STATE ∨ v = EVICTING_MEMORY_STATE.

Fixpoint obeys {R} (q : prog R) {struct q} : Prop :=
  match q with
  | PRet _ | PAbort => True
  | LoadState k => ∀ v, is_u64 v → obeys (k v)
  | LoadPtr k => ∀ v, obeys (k v)
  | StoreState _ _ | StorePtr _ _ => False
  | CasState e n k =>
      (∀ v, obeys (k (Err v))) ∧
      ((disk_word e ∧ disk_word n ∧ obeys (k (Ok e))) ∨
       (stable e ∧ transitional n ∧ ∀ m, (e = MEMORY_STATE → m ≠ 0) → owns m (k (Ok e))))
  end
with owns {R} (m : Z) (q : prog R) {struct q} : Prop :=
  match q with
  | LoadPtr k => owns m (k m)
  | StorePtr v k => owns v k
  | StoreState v k => stable v ∧ (v = MEMORY_STATE → m ≠ 0) ∧ obeys k
  | _ => False
  end.

Definition ptr_valid (p : SwizzledPtr) : Prop :=
  stable (state p) ∧ (state p = MEMORY_STATE → memory_ptr p ≠ 0).

Definition protocol_inv {R} (c : config R) : Prop :=
  (ptr_valid c.1 ∧ Forall obeys c.2) ∨
  (transitional (state c.1) ∧
   ∃ i q, c.2 !! i = Some q ∧ owns (memory_ptr c.1) q ∧
     ∀ j q', j ≠ i → c.2 !! j = Some q' → obeys q').

(** The calls threads make on a shared pointer. *)
Inductive call : Type :=
| CSwizzle (ptr : Z)
| CUnswizzle (block_id offset : Z) (t : NodeType)
| CAsPtr
| CCompareExchange (expected new : Z)
| CInsertChild (new_child : SwizzledPtr)
| CUpdateChild (expected_child new_child : SwizzledPtr).

Inductive outcome : Type :=
| OSwizzle (r : result unit SwizzleError)
| OUnswizzle (r : result Z SwizzleError)
| OAsPtr (r : option Z)
| OCompareExchange (r : result Z Z)
| OChild (r : result unit Z).

Definition call_prog (c : call) : prog outcome :=
  match c with
  | CSwizzle p => pbind (swizzle p) (λ r, PRet (OSwizzle r))
  | CUnswizzle b o t => pbind (unswizzle b o t) (λ r, PRet (OUnswizzle r))
  | CAsPtr => pbind as_ptr (λ r, PRet (OAsPtr r))
  | CCompareExchange e n => pbind (compare_exchange_raw e n) (λ r, PRet (OCompareExchange r))
  | CInsertChild n => pbind (try_insert_child n) (λ r, PRet (OChild r))
  | CUpdateChild e n => pbind (try_update_child e n) (λ r, PRet (OChild r))
  end.

(** Calls whose arguments are machine words, without the disk-to-disk update
    (see [try_update_child_loses_pointer]). *)
Definition call_ok (c : call) : Prop :=
  match c with
  | CSwizzle _ | CUnswizzle _ _ _ | CAsPtr => True
  | CCompareExchange e n => is_u64 e ∧ is_u64 n
  | CInsertChild n => is_u64 (state n)
  | CUpdateChild e n =>
      is_u64 (state e) ∧ is_u64 (state n) ∧
      (state e = MEMORY_STATE ∨ state n = MEMORY_STATE)
  end.

Lemma flag_clear_disk v : is_u64 v → Z.land v SWIZZLE_FLAG = 0 → disk_word v.
Proof.
  unfold is_u64, disk_word. intros Hv H. apply Z.eqb_eq in H.
  unfold SWIZZLE_FLAG in H. rewrite Z.shiftl_1_l, land_pow2_eqb, testbit_top in H by lia.
  destruct (Z.leb_spec (2 ^ 63) v); [done|lia].
Qed.

Lemma disk_word_flag v : disk_word v → Z.land v SWIZZLE_FLAG = 0.
Proof. apply flag_clear. Qed.

Lemma transitional_not_stable v : transitional v → stable v → False.
Proof.
  assert (INSTALLING_MEMORY_STATE = 2 ^ 63 + 1) as E1 by done.
  assert (EVICTING_MEMORY_STATE = 2 ^ 63 + 2) as E2 by done.
  unfold transitional, stable, disk_word. rewrite E1, E2, MEMORY_STATE_eq. lia.
Qed.

Create HintDb protocol.
#[export] Hint Unfold stable transitional : protocol.
#[export] Hint Resolve encode_disk_range flag_clear_disk : protocol.

Lemma obeys_owns_pbind {A B} (q : prog A) (f : A → prog B) :
  (∀ r, obeys (f r)) →
  (obeys q → obeys (pbind q f)) ∧ (∀ m, owns m q → owns m (pbind q f)).
Proof.
  intros Hf. induction q as [r| |k IH|k IH|v q IH|v q IH|e n k IH]; simpl; split;
    try (by intros); try (by auto).
  - intros H v Hv. apply IH; auto.
  - intros H v. by apply IH.
  - intros m. apply IH.
  - intros m (? & ? & ?). split_and!; try done. by apply IH.
  - intros m. apply IH.
  - intros [Herr Hok]. split; [intros v; by apply IH|].
    destruct Hok as [(? & ? & ?)|(? & ? & Hown)]; [left|right]; split_and!; try done.
    + by apply IH.
    + intros m Hm. apply IH, Hown, Hm.
Qed.

(** Prove [obeys] of a straight-line program by following its tests. *)
Ltac solve_obeys :=
  repeat match goal with
    | |- obeys (if ?b then _ else _) => destruct b eqn:?
    | |- owns _ (if ?b then _ else _) => destruct b eqn:?
    | |- obeys (match ?b with true => _ | false => _ end) => destruct b eqn:?
    | H : (_ =? _) = true |- _ => apply Z.eqb_eq in H
    | H : (_ =? _) = false |- _ => apply Z.eqb_neq in H
    | H : negb (_ =? _) = true |- _ => apply negb_true_iff in H
    | H : negb (_ =? _) = false |- _ => apply negb_false_iff in H
    | H : _ || _ = false |- _ => apply orb_false_iff in H as [? ?]
    | H : _ && _ = false |- _ => apply andb_false_iff in H
    | |- ∀ _, _ => intro
    | |- _ ∧ _ => split
    | |- True => exact I
    | |- obeys _ => progress simpl
    | |- owns _ _ => progress simpl
    end.

Lemma disk_word_not_memory v : disk_word v → v = MEMORY_STATE → False.
Proof. unfold disk_word. rewrite MEMORY_STATE_eq. lia. Qed.

Lemma encode_disk_word b o t : disk_word (encode_disk b o t).
Proof. apply encode_disk_range. Qed.

#[export] Hint Resolve disk_word_not_memory encode_disk_word : protocol.

Lemma swizzle_obeys ptr : obeys (swizzle ptr).
Proof. unfold swizzle. solve_obeys. right. split_and!; auto with protocol. Qed.

Lemma unswizzle_obeys b o t : obeys (unswizzle b o t).
Proof.
  unfold unswizzle. solve_obeys. right. split_and!; auto with protocol.
  intros m Hm. solve_obeys; auto with protocol.
  exfalso. eauto with protocol.
Qed.

Lemma as_ptr_obeys : obeys as_ptr.
Proof. unfold as_ptr. solve_obeys. Qed.

Lemma compare_exchange_raw_obeys e n : is_u64 e → is_u64 n → obeys (compare_exchange_raw e n).
Proof. intros. unfold compare_exchange_raw. solve_obeys. left. auto with protocol. Qed.

Lemma try_insert_child_obeys n : is_u64 (state n) → obeys (try_insert_child n).
Proof.
  intros. unfold try_insert_child. solve_obeys.
  - right. split_and!; auto with protocol. by right.
  - apply obeys_owns_pbind; [by intros []|]. by apply compare_exchange_raw_obeys.
Qed.

Lemma guard_stable v :
  is_u64 v →
  negb (Z.land v SWIZZLE_FLAG =? 0) && negb (v =? MEMORY_STATE) = false → stable v.
Proof.
  intros Hv [H|H]%andb_false_iff; apply negb_false_iff, Z.eqb_eq in H;
    unfold stable; auto with protocol.
Qed.

Lemma stable_not_memory v : stable v → v ≠ MEMORY_STATE → disk_word v.
Proof. by intros [->|]. Qed.

#[export] Hint Resolve guard_stable stable_not_memory : protocol.

Lemma try_update_child_obeys e n :
  is_u64 (state e) → is_u64 (state n) →
  state e = MEMORY_STATE ∨ state n = MEMORY_STATE →
  obeys (try_update_child e n).
Proof.
  intros He Hn Hmem. unfold try_update_child.
  destruct (_ || _) eqn:G; [solve_obeys|]. apply orb_false_iff in G as [Ge Gn].
  assert (stable (state e)) by auto with protocol.
  assert (stable (state n)) by auto with protocol. clear Ge Gn.
  solve_obeys.
  - right. split_and!; auto with protocol. intros. solve_obeys; auto with protocol.
  - right. split_and!; auto with protocol.
    intros. solve_obeys; auto with protocol.
  - right. split_and!; auto with protocol.
  - tauto.
Qed.

Lemma call_prog_obeys c : call_ok c → obeys (call_prog c).
Proof.
  destruct c; simpl call_ok; intros Hok; unfold call_prog;
    (apply obeys_owns_pbind; [by intros r|]).
  - apply swizzle_obeys.
  - apply unswizzle_obeys.
  - apply as_ptr_obeys.
  - apply compare_exchange_raw_obeys; apply Hok.
  - by apply try_insert_child_obeys.
  - apply try_update_child_obeys; apply Hok.
Qed.

Lemma stable_u64 v : stable v → is_u64 v.
Proof. unfold stable, disk_word, is_u64. rewrite MEMORY_STATE_eq. lia. Qed.

Lemma transitional_u64 v : transitional v → is_u64 v.
Proof. unfold transitional, is_u64. intros [->| ->]; by vm_compute. Qed.

(** A non-owner's action leaves the pointer alone, or makes it the owner. *)
Lemma obeys_act {R} (q q' : prog R) p p' :
  act q p = Some (q', p') → obeys q → is_u64 (state p) →
  (p' = p ∧ obeys q') ∨
  (stable (state p) ∧ ptr_valid p' ∧ obeys q') ∨
  (stable (state p) ∧ transitional (state p') ∧ memory_ptr p' = memory_ptr p ∧
   (ptr_valid p → owns (memory_ptr p) q')).
Proof.
  destruct q as [r| |k|k|v q|v q|e n k]; simpl; intros Hact Hob Hu;
    try (by simplify_eq; auto).
  unfold compare_exchange in Hact. destruct (Z.eqb_spec (state p) e) as [Heq|]; simplify_eq.
  - right. destruct Hob as [_ [(? & ? & ?)|(? & ? & Hown)]].
    + left. unfold ptr_valid, stable; simpl. split_and!; auto.
      intros. exfalso. eauto with protocol.
    + right. simpl. split_and!; try done. intros [_ Hm]. by apply Hown.
  - left. split; [done|]. apply Hob.
Qed.

Lemma run_schedule_rtc {R} sched (c c' : config R) :
  run_schedule sched c = Some c' → rtc cstep c c'.
Proof.
  revert c. induction sched as [|i sched IH]; intros [p ts] H; simpl in H.
  - simplify_eq. apply rtc_refl.
  - destruct (ts !! i) as [q|] eqn:Hi; [|done]. simpl in H.
    destruct (act q p) as [[q' p']|] eqn:Hact; [|done]. simpl in H.
    eapply rtc_l; [by eapply cstep_at|]. auto.
Qed.

Lemma owns_act {R} (q q' : prog R) p p' :
  act q p = Some (q', p') → owns (memory_ptr p) q →
  (state p' = state p ∧ owns (memory_ptr p') q') ∨ (ptr_valid p' ∧ obeys q').
Proof.
  destruct q as [r| |k|k|v q|v q|e n k]; simpl; intros Hact Hown; try done; simplify_eq; auto.
  right. destruct Hown as (? & ? & ?). by split.
Qed.

Lemma owns_acts {R} (q : prog R) p : owns (memory_ptr p) q → is_Some (act q p).
Proof. destruct q; simpl; try done; by eauto. Qed.

Lemma protocol_inv_step {R} (c c' : config R) :
  cstep c c' → protocol_inv c → protocol_inv c'.
Proof.
  intros [i q q' p p' ts Hi Hact] [[Hv Hts]|[Ht (o & qo & Ho & Hown & Hothers)]]; simpl in *.
  - assert (obeys q) as Hq by (by eapply Forall_lookup_1).
    destruct (obeys_act q q' p p') as [[-> ?]|[(? & ? & ?)|(? & ? & Hm & Hown)]]; auto.
    + apply stable_u64, Hv.
    + left. split; [done|]. by apply Forall_insert.
    + left. split; [done|]. by apply Forall_insert.
    + right. split; [done|]. exists i, q'. simpl. rewrite Hm.
      split_and!; [by eapply list_lookup_insert_eq, lookup_lt_Some|auto|].
      intros j q2 Hj. rewrite list_lookup_insert_ne by done. by apply Forall_lookup_1.
  - destruct (decide (i = o)) as [->|Hne]; simplify_eq.
    + destruct (owns_act q q' p p') as [[Hs ?]|[? ?]]; auto.
      * right. simpl. rewrite Hs. split; [done|]. exists o, q'.
        split_and!; [by eapply list_lookup_insert_eq, lookup_lt_Some|done|].
        intros j q2 Hj. rewrite list_lookup_insert_ne by done. by apply Hothers.
      * left. split; [done|]. apply Forall_lookup. intros j q2 Hj.
        apply list_lookup_insert_Some in Hj as [(<- & <- & _)|[? ?]]; [done|]. by eapply Hothers.
    + assert (obeys q) as Hq by (by eapply Hothers).
      destruct (obeys_act q q' p p') as [[-> ?]|[(? & _)|(? & _)]]; auto.
      * by apply transitional_u64.
      * right. split; [done|]. exists o, qo. simpl.
        split_and!; [by rewrite list_lookup_insert_ne|done|].
        intros j q2 Hj Hl. apply list_lookup_insert_Some in Hl as [(<- & <- & _)|[? ?]]; [done|].
        by eapply Hothers.
      * exfalso. by eapply transitional_not_stable.
      * exfalso. by eapply transitional_not_stable.
Qed.

Lemma protocol_inv_rtc {R} (c c' : config R) :
  rtc cstep c c' → protocol_inv c → protocol_inv c'.
Proof. induction 1; eauto using protocol_inv_step. Qed.

Definition finished {R} (q : prog R) : Prop :=
  match q with PRet _ | PAbort => True | _ => False end.

Lemma owns_not_finished {R} m (q : prog R) : owns m q → ¬ finished q.
Proof. destruct q; simpl; tauto. Qed.

(** C29: any number of threads may race [swizzle], [unswizzle], [as_ptr],
    [compare_exchange_raw], [try_insert_child] and the memory forms of
    [try_update_child] on one valid pointer.  In every reachable configuration
    the word is stable or transitional, a memory state always comes with a
    non-null pointer, a transitional state always has a thread that can move
    it on, and once all threads are done the pointer is valid. *)
Theorem shared_pointer_protocol p calls c :
  ptr_valid p → Forall call_ok calls → rtc cstep (p, call_prog <$> calls) c →
  (stable (state c.1) ∨ transitional (state c.1)) ∧
  (state c.1 = MEMORY_STATE → memory_ptr c.1 ≠ 0) ∧
  (transitional (state c.1) → ∃ i q, c.2 !! i = Some q ∧ is_Some (act q c.1)) ∧
  (Forall finished c.2 → ptr_valid c.1).
Proof.
  intros Hp Hok Hsteps.
  apply protocol_inv_rtc in Hsteps as [[Hv Hobeys]|[Ht (o & q & Ho & Hown & _)]].
  - pose proof Hv as [Hs Hm]. split_and!; auto.
    intros Ht. by destruct (transitional_not_stable _ Ht Hs).
  - split_and!; auto.
    + intros Hs. destruct (transitional_not_stable _ Ht). by left.
    + intros _. exists o, q. eauto using owns_acts.
    + intros Hfin. destruct (owns_not_finished _ q Hown). by eapply Forall_lookup_1.
  - left. split; [done|]. simpl. apply Forall_fmap.
    eapply Forall_impl; [done|]. apply call_prog_obeys.
Qed.

Lemma shared_pointer_protocol_witness :
  let calls := [CSwizzle 4096; CUnswizzle 3 4 TNode4; CAsPtr] in
  ∃ c, run_schedule [0; 0; 0; 0; 2; 1; 2]%nat (on_disk 3 4 TNode4, call_prog <$> calls) = Some c ∧
    (state c.1 = MEMORY_STATE → memory_ptr c.1 ≠ 0).
Proof.
  intros calls. eexists. split; [vm_compute; reflexivity|].
  eapply (λ h1 h2 h3, proj1 (proj2 (shared_pointer_protocol (on_disk 3 4 TNode4) calls _ h1 h2 h3))).
  - split; [right; split; by vm_compute|by vm_compute].
  - repeat constructor.
  - eapply (run_schedule_rtc [0; 0; 0; 0; 2; 1; 2]%nat). vm_compute. reflexivity.
Defined.

(** *** The race to swizzle *)

Definition swizzle_won (ptr : Z) : prog (result unit SwizzleError) :=
  StorePtr ptr (StoreState MEMORY_STATE (PRet (Ok tt))).

(** A thread of the race that has not won: it has not loaded the word yet, it
    has loaded the disk word and is about to CAS, or it has failed. *)
Definition swizzle_pending (word ptr : Z) (q : prog (result unit SwizzleError)) : Prop :=
  q = swizzle ptr ∨
  (∃ k, q = CasState word INSTALLING_MEMORY_STATE k ∧
     (∀ v, ∃ e, k (Err v) = PRet (Err e)) ∧ (∀ v, k (Ok v) = swizzle_won ptr)) ∨
  (∃ e, q = PRet (Err e)).

Definition swizzle_winner (p : SwizzledPtr) (ptr : Z) (q : prog (result unit SwizzleError)) : Prop :=
  (state p = INSTALLING_MEMORY_STATE ∧ q = swizzle_won ptr) ∨
  (state p = INSTALLING_MEMORY_STATE ∧ memory_ptr p = ptr ∧
     q = StoreState MEMORY_STATE (PRet (Ok tt))) ∨
  (state p = MEMORY_STATE ∧ memory_ptr p = ptr ∧ q = PRet (Ok tt)).

Definition race_inv (word : Z) (ptrs : list Z) (c : config (result unit SwizzleError)) : Prop :=
  length c.2 = length ptrs ∧
  ((state c.1 = word ∧
    ∀ i ptr q, ptrs !! i = Some ptr → c.2 !! i = Some q →
      swizzle_pending word ptr q ∧ ¬ finished q) ∨
   ∃ w ptr q, ptrs !! w = Some ptr ∧ c.2 !! w = Some q ∧ swizzle_winner c.1 ptr q ∧
     ∀ i ptr' q', i ≠ w → ptrs !! i = Some ptr' → c.2 !! i = Some q' →
       swizzle_pending word ptr' q').

Lemma swizzle_unfold ptr :
  ptr ≠ 0 → ∃ k, swizzle ptr = LoadState k ∧
    (∀ v, 0 < v < 2 ^ 63 → ∃ k', k v = CasState v INSTALLING_MEMORY_STATE k' ∧
       (∀ x, ∃ e, k' (Err x) = PRet (Err e)) ∧ (∀ x, k' (Ok x) = swizzle_won ptr)) ∧
    (∀ v, Z.land v SWIZZLE_FLAG ≠ 0 → ∃ e, k v = PRet (Err e)).
Proof.
  intros Hp. unfold swizzle. rewrite (proj2 (Z.eqb_neq ptr 0) Hp).
  eexists. split; [done|]. split.
  - intros v Hv. simpl.
    rewrite (proj2 (Z.eqb_neq v MEMORY_STATE)), flag_clear, (proj2 (Z.eqb_neq v 0))
      by (rewrite ?MEMORY_STATE_eq; lia).
    simpl. eexists. split; [done|]. split; [intros x; eauto|done].
  - intros v Hv. simpl. rewrite (proj2 (Z.eqb_neq _ 0) Hv).
    destruct (v =? MEMORY_STATE); eauto.
Qed.

Lemma flagged_states p ptr q :
  swizzle_winner p ptr q → Z.land (state p) SWIZZLE_FLAG ≠ 0 ∧ ¬ disk_word (state p).
Proof.
  intros [[-> _]|[[-> _]|[-> _]]]; (split; [by vm_compute|]);
    intros [_ H]; by vm_compute in H.
Qed.

(** After the word has left the disk state, a pending thread can only fail. *)
Lemma pending_act word ptr q q' p p' :
  0 < word < 2 ^ 63 → ptr ≠ 0 → swizzle_pending word ptr q →
  Z.land (state p) SWIZZLE_FLAG ≠ 0 → state p ≠ word →
  act q p = Some (q', p') → p' = p ∧ swizzle_pending word ptr q'.
Proof.
  intros Hw Hptr [->|[(k & -> & Herr & Hok)|[e ->]]] Hflag Hne Hact; simpl in Hact; [|..|done].
  - destruct (swizzle_unfold ptr Hptr) as (k & Hk & _ & Hfail).
    rewrite Hk in Hact. simpl in Hact. simplify_eq.
    split; [done|]. right; right. by apply Hfail.
  - unfold compare_exchange in Hact. rewrite (proj2 (Z.eqb_neq _ _) Hne) in Hact.
    simplify_eq. split; [done|]. right; right. apply Herr.
Qed.

Lemma winner_act ptr q q' p p' :
  swizzle_winner p ptr q → act q p = Some (q', p') → swizzle_winner p' ptr q'.
Proof.
  unfold swizzle_winner, swizzle_won.
  intros [[Hs ->]|[(Hs & Hm & ->)|(Hs & Hm & ->)]] Hact; simpl in Hact; simplify_eq; simpl; auto.
Qed.

(** While the word is the disk word, a thread loads it, CASes it and wins. *)
Lemma pending_act_disk word ptr q q' p p' :
  0 < word < 2 ^ 63 → ptr ≠ 0 → swizzle_pending word ptr q → ¬ finished q →
  state p = word → act q p = Some (q', p') →
  (p' = p ∧ swizzle_pending word ptr q' ∧ ¬ finished q') ∨ swizzle_winner p' ptr q'.
Proof.
  intros Hw Hptr [->|[(k & -> & Herr & Hok)|[e ->]]] Hfin Hs Hact; simpl in Hact; [|..|done].
  - destruct (swizzle_unfold ptr Hptr) as (k & Hk & Hcas & _).
    rewrite Hk in Hact. simpl in Hact. simplify_eq. left.
    destruct (Hcas _ Hw) as (k' & Hk' & ? & ?). rewrite Hk'.
    split_and!; [done| |by intros []]. right; left. eauto.
  - unfold compare_exchange in Hact. rewrite (proj2 (Z.eqb_eq _ _) Hs) in Hact.
    simplify_eq. right. left. rewrite Hok. done.
Qed.

Lemma race_inv_step word ptrs c c' :
  0 < word < 2 ^ 63 → Forall (λ ptr, ptr ≠ 0) ptrs →
  cstep c c' → race_inv word ptrs c → race_inv word ptrs c'.
Proof.
  intros Hw Hptrs [i q q' p p' ts Hi Hact] [Hlen Hinv]; simpl in *.
  destruct (lookup_lt_is_Some_2 ptrs i) as [ptr Hptr].
  { rewrite <-Hlen. by eapply lookup_lt_Some. }
  assert (ptr ≠ 0) as Hnz by (by eapply Forall_lookup_1 in Hptrs).
  assert (i < length ts)%nat as Hlt by (by eapply lookup_lt_Some).
  split; [simpl; by rewrite length_insert|]. simpl.
  destruct Hinv as [[Hs Hall]|(w & pw & qw & Hpw & Hqw & Hwin & Hall)].
  - destruct (Hall _ _ _ Hptr Hi) as [Hpend Hfin].
    destruct (pending_act_disk word ptr q q' p p') as [(-> & ? & ?)|?]; auto.
    + left. split; [done|]. intros j ptr' q2 Hj Hl.
      apply list_lookup_insert_Some in Hl as [(<- & <- & _)|[? ?]]; [by simplify_eq|eauto].
    + right. exists i, ptr, q'. split_and!; auto using list_lookup_insert_eq.
      intros j ptr' q2 Hj Hp'. rewrite list_lookup_insert_ne by done. intros. by eapply Hall.
  - right. destruct (decide (i = w)) as [->|Hne].
    + assert (pw = ptr) as -> by congruence. assert (qw = q) as -> by congruence.
      exists w, ptr, q'. split_and!; eauto using list_lookup_insert_eq, winner_act.
      intros j ptr' q2 Hj Hp'. rewrite list_lookup_insert_ne by done. eauto.
    + destruct (flagged_states _ _ _ Hwin) as [Hflag Hnd].
      destruct (pending_act word ptr q q' p p') as [-> ?]; eauto.
      { intros Heq. apply Hnd. rewrite Heq. unfold disk_word. lia. }
      exists w, pw, qw. split_and!; auto; [by rewrite list_lookup_insert_ne|].
      intros j ptr' q2 Hj Hp' Hl.
      apply list_lookup_insert_Some in Hl as [(<- & <- & _)|[? ?]]; [by simplify_eq|eauto].
Qed.

Lemma race_inv_init word ptrs m :
  0 < word < 2 ^ 63 → Forall (λ ptr, ptr ≠ 0) ptrs →
  race_inv word ptrs (mkPtr word m, swizzle <$> ptrs).
Proof.
  intros Hw Hptrs. split; simpl; [by rewrite length_fmap|]. left. split; [done|].
  intros i ptr q Hi. rewrite list_lookup_fmap, Hi. simpl. intros [= <-].
  split; [by left|].
  destruct (swizzle_unfold ptr) as (k & -> & _); [by eapply Forall_lookup_1 in Hptrs|].
  by intros [].
Qed.

Lemma race_inv_rtc word ptrs c c' :
  0 < word < 2 ^ 63 → Forall (λ ptr, ptr ≠ 0) ptrs →
  rtc cstep c c' → race_inv word ptrs c → race_inv word ptrs c'.
Proof. induction 3; eauto using race_inv_step. Qed.

(** When any number of threads race to swizzle one disk reference, at most
    one of them is told it succeeded; the pointer then holds exactly that
    thread's address and stays a memory pointer; and once every thread has
    returned (with at least one thread), one of them has succeeded. *)
Theorem swizzle_race_single_winner word ptrs m p' ts :
  0 < word < 2 ^ 63 → Forall (λ ptr, ptr ≠ 0) ptrs →
  rtc cstep (mkPtr word m, swizzle <$> ptrs) (p', ts) →
  (∀ i, ts !! i = Some (PRet (Ok tt)) →
     state p' = MEMORY_STATE ∧ ptrs !! i = Some (memory_ptr p') ∧
     ∀ j, ts !! j = Some (PRet (Ok tt)) → j = i) ∧
  (ptrs ≠ [] → Forall finished ts → ∃ i, ts !! i = Some (PRet (Ok tt))).
Proof.
  intros Hw Hptrs Hsteps.
  eapply race_inv_rtc in Hsteps as [Hlen Hinv]; [|done..|by apply race_inv_init]. simpl in *.
  assert (∀ i ptr, ts !! i = Some (PRet (Ok tt)) → ¬ swizzle_pending word ptr (PRet (Ok tt))) as Hno.
  { intros i ptr _ [Hp|[(k & Hp & _)|[e Hp]]]; [|done..].
    destruct (decide (ptr = 0)) as [->|Hnz]; [done|].
    destruct (swizzle_unfold ptr Hnz) as (k & Hk & _). by rewrite Hk in Hp. }
  assert (∀ i q, ts !! i = Some q → ∃ ptr, ptrs !! i = Some ptr) as Hget.
  { intros i q Hi%lookup_lt_Some. rewrite Hlen in Hi. by apply lookup_lt_is_Some_2. }
  destruct Hinv as [[Hs Hall]|(w & pw & qw & Hpw & Hqw & Hwin & Hall)].
  - split.
    + intros i Hi. destruct (Hget _ _ Hi) as [ptr Hptr].
      destruct (Hno i ptr Hi). by eapply Hall.
    + intros Hne Hfin. destruct ptrs as [|ptr ptrs]; [done|].
      destruct ts as [|q ts]; [done|]. destruct (Hall 0%nat ptr q) as [_ []]; [done..|].
      by inversion Hfin.
  - assert (∀ i, ts !! i = Some (PRet (Ok tt)) → i = w) as Huniq.
    { intros i Hi. destruct (decide (i = w)) as [|Hne]; [done|].
      destruct (Hget _ _ Hi) as [ptr Hptr]. destruct (Hno i ptr Hi). by eapply Hall. }
    split.
    + intros i Hi. pose proof (Huniq i Hi) as ->. rewrite Hi in Hqw. simplify_eq.
      destruct Hwin as [[_ ?]|[(_ & _ & ?)|(-> & -> & _)]]; [done..|].
      split_and!; auto.
    + intros _ Hfin. exists w.
      destruct Hwin as [[_ ->]|[(_ & _ & ->)|(_ & _ & ->)]]; [exfalso..|done];
        by eapply (Forall_lookup_1 finished) in Hqw.
Qed.

Lemma swizzle_race_single_winner_witness :
  ∃ p' ts, run_schedule [0; 1; 1; 0; 1; 1]%nat (on_disk 1 2 TNode16, swizzle <$> [64; 128])
             = Some (p', ts) ∧
    ts !! 1%nat = Some (PRet (Ok tt)) ∧ state p' = MEMORY_STATE.
Proof.
  pose (c0 := (on_disk 1 2 TNode16, swizzle <$> [64; 128])).
  pose (c := default c0 (run_schedule [0; 1; 1; 0; 1; 1]%nat c0)).
  assert (run_schedule [0; 1; 1; 0; 1; 1]%nat c0 = Some (c.1, c.2)) as Hrun by reflexivity.
  assert (c.2 !! 1%nat = Some (PRet (Ok tt))) as Hwon by reflexivity.
  assert (0 < encode_disk 1 2 TNode16 < 2 ^ 63) as Hword by (split; reflexivity).
  assert (Forall (λ ptr, ptr ≠ 0) [64; 128]) as Hptrs by (repeat constructor; discriminate).
  exists c.1, c.2. split; [exact Hrun|]. split; [exact Hwon|].
  exact (proj1 (proj1 (swizzle_race_single_winner _ [64; 128] 0 c.1 c.2 Hword Hptrs
    (run_schedule_rtc _ _ _ Hrun)) 1%nat Hwon)).
Defined.

(** The disk-to-disk form of [try_update_child] clears [memory_ptr] after
    its CAS without owning the pointer.  Interleaved with one [swizzle] both
    calls report success, and the word is left in the memory state with a null
    pointer: the swizzled address is lost, [as_ptr] yields nothing and
    [unswizzle] fails with [RaceCondition] from then on. *)
Theorem try_update_child_loses_pointer :
  ∃ p ts,
    rtc cstep
      (on_disk 1 2 TNode4,
       [call_prog (CUpdateChild (on_disk 1 2 TNode4) (on_disk 5 6 TNode4));
        call_prog (CSwizzle 4096)])
      (p, ts) ∧
    ts = [PRet (OChild (Ok tt)); PRet (OSwizzle (Ok tt))] ∧
    p = mkPtr MEMORY_STATE 0 ∧
    run as_ptr p = Ret (None, p) ∧
    run (unswizzle 5 6 TNode4) p = Ret (Err RaceCondition, p).
Proof.
  eexists _, _. split.
  - apply (run_schedule_rtc [0; 1; 1; 1; 1; 0]%nat). vm_compute. reflexivity.
  - by vm_compute.
Qed.

(** With a single thread, swizzling a disk reference and evicting it again
    is lossless: [swizzle] succeeds, [as_ptr] then yields the installed
    address, a second [swizzle] is refused, and [unswizzle] hands the address
    back and leaves a reference that decodes to the given location. *)
Theorem swizzle_unswizzle_roundtrip b o t b' o' t' ptr :
  loc_ok b o → (b, o, t) ≠ (0, 0, TNode256) →
  loc_ok b' o' → (b', o', t') ≠ (0, 0, TNode256) → ptr ≠ 0 →
  ∃ p, run (swizzle ptr) (on_disk b o t) = Ret (Ok tt, p) ∧
    run as_ptr p = Ret (Some ptr, p) ∧
    run (swizzle ptr) p = Ret (Err AlreadySwizzled, p) ∧
    run (unswizzle b' o' t') p = Ret (Ok ptr, on_disk b' o' t') ∧
    disk_location (on_disk b' o' t') = Some (mkDiskLocation b' o' t').
Proof.
  intros Hok Hne Hok' Hne' Hptr.
  assert (encode_disk b o t ≠ 0) as Hnz.
  { intros (-> & -> & ->)%encode_disk_zero; done. }
  pose proof (encode_disk_range b o t) as Hr.
  exists (mkPtr MEMORY_STATE ptr). split_and!.
  - destruct (swizzle_unfold ptr Hptr) as (k & -> & Hcas & _). simpl.
    destruct (Hcas (encode_disk b o t)) as (k' & -> & _ & Hk'); [lia|]. simpl.
    unfold compare_exchange. simpl. rewrite Z.eqb_refl, Hk'. done.
  - simpl. by rewrite (proj2 (Z.eqb_neq ptr 0) Hptr).
  - unfold swizzle. rewrite (proj2 (Z.eqb_neq ptr 0) Hptr). done.
  - unfold unswizzle. destruct Hok' as [Hb' Ho'].
    destruct (Z.ltb_spec MAX_BLOCK_ID b'); [lia|]. destruct (Z.ltb_spec MAX_OFFSET o'); [lia|].
    simpl. by rewrite (proj2 (Z.eqb_neq ptr 0) Hptr).
  - by apply on_disk_facts.
Qed.

Lemma swizzle_unswizzle_roundtrip_witness :
  ∃ p, run (swizzle 640) (on_disk 1 0 TNode4) = Ret (Ok tt, p) ∧ run as_ptr p = Ret (Some 640, p).
Proof.
  destruct (swizzle_unswizzle_roundtrip 1 0 TNode4 2 9 TNode48 640) as (p & H1 & H2 & _);
    [by vm_compute| by vm_compute|by vm_compute|by vm_compute|by vm_compute|].
  exists p. exact (conj H1 H2).
Defined.
