(* ===== verification/SortedArray.v ===== *)
(** * Sorted slot arrays

    [Node4] and [Node16] (src/src/persistent_artrie/nodes/node4.rs and
    node16.rs) keep their children in two parallel fixed arrays, [keys] and
    [children], of which the first [num_children] slots are used, in key order.
    This file has the loops both nodes run over those arrays, the invariant of
    the arrays and the map they stand for. *)

From stdpp Require Import prelude gmap sorting.
From S2P Require Import Prelude SwizzledPtr.

(** ** The loops *)

(** [a[dst] = a[src].clone()] *)
Definition move {A} (l : list A) (src dst : nat) : exec (list A) :=
  x ← l !! src; store l dst x.

(** [for i in (pos..count).rev() { keys[i + 1] = keys[i];
    children[i + 1] = children[i].clone() }] *)
Definition shift_right (keys : list Z) (children : list SwizzledPtr) (pos count : nat) :
    exec (list Z * list SwizzledPtr) :=
  foldM (λ '(ks, cs) i, ks' ← move ks i (S i); cs' ← move cs i (S i); Ret (ks', cs'))
    (keys, children) (rev (seq pos (count - pos))).

(** [for i in index..(count - 1) { keys[i] = keys[i + 1];
    children[i] = children[i + 1].clone() }] *)
Definition shift_left (keys : list Z) (children : list SwizzledPtr) (index count : nat) :
    exec (list Z * list SwizzledPtr) :=
  foldM (λ '(ks, cs) i, ks' ← move ks (S i) i; cs' ← move cs (S i) i; Ret (ks', cs'))
    (keys, children) (seq index (count - 1 - index)).

(** The shift, the two stores and the cleared slot, as [add_child] and
    [remove_child] of both nodes do them. *)
Definition insert_slot (keys : list Z) (children : list SwizzledPtr) (pos count : nat)
    (key : Z) (child : SwizzledPtr) : exec (list Z * list SwizzledPtr) :=
  '(ks, cs) ← shift_right keys children pos count;
  ks' ← store ks pos key;
  cs' ← store cs pos child;
  Ret (ks', cs').

Definition remove_slot (keys : list Z) (children : list SwizzledPtr) (index count : nat) :
    exec (list Z * list SwizzledPtr) :=
  '(ks, cs) ← shift_left keys children index count;
  ks' ← store ks (count - 1) 0%Z;
  cs' ← store cs (count - 1) null;
  Ret (ks', cs').

(** [for i in 0..count { dst.keys[i] = keys[i];
    dst.children[i] = children[i].clone() }], the copy loop of [grow] and
    [shrink]. *)
Definition copy_slots (keys dkeys : list Z) (children dchildren : list SwizzledPtr)
    (count : nat) : exec (list Z * list SwizzledPtr) :=
  foldM (λ '(ks, cs) i,
      k ← keys !! i; ks' ← store ks i k;
      c ← children !! i; cs' ← store cs i c;
      Ret (ks', cs'))
    (dkeys, dchildren) (seq 0 count).

(** ** The invariant and the map *)

Definition entries (n : nat) (ks : list Z) (cs : list SwizzledPtr) : list (Z * SwizzledPtr) :=
  zip (take n ks) (take n cs).

Definition slots_map (n : nat) (ks : list Z) (cs : list SwizzledPtr) : gmap Z SwizzledPtr :=
  list_to_map (entries n ks cs).

Record slots_ok (cap n : nat) (ks : list Z) (cs : list SwizzledPtr) : Prop := {
  ok_keys : length ks = cap;
  ok_children : length cs = cap;
  ok_count : n ≤ cap;
  ok_sorted : ∀ i j x y, i < j → j < n → ks !! i = Some x → ks !! j = Some y → (x < y)%Z;
  ok_bytes : is_bytes ks;
  ok_live : ∀ i c, i < n → cs !! i = Some c → is_null c = false;
  ok_free : ∀ i, n ≤ i → i < cap → ks !! i = Some 0%Z ∧ cs !! i = Some null;
}.

(** ** The loops, slot by slot *)

Lemma move_spec {A} (l : list A) src dst :
  src < length l → dst < length l →
  ∃ l', move l src dst = Some l' ∧ length l' = length l ∧
    ∀ j, l' !! j = if decide (j = dst) then l !! src else l !! j.
Proof.
  intros Hs Hd. destruct (lookup_lt_is_Some_2 l src Hs) as [x Hx].
  exists (<[dst := x]> l). unfold move. rewrite Hx. simpl. rewrite store_Some by done.
  split_and!; [done|by rewrite length_insert|]. intros j. case_decide; subst.
  - by apply list_lookup_insert_eq.
  - by apply list_lookup_insert_ne.
Qed.

Lemma shift_right_spec {A} (l : list A) pos m :
  pos + m < length l →
  ∃ l', foldM (λ l i, move l i (S i)) l (rev (seq pos m)) = Some l' ∧ length l' = length l ∧
    ∀ j, l' !! j = if decide (pos < j ≤ pos + m) then l !! (j - 1) else l !! j.
Proof.
  revert l. induction m as [|m IH]; intros l Hl.
  - exists l. split_and!; [done..|]. intros j. by rewrite decide_False by lia.
  - rewrite seq_S, rev_app_distr. simpl.
    destruct (move_spec l (pos + m) (S (pos + m))) as (l1 & -> & Hlen1 & Hl1); [lia..|]. simpl.
    destruct (IH l1) as (l2 & -> & Hlen2 & Hl2); [lia|].
    exists l2. split_and!; [done|lia|]. intros j. rewrite Hl2, !Hl1.
    repeat case_decide; subst; done || (f_equal; lia) || lia.
Qed.

Lemma shift_left_spec {A} (l : list A) pos m :
  pos + m < length l →
  ∃ l', foldM (λ l i, move l (S i) i) l (seq pos m) = Some l' ∧ length l' = length l ∧
    ∀ j, l' !! j = if decide (pos ≤ j < pos + m) then l !! (S j) else l !! j.
Proof.
  revert l pos. induction m as [|m IH]; intros l pos Hl.
  - exists l. split_and!; [done..|]. intros j. by rewrite decide_False by lia.
  - simpl. destruct (move_spec l (S pos) pos) as (l1 & -> & Hlen1 & Hl1); [lia..|]. simpl.
    destruct (IH l1 (S pos)) as (l2 & -> & Hlen2 & Hl2); [lia|].
    exists l2. split_and!; [done|lia|]. intros j. rewrite Hl2, !Hl1.
    repeat case_decide; subst; done || (f_equal; lia) || lia.
Qed.

(** What inserting at [pos], and removing at [index], does to one array. *)
Definition inserted {A} (l l' : list A) (pos n : nat) (x : A) : Prop :=
  length l' = length l ∧
  ∀ j, l' !! j = if decide (j = pos) then Some x
                 else if decide (pos < j ≤ n) then l !! (j - 1) else l !! j.

Definition removed {A} (l l' : list A) (index n : nat) (d : A) : Prop :=
  length l' = length l ∧
  ∀ j, l' !! j = if decide (j = n - 1) then Some d
                 else if decide (index ≤ j < n - 1) then l !! (S j) else l !! j.

Lemma store_inserted {A} (l l1 : list A) pos n x :
  pos ≤ n → n < length l → length l1 = length l →
  (∀ j, l1 !! j = if decide (pos < j ≤ pos + (n - pos)) then l !! (j - 1) else l !! j) →
  ∃ l', store l1 pos x = Some l' ∧ inserted l l' pos n x.
Proof.
  intros Hp Hn Hlen Hl1. rewrite store_Some by lia. eexists. split; [done|].
  split; [by rewrite length_insert|]. intros j. case_decide; subst.
  - apply list_lookup_insert_eq. lia.
  - rewrite list_lookup_insert_ne, Hl1 by done. repeat case_decide; done || lia.
Qed.

Lemma store_removed {A} (l l1 : list A) index n d :
  index < n → n ≤ length l → length l1 = length l →
  (∀ j, l1 !! j = if decide (index ≤ j < index + (n - 1 - index)) then l !! (S j) else l !! j) →
  ∃ l', store l1 (n - 1) d = Some l' ∧ removed l l' index n d.
Proof.
  intros Hi Hn Hlen Hl1. rewrite store_Some by lia. eexists. split; [done|].
  split; [by rewrite length_insert|]. intros j. case_decide; subst.
  - apply list_lookup_insert_eq. lia.
  - rewrite list_lookup_insert_ne, Hl1 by done. repeat case_decide; done || lia.
Qed.

Lemma insert_slot_spec ks cs pos n key child :
  pos ≤ n → n < length ks → n < length cs →
  ∃ ks' cs', insert_slot ks cs pos n key child = Ret (ks', cs') ∧
    inserted ks ks' pos n key ∧ inserted cs cs' pos n child.
Proof.
  intros Hp Hk Hc. unfold insert_slot, shift_right.
  destruct (shift_right_spec ks pos (n - pos)) as (ks1 & Hks1 & Hkl & Hkj); [lia|].
  destruct (shift_right_spec cs pos (n - pos)) as (cs1 & Hcs1 & Hcl & Hcj); [lia|].
  rewrite (foldM_pair _ _ _ _ _ _ _ Hks1 Hcs1). simpl.
  destruct (store_inserted ks ks1 pos n key) as (ks' & -> & ?); [lia..|done|].
  destruct (store_inserted cs cs1 pos n child) as (cs' & -> & ?); [lia..|done|].
  simpl. eauto.
Qed.

Lemma remove_slot_spec ks cs index n :
  index < n → n ≤ length ks → n ≤ length cs →
  ∃ ks' cs', remove_slot ks cs index n = Ret (ks', cs') ∧
    removed ks ks' index n 0%Z ∧ removed cs cs' index n null.
Proof.
  intros Hi Hk Hc. unfold remove_slot, shift_left.
  destruct (shift_left_spec ks index (n - 1 - index)) as (ks1 & Hks1 & Hkl & Hkj); [lia|].
  destruct (shift_left_spec cs index (n - 1 - index)) as (cs1 & Hcs1 & Hcl & Hcj); [lia|].
  rewrite (foldM_pair _ _ _ _ _ _ _ Hks1 Hcs1). simpl.
  destruct (store_removed ks ks1 index n 0%Z) as (ks' & -> & ?); [lia..|done|].
  destruct (store_removed cs cs1 index n null) as (cs' & -> & ?); [lia..|done|].
  simpl. eauto.
Qed.

(** ** The map of a slot array *)

Lemma NoDup_entries cap n ks cs : slots_ok cap n ks cs → NoDup (entries n ks cs).*1.
Proof.
  intros []. unfold entries. rewrite fst_zip by (rewrite !length_take; lia).
  apply NoDup_alt. intros i j x Hi Hj.
  apply lookup_take_Some in Hi as [Hi ?]. apply lookup_take_Some in Hj as [Hj ?].
  destruct (Nat.lt_total i j) as [Hlt|[?|Hlt]]; [|done|].
  - assert (x < x)%Z by eauto. lia.
  - assert (x < x)%Z by eauto. lia.
Qed.

Lemma slots_map_Some cap n ks cs k c :
  slots_ok cap n ks cs →
  slots_map n ks cs !! k = Some c ↔ ∃ i, i < n ∧ ks !! i = Some k ∧ cs !! i = Some c.
Proof.
  intros Hok. unfold slots_map. rewrite <-elem_of_list_to_map by (by eapply NoDup_entries).
  rewrite list_elem_of_lookup. unfold entries. setoid_rewrite lookup_zip_with_Some.
  setoid_rewrite lookup_take_Some. naive_solver.
Qed.

Lemma slots_map_None cap n ks cs k :
  slots_ok cap n ks cs →
  slots_map n ks cs !! k = None ↔ ∀ i, i < n → ks !! i ≠ Some k.
Proof.
  intros Hok. rewrite eq_None_not_Some. unfold is_Some.
  setoid_rewrite (slots_map_Some cap); [|done]. split.
  - intros Hno i Hi Hk. destruct (lookup_lt_is_Some_2 cs i) as [c Hc].
    { destruct Hok. lia. }
    naive_solver.
  - naive_solver.
Qed.

Lemma slots_map_size cap n ks cs : slots_ok cap n ks cs → size (slots_map n ks cs) = n.
Proof.
  intros Hok. unfold slots_map. rewrite map_size_list_to_map by (by eapply NoDup_entries).
  destruct Hok. unfold entries. rewrite length_zip_with, !length_take. lia.
Qed.

Lemma slots_key_lt cap n ks cs i x :
  slots_ok cap n ks cs → ks !! i = Some x → is_u8 x.
Proof. intros [] Hi. by eapply Forall_lookup_1 in Hi. Qed.

(** ** Insertion and removal *)

(** Slot [j] of an updated array, in terms of the old one. *)
Ltac slot_cases H :=
  repeat match type of H with
    | context [decide ?P] => destruct (decide P) in *
    end; try (exfalso; lia).

Ltac slot_goal := repeat (case_decide; try (exfalso; lia)).

Section insert.
Context (cap n : nat) (ks ks' : list Z) (cs cs' : list SwizzledPtr) (pos : nat) (key : Z) (c : SwizzledPtr).
Context (Hok : slots_ok cap n ks cs) (Hroom : n < cap) (Hpos : pos ≤ n).
Context (Hbelow : ∀ i x, i < pos → ks !! i = Some x → (x < key)%Z).
Context (Habove : ∀ i x, pos ≤ i → i < n → ks !! i = Some x → (key < x)%Z).
Context (Hkey : is_u8 key) (Hlive : is_null c = false).
Context (Hks : inserted ks ks' pos n key) (Hcs : inserted cs cs' pos n c).

Lemma slots_insert_ok : slots_ok cap (S n) ks' cs'.
Proof using All.
  destruct Hok as [Hkl Hcl _ Hsort Hbytes Hnn Hfree], Hks as [Hkl' Hk], Hcs as [Hcl' Hc].
  split; [lia..| | | |].
  - intros i j x y Hij Hj Hx Hy. rewrite Hk in Hx, Hy. slot_cases Hx; slot_cases Hy;
      simplify_eq; eauto with lia;
      first [eapply Hbelow; [|done]; lia | eapply Habove; [| |done]; lia
            |eapply Hsort; [| |done|done]; lia].
  - apply Forall_lookup. intros i x Hx. rewrite Hk in Hx. slot_cases Hx; simplify_eq; [done|..];
      by eapply Forall_lookup_1 in Hx.
  - intros i ch Hi Hx. rewrite Hc in Hx. slot_cases Hx; simplify_eq; [done|..];
      (eapply Hnn; [|done]; lia).
  - intros i Hi Hic. rewrite Hk, Hc. repeat (rewrite decide_False by lia). apply Hfree; lia.
Qed.

Lemma slots_insert_map : slots_map (S n) ks' cs' = <[key := c]> (slots_map n ks cs).
Proof using All.
  pose proof slots_insert_ok as Hok'. destruct Hks as [_ Hk], Hcs as [_ Hc].
  apply map_eq. intros k. apply option_eq. intros x.
  rewrite (slots_map_Some cap) by done. rewrite lookup_insert_Some, (slots_map_Some cap) by done.
  split.
  - intros (i & Hi & Hki & Hci). rewrite Hk in Hki. rewrite Hc in Hci.
    slot_cases Hki; simplify_eq; [by left| |]; right.
    + split; [|exists (i - 1); split; [lia|done]].
      assert (key < k)%Z by (eapply Habove; [| |done]; lia). lia.
    + split; [|exists i; split; [lia|done]].
      assert (k < key)%Z by (eapply Hbelow; [|done]; lia). lia.
  - intros [[-> ->]|(Hne & i & Hi & Hki & Hci)].
    + exists pos. rewrite Hk, Hc, !decide_True by done. split; [lia|done].
    + exists (if decide (i < pos) then i else S i). case_decide.
      * rewrite Hk, Hc. slot_goal. split; [lia|done].
      * rewrite Hk, Hc. slot_goal. simpl. rewrite Nat.sub_0_r. split; [lia|done].
Qed.
End insert.

Section remove.
Context (cap n : nat) (ks ks' : list Z) (cs cs' : list SwizzledPtr) (index : nat) (key : Z).
Context (Hok : slots_ok cap n ks cs) (Hidx : index < n) (Hkey : ks !! index = Some key).
Context (Hks : removed ks ks' index n 0%Z) (Hcs : removed cs cs' index n null).

Lemma slots_remove_ok : slots_ok cap (n - 1) ks' cs'.
Proof using All.
  destruct Hok as [Hkl Hcl Hn Hsort Hbytes Hnn Hfree], Hks as [Hkl' Hk], Hcs as [Hcl' Hc].
  split; [lia..| | | |].
  - intros i j x y Hij Hj Hx Hy. rewrite Hk in Hx, Hy.
    slot_cases Hx; slot_cases Hy; simplify_eq; (eapply Hsort; [| |done|done]; lia).
  - apply Forall_lookup. intros i x Hx. rewrite Hk in Hx.
    slot_cases Hx; simplify_eq; [by vm_compute|..]; by eapply Forall_lookup_1 in Hx.
  - intros i ch Hi Hx. rewrite Hc in Hx. slot_cases Hx; simplify_eq; (eapply Hnn; [|done]; lia).
  - intros i Hi Hic. rewrite Hk, Hc. case_decide; [done|].
    rewrite !decide_False by lia. apply Hfree; lia.
Qed.

Lemma slots_remove_map : slots_map (n - 1) ks' cs' = delete key (slots_map n ks cs).
Proof using All.
  pose proof slots_remove_ok as Hok'. destruct Hks as [_ Hk], Hcs as [_ Hc].
  assert (∀ i, i < n → ks !! i = Some key → i = index) as Huniq.
  { intros i Hi Hik. destruct Hok. destruct (Nat.lt_total i index) as [?|[?|?]]; [|done|];
      assert (key < key)%Z by eauto; lia. }
  apply map_eq. intros k. apply option_eq. intros x.
  rewrite (slots_map_Some cap) by done. rewrite lookup_delete_Some, (slots_map_Some cap) by done.
  split.
  - intros (i & Hi & Hki & Hci). rewrite Hk in Hki. rewrite Hc in Hci.
    slot_cases Hki; simplify_eq.
    + split; [|exists (S i); split; [lia|done]].
      intros ->. assert (S i = index) by (apply Huniq; [lia|done]). lia.
    + split; [|exists i; split; [lia|done]].
      intros ->. assert (i = index) by (apply Huniq; [lia|done]). lia.
  - intros (Hne & i & Hi & Hki & Hci).
    assert (i ≠ index) by congruence.
    exists (if decide (i < index) then i else i - 1). case_decide.
    + rewrite Hk, Hc. slot_goal. split; [lia|done].
    + rewrite Hk, Hc. slot_goal. replace (S (i - 1)) with i by lia. split; [lia|done].
Qed.
End remove.

(** ** Copies and iteration *)

Definition copied {A} (src dst l' : list A) (n : nat) : Prop :=
  length l' = length dst ∧ ∀ j, l' !! j = if decide (j < n) then src !! j else dst !! j.

Lemma copied_insert {A} (src dst l' : list A) i x :
  copied src dst l' i → i < length dst → src !! i = Some x → copied src dst (<[i := x]> l') (S i).
Proof.
  intros [Hlen Hl] Hi Hx. split; [by rewrite length_insert|]. intros j.
  rewrite list_lookup_insert, Hl.
  repeat case_decide; naive_solver lia.
Qed.

Lemma copy_slots_spec ks dks cs dcs n :
  n ≤ length ks → n ≤ length dks → n ≤ length cs → n ≤ length dcs →
  ∃ ks' cs', copy_slots ks dks cs dcs n = Ret (ks', cs') ∧
    copied ks dks ks' n ∧ copied cs dcs cs' n.
Proof.
  intros. unfold copy_slots.
  destruct (foldM_inv
    (λ consumed '(ks1, cs1), copied ks dks ks1 (length consumed) ∧ copied cs dcs cs1 (length consumed))
    (λ '(ks1, cs1) i, k ← ks !! i; ks' ← store ks1 i k;
       c ← cs !! i; cs' ← store cs1 i c; Ret (ks', cs'))
    (dks, dcs) (seq 0 n)) as ([ks' cs'] & -> & Hk & Hc).
  - by split; split.
  - intros pre i rest [ks1 cs1] Hl [Hk Hc].
    assert (i = length pre) as ->.
    { assert (seq 0 n !! length pre = Some i) as Hs by (rewrite Hl; by apply list_lookup_middle).
      apply lookup_seq in Hs. lia. }
    assert (length pre < n) as Hlt.
    { apply (f_equal length) in Hl. rewrite length_seq, length_app in Hl. simpl in Hl. lia. }
    destruct (lookup_lt_is_Some_2 ks (length pre)) as [k Hki]; [lia|].
    destruct (lookup_lt_is_Some_2 cs (length pre)) as [c Hci]; [lia|].
    rewrite Hki, Hci. simpl.
    rewrite !store_Some by (destruct Hk, Hc; lia). simpl.
    eexists. split; [done|]. rewrite length_app. simpl. rewrite Nat.add_1_r.
    split; apply copied_insert; done || lia.
  - rewrite length_seq in *. eauto.
Qed.

Lemma copied_slots_ok cap cap' n ks cs ks' cs' :
  slots_ok cap n ks cs → n ≤ cap' →
  copied ks (replicate cap' 0%Z) ks' n → copied cs (replicate cap' null) cs' n →
  slots_ok cap' n ks' cs' ∧ slots_map n ks' cs' = slots_map n ks cs.
Proof.
  intros Hok Hn [Hkl Hk] [Hcl Hc]. rewrite !length_replicate in *.
  assert (slots_ok cap' n ks' cs') as Hok'.
  { destruct Hok as [Hkl0 Hcl0 _ Hsort Hbytes Hnn Hfree]. split; [lia..| | | |].
    - intros i j x y ?? Hx Hy. rewrite Hk in Hx, Hy. slot_cases Hx; slot_cases Hy. eauto.
    - apply Forall_lookup. intros i x Hx. rewrite Hk in Hx. slot_cases Hx.
      + by eapply Forall_lookup_1 in Hx.
      + apply lookup_replicate in Hx as [-> _]. by vm_compute.
    - intros i c ? Hx. rewrite Hc in Hx. slot_cases Hx. eauto.
    - intros i ??. rewrite Hk, Hc, !decide_False by lia. by rewrite !lookup_replicate_2. }
  split; [done|]. apply map_eq. intros k. apply option_eq. intros x.
  rewrite (slots_map_Some cap'), (slots_map_Some cap) by done.
  split; intros (i & Hi & Hki & Hci); exists i; revert Hki Hci; rewrite Hk, Hc, !decide_True; auto.
Qed.

Lemma slots_fresh_ok cap : slots_ok cap 0 (replicate cap 0%Z) (replicate cap null).
Proof.
  split; rewrite ?length_replicate; try lia.
  - apply Forall_replicate. by vm_compute.
  - intros i _ ?. by rewrite !lookup_replicate_2.
Qed.

Lemma slots_entries_sorted cap n ks cs :
  slots_ok cap n ks cs → StronglySorted Z.lt (entries n ks cs).*1.
Proof.
  intros Hok. pose proof Hok as []. unfold entries.
  rewrite fst_zip by (rewrite !length_take; lia).
  assert (∀ i j x y, i < j → take n ks !! i = Some x → take n ks !! j = Some y → (x < y)%Z) as Hs.
  { intros i j x y Hij Hx Hy.
    apply lookup_take_Some in Hx as [? ?]. apply lookup_take_Some in Hy as [? ?]. eauto. }
  revert Hs. generalize (take n ks). clear. intros l. induction l as [|x l IH]; intros Hs; [constructor|].
  constructor.
  - apply IH. intros i j a b Hij Ha Hb. apply (Hs (S i) (S j)); simpl; auto with lia.
  - apply Forall_lookup. intros j y Hy. apply (Hs 0 (S j)); simpl; auto with lia.
Qed.

(** ** Searches *)

(** A loop that leaves with [g i] at the first slot holding [key]. *)
Lemma find_slot_spec {R} cap n ks cs key (g : nat → exec R) :
  slots_ok cap n ks cs → (∀ i, i < n → is_Some (g i)) →
  ∃ r, for_return (λ i, k ← ks !! i;
         if (k =? key)%Z then x ← g i; Ret (Some x) else Ret None) 0 n = Ret r ∧
    match r with
    | None => slots_map n ks cs !! key = None
    | Some x => ∃ i, i < n ∧ ks !! i = Some key ∧ g i = Some x
    end.
Proof.
  intros Hok Hg. destruct (for_return_spec (λ i, k ← ks !! i;
    if (k =? key)%Z then x ← g i; Ret (Some x) else Ret None) 0 n) as (r & -> & Hr).
  { intros j Hj. destruct (lookup_lt_is_Some_2 ks j) as [k ->]; [destruct Hok; lia|]. simpl.
    destruct (_ =? _)%Z; [|eauto]. destruct (Hg j) as [x ->]; [lia|]. simpl. eauto. }
  exists r. split; [done|]. destruct r as [x|].
  - destruct Hr as (j & Hj & Hf & _). exists j. split; [lia|].
    destruct (ks !! j) as [k|]; [|done]. simpl in Hf. destruct (Z.eqb_spec k key); [|done].
    destruct (g j); naive_solver.
  - apply (slots_map_None cap); [done|]. intros i Hi Hk. specialize (Hr i ltac:(lia)).
    rewrite Hk in Hr. simpl in Hr. rewrite Z.eqb_refl in Hr. by destruct (g i).
Qed.

Lemma slots_map_lookup cap n ks cs i k :
  slots_ok cap n ks cs → i < n → ks !! i = Some k → slots_map n ks cs !! k = cs !! i.
Proof.
  intros Hok Hi Hk. destruct (lookup_lt_is_Some_2 cs i) as [c Hc]; [destruct Hok; lia|].
  rewrite Hc. apply (slots_map_Some cap); eauto.
Qed.

(** Writing a child through the slot found. *)
Lemma slots_write_ok cap n ks cs i k c :
  slots_ok cap n ks cs → i < n → ks !! i = Some k → is_null c = false →
  slots_ok cap n ks (<[i := c]> cs) ∧
  slots_map n ks (<[i := c]> cs) = <[k := c]> (slots_map n ks cs).
Proof.
  intros Hok Hi Hk Hc. assert (slots_ok cap n ks (<[i := c]> cs)) as Hok'.
  { destruct Hok. split; rewrite ?length_insert; auto.
    - intros j x Hj. rewrite list_lookup_insert. case_decide; naive_solver.
    - intros j ??. rewrite list_lookup_insert_ne by lia. auto. }
  split; [done|]. apply map_eq. intros k'. apply option_eq. intros x.
  rewrite (slots_map_Some cap), lookup_insert_Some, (slots_map_Some cap) by done.
  assert (i < length cs) by (destruct Hok; lia).
  assert (∀ j, j < n → ks !! j = Some k → j = i) as Huniq.
  { intros j Hj Hjk. destruct Hok. destruct (Nat.lt_total i j) as [?|[?|?]]; [|done|];
      assert (k < k)%Z by eauto; lia. }
  setoid_rewrite list_lookup_insert. split.
  - intros (j & Hj & Hkj & Hxj). case_decide; [naive_solver|].
    right. split; [|eauto]. intros ->. naive_solver lia.
  - intros [[-> ->]|(Hne & j & Hj & Hkj & Hxj)]; [|by exists j; rewrite decide_False by naive_solver].
    exists i. by rewrite decide_True.
Qed.

Lemma slots_live_map cap n ks cs :
  slots_ok cap n ks cs →
  map_Forall (λ k c, is_u8 k ∧ is_null c = false) (slots_map n ks cs).
Proof.
  intros Hok k c (i & Hi & Hk & Hc)%(slots_map_Some cap); [|done].
  split; [by eapply slots_key_lt|]. destruct Hok. eauto.
Qed.

(** ** The two updates as map updates *)

(** [pos] splits the used slots into keys below and keys above [key]. *)
Definition insert_point (n : nat) (ks : list Z) (key : Z) (pos : nat) : Prop :=
  pos ≤ n ∧ (∀ i x, i < pos → ks !! i = Some x → (x < key)%Z) ∧
  (∀ i x, pos ≤ i → i < n → ks !! i = Some x → (key < x)%Z).

Lemma insert_point_absent cap n ks cs key pos :
  slots_ok cap n ks cs → insert_point n ks key pos → slots_map n ks cs !! key = None.
Proof.
  intros Hok (Hle & Hbelow & Habove). apply (slots_map_None _ _ _ _ _ Hok). intros i Hi Hki.
  destruct (decide (i < pos)) as [Hp|Hp]; [specialize (Hbelow i key Hp Hki); lia|].
  specialize (Habove i key ltac:(lia) Hi Hki). lia.
Qed.

Lemma insert_slot_map cap n ks cs key c pos :
  slots_ok cap n ks cs → n < cap → insert_point n ks key pos → is_u8 key → is_null c = false →
  ∃ ks' cs', insert_slot ks cs pos n key c = Ret (ks', cs') ∧
    slots_ok cap (S n) ks' cs' ∧ slots_map (S n) ks' cs' = <[key := c]> (slots_map n ks cs).
Proof.
  intros Hok Hn (Hle & Hbelow & Habove) Hkey Hc.
  destruct (insert_slot_spec ks cs pos n key c) as (ks' & cs' & -> & Hks & Hcs);
    [destruct Hok; lia..|].
  exists ks', cs'. split_and!; [done|by eapply slots_insert_ok|by eapply slots_insert_map].
Qed.

Lemma remove_slot_map cap n ks cs key index :
  slots_ok cap n ks cs → index < n → ks !! index = Some key →
  ∃ ks' cs', remove_slot ks cs index n = Ret (ks', cs') ∧
    slots_ok cap (n - 1) ks' cs' ∧ slots_map (n - 1) ks' cs' = delete key (slots_map n ks cs).
Proof.
  intros Hok Hi Hkey. destruct (remove_slot_spec ks cs index n) as (ks' & cs' & -> & Hks & Hcs);
    [destruct Hok; lia..|].
  exists ks', cs'. split_and!; [done|by eapply slots_remove_ok|by eapply slots_remove_map].
Qed.

(** A slot that holds [key] has a live child there. *)
Lemma slots_found cap n ks cs key i :
  slots_ok cap n ks cs → i < n → ks !! i = Some key →
  ∃ c, cs !! i = Some c ∧ slots_map n ks cs !! key = Some c.
Proof.
  intros Hok Hi Hk. destruct (lookup_lt_is_Some_2 cs i) as [c Hc]; [destruct Hok; lia|].
  exists c. split; [done|]. by rewrite (slots_map_lookup _ _ _ _ _ _ Hok Hi Hk).
Qed.

(** Iteration over the used slots. *)
Lemma slots_iter cap n ks cs :
  slots_ok cap n ks cs →
  (ks' ← slice_to ks n; cs' ← slice_to cs n; Ret (zip ks' cs')) = Ret (entries n ks cs).
Proof. intros []. unfold slice_to. by rewrite !decide_True by lia. Qed.
