(* ===== verification/ArtNode.v ===== *)
(** * The common part of ART nodes (src/src/persistent_artrie/nodes/mod.rs)

    The node header with its flag byte, its atomic twin, the compressed prefix,
    the sequential-sibling descriptor, and the [ArtNode] trait as a class of
    operations together with the class of laws ([ArtNodeLaws]) every node type
    is proved to satisfy.  Padding fields are constant zeros and are left out. *)

From stdpp Require Import prelude gmap sorting.
From S2P Require Import Prelude SwizzledPtr.

Local Open Scope Z_scope.

Definition MAX_PREFIX_LEN : nat := 12.

(** ** Flags *)

Definition IS_FINAL : Z := 1.
Definition IS_DIRTY : Z := 2.
Definition IS_LEAF : Z := 4.
Definition HAS_DIRTY_DESCENDANTS : Z := 8.

(** [!x] on a [u8]. *)
Definition u8_not (x : Z) : Z := Z.lxor 255 x.

(** ** The header *)

Record NodeHeader := mkHeader {
  node_type : Z;
  prefix_len : Z;
  flags : Z;
  num_children : Z;
  version : Z;
}.

Definition NodeHeader_new (node_type : Z) : NodeHeader := mkHeader node_type 0 0 0 0.

Definition set_node_type (t : Z) (h : NodeHeader) : NodeHeader :=
  mkHeader t (prefix_len h) (flags h) (num_children h) (version h).
Definition set_prefix_len (l : Z) (h : NodeHeader) : NodeHeader :=
  mkHeader (node_type h) l (flags h) (num_children h) (version h).
Definition set_flags (f : Z) (h : NodeHeader) : NodeHeader :=
  mkHeader (node_type h) (prefix_len h) f (num_children h) (version h).
Definition set_num_children (n : Z) (h : NodeHeader) : NodeHeader :=
  mkHeader (node_type h) (prefix_len h) (flags h) n (version h).
Definition set_version (v : Z) (h : NodeHeader) : NodeHeader :=
  mkHeader (node_type h) (prefix_len h) (flags h) (num_children h) v.

(** [self.flags & mask != 0] and [self.flags |= mask] / [self.flags &= !mask]. *)
Definition test_flag (mask f : Z) : bool := negb (Z.land f mask =? 0).
Definition put_flag (mask : Z) (b : bool) (f : Z) : Z :=
  if b then Z.lor f mask else Z.land f (u8_not mask).

Definition is_final (h : NodeHeader) : bool := test_flag IS_FINAL (flags h).
Definition set_final (b : bool) (h : NodeHeader) : NodeHeader :=
  set_flags (put_flag IS_FINAL b (flags h)) h.
Definition is_dirty (h : NodeHeader) : bool := test_flag IS_DIRTY (flags h).
Definition set_dirty (b : bool) (h : NodeHeader) : NodeHeader :=
  set_flags (put_flag IS_DIRTY b (flags h)) h.
Definition is_leaf (h : NodeHeader) : bool := test_flag IS_LEAF (flags h).
Definition set_leaf (b : bool) (h : NodeHeader) : NodeHeader :=
  set_flags (put_flag IS_LEAF b (flags h)) h.
Definition has_dirty_descendants (h : NodeHeader) : bool :=
  test_flag HAS_DIRTY_DESCENDANTS (flags h).
Definition set_has_dirty_descendants (b : bool) (h : NodeHeader) : NodeHeader :=
  set_flags (put_flag HAS_DIRTY_DESCENDANTS b (flags h)) h.
Definition needs_persistence (h : NodeHeader) : bool :=
  test_flag (Z.lor IS_DIRTY HAS_DIRTY_DESCENDANTS) (flags h).
Definition clear_dirty_flags (h : NodeHeader) : NodeHeader :=
  set_flags (put_flag (Z.lor IS_DIRTY HAS_DIRTY_DESCENDANTS) false (flags h)) h.
Definition increment_version (h : NodeHeader) : NodeHeader := set_version (u64 (version h + 1)) h.
Definition check_version (h : NodeHeader) (expected : Z) : bool := version h =? expected.

(** ** The atomic header

    The same fields; each method is one atomic read-modify-write (or load),
    returning what the method returns next to the header it leaves. *)

Inductive HeaderOp : Type :=
| HTrySetFinal
| HSetDirty
| HSetHasDirtyDescendants
| HClearDirtyFlags
| HFetchAddChildren (count : Z)
| HFetchSubChildren (count : Z)
| HCompareExchangeChildren (expected new : Z)
| HFetchAddVersion
| HBeginWrite
| HEndWrite.

Inductive HeaderRes : Type :=
| HUnit
| HBool (b : bool)
| HPrev (z : Z)
| HCas (r : result Z Z).

Definition try_set_final (h : NodeHeader) : NodeHeader * bool :=
  let old := flags h in
  (set_flags (Z.lor old IS_FINAL) h, Z.land old IS_FINAL =? 0).

Definition fetch_add_children (count : Z) (h : NodeHeader) : NodeHeader * Z :=
  (set_num_children (u16 (num_children h + count)) h, num_children h).

Definition fetch_sub_children (count : Z) (h : NodeHeader) : NodeHeader * Z :=
  (set_num_children (u16 (num_children h - count)) h, num_children h).

Definition compare_exchange_children (expected new : Z) (h : NodeHeader) :
    NodeHeader * result Z Z :=
  if num_children h =? expected then (set_num_children new h, Ok expected)
  else (h, Err (num_children h)).

Definition fetch_add_version (h : NodeHeader) : NodeHeader * Z :=
  (set_version (u64 (version h + 1)) h, version h).

Definition begin_write (h : NodeHeader) : NodeHeader * Z := fetch_add_version h.
Definition end_write (h : NodeHeader) : NodeHeader := (fetch_add_version h).1.
Definition is_version_stable (h : NodeHeader) : bool := version h mod 2 =? 0.

Definition header_op (op : HeaderOp) (h : NodeHeader) : NodeHeader * HeaderRes :=
  match op with
  | HTrySetFinal => let '(h', b) := try_set_final h in (h', HBool b)
  | HSetDirty => (set_dirty true h, HUnit)
  | HSetHasDirtyDescendants => (set_has_dirty_descendants true h, HUnit)
  | HClearDirtyFlags => (clear_dirty_flags h, HUnit)
  | HFetchAddChildren n => let '(h', z) := fetch_add_children n h in (h', HPrev z)
  | HFetchSubChildren n => let '(h', z) := fetch_sub_children n h in (h', HPrev z)
  | HCompareExchangeChildren e n =>
      let '(h', r) := compare_exchange_children e n h in (h', HCas r)
  | HFetchAddVersion => let '(h', z) := fetch_add_version h in (h', HPrev z)
  | HBeginWrite => let '(h', z) := begin_write h in (h', HPrev z)
  | HEndWrite => (end_write h, HUnit)
  end.

(** A concurrent execution: the operations in the order they take effect. *)
Fixpoint header_run (ops : list HeaderOp) (h : NodeHeader) : NodeHeader * list HeaderRes :=
  match ops with
  | [] => (h, [])
  | op :: ops =>
      let '(h1, r) := header_op op h in
      let '(h2, rs) := header_run ops h1 in (h2, r :: rs)
  end.

(** ** Compressed prefix *)

Record CompressedPrefix := mkPrefix { bytes : list Z }.

Definition CompressedPrefix_empty : CompressedPrefix := mkPrefix (replicate MAX_PREFIX_LEN 0).

(** [prefix.bytes[..bytes.len()].copy_from_slice(bytes)] on a zeroed array. *)
Definition CompressedPrefix_from_bytes (bs : list Z) : exec CompressedPrefix :=
  if decide (length bs ≤ MAX_PREFIX_LEN)%nat
  then Ret (mkPrefix (bs ++ drop (length bs) (bytes CompressedPrefix_empty)))
  else Panic.

Definition match_key (p : CompressedPrefix) (key : list Z) (prefix_len : nat) : exec nat :=
  let check_len := (prefix_len `min` length key `min` MAX_PREFIX_LEN)%nat in
  r ← for_return (λ i,
        b ← bytes p !! i; byte ← key !! i;
        Ret (if b =? byte then None else Some i)) 0 check_len;
  Ret (default check_len r).

Definition as_slice (p : CompressedPrefix) (len : nat) : list Z :=
  take (len `min` MAX_PREFIX_LEN) (bytes p).

(** ** Sequential sibling storage *)

Inductive ChildStorage : Type :=
| Direct
| Sequential (arena_id first_slot : Z).

Definition is_direct (s : ChildStorage) : bool :=
  match s with Direct => true | Sequential _ _ => false end.
Definition is_sequential (s : ChildStorage) : bool :=
  match s with Sequential _ _ => true | Direct => false end.
Definition first_slot (s : ChildStorage) : option Z :=
  match s with Sequential _ f => Some f | Direct => None end.
Definition storage_arena_id (s : ChildStorage) : option Z :=
  match s with Sequential a _ => Some a | Direct => None end.

(** What holds of the header and prefix of every node of type [ty]. *)
Definition prefix_wf (p : CompressedPrefix) : Prop :=
  length (bytes p) = MAX_PREFIX_LEN ∧ is_bytes (bytes p).

Definition header_wf (ty : Z) (h : NodeHeader) (p : CompressedPrefix) : Prop :=
  node_type h = ty ∧ is_u8 (flags h) ∧ 0 ≤ num_children h ∧
  0 ≤ prefix_len h ≤ Z.of_nat MAX_PREFIX_LEN ∧ prefix_wf p.

(** ** The trait *)

Inductive AddChildError : Set := NodeFull | KeyExists.

(** [find_child_mut k] hands out a mutable reference to the child slot; its
    model is the node after a pointer is written through that reference. *)
Class ArtNode (N : Type) := {
  find_child : N → Z → exec (option SwizzledPtr);
  find_child_mut : N → Z → SwizzledPtr → exec (option N);
  add_child : N → Z → SwizzledPtr → exec (N * result unit AddChildError);
  remove_child : N → Z → exec (N * option SwizzledPtr);
  is_full : N → bool;
  iter_children : N → exec (list (Z * SwizzledPtr));
}.

(** What a node type promises: its operations never panic on a well-formed
    node and implement a finite map from key bytes to non-null children, of at
    most [capacity] entries. *)
Class ArtNodeLaws (N : Type) `{ArtNode N} := {
  header_of : N → NodeHeader;
  prefix_of : N → CompressedPrefix;
  node_wf : N → Prop;
  node_map : N → gmap Z SwizzledPtr;
  capacity : nat;
  node_count n : node_wf n → num_children (header_of n) = Z.of_nat (size (node_map n));
  node_fits n : node_wf n → (size (node_map n) ≤ capacity)%nat;
  node_live n : node_wf n → map_Forall (λ k c, is_u8 k ∧ is_null c = false) (node_map n);
  law_find n k : node_wf n → is_u8 k → find_child n k = Ret (node_map n !! k);
  law_find_mut n k c :
    node_wf n → is_u8 k → is_null c = false →
    match node_map n !! k with
    | None => find_child_mut n k c = Ret None
    | Some _ => ∃ n', find_child_mut n k c = Ret (Some n') ∧ node_wf n' ∧
                  node_map n' = <[k := c]> (node_map n) ∧
                  header_of n' = header_of n ∧ prefix_of n' = prefix_of n
    end;
  law_add n k c :
    node_wf n → is_u8 k → is_null c = false →
    ∃ n' r, add_child n k c = Ret (n', r) ∧
      match r with
      | Ok _ => node_map n !! k = None ∧ node_wf n' ∧ node_map n' = <[k := c]> (node_map n) ∧
                header_of n' = set_num_children (num_children (header_of n) + 1) (header_of n) ∧
                prefix_of n' = prefix_of n
      | Err KeyExists => is_Some (node_map n !! k) ∧ n' = n
      | Err NodeFull => size (node_map n) = capacity ∧ n' = n
      end;
  law_remove n k :
    node_wf n → is_u8 k →
    ∃ n', remove_child n k = Ret (n', node_map n !! k) ∧ node_wf n' ∧
      node_map n' = delete k (node_map n) ∧ prefix_of n' = prefix_of n ∧
      header_of n' = set_num_children (Z.of_nat (size (delete k (node_map n)))) (header_of n) ∧
      (node_map n !! k = None → n' = n);
  law_full n : node_wf n → is_full n = bool_decide (size (node_map n) = capacity);
  law_iter n :
    node_wf n →
    ∃ l, iter_children n = Ret l ∧ StronglySorted Z.lt l.*1 ∧ list_to_map l = node_map n;
}.

(** A node with the given children, added one by one. *)
Fixpoint add_children {N} `{ArtNode N} (n : N) (l : list (Z * SwizzledPtr)) : option N :=
  match l with
  | [] => Some n
  | (k, c) :: l =>
      '(n', r) ← add_child n k c;
      match r with Ok _ => add_children n' l | Err _ => None end
  end.

Lemma add_children_wf {N} `{ArtNodeLaws N} (n n' : N) l :
  node_wf n → Forall (λ kc, is_u8 kc.1 ∧ is_null kc.2 = false) l →
  add_children n l = Some n' → node_wf n'.
Proof.
  intros Hwf Hl. revert n Hwf. induction Hl as [|[k c] l [Hk Hc] _ IH]; intros n Hwf; simpl;
    [naive_solver|].
  destruct (law_add n k c Hwf Hk Hc) as (n1 & r & -> & Hr). simpl.
  destruct r as [?|?]; naive_solver.
Qed.

(** ** Well-formed headers *)

Lemma set_num_children_id h z : num_children h = z → h = set_num_children z h.
Proof. destruct h. by intros <-. Qed.

Lemma header_wf_new ty : header_wf ty (NodeHeader_new ty) CompressedPrefix_empty.
Proof. split_and!; try done. split; [done|]. apply (Forall_replicate _ 12%nat). by vm_compute. Qed.

Lemma header_wf_count ty h p m :
  header_wf ty h p → header_wf ty (set_num_children (Z.of_nat m) h) p.
Proof. intros (? & ? & ? & ? & ?). split_and!; simpl; done || lia. Qed.

Lemma header_wf_retype ty ty' h p : header_wf ty h p → header_wf ty' (set_node_type ty' h) p.
Proof. intros (? & ? & ? & ? & ?). split_and!; simpl; naive_solver. Qed.

Lemma header_wf_with_prefix ty bs p :
  is_bytes bs → CompressedPrefix_from_bytes bs = Ret p →
  header_wf ty (set_prefix_len (u8 (Z.of_nat (length bs))) (NodeHeader_new ty)) p ∧
  u8 (Z.of_nat (length bs)) = Z.of_nat (length bs).
Proof.
  intros Hbs Hp. unfold CompressedPrefix_from_bytes in Hp. case_decide as Hlen; [|done].
  injection Hp as <-. unfold MAX_PREFIX_LEN in Hlen.
  rewrite u8_id by (unfold is_u8; lia). split; [|done].
  split_and!; simpl; try done; unfold MAX_PREFIX_LEN; [lia..|split; simpl].
  - change (length (bs ++ drop (length bs) (replicate 12 0)) = 12%nat).
    rewrite length_app, length_drop, length_replicate. lia.
  - apply Forall_app. split; [done|]. apply Forall_drop, (Forall_replicate _ 12%nat). by vm_compute.
Qed.

#[export] Hint Resolve header_wf_new header_wf_count header_wf_retype : dict.

(** ** Flags *)

(** A property of all 256 flag bytes, checked by evaluation. *)
Lemma all_u8 (P : Z → bool) : forallb P (seqZ 0 256) = true → ∀ f, is_u8 f → P f = true.
Proof.
  intros H f Hf. rewrite forallb_forall in H. apply H, list_elem_of_In, elem_of_seqZ.
  unfold is_u8 in Hf. lia.
Qed.

Definition u8b (z : Z) : bool := (0 <=? z) && (z <? 256).

Lemma u8b_spec z : u8b z = true → is_u8 z.
Proof. unfold u8b, is_u8. intros [? ?]%andb_true_iff. lia. Qed.

(** Flag [i] of [put_flag], and of the byte it came from, for all four flags. *)
Definition put_flag_ok (b : bool) (f : Z) : bool :=
  forallb (λ m, u8b (put_flag m b f) &&
    forallb (λ m', Bool.eqb (test_flag m' (put_flag m b f))
                            (if decide (m' = m) then b else test_flag m' f))
      [IS_FINAL; IS_DIRTY; IS_LEAF; HAS_DIRTY_DESCENDANTS])
    [IS_FINAL; IS_DIRTY; IS_LEAF; HAS_DIRTY_DESCENDANTS].

Lemma put_flag_correct b f : is_u8 f → put_flag_ok b f = true.
Proof. destruct b; by apply (all_u8 (put_flag_ok _)); vm_compute. Qed.

Lemma put_flag_spec m m' b f :
  is_u8 f → m ∈ [IS_FINAL; IS_DIRTY; IS_LEAF; HAS_DIRTY_DESCENDANTS] →
  m' ∈ [IS_FINAL; IS_DIRTY; IS_LEAF; HAS_DIRTY_DESCENDANTS] →
  is_u8 (put_flag m b f) ∧
  test_flag m' (put_flag m b f) = if decide (m' = m) then b else test_flag m' f.
Proof.
  intros Hf Hm Hm'. pose proof (put_flag_correct b f Hf) as H. unfold put_flag_ok in H.
  rewrite forallb_forall in H.
  specialize (H m (proj1 (list_elem_of_In _ _) Hm)). apply andb_true_iff in H as [Hu H].
  rewrite forallb_forall in H. specialize (H m' (proj1 (list_elem_of_In _ _) Hm')).
  split; [by apply u8b_spec|by apply eqb_prop].
Qed.

Definition clear_dirty_ok (f : Z) : bool :=
  let m := Z.lor IS_DIRTY HAS_DIRTY_DESCENDANTS in
  let f' := put_flag m false f in
  u8b f' && Bool.eqb (test_flag m f) (test_flag IS_DIRTY f || test_flag HAS_DIRTY_DESCENDANTS f)
  && negb (test_flag IS_DIRTY f') && negb (test_flag HAS_DIRTY_DESCENDANTS f')
  && Bool.eqb (test_flag IS_FINAL f') (test_flag IS_FINAL f)
  && Bool.eqb (test_flag IS_LEAF f') (test_flag IS_LEAF f).

Lemma clear_dirty_correct f : is_u8 f → clear_dirty_ok f = true.
Proof. by apply (all_u8 clear_dirty_ok); vm_compute. Qed.

Lemma clear_dirty_spec h :
  is_u8 (flags h) →
  is_u8 (flags (clear_dirty_flags h)) ∧
  needs_persistence h = is_dirty h || has_dirty_descendants h ∧
  needs_persistence (clear_dirty_flags h) = false ∧
  is_final (clear_dirty_flags h) = is_final h ∧ is_leaf (clear_dirty_flags h) = is_leaf h.
Proof.
  intros Hf. pose proof (clear_dirty_correct _ Hf) as H. unfold clear_dirty_ok in H.
  rewrite !andb_true_iff in H. destruct H as [[[[[Hu E1] E2] E3] E4] E5].
  apply u8b_spec in Hu. pose proof (clear_dirty_correct _ Hu) as H'.
  unfold clear_dirty_ok in H'. rewrite !andb_true_iff in H'. destruct H' as [[[[[_ E1'] _] _] _] _].
  apply eqb_prop in E1, E4, E5, E1'. apply negb_true_iff in E2, E3.
  split_and!; auto. etrans; [exact E1'|]. by rewrite E2, E3.
Qed.

(** The flag byte holds four independent booleans: each setter makes its
    own getter return the given value, leaves the other three getters as they
    were and keeps the byte a [u8]; [needs_persistence] is "dirty or dirty
    below", and [clear_dirty_flags] resets exactly those two. *)
Theorem header_flags_independent h b :
  is_u8 (flags h) →
  (is_final (set_final b h) = b ∧ is_dirty (set_final b h) = is_dirty h ∧
   is_leaf (set_final b h) = is_leaf h ∧
   has_dirty_descendants (set_final b h) = has_dirty_descendants h) ∧
  (is_final (set_dirty b h) = is_final h ∧ is_dirty (set_dirty b h) = b ∧
   is_leaf (set_dirty b h) = is_leaf h ∧
   has_dirty_descendants (set_dirty b h) = has_dirty_descendants h) ∧
  (is_final (set_leaf b h) = is_final h ∧ is_dirty (set_leaf b h) = is_dirty h ∧
   is_leaf (set_leaf b h) = b ∧
   has_dirty_descendants (set_leaf b h) = has_dirty_descendants h) ∧
  (is_final (set_has_dirty_descendants b h) = is_final h ∧
   is_dirty (set_has_dirty_descendants b h) = is_dirty h ∧
   is_leaf (set_has_dirty_descendants b h) = is_leaf h ∧
   has_dirty_descendants (set_has_dirty_descendants b h) = b) ∧
  needs_persistence h = is_dirty h || has_dirty_descendants h ∧
  needs_persistence (clear_dirty_flags h) = false ∧
  is_final (clear_dirty_flags h) = is_final h ∧ is_leaf (clear_dirty_flags h) = is_leaf h.
Proof.
  intros Hf. destruct (clear_dirty_spec h Hf) as (_ & ? & ? & ? & ?).
  split_and!; try done; unfold is_final, is_dirty, is_leaf, has_dirty_descendants; simpl;
    (etrans; [apply put_flag_spec; [done|set_solver|set_solver]|by vm_compute]).
Qed.

Lemma header_flags_independent_witness :
  is_final (set_final true (NodeHeader_new 4)) = true ∧
  is_dirty (set_final true (NodeHeader_new 4)) = false.
Proof.
  destruct (header_flags_independent (NodeHeader_new 4) true) as ((H1 & H2 & _) & _);
    [vm_compute; split; congruence|].
  exact (conj H1 H2).
Defined.

(** ** Claiming a node *)

#[global] Instance HeaderOp_eq_dec : EqDecision HeaderOp.
Proof. solve_decision. Defined.

Definition claimed (r : HeaderRes) : bool :=
  match r with HBool b => b | _ => false end.
Definition claims (rs : list HeaderRes) : nat := length (filter (λ r, claimed r = true) rs).

Lemma header_op_final op h :
  is_u8 (flags h) →
  is_u8 (flags (header_op op h).1) ∧
  match op with
  | HTrySetFinal => is_final (header_op op h).1 = true ∧ (header_op op h).2 = HBool (negb (is_final h))
  | _ => is_final (header_op op h).1 = is_final h ∧ ∀ b, (header_op op h).2 ≠ HBool b
  end.
Proof.
  intros Hf. destruct op; simpl; try done.
  - destruct (put_flag_spec IS_FINAL IS_FINAL true (flags h)) as [Hu Ht]; [done|set_solver..|].
    split_and!; [done|exact Ht|]. unfold is_final, test_flag. by rewrite negb_involutive.
  - destruct (put_flag_spec IS_DIRTY IS_FINAL true (flags h)) as [Hu Ht]; [done|set_solver..|].
    split_and!; [done|exact Ht|done].
  - destruct (put_flag_spec HAS_DIRTY_DESCENDANTS IS_FINAL true (flags h)) as [Hu Ht];
      [done|set_solver..|].
    split_and!; [done|exact Ht|done].
  - destruct (clear_dirty_spec h Hf) as (? & _ & _ & ? & _). auto.
  - unfold compare_exchange_children. by destruct (_ =? _).
Qed.

(** [try_set_final] elects exactly one winner.  In every order in which
    the atomic operations of any number of threads take effect on a header that
    is not final yet, exactly one [try_set_final] call returns [true] (none if
    nobody calls it), whatever dirty-flag, child-count and version updates
    happen in between; on a header that is already final none does. *)
Theorem try_set_final_single_winner ops h :
  is_u8 (flags h) →
  claims (header_run ops h).2 =
    if is_final h then 0%nat else if decide (HTrySetFinal ∈ ops) then 1%nat else 0%nat.
Proof.
  revert h. induction ops as [|op ops IH]; intros h Hf; simpl.
  - by destruct (is_final h).
  - pose proof (header_op_final op h Hf) as [Hu Hop].
    destruct (header_op op h) as [h1 r] eqn:E. simpl in *.
    pose proof (IH h1 Hu) as IH1. destruct (header_run ops h1) as [h2 rs]. simpl in *.
    unfold claims in *. rewrite filter_cons.
    destruct (decide (op = HTrySetFinal)) as [->|Hop'].
    + destruct Hop as [Hfin ->]. rewrite Hfin in IH1. rewrite (decide_True (P:=_ ∈ _)) by set_solver.
      case_decide as Hc; simpl in Hc; destruct (is_final h); done || by rewrite <-IH1.
    + assert (claimed r = false ∧ is_final h1 = is_final h) as [Hr Hfin].
      { destruct op; try done; destruct Hop as [? Hr]; (split; [|done]);
          destruct r as [|b| |]; done || by destruct (Hr b). }
      rewrite decide_False by congruence. rewrite IH1, Hfin.
      destruct (is_final h); [done|]. apply decide_ext. set_solver.
Qed.

Lemma try_set_final_single_winner_witness :
  claims (header_run [HSetDirty; HTrySetFinal; HBeginWrite; HTrySetFinal] (NodeHeader_new 4)).2 = 1%nat.
Proof.
  etrans; [apply (try_set_final_single_winner
    [HSetDirty; HTrySetFinal; HBeginWrite; HTrySetFinal] (NodeHeader_new 4))|].
  - vm_compute; split; congruence.
  - rewrite decide_True by set_solver. reflexivity.
Defined.

(** ** The compressed prefix *)

(** The number of leading bytes two strings share. *)
Fixpoint common_len (a b : list Z) : nat :=
  match a, b with
  | x :: a, y :: b => if x =? y then S (common_len a b) else O
  | _, _ => O
  end.

Lemma common_len_spec a b n :
  (n ≤ length a)%nat → (n ≤ length b)%nat → take n a = take n b →
  (∀ x y, a !! n = Some x → b !! n = Some y → x ≠ y) → common_len a b = n.
Proof.
  revert b n. induction a as [|x a IH]; intros [|y b] [|n] Ha Hb Ht Hne; simpl in *; try lia.
  - destruct (Z.eqb_spec x y); [|done]. by destruct (Hne x y).
  - injection Ht as -> Ht. rewrite Z.eqb_refl. f_equal. apply IH; auto with lia.
Qed.

Lemma prefix_bytes_lookup p i :
  prefix_wf p → (i < MAX_PREFIX_LEN)%nat → ∃ b, bytes p !! i = Some b.
Proof. intros [Hlen _] Hi. apply lookup_lt_is_Some_2. by rewrite Hlen. Qed.

(** Prefix matching.  [match_key] returns the length of the longest
    common prefix of the stored prefix and the search key (so the whole prefix
    matches exactly when it returns [prefix_len]), and a prefix built from at
    most 12 bytes reads back unchanged; a longer one panics. *)
Theorem match_key_common_prefix p key len :
  prefix_wf p →
  match_key p key len = Ret (common_len (as_slice p len) key) ∧
  (∀ bs, (length bs ≤ MAX_PREFIX_LEN)%nat →
     ∃ q, CompressedPrefix_from_bytes bs = Ret q ∧ as_slice q (length bs) = bs) ∧
  (∀ bs, (MAX_PREFIX_LEN < length bs)%nat → CompressedPrefix_from_bytes bs = Panic).
Proof.
  intros Hp. split_and!.
  - unfold match_key. set (n := (len `min` length key `min` MAX_PREFIX_LEN)%nat).
    destruct (for_return_spec (λ i, b ← bytes p !! i; byte ← key !! i;
        Ret (if b =? byte then None else Some i)) 0 n) as (r & -> & Hr).
    { intros j Hj. destruct (prefix_bytes_lookup p j Hp) as [b ->]; [lia|].
      destruct (lookup_lt_is_Some_2 key j) as [y ->]; [lia|]. simpl. by eexists. }
    assert (∀ m, (m ≤ n)%nat →
      (∀ j, (j < m)%nat → (b ← bytes p !! j; byte ← key !! j;
        Ret (if b =? byte then None else Some j)) = Some None) →
      take m (as_slice p len) = take m key) as Hagree.
    { intros m Hm Hj. apply list_eq. intros i. unfold as_slice.
      destruct (decide (i < m)%nat) as [Hi|Hi].
      - rewrite !lookup_take_lt by lia. specialize (Hj i Hi).
        destruct (bytes p !! i) as [b|], (key !! i) as [y|]; simpl in Hj; try done.
        destruct (Z.eqb_spec b y); by subst.
      - rewrite !lookup_take_ge by lia. done. }
    assert (length (as_slice p len) = len `min` MAX_PREFIX_LEN)%nat as Hlen.
    { destruct Hp. unfold as_slice. rewrite length_take. lia. }
    simpl. f_equal. symmetry. destruct r as [i|]; simpl.
    + destruct Hr as (j & Hj & Hfj & Hbefore).
      destruct (bytes p !! j) as [b|] eqn:Hb; simpl in Hfj; [|done].
      destruct (key !! j) as [y|] eqn:Hy; simpl in Hfj; [|done].
      destruct (Z.eqb_spec b y); simplify_eq.
      apply common_len_spec; [lia..|apply Hagree; [lia|intros; apply Hbefore; lia]|].
      intros x z Hx Hz. unfold as_slice in Hx. rewrite lookup_take_lt in Hx by lia. congruence.
    + apply common_len_spec; [lia..|apply Hagree; [lia|intros; apply Hr; lia]|].
      intros x z Hx%lookup_lt_Some Hz%lookup_lt_Some. lia.
  - intros bs Hbs. unfold CompressedPrefix_from_bytes. rewrite decide_True by done.
    eexists. split; [done|]. unfold as_slice. simpl.
    rewrite Nat.min_l by done. by rewrite take_app_length.
  - intros bs Hbs. unfold CompressedPrefix_from_bytes. by rewrite decide_False by lia.
Qed.

Lemma match_key_common_prefix_witness :
  match_key (mkPrefix ([104; 101; 108] ++ replicate 9 0)) [104; 101; 120] 3 = Ret 2%nat.
Proof.
  apply (match_key_common_prefix (mkPrefix ([104; 101; 108] ++ replicate 9 0)) [104; 101; 120] 3).
  split; [reflexivity|]. unfold is_bytes. repeat constructor; vm_compute; congruence.
Defined.
