(* ===== verification/Node4.v ===== *)
(** * Node4

    The node of up to four children (src/src/persistent_artrie/nodes/node4.rs):
    sorted key and child arrays, searched linearly. *)

From stdpp Require Import prelude gmap sorting.
From S2P Require Import Prelude SwizzledPtr SortedArray ArtNode.
Local Open Scope Z_scope.

Definition NODE4_MAX_CHILDREN : nat := 4.

Record Node4 := mkNode4 {
  n4_header : NodeHeader;
  n4_prefix : CompressedPrefix;
  n4_keys : list Z;
  n4_children : list SwizzledPtr;
}.

Definition Node4_new : Node4 :=
  mkNode4 (NodeHeader_new 4) CompressedPrefix_empty
    (replicate NODE4_MAX_CHILDREN 0) (replicate NODE4_MAX_CHILDREN null).

Definition Node4_with_prefix (prefix : list Z) : exec Node4 :=
  let node := Node4_new in
  p ← CompressedPrefix_from_bytes prefix;
  Ret (mkNode4 (set_prefix_len (u8 (Z.of_nat (length prefix))) (n4_header node)) p
         (n4_keys node) (n4_children node)).

(** [self.header.num_children as usize] *)
Definition n4_count (n : Node4) : nat := Z.to_nat (num_children (n4_header n)).

Definition Node4_find_key_index (n : Node4) (key : Z) : exec (result nat nat) :=
  let count := n4_count n in
  r ← for_return (λ i,
        k ← n4_keys n !! i;
        if k =? key then Ret (Some (Ok i))
        else if key <? k then Ret (Some (Err i))
        else Ret None) 0 count;
  Ret (default (Err count) r).

Definition Node4_find_child (n : Node4) (key : Z) : exec (option SwizzledPtr) :=
  for_return (λ i,
    k ← n4_keys n !! i;
    if k =? key then c ← n4_children n !! i; Ret (Some c) else Ret None) 0 (n4_count n).

Definition Node4_find_child_mut (n : Node4) (key : Z) (c : SwizzledPtr) : exec (option Node4) :=
  for_return (λ i,
    k ← n4_keys n !! i;
    if k =? key then
      n' ← (cs ← store (n4_children n) i c;
            Ret (mkNode4 (n4_header n) (n4_prefix n) (n4_keys n) cs));
      Ret (Some n')
    else Ret None) 0 (n4_count n).

Definition Node4_add_child (n : Node4) (key : Z) (child : SwizzledPtr) :
    exec (Node4 * result unit AddChildError) :=
  let count := n4_count n in
  if (NODE4_MAX_CHILDREN <=? count)%nat then Ret (n, Err NodeFull)
  else
    r ← Node4_find_key_index n key;
    match r with
    | Ok _ => Ret (n, Err KeyExists)
    | Err insert_pos =>
        '(ks, cs) ← insert_slot (n4_keys n) (n4_children n) insert_pos count key child;
        let h := n4_header n in
        Ret (mkNode4 (set_num_children (u16 (num_children h + 1)) h) (n4_prefix n) ks cs, Ok tt)
    end.

Definition Node4_remove_child (n : Node4) (key : Z) : exec (Node4 * option SwizzledPtr) :=
  let count := n4_count n in
  r ← Node4_find_key_index n key;
  match r with
  | Ok index =>
      removed ← n4_children n !! index;
      '(ks, cs) ← remove_slot (n4_keys n) (n4_children n) index count;
      let h := n4_header n in
      Ret (mkNode4 (set_num_children (u16 (num_children h - 1)) h) (n4_prefix n) ks cs,
           Some removed)
  | Err _ => Ret (n, None)
  end.

Definition Node4_is_full (n : Node4) : bool := (NODE4_MAX_CHILDREN <=? n4_count n)%nat.

Definition Node4_iter_children (n : Node4) : exec (list (Z * SwizzledPtr)) :=
  let count := n4_count n in
  ks ← slice_to (n4_keys n) count;
  cs ← slice_to (n4_children n) count;
  Ret (zip ks cs).

#[global] Instance Node4_ArtNode : ArtNode Node4 := {
  find_child := Node4_find_child;
  find_child_mut := Node4_find_child_mut;
  add_child := Node4_add_child;
  remove_child := Node4_remove_child;
  is_full := Node4_is_full;
  iter_children := Node4_iter_children;
}.

(** ** Slot access for lock-free readers *)

Definition Node4_get_child_atomic (n : Node4) (key : Z) : exec (option SwizzledPtr) :=
  for_return (λ i,
    k ← n4_keys n !! i;
    if k =? key then c ← n4_children n !! i; Ret (Some c) else Ret None) 0 (n4_count n).

Definition Node4_child_slot (n : Node4) (index : nat) : exec SwizzledPtr := n4_children n !! index.

Definition Node4_find_slot_for_key (n : Node4) (key : Z) : exec (result nat nat) :=
  Node4_find_key_index n key.

Definition Node4_next_slot (n : Node4) : option nat :=
  let count := n4_count n in
  if (count <? NODE4_MAX_CHILDREN)%nat then Some count else None.

Definition Node4_key_at (n : Node4) (index : nat) : exec Z := n4_keys n !! index.

Definition Node4_iter_indexed (n : Node4) : exec (list (nat * Z * SwizzledPtr)) :=
  mapM (λ i, k ← n4_keys n !! i; c ← n4_children n !! i; Ret (i, k, c)) (seq 0 (n4_count n)).

(** ** The node as a map *)

Definition n4_map (n : Node4) : gmap Z SwizzledPtr :=
  slots_map (n4_count n) (n4_keys n) (n4_children n).

Definition n4_wf (n : Node4) : Prop :=
  header_wf 4 (n4_header n) (n4_prefix n) ∧
  slots_ok NODE4_MAX_CHILDREN (n4_count n) (n4_keys n) (n4_children n).

Lemma n4_wf_count n : n4_wf n → num_children (n4_header n) = Z.of_nat (size (n4_map n)).
Proof.
  intros [(_ & _ & ? & _) Hok]. unfold n4_map. rewrite (slots_map_size _ _ _ _ Hok).
  unfold n4_count. lia.
Qed.

(** The node after its arrays and its count changed. *)
Lemma n4_wf_update n z m ks cs :
  n4_wf n → slots_ok NODE4_MAX_CHILDREN m ks cs → z = Z.of_nat m →
  let n' := mkNode4 (set_num_children z (n4_header n)) (n4_prefix n) ks cs in
  n4_wf n' ∧ n4_map n' = slots_map m ks cs.
Proof.
  intros [Hh _] Hok ->. unfold n4_wf, n4_map, n4_count. simpl. rewrite Nat2Z.id.
  auto with dict.
Qed.

Lemma Node4_find_key_index_spec n key :
  n4_wf n →
  ∃ r, Node4_find_key_index n key = Ret r ∧
    match r with
    | Ok i => (i < n4_count n)%nat ∧ n4_keys n !! i = Some key
    | Err pos => insert_point (n4_count n) (n4_keys n) key pos
    end.
Proof.
  intros [_ Hok]. unfold Node4_find_key_index.
  destruct (for_return_spec (λ i, k ← n4_keys n !! i;
    if k =? key then Ret (Some (Ok i)) else if key <? k then Ret (Some (Err i)) else Ret None)
    0 (n4_count n)) as (r & -> & Hr).
  { intros j Hj. destruct (lookup_lt_is_Some_2 (n4_keys n) j) as [k ->]; [destruct Hok; lia|].
    simpl. dict_case; eauto. }
  simpl. eexists. split; [done|].
  assert (∀ j k, n4_keys n !! j = Some k → (k ← n4_keys n !! j;
    if k =? key then Ret (Some (@Ok nat nat j)) else if key <? k then Ret (Some (Err j)) else Ret None)
    = Some None → k < key) as Hlt.
  { intros j k ->. simpl. dict_case; naive_solver lia. }
  destruct r as [x|]; simpl.
  - destruct Hr as (j & Hj & Hf & Hbefore).
    destruct (n4_keys n !! j) as [k|] eqn:Hk; [|done]. simpl in Hf.
    destruct (Z.eqb_spec k key); [naive_solver lia|].
    destruct (Z.ltb_spec key k); [|done]. simplify_eq. split_and!; [lia|..].
    + intros i y Hi Hy. eapply Hlt; [done|]. apply Hbefore. lia.
    + intros i y Hi Hi' Hy. destruct (decide (i = j)) as [->|]; [naive_solver|].
      destruct Hok. assert (k < y) by (eapply (ok_sorted j i); eauto with lia). lia.
  - split_and!; [lia| |intros; lia]. intros i x Hi Hx. eapply Hlt; [done|]. apply Hr. lia.
Qed.

(** A fresh node, with or without a prefix, is well-formed and empty. *)
Lemma Node4_new_wf : n4_wf Node4_new ∧ n4_map Node4_new = ∅.
Proof. split; [split; [apply header_wf_new|apply slots_fresh_ok]|done]. Qed.

Lemma Node4_with_prefix_wf bs n :
  is_bytes bs → Node4_with_prefix bs = Ret n →
  n4_wf n ∧ n4_map n = ∅ ∧ prefix_len (n4_header n) = Z.of_nat (length bs).
Proof.
  intros Hbs Hn. unfold Node4_with_prefix in Hn.
  destruct (CompressedPrefix_from_bytes bs) as [p|] eqn:Hp; simplify_eq/=.
  destruct (header_wf_with_prefix 4 bs p Hbs Hp) as [??].
  split_and!; [split; [done|apply slots_fresh_ok]|done|done].
Qed.

(** ** The operations as map operations *)

Lemma Node4_add_refines n k c :
  n4_wf n → is_u8 k → is_null c = false →
  ∃ n' r, Node4_add_child n k c = Ret (n', r) ∧
    match r with
    | Ok _ => n4_map n !! k = None ∧ n4_wf n' ∧ n4_map n' = <[k := c]> (n4_map n) ∧
              n4_header n' = set_num_children (num_children (n4_header n) + 1) (n4_header n) ∧
              n4_prefix n' = n4_prefix n
    | Err KeyExists => is_Some (n4_map n !! k) ∧ n' = n
    | Err NodeFull => size (n4_map n) = NODE4_MAX_CHILDREN ∧ n' = n
    end.
Proof.
  intros Hwf Hk Hc. pose proof Hwf as [(_ & _ & Hpos & _) Hok].
  unfold Node4_add_child. destruct (Nat.leb_spec NODE4_MAX_CHILDREN (n4_count n)) as [Hge|Hlt].
  { exists n, (Err NodeFull). split_and!; [done| |done].
    unfold n4_map. rewrite (slots_map_size _ _ _ _ Hok). destruct Hok. lia. }
  destruct (Node4_find_key_index_spec n k Hwf) as ([i|pos] & -> & Hr); simpl.
  { destruct Hr as [Hi Hki]. exists n, (Err KeyExists). split_and!; [done| |done].
    destruct (slots_found _ _ _ _ _ _ Hok Hi Hki) as (x & _ & Hx). by exists x. }
  destruct (insert_slot_map _ _ _ _ k c pos Hok Hlt Hr Hk Hc) as (ks & cs & -> & Hok' & Hmap).
  simpl. rewrite u16_id by (unfold is_u16, n4_count, NODE4_MAX_CHILDREN in *; lia).
  eexists _, (Ok tt). split; [done|].
  edestruct (n4_wf_update n (num_children (n4_header n) + 1) _ ks cs Hwf Hok') as [Hwf' Hmap'];
    [unfold n4_count; lia|].
  split_and!; [by eapply insert_point_absent|done|by rewrite Hmap'|done|done].
Qed.

Lemma Node4_remove_refines n k :
  n4_wf n → is_u8 k →
  ∃ n', Node4_remove_child n k = Ret (n', n4_map n !! k) ∧ n4_wf n' ∧
    n4_map n' = delete k (n4_map n) ∧ n4_prefix n' = n4_prefix n ∧
    n4_header n' = set_num_children (Z.of_nat (size (delete k (n4_map n)))) (n4_header n) ∧
    (n4_map n !! k = None → n' = n).
Proof.
  intros Hwf Hk. pose proof Hwf as [(_ & _ & Hpos & _) Hok]. unfold Node4_remove_child.
  destruct (Node4_find_key_index_spec n k Hwf) as ([i|pos] & -> & Hr); simpl.
  - destruct Hr as [Hi Hki]. destruct (slots_found _ _ _ _ _ _ Hok Hi Hki) as (c & Hc & Hm).
    rewrite Hc. simpl.
    destruct (remove_slot_map _ _ _ _ k i Hok Hi Hki) as (ks & cs & -> & Hok' & Hmap). simpl.
    rewrite u16_id by (destruct Hok; unfold is_u16, n4_count, NODE4_MAX_CHILDREN in *; lia).
    edestruct (n4_wf_update n (num_children (n4_header n) - 1) _ ks cs Hwf Hok') as [Hwf' Hmap'];
      [unfold n4_count in *; lia|].
    eexists. split; [unfold n4_map; by rewrite Hm|].
    split_and!; [done|by rewrite Hmap'|done| |unfold n4_map; by rewrite Hm].
    simpl. f_equal. unfold n4_map.
    rewrite <-Hmap, (slots_map_size _ _ _ _ Hok'). unfold n4_count in *. lia.
  - assert (n4_map n !! k = None) as Hnone by (by eapply insert_point_absent).
    exists n. rewrite Hnone, delete_id by done. split_and!; try done.
    by apply set_num_children_id, n4_wf_count.
Qed.

#[global, program] Instance Node4_laws : ArtNodeLaws Node4 := {
  header_of := n4_header;
  prefix_of := n4_prefix;
  node_wf := n4_wf;
  node_map := n4_map;
  capacity := NODE4_MAX_CHILDREN;
}.
Next Obligation. apply n4_wf_count. Qed.
Next Obligation.
  intros n [_ Hok]. unfold n4_map. rewrite (slots_map_size _ _ _ _ Hok). by destruct Hok.
Qed.
Next Obligation. intros n [_ Hok]. by eapply slots_live_map. Qed.
Next Obligation.
  intros n k [_ Hok] Hk.
  destruct (find_slot_spec _ _ _ _ k (λ i, n4_children n !! i) Hok) as (r & Hr & Hspec).
  { intros i Hi. apply lookup_lt_is_Some_2. destruct Hok. lia. }
  etrans; [exact Hr|]. f_equal. symmetry. destruct r as [c|]; [|done].
  destruct Hspec as (i & Hi & Hki & Hci). by rewrite <-Hci; eapply slots_map_lookup.
Qed.
Next Obligation.
  intros n k c [Hh Hok] Hk Hc. simpl.
  destruct (find_slot_spec _ _ _ _ k (λ i, cs ← store (n4_children n) i c;
      Ret (mkNode4 (n4_header n) (n4_prefix n) (n4_keys n) cs)) Hok) as (r & Hr & Hspec).
  { intros i Hi. rewrite store_Some by (destruct Hok; lia). simpl. eauto. }
  unfold n4_map at 1. destruct r as [n'|]; [|by rewrite Hspec].
  destruct Hspec as (i & Hi & Hki & Hst).
  rewrite store_Some in Hst by (destruct Hok; lia). simplify_eq/=.
  destruct (slots_found _ _ _ _ _ _ Hok Hi Hki) as (c0 & _ & ->).
  destruct (slots_write_ok _ _ _ _ i k c Hok Hi Hki Hc) as [??].
  eexists. split; [exact Hr|]. done.
Qed.
Next Obligation. apply Node4_add_refines. Qed.
Next Obligation. apply Node4_remove_refines. Qed.
Next Obligation.
  intros n [_ Hok]. unfold is_full, Node4_ArtNode, Node4_is_full, n4_map.
  rewrite (slots_map_size _ _ _ _ Hok). destruct Hok.
  destruct (Nat.leb_spec NODE4_MAX_CHILDREN (n4_count n)); case_bool_decide; done || lia.
Qed.
Next Obligation.
  intros n [_ Hok]. eexists. split; [by eapply slots_iter|].
  split; [by eapply slots_entries_sorted|done].
Qed.
