(* ===== verification/Node16.v ===== *)
(** * Node16

    The node of up to sixteen children
    (src/src/persistent_artrie/nodes/node16.rs): the arrays of [Node4], four
    times as wide, with a lookup that compares all sixteen keys at once where
    the target has SSE4.1 and scans them one by one elsewhere. *)

From stdpp Require Import prelude gmap sorting.
From S2P Require Import Prelude SwizzledPtr SortedArray ArtNode.
Local Open Scope Z_scope.

Definition NODE16_MAX_CHILDREN : nat := 16.

Record Node16 := mkNode16 {
  n16_header : NodeHeader;
  n16_prefix : CompressedPrefix;
  n16_keys : list Z;
  n16_children : list SwizzledPtr;
}.

Definition Node16_new : Node16 :=
  mkNode16 (NodeHeader_new 16) CompressedPrefix_empty
    (replicate NODE16_MAX_CHILDREN 0) (replicate NODE16_MAX_CHILDREN null).

Definition Node16_with_prefix (prefix : list Z) : exec Node16 :=
  let node := Node16_new in
  p ← CompressedPrefix_from_bytes prefix;
  Ret (mkNode16 (set_prefix_len (u8 (Z.of_nat (length prefix))) (n16_header node)) p
         (n16_keys node) (n16_children node)).

(** [self.header.num_children as usize] *)
Definition n16_count (n : Node16) : nat := Z.to_nat (num_children (n16_header n)).

(** ** The vector instructions

    A 128-bit register is its sixteen bytes, the lowest first. *)

Definition mm_set1_epi8 (b : Z) : list Z := replicate 16 b.
Definition mm_cmpeq_epi8 (a b : list Z) : list Z :=
  zip_with (λ x y, if x =? y then 255 else 0) a b.
Fixpoint mm_movemask_epi8 (r : list Z) : Z :=
  match r with
  | [] => 0
  | b :: r => Z.b2z (Z.testbit b 7) + 2 * mm_movemask_epi8 r
  end.

(** [u32::trailing_zeros] *)
Definition trailing_zeros (z : Z) : nat :=
  default 32%nat (fst <$> list_find (λ i, Z.testbit z (Z.of_nat i) = true) (seq 0 32)).

Definition Node16_find_key_index_simd (n : Node16) (key : Z) : option nat :=
  let keys := n16_keys n in
  let search := mm_set1_epi8 key in
  let cmp := mm_cmpeq_epi8 keys search in
  let mask := mm_movemask_epi8 cmp in
  if mask =? 0 then None
  else
    let index := trailing_zeros mask in
    if (index <? n16_count n)%nat then Some index else None.

Definition Node16_find_key_index_linear (n : Node16) (key : Z) : exec (option nat) :=
  for_return (λ i, k ← n16_keys n !! i; if k =? key then x ← Ret i; Ret (Some x) else Ret None)
    0 (n16_count n).

Definition Node16_find_insert_point (n : Node16) (key : Z) : exec nat :=
  let count := n16_count n in
  r ← for_return (λ i, k ← n16_keys n !! i; Ret (if key <=? k then Some i else None)) 0 count;
  Ret (default count r).

(** ** Operations *)

(** The [cfg(all(target_arch = "x86_64", target_feature = "sse4.1"))] of the
    build: both values are covered by every theorem. *)
Class TargetFeatures := sse41 : bool.

Section operations.
Context {features : TargetFeatures}.

Definition Node16_find_key_index (n : Node16) (key : Z) : exec (option nat) :=
  if sse41 then Ret (Node16_find_key_index_simd n key) else Node16_find_key_index_linear n key.

Definition Node16_find_child (n : Node16) (key : Z) : exec (option SwizzledPtr) :=
  index ← Node16_find_key_index n key;
  match index with
  | Some i => c ← n16_children n !! i; Ret (Some c)
  | None => Ret None
  end.

Definition Node16_find_child_mut (n : Node16) (key : Z) (c : SwizzledPtr) : exec (option Node16) :=
  index ← Node16_find_key_index n key;
  match index with
  | Some i =>
      cs ← store (n16_children n) i c;
      Ret (Some (mkNode16 (n16_header n) (n16_prefix n) (n16_keys n) cs))
  | None => Ret None
  end.

Definition Node16_add_child (n : Node16) (key : Z) (child : SwizzledPtr) :
    exec (Node16 * result unit AddChildError) :=
  let count := n16_count n in
  if (NODE16_MAX_CHILDREN <=? count)%nat then Ret (n, Err NodeFull)
  else
    dup ← Node16_find_key_index_linear n key;
    match dup with
    | Some _ => Ret (n, Err KeyExists)
    | None =>
        insert_pos ← Node16_find_insert_point n key;
        '(ks, cs) ← insert_slot (n16_keys n) (n16_children n) insert_pos count key child;
        let h := n16_header n in
        Ret (mkNode16 (set_num_children (u16 (num_children h + 1)) h) (n16_prefix n) ks cs, Ok tt)
    end.

Definition Node16_remove_child (n : Node16) (key : Z) : exec (Node16 * option SwizzledPtr) :=
  let count := n16_count n in
  r ← Node16_find_key_index_linear n key;
  match r with
  | Some index =>
      removed ← n16_children n !! index;
      '(ks, cs) ← remove_slot (n16_keys n) (n16_children n) index count;
      let h := n16_header n in
      Ret (mkNode16 (set_num_children (u16 (num_children h - 1)) h) (n16_prefix n) ks cs,
           Some removed)
  | None => Ret (n, None)
  end.

Definition Node16_is_full (n : Node16) : bool := (NODE16_MAX_CHILDREN <=? n16_count n)%nat.

Definition Node16_iter_children (n : Node16) : exec (list (Z * SwizzledPtr)) :=
  let count := n16_count n in
  ks ← slice_to (n16_keys n) count;
  cs ← slice_to (n16_children n) count;
  Ret (zip ks cs).

#[global] Instance Node16_ArtNode : ArtNode Node16 := {
  find_child := Node16_find_child;
  find_child_mut := Node16_find_child_mut;
  add_child := Node16_add_child;
  remove_child := Node16_remove_child;
  is_full := Node16_is_full;
  iter_children := Node16_iter_children;
  }.

Definition Node16_get_child_atomic (n : Node16) (key : Z) : exec (option SwizzledPtr) :=
  index ← Node16_find_key_index n key;
  match index with
  | Some i => c ← n16_children n !! i; Ret (Some c)
  | None => Ret None
  end.
End operations.

(** ** Slot access for lock-free readers *)

Definition Node16_child_slot (n : Node16) (index : nat) : exec SwizzledPtr :=
  n16_children n !! index.

Definition Node16_find_slot_for_key (n : Node16) (key : Z) : exec (result nat nat) :=
  r ← Node16_find_key_index_linear n key;
  match r with
  | Some i => Ret (Ok i)
  | None => p ← Node16_find_insert_point n key; Ret (Err p)
  end.

Definition Node16_next_slot (n : Node16) : option nat :=
  let count := n16_count n in
  if (count <? NODE16_MAX_CHILDREN)%nat then Some count else None.

Definition Node16_key_at (n : Node16) (index : nat) : exec Z := n16_keys n !! index.

Definition Node16_iter_indexed (n : Node16) : exec (list (nat * Z * SwizzledPtr)) :=
  mapM (λ i, k ← n16_keys n !! i; c ← n16_children n !! i; Ret (i, k, c)) (seq 0 (n16_count n)).

(** ** The node as a map *)

Definition n16_map (n : Node16) : gmap Z SwizzledPtr :=
  slots_map (n16_count n) (n16_keys n) (n16_children n).

Definition n16_wf (n : Node16) : Prop :=
  header_wf 16 (n16_header n) (n16_prefix n) ∧
  slots_ok NODE16_MAX_CHILDREN (n16_count n) (n16_keys n) (n16_children n).

Lemma n16_wf_count n : n16_wf n → num_children (n16_header n) = Z.of_nat (size (n16_map n)).
Proof.
  intros [(_ & _ & ? & _) Hok]. unfold n16_map. rewrite (slots_map_size _ _ _ _ Hok).
  unfold n16_count. lia.
Qed.

Lemma n16_wf_update n z m ks cs :
  n16_wf n → slots_ok NODE16_MAX_CHILDREN m ks cs → z = Z.of_nat m →
  let n' := mkNode16 (set_num_children z (n16_header n)) (n16_prefix n) ks cs in
  n16_wf n' ∧ n16_map n' = slots_map m ks cs.
Proof.
  intros [Hh _] Hok ->. unfold n16_wf, n16_map, n16_count. simpl. rewrite Nat2Z.id.
  auto with dict.
Qed.

Lemma Node16_new_wf : n16_wf Node16_new ∧ n16_map Node16_new = ∅.
Proof. split; [split; [apply header_wf_new|apply slots_fresh_ok]|done]. Qed.

Lemma Node16_with_prefix_wf bs n :
  is_bytes bs → Node16_with_prefix bs = Ret n →
  n16_wf n ∧ n16_map n = ∅ ∧ prefix_len (n16_header n) = Z.of_nat (length bs).
Proof.
  intros Hbs Hn. unfold Node16_with_prefix in Hn.
  destruct (CompressedPrefix_from_bytes bs) as [p|] eqn:Hp; simplify_eq/=.
  destruct (header_wf_with_prefix 16 bs p Hbs Hp) as [??].
  split_and!; [split; [done|apply slots_fresh_ok]|done|done].
Qed.

(** ** The searches *)

Lemma Node16_linear_spec n key :
  n16_wf n →
  ∃ r, Node16_find_key_index_linear n key = Ret r ∧
    match r with
    | Some i => (i < n16_count n)%nat ∧ n16_keys n !! i = Some key
    | None => n16_map n !! key = None
    end.
Proof.
  intros [_ Hok]. destruct (find_slot_spec _ _ _ _ key Ret Hok) as (r & Hr & Hspec); [eauto|].
  exists r. split; [exact Hr|]. destruct r; naive_solver.
Qed.

(** Two slots in use never hold the same key. *)
Lemma n16_slot_unique n i j key :
  n16_wf n → (i < n16_count n)%nat → (j < n16_count n)%nat →
  n16_keys n !! i = Some key → n16_keys n !! j = Some key → i = j.
Proof.
  intros [_ Hok] Hi Hj Hki Hkj. destruct Hok, (Nat.lt_total i j) as [?|[?|?]]; [|done|];
    assert (key < key) by eauto; lia.
Qed.

Lemma Node16_insert_point_spec n key :
  n16_wf n → n16_map n !! key = None →
  ∃ pos, Node16_find_insert_point n key = Ret pos ∧
    insert_point (n16_count n) (n16_keys n) key pos.
Proof.
  intros [_ Hok] Hnone. unfold Node16_find_insert_point.
  destruct (for_return_spec (λ i, k ← n16_keys n !! i; Ret (if key <=? k then Some i else None))
    0 (n16_count n)) as (r & -> & Hr).
  { intros j Hj. destruct (lookup_lt_is_Some_2 (n16_keys n) j) as [k ->]; [destruct Hok; lia|].
    simpl. eauto. }
  simpl. eexists. split; [done|].
  assert (∀ j k, n16_keys n !! j = Some k →
    (k ← n16_keys n !! j; Ret (if key <=? k then Some j else None)) = Some None → k < key) as Hlt.
  { intros j k ->. simpl. dict_case; naive_solver lia. }
  destruct r as [x|]; simpl.
  - destruct Hr as (j & Hj & Hf & Hbefore).
    destruct (n16_keys n !! j) as [k|] eqn:Hk; [|done]. simpl in Hf.
    destruct (Z.leb_spec key k); [|done]. simplify_eq.
    assert (key ≠ k).
    { intros ->. eapply (slots_map_None _ _ _ _ _ Hok) in Hnone; [by apply Hnone|lia]. }
    split_and!; [lia|..].
    + intros i y Hi Hy. eapply Hlt; [done|]. apply Hbefore. lia.
    + intros i y Hi Hi' Hy. destruct (decide (i = x)) as [->|]; [naive_solver lia|].
      destruct Hok. assert (k < y) by (eapply (ok_sorted x i); eauto with lia). lia.
  - split_and!; [lia| |intros; lia]. intros i x Hi Hx. eapply Hlt; [done|]. apply Hr. lia.
Qed.

(** ** The vector search *)

Lemma movemask_testbit r i :
  Z.testbit (mm_movemask_epi8 r) (Z.of_nat i) = from_option (λ b, Z.testbit b 7) false (r !! i).
Proof.
  revert i. induction r as [|b r IH]; intros i; [by rewrite Z.bits_0|]. simpl mm_movemask_epi8.
  rewrite Z.add_comm. destruct i as [|i]; simpl lookup.
  - rewrite Z.testbit_0_r. done.
  - rewrite Nat2Z.inj_succ, Z.testbit_succ_r by lia. apply IH.
Qed.

Lemma cmpeq_mask_testbit ks key i :
  length ks = 16%nat →
  Z.testbit (mm_movemask_epi8 (mm_cmpeq_epi8 ks (mm_set1_epi8 key))) (Z.of_nat i) =
    bool_decide (ks !! i = Some key).
Proof.
  intros Hlen. rewrite movemask_testbit. unfold mm_cmpeq_epi8, mm_set1_epi8.
  rewrite lookup_zip_with. destruct (ks !! i) as [k|] eqn:Hk.
  - rewrite lookup_replicate_2 by (apply lookup_lt_Some in Hk; lia). simpl.
    destruct (Z.eqb_spec k key); case_bool_decide; naive_solver.
  - by case_bool_decide.
Qed.

Lemma trailing_zeros_spec z :
  match list_find (λ i, Z.testbit z (Z.of_nat i) = true) (seq 0 32) with
  | Some _ => Z.testbit z (Z.of_nat (trailing_zeros z)) = true ∧
              ∀ j, (j < trailing_zeros z)%nat → Z.testbit z (Z.of_nat j) = false
  | None => ∀ j, (j < 32)%nat → Z.testbit z (Z.of_nat j) = false
  end.
Proof.
  unfold trailing_zeros. destruct (list_find _ _) as [[i x]|] eqn:E.
  - apply list_find_Some in E as (Hx & Hbit & Hbefore). simpl.
    apply lookup_seq in Hx as [Hx Hi]. simpl in Hx. subst x. split; [done|].
    intros j Hj. apply not_true_is_false. intros Hjb.
    eapply (Hbefore j j); [apply lookup_seq; lia|lia|done].
  - apply list_find_None in E. intros j Hj. apply not_true_is_false. intros Hb.
    eapply Forall_forall in E; [by apply E|]. apply elem_of_seq. lia.
Qed.

Lemma Node16_simd_spec n key :
  n16_wf n →
  match Node16_find_key_index_simd n key with
  | Some i => (i < n16_count n)%nat ∧ n16_keys n !! i = Some key
  | None => n16_map n !! key = None
  end.
Proof.
  intros [_ Hok]. unfold Node16_find_key_index_simd.
  set (mask := mm_movemask_epi8 _).
  assert (∀ i, Z.testbit mask (Z.of_nat i) = bool_decide (n16_keys n !! i = Some key)) as Hmask.
  { intros i. apply cmpeq_mask_testbit. by destruct Hok. }
  assert ((∀ i, (i < n16_count n)%nat → Z.testbit mask (Z.of_nat i) = false) →
          n16_map n !! key = None) as Hnone.
  { intros Hz. apply (slots_map_None _ _ _ _ _ Hok). intros i Hi. specialize (Hz i Hi).
    rewrite Hmask in Hz. by apply bool_decide_eq_false in Hz. }
  destruct (Z.eqb_spec mask 0) as [Hz|Hz].
  { apply Hnone. intros. rewrite Hz. apply Z.bits_0. }
  assert (n16_count n ≤ 16)%nat by (destruct Hok; unfold NODE16_MAX_CHILDREN in *; lia).
  pose proof (trailing_zeros_spec mask) as Htz. destruct (list_find _ _).
  - destruct Htz as [Hbit Hbefore]. destruct (Nat.ltb_spec (trailing_zeros mask) (n16_count n)).
    + rewrite Hmask in Hbit. by apply bool_decide_eq_true in Hbit.
    + apply Hnone. intros. apply Hbefore. lia.
  - assert (n16_map n !! key = None) by (apply Hnone; intros; apply Htz; lia).
    destruct (Nat.ltb_spec (trailing_zeros mask) (n16_count n)) as [Hlt|]; [|done].
    exfalso. apply Hz, Z.bits_inj'. intros i Hi. rewrite Z.bits_0.
    rewrite <-(Z2Nat.id i) by done. destruct (decide (Z.to_nat i < 32)%nat); [by apply Htz|].
    rewrite Hmask. apply bool_decide_eq_false. rewrite lookup_ge_None_2; [done|].
    destruct Hok. unfold NODE16_MAX_CHILDREN in *. lia.
Qed.

Lemma Node16_find_index_spec `{features : TargetFeatures} n key :
  n16_wf n →
  ∃ r, Node16_find_key_index n key = Ret r ∧
    match r with
    | Some i => (i < n16_count n)%nat ∧ n16_keys n !! i = Some key
    | None => n16_map n !! key = None
    end.
Proof.
  intros Hwf. unfold Node16_find_key_index. destruct sse41; [|by apply Node16_linear_spec].
  eexists. split; [done|]. by apply Node16_simd_spec.
Qed.

(** The vector lookup is the scalar one.  On every well-formed node and
    for every key byte, comparing all sixteen key bytes at once and taking the
    lowest set bit of the mask finds the same slot as the linear scan: unused
    slots, which hold key byte 0, are never reported, and a stored key 0 is
    not hidden by them. *)
Theorem find_key_index_simd_linear n key :
  n16_wf n →
  Node16_find_key_index_linear n key = Ret (Node16_find_key_index_simd n key).
Proof.
  intros Hwf. destruct (Node16_linear_spec n key Hwf) as (r & -> & Hr).
  pose proof (Node16_simd_spec n key Hwf) as Hs. f_equal. pose proof Hwf as [_ Hok].
  destruct r as [i|], (Node16_find_key_index_simd n key) as [j|]; try done.
  - destruct Hr, Hs. f_equal. by eapply n16_slot_unique.
  - destruct Hr as [Hi Hk]. destruct (slots_found _ _ _ _ _ _ Hok Hi Hk) as (c & _ & Hc).
    unfold n16_map in Hs. congruence.
  - destruct Hs as [Hi Hk]. destruct (slots_found _ _ _ _ _ _ Hok Hi Hk) as (c & _ & Hc).
    unfold n16_map in Hr. congruence.
Qed.

(** ** The operations as map operations *)

Lemma Node16_add_refines n k c :
  n16_wf n → is_u8 k → is_null c = false →
  ∃ n' r, Node16_add_child n k c = Ret (n', r) ∧
    match r with
    | Ok _ => n16_map n !! k = None ∧ n16_wf n' ∧ n16_map n' = <[k := c]> (n16_map n) ∧
              n16_header n' = set_num_children (num_children (n16_header n) + 1) (n16_header n) ∧
              n16_prefix n' = n16_prefix n
    | Err KeyExists => is_Some (n16_map n !! k) ∧ n' = n
    | Err NodeFull => size (n16_map n) = NODE16_MAX_CHILDREN ∧ n' = n
    end.
Proof.
  intros Hwf Hk Hc. pose proof Hwf as [(_ & _ & Hpos & _) Hok].
  unfold Node16_add_child. destruct (Nat.leb_spec NODE16_MAX_CHILDREN (n16_count n)) as [Hge|Hlt].
  { exists n, (Err NodeFull). split_and!; [done| |done].
    unfold n16_map. rewrite (slots_map_size _ _ _ _ Hok). destruct Hok. lia. }
  destruct (Node16_linear_spec n k Hwf) as ([i|] & -> & Hr); simpl.
  { destruct Hr as [Hi Hki]. exists n, (Err KeyExists). split_and!; [done| |done].
    destruct (slots_found _ _ _ _ _ _ Hok Hi Hki) as (x & _ & Hx). by exists x. }
  destruct (Node16_insert_point_spec n k Hwf Hr) as (pos & -> & Hpt). simpl.
  destruct (insert_slot_map _ _ _ _ k c pos Hok Hlt Hpt Hk Hc) as (ks & cs & -> & Hok' & Hmap).
  simpl. rewrite u16_id by (unfold is_u16, n16_count, NODE16_MAX_CHILDREN in *; lia).
  eexists _, (Ok tt). split; [done|].
  edestruct (n16_wf_update n (num_children (n16_header n) + 1) _ ks cs Hwf Hok') as [Hwf' Hmap'];
    [unfold n16_count; lia|].
  split_and!; [by eapply insert_point_absent|done|by rewrite Hmap'|done|done].
Qed.

Lemma Node16_remove_refines n k :
  n16_wf n → is_u8 k →
  ∃ n', Node16_remove_child n k = Ret (n', n16_map n !! k) ∧ n16_wf n' ∧
    n16_map n' = delete k (n16_map n) ∧ n16_prefix n' = n16_prefix n ∧
    n16_header n' = set_num_children (Z.of_nat (size (delete k (n16_map n)))) (n16_header n) ∧
    (n16_map n !! k = None → n' = n).
Proof.
  intros Hwf Hk. pose proof Hwf as [(_ & _ & Hpos & _) Hok]. unfold Node16_remove_child.
  destruct (Node16_linear_spec n k Hwf) as ([i|] & -> & Hr); simpl.
  - destruct Hr as [Hi Hki]. destruct (slots_found _ _ _ _ _ _ Hok Hi Hki) as (c & Hc & Hm).
    rewrite Hc. simpl.
    destruct (remove_slot_map _ _ _ _ k i Hok Hi Hki) as (ks & cs & -> & Hok' & Hmap). simpl.
    rewrite u16_id by (destruct Hok; unfold is_u16, n16_count, NODE16_MAX_CHILDREN in *; lia).
    edestruct (n16_wf_update n (num_children (n16_header n) - 1) _ ks cs Hwf Hok') as [Hwf' Hmap'];
      [unfold n16_count in *; lia|].
    eexists. split; [unfold n16_map; by rewrite Hm|].
    split_and!; [done|by rewrite Hmap'|done| |unfold n16_map; by rewrite Hm].
    simpl. f_equal. unfold n16_map.
    rewrite <-Hmap, (slots_map_size _ _ _ _ Hok'). unfold n16_count in *. lia.
  - exists n. rewrite Hr, delete_id by done. split_and!; try done.
    by apply set_num_children_id, n16_wf_count.
Qed.

#[global, program] Instance Node16_laws `{features : TargetFeatures} : ArtNodeLaws Node16 := {
  header_of := n16_header;
  prefix_of := n16_prefix;
  node_wf := n16_wf;
  node_map := n16_map;
  capacity := NODE16_MAX_CHILDREN;
}.
Next Obligation. intros ?. apply n16_wf_count. Qed.
Next Obligation.
  intros ? n [_ Hok]. unfold n16_map. rewrite (slots_map_size _ _ _ _ Hok). by destruct Hok.
Qed.
Next Obligation. intros ? n [_ Hok]. by eapply slots_live_map. Qed.
Next Obligation.
  intros ? n k Hwf Hk. simpl. unfold Node16_find_child.
  destruct (Node16_find_index_spec n k Hwf) as ([i|] & -> & Hr); simpl; [|by rewrite Hr].
  destruct Hwf as [_ Hok], Hr as [Hi Hki]. unfold n16_map.
  by destruct (slots_found _ _ _ _ _ _ Hok Hi Hki) as (c & -> & ->).
Qed.
Next Obligation.
  intros ? n k c Hwf Hk Hc. simpl. unfold Node16_find_child_mut.
  destruct (Node16_find_index_spec n k Hwf) as ([i|] & -> & Hr); simpl; [|by rewrite Hr].
  destruct Hwf as [Hh Hok], Hr as [Hi Hki]. unfold n16_map at 1.
  destruct (slots_found _ _ _ _ _ _ Hok Hi Hki) as (c0 & _ & ->).
  rewrite store_Some by (destruct Hok; lia). simpl.
  destruct (slots_write_ok _ _ _ _ i k c Hok Hi Hki Hc) as [??]. eexists. done.
Qed.
Next Obligation. intros ?. apply Node16_add_refines. Qed.
Next Obligation. intros ?. apply Node16_remove_refines. Qed.
Next Obligation.
  intros ? n [_ Hok]. unfold is_full, Node16_ArtNode, Node16_is_full, n16_map.
  rewrite (slots_map_size _ _ _ _ Hok). destruct Hok.
  destruct (Nat.leb_spec NODE16_MAX_CHILDREN (n16_count n)); case_bool_decide; done || lia.
Qed.
Next Obligation.
  intros ? n [_ Hok]. eexists. split; [by eapply slots_iter|].
  split; [by eapply slots_entries_sorted|done].
Qed.

Lemma find_key_index_simd_linear_witness :
  let n := mkNode16 (set_num_children 2 (NodeHeader_new 16)) CompressedPrefix_empty
             ([0; 7] ++ replicate 14 0)
             ([from_raw 1; from_raw 2] ++ replicate 14 null) in
  Node16_find_key_index_linear n 0 = Ret (Node16_find_key_index_simd n 0) ∧
  Node16_find_key_index_simd n 0 = Some 0%nat.
Proof.
  intros n. split; [|reflexivity]. apply (find_key_index_simd_linear n 0).
  apply (add_children_wf (H0 := Node16_laws (features := false)) Node16_new n
           [(0, from_raw 1); (7, from_raw 2)]);
    [apply Node16_new_wf|repeat constructor; by vm_compute|reflexivity].
Defined.
