(* ===== verification/KeyScan.v ===== *)
(** * Nodes indexed by the key byte

    [Node48] and [Node256] find the child of a key byte through a 256-entry
    array and list their children by scanning all 256 key bytes in order.  This
    file has the map such a scan stands for. *)

From stdpp Require Import prelude gmap sorting.
From S2P Require Import Prelude SwizzledPtr.
Local Open Scope Z_scope.

Definition all_keys : list Z := seqZ 0 256.

Definition scan_entries (get : Z → option SwizzledPtr) : list (Z * SwizzledPtr) :=
  omap (λ k, pair k <$> get k) all_keys.

Definition scan_map (get : Z → option SwizzledPtr) : gmap Z SwizzledPtr :=
  list_to_map (scan_entries get).

Lemma elem_of_all_keys k : k ∈ all_keys ↔ is_u8 k.
Proof. unfold all_keys. rewrite elem_of_seqZ. unfold is_u8. lia. Qed.

Lemma elem_of_scan get k c : (k, c) ∈ scan_entries get ↔ is_u8 k ∧ get k = Some c.
Proof.
  unfold scan_entries. rewrite list_elem_of_omap. setoid_rewrite elem_of_all_keys. split.
  - intros (k' & Hk' & Hget). destruct (get k') eqn:E; naive_solver.
  - intros [Hk Hget]. exists k. by rewrite Hget.
Qed.

Lemma omap_keys_sorted (get : Z → option SwizzledPtr) l :
  StronglySorted Z.lt l → StronglySorted Z.lt (omap (λ k, pair k <$> get k) l).*1.
Proof.
  intros Hl. induction Hl as [|k l _ IH Hk]; simpl; [constructor|].
  destruct (get k) as [c|]; simpl; [|done]. constructor; [done|].
  apply Forall_fmap, Forall_forall. intros [k' c'] Hin. simpl.
  apply list_elem_of_omap in Hin as (k1 & Hin & Hget).
  rewrite Forall_forall in Hk. destruct (get k1); naive_solver.
Qed.

Lemma all_keys_sorted : StronglySorted Z.lt all_keys.
Proof.
  unfold all_keys. change 256 with (Z.of_nat 256). generalize 256%nat, 0. intros n.
  induction n as [|n IH]; intros m; [constructor|].
  rewrite seqZ_cons, Nat2Z.inj_succ, Z.pred_succ by lia. constructor; [done|].
  apply Forall_forall. intros k [? ?]%elem_of_seqZ. lia.
Qed.

Lemma scan_sorted get : StronglySorted Z.lt (scan_entries get).*1.
Proof. apply omap_keys_sorted, all_keys_sorted. Qed.

Lemma sorted_NoDup (l : list Z) : StronglySorted Z.lt l → NoDup l.
Proof. apply StronglySorted_NoDup. lia. Qed.

Lemma scan_lookup get k : scan_map get !! k = if decide (is_u8 k) then get k else None.
Proof.
  apply option_eq. intros c. unfold scan_map.
  rewrite <-elem_of_list_to_map by apply sorted_NoDup, scan_sorted.
  rewrite elem_of_scan. case_decide; naive_solver.
Qed.

Lemma scan_lookup_u8 get k : is_u8 k → scan_map get !! k = get k.
Proof. intros. rewrite scan_lookup. by rewrite decide_True. Qed.

Lemma scan_ext get get' : (∀ k, is_u8 k → get k = get' k) → scan_map get = scan_map get'.
Proof. intros H. apply map_eq. intros k. rewrite !scan_lookup. case_decide; auto. Qed.

Lemma scan_insert get get' k c :
  is_u8 k → (∀ k', is_u8 k' → get' k' = if decide (k' = k) then Some c else get k') →
  scan_map get' = <[k := c]> (scan_map get).
Proof.
  intros Hk H. apply map_eq. intros k'. rewrite lookup_insert, !scan_lookup.
  destruct (decide (is_u8 k')) as [Hk'|]; [rewrite H by done|]; repeat case_decide; naive_solver.
Qed.

Lemma scan_delete get get' k :
  (∀ k', is_u8 k' → get' k' = if decide (k' = k) then None else get k') →
  scan_map get' = delete k (scan_map get).
Proof.
  intros H. apply map_eq. intros k'. rewrite lookup_delete, !scan_lookup.
  destruct (decide (is_u8 k')) as [Hk'|]; [rewrite H by done|]; repeat case_decide; naive_solver.
Qed.

(** A map from key bytes has at most 256 entries. *)
Lemma scan_size get : (size (scan_map get) ≤ 256)%nat.
Proof.
  unfold scan_map. rewrite map_size_list_to_map by apply sorted_NoDup, scan_sorted.
  change 256%nat with (length all_keys).
  unfold scan_entries. generalize all_keys. intros l. induction l as [|k l IH]; simpl; [done|].
  destruct (get k); simpl; [by apply le_n_S|by apply le_S].
Qed.

Lemma scan_full get k : size (scan_map get) = 256%nat → is_u8 k → is_Some (get k).
Proof.
  intros Hsize Hk. destruct (get k) as [c|] eqn:E; [eauto|]. exfalso.
  pose proof (scan_size (λ k', if decide (k' = k) then Some null else get k')) as Hle.
  rewrite (scan_insert get _ k null Hk), map_size_insert_None in Hle; [lia| |done].
  by rewrite scan_lookup_u8.
Qed.

Lemma scan_list get : list_to_map (scan_entries get) = scan_map get.
Proof. unfold scan_map. reflexivity. Qed.

Lemma scan_entries_unfold get : scan_entries get = omap (λ k, pair k <$> get k) all_keys.
Proof. unfold scan_entries. reflexivity. Qed.

#[global] Opaque all_keys scan_map scan_entries.
