(* ===== verification/Node48.v ===== *)
(** * Node48

    The node of up to forty-eight children
    (src/src/persistent_artrie/nodes/node48.rs): a 256-byte index from key bytes
    to slots of a child array that is filled from the front. *)

From stdpp Require Import prelude gmap sorting.
From S2P Require Import Prelude SwizzledPtr ArtNode KeyScan.
Local Open Scope Z_scope.

Definition NODE48_MAX_CHILDREN : nat := 48.
Definition NO_CHILD : Z := 255.

Record Node48 := mkNode48 {
  n48_header : NodeHeader;
  n48_prefix : CompressedPrefix;
  n48_index : list Z;
  n48_children : list SwizzledPtr;
}.

Definition Node48_new : Node48 :=
  mkNode48 (NodeHeader_new 48) CompressedPrefix_empty
    (replicate 256 NO_CHILD) (replicate NODE48_MAX_CHILDREN null).

Definition Node48_with_prefix (prefix : list Z) : exec Node48 :=
  let node := Node48_new in
  p ← CompressedPrefix_from_bytes prefix;
  Ret (mkNode48 (set_prefix_len (u8 (Z.of_nat (length prefix))) (n48_header node)) p
         (n48_index node) (n48_children node)).

(** [self.header.num_children as usize] *)
Definition n48_count (n : Node48) : nat := Z.to_nat (num_children (n48_header n)).

Definition Node48_find_free_slot (n : Node48) : option nat :=
  let count := n48_count n in
  if (count <? NODE48_MAX_CHILDREN)%nat then Some count else None.

Definition Node48_find_child (n : Node48) (key : Z) : exec (option SwizzledPtr) :=
  slot ← n48_index n !! Z.to_nat key;
  if slot =? NO_CHILD then Ret None
  else c ← n48_children n !! Z.to_nat slot; Ret (Some c).

Definition Node48_find_child_mut (n : Node48) (key : Z) (c : SwizzledPtr) : exec (option Node48) :=
  slot ← n48_index n !! Z.to_nat key;
  if slot =? NO_CHILD then Ret None
  else
    cs ← store (n48_children n) (Z.to_nat slot) c;
    Ret (Some (mkNode48 (n48_header n) (n48_prefix n) (n48_index n) cs)).

Definition Node48_add_child (n : Node48) (key : Z) (child : SwizzledPtr) :
    exec (Node48 * result unit AddChildError) :=
  old ← n48_index n !! Z.to_nat key;
  if negb (old =? NO_CHILD) then Ret (n, Err KeyExists)
  else
    match Node48_find_free_slot n with
    | None => Ret (n, Err NodeFull)
    | Some slot =>
        idx ← store (n48_index n) (Z.to_nat key) (u8 (Z.of_nat slot));
        cs ← store (n48_children n) slot child;
        let h := n48_header n in
        Ret (mkNode48 (set_num_children (u16 (num_children h + 1)) h) (n48_prefix n) idx cs, Ok tt)
    end.

(** [for i in 0..256 { if index[i] == last as u8 { index[i] = slot; break } }] *)
Definition redirect_last (index : list Z) (last slot : Z) : exec (list Z) :=
  r ← for_return (λ i,
        x ← index !! i;
        if x =? u8 last then idx ← store index i slot; Ret (Some idx) else Ret None) 0 256;
  Ret (default index r).

(** The last slot in use moves into the freed slot, unless it is that slot;
    then the last slot is cleared. *)
Definition fill_gap (index : list Z) (children : list SwizzledPtr) (last slot : Z) :
    exec (list Z * list SwizzledPtr) :=
  '(idx, cs) ←
    (if slot =? last then Ret (index, children)
     else
       idx ← redirect_last index last slot;
       c ← children !! Z.to_nat last;
       cs ← store children (Z.to_nat slot) c;
       Ret (idx, cs));
  cs ← store cs (Z.to_nat last) null;
  Ret (idx, cs).

(** [num_children as usize - 1] wraps on an empty node, and the accesses that
    follow are then out of range. *)
Definition Node48_remove_child (n : Node48) (key : Z) : exec (Node48 * option SwizzledPtr) :=
  slot ← n48_index n !! Z.to_nat key;
  if slot =? NO_CHILD then Ret (n, None)
  else
    removed ← n48_children n !! Z.to_nat slot;
    idx ← store (n48_index n) (Z.to_nat key) NO_CHILD;
    let h := n48_header n in
    let last := u64 (num_children h - 1) in
    '(idx, cs) ← fill_gap idx (n48_children n) last slot;
    Ret (mkNode48 (set_num_children (u16 (num_children h - 1)) h) (n48_prefix n) idx cs,
         Some removed).

Definition Node48_is_full (n : Node48) : bool := (NODE48_MAX_CHILDREN <=? n48_count n)%nat.

Definition Node48_iter_children (n : Node48) : exec (list (Z * SwizzledPtr)) :=
  filter_mapM (λ p, let '(key, slot) := p in
    if slot =? NO_CHILD then Ret None
    else c ← n48_children n !! Z.to_nat slot; Ret (Some (u8 key, c)))
    (enumerate (n48_index n)).

#[global] Instance Node48_ArtNode : ArtNode Node48 := {
  find_child := Node48_find_child;
  find_child_mut := Node48_find_child_mut;
  add_child := Node48_add_child;
  remove_child := Node48_remove_child;
  is_full := Node48_is_full;
  iter_children := Node48_iter_children;
}.

(** ** Slot access for lock-free readers *)

Definition Node48_get_child_atomic (n : Node48) (key : Z) : exec (option SwizzledPtr) :=
  slot ← n48_index n !! Z.to_nat key;
  if slot =? NO_CHILD then Ret None
  else c ← n48_children n !! Z.to_nat slot; Ret (Some c).

Definition Node48_child_slot (n : Node48) (index : nat) : exec SwizzledPtr :=
  n48_children n !! index.

Definition Node48_find_slot_for_key (n : Node48) (key : Z) : exec (result nat nat) :=
  slot ← n48_index n !! Z.to_nat key;
  if negb (slot =? NO_CHILD) then Ret (Ok (Z.to_nat slot)) else Ret (Err (n48_count n)).

Definition Node48_next_slot (n : Node48) : option nat :=
  let count := n48_count n in
  if (count <? NODE48_MAX_CHILDREN)%nat then Some count else None.

Definition Node48_slot_for_key (n : Node48) (key : Z) : exec Z := n48_index n !! Z.to_nat key.

Definition Node48_iter_indexed (n : Node48) : exec (list (Z * nat * SwizzledPtr)) :=
  filter_mapM (λ key,
    slot ← n48_index n !! Z.to_nat key;
    if negb (slot =? NO_CHILD) then
      c ← n48_children n !! Z.to_nat slot; Ret (Some (key, Z.to_nat slot, c))
    else Ret None) (seqZ 0 256).

(** ** The node as a map *)

Definition index_get (idx : list Z) (cs : list SwizzledPtr) (key : Z) : option SwizzledPtr :=
  slot ← idx !! Z.to_nat key;
  if slot =? NO_CHILD then None else cs !! Z.to_nat slot.

(** The index is a bijection from the keys present to the slots in use. *)
Record index_ok (count : nat) (idx : list Z) (cs : list SwizzledPtr) : Prop := {
  ix_length : length idx = 256%nat;
  ix_children : length cs = NODE48_MAX_CHILDREN;
  ix_count : (count ≤ NODE48_MAX_CHILDREN)%nat;
  ix_range : ∀ k s, idx !! k = Some s → s = NO_CHILD ∨ 0 ≤ s < Z.of_nat count;
  ix_inj : ∀ k k' s, idx !! k = Some s → idx !! k' = Some s → s ≠ NO_CHILD → k = k';
  ix_surj : ∀ s, 0 ≤ s < Z.of_nat count → ∃ k, idx !! k = Some s;
  ix_live : ∀ i c, (i < count)%nat → cs !! i = Some c → is_null c = false;
  ix_free : ∀ i, (count ≤ i < NODE48_MAX_CHILDREN)%nat → cs !! i = Some null;
  ix_size : size (scan_map (index_get idx cs)) = count;
}.

Definition n48_map (n : Node48) : gmap Z SwizzledPtr :=
  scan_map (index_get (n48_index n) (n48_children n)).

Definition n48_wf (n : Node48) : Prop :=
  header_wf 48 (n48_header n) (n48_prefix n) ∧
  index_ok (n48_count n) (n48_index n) (n48_children n).

Lemma n48_wf_count n : n48_wf n → num_children (n48_header n) = Z.of_nat (size (n48_map n)).
Proof. intros [(_ & _ & ? & _) []]. unfold n48_map, n48_count in *. lia. Qed.

Lemma n48_wf_update n z m idx cs :
  n48_wf n → index_ok m idx cs → z = Z.of_nat m →
  let n' := mkNode48 (set_num_children z (n48_header n)) (n48_prefix n) idx cs in
  n48_wf n' ∧ n48_map n' = scan_map (index_get idx cs).
Proof.
  intros [Hh _] Hok ->. unfold n48_wf, n48_map, n48_count. simpl. rewrite Nat2Z.id.
  auto with dict.
Qed.

Lemma index_fresh_ok :
  index_ok 0 (replicate 256 NO_CHILD) (replicate NODE48_MAX_CHILDREN null).
Proof.
  split; rewrite ?length_replicate; try done; try (intros; lia).
  - intros k s [-> _]%lookup_replicate. by left.
  - intros k k' s [-> _]%lookup_replicate. done.
  - intros i ?. apply lookup_replicate_2. lia.
Qed.

Lemma Node48_new_wf : n48_wf Node48_new ∧ n48_map Node48_new = ∅.
Proof. split; [split; [apply header_wf_new|apply index_fresh_ok]|by vm_compute]. Qed.

Lemma Node48_with_prefix_wf bs n :
  is_bytes bs → Node48_with_prefix bs = Ret n →
  n48_wf n ∧ n48_map n = ∅ ∧ prefix_len (n48_header n) = Z.of_nat (length bs).
Proof.
  intros Hbs Hn. unfold Node48_with_prefix in Hn.
  destruct (CompressedPrefix_from_bytes bs) as [p|] eqn:Hp; simplify_eq/=.
  destruct (header_wf_with_prefix 48 bs p Hbs Hp) as [??].
  split_and!; [split; [done|apply index_fresh_ok]|by vm_compute|done].
Qed.

(** The slot of a key, and its child. *)
Lemma index_slot m idx cs key :
  index_ok m idx cs → is_u8 key →
  ∃ s, idx !! Z.to_nat key = Some s ∧
    (s = NO_CHILD ∧ scan_map (index_get idx cs) !! key = None ∨
     s ≠ NO_CHILD ∧ 0 ≤ s < Z.of_nat m ∧
     ∃ c, cs !! Z.to_nat s = Some c ∧ scan_map (index_get idx cs) !! key = Some c).
Proof.
  intros Hok Hk. destruct (lookup_lt_is_Some_2 idx (Z.to_nat key)) as [s Hs].
  { destruct Hok. unfold is_u8 in Hk. lia. }
  exists s. split; [done|]. rewrite scan_lookup_u8 by done. unfold index_get. rewrite Hs. simpl.
  destruct (Z.eqb_spec s NO_CHILD) as [->|Hne]; [by left|right].
  destruct (ix_range _ _ _ Hok _ _ Hs) as [?|Hr]; [done|].
  destruct (lookup_lt_is_Some_2 cs (Z.to_nat s)) as [c ->]; [destruct Hok; lia|eauto].
Qed.

Lemma n48_slot n key :
  n48_wf n → is_u8 key →
  ∃ s, n48_index n !! Z.to_nat key = Some s ∧
    (s = NO_CHILD ∧ n48_map n !! key = None ∨
     s ≠ NO_CHILD ∧ 0 ≤ s < Z.of_nat (n48_count n) ∧
     ∃ c, n48_children n !! Z.to_nat s = Some c ∧ n48_map n !! key = Some c).
Proof. intros [_ Hok]. by apply index_slot. Qed.

(** ** Insertion *)

Section insert.
Context (m : nat) (idx : list Z) (cs : list SwizzledPtr) (key : Z) (c : SwizzledPtr).
Context (Hok : index_ok m idx cs) (Hroom : (m < NODE48_MAX_CHILDREN)%nat).
Context (Hkey : is_u8 key) (Habsent : idx !! Z.to_nat key = Some NO_CHILD).
Context (Hlive : is_null c = false).

Let idx' := <[Z.to_nat key := Z.of_nat m]> idx.
Let cs' := <[m := c]> cs.

Lemma insert_index_lookup k :
  idx' !! k = if decide (k = Z.to_nat key) then Some (Z.of_nat m) else idx !! k.
Proof using Hok Hkey.
  pose proof (ix_length _ _ _ Hok) as Hl. unfold idx', is_u8 in *. case_decide; subst.
  - apply list_lookup_insert_eq. rewrite Hl. clear -Hkey. lia.
  - by apply list_lookup_insert_ne.
Qed.

Lemma insert_index_get k :
  is_u8 k → index_get idx' cs' k = if decide (k = key) then Some c else index_get idx cs k.
Proof using All.
  intros Hk. unfold index_get. rewrite insert_index_lookup. unfold is_u8 in *.
  destruct (decide (k = key)) as [->|Hne].
  - rewrite decide_True by done. simpl. unfold NODE48_MAX_CHILDREN, NO_CHILD in *.
    destruct (Z.eqb_spec (Z.of_nat m) 255); [lia|].
    rewrite Nat2Z.id. apply list_lookup_insert_eq. by rewrite (ix_children _ _ _ Hok).
  - rewrite decide_False by lia. destruct (idx !! Z.to_nat k) as [s|] eqn:Hs; simpl; [|done].
    destruct (Z.eqb_spec s NO_CHILD); [done|].
    destruct (ix_range _ _ _ Hok _ _ Hs); [done|]. apply list_lookup_insert_ne. lia.
Qed.

Lemma insert_index_map :
  scan_map (index_get idx' cs') = <[key := c]> (scan_map (index_get idx cs)).
Proof using All. apply scan_insert; [done|]. apply insert_index_get. Qed.

Lemma insert_index_ok : index_ok (S m) idx' cs'.
Proof using All.
  pose proof insert_index_lookup as Hl. pose proof insert_index_map as Hmap.
  destruct Hok as [Hil Hcl Hm Hrange Hinj Hsurj Hnn Hfree Hsize].
  assert (Z.of_nat m ≠ NO_CHILD) by (unfold NODE48_MAX_CHILDREN, NO_CHILD in *; lia).
  assert (∀ k s, idx !! k = Some s → s ≠ Z.of_nat m).
  { intros k s Hs. destruct (Hrange k s Hs); lia. }
  split.
  - by unfold idx'; rewrite length_insert.
  - by unfold cs'; rewrite length_insert.
  - lia.
  - intros k s. rewrite Hl. case_decide; [intros; simplify_eq; lia|].
    intros [|]%Hrange; [by left|lia].
  - intros k k' s. rewrite !Hl. repeat case_decide; naive_solver.
  - intros s Hs. destruct (decide (s = Z.of_nat m)) as [->|].
    + exists (Z.to_nat key). by rewrite Hl, decide_True.
    + destruct (Hsurj s) as [k Hk]; [lia|]. exists k. rewrite Hl. case_decide; [|done].
      subst k. rewrite Habsent in Hk. injection Hk as <-. unfold NODE48_MAX_CHILDREN, NO_CHILD in *. lia.
  - intros i x Hi. unfold cs'. rewrite list_lookup_insert. case_decide; [naive_solver|].
    apply Hnn. lia.
  - intros i Hi. unfold cs'. rewrite list_lookup_insert_ne by lia. apply Hfree. lia.
  - rewrite Hmap, map_size_insert_None, Hsize; [done|].
    rewrite scan_lookup_u8 by done. unfold index_get. by rewrite Habsent.
Qed.
End insert.

(** ** Removal

    The last slot in use moves into the freed one. *)

Section remove.
Context (m : nat) (idx idx' : list Z) (cs cs' : list SwizzledPtr) (key slot : Z).
Context (Hok : index_ok m idx cs) (Hkey : is_u8 key).
Context (Hslot : idx !! Z.to_nat key = Some slot) (Hused : slot ≠ NO_CHILD).
Let last := Z.of_nat m - 1.
Context (Hidx : length idx' = length idx ∧
  ∀ k, idx' !! k = if decide (k = Z.to_nat key) then Some NO_CHILD
                   else if decide (idx !! k = Some last) then Some slot else idx !! k).
Context (Hcs : length cs' = length cs ∧
  ∀ i, cs' !! i = if decide (i = Z.to_nat last) then Some null
                  else if decide (i = Z.to_nat slot) then cs !! Z.to_nat last else cs !! i).

Lemma remove_slot_range : 0 ≤ slot < Z.of_nat m.
Proof using Hok Hslot Hused. by destruct (ix_range _ _ _ Hok _ _ Hslot). Qed.

Lemma remove_index_get k :
  is_u8 k → index_get idx' cs' k = if decide (k = key) then None else index_get idx cs k.
Proof using All.
  intros Hk. pose proof remove_slot_range as Hr. pose proof (ix_count _ _ _ Hok) as Hm.
  unfold index_get. rewrite (proj2 Hidx). unfold is_u8 in *.
  destruct (decide (k = key)) as [->|Hne]; [by rewrite decide_True|].
  rewrite decide_False by lia. unfold NODE48_MAX_CHILDREN, NO_CHILD in *.
  assert (last ≠ 255) by (unfold last; lia).
  case_decide as Hlast.
  - rewrite Hlast. simpl. destruct (Z.eqb_spec slot 255), (Z.eqb_spec last 255); try done.
    assert (slot ≠ last).
    { intros ->. pose proof (ix_inj _ _ _ Hok _ _ _ Hslot Hlast). unfold NO_CHILD in *. lia. }
    rewrite (proj2 Hcs). rewrite decide_False, decide_True by (unfold last in *; lia). done.
  - destruct (idx !! Z.to_nat k) as [s|] eqn:Hs; simpl; [|done].
    destruct (Z.eqb_spec s 255); [done|].
    destruct (ix_range _ _ _ Hok _ _ Hs) as [?|Hsr]; [done|].
    assert (s ≠ slot).
    { intros ->. pose proof (ix_inj _ _ _ Hok _ _ _ Hslot Hs). unfold NO_CHILD in *. lia. }
    assert (s ≠ last) by congruence.
    rewrite (proj2 Hcs), !decide_False by (unfold last in *; lia). done.
Qed.

Lemma remove_index_map :
  scan_map (index_get idx' cs') = delete key (scan_map (index_get idx cs)).
Proof using All. apply scan_delete, remove_index_get. Qed.

Lemma remove_index_ok : index_ok (m - 1) idx' cs'.
Proof using All.
  pose proof remove_slot_range as Hr. pose proof remove_index_map as Hmap.
  destruct Hidx as [Hil' Hi], Hcs as [Hcl' Hc].
  destruct (index_slot m idx cs key Hok Hkey) as (s & Hs & Hslot').
  destruct Hok as [Hil Hcl Hm Hrange Hinj Hsurj Hnn Hfree Hsize].
  unfold NODE48_MAX_CHILDREN, NO_CHILD, last in *.
  split; unfold NODE48_MAX_CHILDREN, NO_CHILD; try lia.
  - intros k s'. rewrite Hi. repeat case_decide; intros Heq; [left; by injection Heq| |].
    + injection Heq as <-. right. assert (slot ≠ Z.of_nat m - 1); [|lia]. intros ->. naive_solver.
    + destruct (Hrange k s' Heq); [by left|right]. assert (s' ≠ Z.of_nat m - 1); [|lia]. congruence.
  - intros k k' s'. rewrite !Hi. intros H1 H2 Hne.
    repeat case_decide; try congruence;
      try (by eapply Hinj; [eassumption|eassumption|lia]).
    + injection H2 as <-. by destruct (Hinj (Z.to_nat key) k slot Hslot H1 Hne).
    + injection H1 as <-. by destruct (Hinj (Z.to_nat key) k' slot Hslot H2 Hne).
  - intros s' Hs'. destruct (decide (s' = slot)) as [->|Hne].
    + destruct (Hsurj (Z.of_nat m - 1)) as [k Hk]; [lia|]. exists k.
      rewrite Hi, decide_False, decide_True; [done..|].
      intros ->. rewrite Hslot in Hk. injection Hk as Hk. lia.
    + destruct (Hsurj s') as [k Hk]; [lia|]. exists k.
      rewrite Hi, !decide_False; [done| |congruence].
      rewrite Hk. intros [= ?]. lia.
  - intros i x Hix. rewrite Hc. repeat case_decide; [lia|..]; subst; apply Hnn; lia.
  - intros i Hix. rewrite Hc. case_decide; [done|]. case_decide; [lia|]. apply Hfree. lia.
  - rewrite Hmap. destruct Hslot' as [[-> ?]|(_ & _ & x & _ & Hx)]; [congruence|].
    rewrite map_size_delete_Some, Hsize by eauto. lia.
Qed.
End remove.

(** ** Writing through a slot *)

Section write.
Context (m : nat) (idx : list Z) (cs : list SwizzledPtr) (key slot : Z) (c : SwizzledPtr).
Context (Hok : index_ok m idx cs) (Hkey : is_u8 key) (Hlive : is_null c = false).
Context (Hslot : idx !! Z.to_nat key = Some slot) (Hused : slot ≠ NO_CHILD).

Lemma write_index_map :
  scan_map (index_get idx (<[Z.to_nat slot := c]> cs)) =
  <[key := c]> (scan_map (index_get idx cs)).
Proof using All.
  pose proof (remove_slot_range _ _ _ _ _ Hok Hslot Hused) as Hr.
  apply scan_insert; [done|]. intros k Hk. unfold index_get, is_u8 in *.
  assert (Z.to_nat slot < length cs)%nat by (destruct Hok; lia).
  destruct (decide (k = key)) as [->|Hne].
  - rewrite Hslot. simpl. rewrite (proj2 (Z.eqb_neq _ _) Hused). by apply list_lookup_insert_eq.
  - destruct (idx !! Z.to_nat k) as [s|] eqn:Hs; simpl; [|done].
    destruct (Z.eqb_spec s NO_CHILD); [done|]. apply list_lookup_insert_ne. intros Heq.
    destruct (ix_range _ _ _ Hok _ _ Hs); [done|]. assert (s = slot) as -> by lia.
    pose proof (ix_inj _ _ _ Hok _ _ _ Hslot Hs Hused). lia.
Qed.

Lemma write_index_ok : index_ok m idx (<[Z.to_nat slot := c]> cs).
Proof using All.
  pose proof write_index_map as Hmap. pose proof (remove_slot_range _ _ _ _ _ Hok Hslot Hused).
  destruct (index_slot m idx cs key Hok Hkey) as (s & Hs & Hcase).
  destruct Hok as [Hil Hcl Hm Hrange Hinj Hsurj Hnn Hfree Hsize].
  split; [done|by rewrite length_insert|done..| | |].
  - intros i x Hi. rewrite list_lookup_insert. case_decide; naive_solver.
  - intros i Hi. rewrite list_lookup_insert_ne by lia. auto.
  - rewrite Hmap, map_size_insert_Some; [done|].
    destruct Hcase as [[-> ?]|(_ & _ & x & _ & ?)]; [congruence|eauto].
Qed.
End write.

(** ** The operations as map operations *)

Lemma Node48_add_refines n k c :
  n48_wf n → is_u8 k → is_null c = false →
  ∃ n' r, Node48_add_child n k c = Ret (n', r) ∧
    match r with
    | Ok _ => n48_map n !! k = None ∧ n48_wf n' ∧ n48_map n' = <[k := c]> (n48_map n) ∧
              n48_header n' = set_num_children (num_children (n48_header n) + 1) (n48_header n) ∧
              n48_prefix n' = n48_prefix n
    | Err KeyExists => is_Some (n48_map n !! k) ∧ n' = n
    | Err NodeFull => size (n48_map n) = NODE48_MAX_CHILDREN ∧ n' = n
    end.
Proof.
  intros Hwf Hk Hc. pose proof Hwf as [(_ & _ & Hpos & _) Hok]. unfold Node48_add_child.
  destruct (index_slot _ _ _ k Hok Hk) as (s & Hs & Hslot). rewrite Hs. simpl.
  destruct Hslot as [[-> Hnone]|(Hne & _ & x & _ & Hx)]; simpl.
  2:{ rewrite (proj2 (Z.eqb_neq _ _) Hne). simpl. exists n, (Err KeyExists). eauto. }
  unfold Node48_find_free_slot. destruct (Nat.ltb_spec (n48_count n) NODE48_MAX_CHILDREN) as [Hlt|Hge].
  2:{ exists n, (Err NodeFull). destruct Hok. unfold n48_map. eauto with lia. }
  rewrite u8_id by (unfold is_u8, NODE48_MAX_CHILDREN in *; lia).
  rewrite !store_Some by (destruct Hok; unfold is_u8 in *; lia). simpl.
  rewrite u16_id by (unfold is_u16, n48_count, NODE48_MAX_CHILDREN in *; lia).
  edestruct (n48_wf_update n (num_children (n48_header n) + 1)) as [Hwf' Hmap'];
    [done|by eapply insert_index_ok|unfold n48_count; lia|].
  eexists _, (Ok tt). split; [done|].
  split_and!; [done|done| |done|done]. rewrite Hmap'. by apply insert_index_map.
Qed.

(** The scan for the key of the last slot rewrites that key's entry only. *)
Lemma redirect_last_spec idx last slot :
  length idx = 256%nat → is_u8 last → last ≠ NO_CHILD →
  (∀ k k', idx !! k = Some last → idx !! k' = Some last → k = k') →
  ∃ idx', redirect_last idx last slot = Ret idx' ∧ length idx' = length idx ∧
    ∀ k, idx' !! k = if decide (idx !! k = Some last) then Some slot else idx !! k.
Proof.
  intros Hlen Hlast Hne Hinj. unfold redirect_last. rewrite u8_id by done.
  destruct (for_return_spec (λ i, x ← idx !! i;
    if x =? last then idx0 ← store idx i slot; Ret (Some idx0) else Ret None) 0 256) as (r & -> & Hr).
  { intros j Hj. destruct (lookup_lt_is_Some_2 idx j) as [x ->]; [lia|]. simpl.
    destruct (_ =? _); [|eauto]. rewrite store_Some by lia. simpl. eauto. }
  simpl. eexists. split; [done|]. destruct r as [idx'|]; simpl.
  - destruct Hr as (j & Hj & Hf & _). destruct (idx !! j) as [x|] eqn:Hx; [|done]. simpl in Hf.
    destruct (Z.eqb_spec x last) as [->|]; [|done].
    rewrite store_Some in Hf by lia. simplify_eq/=. split; [by rewrite length_insert|].
    intros k. rewrite list_lookup_insert. repeat case_decide; naive_solver lia.
  - split; [done|]. intros k. case_decide as Hk; [|done]. exfalso.
    pose proof (lookup_lt_Some _ _ _ Hk). specialize (Hr k ltac:(lia)).
    rewrite Hk in Hr. simpl in Hr. rewrite Z.eqb_refl, store_Some in Hr by lia. done.
Qed.

(** The arrays [remove_child] leaves, in both its branches. *)
Lemma Node48_remove_arrays m idx cs key slot :
  index_ok m idx cs → is_u8 key → idx !! Z.to_nat key = Some slot → slot ≠ NO_CHILD →
  let last := Z.of_nat m - 1 in
  ∃ idx' cs',
    fill_gap (<[Z.to_nat key := NO_CHILD]> idx) cs last slot = Ret (idx', cs') ∧
    index_ok (m - 1) idx' cs' ∧
    scan_map (index_get idx' cs') = delete key (scan_map (index_get idx cs)).
Proof.
  intros Hok Hkey Hslot Hused last. set (idx1 := <[_ := _]> idx).
  pose proof (remove_slot_range _ _ _ _ _ Hok Hslot Hused) as Hr.
  pose proof (ix_length _ _ _ Hok) as Hil. pose proof (ix_children _ _ _ Hok) as Hcl.
  pose proof (ix_count _ _ _ Hok) as Hm. unfold NODE48_MAX_CHILDREN in Hm, Hcl.
  assert (last ≠ NO_CHILD) as Hlast by (unfold NO_CHILD, last; lia).
  assert (∀ k, idx1 !! k = if decide (k = Z.to_nat key) then Some NO_CHILD else idx !! k) as Hidx1.
  { intros k. unfold idx1. rewrite list_lookup_insert. unfold is_u8 in Hkey.
    repeat case_decide; naive_solver lia. }
  assert (length idx1 = length idx) as Hlen1 by apply length_insert.
  assert (∀ k, k ≠ Z.to_nat key → slot = last → idx !! k ≠ Some last) as Huniq.
  { intros k Hk -> Hkl. by destruct (ix_inj _ _ _ Hok _ _ _ Hslot Hkl Hlast). }
  destruct (redirect_last_spec idx1 last slot) as (idx2 & Hidx2 & Hlen2 & Hl2);
    [lia|unfold is_u8, last; lia|done| |].
  { intros k k'. rewrite !Hidx1. repeat case_decide; [congruence..|]. intros. by eapply ix_inj. }
  destruct (lookup_lt_is_Some_2 cs (Z.to_nat last)) as [cl Hcl']; [unfold last; lia|].
  exists (if slot =? last then idx1 else idx2),
    (<[Z.to_nat last := null]> (if slot =? last then cs else <[Z.to_nat slot := cl]> cs)).
  split.
  { unfold fill_gap. destruct (Z.eqb_spec slot last); simpl.
    - rewrite store_Some by (unfold last; lia). done.
    - rewrite Hidx2. simpl. rewrite Hcl'. simpl. rewrite store_Some by lia. simpl.
      rewrite store_Some by (rewrite length_insert; unfold last; lia). done. }
  assert (∀ i, <[Z.to_nat last:=null]> (if slot =? last then cs else <[Z.to_nat slot:=cl]> cs) !! i =
    if decide (i = Z.to_nat last) then Some null
    else if decide (i = Z.to_nat slot) then cs !! Z.to_nat last else cs !! i) as Hcs.
  { intros i. unfold last in *. destruct (Z.eqb_spec slot (Z.of_nat m - 1));
      rewrite !list_lookup_insert, ?length_insert; repeat case_decide; naive_solver lia. }
  assert (∀ k, (if slot =? last then idx1 else idx2) !! k =
    if decide (k = Z.to_nat key) then Some NO_CHILD
    else if decide (idx !! k = Some last) then Some slot else idx !! k) as Hidx.
  { intros k. destruct (Z.eqb_spec slot last) as [e|].
    - rewrite Hidx1. case_decide; [done|]. rewrite decide_False by auto. done.
    - rewrite Hl2, Hidx1. repeat case_decide; congruence. }
  split; [eapply remove_index_ok|eapply remove_index_map]; try done; split; auto;
    try (destruct (slot =? last); lia); rewrite length_insert; destruct (slot =? last); [done|..];
    by rewrite ?length_insert.
Qed.

Lemma Node48_remove_refines n k :
  n48_wf n → is_u8 k →
  ∃ n', Node48_remove_child n k = Ret (n', n48_map n !! k) ∧ n48_wf n' ∧
    n48_map n' = delete k (n48_map n) ∧ n48_prefix n' = n48_prefix n ∧
    n48_header n' = set_num_children (Z.of_nat (size (delete k (n48_map n)))) (n48_header n) ∧
    (n48_map n !! k = None → n' = n).
Proof.
  intros Hwf Hk. pose proof Hwf as [(_ & _ & Hpos & _) Hok]. unfold Node48_remove_child.
  pose proof (ix_count _ _ _ Hok) as Hm. unfold NODE48_MAX_CHILDREN in Hm.
  destruct (n48_slot n k Hwf Hk) as (s & Hs & [[-> Hnone]|(Hne & Hr & x & Hx & Hmx)]);
    rewrite Hs; simpl mbind.
  { exists n. rewrite Hnone, delete_id by done.
    split_and!; [done..| |done].
    by apply set_num_children_id, n48_wf_count. }
  rewrite (proj2 (Z.eqb_neq _ _) Hne), Hx. simpl.
  rewrite store_Some by (destruct Hok; unfold is_u8 in Hk; lia). simpl.
  assert (num_children (n48_header n) = Z.of_nat (n48_count n)) as Hcount
    by (unfold n48_count; lia).
  rewrite u64_id, u16_id, Hcount by (unfold is_u64, is_u16; lia).
  destruct (Node48_remove_arrays _ _ _ k s Hok Hk Hs Hne) as (idx' & cs' & Hrun & Hok' & Hmap).
  rewrite Hrun. simpl.
  edestruct (n48_wf_update n (Z.of_nat (n48_count n) - 1)) as [Hwf' Hmap'];
    [done|exact Hok'|lia|].
  eexists. split; [by rewrite Hmx|].
  split_and!; [done|exact Hmap|done| |by rewrite Hmx]. simpl. f_equal.
  unfold n48_map. rewrite <-Hmap, (ix_size _ _ _ Hok'). lia.
Qed.

#[global, program] Instance Node48_laws : ArtNodeLaws Node48 := {
  header_of := n48_header;
  prefix_of := n48_prefix;
  node_wf := n48_wf;
  node_map := n48_map;
  capacity := NODE48_MAX_CHILDREN;
}.
Next Obligation. apply n48_wf_count. Qed.
Next Obligation. intros n [_ []]. unfold n48_map. lia. Qed.
Next Obligation.
  intros n [_ Hok] k c. unfold n48_map. rewrite scan_lookup. case_decide; [|done].
  intros Hget. split; [done|]. unfold index_get in Hget.
  destruct (n48_index n !! Z.to_nat k) as [s|] eqn:Hs; [|done]. simpl in Hget.
  destruct (Z.eqb_spec s NO_CHILD); [done|].
  destruct (ix_range _ _ _ Hok _ _ Hs); [done|].
  eapply (ix_live _ _ _ Hok (Z.to_nat s)); [lia|done].
Qed.
Next Obligation.
  intros n k Hwf Hk. simpl. unfold Node48_find_child.
  destruct (n48_slot n k Hwf Hk) as (s & -> & [[-> ->]|(Hne & Hr & x & Hx & ->)]); [done|].
  simpl. by rewrite (proj2 (Z.eqb_neq _ _) Hne), Hx.
Qed.
Next Obligation.
  intros n k c Hwf Hk Hc. pose proof Hwf as [Hh Hok]. simpl. unfold Node48_find_child_mut.
  destruct (n48_slot n k Hwf Hk) as (s & Hs & [[-> ->]|(Hne & Hr & x & Hx & ->)]);
    rewrite Hs; [done|]. simpl. rewrite (proj2 (Z.eqb_neq _ _) Hne).
  rewrite store_Some by (destruct Hok; lia). simpl. eexists. split; [done|].
  assert (scan_map (index_get (n48_index n) (<[Z.to_nat s:=c]> (n48_children n))) =
    <[k:=c]> (n48_map n)) as Hmap by (by eapply write_index_map).
  split_and!; [|done..]. split; [done|]. by eapply write_index_ok.
Qed.
Next Obligation. apply Node48_add_refines. Qed.
Next Obligation. apply Node48_remove_refines. Qed.
Next Obligation.
  intros n [_ Hok]. unfold is_full, Node48_ArtNode, Node48_is_full, n48_map.
  rewrite (ix_size _ _ _ Hok). destruct Hok.
  destruct (Nat.leb_spec NODE48_MAX_CHILDREN (n48_count n)); case_bool_decide; done || lia.
Qed.
Next Obligation.
  intros n [_ Hok]. exists (scan_entries (index_get (n48_index n) (n48_children n))).
  split_and!; [|apply scan_sorted|apply scan_list]. simpl. unfold Node48_iter_children.
  rewrite (filter_mapM_spec _ (λ p, if p.2 =? NO_CHILD then None
    else pair p.1 <$> n48_children n !! Z.to_nat p.2)).
  - f_equal. rewrite (omap_enumerate (λ k s, if s =? NO_CHILD then None
      else pair k <$> n48_children n !! Z.to_nat s)).
    rewrite (ix_length _ _ _ Hok), scan_entries_unfold. apply omap_ext'. intros k _. unfold index_get.
    destruct (n48_index n !! Z.to_nat k) as [s|]; simpl; [|done]. by destruct (s =? NO_CHILD).
  - intros [k s] Hin. simpl. unfold enumerate in Hin.
    assert (k ∈ all_keys ∧ s ∈ n48_index n) as [Hk Hs].
    { apply elem_of_zip_with in Hin as (k' & s' & [= -> ->] & Hk' & Hs').
      rewrite (ix_length _ _ _ Hok) in Hk'. done. }
    apply elem_of_all_keys in Hk. rewrite u8_id by done.
    destruct (Z.eqb_spec s NO_CHILD); [done|].
    apply list_elem_of_lookup in Hs as [i Hi].
    destruct (ix_range _ _ _ Hok _ _ Hi); [done|].
    destruct (lookup_lt_is_Some_2 (n48_children n) (Z.to_nat s)) as [c ->]; [|done].
    destruct Hok. lia.
Qed.
