(* ===== verification/Node256.v ===== *)
(** * Node256

    The node indexed directly by the key byte
    (src/src/persistent_artrie/nodes/node256.rs): 256 child pointers, absent
    children being null.  Its node type code is 0. *)

From stdpp Require Import prelude gmap sorting.
From S2P Require Import Prelude SwizzledPtr ArtNode KeyScan.
Local Open Scope Z_scope.

Definition NODE256_MAX_CHILDREN : nat := 256.

Record Node256 := mkNode256 {
  n256_header : NodeHeader;
  n256_prefix : CompressedPrefix;
  n256_children : list SwizzledPtr;
}.

Definition Node256_new : Node256 :=
  mkNode256 (NodeHeader_new 0) CompressedPrefix_empty (replicate NODE256_MAX_CHILDREN null).

Definition Node256_with_prefix (prefix : list Z) : exec Node256 :=
  let node := Node256_new in
  p ← CompressedPrefix_from_bytes prefix;
  Ret (mkNode256 (set_prefix_len (u8 (Z.of_nat (length prefix))) (n256_header node)) p
         (n256_children node)).

(** [self.header.num_children as usize] *)
Definition n256_count (n : Node256) : nat := Z.to_nat (num_children (n256_header n)).

Definition Node256_find_child (n : Node256) (key : Z) : exec (option SwizzledPtr) :=
  child ← n256_children n !! Z.to_nat key;
  if is_null child then Ret None else Ret (Some child).

Definition Node256_find_child_mut (n : Node256) (key : Z) (c : SwizzledPtr) :
    exec (option Node256) :=
  child ← n256_children n !! Z.to_nat key;
  if is_null child then Ret None
  else
    cs ← store (n256_children n) (Z.to_nat key) c;
    Ret (Some (mkNode256 (n256_header n) (n256_prefix n) cs)).

Definition Node256_add_child (n : Node256) (key : Z) (child : SwizzledPtr) :
    exec (Node256 * result unit AddChildError) :=
  old ← n256_children n !! Z.to_nat key;
  if negb (is_null old) then Ret (n, Err KeyExists)
  else
    cs ← store (n256_children n) (Z.to_nat key) child;
    let h := n256_header n in
    Ret (mkNode256 (set_num_children (u16 (num_children h + 1)) h) (n256_prefix n) cs, Ok tt).

Definition Node256_remove_child (n : Node256) (key : Z) : exec (Node256 * option SwizzledPtr) :=
  slot ← n256_children n !! Z.to_nat key;
  if is_null slot then Ret (n, None)
  else
    cs ← store (n256_children n) (Z.to_nat key) null;
    let h := n256_header n in
    Ret (mkNode256 (set_num_children (u16 (num_children h - 1)) h) (n256_prefix n) cs, Some slot).

Definition Node256_is_full (n : Node256) : bool := (NODE256_MAX_CHILDREN <=? n256_count n)%nat.

Definition Node256_iter_children (n : Node256) : exec (list (Z * SwizzledPtr)) :=
  filter_mapM (λ p, let '(key, child) := p in
    Ret (if is_null child then None else Some (u8 key, child)))
    (enumerate (n256_children n)).

#[global] Instance Node256_ArtNode : ArtNode Node256 := {
  find_child := Node256_find_child;
  find_child_mut := Node256_find_child_mut;
  add_child := Node256_add_child;
  remove_child := Node256_remove_child;
  is_full := Node256_is_full;
  iter_children := Node256_iter_children;
}.

(** ** Slot access for lock-free readers *)

Definition Node256_get_child_atomic (n : Node256) (key : Z) : exec (option SwizzledPtr) :=
  child ← n256_children n !! Z.to_nat key;
  if is_null child then Ret None else Ret (Some child).

Definition Node256_child_slot (n : Node256) (key : Z) : exec SwizzledPtr :=
  n256_children n !! Z.to_nat key.

Definition Node256_has_child (n : Node256) (key : Z) : exec bool :=
  child ← n256_children n !! Z.to_nat key; Ret (negb (is_null child)).

Definition Node256_iter_indexed (n : Node256) : exec (list (Z * SwizzledPtr)) :=
  filter_mapM (λ key,
    child ← n256_children n !! Z.to_nat key;
    Ret (if is_null child then None else Some (key, child))) (seqZ 0 256).

(** ** The node as a map *)

Definition direct_get (cs : list SwizzledPtr) (key : Z) : option SwizzledPtr :=
  c ← cs !! Z.to_nat key; if is_null c then None else Some c.

Definition n256_map (n : Node256) : gmap Z SwizzledPtr := scan_map (direct_get (n256_children n)).

Definition n256_wf (n : Node256) : Prop :=
  header_wf 0 (n256_header n) (n256_prefix n) ∧
  length (n256_children n) = NODE256_MAX_CHILDREN ∧
  num_children (n256_header n) = Z.of_nat (size (n256_map n)).

Lemma n256_wf_update n z cs :
  n256_wf n → length cs = NODE256_MAX_CHILDREN → z = Z.of_nat (size (scan_map (direct_get cs))) →
  let n' := mkNode256 (set_num_children z (n256_header n)) (n256_prefix n) cs in
  n256_wf n' ∧ n256_map n' = scan_map (direct_get cs).
Proof. intros (Hh & _ & _) Hlen ->. unfold n256_wf, n256_map. simpl. auto with dict. Qed.

Lemma direct_fresh : scan_map (direct_get (replicate NODE256_MAX_CHILDREN null)) = ∅.
Proof.
  apply map_eq. intros k. rewrite scan_lookup, lookup_empty. case_decide as Hk; [|done].
  unfold direct_get. rewrite lookup_replicate_2 by
    (unfold NODE256_MAX_CHILDREN, is_u8 in *; lia).
  done.
Qed.

Lemma n256_wf_empty h p :
  header_wf 0 h p → num_children h = 0 →
  let n := mkNode256 h p (replicate NODE256_MAX_CHILDREN null) in n256_wf n ∧ n256_map n = ∅.
Proof.
  intros Hh Hz n. assert (n256_map n = ∅) as Hmap by apply direct_fresh.
  split; [|done]. split_and!; [done|apply length_replicate|]. rewrite Hmap. by simpl.
Qed.

Lemma Node256_new_wf : n256_wf Node256_new ∧ n256_map Node256_new = ∅.
Proof. apply n256_wf_empty; [apply header_wf_new|done]. Qed.

Lemma Node256_with_prefix_wf bs n :
  is_bytes bs → Node256_with_prefix bs = Ret n →
  n256_wf n ∧ n256_map n = ∅ ∧ prefix_len (n256_header n) = Z.of_nat (length bs).
Proof.
  intros Hbs Hn. unfold Node256_with_prefix in Hn.
  destruct (CompressedPrefix_from_bytes bs) as [p|] eqn:Hp; [|done].
  destruct (header_wf_with_prefix 0 bs p Hbs Hp) as [Hh ?]. injection Hn as <-.
  destruct (n256_wf_empty _ _ Hh) as [??]; [done|]. split_and!; done.
Qed.

(** The slot of a key. *)
Lemma n256_slot n key :
  n256_wf n → is_u8 key →
  ∃ c, n256_children n !! Z.to_nat key = Some c ∧
    n256_map n !! key = if is_null c then None else Some c.
Proof.
  intros (_ & Hlen & _) Hk.
  destruct (lookup_lt_is_Some_2 (n256_children n) (Z.to_nat key)) as [c Hc].
  { unfold NODE256_MAX_CHILDREN, is_u8 in *. lia. }
  exists c. split; [done|]. unfold n256_map. rewrite scan_lookup_u8 by done.
  unfold direct_get. by rewrite Hc.
Qed.

Lemma direct_get_insert cs key c k :
  length cs = NODE256_MAX_CHILDREN → is_u8 key → is_u8 k →
  direct_get (<[Z.to_nat key := c]> cs) k =
    if decide (k = key) then (if is_null c then None else Some c) else direct_get cs k.
Proof.
  intros Hlen Hkey Hk. unfold direct_get, is_u8, NODE256_MAX_CHILDREN in *.
  case_decide; subst.
  - rewrite list_lookup_insert_eq by lia. done.
  - rewrite list_lookup_insert_ne by lia. done.
Qed.

(** ** The operations as map operations *)

Lemma Node256_add_refines n k c :
  n256_wf n → is_u8 k → is_null c = false →
  ∃ n' r, Node256_add_child n k c = Ret (n', r) ∧
    match r with
    | Ok _ => n256_map n !! k = None ∧ n256_wf n' ∧ n256_map n' = <[k := c]> (n256_map n) ∧
              n256_header n' = set_num_children (num_children (n256_header n) + 1) (n256_header n) ∧
              n256_prefix n' = n256_prefix n
    | Err KeyExists => is_Some (n256_map n !! k) ∧ n' = n
    | Err NodeFull => False
    end.
Proof.
  intros Hwf Hk Hc. unfold Node256_add_child.
  destruct (n256_slot n k Hwf Hk) as (old & Hold & Hmap). rewrite Hold. simpl mbind.
  pose proof Hwf as (_ & Hlen & Hcount).
  destruct (is_null old); simpl negb; cbv iota; [|exists n, (Err KeyExists); eauto].
  rewrite store_Some by (unfold is_u8, NODE256_MAX_CHILDREN in *; lia). simpl mbind.
  assert (scan_map (direct_get (<[Z.to_nat k := c]> (n256_children n))) = <[k := c]> (n256_map n))
    as Hmap'.
  { apply scan_insert; [done|]. intros k' Hk'. rewrite direct_get_insert by done. by rewrite Hc. }
  pose proof (scan_size (direct_get (n256_children n))) as Hsize. fold (n256_map n) in Hsize.
  rewrite u16_id by (unfold is_u16; lia).
  edestruct (n256_wf_update n (num_children (n256_header n) + 1)
    (<[Z.to_nat k := c]> (n256_children n))) as [Hwf' Hm']; [done|by rewrite length_insert| |].
  { rewrite Hmap', map_size_insert_None by done. lia. }
  eexists _, (Ok tt). split; [reflexivity|]. split_and!; [done|done| |done|done].
  by rewrite Hm'.
Qed.

Lemma Node256_remove_refines n k :
  n256_wf n → is_u8 k →
  ∃ n', Node256_remove_child n k = Ret (n', n256_map n !! k) ∧ n256_wf n' ∧
    n256_map n' = delete k (n256_map n) ∧ n256_prefix n' = n256_prefix n ∧
    n256_header n' = set_num_children (Z.of_nat (size (delete k (n256_map n)))) (n256_header n) ∧
    (n256_map n !! k = None → n' = n).
Proof.
  intros Hwf Hk. unfold Node256_remove_child.
  destruct (n256_slot n k Hwf Hk) as (old & Hold & Hmap). rewrite Hold. simpl mbind.
  pose proof Hwf as (_ & Hlen & Hcount). destruct (is_null old).
  { exists n. rewrite Hmap, delete_id by done. split_and!; [done..| |done].
    by apply set_num_children_id. }
  rewrite store_Some by (unfold is_u8, NODE256_MAX_CHILDREN in *; lia). simpl mbind.
  assert (scan_map (direct_get (<[Z.to_nat k := null]> (n256_children n))) = delete k (n256_map n))
    as Hmap'.
  { apply scan_delete. intros k' Hk'. by rewrite direct_get_insert. }
  pose proof (scan_size (direct_get (n256_children n))) as Hsize. fold (n256_map n) in Hsize.
  assert (size (delete k (n256_map n)) = pred (size (n256_map n))) as Hdel
    by (apply map_size_delete_Some; eauto).
  assert (size (n256_map n) ≠ 0%nat) by (apply map_size_ne_0_lookup; eauto).
  rewrite u16_id by (unfold is_u16; lia).
  edestruct (n256_wf_update n (num_children (n256_header n) - 1)
    (<[Z.to_nat k := null]> (n256_children n))) as [Hwf' Hm']; [done|by rewrite length_insert| |].
  { rewrite Hmap'. lia. }
  eexists. split; [by rewrite Hmap|]. split_and!; [done|by rewrite Hm'|done| |by rewrite Hmap].
  simpl. f_equal. lia.
Qed.

#[global, program] Instance Node256_laws : ArtNodeLaws Node256 := {
  header_of := n256_header;
  prefix_of := n256_prefix;
  node_wf := n256_wf;
  node_map := n256_map;
  capacity := NODE256_MAX_CHILDREN;
}.
Next Obligation. by intros n (_ & _ & ?). Qed.
Next Obligation. intros n _. apply scan_size. Qed.
Next Obligation.
  intros n _ k c. unfold n256_map. rewrite scan_lookup. case_decide; [|done].
  intros Hget. split; [done|]. unfold direct_get in Hget.
  destruct (n256_children n !! Z.to_nat k) as [c'|]; simpl in Hget; [|done].
  destruct (is_null c') eqn:E; by simplify_eq.
Qed.
Next Obligation.
  intros n k Hwf Hk. simpl. unfold Node256_find_child.
  destruct (n256_slot n k Hwf Hk) as (c & -> & ->). simpl. by destruct (is_null c).
Qed.
Next Obligation.
  intros n k c Hwf Hk Hc. simpl. unfold Node256_find_child_mut.
  destruct (n256_slot n k Hwf Hk) as (old & Hold & Hmap). rewrite Hold. simpl mbind.
  pose proof Hwf as (Hh & Hlen & Hcount). rewrite Hmap. destruct (is_null old); [done|].
  rewrite store_Some by (unfold is_u8, NODE256_MAX_CHILDREN in *; lia). simpl mbind.
  assert (scan_map (direct_get (<[Z.to_nat k := c]> (n256_children n))) = <[k := c]> (n256_map n))
    as Hmap'.
  { apply scan_insert; [done|]. intros k' Hk'. rewrite direct_get_insert by done. by rewrite Hc. }
  eexists. split; [reflexivity|]. split_and!; [|done..]. split_and!; [done|simpl; by rewrite length_insert|].
  unfold n256_map at 1. simpl. rewrite Hmap', map_size_insert_Some by eauto. done.
Qed.
Next Obligation.
  intros n k c Hwf Hk Hc. destruct (Node256_add_refines n k c Hwf Hk Hc) as (n' & r & ? & Hr).
  exists n', r. split; [done|]. by destruct r as [|[]].
Qed.
Next Obligation. apply Node256_remove_refines. Qed.
Next Obligation.
  intros n (_ & _ & Hcount). unfold is_full, Node256_ArtNode, Node256_is_full, n256_count.
  rewrite Hcount, Nat2Z.id. pose proof (scan_size (direct_get (n256_children n))) as Hsize.
  fold (n256_map n) in Hsize. unfold NODE256_MAX_CHILDREN in *.
  destruct (Nat.leb_spec 256 (size (n256_map n))); case_bool_decide; done || lia.
Qed.
Next Obligation.
  intros n (_ & Hlen & _). exists (scan_entries (direct_get (n256_children n))).
  split_and!; [|apply scan_sorted|apply scan_list]. simpl. unfold Node256_iter_children.
  rewrite (filter_mapM_spec _ (λ p, if is_null p.2 then None else Some (p.1, p.2))).
  - f_equal. rewrite (omap_enumerate (λ k c, if is_null c then None else Some (k, c))).
    rewrite Hlen, scan_entries_unfold. apply omap_ext'. intros k _. unfold direct_get.
    destruct (n256_children n !! Z.to_nat k) as [c|]; simpl; [|done]. by destruct (is_null c).
  - intros [k c] Hin. simpl. unfold enumerate in Hin.
    assert (k ∈ all_keys) as Hk.
    { apply elem_of_zip_with in Hin as (k' & s' & [= -> ->] & Hk' & Hs'). by rewrite Hlen in Hk'. }
    apply elem_of_all_keys in Hk. by rewrite u8_id.
Qed.
