(* ===== verification/NodeConvert.v ===== *)
(** * Conversions between node types

    [grow] and [shrink] of node4.rs, node16.rs, node48.rs and node256.rs (under
    src/src/persistent_artrie/nodes/), and the proof that each of them keeps the
    children, the prefix and the header fields other than the type code. *)

From stdpp Require Import prelude gmap sorting.
From S2P Require Import Prelude SwizzledPtr SortedArray ArtNode KeyScan.
From S2P Require Import Node4 Node16 Node48 Node256.
Local Open Scope Z_scope.

Definition Node4_grow (n : Node4) : exec Node16 :=
  let node16 := Node16_new in
  let header := set_node_type 16 (n4_header n) in
  let count := Z.to_nat (num_children (n4_header n)) in
  '(ks, cs) ← copy_slots (n4_keys n) (n16_keys node16) (n4_children n) (n16_children node16) count;
  Ret (mkNode16 header (n4_prefix n) ks cs).

Definition Node16_shrink (n : Node16) : exec Node4 :=
  let node4 := Node4_new in
  let header := set_node_type 4 (n16_header n) in
  let count := Z.to_nat (num_children (n16_header n)) in
  '(ks, cs) ← copy_slots (n16_keys n) (n4_keys node4) (n16_children n) (n4_children node4) count;
  Ret (mkNode4 header (n16_prefix n) ks cs).

Definition Node16_grow (n : Node16) : exec Node48 :=
  let node48 := Node48_new in
  let header := set_node_type 48 (n16_header n) in
  let count := Z.to_nat (num_children (n16_header n)) in
  '(idx, cs) ← foldM (λ '(idx, cs) i,
      key ← n16_keys n !! i;
      idx' ← store idx (Z.to_nat key) (u8 (Z.of_nat i));
      c ← n16_children n !! i;
      cs' ← store cs i c;
      Ret (idx', cs'))
    (n48_index node48, n48_children node48) (seq 0 count);
  Ret (mkNode48 header (n16_prefix n) idx cs).

Definition Node48_shrink (n : Node48) : exec Node16 :=
  let node16 := Node16_new in
  let header := set_node_type 16 (n48_header n) in
  '(ks, cs, _) ← foldM (λ '(ks, cs, idx) key,
      slot ← n48_index n !! Z.to_nat key;
      if negb (slot =? NO_CHILD) then
        ks' ← store ks idx key;
        c ← n48_children n !! Z.to_nat slot;
        cs' ← store cs idx c;
        Ret (ks', cs', S idx)
      else Ret (ks, cs, idx))
    (n16_keys node16, n16_children node16, O) all_keys;
  Ret (mkNode16 header (n48_prefix n) ks cs).

Definition Node48_grow (n : Node48) : exec Node256 :=
  let node256 := Node256_new in
  let header := set_node_type 0 (n48_header n) in
  cs ← foldM (λ cs key,
      slot ← n48_index n !! Z.to_nat key;
      if negb (slot =? NO_CHILD) then
        c ← n48_children n !! Z.to_nat slot; store cs (Z.to_nat key) c
      else Ret cs)
    (n256_children node256) all_keys;
  Ret (mkNode256 header (n48_prefix n) cs).

(** [slot] is a [u8] counter. *)
Definition Node256_shrink (n : Node256) : exec Node48 :=
  let node48 := Node48_new in
  let header := set_node_type 48 (n256_header n) in
  '(idx, cs, _) ← foldM (λ '(idx, cs, slot) key,
      child ← n256_children n !! Z.to_nat key;
      if negb (is_null child) then
        idx' ← store idx (Z.to_nat key) slot;
        cs' ← store cs (Z.to_nat slot) child;
        Ret (idx', cs', u8 (slot + 1))
      else Ret (idx, cs, slot))
    (n48_index node48, n48_children node48, 0) all_keys;
  Ret (mkNode48 header (n256_prefix n) idx cs).

(** ** Building slot arrays from a list of entries *)

(** What a node type keeps of the node it was converted from. *)
Definition live_entries (l : list (Z * SwizzledPtr)) : Prop :=
  StronglySorted Z.lt l.*1 ∧ Forall (λ kc, is_u8 kc.1 ∧ is_null kc.2 = false) l.

Definition fills (cap : nat) (l : list (Z * SwizzledPtr)) (ks : list Z) (cs : list SwizzledPtr) :=
  copied l.*1 (replicate cap 0) ks (length l) ∧ copied l.*2 (replicate cap null) cs (length l).

(** One more item copied to the end of the used part. *)
Lemma copied_snoc {A B} (f : B → A) (l : list B) (x : B) dst l' :
  copied (f <$> l) dst l' (length l) → (length l < length dst)%nat →
  copied (f <$> (l ++ [x])) dst (<[length l := f x]> l') (length (l ++ [x])).
Proof.
  intros [Hlen Hl] Hlt. split; [by rewrite length_insert|]. intros j.
  rewrite list_lookup_insert, Hl, length_app, fmap_app, lookup_app, length_fmap. simpl.
  destruct (decide (j = length l)) as [->|].
  - rewrite decide_True, decide_True by lia.
    rewrite lookup_ge_None_2 by (rewrite length_fmap; lia). by rewrite Nat.sub_diag.
  - rewrite decide_False by naive_solver. destruct (decide (j < length l)%nat).
    + rewrite decide_True by lia. destruct ((f <$> l) !! j) eqn:E; [done|].
      apply lookup_ge_None in E. rewrite length_fmap in E. lia.
    + by rewrite decide_False by lia.
Qed.

Lemma fills_slots_ok cap l ks cs :
  fills cap l ks cs → live_entries l → (length l ≤ cap)%nat →
  slots_ok cap (length l) ks cs ∧ slots_map (length l) ks cs = list_to_map l.
Proof.
  intros [[Hkl Hk] [Hcl Hc]] [Hsort Hlive] Hcap. rewrite !length_replicate in *. split.
  - split; [lia..| | | |].
    + intros i j x y Hij Hj. rewrite !Hk, !decide_True by lia. intros.
      by eapply (StronglySorted_lookup_lt _ _ i j).
    + apply Forall_lookup. intros i x. rewrite Hk. case_decide.
      * rewrite list_lookup_fmap_Some. intros (kc & -> & Hkc).
        eapply Forall_lookup_1 in Hlive; naive_solver.
      * intros [-> _]%lookup_replicate. by vm_compute.
    + intros i c Hi. rewrite Hc, decide_True by lia.
      rewrite list_lookup_fmap_Some. intros (kc & -> & Hkc).
      eapply Forall_lookup_1 in Hlive; naive_solver.
    + intros i Hi Hi'. rewrite Hk, Hc, !decide_False by lia.
      by rewrite !lookup_replicate_2.
  - unfold slots_map. f_equal. unfold entries.
    rewrite <-(zip_fst_snd l) at 3. f_equal; apply list_eq; intros i;
      destruct (decide (i < length l)%nat);
      rewrite ?lookup_take_lt, ?lookup_take_ge by lia; rewrite ?Hk, ?Hc, ?decide_True by lia; try done;
      symmetry; apply lookup_ge_None_2; rewrite length_fmap; lia.
Qed.

(** ** Building an index from a list of entries *)

Record indexes (l : list (Z * SwizzledPtr)) (idx : list Z) (cs : list SwizzledPtr) : Prop := {
  in_length : length idx = 256%nat;
  in_slot : ∀ j k, l.*1 !! j = Some k → idx !! Z.to_nat k = Some (Z.of_nat j);
  in_key : ∀ k s, idx !! k = Some s →
    s = NO_CHILD ∨ ∃ j, s = Z.of_nat j ∧ l.*1 !! j = Some (Z.of_nat k);
  in_children : copied l.*2 (replicate NODE48_MAX_CHILDREN null) cs (length l);
}.

Lemma indexes_nil :
  indexes [] (replicate 256 NO_CHILD) (replicate NODE48_MAX_CHILDREN null).
Proof.
  split; [by rewrite length_replicate|done| |].
  - intros k s [-> _]%lookup_replicate. by left.
  - split; [done|]. intros j. by rewrite decide_False by (simpl; lia).
Qed.

Lemma indexes_snoc l idx cs k c :
  indexes l idx cs → is_u8 k → k ∉ l.*1 → Forall is_u8 l.*1 → (length l < NODE48_MAX_CHILDREN)%nat →
  indexes (l ++ [(k, c)]) (<[Z.to_nat k := Z.of_nat (length l)]> idx) (<[length l := c]> cs).
Proof.
  intros [Hlen Hslot Hkey Hcs] Hk Hnew Hbytes Hlt. unfold is_u8 in Hk.
  assert (Z.to_nat k < length idx)%nat as Hin by lia.
  split.
  - by rewrite length_insert.
  - intros j x. rewrite fmap_app, lookup_app_Some, length_fmap. simpl.
    intros [Hj|[Hge Hj]].
    + assert (x ≠ k) by (intros ->; by apply Hnew, (list_elem_of_lookup_2 _ j)).
      assert (is_u8 x) by (by eapply Forall_lookup_1 in Hj). unfold is_u8 in *.
      rewrite list_lookup_insert_ne by lia. auto.
    + apply list_lookup_singleton_Some in Hj as [? <-].
      replace j with (length l) by lia. by apply list_lookup_insert_eq.
  - intros k' s. rewrite list_lookup_insert. case_decide as Hd.
    + intros [= <-]. right. exists (length l). split; [done|]. destruct Hd as [<- _].
      rewrite Z2Nat.id, fmap_app by lia. apply lookup_app_Some. right.
      rewrite length_fmap, Nat.sub_diag. done.
    + intros [?|(j & -> & Hj)]%Hkey; [by left|right]. exists j. split; [done|].
      rewrite fmap_app. by apply lookup_app_l_Some.
  - by apply (copied_snoc snd _ (k, c)); [|rewrite length_replicate].
Qed.

Lemma indexes_ok l idx cs :
  indexes l idx cs → live_entries l → (length l ≤ NODE48_MAX_CHILDREN)%nat →
  index_ok (length l) idx cs ∧ scan_map (index_get idx cs) = list_to_map l.
Proof.
  intros [Hlen Hslot Hkey [Hcl Hcs]] [Hsort Hlive] Hcap. rewrite length_replicate in Hcl.
  assert (NoDup l.*1) as Hnodup by by apply sorted_NoDup.
  assert (scan_map (index_get idx cs) = list_to_map l) as Hmap.
  { apply map_eq. intros k. apply option_eq. intros c. rewrite <-elem_of_list_to_map by done.
    rewrite scan_lookup, list_elem_of_lookup. split.
    - case_decide as Hk; [|done]. unfold index_get.
      destruct (idx !! Z.to_nat k) as [s|] eqn:Hs; simpl; [|done].
      destruct (Z.eqb_spec s NO_CHILD); [done|].
      destruct (Hkey _ _ Hs) as [?|(j & -> & Hj)]; [done|]. rewrite Nat2Z.id, Hcs.
      apply list_lookup_fmap_Some in Hj as ([k' c'] & Hk' & Hj).
      pose proof (lookup_lt_Some _ _ _ Hj). rewrite decide_True by done.
      rewrite list_lookup_fmap, Hj. intros [= <-]. exists j. rewrite Hj. simpl in *.
      unfold is_u8 in Hk. repeat f_equal. lia.
    - intros [j Hj]. pose proof (lookup_lt_Some _ _ _ Hj) as Hjl.
      pose proof (Forall_lookup_1 _ _ _ _ Hlive Hj) as [Hk _]. simpl in Hk.
      rewrite decide_True by done. unfold index_get.
      rewrite (Hslot j k) by (rewrite list_lookup_fmap, Hj; done). simpl.
      unfold NODE48_MAX_CHILDREN, NO_CHILD in *.
      destruct (Z.eqb_spec (Z.of_nat j) 255); [lia|].
      rewrite Nat2Z.id, Hcs, decide_True, list_lookup_fmap, Hj by done. done. }
  split; [|done]. split; try done.
  - intros k s [?|(j & -> & Hj)]%Hkey; [by left|right].
    apply lookup_lt_Some in Hj. rewrite length_fmap in Hj. lia.
  - intros k k' s [?|(j & -> & Hj)]%Hkey [?|(j' & Heq & Hj')]%Hkey Hne; try done.
    assert (j = j') as <- by lia. rewrite Hj in Hj'. injection Hj'. lia.
  - intros s Hs. destruct (lookup_lt_is_Some_2 l.*1 (Z.to_nat s)) as [k Hk];
      [rewrite length_fmap; lia|].
    exists (Z.to_nat k). rewrite (Hslot _ _ Hk). f_equal. lia.
  - intros i c Hi. rewrite Hcs, decide_True by done.
    rewrite list_lookup_fmap_Some. intros (kc & -> & Hkc).
    eapply Forall_lookup_1 in Hlive; naive_solver.
  - intros i Hi. rewrite Hcs, decide_False, lookup_replicate_2 by lia. done.
  - rewrite Hmap. by apply map_size_list_to_map.
Qed.

(** ** The entries of a node *)

Lemma slots_live_entries cap n ks cs : slots_ok cap n ks cs → live_entries (entries n ks cs).
Proof.
  intros Hok. split; [by eapply slots_entries_sorted|]. apply Forall_lookup. intros i [k c] Hi.
  apply lookup_zip_with_Some in Hi as (x & y & [= -> ->] & Hx & Hy).
  apply lookup_take_Some in Hx as [Hx ?]. apply lookup_take_Some in Hy as [Hy ?].
  split; [by eapply slots_key_lt|by eapply ok_live].
Qed.

Lemma scan_live_entries get :
  (∀ k c, get k = Some c → is_null c = false) → live_entries (scan_entries get).
Proof.
  intros Hlive. split; [apply scan_sorted|]. apply Forall_forall. intros [k c] [Hk Hget]%elem_of_scan.
  split; [done|by eapply Hlive].
Qed.

Lemma index_get_live m idx cs k c :
  index_ok m idx cs → index_get idx cs k = Some c → is_null c = false.
Proof.
  intros Hok. unfold index_get. destruct (idx !! _) as [s|] eqn:Hs; simpl; [|done].
  destruct (Z.eqb_spec s NO_CHILD); [done|]. destruct (ix_range _ _ _ Hok _ _ Hs); [done|].
  apply (ix_live _ _ _ Hok). lia.
Qed.

Lemma scan_entries_length get : length (scan_entries get) = size (scan_map get).
Proof.
  rewrite <-scan_list, map_size_list_to_map; [done|]. apply sorted_NoDup, scan_sorted.
Qed.

(** A scan over the 256 keys that appends the key and child of every key
    present is a loop over the entries. *)
Lemma scan_loop {S} (P : list (Z * SwizzledPtr) → S → Prop) (get : Z → option SwizzledPtr)
    (f : S → Z → option S) (s0 : S) :
  P [] s0 →
  (∀ pre k s, is_u8 k → pre `prefix_of` scan_entries get → P pre s →
     match get k with
     | None => f s k = Some s
     | Some c => (pre ++ [(k, c)]) `prefix_of` scan_entries get →
                 ∃ s', f s k = Some s' ∧ P (pre ++ [(k, c)]) s'
     end) →
  ∃ s, foldM f s0 all_keys = Some s ∧ P (scan_entries get) s.
Proof.
  intros H0 Hstep. rewrite scan_entries_unfold in *.
  apply (foldM_inv (λ done s, P (omap (λ k, pair k <$> get k) done) s)); [done|].
  intros pre k rest s Hl HP.
  assert (is_u8 k) as Hk by (apply elem_of_all_keys; rewrite Hl; set_solver).
  assert (omap (λ k, pair k <$> get k) all_keys =
    omap (λ k, pair k <$> get k) pre ++ omap (λ k, pair k <$> get k) [k] ++
    omap (λ k, pair k <$> get k) rest) as Hsplit.
  { rewrite Hl. rewrite omap_app. f_equal. by rewrite <-omap_app. }
  specialize (Hstep (omap (λ k, pair k <$> get k) pre) k s Hk).
  rewrite omap_app. simpl in *. destruct (get k) as [c|]; simpl in *.
  - apply Hstep; [by eexists|done|]. rewrite Hsplit. eexists. by rewrite <-app_assoc.
  - rewrite app_nil_r. exists s. split; [|done]. apply Hstep; [by eexists|done].
Qed.

(** ** The conversions *)

Lemma Node4_grow_spec n :
  n4_wf n →
  ∃ n', Node4_grow n = Ret n' ∧ n16_wf n' ∧ n16_map n' = n4_map n ∧
    n16_header n' = set_node_type 16 (n4_header n) ∧ n16_prefix n' = n4_prefix n.
Proof.
  intros [Hh Hok]. unfold Node4_grow. fold (n4_count n).
  pose proof (ok_count _ _ _ _ Hok) as Hc. unfold NODE4_MAX_CHILDREN in Hc.
  destruct (copy_slots_spec (n4_keys n) (n16_keys Node16_new) (n4_children n)
    (n16_children Node16_new) (n4_count n)) as (ks & cs & -> & Hks & Hcs);
    [destruct Hok; simpl; rewrite ?length_replicate; lia..|]. simpl.
  destruct (copied_slots_ok _ 16 _ _ _ ks cs Hok ltac:(lia) Hks Hcs) as [Hok' Hmap].
  eexists. split; [reflexivity|]. split_and!; [|exact Hmap|done|done].
  split; [by eapply header_wf_retype|exact Hok'].
Qed.

Lemma Node16_shrink_spec n :
  n16_wf n → (n16_count n ≤ NODE4_MAX_CHILDREN)%nat →
  ∃ n', Node16_shrink n = Ret n' ∧ n4_wf n' ∧ n4_map n' = n16_map n ∧
    n4_header n' = set_node_type 4 (n16_header n) ∧ n4_prefix n' = n16_prefix n.
Proof.
  intros [Hh Hok] Hc. unfold Node16_shrink. fold (n16_count n). unfold NODE4_MAX_CHILDREN in Hc.
  destruct (copy_slots_spec (n16_keys n) (n4_keys Node4_new) (n16_children n)
    (n4_children Node4_new) (n16_count n)) as (ks & cs & -> & Hks & Hcs);
    [destruct Hok; simpl; rewrite ?length_replicate; lia..|]. simpl.
  destruct (copied_slots_ok _ 4 _ _ _ ks cs Hok ltac:(lia) Hks Hcs) as [Hok' Hmap].
  eexists. split; [reflexivity|]. split_and!; [|exact Hmap|done|done].
  split; [by eapply header_wf_retype|exact Hok'].
Qed.

Lemma entries_length cap n ks cs : slots_ok cap n ks cs → length (entries n ks cs) = n.
Proof. intros []. unfold entries. rewrite length_zip_with, !length_take. lia. Qed.

Lemma take_snoc_entries cap n ks cs i k c :
  slots_ok cap n ks cs → (i < n)%nat → ks !! i = Some k → cs !! i = Some c →
  take (S i) (entries n ks cs) = take i (entries n ks cs) ++ [(k, c)].
Proof.
  intros Hok Hi Hk Hc. apply take_S_r. unfold entries. apply lookup_zip_with_Some.
  exists k, c. by rewrite !lookup_take_lt.
Qed.

Lemma Node16_grow_spec n :
  n16_wf n →
  ∃ n', Node16_grow n = Ret n' ∧ n48_wf n' ∧ n48_map n' = n16_map n ∧
    n48_header n' = set_node_type 48 (n16_header n) ∧ n48_prefix n' = n16_prefix n.
Proof.
  intros [Hh Hok]. unfold Node16_grow. fold (n16_count n).
  set (l := entries (n16_count n) (n16_keys n) (n16_children n)).
  assert (length l = n16_count n) as Hlen by (by eapply entries_length).
  destruct (slots_live_entries _ _ _ _ Hok) as [Hsort Hlive]. fold l in Hsort, Hlive.
  pose proof (ok_count _ _ _ _ Hok) as Hcap. unfold NODE16_MAX_CHILDREN in Hcap.
  destruct (foldM_inv (λ pre '(idx, cs), indexes (take (length pre) l) idx cs)
    (λ '(idx, cs) i, key ← n16_keys n !! i; idx' ← store idx (Z.to_nat key) (u8 (Z.of_nat i));
      c ← n16_children n !! i; cs' ← store cs i c; Ret (idx', cs'))
    (n48_index Node48_new, n48_children Node48_new) (seq 0 (n16_count n)))
    as ([idx cs] & -> & Hidx).
  - apply indexes_nil.
  - intros pre i rest [idx cs] Hl Hidx.
    assert (i = length pre ∧ (length pre < n16_count n)%nat) as [-> Hi].
    { assert (seq 0 (n16_count n) !! length pre = Some i) as Hs
        by (rewrite Hl; by apply list_lookup_middle).
      apply lookup_seq in Hs. lia. }
    destruct (lookup_lt_is_Some_2 (n16_keys n) (length pre)) as [k Hk]; [destruct Hok; lia|].
    destruct (lookup_lt_is_Some_2 (n16_children n) (length pre)) as [c Hc]; [destruct Hok; lia|].
    pose proof (slots_key_lt _ _ _ _ _ _ Hok Hk) as Hk8. unfold is_u8 in Hk8.
    rewrite Hk, Hc. simpl mbind. rewrite u8_id by (unfold is_u8; lia).
    rewrite (store_Some idx) by (rewrite (in_length _ _ _ Hidx); lia). simpl mbind.
    rewrite (store_Some cs) by (rewrite (proj1 (in_children _ _ _ Hidx)), length_replicate;
      unfold NODE48_MAX_CHILDREN; lia).
    eexists. split; [reflexivity|]. rewrite length_app. simpl. rewrite Nat.add_1_r.
    pose proof (take_snoc_entries _ _ _ _ _ _ _ Hok Hi Hk Hc) as Hsnoc. fold l in Hsnoc.
    assert (length (take (length pre) l) = length pre) as Htake by (rewrite length_take; lia).
    rewrite Hsnoc. pose proof (indexes_snoc _ _ _ k c Hidx) as Hnext. rewrite Htake in Hnext.
    apply Hnext; [done| | |].
    + intros (j & Hj)%list_elem_of_lookup. rewrite fmap_take, lookup_take_Some in Hj.
      destruct Hj as [Hj ?]. assert (k < k); [|lia].
      eapply (StronglySorted_lookup_lt _ _ j (length pre) _ _ Hsort); [done|done|].
      rewrite list_lookup_fmap. rewrite <-(lookup_take_lt l (S (length pre))) by lia.
      rewrite Hsnoc. rewrite lookup_app_r, Htake, Nat.sub_diag by lia. done.
    + rewrite fmap_take. apply Forall_take, Forall_fmap.
      eapply Forall_impl; [exact Hlive|]. naive_solver.
    + unfold NODE48_MAX_CHILDREN. lia.
  - rewrite length_seq, <-Hlen, firstn_all in Hidx.
    destruct (indexes_ok _ _ _ Hidx) as [Hok' Hmap];
      [done|rewrite Hlen; unfold NODE48_MAX_CHILDREN; lia|].
    simpl. eexists. split; [reflexivity|]. split_and!; [|exact Hmap|done|done].
    split; [by eapply header_wf_retype|]. unfold n48_count. simpl. fold (n16_count n).
    by rewrite <-Hlen.
Qed.

(** The step of the two shrinking scans: the next entry is new and in range. *)
Lemma prefix_new get pre k c :
  (pre ++ [(k, c)]) `prefix_of` scan_entries get →
  k ∉ pre.*1 ∧ Forall is_u8 pre.*1 ∧ (length pre < length (scan_entries get))%nat.
Proof.
  intros [post Heq]. split_and!.
  - pose proof (sorted_NoDup _ (scan_sorted get)) as Hnd. rewrite Heq, !fmap_app in Hnd.
    apply NoDup_app in Hnd as (Hnd & _). apply NoDup_app in Hnd as (_ & Hdisj & _).
    intros Hin. apply (Hdisj k Hin). set_solver.
  - apply Forall_fmap, Forall_forall. intros [k' c'] Hin.
    assert ((k', c') ∈ scan_entries get) as [? _]%elem_of_scan by (rewrite Heq; set_solver). done.
  - rewrite Heq, !length_app. simpl. lia.
Qed.

Lemma Node48_shrink_spec n :
  n48_wf n → (n48_count n ≤ NODE16_MAX_CHILDREN)%nat →
  ∃ n', Node48_shrink n = Ret n' ∧ n16_wf n' ∧ n16_map n' = n48_map n ∧
    n16_header n' = set_node_type 16 (n48_header n) ∧ n16_prefix n' = n48_prefix n.
Proof.
  intros Hwf Hc. pose proof Hwf as [Hh Hok]. unfold Node48_shrink.
  set (get := index_get (n48_index n) (n48_children n)).
  assert (length (scan_entries get) = n48_count n) as Hlen
    by (rewrite scan_entries_length; by apply ix_size).
  destruct (scan_loop (λ pre '(ks, cs, idx), idx = length pre ∧ fills 16 pre ks cs) get
    (λ '(ks, cs, idx) key, slot ← n48_index n !! Z.to_nat key;
      if negb (slot =? NO_CHILD) then ks' ← store ks idx key;
        c ← n48_children n !! Z.to_nat slot; cs' ← store cs idx c; Ret (ks', cs', S idx)
      else Ret (ks, cs, idx)) (n16_keys Node16_new, n16_children Node16_new, O))
    as ([[ks cs] idx] & -> & _ & Hfill).
  - split; [done|]. split; (split; [done|]; intros j; by rewrite decide_False by (simpl; lia)).
  - intros pre k [[ks cs] idx] Hk Hpre [-> [Hks Hcs]].
    destruct (n48_slot n k Hwf Hk) as (s & Hs & Hslot). rewrite Hs. simpl mbind.
    replace (get k) with (n48_map n !! k) by (unfold n48_map; by rewrite scan_lookup_u8).
    destruct Hslot as [[-> ->]|(Hne & _ & c & Hcs' & ->)]; [done|].
    rewrite (proj2 (Z.eqb_neq _ _) Hne), Hcs'. simpl negb. simpl mbind. cbv iota.
    intros (_ & _ & Hlt)%prefix_new. unfold NODE16_MAX_CHILDREN in Hc.
    rewrite (store_Some ks) by (rewrite (proj1 Hks), length_replicate; lia). simpl mbind.
    rewrite (store_Some cs) by (rewrite (proj1 Hcs), length_replicate; lia). simpl mbind.
    eexists. split; [reflexivity|]. split; [rewrite length_app; simpl; lia|].
    split; [apply (copied_snoc fst pre (k, c))|apply (copied_snoc snd pre (k, c))];
      rewrite ?length_replicate; done || lia.
  - simpl. destruct (fills_slots_ok _ _ _ _ Hfill) as [Hok' Hmap].
    { apply scan_live_entries. intros k c. by eapply index_get_live. }
    { by rewrite Hlen. }
    rewrite Hlen in *. eexists. split; [reflexivity|].
    split_and!; [split; [by eapply header_wf_retype|exact Hok']| |done|done].
    etrans; [exact Hmap|]. apply scan_list.
Qed.

Lemma Node256_shrink_spec n :
  n256_wf n → (n256_count n ≤ NODE48_MAX_CHILDREN)%nat →
  ∃ n', Node256_shrink n = Ret n' ∧ n48_wf n' ∧ n48_map n' = n256_map n ∧
    n48_header n' = set_node_type 48 (n256_header n) ∧ n48_prefix n' = n256_prefix n.
Proof.
  intros Hwf Hc. pose proof Hwf as (Hh & Hcl & Hcount). unfold Node256_shrink.
  set (get := direct_get (n256_children n)).
  assert (length (scan_entries get) = n256_count n) as Hlen.
  { rewrite scan_entries_length. unfold n256_count. rewrite Hcount, Nat2Z.id. done. }
  unfold NODE48_MAX_CHILDREN in Hc.
  destruct (scan_loop (λ pre '(idx, cs, slot), slot = Z.of_nat (length pre) ∧ indexes pre idx cs) get
    (λ '(idx, cs, slot) key, child ← n256_children n !! Z.to_nat key;
      if negb (is_null child) then idx' ← store idx (Z.to_nat key) slot;
        cs' ← store cs (Z.to_nat slot) child; Ret (idx', cs', u8 (slot + 1))
      else Ret (idx, cs, slot)) (n48_index Node48_new, n48_children Node48_new, 0))
    as ([[idx cs] slot] & -> & _ & Hidx).
  - split; [done|apply indexes_nil].
  - intros pre k [[idx cs] slot] Hk Hpre [-> Hidx].
    destruct (n256_slot n k Hwf Hk) as (c & Hkc & Hmap). rewrite Hkc. simpl mbind.
    replace (get k) with (n256_map n !! k) by (unfold n256_map; by rewrite scan_lookup_u8).
    rewrite Hmap. destruct (is_null c); [done|]. simpl negb. cbv iota.
    intros (Hnew & Hb & Hlt)%prefix_new. unfold is_u8 in Hk.
    rewrite (store_Some idx) by (rewrite (in_length _ _ _ Hidx); lia). simpl mbind.
    rewrite Nat2Z.id, (store_Some cs) by (rewrite (proj1 (in_children _ _ _ Hidx)), length_replicate;
      unfold NODE48_MAX_CHILDREN; lia).
    simpl mbind. eexists. split; [reflexivity|]. rewrite u8_id by (unfold is_u8; lia).
    split; [rewrite length_app; simpl; lia|].
    apply indexes_snoc; [done..|unfold NODE48_MAX_CHILDREN; lia].
  - simpl. destruct (indexes_ok _ _ _ Hidx) as [Hok' Hmap].
    { apply scan_live_entries. intros k c. unfold get, direct_get.
      destruct (n256_children n !! _) as [c'|]; simpl; [|done].
      destruct (is_null c') eqn:E; naive_solver. }
    { by rewrite Hlen. }
    rewrite Hlen, scan_list in *. eexists. split; [reflexivity|].
    split_and!; [split; [by eapply header_wf_retype|exact Hok']|exact Hmap|done|done].
Qed.

Lemma Node48_grow_spec n :
  n48_wf n →
  ∃ n', Node48_grow n = Ret n' ∧ n256_wf n' ∧ n256_map n' = n48_map n ∧
    n256_header n' = set_node_type 0 (n48_header n) ∧ n256_prefix n' = n48_prefix n.
Proof.
  intros Hwf. pose proof Hwf as [Hh Hok]. unfold Node48_grow.
  destruct (foldM_inv (λ pre cs, length cs = 256%nat ∧
      ∀ k, is_u8 k → cs !! Z.to_nat k =
        Some (if decide (k ∈ pre) then default null (n48_map n !! k) else null))
    (λ cs key, slot ← n48_index n !! Z.to_nat key;
      if negb (slot =? NO_CHILD) then c ← n48_children n !! Z.to_nat slot; store cs (Z.to_nat key) c
      else Ret cs) (n256_children Node256_new) all_keys) as (cs & -> & Hlen & Hcs).
  - split; [done|]. intros k Hk. rewrite decide_False by set_solver.
    apply lookup_replicate_2. unfold is_u8, NODE256_MAX_CHILDREN in *. lia.
  - intros pre k rest cs Hl [Hlen Hcs].
    assert (is_u8 k) as Hk by (apply elem_of_all_keys; rewrite Hl; set_solver).
    destruct (n48_slot n k Hwf Hk) as (s & Hs & Hslot). rewrite Hs. simpl mbind.
    destruct Hslot as [[-> Hnone]|(Hne & _ & c & Hc & Hmap)].
    + simpl. eexists. split; [reflexivity|]. split; [done|]. intros k' Hk'. rewrite Hcs by done.
      destruct (decide (k' = k)) as [->|].
      * rewrite Hnone. repeat case_decide; done.
      * f_equal. apply decide_ext. set_solver.
    + rewrite (proj2 (Z.eqb_neq _ _) Hne), Hc. simpl negb. simpl mbind. cbv iota.
      unfold is_u8 in Hk. rewrite store_Some by lia. eexists. split; [reflexivity|].
      split; [by rewrite length_insert|]. intros k' Hk'. rewrite list_lookup_insert.
      destruct (decide (k' = k)) as [->|Hkk].
      * rewrite decide_True by lia. rewrite decide_True by set_solver. by rewrite Hmap.
      * unfold is_u8 in Hk'. rewrite decide_False, Hcs by (unfold is_u8; lia).
        f_equal. apply decide_ext. set_solver.
  - simpl. assert (scan_map (direct_get cs) = n48_map n) as Hmap.
    { apply map_eq. intros k. unfold n48_map in *. rewrite scan_lookup. case_decide as Hk.
      - unfold direct_get. rewrite Hcs by done. rewrite decide_True by (by apply elem_of_all_keys).
        rewrite scan_lookup_u8 by done. simpl.
        destruct (index_get _ _ k) as [c|] eqn:E; simpl; [|done].
        by rewrite (index_get_live _ _ _ _ _ Hok E).
      - rewrite scan_lookup. by rewrite decide_False. }
    eexists. split; [reflexivity|]. split_and!; [|exact Hmap|done|done].
    split_and!; [by eapply header_wf_retype|exact Hlen|].
    unfold n256_map. simpl. rewrite Hmap. by apply n48_wf_count.
Qed.
