(* ===== verification/Node.v ===== *)
(** * The node enum

    [Node] of src/src/persistent_artrie/nodes/mod.rs: dispatch over the four node
    types, and the operations that change the type on the way
    ([add_child_growing], [remove_child_shrinking]). *)

From stdpp Require Import prelude gmap sorting.
From S2P Require Import Prelude SwizzledPtr SortedArray ArtNode KeyScan.
From S2P Require Import Node4 Node16 Node48 Node256 NodeConvert.
Local Open Scope Z_scope.

Inductive Node : Type :=
| N4 (n : Node4)
| N16 (n : Node16)
| N48 (n : Node48)
| N256 (n : Node256).

Definition Node_header (n : Node) : NodeHeader :=
  match n with
  | N4 n => n4_header n
  | N16 n => n16_header n
  | N48 n => n48_header n
  | N256 n => n256_header n
  end.

(** The node after a header is written through [header_mut]. *)
Definition Node_header_mut (n : Node) (h : NodeHeader) : Node :=
  match n with
  | N4 n => N4 (mkNode4 h (n4_prefix n) (n4_keys n) (n4_children n))
  | N16 n => N16 (mkNode16 h (n16_prefix n) (n16_keys n) (n16_children n))
  | N48 n => N48 (mkNode48 h (n48_prefix n) (n48_index n) (n48_children n))
  | N256 n => N256 (mkNode256 h (n256_prefix n) (n256_children n))
  end.

Definition Node_prefix (n : Node) : CompressedPrefix :=
  match n with
  | N4 n => n4_prefix n
  | N16 n => n16_prefix n
  | N48 n => n48_prefix n
  | N256 n => n256_prefix n
  end.

(** The node after a prefix is written through [prefix_mut]. *)
Definition Node_prefix_mut (n : Node) (p : CompressedPrefix) : Node :=
  match n with
  | N4 n => N4 (mkNode4 (n4_header n) p (n4_keys n) (n4_children n))
  | N16 n => N16 (mkNode16 (n16_header n) p (n16_keys n) (n16_children n))
  | N48 n => N48 (mkNode48 (n48_header n) p (n48_index n) (n48_children n))
  | N256 n => N256 (mkNode256 (n256_header n) p (n256_children n))
  end.

Definition Node_is_final (n : Node) : bool := is_final (Node_header n).
Definition Node_num_children (n : Node) : nat := Z.to_nat (num_children (Node_header n)).

Definition Node_should_shrink (n : Node) : bool :=
  match n with
  | N4 _ => false
  | N16 n => num_children (n16_header n) <=? 4
  | N48 n => num_children (n48_header n) <=? 16
  | N256 n => num_children (n256_header n) <=? 48
  end.

Definition Node_new_node4 : Node := N4 Node4_new.
Definition Node_new_node16 : Node := N16 Node16_new.
Definition Node_new_node48 : Node := N48 Node48_new.
Definition Node_new_node256 : Node := N256 Node256_new.

Definition Node_grow (n : Node) : exec (option Node) :=
  match n with
  | N4 n => g ← Node4_grow n; Ret (Some (N16 g))
  | N16 n => g ← Node16_grow n; Ret (Some (N48 g))
  | N48 n => g ← Node48_grow n; Ret (Some (N256 g))
  | N256 _ => Ret None
  end.

Definition Node_shrink (n : Node) : exec (option Node) :=
  match n with
  | N4 _ => Ret None
  | N16 n => s ← Node16_shrink n; Ret (Some (N4 s))
  | N48 n => s ← Node48_shrink n; Ret (Some (N16 s))
  | N256 n => s ← Node256_shrink n; Ret (Some (N48 s))
  end.

(** One arm of [add_child_growing]: [self] stays as it is when the grown copy
    takes the child. *)
Definition add_or_grow {N M} `{ArtNode N} `{ArtNode M} (self : N → Node) (next : M → Node)
    (grow : N → exec M) (n : N) (key : Z) (child : SwizzledPtr) :
    exec (Node * result (option Node) AddChildError) :=
  if is_full n then
    grown ← grow n;
    '(grown, r) ← add_child grown key child;
    match r with
    | Err e => Ret (self n, Err e)
    | Ok _ => Ret (self n, Ok (Some (next grown)))
    end
  else
    '(n, r) ← add_child n key child;
    match r with
    | Err e => Ret (self n, Err e)
    | Ok _ => Ret (self n, Ok None)
    end.

(** One arm of [remove_child_shrinking]. *)
Definition remove_or_shrink {N M} `{ArtNode N} (self : N → Node) (header : N → NodeHeader)
    (next : M → Node) (shrink : N → exec M) (limit : Z) (n : N) (key : Z) :
    exec (Node * option (SwizzledPtr * option Node)) :=
  '(n, r) ← remove_child n key;
  match r with
  | None => Ret (self n, None)
  | Some removed =>
      if num_children (header n) <=? limit then
        s ← shrink n; Ret (self n, Some (removed, Some (next s)))
      else Ret (self n, Some (removed, None))
  end.

Section operations.
Context {features : TargetFeatures}.

Definition Node_find_child (n : Node) (key : Z) : exec (option SwizzledPtr) :=
  match n with
  | N4 n => find_child n key
  | N16 n => find_child n key
  | N48 n => find_child n key
  | N256 n => find_child n key
  end.

Definition Node_find_child_mut (n : Node) (key : Z) (c : SwizzledPtr) : exec (option Node) :=
  match n with
  | N4 n => r ← find_child_mut n key c; Ret (option_map N4 r)
  | N16 n => r ← find_child_mut n key c; Ret (option_map N16 r)
  | N48 n => r ← find_child_mut n key c; Ret (option_map N48 r)
  | N256 n => r ← find_child_mut n key c; Ret (option_map N256 r)
  end.

Definition Node_iter_children (n : Node) : exec (list (Z * SwizzledPtr)) :=
  match n with
  | N4 n => iter_children n
  | N16 n => iter_children n
  | N48 n => iter_children n
  | N256 n => iter_children n
  end.

Definition Node_is_full (n : Node) : bool :=
  match n with
  | N4 n => is_full n
  | N16 n => is_full n
  | N48 n => is_full n
  | N256 n => is_full n
  end.

Definition Node_should_grow (n : Node) : bool := Node_is_full n.

Definition add_child_growing (n : Node) (key : Z) (child : SwizzledPtr) :
    exec (Node * result (option Node) AddChildError) :=
  match n with
  | N4 n => add_or_grow N4 N16 Node4_grow n key child
  | N16 n => add_or_grow N16 N48 Node16_grow n key child
  | N48 n => add_or_grow N48 N256 Node48_grow n key child
  | N256 n =>
      '(n, r) ← add_child n key child;
      match r with
      | Err e => Ret (N256 n, Err e)
      | Ok _ => Ret (N256 n, Ok None)
      end
  end.

Definition remove_child_shrinking (n : Node) (key : Z) :
    exec (Node * option (SwizzledPtr * option Node)) :=
  match n with
  | N4 n => '(n, r) ← remove_child n key; Ret (N4 n, option_map (λ removed, (removed, None)) r)
  | N16 n => remove_or_shrink N16 n16_header N4 Node16_shrink 4 n key
  | N48 n => remove_or_shrink N48 n48_header N16 Node48_shrink 16 n key
  | N256 n => remove_or_shrink N256 n256_header N48 Node256_shrink 48 n key
  end.
End operations.

(** ** The node as a map *)

Definition nd_map (n : Node) : gmap Z SwizzledPtr :=
  match n with
  | N4 n => n4_map n
  | N16 n => n16_map n
  | N48 n => n48_map n
  | N256 n => n256_map n
  end.

Definition nd_wf (n : Node) : Prop :=
  match n with
  | N4 n => n4_wf n
  | N16 n => n16_wf n
  | N48 n => n48_wf n
  | N256 n => n256_wf n
  end.

Definition nd_capacity (n : Node) : nat :=
  match n with
  | N4 _ => NODE4_MAX_CHILDREN
  | N16 _ => NODE16_MAX_CHILDREN
  | N48 _ => NODE48_MAX_CHILDREN
  | N256 _ => NODE256_MAX_CHILDREN
  end.

(** What growing and shrinking keep of a node: the prefix and the header apart
    from the type code and the child count. *)
Definition same_payload (n n' : Node) : Prop :=
  Node_prefix n' = Node_prefix n ∧
  prefix_len (Node_header n') = prefix_len (Node_header n) ∧
  flags (Node_header n') = flags (Node_header n) ∧
  version (Node_header n') = version (Node_header n).

(** ** Growing and shrinking *)

(** What [add_child_growing] promises of the node it was called on. *)
Definition add_spec (n : Node) (key : Z) (child : SwizzledPtr)
    (out : Node * result (option Node) AddChildError) : Prop :=
  match out with
  | (n', Err e) => e = KeyExists ∧ is_Some (nd_map n !! key) ∧ n' = n
  | (n', Ok o) =>
      nd_map n !! key = None ∧ nd_wf (default n' o) ∧
      nd_map (default n' o) = <[key := child]> (nd_map n) ∧
      same_payload n (default n' o) ∧ (is_Some o → n' = n ∧ size (nd_map n) = nd_capacity n)
  end.

Definition remove_spec (n : Node) (key : Z) (out : Node * option (SwizzledPtr * option Node)) : Prop :=
  match out with
  | (n', None) => nd_map n !! key = None ∧ n' = n
  | (n', Some (c, o)) =>
      nd_map n !! key = Some c ∧ nd_wf (default n' o) ∧
      nd_map (default n' o) = delete key (nd_map n) ∧ same_payload n (default n' o)
  end.

Section tier.
Context {N M} `{ArtNodeLaws N} `{ArtNodeLaws M}.
Context (self : N → Node) (next : M → Node) (convert : N → exec M).
Context (Hself : ∀ n, nd_map (self n) = node_map n ∧ nd_wf (self n) = node_wf n ∧
  Node_header (self n) = header_of n ∧ Node_prefix (self n) = prefix_of n ∧
  nd_capacity (self n) = capacity (N := N)).
Context (Hnext : ∀ n, nd_map (next n) = node_map n ∧ nd_wf (next n) = node_wf n ∧
  Node_header (next n) = header_of n ∧ Node_prefix (next n) = prefix_of n ∧
  nd_capacity (next n) = capacity (N := M)).
Context (limit : nat).
Context (Hconvert : ∀ n, node_wf n → (size (node_map n) ≤ limit)%nat →
  ∃ m, convert n = Ret m ∧ node_wf m ∧ node_map m = node_map n ∧
    (∃ t, header_of m = set_node_type t (header_of n)) ∧ prefix_of m = prefix_of n).

Lemma add_or_grow_spec n key child :
  limit = capacity (N := N) → (capacity (N := N) < capacity (N := M))%nat →
  node_wf n → is_u8 key → is_null child = false →
  ∃ out, add_or_grow self next convert n key child = Ret out ∧ add_spec (self n) key child out.
Proof using All.
  intros -> Hcap Hwf Hkey Hlive. unfold add_or_grow, add_spec, same_payload.
  pose proof (Hself n) as (Hm & _ & Hh & Hp & Hc). rewrite law_full by done.
  case_bool_decide as Hfull.
  - destruct (Hconvert n Hwf) as (m & -> & Hwfm & Hmm & [t Hhm] & Hpm); [lia|]. simpl.
    destruct (law_add m key child Hwfm Hkey Hlive) as (m' & r & -> & Hr). simpl.
    pose proof (Hnext m') as (Hm' & Hw' & Hh' & Hp' & _).
    destruct r as [[]|[]]; eexists; (split; [reflexivity|]); simpl.
    + destruct Hr as (Hnone & Hwf' & Hmap & Hhead & Hpre).
      rewrite Hm, Hm', Hw', Hh', Hp', Hh, Hp, Hc, Hhead, Hhm, Hpre, Hmap. simpl.
      rewrite Hpm. split_and!; try done; by rewrite <-?Hmm.
    + exfalso. destruct Hr as [Hs _]. rewrite Hmm in Hs. lia.
    + rewrite Hm, <-Hmm. by destruct Hr.
  - destruct (law_add n key child Hwf Hkey Hlive) as (n' & r & -> & Hr). simpl.
    pose proof (Hself n') as (Hm' & Hw' & Hh' & Hp' & _).
    destruct r as [[]|[]]; eexists; (split; [reflexivity|]); simpl.
    + destruct Hr as (Hnone & Hwf' & Hmap & Hhead & Hpre).
      rewrite Hm, Hm', Hw', Hh', Hp', Hh, Hp, Hhead, Hpre, Hmap.
      split_and!; try done; by intros [??].
    + by destruct Hr.
    + rewrite Hm. by destruct Hr as [? ->].
Qed.

Lemma remove_or_shrink_spec n key :
  node_wf n → is_u8 key →
  ∃ out, remove_or_shrink self header_of next convert (Z.of_nat limit) n key = Ret out ∧
    remove_spec (self n) key out ∧
    (nd_map (self n) !! key ≠ None → ∃ n' c o, out = (n', Some (c, o)) ∧
      (is_Some o ↔ (size (delete key (nd_map (self n))) ≤ limit)%nat) ∧
      match o with Some s => ∃ m, s = next m | None => ∃ m, n' = self m end).
Proof using All.
  intros Hwf Hkey. unfold remove_or_shrink, remove_spec, same_payload.
  pose proof (Hself n) as (Hm & _ & Hh & Hp & _).
  destruct (law_remove n key Hwf Hkey) as (n' & -> & Hwf' & Hmap & Hpre & Hhead & Habs). simpl.
  pose proof (Hself n') as (Hm' & Hw' & Hh' & Hp' & _).
  rewrite Hm. destruct (node_map n !! key) as [c|] eqn:Hc.
  2:{ eexists. split; [reflexivity|]. split; [|done]. split; [done|]. by rewrite Habs. }
  rewrite Hhead. simpl. destruct (Z.leb_spec (Z.of_nat (size (delete key (node_map n))))
    (Z.of_nat limit)) as [Hle|Hgt].
  - destruct (Hconvert n' Hwf') as (m & -> & Hwfm & Hmm & [t Hhm] & Hpm); [rewrite Hmap; lia|].
    simpl. pose proof (Hnext m) as (Hmx & Hwx & Hhx & Hpx & _).
    eexists. split; [reflexivity|]. simpl.
    rewrite Hmx, Hwx, Hhx, Hpx, Hmm, Hmap, Hpm, Hpre, Hhm, Hhead, Hp, Hh.
    split; [done|]. intros _. eexists _, _, _. split; [reflexivity|].
    split; [|eauto]. split; [intros _; lia|eauto].
  - eexists. split; [reflexivity|]. simpl.
    rewrite Hm', Hw', Hh', Hp', Hmap, Hpre, Hhead, Hp, Hh.
    split; [done|]. intros _. eexists _, _, _. split; [reflexivity|].
    split; [|eauto]. split; [by intros [??]|lia].
Qed.
End tier.

Section enum.
Context {features : TargetFeatures}.

Lemma nd_count n : nd_wf n → num_children (Node_header n) = Z.of_nat (size (nd_map n)).
Proof.
  destruct n as [n|n|n|n]; simpl; [apply n4_wf_count|apply n16_wf_count|apply n48_wf_count|].
  by intros (_ & _ & ?).
Qed.

Lemma nd_grow_spec n :
  nd_wf n →
  match n with
  | N256 _ => Node_grow n = Ret None
  | _ => ∃ g, Node_grow n = Ret (Some g) ∧ nd_wf g ∧ nd_map g = nd_map n ∧ same_payload n g ∧
           (nd_capacity n < nd_capacity g)%nat
  end.
Proof.
  destruct n as [n|n|n|n]; simpl; intros Hwf; try done.
  - destruct (Node4_grow_spec n Hwf) as (g & -> & ? & ? & Hh & Hp). exists (N16 g).
    unfold same_payload. simpl. rewrite Hh, Hp. split_and!; try done.
    unfold NODE4_MAX_CHILDREN, NODE16_MAX_CHILDREN. lia.
  - destruct (Node16_grow_spec n Hwf) as (g & -> & ? & ? & Hh & Hp). exists (N48 g).
    unfold same_payload. simpl. rewrite Hh, Hp. split_and!; try done.
    unfold NODE48_MAX_CHILDREN, NODE16_MAX_CHILDREN. lia.
  - destruct (Node48_grow_spec n Hwf) as (g & -> & ? & ? & Hh & Hp). exists (N256 g).
    unfold same_payload. simpl. rewrite Hh, Hp. split_and!; try done.
    unfold NODE48_MAX_CHILDREN, NODE256_MAX_CHILDREN. lia.
Qed.

Lemma add_growing_ok n key child :
  nd_wf n → is_u8 key → is_null child = false →
  ∃ out, add_child_growing n key child = Ret out ∧ add_spec n key child out.
Proof.
  intros Hwf Hkey Hlive. destruct n as [n|n|n|n]; unfold add_child_growing.
  - apply (add_or_grow_spec N4 N16 Node4_grow) with (limit := NODE4_MAX_CHILDREN);
      try done; [|unfold capacity; simpl; unfold NODE4_MAX_CHILDREN, NODE16_MAX_CHILDREN; lia].
    intros m Hm _. destruct (Node4_grow_spec m Hm) as (g & ? & ? & ? & ? & ?). exists g. eauto 8.
  - apply (add_or_grow_spec N16 N48 Node16_grow) with (limit := NODE16_MAX_CHILDREN);
      try done; [|unfold capacity; simpl; unfold NODE16_MAX_CHILDREN, NODE48_MAX_CHILDREN; lia].
    intros m Hm _. destruct (Node16_grow_spec m Hm) as (g & ? & ? & ? & ? & ?). exists g. eauto 8.
  - apply (add_or_grow_spec N48 N256 Node48_grow) with (limit := NODE48_MAX_CHILDREN);
      try done; [|unfold capacity; simpl; unfold NODE256_MAX_CHILDREN, NODE48_MAX_CHILDREN; lia].
    intros m Hm _. destruct (Node48_grow_spec m Hm) as (g & ? & ? & ? & ? & ?). exists g. eauto 8.
  - destruct (Node256_add_refines n key child Hwf Hkey Hlive) as (n' & r & Hadd & Hr).
    unfold add_child, Node256_ArtNode. rewrite Hadd. simpl.
    destruct r as [[]|[]]; [|done|].
    + eexists. split; [reflexivity|]. destruct Hr as (? & ? & ? & Hh & Hp).
      unfold add_spec, same_payload. simpl. rewrite Hh, Hp. split_and!; try done; by intros [??].
    + eexists. split; [reflexivity|]. by destruct Hr as [? ->].
Qed.

(** The child count at or below which a node type is too wide. *)
Definition shrink_limit (n : Node) : option nat :=
  match n with
  | N4 _ => None
  | N16 _ => Some NODE4_MAX_CHILDREN
  | N48 _ => Some NODE16_MAX_CHILDREN
  | N256 _ => Some NODE48_MAX_CHILDREN
  end.

Lemma should_shrink_spec n :
  nd_wf n →
  Node_should_shrink n =
    from_option (λ limit, bool_decide (size (nd_map n) ≤ limit)%nat) false (shrink_limit n).
Proof.
  intros Hwf. pose proof (nd_count n Hwf) as Hc. destruct n as [n|n|n|n]; simpl in *; [done|..];
    rewrite Hc; unfold NODE4_MAX_CHILDREN, NODE16_MAX_CHILDREN, NODE48_MAX_CHILDREN;
    dict_case; done || lia.
Qed.

(** What one removal leaves: the map without the key, in a node that is not too
    wide unless it was before. *)
Definition remove_tight (n : Node) (out : Node * option (SwizzledPtr * option Node)) : Prop :=
  match out with
  | (_, None) => True
  | (n', Some (_, o)) => Node_should_shrink n = false → Node_should_shrink (default n' o) = false
  end.

Lemma size_delete_present (m : gmap Z SwizzledPtr) k c :
  m !! k = Some c → size m = S (size (delete k m)).
Proof.
  intros Hk. rewrite map_size_delete_Some by eauto.
  assert (size m ≠ 0%nat) by (apply map_size_ne_0_lookup; eauto). lia.
Qed.

(** One arm of [remove_child_shrinking] for a node whose smaller type [next]
    holds [limit] children. *)
Lemma remove_arm_ok {N M} `{ArtNodeLaws N} `{ArtNodeLaws M} (self : N → Node) (next : M → Node)
    (convert : N → exec M) (limit lower : nat) n key :
  (∀ n, nd_map (self n) = node_map n ∧ nd_wf (self n) = node_wf n ∧
    Node_header (self n) = header_of n ∧ Node_prefix (self n) = prefix_of n ∧
    nd_capacity (self n) = capacity (N := N)) →
  (∀ n, nd_map (next n) = node_map n ∧ nd_wf (next n) = node_wf n ∧
    Node_header (next n) = header_of n ∧ Node_prefix (next n) = prefix_of n ∧
    nd_capacity (next n) = capacity (N := M)) →
  (∀ n, node_wf n → (size (node_map n) ≤ limit)%nat →
    ∃ m, convert n = Ret m ∧ node_wf m ∧ node_map m = node_map n ∧
      (∃ t, header_of m = set_node_type t (header_of n)) ∧ prefix_of m = prefix_of n) →
  (∀ n, shrink_limit (self n) = Some limit) →
  (∀ m, shrink_limit (next m) = None ∨ shrink_limit (next m) = Some lower) →
  (lower < limit)%nat → node_wf n → is_u8 key →
  ∃ out, remove_or_shrink self header_of next convert (Z.of_nat limit) n key = Ret out ∧
    remove_spec (self n) key out ∧ remove_tight (self n) out.
Proof.
  intros Hself Hnext Hconv Hlimit Hlower Hlt Hwf Hkey.
  destruct (remove_or_shrink_spec self next convert Hself Hnext limit Hconv n key Hwf Hkey)
    as (out & Hrun & Hspec & Htight).
  exists out. split_and!; [done|done|]. unfold remove_tight.
  destruct out as [n' [[c o]|]]; [|done]. destruct Hspec as (Hc & Hwf' & Hmap & _).
  assert (nd_wf (self n)) as Hwfs by (by destruct (Hself n) as (_ & -> & _)).
  destruct Htight as (n'' & c' & o' & [= <- <- <-] & Ho & Hshape); [by rewrite Hc|].
  rewrite should_shrink_spec, should_shrink_spec, Hlimit, Hmap by done. simpl.
  intros Hbefore%bool_decide_eq_false. pose proof (size_delete_present _ _ _ Hc) as Hsize.
  destruct o as [s|]; simpl in *.
  - destruct Hshape as [m ->]. destruct (Hlower m) as [->| ->]; simpl; [done|].
    apply bool_decide_eq_false. lia.
  - destruct Hshape as [m ->]. rewrite Hlimit. simpl. apply bool_decide_eq_false.
    intros Hle. apply Ho in Hle as [??]. done.
Qed.

Lemma remove_shrinking_ok n key :
  nd_wf n → is_u8 key →
  ∃ out, remove_child_shrinking n key = Ret out ∧ remove_spec n key out ∧ remove_tight n out.
Proof.
  intros Hwf Hkey. destruct n as [n|n|n|n]; unfold remove_child_shrinking.
  - destruct (Node4_remove_refines n key Hwf Hkey) as (n' & Hrun & Hwf' & Hmap & Hp & Hh & Habs).
    unfold remove_child, Node4_ArtNode. rewrite Hrun. simpl.
    eexists. split; [reflexivity|]. unfold remove_spec, remove_tight, same_payload.
    destruct (n4_map n !! key) as [c|] eqn:Hc; simpl; rewrite ?Hh, ?Hp, ?Habs by done; done.
  - pose proof (remove_arm_ok N16 N4 Node16_shrink NODE4_MAX_CHILDREN 0 n key) as Harm. apply Harm; try done; clear Harm;
      [|by left|unfold NODE4_MAX_CHILDREN; lia].
    intros m Hm Hle. destruct (Node16_shrink_spec m Hm) as (g & ? & ? & ? & ? & ?);
      [|exists g; eauto 8].
    destruct Hm as [_ Hok]. by rewrite <-(slots_map_size _ _ _ _ Hok).
  - pose proof (remove_arm_ok N48 N16 Node48_shrink NODE16_MAX_CHILDREN NODE4_MAX_CHILDREN n key) as Harm. apply Harm; try done; clear Harm;
      [|by right|unfold NODE4_MAX_CHILDREN, NODE16_MAX_CHILDREN; lia].
    intros m Hm Hle. destruct (Node48_shrink_spec m Hm) as (g & ? & ? & ? & ? & ?);
      [|exists g; eauto 8].
    destruct Hm as [_ Hok]. by rewrite <-(ix_size _ _ _ Hok).
  - pose proof (remove_arm_ok N256 N48 Node256_shrink NODE48_MAX_CHILDREN NODE16_MAX_CHILDREN n key) as Harm. apply Harm; try done; clear Harm;
      [|by right|unfold NODE48_MAX_CHILDREN, NODE16_MAX_CHILDREN; lia].
    intros m Hm Hle. destruct (Node256_shrink_spec m Hm) as (g & ? & ? & ? & ? & ?);
      [|exists g; eauto 8].
    destruct Hm as (_ & _ & Hcount). unfold n256_count. by rewrite Hcount, Nat2Z.id.
Qed.
End enum.

(** ** Properties *)

(** Lookups of every node type are map lookups.  On a well-formed node,
    [find_child] returns the child the map holds for the key, writing through
    [find_child_mut] updates exactly that entry (and is refused for an absent
    key), [iter_children] lists the map in increasing key order, and [is_full]
    and [num_children] agree with its size: none of them panics, whichever of
    the four types the node has and whether or not the build uses SSE4.1. *)
Theorem node_lookup_refines `{features : TargetFeatures} n key c :
  nd_wf n → is_u8 key → is_null c = false →
  Node_find_child n key = Ret (nd_map n !! key) ∧
  (match nd_map n !! key with
   | None => Node_find_child_mut n key c = Ret None
   | Some _ => ∃ n', Node_find_child_mut n key c = Ret (Some n') ∧ nd_wf n' ∧
                 nd_map n' = <[key := c]> (nd_map n) ∧ same_payload n n'
   end) ∧
  (∃ l, Node_iter_children n = Ret l ∧ StronglySorted Z.lt l.*1 ∧ list_to_map l = nd_map n) ∧
  Node_is_full n = bool_decide (size (nd_map n) = nd_capacity n) ∧
  Node_num_children n = size (nd_map n).
Proof.
  intros Hwf Hkey Hc. pose proof (nd_count n Hwf) as Hcount.
  assert (Node_num_children n = size (nd_map n)) as Hnum
    by (unfold Node_num_children; rewrite Hcount; apply Nat2Z.id).
  destruct n as [n|n|n|n]; simpl in *.
  all: pose proof (law_find n key Hwf Hkey) as Hfind; pose proof (law_full n Hwf) as Hfull;
    pose proof (law_iter n Hwf) as Hiter; pose proof (law_find_mut n key c Hwf Hkey Hc) as Hmut;
    split_and!; [exact Hfind| |exact Hiter|exact Hfull|exact Hnum]; simpl in Hmut.
  all: case_match; [|by rewrite Hmut]; destruct Hmut as (n' & -> & Hwf' & Hmap & Hh & Hp);
    eexists; split; [reflexivity|]; split_and!; [exact Hwf'|exact Hmap|];
    unfold same_payload; simpl; by rewrite Hh, Hp.
Qed.

Lemma node_lookup_refines_witness :
  let n := Node_new_node48 in
  (Node_find_child (features := true) n 97 = Ret (nd_map n !! 97)) ∧
  Node_num_children n = size (nd_map n).
Proof.
  intros n.
  destruct (node_lookup_refines (features := true) n 97 (from_raw 5)) as (H1 & _ & _ & _ & H2);
    [apply Node48_new_wf|vm_compute; split; congruence|reflexivity|].
  exact (conj H1 H2).
Defined.

(** Insertion with growth.  [add_child_growing] never panics and never
    reports a full node: it fails exactly when the key is present, with
    [KeyExists] and the node unchanged; otherwise the node to keep (the grown
    copy when one is returned, which happens only on a full node) is
    well-formed, holds the old entries plus the new one, and has the old
    prefix, flags and version. *)
Theorem add_child_growing_refines `{features : TargetFeatures} n key child :
  nd_wf n → is_u8 key → is_null child = false →
  ∃ out, add_child_growing n key child = Ret out ∧ add_spec n key child out.
Proof. apply add_growing_ok. Qed.

(** The five-child node that a full [Node4] grows into. *)
Lemma add_child_growing_refines_witness :
  let ptr z := from_raw z in
  let full := mkNode4 (set_num_children 4 (NodeHeader_new 4)) CompressedPrefix_empty
                [1; 2; 3; 4] [ptr 11; ptr 12; ptr 13; ptr 14] in
  ∃ out, add_child_growing (features := true) (N4 full) 0 (ptr 10) = Ret out ∧
    add_spec (N4 full) 0 (ptr 10) out.
Proof.
  intros ptr full.
  apply (add_child_growing_refines (features := true) (N4 full) 0 (ptr 10));
    [|vm_compute; split; congruence|reflexivity].
  apply (add_children_wf (H0 := Node4_laws) Node4_new full
    [(1, ptr 11); (2, ptr 12); (3, ptr 13); (4, ptr 14)]);
    [apply Node4_new_wf|repeat constructor; vm_compute; congruence|reflexivity].
Defined.

(** Removal with shrinking.  [remove_child_shrinking] never panics; it
    returns [None] exactly when the key is absent, leaving the node as it was,
    and otherwise returns the child of the key together with the node to keep,
    which holds the other entries and the old prefix, flags and version.  A
    node that was not too wide for its children is not too wide afterwards. *)
Theorem remove_child_shrinking_refines `{features : TargetFeatures} n key :
  nd_wf n → is_u8 key →
  ∃ out, remove_child_shrinking n key = Ret out ∧ remove_spec n key out ∧ remove_tight n out.
Proof. apply remove_shrinking_ok. Qed.

Lemma remove_child_shrinking_refines_witness :
  let n := mkNode16 (set_num_children 2 (NodeHeader_new 16)) CompressedPrefix_empty
             ([0; 7] ++ replicate 14 0)
             ([from_raw 1; from_raw 2] ++ replicate 14 null) in
  ∃ out, remove_child_shrinking (features := false) (N16 n) 0 = Ret out ∧
    remove_spec (N16 n) 0 out ∧ remove_tight (N16 n) out.
Proof.
  intros n. apply (remove_child_shrinking_refines (features := false) (N16 n) 0);
    [|vm_compute; split; congruence].
  apply (add_children_wf (H0 := Node16_laws (features := false)) Node16_new n
           [(0, from_raw 1); (7, from_raw 2)]);
    [apply Node16_new_wf|repeat constructor; vm_compute; congruence|reflexivity].
Defined.

(** Growing and shrinking keep the map.  [grow] of every type but the
    largest returns a strictly larger well-formed node with the same entries,
    prefix, flags and version; [shrink] does the same downwards for every node
    that [should_shrink]; the ends of the scale return [None]. *)
Theorem grow_shrink_preserve n :
  nd_wf n →
  (match n with
   | N256 _ => Node_grow n = Ret None
   | _ => ∃ g, Node_grow n = Ret (Some g) ∧ nd_wf g ∧ nd_map g = nd_map n ∧ same_payload n g ∧
            (nd_capacity n < nd_capacity g)%nat
   end) ∧
  (Node_should_shrink n = true →
   ∃ s, Node_shrink n = Ret (Some s) ∧ nd_wf s ∧ nd_map s = nd_map n ∧ same_payload n s ∧
     (nd_capacity s < nd_capacity n)%nat).
Proof.
  intros Hwf. split; [by apply nd_grow_spec|]. rewrite should_shrink_spec by done.
  destruct n as [n|n|n|n]; simpl; [done|..]; intros Hle%bool_decide_eq_true;
    pose proof (nd_count _ Hwf) as Hcount; simpl in Hcount, Hwf.
  - destruct (Node16_shrink_spec n Hwf) as (g & -> & ? & ? & Hh & Hp); [unfold n16_count; lia|].
    exists (N4 g). unfold same_payload. simpl. rewrite Hh, Hp. split_and!; try done.
    unfold NODE4_MAX_CHILDREN, NODE16_MAX_CHILDREN. lia.
  - destruct (Node48_shrink_spec n Hwf) as (g & -> & ? & ? & Hh & Hp); [unfold n48_count; lia|].
    exists (N16 g). unfold same_payload. simpl. rewrite Hh, Hp. split_and!; try done.
    unfold NODE48_MAX_CHILDREN, NODE16_MAX_CHILDREN. lia.
  - destruct (Node256_shrink_spec n Hwf) as (g & -> & ? & ? & Hh & Hp); [unfold n256_count; lia|].
    exists (N48 g). unfold same_payload. simpl. rewrite Hh, Hp. split_and!; try done.
    unfold NODE48_MAX_CHILDREN, NODE256_MAX_CHILDREN. lia.
Qed.

Lemma grow_shrink_preserve_witness :
  Node_should_shrink Node_new_node256 = true ∧
  ∃ s, Node_shrink Node_new_node256 = Ret (Some s) ∧ nd_map s = nd_map Node_new_node256.
Proof.
  split; [reflexivity|].
  destruct (proj2 (grow_shrink_preserve Node_new_node256 (proj1 Node256_new_wf)))
    as (s & H1 & _ & H2 & _); [reflexivity|].
  exists s. exact (conj H1 H2).
Defined.

(** ** Sequences of updates *)

Inductive NodeOp : Type :=
| OpAdd (key : Z) (child : SwizzledPtr)
| OpRemove (key : Z).

Inductive NodeRes : Type :=
| ResAdd (r : result unit AddChildError)
| ResRemove (r : option SwizzledPtr).

(** A caller that keeps the node it gets back, when it gets one. *)
Definition node_step `{features : TargetFeatures} (n : Node) (op : NodeOp) : exec (Node * NodeRes) :=
  match op with
  | OpAdd key child =>
      '(n, r) ← add_child_growing n key child;
      match r with
      | Ok o => Ret (default n o, ResAdd (Ok tt))
      | Err e => Ret (n, ResAdd (Err e))
      end
  | OpRemove key =>
      '(n, r) ← remove_child_shrinking n key;
      match r with
      | Some (c, o) => Ret (default n o, ResRemove (Some c))
      | None => Ret (n, ResRemove None)
      end
  end.

Fixpoint node_run `{features : TargetFeatures} (n : Node) (ops : list NodeOp) : exec (Node * list NodeRes) :=
  match ops with
  | [] => Ret (n, [])
  | op :: ops =>
      '(n, r) ← node_step n op; '(n, rs) ← node_run n ops; Ret (n, r :: rs)
  end.

(** The specification: the same updates on a finite map. *)
Definition map_step (m : gmap Z SwizzledPtr) (op : NodeOp) : gmap Z SwizzledPtr * NodeRes :=
  match op with
  | OpAdd key child =>
      match m !! key with
      | Some _ => (m, ResAdd (Err KeyExists))
      | None => (<[key := child]> m, ResAdd (Ok tt))
      end
  | OpRemove key => (delete key m, ResRemove (m !! key))
  end.

Fixpoint map_run (m : gmap Z SwizzledPtr) (ops : list NodeOp) :
    gmap Z SwizzledPtr * list NodeRes :=
  match ops with
  | [] => (m, [])
  | op :: ops => let '(m, r) := map_step m op in let '(m, rs) := map_run m ops in (m, r :: rs)
  end.

Definition op_ok (op : NodeOp) : Prop :=
  match op with
  | OpAdd key child => is_u8 key ∧ is_null child = false
  | OpRemove key => is_u8 key
  end.

(** Right-sized: [should_shrink] is false. *)
Definition nd_tight (n : Node) : Prop := nd_wf n ∧ Node_should_shrink n = false.

Lemma add_tight `{features : TargetFeatures} n key child n' o :
  nd_tight n → is_u8 key → is_null child = false →
  add_child_growing n key child = Ret (n', Ok o) → Node_should_shrink (default n' o) = false.
Proof.
  intros [Hwf Htight] Hkey Hlive Hrun.
  destruct (add_growing_ok n key child Hwf Hkey Hlive) as (out & E & Hspec).
  rewrite Hrun in E. injection E as <-. destruct Hspec as (Hnone & Hwf' & Hmap & _ & Hgrown).
  rewrite should_shrink_spec in Htight |- * by done.
  rewrite Hmap, map_size_insert_None by done.
  assert (shrink_limit (default n' o) = match o with Some _ => Some (nd_capacity n)
    | None => shrink_limit n end ∧ (is_Some o → size (nd_map n) = nd_capacity n)) as [Hlim Hsize].
  { split; [|intros Ho; by apply Hgrown]. clear -Hrun features. destruct n as [n|n|n|n];
      unfold add_child_growing, add_or_grow in Hrun;
      repeat (case_match; simplify_option_eq); done. }
  rewrite Hlim. destruct o as [g|]; simpl.
  - apply bool_decide_eq_false. rewrite Hsize by eauto. lia.
  - destruct (shrink_limit n); simpl in *; [|done].
    apply bool_decide_eq_false in Htight. apply bool_decide_eq_false. lia.
Qed.

(** C1: any sequence of insertions and removals.  Starting from the empty
    [Node4] and always keeping the node the call returns, every sequence of
    [add_child_growing] and [remove_child_shrinking] calls runs without panic
    and returns what the same updates of a finite map return, and the node at
    the end holds that map, well-formed and never wider than its type allows. *)
Theorem node_run_refines_map `{features : TargetFeatures} ops :
  Forall op_ok ops →
  ∃ n, node_run Node_new_node4 ops = Ret (n, (map_run ∅ ops).2) ∧
    nd_map n = (map_run ∅ ops).1 ∧ nd_tight n.
Proof.
  intros Hops. assert (∀ n, nd_tight n →
    ∃ n', node_run n ops = Ret (n', (map_run (nd_map n) ops).2) ∧
      nd_map n' = (map_run (nd_map n) ops).1 ∧ nd_tight n') as Hgen.
  { induction Hops as [|op ops Hop _ IH]; intros n Hn; simpl; [eauto|].
    assert (∃ n1, node_step n op = Ret (n1, (map_step (nd_map n) op).2) ∧
      nd_map n1 = (map_step (nd_map n) op).1 ∧ nd_tight n1) as (n1 & -> & Hmap & Hn1).
    { pose proof Hn as [Hwf Htight]. destruct op as [key child|key]; simpl in Hop |- *.
      - destruct Hop as [Hkey Hlive].
        destruct (add_growing_ok n key child Hwf Hkey Hlive) as ([n' [o|e]] & Hrun & Hspec);
          rewrite Hrun; simpl.
        + pose proof (add_tight n key child n' o Hn Hkey Hlive Hrun) as Ht.
          destruct Hspec as (Hnone & Hwf' & Hmap & _). rewrite Hnone. by eexists.
        + destruct Hspec as (-> & [c Hc] & ->). rewrite Hc. by eexists.
      - destruct (remove_shrinking_ok n key Hwf Hop) as ([n' [[c o]|]] & -> & Hspec & Ht); simpl.
        + destruct Hspec as (Hc & Hwf' & Hmap & _). rewrite Hc. eexists. split; [done|].
          split; [done|]. split; [done|]. by apply Ht.
        + destruct Hspec as [Hnone ->]. rewrite Hnone. eexists. split; [done|].
          by rewrite delete_id. }
    simpl. destruct (map_step (nd_map n) op) as [m r]. simpl in *. subst m.
    destruct (IH n1 Hn1) as (n2 & -> & ? & ?). simpl.
    destruct (map_run (nd_map n1) ops) as [m rs]. by exists n2. }
  replace ∅ with (nd_map Node_new_node4) by apply Node4_new_wf.
  apply Hgen. split; [apply Node4_new_wf|done].
Qed.

Lemma node_run_refines_map_witness :
  let ops := [OpAdd 9 (from_raw 1); OpAdd 3 (from_raw 2); OpAdd 9 (from_raw 3); OpRemove 4] in
  Forall op_ok ops ∧
  ∃ n, node_run (features := true) Node_new_node4 ops = Ret (n, (map_run ∅ ops).2) ∧
    nd_map n = (map_run ∅ ops).1 ∧ nd_tight n.
Proof.
  intros ops. assert (Forall op_ok ops) as Hops.
  { repeat constructor; vm_compute; congruence. }
  split; [exact Hops|]. apply (node_run_refines_map (features := true) ops). exact Hops.
Defined.
