(* ===== verification/Bytes.v ===== *)
(** * Byte strings

    Little-endian integers and slices, as the on-disk formats use them:
    [x.to_le_bytes()], [uN::from_le_bytes(..)], [&buf[a..b]]. *)

From stdpp Require Import prelude gmap.
From S2P Require Import Prelude.
Local Open Scope Z_scope.

(** [l.len()] *)
Definition zlen {A} (l : list A) : Z := Z.of_nat (length l).

(** [&l[a..b]]: panics unless [a <= b <= len]. *)
Definition slice {A} (l : list A) (a b : Z) : exec (list A) :=
  if decide (0 ≤ a ∧ a ≤ b ∧ b ≤ zlen l)
  then Ret (take (Z.to_nat (b - a)) (drop (Z.to_nat a) l)) else Panic.

(** [l[i]] *)
Definition index {A} (l : list A) (i : Z) : exec A :=
  if decide (0 ≤ i < zlen l) then l !! Z.to_nat i else Panic.

(** [z.to_le_bytes()] of an [n]-byte integer; a signed integer is taken modulo
    [2^(8n)]. *)
Fixpoint to_le_bytes (n : nat) (z : Z) : list Z :=
  match n with
  | O => []
  | S n => z mod 256 :: to_le_bytes n (z / 256)
  end.

(** [uN::from_le_bytes(bs)] *)
Fixpoint from_le_bytes (bs : list Z) : Z :=
  match bs with
  | [] => 0
  | b :: bs => b + 256 * from_le_bytes bs
  end.

(** [uN::from_le_bytes(buf[off..off + n].try_into().unwrap())] *)
Definition get_le (n : nat) (buf : list Z) (off : Z) : exec Z :=
  bs ← slice buf off (off + Z.of_nat n); Ret (from_le_bytes bs).

Definition get_u32 (buf : list Z) (off : Z) : exec Z := get_le 4 buf off.
Definition get_u64 (buf : list Z) (off : Z) : exec Z := get_le 8 buf off.
Definition get_i64 (buf : list Z) (off : Z) : exec Z := z ← get_le 8 buf off; Ret (i64 z).

(** ** Lengths *)

Lemma zlen_app {A} (a b : list A) : zlen (a ++ b) = zlen a + zlen b.
Proof. unfold zlen. rewrite length_app. lia. Qed.
Lemma zlen_cons {A} (x : A) l : zlen (x :: l) = 1 + zlen l.
Proof. unfold zlen. simpl. lia. Qed.
Lemma zlen_nil {A} : zlen (@nil A) = 0.
Proof. done. Qed.
Lemma zlen_nonneg {A} (l : list A) : 0 ≤ zlen l.
Proof. unfold zlen. lia. Qed.

Lemma length_to_le_bytes n z : length (to_le_bytes n z) = n.
Proof. revert z. induction n as [|n IH]; intros z; simpl; [done|by rewrite IH]. Qed.
Lemma zlen_to_le_bytes n z : zlen (to_le_bytes n z) = Z.of_nat n.
Proof. unfold zlen. by rewrite length_to_le_bytes. Qed.

(** Normal form of a length: the hint database rewrites a [zlen] of a
    concatenation into a sum, on which [lia] decides the format's offsets. *)
#[export] Hint Rewrite @zlen_app @zlen_cons @zlen_nil zlen_to_le_bytes : zlen.
Ltac zlen_simpl := autorewrite with zlen in *.
Ltac zlen_pos :=
  repeat match goal with
    | |- context [zlen ?l] => lazymatch goal with
        | _ : 0 ≤ zlen l |- _ => fail
        | _ => pose proof (zlen_nonneg l)
        end
    | _ : context [zlen ?l] |- _ => lazymatch goal with
        | _ : 0 ≤ zlen l |- _ => fail
        | _ => pose proof (zlen_nonneg l)
        end
    end.
Ltac zlen_lia := autorewrite with zlen in *; zlen_pos; lia.

(** ** Round trips *)

Lemma to_le_bytes_bytes n z : is_bytes (to_le_bytes n z).
Proof.
  revert z. induction n as [|n IH]; intros z; simpl; constructor; [|apply IH].
  unfold is_u8. pose proof (Z.mod_pos_bound z 256). lia.
Qed.

Lemma from_to_le_bytes n z : from_le_bytes (to_le_bytes n z) = z mod 2 ^ (8 * Z.of_nat n).
Proof.
  revert z. induction n as [|n IH]; intros z; [by rewrite Z.mod_1_r|]. simpl to_le_bytes.
  simpl from_le_bytes. rewrite IH. replace (8 * Z.of_nat (S n)) with (8 + 8 * Z.of_nat n) by lia.
  rewrite Z.pow_add_r by lia. change (2 ^ 8) with 256.
  rewrite Z.rem_mul_r by lia. lia.
Qed.

Lemma from_le_bytes_range bs :
  is_bytes bs → 0 ≤ from_le_bytes bs < 2 ^ (8 * zlen bs).
Proof.
  intros Hbs. induction Hbs as [|b bs Hb _ IH]; simpl; [by vm_compute|].
  rewrite zlen_cons. replace (8 * (1 + zlen bs)) with (8 + 8 * zlen bs) by lia.
  rewrite Z.pow_add_r by (pose proof (zlen_nonneg bs); lia). unfold is_u8 in Hb. lia.
Qed.

Lemma to_from_le_bytes bs : is_bytes bs → to_le_bytes (length bs) (from_le_bytes bs) = bs.
Proof.
  intros Hbs. induction Hbs as [|b bs Hb _ IH]; simpl; [done|]. unfold is_u8 in Hb. f_equal.
  - rewrite (Z.mul_comm 256), Z.mod_add by lia. apply Z.mod_small. lia.
  - rewrite (Z.mul_comm 256), Z.div_add, (Z.div_small b) by lia. by rewrite Z.add_0_l.
Qed.

(** ** Reading what a buffer holds *)

(** [x] lies in [buf] at offset [off]. *)
Definition holds {A} (buf : list A) (off : Z) (x : list A) : Prop :=
  ∃ pre post, buf = pre ++ x ++ post ∧ off = zlen pre.

Lemma holds_prefix {A} (x post : list A) : holds (x ++ post) 0 x.
Proof. by exists [], post. Qed.

Lemma holds_app {A} (buf : list A) off x y :
  holds buf off (x ++ y) → holds buf off x ∧ holds buf (off + zlen x) y.
Proof.
  intros (pre & post & -> & ->). split.
  - exists pre, (y ++ post). by rewrite <-!app_assoc.
  - exists (pre ++ x), post. rewrite zlen_app, <-!app_assoc. done.
Qed.

Lemma holds_cons {A} (buf : list A) off x y :
  holds buf off (x :: y) → holds buf off [x] ∧ holds buf (off + 1) y.
Proof. intros H. by apply (holds_app buf off [x] y) in H. Qed.

Lemma holds_bound {A} (buf : list A) off x :
  holds buf off x → 0 ≤ off ∧ off + zlen x ≤ zlen buf.
Proof. intros (pre & post & -> & ->). zlen_lia. Qed.

Lemma holds_slice {A} (buf : list A) off x e :
  holds buf off x → e = off + zlen x → slice buf off e = Ret x.
Proof.
  intros (pre & post & -> & ->) ->. unfold slice. rewrite decide_True by zlen_lia.
  f_equal. rewrite Z.add_simpl_l. unfold zlen. rewrite !Nat2Z.id, drop_app_length.
  by rewrite take_app_length.
Qed.

Lemma holds_index {A} (buf : list A) off x : holds buf off [x] → index buf off = Ret x.
Proof.
  intros (pre & post & -> & ->). unfold index. rewrite decide_True by zlen_lia.
  unfold zlen. rewrite Nat2Z.id. by apply list_lookup_middle.
Qed.

Lemma holds_get_le n buf off z :
  holds buf off (to_le_bytes n z) → get_le n buf off = Ret (z mod 2 ^ (8 * Z.of_nat n)).
Proof.
  intros H. unfold get_le. erewrite holds_slice; [|done|by rewrite zlen_to_le_bytes].
  simpl. by rewrite from_to_le_bytes.
Qed.

Lemma holds_u32 buf off z : is_u32 z → holds buf off (to_le_bytes 4 z) → get_u32 buf off = Ret z.
Proof. intros Hz H. unfold get_u32. erewrite holds_get_le by done. f_equal. by apply u32_id. Qed.
Lemma holds_u64 buf off z : is_u64 z → holds buf off (to_le_bytes 8 z) → get_u64 buf off = Ret z.
Proof. intros Hz H. unfold get_u64. erewrite holds_get_le by done. f_equal. by apply u64_id. Qed.
Lemma holds_i64 buf off z : is_i64 z → holds buf off (to_le_bytes 8 z) → get_i64 buf off = Ret z.
Proof.
  intros Hz H. unfold get_i64. erewrite holds_get_le by done. simpl. f_equal.
  unfold i64. rewrite Zplus_mod_idemp_l. by apply i64_id.
Qed.

(** ** Reads that succeed *)

Lemma slice_Some {A} (l x : list A) a b :
  slice l a b = Ret x → 0 ≤ a ∧ a ≤ b ∧ b ≤ zlen l ∧ zlen x = b - a.
Proof.
  unfold slice. case_decide; [|done]. intros [= <-]. unfold zlen in *.
  rewrite length_take, length_drop. lia.
Qed.

Lemma slice_total {A} (l : list A) a b : 0 ≤ a → a ≤ b → b ≤ zlen l → ∃ x, slice l a b = Ret x.
Proof. intros. unfold slice. rewrite decide_True by done. eauto. Qed.

Lemma index_total {A} (l : list A) i : 0 ≤ i < zlen l → ∃ x, index l i = Ret x.
Proof.
  intros. unfold index. rewrite decide_True by done. apply lookup_lt_is_Some_2. unfold zlen in *. lia.
Qed.

Lemma get_le_total n buf off :
  0 ≤ off → off + Z.of_nat n ≤ zlen buf → ∃ z, get_le n buf off = Ret z.
Proof.
  intros. unfold get_le. destruct (slice_total buf off (off + Z.of_nat n)) as [x ->]; [lia..|].
  simpl. eauto.
Qed.

(** A read that succeeds gives the same on a longer buffer. *)
Lemma slice_extend {A} (l j x : list A) a b : slice l a b = Ret x → slice (l ++ j) a b = Ret x.
Proof.
  intros H. pose proof (slice_Some _ _ _ _ H) as (? & ? & ? & ?). revert H. unfold slice.
  rewrite !decide_True by (rewrite ?zlen_app; pose proof (zlen_nonneg j); lia).
  intros [= <-]. f_equal. unfold zlen in *.
  rewrite drop_app_le, take_app_le by (rewrite ?length_drop; lia). done.
Qed.

Lemma index_extend {A} (l j : list A) i x : index l i = Ret x → index (l ++ j) i = Ret x.
Proof.
  unfold index. case_decide as Hi; [|done]. intros Hx.
  rewrite decide_True by (rewrite zlen_app; pose proof (zlen_nonneg j); lia).
  by apply lookup_app_l_Some.
Qed.

Lemma get_le_extend n l j off z : get_le n l off = Ret z → get_le n (l ++ j) off = Ret z.
Proof.
  unfold get_le. destruct (slice l _ _) as [bs|] eqn:E; simpl; [|done].
  by rewrite (slice_extend _ _ _ _ _ E).
Qed.

(** ** Adjacent slices *)

Lemma slice_cat {A} (l x y : list A) a b c :
  slice l a b = Ret x → slice l b c = Ret y → slice l a c = Ret (x ++ y).
Proof.
  intros Hx Hy. pose proof (slice_Some _ _ _ _ Hx) as (? & ? & ? & ?).
  pose proof (slice_Some _ _ _ _ Hy) as (? & ? & ? & ?). revert Hx Hy. unfold slice.
  rewrite !decide_True by lia. intros [= <-] [= <-]. f_equal.
  replace (Z.to_nat (c - a)) with (Z.to_nat (b - a) + Z.to_nat (c - b))%nat by lia.
  rewrite <-take_take_drop, drop_drop. do 3 f_equal. lia.
Qed.

Lemma slice_all {A} (l : list A) : slice l 0 (zlen l) = Ret l.
Proof.
  unfold slice. rewrite decide_True by (zlen_pos; lia). f_equal.
  rewrite Z.sub_0_r. unfold zlen. by rewrite Nat2Z.id, firstn_all.
Qed.

Lemma index_slice {A} (l : list A) i x : index l i = Ret x → slice l i (i + 1) = Ret [x].
Proof.
  unfold index, slice. case_decide; [|done]. intros Hx. rewrite decide_True by lia.
  replace (Z.to_nat (i + 1 - i)) with 1%nat by lia. f_equal.
  by rewrite (drop_S _ _ _ Hx).
Qed.

Lemma get_le_slice n buf off z :
  is_bytes buf → get_le n buf off = Ret z →
  slice buf off (off + Z.of_nat n) = Ret (to_le_bytes n z) ∧ 0 ≤ z < 2 ^ (8 * Z.of_nat n).
Proof.
  intros Hb. unfold get_le. destruct (slice buf _ _) as [bs|] eqn:E; simpl; [|done]. intros [= <-].
  pose proof (slice_Some _ _ _ _ E) as (_ & _ & _ & Hlen).
  assert (is_bytes bs) as Hbs.
  { unfold slice in E. case_decide; [|done]. injection E as <-. by apply Forall_take, Forall_drop. }
  assert (length bs = n) as <- by (unfold zlen in Hlen; lia).
  rewrite to_from_le_bytes by done. split; [done|]. by apply from_le_bytes_range.
Qed.
