(* ===== verification/WalCodec.v ===== *)
(** * The WAL record codec

    [WalRecordType], [WalRecord] and their byte format
    (src/src/persistent_artrie/core/wal/codec.rs), with the error type of
    wal/error.rs.  Each arm of [deserialize] is a decoder of its own; slices
    that are out of range panic, as they do in the source, and a theorem shows
    that none is ever reached.  Offsets and lengths are unbounded here: they
    stay below 2^33, in range of a 64-bit [usize].

    The loops of the two batch decoders run on fuel, one more than the payload's
    length: every completed iteration consumes at least four bytes, so a loop
    that has not ended by then has already run past the payload and returned an
    error. *)

From stdpp Require Import prelude strings pretty.
From S2P Require Import Prelude Bytes.
Local Open Scope Z_scope.
Local Open Scope list_scope.

Definition RECORD_HEADER_SIZE : Z := 17.

Inductive WalRecordType : Set :=
| TInsert | TRemove | TCheckpoint | TBeginTx | TCommitTx | TAbortTx | TIncrement | TUpsert
| TCompareAndSwap | TBatchInsert | TBatchIncrement | TVersionUpdate | TVersionDurable
| TVersionGc | TCommitRank.

(** The discriminants: [record_type as u8]. *)
Definition WalRecordType_code (t : WalRecordType) : Z :=
  match t with
  | TInsert => 1 | TRemove => 2 | TCheckpoint => 3 | TBeginTx => 4 | TCommitTx => 5
  | TAbortTx => 6 | TIncrement => 7 | TUpsert => 8 | TCompareAndSwap => 9 | TBatchInsert => 10
  | TBatchIncrement => 11 | TVersionUpdate => 12 | TVersionDurable => 13 | TVersionGc => 14
  | TCommitRank => 15
  end.

(** I/O errors stand for whatever the operating system reports. *)
Inductive WalError : Type :=
| Io (e : Z)
| InvalidRecordType (t : Z)
| CorruptedRecord (msg : string)
| UnexpectedEof
| AlreadyExists
| NotFound
| ParentNotFound (path : string)
| InvalidRegimeStamp (msg : string).

Definition WalRecordType_try_from (value : Z) : result WalRecordType WalError :=
  match value with
  | 1 => Ok TInsert
  | 2 => Ok TRemove
  | 3 => Ok TCheckpoint
  | 4 => Ok TBeginTx
  | 5 => Ok TCommitTx
  | 6 => Ok TAbortTx
  | 7 => Ok TIncrement
  | 8 => Ok TUpsert
  | 9 => Ok TCompareAndSwap
  | 10 => Ok TBatchInsert
  | 11 => Ok TBatchIncrement
  | 12 => Ok TVersionUpdate
  | 13 => Ok TVersionDurable
  | 14 => Ok TVersionGc
  | 15 => Ok TCommitRank
  | _ => Err (InvalidRecordType value)
  end.

Inductive WalRecord : Type :=
| Insert (term : list Z) (value : option (list Z))
| Remove (term : list Z)
| Checkpoint (checkpoint_lsn timestamp : Z)
| BeginTx (tx_id : Z)
| CommitTx (tx_id : Z)
| AbortTx (tx_id : Z)
| Increment (term : list Z) (delta res : Z)
| Upsert (term value : list Z)
| CompareAndSwap (term : list Z) (expected : option (list Z)) (new_value : list Z) (success : bool)
| BatchInsert (entries : list (list Z * option (list Z)))
| BatchIncrement (entries : list (list Z * Z))
| VersionUpdate (version_id root_ptr node_count timestamp : Z)
| VersionDurable (version_id checksum : Z)
| VersionGc (version_ids : list Z)
| CommitRank (data_lsn : Z) (term : list Z) (generation : Z).

Definition record_type (r : WalRecord) : WalRecordType :=
  match r with
  | Insert _ _ => TInsert
  | Remove _ => TRemove
  | Checkpoint _ _ => TCheckpoint
  | BeginTx _ => TBeginTx
  | CommitTx _ => TCommitTx
  | AbortTx _ => TAbortTx
  | Increment _ _ _ => TIncrement
  | Upsert _ _ => TUpsert
  | CompareAndSwap _ _ _ _ => TCompareAndSwap
  | BatchInsert _ => TBatchInsert
  | BatchIncrement _ => TBatchIncrement
  | VersionUpdate _ _ _ _ => TVersionUpdate
  | VersionDurable _ _ => TVersionDurable
  | VersionGc _ => TVersionGc
  | CommitRank _ _ _ => TCommitRank
  end.

(** ** Serialization *)

(** [value.as_ref().map_or(0, |v| 4 + v.len())] *)
Definition opt_len (value : option (list Z)) : Z :=
  match value with None => 0 | Some v => 4 + zlen v end.

Definition sumZ (l : list Z) : Z := foldr Z.add 0 l.

Definition payload_len (r : WalRecord) : Z :=
  match r with
  | Insert term value => 4 + zlen term + 1 + opt_len value
  | Remove term => 4 + zlen term
  | Checkpoint _ _ => 16
  | BeginTx _ | CommitTx _ | AbortTx _ => 8
  | Increment term _ _ => 4 + zlen term + 8 + 8
  | Upsert term value => 4 + zlen term + 4 + zlen value
  | CompareAndSwap term expected new_value _ =>
      4 + zlen term + 1 + opt_len expected + 4 + zlen new_value + 1
  | BatchInsert entries =>
      4 + sumZ (map (λ e, 4 + zlen e.1 + 1 + opt_len e.2) entries)
  | BatchIncrement entries => 4 + sumZ (map (λ e, 4 + zlen e.1 + 8) entries)
  | VersionUpdate _ _ _ _ => 32
  | VersionDurable _ _ => 12
  | VersionGc version_ids => 4 + zlen version_ids * 8
  | CommitRank _ term _ => 8 + 4 + zlen term + 8
  end.

(** [(bs.len() as u32).to_le_bytes()] followed by [bs]. *)
Definition put_bytes (bs : list Z) : list Z := to_le_bytes 4 (u32 (zlen bs)) ++ bs.

(** The presence byte, and the bytes when present. *)
Definition put_opt (value : option (list Z)) : list Z :=
  match value with
  | Some v => [1] ++ put_bytes v
  | None => [0]
  end.

Definition serialize_payload (r : WalRecord) : list Z :=
  match r with
  | Insert term value => put_bytes term ++ put_opt value
  | Remove term => put_bytes term
  | Checkpoint checkpoint_lsn timestamp => to_le_bytes 8 checkpoint_lsn ++ to_le_bytes 8 timestamp
  | BeginTx tx_id | CommitTx tx_id | AbortTx tx_id => to_le_bytes 8 tx_id
  | Increment term delta res => put_bytes term ++ to_le_bytes 8 delta ++ to_le_bytes 8 res
  | Upsert term value => put_bytes term ++ put_bytes value
  | CompareAndSwap term expected new_value success =>
      put_bytes term ++ put_opt expected ++ put_bytes new_value ++ [if success then 1 else 0]
  | BatchInsert entries =>
      to_le_bytes 4 (u32 (zlen entries)) ++
      flat_map (λ e, put_bytes e.1 ++ put_opt e.2) entries
  | BatchIncrement entries =>
      to_le_bytes 4 (u32 (zlen entries)) ++
      flat_map (λ e, put_bytes e.1 ++ to_le_bytes 8 e.2) entries
  | VersionUpdate version_id root_ptr node_count timestamp =>
      to_le_bytes 8 version_id ++ to_le_bytes 8 root_ptr ++
      to_le_bytes 8 node_count ++ to_le_bytes 8 timestamp
  | VersionDurable version_id checksum => to_le_bytes 8 version_id ++ to_le_bytes 4 checksum
  | VersionGc version_ids =>
      to_le_bytes 4 (u32 (zlen version_ids)) ++ flat_map (to_le_bytes 8) version_ids
  | CommitRank data_lsn term generation =>
      to_le_bytes 8 data_lsn ++ put_bytes term ++ to_le_bytes 8 generation
  end.

Definition serialized_size (r : WalRecord) : Z := RECORD_HEADER_SIZE + payload_len r.

(** ** Deserialization *)

(** A decoder returns a record or an error, unless a slice panics. *)
Notation decoded A := (exec (result A WalError)).

Definition corrupted {A} (msg : string) : decoded A := Ret (Err (CorruptedRecord msg)).

Definition decode_insert (payload : list Z) : decoded WalRecord :=
  if zlen payload <? 5 then corrupted "Insert payload too short"
  else
    term_len ← get_u32 payload 0;
    if zlen payload <? 4 + term_len + 1 then corrupted "Insert term truncated"
    else
      term ← slice payload 4 (4 + term_len);
      has_value ← index payload (4 + term_len);
      if negb (has_value =? 0) then
        let value_offset := 4 + term_len + 1 in
        if zlen payload <? value_offset + 4 then corrupted "Insert value length truncated"
        else
          value_len ← get_u32 payload value_offset;
          if zlen payload <? value_offset + 4 + value_len then corrupted "Insert value truncated"
          else
            v ← slice payload (value_offset + 4) (value_offset + 4 + value_len);
            Ret (Ok (Insert term (Some v)))
      else Ret (Ok (Insert term None)).

Definition decode_remove (payload : list Z) : decoded WalRecord :=
  if zlen payload <? 4 then corrupted "Remove payload too short"
  else
    term_len ← get_u32 payload 0;
    if zlen payload <? 4 + term_len then corrupted "Remove term truncated"
    else
      term ← slice payload 4 (4 + term_len);
      Ret (Ok (Remove term)).

Definition decode_checkpoint (payload : list Z) : decoded WalRecord :=
  if zlen payload <? 16 then corrupted "Checkpoint payload too short"
  else
    checkpoint_lsn ← get_u64 payload 0;
    timestamp ← get_u64 payload 8;
    Ret (Ok (Checkpoint checkpoint_lsn timestamp)).

Definition decode_begin_tx (payload : list Z) : decoded WalRecord :=
  if zlen payload <? 8 then corrupted "BeginTx payload too short"
  else tx_id ← get_u64 payload 0; Ret (Ok (BeginTx tx_id)).

Definition decode_commit_tx (payload : list Z) : decoded WalRecord :=
  if zlen payload <? 8 then corrupted "CommitTx payload too short"
  else tx_id ← get_u64 payload 0; Ret (Ok (CommitTx tx_id)).

Definition decode_abort_tx (payload : list Z) : decoded WalRecord :=
  if zlen payload <? 8 then corrupted "AbortTx payload too short"
  else tx_id ← get_u64 payload 0; Ret (Ok (AbortTx tx_id)).

Definition decode_increment (payload : list Z) : decoded WalRecord :=
  if zlen payload <? 4 then corrupted "Increment payload too short"
  else
    term_len ← get_u32 payload 0;
    if zlen payload <? 4 + term_len + 16 then corrupted "Increment payload truncated"
    else
      term ← slice payload 4 (4 + term_len);
      let delta_offset := 4 + term_len in
      delta ← get_i64 payload delta_offset;
      res ← get_i64 payload (delta_offset + 8);
      Ret (Ok (Increment term delta res)).

Definition decode_upsert (payload : list Z) : decoded WalRecord :=
  if zlen payload <? 4 then corrupted "Upsert payload too short"
  else
    term_len ← get_u32 payload 0;
    if zlen payload <? 4 + term_len + 4 then corrupted "Upsert term truncated"
    else
      term ← slice payload 4 (4 + term_len);
      let value_len_offset := 4 + term_len in
      value_len ← get_u32 payload value_len_offset;
      if zlen payload <? value_len_offset + 4 + value_len then corrupted "Upsert value truncated"
      else
        value ← slice payload (value_len_offset + 4) (value_len_offset + 4 + value_len);
        Ret (Ok (Upsert term value)).

(** [expected], and the offset after it. *)
Definition decode_cas_expected (payload : list Z) (offset has_expected : Z) :
    decoded (option (list Z) * Z) :=
  if negb (has_expected =? 0) then
    if zlen payload <? offset + 4 then corrupted "CAS expected length truncated"
    else
      exp_len ← get_u32 payload offset;
      let offset := offset + 4 in
      if zlen payload <? offset + exp_len then corrupted "CAS expected truncated"
      else
        exp ← slice payload offset (offset + exp_len);
        Ret (Ok (Some exp, offset + exp_len))
  else Ret (Ok (None, offset)).

Definition decode_cas (payload : list Z) : decoded WalRecord :=
  if zlen payload <? 4 then corrupted "CAS payload too short"
  else
    term_len ← get_u32 payload 0;
    if zlen payload <? 4 + term_len + 1 then corrupted "CAS term truncated"
    else
      term ← slice payload 4 (4 + term_len);
      let offset := 4 + term_len in
      has_expected ← index payload offset;
      let offset := offset + 1 in
      try_bind (decode_cas_expected payload offset has_expected) (λ '(expected, offset),
        if zlen payload <? offset + 4 then corrupted "CAS new_value length truncated"
        else
          new_value_len ← get_u32 payload offset;
          let offset := offset + 4 in
          if zlen payload <? offset + new_value_len + 1 then corrupted "CAS new_value truncated"
          else
            new_value ← slice payload offset (offset + new_value_len);
            let offset := offset + new_value_len in
            success ← index payload offset;
            Ret (Ok (CompareAndSwap term expected new_value (negb (success =? 0))))).

(** [format!("{kind} entry {i} {what} truncated")] *)
Definition entry_truncated {A} (kind what : string) (i : Z) : decoded A :=
  corrupted (kind +:+ " entry " +:+ pretty i +:+ " " +:+ what +:+ " truncated").

(** The value of one [BatchInsert] entry, and the offset after it. *)
Definition decode_entry_value (payload : list Z) (i offset has_value : Z) :
    decoded (option (list Z) * Z) :=
  if negb (has_value =? 0) then
    if zlen payload <? offset + 4 then entry_truncated "BatchInsert" "value_len" i
    else
      value_len ← get_u32 payload offset;
      let offset := offset + 4 in
      if zlen payload <? offset + value_len then entry_truncated "BatchInsert" "value" i
      else
        v ← slice payload offset (offset + value_len);
        Ret (Ok (Some v, offset + value_len))
  else Ret (Ok (None, offset)).

(** One iteration of the [BatchInsert] loop: the entry and the offset after it. *)
Definition decode_insert_entry (payload : list Z) (i offset : Z) :
    decoded ((list Z * option (list Z)) * Z) :=
  if zlen payload <? offset + 4 then entry_truncated "BatchInsert" "term_len" i
  else
    term_len ← get_u32 payload offset;
    let offset := offset + 4 in
    if zlen payload <? offset + term_len + 1 then entry_truncated "BatchInsert" "term" i
    else
      term ← slice payload offset (offset + term_len);
      let offset := offset + term_len in
      has_value ← index payload offset;
      let offset := offset + 1 in
      try_bind (decode_entry_value payload i offset has_value) (λ '(value, offset),
        Ret (Ok ((term, value), offset))).

(** One iteration of the [BatchIncrement] loop. *)
Definition decode_increment_entry (payload : list Z) (i offset : Z) :
    decoded ((list Z * Z) * Z) :=
  if zlen payload <? offset + 4 then entry_truncated "BatchIncrement" "term_len" i
  else
    term_len ← get_u32 payload offset;
    let offset := offset + 4 in
    if zlen payload <? offset + term_len + 8 then
      entry_truncated "BatchIncrement" "term or delta" i
    else
      term ← slice payload offset (offset + term_len);
      let offset := offset + term_len in
      delta ← get_i64 payload offset;
      let offset := offset + 8 in
      Ret (Ok ((term, delta), offset)).

(** [for i in i..count { ... entries.push(entry) }] *)
Fixpoint decode_entries {E} (entry : Z → Z → decoded (E * Z)) (fuel : nat) (i count offset : Z) :
    decoded (list E) :=
  if i <? count then
    match fuel with
    | O => Panic
    | S fuel =>
        try_bind (entry i offset) (λ '(e, offset),
          try_bind (decode_entries entry fuel (i + 1) count offset) (λ entries,
            Ret (Ok (e :: entries))))
    end
  else Ret (Ok []).

Definition decode_batch_insert (payload : list Z) : decoded WalRecord :=
  if zlen payload <? 4 then corrupted "BatchInsert payload too short"
  else
    count ← get_u32 payload 0;
    try_bind (decode_entries (decode_insert_entry payload) (S (length payload)) 0 count 4)
      (λ entries, Ret (Ok (BatchInsert entries))).

Definition decode_batch_increment (payload : list Z) : decoded WalRecord :=
  if zlen payload <? 4 then corrupted "BatchIncrement payload too short"
  else
    count ← get_u32 payload 0;
    try_bind (decode_entries (decode_increment_entry payload) (S (length payload)) 0 count 4)
      (λ entries, Ret (Ok (BatchIncrement entries))).

Definition decode_version_update (payload : list Z) : decoded WalRecord :=
  if zlen payload <? 32 then corrupted "VersionUpdate payload too short"
  else
    version_id ← get_u64 payload 0;
    root_ptr ← get_u64 payload 8;
    node_count ← get_u64 payload 16;
    timestamp ← get_u64 payload 24;
    Ret (Ok (VersionUpdate version_id root_ptr node_count timestamp)).

Definition decode_version_durable (payload : list Z) : decoded WalRecord :=
  if zlen payload <? 12 then corrupted "VersionDurable payload too short"
  else
    version_id ← get_u64 payload 0;
    checksum ← get_u32 payload 8;
    Ret (Ok (VersionDurable version_id checksum)).

(** [for i in 0..count { version_ids.push(u64 at 4 + i * 8) }] *)
Definition decode_version_ids (payload : list Z) (count : Z) : exec (list Z) :=
  mapM (λ i, get_u64 payload (4 + i * 8)) (seqZ 0 count).

Definition decode_version_gc (payload : list Z) : decoded WalRecord :=
  if zlen payload <? 4 then corrupted "VersionGc payload too short"
  else
    count ← get_u32 payload 0;
    if zlen payload <? 4 + count * 8 then corrupted "VersionGc version_ids truncated"
    else
      version_ids ← decode_version_ids payload count;
      Ret (Ok (VersionGc version_ids)).

Definition decode_commit_rank (payload : list Z) : decoded WalRecord :=
  if zlen payload <? 12 then corrupted "CommitRank payload too short"
  else
    data_lsn ← get_u64 payload 0;
    term_len ← get_u32 payload 8;
    let term_end := 12 + term_len in
    if zlen payload <? term_end + 8 then corrupted "CommitRank term or generation truncated"
    else
      term ← slice payload 12 term_end;
      generation ← get_u64 payload term_end;
      Ret (Ok (CommitRank data_lsn term generation)).

Definition deserialize (record_type : WalRecordType) (payload : list Z) : decoded WalRecord :=
  match record_type with
  | TInsert => decode_insert payload
  | TRemove => decode_remove payload
  | TCheckpoint => decode_checkpoint payload
  | TBeginTx => decode_begin_tx payload
  | TCommitTx => decode_commit_tx payload
  | TAbortTx => decode_abort_tx payload
  | TIncrement => decode_increment payload
  | TUpsert => decode_upsert payload
  | TCompareAndSwap => decode_cas payload
  | TBatchInsert => decode_batch_insert payload
  | TBatchIncrement => decode_batch_increment payload
  | TVersionUpdate => decode_version_update payload
  | TVersionDurable => decode_version_durable payload
  | TVersionGc => decode_version_gc payload
  | TCommitRank => decode_commit_rank payload
  end.

(** ** Well-formed records: every field in range of its Rust type, and every
    length of the record in range of its [u32] length field. *)

Definition bytes_ok (bs : list Z) : Prop := is_bytes bs ∧ is_u32 (zlen bs).
Definition opt_ok (v : option (list Z)) : Prop := match v with Some v => bytes_ok v | None => True end.

Definition record_ok (r : WalRecord) : Prop :=
  match r with
  | Insert term value => bytes_ok term ∧ opt_ok value
  | Remove term => bytes_ok term
  | Checkpoint a b => is_u64 a ∧ is_u64 b
  | BeginTx a | CommitTx a | AbortTx a => is_u64 a
  | Increment term delta res => bytes_ok term ∧ is_i64 delta ∧ is_i64 res
  | Upsert term value => bytes_ok term ∧ bytes_ok value
  | CompareAndSwap term expected new_value _ => bytes_ok term ∧ opt_ok expected ∧ bytes_ok new_value
  | BatchInsert entries =>
      is_u32 (zlen entries) ∧ Forall (λ e, bytes_ok e.1 ∧ opt_ok e.2) entries
  | BatchIncrement entries =>
      is_u32 (zlen entries) ∧ Forall (λ e, bytes_ok e.1 ∧ is_i64 e.2) entries
  | VersionUpdate a b c d => is_u64 a ∧ is_u64 b ∧ is_u64 c ∧ is_u64 d
  | VersionDurable a b => is_u64 a ∧ is_u32 b
  | VersionGc ids => is_u32 (zlen ids) ∧ Forall is_u64 ids
  | CommitRank a term b => is_u64 a ∧ bytes_ok term ∧ is_u64 b
  end.

(** ** The decoders never panic *)

Lemma get_le_bytes n buf off :
  is_bytes buf → 0 ≤ off → off + Z.of_nat n ≤ zlen buf →
  ∃ z, get_le n buf off = Ret z ∧ 0 ≤ z.
Proof.
  intros Hb H0 Hle. unfold get_le.
  destruct (slice_total buf off (off + Z.of_nat n)) as [x Hx]; [lia..|]. rewrite Hx.
  simpl. eexists. split; [done|]. apply from_le_bytes_range.
  unfold slice in Hx. case_decide; [|done]. injection Hx as <-.
  by apply Forall_take, Forall_drop.
Qed.

Lemma get_u32_bytes buf off :
  is_bytes buf → 0 ≤ off → off + 4 ≤ zlen buf → ∃ z, get_u32 buf off = Ret z ∧ 0 ≤ z.
Proof. apply (get_le_bytes 4). Qed.
Lemma get_u64_bytes buf off :
  is_bytes buf → 0 ≤ off → off + 8 ≤ zlen buf → ∃ z, get_u64 buf off = Ret z ∧ 0 ≤ z.
Proof. apply (get_le_bytes 8). Qed.
Lemma get_i64_total buf off :
  0 ≤ off → off + 8 ≤ zlen buf → ∃ z, get_i64 buf off = Ret z.
Proof.
  intros H0 Hle. unfold get_i64. destruct (get_le_total 8 buf off) as [z ->]; [lia..|]. simpl. eauto.
Qed.

(** One step of a decoder: a guard, a read, or the result. *)
Ltac bind_step := cbn [mbind option_bind try_bind negb].
Ltac total_step :=
  match goal with
  | |- context [zlen ?p <? ?n] => destruct (Z.ltb_spec (zlen p) n); [by eexists|]
  | |- context [get_u32 ?p ?o] =>
      destruct (get_u32_bytes p o) as (? & -> & ?); [done|lia..|bind_step]
  | |- context [get_u64 ?p ?o] =>
      destruct (get_u64_bytes p o) as (? & -> & ?); [done|lia..|bind_step]
  | |- context [get_i64 ?p ?o] => destruct (get_i64_total p o) as (? & ->); [lia..|bind_step]
  | |- context [slice ?p ?a ?b] => destruct (slice_total p a b) as (? & ->); [lia..|bind_step]
  | |- context [index ?p ?i] => destruct (index_total p i) as (? & ->); [lia..|bind_step]
  | |- context [?z =? 0] => destruct (Z.eqb_spec z 0); bind_step
  | |- ∃ r, Ret _ = Ret r => by eexists
  end.
Ltac dec_total := repeat total_step.

Section total.
Context (payload : list Z) (Hb : is_bytes payload).

Lemma decode_value_total i offset has_value :
  0 ≤ offset ≤ zlen payload →
  (∃ e, decode_entry_value payload i offset has_value = Ret (Err e)) ∨
  (∃ v offset', decode_entry_value payload i offset has_value = Ret (Ok (v, offset')) ∧
     offset ≤ offset' ≤ zlen payload).
Proof using Hb.
  intros Ho. unfold decode_entry_value, entry_truncated, corrupted.
  destruct (negb (has_value =? 0)); [|right; eexists _, _; split; [done|lia]].
  destruct (Z.ltb_spec (zlen payload) (offset + 4)); [left; by eexists|].
  destruct (get_u32_bytes payload offset) as (n & -> & ?); [done|lia..|bind_step].
  destruct (Z.ltb_spec (zlen payload) (offset + 4 + n)); [left; by eexists|].
  destruct (slice_total payload (offset + 4) (offset + 4 + n)) as [v ->]; [lia..|bind_step].
  right. eexists _, _. split; [done|lia].
Qed.

(** An entry decoder moves forward by at least four bytes, and stays inside
    the payload. *)
Definition entry_total {E} (entry : Z → Z → decoded (E * Z)) : Prop :=
  ∀ i offset, 0 ≤ offset →
    (∃ e, entry i offset = Ret (Err e)) ∨
    (∃ x offset', entry i offset = Ret (Ok (x, offset')) ∧
       offset + 4 ≤ offset' ≤ zlen payload).

Lemma decode_insert_entry_total : entry_total (decode_insert_entry payload).
Proof using Hb.
  intros i offset Ho. unfold decode_insert_entry, entry_truncated, corrupted.
  destruct (Z.ltb_spec (zlen payload) (offset + 4)); [left; by eexists|].
  destruct (get_u32_bytes payload offset) as (n & -> & ?); [done|lia..|bind_step].
  destruct (Z.ltb_spec (zlen payload) (offset + 4 + n + 1)); [left; by eexists|].
  destruct (slice_total payload (offset + 4) (offset + 4 + n)) as [t ->]; [lia..|bind_step].
  destruct (index_total payload (offset + 4 + n)) as [b ->]; [lia|bind_step].
  destruct (decode_value_total i (offset + 4 + n + 1) b) as [[e ->]|(v & o & -> & ?)]; [lia|..];
    bind_step; [left; by eexists|right; eexists _, _; split; [done|lia]].
Qed.

Lemma decode_increment_entry_total : entry_total (decode_increment_entry payload).
Proof using Hb.
  intros i offset Ho. unfold decode_increment_entry, entry_truncated, corrupted.
  destruct (Z.ltb_spec (zlen payload) (offset + 4)); [left; by eexists|].
  destruct (get_u32_bytes payload offset) as (n & -> & ?); [done|lia..|bind_step].
  destruct (Z.ltb_spec (zlen payload) (offset + 4 + n + 8)); [left; by eexists|].
  destruct (slice_total payload (offset + 4) (offset + 4 + n)) as [t ->]; [lia..|bind_step].
  destruct (get_i64_total payload (offset + 4 + n)) as [d ->]; [lia..|bind_step].
  right. eexists _, _. split; [done|lia].
Qed.

Lemma decode_entries_total {E} (entry : Z → Z → decoded (E * Z)) fuel i count offset :
  entry_total entry → 0 ≤ offset ≤ zlen payload → zlen payload < 4 * Z.of_nat fuel + offset →
  ∃ r, decode_entries entry fuel i count offset = Ret r.
Proof using.
  intros He. revert i offset. induction fuel as [|fuel IH]; intros i offset Ho Hf; [lia|]. simpl.
  destruct (i <? count); [|by eexists].
  destruct (He i offset) as [[e ->]|(x & o' & -> & ?)]; [lia|by eexists|]. bind_step.
  destruct (IH (i + 1) o') as [r ->]; [lia..|]. bind_step. destruct r; by eexists.
Qed.

Lemma decode_batch_total {E} (entry : Z → Z → decoded (E * Z)) count (f : list E → WalRecord) :
  entry_total entry → 4 ≤ zlen payload →
  ∃ r, try_bind (decode_entries entry (S (length payload)) 0 count 4)
         (λ entries, Ret (Ok (f entries))) = Ret r.
Proof using.
  intros He Hl. destruct (decode_entries_total entry (S (length payload)) 0 count 4 He)
    as [r ->]; [lia|unfold zlen; lia|].
  bind_step. destruct r; by eexists.
Qed.

Lemma decode_version_ids_total count :
  4 + count * 8 ≤ zlen payload → ∃ ids, decode_version_ids payload count = Ret ids.
Proof using Hb.
  intros Hc. unfold decode_version_ids. apply mapM_is_Some, Forall_forall.
  intros i [? ?]%elem_of_seqZ. unfold compose.
  destruct (get_u64_bytes payload (4 + i * 8)) as (z & -> & _); [done|lia..|eauto].
Qed.

Lemma decode_cas_total : ∃ r, decode_cas payload = Ret r.
Proof using Hb.
  unfold decode_cas, decode_cas_expected, corrupted. dec_total.
Qed.

Lemma deserialize_total ty : ∃ r, deserialize ty payload = Ret r.
Proof using Hb.
  destruct ty; simpl; [..|apply decode_cas_total| | | | | |];
    unfold decode_insert, decode_remove, decode_checkpoint, decode_begin_tx, decode_commit_tx,
      decode_abort_tx, decode_increment, decode_upsert, decode_batch_insert,
      decode_batch_increment, decode_version_update, decode_version_durable, decode_version_gc,
      decode_commit_rank, corrupted; dec_total.
  - apply decode_batch_total; [apply decode_insert_entry_total|lia].
  - apply decode_batch_total; [apply decode_increment_entry_total|lia].
  - destruct (decode_version_ids_total x) as [ids ->]; [lia|]. bind_step. by eexists.
Qed.
End total.

(** ** Lengths of the encodings *)

Lemma zlen_put_bytes bs : zlen (put_bytes bs) = 4 + zlen bs.
Proof. unfold put_bytes. zlen_lia. Qed.
Lemma zlen_put_opt v : zlen (put_opt v) = 1 + opt_len v.
Proof. destruct v; simpl; [|done]. rewrite zlen_cons, zlen_put_bytes. lia. Qed.
#[export] Hint Rewrite zlen_put_bytes zlen_put_opt : zlen.

Lemma opt_len_nonneg v : 0 ≤ opt_len v.
Proof. destruct v; simpl; [zlen_lia|done]. Qed.

Lemma zlen_flat_map {A} (f : A → list Z) (l : list A) :
  zlen (flat_map f l) = sumZ (map (λ x, zlen (f x)) l).
Proof. induction l as [|x l IH]; simpl; [done|]. by rewrite zlen_app, IH. Qed.

Lemma sumZ_ext {A} (f g : A → Z) l : (∀ x, f x = g x) → sumZ (map f l) = sumZ (map g l).
Proof. intros H. induction l as [|x l IH]; simpl; [done|]. by rewrite H, IH. Qed.

Lemma zlen_flat_map_le8 (l : list Z) : zlen (flat_map (to_le_bytes 8) l) = zlen l * 8.
Proof.
  induction l as [|x l IH]; [done|]. cbn [flat_map].
  rewrite zlen_app, IH, zlen_cons, zlen_to_le_bytes. lia.
Qed.

Lemma serialize_length r : zlen (serialize_payload r) = payload_len r.
Proof.
  destruct r; cbn [serialize_payload payload_len]; autorewrite with zlen; try lia.
  - rewrite zlen_flat_map. f_equal. apply sumZ_ext. intros e. autorewrite with zlen. lia.
  - rewrite zlen_flat_map. f_equal. apply sumZ_ext. intros e. autorewrite with zlen. lia.
  - rewrite zlen_flat_map_le8. lia.
Qed.

(** ** Round trip *)

Lemma holds_put_bytes buf off bs :
  bytes_ok bs → holds buf off (put_bytes bs) →
  get_u32 buf off = Ret (zlen bs) ∧ slice buf (off + 4) (off + 4 + zlen bs) = Ret bs ∧
  0 ≤ off ∧ off + 4 + zlen bs ≤ zlen buf.
Proof.
  intros [_ Hlen] H. pose proof (holds_bound _ _ _ H) as Hbd. zlen_simpl.
  unfold put_bytes in H. rewrite u32_id in H by done. apply holds_app in H as [H1 H2].
  rewrite zlen_to_le_bytes in H2. split_and!; [by apply holds_u32| |lia..].
  by apply holds_slice.
Qed.

Lemma holds_shift {A} (buf : list A) off off' x : holds buf off x → off = off' → holds buf off' x.
Proof. by intros ? <-. Qed.

(** Evaluates the reads and guards of a decoder on a buffer whose contents the
    hypotheses describe. *)
Ltac read_step :=
  match goal with
  | |- context [zlen ?p <? ?n] => rewrite (proj2 (Z.ltb_ge (zlen p) n)) by (zlen_pos; lia)
  | H : get_u32 ?p ?o = ?r |- context [get_u32 ?p ?o'] =>
      let E := fresh in
      assert (get_u32 p o' = r) as E by (replace o' with o by lia; exact H); rewrite E; clear E
  | H : index ?p ?o = ?r |- context [index ?p ?o'] =>
      let E := fresh in
      assert (index p o' = r) as E by (replace o' with o by lia; exact H); rewrite E; clear E
  | H : slice ?p ?a ?b = ?r |- context [slice ?p ?a' ?b'] =>
      let E := fresh in
      assert (slice p a' b' = r) as E
        by (replace a' with a by lia; replace b' with b by lia; exact H);
      rewrite E; clear E
  | H : holds ?p ?o [?x] |- context [index ?p ?i] =>
      rewrite (holds_index p i x) by (apply (holds_shift p o); [exact H|lia])
  | H : holds ?p ?o (to_le_bytes 8 ?z), Hz : is_u64 ?z |- context [get_u64 ?p ?i] =>
      rewrite (holds_u64 p i z Hz) by (apply (holds_shift p o); [exact H|lia])
  | H : holds ?p ?o (to_le_bytes 8 ?z), Hz : is_i64 ?z |- context [get_i64 ?p ?i] =>
      rewrite (holds_i64 p i z Hz) by (apply (holds_shift p o); [exact H|lia])
  | H : holds ?p ?o (to_le_bytes 4 ?z), Hz : is_u32 ?z |- context [get_u32 ?p ?i] =>
      rewrite (holds_u32 p i z Hz) by (apply (holds_shift p o); [exact H|lia])
  end; bind_step.

(** Splits what a buffer holds into its fields. *)
Ltac split_fields :=
  repeat match goal with
    | H : bytes_ok ?bs ∧ _ |- _ => destruct H
    | H : _ ∧ _ |- _ => destruct H
    | H : holds _ _ (_ ++ _) |- _ => apply holds_app in H as [? H]; autorewrite with zlen in H
    end;
  repeat match goal with
    | Hb : bytes_ok ?bs, H : holds ?p ?o (put_bytes ?bs) |- _ =>
        apply (holds_put_bytes p o bs Hb) in H as (? & ? & ? & ?)
    | H : holds ?p ?o ?x |- _ => lazymatch goal with
        | _ : 0 ≤ o ∧ o + zlen x ≤ zlen p |- _ => fail
        | _ => pose proof (holds_bound p o x H)
        end
    end; autorewrite with zlen in *.

Section roundtrip.
Context (buf : list Z).

Lemma cas_expected_ok off v has :
  opt_ok v → holds buf off (put_opt v) → index buf off = Ret has →
  decode_cas_expected buf (off + 1) has = Ret (Ok (v, off + 1 + opt_len v)).
Proof using.
  intros Hv H Hidx. unfold decode_cas_expected, put_opt in *. destruct v as [v|]; simpl in Hv.
  - apply holds_app in H as [H1 H]. rewrite (holds_index _ _ _ H1) in Hidx.
    injection Hidx as <-. simpl negb. cbv iota. rewrite zlen_cons, zlen_nil in H.
    apply holds_put_bytes in H as (Hl & Hs & ? & ?); [|done].
    replace (off + (1 + 0)) with (off + 1) in * by lia.
    repeat read_step. simpl opt_len.
    by replace (off + 1 + (4 + zlen v)) with (off + 1 + 4 + zlen v) by lia.
  - rewrite (holds_index _ _ _ H) in Hidx. injection Hidx as <-. simpl. by rewrite Z.add_0_r.
Qed.

Lemma entry_value_ok i off v has :
  opt_ok v → holds buf off (put_opt v) → index buf off = Ret has →
  decode_entry_value buf i (off + 1) has = Ret (Ok (v, off + 1 + opt_len v)).
Proof using.
  intros Hv H Hidx. unfold decode_entry_value, put_opt in *. destruct v as [v|]; simpl in Hv.
  - apply holds_app in H as [H1 H]. rewrite (holds_index _ _ _ H1) in Hidx.
    injection Hidx as <-. simpl negb. cbv iota. rewrite zlen_cons, zlen_nil in H.
    apply holds_put_bytes in H as (Hl & Hs & ? & ?); [|done].
    replace (off + (1 + 0)) with (off + 1) in * by lia.
    repeat read_step. simpl opt_len.
    by replace (off + 1 + (4 + zlen v)) with (off + 1 + 4 + zlen v) by lia.
  - rewrite (holds_index _ _ _ H) in Hidx. injection Hidx as <-. simpl. by rewrite Z.add_0_r.
Qed.

Lemma holds_put_opt off v :
  holds buf off (put_opt v) → ∃ has, index buf off = Ret has ∧ off + 1 + opt_len v ≤ zlen buf.
Proof using.
  intros H. pose proof (holds_bound _ _ _ H). zlen_simpl.
  destruct v as [v|]; simpl in H.
  - apply holds_cons in H as [H _]. eexists. split; [by apply holds_index|lia].
  - eexists. split; [by apply holds_index|lia].
Qed.

Lemma insert_entry_ok e i off :
  bytes_ok e.1 → opt_ok e.2 → holds buf off (put_bytes e.1 ++ put_opt e.2) →
  decode_insert_entry buf i off = Ret (Ok (e, off + zlen (put_bytes e.1 ++ put_opt e.2))).
Proof using.
  intros Ht Hv H. destruct e as [term value]. simpl fst in *. simpl snd in *.
  apply holds_app in H as [Hterm Hvalue]. rewrite zlen_put_bytes in Hvalue.
  apply (holds_put_bytes _ _ _ Ht) in Hterm as (Hl & Hs & ? & ?).
  destruct (holds_put_opt _ _ Hvalue) as (has & Hhas & ?). pose proof (opt_len_nonneg value).
  unfold decode_insert_entry. repeat read_step.
  replace (off + (4 + zlen term)) with (off + 4 + zlen term) in * by lia.
  rewrite (entry_value_ok _ _ _ _ Hv Hvalue Hhas). bind_step.
  do 2 f_equal. autorewrite with zlen. f_equal. lia.
Qed.

Lemma increment_entry_ok e i off :
  bytes_ok e.1 → is_i64 e.2 → holds buf off (put_bytes e.1 ++ to_le_bytes 8 e.2) →
  decode_increment_entry buf i off =
    Ret (Ok (e, off + zlen (put_bytes e.1 ++ to_le_bytes 8 e.2))).
Proof using.
  intros Ht Hd H. destruct e as [term delta]. simpl fst in *. simpl snd in *.
  apply holds_app in H as [Hterm Hdelta]. rewrite zlen_put_bytes in Hdelta.
  apply (holds_put_bytes _ _ _ Ht) in Hterm as (Hl & Hs & ? & ?).
  pose proof (holds_bound _ _ _ Hdelta) as Hb. rewrite zlen_to_le_bytes in Hb.
  unfold decode_increment_entry. repeat read_step.
  do 2 f_equal. autorewrite with zlen. f_equal. lia.
Qed.

Lemma entries_ok {E} (entry : Z → Z → decoded (E * Z)) (put : E → list Z) es fuel i off :
  (∀ e i off, e ∈ es → holds buf off (put e) →
     entry i off = Ret (Ok (e, off + zlen (put e)))) →
  (length es ≤ fuel)%nat → holds buf off (flat_map put es) →
  decode_entries entry fuel i (i + zlen es) off = Ret (Ok es).
Proof using.
  revert fuel i off. induction es as [|e es IH]; intros fuel i off He Hf H.
  - rewrite zlen_nil, Z.add_0_r. destruct fuel; simpl; by rewrite Z.ltb_irrefl.
  - destruct fuel as [|fuel]; [simpl in Hf; lia|]. cbn [flat_map] in H.
    apply holds_app in H as [H1 H2]. cbn [decode_entries].
    rewrite zlen_cons. rewrite (proj2 (Z.ltb_lt i (i + (1 + zlen es)))) by (zlen_pos; lia).
    rewrite (He e i off); [|set_solver|done]. bind_step.
    replace (i + (1 + zlen es)) with (i + 1 + zlen es) by lia.
    rewrite IH; [done| |simpl in Hf; lia|done].
    intros e' i' off' Hin. apply He. set_solver.
Qed.

(** Every encoded entry has at least one byte, so the fuel is enough. *)
Lemma entries_fuel {E} (put : E → list Z) es off :
  (∀ e, 1 ≤ zlen (put e)) → holds buf off (flat_map put es) → (length es ≤ S (length buf))%nat.
Proof using.
  intros Hput H. apply holds_bound in H as [? H].
  assert (zlen es ≤ zlen (flat_map put es)); [|unfold zlen in *; lia]. clear H.
  induction es as [|e es IH]; [done|]. cbn [flat_map]. rewrite zlen_cons, zlen_app.
  specialize (Hput e). lia.
Qed.

Lemma version_ids_ok ids off :
  Forall is_u64 ids → holds buf off (flat_map (to_le_bytes 8) ids) →
  ∀ k, off = 4 + k * 8 →
  mapM (λ i, get_u64 buf (4 + i * 8)) (seqZ k (zlen ids)) = Ret ids.
Proof using.
  intros Hids. revert off. induction Hids as [|id ids Hid _ IH]; intros off H k Hk; [done|].
  cbn [flat_map] in H. apply holds_app in H as [H1 H2]. rewrite zlen_to_le_bytes in H2.
  rewrite zlen_cons, seqZ_cons by (zlen_pos; lia).
  replace (Z.pred (1 + zlen ids)) with (zlen ids) by lia. cbn [mapM].
  rewrite (holds_u64 buf (4 + k * 8) id Hid) by (by rewrite <-Hk). bind_step.
  rewrite (IH _ H2 (Z.succ k)) by lia. done.
Qed.
End roundtrip.

(** The decoder reads a record back from any payload that starts with its
    encoding. *)
Lemma deserialize_serialize r rest :
  record_ok r → deserialize (record_type r) (serialize_payload r ++ rest) = Ret (Ok r).
Proof.
  intros Hr. pose proof (holds_prefix (serialize_payload r) rest) as H.
  set (buf := serialize_payload r ++ rest) in *. clearbody buf.
  destruct r; cbn [record_ok serialize_payload] in Hr, H; cbn [record_type deserialize].
  - unfold decode_insert. destruct Hr as [Ht Hv]. apply holds_app in H as [Hterm Hvalue].
    rewrite zlen_put_bytes in Hvalue.
    apply (holds_put_bytes _ _ _ Ht) in Hterm as (Hl & Hs & ? & ?).
    destruct (holds_put_opt _ _ _ Hvalue) as (has & Hhas & ?). pose proof (opt_len_nonneg value).
    repeat read_step. destruct value as [v|]; simpl put_opt in Hvalue.
    + apply holds_cons in Hvalue as [Hflag Hvalue]. rewrite Z.add_0_l in *.
      rewrite (holds_index _ _ _ Hflag) in Hhas. injection Hhas as <-. simpl negb. cbv iota.
      apply holds_put_bytes in Hvalue as (Hl2 & Hs2 & ? & ?); [|done]. by repeat read_step.
    + rewrite Z.add_0_l in *. rewrite (holds_index _ _ _ Hvalue) in Hhas. injection Hhas as <-. done.
  - unfold decode_remove. apply (holds_put_bytes _ _ _ Hr) in H as (? & ? & ? & ?).
    by repeat read_step.
  - unfold decode_checkpoint. split_fields. by repeat read_step.
  - unfold decode_begin_tx. split_fields. by repeat read_step.
  - unfold decode_commit_tx. split_fields. by repeat read_step.
  - unfold decode_abort_tx. split_fields. by repeat read_step.
  - unfold decode_increment. split_fields. by repeat read_step.
  - unfold decode_upsert. split_fields. by repeat read_step.
  - unfold decode_cas. destruct Hr as (Ht & He & Hn).
    apply holds_app in H as [Hterm H]. apply holds_app in H as [Hexp H].
    apply holds_app in H as [Hnew Hflag]. autorewrite with zlen in *.
    apply (holds_put_bytes _ _ _ Ht) in Hterm as (Hl & Hs & ? & ?).
    apply (holds_put_bytes _ _ _ Hn) in Hnew as (Hl' & Hs' & ? & ?).
    destruct (holds_put_opt _ _ _ Hexp) as (has & Hhas & ?).
    pose proof (opt_len_nonneg expected). pose proof (holds_bound _ _ _ Hflag) as Hb.
    autorewrite with zlen in Hb. rewrite Z.add_0_l in *.
    repeat read_step. rewrite (cas_expected_ok _ _ _ _ He Hexp Hhas). bind_step.
    repeat read_step. by destruct success.
  - unfold decode_batch_insert. destruct Hr as [Hn Hes]. rewrite u32_id in H by done.
    apply holds_app in H as [Hcount H]. pose proof (holds_bound _ _ _ Hcount) as Hb.
    rewrite zlen_to_le_bytes in *. repeat read_step. rewrite <-(Z.add_0_l (zlen entries)).
    rewrite (entries_ok buf _ (λ e, put_bytes e.1 ++ put_opt e.2)); [done| | |done].
    2:{ eapply entries_fuel; [|exact H]. intros e. cbv beta. pose proof (opt_len_nonneg e.2). zlen_lia. }
    intros e i off Hin Hh. rewrite Forall_forall in Hes. destruct (Hes e Hin).
    by apply insert_entry_ok.
  - unfold decode_batch_increment. destruct Hr as [Hn Hes]. rewrite u32_id in H by done.
    apply holds_app in H as [Hcount H]. pose proof (holds_bound _ _ _ Hcount) as Hb.
    rewrite zlen_to_le_bytes in *. repeat read_step. rewrite <-(Z.add_0_l (zlen entries)).
    rewrite (entries_ok buf _ (λ e, put_bytes e.1 ++ to_le_bytes 8 e.2)); [done| | |done].
    2:{ eapply entries_fuel; [|exact H]. intros e. cbv beta. zlen_lia. }
    intros e i off Hin Hh. rewrite Forall_forall in Hes. destruct (Hes e Hin).
    by apply increment_entry_ok.
  - unfold decode_version_update. split_fields. by repeat read_step.
  - unfold decode_version_durable. split_fields. by repeat read_step.
  - unfold decode_version_gc. destruct Hr as [Hn Hids]. rewrite u32_id in H by done.
    apply holds_app in H as [Hcount H]. pose proof (holds_bound _ _ _ Hcount) as Hb.
    pose proof (holds_bound _ _ _ H) as Hb'. rewrite zlen_flat_map_le8, zlen_to_le_bytes in *.
    repeat read_step. unfold decode_version_ids.
    by rewrite (version_ids_ok buf version_ids _ Hids H 0).
  - unfold decode_commit_rank. split_fields. by repeat read_step.
Qed.

(** ** Longer and shorter payloads *)

Lemma get_u32_extend l j off z : get_u32 l off = Ret z → get_u32 (l ++ j) off = Ret z.
Proof. apply get_le_extend. Qed.
Lemma get_u64_extend l j off z : get_u64 l off = Ret z → get_u64 (l ++ j) off = Ret z.
Proof. apply get_le_extend. Qed.
Lemma get_i64_extend l j off z : get_i64 l off = Ret z → get_i64 (l ++ j) off = Ret z.
Proof.
  unfold get_i64. destruct (get_le 8 l off) as [x|] eqn:E; simpl; [|done].
  by rewrite (get_le_extend _ _ _ _ _ E).
Qed.

(** Follows a decoder that succeeded on [p], and runs it again on [p ++ j]. *)
Ltac inv_step H :=
  match type of H with
  | context [zlen (?p ++ _) <? ?n] => fail
  | context [zlen ?p <? ?n] =>
      destruct (Z.ltb_spec (zlen p) n); [discriminate H|];
      try rewrite (proj2 (Z.ltb_ge (zlen (p ++ _)) n)) by zlen_lia
  | context [get_u32 ?p ?o] =>
      let E := fresh "E" in destruct (get_u32 p o) eqn:E; [|discriminate H];
      try rewrite (get_u32_extend _ _ _ _ E)
  | context [get_u64 ?p ?o] =>
      let E := fresh "E" in destruct (get_u64 p o) eqn:E; [|discriminate H];
      try rewrite (get_u64_extend _ _ _ _ E)
  | context [get_i64 ?p ?o] =>
      let E := fresh "E" in destruct (get_i64 p o) eqn:E; [|discriminate H];
      try rewrite (get_i64_extend _ _ _ _ E)
  | context [slice ?p ?a ?b] =>
      let E := fresh "E" in destruct (slice p a b) eqn:E; [|discriminate H];
      try rewrite (slice_extend _ _ _ _ _ E); apply slice_Some in E
  | context [index ?p ?i] =>
      let E := fresh "E" in destruct (index p i) eqn:E; [|discriminate H];
      try rewrite (index_extend _ _ _ _ E)
  | context [?z =? 0] => destruct (Z.eqb_spec z 0)
  end; cbn [mbind option_bind try_bind negb] in H |- *.
Ltac inv_dec H := repeat inv_step H.

(** What a successful decoder says: it gives the same on every longer payload,
    and the record it read fits in the payload. *)
Definition decodes (d : list Z → decoded WalRecord) : Prop :=
  ∀ p r, d p = Ret (Ok r) → payload_len r ≤ zlen p ∧ ∀ j, d (p ++ j) = Ret (Ok r).

Lemma decode_simple_extend :
  decodes decode_insert ∧ decodes decode_remove ∧ decodes decode_checkpoint ∧
  decodes decode_begin_tx ∧ decodes decode_commit_tx ∧ decodes decode_abort_tx ∧
  decodes decode_increment ∧ decodes decode_upsert ∧ decodes decode_version_update ∧
  decodes decode_version_durable ∧ decodes decode_commit_rank.
Proof.
  split_and!; intros p r H; (split; [|intros j]);
    unfold decode_insert, decode_remove, decode_checkpoint, decode_begin_tx, decode_commit_tx,
      decode_abort_tx, decode_increment, decode_upsert, decode_version_update,
      decode_version_durable, decode_commit_rank, corrupted in *;
    inv_dec H; injection H as <-; cbn [payload_len opt_len]; done || lia.
Qed.

Lemma decode_cas_extend : decodes decode_cas.
Proof.
  intros p r H; (split; [|intros j]);
    unfold decode_cas, decode_cas_expected, corrupted in *;
    inv_dec H; injection H as <-; cbn [payload_len opt_len]; done || lia.
Qed.

Section batch.
Context {E : Type} (entry : list Z → Z → Z → decoded (E * Z)) (size : E → Z).
Context (Hentry : ∀ p i o e o', entry p i o = Ret (Ok (e, o')) →
  o' = o + size e ∧ o' ≤ zlen p ∧ ∀ j, entry (p ++ j) i o = Ret (Ok (e, o'))).

Lemma decode_entries_extend p fuel i count o es :
  o ≤ zlen p → decode_entries (entry p) fuel i count o = Ret (Ok es) →
  o + sumZ (map size es) ≤ zlen p ∧
  ∀ j fuel', (fuel ≤ fuel')%nat →
    decode_entries (entry (p ++ j)) fuel' i count o = Ret (Ok es).
Proof using Hentry.
  revert i o es. induction fuel as [|fuel IH]; intros i o es Ho H; cbn [decode_entries] in H;
    destruct (i <? count) eqn:Hi; try done.
  - injection H as <-. split; [simpl; lia|]. intros j [|fuel'] _; simpl; by rewrite Hi.
  - destruct (entry p i o) as [[[e o']|?]|] eqn:He; bind_step; try done. cbn in H.
    destruct (decode_entries (entry p) fuel (i + 1) count o') as [[es'|?]|] eqn:Hes; try done.
    injection H as <-. destruct (Hentry _ _ _ _ _ He) as (-> & Hle & Hext).
    destruct (IH _ _ _ Hle Hes) as [Hsum Hmore]. split; [simpl; lia|].
    intros j [|fuel'] Hf; [lia|]. cbn [decode_entries]. rewrite Hi, Hext. bind_step.
    rewrite Hmore by lia. done.
  - injection H as <-. split; [simpl; lia|]. intros j [|fuel'] _; simpl; by rewrite Hi.
Qed.
End batch.

Lemma insert_entry_extend p i o e o' :
  decode_insert_entry p i o = Ret (Ok (e, o')) →
  o' = o + (4 + zlen e.1 + 1 + opt_len e.2) ∧ o' ≤ zlen p ∧
  ∀ j, decode_insert_entry (p ++ j) i o = Ret (Ok (e, o')).
Proof.
  intros H. split_and!; [| |intros j];
    unfold decode_insert_entry, decode_entry_value, entry_truncated, corrupted in *;
    inv_dec H; injection H as <- <-; cbn [fst snd opt_len]; done || lia.
Qed.

Lemma increment_entry_extend p i o e o' :
  decode_increment_entry p i o = Ret (Ok (e, o')) →
  o' = o + (4 + zlen e.1 + 8) ∧ o' ≤ zlen p ∧
  ∀ j, decode_increment_entry (p ++ j) i o = Ret (Ok (e, o')).
Proof.
  intros H. split_and!; [| |intros j];
    unfold decode_increment_entry, entry_truncated, corrupted in *;
    inv_dec H; injection H as <- <-; cbn [fst snd]; done || lia.
Qed.

Lemma decode_batch_insert_extend : decodes decode_batch_insert.
Proof.
  intros p r H. unfold decode_batch_insert, corrupted in *.
  destruct (Z.ltb_spec (zlen p) 4); [done|].
  destruct (get_u32 p 0) as [count|] eqn:E; [|done]. cbn [mbind option_bind] in *.
  destruct (decode_entries _ _ _ _ _) as [[es|?]|] eqn:Hes; [|done..]. injection H as <-.
  eapply (decode_entries_extend _ _ insert_entry_extend) in Hes as [Hsum Hmore]; [|lia].
  split; [exact Hsum|]. intros j. rewrite (proj2 (Z.ltb_ge _ _)) by zlen_lia.
  rewrite (get_u32_extend _ _ _ _ E). bind_step.
  rewrite Hmore by (rewrite length_app; lia). done.
Qed.

Lemma decode_batch_increment_extend : decodes decode_batch_increment.
Proof.
  intros p r H. unfold decode_batch_increment, corrupted in *.
  destruct (Z.ltb_spec (zlen p) 4); [done|].
  destruct (get_u32 p 0) as [count|] eqn:E; [|done]. cbn [mbind option_bind] in *.
  destruct (decode_entries _ _ _ _ _) as [[es|?]|] eqn:Hes; [|done..]. injection H as <-.
  eapply (decode_entries_extend _ _ increment_entry_extend) in Hes as [Hsum Hmore]; [|lia].
  split; [exact Hsum|]. intros j. rewrite (proj2 (Z.ltb_ge _ _)) by zlen_lia.
  rewrite (get_u32_extend _ _ _ _ E). bind_step.
  rewrite Hmore by (rewrite length_app; lia). done.
Qed.

Lemma decode_version_gc_extend : decodes decode_version_gc.
Proof.
  intros p r H. unfold decode_version_gc, corrupted in *.
  destruct (Z.ltb_spec (zlen p) 4); [done|].
  destruct (get_u32 p 0) as [count|] eqn:E; [|done]. cbn [mbind option_bind] in *.
  destruct (Z.ltb_spec (zlen p) (4 + count * 8)); [done|].
  destruct (decode_version_ids p count) as [ids|] eqn:Hids; [|done]. injection H as <-.
  unfold decode_version_ids in Hids. pose proof Hids as Hm. apply mapM_Some in Hm.
  pose proof (Forall2_length _ _ _ Hm) as Hlen. rewrite length_seqZ in Hlen. split.
  - cbn [payload_len]. unfold zlen in *. lia.
  - intros j. rewrite !(proj2 (Z.ltb_ge _ _)) by zlen_lia.
    rewrite (get_u32_extend _ _ _ _ E). bind_step.
    rewrite (proj2 (Z.ltb_ge _ _)) by zlen_lia.
    assert (decode_version_ids (p ++ j) count = Ret ids) as ->; [|done].
    apply mapM_Some. eapply Forall2_impl; [exact Hm|]. intros i id. apply get_u64_extend.
Qed.

Lemma deserialize_extend ty : decodes (deserialize ty).
Proof.
  destruct decode_simple_extend as (? & ? & ? & ? & ? & ? & ? & ? & ? & ? & ?).
  destruct ty; simpl; try done;
    auto using decode_cas_extend, decode_batch_insert_extend, decode_batch_increment_extend,
      decode_version_gc_extend.
Qed.

(** ** Encoded payloads are bytes *)

Lemma put_bytes_bytes bs : is_bytes bs → is_bytes (put_bytes bs).
Proof. intros. apply Forall_app. split; [apply to_le_bytes_bytes|done]. Qed.

Lemma put_opt_bytes v : opt_ok v → is_bytes (put_opt v).
Proof.
  destruct v as [v|]; simpl; [|by repeat constructor; vm_compute].
  intros [Hv _]. constructor; [by vm_compute|by apply put_bytes_bytes].
Qed.

Lemma flat_map_bytes {A} (f : A → list Z) l :
  Forall (λ x, is_bytes (f x)) l → is_bytes (flat_map f l).
Proof. induction 1; simpl; [constructor|]. by apply Forall_app. Qed.

Lemma serialize_bytes r : record_ok r → is_bytes (serialize_payload r).
Proof.
  intros Hr. destruct r; cbn [record_ok serialize_payload] in *;
    repeat match goal with
    | H : _ ∧ _ |- _ => destruct H
    | H : bytes_ok _ |- _ => destruct H
    | |- is_bytes (_ ++ _) => apply Forall_app; split
    | |- is_bytes (to_le_bytes _ _) => apply to_le_bytes_bytes
    | |- Forall is_u8 (to_le_bytes _ _) => apply to_le_bytes_bytes
    | |- Forall is_u8 (_ ++ _) => apply Forall_app; split
    | |- _ (put_bytes _) => by apply put_bytes_bytes
    | |- Forall is_u8 (put_bytes _) => by apply put_bytes_bytes
    | |- Forall is_u8 (put_opt _) => by apply put_opt_bytes
    | |- Forall is_u8 [_] => by destruct success; repeat constructor; vm_compute
    | |- Forall is_u8 (flat_map _ _) => apply flat_map_bytes
    end.
  - eapply Forall_impl; [eassumption|]. intros e [[??] ?]. apply Forall_app.
    split; [by apply put_bytes_bytes|by apply put_opt_bytes].
  - eapply Forall_impl; [eassumption|]. intros e [[??] ?]. apply Forall_app.
    split; [by apply put_bytes_bytes|apply to_le_bytes_bytes].
  - eapply Forall_impl; [eassumption|]. intros ??. apply to_le_bytes_bytes.
Qed.

Lemma try_from_code t : WalRecordType_try_from (WalRecordType_code t) = Ok t.
Proof. by destruct t. Qed.

Lemma WalRecordType_code_u8 t : is_u8 (WalRecordType_code t).
Proof. unfold is_u8. destruct t; simpl; lia. Qed.

(** ** Properties *)

(** Records survive the log.  Decoding the type byte and the payload a
    record was written with gives back that record, for each of the fifteen
    record types and even when more bytes follow; the payload is exactly as
    long as [payload_len] says, and [serialized_size] is that plus the header. *)
Theorem wal_record_roundtrip r rest :
  record_ok r →
  WalRecordType_try_from (WalRecordType_code (record_type r)) = Ok (record_type r) ∧
  deserialize (record_type r) (serialize_payload r ++ rest) = Ret (Ok r) ∧
  zlen (serialize_payload r) = payload_len r ∧
  serialized_size r = RECORD_HEADER_SIZE + zlen (serialize_payload r).
Proof.
  intros Hr. rewrite serialize_length.
  auto using try_from_code, deserialize_serialize.
Qed.

Lemma wal_record_roundtrip_witness :
  let r := BatchInsert [([97; 98], Some [1; 2; 3]); ([], None)] in
  deserialize TBatchInsert (serialize_payload r ++ [255]) = Ret (Ok r).
Proof.
  intros r. apply (wal_record_roundtrip r [255]).
  repeat constructor; vm_compute; congruence.
Defined.

(** C35: no input makes the decoder panic.  On every byte string and every
    record type [deserialize] returns, with a record or with an error: no slice
    it takes is out of range, and its loops end. *)
Theorem deserialize_never_panics ty payload :
  is_bytes payload → ∃ r, deserialize ty payload = Ret r.
Proof. intros. by apply deserialize_total. Qed.

(** A batch that claims 2^32 - 1 entries. *)
Lemma deserialize_never_panics_witness :
  is_bytes [255; 255; 255; 255; 1; 0; 0; 0] ∧
  ∃ r, deserialize TBatchIncrement [255; 255; 255; 255; 1; 0; 0; 0] = Ret r.
Proof.
  assert (is_bytes [255; 255; 255; 255; 1; 0; 0; 0]) as Hb
    by (repeat constructor; vm_compute; congruence).
  split; [exact Hb|]. exact (deserialize_never_panics TBatchIncrement _ Hb).
Defined.

(** Torn payloads are rejected.  Every proper prefix of a record's payload
    is an error for the record's type: a record cut short is never decoded as
    another record. *)
Theorem deserialize_rejects_truncation r cut tail :
  record_ok r → serialize_payload r = cut ++ tail → tail ≠ [] →
  ∃ e, deserialize (record_type r) cut = Ret (Err e).
Proof.
  intros Hr Hcut Htail. pose proof (serialize_bytes r Hr) as Hb. rewrite Hcut in Hb.
  destruct (deserialize_total cut (proj1 (proj1 (Forall_app _ _ _) Hb)) (record_type r))
    as [[r'|e] Hd]; [|eauto].
  destruct (deserialize_extend _ _ _ Hd) as [Hlen Hext]. exfalso.
  pose proof (deserialize_serialize r [] Hr) as Hrt. rewrite app_nil_r, Hcut, Hext in Hrt.
  injection Hrt as ->. rewrite <-serialize_length, Hcut, zlen_app in Hlen.
  destruct tail; [done|]. rewrite zlen_cons in Hlen. zlen_lia.
Qed.

Lemma deserialize_rejects_truncation_witness :
  ∃ e, deserialize TUpsert ([1; 0; 0; 0; 97; 2; 0; 0; 0] ++ [5]) = Ret (Err e).
Proof.
  apply (deserialize_rejects_truncation (Upsert [97] [5; 6])
    ([1; 0; 0; 0; 97; 2; 0; 0; 0] ++ [5]) [6]);
    [repeat constructor; vm_compute; congruence|reflexivity|congruence].
Defined.
