(* ===== verification/WalHeader.v ===== *)
(** * The WAL file header

    The first 64 bytes of a WAL file
    (src/src/persistent_artrie/core/wal/header.rs). *)

From stdpp Require Import prelude strings pretty.
From S2P Require Import Prelude Bytes WalCodec.
Local Open Scope Z_scope.
Local Open Scope list_scope.

Inductive RankRegime : Set := Owned | Overlay.

Definition RankRegime_code (r : RankRegime) : Z := match r with Owned => 0 | Overlay => 1 end.

Definition RankRegime_from_u8 (b : Z) : RankRegime := if b =? 1 then Overlay else Owned.

Record WalHeader := mkWalHeader {
  magic : list Z;
  wal_version : Z;
  checkpoint_lsn : Z;
  commit_seq_floor : Z;
  rank_regime : Z;
  reserved : list Z;
}.

(** ["PARTWAL\0"] and ["PARTWALO"] *)
Definition MAGIC : list Z := [80; 65; 82; 84; 87; 65; 76; 0].
Definition MAGIC_OVERLAY : list Z := [80; 65; 82; 84; 87; 65; 76; 79].
Definition VERSION : Z := 2.
Definition MIN_SUPPORTED_VERSION : Z := 1.
Definition HEADER_SIZE : nat := 64.

Definition WalHeader_new : WalHeader :=
  mkWalHeader MAGIC VERSION 0 0 (RankRegime_code Owned) (replicate 35 0).

(** [buf[a..b].copy_from_slice(bs)]: panics unless the range is inside [buf] and
    as long as [bs]. *)
Definition copy_into (buf : list Z) (a b : nat) (bs : list Z) : exec (list Z) :=
  if decide (a ≤ b ∧ b ≤ length buf ∧ length bs = b - a)%nat
  then Ret (take a buf ++ bs ++ drop b buf) else Panic.

Definition WalHeader_to_bytes (h : WalHeader) : exec (list Z) :=
  let buf := replicate HEADER_SIZE 0 in
  buf ← copy_into buf 0 8 (magic h);
  buf ← copy_into buf 8 12 (to_le_bytes 4 (wal_version h));
  buf ← copy_into buf 12 20 (to_le_bytes 8 (checkpoint_lsn h));
  buf ← copy_into buf 20 28 (to_le_bytes 8 (commit_seq_floor h));
  buf ← store buf 28 (rank_regime h);
  copy_into buf 29 64 (reserved h).

Definition unsupported_version (version : Z) : string :=
  "Unsupported WAL version: " +:+ pretty version +:+ " (supported range " +:+
  pretty MIN_SUPPORTED_VERSION +:+ "..=" +:+ pretty VERSION +:+ ")".

Definition WalHeader_from_bytes (buf : list Z) : decoded WalHeader :=
  magic ← slice buf 0 8;
  if negb (bool_decide (magic = MAGIC)) && negb (bool_decide (magic = MAGIC_OVERLAY)) then
    corrupted "Invalid WAL magic number"
  else
    version ← get_u32 buf 8;
    if negb ((MIN_SUPPORTED_VERSION <=? version) && (version <=? VERSION)) then
      corrupted (unsupported_version version)
    else
      checkpoint_lsn ← get_u64 buf 12;
      commit_seq_floor ← get_u64 buf 20;
      rank_regime ← index buf 28;
      reserved ← slice buf 29 64;
      Ret (Ok (mkWalHeader magic version checkpoint_lsn commit_seq_floor rank_regime reserved)).

Definition WalHeader_regime (h : WalHeader) : RankRegime := RankRegime_from_u8 (rank_regime h).

(** ** Properties *)

Definition header_ok (h : WalHeader) : Prop :=
  (magic h = MAGIC ∨ magic h = MAGIC_OVERLAY) ∧
  MIN_SUPPORTED_VERSION ≤ wal_version h ≤ VERSION ∧
  is_u64 (checkpoint_lsn h) ∧ is_u64 (commit_seq_floor h) ∧ is_u8 (rank_regime h) ∧
  length (reserved h) = 35%nat ∧ is_bytes (reserved h).

(** Writing the next field after the [a] bytes already written. *)
Lemma copy_into_next done rest bs a b :
  length done = a → length bs = (b - a)%nat → (a ≤ b)%nat → (length bs ≤ length rest)%nat →
  copy_into (done ++ rest) a b bs = Ret (done ++ bs ++ drop (length bs) rest).
Proof.
  intros <- Hbs Hab Hrest. unfold copy_into. rewrite length_app, decide_True by lia.
  rewrite take_app_length. do 3 f_equal.
  rewrite drop_app_ge by lia. by rewrite Hbs.
Qed.

Lemma to_bytes_layout h :
  length (magic h) = 8%nat → length (reserved h) = 35%nat →
  WalHeader_to_bytes h = Ret (magic h ++ to_le_bytes 4 (wal_version h) ++
    to_le_bytes 8 (checkpoint_lsn h) ++ to_le_bytes 8 (commit_seq_floor h) ++
    [rank_regime h] ++ reserved h).
Proof.
  intros Hm Hr. unfold WalHeader_to_bytes, HEADER_SIZE.
  rewrite <-(app_nil_l (replicate 64 0)).
  rewrite copy_into_next by (rewrite ?length_replicate; simpl; lia).
  rewrite drop_replicate, Hm, app_nil_l. cbn [mbind option_bind Nat.sub].
  rewrite copy_into_next by (rewrite ?length_replicate, ?length_to_le_bytes; lia).
  rewrite drop_replicate, length_to_le_bytes. cbn [mbind option_bind Nat.sub]. rewrite app_assoc.
  rewrite copy_into_next by (rewrite ?length_replicate, ?length_app, ?length_to_le_bytes; lia).
  rewrite drop_replicate, length_to_le_bytes. cbn [mbind option_bind Nat.sub]. rewrite app_assoc.
  rewrite copy_into_next by (rewrite ?length_replicate, ?length_app, ?length_to_le_bytes; lia).
  rewrite drop_replicate, length_to_le_bytes. cbn [mbind option_bind Nat.sub]. rewrite app_assoc.
  rewrite store_Some by (rewrite !length_app, length_replicate, !length_to_le_bytes; lia).
  cbn [mbind option_bind]. rewrite insert_app_r_alt
    by (rewrite !length_app, !length_to_le_bytes; lia).
  replace (28 - length _)%nat with 0%nat by (rewrite !length_app, !length_to_le_bytes; lia).
  change (replicate 36 0) with ([0] ++ replicate 35 0). cbn [insert list_insert app].
  change (rank_regime h :: replicate 35 0) with ([rank_regime h] ++ replicate 35 0).
  rewrite app_assoc, copy_into_next
    by (rewrite ?length_replicate, ?length_app, ?length_to_le_bytes; simpl; lia).
  rewrite drop_replicate, Hr. cbn [Nat.sub replicate]. by rewrite app_nil_r, <-!app_assoc.
Qed.

Lemma header_roundtrip_ok h rest :
  header_ok h →
  ∃ buf, WalHeader_to_bytes h = Ret buf ∧ length buf = HEADER_SIZE ∧
    WalHeader_from_bytes (buf ++ rest) = Ret (Ok h).
Proof.
  intros (Hm & Hv & Hc & Hf & Hr & Hlen & _).
  assert (length (magic h) = 8%nat) as Hml by (destruct Hm as [-> | ->]; reflexivity).
  rewrite to_bytes_layout by done. eexists. split; [reflexivity|]. split.
  { rewrite !length_app, !length_to_le_bytes, Hlen, Hml. reflexivity. }
  set (buf := magic h ++ _). pose proof (holds_prefix buf rest) as H.
  set (all := buf ++ rest) in *. unfold buf in H. clearbody all. clear buf.
  assert (zlen (magic h) = 8) as Hzm by (unfold zlen; lia).
  assert (zlen (reserved h) = 35) as Hzr by (unfold zlen; lia).
  apply holds_app in H as [H1 H]. apply holds_app in H as [H2 H]. apply holds_app in H as [H3 H].
  apply holds_app in H as [H4 H]. apply holds_app in H as [H5 H6].
  autorewrite with zlen in *. rewrite Hzm in *.
  unfold WalHeader_from_bytes. rewrite (holds_slice all 0 (magic h) 8 H1) by lia. bind_step.
  unfold MIN_SUPPORTED_VERSION, VERSION in *.
  rewrite (holds_u32 all 8 (wal_version h)); [|unfold is_u32; lia|done]. bind_step.
  rewrite (holds_u64 all 12 _ Hc H3), (holds_u64 all 20 _ Hf H4). bind_step.
  rewrite (holds_index all 28 _ H5). bind_step.
  rewrite (holds_slice all 29 _ 64 H6) by lia. bind_step.
  rewrite !(proj2 (Z.leb_le _ _)) by lia. cbn [andb negb].
  destruct h. simpl in *. by destruct Hm as [-> | ->].
Qed.

(** The file header.  A header with one of the two magic numbers and a
    supported version is read back exactly as it was written; conversely, every
    64-byte block the reader accepts has such a magic number and version and is
    exactly what writing the header it returned produces; nothing panics.  A
    regime byte other than 1 reads as [Owned]. *)
Theorem wal_header_roundtrip :
  (∀ h, header_ok h →
     ∃ buf, WalHeader_to_bytes h = Ret buf ∧ length buf = HEADER_SIZE ∧
       WalHeader_from_bytes buf = Ret (Ok h)) ∧
  (∀ buf, length buf = HEADER_SIZE → is_bytes buf →
     (∃ e, WalHeader_from_bytes buf = Ret (Err e)) ∨
     (∃ h, WalHeader_from_bytes buf = Ret (Ok h) ∧ header_ok h ∧ WalHeader_to_bytes h = Ret buf)) ∧
  (∀ h, WalHeader_regime h = Overlay ↔ rank_regime h = RankRegime_code Overlay).
Proof.
  split_and!.
  - intros h Hh. destruct (header_roundtrip_ok h [] Hh) as (buf & H1 & H2 & H3).
    rewrite app_nil_r in H3. eauto.
  - intros buf Hlen Hb. assert (zlen buf = 64) as Hz by (unfold zlen; by rewrite Hlen).
    unfold WalHeader_from_bytes, corrupted.
    destruct (slice_total buf 0 8) as [m Hm]; [lia..|]. rewrite Hm. bind_step.
    destruct (negb (bool_decide (m = MAGIC)) && _) eqn:Hmagic; [left; eauto|].
    destruct (get_le_total 4 buf 8) as [v Hv]; [lia..|].
    destruct (get_le_total 8 buf 12) as [c Hc]; [lia..|].
    destruct (get_le_total 8 buf 20) as [f Hf]; [lia..|].
    destruct (index_total buf 28) as [r Hr]; [lia|].
    destruct (slice_total buf 29 64) as [res Hres]; [lia..|].
    unfold get_u32, get_u64. rewrite Hv. bind_step.
    destruct (negb ((MIN_SUPPORTED_VERSION <=? v) && (v <=? VERSION))) eqn:Hver; [left; eauto|].
    rewrite Hc, Hf, Hr, Hres. bind_step. right. eexists. split; [reflexivity|].
    apply get_le_slice in Hv as [Hv _]; [|done]. apply get_le_slice in Hc as [Hc ?]; [|done].
    apply get_le_slice in Hf as [Hf ?]; [|done]. simpl in Hv, Hc, Hf.
    assert (is_u8 r ∧ is_bytes res) as [? ?].
    { unfold index in Hr. case_decide; [|done]. split; [by eapply Forall_lookup_1 in Hr|].
      unfold slice in Hres. case_decide; [|done]. injection Hres as <-.
      by apply Forall_take, Forall_drop. }
    pose proof (slice_Some _ _ _ _ Hm) as (_ & _ & _ & Hml).
    pose proof (slice_Some _ _ _ _ Hres) as (_ & _ & _ & Hrl).
    assert (length res = 35%nat ∧ length m = 8%nat) as [? ?] by (unfold zlen in *; lia).
    apply negb_false_iff, andb_true_iff in Hver as [Hv1%Z.leb_le Hv2%Z.leb_le]. split.
    + split_and!; try done. simpl.
      apply andb_false_iff in Hmagic as [Hx|Hx]; apply negb_false_iff in Hx;
        apply bool_decide_eq_true in Hx; auto.
    + rewrite to_bytes_layout by done. simpl.
      pose proof (slice_cat _ _ _ _ _ _ Hm (slice_cat _ _ _ _ _ _ Hv
        (slice_cat _ _ _ _ _ _ Hc (slice_cat _ _ _ _ _ _ Hf
          (slice_cat _ _ _ _ _ _ (index_slice _ _ _ Hr) Hres))))) as Hall.
      rewrite <-Hz, slice_all in Hall. symmetry. exact Hall.
  - intros h. unfold WalHeader_regime, RankRegime_from_u8. simpl.
    destruct (Z.eqb_spec (rank_regime h) 1); naive_solver.
Qed.

Lemma wal_header_roundtrip_witness :
  ∃ buf, WalHeader_to_bytes WalHeader_new = Ret buf ∧ length buf = HEADER_SIZE ∧
    WalHeader_from_bytes buf = Ret (Ok WalHeader_new).
Proof.
  apply (proj1 wal_header_roundtrip WalHeader_new).
  split_and!; first
    [ by left | reflexivity | vm_compute; congruence | vm_compute; split; congruence
    | apply (Forall_replicate is_u8 35); vm_compute; split; congruence ].
Defined.
