(* ===== verification/WalFrame.v ===== *)
(** * Record frames

    The frame around each record in the log file: the checksum of
    src/src/persistent_artrie/core/wal.rs, [encode_record_frame] of
    wal/writer.rs, and [WalReader::next_record] with its iterator of
    wal/reader.rs.  The reader's state is the part of the file it has not
    read yet; a short [read_exact] leaves nothing to read. *)

From stdpp Require Import prelude strings pretty.
From S2P Require Import Prelude Bytes WalCodec.
Local Open Scope Z_scope.
Local Open Scope list_scope.

(** ** CRC-32 *)

Definition CRC_POLY : Z := 3988292384.

Definition crc_bit (crc : Z) : Z :=
  if negb (Z.land crc 1 =? 0) then Z.lxor (Z.shiftr crc 1) CRC_POLY else Z.shiftr crc 1.

Definition crc_byte (crc byte : Z) : Z := Nat.iter 8 crc_bit (Z.lxor crc byte).

Definition crc32 (data : list Z) : Z :=
  Z.lxor (foldl crc_byte 4294967295 data) 4294967295.

(** ** Writing *)

(** [buf[0..4].copy_from_slice(&crc.to_le_bytes())] *)
Definition encode_record_frame (lsn : Z) (record : WalRecord) : list Z :=
  let payload := serialize_payload record in
  let ty := WalRecordType_code (record_type record) in
  let total_len := RECORD_HEADER_SIZE + zlen payload in
  let buf :=
    replicate 4 0 ++ to_le_bytes 4 (u32 total_len) ++ to_le_bytes 8 lsn ++ [ty] ++ payload in
  let crc := crc32 (drop 4 buf) in
  to_le_bytes 4 crc ++ drop 4 buf.

(** ** Reading *)

(** [{:#x}] *)
Definition hex_digit (d : Z) : string :=
  String (Ascii.ascii_of_nat (Z.to_nat (if d <? 10 then 48 + d else 87 + d))) EmptyString.

Fixpoint hex_digits (fuel : nat) (z : Z) (acc : string) : string :=
  match fuel with
  | O => acc
  | S fuel =>
      let acc := hex_digit (z mod 16) +:+ acc in
      if z / 16 =? 0 then acc else hex_digits fuel (z / 16) acc
  end.

Definition hex (z : Z) : string := "0x" +:+ hex_digits 8 z EmptyString.

Definition crc_mismatch (stored computed : Z) : string :=
  "CRC mismatch: stored=" +:+ hex stored +:+ ", computed=" +:+ hex computed.

(** [reader.read_exact(&mut buf)] for an [n]-byte buffer: [None] is
    [UnexpectedEof]. *)
Definition read_exact (n : Z) (input : list Z) : option (list Z) * list Z :=
  if zlen input <? n then (None, [])
  else (Some (take (Z.to_nat n) input), drop (Z.to_nat n) input).

Definition next_record (input : list Z) :
    exec (option (result (Z * WalRecord) WalError) * list Z) :=
  let '(header, input) := read_exact RECORD_HEADER_SIZE input in
  match header with
  | None => Ret (None, input)
  | Some header_buf =>
      stored_crc ← get_u32 header_buf 0;
      length ← get_u32 header_buf 4;
      lsn ← get_u64 header_buf 8;
      record_type_byte ← index header_buf 16;
      if length <? RECORD_HEADER_SIZE then
        Ret (Some (Err (CorruptedRecord "Record length too small")), input)
      else
        let payload_len := length - RECORD_HEADER_SIZE in
        let '(payload, input) :=
          if payload_len =? 0 then (Some [], input) else read_exact payload_len input in
        match payload with
        | None => Ret (Some (Err UnexpectedEof), input)
        | Some payload =>
            crc_data ← slice header_buf 4 (zlen header_buf);
            let computed_crc := crc32 (crc_data ++ payload) in
            if negb (stored_crc =? computed_crc) then
              Ret (Some (Err (CorruptedRecord (crc_mismatch stored_crc computed_crc))), input)
            else
              match WalRecordType_try_from record_type_byte with
              | Err e => Ret (Some (Err e), input)
              | Ok record_type =>
                  r ← deserialize record_type payload;
                  match r with
                  | Ok record => Ret (Some (Ok (lsn, record)), input)
                  | Err e => Ret (Some (Err e), input)
                  end
              end
        end
  end.

(** Draining the iterator: what [next_record] returns until it returns [None].
    Each call that returns something reads at least the 17 header bytes, so the
    length of the input is enough fuel. *)
Fixpoint read_all (fuel : nat) (input : list Z) : exec (list (result (Z * WalRecord) WalError)) :=
  match fuel with
  | O => Panic
  | S fuel =>
      '(r, input) ← next_record input;
      match r with
      | None => Ret []
      | Some x => rest ← read_all fuel input; Ret (x :: rest)
      end
  end.

Definition read_log (input : list Z) : exec (list (result (Z * WalRecord) WalError)) :=
  read_all (S (length input)) input.

(** ** The checksum *)

Definition is_crc (z : Z) : Prop := is_u32 z.

Lemma lt_pow2_testbit z n :
  0 ≤ n → 0 ≤ z → (∀ i, n ≤ i → Z.testbit z i = false) → z < 2 ^ n.
Proof.
  intros Hn Hz Hbits. destruct (Z.lt_ge_cases z (2 ^ n)) as [|Hge]; [done|].
  assert (0 < z) by (pose proof (Z.pow_pos_nonneg 2 n); lia).
  pose proof (Z.bit_log2 z) as Hb. rewrite Hbits in Hb; [naive_solver|].
  apply Z.log2_le_pow2; lia.
Qed.

Lemma testbit_high z n i : 0 ≤ z < 2 ^ n → 0 ≤ n → n ≤ i → Z.testbit z i = false.
Proof.
  intros Hz Hn Hi. rewrite <-(Z.mod_small z (2 ^ n)) by done. by apply Z.mod_pow2_bits_high.
Qed.

Lemma lxor_range n a b : 0 ≤ n → 0 ≤ a < 2 ^ n → 0 ≤ b < 2 ^ n → 0 ≤ Z.lxor a b < 2 ^ n.
Proof.
  intros Hn Ha Hb. assert (0 ≤ Z.lxor a b) by (apply Z.lxor_nonneg; lia). split; [done|].
  apply lt_pow2_testbit; [done..|]. intros i Hi.
  rewrite Z.lxor_spec, (testbit_high a n), (testbit_high b n); done.
Qed.

Lemma lxor_cancel_l a b c : Z.lxor a b = Z.lxor a c → b = c.
Proof.
  intros H. apply (f_equal (Z.lxor a)) in H.
  by rewrite <-!Z.lxor_assoc, Z.lxor_nilpotent, !Z.lxor_0_l in H.
Qed.

Lemma lxor_cancel_r a b c : Z.lxor b a = Z.lxor c a → b = c.
Proof. rewrite !(Z.lxor_comm _ a). apply lxor_cancel_l. Qed.

Lemma crc_bit_range c : is_crc c → is_crc (crc_bit c).
Proof.
  unfold is_crc, is_u32, crc_bit. intros Hc.
  assert (0 ≤ Z.shiftr c 1 < 2 ^ 32).
  { rewrite Z.shiftr_div_pow2 by lia. change (2 ^ 1) with 2.
    pose proof (Z.div_pos c 2). assert (c / 2 ≤ c) by (apply Z.div_le_upper_bound; lia). lia. }
  destruct (negb _); [|done]. apply lxor_range; [lia|done|by vm_compute].
Qed.

(** The polynomial's top bit tells which way the step went, so the step can be
    undone. *)
Lemma crc_bit_inj a b : is_crc a → is_crc b → crc_bit a = crc_bit b → a = b.
Proof.
  intros Ha Hb H. unfold is_crc, is_u32 in *.
  assert (∀ c, 0 ≤ c < 2 ^ 32 →
    crc_bit c = Z.lxor (Z.shiftr c 1) (if Z.testbit c 0 then CRC_POLY else 0)) as Hstep.
  { intros c _. unfold crc_bit. change 1 with (2 ^ 0) at 1. rewrite land_pow2_eqb by done.
    rewrite negb_involutive. destruct (Z.testbit c 0); [done|]. by rewrite Z.lxor_0_r. }
  rewrite !Hstep in H by done.
  assert (∀ c, 0 ≤ c < 2 ^ 32 → Z.testbit (Z.shiftr c 1) 31 = false) as Htop.
  { intros c Hc. rewrite Z.shiftr_spec by lia. by apply (testbit_high c 32). }
  assert (Z.testbit a 0 = Z.testbit b 0) as H0.
  { pose proof (f_equal (λ z, Z.testbit z 31) H) as H31. cbv beta in H31.
    rewrite !Z.lxor_spec, !Htop in H31 by done.
    by destruct (Z.testbit a 0), (Z.testbit b 0). }
  rewrite H0 in H. apply lxor_cancel_r in H.
  apply Z.bits_inj'. intros i Hi. destruct (decide (i = 0)) as [->|]; [done|].
  replace i with (i - 1 + 1) by lia. rewrite <-!Z.shiftr_spec by lia. by rewrite H.
Qed.

Lemma crc_iter_range n c : is_crc c → is_crc (Nat.iter n crc_bit c).
Proof. intros. induction n; simpl; auto using crc_bit_range. Qed.

Lemma crc_iter_inj n a b :
  is_crc a → is_crc b → Nat.iter n crc_bit a = Nat.iter n crc_bit b → a = b.
Proof.
  intros Ha Hb. induction n as [|n IH]; simpl; [done|]. intros H.
  apply IH, crc_bit_inj; auto using crc_iter_range.
Qed.

Lemma crc_xor_range c b : is_crc c → is_u8 b → is_crc (Z.lxor c b).
Proof. unfold is_crc, is_u32, is_u8. intros. apply lxor_range; lia. Qed.

Lemma crc_fold_range c l : is_crc c → is_bytes l → is_crc (foldl crc_byte c l).
Proof.
  intros Hc Hl. revert c Hc. induction Hl as [|b l Hb _ IH]; intros c Hc; simpl; [done|].
  apply IH. unfold crc_byte. auto using crc_iter_range, crc_xor_range.
Qed.

Lemma crc_fold_inj l a b :
  is_bytes l → is_crc a → is_crc b → foldl crc_byte a l = foldl crc_byte b l → a = b.
Proof.
  intros Hl. revert a b. induction Hl as [|x l Hx _ IH]; intros a b Ha Hb H; simpl in *; [done|].
  apply IH in H; [|unfold crc_byte; auto using crc_iter_range, crc_xor_range..].
  apply crc_iter_inj in H; [|auto using crc_xor_range..]. by apply lxor_cancel_r in H.
Qed.

Lemma crc32_range l : is_bytes l → is_u32 (crc32 l).
Proof.
  intros Hl. apply (lxor_range 32); [lia| |by vm_compute].
  apply crc_fold_range; [by vm_compute|done].
Qed.

Lemma crc32_one_byte pre a b post :
  is_bytes pre → is_bytes post → is_u8 a → is_u8 b →
  crc32 (pre ++ a :: post) = crc32 (pre ++ b :: post) → a = b.
Proof.
  intros Hpre Hpost Ha Hb H. unfold crc32 in H. apply lxor_cancel_r in H.
  rewrite !foldl_app in H. cbn [foldl] in H.
  assert (is_crc (foldl crc_byte 4294967295 pre)) as Hc
    by (apply crc_fold_range; [by vm_compute|done]).
  apply crc_fold_inj in H; [|done|unfold crc_byte; auto using crc_iter_range, crc_xor_range..].
  apply crc_iter_inj in H; [|auto using crc_xor_range..]. by apply lxor_cancel_l in H.
Qed.

(** ** Reading one frame *)

(** The bytes the checksum covers. *)
Definition frame_body (len lsn ty : Z) (payload : list Z) : list Z :=
  to_le_bytes 4 len ++ to_le_bytes 8 lsn ++ [ty] ++ payload.

(** A record whose frame can be written: its length fits the length field. *)
Definition frame_ok (lsn : Z) (r : WalRecord) : Prop :=
  record_ok r ∧ is_u64 lsn ∧ is_u32 (RECORD_HEADER_SIZE + payload_len r).

Lemma encode_frame_layout lsn r :
  frame_ok lsn r →
  encode_record_frame lsn r =
    let body := frame_body (RECORD_HEADER_SIZE + payload_len r) lsn
                  (WalRecordType_code (record_type r)) (serialize_payload r) in
    to_le_bytes 4 (crc32 body) ++ body.
Proof.
  intros (_ & _ & Hlen). unfold encode_record_frame. rewrite serialize_length, u32_id by done. done.
Qed.

Lemma read_exact_app n a rest :
  zlen a = n → read_exact n (a ++ rest) = (Some a, rest).
Proof.
  intros <-. unfold read_exact. rewrite zlen_app, (proj2 (Z.ltb_ge _ _)) by (zlen_pos; lia).
  unfold zlen. by rewrite Nat2Z.id, take_app_length, drop_app_length.
Qed.

(** What the reader makes of a complete frame. *)
Definition check_frame (crc lsn ty : Z) (body payload : list Z) :
    decoded (Z * WalRecord) :=
  if negb (crc =? crc32 body) then Ret (Err (CorruptedRecord (crc_mismatch crc (crc32 body))))
  else
    match WalRecordType_try_from ty with
    | Err e => Ret (Err e)
    | Ok record_type =>
        r ← deserialize record_type payload;
        match r with
        | Ok record => Ret (Ok (lsn, record))
        | Err e => Ret (Err e)
        end
    end.

Definition frame_header (crc len lsn ty : Z) : list Z :=
  to_le_bytes 4 crc ++ to_le_bytes 4 len ++ to_le_bytes 8 lsn ++ [ty].

Lemma zlen_frame_header crc len lsn ty :
  zlen (frame_header crc len lsn ty) = RECORD_HEADER_SIZE.
Proof. unfold frame_header, RECORD_HEADER_SIZE. zlen_lia. Qed.

Lemma frame_header_reads crc len lsn ty :
  is_u32 crc → is_u32 len → is_u64 lsn →
  let header := frame_header crc len lsn ty in
  get_u32 header 0 = Ret crc ∧ get_u32 header 4 = Ret len ∧ get_u64 header 8 = Ret lsn ∧
  index header 16 = Ret ty ∧
  slice header 4 (zlen header) = Ret (to_le_bytes 4 len ++ to_le_bytes 8 lsn ++ [ty]).
Proof.
  intros Hcrc Hlen Hlsn header. pose proof (zlen_frame_header crc len lsn ty) as Hh.
  fold header in Hh. pose proof (holds_prefix header []) as H. rewrite app_nil_r in H.
  unfold header in H at 2. unfold frame_header in H. apply holds_app in H as [H1 H].
  assert (slice header 4 (zlen header) =
    Ret (to_le_bytes 4 len ++ to_le_bytes 8 lsn ++ [ty])) as Hs.
  { rewrite zlen_to_le_bytes in H. apply holds_slice; [exact H|].
    rewrite Hh. unfold RECORD_HEADER_SIZE. zlen_lia. }
  apply holds_app in H as [H2 H]. apply holds_app in H as [H3 H4]. autorewrite with zlen in *.
  split_and!; [by apply holds_u32|by apply holds_u32|by apply holds_u64|by apply holds_index|done].
Qed.

Lemma next_record_frame crc lsn ty payload rest :
  is_u32 crc → is_u64 lsn → is_u8 ty → is_u32 (RECORD_HEADER_SIZE + zlen payload) →
  let body := frame_body (RECORD_HEADER_SIZE + zlen payload) lsn ty payload in
  next_record (to_le_bytes 4 crc ++ body ++ rest) =
    r ← check_frame crc lsn ty body payload; Ret (Some r, rest).
Proof.
  intros Hcrc Hlsn Hty Hlen body. set (len := RECORD_HEADER_SIZE + zlen payload) in *.
  assert (to_le_bytes 4 crc ++ body ++ rest = frame_header crc len lsn ty ++ payload ++ rest) as ->.
  { unfold body, frame_header, frame_body. by rewrite <-!app_assoc. }
  unfold next_record. rewrite read_exact_app by apply zlen_frame_header.
  destruct (frame_header_reads crc len lsn ty) as (-> & -> & -> & -> & ->); [done..|]. bind_step.
  rewrite (proj2 (Z.ltb_ge len RECORD_HEADER_SIZE)) by (unfold len; zlen_pos; lia).
  assert ((if len - RECORD_HEADER_SIZE =? 0 then (Some [], payload ++ rest)
           else read_exact (len - RECORD_HEADER_SIZE) (payload ++ rest)) =
          (Some payload, rest)) as ->.
  { unfold len. rewrite Z.add_simpl_l. destruct (Z.eqb_spec (zlen payload) 0) as [Hz|].
    - destruct payload; [done|]. rewrite zlen_cons in Hz. zlen_lia.
    - by apply read_exact_app. }
  rewrite <-!app_assoc. fold (frame_body len lsn ty payload). fold body.
  unfold check_frame. destruct (negb _); [done|]. destruct (WalRecordType_try_from ty); [|done].
  destruct (deserialize _ _) as [[]|]; done.
Qed.

(** A frame that was cut short: the reader stops at the end of the file, or
    reports it. *)
Lemma next_record_torn crc len lsn ty payload cut tail :
  is_u32 crc → is_u32 len → is_u64 lsn → len = RECORD_HEADER_SIZE + zlen payload →
  frame_header crc len lsn ty ++ payload = cut ++ tail → tail ≠ [] →
  next_record cut = Ret (if zlen cut <? RECORD_HEADER_SIZE then None else Some (Err UnexpectedEof), []).
Proof.
  intros Hcrc Hlen Hlsn Heq Hcut Htail. unfold next_record.
  pose proof (zlen_frame_header crc len lsn ty) as Hh.
  unfold read_exact at 1. destruct (Z.ltb_spec (zlen cut) RECORD_HEADER_SIZE) as [Hlt|Hge]; [done|].
  assert (∃ part, cut = frame_header crc len lsn ty ++ part ∧ zlen part < zlen payload)
    as (part & -> & Hpart).
  { pose proof (f_equal (take (length (frame_header crc len lsn ty))) Hcut) as Ht.
    rewrite take_app_length, take_app_le in Ht by (unfold zlen in *; lia).
    exists (drop (length (frame_header crc len lsn ty)) cut). rewrite Ht at 1.
    rewrite take_drop. split; [done|]. apply (f_equal zlen) in Hcut.
    destruct tail; [done|]. rewrite !zlen_app, zlen_cons in Hcut.
    unfold zlen in *. rewrite length_drop. lia. }
  replace (Z.to_nat RECORD_HEADER_SIZE) with (length (frame_header crc len lsn ty))
    by (unfold zlen in Hh; lia).
  rewrite take_app_length, drop_app_length.
  destruct (frame_header_reads crc len lsn ty) as (-> & -> & -> & -> & _); [done..|]. bind_step.
  subst len. rewrite (proj2 (Z.ltb_ge _ RECORD_HEADER_SIZE)) by (zlen_pos; lia).
  rewrite Z.add_simpl_l, (proj2 (Z.eqb_neq _ 0)) by (zlen_pos; lia).
  unfold read_exact. by rewrite (proj2 (Z.ltb_lt _ _)).
Qed.

Lemma next_record_encoded lsn r rest :
  frame_ok lsn r → next_record (encode_record_frame lsn r ++ rest) = Ret (Some (Ok (lsn, r)), rest).
Proof.
  intros Hok. pose proof Hok as (Hr & Hlsn & Hlen). rewrite encode_frame_layout by done.
  cbv zeta. rewrite <-serialize_length in *. rewrite <-app_assoc.
  rewrite next_record_frame; [|apply crc32_range|done|apply WalRecordType_code_u8|done].
  - unfold check_frame. rewrite Z.eqb_refl, try_from_code. cbn [negb].
    pose proof (deserialize_serialize r [] Hr) as Hd. rewrite app_nil_r in Hd.
    rewrite Hd. done.
  - unfold frame_body. repeat (apply Forall_app; split); try apply to_le_bytes_bytes.
    + constructor; [apply WalRecordType_code_u8|constructor].
    + by apply serialize_bytes.
Qed.

(** ** Reading a whole log *)

Definition frames (entries : list (Z * WalRecord)) : list Z :=
  flat_map (λ e, encode_record_frame e.1 e.2) entries.

Lemma encode_frame_header lsn r :
  frame_ok lsn r →
  ∃ crc, is_u32 crc ∧ encode_record_frame lsn r =
    frame_header crc (RECORD_HEADER_SIZE + zlen (serialize_payload r)) lsn
      (WalRecordType_code (record_type r)) ++ serialize_payload r.
Proof.
  intros Hok. pose proof Hok as (Hr & _). rewrite encode_frame_layout by done.
  eexists. rewrite serialize_length. unfold frame_header, frame_body. rewrite <-!app_assoc.
  split; [|reflexivity]. apply crc32_range.
  repeat (apply Forall_app; split); try apply to_le_bytes_bytes;
    [repeat constructor; apply WalRecordType_code_u8|by apply serialize_bytes].
Qed.

Lemma read_all_frames entries tail fuel :
  Forall (λ e, frame_ok e.1 e.2) entries → (length entries ≤ fuel)%nat →
  read_all (fuel) (frames entries ++ tail) =
    rest ← read_all (fuel - length entries) tail; Ret (map Ok entries ++ rest).
Proof.
  intros Hok. revert fuel. induction Hok as [|[lsn r] entries He _ IH]; intros fuel Hf.
  - cbn [length frames flat_map app map]. rewrite Nat.sub_0_r. by destruct (read_all fuel tail).
  - destruct fuel as [|fuel]; [simpl in Hf; lia|].
    unfold frames. cbn [read_all flat_map fst snd length map].
    rewrite <-app_assoc, next_record_encoded by done. bind_step.
    fold (frames entries). rewrite IH by (simpl in Hf; lia). cbn [Nat.sub].
    by destruct (read_all _ tail).
Qed.

(** What is left of a frame after a crash in the middle of writing it. *)
Definition torn (tail : list Z) : Prop :=
  tail = [] ∨ ∃ lsn r missing, frame_ok lsn r ∧ encode_record_frame lsn r = tail ++ missing ∧ missing ≠ [].

Lemma read_all_torn tail fuel :
  torn tail → (2 ≤ fuel)%nat →
  read_all fuel tail = Ret (if zlen tail <? RECORD_HEADER_SIZE then [] else [Err UnexpectedEof]).
Proof.
  intros Ht Hf. destruct fuel as [|[|fuel]]; [lia..|].
  assert (∀ m, read_all (S m) [] = Ret []) as Hnil by done.
  destruct Ht as [->|(lsn & r & missing & Hok & Henc & Hmiss)]; [apply Hnil|].
  destruct (encode_frame_header lsn r Hok) as (crc & Hcrc & Hlayout). rewrite Henc in Hlayout.
  pose proof Hok as (_ & Hlsn & Hlen). rewrite <-serialize_length in Hlen.
  cbn [read_all]. erewrite next_record_torn;
    [|exact Hcrc|exact Hlen|exact Hlsn|reflexivity|symmetry; exact Hlayout|done].
  bind_step. by destruct (_ <? _).
Qed.

Lemma frame_length lsn r : frame_ok lsn r → (17 ≤ length (encode_record_frame lsn r))%nat.
Proof.
  intros Hok. destruct (encode_frame_header lsn r Hok) as (crc & _ & ->). rewrite length_app.
  pose proof (zlen_frame_header crc (RECORD_HEADER_SIZE + zlen (serialize_payload r)) lsn
    (WalRecordType_code (record_type r))) as H.
  unfold zlen, RECORD_HEADER_SIZE in *. lia.
Qed.

Lemma frames_length entries :
  Forall (λ e, frame_ok e.1 e.2) entries → (length entries * 17 ≤ length (frames entries))%nat.
Proof.
  induction 1 as [|[lsn r] entries He _ IH]; [done|].
  unfold frames. cbn [flat_map fst snd length]. rewrite length_app.
  pose proof (frame_length lsn r He). unfold frames in IH. lia.
Qed.

Lemma read_log_torn entries tail :
  Forall (λ e, frame_ok e.1 e.2) entries → torn tail →
  read_log (frames entries ++ tail) =
    Ret (map Ok entries ++ if zlen tail <? RECORD_HEADER_SIZE then [] else [Err UnexpectedEof]).
Proof.
  intros Hok Ht. unfold read_log. pose proof (frames_length entries Hok) as Hl.
  rewrite length_app. rewrite read_all_frames by (done || lia).
  destruct (Z.ltb_spec (zlen tail) RECORD_HEADER_SIZE) as [Hlt|Hge].
  - destruct (decide (entries = [] ∧ tail = [])) as [[-> ->]|Hne]; [done|].
    assert (2 ≤ S (length (frames entries) + length tail) - length entries)%nat.
    { destruct entries; simpl in *; [|lia]. destruct tail; [naive_solver|simpl; lia]. }
    rewrite read_all_torn by done. by rewrite (proj2 (Z.ltb_lt _ _)).
  - rewrite read_all_torn by (done || (unfold zlen, RECORD_HEADER_SIZE in *; lia)).
    by rewrite (proj2 (Z.ltb_ge _ _)).
Qed.

(** The log is read back up to a torn tail.  Reading a log that holds the
    frames of any records, followed by any proper prefix of one more frame (what
    a crash during an append leaves), returns exactly those records with their
    sequence numbers, in order; the torn tail is never read as a record: it is
    the end of the log when its header is incomplete, and [UnexpectedEof]
    otherwise. *)
Theorem read_log_torn_tail entries tail :
  Forall (λ e, frame_ok e.1 e.2) entries → torn tail →
  read_log (frames entries ++ tail) =
    Ret (map Ok entries ++ if zlen tail <? RECORD_HEADER_SIZE then [] else [Err UnexpectedEof]).
Proof. apply read_log_torn. Qed.

Lemma read_log_torn_tail_witness :
  let entries := [(1, Insert [97] (Some [7])); (2, Remove [98])] in
  let tail := take 20 (encode_record_frame 3 (Remove [99])) in
  read_log (frames entries ++ tail) =
    Ret [Ok (1, Insert [97] (Some [7])); Ok (2, Remove [98]); Err UnexpectedEof].
Proof.
  intros entries tail. etrans; [apply (read_log_torn_tail entries tail)|reflexivity].
  - repeat constructor; vm_compute; congruence.
  - right. exists 3, (Remove [99]), (drop 20 (encode_record_frame 3 (Remove [99]))).
    split_and!; [repeat constructor; vm_compute; congruence|reflexivity|vm_compute; congruence].
Defined.

(** ** Reading any input *)

Lemma read_exact_spec n input :
  is_bytes input → 0 ≤ n →
  match read_exact n input with
  | (Some a, rest) => input = a ++ rest ∧ zlen a = n ∧ is_bytes a ∧ is_bytes rest
  | (None, rest) => rest = []
  end.
Proof.
  intros Hb Hn. unfold read_exact. destruct (Z.ltb_spec (zlen input) n); [done|].
  split_and!; [by rewrite take_drop| |by apply Forall_take|by apply Forall_drop].
  unfold zlen in *. rewrite length_take. lia.
Qed.

Lemma header_reads_total header :
  is_bytes header → zlen header = RECORD_HEADER_SIZE →
  ∃ crc len lsn ty crc_data,
    get_u32 header 0 = Ret crc ∧ get_u32 header 4 = Ret len ∧ get_u64 header 8 = Ret lsn ∧
    index header 16 = Ret ty ∧ slice header 4 (zlen header) = Ret crc_data.
Proof.
  unfold RECORD_HEADER_SIZE. intros Hb Hlen.
  destruct (get_u32_bytes header 0) as (crc & ? & _); [done|lia..|].
  destruct (get_u32_bytes header 4) as (len & ? & _); [done|lia..|].
  destruct (get_u64_bytes header 8) as (lsn & ? & _); [done|lia..|].
  destruct (index_total header 16) as [ty ?]; [lia|].
  destruct (slice_total header 4 (zlen header)) as [d ?]; [lia..|].
  by exists crc, len, lsn, ty, d.
Qed.

Lemma read_payload_spec n input :
  is_bytes input → 0 ≤ n →
  match (if n =? 0 then (Some [], input) else read_exact n input) with
  | (Some p, rest) => is_bytes p ∧ is_bytes rest ∧ (length rest ≤ length input)%nat
  | (None, rest) => rest = []
  end.
Proof.
  intros Hb Hn. destruct (n =? 0); [split_and!; [constructor|done|done]|].
  pose proof (read_exact_spec n input Hb Hn) as Hr.
  destruct (read_exact n input) as [[p|] rest]; [|done].
  destruct Hr as (-> & _ & ? & ?). rewrite length_app. split_and!; [done..|lia].
Qed.

(** On every byte string [next_record] returns, and when it returns something
    it has read at least a header. *)
Lemma next_record_total input :
  is_bytes input →
  ∃ r rest, next_record input = Ret (r, rest) ∧ is_bytes rest ∧
    match r with Some _ => (length rest < length input)%nat | None => rest = [] end.
Proof.
  intros Hb. unfold next_record. pose proof (read_exact_spec RECORD_HEADER_SIZE input Hb) as Hh.
  destruct (read_exact RECORD_HEADER_SIZE input) as [[header|] rest].
  2: { rewrite Hh by done. exists None, []. split; [done|]. split; [constructor|done]. }
  destruct Hh as (-> & Hlen & Hbh & Hbr); [done|].
  assert (length header = 17%nat) as Hl17 by (unfold zlen, RECORD_HEADER_SIZE in Hlen; lia).
  destruct (header_reads_total header) as (crc & len & lsn & ty & d & -> & -> & -> & -> & ->);
    [done..|]. bind_step. rewrite length_app, Hl17.
  assert (∀ (x : result (Z * WalRecord) WalError) rest', is_bytes rest' →
    (length rest' ≤ length rest)%nat → ∃ r rest0, Ret (Some x, rest') = Ret (r, rest0) ∧
      is_bytes rest0 ∧
      match r with Some _ => (length rest0 < 17 + length rest)%nat | None => rest0 = [] end) as Hdone.
  { intros x rest' ? ?. exists (Some x), rest'. split_and!; [done..|lia]. }
  destruct (Z.ltb_spec len RECORD_HEADER_SIZE); [by apply Hdone|].
  pose proof (read_payload_spec (len - RECORD_HEADER_SIZE) rest Hbr) as Hp.
  destruct (if _ =? 0 then _ else _) as [[payload|] rest'].
  2: { rewrite Hp by lia. apply Hdone; [constructor|simpl; lia]. }
  destruct Hp as (Hbp & Hbr' & Hle); [lia|].
  destruct (negb _); [by apply Hdone|].
  destruct (WalRecordType_try_from ty) as [t|]; [|by apply Hdone].
  destruct (deserialize_total payload Hbp t) as [[record|e] ->]; bind_step; by apply Hdone.
Qed.

Lemma read_all_fuel fuel1 fuel2 input :
  is_bytes input → (length input < fuel1)%nat → (length input < fuel2)%nat →
  read_all fuel1 input = read_all fuel2 input ∧ is_Some (read_all fuel1 input).
Proof.
  revert fuel2 input. induction fuel1 as [|fuel1 IH]; intros [|fuel2] input Hb H1 H2; try lia.
  cbn [read_all]. destruct (next_record_total input Hb) as (r & rest & -> & Hbr & Hlt). bind_step.
  destruct r as [x|]; [|done].
  destruct (IH fuel2 rest) as [<- [l ->]]; [done|lia|lia|]. done.
Qed.

(** The iterator, one record at a time. *)
Lemma read_log_step input :
  is_bytes input →
  ∃ r rest, next_record input = Ret (r, rest) ∧ is_bytes rest ∧
    match r with
    | None => rest = [] ∧ read_log input = Ret []
    | Some x => (length rest < length input)%nat ∧
        ∃ l, read_log rest = Ret l ∧ read_log input = Ret (x :: l)
    end.
Proof.
  intros Hb. destruct (next_record_total input Hb) as (r & rest & Hn & Hbr & Hlt).
  exists r, rest. split_and!; [done..|]. unfold read_log. cbn [read_all]. rewrite Hn. bind_step.
  destruct r as [x|]; [|done]. split; [done|].
  destruct (read_all_fuel (S (length rest)) (length input) rest) as [Heq [l Hl]]; [done|lia|lia|].
  exists l. rewrite <-Heq. unfold read_log in *. cbn [read_all] in Hl. cbn [read_all]. rewrite Hl. done.
Qed.

Lemma read_log_total input : is_bytes input → ∃ l, read_log input = Ret l.
Proof.
  intros Hb. destruct (read_log_step input Hb) as (r & rest & _ & _ & Hr).
  destruct r; [destruct Hr as (_ & l & _ & ?)|destruct Hr]; eauto.
Qed.

(** ** Corrupted frames *)

Lemma bytes_as_u32 bs : is_bytes bs → length bs = 4%nat → ∃ c, is_u32 c ∧ bs = to_le_bytes 4 c.
Proof.
  intros Hb Hlen. exists (from_le_bytes bs). pose proof (from_le_bytes_range bs Hb) as Hr.
  unfold zlen in Hr. rewrite Hlen in Hr. split; [exact Hr|].
  rewrite <-Hlen. by rewrite to_from_le_bytes.
Qed.

Lemma bytes_as_body bs :
  is_bytes bs → (9 ≤ length bs)%nat →
  ∃ lsn ty payload, is_u64 lsn ∧ is_u8 ty ∧ bs = to_le_bytes 8 lsn ++ [ty] ++ payload.
Proof.
  intros Hb Hlen. pose proof Hb as Hb'.
  rewrite <-(take_drop 8 bs) in Hb'. apply Forall_app in Hb' as [H8 Hrest].
  assert (length (take 8 bs) = 8%nat) as Hl8 by (rewrite length_take; lia).
  destruct (drop 8 bs) as [|ty payload] eqn:E.
  { apply (f_equal length) in E. rewrite length_drop in E. simpl in E. lia. }
  exists (from_le_bytes (take 8 bs)), ty, payload.
  pose proof (from_le_bytes_range _ H8) as Hr. unfold zlen in Hr. rewrite Hl8 in Hr.
  split; [exact Hr|]. split; [by apply Forall_cons in Hrest as [? _]|].
  rewrite <-Hl8 at 1. rewrite to_from_le_bytes by done. simpl. by rewrite <-E, take_drop.
Qed.

Lemma app_split_at {A} (a b pre post : list A) x :
  a ++ b = pre ++ x :: post → (length a ≤ length pre)%nat →
  ∃ pre', pre = a ++ pre' ∧ b = pre' ++ x :: post.
Proof.
  intros H Hl. pose proof (f_equal (take (length a)) H) as Ht.
  rewrite take_app_length, take_app_le in Ht by done.
  exists (drop (length a) pre). split; [by rewrite Ht at 1; rewrite take_drop|].
  apply (f_equal (drop (length a))) in H. rewrite drop_app_length, drop_app_le in H by done. done.
Qed.

Lemma app_split_before {A} (a b pre post : list A) x :
  a ++ b = pre ++ x :: post → (length pre < length a)%nat →
  ∃ post', a = pre ++ x :: post' ∧ post = post' ++ b.
Proof.
  intros H Hl. pose proof (f_equal (drop (length pre)) H) as Hd.
  pose proof (f_equal (take (length pre)) H) as Ht.
  rewrite drop_app_length, drop_app_le in Hd by lia.
  rewrite take_app_length, take_app_le in Ht by lia.
  destruct (drop (length pre) a) as [|y post'] eqn:E.
  { apply (f_equal length) in E. rewrite length_drop in E. simpl in E. lia. }
  simpl in Hd. injection Hd as -> <-. exists post'. split; [|done].
  by rewrite <-E, <-Ht, take_drop at 1.
Qed.

Lemma check_frame_mismatch crc lsn ty body payload :
  crc ≠ crc32 body →
  check_frame crc lsn ty body payload =
    Ret (Err (CorruptedRecord (crc_mismatch crc (crc32 body)))).
Proof. intros H. unfold check_frame. by rewrite (proj2 (Z.eqb_neq _ _) H). Qed.

Section corruption.
Context (lsn : Z) (r : WalRecord) (Hok : frame_ok lsn r).
Let len := RECORD_HEADER_SIZE + zlen (serialize_payload r).
Let ty := WalRecordType_code (record_type r).
Let body := frame_body len lsn ty (serialize_payload r).

Lemma frame_body_bytes : is_bytes body.
Proof using Hok.
  destruct Hok as (Hr & _). repeat (apply Forall_app; split); try apply to_le_bytes_bytes;
    [repeat constructor; apply WalRecordType_code_u8|by apply serialize_bytes].
Qed.

(** A byte of the stored checksum changed. *)
Lemma corrupted_checksum pre old new post rest :
  to_le_bytes 4 (crc32 body) ++ body = pre ++ old :: post → is_u8 new → new ≠ old →
  (length pre < 4)%nat →
  ∃ stored computed, stored ≠ computed ∧
    next_record ((pre ++ new :: post) ++ rest) =
      Ret (Some (Err (CorruptedRecord (crc_mismatch stored computed))), rest).
Proof using Hok.
  intros Henc Hnew Hne Hpos. pose proof Hok as (_ & Hlsn & Hlen).
  rewrite <-serialize_length in Hlen.
  apply app_split_before in Henc as (post' & Hcrc & ->); [|rewrite length_to_le_bytes; lia].
  assert (is_bytes (pre ++ new :: post')) as Hb.
  { pose proof (to_le_bytes_bytes 4 (crc32 body)) as Hb.
    rewrite Hcrc in Hb. apply Forall_app in Hb as [? Hb]. apply Forall_cons in Hb as [_ ?].
    apply Forall_app. split; [done|by constructor]. }
  destruct (bytes_as_u32 _ Hb) as (c & Hc & Heq).
  { apply (f_equal length) in Hcrc. rewrite length_to_le_bytes in Hcrc.
    rewrite length_app in *. simpl in *. lia. }
  assert (c ≠ crc32 body) as Hcne.
  { intros ->. rewrite <-Heq in Hcrc. apply app_inv_head in Hcrc. congruence. }
  eexists _, _. split; [exact Hcne|].
  replace ((pre ++ new :: post' ++ body) ++ rest) with (to_le_bytes 4 c ++ body ++ rest)
    by (rewrite <-Heq, <-!app_assoc; cbn [app]; by rewrite <-!app_assoc).
  unfold body, len. rewrite next_record_frame by (done || apply WalRecordType_code_u8).
  by rewrite check_frame_mismatch.
Qed.

(** A byte behind the length field changed. *)
Lemma corrupted_body pre old new post rest :
  to_le_bytes 4 (crc32 body) ++ body = pre ++ old :: post → is_u8 new → new ≠ old →
  (8 ≤ length pre)%nat →
  ∃ stored computed, stored ≠ computed ∧
    next_record ((pre ++ new :: post) ++ rest) =
      Ret (Some (Err (CorruptedRecord (crc_mismatch stored computed))), rest).
Proof using Hok.
  intros Henc Hnew Hne Hpos. pose proof Hok as (_ & Hlsn & Hlen).
  rewrite <-serialize_length in Hlen. pose proof frame_body_bytes as Hbody.
  apply app_split_at in Henc as (pre' & -> & Hb'); [|rewrite length_to_le_bytes; lia].
  rewrite length_app, length_to_le_bytes in Hpos. unfold body, frame_body in Hb'.
  apply app_split_at in Hb' as (pre2 & -> & Hrest); [|rewrite length_to_le_bytes; lia].
  assert (is_bytes (pre2 ++ old :: post)) as Hb2
    by (rewrite <-Hrest; by apply Forall_app in Hbody as [_ ?]).
  apply Forall_app in Hb2 as [Hpre2 Hb2]. apply Forall_cons in Hb2 as [Hold Hpost].
  destruct (bytes_as_body (pre2 ++ new :: post)) as (lsn' & ty' & payload' & ? & ? & Hsplit).
  { apply Forall_app. split; [done|by constructor]. }
  { apply (f_equal length) in Hrest. rewrite !length_app, length_to_le_bytes in *.
    simpl in *. lia. }
  assert (zlen payload' = zlen (serialize_payload r)) as Hplen.
  { apply (f_equal zlen) in Hsplit. apply (f_equal zlen) in Hrest. zlen_lia. }
  assert (crc32 body ≠ crc32 (frame_body len lsn' ty' payload')) as Hcne.
  { unfold body, frame_body. rewrite Hrest, <-Hsplit, !app_assoc. intros Hc.
    apply crc32_one_byte in Hc; [done| |done..]. apply Forall_app.
    split; [apply to_le_bytes_bytes|done]. }
  eexists _, _. split; [exact Hcne|].
  replace (((to_le_bytes 4 (crc32 body) ++ to_le_bytes 4 len ++ pre2) ++ new :: post) ++ rest)
    with (to_le_bytes 4 (crc32 body) ++ frame_body len lsn' ty' payload' ++ rest)
    by (unfold frame_body; rewrite <-Hsplit, <-!app_assoc; cbn [app]; done).
  assert (len = RECORD_HEADER_SIZE + zlen payload') as Hl by (unfold len; lia).
  rewrite Hl in *. rewrite next_record_frame; [|by apply crc32_range|done|done|by rewrite Hplen].
  by rewrite check_frame_mismatch.
Qed.
End corruption.

(** C32: corruption of a frame is detected.  Changing any one byte of a frame
    outside its length field, whether in the stored checksum, the sequence
    number, the type or the payload, makes the reader report a checksum
    mismatch for that frame and continue behind it; it never yields a record. *)
Theorem frame_corruption_detected lsn r pre old new post rest :
  frame_ok lsn r → encode_record_frame lsn r = pre ++ old :: post →
  is_u8 new → new ≠ old → (length pre < 4 ∨ 8 ≤ length pre)%nat →
  ∃ stored computed, stored ≠ computed ∧
    next_record ((pre ++ new :: post) ++ rest) =
      Ret (Some (Err (CorruptedRecord (crc_mismatch stored computed))), rest).
Proof.
  intros Hok Henc Hnew Hne Hpos. rewrite encode_frame_layout in Henc by done. cbv zeta in Henc.
  rewrite <-serialize_length in Henc.
  destruct Hpos; [by eapply corrupted_checksum|by eapply corrupted_body].
Qed.

Lemma frame_corruption_detected_witness :
  let frame := encode_record_frame 5 (Remove [97]) in
  ∃ stored computed, stored ≠ computed ∧
    next_record ((take 21 frame ++ 98 :: []) ++ [1; 2; 3]) =
      Ret (Some (Err (CorruptedRecord (crc_mismatch stored computed))), [1; 2; 3]).
Proof.
  intros frame.
  apply (frame_corruption_detected 5 (Remove [97]) (take 21 frame) 97 98 [] [1; 2; 3]);
    [repeat constructor; vm_compute; congruence|reflexivity|vm_compute; split; congruence
    |congruence|right; vm_compute; lia].
Defined.
