(* ===== verification/Reconcile.v ===== *)
(** * Replay order

    [RecoveredOperation], [recovered_operations_from_record] and the
    reconciliation of a log by commit generation
    (src/src/persistent_artrie/core/recovery.rs, [reconcile_lww] and
    [reconcile_lww_with_regime]). *)

From stdpp Require Import prelude gmap sorting.
From S2P Require Import Prelude Bytes WalCodec WalHeader.
Local Open Scope Z_scope.
Local Open Scope list_scope.

Inductive RecoveredOperation : Type :=
| RInsert (lsn : Z) (term : list Z) (value : option (list Z))
| RRemove (lsn : Z) (term : list Z)
| RIncrement (lsn : Z) (term : list Z) (delta : Z) (res : option Z)
| RUpsert (lsn : Z) (term value : list Z)
| RCompareAndSwap (lsn : Z) (term new_value : list Z) (success : bool).

Definition op_lsn (op : RecoveredOperation) : Z :=
  match op with
  | RInsert lsn _ _ | RRemove lsn _ | RIncrement lsn _ _ _ | RUpsert lsn _ _
  | RCompareAndSwap lsn _ _ _ => lsn
  end.

Definition op_term (op : RecoveredOperation) : list Z :=
  match op with
  | RInsert _ term _ | RRemove _ term | RIncrement _ term _ _ | RUpsert _ term _
  | RCompareAndSwap _ term _ _ => term
  end.

Definition recovered_operations_from_record (lsn : Z) (record : WalRecord) :
    list RecoveredOperation :=
  match record with
  | Insert term value => [RInsert lsn term value]
  | Remove term => [RRemove lsn term]
  | Increment term delta res => [RIncrement lsn term delta (Some res)]
  | Upsert term value => [RUpsert lsn term value]
  | CompareAndSwap term _ new_value success =>
      if success then [RCompareAndSwap lsn term new_value success] else []
  | BatchInsert entries => map (λ '(term, value), RInsert lsn term value) entries
  | BatchIncrement entries => map (λ '(term, delta), RIncrement lsn term delta None) entries
  | BeginTx _ | CommitTx _ | AbortTx _ | Checkpoint _ _ | VersionUpdate _ _ _ _
  | VersionDurable _ _ | VersionGc _ | CommitRank _ _ _ => []
  end.

(** ** Reconciliation *)

(** An operation with its generation and the sequence number of its record. *)
Definition stamped : Type := Z * Z * RecoveredOperation.

(** The sort key [(generation, lsn)], compared lexicographically. *)
Definition key_le (a b : stamped) : bool :=
  (a.1.1 <? b.1.1) || ((a.1.1 =? b.1.1) && (a.1.2 <=? b.1.2)).

(** [sort_by_key] is stable: equal keys stay in their order. *)
Fixpoint insert_stable (x : stamped) (l : list stamped) : list stamped :=
  match l with
  | [] => [x]
  | y :: l => if key_le x y then x :: y :: l else y :: insert_stable x l
  end.

Definition sort_stable (l : list stamped) : list stamped := foldr insert_stable [] l.

(** Pass 1: the generation of each data record. *)
Definition rank_map (records : list (Z * WalRecord)) : gmap Z Z :=
  foldl (λ rank e,
    match e.2 with
    | CommitRank data_lsn _ generation => <[data_lsn := generation]> rank
    | _ => rank
    end) ∅ records.

(** Pass 2, one record: the operations it contributes, stamped; nothing when it
    is below the checkpoint or an unranked record of an overlay file. *)
Definition stamp_record (rank : gmap Z Z) (loaded_from_disk : bool) (checkpoint_lsn : Z)
    (regime_of : Z → RankRegime) (e : Z * WalRecord) : list stamped :=
  let '(lsn, record) := e in
  if loaded_from_disk && (0 <? checkpoint_lsn) && (lsn <=? checkpoint_lsn) then []
  else
    match
      match rank !! lsn with
      | Some commit_seq => Some commit_seq
      | None => match regime_of lsn with Owned => Some lsn | Overlay => None end
      end
    with
    | Some g => map (λ op, (g, lsn, op)) (recovered_operations_from_record lsn record)
    | None => []
    end.

Definition reconcile_lww_with_regime (recovered_ops : list (Z * WalRecord))
    (loaded_from_disk : bool) (checkpoint_lsn : Z) (regime_of : Z → RankRegime) :
    list RecoveredOperation :=
  let rank := rank_map recovered_ops in
  let stamped :=
    flat_map (stamp_record rank loaded_from_disk checkpoint_lsn regime_of) recovered_ops in
  map snd (sort_stable stamped).

Definition reconcile_lww (recovered_ops : list (Z * WalRecord)) (loaded_from_disk : bool)
    (checkpoint_lsn : Z) (rank_regime : RankRegime) : list RecoveredOperation :=
  reconcile_lww_with_regime recovered_ops loaded_from_disk checkpoint_lsn (λ _, rank_regime).

(** ** The sort *)

Lemma key_le_total a b : key_le a b = true ∨ key_le b a = true.
Proof.
  unfold key_le. destruct (Z.lt_total a.1.1 b.1.1) as [?|[?|?]];
    rewrite ?orb_true_iff, ?andb_true_iff, ?Z.ltb_lt, ?Z.eqb_eq, ?Z.leb_le; lia.
Qed.

Lemma key_le_spec a b :
  key_le a b = true ↔ a.1.1 < b.1.1 ∨ a.1.1 = b.1.1 ∧ a.1.2 ≤ b.1.2.
Proof. unfold key_le. rewrite orb_true_iff, andb_true_iff, Z.ltb_lt, Z.eqb_eq, Z.leb_le. done. Qed.

#[export] Instance key_le_trans : Transitive (λ a b, key_le a b = true).
Proof. intros a b c. rewrite !key_le_spec. lia. Qed.

Lemma elem_of_insert_stable x y l : y ∈ insert_stable x l ↔ y = x ∨ y ∈ l.
Proof.
  induction l as [|z l IH]; simpl; [set_solver|]. destruct (key_le x z); [set_solver|].
  rewrite !elem_of_cons, IH. tauto.
Qed.

Lemma insert_stable_perm x l : insert_stable x l ≡ₚ x :: l.
Proof.
  induction l as [|y l IH]; simpl; [done|]. destruct (key_le x y); [done|].
  rewrite IH. apply Permutation_swap.
Qed.

Lemma sort_stable_perm l : sort_stable l ≡ₚ l.
Proof. induction l as [|x l IH]; simpl; [done|]. by rewrite insert_stable_perm, IH. Qed.

Lemma insert_stable_sorted x l :
  StronglySorted (λ a b, key_le a b = true) l →
  StronglySorted (λ a b, key_le a b = true) (insert_stable x l).
Proof.
  intros Hl. induction Hl as [|y l Hl IH Hy]; simpl; [repeat constructor|].
  destruct (key_le x y) eqn:E.
  - constructor; [by constructor|]. constructor; [done|].
    eapply Forall_impl; [exact Hy|]. intros z Hz. by apply (key_le_trans x y z).
  - constructor; [done|]. apply Forall_forall. intros z [->|Hz]%elem_of_insert_stable.
    + destruct (key_le_total x y); congruence.
    + by rewrite Forall_forall in Hy; apply Hy.
Qed.

Lemma sort_stable_sorted l : StronglySorted (λ a b, key_le a b = true) (sort_stable l).
Proof. induction l; simpl; [constructor|by apply insert_stable_sorted]. Qed.

(** Inserting in front of a sorted list is where the stable sort puts the first
    of equal keys. *)
Lemma insert_stable_least x l :
  Forall (λ y, key_le x y = true) l → insert_stable x l = x :: l.
Proof. intros [|y l' Hy _]; simpl; [done|]. by rewrite Hy. Qed.

Lemma sort_stable_id l : StronglySorted (λ a b, key_le a b = true) l → sort_stable l = l.
Proof.
  induction 1 as [|x l _ IH Hx]; simpl; [done|]. rewrite IH. by apply insert_stable_least.
Qed.

(** Dropping elements commutes with the sort: the kept ones are in the same
    order as if they had been sorted alone. *)
Lemma insert_stable_filter P `{∀ x, Decision (P x)} x l :
  StronglySorted (λ a b, key_le a b = true) l →
  filter P (insert_stable x l) =
    if decide (P x) then insert_stable x (filter P l) else filter P l.
Proof.
  intros Hl. induction Hl as [|y l Hl IH Hy]; simpl.
  - rewrite filter_cons. by case_decide.
  - destruct (key_le x y) eqn:E.
    + rewrite !filter_cons. case_decide; [|done]. rewrite insert_stable_least; [done|].
      assert (Forall (λ z, key_le x z = true) (y :: l)) as Hall.
      { constructor; [done|]. eapply Forall_impl; [exact Hy|]. intros z Hz. by apply (key_le_trans x y z). }
      rewrite <-filter_cons. apply Forall_forall. intros z [_ Hz]%list_elem_of_filter.
      rewrite Forall_forall in Hall. by apply Hall.
    + rewrite !filter_cons. rewrite IH. repeat case_decide; simpl; [|done..].
      by rewrite E.
Qed.

Lemma sort_stable_filter P `{∀ x, Decision (P x)} l :
  filter P (sort_stable l) = sort_stable (filter P l).
Proof.
  induction l as [|x l IH]; simpl; [done|].
  rewrite insert_stable_filter, IH by apply sort_stable_sorted.
  rewrite filter_cons. by case_decide.
Qed.

(** The greatest element of a sorted list is its last. *)
Lemma sorted_last l s :
  StronglySorted (λ a b, key_le a b = true) l → s ∈ l →
  (∀ y, y ∈ l → y = s ∨ key_le s y = false) → last l = Some s.
Proof.
  intros Hl. induction Hl as [|x l _ IH Hx]; intros Hin Hmax; [set_solver|].
  destruct l as [|y l].
  - by apply list_elem_of_singleton in Hin as ->.
  - change (last (x :: y :: l)) with (last (y :: l)). apply IH; [|set_solver].
    apply elem_of_cons in Hin as [->|Hin]; [|done].
    apply Forall_cons in Hx as [Hxy _]. destruct (Hmax y) as [->|?]; [set_solver|set_solver|congruence].
Qed.

(** ** Replay

    The applier is code of the tries themselves.  What reconciliation relies on
    is that an operation changes the entry of its own term only: [effect] is
    that change, and the theorems hold for every one. *)

Section replay.
Context {V : Type} (effect : RecoveredOperation → option V → option V).

Definition apply_op (m : gmap (list Z) V) (op : RecoveredOperation) : gmap (list Z) V :=
  partial_alter (effect op) (op_term op) m.

Definition replay (m : gmap (list Z) V) (ops : list RecoveredOperation) : gmap (list Z) V :=
  foldl apply_op m ops.

(** The value of a term after its own operations, one after the other. *)
Definition run_ops (v : option V) (ops : list RecoveredOperation) : option V :=
  foldl (λ v op, effect op v) v ops.

Lemma replay_lookup m ops t :
  replay m ops !! t = run_ops (m !! t) (filter (λ op, op_term op = t) ops).
Proof using.
  revert m. induction ops as [|op ops IH]; intros m; simpl; [done|].
  unfold replay in IH. rewrite IH, filter_cons. unfold apply_op at 1.
  case_decide as Ht; simpl.
  - subst t. by rewrite lookup_partial_alter_eq.
  - by rewrite lookup_partial_alter_ne.
Qed.
End replay.

Lemma filter_map_snd (P : RecoveredOperation → Prop) `{∀ op, Decision (P op)} (l : list stamped) :
  filter P (map snd l) = map snd (filter (λ s : stamped, P s.2) l).
Proof.
  induction l as [|x l IH]; simpl; [done|]. rewrite !filter_cons, IH. by case_decide.
Qed.

(** The stamped operations of a log, in log order. *)
Definition stamp_log (records : list (Z * WalRecord)) (loaded : bool) (checkpoint : Z)
    (regime_of : Z → RankRegime) : list stamped :=
  flat_map (stamp_record (rank_map records) loaded checkpoint regime_of) records.

(** The generation the log declares for the record [lsn]: that of its last commit
    rank, or its own number in a file of the owned regime. *)
Definition declared_ranks (records : list (Z * WalRecord)) (lsn : Z) : list Z :=
  omap (λ e, match e.2 with
             | CommitRank data_lsn _ generation => if decide (data_lsn = lsn) then Some generation else None
             | _ => None
             end) records.

Definition generation_of (records : list (Z * WalRecord)) (regime_of : Z → RankRegime) (lsn g : Z) : Prop :=
  match last (declared_ranks records lsn) with
  | Some g' => g = g'
  | None => regime_of lsn = Owned ∧ g = lsn
  end.

(** The operations a log contributes: those of its records above the checkpoint
    that have a generation. *)
Definition contributes (records : list (Z * WalRecord)) (loaded : bool) (checkpoint : Z)
    (regime_of : Z → RankRegime) (s : stamped) : Prop :=
  let '(g, lsn, op) := s in
  ∃ record, (lsn, record) ∈ records ∧ ¬ (loaded = true ∧ 0 < checkpoint ∧ lsn ≤ checkpoint) ∧
    op ∈ recovered_operations_from_record lsn record ∧ generation_of records regime_of lsn g.

Lemma rank_map_lookup records lsn : rank_map records !! lsn = last (declared_ranks records lsn).
Proof.
  induction records as [|[l r] records IH] using rev_ind; [done|].
  unfold rank_map, declared_ranks in *. rewrite foldl_app, omap_app. cbn.
  destruct r; cbn; rewrite ?app_nil_r; try exact IH.
  case_decide as Hl.
  - subst. by rewrite lookup_insert_eq, last_snoc.
  - by rewrite lookup_insert_ne, app_nil_r.
Qed.

Lemma elem_of_stamp_log records loaded checkpoint regime_of s :
  s ∈ stamp_log records loaded checkpoint regime_of ↔ contributes records loaded checkpoint regime_of s.
Proof.
  destruct s as [[g lsn] op]. unfold stamp_log, contributes, generation_of.
  rewrite list_elem_of_In, in_flat_map. setoid_rewrite <-list_elem_of_In. rewrite <-rank_map_lookup. split.
  - intros ([l record] & Hin & Hs). cbn in Hs.
    destruct (loaded && _ && _) eqn:Hskip; [by apply elem_of_nil in Hs|].
    assert (¬ (loaded = true ∧ 0 < checkpoint ∧ l ≤ checkpoint)) as Hnot.
    { intros (-> & H1 & H2). apply Z.ltb_lt in H1. apply Z.leb_le in H2. by rewrite H1, H2 in Hskip. }
    destruct (rank_map records !! l) as [g'|] eqn:Hr; [|destruct (regime_of l) eqn:Hreg; [|by apply elem_of_nil in Hs]].
    all: apply list_elem_of_fmap in Hs as (op' & E & Hop); injection E as -> -> ->; exists record; by rewrite Hr.
  - intros (record & Hin & Hnot & Hop & Hg). exists (lsn, record). split; [done|]. cbn.
    destruct (loaded && _ && _) eqn:Hskip.
    { destruct Hnot. rewrite !andb_true_iff, Z.ltb_lt, Z.leb_le in Hskip. tauto. }
    destruct (rank_map records !! lsn) as [g'|]; [subst g|destruct Hg as [-> ->]];
      apply list_elem_of_fmap; by exists op.
Qed.



(** ** Logs without ranks *)

Definition unranked (records : list (Z * WalRecord)) : Prop :=
  Forall (λ e, match e.2 with CommitRank _ _ _ => False | _ => True end) records.

Lemma rank_map_unranked records : unranked records → rank_map records = ∅.
Proof.
  intros Hu. unfold rank_map. induction Hu as [|[lsn r] records Hr _ IH]; [done|]. simpl.
  destruct r; done.
Qed.

Definition skipped (loaded : bool) (checkpoint : Z) (e : Z * WalRecord) : bool :=
  loaded && (0 <? checkpoint) && (e.1 <=? checkpoint).

Lemma stamp_log_owned records loaded checkpoint :
  unranked records →
  stamp_log records loaded checkpoint (λ _, Owned) =
    flat_map (λ e, map (λ op, (e.1, e.1, op)) (recovered_operations_from_record e.1 e.2))
      (filter (λ e, skipped loaded checkpoint e = false) records).
Proof.
  intros Hu. unfold stamp_log. rewrite rank_map_unranked by done. clear Hu.
  induction records as [|[lsn r] records IH]; [done|]. cbn [flat_map].
  rewrite IH, filter_cons. unfold stamp_record.
  change (loaded && _ && _) with (skipped loaded checkpoint (lsn, r)).
  destruct (skipped loaded checkpoint (lsn, r)); by case_decide.
Qed.

Lemma flat_map_sorted (records : list (Z * WalRecord)) :
  StronglySorted (λ a b, a.1 ≤ b.1) records →
  StronglySorted (λ a b, key_le a b = true)
    (flat_map (λ e, map (λ op, (e.1, e.1, op)) (recovered_operations_from_record e.1 e.2)) records).
Proof.
  induction 1 as [|e records _ IH He]; [constructor|]. cbn [flat_map].
  apply StronglySorted_app. split_and!; [| |done].
  - intros s s' Hs Hs'. apply list_elem_of_In, in_map_iff in Hs as (op & <- & _).
    apply list_elem_of_In, in_flat_map in Hs' as (e' & Hin & Hs').
    apply in_map_iff in Hs' as (op' & <- & _). rewrite Forall_forall in He.
    specialize (He e' (proj2 (list_elem_of_In _ _) Hin)). apply key_le_spec. simpl. lia.
  - generalize (recovered_operations_from_record e.1 e.2). intros ops.
    induction ops as [|op ops IHo]; simpl; constructor; [done|].
    apply Forall_forall. intros s Hs. apply list_elem_of_In, in_map_iff in Hs as (op' & <- & _).
    apply key_le_spec. simpl. lia.
Qed.

(** Logs written before ranks existed.  For a log without [CommitRank]
    records whose records are in sequence order, reconciliation under the
    [Owned] regime is the plain in-order replay of the records behind the
    checkpoint; under the [Overlay] regime such records are unacknowledged
    leftovers, and none is replayed. *)
Theorem reconcile_unranked records loaded checkpoint :
  unranked records → StronglySorted (λ a b : Z * WalRecord, a.1 ≤ b.1) records →
  reconcile_lww records loaded checkpoint Owned =
    flat_map (λ e, recovered_operations_from_record e.1 e.2)
      (filter (λ e, skipped loaded checkpoint e = false) records) ∧
  reconcile_lww records loaded checkpoint Overlay = [].
Proof.
  intros Hu Hsorted. unfold reconcile_lww, reconcile_lww_with_regime. split.
  - fold (stamp_log records loaded checkpoint (λ _, Owned)).
    rewrite stamp_log_owned, sort_stable_id by
      (done || (apply flat_map_sorted; by apply StronglySorted_filter)).
    generalize (filter (λ e, skipped loaded checkpoint e = false) records). intros l.
    induction l as [|e l IH]; [done|]. cbn [flat_map].
    rewrite map_app, IH, map_map. simpl. by rewrite map_id.
  - rewrite rank_map_unranked by done.
    assert (flat_map (stamp_record ∅ loaded checkpoint (λ _, Overlay)) records = []) as ->; [|done].
    clear. induction records as [|[lsn r] records IH]; [done|]. cbn [flat_map].
    rewrite IH, app_nil_r. unfold stamp_record. rewrite lookup_empty.
    by destruct (loaded && _ && _).
Qed.

Lemma reconcile_unranked_witness :
  let records := [(1, Insert [97] None); (2, BatchIncrement [([98], 5); ([98], 6)]); (3, Remove [97])] in
  reconcile_lww records true 1 Owned =
    [RIncrement 2 [98] 5 None; RIncrement 2 [98] 6 None; RRemove 3 [97]].
Proof.
  intros records. etrans; [apply (proj1 (reconcile_unranked records true 1
    ltac:(repeat constructor) ltac:(repeat constructor; simpl; lia)))|reflexivity].
Defined.
