(* ===== verification/Recovery.v ===== *)
(** * Crash recovery

    [RecoveryManager] and [IncrementalRecovery] of
    src/src/persistent_artrie/core/recovery.rs: which operations a log file
    gives back after a crash, with transactions, torn tails and corruption. *)

From stdpp Require Import prelude gmap strings pretty.
From S2P Require Import Prelude Bytes WalCodec WalHeader WalFrame Reconcile.
Local Open Scope Z_scope.
Local Open Scope list_scope.

(** ** Files

    What the code can find at a path.  An I/O error is its kind; the kinds that
    the code itself produces or tests are named. *)

Definition ErrorKind_NotFound : Z := 0.
Definition ErrorKind_UnexpectedEof : Z := 1.

Inductive file : Type :=
| Missing
| Unopenable (e : Z)
| Contents (bytes : list Z).

Definition file_exists (f : file) : bool := match f with Missing => false | _ => true end.

Definition File_open (f : file) : result (list Z) WalError :=
  match f with
  | Missing => Err (Io ErrorKind_NotFound)
  | Unopenable e => Err (Io e)
  | Contents bytes => Ok bytes
  end.

(** The reader's state is what is left to read: here all but the header.
    Seeking past the end of a short file leaves nothing. *)
Definition WalReader_new (f : file) : result (list Z) WalError :=
  match File_open f with
  | Ok bytes => Ok (drop HEADER_SIZE bytes)
  | Err e => Err e
  end.

Definition WalReader_read_header (f : file) : decoded WalHeader :=
  match File_open f with
  | Err e => Ret (Err e)
  | Ok bytes =>
      match fst (read_exact (Z.of_nat HEADER_SIZE) bytes) with
      | None => Ret (Err (Io ErrorKind_UnexpectedEof))
      | Some header_buf => WalHeader_from_bytes header_buf
      end
  end.

(** ** Errors and statistics *)

Inductive RecoveryError : Type :=
| RIo (e : Z)
| CorruptedWal (msg : string)
| NoCheckpoint
| InvalidCheckpoint (lsn : Z) (reason : string)
| TransactionInconsistency (tx_id : Z) (reason : string)
| RecoveryFailed (msg : string).

Definition RecoveryError_from (e : WalError) : RecoveryError :=
  match e with
  | Io io_err => RIo io_err
  | CorruptedRecord msg => CorruptedWal msg
  | UnexpectedEof => CorruptedWal "Unexpected EOF"
  | InvalidRecordType t => CorruptedWal ("Invalid record type: " +:+ pretty t)
  | AlreadyExists => RecoveryFailed "WAL already exists"
  | NotFound => NoCheckpoint
  | ParentNotFound path => RecoveryFailed ("Parent directory not found: " +:+ path)
  | InvalidRegimeStamp msg => RecoveryFailed ("Invalid WAL regime stamp: " +:+ msg)
  end.

Inductive TransactionState : Set := InProgress | Committed | Aborted.

#[global] Instance TransactionState_eq_dec : EqDecision TransactionState.
Proof. solve_decision. Defined.

Record RecoveryStats := mkStats {
  records_scanned : Z;
  valid_records : Z;
  corrupted_records : Z;
  committed_transactions : Z;
  aborted_transactions : Z;
  incomplete_transactions : Z;
  insert_operations : Z;
  remove_operations : Z;
  stats_checkpoint_lsn : option Z;
  duration_ms : Z;
}.

Definition RecoveryStats_default : RecoveryStats := mkStats 0 0 0 0 0 0 0 0 None 0.

(** [x += 1] on a [u64] *)
Definition inc (z : Z) : Z := u64 (z + 1).

Definition count_scanned (s : RecoveryStats) : RecoveryStats :=
  let 'mkStats sc va co ct ab it ins rem cp d := s in mkStats (inc sc) va co ct ab it ins rem cp d.
Definition count_valid (s : RecoveryStats) : RecoveryStats :=
  let 'mkStats sc va co ct ab it ins rem cp d := s in mkStats sc (inc va) co ct ab it ins rem cp d.
Definition count_corrupted (s : RecoveryStats) : RecoveryStats :=
  let 'mkStats sc va co ct ab it ins rem cp d := s in mkStats sc va (inc co) ct ab it ins rem cp d.
Definition count_committed (s : RecoveryStats) : RecoveryStats :=
  let 'mkStats sc va co ct ab it ins rem cp d := s in mkStats sc va co (inc ct) ab it ins rem cp d.
Definition count_aborted (s : RecoveryStats) : RecoveryStats :=
  let 'mkStats sc va co ct ab it ins rem cp d := s in mkStats sc va co ct (inc ab) it ins rem cp d.
Definition count_incomplete (s : RecoveryStats) : RecoveryStats :=
  let 'mkStats sc va co ct ab it ins rem cp d := s in mkStats sc va co ct ab (inc it) ins rem cp d.
Definition count_insert (s : RecoveryStats) : RecoveryStats :=
  let 'mkStats sc va co ct ab it ins rem cp d := s in mkStats sc va co ct ab it (inc ins) rem cp d.
Definition count_remove (s : RecoveryStats) : RecoveryStats :=
  let 'mkStats sc va co ct ab it ins rem cp d := s in mkStats sc va co ct ab it ins (inc rem) cp d.
Definition set_checkpoint (cp : option Z) (s : RecoveryStats) : RecoveryStats :=
  let 'mkStats sc va co ct ab it ins rem _ d := s in mkStats sc va co ct ab it ins rem cp d.
Definition set_duration (d : Z) (s : RecoveryStats) : RecoveryStats :=
  let 'mkStats sc va co ct ab it ins rem cp _ := s in mkStats sc va co ct ab it ins rem cp d.

(** ** Analysis *)

Record analysis := mkAnalysis {
  a_stats : RecoveryStats;
  a_checkpoint : option Z;
  a_transactions : gmap Z TransactionState;
}.

(** [if let Some(state) = transactions.get_mut(&tx_id) { *state = s; stats.. += 1 }] *)
Definition finish_tx (a : analysis) (tx_id : Z) (s : TransactionState)
    (count : RecoveryStats → RecoveryStats) : analysis :=
  match a_transactions a !! tx_id with
  | Some _ =>
      mkAnalysis (count (a_stats a)) (a_checkpoint a) (<[tx_id := s]> (a_transactions a))
  | None => a
  end.

Definition analyse_record (a : analysis) (record : WalRecord) : analysis :=
  match record with
  | Checkpoint cp_lsn _ => mkAnalysis (a_stats a) (Some cp_lsn) (a_transactions a)
  | BeginTx tx_id =>
      mkAnalysis (a_stats a) (a_checkpoint a) (<[tx_id := InProgress]> (a_transactions a))
  | CommitTx tx_id => finish_tx a tx_id Committed count_committed
  | AbortTx tx_id => finish_tx a tx_id Aborted count_aborted
  | _ => a
  end.

Definition with_stats (f : RecoveryStats → RecoveryStats) (a : analysis) : analysis :=
  mkAnalysis (f (a_stats a)) (a_checkpoint a) (a_transactions a).

Fixpoint analyse (a : analysis) (results : list (result (Z * WalRecord) WalError)) : analysis :=
  match results with
  | [] => a
  | Ok (_, record) :: results =>
      analyse (analyse_record (with_stats (λ s, count_valid (count_scanned s)) a) record) results
  | Err _ :: _ => with_stats (λ s, count_corrupted (count_scanned s)) a
  end.

Definition analysis_phase (f : file) (stats : RecoveryStats) :
    exec (result (option Z * gmap Z TransactionState * RecoveryStats) RecoveryError) :=
  match WalReader_new f with
  | Err e => Ret (Err (RecoveryError_from e))
  | Ok input =>
      results ← read_log input;
      let a := analyse (mkAnalysis stats None ∅) results in
      let stats :=
        foldl (λ s kv, if decide (kv.2 = InProgress) then count_incomplete s else s)
          (a_stats a) (map_to_list (a_transactions a)) in
      Ret (Ok (a_checkpoint a, a_transactions a, stats))
  end.

(** ** Redo *)

Record redo := mkRedo {
  r_operations : list RecoveredOperation;
  r_next_lsn : Z;
  r_current_tx : option Z;
  r_pending : gmap Z (list RecoveredOperation);
}.

Definition clear_tx (current_tx : option Z) (tx_id : Z) : option Z :=
  if decide (current_tx = Some tx_id) then None else current_tx.

Definition redo_record (s : redo) (e : Z * WalRecord) : redo :=
  let '(mkRedo operations _ current_tx pending) := s in
  let '(lsn, record) := e in
  let next_lsn := u64 (lsn + 1) in
  match record with
  | BeginTx tx_id =>
      mkRedo operations next_lsn (Some tx_id) (<[tx_id := default [] (pending !! tx_id)]> pending)
  | CommitTx tx_id =>
      mkRedo (operations ++ default [] (pending !! tx_id)) next_lsn (clear_tx current_tx tx_id)
        (delete tx_id pending)
  | AbortTx tx_id =>
      mkRedo operations next_lsn (clear_tx current_tx tx_id) (delete tx_id pending)
  | record =>
      let ops := recovered_operations_from_record lsn record in
      match current_tx with
      | Some tx_id =>
          mkRedo operations next_lsn current_tx
            (<[tx_id := default [] (pending !! tx_id) ++ ops]> pending)
      | None => mkRedo (operations ++ ops) next_lsn current_tx pending
      end
  end.

(** [for result in reader.iter() { .. Err => break .. }] *)
Fixpoint for_ok {S} (step : S → Z * WalRecord → S) (s : S)
    (results : list (result (Z * WalRecord) WalError)) : S :=
  match results with
  | Ok e :: results => for_ok step (step s e) results
  | _ => s
  end.

Definition count_operation (stats : RecoveryStats) (op : RecoveredOperation) : RecoveryStats :=
  match op with
  | RInsert _ _ _ | RIncrement _ _ _ _ | RUpsert _ _ _ | RCompareAndSwap _ _ _ _ =>
      count_insert stats
  | RRemove _ _ => count_remove stats
  end.

Definition redo_phase (f : file) (_checkpoint_lsn : option Z)
    (_transactions : gmap Z TransactionState) (stats : RecoveryStats) :
    exec (result (list RecoveredOperation * Z * RecoveryStats) RecoveryError) :=
  match WalReader_new f with
  | Err e => Ret (Err (RecoveryError_from e))
  | Ok input =>
      results ← read_log input;
      let s := for_ok redo_record (mkRedo [] 1 None ∅) results in
      let stats := foldl count_operation stats (r_operations s) in
      Ret (Ok (r_operations s, r_next_lsn s, stats))
  end.

(** ** Recovery *)

Record RecoveredState := mkRecovered {
  operations : list RecoveredOperation;
  next_lsn : Z;
  stats : RecoveryStats;
}.

(** [elapsed] is the running time the clock reports. *)
Definition recover (elapsed : Z) (wal : file) : exec (result RecoveredState RecoveryError) :=
  let stats := RecoveryStats_default in
  if negb (file_exists wal) then Ret (Ok (mkRecovered [] 1 stats))
  else
    a ← analysis_phase wal stats;
    match a with
    | Err e => Ret (Err e)
    | Ok (checkpoint_lsn, transactions, stats) =>
        let stats := set_checkpoint checkpoint_lsn stats in
        r ← redo_phase wal checkpoint_lsn transactions stats;
        match r with
        | Err e => Ret (Err e)
        | Ok (operations, next_lsn, stats) =>
            Ret (Ok (mkRecovered operations next_lsn (set_duration elapsed stats)))
        end
    end.

Definition needs_recovery (wal : file) : exec (result bool RecoveryError) :=
  if negb (file_exists wal) then Ret (Ok false)
  else
    match WalReader_new wal with
    | Err _ => Ret (Ok false)
    | Ok input =>
        '(r, _) ← next_record input;
        match r with
        | Some (Ok _) => Ret (Ok true)
        | Some (Err _) | None => Ret (Ok false)
        end
    end.

(** The caller's callback runs on its own state [C]. *)
Fixpoint run_callback {C} (callback : C → RecoveredOperation → C * result unit RecoveryError)
    (c : C) (ops : list RecoveredOperation) : C * result unit RecoveryError :=
  match ops with
  | [] => (c, Ok tt)
  | op :: ops =>
      match callback c op with
      | (c, Ok _) => run_callback callback c ops
      | (c, Err e) => (c, Err e)
      end
  end.

Definition recover_with_callback {C} (elapsed : Z) (wal : file)
    (callback : C → RecoveredOperation → C * result unit RecoveryError) (c : C) :
    exec (C * result RecoveryStats RecoveryError) :=
  state ← recover elapsed wal;
  match state with
  | Err e => Ret (c, Err e)
  | Ok state =>
      match run_callback callback c (operations state) with
      | (c, Ok _) => Ret (c, Ok (stats state))
      | (c, Err e) => Ret (c, Err e)
      end
  end.

(** ** Incremental recovery *)

Record IncrementalRecovery := mkIncremental {
  reader : list Z;
  i_current_tx : option Z;
  pending_ops : list RecoveredOperation;
  i_next_lsn : Z;
  stopped_at_corruption : bool;
}.

Definition IncrementalRecovery_new (f : file) : result IncrementalRecovery RecoveryError :=
  match WalReader_new f with
  | Err e => Err (RecoveryError_from e)
  | Ok input => Ok (mkIncremental input None [] 1 false)
  end.

Definition process_record (s : IncrementalRecovery) (lsn : Z) (record : WalRecord) :
    IncrementalRecovery * option (list RecoveredOperation) :=
  let '(mkIncremental input current_tx pending next_lsn stopped) := s in
  match record with
  | BeginTx tx_id => (mkIncremental input (Some tx_id) [] next_lsn stopped, None)
  | CommitTx tx_id =>
      if decide (current_tx = Some tx_id)
      then (mkIncremental input None [] next_lsn stopped, Some pending)
      else (s, None)
  | AbortTx tx_id =>
      if decide (current_tx = Some tx_id)
      then (mkIncremental input None [] next_lsn stopped, None)
      else (s, None)
  | record =>
      let ops := recovered_operations_from_record lsn record in
      match current_tx with
      | Some _ => (mkIncremental input current_tx (pending ++ ops) next_lsn stopped, None)
      | None => (s, match ops with [] => None | _ => Some ops end)
      end
  end.

(** The [while batch.len() < max_ops] loop.  Every turn that does not leave the
    loop reads a record, so the input is long enough as fuel. *)
Fixpoint batch_loop (fuel : nat) (max_ops : Z) (s : IncrementalRecovery)
    (batch : list RecoveredOperation) : exec (IncrementalRecovery * list RecoveredOperation) :=
  match fuel with
  | O => Panic
  | S fuel =>
      if zlen batch <? max_ops then
        '(r, input) ← next_record (reader s);
        let '(mkIncremental _ current_tx pending next_lsn stopped) := s in
        match r with
        | Some (Ok (lsn, record)) =>
            let s := mkIncremental input current_tx pending (u64 (lsn + 1)) stopped in
            let '(s, ops) := process_record s lsn record in
            batch_loop fuel max_ops s (batch ++ default [] ops)
        | Some (Err _) => Ret (mkIncremental input current_tx pending next_lsn true, batch)
        | None => Ret (mkIncremental input current_tx pending next_lsn stopped, batch)
        end
      else Ret (s, batch)
  end.

Definition next_batch (s : IncrementalRecovery) (max_ops : Z) :
    exec (IncrementalRecovery * option (list RecoveredOperation)) :=
  if stopped_at_corruption s then Ret (s, None)
  else
    '(s, batch) ← batch_loop (S (length (reader s))) max_ops s [];
    Ret (s, match batch with [] => None | _ => Some batch end).

(** Calling [next_batch] until it returns [None]. *)
Fixpoint drain (fuel : nat) (max_ops : Z) (s : IncrementalRecovery) :
    exec (list (list RecoveredOperation)) :=
  match fuel with
  | O => Panic
  | S fuel =>
      '(s, b) ← next_batch s max_ops;
      match b with
      | None => Ret []
      | Some batch => rest ← drain fuel max_ops s; Ret (batch :: rest)
      end
  end.

(** ** Applying *)

Fixpoint apply_from {C} (insert_fn : C → list Z → option (list Z) → C * result unit string)
    (c : C) (count : Z) (ops : list RecoveredOperation) : C * result Z string :=
  match ops with
  | [] => (c, Ok count)
  | op :: ops =>
      let call term value :=
        match insert_fn c term value with
        | (c, Ok _) => apply_from insert_fn c (count + 1) ops
        | (c, Err e) => (c, Err e)
        end in
      match op with
      | RInsert _ term value => call term value
      | RRemove _ term => call term None
      | RIncrement _ term _ res => call term (Some (to_le_bytes 8 (default 0 res)))
      | RUpsert _ term value => call term (Some value)
      | RCompareAndSwap _ term new_value success =>
          if success then call term (Some new_value) else apply_from insert_fn c count ops
      end
  end.

Definition apply_to_trie {C} (insert_fn : C → list Z → option (list Z) → C * result unit string)
    (c : C) (operations : list RecoveredOperation) : C * result Z string :=
  apply_from insert_fn c 0 operations.

(** ** What a log commits

    The records before the first corrupt one; and, for each of them, whether
    its operations take effect: outside a transaction always, inside the
    transaction [t] exactly when the next record that ends [t] commits it. *)

Definition trusted (results : list (result (Z * WalRecord) WalError)) : list (Z * WalRecord) :=
  rev (for_ok (λ l e, e :: l) [] results).

Fixpoint commits (t : Z) (log : list (Z * WalRecord)) : bool :=
  match log with
  | [] => false
  | (_, CommitTx t') :: log => if t =? t' then true else commits t log
  | (_, AbortTx t') :: log => if t =? t' then false else commits t log
  | _ :: log => commits t log
  end.

Definition tx_after (current : option Z) (record : WalRecord) : option Z :=
  match record with
  | BeginTx t => Some t
  | CommitTx t | AbortTx t => clear_tx current t
  | _ => current
  end.

Fixpoint committed (current : option Z) (log : list (Z * WalRecord)) : list RecoveredOperation :=
  match log with
  | [] => []
  | (lsn, record) :: log =>
      (if match current with None => true | Some t => commits t log end
       then recovered_operations_from_record lsn record else []) ++
      committed (tx_after current record) log
  end.

(** No transaction begins while another is open. *)
Fixpoint sequential (current : option Z) (log : list (Z * WalRecord)) : bool :=
  match log with
  | [] => true
  | (_, record) :: log =>
      match record, current with
      | BeginTx _, Some _ => false
      | _, _ => sequential (tx_after current record) log
      end
  end.

Lemma for_ok_trusted {S} (step : S → Z * WalRecord → S) s results :
  for_ok step s results = foldl step s (trusted results).
Proof.
  unfold trusted.
  assert (∀ acc s', foldl step s' (rev acc) = s →
    for_ok step s results = foldl step s' (rev (for_ok (λ l e, e :: l) acc results))) as Hgen.
  { revert s. induction results as [|[e|e] results IH]; intros s acc s' Hs; simpl; [done| |done].
    apply IH. simpl. by rewrite foldl_app, Hs. }
  by apply (Hgen [] s).
Qed.

Lemma trusted_cons e results : trusted (Ok e :: results) = e :: trusted results.
Proof.
  unfold trusted. simpl.
  assert (∀ acc, for_ok (λ l e, e :: l) acc results =
                 for_ok (λ l e, e :: l) [] results ++ acc) as Hgen.
  { induction results as [|[x|x] results IH]; intros acc; simpl; [done| |done].
    rewrite IH, (IH [x]), <-app_assoc. done. }
  rewrite Hgen, rev_app_distr. done.
Qed.

(** *** Redo, one record at a time *)

Definition pending_of (s : redo) (t : Z) : list RecoveredOperation := default [] (r_pending s !! t).

(** The operations of open transactions that the rest of the log commits. *)
Definition to_commit (log : list (Z * WalRecord)) (pending : gmap Z (list RecoveredOperation)) :
    list RecoveredOperation :=
  flat_map (λ kv, if commits kv.1 log then kv.2 else []) (map_to_list pending).

Lemma to_commit_insert log m t ops :
  m !! t = None →
  to_commit log (<[t := ops]> m) ≡ₚ (if commits t log then ops else []) ++ to_commit log m.
Proof.
  intros Ht. unfold to_commit. rewrite !flat_map_concat_map, (map_to_list_insert m t ops Ht). done.
Qed.

Lemma to_commit_delete log m t :
  to_commit log m ≡ₚ
    (if commits t log then default [] (m !! t) else []) ++ to_commit log (delete t m).
Proof.
  destruct (m !! t) as [ops|] eqn:Ht; simpl.
  - rewrite <-(insert_delete_id m t ops Ht) at 1. by rewrite to_commit_insert by apply lookup_delete_eq.
  - rewrite delete_id by done. by destruct (commits t log).
Qed.

Lemma to_commit_ext log log' m :
  (∀ t ops, m !! t = Some ops → commits t log = commits t log') →
  to_commit log m = to_commit log' m.
Proof.
  intros Hext. unfold to_commit. rewrite !flat_map_concat_map. f_equal.
  apply map_ext_in. intros [t ops] Hin. simpl.
  apply list_elem_of_In, elem_of_map_to_list in Hin. by rewrite (Hext t ops).
Qed.

Lemma commits_cons t lsn record log :
  (∀ t', record = CommitTx t' ∨ record = AbortTx t' → t' ≠ t) →
  commits t ((lsn, record) :: log) = commits t log.
Proof.
  intros H. destruct record; simpl; try done; rewrite (proj2 (Z.eqb_neq _ _)); try done;
    intros ->; by eapply H; eauto.
Qed.

(** The records that only carry operations. *)
Definition is_data (record : WalRecord) : Prop :=
  match record with BeginTx _ | CommitTx _ | AbortTx _ => False | _ => True end.

Lemma redo_data s lsn record :
  is_data record →
  redo_record s (lsn, record) =
    let ops := recovered_operations_from_record lsn record in
    match r_current_tx s with
    | Some t => mkRedo (r_operations s) (u64 (lsn + 1)) (r_current_tx s)
                  (<[t := pending_of s t ++ ops]> (r_pending s))
    | None => mkRedo (r_operations s ++ ops) (u64 (lsn + 1)) (r_current_tx s) (r_pending s)
    end.
Proof. destruct s as [ops next current pending], record; done. Qed.

Lemma data_step current lsn record log t :
  is_data record →
  tx_after current record = current ∧ commits t ((lsn, record) :: log) = commits t log.
Proof. by destruct record. Qed.

Lemma record_cases record :
  is_data record ∨ ∃ t, record = BeginTx t ∨ record = CommitTx t ∨ record = AbortTx t.
Proof. destruct record; naive_solver. Qed.

Lemma to_commit_replace log m t ops :
  to_commit log (<[t := ops]> m) ≡ₚ
    (if commits t log then ops else []) ++ to_commit log (delete t m).
Proof. rewrite <-insert_delete_eq. apply to_commit_insert, lookup_delete_eq. Qed.

(** Ending [t] concerns the pending operations of [t] only. *)
Lemma to_commit_end log lsn record t m :
  record = CommitTx t ∨ record = AbortTx t →
  to_commit ((lsn, record) :: log) (delete t m) = to_commit log (delete t m).
Proof.
  intros Hr. apply to_commit_ext. intros t' ops [Hne _]%lookup_delete_Some.
  apply commits_cons. intros t'' Ht. destruct Hr as [-> | ->]; naive_solver.
Qed.

Lemma redo_committed_perm log s :
  r_operations (foldl redo_record s log) ≡ₚ
    r_operations s ++ to_commit log (r_pending s) ++ committed (r_current_tx s) log.
Proof.
  revert s. induction log as [|[lsn record] log IH]; intros s.
  { simpl. rewrite app_nil_r. unfold to_commit.
    induction (map_to_list (r_pending s)) as [|x l IH]; simpl; [by rewrite app_nil_r|done]. }
  cbn [foldl committed]. rewrite IH. clear IH.
  destruct (record_cases record) as [Hd|(t & [-> | [-> | ->]])].
  - rewrite redo_data by done. cbv zeta.
    rewrite (to_commit_ext ((lsn, record) :: log) log)
      by (intros t ops _; by apply (data_step None)).
    rewrite (proj1 (data_step (r_current_tx s) lsn record log 0 Hd)).
    destruct (r_current_tx s) as [t|]; cbn [r_operations r_pending r_current_tx].
    + rewrite to_commit_replace, (to_commit_delete log (r_pending s) t). unfold pending_of.
      destruct (commits t log); simpl; solve_Permutation.
    + solve_Permutation.
  - destruct s as [ops next current pending]. cbn [redo_record r_operations r_pending r_current_tx].
    rewrite to_commit_replace, (to_commit_delete _ pending t).
    rewrite (to_commit_ext ((lsn, BeginTx t) :: log) log) by done.
    simpl. by destruct current as [t'|]; [destruct (commits t' log)|].
  - destruct s as [ops next current pending]. cbn [redo_record r_operations r_pending r_current_tx].
    rewrite (to_commit_delete ((lsn, CommitTx t) :: log) pending t), to_commit_end by auto.
    simpl. rewrite Z.eqb_refl, <-!app_assoc.
    by destruct current as [t'|]; [destruct (commits t' log)|].
  - destruct s as [ops next current pending]. cbn [redo_record r_operations r_pending r_current_tx].
    rewrite (to_commit_delete ((lsn, AbortTx t) :: log) pending t), to_commit_end by auto.
    simpl. rewrite Z.eqb_refl. by destruct current as [t'|]; [destruct (commits t' log)|].
Qed.

(** What the open transaction contributes, if the rest of the log commits it. *)
Definition open_commit (current : option Z) (pending : list RecoveredOperation)
    (log : list (Z * WalRecord)) : list RecoveredOperation :=
  match current with Some t => if commits t log then pending else [] | None => [] end.

(** The three ways a log without overlapping transactions goes on; each
    emits [out] and leaves the open transaction [current'] with [pending']. *)
Inductive seq_step (current : option Z) (pending : list RecoveredOperation) (lsn : Z) :
    WalRecord → option Z → list RecoveredOperation → list RecoveredOperation → Prop :=
| seq_data_out record :
    is_data record → current = None →
    seq_step current pending lsn record None []
      (recovered_operations_from_record lsn record)
| seq_data_in record t :
    is_data record → current = Some t →
    seq_step current pending lsn record (Some t)
      (pending ++ recovered_operations_from_record lsn record) []
| seq_begin t : current = None → seq_step current pending lsn (BeginTx t) (Some t) [] []
| seq_commit t : current = Some t → seq_step current pending lsn (CommitTx t) None [] pending
| seq_abort t : current = Some t → seq_step current pending lsn (AbortTx t) None [] []
| seq_other record t :
    record = CommitTx t ∨ record = AbortTx t → current ≠ Some t →
    seq_step current pending lsn record current pending [].

Lemma seq_step_committed current pending lsn record current' pending' out log :
  seq_step current pending lsn record current' pending' out →
  current' = tx_after current record ∧
  open_commit current pending ((lsn, record) :: log) ++ committed current ((lsn, record) :: log) =
    out ++ open_commit current' pending' log ++ committed current' log.
Proof.
  intros Hstep. unfold open_commit. cbn [committed].
  destruct Hstep as [record Hd ->|record t Hd ->|t ->|t ->|t ->|record t Hr Hne].
  - by destruct (data_step None lsn record log 0 Hd) as [-> _].
  - destruct (data_step (Some t) lsn record log t Hd) as [-> ->]. split; [done|].
    destruct (commits t log); [by rewrite <-app_assoc|done].
  - split; [done|]. simpl. by destruct (commits t log).
  - simpl. unfold clear_tx. rewrite decide_True, Z.eqb_refl by done. split; [done|].
    by destruct (commits t log).
  - simpl. unfold clear_tx. rewrite decide_True, Z.eqb_refl by done. split; [done|].
    by destruct (commits t log).
  - assert (tx_after current record = current ∧
            recovered_operations_from_record lsn record = []) as [-> ->].
    { unfold tx_after, clear_tx. destruct Hr as [-> | ->]; simpl; by rewrite decide_False. }
    split; [done|]. destruct current as [t'|]; [|done].
    rewrite commits_cons by (destruct Hr as [-> | ->]; naive_solver). simpl.
    destruct (commits t' log); done.
Qed.

(** In a log without overlapping transactions only the current transaction has
    pending operations. *)
Definition redo_seq (s : redo) : Prop := ∀ t, r_current_tx s ≠ Some t → pending_of s t = [].

Definition redo_open (s : redo) : list RecoveredOperation :=
  match r_current_tx s with Some t => pending_of s t | None => [] end.

(** Ending [t] emits the pending operations of [t], and only if it was current. *)
Lemma seq_step_end current (pending : gmap Z (list RecoveredOperation)) lsn record t out :
  let open cur p := match cur with Some t => default [] (p !! t) | None => [] end in
  (current ≠ Some t → default [] (pending !! t) = []) →
  record = CommitTx t ∧ out = default [] (pending !! t) ∨ record = AbortTx t ∧ out = [] →
  seq_step current (open current pending) lsn record (clear_tx current t)
    (open (clear_tx current t) (delete t pending)) out.
Proof.
  intros open Hother Hrec. unfold open, clear_tx. case_decide as Hc.
  - rewrite Hc. destruct Hrec as [[-> ->]|[-> ->]]; by constructor.
  - assert (out = []) as -> by (destruct Hrec as [[_ ->]|[_ ->]]; auto).
    replace (match current with Some t' => default [] (delete t pending !! t') | None => [] end)
      with (match current with Some t' => default [] (pending !! t') | None => [] end).
    + apply (seq_other _ _ _ _ t); [|done]. destruct Hrec as [[-> _]|[-> _]]; auto.
    + destruct current as [t'|]; [|done]. by rewrite lookup_delete_ne by congruence.
Qed.

Lemma redo_seq_step s lsn record log :
  redo_seq s → sequential (r_current_tx s) ((lsn, record) :: log) = true →
  let s' := redo_record s (lsn, record) in
  redo_seq s' ∧ ∃ out, r_operations s' = r_operations s ++ out ∧
    seq_step (r_current_tx s) (redo_open s) lsn record (r_current_tx s') (redo_open s') out.
Proof.
  intros Hs Hseq. destruct (record_cases record) as [Hd|(t & Hr)].
  - rewrite redo_data by done. cbv zeta. unfold redo_seq, redo_open, pending_of in *.
    destruct (r_current_tx s) as [t|] eqn:Ht; simpl; rewrite ?Ht; simpl.
    + split.
      * intros t' Hne. rewrite lookup_insert_ne by congruence. auto.
      * exists []. rewrite app_nil_r. split; [done|]. rewrite lookup_insert_eq. simpl.
        by apply seq_data_in.
    + split; [done|]. eexists. split; [done|]. by apply seq_data_out.
  - destruct s as [ops next current pending]. unfold redo_seq, redo_open, pending_of in *.
    cbn [r_current_tx r_pending r_operations] in *.
    destruct Hr as [-> | Hr].
    + destruct current; [done|]. simpl. split.
      * intros t' Hne. rewrite lookup_insert_ne by congruence. by apply Hs.
      * exists []. rewrite app_nil_r, lookup_insert_eq, Hs by done. split; [done|]. by constructor.
    + assert (redo_seq (mkRedo ops next (clear_tx current t) (delete t pending))) as Hs'.
      { intros t' Hne. unfold pending_of. cbn [r_pending r_current_tx] in *. unfold clear_tx in Hne.
        destruct (decide (t' = t)) as [->|]; [by rewrite lookup_delete_eq|].
        rewrite lookup_delete_ne by done. apply Hs. case_decide; congruence. }
      destruct Hr as [-> | ->]; simpl; (split; [exact Hs'|]).
      * eexists. split; [done|]. apply seq_step_end; auto.
      * exists []. rewrite app_nil_r. split; [done|]. apply seq_step_end; auto.
Qed.

Lemma sequential_tail current lsn record log :
  sequential current ((lsn, record) :: log) = true →
  sequential (tx_after current record) log = true.
Proof. simpl. destruct record; try done. by destruct current. Qed.

Lemma redo_committed_seq log s :
  redo_seq s → sequential (r_current_tx s) log = true →
  r_operations (foldl redo_record s log) =
    r_operations s ++ open_commit (r_current_tx s) (redo_open s) log ++
    committed (r_current_tx s) log.
Proof.
  revert s. induction log as [|[lsn record] log IH]; intros s Hs Hseq.
  { unfold open_commit. simpl. destruct (r_current_tx s); by rewrite !app_nil_r. }
  destruct (redo_seq_step s lsn record log Hs Hseq) as (Hs' & out & Hops & Hstep).
  apply (seq_step_committed _ _ _ _ _ _ _ log) in Hstep as [Hcur Heq].
  cbn [foldl]. rewrite IH, Heq, Hops, <-app_assoc; [done..|].
  rewrite Hcur. by eapply sequential_tail.
Qed.

(** *** Incremental recovery, one record at a time *)

(** What an incremental recovery in the state [s] has still to deliver. *)
Definition ahead (s : IncrementalRecovery) (rem : list RecoveredOperation) : Prop :=
  if stopped_at_corruption s then rem = []
  else ∃ results,
    is_bytes (reader s) ∧ read_log (reader s) = Ret results ∧
    (i_current_tx s = None → pending_ops s = []) ∧
    sequential (i_current_tx s) (trusted results) = true ∧
    rem = open_commit (i_current_tx s) (pending_ops s) (trusted results) ++
          committed (i_current_tx s) (trusted results).

Lemma process_record_step s lsn record log :
  (i_current_tx s = None → pending_ops s = []) →
  sequential (i_current_tx s) ((lsn, record) :: log) = true →
  let '(s', ops) := process_record s lsn record in
  reader s' = reader s ∧ stopped_at_corruption s' = stopped_at_corruption s ∧
  (i_current_tx s' = None → pending_ops s' = []) ∧
  seq_step (i_current_tx s) (pending_ops s) lsn record (i_current_tx s') (pending_ops s')
    (default [] ops).
Proof.
  destruct s as [input current pending next stopped]. cbn [i_current_tx pending_ops].
  intros Hpend Hseq. destruct (record_cases record) as [Hd|(t & [-> |Hr])].
  - destruct (process_record _ _ _) as [s' ops] eqn:E.
    assert (match current with
      | Some _ => (mkIncremental input current
                    (pending ++ recovered_operations_from_record lsn record) next stopped, None)
      | None => (mkIncremental input current pending next stopped,
                 match recovered_operations_from_record lsn record with
                 | [] => None | _ => Some (recovered_operations_from_record lsn record) end)
      end = (s', ops)) as E' by (by destruct record).
    clear E. destruct current as [t|]; injection E' as <- <-; cbn; split_and!; try done.
    + by apply seq_data_in.
    + rewrite Hpend by done.
      replace (default [] _) with (recovered_operations_from_record lsn record)
        by (by destruct (recovered_operations_from_record lsn record)).
      by apply seq_data_out.
  - simpl in *. destruct current; [done|]. split_and!; try done. by constructor.
  - destruct Hr as [-> | ->]; simpl; case_decide as Hc; cbn; split_and!; try done;
      try (by constructor); apply (seq_other _ _ _ _ t); auto.
Qed.

Lemma batch_loop_spec fuel max_ops s batch rem :
  ahead s rem → stopped_at_corruption s = false → (length (reader s) < fuel)%nat →
  ∃ s' out rem', batch_loop fuel max_ops s batch = Ret (s', batch ++ out) ∧
    rem = out ++ rem' ∧ ahead s' rem' ∧ (zlen (batch ++ out) < max_ops → rem' = []).
Proof.
  revert s batch rem. induction fuel as [|fuel IH]; intros s batch rem Hs Hstop Hfuel; [lia|].
  cbn [batch_loop]. destruct (Z.ltb_spec (zlen batch) max_ops) as [Hlt|Hge].
  2: { exists s, [], rem. rewrite app_nil_r. split_and!; [done..|lia]. }
  pose proof Hs as Hs0. unfold ahead in Hs. rewrite Hstop in Hs.
  destruct Hs as (results & Hb & Hlog & Hpend & Hseq & ->).
  destruct (read_log_step (reader s) Hb) as (r & input & -> & Hbi & Hr). bind_step.
  destruct s as [input0 current pending next stopped].
  cbn [reader i_current_tx pending_ops i_next_lsn stopped_at_corruption] in *. subst stopped.
  destruct r as [[[lsn record]|e]|].
  - destruct Hr as (Hlen & results' & Hlog' & Hcons). rewrite Hlog in Hcons. injection Hcons as ->.
    rewrite trusted_cons in *.
    pose proof (process_record_step (mkIncremental input current pending (u64 (lsn + 1)) false)
      lsn record (trusted results') Hpend Hseq) as Hproc.
    destruct (process_record _ lsn record) as [s' ops].
    cbn [reader i_current_tx pending_ops stopped_at_corruption] in Hproc.
    destruct Hproc as (Hreader & Hstop' & Hpend' & Hstep).
    apply (seq_step_committed _ _ _ _ _ _ _ (trusted results')) in Hstep as [Hcur ->].
    edestruct (IH s' (batch ++ default [] ops)) as (s2 & out & rem' & -> & Hrem & Hs2 & Hmax);
      [|done|rewrite Hreader; lia|].
    + unfold ahead. rewrite Hstop', Hreader. exists results'.
      split_and!; [done..| |reflexivity]. rewrite Hcur. by eapply sequential_tail.
    + exists s2, (default [] ops ++ out), rem'. rewrite Hrem, !app_assoc.
      split_and!; done.
  - destruct Hr as (_ & results' & _ & Hcons). rewrite Hlog in Hcons. injection Hcons as ->.
    eexists _, [], []. rewrite app_nil_r. split_and!; [done| |done..].
    unfold trusted, open_commit. simpl. by destruct current.
  - destruct Hr as [-> Hnil]. rewrite Hlog in Hnil. injection Hnil as ->.
    eexists _, [], []. rewrite app_nil_r. split_and!; [done| | |done].
    + unfold trusted, open_commit. simpl. by destruct current.
    + exists []. split_and!; [done..|]. unfold trusted, open_commit. simpl. by destruct current.
Qed.

Lemma next_batch_spec s max_ops rem :
  0 < max_ops → ahead s rem →
  ∃ s' b rem', next_batch s max_ops = Ret (s', b) ∧ ahead s' rem' ∧ rem = default [] b ++ rem' ∧
    (b = None → rem = []) ∧ b ≠ Some [].
Proof.
  intros Hmax Hs. unfold next_batch. destruct (stopped_at_corruption s) eqn:Hstop.
  { exists s, None, []. pose proof Hs as Hs0. unfold ahead in Hs. rewrite Hstop in Hs. by subst. }
  destruct (batch_loop_spec (S (length (reader s))) max_ops s [] rem Hs Hstop) as
    (s' & out & rem' & -> & -> & Hs' & Hdone); [lia|]. bind_step.
  exists s', (match out with [] => None | _ => Some out end), rem'.
  destruct out as [|op out]; split_and!; try done. intros _. apply Hdone. simpl. done.
Qed.

Lemma drain_spec fuel max_ops s rem :
  0 < max_ops → ahead s rem → (length rem < fuel)%nat →
  ∃ batches, drain fuel max_ops s = Ret batches ∧ concat batches = rem.
Proof.
  intros Hmax. revert s rem. induction fuel as [|fuel IH]; intros s rem Hs Hfuel; [lia|].
  cbn [drain]. destruct (next_batch_spec s max_ops rem Hmax Hs) as
    (s' & b & rem' & -> & Hs' & Hrem & Hnone & Hne). bind_step.
  destruct b as [batch|]; [|exists []; by rewrite Hnone].
  simpl in Hrem. subst rem. rewrite length_app in Hfuel.
  destruct (IH s' rem') as (batches & -> & <-); [done|destruct batch; simpl in *; [done|lia]|].
  by exists (batch :: batches).
Qed.

(** *** Recovery of a file *)

Definition redo_start : redo := mkRedo [] 1 None ∅.

Lemma redo_start_seq : redo_seq redo_start.
Proof. done. Qed.

Lemma redo_next_lsn log s :
  r_next_lsn (foldl redo_record s log) =
    match last log with Some (lsn, _) => u64 (lsn + 1) | None => r_next_lsn s end.
Proof.
  induction log as [|[lsn record] log IH] using rev_ind; [done|].
  rewrite foldl_snoc, last_snoc. destruct (foldl redo_record s log) as [ops next current pending].
  destruct record; simpl; try done; by destruct current.
Qed.

Lemma recover_contents elapsed bytes :
  is_bytes bytes →
  ∃ results stats_, read_log (drop HEADER_SIZE bytes) = Ret results ∧
    let s := foldl redo_record redo_start (trusted results) in
    recover elapsed (Contents bytes) = Ret (Ok (mkRecovered (r_operations s) (r_next_lsn s) stats_)).
Proof.
  intros Hb. destruct (read_log_total (drop HEADER_SIZE bytes)) as [results Hlog];
    [by apply Forall_drop|]. exists results. eexists. split; [done|]. cbv zeta.
  unfold recover, analysis_phase, redo_phase. cbn [file_exists negb WalReader_new File_open].
  rewrite Hlog. bind_step. rewrite for_ok_trusted. reflexivity.
Qed.

(** The operations a sequential or interleaved log gives back. *)
Lemma redo_committed results :
  let ops := r_operations (foldl redo_record redo_start (trusted results)) in
  ops ≡ₚ committed None (trusted results) ∧
  (sequential None (trusted results) = true → ops = committed None (trusted results)).
Proof.
  split.
  - rewrite redo_committed_perm. unfold to_commit, redo_start. simpl.
    by rewrite map_to_list_empty.
  - intros Hseq. by rewrite redo_committed_seq.
Qed.

(** C3: recovery is total and atomic.  On every file content, however torn or
    corrupted, [recover] returns a state.  Its operations are exactly those of
    the records before the first corrupt one that are outside a transaction or
    in a transaction that the log goes on to commit; transactions that are
    aborted or unfinished leave nothing.  If transactions do not overlap the
    operations are in log order; and the next sequence number is the one behind
    the last of these records. *)
Theorem recover_atomic elapsed bytes :
  is_bytes bytes →
  ∃ results st, read_log (drop HEADER_SIZE bytes) = Ret results ∧
    recover elapsed (Contents bytes) = Ret (Ok st) ∧
    operations st ≡ₚ committed None (trusted results) ∧
    (sequential None (trusted results) = true →
       operations st = committed None (trusted results)) ∧
    next_lsn st =
      match last (trusted results) with Some (lsn, _) => u64 (lsn + 1) | None => 1 end.
Proof.
  intros Hb. destruct (recover_contents elapsed bytes Hb) as (results & stats_ & Hlog & Hrec).
  eexists results, _. split; [done|]. split; [exact Hrec|].
  destruct (redo_committed results) as [Hperm Hseq].
  split_and!; [done..|]. simpl. apply redo_next_lsn.
Qed.

(** Lays a log file out: a header and the frames of its records. *)
Definition log_file (entries : list (Z * WalRecord)) : list Z :=
  replicate HEADER_SIZE 0 ++ frames entries.

Lemma recover_atomic_witness :
  let bytes := log_file [(1, BeginTx 7); (2, Remove [97]); (3, AbortTx 7); (4, Insert [98] None)] in
  ∃ results st, read_log (drop HEADER_SIZE bytes) = Ret results ∧
    recover 0 (Contents bytes) = Ret (Ok st) ∧
    operations st ≡ₚ committed None (trusted results) ∧
    (sequential None (trusted results) = true →
       operations st = committed None (trusted results)) ∧
    next_lsn st =
      match last (trusted results) with Some (lsn, _) => u64 (lsn + 1) | None => 1 end.
Proof. intros bytes. apply (recover_atomic 0 bytes). apply (bool_decide_unpack _). by vm_compute. Defined.

Lemma trusted_torn entries tail :
  trusted (map Ok entries ++ tail) = entries ++ trusted tail.
Proof. induction entries as [|e entries IH]; [done|]. simpl. by rewrite trusted_cons, IH. Qed.

Lemma recover_frames elapsed header entries tail :
  length header = HEADER_SIZE → Forall (λ e, frame_ok e.1 e.2) entries → torn tail →
  is_bytes (header ++ frames entries ++ tail) →
  ∃ st, recover elapsed (Contents (header ++ frames entries ++ tail)) = Ret (Ok st) ∧
    operations st ≡ₚ committed None entries ∧
    (sequential None entries = true → operations st = committed None entries).
Proof.
  intros Hh Hok Ht Hb. destruct (recover_contents elapsed _ Hb) as (results & stats_ & Hlog & Hrec).
  rewrite <-Hh, drop_app_length, read_log_torn in Hlog by done. injection Hlog as <-.
  eexists. split; [exact Hrec|]. cbn [operations].
  pose proof (redo_committed (map Ok entries ++
    if zlen tail <? RECORD_HEADER_SIZE then [] else [Err UnexpectedEof])) as Hred.
  rewrite trusted_torn in *. replace (trusted _) with (@nil (Z * WalRecord)) in * by
    (by destruct (_ <? _)). rewrite app_nil_r in *. exact Hred.
Qed.

(** C2: what was logged is recovered.  From a file with any header, the frames
    of any records and the remains of an append cut short by a crash, recovery
    gives back the committed operations of exactly the records that were
    written completely. *)
Theorem recover_logged elapsed header entries tail :
  length header = HEADER_SIZE → Forall (λ e, frame_ok e.1 e.2) entries → torn tail →
  is_bytes (header ++ frames entries ++ tail) →
  ∃ st, recover elapsed (Contents (header ++ frames entries ++ tail)) = Ret (Ok st) ∧
    operations st ≡ₚ committed None entries ∧
    (sequential None entries = true → operations st = committed None entries).
Proof. apply recover_frames. Qed.

Lemma recover_logged_witness :
  let header := replicate HEADER_SIZE 0 in
  let entries := [(1, Insert [97] None); (2, BeginTx 5); (3, Upsert [98] [1]); (4, CommitTx 5)] in
  let tail := take 18 (encode_record_frame 5 (Remove [97])) in
  ∃ st, recover 0 (Contents (header ++ frames entries ++ tail)) = Ret (Ok st) ∧
    operations st ≡ₚ committed None entries ∧
    (sequential None entries = true → operations st = committed None entries).
Proof.
  intros header entries tail. apply (recover_logged 0 header entries tail).
  - reflexivity.
  - repeat constructor; vm_compute; congruence.
  - right. exists 5, (Remove [97]), (drop 18 (encode_record_frame 5 (Remove [97]))).
    split_and!; [repeat constructor; vm_compute; congruence|reflexivity|vm_compute; congruence].
  - apply (bool_decide_unpack _). by vm_compute.
Defined.



(** Overlapping transactions.  Both transactions of this log commit.
    [recover] gives back the operations of both, in commit order, which is not
    the order of their sequence numbers; [next_batch] has dropped the operation
    of the transaction that was interrupted by the second [BeginTx]. *)
Theorem overlapping_transactions :
  let wal := Contents (log_file
    [(1, BeginTx 1); (2, Insert [97] None); (3, BeginTx 2); (4, Insert [98] None);
     (5, CommitTx 2); (6, CommitTx 1)]) in
  (∃ st, recover 0 wal = Ret (Ok st) ∧ operations st = [RInsert 4 [98] None; RInsert 2 [97] None]) ∧
  (∃ s, IncrementalRecovery_new wal = Ok s ∧ drain 5 100 s = Ret [[RInsert 4 [98] None]]).
Proof.
  split.
  - eexists. split; [vm_compute; reflexivity|done].
  - eexists. split; [reflexivity|]. vm_compute. reflexivity.
Qed.
