(* ===== verification/Rebuild.v ===== *)
(** * Rebuilding from log segments

    [rebuild_from_wal_segments], [rebuild_from_wal_segments_regime_aware] and
    [detect_corruption] of src/src/persistent_artrie/core/recovery.rs: what is
    left of a trie when its data file is gone and only log segments remain. *)

From stdpp Require Import prelude gmap strings pretty.
From S2P Require Import Prelude Bytes WalCodec WalHeader WalFrame Reconcile Recovery.
Local Open Scope Z_scope.
Local Open Scope list_scope.

(** ** Rebuilding

    The callback runs on its own state [C].  [true] in a result means that the
    loop over the segments was left with [break 'segments]. *)

Section rebuild.
Context {C : Type} (apply_fn : C → RecoveredOperation → C * result unit string).

Fixpoint apply_winners (c : C) (terms_recovered : Z) (ops : list RecoveredOperation) :
    C * Z * bool :=
  match ops with
  | [] => (c, terms_recovered, false)
  | op :: ops =>
      match apply_fn c op with
      | (c, Err _) => (c, terms_recovered, true)
      | (c, Ok _) => apply_winners c (inc terms_recovered) ops
      end
  end.

Fixpoint rebuild_records (c : C) (records_replayed terms_recovered : Z)
    (results : list (result (Z * WalRecord) WalError)) : C * Z * Z * bool :=
  match results with
  | [] => (c, records_replayed, terms_recovered, false)
  | Err _ :: _ => (c, records_replayed, terms_recovered, true)
  | Ok (lsn, record) :: results =>
      let records_replayed := inc records_replayed in
      match apply_winners c terms_recovered (recovered_operations_from_record lsn record) with
      | (c, terms_recovered, true) => (c, records_replayed, terms_recovered, true)
      | (c, terms_recovered, false) => rebuild_records c records_replayed terms_recovered results
      end
  end.

Fixpoint rebuild_segments (c : C) (records_replayed terms_recovered : Z) (segments : list file) :
    exec (C * Z * Z) :=
  match segments with
  | [] => Ret (c, records_replayed, terms_recovered)
  | segment :: segments =>
      match WalReader_new segment with
      | Err _ => rebuild_segments c records_replayed terms_recovered segments
      | Ok input =>
          results ← read_log input;
          match rebuild_records c records_replayed terms_recovered results with
          | (c, records_replayed, terms_recovered, true) =>
              Ret (c, records_replayed, terms_recovered)
          | (c, records_replayed, terms_recovered, false) =>
              rebuild_segments c records_replayed terms_recovered segments
          end
      end
  end.

Definition rebuild_from_wal_segments (c : C) (segments : list file) :
    exec (C * result (Z * Z) RecoveryError) :=
  '(c, records_replayed, terms_recovered) ← rebuild_segments c 0 0 segments;
  Ret (c, Ok (records_replayed, terms_recovered)).

(** [WalReader::read_header(seg).map(|h| h.regime()).unwrap_or(Owned)] *)
Definition segment_regime (segment : file) : exec RankRegime :=
  h ← WalReader_read_header segment;
  Ret (match h with Ok h => WalHeader_regime h | Err _ => Owned end).

Fixpoint any_overlay (segments : list file) : exec bool :=
  match segments with
  | [] => Ret false
  | segment :: segments =>
      h ← WalReader_read_header segment;
      match h with
      | Ok h => match WalHeader_regime h with Overlay => Ret true | Owned => any_overlay segments end
      | Err _ => any_overlay segments
      end
  end.

(** The records of one segment, each stamped with the segment's regime; [true]
    at the first corrupt one. *)
Fixpoint collect_records (seg_regime : RankRegime) (all_records : list (Z * WalRecord))
    (regime_by_lsn : gmap Z RankRegime) (results : list (result (Z * WalRecord) WalError)) :
    list (Z * WalRecord) * gmap Z RankRegime * bool :=
  match results with
  | [] => (all_records, regime_by_lsn, false)
  | Err _ :: _ => (all_records, regime_by_lsn, true)
  | Ok (lsn, record) :: results =>
      collect_records seg_regime (all_records ++ [(lsn, record)])
        (<[lsn := seg_regime]> regime_by_lsn) results
  end.

Fixpoint collect_segments (all_records : list (Z * WalRecord)) (regime_by_lsn : gmap Z RankRegime)
    (segments : list file) : exec (list (Z * WalRecord) * gmap Z RankRegime) :=
  match segments with
  | [] => Ret (all_records, regime_by_lsn)
  | segment :: segments =>
      seg_regime ← segment_regime segment;
      match WalReader_new segment with
      | Err _ => collect_segments all_records regime_by_lsn segments
      | Ok input =>
          results ← read_log input;
          match collect_records seg_regime all_records regime_by_lsn results with
          | (all_records, regime_by_lsn, true) => Ret (all_records, regime_by_lsn)
          | (all_records, regime_by_lsn, false) =>
              collect_segments all_records regime_by_lsn segments
          end
      end
  end.

(** [all_records.iter().map(|(lsn, _)| *lsn).min()] *)
Definition min_lsn (records : list (Z * WalRecord)) : option Z :=
  foldr (λ e m, Some (match m with Some m => Z.min e.1 m | None => e.1 end)) None records.

Definition prefix_gap (min_lsn : Z) : string :=
  "archive rebuild has a prefix gap: lowest WAL LSN is " +:+ pretty min_lsn +:+
  " (> 1) — the pre-" +:+ pretty min_lsn +:+
  " prefix was pruned while the base image is unavailable, so the archives cannot fully reconstruct the trie. Refusing a silent incomplete rebuild (RES-3).".

Definition rebuild_from_wal_segments_regime_aware (c : C) (segments : list file) :
    exec (C * result (Z * Z) RecoveryError) :=
  overlay ← any_overlay segments;
  if negb overlay then rebuild_from_wal_segments c segments
  else
    '(all_records, regime_by_lsn) ← collect_segments [] ∅ segments;
    let winners :=
      reconcile_lww_with_regime all_records false 0
        (λ lsn, default Owned (regime_by_lsn !! lsn)) in
    let replay_winners :=
      let '(c, terms_recovered, _) := apply_winners c 0 winners in
      Ret (c, Ok (zlen all_records, terms_recovered)) in
    match min_lsn all_records with
    | Some min_lsn =>
        if 1 <? min_lsn then Ret (c, Err (RecoveryFailed (prefix_gap min_lsn)))
        else replay_winners
    | None => replay_winners
    end.
End rebuild.

(** ** Detecting corruption *)

Inductive CorruptionType : Type :=
| InvalidHeader (msg : string)
| ArenaChecksum (arena_id expected found : Z)
| Truncated (expected actual : Z)
| InvalidRootDescriptor (msg : string)
| IoError (msg : string).

Definition DISK_MANAGER_MAGIC : Z := 0x5041525400010000.

(** ["PART"] and ["ARTC"] *)
Definition MAGIC_PART : list Z := [80; 65; 82; 84].
Definition MAGIC_ARTC : list Z := [65; 82; 84; 67].

(** The same loop as the frames' checksum, which ends in [!crc]. *)
Definition crc32_header (data : list Z) : Z :=
  Z.lxor (foldl crc_byte 4294967295 data) 4294967295.

(** [{:#018x}]: 16 digits, with leading zeros *)
Fixpoint hex_padded (digits : nat) (z : Z) (acc : string) : string :=
  match digits with
  | O => "0x" +:+ acc
  | S digits => hex_padded digits (z / 16) (hex_digit (z mod 16) +:+ acc)
  end.

(** [{:?}] of a byte slice *)
Definition debug_bytes (bs : list Z) : string :=
  "[" +:+ String.concat ", " (map pretty bs) +:+ "]".

Definition invalid_magic (magic_u64 : Z) (first8 : list Z) : string :=
  "Invalid magic: u64=" +:+ hex_padded 16 magic_u64 EmptyString +:+
  " (bytes " +:+ debug_bytes first8 +:+ ")".

Definition detect_corruption (f : file) (check_arenas : bool) :
    exec (result (option CorruptionType) RecoveryError) :=
  match f with
  | Missing => Ret (Ok None)
  | Unopenable e => Ret (Err (RIo e))
  | Contents bytes =>
      match fst (read_exact 64 bytes) with
      | None => Ret (Ok (Some (Truncated 64 (zlen bytes))))
      | Some header_bytes =>
          magic_u64 ← get_u64 header_bytes 0;
          if magic_u64 =? DISK_MANAGER_MAGIC then Ret (Ok None)
          else
            magic_4 ← slice header_bytes 0 4;
            if negb (bool_decide (magic_4 = MAGIC_PART)) &&
               negb (bool_decide (magic_4 = MAGIC_ARTC)) then
              first8 ← slice header_bytes 0 8;
              Ret (Ok (Some (InvalidHeader (invalid_magic magic_u64 first8))))
            else
              version ← index header_bytes 4;
              if (version =? 0) || (2 <? version) then
                Ret (Ok (Some (InvalidHeader ("Unsupported version: " +:+ pretty version))))
              else
                stored_checksum ← get_u32 header_bytes 32;
                covered ← slice header_bytes 0 32;
                let computed_checksum := crc32_header covered in
                if (2 <=? version) && negb (stored_checksum =? computed_checksum) then
                  Ret (Ok (Some (InvalidHeader
                    ("Header checksum mismatch: stored " +:+ hex stored_checksum +:+
                     ", computed " +:+ hex computed_checksum))))
                else if check_arenas && (zlen bytes <? 64) then
                  Ret (Ok (Some (Truncated 64 (zlen bytes))))
                else Ret (Ok None)
      end
  end.

(** ** The durable prefix of a list of segments

    The records of the segments that can be opened, up to the first corrupt
    record; what follows it, later segments included, is not trusted. *)

Definition all_ok (results : list (result (Z * WalRecord) WalError)) : bool :=
  forallb (λ r, match r with Ok _ => true | Err _ => false end) results.

Fixpoint durable (segments : list file) : exec (list (Z * WalRecord)) :=
  match segments with
  | [] => Ret []
  | segment :: segments =>
      match WalReader_new segment with
      | Err _ => durable segments
      | Ok input =>
          results ← read_log input;
          if all_ok results then rest ← durable segments; Ret (trusted results ++ rest)
          else Ret (trusted results)
      end
  end.

Definition operations_of (records : list (Z * WalRecord)) : list RecoveredOperation :=
  flat_map (λ e, recovered_operations_from_record e.1 e.2) records.

Definition file_ok (f : file) : Prop := match f with Contents bytes => is_bytes bytes | _ => True end.

Lemma WalReader_new_bytes f input : file_ok f → WalReader_new f = Ok input → is_bytes input.
Proof. destruct f; simpl; try done. intros Hb [= <-]. by apply Forall_drop. Qed.

Section rebuild_properties.
Context {C : Type} (apply_fn : C → RecoveredOperation → C * result unit string).

Lemma apply_winners_app c terms ops1 ops2 :
  apply_winners apply_fn c terms (ops1 ++ ops2) =
    match apply_winners apply_fn c terms ops1 with
    | (c, terms, true) => (c, terms, true)
    | (c, terms, false) => apply_winners apply_fn c terms ops2
    end.
Proof using.
  revert c terms. induction ops1 as [|op ops1 IH]; intros c terms; simpl; [done|].
  destruct (apply_fn c op) as [c' []]; [apply IH|done].
Qed.

Lemma inc_add n k : 0 ≤ k → inc (u64 (n + k)) = u64 (n + (1 + k)).
Proof using.
  intros Hk. unfold inc, u64. rewrite Zplus_mod_idemp_l. f_equal. lia.
Qed.

(** What one segment does: [stop] when a callback failed or a record was
    corrupt. *)
Lemma rebuild_records_spec c n terms results :
  ∃ n' c' terms' failed,
    apply_winners apply_fn c terms (operations_of (trusted results)) = (c', terms', failed) ∧
    rebuild_records apply_fn c (u64 n) terms results =
      (c', n', terms', failed || negb (all_ok results)) ∧
    (failed = false → n' = u64 (n + zlen (trusted results))).
Proof using.
  revert c n terms. induction results as [|[[lsn record]|e] results IH]; intros c n terms.
  - eexists _, _, _, false. split_and!; [done..|]. intros _. unfold trusted. simpl.
    by rewrite zlen_nil, Z.add_0_r.
  - rewrite trusted_cons. cbn [rebuild_records operations_of flat_map fst snd].
    fold (operations_of (trusted results)). rewrite apply_winners_app.
    destruct (apply_winners apply_fn c terms _) as [[c1 terms1] [|]].
    { by eexists _, _, _, true. }
    replace (inc (u64 n)) with (u64 (n + 1))
      by (rewrite <-(Z.add_0_r n) at 2; by rewrite inc_add).
    destruct (IH c1 (n + 1) terms1) as (n' & c' & terms' & failed & Happ & -> & Hn).
    exists n', c', terms', failed. split_and!; [done..|].
    intros Hf. rewrite zlen_cons, Hn by done. f_equal. lia.
  - eexists _, _, _, false. split_and!; [done..|]. intros _. unfold trusted. simpl.
    by rewrite zlen_nil, Z.add_0_r.
Qed.

Lemma rebuild_segments_spec c n terms segments :
  Forall file_ok segments →
  ∃ records n' c' terms' failed, durable segments = Ret records ∧
    apply_winners apply_fn c terms (operations_of records) = (c', terms', failed) ∧
    rebuild_segments apply_fn c (u64 n) terms segments = Ret (c', n', terms') ∧
    (failed = false → n' = u64 (n + zlen records)).
Proof using.
  intros Hok. revert c n terms. induction Hok as [|f segments Hf _ IH]; intros c n terms.
  { eexists [], _, _, _, false. split_and!; [done..|]. intros _. by rewrite zlen_nil, Z.add_0_r. }
  cbn [durable rebuild_segments]. destruct (WalReader_new f) as [input|e] eqn:Hnew; [|apply IH].
  destruct (read_log_total input) as [results ->]; [by eapply WalReader_new_bytes|]. bind_step.
  destruct (rebuild_records_spec c n terms results) as (n1 & c1 & t1 & failed & Happ & -> & Hn).
  assert (∀ rest, operations_of (trusted results ++ rest) =
    operations_of (trusted results) ++ operations_of rest) as Hcat
    by (intros; apply flat_map_app).
  destruct (all_ok results); simpl.
  - rewrite orb_false_r. destruct failed.
    + destruct (IH c n terms) as (rest & _ & _ & _ & _ & -> & _). simpl.
      eexists _, n1, c1, t1, true. by rewrite Hcat, apply_winners_app, Happ.
    + rewrite Hn by done.
      destruct (IH c1 (n + zlen (trusted results)) t1) as (rest & n' & c' & t' & failed & -> & Ha & -> & Hn').
      simpl. exists (trusted results ++ rest), n', c', t', failed.
      rewrite Hcat, apply_winners_app, Happ. split_and!; [done..|].
      intros Hfail. rewrite zlen_app, Hn' by done. f_equal. lia.
  - rewrite orb_true_r. by exists (trusted results), n1, c1, t1, failed.
Qed.
End rebuild_properties.

(** A rebuild replays the durable prefix.  For every list of segments and
    every callback, [rebuild_from_wal_segments] returns; the callback has seen
    the operations of the durable prefix of the segments in order, up to the
    first one it refused; the terms counted are those it accepted, and, when it
    refused none, the records counted are all records of the prefix. *)
Theorem rebuild_replays_durable {C} (apply_fn : C → RecoveredOperation → C * result unit string)
    c segments :
  Forall file_ok segments →
  ∃ records n c' terms failed, durable segments = Ret records ∧
    apply_winners apply_fn c 0 (operations_of records) = (c', terms, failed) ∧
    rebuild_from_wal_segments apply_fn c segments = Ret (c', Ok (n, terms)) ∧
    (failed = false → n = u64 (zlen records)).
Proof.
  intros Hok. unfold rebuild_from_wal_segments.
  destruct (rebuild_segments_spec apply_fn c 0 0 segments Hok) as
    (records & n & c' & terms & failed & Hd & Ha & Hr & Hn).
  exists records, n, c', terms, failed. change (u64 0) with 0 in Hr. by rewrite Hr.
Qed.

Lemma rebuild_replays_durable_witness :
  let segments := [Unopenable 5; Contents (log_file [(1, Insert [97] None)]);
                   Contents (log_file [(2, Remove [97])] ++ [1])] in
  let apply_fn c op := (c ++ [op_lsn op], Ok tt) in
  ∃ records n c' terms failed, durable segments = Ret records ∧
    apply_winners apply_fn [] 0 (operations_of records) = (c', terms, failed) ∧
    rebuild_from_wal_segments apply_fn [] segments = Ret (c', Ok (n, terms)) ∧
    (failed = false → n = u64 (zlen records)).
Proof.
  intros segments apply_fn. apply (rebuild_replays_durable apply_fn [] segments).
  repeat constructor; apply (bool_decide_unpack _); by vm_compute.
Defined.

(** ** Overlay segments *)

Lemma collect_records_spec regime records regimes results :
  ∃ regimes', collect_records regime records regimes results =
    (records ++ trusted results, regimes', negb (all_ok results)) ∧
    (∀ lsn, regimes' !! lsn =
       if decide (lsn ∈ (trusted results).*1) then Some regime else regimes !! lsn).
Proof.
  revert records regimes. induction results as [|[[lsn record]|e] results IH]; intros records regimes.
  - exists regimes. simpl. by rewrite app_nil_r.
  - rewrite trusted_cons. cbn [collect_records].
    destruct (IH (records ++ [(lsn, record)]) (<[lsn := regime]> regimes)) as (regimes' & -> & Hr).
    exists regimes'. rewrite <-app_assoc. split; [done|]. intros lsn'. rewrite Hr. simpl.
    destruct (decide (lsn' ∈ (trusted results).*1)).
    + rewrite decide_True; [done|set_solver].
    + destruct (decide (lsn' = lsn)) as [->|].
      * rewrite lookup_insert_eq, decide_True; [done|set_solver].
      * rewrite lookup_insert_ne, decide_False; [done|set_solver|done].
  - exists regimes. simpl. by rewrite app_nil_r.
Qed.

Lemma from_bytes_total buf :
  is_bytes buf → zlen buf = 64 → ∃ h, WalHeader_from_bytes buf = Ret h.
Proof.
  intros Hb Hlen. unfold WalHeader_from_bytes.
  destruct (slice_total buf 0 8) as [m ->]; [lia..|]. bind_step. destruct (_ && _); [by eexists|].
  destruct (get_u32_bytes buf 8) as (v & -> & _); [done|lia..|]. bind_step.
  destruct (negb _); [by eexists|].
  destruct (get_u64_bytes buf 12) as (cp & -> & _); [done|lia..|]. bind_step.
  destruct (get_u64_bytes buf 20) as (fl & -> & _); [done|lia..|]. bind_step.
  destruct (index_total buf 28) as [rr ->]; [lia|]. bind_step.
  destruct (slice_total buf 29 64) as [rs ->]; [lia..|]. by eexists.
Qed.

Lemma read_header_total f : file_ok f → ∃ h, WalReader_read_header f = Ret h.
Proof.
  destruct f as [|e|bytes]; simpl; [by eexists..|]. intros Hb.
  unfold WalReader_read_header. cbn [File_open].
  pose proof (read_exact_spec (Z.of_nat HEADER_SIZE) bytes Hb) as Hr.
  destruct (read_exact _ bytes) as [[buf|] rest]; simpl; [|by eexists].
  destruct Hr as (_ & Hlen & Hbuf & _); [done|]. by apply from_bytes_total.
Qed.

(** The regime [r] of a record comes from the header of a segment that holds it. *)
Definition stamped_by (segments : list file) (lsn : Z) (r : RankRegime) : Prop :=
  ∃ f input results, f ∈ segments ∧ WalReader_new f = Ok input ∧ read_log input = Ret results ∧
    lsn ∈ (trusted results).*1 ∧ segment_regime f = Ret r.

Lemma stamped_by_cons f segments lsn r : stamped_by segments lsn r → stamped_by (f :: segments) lsn r.
Proof. intros (f' & input & results & ? & ?). exists f', input, results. set_solver. Qed.

Lemma collect_segments_spec records regimes segments :
  Forall file_ok segments →
  ∃ prefix regimes', durable segments = Ret prefix ∧
    collect_segments records regimes segments = Ret (records ++ prefix, regimes') ∧
    ∀ lsn, if decide (lsn ∈ prefix.*1) then ∃ r, regimes' !! lsn = Some r ∧ stamped_by segments lsn r
           else regimes' !! lsn = regimes !! lsn.
Proof.
  intros Hok. revert records regimes. induction Hok as [|f segments Hf _ IH]; intros records regimes.
  { exists [], regimes. by rewrite app_nil_r. }
  cbn [durable collect_segments].
  assert (∃ r, segment_regime f = Ret r) as [r Hreg].
  { unfold segment_regime. destruct (read_header_total f Hf) as [h ->]. by eexists. }
  rewrite Hreg. bind_step. destruct (WalReader_new f) as [input|e] eqn:Hnew.
  2: { destruct (IH records regimes) as (p & regimes' & -> & -> & Hr).
       exists p, regimes'. split_and!; [done..|]. intros lsn. specialize (Hr lsn).
       case_decide; [|done]. destruct Hr as (r' & ? & ?). eauto using stamped_by_cons. }
  destruct (read_log_total input) as [results Hlog]; [by eapply WalReader_new_bytes|].
  rewrite Hlog. bind_step.
  assert (∀ lsn, lsn ∈ (trusted results).*1 → stamped_by (f :: segments) lsn r) as Hhere.
  { intros lsn ?. exists f, input, results. split_and!; [set_solver|done..]. }
  destruct (collect_records_spec r records regimes results) as (regimes1 & -> & Hr1).
  destruct (all_ok results); simpl.
  - destruct (IH (records ++ trusted results) regimes1) as (rest & regimes2 & -> & -> & Hr2). simpl.
    eexists _, _. split_and!; [done|by rewrite <-app_assoc|]. intros lsn.
    specialize (Hr1 lsn). specialize (Hr2 lsn). rewrite fmap_app.
    destruct (decide (lsn ∈ rest.*1)).
    + rewrite decide_True by set_solver. destruct Hr2 as (r' & ? & ?). eauto using stamped_by_cons.
    + rewrite Hr2, Hr1. destruct (decide (lsn ∈ (trusted results).*1)).
      * rewrite decide_True by set_solver. eauto.
      * by rewrite decide_False by set_solver.
  - eexists _, regimes1. split_and!; [done..|]. intros lsn. rewrite Hr1. case_decide; eauto.
Qed.

Lemma min_lsn_spec records :
  match min_lsn records with
  | None => records = []
  | Some m => (∃ e, e ∈ records ∧ e.1 = m) ∧ ∀ e, e ∈ records → m ≤ e.1
  end.
Proof.
  induction records as [|e records IH]; simpl; [done|].
  destruct (min_lsn records) as [m|].
  - destruct IH as [(e' & He' & <-) Hle]. split.
    + destruct (Z.min_spec e.1 e'.1) as [[_ ->]|[_ ->]]; [exists e|exists e']; set_solver.
    + intros x Hx. apply elem_of_cons in Hx as [->|Hx]; [lia|]. specialize (Hle x Hx). lia.
  - subst. split; [exists e; set_solver|]. intros x ->%list_elem_of_singleton. done.
Qed.


(** A segment of an overlay file whose first records were pruned. *)
Definition overlay_segment (entries : list (Z * WalRecord)) : list Z :=
  default [] (WalHeader_to_bytes (mkWalHeader MAGIC_OVERLAY VERSION 0 0 1 (replicate 35 0))) ++
  frames entries.


(** The rebuild does not know transactions.  On a log whose only
    transaction is aborted, recovery gives back nothing, and the rebuild from
    the same file applies the aborted insert. *)
Theorem rebuild_resurrects_aborted :
  let wal := Contents (log_file [(1, BeginTx 1); (2, Insert [97] None); (3, AbortTx 1)]) in
  (∃ st, recover 0 wal = Ret (Ok st) ∧ operations st = []) ∧
  rebuild_from_wal_segments_regime_aware (λ c op, (c ++ [op], Ok tt)) [] [wal] =
    Ret ([RInsert 2 [97] None], Ok (3, 1)).
Proof.
  split.
  - eexists. split; [vm_compute; reflexivity|done].
  - vm_compute. reflexivity.
Qed.

(** ** Corruption of a version 2 header *)

(** A file that starts with a four-byte magic and a version 2 header. *)
Definition v2_file (magic mid : list Z) (crc : Z) (rest : list Z) : list Z :=
  magic ++ [2] ++ mid ++ to_le_bytes 4 crc ++ rest.

Lemma get_le_low n b t z : get_le (S n) (b :: t) 0 = Ret z → z mod 256 = b mod 256.
Proof.
  unfold get_le, slice. case_decide; [|done]. rewrite Z.sub_0_r, Z.add_0_l, Nat2Z.id.
  cbn. intros [= <-]. rewrite Z.mul_comm. apply Z.mod_add. lia.
Qed.

Lemma detect_v2 magic mid crc rest check_arenas :
  magic = MAGIC_PART ∨ magic = MAGIC_ARTC → zlen mid = 27 → is_u32 crc → 28 ≤ zlen rest →
  is_bytes (magic ++ [2] ++ mid) →
  detect_corruption (Contents (v2_file magic mid crc rest)) check_arenas =
    Ret (Ok (if crc =? crc32_header (magic ++ [2] ++ mid) then None
             else Some (InvalidHeader ("Header checksum mismatch: stored " +:+ hex crc +:+
                    ", computed " +:+ hex (crc32_header (magic ++ [2] ++ mid)))))).
Proof.
  intros Hm Hmid Hcrc Hrest Hb. assert (zlen magic = 4) as Hml by (by destruct Hm as [-> | ->]).
  set (header := magic ++ [2] ++ mid ++ to_le_bytes 4 crc ++ take 28 rest).
  assert (v2_file magic mid crc rest = header ++ drop 28 rest) as Hfile.
  { unfold v2_file, header. rewrite <-!app_assoc. by rewrite take_drop. }
  assert (zlen header = 64) as Hlen.
  { unfold header. autorewrite with zlen. unfold zlen in *. rewrite length_take. lia. }
  unfold detect_corruption. rewrite Hfile, read_exact_app by done. cbn [fst].
  pose proof (holds_prefix header []) as H. rewrite app_nil_r in H. unfold header in H at 2.
  assert (holds header 0 (magic ++ [2] ++ mid)) as H32.
  { by rewrite (app_assoc [2]), app_assoc in H; apply holds_app in H as [? _]. }
  apply holds_app in H as [H4 H]. apply holds_app in H as [Hv H]. apply holds_app in H as [_ H].
  apply holds_app in H as [Hc _]. autorewrite with zlen in *. rewrite Hml, Hmid in *.
  destruct (get_le_total 8 header 0) as [m8 Hm8]; [lia..|]. unfold get_u64. rewrite Hm8. bind_step.
  rewrite (proj2 (Z.eqb_neq m8 _)).
  2: { intros ->. destruct Hm as [-> | ->]; by apply get_le_low in Hm8. }
  rewrite (holds_slice header 0 magic 4) by (done || lia). bind_step.
  replace (_ && _) with false by (by destruct Hm as [-> | ->]).
  erewrite holds_index by exact Hv. bind_step. cbn [Z.eqb Z.ltb Z.compare orb].
  rewrite (holds_u32 header 32 crc) by (exact Hc || done). bind_step.
  erewrite (holds_slice _ _ _ 32) by (exact H32 || (autorewrite with zlen; lia)). bind_step.
  cbn [Z.leb Z.compare andb]. destruct (Z.eqb_spec crc (crc32_header (magic ++ [2] ++ mid))); [|done].
  change (2 <? 2) with false. change (2 <=? 2) with true. cbn [negb andb].
  rewrite ?zlen_app, Hlen, (proj2 (Z.ltb_ge _ 64)) by (zlen_pos; lia). by rewrite andb_false_r.
Qed.

(** Damage to a version 2 header is reported.  A file with a four-byte
    magic and a version 2 header passes when its stored checksum is the one of
    the first 32 bytes; changing any one byte between the version and the
    checksum makes [detect_corruption] report an invalid header. *)
Theorem detect_header_damage magic pre old new post rest check_arenas :
  magic = MAGIC_PART ∨ magic = MAGIC_ARTC →
  zlen (pre ++ old :: post) = 27 → is_bytes (pre ++ old :: post) → is_u8 new → new ≠ old →
  28 ≤ zlen rest →
  let crc := crc32_header (magic ++ [2] ++ pre ++ old :: post) in
  detect_corruption (Contents (v2_file magic (pre ++ old :: post) crc rest)) check_arenas =
    Ret (Ok None) ∧
  ∃ msg, detect_corruption (Contents (v2_file magic (pre ++ new :: post) crc rest)) check_arenas =
    Ret (Ok (Some (InvalidHeader msg))).
Proof.
  intros Hm Hlen Hb Hnew Hne Hrest crc.
  assert (is_bytes (magic ++ [2])) as Hbm.
  { destruct Hm as [-> | ->]; apply (bool_decide_unpack _); by vm_compute. }
  pose proof Hb as Hb'. apply Forall_app in Hb' as [Hpre Hb']. apply Forall_cons in Hb' as [Hold Hpost].
  assert (∀ x, is_u8 x → is_bytes (magic ++ [2] ++ pre ++ x :: post)) as Hbx.
  { intros x Hx. rewrite app_assoc. apply Forall_app. split; [done|].
    apply Forall_app. split; [done|by constructor]. }
  assert (is_u32 crc) as Hcrc by (apply crc32_range; auto).
  split.
  - rewrite detect_v2; auto. by rewrite Z.eqb_refl.
  - eexists. rewrite detect_v2; auto; [|zlen_lia].
    rewrite (proj2 (Z.eqb_neq _ _)); [reflexivity|]. intros Heq. apply Hne. symmetry.
    apply (crc32_one_byte (magic ++ [2] ++ pre) old new post); [|done..|].
    + rewrite app_assoc. by apply Forall_app.
    + unfold crc, crc32_header in Heq. unfold crc32. by rewrite <-!app_assoc.
Qed.

Lemma detect_header_damage_witness :
  let mid := replicate 27 9 in
  let crc := crc32_header (MAGIC_ARTC ++ [2] ++ [] ++ 9 :: replicate 26 9) in
  detect_corruption (Contents (v2_file MAGIC_ARTC mid crc (replicate 28 0))) true = Ret (Ok None) ∧
  ∃ msg, detect_corruption (Contents
    (v2_file MAGIC_ARTC ([] ++ 1 :: replicate 26 9) crc (replicate 28 0))) true =
      Ret (Ok (Some (InvalidHeader msg))).
Proof.
  intros mid crc. apply (detect_header_damage MAGIC_ARTC [] 9 1 (replicate 26 9) (replicate 28 0) true);
    [by right|done|apply (bool_decide_unpack _); by vm_compute|done|done|done].
Defined.
