(* ===== verification/WalWriter.v ===== *)
(** * The log writer

    [WalWriter] of src/src/persistent_artrie/core/wal/writer.rs: opening and
    creating a log, the buffered append path with [sync], [checkpoint] and
    [truncate], and the header stamps.  The lock-free positional path is in
    WalSegment.v.

    A file is its bytes; the writer holds two handles on it, one buffered with a
    cursor of its own and one for positional writes.  Operating-system calls are
    taken to succeed here, and directory contents are arguments. *)

From stdpp Require Import prelude gmap strings pretty.
From S2P Require Import Prelude Bytes WalCodec WalHeader WalFrame Reconcile Recovery.
Local Open Scope Z_scope.
Local Open Scope list_scope.

Definition Lsn_MAX : Z := 2 ^ 64 - 1.

Record WalWriter := mkWriter {
  w_file : list Z;
  w_buffer : list Z;
  w_cursor : Z;
  segment_next_offset : Z;
  w_next_lsn : Z;
  w_synced_lsn : Z;
  segment_durable_lsn : Z;
  segment_durable_pending : gset Z;
  segment_failed_lsn : Z;
  w_header : WalHeader;
}.

(** ** File operations *)

(** [write_all_at]: a write behind the end leaves a gap of zeros. *)
Definition pwrite (f : list Z) (off : Z) (bs : list Z) : list Z :=
  let o := Z.to_nat off in
  take o (f ++ replicate (o - length f) 0) ++ bs ++ drop (o + length bs) f.

(** [file.write_all(buf)] on the [BufWriter] *)
Definition buffer_write (w : WalWriter) (bs : list Z) : WalWriter :=
  let 'mkWriter f b c so nl sl dl dp fl h := w in mkWriter f (b ++ bs) c so nl sl dl dp fl h.

(** [file.flush()] *)
Definition flush (w : WalWriter) : WalWriter :=
  let 'mkWriter f b c so nl sl dl dp fl h := w in
  mkWriter (pwrite f c b) [] (c + zlen b) so nl sl dl dp fl h.

(** [file.seek(..)] of a [BufWriter] flushes first. *)
Definition seek_start (w : WalWriter) (pos : Z) : WalWriter :=
  let 'mkWriter f _ _ so nl sl dl dp fl h := flush w in mkWriter f [] pos so nl sl dl dp fl h.
Definition seek_end (w : WalWriter) : WalWriter :=
  let 'mkWriter f _ _ so nl sl dl dp fl h := flush w in mkWriter f [] (zlen f) so nl sl dl dp fl h.

Definition set_header (w : WalWriter) (h : WalHeader) : WalWriter :=
  let 'mkWriter f b c so nl sl dl dp fl _ := w in mkWriter f b c so nl sl dl dp fl h.
Definition set_next_lsn (w : WalWriter) (lsn : Z) : WalWriter :=
  let 'mkWriter f b c so _ sl dl dp fl h := w in mkWriter f b c so lsn sl dl dp fl h.
Definition set_synced_lsn (w : WalWriter) (lsn : Z) : WalWriter :=
  let 'mkWriter f b c so nl _ dl dp fl h := w in mkWriter f b c so nl lsn dl dp fl h.

(** ** Creating and opening *)

Definition WalWriter_create (f : file) : exec (result WalWriter WalError) :=
  match f with
  | Contents _ => Ret (Err AlreadyExists)
  | Unopenable e => Ret (Err (Io e))
  | Missing =>
      let header := WalHeader_new in
      bytes ← WalHeader_to_bytes header;
      Ret (Ok (mkWriter bytes [] (zlen bytes) (Z.of_nat HEADER_SIZE) 1 0 0 ∅ Lsn_MAX header))
  end.

(** [while let Some(result) = reader.next_record() { if let Ok((lsn, _)) = result { .. max .. } }] *)
Definition scan_last_lsn (results : list (result (Z * WalRecord) WalError)) : Z :=
  foldl (λ last r, match r with Ok (lsn, _) => Z.max last lsn | Err _ => last end) 0 results.

(** [max_segment_lsn] is what the directory of record segments holds. *)
Definition WalWriter_open (max_segment_lsn : option Z) (f : file) : decoded WalWriter :=
  match f with
  | Missing => Ret (Err NotFound)
  | Unopenable e => Ret (Err (Io e))
  | Contents bytes =>
      match fst (read_exact (Z.of_nat HEADER_SIZE) bytes) with
      | None => Ret (Err (Io ErrorKind_UnexpectedEof))
      | Some header_buf =>
          try_bind (WalHeader_from_bytes header_buf) (λ header,
            results ← read_log (drop HEADER_SIZE bytes);
            let last_lsn := scan_last_lsn results in
            let last_lsn :=
              match max_segment_lsn with Some m => Z.max last_lsn m | None => last_lsn end in
            let last_lsn := Z.max last_lsn (checkpoint_lsn header) in
            Ret (Ok (mkWriter bytes [] (zlen bytes) (Z.max (zlen bytes) (Z.of_nat HEADER_SIZE))
                       (u64 (last_lsn + 1)) last_lsn last_lsn ∅ Lsn_MAX header)))
      end
  end.

Definition WalWriter_open_or_create (max_segment_lsn : option Z) (f : file) : decoded WalWriter :=
  r ← WalWriter_open max_segment_lsn f;
  match r with
  | Err NotFound =>
      c ← WalWriter_create f;
      match c with
      | Err AlreadyExists => WalWriter_open max_segment_lsn f
      | c => Ret c
      end
  | r => Ret r
  end.

(** ** Appending *)

Definition write_record_at_lsn (w : WalWriter) (lsn : Z) (record : WalRecord) : WalWriter :=
  buffer_write w (encode_record_frame lsn record).

(** [self.next_lsn.fetch_add(1, ..)] *)
Definition allocate_lsn (w : WalWriter) : Z * WalWriter :=
  (w_next_lsn w, set_next_lsn w (u64 (w_next_lsn w + 1))).

Definition append (w : WalWriter) (record : WalRecord) : Z * WalWriter :=
  let '(lsn, w) := allocate_lsn w in (lsn, write_record_at_lsn w lsn record).

Definition append_batch (w : WalWriter) (entries : list (list Z * option (list Z))) :
    Z * WalWriter :=
  match entries with
  | [] => append w (BatchInsert [])
  | _ => append w (BatchInsert entries)
  end.

Definition sync (w : WalWriter) : Z * WalWriter :=
  let w := flush w in
  let current_lsn := u64 (w_next_lsn w - 1) in
  (current_lsn, set_synced_lsn w current_lsn).

Definition append_batch_and_sync (w : WalWriter) (entries : list (list Z * option (list Z))) :
    Z * WalWriter :=
  sync (snd (append_batch w entries)).

Definition set_min_lsn (w : WalWriter) (min_lsn : Z) : WalWriter :=
  if min_lsn <=? w_next_lsn w then w else set_next_lsn w min_lsn.

(** ** The header *)

(** [seek(Start(0)); write_all(&header.to_bytes()); flush(); sync_all(); seek(End(0))] *)
Definition rewrite_header (w : WalWriter) (h : WalHeader) : exec WalWriter :=
  bytes ← WalHeader_to_bytes h;
  Ret (seek_end (flush (buffer_write (seek_start (set_header w h) 0) bytes))).

Definition with_checkpoint (h : WalHeader) (lsn : Z) : WalHeader :=
  let 'mkWalHeader m v _ fl r rs := h in mkWalHeader m v lsn fl r rs.
Definition with_floor (h : WalHeader) (floor : Z) : WalHeader :=
  let 'mkWalHeader m v cp _ r rs := h in mkWalHeader m v cp floor r rs.
Definition with_regime (h : WalHeader) (magic : list Z) (r : RankRegime) : WalHeader :=
  let 'mkWalHeader _ v cp fl _ rs := h in mkWalHeader magic v cp fl (RankRegime_code r) rs.

Definition write_checkpoint_header (w : WalWriter) (checkpoint_lsn : Z) : exec WalWriter :=
  rewrite_header w (with_checkpoint (w_header w) checkpoint_lsn).

(** [timestamp] is the clock. *)
Definition checkpoint (w : WalWriter) (timestamp checkpoint_lsn : Z) : exec (Z * WalWriter) :=
  let '(lsn, w) := append w (Checkpoint checkpoint_lsn timestamp) in
  let '(_, w) := sync w in
  w ← write_checkpoint_header w checkpoint_lsn;
  Ret (lsn, w).

Definition set_commit_seq_floor (w : WalWriter) (floor : Z) : exec WalWriter :=
  if floor <=? commit_seq_floor (w_header w) then Ret w
  else rewrite_header w (with_floor (w_header w) floor).

Definition is_empty_after_header (w : WalWriter) : bool := w_next_lsn w =? 1.

Definition records_empty_on_disk (w : WalWriter) : bool * WalWriter :=
  let w := flush w in (zlen (w_file w) =? Z.of_nat HEADER_SIZE, w).

Definition overlay_not_empty : string :=
  "set_overlay_regime on a non-empty WAL (records already appended); the non-empty Owned→Overlay transition requires a rotation".
Definition overlay_has_records : string :=
  "set_overlay_regime_records_empty on a WAL that carries records on disk; the non-empty Owned→Overlay transition requires a rotation".
Definition owned_not_empty : string :=
  "set_owned_regime on a non-empty WAL (records already appended); the non-empty Overlay→Owned transition requires a rotation".

Definition stamp_regime (w : WalWriter) (magic : list Z) (r : RankRegime) :
    exec (WalWriter * result unit WalError) :=
  if rank_regime (w_header w) =? RankRegime_code r then Ret (w, Ok tt)
  else w ← rewrite_header w (with_regime (w_header w) magic r); Ret (w, Ok tt).

Definition set_overlay_regime (w : WalWriter) : exec (WalWriter * result unit WalError) :=
  if negb (is_empty_after_header w) then Ret (w, Err (InvalidRegimeStamp overlay_not_empty))
  else stamp_regime w MAGIC_OVERLAY Overlay.

Definition set_overlay_regime_records_empty (w : WalWriter) :
    exec (WalWriter * result unit WalError) :=
  let '(empty, w) := records_empty_on_disk w in
  if negb empty then Ret (w, Err (InvalidRegimeStamp overlay_has_records))
  else stamp_regime w MAGIC_OVERLAY Overlay.

Definition set_owned_regime (w : WalWriter) : exec (WalWriter * result unit WalError) :=
  if negb (is_empty_after_header w) then Ret (w, Err (InvalidRegimeStamp owned_not_empty))
  else stamp_regime w MAGIC Owned.

(** ** Truncating *)

Definition truncate (w : WalWriter) : exec WalWriter :=
  let 'mkWriter f _ _ _ _ _ _ _ _ h := flush w in
  let f := take HEADER_SIZE (f ++ replicate (HEADER_SIZE - length f) 0) in
  let w := mkWriter f [] (Z.of_nat HEADER_SIZE) (Z.of_nat HEADER_SIZE) 1 0 0 ∅ Lsn_MAX h in
  let h := with_checkpoint h 0 in
  bytes ← WalHeader_to_bytes h;
  Ret (seek_start (flush (buffer_write (seek_start (set_header w h) 0) bytes))
         (Z.of_nat HEADER_SIZE)).

(** ** The log as a list of records

    [writer_inv w log disk]: the records appended since the last truncation are
    [log], numbered from 1; [disk] of them are in the file behind the header and
    the others in the buffer. *)

Definition writer_inv (w : WalWriter) (log disk : list (Z * WalRecord)) : Prop :=
  header_ok (w_header w) ∧
  (∃ hb rest, WalHeader_to_bytes (w_header w) = Ret hb ∧ log = disk ++ rest ∧
     w_file w = hb ++ frames disk ∧ w_buffer w = frames rest) ∧
  w_cursor w = zlen (w_file w) ∧
  w_next_lsn w = 1 + zlen log ∧
  log.*1 = seqZ 1 (zlen log) ∧
  Forall (λ e, frame_ok e.1 e.2) log.

Lemma pwrite_end f bs : pwrite f (zlen f) bs = f ++ bs.
Proof.
  unfold pwrite, zlen. rewrite Nat2Z.id, Nat.sub_diag. simpl. rewrite app_nil_r, take_ge by done.
  rewrite drop_ge by lia. by rewrite app_nil_r.
Qed.

Lemma pwrite_start f new old rest :
  f = old ++ rest → length new = length old → pwrite f 0 new = new ++ rest.
Proof.
  intros -> Hlen. unfold pwrite. simpl. rewrite Hlen, drop_app_length. done.
Qed.

Lemma frames_app a b : frames (a ++ b) = frames a ++ frames b.
Proof. apply flat_map_app. Qed.

Lemma header_bytes h : header_ok h → ∃ hb, WalHeader_to_bytes h = Ret hb ∧ length hb = HEADER_SIZE ∧ is_bytes hb.
Proof.
  intros (Hm & Hv & Hcp & Hfl & Hr & Hlen & Hb).
  assert (length (magic h) = 8%nat ∧ is_bytes (magic h)) as [Hml Hmb].
  { destruct Hm as [-> | ->]; (split; [done|apply (bool_decide_unpack _); by vm_compute]). }
  rewrite to_bytes_layout by done. eexists. split; [reflexivity|].
  rewrite !length_app, !length_to_le_bytes, Hml, Hlen. split; [done|].
  repeat (apply Forall_app; split); try done; try apply to_le_bytes_bytes. by constructor.
Qed.

Lemma flush_inv w log disk : writer_inv w log disk → writer_inv (flush w) log log.
Proof.
  destruct w as [f b c so nl sl dl dp fl h].
  intros (Hh & (hb & rest & Hhb & Hlog & Hf & Hb) & Hc & Hn & Hl & Hok). cbn in *.
  split; [done|]. split_and!; try done.
  - exists hb, []. rewrite app_nil_r. subst. rewrite pwrite_end, frames_app, <-app_assoc. done.
  - subst. cbn. rewrite pwrite_end. by rewrite !zlen_app.
Qed.

Lemma append_inv w log disk record :
  writer_inv w log disk → frame_ok (1 + zlen log) record → is_u64 (2 + zlen log) →
  fst (append w record) = 1 + zlen log ∧
  writer_inv (snd (append w record)) (log ++ [(1 + zlen log, record)]) disk.
Proof.
  destruct w as [f b c so nl sl dl dp fl h].
  intros (Hh & (hb & rest & Hhb & Hlog & Hf & Hb) & Hc & Hn & Hl & Hok) Hr Hmax. cbn in *.
  subst nl. split; [done|]. split; [done|]. cbn. rewrite zlen_app, zlen_cons, zlen_nil.
  split_and!; try done.
  - exists hb, (rest ++ [(1 + zlen log, record)]). subst. rewrite frames_app, app_assoc.
    split_and!; try done. unfold frames at 3. cbn. by rewrite app_nil_r.
  - rewrite u64_id by (replace (1 + zlen log + 1) with (2 + zlen log) by lia; done). lia.
  - rewrite fmap_app, Hl. replace (zlen log + (1 + 0)) with (zlen log + 1) by lia.
    by rewrite (seqZ_app 1 (zlen log) 1) by (zlen_pos; lia).
  - apply Forall_app. split; [done|by constructor].
Qed.

Lemma rewrite_header_inv w log disk h :
  writer_inv w log disk → header_ok h →
  ∃ w', rewrite_header w h = Ret w' ∧ writer_inv w' log log ∧ w_header w' = h ∧
    w_next_lsn w' = w_next_lsn w.
Proof.
  intros Hinv Hh. pose proof (flush_inv _ _ _ Hinv) as Hfl. unfold rewrite_header.
  destruct (header_bytes h Hh) as (hb & Hhb & Hlen & _). rewrite Hhb. bind_step.
  eexists. split; [reflexivity|].
  destruct w as [f b c so nl sl dl dp fl h0].
  destruct Hfl as (Hh0 & (hb0 & rest & Hhb0 & Hlog & Hf & Hb) & Hc & Hn & Hl & Hok). cbn in *.
  assert (length hb0 = HEADER_SIZE) as Hlen0.
  { destruct (header_bytes h0 Hh0) as (hb' & Hhb' & ? & _). congruence. }
  assert (rest = []) as -> by (apply (f_equal length) in Hlog; rewrite length_app in Hlog;
    destruct rest; simpl in *; [done|lia]).
  rewrite app_nil_r in Hlog.
  assert (pwrite (pwrite f c b) 0 hb = hb ++ frames log) as Hpw by
    (apply (pwrite_start _ _ hb0); [done|congruence]).
  split; [|done]. split; [done|]. cbn. rewrite Hpw.
  assert (pwrite (hb ++ frames log) (zlen hb) [] = hb ++ frames log) as Hnop.
  { unfold pwrite, zlen. rewrite Nat2Z.id. simpl. rewrite Nat.add_0_r.
    rewrite take_app_le by (rewrite length_app; lia). by rewrite take_drop. }
  rewrite Z.add_0_l, Hnop. split_and!; try done. exists hb, []. by rewrite app_nil_r.
Qed.

Lemma sync_inv w log disk : writer_inv w log disk → writer_inv (snd (sync w)) log log.
Proof. intros H. apply flush_inv in H. unfold sync. destruct (flush w). exact H. Qed.

Lemma with_checkpoint_ok h lsn : header_ok h → is_u64 lsn → header_ok (with_checkpoint h lsn).
Proof. destruct h. intros (?&?&?&?&?&?&?) ?. unfold header_ok in *. cbn in *. tauto. Qed.

Lemma with_floor_ok h floor : header_ok h → is_u64 floor → header_ok (with_floor h floor).
Proof. destruct h. intros (?&?&?&?&?&?&?) ?. unfold header_ok in *. cbn in *. tauto. Qed.

Lemma pwrite_nothing f off : 0 ≤ off ≤ zlen f → pwrite f off [] = f.
Proof.
  intros Hoff. unfold pwrite, zlen in *. simpl. rewrite Nat.add_0_r.
  replace (Z.to_nat off - length f)%nat with 0%nat by lia. simpl. by rewrite app_nil_r, take_drop.
Qed.

Lemma truncate_inv w log disk :
  writer_inv w log disk → ∃ w', truncate w = Ret w' ∧ writer_inv w' [] [].
Proof.
  intros Hinv. pose proof (flush_inv _ _ _ Hinv) as Hfl. unfold truncate.
  destruct (flush w) as [f b c so nl sl dl dp fl h].
  destruct Hfl as (Hh & (hb & rest & Hhb & Hlog & Hf & _) & _).
  cbn [w_header w_file] in Hh, Hhb, Hf.
  destruct (header_bytes h Hh) as (hb' & Hhb' & Hlen & _).
  rewrite Hhb in Hhb'. injection Hhb' as <-.
  pose proof (with_checkpoint_ok h 0 Hh ltac:(done)) as Hh'.
  destruct (header_bytes _ Hh') as (nb & Hnb & Hnlen & _). rewrite Hnb. bind_step.
  eexists. split; [reflexivity|].
  assert (take HEADER_SIZE (f ++ replicate (HEADER_SIZE - length f) 0) = hb) as ->.
  { subst f. rewrite take_app_le by (rewrite length_app; lia). by rewrite <-Hlen, take_app_length. }
  assert (∀ x : list Z, length x = HEADER_SIZE → zlen x = Z.of_nat HEADER_SIZE) as Hz
    by (unfold zlen; congruence).
  cbn -[HEADER_SIZE pwrite Z.add]. rewrite (pwrite_nothing hb) by (rewrite Hz by done; lia).
  rewrite (pwrite_start hb nb hb []) by (rewrite ?app_nil_r; congruence).
  rewrite app_nil_r, pwrite_nothing by (rewrite ?Z.add_0_l, ?Hz by done; lia).
  split; [done|]. cbn -[HEADER_SIZE]. split_and!; try done; [|by rewrite Hz].
  exists nb, []. by rewrite app_nil_r.
Qed.

(** ** Sequences of operations *)

Inductive writer_op : Type :=
| WAppend (record : WalRecord)
| WBatch (entries : list (list Z * option (list Z)))
| WSync
| WCheckpoint (timestamp lsn : Z)
| WFloor (floor : Z)
| WTruncate.

Definition writer_step (w : WalWriter) (op : writer_op) : exec WalWriter :=
  match op with
  | WAppend record => Ret (snd (append w record))
  | WBatch entries => Ret (snd (append_batch w entries))
  | WSync => Ret (snd (sync w))
  | WCheckpoint timestamp lsn => '(_, w) ← checkpoint w timestamp lsn; Ret w
  | WFloor floor => set_commit_seq_floor w floor
  | WTruncate => truncate w
  end.

(** What the operations mean: the records of the log, and how many of them
    have been synced. *)
Definition wlog : Type := list (Z * WalRecord) * nat.

Definition log_append (l : wlog) (record : WalRecord) : wlog :=
  (l.1 ++ [(1 + zlen l.1, record)], l.2).
Definition log_sync (l : wlog) : wlog := (l.1, length l.1).

Definition log_step (l : wlog) (op : writer_op) : wlog :=
  match op with
  | WAppend record => log_append l record
  | WBatch entries => log_append l (BatchInsert entries)
  | WSync => log_sync l
  | WCheckpoint timestamp lsn => log_sync (log_append l (Checkpoint lsn timestamp))
  | WFloor _ => l
  | WTruncate => ([], 0%nat)
  end.

Definition loggable (record : WalRecord) : Prop :=
  record_ok record ∧ is_u32 (RECORD_HEADER_SIZE + payload_len record).

Definition op_ok (op : writer_op) : Prop :=
  match op with
  | WAppend record => loggable record
  | WBatch entries => loggable (BatchInsert entries)
  | WCheckpoint timestamp lsn => is_u64 timestamp ∧ is_u64 lsn
  | WFloor floor => is_u64 floor
  | WSync | WTruncate => True
  end.

(** The writer holds the log, and at least the synced records are in the file. *)
Definition writes (w : WalWriter) (l : wlog) : Prop :=
  ∃ disk, writer_inv w l.1 disk ∧ (l.2 ≤ length disk)%nat.

Lemma writes_append w l record :
  writes w l → loggable record → is_u64 (2 + zlen l.1) →
  writes (snd (append w record)) (log_append l record).
Proof.
  intros (disk & Hinv & Hd) [Hr Hlen] Hmax. exists disk. split; [|done].
  apply append_inv; [done| |done]. split_and!; [done| |done].
  unfold is_u64 in *. zlen_pos. lia.
Qed.

Lemma writes_flushed w l : writer_inv w l.1 l.1 → writes w (log_sync l).
Proof. intros H. by exists l.1. Qed.

Lemma writer_step_ok w l op :
  writes w l → op_ok op → is_u64 (2 + zlen l.1) →
  ∃ w', writer_step w op = Ret w' ∧ writes w' (log_step l op).
Proof.
  intros Hw Hop Hmax. destruct op as [record|entries| |timestamp lsn|floor|]; simpl in *.
  - eexists. split; [done|]. by apply writes_append.
  - eexists. split; [done|]. unfold append_batch. destruct entries; by apply writes_append.
  - eexists. split; [done|]. destruct Hw as (disk & Hinv & _).
    eapply writes_flushed, sync_inv, Hinv.
  - assert (loggable (Checkpoint lsn timestamp)) as Hcp by (split; [by destruct Hop|done]).
    apply (writes_append _ _ _ Hw) in Hcp as (disk & Hinv & _); [|done].
    unfold checkpoint. destruct (append w _) as [n w1]. cbn [snd] in Hinv.
    apply sync_inv in Hinv. destruct (sync w1) as [n1 w2]. cbn [snd] in Hinv.
    destruct (rewrite_header_inv w2 _ _ (with_checkpoint (w_header w2) lsn) Hinv) as
      (w3 & Hw3 & Hinv3 & _); [apply with_checkpoint_ok; [apply Hinv|apply Hop]|].
    unfold write_checkpoint_header. rewrite Hw3. bind_step.
    eexists. split; [done|]. by apply (writes_flushed w3 (log_append l _)).
  - unfold set_commit_seq_floor. destruct (_ <=? _); [by eexists|].
    destruct Hw as (disk & Hinv & Hd).
    destruct (rewrite_header_inv w _ _ (with_floor (w_header w) floor) Hinv) as
      (w3 & Hw3 & Hinv3 & _); [apply with_floor_ok; [apply Hinv|done]|].
    eexists. split; [done|]. exists l.1. split; [done|].
    destruct Hinv as (_ & (_ & rest & _ & -> & _) & _). rewrite length_app. lia.
  - destruct Hw as (disk & Hinv & _). apply truncate_inv in Hinv as (w' & ? & ?).
    exists w'. split; [done|]. by exists [].
Qed.

Lemma log_step_length l op : (length (log_step l op).1 ≤ S (length l.1))%nat.
Proof.
  destruct op; simpl; unfold log_append, log_sync; simpl; rewrite ?length_app; simpl; lia.
Qed.

Lemma writer_run_ok ops w l :
  writes w l → Forall op_ok ops → is_u64 (2 + zlen l.1 + zlen ops) →
  ∃ w', foldM writer_step w ops = Ret w' ∧ writes w' (foldl log_step l ops).
Proof.
  intros Hw Hops. revert w l Hw. induction Hops as [|op ops Hop _ IH]; intros w l Hw Hmax.
  { by exists w. }
  rewrite zlen_cons in Hmax. destruct (writer_step_ok w l op Hw Hop) as (w1 & Hw1 & Hl1).
  { unfold is_u64 in *. zlen_pos. lia. }
  cbn [foldM foldl]. rewrite Hw1. bind_step. apply IH; [done|].
  pose proof (log_step_length l op). unfold is_u64, zlen in *. lia.
Qed.

(** ** Crashes *)

Lemma frame_bytes lsn r : frame_ok lsn r → is_bytes (encode_record_frame lsn r).
Proof.
  intros Hok. rewrite encode_frame_layout by done. cbv zeta. apply Forall_app.
  split; [apply to_le_bytes_bytes|]. rewrite <-serialize_length. by apply frame_body_bytes.
Qed.

Lemma frames_bytes entries : Forall (λ e, frame_ok e.1 e.2) entries → is_bytes (frames entries).
Proof.
  induction 1 as [|[lsn r] entries He _ IH]; [constructor|].
  apply Forall_app. split; [by apply frame_bytes|done].
Qed.

(** Every prefix of a sequence of frames is some frames and a torn one. *)
Lemma frames_prefix entries k :
  Forall (λ e, frame_ok e.1 e.2) entries →
  ∃ n tail, (n ≤ length entries)%nat ∧ take k (frames entries) = frames (take n entries) ++ tail ∧
    torn tail.
Proof.
  intros Hok. revert k. induction Hok as [|[lsn r] entries He _ IH]; intros k.
  { exists 0%nat, []. split_and!; [simpl; lia|by destruct k|by left]. }
  destruct (decide (length (encode_record_frame lsn r) ≤ k)%nat) as [Hle|Hlt].
  - destruct (IH (k - length (encode_record_frame lsn r))%nat) as (n & tail & Hn & Heq & Ht).
    exists (S n), tail. split; [simpl; lia|]. split; [|done].
    unfold frames in *. cbn [flat_map take fst snd]. rewrite take_app, Heq, <-app_assoc.
    by rewrite take_ge.
  - exists 0%nat, (take k (encode_record_frame lsn r)). split; [simpl; lia|].
    unfold frames. cbn [flat_map take fst snd app]. rewrite take_app_le by lia. split; [done|].
    right. exists lsn, r, (drop k (encode_record_frame lsn r)). split_and!; [done|by rewrite take_drop|].
    intros Hnil. apply (f_equal length) in Hnil. rewrite length_drop in Hnil. cbn [length] in Hnil. lia.
Qed.

Lemma writes_crash w l k elapsed :
  writes w l →
  ∃ m st, (l.2 ≤ m ≤ length l.1)%nat ∧
    recover elapsed (Contents (w_file w ++ take k (w_buffer w))) = Ret (Ok st) ∧
    operations st ≡ₚ committed None (take m l.1) ∧
    (sequential None (take m l.1) = true → operations st = committed None (take m l.1)).
Proof.
  intros (disk & (Hh & (hb & rest & Hhb & Hlog & -> & ->) & _ & _ & _ & Hok) & Hd).
  rewrite Hlog in Hok. apply Forall_app in Hok as [Hok1 Hok2].
  destruct (frames_prefix rest k Hok2) as (n & tail & Hn & -> & Ht).
  destruct (header_bytes _ Hh) as (hb' & Hhb' & Hlen & Hbytes).
  rewrite Hhb in Hhb'. injection Hhb' as <-.
  assert (take (length disk + n) l.1 = disk ++ take n rest) as Htake.
  { rewrite Hlog, take_app, take_ge by lia. do 2 f_equal. lia. }
  assert (Forall (λ e, frame_ok e.1 e.2) (disk ++ take n rest)) as Hok.
  { apply Forall_app. split; [done|by apply Forall_take]. }
  destruct (recover_frames elapsed hb (disk ++ take n rest) tail) as (st & Hrec & Hperm & Hseq);
    [done..| |].
  { apply Forall_app. split; [done|]. apply Forall_app. split; [by apply frames_bytes|].
    destruct Ht as [-> | (lsn & r & missing & Hr & Heq & _)]; [constructor|].
    apply frame_bytes in Hr. rewrite Heq in Hr. by apply Forall_app in Hr as [? _]. }
  exists (length disk + n)%nat, st. rewrite Htake. split_and!; [lia| | |done..].
  - rewrite Hlog, length_app. lia.
  - rewrite <-Hrec. rewrite frames_app, <-!app_assoc. done.
Qed.

(** C11: synced records survive a crash.  Run any operations of the buffered
    path on a new log, then crash, with any part of the buffer written out:
    recovery succeeds and gives back the committed operations of a prefix of the
    log that holds at least every record appended before the last [sync] or
    [checkpoint]. *)
Theorem synced_survives_crash ops k elapsed :
  Forall op_ok ops → is_u64 (2 + zlen ops) →
  let '(log, synced) := foldl log_step ([], 0%nat) ops in
  ∃ w0 w m st, WalWriter_create Missing = Ret (Ok w0) ∧ foldM writer_step w0 ops = Ret w ∧
    (synced ≤ m ≤ length log)%nat ∧
    recover elapsed (Contents (w_file w ++ take k (w_buffer w))) = Ret (Ok st) ∧
    operations st ≡ₚ committed None (take m log) ∧
    (sequential None (take m log) = true → operations st = committed None (take m log)).
Proof.
  intros Hops Hmax. destruct (foldl log_step ([], 0%nat) ops) as [log synced] eqn:Hl.
  unfold WalWriter_create. destruct (header_bytes WalHeader_new) as (hb & Hhb & Hlen & _).
  { split_and!; try done; [by left|apply (bool_decide_unpack _); by vm_compute]. }
  rewrite Hhb. bind_step.
  set (w0 := mkWriter hb [] (zlen hb) (Z.of_nat HEADER_SIZE) 1 0 0 ∅ Lsn_MAX WalHeader_new).
  assert (writes w0 ([], 0%nat)) as Hw0.
  { exists []. split; [|done]. split; [|split_and!; try done].
    - split_and!; try done; [by left|apply (bool_decide_unpack _); by vm_compute].
    - exists hb, []. split_and!; try done. symmetry. apply app_nil_r. }
  destruct (writer_run_ok ops w0 ([], 0%nat) Hw0 Hops) as (w & Hrun & Hw); [done|].
  rewrite Hl in Hw. destruct (writes_crash w (log, synced) k elapsed Hw) as (m & st & Hm & ? & ? & ?).
  exists w0, w, m, st. by destruct Hm.
Qed.

Lemma synced_survives_crash_witness :
  let ops := [WAppend (Insert [97] None); WCheckpoint 7 1; WAppend (Remove [97])] in
  ∃ w0 w m st, WalWriter_create Missing = Ret (Ok w0) ∧ foldM writer_step w0 ops = Ret w ∧
    (2 ≤ m ≤ 3)%nat ∧
    recover 0 (Contents (w_file w ++ take 5 (w_buffer w))) = Ret (Ok st) ∧
    let log := [(1, Insert [97] None); (2, Checkpoint 1 7); (3, Remove [97])] in
    operations st ≡ₚ committed None (take m log) ∧
    (sequential None (take m log) = true → operations st = committed None (take m log)).
Proof.
  intros ops. apply (synced_survives_crash ops 5 0); [|done].
  repeat constructor; vm_compute; congruence.
Defined.
