(* ===== verification/Watermark.v ===== *)
(** * The committed watermark

    [CommittedWatermark] of src/src/persistent_artrie/core/committed_watermark.rs,
    and the loop that closes a contiguous prefix, which the log writer's durable
    frontier shares.  [mark_committed] runs under a lock and publishes the
    frontier with one store, so concurrent committers are a sequence of calls in
    some order. *)

From stdpp Require Import prelude gmap sets.
From S2P Require Import Prelude.
Local Open Scope Z_scope.
Local Open Scope list_scope.

(** [while pending.remove(&(cur + 1)) { cur += 1; }].  Every turn removes an
    element, so the size of the set is enough fuel. *)
Fixpoint close_prefix (fuel : nat) (cur : Z) (pending : gset Z) : Z * gset Z :=
  match fuel with
  | O => (cur, pending)
  | S fuel =>
      let next := u64 (cur + 1) in
      if decide (next ∈ pending) then close_prefix fuel next (pending ∖ {[next]})
      else (cur, pending)
  end.

Record CommittedWatermark := mkWatermark {
  contiguous : Z;
  wm_pending : gset Z;
  image_coverage_lsn : Z;
}.

Definition CommittedWatermark_new (base : Z) : CommittedWatermark := mkWatermark base ∅ 0.

(** [fetch_max] *)
Definition set_recovery_image_coverage (w : CommittedWatermark) (lsn : Z) : CommittedWatermark :=
  mkWatermark (contiguous w) (wm_pending w) (Z.max (image_coverage_lsn w) lsn).

(** [swap(0)] *)
Definition take_recovery_image_coverage (w : CommittedWatermark) : Z * CommittedWatermark :=
  (image_coverage_lsn w, mkWatermark (contiguous w) (wm_pending w) 0).

Definition watermark (w : CommittedWatermark) : Z := contiguous w.

Definition mark_committed (w : CommittedWatermark) (lsn : Z) : CommittedWatermark :=
  let cur := contiguous w in
  if lsn <=? cur then w
  else
    let pending := {[lsn]} ∪ wm_pending w in
    let '(cur, pending) := close_prefix (size pending) cur pending in
    mkWatermark cur pending (image_coverage_lsn w).

(** ** Closing a prefix *)

(** A sequence number that can wait above the frontier [cur]. *)
Definition waits (cur x : Z) : Prop := cur < x ∧ is_u64 x.

Lemma close_prefix_spec fuel cur pending :
  (size pending ≤ fuel)%nat → is_u64 cur → (∀ x, x ∈ pending → waits cur x) →
  ∃ cur' pending', close_prefix fuel cur pending = (cur', pending') ∧
    cur ≤ cur' ∧ is_u64 cur' ∧
    (∀ x, cur < x ≤ cur' → x ∈ pending) ∧ cur' + 1 ∉ pending ∧
    (∀ x, x ∈ pending' ↔ x ∈ pending ∧ cur' < x).
Proof.
  revert cur pending. induction fuel as [|fuel IH]; intros cur pending Hsize Hcur Hp.
  - assert (pending ≡ ∅) as Hempty by (apply size_empty_iff; lia).
    exists cur, pending. split_and!; [done|lia|done|lia|set_solver|].
    intros x. split; [set_solver|]. set_solver.
  - cbn [close_prefix]. destruct (decide (u64 (cur + 1) ∈ pending)) as [Hin|Hout].
    + assert (u64 (cur + 1) = cur + 1) as Heq.
      { destruct (Hp _ Hin) as [Hlt _]. unfold u64, is_u64 in *.
        destruct (decide (cur + 1 = 2 ^ 64)) as [E|]; [|apply Z.mod_small; lia].
        rewrite E, Z.mod_same in Hlt by done. lia. }
      rewrite Heq in *. destruct (Hp _ Hin) as [_ Hnext].
      destruct (IH (cur + 1) (pending ∖ {[cur + 1]})) as (cur' & pending' & -> & Hle & Hu & Hall & Hno & Hmem).
      * rewrite size_difference, size_singleton by set_solver. lia.
      * done.
      * intros x Hx. destruct (Hp x) as [? ?]; [set_solver|]. split; [|done].
        assert (x ≠ cur + 1) by set_solver. lia.
      * exists cur', pending'. split_and!; [done|lia|done| | |].
        -- intros x Hx. destruct (decide (x = cur + 1)) as [->|]; [done|].
           specialize (Hall x). set_solver by lia.
        -- assert (cur' + 1 ≠ cur + 1) by lia. set_solver.
        -- intros x. rewrite Hmem. split; [set_solver|]. intros [? ?].
           assert (x ≠ cur + 1) by lia. set_solver.
    + exists cur, pending. split_and!; [done|lia|done|lia| |].
      * intros Hin. destruct (Hp _ Hin) as [_ Hu]. by rewrite u64_id in Hout.
      * intros x. split; [|naive_solver]. intros Hx. destruct (Hp x Hx). naive_solver.
Qed.

(** ** Any order of commits *)

(** The watermark after the commits [marks], starting at [base]: everything up
    to it is committed, and what is committed above it waits. *)
Definition watermark_inv (base : Z) (marks : list Z) (w : CommittedWatermark) : Prop :=
  base ≤ contiguous w ∧ is_u64 (contiguous w) ∧
  (∀ x, base < x ≤ contiguous w → x ∈ marks) ∧
  contiguous w + 1 ∉ marks ∧
  (∀ x, x ∈ wm_pending w ↔ x ∈ marks ∧ contiguous w < x).

Lemma mark_committed_inv base marks w lsn :
  watermark_inv base marks w → is_u64 lsn → Forall is_u64 marks →
  watermark_inv base (marks ++ [lsn]) (mark_committed w lsn) ∧
  contiguous w ≤ contiguous (mark_committed w lsn).
Proof.
  intros (Hbase & Hu & Hall & Hno & Hpend) Hlsn Hmarks. unfold mark_committed.
  destruct (Z.leb_spec lsn (contiguous w)) as [Hle|Hgt].
  - split; [|done]. split_and!; [done|done|set_solver| |].
    + rewrite elem_of_app, list_elem_of_singleton. intros [?|?]; [done|lia].
    + intros x. rewrite Hpend, elem_of_app, list_elem_of_singleton. naive_solver lia.
  - rewrite Forall_forall in Hmarks.
    destruct (close_prefix_spec (size ({[lsn]} ∪ wm_pending w)) (contiguous w)
      ({[lsn]} ∪ wm_pending w)) as (cur' & pending' & -> & Hle & Hu' & Hall' & Hno' & Hmem');
      [done|done| |].
    { intros x [->%elem_of_singleton|Hx]%elem_of_union; [done|].
      apply Hpend in Hx as [? ?]. split; auto. }
    split; [|done]. unfold watermark_inv. cbn [contiguous wm_pending].
    split; [lia|]. split; [done|]. split_and!.
    + intros x Hx. rewrite elem_of_app, list_elem_of_singleton.
      destruct (decide (x ≤ contiguous w)); [left; apply Hall; lia|].
      specialize (Hall' x). rewrite elem_of_union, elem_of_singleton, Hpend in Hall'.
      destruct (Hall' ltac:(lia)) as [?|[? ?]]; auto.
    + rewrite elem_of_app, list_elem_of_singleton.
      rewrite elem_of_union, elem_of_singleton, Hpend in Hno'.
      intros [Hin|Heq]; apply Hno'; [right|by left]. split; [done|lia].
    + intros x. rewrite Hmem', elem_of_union, elem_of_singleton, Hpend, elem_of_app,
        list_elem_of_singleton. naive_solver lia.
Qed.

Lemma mark_all_inv base marks rest w :
  watermark_inv base marks w → Forall is_u64 (marks ++ rest) →
  watermark_inv base (marks ++ rest) (foldl mark_committed w rest).
Proof.
  revert marks w. induction rest as [|lsn rest IH]; intros marks w Hinv Hu; simpl.
  { by rewrite app_nil_r. }
  apply Forall_app in Hu as [Hm [Hlsn Hrest]%Forall_cons].
  replace (marks ++ lsn :: rest) with ((marks ++ [lsn]) ++ rest) by (by rewrite <-app_assoc).
  apply IH; [by apply mark_committed_inv|].
  apply Forall_app. split; [|done]. apply Forall_app. split; [done|by constructor].
Qed.

Lemma watermark_inv_unique base marks marks' w w' :
  watermark_inv base marks w → watermark_inv base marks' w' → (∀ x, x ∈ marks ↔ x ∈ marks') →
  contiguous w = contiguous w'.
Proof.
  intros (? & _ & Hall & Hno & _) (? & _ & Hall' & Hno' & _) Hext.
  destruct (Z.lt_total (contiguous w) (contiguous w')) as [Hlt|[?|Hlt]]; [|done|].
  - destruct Hno. apply Hext, Hall'. lia.
  - destruct Hno'. apply Hext, Hall. lia.
Qed.

Lemma watermark_new_inv base : is_u64 base → watermark_inv base [] (CommittedWatermark_new base).
Proof. intros. split_and!; simpl; [done|done|lia|set_solver|set_solver]. Qed.

(** C31: the watermark is the largest committed prefix.  After commits in any
    order, repeated or not, every sequence number above the base and up to the
    watermark has committed, and the next one has not; and it depends only on
    which sequence numbers have committed, not on their order. *)
Theorem watermark_exact base marks :
  is_u64 base → Forall is_u64 marks →
  let final l := watermark (foldl mark_committed (CommittedWatermark_new base) l) in
  base ≤ final marks ∧ (∀ x, base < x ≤ final marks → x ∈ marks) ∧ final marks + 1 ∉ marks ∧
  (∀ marks', (∀ x, x ∈ marks ↔ x ∈ marks') → final marks' = final marks).
Proof.
  intros Hbase Hmarks final. pose proof (watermark_new_inv base Hbase) as Hnew.
  pose proof (mark_all_inv base [] marks _ Hnew Hmarks) as Hinv.
  pose proof Hinv as (? & _ & ? & ? & _). split_and!; [done..|].
  intros marks' Hext. symmetry. eapply (watermark_inv_unique base marks marks'); [done| |done].
  apply (mark_all_inv base [] marks'); [done|]. rewrite Forall_forall in *. naive_solver.
Qed.

Lemma watermark_exact_witness :
  let final l := watermark (foldl mark_committed (CommittedWatermark_new 4) l) in
  final [7; 5; 6; 9; 5] = 7 ∧ final [9; 6; 5; 7] = final [7; 5; 6; 9; 5].
Proof.
  intros final. split; [vm_compute; reflexivity|].
  apply (watermark_exact 4 [7; 5; 6; 9; 5]); [done|by repeat constructor|set_solver].
Defined.
