(* ===== verification/WalSegment.v ===== *)
(** * Concurrent appends

    The lock-free append path of [WalWriter]
    (src/src/persistent_artrie/core/wal/writer.rs, [append_record_segment] and
    the functions it calls).  Each thread is the sequence of its atomic actions
    on the shared writer; a run is any interleaving of them.  The critical
    section of [mark_segment_durable] is one action, and so is a positional
    write with its sync, which may fail after writing a part of the frame. *)

From stdpp Require Import prelude gmap sets strings pretty.
From S2P Require Import Prelude Bytes WalCodec WalHeader WalFrame Reconcile Recovery WalWriter Watermark.
Local Open Scope Z_scope.
Local Open Scope list_scope.

(** ** The shared writer *)

Definition set_file (w : WalWriter) (f : list Z) : WalWriter :=
  let 'mkWriter _ b c so nl sl dl dp fl h := w in mkWriter f b c so nl sl dl dp fl h.

(** [self.segment_next_offset.fetch_add(frame.len() as u64, ..)] *)
Definition reserve_offset (w : WalWriter) (len : Z) : Z * WalWriter :=
  let 'mkWriter f b c so nl sl dl dp fl h := w in
  (so, mkWriter f b c (u64 (so + len)) nl sl dl dp fl h).

Definition mark_segment_durable (w : WalWriter) (lsn : Z) : WalWriter :=
  let 'mkWriter f b c so nl sl dl dp fl h := w in
  let pending := {[lsn]} ∪ dp in
  let '(dl, dp) := close_prefix (size pending) dl pending in
  mkWriter f b c so nl sl dl dp fl h.

(** [fetch_min] *)
Definition mark_segment_failed (w : WalWriter) (lsn : Z) : WalWriter :=
  let 'mkWriter f b c so nl sl dl dp fl h := w in mkWriter f b c so nl sl dl dp (Z.min fl lsn) h.

Definition sync_record_segments (w : WalWriter) : Z * WalWriter :=
  (segment_durable_lsn w, set_synced_lsn w (segment_durable_lsn w)).

Definition set_min_synced_lsn (w : WalWriter) (min_lsn : Z) : WalWriter :=
  let 'mkWriter f b c so nl sl dl dp fl h := w in
  mkWriter f b c so nl (if min_lsn <=? sl then sl else min_lsn)
    (if min_lsn <=? dl then dl else min_lsn) dp fl h.

Definition frontier_gap (lsn failed : Z) : string :=
  "cannot publish contiguous WAL segment frontier through LSN " +:+ pretty lsn +:+
  "; earlier reserved LSN " +:+ pretty failed +:+ " failed to publish".

(** ** One append

    The phases are the points between the atomic actions. *)

Inductive phase : Type :=
| Start
| Reserved (lsn : Z)
| Placed (lsn offset : Z)
| Written (lsn offset : Z)
| Broken (lsn offset e : Z)
| Waiting (lsn offset : Z)
| Checking (lsn offset : Z)
| Finished (lsn offset : Z) (r : result Z WalError)
| Refused (lsn offset e : Z).

Record appender := mkAppender { a_record : WalRecord; a_phase : phase }.

(** The write and sync of [write_record_segment_at_lsn].  [io] is what the
    operating system answers: success, or an error after [n] bytes. *)
Definition positional_write (io : option (Z * nat)) (w : WalWriter) (offset : Z) (frame : list Z) :
    WalWriter * option Z :=
  match io with
  | None => (set_file w (pwrite (w_file w) offset frame), None)
  | Some (e, n) => (set_file w (pwrite (w_file w) offset (take n frame)), Some e)
  end.

(** The two loads of a round of [wait_for_segment_durable_lsn] *)
Definition wait_durable (w : WalWriter) (lsn offset : Z) : phase :=
  if lsn <=? segment_durable_lsn w then Finished lsn offset (Ok lsn) else Checking lsn offset.

Definition wait_failed (w : WalWriter) (lsn offset : Z) : phase :=
  let failed := segment_failed_lsn w in
  if failed <=? lsn then Finished lsn offset (Err (CorruptedRecord (frontier_gap lsn failed)))
  else Waiting lsn offset.

Definition append_step (io : option (Z * nat)) (w : WalWriter) (a : appender) :
    WalWriter * appender :=
  let 'mkAppender record ph := a in
  match ph with
  | Start => let '(lsn, w) := allocate_lsn w in (w, mkAppender record (Reserved lsn))
  | Reserved lsn =>
      let frame := encode_record_frame lsn record in
      let '(offset, w) := reserve_offset w (zlen frame) in
      (w, mkAppender record (Placed lsn offset))
  | Placed lsn offset =>
      match positional_write io w offset (encode_record_frame lsn record) with
      | (w, None) => (w, mkAppender record (Written lsn offset))
      | (w, Some e) => (w, mkAppender record (Broken lsn offset e))
      end
  | Written lsn offset => (mark_segment_durable w lsn, mkAppender record (Waiting lsn offset))
  | Broken lsn offset e => (mark_segment_failed w lsn, mkAppender record (Refused lsn offset e))
  | Waiting lsn offset => (w, mkAppender record (wait_durable w lsn offset))
  | Checking lsn offset => (w, mkAppender record (wait_failed w lsn offset))
  | Finished _ _ _ | Refused _ _ _ => (w, a)
  end.

(** ** Interleavings *)

Definition seg_state : Type := WalWriter * list appender.

Inductive seg_step : seg_state → seg_state → Prop :=
| seg_thread i io w ts a w' a' :
    ts !! i = Some a → append_step io w a = (w', a') →
    seg_step (w, ts) (w', <[i := a']> ts).

(** The same as a function: which thread moves, and what the system answers. *)
Fixpoint run_appends (s : seg_state) (schedule : list (nat * option (Z * nat))) : seg_state :=
  match schedule with
  | [] => s
  | (i, io) :: schedule =>
      match s.2 !! i with
      | Some a => let '(w, a) := append_step io s.1 a in run_appends (w, <[i := a]> s.2) schedule
      | None => run_appends s schedule
      end
  end.

Lemma run_appends_rtc s schedule : rtc seg_step s (run_appends s schedule).
Proof.
  revert s. induction schedule as [|[i io] schedule IH]; intros [w ts]; simpl; [done|].
  destruct (ts !! i) as [a|] eqn:Ha; [|apply IH].
  destruct (append_step io w a) as [w' a'] eqn:Hstep.
  eapply rtc_l; [by econstructor|apply IH].
Qed.

Definition threads (records : list WalRecord) : list appender :=
  map (λ r, mkAppender r Start) records.

(** ** What a phase knows *)

Definition phase_lsn (a : appender) : option Z :=
  match a_phase a with
  | Start => None
  | Reserved l | Placed l _ | Written l _ | Broken l _ _ | Waiting l _ | Checking l _
  | Finished l _ _ | Refused l _ _ => Some l
  end.

Definition phase_offset (a : appender) : option Z :=
  match a_phase a with
  | Start | Reserved _ => None
  | Placed _ o | Written _ o | Broken _ o _ | Waiting _ o | Checking _ o
  | Finished _ o _ | Refused _ o _ => Some o
  end.

(** The record is in the file. *)
Definition landed (a : appender) : bool :=
  match a_phase a with
  | Written _ _ | Waiting _ _ | Checking _ _ | Finished _ _ _ => true
  | _ => false
  end.

(** The record counts for the frontier. *)
Definition published (a : appender) : option Z :=
  match a_phase a with
  | Waiting l _ | Checking l _ | Finished l _ _ => Some l
  | _ => None
  end.

Definition frame_size (a : appender) : Z := RECORD_HEADER_SIZE + payload_len (a_record a).

(** ** Sequence numbers

    The numbers of the threads that have one are those between [base] and the
    next free number, each held by one thread; [bound] is the number the last
    thread will leave free. *)

Definition unnumbered (lsns : list (option Z)) : Z := zlen (filter (λ o, o = None) lsns).

Definition lsn_inv (base bound next : Z) (lsns : list (option Z)) : Prop :=
  (∀ i l, lsns !! i = Some (Some l) → base < l < next) ∧
  (∀ i j l, lsns !! i = Some (Some l) → lsns !! j = Some (Some l) → i = j) ∧
  (∀ l, base < l < next → ∃ i, lsns !! i = Some (Some l)) ∧
  next + unnumbered lsns = bound.

Lemma unnumbered_insert lsns i x :
  lsns !! i = Some None → unnumbered (<[i := Some x]> lsns) = unnumbered lsns - 1.
Proof.
  intros Hi. pose proof (lookup_lt_Some _ _ _ Hi) as Hlt. unfold unnumbered.
  rewrite insert_take_drop by done. rewrite <-(take_drop_middle lsns i None Hi) at 3.
  rewrite !filter_app, !filter_cons. rewrite decide_False by done. rewrite decide_True by done.
  autorewrite with zlen. lia.
Qed.

Lemma lsn_inv_reserve base bound next lsns i :
  lsn_inv base bound next lsns → base < next → lsns !! i = Some None →
  lsn_inv base bound (next + 1) (<[i := Some next]> lsns).
Proof.
  intros (Hrange & Hinj & Hsurj & Hcount) Hbase Hi. pose proof (lookup_lt_Some _ _ _ Hi) as Hlt.
  split_and!.
  - intros j l [(-> & Hl & _)|(Hne & Hj)]%list_lookup_insert_Some; [simplify_eq; lia|].
    apply Hrange in Hj. lia.
  - intros j j' l [(-> & Hl & _)|(Hne & Hj)]%list_lookup_insert_Some
      [(-> & Hl' & _)|(Hne' & Hj')]%list_lookup_insert_Some; simplify_eq; try done.
    + apply Hrange in Hj'. lia.
    + apply Hrange in Hj. lia.
    + by eapply Hinj.
  - intros l Hl. destruct (decide (l = next)) as [->|].
    + exists i. by rewrite list_lookup_insert_eq.
    + destruct (Hsurj l) as [j Hj]; [lia|]. exists j.
      rewrite list_lookup_insert_ne; [done|]. congruence.
  - rewrite unnumbered_insert by done. lia.
Qed.

Lemma fmap_insert_same {A B} (f : A → B) (l : list A) (i : nat) a a' :
  l !! i = Some a → f a' = f a → f <$> <[i := a']> l = f <$> l.
Proof. intros Hi Hf. rewrite list_fmap_insert, Hf. apply list_insert_id. by rewrite list_lookup_fmap, Hi. Qed.

(** ** The durable frontier *)

Definition frontier (w : WalWriter) : CommittedWatermark :=
  mkWatermark (segment_durable_lsn w) (segment_durable_pending w) 0.

Lemma frontier_mark w lsn :
  segment_durable_lsn w < lsn → frontier (mark_segment_durable w lsn) = mark_committed (frontier w) lsn.
Proof.
  destruct w as [f b c so nl sl dl dp fl h]. intros Hlt. unfold frontier, mark_committed. cbn in *.
  rewrite (proj2 (Z.leb_gt _ _) Hlt). by destruct (close_prefix _ _ _).
Qed.

Lemma mark_durable_fields w lsn :
  let w' := mark_segment_durable w lsn in
  w_file w' = w_file w ∧ segment_next_offset w' = segment_next_offset w ∧
  w_next_lsn w' = w_next_lsn w ∧ segment_failed_lsn w' = segment_failed_lsn w.
Proof. destruct w. unfold mark_segment_durable. by destruct (close_prefix _ _ _). Qed.

Lemma watermark_inv_ext base marks marks' w :
  (∀ x, x ∈ marks ↔ x ∈ marks') → watermark_inv base marks w → watermark_inv base marks' w.
Proof.
  intros Hext (? & ? & Hall & Hno & Hp). split; [done|]. split; [done|]. split_and!.
  - intros x Hx. by apply Hext, Hall.
  - by rewrite <-Hext.
  - intros x. by rewrite <-Hext.
Qed.

Lemma elem_of_omap_insert {A} (f : A → option Z) (l : list A) (i : nat) a a' x :
  l !! i = Some a → f a = None →
  x ∈ omap f (<[i := a']> l) ↔ x ∈ omap f l ∨ f a' = Some x.
Proof.
  intros Hi Hf. rewrite !list_elem_of_omap. split.
  - intros (b & Hb & Hx). apply list_elem_of_lookup in Hb as [j Hj].
    apply list_lookup_insert_Some in Hj as [(-> & -> & _)|(? & Hj)]; [by right|].
    left. exists b. split; [by eapply list_elem_of_lookup_2|done].
  - intros [(b & Hb & Hx)|Hx].
    + apply list_elem_of_lookup in Hb as [j Hj]. exists b. split; [|done].
      apply list_elem_of_lookup. exists j. rewrite list_lookup_insert_ne; [done|].
      intros ->. congruence.
    + exists a'. split; [|done]. apply list_elem_of_lookup. exists i.
      apply list_lookup_insert_eq. by eapply lookup_lt_Some.
Qed.

Lemma omap_insert_same {A} (f : A → option Z) (l : list A) (i : nat) a a' x :
  l !! i = Some a → f a' = f a → x ∈ omap f (<[i := a']> l) ↔ x ∈ omap f l.
Proof.
  intros Hi Hf. rewrite !list_elem_of_omap. split; intros (b & Hb & Hx);
    apply list_elem_of_lookup in Hb as [j Hj].
  - apply list_lookup_insert_Some in Hj as [(-> & -> & _)|(? & Hj)].
    + exists a. split; [by eapply list_elem_of_lookup_2|congruence].
    + exists b. split; [by eapply list_elem_of_lookup_2|done].
  - destruct (decide (j = i)) as [->|].
    + exists a'. split; [|congruence]. apply list_elem_of_lookup. exists i.
      apply list_lookup_insert_eq. by eapply lookup_lt_Some.
    + exists b. split; [|done]. apply list_elem_of_lookup. exists j. by rewrite list_lookup_insert_ne.
Qed.

(** ** The places in the file *)

Lemma zlen_frame lsn r : zlen (encode_record_frame lsn r) = RECORD_HEADER_SIZE + payload_len r.
Proof.
  unfold encode_record_frame. cbn [replicate drop app].
  rewrite drop_0, <-serialize_length.
  unfold RECORD_HEADER_SIZE. autorewrite with zlen. lia.
Qed.

Lemma holds_pwrite f off bs : 0 ≤ off → holds (pwrite f off bs) off bs.
Proof.
  intros Hoff. unfold pwrite. eexists _, _. split; [reflexivity|].
  unfold zlen. rewrite length_take, length_app, length_replicate. lia.
Qed.

Lemma holds_pwrite_other f off bs o x :
  0 ≤ off → holds f o x → o + zlen x ≤ off ∨ off + zlen bs ≤ o → holds (pwrite f off bs) o x.
Proof.
  intros Hoff (pre & post & -> & ->) [Hle|Hle]; unfold pwrite.
  - rewrite <-zlen_app in Hle. rewrite <-!app_assoc. rewrite (app_assoc pre x).
    rewrite take_app, (take_ge (pre ++ x)) by (unfold zlen in Hle; lia).
    rewrite <-!app_assoc. by eexists pre, _.
  - assert (Z.to_nat off + length bs ≤ length pre)%nat by (unfold zlen in Hle; lia).
    rewrite drop_app_le by done. cbv zeta. set (head := take _ _).
    assert (length head = Z.to_nat off) as Hhead.
    { unfold head. rewrite length_take, !length_app. lia. }
    exists (head ++ bs ++ drop (Z.to_nat off + length bs) pre), post.
    split; [by rewrite <-!app_assoc|]. unfold zlen. rewrite !length_app, length_drop. lia.
Qed.

Definition unplaced (ts : list appender) : Z :=
  sumZ (map (λ a, match phase_offset a with None => frame_size a | Some _ => 0 end) ts).

(** The threads' places are disjoint and below the next free offset, and what
    has landed is in the file. *)
Record file_inv (limit : Z) (w : WalWriter) (ts : list appender) : Prop := mkFileInv {
  fi_limit : 0 ≤ segment_next_offset w ∧ segment_next_offset w + unplaced ts = limit;
  fi_range : ∀ i a o, ts !! i = Some a → phase_offset a = Some o →
    0 ≤ o ∧ o + frame_size a ≤ segment_next_offset w;
  fi_disjoint : ∀ i j a b o o', i ≠ j → ts !! i = Some a → ts !! j = Some b →
    phase_offset a = Some o → phase_offset b = Some o' →
    o + frame_size a ≤ o' ∨ o' + frame_size b ≤ o;
  fi_landed : ∀ i a l o, ts !! i = Some a → landed a = true → phase_lsn a = Some l →
    phase_offset a = Some o → holds (w_file w) o (encode_record_frame l (a_record a));
}.

Lemma frame_size_pos a : 0 < frame_size a.
Proof.
  unfold frame_size, RECORD_HEADER_SIZE. rewrite <-serialize_length. zlen_pos. lia.
Qed.

Lemma sumZ_insert {A} (f : A → Z) (l : list A) (i : nat) a a' :
  l !! i = Some a → sumZ (map f (<[i := a']> l)) = sumZ (map f l) - f a + f a'.
Proof.
  revert i. induction l as [|x l IH]; intros [|i] Hi; simplify_eq/=; [lia|].
  rewrite (IH i Hi). lia.
Qed.

Lemma unplaced_nonneg ts : 0 ≤ unplaced ts.
Proof.
  unfold unplaced. induction ts as [|a ts IH]; simpl; [done|].
  pose proof (frame_size_pos a). destruct (phase_offset a); lia.
Qed.

(** A step that only moves a thread on, without touching the file. *)
Lemma file_inv_move limit w w' ts i a a' :
  file_inv limit w ts → ts !! i = Some a →
  w_file w' = w_file w → segment_next_offset w' = segment_next_offset w →
  a_record a' = a_record a → phase_offset a' = phase_offset a →
  (landed a' = true → landed a = true ∧ phase_lsn a' = phase_lsn a) →
  file_inv limit w' (<[i := a']> ts).
Proof.
  intros [[Hpos Hlim] Hrange Hdisj Hland] Hi Hf Hso Hrec Hoff Hl.
  assert (frame_size a' = frame_size a) as Hsize by (unfold frame_size; by rewrite Hrec).
  assert (∀ j b, <[i := a']> ts !! j = Some b →
    ∃ b0, ts !! j = Some b0 ∧ phase_offset b = phase_offset b0 ∧ frame_size b = frame_size b0) as Hold.
  { intros j b [(-> & -> & _)|(_ & Hj)]%list_lookup_insert_Some; eauto. }
  split.
  - rewrite Hso. split; [done|]. unfold unplaced in *.
    rewrite (sumZ_insert _ _ _ a) by done. rewrite Hoff, Hsize. lia.
  - intros j b o (b0 & Hj & -> & ->)%Hold Ho. rewrite Hso. eauto.
  - intros j k b c o o' Hne (b0 & Hj & -> & ->)%Hold (c0 & Hk & -> & ->)%Hold. by eapply Hdisj.
  - intros j b l o [(-> & -> & _)|(_ & Hj)]%list_lookup_insert_Some Hb Hlsn Ho; rewrite Hf.
    + destruct (Hl Hb) as [? Hlsn']. rewrite Hrec. rewrite Hlsn' in Hlsn. rewrite Hoff in Ho. eauto.
    + eauto.
Qed.

Lemma file_inv_place limit w ts i record lsn :
  file_inv limit w ts → limit < 2 ^ 64 → ts !! i = Some (mkAppender record (Reserved lsn)) →
  let '(offset, w') := reserve_offset w (zlen (encode_record_frame lsn record)) in
  file_inv limit w' (<[i := mkAppender record (Placed lsn offset)]> ts).
Proof.
  intros [[Hpos Hlim] Hrange Hdisj Hland] Hmax Hi.
  destruct w as [f b c so nl sl dl dp fl h]. cbn [reserve_offset segment_next_offset w_file] in *.
  set (a := mkAppender record (Reserved lsn)) in *. set (a' := mkAppender record (Placed lsn so)).
  assert (frame_size a' = zlen (encode_record_frame lsn record)) as Hsize by (by rewrite zlen_frame).
  pose proof (frame_size_pos a') as Hpos'. rewrite <-Hsize.
  assert (unplaced (<[i := a']> ts) = unplaced ts - frame_size a') as Hun.
  { unfold unplaced. rewrite (sumZ_insert _ _ _ a) by done. cbn. change (frame_size a) with (frame_size a'). lia. }
  pose proof (unplaced_nonneg (<[i := a']> ts)).
  rewrite u64_id by (unfold is_u64; lia).
  assert (∀ j x o, <[i := a']> ts !! j = Some x → phase_offset x = Some o →
    j = i ∧ x = a' ∧ o = so ∨ j ≠ i ∧ ts !! j = Some x ∧ 0 ≤ o ∧ o + frame_size x ≤ so) as Hold.
  { intros j x o [(-> & <- & _)|(Hne & Hj)]%list_lookup_insert_Some Ho; [left|right].
    - by injection Ho as <-.
    - by destruct (Hrange j x o Hj Ho). }
  split; cbn [segment_next_offset w_file].
  - lia.
  - intros j x o Hj Ho. destruct (Hold j x o Hj Ho) as [(-> & -> & ->)|(_ & _ & ? & ?)]; lia.
  - intros j k x y o o' Hne Hj Hk Ho Ho'.
    destruct (Hold j x o Hj Ho) as [(-> & -> & ->)|(? & Hj' & ? & ?)],
      (Hold k y o' Hk Ho') as [(-> & -> & ->)|(? & Hk' & ? & ?)]; [done|lia|lia|].
    by eapply (Hdisj j k).
  - intros j x l o [(-> & <- & _)|(Hne & Hj)]%list_lookup_insert_Some; [done|]. by apply (Hland j).
Qed.

Lemma file_inv_write limit w ts i record lsn offset bs a' :
  file_inv limit w ts → ts !! i = Some (mkAppender record (Placed lsn offset)) →
  a_record a' = record → phase_offset a' = Some offset → phase_lsn a' = Some lsn →
  zlen bs ≤ zlen (encode_record_frame lsn record) →
  (landed a' = true → bs = encode_record_frame lsn record) →
  file_inv limit (set_file w (pwrite (w_file w) offset bs)) (<[i := a']> ts).
Proof.
  intros [[Hpos Hlim] Hrange Hdisj Hland] Hi Hrec Hoff Hlsn Hbs Hl.
  destruct w as [f b c so nl sl dl dp fl h]. cbn [set_file segment_next_offset w_file] in *.
  set (a := mkAppender record (Placed lsn offset)) in *.
  assert (frame_size a' = frame_size a) as Hsize by (unfold frame_size; by rewrite Hrec).
  assert (frame_size a = zlen (encode_record_frame lsn record)) as Hfs by (by rewrite zlen_frame).
  destruct (Hrange i a offset Hi eq_refl) as [Ho0 _].
  assert (∀ j x, <[i := a']> ts !! j = Some x →
    ∃ x0, ts !! j = Some x0 ∧ phase_offset x = phase_offset x0 ∧ frame_size x = frame_size x0) as Hold.
  { intros j x [(-> & -> & _)|(_ & Hj)]%list_lookup_insert_Some; [|eauto].
    exists a. split_and!; done. }
  split; cbn [segment_next_offset w_file].
  - split; [done|]. unfold unplaced in *. rewrite (sumZ_insert _ _ _ a) by done. rewrite Hoff. cbn. lia.
  - intros j x o (x0 & Hj & -> & ->)%Hold. by apply (Hrange j).
  - intros j k x y o o' Hne (x0 & Hj & -> & ->)%Hold (y0 & Hk & -> & ->)%Hold. by apply (Hdisj j k).
  - intros j x l o [(-> & -> & _)|(Hne & Hj)]%list_lookup_insert_Some Hx Hxl Hxo.
    + rewrite (Hl Hx) in *. simplify_eq. by apply holds_pwrite.
    + apply holds_pwrite_other; [done|by eapply Hland|]. rewrite zlen_frame.
      change (RECORD_HEADER_SIZE + payload_len (a_record x)) with (frame_size x).
      destruct (Hdisj i j a x offset o) as [?|?]; [done..| |]; lia.
Qed.

(** ** The invariant of a run *)

Record seg_inv (base bound limit : Z) (w : WalWriter) (ts : list appender) : Prop := mkSegInv {
  si_base : is_u64 base ∧ base < w_next_lsn w;
  si_lsn : lsn_inv base bound (w_next_lsn w) (phase_lsn <$> ts);
  si_frontier : watermark_inv base (omap published ts) (frontier w);
  si_failed : ∀ i a l o e, ts !! i = Some a → a_phase a = Refused l o e → segment_failed_lsn w ≤ l;
  si_finished : ∀ i a l o l', ts !! i = Some a → a_phase a = Finished l o (Ok l') →
    l' = l ∧ l ≤ segment_durable_lsn w;
  si_file : file_inv limit w ts;
}.

(** What each step leaves alone. *)
Lemma append_step_fields io w a w' a' :
  append_step io w a = (w', a') →
  a_record a' = a_record a ∧ segment_durable_lsn w' =
    match a_phase a with
    | Written lsn _ => segment_durable_lsn (mark_segment_durable w lsn)
    | _ => segment_durable_lsn w
    end.
Proof.
  destruct w, a as [record []]; cbn; intros Hs; try (injection Hs as <- <-; done).
  destruct io as [[]|]; injection Hs as <- <-; done.
Qed.

(** A step that neither numbers nor publishes anything. *)
Lemma seg_inv_quiet base bound limit w w' ts i a a' :
  seg_inv base bound limit w ts → ts !! i = Some a →
  w_next_lsn w' = w_next_lsn w → frontier w' = frontier w →
  segment_failed_lsn w' ≤ segment_failed_lsn w →
  phase_lsn a' = phase_lsn a → published a' = published a →
  (∀ l o e, a_phase a' = Refused l o e → segment_failed_lsn w' ≤ l) →
  (∀ l o l', a_phase a' = Finished l o (Ok l') → l' = l ∧ l ≤ segment_durable_lsn w) →
  file_inv limit w' (<[i := a']> ts) →
  seg_inv base bound limit w' (<[i := a']> ts).
Proof.
  intros [Hbase Hlsn Hfr Hfail Hfin _] Hi Hnext Hfront Hle Hl Hp Href Hfin' Hfile.
  pose proof (f_equal contiguous Hfront) as Hd. cbn [frontier contiguous] in Hd.
  split; [by rewrite Hnext| | | | |done].
  - by rewrite Hnext, (fmap_insert_same _ _ _ a).
  - rewrite Hfront. eapply watermark_inv_ext; [|done]. intros x. symmetry.
    by eapply omap_insert_same.
  - intros j b l o e [(-> & -> & _)|(_ & Hj)]%list_lookup_insert_Some Hb; [by eapply Href|].
    specialize (Hfail j b l o e Hj Hb). lia.
  - intros j b l o l' [(-> & -> & _)|(_ & Hj)]%list_lookup_insert_Some Hb; rewrite Hd; eauto.
Qed.

Lemma seg_inv_start base bound limit w ts i record :
  seg_inv base bound limit w ts → bound < 2 ^ 64 → ts !! i = Some (mkAppender record Start) →
  seg_inv base bound limit (set_next_lsn w (u64 (w_next_lsn w + 1)))
    (<[i := mkAppender record (Reserved (w_next_lsn w))]> ts).
Proof.
  intros [[Hu Hbase] Hlsn Hfr Hfail Hfin Hfile] Hmax Hi.
  set (a' := mkAppender record (Reserved (w_next_lsn w))).
  assert (phase_lsn <$> <[i := a']> ts = <[i := Some (w_next_lsn w)]> (phase_lsn <$> ts)) as Hins
    by (by rewrite list_fmap_insert).
  assert ((phase_lsn <$> ts) !! i = Some None) as Hnone by (by rewrite list_lookup_fmap, Hi).
  assert (w_next_lsn w + 1 ≤ bound) as Hroom.
  { pose proof (unnumbered_insert _ i 0 Hnone) as Hun. unfold unnumbered at 1 in Hun.
    destruct Hlsn as (_ & _ & _ & <-). zlen_pos. lia. }
  rewrite u64_id by (unfold is_u64 in *; lia).
  pose proof (lsn_inv_reserve _ _ _ _ i Hlsn Hbase Hnone) as Hlsn'. rewrite <-Hins in Hlsn'.
  destruct w as [f b c so nl sl dl dp fl h]. cbn [w_next_lsn set_next_lsn] in *.
  split; cbn [w_next_lsn segment_failed_lsn segment_durable_lsn].
  - split; [done|lia].
  - done.
  - eapply watermark_inv_ext; [|exact Hfr]. intros x. symmetry. by eapply omap_insert_same.
  - intros j x l o e [(-> & <- & _)|(_ & Hj)]%list_lookup_insert_Some Hx; [done|by eapply Hfail].
  - intros j x l o l' [(-> & <- & _)|(_ & Hj)]%list_lookup_insert_Some Hx; [done|by eapply Hfin].
  - by eapply (file_inv_move limit (mkWriter f b c so nl sl dl dp fl h)).
Qed.

Lemma published_lsn a l : published a = Some l → phase_lsn a = Some l.
Proof. unfold published, phase_lsn. by destruct (a_phase a). Qed.

(** Only the thread that holds a number publishes it. *)
Lemma published_owner base bound next ts i a l :
  lsn_inv base bound next (phase_lsn <$> ts) → ts !! i = Some a → phase_lsn a = Some l →
  published a = None → l ∉ omap published ts.
Proof.
  intros (_ & Hinj & _) Hi Hl Hp (b & Hb & Hpb)%list_elem_of_omap.
  apply list_elem_of_lookup in Hb as [j Hj].
  assert (i = j) as <-; [|congruence].
  apply (Hinj i j l); rewrite list_lookup_fmap; [by rewrite Hi; simpl; rewrite Hl|].
  rewrite Hj. simpl. by rewrite (published_lsn b l).
Qed.

Lemma published_u64 base bound next ts :
  lsn_inv base bound next (phase_lsn <$> ts) → 0 ≤ base → next ≤ 2 ^ 64 →
  Forall is_u64 (omap published ts).
Proof.
  intros (Hrange & _) Hbase Hnext. apply Forall_forall. intros l (b & Hb & Hl)%list_elem_of_omap.
  apply list_elem_of_lookup in Hb as [j Hj]. apply published_lsn in Hl.
  assert (base < l < next); [|unfold is_u64; lia].
  apply (Hrange j). by rewrite list_lookup_fmap, Hj; simpl; rewrite Hl.
Qed.

Lemma seg_inv_publish base bound limit w ts i record lsn offset :
  seg_inv base bound limit w ts → bound < 2 ^ 64 →
  ts !! i = Some (mkAppender record (Written lsn offset)) →
  seg_inv base bound limit (mark_segment_durable w lsn)
    (<[i := mkAppender record (Waiting lsn offset)]> ts).
Proof.
  intros [[Hu Hbase] Hlsn Hfr Hfail Hfin Hfile] Hmax Hi.
  set (a := mkAppender record (Written lsn offset)) in *.
  set (a' := mkAppender record (Waiting lsn offset)).
  destruct (mark_durable_fields w lsn) as (Hf & Hso & Hnl & Hfl).
  assert (base < lsn < w_next_lsn w) as Hrange.
  { destruct Hlsn as (Hrange & _). apply (Hrange i). by rewrite list_lookup_fmap, Hi. }
  assert (w_next_lsn w ≤ bound) as Hb.
  { destruct Hlsn as (_ & _ & _ & <-). unfold unnumbered. zlen_pos. lia. }
  assert (segment_durable_lsn w < lsn) as Hnew.
  { destruct (Z.lt_ge_cases (segment_durable_lsn w) lsn) as [|Hle]; [done|].
    destruct (published_owner _ _ _ _ _ _ lsn Hlsn Hi eq_refl eq_refl).
    destruct Hfr as (_ & _ & Hall & _). apply Hall. cbn. lia. }
  destruct (mark_committed_inv base (omap published ts) (frontier w) lsn) as [Hinv Hmono];
    [done|unfold is_u64 in *; lia|eapply published_u64; [done|apply Hu|lia]|].
  rewrite <-frontier_mark in Hinv, Hmono by done. cbn [frontier contiguous] in Hmono.
  split.
  - by rewrite Hnl.
  - by rewrite Hnl, (fmap_insert_same _ _ _ a).
  - eapply watermark_inv_ext; [|exact Hinv]. intros x.
    rewrite (elem_of_omap_insert published ts i a a') by done.
    rewrite elem_of_app, list_elem_of_singleton. unfold published at 3. simpl. naive_solver.
  - intros j x l o e [(-> & <- & _)|(_ & Hj)]%list_lookup_insert_Some Hx; [done|].
    rewrite Hfl. by eapply Hfail.
  - intros j x l o l' [(-> & <- & _)|(_ & Hj)]%list_lookup_insert_Some Hx; [done|].
    destruct (Hfin j x l o l' Hj Hx). split; [done|lia].
  - by eapply (file_inv_move limit w).
Qed.

Lemma seg_inv_step base bound limit w ts w' ts' :
  bound < 2 ^ 64 → limit < 2 ^ 64 →
  seg_inv base bound limit w ts → seg_step (w, ts) (w', ts') → seg_inv base bound limit w' ts'.
Proof.
  intros Hbound Hlimit Hinv Hstep.
  inversion Hstep as [i io w0 ts0 a w1 a' Hi Hs]; simplify_eq.
  pose proof (si_file _ _ _ _ _ Hinv) as Hfile.
  destruct a as [record [|lsn|lsn o|lsn o|lsn o e|lsn o|lsn o|lsn o r|lsn o e]]; cbn [append_step] in Hs.
  - unfold allocate_lsn in Hs. simplify_eq. by apply seg_inv_start.
  - pose proof (file_inv_place limit w ts i record lsn Hfile Hlimit Hi) as Hplace.
    destruct (reserve_offset w _) as [o w1] eqn:Ho. simplify_eq.
    destruct w. unfold reserve_offset in Ho. simplify_eq. by eapply seg_inv_quiet.
  - destruct io as [[e n]|]; injection Hs as <- <-; eapply (seg_inv_quiet _ _ _ w); try done;
      try (by destruct w); eapply file_inv_write; try done.
    unfold zlen. rewrite length_take. lia.
  - simplify_eq. by apply seg_inv_publish.
  - injection Hs as <- <-. eapply (seg_inv_quiet _ _ _ w); try done; try (by destruct w).
    + destruct w. cbn. lia.
    + intros l o' e' [= <- <- <-]. destruct w. cbn. lia.
    + eapply (file_inv_move limit w); try done; by destruct w.
  - unfold wait_durable in Hs. simplify_eq. destruct (Z.leb_spec lsn (segment_durable_lsn w'));
      (eapply seg_inv_quiet; try done; [..|by eapply (file_inv_move limit w')]).
    intros l o' l' [= <- <- <-]. done.
  - unfold wait_failed in Hs. simplify_eq. destruct (segment_failed_lsn w' <=? lsn);
      (eapply seg_inv_quiet; try done; by eapply (file_inv_move limit w')).
  - simplify_eq. by rewrite list_insert_id.
  - simplify_eq. by rewrite list_insert_id.
Qed.

Lemma seg_inv_rtc base bound limit s s' :
  bound < 2 ^ 64 → limit < 2 ^ 64 → rtc seg_step s s' →
  seg_inv base bound limit s.1 s.2 → seg_inv base bound limit s'.1 s'.2.
Proof.
  intros Hb Hl Hrtc. induction Hrtc as [|[w ts] [w1 ts1] s3 Hstep _ IH]; [done|].
  intros Hinv. apply IH. by eapply seg_inv_step.
Qed.

(** A writer as [open] and [create] leave it, with room for the records. *)
Definition ready (w : WalWriter) (records : list WalRecord) : Prop :=
  segment_durable_lsn w + 1 = w_next_lsn w ∧ is_u64 (segment_durable_lsn w) ∧
  segment_durable_pending w = ∅ ∧ 0 ≤ segment_next_offset w ∧
  w_next_lsn w + zlen records < 2 ^ 64 ∧
  segment_next_offset w +
    sumZ (map (λ r, RECORD_HEADER_SIZE + payload_len r) records) < 2 ^ 64.

Lemma seg_inv_init w records :
  ready w records →
  seg_inv (segment_durable_lsn w) (w_next_lsn w + zlen records)
    (segment_next_offset w + sumZ (map (λ r, RECORD_HEADER_SIZE + payload_len r) records))
    w (threads records).
Proof.
  intros (Hnext & Hu & Hp & Hoff & _).
  assert (∀ i a, threads records !! i = Some a → a_phase a = Start) as Hstart.
  { intros i a Hi. apply list_lookup_fmap_Some in Hi as (r & -> & _). done. }
  assert (∀ i o, (phase_lsn <$> threads records) !! i = Some o → o = None) as Hnone.
  { intros i o Hi. apply list_lookup_fmap_Some in Hi as (a & -> & Ha).
    unfold phase_lsn. by rewrite (Hstart i a). }
  assert (omap published (threads records) = []) as Hpub.
  { clear. induction records; [done|]. done. }
  split.
  - split; [done|lia].
  - split_and!; [intros i l Hi; by apply Hnone in Hi|intros i j l Hi; by apply Hnone in Hi|lia|].
    f_equal. clear. induction records as [|r records IH]; [done|].
    change (unnumbered (None :: (phase_lsn <$> threads records)) = zlen (r :: records)).
    unfold unnumbered in *. rewrite filter_cons_True by done. by rewrite !zlen_cons, IH.
  - rewrite Hpub. unfold frontier. rewrite Hp.
    split; [done|]. split; [done|]. split_and!; cbn; [lia|set_solver|set_solver].
  - intros i a l o e Hi. by rewrite (Hstart i a).
  - intros i a l o l' Hi. by rewrite (Hstart i a).
  - split.
    + split; [done|]. f_equal. clear. induction records as [|r records IH]; [done|].
      change (unplaced (threads (r :: records)))
        with (frame_size (mkAppender r Start) + unplaced (threads records)). by rewrite IH.
    + intros i a o Hi. unfold phase_offset. by rewrite (Hstart i a).
    + intros i j a b o o' _ Hi _. unfold phase_offset at 1. by rewrite (Hstart i a).
    + intros i a l o Hi. unfold landed. by rewrite (Hstart i a).
Qed.

Lemma reachable_inv w records w' ts :
  ready w records → rtc seg_step (w, threads records) (w', ts) →
  ∃ bound limit, seg_inv (segment_durable_lsn w) bound limit w' ts.
Proof.
  intros Hready Hrtc. pose proof Hready as (_ & _ & _ & _ & Hb & Hl).
  eexists _, _. apply (seg_inv_rtc _ _ _ _ _ Hb Hl Hrtc). by apply seg_inv_init.
Qed.

(** ** Example runs *)

(** A new log, and two threads. *)
Definition example_writer : WalWriter :=
  match WalWriter_create Missing with
  | Ret (Ok w) => w
  | _ => mkWriter [] [] 0 0 0 0 0 ∅ 0 WalHeader_new
  end.

Definition example_records : list WalRecord := [Insert [97] None; Insert [98] None].

Lemma example_ready : ready example_writer example_records.
Proof. repeat split; by vm_compute. Qed.

(** [n] actions of thread [i], its write succeeding. *)
Definition steps (i n : nat) : list (nat * option (Z * nat)) := replicate n (i, None).

(** C10: an acknowledged append is in the file, with all before it.  However the
    threads' actions interleave and whichever writes fail, when an append
    returns [Ok lsn] the frame of every record numbered up to [lsn] is in the
    file, at a place of its own. *)
Theorem acknowledged_in_file w records w' ts i a lsn offset n :
  ready w records → rtc seg_step (w, threads records) (w', ts) →
  ts !! i = Some a → a_phase a = Finished lsn offset (Ok n) →
  n = lsn ∧
  ∀ l, segment_durable_lsn w < l ≤ lsn →
    ∃ j b o, ts !! j = Some b ∧ phase_lsn b = Some l ∧
      holds (w_file w') o (encode_record_frame l (a_record b)).
Proof.
  intros Hready Hrtc Hi Ha.
  destruct (reachable_inv _ _ _ _ Hready Hrtc) as (bound & limit & [_ _ Hfr _ Hfin Hfile]).
  destruct (Hfin i a lsn offset n Hi Ha) as [-> Hle]. split; [done|]. intros l Hrange.
  destruct Hfr as (_ & _ & Hall & _). cbn [frontier contiguous] in Hall.
  destruct (proj1 (list_elem_of_omap _ _ _) (Hall l ltac:(lia))) as (b & Hin & Hp).
  apply list_elem_of_lookup in Hin as [j Hj]. pose proof (published_lsn b l Hp) as Hlsn.
  assert (landed b = true ∧ ∃ o, phase_offset b = Some o) as (Hland & o & Ho).
  { unfold published, landed, phase_offset in *. destruct (a_phase b); naive_solver. }
  exists j, b, o. split_and!; [done..|]. by eapply (fi_landed _ _ _ Hfile j).
Qed.

Lemma acknowledged_in_file_witness :
  let s := run_appends (example_writer, threads example_records) (steps 1 4 ++ steps 0 5 ++ steps 1 1) in
  2 = 2 ∧ ∀ l, 0 < l ≤ 2 →
    ∃ j b o, s.2 !! j = Some b ∧ phase_lsn b = Some l ∧
      holds (w_file s.1) o (encode_record_frame l (a_record b)).
Proof.
  intros s.
  apply (acknowledged_in_file example_writer example_records s.1 s.2 0
           (mkAppender (Insert [97] None) (Finished 2 87 (Ok 2))) 2 87 2).
  - apply example_ready.
  - rewrite <-surjective_pairing. apply run_appends_rtc.
  - vm_compute. reflexivity.
  - reflexivity.
Defined.

(** No append waits for ever.  Once no thread is between reserving its
    number and publishing its outcome, every thread that still waits returns
    within two of its actions, with its number or with an error. *)
Theorem waiting_returns w records w' ts i a io io' :
  ready w records → rtc seg_step (w, threads records) (w', ts) →
  (∀ j b, ts !! j = Some b →
     match a_phase b with
     | Reserved _ | Placed _ _ | Written _ _ | Broken _ _ _ => False
     | _ => True
     end) →
  ts !! i = Some a → (∃ l o, a_phase a = Waiting l o) →
  let '(w1, a1) := append_step io w' a in
  let '(w2, a2) := append_step io' w1 a1 in
  w2 = w' ∧ ∃ l o r, a_phase a2 = Finished l o r.
Proof.
  intros Hready Hrtc Hquiet Hi (l & o & Ha).
  destruct (reachable_inv _ _ _ _ Hready Hrtc) as (bound & limit & [_ Hlsn Hfr Hfail _ _]).
  destruct a as [record ph]. cbn in Ha. subst ph. cbn [append_step]. unfold wait_durable.
  destruct (Z.leb_spec l (segment_durable_lsn w')) as [Hle|Hgt]; cbn [append_step]; unfold wait_failed.
  { split; [done|]. by eexists _, _, _. }
  assert (segment_failed_lsn w' ≤ l) as Hf; [|rewrite (proj2 (Z.leb_le _ _) Hf); by eauto].
  destruct Hfr as (Hbase & _ & _ & Hno & _). cbn [frontier contiguous] in *.
  destruct Hlsn as (Hrange & _ & Hsurj & _).
  assert (segment_durable_lsn w < l < w_next_lsn w').
  { apply (Hrange i). by rewrite list_lookup_fmap, Hi. }
  destruct (Hsurj (segment_durable_lsn w' + 1)) as [j Hj]; [lia|].
  apply list_lookup_fmap_Some in Hj as (b & Hb' & Hj). specialize (Hquiet j b Hj).
  assert (published b = None) as Hpub.
  { destruct (published b) as [x|] eqn:Hp; [|done]. destruct Hno.
    rewrite (published_lsn b x Hp) in Hb'. injection Hb' as ->.
    apply list_elem_of_omap. exists b. split; [by eapply list_elem_of_lookup_2|done]. }
  unfold published, phase_lsn in *. destruct (a_phase b) as [| | | | | | | |l' o' e] eqn:Hph; try done.
  injection Hb' as <-. pose proof (Hfail j b _ _ _ Hj Hph). lia.
Qed.


(** The first write fails, and the second thread, which has published its
    record, learns it. *)
Lemma waiting_returns_witness :
  let s := run_appends (example_writer, threads example_records)
             (steps 0 2 ++ steps 1 4 ++ [(0%nat, Some (5, 3%nat)); (0%nat, None)]) in
  let a := mkAppender (Insert [98] None) (Waiting 2 87) in
  let '(w1, a1) := append_step None s.1 a in
  let '(w2, a2) := append_step None w1 a1 in
  w2 = s.1 ∧ ∃ l o r, a_phase a2 = Finished l o r.
Proof.
  intros s a. apply (waiting_returns example_writer example_records s.1 s.2 1 a None None).
  - apply example_ready.
  - rewrite <-surjective_pairing. apply run_appends_rtc.
  - assert (Forall (λ b, match a_phase b with
      | Reserved _ | Placed _ _ | Written _ _ | Broken _ _ _ => False | _ => True end) s.2) as Hall
      by (vm_compute; repeat constructor).
    intros j b Hj. exact (Forall_lookup_1 _ _ _ _ Hall Hj).
  - vm_compute. reflexivity.
  - by eexists _, _.
Defined.


(** Appends behind a torn tail are lost.  Opening a log that ends in a torn
    record keeps the torn bytes and appends behind them; the append returns
    [Ok 2], and the next recovery stops at the torn record before it. *)
Theorem append_after_torn_tail_lost :
  let wal := Contents (w_file example_writer ++ encode_record_frame 1 (Insert [97] None) ++
                       take 20 (encode_record_frame 2 (Remove [99]))) in
  ∃ w, WalWriter_open None wal = Ret (Ok w) ∧
    let s := run_appends (w, threads [Insert [98] None]) (steps 0 5) in
    (∃ offset, s.2 !! 0%nat = Some (mkAppender (Insert [98] None) (Finished 2 offset (Ok 2)))) ∧
    ∃ st, recover 0 (Contents (w_file s.1)) = Ret (Ok st) ∧ operations st = [RInsert 1 [97] None].
Proof.
  eexists. split; [vm_compute; reflexivity|].
  split; [eexists; vm_compute; reflexivity|].
  eexists. split; [vm_compute; reflexivity|done].
Qed.
