(* ===== verification/Edges.v ===== *)
(** * Sorted edge lists

    The nodes of the in-memory tries keep their edges in a vector of labels and
    children, sorted by label: the binary search, insertion and lookup the tries
    share. *)

From stdpp Require Import prelude sorting.
From S2P Require Import Prelude.

(** [binary_search_by_key] on a sorted slice: the index of the label, or where
    it belongs *)
Fixpoint search_edge (label : nat) (edges : list (nat * nat)) : result nat nat :=
  match edges with
  | [] => Err 0
  | (edge, _) :: edges =>
      if label =? edge then Ok 0
      else if label <? edge then Err 0
      else match search_edge label edges with Ok i => Ok (S i) | Err i => Err (S i) end
  end.

(** [Vec::insert] *)
Definition vec_insert {A} (l : list A) (i : nat) (x : A) : exec (list A) :=
  if decide (i ≤ length l) then Ret (take i l ++ x :: drop i l) else Panic.

(** [edges.iter().find(|(edge, _)| *edge == label).map(|(_, child)| *child)] *)
Fixpoint edge_get (label : nat) (edges : list (nat * nat)) : option nat :=
  match edges with
  | [] => None
  | (edge, child) :: edges => if label =? edge then Some child else edge_get label edges
  end.

(** The lookup of the tries: linear in short lists, binary in longer ones.  A
    successful search gives an index in range. *)
Definition find_in_edges (limit : nat) (edges : list (nat * nat)) (label : nat) : option nat :=
  if length edges <? limit then edge_get label edges
  else match search_edge label edges with
       | Ok idx => snd <$> edges !! idx
       | Err _ => None
       end.

(** The edge list with a child set: an existing edge is replaced, a new one inserted
    in its place *)
Definition with_edge (edges : list (nat * nat)) (label child : nat) : exec (list (nat * nat)) :=
  match search_edge label edges with
  | Ok pos => store edges pos (label, child)
  | Err pos => vec_insert edges pos (label, child)
  end.

Lemma edge_get_in label edges c : edge_get label edges = Some c → (label, c) ∈ edges.
Proof.
  induction edges as [|[e x] edges IH]; cbn; [done|].
  destruct (Nat.eqb_spec label e) as [->|]; [intros [= ->]; by left|]. right. auto.
Qed.

Lemma edge_get_Some label edges c :
  StronglySorted lt edges.*1 → (label, c) ∈ edges → edge_get label edges = Some c.
Proof.
  induction edges as [|[e x] edges IH]; cbn; [set_solver|]. intros Hs Hin.
  inversion Hs as [|? ? Hs' Hf]; subst.
  apply elem_of_cons in Hin as [[= -> ->]|Hin]; [by rewrite Nat.eqb_refl|].
  destruct (Nat.eqb_spec label e) as [->|]; [|auto].
  eapply Forall_forall in Hf; [|apply list_elem_of_fmap; exists (e, c); split; [done|exact Hin]].
  cbn in Hf. lia.
Qed.

Lemma search_edge_spec label edges :
  StronglySorted lt edges.*1 →
  match search_edge label edges with
  | Ok i => ∃ c, edges !! i = Some (label, c) ∧ edge_get label edges = Some c
  | Err i => i ≤ length edges ∧ edge_get label edges = None ∧
      Forall (λ e, e < label) (take i edges).*1 ∧ Forall (λ e, label < e) (drop i edges).*1
  end.
Proof.
  induction edges as [|[e x] edges IH]; cbn [search_edge edge_get];
    [intros; split_and!; constructor|].
  intros Hs. inversion Hs as [|? ? Hs' Hf]; subst. specialize (IH Hs').
  destruct (Nat.eqb_spec label e) as [->|Hne]; [by exists x|].
  destruct (Nat.ltb_spec label e) as [Hlt|Hge].
  - split_and!; [cbn; lia| |constructor|].
    + destruct (edge_get label edges) as [c|] eqn:E; [|done]. apply edge_get_in in E.
      eapply Forall_forall in Hf; [|apply list_elem_of_fmap; exists (label, c); split; [done|exact E]].
      cbn in Hf. lia.
    + cbn. constructor; [done|]. eapply Forall_impl; [done|]. cbn. lia.
  - destruct (search_edge label edges) as [i|i]; cbn -[Nat.le]; [done|].
    destruct IH as (? & ? & ? & ?). split_and!; [lia|done|constructor; [lia|done]|done].
Qed.

Lemma find_in_edges_get limit edges label :
  StronglySorted lt edges.*1 → find_in_edges limit edges label = edge_get label edges.
Proof.
  intros Hs. unfold find_in_edges. destruct (_ <? _); [done|]. pose proof (search_edge_spec label edges Hs) as Hsearch.
  destruct (search_edge label edges) as [i|i]; [destruct Hsearch as (c & -> & ->)|destruct Hsearch as (_ & -> & _)]; done.
Qed.

Lemma sorted_insert_at (edges : list (nat * nat)) i label c :
  StronglySorted lt edges.*1 → Forall (λ e, e < label) (take i edges).*1 →
  Forall (λ e, label < e) (drop i edges).*1 →
  StronglySorted lt (take i edges ++ (label, c) :: drop i edges).*1.
Proof.
  intros Hs H1 H2. rewrite fmap_app. cbn. rewrite <-(take_drop i edges), fmap_app in Hs.
  apply StronglySorted_app in Hs as (Hc & Hs1 & Hs2). apply StronglySorted_app. split_and!.
  - intros a b Ha [->|Hb]%elem_of_cons; [by eapply Forall_forall in H1|].
    eapply Forall_forall in H1; [|done]. eapply Forall_forall in H2; [|done]. cbn in *. lia.
  - done.
  - by constructor.
Qed.

Lemma edge_get_app l a b :
  edge_get l (a ++ b) = match edge_get l a with Some c => Some c | None => edge_get l b end.
Proof.
  induction a as [|[e x] a IH]; [done|]. cbn [app edge_get]. by destruct (l =? e).
Qed.

Lemma edge_get_insert_at edges i label c l :
  edge_get label edges = None →
  edge_get l (take i edges ++ (label, c) :: drop i edges) =
    if l =? label then Some c else edge_get l edges.
Proof.
  intros Hnone. rewrite <-(take_drop i edges) in Hnone |- * at 3.
  rewrite edge_get_app in Hnone. rewrite !edge_get_app. cbn [edge_get].
  destruct (Nat.eqb_spec l label) as [->|]; [|done]. by destruct (edge_get label (take i edges)).
Qed.

Lemma edge_get_replace edges i label c0 c l :
  StronglySorted lt edges.*1 → edges !! i = Some (label, c0) →
  edge_get l (<[i := (label, c)]> edges) = if l =? label then Some c else edge_get l edges.
Proof.
  revert i. induction edges as [|[e x] edges IH]; intros [|i] Hs Hi; cbn in Hi; simplify_eq.
  - cbn. by destruct (l =? label).
  - change (<[S i := (label, c)]> ((e, x) :: edges)) with ((e, x) :: <[i := (label, c)]> edges). cbn [edge_get].
    inversion Hs as [|? ? Hs' Hf]; subst. rewrite (IH i) by done.
    destruct (Nat.eqb_spec l e) as [->|], (Nat.eqb_spec e label) as [->|]; try done.
    apply list_elem_of_lookup_2, (list_elem_of_fmap_2 fst) in Hi.
    eapply Forall_forall in Hf; [|exact Hi]. cbn in Hf. lia.
Qed.

Lemma with_edge_spec edges label c :
  StronglySorted lt edges.*1 →
  ∃ edges', with_edge edges label c = Ret edges' ∧ StronglySorted lt edges'.*1 ∧
    (∀ l, edge_get l edges' = if l =? label then Some c else edge_get l edges) ∧
    ∀ e, e ∈ edges' → e = (label, c) ∨ e ∈ edges.
Proof.
  intros Hs. unfold with_edge. pose proof (search_edge_spec label edges Hs) as Hsearch.
  destruct (search_edge label edges) as [i|i].
  - destruct Hsearch as (c0 & Hi & _). rewrite store_Some by (by eapply lookup_lt_Some).
    eexists. split_and!; [done| | |].
    + rewrite list_fmap_insert. cbn. rewrite list_insert_id; [done|]. by rewrite list_lookup_fmap, Hi.
    + intros l. by apply edge_get_replace with c0.
    + intros e (j & Hj)%list_elem_of_lookup. apply list_lookup_insert_Some in Hj as [(_ & <- & _)|[_ Hj]]; [by left|].
      right. by apply list_elem_of_lookup_2 in Hj.
  - destruct Hsearch as (Hi & Hnone & Hlt & Hgt). unfold vec_insert. rewrite decide_True by done.
    eexists. split_and!; [done|by apply sorted_insert_at|intros l; by apply edge_get_insert_at|].
    intros e He. rewrite <-(take_drop i edges). set_solver.
Qed.
