(* ===== verification/Tree.v ===== *)
(** * Breadth-first traversals of a tree

    A tree over [nat] is given by the children of every node.  [tree] says that
    a list of nodes is the root and every child exactly once; [frontier] is the
    invariant of a breadth-first traversal with visited nodes [P] and queue [Q].
    The double-array builder and the layout validator both run such a loop. *)

From stdpp Require Import prelude sets.
From S2P Require Import Prelude.

Section tree.
Context {A : Type} (ch : A → list A).

Definition tree (root : A) (R : list A) : Prop := NoDup R ∧ R ≡ₚ root :: (R ≫= ch).

Definition frontier (root : A) (P Q : list A) : Prop := P ++ Q ≡ₚ root :: (P ≫= ch).

Lemma frontier_init root : frontier root [] [root].
Proof. unfold frontier. simpl. reflexivity. Qed.

Lemma frontier_step root P d Q :
  frontier root P (d :: Q) → frontier root (P ++ [d]) (Q ++ ch d).
Proof.
  unfold frontier. intros H. rewrite bind_app. cbn. rewrite app_nil_r.
  rewrite <-app_assoc. cbn [app].
  change (P ++ d :: Q ++ ch d) with (P ++ (d :: Q) ++ ch d). by rewrite app_assoc, H.
Qed.

Lemma bind_submseteq (P R : list A) : P ⊆+ R → P ≫= ch ⊆+ R ≫= ch.
Proof.
  intros [k Hk]%submseteq_Permutation. rewrite Hk, bind_app.
  apply submseteq_inserts_r. done.
Qed.

(** The children of the next node of the queue are new, and in the tree. *)
Lemma frontier_fresh root R P d Q :
  tree root R → frontier root P (d :: Q) → NoDup (P ++ d :: Q) → P ++ d :: Q ⊆ R →
  NoDup ((P ++ d :: Q) ++ ch d) ∧ (P ++ d :: Q) ++ ch d ⊆ R.
Proof.
  intros [HR Hperm] Hfr Hnd Hsub.
  assert ((P ++ d :: Q) ++ ch d ⊆+ R) as Hall.
  { unfold frontier in Hfr. rewrite Hfr. rewrite Hperm. cbn [app].
    apply submseteq_skip. transitivity ((P ++ [d]) ≫= ch).
    { rewrite bind_app. cbn. by rewrite app_nil_r. }
    apply bind_submseteq, NoDup_submseteq.
    - apply NoDup_app in Hnd as (? & Hd & Hnd). apply NoDup_app. split_and!; [done| |].
      + intros x Hx ->%list_elem_of_singleton. apply (Hd d Hx). by left.
      + apply NoDup_singleton.
    - intros x Hx. apply Hsub. set_solver. }
  split.
  - apply submseteq_Permutation in Hall as [k Hk]. rewrite Hk in HR.
    by apply NoDup_app in HR as (? & _).
  - intros x Hx. by eapply elem_of_submseteq.
Qed.

(** When the queue is empty the visited nodes are a tree, closed under children. *)
Lemma frontier_done root P : NoDup P → frontier root P [] → tree root P.
Proof. unfold frontier. rewrite app_nil_r. done. Qed.

Lemma tree_closed root R d x : tree root R → d ∈ R → x ∈ ch d → x ∈ R.
Proof.
  intros [_ Hperm] Hd Hx. rewrite Hperm. right. apply list_elem_of_bind. eauto.
Qed.

Lemma tree_root root R : tree root R → root ∈ R.
Proof. intros [_ Hperm]. rewrite Hperm. by left. Qed.

(** The root is no child, and a child has one parent and one place there. *)
Lemma tree_root_child root R d : tree root R → d ∈ R → root ∉ ch d.
Proof.
  intros [HR Hperm] Hd Hx. rewrite Hperm in HR. apply NoDup_cons in HR as [Hr _].
  apply Hr, list_elem_of_bind. eauto.
Qed.

Lemma tree_parent root R d d' x :
  tree root R → d ∈ R → d' ∈ R → x ∈ ch d → x ∈ ch d' → d = d'.
Proof.
  intros [HR Hperm] Hd Hd' Hx Hx'. rewrite Hperm in HR. apply NoDup_cons in HR as [_ HR].
  clear Hperm. induction R as [|e R IH]; [set_solver|]. cbn in HR.
  apply NoDup_app in HR as (_ & Hdisj & HR).
  assert (∀ y, y ∈ R → x ∈ ch y → x ∈ ch e → False) as Hno.
  { intros y Hy Hxy Hxe. apply (Hdisj x Hxe). apply list_elem_of_bind. eauto. }
  apply elem_of_cons in Hd as [->|Hd], Hd' as [->|Hd']; try done.
  - destruct (Hno d'); done.
  - destruct (Hno d); done.
  - by apply IH.
Qed.

(** Every node but the root is a child. *)
Lemma tree_child root R x : tree root R → x ∈ R → x = root ∨ ∃ d, d ∈ R ∧ x ∈ ch d.
Proof.
  intros [_ Hperm] Hx. rewrite Hperm in Hx.
  apply elem_of_cons in Hx as [->|Hx]; [by left|right].
  apply list_elem_of_bind in Hx as (d & ? & ?). eauto.
Qed.

End tree.

(** ** Paths

    [path step s term] follows the labels of [term] from [s], with an early
    return when one has no edge. *)

Fixpoint path {A L} (step : A → L → option A) (s : A) (term : list L) : option A :=
  match term with
  | [] => Some s
  | l :: term => match step s l with None => None | Some next => path step next term end
  end.

Lemma path_app {A L} (step : A → L → option A) s t1 t2 :
  path step s (t1 ++ t2) = match path step s t1 with None => None | Some x => path step x t2 end.
Proof.
  revert s. induction t1 as [|l t1 IH]; intros s; [done|]. cbn.
  destruct (step s l); [apply IH|done].
Qed.

Lemma path_snoc {A L} (step : A → L → option A) s t l x :
  path step s (t ++ [l]) = Some x ↔ ∃ p, path step s t = Some p ∧ step p l = Some x.
Proof.
  rewrite path_app. destruct (path step s t) as [p|]; cbn.
  - destruct (step p l) as [y|] eqn:E; split.
    + intros H. exists p. split; [done|congruence].
    + intros (p' & [= <-] & Hx). congruence.
    + done.
    + intros (p' & [= <-] & Hx). congruence.
  - split; [done|]. by intros (? & ? & _).
Qed.

(** In a tree whose edges carry distinct labels, a node has one path. *)
Section paths.
Context {A L : Type} (ch : A → list A) (step : A → L → option A) (ok : L → Prop).
Context (root : A) (R : list A) (Htree : tree ch root R).
Context (Hstep : ∀ d l x, d ∈ R → ok l → step d l = Some x → x ∈ ch d).
Context (Hinj : ∀ d l l' x, d ∈ R → ok l → ok l' → step d l = Some x → step d l' = Some x → l = l').

Lemma path_in d term x : d ∈ R → Forall ok term → path step d term = Some x → x ∈ R.
Proof.
  revert d. induction term as [|l term IH]; intros d Hd Hl Hw; cbn in Hw; [by simplify_eq|].
  inversion Hl; subst. destruct (step d l) as [y|] eqn:Hs; [|done].
  apply (IH y); [|done..]. eapply tree_closed; [done|exact Hd|by eapply Hstep].
Qed.

Lemma path_last t l x :
  Forall ok (t ++ [l]) → path step root (t ++ [l]) = Some x →
  ∃ p, p ∈ R ∧ ok l ∧ path step root t = Some p ∧ step p l = Some x ∧ x ∈ ch p.
Proof.
  intros Hl (p & Hp & Hx)%path_snoc. apply Forall_app in Hl as [Hl Hu].
  inversion Hu; subst. pose proof (tree_root _ _ _ Htree) as Hroot.
  assert (p ∈ R) as HpR by by apply (path_in root t). exists p.
  split_and!; [done..|by apply (Hstep p l)].
Qed.

Lemma path_unique t1 t2 d :
  Forall ok t1 → Forall ok t2 → path step root t1 = Some d → path step root t2 = Some d → t1 = t2.
Proof.
  revert t2 d. induction t1 as [|l1 t1 IH] using rev_ind; intros t2 d Hl1 Hl2 H1 H2.
  - cbn in H1. injection H1 as <-. destruct t2 as [|l2 t2 _] using rev_ind; [done|].
    destruct (path_last t2 l2 root Hl2 H2) as (p & Hp & _ & _ & _ & Ht).
    by apply (tree_root_child _ _ _ _ Htree Hp) in Ht.
  - destruct (path_last t1 l1 d Hl1 H1) as (p1 & Hp1 & Ho1 & Hw1 & Hs1 & Ht1).
    destruct t2 as [|l2 t2 _] using rev_ind.
    { cbn in H2. injection H2 as <-. by apply (tree_root_child _ _ _ _ Htree Hp1) in Ht1. }
    destruct (path_last t2 l2 d Hl2 H2) as (p2 & Hp2 & Ho2 & Hw2 & Hs2 & Ht2).
    assert (p1 = p2) as <- by (by eapply tree_parent).
    apply Forall_app in Hl1 as [Hl1 _], Hl2 as [Hl2 _].
    f_equal; [by eapply IH|]. f_equal. by eapply Hinj.
Qed.
End paths.

(** Distinct nodes below [n] are at most [n]. *)
Lemma NoDup_below (l : list nat) n : NoDup l → Forall (λ x, x < n) l → length l ≤ n.
Proof.
  intros Hnd Hb. rewrite <-(length_seq n 0). apply submseteq_length, NoDup_submseteq; [done|].
  intros x Hx. eapply Forall_forall in Hb; [|done]. apply elem_of_seq. lia.
Qed.
