(* ===== verification/DatShared.v ===== *)
(** * The double-array trie: layout and queries

    [DATCoreShared] and [ValidatedDATCoreShared] of
    src/src/double_array_trie/core/shared.rs: the five parallel arrays, term
    lookup, the validator for untrusted layouts, and the cursor operations, once
    with bounds checks and once trusting the validator.

    A state is an index, an edge label is its offset (the byte, or the code of
    the character: both are ordered by it), and a cursor is a state plus one.
    [get_unchecked] out of range is undefined behaviour; it is [Panic] here, so
    that a theorem about a result excludes it. *)

From stdpp Require Import prelude sets sorting.
From S2P Require Import Prelude Tree.

Definition i32 (z : Z) : Z := ((z + 2 ^ 31) mod 2 ^ 32 - 2 ^ 31)%Z.
Definition i32_MAX : Z := (2 ^ 31 - 1)%Z.

Definition usize_wrapping_add (a b : nat) : nat := Z.to_nat (u64 (Z.of_nat a + Z.of_nat b)).
Definition usize_checked_add (a b : nat) : option nat :=
  if (Z.of_nat a + Z.of_nat b <? 2 ^ 64)%Z then Some (a + b) else None.

(** [x as usize] and [usize::try_from(x)] of an [i32] *)
Definition as_usize (z : Z) : nat := Z.to_nat (u64 z).
Definition usize_try_from (z : Z) : option nat := if (z <? 0)%Z then None else Some (Z.to_nat z).

(** The two label types, and which offsets are labels. *)
Inductive unit_kind := ByteUnit | CharUnit.

Definition try_from_certified_dat_offset (k : unit_kind) (offset : nat) : option nat :=
  match k with
  | ByteUnit => if (Z.of_nat offset <? 256)%Z then Some offset else None
  | CharUnit =>
      if ((Z.of_nat offset <? 0xD800) || ((0xDFFF <? Z.of_nat offset) && (Z.of_nat offset <? 0x110000)))%Z
      then Some offset else None
  end.

Section dat.
Context {V : Type}.

Record DATCoreShared := mkDat {
  d_base : list Z;
  d_check : list Z;
  d_final : list bool;
  d_edges : list (list nat);
  d_values : list (option V);
}.

(** ** Lookup *)

(** One step of the loops of [contains_term_from] and [term_value_from] *)
Definition walk_step (s : DATCoreShared) (state unit : nat) : option nat :=
  match d_base s !! state with
  | None => None
  | Some base =>
      if (base <? 0)%Z then None
      else
        let next := usize_wrapping_add (Z.to_nat base) unit in
        match d_check s !! next with
        | None => None
        | Some c => if (c =? i32 (Z.of_nat state))%Z then Some next else None
        end
  end.

Definition walk (s : DATCoreShared) : nat → list nat → option nat := path (walk_step s).

Definition contains_term_from (s : DATCoreShared) (term : list nat) (root_state : nat) : bool :=
  match walk s root_state term with
  | None => false
  | Some state => default false (d_final s !! state)
  end.

Definition term_value_from (s : DATCoreShared) (term : list nat) (root_state : nat) : option V :=
  match walk s root_state term with
  | None => None
  | Some state => if default false (d_final s !! state) then mjoin (d_values s !! state) else None
  end.

Definition contains_term (s : DATCoreShared) (term : list nat) : bool := contains_term_from s term 1.
Definition term_value (s : DATCoreShared) (term : list nat) : option V := term_value_from s term 1.

(** ** Validation *)

Inductive DatValidationError : Type :=
| ParallelArrayLengths (base check is_final edges values : nat)
| RootOutOfBounds (root len : nat)
| InvalidRootParent (root : nat) (check : Z)
| StateExceedsCheckRepresentation (state : nat)
| UnsortedOrDuplicateEdges (state : nat)
| NegativeBaseWithEdges (state : nat)
| TransitionOverflow (state offset : nat)
| TransitionOutOfBounds (state target len : nat)
| WrongTransitionParent (state target : nat) (actual : Z)
| RepeatedOrCyclicTarget (state target : nat)
| NonCanonicalUnreachableState (state : nat)
| ValueOnNonFinalState (state : nat)
| TermCountMismatch (declared reachable_finals : nat)
| InvalidFreeListEntry (state : nat)
| DuplicateFreeListEntry (state : nat)
| InvalidRebuildThreshold.

(** [labels.windows(2).any(|pair| pair[0] >= pair[1])] *)
Fixpoint unsorted (labels : list nat) : bool :=
  match labels with
  | a :: (b :: _) as rest => (b <=? a) || unsorted rest
  | _ => false
  end.

(** The loop over the labels of one state *)
Fixpoint validate_labels (s : DATCoreShared) (state base : nat) (labels : list nat)
    (reachable : list bool) (queue : list nat) :
    exec (result (list bool * list nat) DatValidationError) :=
  match labels with
  | [] => Ret (Ok (reachable, queue))
  | offset :: labels =>
      match usize_checked_add base offset with
      | None => Ret (Err (TransitionOverflow state offset))
      | Some target =>
          let len := length (d_base s) in
          if len <=? target then Ret (Err (TransitionOutOfBounds state target len))
          else
            c ← d_check s !! target;
            if negb (c =? Z.of_nat state)%Z then Ret (Err (WrongTransitionParent state target c))
            else
              seen ← reachable !! target;
              if (seen : bool) then Ret (Err (RepeatedOrCyclicTarget state target))
              else
                reachable ← store reachable target true;
                validate_labels s state base labels reachable (queue ++ [target])
      end
  end.

(** One round of the [while let Some(state) = queue.pop_front()] loop *)
Definition validate_state (s : DATCoreShared) (state : nat) (reachable : list bool)
    (queue : list nat) (count : nat) :
    exec (result (list bool * list nat * nat) DatValidationError) :=
  if (i32_MAX <? Z.of_nat state)%Z then Ret (Err (StateExceedsCheckRepresentation state))
  else
    final ← d_final s !! state;
    value ← d_values s !! state;
    if negb final && bool_decide (is_Some value) then Ret (Err (ValueOnNonFinalState state))
    else
      let count := if (final : bool) then S count else count in
      labels ← d_edges s !! state;
      if unsorted labels then Ret (Err (UnsortedOrDuplicateEdges state))
      else
        match labels with
        | [] => Ret (Ok (reachable, queue, count))
        | _ =>
            base ← d_base s !! state;
            if (base <? 0)%Z then Ret (Err (NegativeBaseWithEdges state))
            else
              r ← validate_labels s state (Z.to_nat base) labels reachable queue;
              match r with
              | Err e => Ret (Err e)
              | Ok (reachable, queue) => Ret (Ok (reachable, queue, count))
              end
        end.

Fixpoint validate_loop (fuel : nat) (s : DATCoreShared) (reachable : list bool)
    (queue : list nat) (count : nat) : exec (result (list bool * nat) DatValidationError) :=
  match fuel, queue with
  | _, [] => Ret (Ok (reachable, count))
  | O, _ => Panic
  | S fuel, state :: queue =>
      r ← validate_state s state reachable queue count;
      match r with
      | Err e => Ret (Err e)
      | Ok (reachable, queue, count) => validate_loop fuel s reachable queue count
      end
  end.

(** The final loop over [reachable.iter().enumerate()] *)
Fixpoint validate_slots (s : DATCoreShared) (state : nat) (reachable : list bool) :
    exec (result unit DatValidationError) :=
  match reachable with
  | [] => Ret (Ok tt)
  | is_reachable :: reachable =>
      base ← d_base s !! state;
      c ← d_check s !! state;
      final ← d_final s !! state;
      labels ← d_edges s !! state;
      value ← d_values s !! state;
      if (is_reachable : bool) then
        if negb final && bool_decide (is_Some value) then Ret (Err (ValueOnNonFinalState state))
        else validate_slots s (S state) reachable
      else if negb (base =? -1)%Z || negb (c =? -1)%Z || final || negb (bool_decide (labels = [])) ||
              bool_decide (is_Some value)
      then Ret (Err (NonCanonicalUnreachableState state))
      else validate_slots s (S state) reachable
  end.

Definition validate_layout (s : DATCoreShared) (root_state : nat) :
    exec (result nat DatValidationError) :=
  let len := length (d_base s) in
  if negb ((length (d_check s) =? len) && (length (d_final s) =? len) &&
           (length (d_edges s) =? len) && (length (d_values s) =? len))
  then Ret (Err (ParallelArrayLengths len (length (d_check s)) (length (d_final s))
                   (length (d_edges s)) (length (d_values s))))
  else if len <=? root_state then Ret (Err (RootOutOfBounds root_state len))
  else
    root_parent ← d_check s !! root_state;
    if (i32_MAX <? Z.of_nat root_state)%Z
    then Ret (Err (StateExceedsCheckRepresentation root_state))
    else if (0 <=? root_parent)%Z && negb (root_parent =? Z.of_nat root_state)%Z
    then Ret (Err (InvalidRootParent root_state root_parent))
    else
      reachable ← store (replicate len false) root_state true;
      r ← validate_loop (S len) s reachable [root_state] 0;
      match r with
      | Err e => Ret (Err e)
      | Ok (reachable, count) =>
          r ← validate_slots s 0 reachable;
          match r with
          | Err e => Ret (Err e)
          | Ok _ => Ret (Ok count)
          end
      end.

(** Sealing an untrusted layout: the wrapper holds the arrays and the count. *)
Definition try_from_untrusted (root : nat) (raw : DATCoreShared) (declared_term_count : nat) :
    exec (result (DATCoreShared * nat) DatValidationError) :=
  r ← validate_layout raw root;
  match r with
  | Err e => Ret (Err e)
  | Ok reachable_final_count =>
      if negb (declared_term_count =? reachable_final_count)
      then Ret (Err (TermCountMismatch declared_term_count reachable_final_count))
      else Ret (Ok (raw, reachable_final_count))
  end.

Definition reusable (root : nat) (s : DATCoreShared) (state : nat) : exec bool :=
  if (state <=? root) || (length (d_base s) <=? state) then Ret false
  else
    base ← d_base s !! state;
    c ← d_check s !! state;
    final ← d_final s !! state;
    labels ← d_edges s !! state;
    value ← d_values s !! state;
    Ret (negb (negb (base =? -1)%Z || negb (c =? -1)%Z || final ||
               negb (bool_decide (labels = [])) || bool_decide (is_Some value))).

Fixpoint validate_free_entries (root : nat) (s : DATCoreShared) (listed : list bool)
    (free_list : list nat) : exec (result unit DatValidationError) :=
  match free_list with
  | [] => Ret (Ok tt)
  | state :: free_list =>
      hole ← reusable root s state;
      if negb hole then Ret (Err (InvalidFreeListEntry state))
      else
        seen ← listed !! state;
        listed ← store listed state true;
        if (seen : bool) then Ret (Err (DuplicateFreeListEntry state))
        else validate_free_entries root s listed free_list
  end.

Definition validate_free_list (root : nat) (s : DATCoreShared) (free_list : list nat) :
    exec (result unit DatValidationError) :=
  validate_free_entries root s (replicate (length (d_base s)) false) free_list.

(** ** Cursors with bounds checks *)

Definition SnapshotTraversalCursor_new (n : nat) : option nat :=
  if n =? 0 then None else Some n.

Definition traversal_cursor (state : nat) : option nat :=
  match usize_checked_add state 1 with
  | None => None
  | Some n => SnapshotTraversalCursor_new n
  end.

Definition traversal_state (s : DATCoreShared) (cursor : nat) : option nat :=
  let state := cursor - 1 in
  if (state <? length (d_base s)) && (state <? length (d_final s)) && (state <? length (d_edges s))
  then Some state else None.

Definition contains_traversal_cursor (s : DATCoreShared) (cursor root_state : nat) : bool :=
  match traversal_state s cursor with
  | None => false
  | Some state =>
      bool_decide (is_Some (d_values s !! state)) &&
      ((state =? root_state) ||
       match d_check s !! state with Some parent => (0 <=? parent)%Z | None => false end)
  end.

Definition traversal_cursor_is_final (s : DATCoreShared) (cursor : nat) : option bool :=
  match traversal_state s cursor with
  | None => None
  | Some state => d_final s !! state
  end.

(** [(next < check.len() && check[next] == state as i32).then(|| cursor(next)).flatten()] *)
Definition checked_child (s : DATCoreShared) (state next : nat) : option nat :=
  match d_check s !! next with
  | Some c => if (c =? i32 (Z.of_nat state))%Z then traversal_cursor next else None
  | None => None
  end.

Definition traversal_cursor_transition (s : DATCoreShared) (cursor label : nat) :
    exec (option (option nat)) :=
  match traversal_state s cursor with
  | None => Ret None
  | Some state =>
      base ← d_base s !! state;
      if (base <? 0)%Z then Ret (Some None)
      else
        match usize_checked_add (Z.to_nat base) label with
        | None => Ret (Some None)
        | Some next => Ret (Some (checked_child s state next))
        end
  end.

(** The visits of [filter_map_traversal_cursor], in order; a page is the same
    loop over a part of the labels with a projection that accepts all. *)
Fixpoint project_edges {T} (s : DATCoreShared) (project : nat → option T) (state base : nat)
    (labels : list nat) : list (nat * nat * T) :=
  match labels with
  | [] => []
  | label :: labels =>
      let visited := project_edges s project state base labels in
      match project label with
      | None => visited
      | Some projected =>
          match usize_checked_add base label with
          | None => visited
          | Some next =>
              match checked_child s state next with
              | Some child => (label, child, projected) :: visited
              | None => visited
              end
          end
      end
  end.

Definition visit_traversal_cursor_edge_page (s : DATCoreShared) (cursor start capacity : nat) :
    exec (option (bool * nat * list (nat * nat * unit))) :=
  match traversal_state s cursor with
  | None => Ret None
  | Some state =>
      is_final ← d_final s !! state;
      labels ← d_edges s !! state;
      let total := length labels in
      base ← d_base s !! state;
      if (base <? 0)%Z || (total <=? start) || (capacity =? 0) then Ret (Some (is_final, total, []))
      else
        Ret (Some (is_final, total,
          project_edges s (λ _, Some tt) state (Z.to_nat base) (take capacity (drop start labels))))
  end.

Definition filter_map_traversal_cursor {T} (s : DATCoreShared) (cursor : nat)
    (project : nat → option T) : exec (option (bool * list (nat * nat * T))) :=
  match traversal_state s cursor with
  | None => Ret None
  | Some state =>
      is_final ← d_final s !! state;
      base ← d_base s !! state;
      if (base <? 0)%Z then Ret (Some (is_final, []))
      else
        labels ← d_edges s !! state;
        Ret (Some (is_final, project_edges s project state (Z.to_nat base) labels))
  end.

Definition traversal_cursor_value (s : DATCoreShared) (cursor : nat) : option (option V) :=
  match traversal_state s cursor with
  | None => None
  | Some state => d_values s !! state
  end.

(** ** Cursors that trust the layout *)

Definition trusted_state (cursor : nat) : nat := cursor - 1.

Definition trusted_is_final (s : DATCoreShared) (cursor : nat) : exec (option bool) :=
  final ← d_final s !! trusted_state cursor; Ret (Some final).

Definition trusted_transition (s : DATCoreShared) (cursor label : nat) :
    exec (option (option nat)) :=
  let state := trusted_state cursor in
  base ← d_base s !! state;
  if (base <? 0)%Z then Ret (Some None)
  else
    match usize_checked_add (Z.to_nat base) label with
    | None => Ret (Some None)
    | Some next => Ret (Some (checked_child s state next))
    end.

(** [base + label] without a check; [unwrap_unchecked] on the cursor. *)
Fixpoint trusted_project_edges {T} (project : nat → option T) (base : nat) (labels : list nat) :
    list (nat * nat * T) :=
  match labels with
  | [] => []
  | label :: labels =>
      let visited := trusted_project_edges project base labels in
      match project label with
      | None => visited
      | Some projected => (label, base + label + 1, projected) :: visited
      end
  end.

Definition trusted_edge_page (s : DATCoreShared) (cursor start capacity : nat) :
    exec (option (bool * nat * list (nat * nat * unit))) :=
  let state := trusted_state cursor in
  is_final ← d_final s !! state;
  labels ← d_edges s !! state;
  let total := length labels in
  if (total <=? start) || (capacity =? 0) then Ret (Some (is_final, total, []))
  else
    base ← d_base s !! state;
    Ret (Some (is_final, total,
      trusted_project_edges (λ _, Some tt) (as_usize base) (take capacity (drop start labels)))).

Definition trusted_filter_map {T} (s : DATCoreShared) (cursor : nat) (project : nat → option T) :
    exec (option (bool * list (nat * nat * T))) :=
  let state := trusted_state cursor in
  is_final ← d_final s !! state;
  labels ← d_edges s !! state;
  if bool_decide (labels = []) then Ret (Some (is_final, []))
  else
    base ← d_base s !! state;
    Ret (Some (is_final, trusted_project_edges project (as_usize base) labels)).

Definition trusted_value (s : DATCoreShared) (cursor : nat) : exec (option (option V)) :=
  value ← d_values s !! trusted_state cursor; Ret (Some value).

(** The key of a cursor, by the parents in CHECK *)
Fixpoint key_units_loop (k : unit_kind) (s : DATCoreShared) (relative_root_state remaining state : nat)
    (units : list nat) : option (list nat) :=
  if state =? relative_root_state then Some (rev units)
  else
    match remaining with
    | O => None
    | S remaining =>
        parent ← d_check s !! state ≫= usize_try_from;
        base ← d_base s !! parent ≫= usize_try_from;
        if state <? base then None
        else
          unit ← try_from_certified_dat_offset k (state - base);
          key_units_loop k s relative_root_state remaining parent (units ++ [unit])
    end.

Definition traversal_cursor_key_units (k : unit_kind) (s : DATCoreShared)
    (cursor relative_root_state : nat) : option (list nat) :=
  key_units_loop k s relative_root_state (length (d_base s)) (trusted_state cursor) [].

(** ** Well-typed arrays *)

Definition is_i32 (z : Z) : Prop := (- 2 ^ 31 ≤ z ≤ i32_MAX)%Z.
Definition is_label (k : unit_kind) (u : nat) : Prop := try_from_certified_dat_offset k u = Some u.

(** What the types of the fields guarantee *)
Definition dat_typed (k : unit_kind) (s : DATCoreShared) : Prop :=
  Forall is_i32 (d_base s) ∧ Forall is_i32 (d_check s) ∧ Forall (Forall (is_label k)) (d_edges s).

Lemma is_label_bound k u : is_label k u → (Z.of_nat u < 2 ^ 21)%Z.
Proof.
  unfold is_label, try_from_certified_dat_offset.
  destruct k; case_match eqn:E; intros [=]; lia.
Qed.

Lemma i32_id z : is_i32 z → i32 z = z.
Proof. unfold is_i32, i32, i32_MAX. intros. rewrite Z.mod_small; lia. Qed.

Lemma usize_add_small a b :
  (Z.of_nat a ≤ i32_MAX)%Z → (Z.of_nat b < 2 ^ 21)%Z →
  usize_checked_add a b = Some (a + b) ∧ usize_wrapping_add a b = a + b.
Proof.
  unfold usize_checked_add, usize_wrapping_add, i32_MAX. intros Ha Hb. split.
  - by rewrite (proj2 (Z.ltb_lt _ _)) by lia.
  - rewrite u64_id by (unfold is_u64; lia). lia.
Qed.

Lemma usize_try_from_pos z : (0 ≤ z)%Z → usize_try_from z = Some (Z.to_nat z).
Proof. intros. unfold usize_try_from. by rewrite (proj2 (Z.ltb_ge _ _)) by lia. Qed.

(** ** Layouts

    [dat_layout s root R]: the states reachable from the root are [R], in a
    tree; each is in order, and every other slot is empty. *)

Definition labels_of (s : DATCoreShared) (d : nat) : list nat := default [] (d_edges s !! d).
Definition base_of (s : DATCoreShared) (d : nat) : nat := Z.to_nat (default (-1)%Z (d_base s !! d)).
Definition targets (s : DATCoreShared) (d : nat) : list nat := map (Nat.add (base_of s d)) (labels_of s d).

Definition same_lengths (s : DATCoreShared) : Prop :=
  length (d_check s) = length (d_base s) ∧ length (d_final s) = length (d_base s) ∧
  length (d_edges s) = length (d_base s) ∧ length (d_values s) = length (d_base s).

(** What the validator demands of a reachable state *)
Record state_ok (s : DATCoreShared) (d : nat) : Prop := {
  so_bound : d < length (d_base s);
  so_i32 : (Z.of_nat d ≤ i32_MAX)%Z;
  so_value : ∀ v, d_values s !! d = Some (Some v) → d_final s !! d = Some true;
  so_sorted : StronglySorted lt (labels_of s d);
  so_base : labels_of s d ≠ [] → ∃ b, d_base s !! d = Some b ∧ (0 ≤ b)%Z;
  so_check : ∀ t, t ∈ targets s d → d_check s !! t = Some (Z.of_nat d);
}.

Definition slot_empty (s : DATCoreShared) (d : nat) : Prop :=
  d_base s !! d = Some (-1)%Z ∧ d_check s !! d = Some (-1)%Z ∧ d_final s !! d = Some false ∧
  d_edges s !! d = Some [] ∧ d_values s !! d = Some None.

Record dat_layout (s : DATCoreShared) (root : nat) (R : list nat) : Prop := {
  dl_lens : same_lengths s;
  dl_root : ∀ c, d_check s !! root = Some c → (c < 0)%Z ∨ c = Z.of_nat root;
  dl_tree : tree (targets s) root R;
  dl_reach : ∀ d, d ∈ R → rtc (λ a b, b ∈ targets s a) root d;
  dl_state : ∀ d, d ∈ R → state_ok s d;
  dl_empty : ∀ d, d < length (d_base s) → d ∉ R → slot_empty s d;
}.

Definition finals (s : DATCoreShared) (R : list nat) : nat :=
  length (filter (λ d, d_final s !! d = Some true) R).

(** ** The validator decides [dat_layout] *)

Definition marks (n : nat) (reachable : list bool) (R : list nat) : Prop :=
  length reachable = n ∧ ∀ x, reachable !! x = Some true ↔ x ∈ R.

Lemma marks_bound n reachable R x : marks n reachable R → x ∈ R → x < n.
Proof. intros [<- Hm] Hx. apply Hm in Hx. by eapply lookup_lt_Some. Qed.

Lemma marks_insert n reachable R x :
  marks n reachable R → x < n → marks n (<[x := true]> reachable) (R ++ [x]).
Proof.
  intros [Hlen Hm] Hx. split; [by rewrite length_insert|]. intros y.
  rewrite elem_of_app, list_elem_of_singleton, <-Hm.
  destruct (decide (x = y)) as [->|].
  - rewrite list_lookup_insert_eq by lia. naive_solver.
  - rewrite list_lookup_insert_ne by done. naive_solver.
Qed.

Lemma unsorted_spec labels : unsorted labels = false ↔ StronglySorted lt labels.
Proof.
  induction labels as [|a [|b labels] IH].
  - split; [constructor|done].
  - split; [repeat constructor|done].
  - cbn [unsorted]. rewrite orb_false_iff, IH, Nat.leb_gt. split.
    + intros [Hab Hs]. constructor; [done|]. inversion Hs; subst. constructor; [done|].
      eapply Forall_impl; [done|]. intros. simpl in *. lia.
    + inversion 1 as [|? ? Hs Hf]; subst. inversion Hf; subst. done.
Qed.

Lemma sorted_NoDup_lt (l : list nat) : StronglySorted lt l → NoDup l.
Proof. apply StronglySorted_NoDup. lia. Qed.

Lemma NoDup_targets s d : StronglySorted lt (labels_of s d) → NoDup (targets s d).
Proof. intros Hs. apply NoDup_fmap_2; [intros ???; lia|]. by apply sorted_NoDup_lt. Qed.

(** The new targets of a state are in range, point back to it and are unseen. *)
Definition fresh_targets (s : DATCoreShared) (state : nat) (R ts : list nat) : Prop :=
  (∀ t, t ∈ ts → t < length (d_base s) ∧ d_check s !! t = Some (Z.of_nat state)) ∧
  NoDup (R ++ ts).

Lemma validate_labels_spec k s state base labels reachable queue R :
  dat_typed k s → same_lengths s → (Z.of_nat base ≤ i32_MAX)%Z → Forall (is_label k) labels →
  marks (length (d_base s)) reachable R → NoDup R →
  let ts := map (Nat.add base) labels in
  ∃ r, validate_labels s state base labels reachable queue = Ret r ∧
    match r with
    | Ok (reachable', queue') =>
        queue' = queue ++ ts ∧ marks (length (d_base s)) reachable' (R ++ ts) ∧
        fresh_targets s state R ts
    | Err _ => ¬ fresh_targets s state R ts
    end.
Proof.
  intros Htyped (Hc & _) Hbase. revert reachable queue R.
  induction labels as [|u labels IH]; intros reachable queue R Hlab Hm Hnd; cbn -[Nat.add].
  { eexists. split; [done|]. rewrite !app_nil_r. split_and!; [done..|].
    split; [set_solver|by rewrite app_nil_r]. }
  inversion Hlab as [|? ? Hu Hlab']; subst.
  destruct (usize_add_small base u) as [-> _]; [done|by eapply is_label_bound|].
  set (t := base + u). destruct (Nat.leb_spec (length (d_base s)) t) as [Hout|Hin].
  { eexists. split; [done|]. intros [Hts _]. destruct (Hts t); [by left|lia]. }
  destruct (lookup_lt_is_Some_2 (d_check s) t) as [c Hct]; [lia|]. rewrite Hct. cbn [mbind option_bind].
  destruct (Z.eqb_spec c (Z.of_nat state)) as [->|Hne]; cbn [negb].
  2:{ eexists. split; [done|]. intros [Hts _]. destruct (Hts t) as [_ E]; [by left|congruence]. }
  destruct (lookup_lt_is_Some_2 reachable t) as [seen Hseen]; [destruct Hm; lia|].
  rewrite Hseen. cbn [mbind option_bind]. destruct seen.
  { eexists. split; [done|]. intros [_ Hnd']. apply Hm in Hseen.
    apply NoDup_app in Hnd' as (_ & Hdisj & _). apply (Hdisj t Hseen). by left. }
  rewrite store_Some by (destruct Hm; lia). cbn [mbind option_bind].
  assert (t ∉ R) as Hnew by (intros Ht; apply Hm in Ht; congruence).
  destruct (IH (<[t := true]> reachable) (queue ++ [t]) (R ++ [t])) as (r & -> & Hr);
    [done|by apply marks_insert|apply NoDup_app; split_and!; [done|set_solver|apply NoDup_singleton]|].
  eexists. split; [done|].
  assert (fresh_targets s state R (t :: map (Nat.add base) labels) ↔
    fresh_targets s state (R ++ [t]) (map (Nat.add base) labels)) as Hiff.
  { unfold fresh_targets. rewrite <-app_assoc. cbn. split; intros [Hts Hn]; (split; [|done]).
    - intros x Hx. apply Hts. by right.
    - intros x [->|Hx]%elem_of_cons; [done|by apply Hts]. }
  destruct r as [[reachable' queue']|e].
  - destruct Hr as (-> & Hm' & Hf). rewrite <-!app_assoc in *. split_and!; [done..|by apply Hiff].
  - by rewrite Hiff.
Qed.

Lemma labels_of_edges s d labels : d_edges s !! d = Some labels → labels_of s d = labels.
Proof. intros H. unfold labels_of. by rewrite H. Qed.

Lemma base_of_Some s d b : d_base s !! d = Some b → base_of s d = Z.to_nat b.
Proof. intros H. unfold base_of. by rewrite H. Qed.

Lemma typed_labels k s d : dat_typed k s → Forall (is_label k) (labels_of s d).
Proof.
  intros (_ & _ & He). unfold labels_of. destruct (d_edges s !! d) eqn:E; [|constructor].
  by eapply Forall_lookup_1 in He.
Qed.

Lemma validate_state_spec k s state reachable queue count R :
  dat_typed k s → same_lengths s → state < length (d_base s) →
  marks (length (d_base s)) reachable R → NoDup R →
  ∃ r, validate_state s state reachable queue count = Ret r ∧
    match r with
    | Ok (reachable', queue', count') =>
        state_ok s state ∧ queue' = queue ++ targets s state ∧
        marks (length (d_base s)) reachable' (R ++ targets s state) ∧
        NoDup (R ++ targets s state) ∧ count' = count + finals s [state]
    | Err _ => ¬ (state_ok s state ∧ NoDup (R ++ targets s state))
    end.
Proof.
  intros Htyped Hlens Hs Hm Hnd. pose proof Hlens as (Hc & Hf & He & Hv). unfold validate_state.
  destruct (Z.ltb_spec i32_MAX (Z.of_nat state)) as [Hbig|Hsmall].
  { eexists. split; [done|]. intros [[] _]. lia. }
  destruct (lookup_lt_is_Some_2 (d_final s) state) as [final Hfinal]; [lia|].
  destruct (lookup_lt_is_Some_2 (d_values s) state) as [value Hvalue]; [lia|].
  destruct (lookup_lt_is_Some_2 (d_edges s) state) as [labels Hlabels]; [lia|].
  destruct (lookup_lt_is_Some_2 (d_base s) state) as [b Hb]; [lia|].
  pose proof (labels_of_edges _ _ _ Hlabels) as Hlo.
  rewrite Hfinal, Hvalue, Hlabels, Hb. cbn [mbind option_bind].
  assert (finals s [state] = if final then 1 else 0) as Hfin.
  { unfold finals. rewrite filter_cons, filter_nil, Hfinal. destruct final; by case_decide. }
  destruct (negb final && bool_decide (is_Some value)) eqn:Hval.
  { eexists. split; [done|]. intros [Hok _]. apply andb_true_iff in Hval as [Hneg Hval].
    apply bool_decide_eq_true_1 in Hval as [v ->]. destruct final; [done|].
    apply so_value with (v := v) in Hok; [congruence|done]. }
  destruct (unsorted labels) eqn:Hun.
  { eexists. split; [done|]. intros [Hok _]. apply so_sorted in Hok.
    rewrite Hlo in Hok. apply unsorted_spec in Hok. congruence. }
  apply unsorted_spec in Hun.
  assert (∀ v, d_values s !! state = Some (Some v) → d_final s !! state = Some true) as Hvf.
  { intros v Hv'. rewrite Hvalue in Hv'. simplify_eq. destruct final; [done|].
    by rewrite bool_decide_eq_true_2 in Hval by eauto. }
  destruct labels as [|u labels].
  { eexists. split; [done|].
    assert (targets s state = []) as Ht by (unfold targets; by rewrite Hlo).
    rewrite Ht, !app_nil_r, Hfin. split_and!; try done; [|destruct final; lia].
    split; rewrite ?Hlo, ?Ht; try done. set_solver. }
  destruct (Z.ltb_spec b 0) as [Hneg|Hpos].
  { eexists. split; [done|]. intros [Hok _].
    destruct (so_base _ _ Hok) as (b' & ? & ?); [by rewrite Hlo|]. simplify_eq. lia. }
  assert (base_of s state = Z.to_nat b) as Hbo by by apply base_of_Some.
  assert ((Z.of_nat (Z.to_nat b) ≤ i32_MAX)%Z) as Hbm.
  { destruct Htyped as (Hb' & _). eapply Forall_lookup_1 in Hb'; [|done]. destruct Hb'. lia. }
  destruct (validate_labels_spec k s state (Z.to_nat b) (u :: labels) reachable queue R)
    as (r & -> & Hr); [done..|rewrite <-Hlo; by apply typed_labels|done|done|].
  cbn [mbind option_bind].
  replace (map (Nat.add (Z.to_nat b)) (u :: labels)) with (targets s state) in Hr
    by (unfold targets; by rewrite Hlo, Hbo).
  destruct r as [[reachable' queue']|e]; eexists; (split; [done|]).
  - destruct Hr as (-> & Hm' & [Hts Hnd']). rewrite Hfin. split_and!; try done; [|destruct final; lia].
    split; rewrite ?Hlo; try done; [by eauto|]. intros t Ht. by apply Hts.
  - intros [Hok Hnd']. apply Hr. split; [|done]. intros t Ht.
    pose proof (so_check _ _ Hok t Ht) as Hct. split; [|done].
    apply lookup_lt_Some in Hct. lia.
Qed.

Lemma finals_app s P Q : finals s (P ++ Q) = finals s P + finals s Q.
Proof. unfold finals. by rewrite filter_app, length_app. Qed.

Lemma reach_in_tree s root R a d :
  tree (targets s) root R → a ∈ R → rtc (λ a b, b ∈ targets s a) a d → d ∈ R.
Proof.
  intros Ht Ha Hr. induction Hr as [|a b c Hab _ IH]; [done|].
  apply IH. by eapply tree_closed.
Qed.

Lemma validate_loop_spec k s root fuel P queue reachable count :
  dat_typed k s → same_lengths s →
  frontier (targets s) root P queue → NoDup (P ++ queue) →
  marks (length (d_base s)) reachable (P ++ queue) →
  (∀ d, d ∈ P ++ queue → rtc (λ a b, b ∈ targets s a) root d) →
  (∀ d, d ∈ P → state_ok s d) → count = finals s P →
  length (d_base s) < fuel + length P →
  ∃ r, validate_loop fuel s reachable queue count = Ret r ∧
    match r with
    | Ok (reachable', count') =>
        ∃ R, tree (targets s) root R ∧ (∀ d, d ∈ R → state_ok s d) ∧
          (∀ d, d ∈ R → rtc (λ a b, b ∈ targets s a) root d) ∧
          marks (length (d_base s)) reachable' R ∧ count' = finals s R
    | Err _ => ∀ R, tree (targets s) root R → ¬ (∀ d, d ∈ R → state_ok s d)
    end.
Proof.
  intros Htyped Hlens. revert P queue reachable count.
  induction fuel as [|fuel IH]; intros P queue reachable count Hfr Hnd Hm Hreach Hok Hcount Hfuel.
  { assert (length P ≤ length (d_base s)); [|lia].
    apply NoDup_app in Hnd as (Hnd & _). apply NoDup_below; [done|].
    apply Forall_forall. intros x Hx. eapply marks_bound; [done|]. set_solver. }
  destruct queue as [|d queue]; cbn [validate_loop].
  { eexists. split; [done|]. exists P. rewrite app_nil_r in *. split_and!; try done.
    by apply frontier_done. }
  assert (d < length (d_base s)) as Hd by (eapply marks_bound; [done|set_solver]).
  destruct (validate_state_spec k s d reachable queue count (P ++ d :: queue)) as (r & -> & Hr);
    [done..|]. cbn [mbind option_bind].
  destruct r as [[[reachable' queue'] count']|e].
  - destruct Hr as (Hsok & -> & Hm' & Hnd' & ->).
    assert (((P ++ [d]) ++ queue ++ targets s d) = (P ++ d :: queue) ++ targets s d) as Hshift
      by (by rewrite <-!app_assoc).
    apply (IH (P ++ [d])); rewrite ?Hshift; try done.
    + by apply frontier_step.
    + intros x [Hx|Hx]%elem_of_app; [by apply Hreach|].
      eapply rtc_r; [apply (Hreach d); set_solver|done].
    + intros x [Hx| ->%list_elem_of_singleton]%elem_of_app; auto.
    + by rewrite finals_app, Hcount.
    + rewrite length_app. cbn. lia.
  - eexists. split; [done|]. intros R Htree Hall.
    destruct (frontier_fresh _ root R P d queue Htree Hfr Hnd) as [Hnd' Hsub].
    { intros x Hx. eapply reach_in_tree; [done|by apply tree_root in Htree|by apply Hreach]. }
    apply Hr. split; [|done]. apply Hall, Hsub. set_solver.
Qed.

(** What the last loop demands of the slots from [state] on *)
Definition slot_good (s : DATCoreShared) (reach : bool) (d : nat) : Prop :=
  if reach then ∀ v, d_values s !! d = Some (Some v) → d_final s !! d = Some true
  else slot_empty s d.

Lemma validate_slots_spec s state reachable :
  same_lengths s → state + length reachable = length (d_base s) →
  ∃ r, validate_slots s state reachable = Ret r ∧
    match r with
    | Ok _ => ∀ i b, reachable !! i = Some b → slot_good s b (state + i)
    | Err _ => ¬ ∀ i b, reachable !! i = Some b → slot_good s b (state + i)
    end.
Proof.
  intros Hlens. pose proof Hlens as (Hc & Hf & He & Hv). revert state.
  induction reachable as [|b reachable IH]; intros state Hlen; cbn -[Nat.add].
  { eexists. split; [done|]. intros i b. by rewrite lookup_nil. }
  cbn in Hlen.
  destruct (lookup_lt_is_Some_2 (d_base s) state) as [base Hb]; [lia|].
  destruct (lookup_lt_is_Some_2 (d_check s) state) as [c Hck]; [lia|].
  destruct (lookup_lt_is_Some_2 (d_final s) state) as [final Hfin]; [lia|].
  destruct (lookup_lt_is_Some_2 (d_edges s) state) as [labels Hl]; [lia|].
  destruct (lookup_lt_is_Some_2 (d_values s) state) as [value Hval]; [lia|].
  rewrite Hb, Hck, Hfin, Hl, Hval. cbn [mbind option_bind].
  destruct (IH (S state)) as (r & Hr & Hspec); [lia|].
  assert (slot_good s b state → ∃ r, validate_slots s (S state) reachable = Ret r ∧
    match r with
    | Ok _ => ∀ i b', (b :: reachable) !! i = Some b' → slot_good s b' (state + i)
    | Err _ => ¬ ∀ i b', (b :: reachable) !! i = Some b' → slot_good s b' (state + i)
    end) as Hgood.
  { intros Hg. exists r. split; [done|].
    assert ((∀ i b', (b :: reachable) !! i = Some b' → slot_good s b' (state + i)) ↔
            (∀ i b', reachable !! i = Some b' → slot_good s b' (S state + i))) as Hiff.
    { split; intros H i b' Hi.
      - specialize (H (S i) b' Hi). by rewrite Nat.add_succ_r in H.
      - destruct i as [|i]; [injection Hi as <-; by rewrite Nat.add_0_r|].
        rewrite Nat.add_succ_r. by apply (H i b'). }
    destruct r; by rewrite Hiff. }
  assert (¬ slot_good s b state →
    ¬ ∀ i b', (b :: reachable) !! i = Some b' → slot_good s b' (state + i)) as Hbad.
  { intros Hg H. apply Hg. specialize (H 0 b eq_refl). by rewrite Nat.add_0_r in H. }
  destruct b.
  - destruct (negb final && bool_decide (is_Some value)) eqn:E.
    + eexists. split; [done|]. apply Hbad. intros Hg. apply andb_true_iff in E as [E1 E2].
      apply bool_decide_eq_true_1 in E2 as [v ->]. rewrite (Hg v) in Hfin by done.
      by simplify_eq.
    + apply Hgood. intros v Hv'. rewrite Hval in Hv'. simplify_eq. destruct final; [done|].
      by rewrite bool_decide_eq_true_2 in E by eauto.
  - destruct (_ || _) eqn:E.
    + eexists. split; [done|]. apply Hbad. intros (Hb' & Hc' & Hf' & He' & Hv'). simplify_eq.
    + apply Hgood. rewrite !orb_false_iff in E. destruct E as ((((E1 & E2) & E3) & E4) & E5).
      apply negb_false_iff, Z.eqb_eq in E1 as ->. apply negb_false_iff, Z.eqb_eq in E2 as ->.
      apply negb_false_iff, bool_decide_eq_true_1 in E4 as ->. subst final.
      apply bool_decide_eq_false_1 in E5. apply eq_None_not_Some in E5 as ->.
      by split_and!.
Qed.

Lemma layout_perm s root R R' : dat_layout s root R → dat_layout s root R' → R ≡ₚ R'.
Proof.
  intros H H'. apply NoDup_Permutation; [apply (dl_tree _ _ _ H)|apply (dl_tree _ _ _ H')|].
  intros x. split; intros Hx.
  - apply (dl_reach _ _ _ H) in Hx. pose proof (dl_tree _ _ _ H') as Ht.
    eapply reach_in_tree; [done| |done]. by eapply tree_root.
  - apply (dl_reach _ _ _ H') in Hx. pose proof (dl_tree _ _ _ H) as Ht.
    eapply reach_in_tree; [done| |done]. by eapply tree_root.
Qed.

Lemma finals_perm s R R' : R ≡ₚ R' → finals s R = finals s R'.
Proof. intros H. unfold finals. by rewrite H. Qed.

Lemma slots_layout s root reachable R :
  same_lengths s → (∀ c, d_check s !! root = Some c → (c < 0)%Z ∨ c = Z.of_nat root) →
  tree (targets s) root R → (∀ d, d ∈ R → state_ok s d) →
  (∀ d, d ∈ R → rtc (λ a b, b ∈ targets s a) root d) →
  marks (length (d_base s)) reachable R →
  (dat_layout s root R ↔ ∀ i b, reachable !! i = Some b → slot_good s b i).
Proof.
  intros Hlens Hroot Htree Hok Hreach [Hlen Hm]. split.
  - intros Hl i b Hi. destruct b.
    + apply Hm, Hok in Hi. exact (so_value _ _ Hi).
    + apply (dl_empty _ _ _ Hl); [apply lookup_lt_Some in Hi; lia|].
      intros Hin. apply Hm in Hin. congruence.
  - intros Hs. split; try done. intros d Hd Hout.
    destruct (lookup_lt_is_Some_2 reachable d) as [b Hb]; [lia|].
    destruct b; [by apply Hm in Hb|]. by apply (Hs d false).
Qed.

Lemma validate_layout_spec k s root :
  dat_typed k s →
  ∃ r, validate_layout s root = Ret r ∧
    ∀ n, r = Ok n ↔ ∃ R, dat_layout s root R ∧ n = finals s R.
Proof.
  intros Htyped. unfold validate_layout. set (len := length (d_base s)).
  assert (∀ e : DatValidationError, (∀ R, ¬ dat_layout s root R) →
    ∃ r, Ret (Err e) = Ret r ∧ ∀ n : nat, r = Ok n ↔ ∃ R, dat_layout s root R ∧ n = finals s R) as Hno.
  { intros e H. eexists. split; [done|]. split; [done|]. intros (R & HR & _). by destruct (H R). }
  destruct (negb _) eqn:Hl.
  { apply Hno. intros R []. destruct dl_lens0 as (H1 & H2 & H3 & H4). subst len.
    rewrite H1, H2, H3, H4, !Nat.eqb_refl in Hl. done. }
  apply negb_false_iff in Hl. rewrite !andb_true_iff, !Nat.eqb_eq in Hl.
  assert (same_lengths s) as Hlens by (unfold same_lengths; tauto). clear Hl.
  destruct (Nat.leb_spec len root) as [Hout|Hin].
  { apply Hno. intros R HR. pose proof (dl_state _ _ _ HR root) as Hs.
    destruct Hs; [by apply (tree_root (targets s)), HR|]. lia. }
  destruct (lookup_lt_is_Some_2 (d_check s) root) as [c Hc]; [destruct Hlens; lia|].
  rewrite Hc. cbn [mbind option_bind].
  destruct (Z.ltb_spec i32_MAX (Z.of_nat root)) as [Hbig|Hsmall].
  { apply Hno. intros R HR. pose proof (dl_state _ _ _ HR root) as Hs.
    destruct Hs; [by apply (tree_root (targets s)), HR|]. lia. }
  destruct ((0 <=? c)%Z && negb (c =? Z.of_nat root)%Z) eqn:Hrc.
  { apply Hno. intros R HR. apply andb_true_iff in Hrc as [Hc0 Hc1].
    apply Z.leb_le in Hc0. apply negb_true_iff, Z.eqb_neq in Hc1.
    destruct (dl_root _ _ _ HR c Hc); [lia|done]. }
  assert (∀ c, d_check s !! root = Some c → (c < 0)%Z ∨ c = Z.of_nat root) as Hroot.
  { intros c' Hc'. simplify_eq. apply andb_false_iff in Hrc as [Hc0|Hc1].
    - left. by apply Z.leb_gt in Hc0.
    - right. by apply negb_false_iff, Z.eqb_eq in Hc1. }
  rewrite store_Some by (rewrite length_replicate; lia). cbn [mbind option_bind].
  destruct (validate_loop_spec k s root (S len) [] [root] (<[root := true]> (replicate len false)) 0)
    as (r & -> & Hr); try done.
  { apply frontier_init. }
  { apply NoDup_singleton. }
  { apply (marks_insert _ _ []); [|done]. split; [by rewrite length_replicate|]. intros x.
    split; [intros [? _]%lookup_replicate; done|set_solver]. }
  { intros d ->%list_elem_of_singleton. done. }
  { set_solver. }
  { cbn. lia. }
  cbn [mbind option_bind]. destruct r as [[reachable count]|e].
  2:{ apply Hno. intros R HR. apply (Hr R); apply HR. }
  destruct Hr as (R & Htree & Hok & Hreach & Hm & ->).
  destruct (validate_slots_spec s 0 reachable) as (r & -> & Hs); [done|by destruct Hm|].
  cbn [mbind option_bind].
  pose proof (slots_layout s root reachable R Hlens Hroot Htree Hok Hreach Hm) as Hiff.
  destruct r as [u|e].
  - eexists. split; [done|]. apply Hiff in Hs. intros n. split.
    + intros [= <-]. eauto.
    + intros (R' & HR' & ->). f_equal. apply finals_perm. by eapply layout_perm.
  - apply Hno. intros R' HR'. apply Hs. apply Hiff.
    assert (R' ≡ₚ R) as Hp.
    { apply NoDup_Permutation; [apply HR'|apply Htree|]. intros x. split; intros Hx.
      - apply (dl_reach _ _ _ HR') in Hx. eapply reach_in_tree; [done|by eapply tree_root|done].
      - apply Hreach in Hx. eapply reach_in_tree; [apply HR'|by eapply tree_root, HR'|done]. }
    destruct HR'. split; try done. intros d Hd Hout. apply dl_empty0; [done|]. by rewrite Hp.
Qed.

(** ** Queries on a valid layout *)

Lemma take_drop_sub n m (l : list nat) : take n (drop m l) ⊆ l.
Proof.
  intros x Hx. rewrite <-(take_drop m l). apply elem_of_app. right.
  rewrite <-(take_drop n (drop m l)). apply elem_of_app. by left.
Qed.

Lemma trusted_project_edges_in {T} (project : nat → option T) base labels label child x :
  (label, child, x) ∈ trusted_project_edges project base labels →
  label ∈ labels ∧ child = base + label + 1.
Proof.
  induction labels as [|u labels IH]; cbn; [set_solver|].
  destruct (project u); [intros [[= -> -> ->]|H]%elem_of_cons|intros H]; try (apply IH in H); set_solver.
Qed.

Section layout.
Context (k : unit_kind) (s : DATCoreShared) (root : nat) (R : list nat).
Context (Htyped : dat_typed k s) (Hlay : dat_layout s root R).

Lemma layout_state d : d ∈ R → state_ok s d.
Proof. apply Hlay. Qed.

Lemma layout_lookups d :
  d ∈ R → ∃ b f v, d_base s !! d = Some b ∧ is_i32 b ∧ d_final s !! d = Some f ∧
    d_edges s !! d = Some (labels_of s d) ∧ d_values s !! d = Some v.
Proof.
  intros Hd. pose proof (so_bound _ _ (layout_state d Hd)) as Hb.
  destruct (dl_lens _ _ _ Hlay) as (Hc & Hf & He & Hv).
  destruct (lookup_lt_is_Some_2 (d_base s) d) as [b Hbase]; [lia|].
  destruct (lookup_lt_is_Some_2 (d_final s) d) as [f Hfinal]; [lia|].
  destruct (lookup_lt_is_Some_2 (d_edges s) d) as [labels Hl]; [lia|].
  destruct (lookup_lt_is_Some_2 (d_values s) d) as [v Hval]; [lia|].
  exists b, f, v. split_and!; try done.
  - destruct Htyped as (Hb' & _). by eapply Forall_lookup_1 in Hb'.
  - by rewrite (labels_of_edges _ _ _ Hl).
Qed.

(** The slot whose CHECK names a reachable state is reachable. *)
Lemma layout_check_in d t : d ∈ R → d_check s !! t = Some (Z.of_nat d) → t ∈ R.
Proof.
  intros Hd Ht. destruct (decide (t ∈ R)) as [|Hout]; [done|].
  destruct (dl_empty _ _ _ Hlay t) as (_ & Hc & _); [|done|].
  - apply lookup_lt_Some in Ht. destruct (dl_lens _ _ _ Hlay). lia.
  - rewrite Ht in Hc. injection Hc. lia.
Qed.

(** ... and a child of it, except for a root that is its own parent. *)
Lemma layout_check_target d t :
  d ∈ R → d_check s !! t = Some (Z.of_nat d) → t ∈ targets s d ∨ (t = root ∧ d = root).
Proof.
  intros Hd Ht. pose proof (layout_check_in d t Hd Ht) as Hin.
  destruct (tree_child _ _ _ _ (dl_tree _ _ _ Hlay) Hin) as [->|(d' & Hd' & Ht')].
  - right. split; [done|]. destruct (dl_root _ _ _ Hlay _ Ht); lia.
  - left. pose proof (so_check _ _ (layout_state d' Hd') t Ht') as Hc.
    assert (d' = d) as -> by (rewrite Hc in Ht; injection Ht; lia). done.
Qed.

Lemma layout_target d t :
  d ∈ R → t ∈ targets s d →
  ∃ b u, d_base s !! d = Some b ∧ (0 ≤ b)%Z ∧ is_i32 b ∧ u ∈ labels_of s d ∧ is_label k u ∧
    t = Z.to_nat b + u ∧ d_check s !! t = Some (Z.of_nat d) ∧ t ∈ R.
Proof.
  intros Hd Ht. pose proof (layout_state d Hd) as Hok.
  pose proof (so_check _ _ Hok t Ht) as Hc.
  unfold targets in Ht. apply list_elem_of_fmap in Ht as (u & -> & Hu).
  destruct (so_base _ _ Hok) as (b & Hb & Hpos); [by destruct (labels_of s d); [set_solver|]|].
  rewrite (base_of_Some _ _ _ Hb) in *.
  destruct (layout_lookups d Hd) as (b' & ? & ? & Hb' & Hi & _). simplify_eq.
  exists b, u. split_and!; try done.
  - pose proof (typed_labels k s d Htyped) as Hl. by eapply Forall_forall in Hl.
  - by eapply layout_check_in.
Qed.

Lemma layout_i32 d : d ∈ R → i32 (Z.of_nat d) = Z.of_nat d.
Proof. intros Hd. apply i32_id. pose proof (so_i32 _ _ (layout_state d Hd)). split; lia. Qed.

Lemma layout_checked_child d t :
  d ∈ R → t ∈ targets s d → checked_child s d t = Some (t + 1).
Proof.
  intros Hd Ht. destruct (layout_target d t Hd Ht) as (b & u & _ & _ & _ & _ & _ & _ & Hc & Hin).
  unfold checked_child, traversal_cursor. rewrite Hc, layout_i32, Z.eqb_refl by done.
  pose proof (so_i32 _ _ (layout_state t Hin)).
  destruct (usize_add_small t 1) as [-> _]; [done|lia|]. by rewrite Nat.add_1_r.
Qed.

(** Following a label is following an edge of the state's list. *)
Lemma layout_step d u t :
  (∀ c, d_check s !! root = Some c → (c < 0)%Z) → d ∈ R → is_label k u →
  walk_step s d u = Some t ↔ u ∈ labels_of s d ∧ t = base_of s d + u.
Proof.
  intros Hopen Hd Hu. destruct (layout_lookups d Hd) as (b & f & v & Hb & Hi & _).
  unfold walk_step. rewrite Hb, (base_of_Some _ _ _ Hb).
  destruct (Z.ltb_spec b 0) as [Hneg|Hpos].
  { split; [done|]. intros [Hin _]. destruct (so_base _ _ (layout_state d Hd)) as (b' & ? & ?).
    - by destruct (labels_of s d); [set_solver|].
    - simplify_eq. lia. }
  destruct (usize_add_small (Z.to_nat b) u) as [_ ->]; [destruct Hi; lia|by eapply is_label_bound|].
  rewrite layout_i32 by done. split.
  - destruct (d_check s !! (Z.to_nat b + u)) as [c|] eqn:Hc; [|done].
    destruct (Z.eqb_spec c (Z.of_nat d)) as [->|]; [|done]. intros [= <-]. split; [|done].
    destruct (layout_check_target d _ Hd Hc) as [Ht|[Hr ->]].
    + unfold targets in Ht. apply list_elem_of_fmap in Ht as (u' & Heq & Hu').
      rewrite (base_of_Some _ _ _ Hb) in Heq. by assert (u' = u) as <- by lia.
    + rewrite Hr in Hc. apply Hopen in Hc. lia.
  - intros [Hin ->].
    assert (Z.to_nat b + u ∈ targets s d) as Ht.
    { unfold targets. rewrite (base_of_Some _ _ _ Hb). apply list_elem_of_fmap. eauto. }
    by rewrite (so_check _ _ (layout_state d Hd) _ Ht), Z.eqb_refl.
Qed.

Lemma project_edges_trusted {T} (project : nat → option T) d b labels :
  d ∈ R → d_base s !! d = Some b → (labels ≠ [] → (0 ≤ b)%Z) → labels ⊆ labels_of s d →
  project_edges s project d (Z.to_nat b) labels = trusted_project_edges project (as_usize b) labels.
Proof.
  intros Hd Hb Hpos. induction labels as [|u labels IH]; intros Hsub; [done|].
  assert ((0 ≤ b)%Z) as Hb0 by by apply Hpos.
  destruct (layout_lookups d Hd) as (b' & _ & _ & Hb' & Hi & _).
  rewrite Hb in Hb'. injection Hb' as <-.
  assert (as_usize b = Z.to_nat b) as Has.
  { unfold as_usize. rewrite u64_id; [done|]. destruct Hi. unfold is_u64, i32_MAX in *. lia. }
  assert (Z.to_nat b + u ∈ targets s d) as Ht.
  { unfold targets. rewrite (base_of_Some _ _ _ Hb). apply list_elem_of_fmap. set_solver. }
  assert (is_label k u) as Hu.
  { pose proof (typed_labels k s d Htyped) as Hl. eapply Forall_forall in Hl; [done|set_solver]. }
  cbn [project_edges trusted_project_edges]. rewrite IH by (try done; set_solver).
  destruct (project u); [|done].
  destruct (usize_add_small (Z.to_nat b) u) as [-> _]; [destruct Hi; lia|by eapply is_label_bound|].
  by rewrite (layout_checked_child d), Has.
Qed.

Lemma layout_traversal_state d : d ∈ R → traversal_state s (d + 1) = Some d.
Proof.
  intros Hd. pose proof (so_bound _ _ (layout_state d Hd)).
  destruct (dl_lens _ _ _ Hlay) as (_ & Hf & He & _). unfold traversal_state.
  replace (d + 1 - 1) with d by lia.
  rewrite !(proj2 (Nat.ltb_lt _ _)) by lia. done.
Qed.

End layout.

Section open_layout.
Context (k : unit_kind) (s : DATCoreShared) (root : nat) (R : list nat).
Context (Htyped : dat_typed k s) (Hlay : dat_layout s root R).
Context (Hopen : ∀ c, d_check s !! root = Some c → (c < 0)%Z).

Lemma open_step_target d u t : d ∈ R → is_label k u → walk_step s d u = Some t → t ∈ targets s d.
Proof.
  intros Hd Hu Hs. eapply layout_step in Hs as [Hin ->]; try done.
  apply list_elem_of_fmap. eauto.
Qed.

Lemma open_walk_in d term t : d ∈ R → Forall (is_label k) term → walk s d term = Some t → t ∈ R.
Proof. apply (path_in (targets s) _ (is_label k) root R); [apply Hlay|apply open_step_target]. Qed.

Lemma open_walk_unique t1 t2 d :
  Forall (is_label k) t1 → Forall (is_label k) t2 →
  walk s root t1 = Some d → walk s root t2 = Some d → t1 = t2.
Proof.
  apply (path_unique (targets s) _ (is_label k) root R); [apply Hlay|apply open_step_target|].
  intros x l l' t Hx Hl Hl' Hs Hs'.
  apply (layout_step k s root R Htyped Hlay x l t Hopen) in Hs as [_ ->]; [|done..].
  apply (layout_step k s root R Htyped Hlay x l' _ Hopen) in Hs' as [_ Heq]; [|done..]. lia.
Qed.

(** A path is shorter than the arrays are long. *)
Lemma open_walk_length term d :
  Forall (is_label k) term → walk s root term = Some d → length term < length (d_base s).
Proof.
  intros Hl Hw. pose proof (tree_root _ _ _ (dl_tree _ _ _ Hlay)) as Hroot.
  set (prefix_states := omap (λ i, walk s root (take i term)) (seq 0 (S (length term)))).
  assert (∀ i, ∃ x, walk s root (take i term) = Some x ∧ x ∈ R) as Hpre.
  { intros i. unfold walk in Hw. rewrite <-(take_drop i term), path_app in Hw. fold (walk s) in Hw.
    destruct (walk s root (take i term)) as [x|] eqn:Hx; [|done]. exists x. split; [done|].
    eapply open_walk_in; [exact Hroot| |done]. by apply Forall_take. }
  assert (prefix_states = map (λ i, default 0 (walk s root (take i term))) (seq 0 (S (length term)))) as Heq.
  { unfold prefix_states. induction (seq 0 (S (length term))) as [|i l IH]; [done|]. cbn.
    destruct (Hpre i) as (x & -> & _). cbn. by f_equal. }
  assert (length prefix_states = S (length term)) as Hlen.
  { by rewrite Heq, length_map, length_seq. }
  assert (length prefix_states ≤ length (d_base s)); [|lia].
  apply NoDup_below.
  - rewrite Heq. apply NoDup_fmap_2_strong; [|apply NoDup_seq]. intros i j Hi Hj Hij.
    apply elem_of_seq in Hi, Hj.
    destruct (Hpre i) as (x & Hx & _), (Hpre j) as (y & Hy & _). rewrite Hx, Hy in Hij. cbn in Hij.
    subst y. assert (take i term = take j term) as Ht
      by (eapply open_walk_unique; try done; by apply Forall_take).
    apply (f_equal length) in Ht. rewrite !length_take in Ht. lia.
  - apply Forall_forall. intros x (i & Hi & Hx)%list_elem_of_omap.
    destruct (Hpre i) as (y & Hy & HR). rewrite Hx in Hy. injection Hy as ->.
    by apply so_bound, (dl_state _ _ _ Hlay).
Qed.

Lemma open_key_loop pre r term d remaining units :
  Forall (is_label k) pre → walk s root pre = Some r →
  Forall (is_label k) term → walk s r term = Some d → length term ≤ remaining →
  key_units_loop k s r remaining d units = Some (term ++ rev units).
Proof.
  intros Hpre Hr. pose proof (tree_root _ _ _ (dl_tree _ _ _ Hlay)) as Hroot.
  assert (r ∈ R) as HrR by by apply (open_walk_in root pre).
  revert d remaining units. induction term as [|u term IH] using rev_ind;
    intros d remaining units Hl Hw Hrem.
  { cbn in Hw. simplify_eq. destruct remaining; cbn; by rewrite Nat.eqb_refl. }
  rewrite length_app in Hrem. cbn in Hrem.
  assert (d ≠ r) as Hne.
  { intros ->. assert (pre ++ (term ++ [u]) = pre) as E.
    { eapply open_walk_unique; [by apply Forall_app|done| |done]. unfold walk in *. by rewrite path_app, Hr. }
    apply (f_equal length) in E. rewrite !length_app in E. cbn in E. lia. }
  apply path_snoc in Hw as (p & Hp & Hs). apply Forall_app in Hl as [Hl Hu].
  inversion Hu as [|? ? Hlu _]; subst.
  assert (p ∈ R) as HpR by by apply (open_walk_in r term).
  pose proof (open_step_target p u d HpR Hlu Hs) as Ht.
  eapply layout_step in Hs as [Hin ->]; try done.
  destruct (layout_target k s root R Htyped Hlay p _ HpR Ht)
    as (b & u' & Hb & Hb0 & Hbi & _ & _ & Heq & Hc & _).
  rewrite (base_of_Some _ _ _ Hb) in *.
  destruct remaining as [|remaining]; [lia|]. cbn [key_units_loop].
  rewrite (proj2 (Nat.eqb_neq _ _)) by done. rewrite Hc. cbn [mbind option_bind].
  rewrite usize_try_from_pos by lia. cbn [mbind option_bind].
  rewrite Nat2Z.id, Hb. cbn [mbind option_bind].
  rewrite usize_try_from_pos by lia. cbn [mbind option_bind].
  rewrite (proj2 (Nat.ltb_ge _ _)) by lia.
  replace (Z.to_nat b + u - Z.to_nat b) with u by lia. rewrite Hlu. cbn [mbind option_bind].
  rewrite (IH p) by (try done; lia). rewrite rev_app_distr, <-app_assoc. done.
Qed.

End open_layout.

(** ** Cursors

    A cursor may be used with the trusted operations when it is the root's, or
    came out of one of them. *)

Inductive trusted_cursor (s : DATCoreShared) (root : nat) : nat → Prop :=
| cursor_root c : traversal_cursor root = Some c → trusted_cursor s root c
| cursor_edge c start capacity f n visits label c' :
    trusted_cursor s root c → trusted_edge_page s c start capacity = Ret (Some (f, n, visits)) →
    (label, c', tt) ∈ visits → trusted_cursor s root c'
| cursor_project {T} (project : nat → option T) c f visits label c' x :
    trusted_cursor s root c → trusted_filter_map s c project = Ret (Some (f, visits)) →
    (label, c', x) ∈ visits → trusted_cursor s root c'
| cursor_transition c label c' :
    trusted_cursor s root c → trusted_transition s c label = Ret (Some (Some c')) →
    trusted_cursor s root c'.

Section cursors.
Context (k : unit_kind) (s : DATCoreShared) (root : nat) (R : list nat).
Context (Htyped : dat_typed k s) (Hlay : dat_layout s root R).

Lemma trusted_child d label :
  d ∈ R → label ∈ labels_of s d → ∃ b, d_base s !! d = Some b ∧ as_usize b + label ∈ R.
Proof.
  intros Hd Hl.
  assert (base_of s d + label ∈ targets s d) as Ht by (apply list_elem_of_fmap; eauto).
  destruct (layout_target k s root R Htyped Hlay d _ Hd Ht)
    as (b & u & Hb & Hpos & Hi & _ & _ & _ & _ & Hin).
  exists b. split; [done|]. rewrite (base_of_Some _ _ _ Hb) in Hin.
  unfold as_usize. rewrite u64_id; [done|]. destruct Hi. unfold is_u64, i32_MAX in *. lia.
Qed.

Lemma trusted_cursor_in cursor : trusted_cursor s root cursor → ∃ d, d ∈ R ∧ cursor = d + 1.
Proof.
  pose proof (tree_root _ _ _ (dl_tree _ _ _ Hlay)) as Hroot.
  induction 1 as [c Hc|c start capacity f n visits label c' _ (d & Hd & ->) Hp Hin
                 |T project c f visits label c' x _ (d & Hd & ->) Hp Hin
                 |c label c' _ (d & Hd & ->) Hp].
  - exists root. split; [done|]. unfold traversal_cursor in Hc.
    pose proof (so_i32 _ _ (dl_state _ _ _ Hlay root Hroot)).
    destruct (usize_add_small root 1) as [E _]; [done|lia|]. rewrite E, Nat.add_1_r in Hc.
    cbn in Hc. simplify_eq. lia.
  - unfold trusted_edge_page, trusted_state in Hp. rewrite Nat.add_sub in Hp.
    destruct (layout_lookups k s root R Htyped Hlay d Hd) as (b & f' & v & Hb & _ & Hf & He & _).
    rewrite Hf, He in Hp. cbn [mbind option_bind] in Hp.
    destruct (_ || _); [simplify_eq; set_solver|]. rewrite Hb in Hp. cbn in Hp. simplify_eq.
    apply trusted_project_edges_in in Hin as [Hl ->].
    destruct (trusted_child d label Hd) as (b' & Hb' & HR).
    { by apply take_drop_sub in Hl. }
    simplify_eq. eauto.
  - unfold trusted_filter_map, trusted_state in Hp. rewrite Nat.add_sub in Hp.
    destruct (layout_lookups k s root R Htyped Hlay d Hd) as (b & f' & v & Hb & _ & Hf & He & _).
    rewrite Hf, He in Hp. cbn [mbind option_bind] in Hp.
    destruct (bool_decide _); [simplify_eq; set_solver|]. rewrite Hb in Hp. cbn in Hp. simplify_eq.
    apply trusted_project_edges_in in Hin as [Hl ->].
    destruct (trusted_child d label Hd Hl) as (b' & Hb' & HR). simplify_eq. eauto.
  - unfold trusted_transition, trusted_state in Hp. rewrite Nat.add_sub in Hp.
    destruct (layout_lookups k s root R Htyped Hlay d Hd) as (b & f' & v & Hb & _).
    rewrite Hb in Hp. cbn [mbind option_bind] in Hp. destruct (b <? 0)%Z; [done|].
    destruct (usize_checked_add _ _) as [next|]; [|done].
    unfold checked_child in Hp. destruct (d_check s !! next) as [c|] eqn:Hc; [|done].
    rewrite (layout_i32 s root R Hlay d Hd) in Hp. destruct (Z.eqb_spec c (Z.of_nat d)) as [->|]; [|done].
    pose proof (layout_check_in s root R Hlay d next Hd Hc) as Hin.
    exists next. split; [done|]. unfold traversal_cursor in Hp.
    pose proof (so_i32 _ _ (dl_state _ _ _ Hlay next Hin)).
    destruct (usize_add_small next 1) as [E _]; [done|lia|]. rewrite E, Nat.add_1_r in Hp.
    cbn in Hp. simplify_eq. lia.
Qed.

Lemma trusted_edge_page_checked d start capacity :
  d ∈ R → trusted_edge_page s (d + 1) start capacity =
          visit_traversal_cursor_edge_page s (d + 1) start capacity ∧
          ∃ r, trusted_edge_page s (d + 1) start capacity = Ret (Some r).
Proof.
  intros Hd. unfold trusted_edge_page, visit_traversal_cursor_edge_page, trusted_state.
  rewrite (layout_traversal_state s root R Hlay), Nat.add_sub by done.
  destruct (layout_lookups k s root R Htyped Hlay d Hd) as (b & f & v & Hb & Hi & Hf & He & Hv).
  rewrite Hf, He, Hb. cbn [mbind option_bind].
  pose proof (layout_state s root R Hlay d Hd) as Hok.
  destruct ((length (labels_of s d) <=? start) || (capacity =? 0)) eqn:Hempty.
  { destruct (b <? 0)%Z; cbn [orb]; rewrite ?Hempty; eauto. }
  assert (labels_of s d ≠ []) as Hne.
  { intros E. rewrite E in Hempty. done. }
  destruct (so_base _ _ Hok Hne) as (b' & ? & Hpos). simplify_eq.
  rewrite (proj2 (Z.ltb_ge _ _)) by lia. cbn [orb]. rewrite Hempty. split; [|eauto].
  do 3 f_equal. symmetry. apply (project_edges_trusted k s root R Htyped Hlay); [done..|].
  apply take_drop_sub.
Qed.

Lemma trusted_filter_map_checked {T} (project : nat → option T) d :
  d ∈ R → trusted_filter_map s (d + 1) project = filter_map_traversal_cursor s (d + 1) project ∧
          ∃ r, trusted_filter_map s (d + 1) project = Ret (Some r).
Proof.
  intros Hd. unfold trusted_filter_map, filter_map_traversal_cursor, trusted_state.
  rewrite (layout_traversal_state s root R Hlay), Nat.add_sub by done.
  destruct (layout_lookups k s root R Htyped Hlay d Hd) as (b & f & v & Hb & Hi & Hf & He & Hv).
  rewrite Hf, He, Hb. cbn [mbind option_bind].
  pose proof (layout_state s root R Hlay d Hd) as Hok. case_bool_decide as Hne.
  { rewrite Hne. split; [by destruct (b <? 0)%Z|eauto]. }
  destruct (so_base _ _ Hok Hne) as (b' & ? & Hpos). simplify_eq.
  rewrite (proj2 (Z.ltb_ge _ _)) by lia. split; [|eauto].
  do 3 f_equal. symmetry. by apply (project_edges_trusted k s root R Htyped Hlay).
Qed.

Lemma trusted_reads_checked d label :
  d ∈ R →
  (trusted_is_final s (d + 1) = Ret (traversal_cursor_is_final s (d + 1)) ∧
     is_Some (traversal_cursor_is_final s (d + 1))) ∧
  (trusted_transition s (d + 1) label = traversal_cursor_transition s (d + 1) label ∧
     ∃ r, trusted_transition s (d + 1) label = Ret (Some r)) ∧
  (trusted_value s (d + 1) = Ret (traversal_cursor_value s (d + 1)) ∧
     is_Some (traversal_cursor_value s (d + 1))).
Proof.
  intros Hd. unfold trusted_is_final, traversal_cursor_is_final, trusted_transition,
    traversal_cursor_transition, trusted_value, traversal_cursor_value, trusted_state.
  rewrite (layout_traversal_state s root R Hlay), Nat.add_sub by done.
  destruct (layout_lookups k s root R Htyped Hlay d Hd) as (b & f & v & Hb & Hi & Hf & He & Hv).
  rewrite Hf, Hv, Hb. cbn [mbind option_bind]. split_and!; eauto.
  destruct (b <? 0)%Z; [eauto|]. destruct (usize_checked_add _ _); eauto.
Qed.

End cursors.
End dat.
Arguments DATCoreShared V : clear implicits.

(** A byte layout with the one term [0], and its root at 1 *)
Definition example_layout : DATCoreShared nat :=
  mkDat [-1; 2; -1]%Z [-1; -1; 1]%Z [false; false; true] [[]; [0]; []] [None; None; Some 7].

Lemma example_typed : dat_typed ByteUnit example_layout.
Proof. repeat constructor; by vm_compute. Qed.

(** C21: the validator accepts exactly the valid layouts.  On any arrays of the
    field types it returns without an index panic; it returns [Ok n] if and only
    if the states reachable from the root form a tree of well-formed states whose
    edges agree with BASE and CHECK, with [n] final states, and every other slot
    is empty. *)
Theorem validator_exact {V} k (s : DATCoreShared V) root :
  dat_typed k s →
  ∃ r, validate_layout s root = Ret r ∧
    ∀ n, r = Ok n ↔ ∃ R, dat_layout s root R ∧ n = finals s R.
Proof. apply validate_layout_spec. Qed.

Lemma validator_exact_witness :
  ∃ r, validate_layout example_layout 1 = Ret r ∧
    ∀ n, r = Ok n ↔ ∃ R, dat_layout example_layout 1 R ∧ n = finals example_layout R.
Proof. apply (validator_exact ByteUnit example_layout 1). apply example_typed. Defined.

(** C20: the unchecked cursor operations are safe on a sealed layout.  For an
    untrusted layout that was sealed and a cursor that comes from its root by the
    trusted operations, none of them reads out of range, and each returns what
    the bounds-checked operation returns. *)
Theorem trusted_cursors_safe {V} k (s : DATCoreShared V) root declared n cursor :
  dat_typed k s → try_from_untrusted root s declared = Ret (Ok (s, n)) →
  trusted_cursor s root cursor →
  (trusted_is_final s cursor = Ret (traversal_cursor_is_final s cursor) ∧
     is_Some (traversal_cursor_is_final s cursor)) ∧
  (trusted_value s cursor = Ret (traversal_cursor_value s cursor) ∧
     is_Some (traversal_cursor_value s cursor)) ∧
  (∀ label, trusted_transition s cursor label = traversal_cursor_transition s cursor label ∧
     ∃ r, trusted_transition s cursor label = Ret (Some r)) ∧
  (∀ start capacity,
     trusted_edge_page s cursor start capacity =
       visit_traversal_cursor_edge_page s cursor start capacity ∧
     ∃ r, trusted_edge_page s cursor start capacity = Ret (Some r)) ∧
  (∀ T (project : nat → option T),
     trusted_filter_map s cursor project = filter_map_traversal_cursor s cursor project ∧
     ∃ r, trusted_filter_map s cursor project = Ret (Some r)).
Proof.
  intros Htyped Hseal Hcur.
  destruct (validate_layout_spec k s root Htyped) as (r & Hr & Hiff).
  unfold try_from_untrusted in Hseal. rewrite Hr in Hseal. cbn [mbind option_bind] in Hseal.
  destruct r as [m|e]; [|done]. destruct (proj1 (Hiff m) eq_refl) as (R & Hlay & _).
  destruct (trusted_cursor_in k s root R Htyped Hlay cursor Hcur) as (d & Hd & ->).
  split_and!; try apply (trusted_reads_checked k s root R Htyped Hlay d 0 Hd).
  - intros label. apply (trusted_reads_checked k s root R Htyped Hlay d label Hd).
  - intros. by apply (trusted_edge_page_checked k s root R Htyped Hlay).
  - intros. by apply (trusted_filter_map_checked k s root R Htyped Hlay).
Qed.

Lemma trusted_cursors_safe_witness :
  let s := example_layout in
  trusted_transition s 2 0 = traversal_cursor_transition s 2 0 ∧
  ∃ r, trusted_transition s 2 0 = Ret (Some r).
Proof.
  intros s. apply (trusted_cursors_safe ByteUnit s 1 1 1 2).
  - apply example_typed.
  - by vm_compute.
  - apply cursor_root. by vm_compute.
Defined.

(** The key of a cursor can be read back from CHECK.  In a valid layout whose
    root has no parent, the state reached from [r] by [term] gives [term] when it
    is walked up to [r], where [r] is itself reachable. *)
Theorem key_units_roundtrip {V} k (s : DATCoreShared V) root n pre r term d :
  dat_typed k s → validate_layout s root = Ret (Ok n) →
  (∀ c, d_check s !! root = Some c → (c < 0)%Z) →
  Forall (is_label k) pre → walk s root pre = Some r →
  Forall (is_label k) term → walk s r term = Some d →
  traversal_cursor_key_units k s (d + 1) r = Some term.
Proof.
  intros Htyped Hval Hopen Hpre Hr Hterm Hd.
  destruct (validate_layout_spec k s root Htyped) as (res & Hres & Hiff).
  rewrite Hval in Hres. injection Hres as <-.
  destruct (proj1 (Hiff n) eq_refl) as (R & Hlay & _).
  unfold traversal_cursor_key_units, trusted_state. rewrite Nat.add_sub.
  rewrite (open_key_loop k s root R Htyped Hlay Hopen pre r term d); try done;
    [by rewrite app_nil_r|].
  pose proof (open_walk_length k s root R Htyped Hlay Hopen (pre ++ term) d) as Hlen.
  unfold walk in *. rewrite length_app, Forall_app, path_app, Hr in Hlen. specialize (Hlen (conj Hpre Hterm) Hd). lia.
Qed.

Lemma key_units_roundtrip_witness :
  traversal_cursor_key_units ByteUnit example_layout 3 1 = Some [0].
Proof.
  apply (key_units_roundtrip ByteUnit example_layout 1 1 [] 1 [0] 2).
  - apply example_typed.
  - by vm_compute.
  - intros c [= <-]. done.
  - constructor.
  - done.
  - repeat constructor.
  - by vm_compute.
Defined.

(** The validator lets a root loop through.  It accepts a CHECK entry of the
    root that names the root, as in the layout of an empty character dictionary.
    Where BASE of the root does not exceed the root, the root then follows a
    label to itself: this accepted layout has the empty term as its only entry,
    and lookup finds every string of U+0000. *)
Theorem validated_root_loop :
  let s : DATCoreShared unit := mkDat [0%Z] [0%Z] [true] [[]] [None] in
  validate_layout s 0 = Ret (Ok 1) ∧ ∀ n, contains_term_from s (replicate n 0) 0 = true.
Proof.
  split; [by vm_compute|]. intros n. unfold contains_term_from.
  assert (walk (mkDat [0%Z] [0%Z] [true] [[]] [@None unit]) 0 (replicate n 0) = Some 0) as ->
    by (induction n; [done|]; done). done.
Qed.
