(* ===== verification/DatBuilder.v ===== *)
(** * The static double-array builder

    [StaticDATBuilder] of src/src/double_array_trie/core/builder.rs: terms are
    collected in an ordinary trie, then [build] gives every set of siblings one
    collision-free BASE.  The byte dictionary roots the result at state 1 and the
    character dictionary at state 0. *)

From stdpp Require Import prelude gmap sets sorting.
From S2P Require Import Prelude Edges Tree DatShared.

Section builder.
Context {V : Type}.

Record TrieNode := mkTrieNode {
  tn_edges : list (nat * nat);
  tn_final : bool;
  tn_value : option V;
}.

Definition TrieNode_new : TrieNode := mkTrieNode [] false None.

Record StaticDATBuilder := mkBuilder { b_nodes : list TrieNode; b_term_count : nat }.

Definition StaticDATBuilder_new : StaticDATBuilder := mkBuilder [TrieNode_new] 0.

(** ** Collecting terms *)

(** The loop body of [insert] *)
Definition insert_label (acc : list TrieNode * nat) (label : nat) : exec (list TrieNode * nat) :=
  let '(nodes, state) := acc in
  node ← nodes !! state;
  match search_edge label (tn_edges node) with
  | Ok index => e ← tn_edges node !! index; Ret (nodes, snd e)
  | Err index =>
      let child := length nodes in
      let nodes := nodes ++ [TrieNode_new] in
      edges ← vec_insert (tn_edges node) index (label, child);
      nodes ← store nodes state (mkTrieNode edges (tn_final node) (tn_value node));
      Ret (nodes, child)
  end.

Definition StaticDATBuilder_insert (b : StaticDATBuilder) (term : list nat) (value : option V) :
    exec (bool * StaticDATBuilder) :=
  acc ← foldM insert_label (b_nodes b, 0) term;
  let '(nodes, state) := acc in
  node ← nodes !! state;
  let inserted := negb (tn_final node) in
  let count := if inserted then S (b_term_count b) else b_term_count b in
  let value := if bool_decide (is_Some value) || inserted then value else tn_value node in
  nodes ← store nodes state (mkTrieNode (tn_edges node) (tn_final node || inserted) value);
  Ret (inserted, mkBuilder nodes count).

(** ** Placing the trie *)

Definition ensure_len (len : nat) (s : DATCoreShared V) (occupied : list bool) :
    DATCoreShared V * list bool :=
  if len <=? length (d_base s) then (s, occupied)
  else
    (mkDat (resize len (-1)%Z (d_base s)) (resize len (-1)%Z (d_check s))
       (resize len false (d_final s)) (resize len [] (d_edges s)) (resize len None (d_values s)),
     resize len false occupied).

(** [while next_check_pos < occupied.len() && occupied[next_check_pos] { next_check_pos += 1 }] *)
Fixpoint skip_occupied (fuel : nat) (occupied : list bool) (pos : nat) : nat :=
  match fuel with
  | O => pos
  | S fuel =>
      match occupied !! pos with
      | Some true => skip_occupied fuel occupied (S pos)
      | _ => pos
      end
  end.

(** [slot >= occupied.len() || !occupied[slot]] for every label *)
Definition all_free (occupied : list bool) (candidate : nat) (labels : list nat) : bool :=
  forallb (λ label, negb (default false (occupied !! (candidate + label)))) labels.

(** The [loop] that finds a BASE; it returns the base and [next_check_pos]. *)
Fixpoint find_base (fuel : nat) (occupied : list bool) (labels : list nat) (first_code : nat)
    (max_base : Z) (next_check_pos : nat) : exec (nat * nat) :=
  match fuel with
  | O => Panic
  | S fuel =>
      let first_slot := Nat.max next_check_pos (first_code + 1) in
      let next_check_pos := skip_occupied (length occupied) occupied first_slot in
      let candidate := next_check_pos - first_code in
      if (max_base <? Z.of_nat candidate)%Z then Panic
      else if all_free occupied candidate labels then Ret (candidate, next_check_pos)
      else find_base fuel occupied labels first_code max_base (S next_check_pos)
  end.

(** The loop body over the children of a state *)
Definition place_child (candidate_base dat_state : nat)
    (acc : DATCoreShared V * list bool * list (nat * nat)) (edge : nat * nat) :
    exec (DATCoreShared V * list bool * list (nat * nat)) :=
  let '(s, occupied, queue) := acc in
  let '(label, child_trie_state) := edge in
  let child_dat_state := candidate_base + label in
  let '(s, occupied) := ensure_len (child_dat_state + 1) s occupied in
  occupied ← store occupied child_dat_state true;
  check ← store (d_check s) child_dat_state (Z.of_nat dat_state);
  labels ← d_edges s !! dat_state;
  edges ← store (d_edges s) dat_state (labels ++ [label]);
  Ret (mkDat (d_base s) check (d_final s) edges (d_values s), occupied,
       queue ++ [(child_trie_state, child_dat_state)]).

(** One round of the [while let Some(..) = queue.pop_front()] loop *)
Definition build_state (nodes : list TrieNode) (s : DATCoreShared V) (occupied : list bool)
    (queue : list (nat * nat)) (next_check_pos trie_state dat_state : nat) :
    exec (list TrieNode * DATCoreShared V * list bool * list (nat * nat) * nat) :=
  node ← nodes !! trie_state;
  is_final ← store (d_final s) dat_state (tn_final node);
  values ← store (d_values s) dat_state (tn_value node);
  nodes ← store nodes trie_state (mkTrieNode (tn_edges node) (tn_final node) None);
  let s := mkDat (d_base s) (d_check s) is_final (d_edges s) values in
  match tn_edges node with
  | [] => Ret (nodes, s, occupied, queue, next_check_pos)
  | (first_code, _) :: _ =>
      last_edge ← last (tn_edges node);
      let max_base := (i32_MAX - Z.of_nat (fst last_edge))%Z in
      if (max_base <? 0)%Z then Panic
      else
        found ← find_base (S (length occupied)) occupied (tn_edges node).*1 first_code max_base
                  next_check_pos;
        let '(candidate_base, next_check_pos) := found in
        base ← store (d_base s) dat_state (Z.of_nat candidate_base);
        if (i32_MAX <? Z.of_nat dat_state)%Z then Panic
        else
          let s := mkDat base (d_check s) (d_final s) (d_edges s) (d_values s) in
          acc ← foldM (place_child candidate_base dat_state) (s, occupied, queue) (tn_edges node);
          let '(s, occupied, queue) := acc in
          Ret (nodes, s, occupied, queue, next_check_pos)
  end.

Fixpoint build_loop (fuel : nat) (nodes : list TrieNode) (s : DATCoreShared V)
    (occupied : list bool) (queue : list (nat * nat)) (next_check_pos : nat) :
    exec (DATCoreShared V) :=
  match fuel, queue with
  | _, [] => Ret s
  | O, _ => Panic
  | S fuel, (trie_state, dat_state) :: queue =>
      acc ← build_state nodes s occupied queue next_check_pos trie_state dat_state;
      let '(nodes, s, occupied, queue, next_check_pos) := acc in
      build_loop fuel nodes s occupied queue next_check_pos
  end.

(** [StaticDATComponents] is the arrays and the term count. *)
Definition StaticDATBuilder_build (b : StaticDATBuilder) (root_state : nat) :
    exec (DATCoreShared V * nat) :=
  let initial_len := root_state + 1 in
  let s := mkDat (replicate initial_len (-1)%Z) (replicate initial_len (-1)%Z)
             (replicate initial_len false) (replicate initial_len []) (replicate initial_len None) in
  s ← build_loop (S (length (b_nodes b))) (b_nodes b) s (replicate initial_len true)
        [(0, root_state)] (root_state + 1);
  Ret (s, b_term_count b).

(** ** The trie *)

Definition edges_at (ns : list TrieNode) (t : nat) : list (nat * nat) :=
  match ns !! t with Some n => tn_edges n | None => [] end.

Definition child (ns : list TrieNode) (t label : nat) : option nat := edge_get label (edges_at ns t).

Definition childs (ns : list TrieNode) (t : nat) : list nat := (edges_at ns t).*2.

Definition trie_get (ns : list TrieNode) (term : list nat) : option (option V) :=
  t ← path (child ns) 0 term; n ← ns !! t; if tn_final n then Some (tn_value n) else None.

Definition trie_finals (ns : list TrieNode) : nat := length (filter (λ n, tn_final n = true) ns).

Definition node_ok (lab : nat → Prop) (n : TrieNode) : Prop :=
  StronglySorted lt (tn_edges n).*1 ∧ Forall lab (tn_edges n).*1 ∧
  (tn_final n = false → tn_value n = None).

Record trie_ok (lab : nat → Prop) (ns : list TrieNode) : Prop := {
  to_nodes : Forall (node_ok lab) ns;
  to_tree : tree (childs ns) 0 (seq 0 (length ns));
  to_order : ∀ t c, c ∈ childs ns t → t < c;
}.

Lemma edges_at_grow ns s n' t :
  s < length ns →
  edges_at (<[s := n']> (ns ++ [TrieNode_new])) t = if decide (t = s) then tn_edges n' else edges_at ns t.
Proof.
  intros Hs. unfold edges_at. case_decide as Ht.
  - subst t. rewrite list_lookup_insert_eq by (rewrite length_app; lia). done.
  - rewrite list_lookup_insert_ne by done.
    destruct (decide (t < length ns)).
    + by rewrite lookup_app_l.
    + rewrite lookup_app_r by lia. rewrite (lookup_ge_None_2 ns) by lia.
      destruct (t - length ns) as [|j] eqn:E; [done|]. by rewrite lookup_ge_None_2 by (cbn; lia).
Qed.

Lemma edges_at_set ns s n n' t :
  ns !! s = Some n → tn_edges n' = tn_edges n → edges_at (<[s := n']> ns) t = edges_at ns t.
Proof.
  intros Hs He. unfold edges_at. destruct (decide (t = s)) as [->|].
  - rewrite list_lookup_insert_eq by (by eapply lookup_lt_Some). by rewrite Hs.
  - by rewrite list_lookup_insert_ne.
Qed.

Lemma bind_add (ch ch' : nat → list nat) (R : list nat) s c :
  NoDup R → s ∈ R → (∀ x, x ∈ R → x ≠ s → ch' x = ch x) → ch' s ≡ₚ c :: ch s →
  R ≫= ch' ≡ₚ c :: (R ≫= ch).
Proof.
  intros Hnd Hs Hother Hchs. induction R as [|x R IH]; [set_solver|].
  apply NoDup_cons in Hnd as [Hx Hnd]. cbn.
  destruct (decide (x = s)) as [->|Hne].
  - assert (R ≫= ch' = R ≫= ch) as ->.
    { clear IH Hs Hnd. induction R as [|y R IH]; [done|]. cbn. rewrite Hother by set_solver.
      f_equal. apply IH; set_solver. }
    rewrite Hchs. done.
  - rewrite Hother by set_solver. rewrite IH by set_solver. by rewrite Permutation_middle.
Qed.

Lemma edge_in_childs ns t l c : (l, c) ∈ edges_at ns t → c ∈ childs ns t.
Proof. intros H. apply list_elem_of_fmap. by exists (l, c). Qed.

Lemma child_in_childs ns t l c : child ns t l = Some c → c ∈ childs ns t.
Proof. intros H%edge_get_in. by eapply edge_in_childs. Qed.

Lemma trie_child_bound lab ns t c : trie_ok lab ns → c ∈ childs ns t → c < length ns.
Proof.
  intros Hok Hc. assert (t < length ns) as Ht.
  { unfold childs, edges_at in Hc. destruct (ns !! t) eqn:E; [by eapply lookup_lt_Some|set_solver]. }
  assert (c ∈ seq 0 (length ns)) as Hin
    by (eapply tree_closed; [apply (to_tree _ _ Hok)|apply elem_of_seq|done]; lia).
  apply elem_of_seq in Hin. lia.
Qed.

Lemma edges_at_ok lab ns t :
  trie_ok lab ns → StronglySorted lt (edges_at ns t).*1 ∧ Forall lab (edges_at ns t).*1.
Proof.
  intros Hok. unfold edges_at. destruct (ns !! t) as [n|] eqn:E; [|split; constructor].
  destruct (Forall_lookup_1 _ _ _ _ (to_nodes _ _ Hok) E) as (? & ? & _). done.
Qed.

(** What a step of the insertion keeps: edges, flags and values; new nodes are
    empty. *)
Record extends (ns ns' : list TrieNode) : Prop := {
  ex_len : length ns ≤ length ns';
  ex_child : ∀ t l c, child ns t l = Some c → child ns' t l = Some c;
  ex_new : ∀ t l c, child ns' t l = Some c → child ns t l = Some c ∨ length ns ≤ c;
  ex_node : ∀ t n, ns !! t = Some n → ∃ n', ns' !! t = Some n' ∧
    tn_final n' = tn_final n ∧ tn_value n' = tn_value n;
  ex_empty : ∀ t n', ns' !! t = Some n' → length ns ≤ t → tn_final n' = false;
  ex_finals : trie_finals ns' = trie_finals ns;
}.

Lemma extends_refl ns : extends ns ns.
Proof.
  split; try done; [by left|eauto|]. intros t n Ht ?. apply lookup_lt_Some in Ht. lia.
Qed.

Lemma extends_trans ns1 ns2 ns3 : extends ns1 ns2 → extends ns2 ns3 → extends ns1 ns3.
Proof.
  intros [L1 C1 N1 D1 E1 F1] [L2 C2 N2 D2 E2 F2]. split; [lia|auto| | | |congruence].
  - intros t l c [?|?]%N2; [|right; lia]. eauto.
  - intros t n (n' & Hn' & ? & ?)%D1. destruct (D2 _ _ Hn') as (n'' & ? & ? & ?).
    exists n''. split_and!; [done|congruence..].
  - intros t n' Ht Hge. destruct (decide (length ns2 ≤ t)); [eauto|].
    destruct (lookup_lt_is_Some_2 ns2 t) as [m Hm]; [lia|].
    destruct (D2 _ _ Hm) as (m' & ? & Hf & _). simplify_eq. rewrite Hf. eauto.
Qed.

Lemma trie_finals_set ns t n n' :
  ns !! t = Some n →
  trie_finals (<[t := n']> ns) + (if tn_final n then 1 else 0) =
  trie_finals ns + (if tn_final n' then 1 else 0).
Proof.
  intros Ht. unfold trie_finals. pose proof (lookup_lt_Some _ _ _ Ht).
  rewrite insert_take_drop by done. rewrite <-(take_drop_middle ns t n Ht) at 3.
  rewrite !filter_app, !filter_cons, !length_app.
  destruct (tn_final n), (tn_final n'); repeat case_decide; try done; cbn; lia.
Qed.

Lemma insert_label_ok lab ns s label :
  trie_ok lab ns → s < length ns → lab label →
  ∃ ns' c, insert_label (ns, s) label = Ret (ns', c) ∧ trie_ok lab ns' ∧ extends ns ns' ∧
    c < length ns' ∧ child ns' s label = Some c.
Proof.
  intros Hok Hs Hlab. destruct (lookup_lt_is_Some_2 ns s Hs) as [n Hn]. unfold insert_label.
  rewrite Hn. cbn [mbind option_bind].
  pose proof (Forall_lookup_1 _ _ _ _ (to_nodes _ _ Hok) Hn) as (Hsort & Hlabs & Hval).
  assert (edges_at ns s = tn_edges n) as Hat by (unfold edges_at; by rewrite Hn).
  pose proof (search_edge_spec label (tn_edges n) Hsort) as Hsearch.
  destruct (search_edge label (tn_edges n)) as [i|i].
  { destruct Hsearch as (c & Hi & Hget). rewrite Hi. cbn [mbind option_bind snd].
    exists ns, c. split_and!; [done|done|apply extends_refl| |by unfold child; rewrite Hat].
    apply (trie_child_bound lab ns s); [done|]. eapply child_in_childs. unfold child. by rewrite Hat. }
  destruct Hsearch as (Hi & Hnone & Hlt & Hgt). unfold vec_insert. rewrite decide_True by done.
  cbn [mbind option_bind]. rewrite store_Some by (rewrite length_app; lia). cbn [mbind option_bind].
  set (edges' := take i (tn_edges n) ++ (label, length ns) :: drop i (tn_edges n)).
  set (n' := mkTrieNode edges' (tn_final n) (tn_value n)).
  set (ns' := <[s := n']> (ns ++ [TrieNode_new])).
  assert (length ns' = S (length ns)) as Hlen by (unfold ns'; rewrite length_insert, length_app; cbn; lia).
  assert (∀ t l, child ns' t l = if decide (t = s ∧ l = label) then Some (length ns) else child ns t l) as Hchild.
  { intros t l. unfold child, ns'. rewrite edges_at_grow by done. case_decide as Ht.
    - subst t. cbn [tn_edges n']. unfold edges'. rewrite edge_get_insert_at, Hat by done.
      destruct (Nat.eqb_spec l label); [by rewrite decide_True|by rewrite decide_False by tauto].
    - by rewrite decide_False by tauto. }
  exists ns', (length ns). split_and!; [done| | |lia|by rewrite Hchild, decide_True].
  - split.
    + unfold ns'. apply Forall_insert; [apply Forall_app; split; [apply Hok|]|].
      * repeat constructor.
      * unfold node_ok, n'. cbn [tn_edges tn_final tn_value].
        split_and!; [by apply sorted_insert_at| |done].
        unfold edges'. rewrite fmap_app, fmap_cons. rewrite <-(take_drop i (tn_edges n)), fmap_app in Hlabs.
        apply Forall_app in Hlabs as [? ?]. apply Forall_app. split; [done|by constructor].
    + rewrite Hlen, seq_S. cbn [Nat.add]. destruct (to_tree _ _ Hok) as [Hnd Hperm].
      split; [rewrite <-seq_S; apply NoDup_seq|]. rewrite bind_app. cbn.
      assert (childs ns' (length ns) = []) as ->.
      { unfold childs, ns'. rewrite edges_at_grow, decide_False by lia.
        unfold edges_at. by rewrite lookup_ge_None_2. }
      rewrite app_nil_r, (bind_add (childs ns) _ _ s (length ns)); [| |apply elem_of_seq; lia| |].
      * rewrite Permutation_app_comm. cbn. rewrite Hperm at 1. apply Permutation_swap.
      * apply NoDup_seq.
      * intros x _ Hx. unfold childs, ns'. by rewrite edges_at_grow, decide_False.
      * unfold childs, ns'. rewrite edges_at_grow, decide_True by done. cbn [tn_edges n'].
        unfold edges'. rewrite fmap_app, Hat. cbn. rewrite <-Permutation_middle, <-fmap_app, take_drop. done.
    + intros t c. unfold childs, ns'. rewrite edges_at_grow by done. case_decide as Ht.
      * subst t. cbn [tn_edges n']. unfold edges'. rewrite fmap_app. cbn.
        rewrite <-Permutation_middle, <-fmap_app, take_drop, <-Hat.
        intros [->|Hc]%elem_of_cons; [lia|by apply (to_order _ _ Hok)].
      * apply (to_order _ _ Hok).
  - split.
    + lia.
    + intros t l c Hc. rewrite Hchild. case_decide as E; [|done]. destruct E as [-> ->].
      unfold child in Hc. rewrite Hat in Hc. congruence.
    + intros t l c. rewrite Hchild. case_decide; [intros [= <-]; by right|by left].
    + intros t m Ht. unfold ns'. destruct (decide (t = s)) as [->|].
      * rewrite list_lookup_insert_eq by (rewrite length_app; lia). simplify_eq. eauto.
      * rewrite list_lookup_insert_ne, lookup_app_l by (try done; by eapply lookup_lt_Some). eauto.
    + intros t m Ht Hge. unfold ns' in Ht. rewrite list_lookup_insert_ne, lookup_app_r in Ht by lia.
      by apply list_lookup_singleton_Some in Ht as [_ <-].
    + assert (trie_finals (ns ++ [TrieNode_new]) = trie_finals ns) as Happ.
      { unfold trie_finals. rewrite filter_app, filter_cons, decide_False by done.
        rewrite filter_nil, app_nil_r. done. }
      pose proof (trie_finals_set (ns ++ [TrieNode_new]) s n n') as Hset.
      rewrite lookup_app_l, Happ in Hset by done. specialize (Hset Hn). cbn in Hset. fold ns' in Hset. lia.
Qed.

Lemma insert_label_length ns s label ns' c :
  insert_label (ns, s) label = Ret (ns', c) → length ns' ≤ S (length ns).
Proof.
  unfold insert_label. destruct (ns !! s) as [n|]; cbn [mbind option_bind]; [|done].
  destruct (search_edge label (tn_edges n)) as [i|i].
  - destruct (tn_edges n !! i); cbn; [|done]. intros [= <- _]. lia.
  - destruct (vec_insert _ _ _); cbn [mbind option_bind]; [|done].
    destruct (store _ _ _) eqn:E; cbn [mbind option_bind]; [|done]. intros [= <- _].
    apply store_inv in E as [_ ->]. rewrite length_insert, length_app. cbn. lia.
Qed.

Lemma extends_path ns ns' s term t :
  extends ns ns' → path (child ns) s term = Some t → path (child ns') s term = Some t.
Proof.
  intros Hex. revert s. induction term as [|l term IH]; intros s; cbn; [done|].
  destruct (child ns s l) as [c|] eqn:Hc; [|done]. rewrite (ex_child _ _ Hex _ _ _ Hc). apply IH.
Qed.

Lemma extends_path_new ns ns' s term t :
  extends ns ns' → path (child ns') s term = Some t →
  path (child ns) s term = Some t ∨ length ns ≤ t.
Proof.
  intros Hex. revert t. induction term as [|l term IH] using rev_ind; intros t; [by left|].
  intros (p & Hp & Hc)%path_snoc.
  destruct (ex_new _ _ Hex _ _ _ Hc) as [Hold|]; [|by right].
  destruct (IH p Hp) as [Hpath|Hge]; [left; apply path_snoc; eauto|].
  unfold child, edges_at in Hold. by rewrite lookup_ge_None_2 in Hold.
Qed.

Lemma trie_path_bound lab ns term t :
  trie_ok lab ns → path (child ns) 0 term = Some t → t < length ns.
Proof.
  intros Hok Hp. destruct term as [|l term _] using rev_ind.
  - cbn in Hp. injection Hp as <-. destruct (to_tree _ _ Hok) as [_ Hperm].
    apply Permutation_length in Hperm. rewrite length_seq in Hperm. cbn in Hperm. lia.
  - apply path_snoc in Hp as (p & _ & Hc). eapply trie_child_bound; [done|].
    by eapply child_in_childs.
Qed.

Lemma trie_get_extends lab ns ns' term :
  trie_ok lab ns → extends ns ns' → trie_get ns' term = trie_get ns term.
Proof.
  intros Hok Hex. unfold trie_get.
  destruct (path (child ns) 0 term) as [t|] eqn:Hp.
  - rewrite (extends_path _ _ _ _ _ Hex Hp). cbn.
    destruct (lookup_lt_is_Some_2 ns t) as [n Hn]; [by eapply trie_path_bound|].
    destruct (ex_node _ _ Hex _ _ Hn) as (n' & Hn' & Hf & Hv). rewrite Hn, Hn'. cbn.
    by rewrite Hf, Hv.
  - destruct (path (child ns') 0 term) as [t|] eqn:Hp'; [|done]. cbn.
    destruct (extends_path_new _ _ _ _ _ Hex Hp') as [|Hge]; [congruence|].
    destruct (ns' !! t) as [n'|] eqn:Hn'; [|done]. cbn.
    by rewrite (ex_empty _ _ Hex _ _ Hn' Hge).
Qed.

Lemma tree_childs_NoDup {A} (ch : A → list A) root R d : tree ch root R → d ∈ R → NoDup (ch d).
Proof.
  intros [Hnd Hperm] Hd. rewrite Hperm in Hnd. apply NoDup_cons in Hnd as [_ Hnd]. clear Hperm.
  induction R as [|x R IH]; [set_solver|]. cbn in Hnd. apply NoDup_app in Hnd as (? & _ & ?).
  apply elem_of_cons in Hd as [->|?]; auto.
Qed.

Lemma NoDup_snd_inj (l : list (nat * nat)) a b c :
  NoDup l.*2 → (a, c) ∈ l → (b, c) ∈ l → a = b.
Proof.
  induction l as [|[x y] l IH]; [set_solver|]. cbn. intros [Hy Hnd]%NoDup_cons Ha Hb.
  apply elem_of_cons in Ha as [Ha|Ha], Hb as [Hb|Hb].
  - congruence.
  - injection Ha as -> ->. destruct Hy. apply list_elem_of_fmap. by exists (b, y).
  - injection Hb as -> ->. destruct Hy. apply list_elem_of_fmap. by exists (a, y).
  - auto.
Qed.

Lemma trie_path_unique lab ns t1 t2 t :
  trie_ok lab ns → path (child ns) 0 t1 = Some t → path (child ns) 0 t2 = Some t → t1 = t2.
Proof.
  intros Hok. apply (path_unique (childs ns) _ (λ _, True) 0 (seq 0 (length ns)) (to_tree _ _ Hok)).
  - intros d l x _ _ Hc. by eapply child_in_childs.
  - intros d l l' x Hd _ _ Hc%edge_get_in Hc'%edge_get_in.
    eapply NoDup_snd_inj; [|done..]. by eapply (tree_childs_NoDup (childs ns)), Hd; apply Hok.
  - by apply Forall_forall.
  - by apply Forall_forall.
Qed.

Lemma insert_path_ok lab term ns s :
  trie_ok lab ns → s < length ns → Forall lab term →
  ∃ ns' t, foldM insert_label (ns, s) term = Ret (ns', t) ∧ trie_ok lab ns' ∧ extends ns ns' ∧
    t < length ns' ∧ path (child ns') s term = Some t ∧ length ns' ≤ length ns + length term.
Proof.
  revert ns s. induction term as [|l term IH]; intros ns s Hok Hs Hl; cbn [foldM].
  { exists ns, s. split_and!; [done|done|apply extends_refl|done|done|cbn; lia]. }
  inversion Hl as [|? ? Hlab Hl']; subst.
  destruct (insert_label_ok lab ns s l) as (ns1 & c & Hins & Hok1 & Hex1 & Hc & Hchild); [done..|].
  pose proof (insert_label_length _ _ _ _ _ Hins). rewrite Hins. cbn [mbind option_bind].
  destruct (IH ns1 c) as (ns2 & t & -> & Hok2 & Hex2 & Ht & Hpath & Hlen); [done..|].
  exists ns2, t. split_and!; [done|done|by eapply extends_trans|done| |cbn; lia].
  cbn [path]. by rewrite (ex_child _ _ Hex2 _ _ _ Hchild).
Qed.

Lemma childs_set ns t n n' x :
  ns !! t = Some n → tn_edges n' = tn_edges n → childs (<[t := n']> ns) x = childs ns x.
Proof. intros Ht He. unfold childs. by rewrite (edges_at_set _ _ n). Qed.

Lemma trie_ok_set lab ns t n n' :
  trie_ok lab ns → ns !! t = Some n → tn_edges n' = tn_edges n → tn_final n' = true →
  trie_ok lab (<[t := n']> ns).
Proof.
  intros Hok Ht He Hf. split.
  - apply Forall_insert; [apply Hok|].
    pose proof (Forall_lookup_1 _ _ _ _ (to_nodes _ _ Hok) Ht) as (? & ? & _).
    split_and!; rewrite ?He; [done..|congruence].
  - rewrite length_insert. destruct (to_tree _ _ Hok) as [Hnd Hperm]. split; [done|].
    rewrite Hperm at 1. f_equiv. apply reflexive_eq, list_bind_ext; [|done].
    intros x. symmetry. by eapply childs_set.
  - intros x c. rewrite (childs_set _ _ n) by done. apply Hok.
Qed.

Lemma trie_get_set lab ns term t n n' term' :
  trie_ok lab ns → path (child ns) 0 term = Some t → ns !! t = Some n →
  tn_edges n' = tn_edges n → tn_final n' = true →
  trie_get (<[t := n']> ns) term' = if decide (term' = term) then Some (tn_value n') else trie_get ns term'.
Proof.
  intros Hok Hp Ht He Hf. unfold trie_get.
  assert (∀ x, path (child (<[t := n']> ns)) 0 x = path (child ns) 0 x) as Hpath.
  { intros x. generalize 0. induction x as [|l x IH]; intros s; [done|]. cbn.
    unfold child at 1 3. rewrite (edges_at_set _ _ n) by done. destruct (edge_get _ _); [apply IH|done]. }
  rewrite Hpath. case_decide as E.
  - subst. rewrite Hp. cbn. rewrite list_lookup_insert_eq by (by eapply lookup_lt_Some). cbn. by rewrite Hf.
  - destruct (path (child ns) 0 term') as [t'|] eqn:Hp'; [|done]. cbn.
    rewrite list_lookup_insert_ne; [done|]. intros <-. apply E. by eapply trie_path_unique.
Qed.

(** ** The builder as a map

    A dictionary maps a term to its optional value; inserting a term again
    updates the value only when one is given. *)

Definition dict_insert (m : gmap (list nat) (option V)) (entry : list nat * option V) :
    gmap (list nat) (option V) :=
  match m !! entry.1 with
  | Some _ => if bool_decide (is_Some entry.2) then <[entry.1 := entry.2]> m else m
  | None => <[entry.1 := entry.2]> m
  end.

Lemma dict_insert_lookup m term value t :
  dict_insert m (term, value) !! t =
    if decide (t = term)
    then Some (match m !! term with
               | Some old => if bool_decide (is_Some value) then value else old
               | None => value
               end)
    else m !! t.
Proof.
  unfold dict_insert. cbn [fst snd]. case_decide as E; [subst t|].
  - destruct (m !! term) as [old|] eqn:Hm; [|by rewrite lookup_insert_eq].
    destruct (bool_decide (is_Some value)); [by rewrite lookup_insert_eq|done].
  - destruct (m !! term); [destruct (bool_decide (is_Some value)); [|done]|]; by rewrite lookup_insert_ne.
Qed.

Lemma dict_insert_size m term value :
  size (dict_insert m (term, value)) = match m !! term with Some _ => size m | None => S (size m) end.
Proof.
  unfold dict_insert. cbn [fst snd]. destruct (m !! term) eqn:Hm; [|by rewrite map_size_insert, Hm].
  destruct (bool_decide (is_Some value)); [|done]. by rewrite map_size_insert, Hm.
Qed.

Record builder_ok (lab : nat → Prop) (b : StaticDATBuilder) (m : gmap (list nat) (option V)) : Prop := {
  bo_trie : trie_ok lab (b_nodes b);
  bo_get : ∀ term, trie_get (b_nodes b) term = m !! term;
  bo_size : b_term_count b = size m;
  bo_finals : trie_finals (b_nodes b) = b_term_count b;
}.

Lemma builder_new_ok lab : builder_ok lab StaticDATBuilder_new ∅.
Proof.
  split; [split| | |done].
  - repeat constructor.
  - split; [apply NoDup_singleton|]. done.
  - intros t c. unfold childs, edges_at. cbn. destruct t; [set_solver|]. cbn. set_solver.
  - intros term. rewrite lookup_empty. unfold trie_get. destruct term as [|l term]; [done|].
    cbn. done.
  - by rewrite map_size_empty.
Qed.

Lemma builder_insert_ok lab b m term value :
  builder_ok lab b m → Forall lab term →
  ∃ b', StaticDATBuilder_insert b term value = Ret (bool_decide (m !! term = None), b') ∧
    builder_ok lab b' (dict_insert m (term, value)) ∧
    length (b_nodes b') ≤ length (b_nodes b) + length term.
Proof.
  intros [Htrie Hget Hsize Hfin] Hl.
  assert (0 < length (b_nodes b)) as H0 by (by apply (trie_path_bound lab _ [] 0)).
  destruct (insert_path_ok lab term (b_nodes b) 0) as (ns & t & Hrun & Hok & Hex & Ht & Hpath & Hlen);
    [done..|].
  unfold StaticDATBuilder_insert. rewrite Hrun. cbn [mbind option_bind].
  destruct (lookup_lt_is_Some_2 ns t Ht) as [n Hn]. rewrite Hn. cbn [mbind option_bind].
  rewrite store_Some by done. cbn [mbind option_bind].
  set (v := if bool_decide (is_Some value) || negb (tn_final n) then value else tn_value n).
  set (n' := mkTrieNode (tn_edges n) (tn_final n || negb (tn_final n)) v).
  assert (tn_final n' = true) as Hf' by (cbn; by destruct (tn_final n)).
  assert (m !! term = if tn_final n then Some (tn_value n) else None) as Hm.
  { rewrite <-Hget, <-(trie_get_extends lab (b_nodes b) ns) by done. unfold trie_get.
    rewrite Hpath. cbn. by rewrite Hn. }
  assert (negb (tn_final n) = bool_decide (m !! term = None)) as Hins.
  { rewrite Hm. by destruct (tn_final n). }
  eexists. split; [by rewrite <-Hins|]. split; [|cbn; by rewrite length_insert].
  split; cbn [b_nodes b_term_count].
  - by eapply trie_ok_set.
  - intros term'. rewrite (trie_get_set lab ns term t n n' term') by done.
    rewrite (trie_get_extends lab (b_nodes b)), dict_insert_lookup, Hget by done.
    case_decide; [|done]. f_equal. unfold n', v. cbn. rewrite Hm.
    destruct (tn_final n); cbn [negb]; [by rewrite orb_false_r|by rewrite orb_true_r].
  - rewrite dict_insert_size, Hm. destruct (tn_final n); cbn; by rewrite Hsize.
  - pose proof (trie_finals_set ns t n n' Hn) as Hset. rewrite Hf' in Hset.
    rewrite (ex_finals _ _ Hex) in Hset. destruct (tn_final n); cbn; lia.
Qed.

(** The constructors feed the builder from a list of entries. *)
Definition insert_all (b : StaticDATBuilder) (entries : list (list nat * option V)) :
    exec StaticDATBuilder :=
  foldM (λ b entry, r ← StaticDATBuilder_insert b entry.1 entry.2; Ret (snd r)) b entries.

Definition letters (entries : list (list nat * option V)) : nat := sum_list (length <$> entries.*1).

Lemma insert_all_ok lab entries b m :
  builder_ok lab b m → Forall (λ e, Forall lab e.1) entries →
  ∃ b', insert_all b entries = Ret b' ∧ builder_ok lab b' (foldl dict_insert m entries) ∧
    length (b_nodes b') ≤ length (b_nodes b) + letters entries.
Proof.
  revert b m. induction entries as [|[term value] entries IH]; intros b m Hb Hl.
  { exists b. split_and!; [done|done|cbn; lia]. }
  inversion Hl as [|? ? Ht Hl']; subst.
  destruct (builder_insert_ok lab b m term value) as (b1 & Hins & Hb1 & Hlen1); [done..|].
  destruct (IH b1 (dict_insert m (term, value)) Hb1 Hl') as (b2 & Hrun & Hb2 & Hlen2).
  exists b2. unfold insert_all in *. cbn [foldM fst snd]. rewrite Hins. cbn [mbind option_bind snd].
  split_and!; [done|done|]. unfold letters in *. cbn in *. lia.
Qed.

(** ** The arrays while they grow

    Growing the arrays appends default entries, so the arrays are seen as
    functions with these defaults. *)

Definition base_at (s : DATCoreShared V) (x : nat) : Z := default (-1)%Z (d_base s !! x).
Definition check_at (s : DATCoreShared V) (x : nat) : Z := default (-1)%Z (d_check s !! x).
Definition final_at (s : DATCoreShared V) (x : nat) : bool := default false (d_final s !! x).
Definition value_at (s : DATCoreShared V) (x : nat) : option V := default None (d_values s !! x).
Definition occ_at (occupied : list bool) (x : nat) : bool := default false (occupied !! x).

Definition sized (s : DATCoreShared V) (occupied : list bool) (m : nat) : Prop :=
  length (d_base s) = m ∧ length (d_check s) = m ∧ length (d_final s) = m ∧
  length (d_edges s) = m ∧ length (d_values s) = m ∧ length occupied = m.

Lemma default_insert {A} (dft : A) (l : list A) i v x :
  i < length l → default dft (<[i := v]> l !! x) = if decide (x = i) then v else default dft (l !! x).
Proof.
  intros Hi. case_decide as E.
  - subst. by rewrite list_lookup_insert_eq.
  - by rewrite list_lookup_insert_ne.
Qed.

Lemma default_resize {A} (dft : A) (l : list A) n x :
  length l ≤ n → default dft (resize n dft l !! x) = default dft (l !! x).
Proof.
  intros Hn. rewrite resize_ge by done.
  destruct (decide (x < length l)); [by rewrite lookup_app_l|].
  rewrite lookup_app_r, (lookup_ge_None_2 l) by lia. cbn.
  destruct (replicate _ _ !! _) eqn:E; [|done]. by apply lookup_replicate in E as [-> _].
Qed.

Lemma ensure_len_spec n s occupied m :
  sized s occupied m →
  ∃ s' occupied', ensure_len n s occupied = (s', occupied') ∧ sized s' occupied' (Nat.max n m) ∧
    ∀ x, base_at s' x = base_at s x ∧ check_at s' x = check_at s x ∧ final_at s' x = final_at s x ∧
      labels_of s' x = labels_of s x ∧ value_at s' x = value_at s x ∧
      occ_at occupied' x = occ_at occupied x.
Proof.
  intros (Hb & Hc & Hf & He & Hv & Ho). unfold ensure_len.
  destruct (Nat.leb_spec n (length (d_base s))).
  - exists s, occupied. rewrite Nat.max_r by lia. split_and!; done.
  - eexists _, _. split; [done|]. rewrite Nat.max_l by lia. split.
    + by split_and!; cbn; rewrite length_resize.
    + intros x. unfold base_at, check_at, final_at, labels_of, value_at, occ_at. cbn.
      rewrite !default_resize by lia. done.
Qed.

Lemma place_child_spec candidate d s occupied queue label c m :
  sized s occupied m → d < m →
  ∃ s' occupied',
    place_child candidate d (s, occupied, queue) (label, c) =
      Ret (s', occupied', queue ++ [(c, candidate + label)]) ∧
    sized s' occupied' (Nat.max (candidate + label + 1) m) ∧
    ∀ x, base_at s' x = base_at s x ∧ final_at s' x = final_at s x ∧ value_at s' x = value_at s x ∧
      check_at s' x = (if decide (x = candidate + label) then Z.of_nat d else check_at s x) ∧
      labels_of s' x = (if decide (x = d) then labels_of s d ++ [label] else labels_of s x) ∧
      occ_at occupied' x = (if decide (x = candidate + label) then true else occ_at occupied x).
Proof.
  intros Hsz Hd. unfold place_child. set (slot := candidate + label).
  destruct (ensure_len_spec (slot + 1) s occupied m Hsz) as (s1 & occ1 & -> & Hsz1 & Hview).
  pose proof Hsz1 as (Hb & Hc & Hf & He & Hv & Ho).
  rewrite store_Some by lia. cbn [mbind option_bind].
  rewrite store_Some by lia. cbn [mbind option_bind].
  destruct (lookup_lt_is_Some_2 (d_edges s1) d) as [labels Hl]; [lia|].
  rewrite Hl. cbn [mbind option_bind]. rewrite store_Some by lia. cbn [mbind option_bind].
  eexists _, _. split; [done|]. split.
  { split_and!; cbn; by rewrite ?length_insert. }
  intros x. destruct (Hview x) as (<- & <- & <- & <- & <- & <-).
  assert (labels_of s d = labels) as ->.
  { destruct (Hview d) as (_ & _ & _ & <- & _). unfold labels_of. by rewrite Hl. }
  unfold base_at, check_at, final_at, labels_of, value_at, occ_at. cbn.
  rewrite !default_insert by lia. done.
Qed.

Lemma decide_elem_cons {A} (x a : nat) l (p q : A) :
  (if decide (x ∈ a :: l) then p else q) =
  if decide (x ∈ l) then p else if decide (x = a) then p else q.
Proof.
  destruct (decide (x ∈ l)) as [Hin|Hout]; [rewrite decide_True; [done|by right]|].
  destruct (decide (x = a)) as [->|Hne]; [rewrite decide_True; [done|by left]|].
  rewrite decide_False; [done|]. intros [|]%elem_of_cons; done.
Qed.

Lemma place_children_spec candidate d edges s occupied queue m :
  sized s occupied m → d < m →
  ∃ s' occupied' m',
    foldM (place_child candidate d) (s, occupied, queue) edges =
      Ret (s', occupied', queue ++ map (λ '(l, c), (c, candidate + l)) edges) ∧
    sized s' occupied' m' ∧ m ≤ m' ∧
    (∀ b, Forall (λ e, candidate + e.1 < b) edges → m ≤ b → m' ≤ b) ∧
    Forall (λ e, candidate + e.1 < m') edges ∧
    ∀ x, base_at s' x = base_at s x ∧ final_at s' x = final_at s x ∧ value_at s' x = value_at s x ∧
      check_at s' x = (if decide (x ∈ map (Nat.add candidate) edges.*1) then Z.of_nat d else check_at s x) ∧
      labels_of s' x = (if decide (x = d) then labels_of s d ++ edges.*1 else labels_of s x) ∧
      occ_at occupied' x =
        (if decide (x ∈ map (Nat.add candidate) edges.*1) then true else occ_at occupied x).
Proof.
  revert s occupied queue m. induction edges as [|[label c] edges IH]; intros s occupied queue m Hsz Hd.
  { exists s, occupied, m. cbn [foldM map]. rewrite app_nil_r. split; [done|]. split; [done|]. split; [lia|].
    split; [lia|]. split; [constructor|].
    intros x. split; [done|]. split; [done|]. split; [done|]. split_and!.
    - rewrite decide_False; [done|]. set_solver.
    - case_decide; [subst; by rewrite app_nil_r|done].
    - rewrite decide_False; [done|]. set_solver. }
  destruct (place_child_spec candidate d s occupied queue label c m Hsz Hd)
    as (s1 & occ1 & Hrun & Hsz1 & Hview1). cbn [foldM]. rewrite Hrun. cbn [mbind option_bind].
  destruct (IH s1 occ1 (queue ++ [(c, candidate + label)]) _ Hsz1) as
    (s2 & occ2 & m2 & -> & Hsz2 & Hm2 & Hbound & Hall & Hview2); [lia|].
  exists s2, occ2, m2. split_and!; [by rewrite <-app_assoc|done|lia| | |].
  - intros b Hb Hmb. inversion Hb; subst. cbn in *. apply Hbound; [done|lia].
  - constructor; [cbn; lia|done].
  - assert (labels_of s1 d = labels_of s d ++ [label]) as Hld.
    { destruct (Hview1 d) as (_ & _ & _ & _ & -> & _). by rewrite decide_True. }
    intros x. destruct (Hview2 x) as (-> & -> & -> & -> & -> & ->). rewrite Hld.
    destruct (Hview1 x) as (-> & -> & -> & -> & -> & ->).
    rewrite !fmap_cons. cbn [fst map]. split_and!; [done..| | |].
    + by rewrite decide_elem_cons.
    + case_decide; [by rewrite <-app_assoc|done].
    + by rewrite decide_elem_cons.
Qed.

(** ** Finding a base *)

Lemma skip_occupied_spec fuel occupied pos :
  pos ≤ skip_occupied fuel occupied pos ≤ Nat.max pos (length occupied).
Proof.
  revert pos. induction fuel as [|fuel IH]; intros pos; cbn [skip_occupied]; [lia|].
  destruct (occupied !! pos) as [[]|] eqn:E; [|lia|lia].
  apply lookup_lt_Some in E. specialize (IH (S pos)). lia.
Qed.

Lemma all_free_spec occupied candidate labels :
  all_free occupied candidate labels = true ↔
  Forall (λ l, occ_at occupied (candidate + l) = false) labels.
Proof.
  unfold all_free, occ_at. rewrite forallb_forall, Forall_forall.
  setoid_rewrite list_elem_of_In. setoid_rewrite negb_true_iff. done.
Qed.

Lemma find_base_spec fuel occupied labels first max_base pos :
  Forall (λ l, first ≤ l) labels → length occupied < fuel + pos → pos ≤ length occupied →
  (Z.of_nat (Nat.max (length occupied) (first + 1)) ≤ max_base + Z.of_nat first)%Z →
  ∃ candidate pos', find_base fuel occupied labels first max_base pos = Ret (candidate, pos') ∧
    pos' = candidate + first ∧ 1 ≤ candidate ∧ pos ≤ pos' ≤ Nat.max (length occupied) (first + 1) ∧
    Forall (λ l, occ_at occupied (candidate + l) = false) labels.
Proof.
  intros Hfirst. revert pos. induction fuel as [|fuel IH]; intros pos Hfuel Hpos Hmax; [lia|].
  cbn [find_base]. set (slot := Nat.max pos (first + 1)).
  pose proof (skip_occupied_spec (length occupied) occupied slot) as Hskip.
  set (p := skip_occupied (length occupied) occupied slot) in *.
  rewrite (proj2 (Z.ltb_ge _ _)) by lia.
  destruct (all_free occupied (p - first) labels) eqn:Hfree.
  { exists (p - first), p. split; [done|]. split_and!; [lia..|]. by apply all_free_spec. }
  assert (p < length occupied) as Hp.
  { apply Nat.nle_gt. intros Hge. apply not_true_iff_false in Hfree. apply Hfree, all_free_spec.
    eapply Forall_impl; [exact Hfirst|]. cbn. intros l Hl. unfold occ_at.
    by rewrite lookup_ge_None_2 by lia. }
  destruct (IH (S p)) as (candidate & pos' & -> & -> & Hc & Hrange & Hall); [lia..|].
  exists candidate, (candidate + first). split_and!; [done|done|done|lia|lia|done].
Qed.

(** ** One round of [build] *)

(** The slots of the children for a base [candidate] *)
Definition slots (candidate : nat) (edges : list (nat * nat)) : list nat :=
  map (Nat.add candidate) edges.*1.

Lemma placed_edges_fst b (es : list (nat * nat)) : (map (λ '(l, c), (c, b + l)) es).*1 = es.*2.
Proof.
  induction es as [|[l c] es IH]; [done|]. cbn [map]. rewrite !fmap_cons. cbn [fst snd]. by rewrite IH.
Qed.

Lemma placed_edges_snd b (es : list (nat * nat)) : (map (λ '(l, c), (c, b + l)) es).*2 = slots b es.
Proof.
  unfold slots in *. induction es as [|[l c] es IH]; [done|]. cbn [map]. rewrite !fmap_cons. cbn [fst snd map].
  by rewrite IH.
Qed.

Lemma sorted_head_le (l : nat) labels : StronglySorted lt (l :: labels) → Forall (λ x, l ≤ x) (l :: labels).
Proof.
  inversion 1 as [|? ? _ Hf]; subst. constructor; [done|]. eapply Forall_impl; [done|]. cbn. lia.
Qed.

Lemma build_state_spec C nodes s occupied queue pos t d n m :
  sized s occupied m → nodes !! t = Some n → StronglySorted lt (tn_edges n).*1 →
  Forall (λ l, l ≤ C) (tn_edges n).*1 → d < m → labels_of s d = [] → base_at s d = (-1)%Z →
  pos ≤ m → (Z.of_nat (m + C) ≤ i32_MAX)%Z →
  ∃ s' occupied' pos' m' candidate,
    build_state nodes s occupied queue pos t d =
      Ret (<[t := mkTrieNode (tn_edges n) (tn_final n) None]> nodes, s', occupied',
           queue ++ map (λ '(l, c), (c, candidate + l)) (tn_edges n), pos') ∧
    sized s' occupied' m' ∧ m ≤ m' ≤ m + C + 1 ∧ pos ≤ pos' ≤ m' ∧ (Z.of_nat candidate ≤ i32_MAX)%Z ∧
    (∀ x, x ∈ slots candidate (tn_edges n) → x < m' ∧ occ_at occupied x = false) ∧
    ∀ x,
      base_at s' x = (if decide (x = d) then match tn_edges n with [] => -1 | _ => Z.of_nat candidate end
                      else base_at s x)%Z ∧
      final_at s' x = (if decide (x = d) then tn_final n else final_at s x) ∧
      value_at s' x = (if decide (x = d) then tn_value n else value_at s x) ∧
      check_at s' x = (if decide (x ∈ slots candidate (tn_edges n)) then Z.of_nat d else check_at s x) ∧
      labels_of s' x = (if decide (x = d) then (tn_edges n).*1 else labels_of s x) ∧
      occ_at occupied' x =
        (if decide (x ∈ slots candidate (tn_edges n)) then true else occ_at occupied x).
Proof.
  intros Hsz Hn Hsort HC Hd Hnolab Hnobase Hpos Hmax. unfold build_state.
  pose proof Hsz as (Hb & Hc & Hf & He & Hv & Ho). rewrite Hn. cbn [mbind option_bind].
  rewrite (store_Some (d_final s)), (store_Some (d_values s)) by lia.
  rewrite (store_Some nodes) by (by eapply lookup_lt_Some). cbn [mbind option_bind d_base d_check d_edges d_final d_values].
  set (s1 := mkDat (d_base s) (d_check s) (<[d := tn_final n]> (d_final s)) (d_edges s)
               (<[d := tn_value n]> (d_values s))).
  assert (sized s1 occupied m) as Hsz1 by (split_and!; cbn; by rewrite ?length_insert).
  assert (∀ x, base_at s1 x = base_at s x ∧ check_at s1 x = check_at s x ∧ labels_of s1 x = labels_of s x ∧
    final_at s1 x = (if decide (x = d) then tn_final n else final_at s x) ∧
    value_at s1 x = (if decide (x = d) then tn_value n else value_at s x)) as Hview1.
  { intros x. unfold base_at, check_at, labels_of, final_at, value_at. cbn.
    by rewrite !default_insert by lia. }
  destruct (tn_edges n) as [|[first c] edges] eqn:Hedges.
  { exists s1, occupied, pos, m, 0. cbn [map slots]. rewrite app_nil_r.
    split; [done|]. split; [done|]. split; [lia|]. split; [lia|]. split; [done|]. split; [set_solver|].
    intros x. destruct (Hview1 x) as (-> & -> & -> & -> & ->). split_and!; try done.
    - case_decide; [by subst|done].
    - case_decide; [by subst|done]. }
  destruct (last ((first, c) :: edges)) as [[lastl lastc]|] eqn:Hlast; [|by apply last_None in Hlast].
  cbn [mbind option_bind fst].
  assert (lastl ∈ ((first, c) :: edges).*1) as Hlin.
  { apply list_elem_of_fmap. exists (lastl, lastc). split; [done|]. by apply last_Some_elem_of. }
  assert (lastl ≤ C) as HlastC by (by eapply (Forall_forall (λ l, l ≤ C))).
  assert (Forall (λ x, first ≤ x) ((first, c) :: edges).*1) as Hmin by (by apply sorted_head_le).
  assert (first ≤ C) as HfC by (by inversion HC).
  rewrite (proj2 (Z.ltb_ge _ _)) by lia.
  destruct (find_base_spec (S (length occupied)) occupied ((first, c) :: edges).*1 first
              (i32_MAX - Z.of_nat lastl) pos) as (candidate & pos' & -> & -> & Hc1 & Hrange & Hfree).
  { done. }
  { lia. }
  { lia. }
  { assert (first ≤ lastl) by (by eapply (Forall_forall (λ x, first ≤ x))). lia. }
  cbn [mbind option_bind]. rewrite store_Some by (cbn; lia). cbn [mbind option_bind].
  rewrite (proj2 (Z.ltb_ge _ _)) by lia. cbn [d_base d_check d_edges d_final d_values s1].
  set (s2 := mkDat (<[d := Z.of_nat candidate]> (d_base s)) _ _ _ _).
  assert (sized s2 occupied m) as Hsz2 by (split_and!; cbn; by rewrite ?length_insert).
  destruct (place_children_spec candidate d ((first, c) :: edges) s2 occupied queue m Hsz2 Hd)
    as (s3 & occ3 & m3 & -> & Hsz3 & Hm3 & Hbound & Hall & Hview3). cbn [mbind option_bind].
  assert (m3 ≤ m + C + 1) as Hm3'.
  { apply Hbound; [|lia]. apply Forall_forall. intros [l x] Hin. cbn.
    assert (l ≤ C); [|lia]. eapply (Forall_forall (λ l, l ≤ C)); [exact HC|].
    apply list_elem_of_fmap. by exists (l, x). }
  exists s3, occ3, (candidate + first), m3, candidate.
  split; [done|]. split; [done|]. split; [lia|].
  split; [inversion Hall; subst; cbn in *; lia|]. split; [lia|]. split.
  { intros x Hx. unfold slots in Hx. apply list_elem_of_fmap in Hx as (l & -> & Hl). split.
    - apply list_elem_of_fmap in Hl as ([l' y] & -> & Hl').
      eapply (Forall_forall (λ e, candidate + e.1 < m3)) in Hl'; [|done]. done.
    - eapply (Forall_forall (λ l, occ_at occupied (candidate + l) = false)) in Hl; done. }
  intros x. destruct (Hview3 x) as (-> & -> & -> & -> & -> & ->).
  destruct (Hview1 x) as (E1 & E2 & E3 & E4 & E5).
  assert (labels_of s2 d = []) as -> by done. cbn [app].
  change (final_at s2 x) with (final_at s1 x). change (value_at s2 x) with (value_at s1 x).
  change (check_at s2 x) with (check_at s1 x). change (labels_of s2 x) with (labels_of s1 x).
  rewrite E2, E3, E4, E5. split_and!; try done.
  unfold base_at, s2. cbn [d_base]. by rewrite default_insert by lia.
Qed.

(** ** The loop of [build] *)

Section build.
Context (k : unit_kind) (lab : nat → Prop) (ns0 : list TrieNode) (Htrie : trie_ok lab ns0) (root C : nat).
Context (Hlab : ∀ l, lab l → is_label k l ∧ l ≤ C).

Lemma edge_labels t : Forall (λ l, is_label k l ∧ l ≤ C) (edges_at ns0 t).*1.
Proof. eapply Forall_impl; [apply (edges_at_ok lab ns0 t Htrie)|apply Hlab]. Qed.

(** The children of a placed node *)
Definition placed (s : DATCoreShared V) (p : nat * nat) : list (nat * nat) :=
  map (λ '(l, c), (c, base_of s p.2 + l)) (edges_at ns0 p.1).

(** State [d] is the finished image of node [t]. *)
Record state_done (s : DATCoreShared V) (t d : nat) : Prop := {
  sd_node : ∃ n, ns0 !! t = Some n ∧ final_at s d = tn_final n ∧ value_at s d = tn_value n;
  sd_labels : labels_of s d = (edges_at ns0 t).*1;
  sd_leaf : edges_at ns0 t = [] → base_at s d = (-1)%Z;
  sd_base : edges_at ns0 t ≠ [] → (0 ≤ base_at s d ≤ i32_MAX)%Z;
  sd_check : ∀ x, x ∈ targets s d → check_at s x = Z.of_nat d;
}.

Definition slot_free (s : DATCoreShared V) (x : nat) : Prop :=
  base_at s x = (-1)%Z ∧ check_at s x = (-1)%Z ∧ final_at s x = false ∧ labels_of s x = [] ∧
  value_at s x = None.

Record build_inv (ns : list TrieNode) (s : DATCoreShared V) (occupied : list bool)
    (P Q : list (nat * nat)) (pos m : nat) : Prop := {
  bi_sized : sized s occupied m;
  bi_front : frontier (placed s) (0, root) P Q;
  bi_nd1 : NoDup (P ++ Q).*1;
  bi_nd2 : NoDup (P ++ Q).*2;
  bi_occ : ∀ x, occ_at occupied x = true ↔ x ≤ root ∨ x ∈ (P ++ Q).*2;
  bi_bound : ∀ x, x ∈ (P ++ Q).*2 → x < m;
  bi_done : ∀ t d, (t, d) ∈ P → state_done s t d;
  bi_wait : ∀ t d, (t, d) ∈ Q → base_at s d = (-1)%Z ∧ labels_of s d = [];
  bi_free : ∀ x, x ∉ (P ++ Q).*2 → slot_free s x;
  bi_root : check_at s root = (-1)%Z;
  bi_nodes : ∀ t n, ns0 !! t = Some n → ∃ v,
    ns !! t = Some (mkTrieNode (tn_edges n) (tn_final n) v) ∧ (t ∉ P.*1 → v = tn_value n);
  bi_pos : root < m ∧ pos ≤ m;
  bi_len : m ≤ root + 1 + length P * (C + 1);
}.

Lemma frontier_ext {A} (ch ch' : A → list A) r P Q :
  (∀ p, p ∈ P → ch p = ch' p) → frontier ch r P Q → frontier ch' r P Q.
Proof.
  intros Hext. unfold frontier. intros ->. apply Permutation_skip. apply reflexive_eq.
  induction P as [|p P IH]; [done|]. cbn. rewrite Hext by (by left). f_equal. apply IH.
  intros q Hq. apply Hext. by right.
Qed.

Lemma frontier_fst s P Q :
  frontier (placed s) (0, root) P Q → frontier (childs ns0) 0 P.*1 Q.*1.
Proof.
  unfold frontier. intros H. rewrite <-fmap_app, H. cbn. f_equiv. apply reflexive_eq.
  clear. induction P as [|[t d] P IH]; [done|]. cbn. rewrite fmap_app, IH. f_equal.
  apply placed_edges_fst.
Qed.

Lemma placed_snd s t d :
  labels_of s d = (edges_at ns0 t).*1 → (placed s (t, d)).*2 = targets s d.
Proof.
  intros Hl. unfold placed, targets. rewrite Hl. apply placed_edges_snd.
Qed.

Lemma base_of_at s d : base_of s d = Z.to_nat (base_at s d).
Proof. done. Qed.

Lemma front_sub s P Q : frontier (placed s) (0, root) P Q → (P ++ Q).*1 ⊆ seq 0 (length ns0).
Proof.
  intros Hf%frontier_fst. unfold frontier in Hf. rewrite <-fmap_app in Hf. intros x. rewrite Hf.
  intros [->|(t & Hx & _)%list_elem_of_bind]%elem_of_cons.
  - apply (tree_root _ _ _ (to_tree _ _ Htrie)).
  - apply elem_of_seq. split; [lia|]. cbn. by eapply trie_child_bound.
Qed.

(** Settle the case of a slot in what a round wrote. *)
Local Ltac decided1 H := first [rewrite decide_True in H by done | rewrite decide_False in H by done].
Local Tactic Notation "decided" hyp(a) hyp(b) hyp(c) hyp(d) :=
  decided1 a; decided1 b; decided1 c; decided1 d.

(** A round takes the pair [(t, d)] from the queue and writes the arrays as
    [build_state_spec] says. *)
Section round.
Context (ns : list TrieNode) (s s' : DATCoreShared V) (occupied occupied' : list bool).
Context (P Q : list (nat * nat)) (t d pos pos' m m' candidate : nat) (n : TrieNode).
Context (Hinv : build_inv ns s occupied P ((t, d) :: Q) pos m).
Context (Hn : ns0 !! t = Some n) (Hcand : (Z.of_nat candidate ≤ i32_MAX)%Z).
Context (Hslots : ∀ x, x ∈ slots candidate (edges_at ns0 t) → x < m' ∧ occ_at occupied x = false).
Context (Hview : ∀ x,
  base_at s' x = (if decide (x = d) then match edges_at ns0 t with [] => -1 | _ => Z.of_nat candidate end
                  else base_at s x)%Z ∧
  final_at s' x = (if decide (x = d) then tn_final n else final_at s x) ∧
  value_at s' x = (if decide (x = d) then tn_value n else value_at s x) ∧
  check_at s' x = (if decide (x ∈ slots candidate (edges_at ns0 t)) then Z.of_nat d else check_at s x) ∧
  labels_of s' x = (if decide (x = d) then (edges_at ns0 t).*1 else labels_of s x) ∧
  occ_at occupied' x =
    (if decide (x ∈ slots candidate (edges_at ns0 t)) then true else occ_at occupied x)).

Local Definition new : list (nat * nat) := map (λ '(l, c), (c, candidate + l)) (edges_at ns0 t).

Lemma round_placed : placed s' (t, d) = new.
Proof.
  unfold placed, new. cbn [fst snd]. destruct (edges_at ns0 t) as [|e es] eqn:E; [done|].
  rewrite base_of_at. destruct (Hview d) as (-> & _). rewrite decide_True by done. by rewrite Nat2Z.id.
Qed.

Lemma round_other p : p ∈ P ++ Q → p.2 ≠ d.
Proof.
  intros Hp E. pose proof (bi_nd2 _ _ _ _ _ _ _ Hinv) as Hnd2. rewrite <-Permutation_middle in Hnd2.
  cbn in Hnd2. apply NoDup_cons in Hnd2 as [Hnot _]. apply Hnot. rewrite <-E.
  apply list_elem_of_fmap. eauto.
Qed.

Lemma round_fresh x :
  x ∈ slots candidate (edges_at ns0 t) → root < x ∧ x ∉ (P ++ (t, d) :: Q).*2.
Proof.
  intros Hx. destruct (Hslots x Hx) as [_ Ho].
  assert (¬ (x ≤ root ∨ x ∈ (P ++ (t, d) :: Q).*2)) as Hno.
  { intros H. apply (bi_occ _ _ _ _ _ _ _ Hinv) in H. congruence. }
  split; [|tauto]. apply Nat.nle_gt. tauto.
Qed.

Lemma round_in_snd : d ∈ (P ++ (t, d) :: Q).*2.
Proof. apply list_elem_of_fmap. exists (t, d). split; [done|]. set_solver. Qed.

Lemma round_front : frontier (placed s') (0, root) (P ++ [(t, d)]) (Q ++ new).
Proof.
  rewrite <-round_placed. apply frontier_step. eapply frontier_ext; [|apply Hinv].
  intros [t' d'] Hp. unfold placed. cbn [fst snd]. rewrite !base_of_at.
  destruct (Hview d') as (-> & _). rewrite decide_False; [done|]. apply (round_other (t', d')). set_solver.
Qed.

Lemma round_nd1 : NoDup ((P ++ (t, d) :: Q) ++ new).*1.
Proof.
  rewrite fmap_app. unfold new. rewrite placed_edges_fst, fmap_app, fmap_cons. cbn [fst].
  pose proof (frontier_fst _ _ _ (bi_front _ _ _ _ _ _ _ Hinv)) as Hf1.
  rewrite fmap_cons in Hf1. cbn [fst] in Hf1.
  apply (frontier_fresh (childs ns0) 0 (seq 0 (length ns0))); [apply (to_tree _ _ Htrie)|exact Hf1|..].
  - rewrite <-(fmap_cons fst (t, d)), <-fmap_app. apply Hinv.
  - rewrite <-(fmap_cons fst (t, d)), <-fmap_app. eapply front_sub. apply Hinv.
Qed.

Lemma round_nd2 : NoDup ((P ++ (t, d) :: Q) ++ new).*2.
Proof.
  rewrite fmap_app. unfold new. rewrite placed_edges_snd. apply NoDup_app. split_and!.
  - apply Hinv.
  - intros x Hx Hs. by apply round_fresh in Hs as [_ ?].
  - unfold slots. apply NoDup_fmap_2; [intros ???; lia|].
    apply sorted_NoDup_lt, (edges_at_ok lab ns0 t Htrie).
Qed.

(** The states finished before stay finished ... *)
Lemma round_done_old t' d' : (t', d') ∈ P → state_done s' t' d'.
Proof.
  intros Hp. assert (d' ≠ d) as Hne by (apply (round_other (t', d')); set_solver).
  destruct (bi_done _ _ _ _ _ _ _ Hinv t' d' Hp) as [(n' & Hn' & Hf' & Hv') Hl' Hleaf' Hb' Hc'].
  destruct (Hview d') as (Eb & Ef & Ev & _ & El & _). decided Eb Ef Ev El.
  split; rewrite ?Eb, ?Ef, ?Ev, ?El; [by exists n'|done|done|done|].
  intros x Hx. destruct (Hview x) as (_ & _ & _ & -> & _ & _).
  assert (targets s' d' = targets s d') as Ht by (unfold targets; by rewrite El, !base_of_at, Eb).
  rewrite Ht in Hx. rewrite decide_False; [by apply Hc'|]. intros [_ Hx']%round_fresh. apply Hx'.
  pose proof (bi_front _ _ _ _ _ _ _ Hinv) as Hfront. unfold frontier in Hfront.
  rewrite Hfront. cbn. right.
  rewrite <-(placed_snd s t' d') in Hx by done. apply list_elem_of_fmap in Hx as (p & -> & Hp').
  apply list_elem_of_fmap. exists p. split; [done|]. apply list_elem_of_bind. eauto.
Qed.

(** ... and [d] is finished now. *)
Lemma round_done_new : state_done s' t d.
Proof.
  destruct (Hview d) as (Eb & Ef & Ev & _ & El & _). decided Eb Ef Ev El.
  split; rewrite ?Eb, ?Ef, ?Ev, ?El.
  - by exists n.
  - done.
  - by intros ->.
  - intros Hne. destruct (edges_at ns0 t); [done|]. lia.
  - intros x Hx. destruct (Hview x) as (_ & _ & _ & -> & _ & _). rewrite decide_True; [done|].
    rewrite <-(placed_edges_snd candidate). fold new. by rewrite <-round_placed, placed_snd.
Qed.

Lemma round_wait t' d' : (t', d') ∈ Q ++ new → base_at s' d' = (-1)%Z ∧ labels_of s' d' = [].
Proof.
  intros [Hp|Hp]%elem_of_app.
  - assert (d' ≠ d) as Hne by (apply (round_other (t', d')); set_solver).
    destruct (Hview d') as (-> & _ & _ & _ & -> & _). rewrite !decide_False by done.
    apply (bi_wait _ _ _ _ _ _ _ Hinv t' d'). by right.
  - assert (d' ∈ slots candidate (edges_at ns0 t)) as Hs.
    { rewrite <-placed_edges_snd. apply list_elem_of_fmap. by exists (t', d'). }
    apply round_fresh in Hs as [_ Hs].
    destruct (bi_free _ _ _ _ _ _ _ Hinv d' Hs) as (Fb & _ & _ & Fl & _).
    destruct (Hview d') as (-> & _ & _ & _ & -> & _).
    rewrite !decide_False; [done|..]; intros ->; apply Hs, round_in_snd.
Qed.

Lemma round_free x : x ∉ ((P ++ (t, d) :: Q) ++ new).*2 → slot_free s' x.
Proof.
  rewrite fmap_app. unfold new. rewrite placed_edges_snd, not_elem_of_app. intros [Hx Hs].
  destruct (bi_free _ _ _ _ _ _ _ Hinv x Hx) as (Fb & Fc & Ff & Fl & Fv).
  assert (x ≠ d) as Hne by (intros ->; apply Hx, round_in_snd).
  destruct (Hview x) as (Eb & Ef & Ev & Ec & El & _). decided Eb Ef Ev El.
  rewrite decide_False in Ec by done. unfold slot_free. rewrite Eb, Ef, Ev, Ec, El. done.
Qed.

Lemma round_occ x :
  occ_at occupied' x = true ↔ x ≤ root ∨ x ∈ ((P ++ (t, d) :: Q) ++ new).*2.
Proof.
  destruct (Hview x) as (_ & _ & _ & _ & _ & ->). rewrite fmap_app. unfold new.
  rewrite placed_edges_snd, elem_of_app. case_decide as E; [tauto|].
  rewrite (bi_occ _ _ _ _ _ _ _ Hinv). tauto.
Qed.

Lemma round_nodes t' n' :
  ns0 !! t' = Some n' → ∃ v,
    <[t := mkTrieNode (tn_edges n) (tn_final n) None]> ns !! t' =
      Some (mkTrieNode (tn_edges n') (tn_final n') v) ∧ (t' ∉ (P ++ [(t, d)]).*1 → v = tn_value n').
Proof.
  intros Hn'. destruct (decide (t' = t)) as [->|Hne].
  - destruct (bi_nodes _ _ _ _ _ _ _ Hinv t n Hn) as (v & Hnt & _).
    rewrite list_lookup_insert_eq by (by eapply lookup_lt_Some). simplify_eq. exists None.
    split; [done|]. intros Hnot. destruct Hnot. rewrite fmap_app. set_solver.
  - rewrite list_lookup_insert_ne by done.
    destruct (bi_nodes _ _ _ _ _ _ _ Hinv t' n' Hn') as (v & ? & Hv).
    exists v. split; [done|]. intros Hnot. apply Hv. intros Hin. apply Hnot. rewrite fmap_app. set_solver.
Qed.

Lemma round_inv :
  sized s' occupied' m' → m ≤ m' ≤ m + C + 1 → pos' ≤ m' →
  build_inv (<[t := mkTrieNode (tn_edges n) (tn_final n) None]> ns) s' occupied'
    (P ++ [(t, d)]) (Q ++ new) pos' m'.
Proof.
  intros Hsz' Hm' Hpos'.
  assert ((P ++ [(t, d)]) ++ Q ++ new = (P ++ (t, d) :: Q) ++ new) as Hshift by (by rewrite <-!app_assoc).
  split; rewrite ?Hshift.
  - done.
  - apply round_front.
  - apply round_nd1.
  - apply round_nd2.
  - apply round_occ.
  - intros x. rewrite fmap_app. unfold new. rewrite placed_edges_snd, elem_of_app.
    intros [Hx|Hx]; [apply (bi_bound _ _ _ _ _ _ _ Hinv) in Hx; lia|]. by apply Hslots.
  - intros t' d' [Hp|[= -> ->]%list_elem_of_singleton]%elem_of_app; [by apply round_done_old|].
    apply round_done_new.
  - apply round_wait.
  - apply round_free.
  - destruct (Hview root) as (_ & _ & _ & -> & _ & _). rewrite decide_False; [exact (bi_root _ _ _ _ _ _ _ Hinv)|].
    intros [? _]%round_fresh. lia.
  - apply round_nodes.
  - pose proof (bi_pos _ _ _ _ _ _ _ Hinv). lia.
  - pose proof (bi_len _ _ _ _ _ _ _ Hinv). rewrite length_app. cbn [length]. lia.
Qed.

End round.

Lemma build_inv_step ns s occupied P t d Q pos m :
  build_inv ns s occupied P ((t, d) :: Q) pos m → (Z.of_nat (m + C) ≤ i32_MAX)%Z →
  ∃ ns' s' occupied' Q' pos' m',
    build_state ns s occupied Q pos t d = Ret (ns', s', occupied', Q', pos') ∧
    build_inv ns' s' occupied' (P ++ [(t, d)]) Q' pos' m'.
Proof.
  intros Hinv Hmax. pose proof (front_sub s P _ (bi_front _ _ _ _ _ _ _ Hinv) t) as Htin.
  rewrite fmap_app, fmap_cons in Htin. specialize (Htin ltac:(set_solver)).
  destruct (lookup_lt_is_Some_2 ns0 t) as [n Hn]; [apply elem_of_seq in Htin; lia|].
  destruct (bi_nodes _ _ _ _ _ _ _ Hinv t n Hn) as (v & Hnt & Hv).
  assert (t ∉ P.*1) as HtP.
  { pose proof (bi_nd1 _ _ _ _ _ _ _ Hinv) as Hnd1. rewrite fmap_app in Hnd1.
    apply NoDup_app in Hnd1 as (_ & Hdisj & _). intros H. apply (Hdisj t H). by left. }
  rewrite (Hv HtP) in Hnt. clear v Hv.
  assert (edges_at ns0 t = tn_edges n) as Hat by (unfold edges_at; by rewrite Hn).
  destruct (bi_wait _ _ _ _ _ _ _ Hinv t d) as [Hnb Hnl]; [by left|].
  destruct (build_state_spec C ns s occupied Q pos t d
              (mkTrieNode (tn_edges n) (tn_final n) (tn_value n)) m)
    as (s' & occ' & pos' & m' & cand & Hrun & Hsz' & Hm' & Hpos' & Hcand & Hslots & Hview); try done.
  { apply Hinv. }
  { cbn. rewrite <-Hat. apply (edges_at_ok lab ns0 t Htrie). }
  { cbn. rewrite <-Hat. eapply Forall_impl; [apply edge_labels|]. by intros ? [_ ?]. }
  { apply (bi_bound _ _ _ _ _ _ _ Hinv), list_elem_of_fmap. exists (t, d). set_solver. }
  { apply (bi_pos _ _ _ _ _ _ _ Hinv). }
  cbn [tn_edges tn_final tn_value] in *. eexists _, s', occ', _, pos', m'. split; [exact Hrun|].
  rewrite <-Hat in Hslots, Hview. rewrite <-Hat at 2.
  apply (round_inv ns s s' occupied occ' P Q t d pos pos' m m' cand n); try done. lia.
Qed.

Lemma build_inv_init :
  build_inv ns0
    (mkDat (replicate (root + 1) (-1)%Z) (replicate (root + 1) (-1)%Z) (replicate (root + 1) false)
       (replicate (root + 1) []) (replicate (root + 1) None))
    (replicate (root + 1) true) [] [(0, root)] (root + 1) (root + 1).
Proof.
  assert (∀ A (dft : A) n x, default dft (replicate n dft !! x) = dft) as Hrep.
  { intros A dft n x. destruct (replicate n dft !! x) eqn:E; [|done].
    by apply lookup_replicate in E as [-> _]. }
  split.
  - split_and!; cbn; by rewrite length_replicate.
  - apply frontier_init.
  - apply NoDup_singleton.
  - apply NoDup_singleton.
  - intros x. unfold occ_at. cbn. rewrite list_elem_of_singleton.
    destruct (decide (x < root + 1)).
    + rewrite lookup_replicate_2 by done. cbn. split; [|done]. intros _. left. lia.
    + rewrite lookup_ge_None_2 by (rewrite length_replicate; lia). cbn. split; [done|]. lia.
  - intros x ->%list_elem_of_singleton. cbn. lia.
  - set_solver.
  - intros t d _. unfold base_at, labels_of. cbn. by rewrite !Hrep.
  - intros x _. unfold slot_free, base_at, check_at, final_at, labels_of, value_at. cbn. by rewrite !Hrep.
  - unfold check_at. cbn. by rewrite Hrep.
  - intros t n Hn. exists (tn_value n). by destruct n.
  - lia.
  - cbn. lia.
Qed.

Lemma build_inv_length ns s occupied P Q pos m :
  build_inv ns s occupied P Q pos m → length P ≤ length ns0.
Proof.
  intros Hinv. rewrite <-(length_fmap fst P). apply NoDup_below.
  - pose proof (bi_nd1 _ _ _ _ _ _ _ Hinv) as Hnd. rewrite fmap_app in Hnd.
    by apply NoDup_app in Hnd as (? & _).
  - apply Forall_forall. intros x Hx.
    assert (x ∈ seq 0 (length ns0)) as Hin.
    { apply (front_sub s P Q (bi_front _ _ _ _ _ _ _ Hinv)). rewrite fmap_app. set_solver. }
    apply elem_of_seq in Hin. lia.
Qed.

Lemma build_loop_ok fuel ns s occupied P Q pos m :
  build_inv ns s occupied P Q pos m → length ns0 < fuel + length P →
  (Z.of_nat (root + 1 + (length ns0 + 1) * (C + 1)) ≤ i32_MAX)%Z →
  ∃ s' ns' occupied' P' pos' m', build_loop fuel ns s occupied Q pos = Ret s' ∧
    build_inv ns' s' occupied' P' [] pos' m'.
Proof.
  revert ns s occupied P Q pos m. induction fuel as [|fuel IH]; intros ns s occupied P Q pos m Hinv Hfuel Hmax.
  { pose proof (build_inv_length _ _ _ _ _ _ _ Hinv). lia. }
  pose proof (build_inv_length _ _ _ _ _ _ _ Hinv) as HP.
  destruct Q as [|[t d] Q]; cbn [build_loop].
  { eexists _, _, _, P, pos, m. split; [done|exact Hinv]. }
  destruct (build_inv_step _ _ _ _ _ _ _ _ _ Hinv) as (ns' & s' & occ' & Q' & pos' & m' & -> & Hinv').
  { pose proof (bi_len _ _ _ _ _ _ _ Hinv). nia. }
  cbn [mbind option_bind]. eapply IH; [exact Hinv'| |done]. rewrite length_app. cbn. lia.
Qed.

(** ** The finished arrays *)

Lemma at_lookup {A} (dft : A) (l : list A) x : x < length l → l !! x = Some (default dft (l !! x)).
Proof. intros [v ->]%lookup_lt_is_Some_2. done. Qed.

Lemma pair_fst_inj (P : list (nat * nat)) t d d' :
  NoDup P.*1 → (t, d) ∈ P → (t, d') ∈ P → d = d'.
Proof.
  induction P as [|[x y] P IH]; [set_solver|]. rewrite fmap_cons. intros [Hx Hnd]%NoDup_cons H1 H2.
  apply elem_of_cons in H1 as [H1|H1], H2 as [H2|H2].
  - congruence.
  - injection H1 as -> ->. destruct Hx. apply list_elem_of_fmap. by exists (x, d').
  - injection H2 as -> ->. destruct Hx. apply list_elem_of_fmap. by exists (x, d).
  - auto.
Qed.

Lemma length_filter_pairs {A B} (P : list (A * B)) (p : A → Prop) (q : B → Prop)
    `{∀ x, Decision (p x)} `{∀ y, Decision (q y)} :
  (∀ x y, (x, y) ∈ P → p x ↔ q y) → length (filter p P.*1) = length (filter q P.*2).
Proof.
  intros Hpq. induction P as [|[x y] P IH]; [done|]. rewrite !fmap_cons, !filter_cons. cbn [fst snd].
  pose proof (Hpq x y ltac:(by left)).
  assert (length (filter p P.*1) = length (filter q P.*2)) by (apply IH; intros; apply Hpq; by right).
  repeat case_decide; cbn; (tauto || congruence).
Qed.

Definition node_final (ns : list TrieNode) (t : nat) : bool :=
  match ns !! t with Some n => tn_final n | None => false end.

Lemma trie_finals_seq (ns : list TrieNode) :
  trie_finals ns = length (filter (λ t, node_final ns t = true) (seq 0 (length ns))).
Proof.
  pose proof (length_filter_pairs (zip (seq 0 (length ns)) ns) (λ t, node_final ns t = true)
                (λ n, tn_final n = true)) as Hp.
  rewrite fst_zip, snd_zip in Hp by (by rewrite length_seq). rewrite Hp; [done|].
  intros t n (i & Hi)%list_elem_of_lookup. apply lookup_zip_Some in Hi as [Ht Hn].
  apply lookup_seq in Ht as [-> _]. unfold node_final. cbn [Nat.add]. by rewrite Hn.
Qed.

Section finished.
Context (ns : list TrieNode) (s : DATCoreShared V) (occupied : list bool).
Context (P : list (nat * nat)) (pos m : nat).
Context (Hinv : build_inv ns s occupied P [] pos m).
Context (Hmax : (Z.of_nat (root + 1 + (length ns0 + 1) * (C + 1)) ≤ i32_MAX)%Z).

Lemma fin_nd : NoDup P.*1 ∧ NoDup P.*2.
Proof.
  pose proof (bi_nd1 _ _ _ _ _ _ _ Hinv) as H1. pose proof (bi_nd2 _ _ _ _ _ _ _ Hinv) as H2.
  by rewrite app_nil_r in H1, H2.
Qed.

Lemma fin_tree : tree (placed s) (0, root) P.
Proof.
  apply frontier_done; [|apply Hinv]. destruct fin_nd as [H _]. by apply NoDup_fmap_1 in H.
Qed.

Lemma fin_size : (Z.of_nat m ≤ i32_MAX)%Z.
Proof.
  pose proof (bi_len _ _ _ _ _ _ _ Hinv). pose proof (build_inv_length _ _ _ _ _ _ _ Hinv). nia.
Qed.

Lemma fin_bound x : x ∈ P.*2 → x < m.
Proof. intros Hx. apply (bi_bound _ _ _ _ _ _ _ Hinv). by rewrite app_nil_r. Qed.

(** Every node is placed. *)
Lemma fin_all t : t < length ns0 → t ∈ P.*1.
Proof.
  pose proof (frontier_fst _ _ _ (bi_front _ _ _ _ _ _ _ Hinv)) as Hf.
  apply frontier_done in Hf; [|apply fin_nd].
  induction t as [t IH] using lt_wf_ind. intros Ht.
  assert (t ∈ seq 0 (length ns0)) as Hin by (apply elem_of_seq; lia).
  destruct (tree_child _ _ _ _ (to_tree _ _ Htrie) Hin) as [->|(p & Hp & Hc)].
  - by apply (tree_root _ _ _ Hf).
  - eapply tree_closed; [exact Hf| |exact Hc]. apply IH.
    + by apply (to_order _ _ Htrie).
    + apply elem_of_seq in Hp. lia.
Qed.

Lemma fin_perm : P.*1 ≡ₚ seq 0 (length ns0).
Proof.
  apply NoDup_Permutation; [apply fin_nd|apply NoDup_seq|]. intros t. rewrite elem_of_seq. split.
  - intros Ht. pose proof (front_sub s P [] (bi_front _ _ _ _ _ _ _ Hinv)) as Hsub.
    rewrite app_nil_r in Hsub. apply Hsub, elem_of_seq in Ht. lia.
  - intros Ht. apply fin_all. lia.
Qed.

Lemma fin_placed t d : (t, d) ∈ P → (placed s (t, d)).*2 = targets s d.
Proof. intros Hp. apply placed_snd. apply (bi_done _ _ _ _ _ _ _ Hinv t d Hp). Qed.

Lemma fin_targets_tree : tree (targets s) root P.*2.
Proof.
  split; [apply fin_nd|]. destruct fin_tree as [_ Hperm]. rewrite Hperm at 1. cbn. f_equiv.
  apply reflexive_eq. pose proof fin_placed as Hpl. clear Hperm. clear -Hpl.
  induction P as [|[t d] P' IH]; [done|]. cbn. rewrite fmap_app, Hpl by (by left). f_equal.
  apply IH. intros t' d' Hp. apply Hpl. by right.
Qed.

Lemma fin_reach t d : (t, d) ∈ P → rtc (λ a b, b ∈ targets s a) root d.
Proof.
  revert d. induction t as [t IH] using lt_wf_ind. intros d Hp.
  destruct (tree_child _ _ _ _ fin_tree Hp) as [[= -> ->]|([t' d'] & Hp' & Hc)]; [done|].
  eapply rtc_r; [apply (IH t'); [|exact Hp']|].
  - apply (to_order _ _ Htrie). unfold placed in Hc. cbn in Hc.
    apply list_elem_of_fmap in Hc as ([l c] & [= -> ->] & Hc). by eapply edge_in_childs.
  - rewrite <-(fin_placed t' d') by done. apply list_elem_of_fmap. by exists (t, d).
Qed.

Lemma fin_target_bound t d x : (t, d) ∈ P → x ∈ targets s d → x ∈ P.*2.
Proof.
  intros Hp Hx. eapply tree_closed; [apply fin_targets_tree| |exact Hx].
  apply list_elem_of_fmap. by exists (t, d).
Qed.

Lemma fin_state t d : (t, d) ∈ P → state_ok s d.
Proof.
  intros Hp. pose proof (bi_sized _ _ _ _ _ _ _ Hinv) as (Hb & Hc & Hf & He & Hv & _).
  destruct (bi_done _ _ _ _ _ _ _ Hinv t d Hp) as [(n & Hn & Hfin & Hval) Hlabs Hleaf Hbase Hck].
  pose proof (edges_at_ok lab ns0 t Htrie) as [Hsort _].
  assert (d < m) as Hd by (apply fin_bound, list_elem_of_fmap; by exists (t, d)).
  pose proof fin_size as Hm. split.
  - lia.
  - lia.
  - intros v Hdv. rewrite (at_lookup false) by lia. fold (final_at s d). rewrite Hfin. f_equal.
    destruct (Forall_lookup_1 _ _ _ _ (to_nodes _ _ Htrie) Hn) as (_ & _ & Hnv).
    destruct (tn_final n) eqn:E; [done|]. unfold value_at in Hval. rewrite Hdv, Hnv in Hval; done.
  - by rewrite Hlabs.
  - rewrite Hlabs. intros Hne. exists (base_at s d). split; [apply at_lookup; lia|].
    apply Hbase. intros E. apply Hne. by rewrite E.
  - intros x Hx. pose proof (fin_bound x (fin_target_bound t d x Hp Hx)).
    rewrite (at_lookup (-1)%Z) by lia. f_equal. by apply Hck.
Qed.

Lemma fin_pair d : d ∈ P.*2 → ∃ t, (t, d) ∈ P.
Proof. intros ([t d'] & -> & Hp)%list_elem_of_fmap. by exists t. Qed.

Lemma fin_layout : dat_layout s root P.*2.
Proof.
  pose proof (bi_sized _ _ _ _ _ _ _ Hinv) as (Hb & Hc & Hf & He & Hv & _). split.
  - unfold same_lengths. lia.
  - intros c Hcr. left. pose proof (bi_root _ _ _ _ _ _ _ Hinv) as Hr. unfold check_at in Hr.
    rewrite Hcr in Hr. cbn in Hr. lia.
  - apply fin_targets_tree.
  - intros d [t Hp]%fin_pair. by eapply fin_reach.
  - intros d [t Hp]%fin_pair. by eapply fin_state.
  - intros d Hd Hout.
    destruct (bi_free _ _ _ _ _ _ _ Hinv d) as (Fb & Fc & Ff & Fl & Fv); [by rewrite app_nil_r|].
    unfold slot_empty. rewrite (at_lookup (-1)%Z (d_base s)), (at_lookup (-1)%Z (d_check s)),
      (at_lookup false (d_final s)), (at_lookup [] (d_edges s)), (at_lookup None (d_values s)) by lia.
    unfold base_at, check_at, final_at, labels_of, value_at in *. by rewrite Fb, Fc, Ff, Fl, Fv.
Qed.

Lemma fin_open c : d_check s !! root = Some c → (c < 0)%Z.
Proof.
  intros Hc. pose proof (bi_root _ _ _ _ _ _ _ Hinv) as Hr. unfold check_at in Hr.
  rewrite Hc in Hr. cbn in Hr. lia.
Qed.

Lemma fin_typed : dat_typed k s.
Proof.
  pose proof (bi_sized _ _ _ _ _ _ _ Hinv) as (Hb & Hc & Hf & He & Hv & _). pose proof fin_size as Hm.
  assert (∀ z, z = (-1)%Z → is_i32 z) as Hneg by (intros z ->; done). split_and!.
  - apply Forall_lookup. intros x z Hz. assert (z = base_at s x) as -> by (unfold base_at; by rewrite Hz).
    destruct (decide (x ∈ P.*2)) as [[t Hp]%fin_pair|Hout].
    + destruct (bi_done _ _ _ _ _ _ _ Hinv t x Hp) as [_ _ Hleaf Hbase _].
      destruct (decide (edges_at ns0 t = [])) as [E|E]; [apply Hneg; auto|].
      specialize (Hbase E). unfold is_i32. lia.
    + apply Hneg. apply (bi_free _ _ _ _ _ _ _ Hinv). by rewrite app_nil_r.
  - apply Forall_lookup. intros x z Hz. assert (z = check_at s x) as -> by (unfold check_at; by rewrite Hz).
    destruct (decide (x ∈ P.*2)) as [Hx|Hout].
    + destruct (tree_child _ _ _ _ fin_targets_tree Hx) as [->|(d & [t Hp]%fin_pair & Hxd)].
      * apply Hneg, (bi_root _ _ _ _ _ _ _ Hinv).
      * destruct (bi_done _ _ _ _ _ _ _ Hinv t d Hp) as [_ _ _ _ Hck]. rewrite Hck by done.
        pose proof (fin_bound d). assert (d ∈ P.*2) by (apply list_elem_of_fmap; by exists (t, d)).
        unfold is_i32. split; [lia|]. specialize (H ltac:(done)). lia.
    + apply Hneg. apply (bi_free _ _ _ _ _ _ _ Hinv). by rewrite app_nil_r.
  - apply Forall_lookup. intros x ls Hl. assert (ls = labels_of s x) as -> by (unfold labels_of; by rewrite Hl).
    destruct (decide (x ∈ P.*2)) as [[t Hp]%fin_pair|Hout].
    + destruct (bi_done _ _ _ _ _ _ _ Hinv t x Hp) as [_ -> _ _ _].
      eapply Forall_impl; [apply edge_labels|]. by intros ? [? _].
    + assert (slot_free s x) as (_ & _ & _ & -> & _); [|constructor].
      apply (bi_free _ _ _ _ _ _ _ Hinv). by rewrite app_nil_r.
Qed.

Lemma fin_walk term d :
  Forall (is_label k) term →
  walk s root term = Some d ↔ ∃ t, path (child ns0) 0 term = Some t ∧ (t, d) ∈ P.
Proof.
  pose proof (tree_root _ _ _ fin_tree) as Hroot. destruct fin_nd as [Hnd1 _].
  revert d. induction term as [|u term IH] using rev_ind; intros d Hl.
  { cbn. split; [intros [= <-]; by exists 0|]. intros (t & [= <-] & Hp). f_equal. by eapply pair_fst_inj. }
  apply Forall_app in Hl as [Hl Hu]. inversion Hu as [|? ? Hu1 _]; subst. unfold walk. rewrite !path_snoc.
  split.
  - intros (p & Hw & Hs). apply (IH p Hl) in Hw as (tp & Hpath & Hp).
    assert (p ∈ P.*2) as HpR by (apply list_elem_of_fmap; by exists (tp, p)).
    apply (layout_step k s root P.*2 fin_typed fin_layout p u d fin_open HpR Hu1) in Hs as [Hin ->].
    destruct (bi_done _ _ _ _ _ _ _ Hinv tp p Hp) as [_ Hlabs _ _ _]. rewrite Hlabs in Hin.
    apply list_elem_of_fmap in Hin as ([u' c] & -> & Hin). cbn [fst] in *. exists c. split.
    + apply path_snoc. exists tp. split; [done|]. apply edge_get_Some; [by apply (edges_at_ok lab)|done].
    + eapply tree_closed; [apply fin_tree|exact Hp|]. unfold placed. cbn [fst snd].
      apply list_elem_of_fmap. by exists (u', c).
  - intros (c & (tp & Hpath & Hc)%path_snoc & Hp).
    assert (tp ∈ P.*1) as ([tp' p] & -> & Hpp)%list_elem_of_fmap.
    { apply fin_all. by eapply trie_path_bound. }
    cbn [fst] in *. exists p. split; [apply IH; eauto|].
    assert (p ∈ P.*2) as HpR by (apply list_elem_of_fmap; by exists (tp', p)).
    apply edge_get_in in Hc.
    apply (layout_step k s root P.*2 fin_typed fin_layout p u d fin_open HpR Hu1).
    destruct (bi_done _ _ _ _ _ _ _ Hinv tp' p Hpp) as [_ Hlabs _ _ _]. rewrite Hlabs. split.
    + apply list_elem_of_fmap. by exists (u, c).
    + eapply pair_fst_inj; [exact Hnd1|exact Hp|].
      eapply tree_closed; [apply fin_tree|exact Hpp|]. unfold placed. cbn [fst snd].
      apply list_elem_of_fmap. by exists (u, c).
Qed.

Lemma fin_finals : finals s P.*2 = trie_finals ns0.
Proof.
  unfold finals. rewrite trie_finals_seq, <-fin_perm. symmetry. apply length_filter_pairs.
  intros t d Hp. pose proof (bi_sized _ _ _ _ _ _ _ Hinv) as (_ & _ & Hf & _).
  assert (d < m) as Hd by (apply fin_bound, list_elem_of_fmap; by exists (t, d)).
  destruct (bi_done _ _ _ _ _ _ _ Hinv t d Hp) as [(n & Hn & Hfin & _) _ _ _ _].
  unfold node_final. rewrite Hn, (at_lookup false) by lia. fold (final_at s d). rewrite Hfin.
  split; [by intros ->|by intros [= ->]].
Qed.

(** Lookup in the arrays is lookup in the trie. *)
Lemma fin_lookup term :
  Forall (is_label k) term →
  contains_term_from s term root = bool_decide (is_Some (trie_get ns0 term)) ∧
  term_value_from s term root = mjoin (trie_get ns0 term).
Proof.
  intros Hl. pose proof (bi_sized _ _ _ _ _ _ _ Hinv) as (_ & _ & Hf & _ & Hv & _).
  unfold contains_term_from, term_value_from, trie_get.
  destruct (path (child ns0) 0 term) as [t|] eqn:Ht.
  - assert (t ∈ P.*1) as ([t' d] & -> & Hp)%list_elem_of_fmap.
    { apply fin_all. by eapply trie_path_bound. }
    cbn [fst] in *. rewrite (proj2 (fin_walk term d Hl)) by eauto.
    assert (d < m) as Hd by (apply fin_bound, list_elem_of_fmap; by exists (t', d)).
    destruct (bi_done _ _ _ _ _ _ _ Hinv t' d Hp) as [(n & Hn & Hfin & Hval) _ _ _ _].
    fold (final_at s d). rewrite (at_lookup None (d_values s)) by lia. fold (value_at s d).
    cbn. rewrite Hn, Hfin, Hval. cbn. by destruct (tn_final n).
  - destruct (walk s root term) as [d|] eqn:Hw; [|done].
    apply fin_walk in Hw as (t & ? & _); [congruence|done].
Qed.

End finished.
End build.

Lemma build_correct k lab b m root C :
  builder_ok lab b m → (∀ l, lab l → is_label k l ∧ l ≤ C) →
  (Z.of_nat (root + 1 + (length (b_nodes b) + 1) * (C + 1)) ≤ i32_MAX)%Z →
  ∃ s R, StaticDATBuilder_build b root = Ret (s, size m) ∧
    dat_typed k s ∧ dat_layout s root R ∧ finals s R = size m ∧
    (∀ c, d_check s !! root = Some c → (c < 0)%Z) ∧
    ∀ term, Forall (is_label k) term →
      contains_term_from s term root = bool_decide (is_Some (m !! term)) ∧
      term_value_from s term root = mjoin (m !! term).
Proof.
  intros [Htrie Hget Hsize Hfin] Hlab Hmax. unfold StaticDATBuilder_build.
  destruct (build_loop_ok k lab (b_nodes b) Htrie root C Hlab (S (length (b_nodes b))) _ _ _ _ _ _ _
              (build_inv_init k lab (b_nodes b) Htrie root C Hlab)) as (s & ns & occ & P & pos & n & Hrun & Hinv);
    [cbn; lia|done|].
  rewrite Hrun. cbn [mbind option_bind]. exists s, P.*2. rewrite <-Hsize. split_and!; [done|..].
  - by eapply fin_typed.
  - by eapply fin_layout.
  - by erewrite fin_finals.
  - by eapply fin_open.
  - intros term Hl. rewrite <-Hget. by eapply fin_lookup.
Qed.

(** [FromIterator]: insert the entries in order, then [from_static_builder]. *)
Definition from_iter (root_state : nat) (entries : list (list nat * option V)) :
    exec (DATCoreShared V * nat) :=
  b ← insert_all StaticDATBuilder_new entries;
  StaticDATBuilder_build b root_state.

(** Room for the states: a node widens the arrays by at most the label range. *)
Definition dat_room (root C : nat) (entries : list (list nat * option V)) : Prop :=
  (Z.of_nat (root + 1 + (letters entries + 2) * (C + 1)) ≤ i32_MAX)%Z.

Lemma from_iter_correct k entries root C :
  Forall (λ e, Forall (λ u, is_label k u ∧ u ≤ C) e.1) entries → dat_room root C entries →
  let m := foldl dict_insert ∅ entries in
  ∃ s R, from_iter root entries = Ret (s, size m) ∧
    dat_typed k s ∧ dat_layout s root R ∧ finals s R = size m ∧
    (∀ c, d_check s !! root = Some c → (c < 0)%Z) ∧
    ∀ term, Forall (is_label k) term →
      contains_term_from s term root = bool_decide (is_Some (m !! term)) ∧
      term_value_from s term root = mjoin (m !! term).
Proof.
  intros Hl Hroom m.
  destruct (insert_all_ok (λ u, is_label k u ∧ u ≤ C) entries StaticDATBuilder_new ∅)
    as (b & Hins & Hb & Hlen); [apply builder_new_ok|done|].
  unfold from_iter. rewrite Hins. cbn [mbind option_bind].
  apply (build_correct k (λ u, is_label k u ∧ u ≤ C) b m root C); [exact Hb|done|]. unfold dat_room in Hroom. cbn in Hlen. nia.
Qed.

End builder.
Arguments StaticDATBuilder V : clear implicits.

Section properties.
Context {V : Type} (k : unit_kind) (entries : list (list nat * option V)) (root C : nat).

(** C13: the double-array trie is the dictionary it is built from.  Any entries,
    in any order and with repetitions, are built without a panic, and lookup in
    the arrays gives the last value given for a term, for every term over the
    alphabet.  The byte dictionary is the case of root 1, the character
    dictionary that of root 0. *)
Theorem static_dat_correct :
  Forall (λ e, Forall (λ u, is_label k u ∧ u ≤ C) e.1) entries → dat_room root C entries →
  let m := foldl dict_insert ∅ entries in
  ∃ s, from_iter root entries = Ret (s, size m) ∧
    ∀ term, Forall (is_label k) term →
      contains_term_from s term root = bool_decide (is_Some (m !! term)) ∧
      term_value_from s term root = mjoin (m !! term).
Proof.
  intros Hl Hroom m. destruct (from_iter_correct k entries root C Hl Hroom)
    as (s & R & Hrun & _ & _ & _ & _ & Hlook). by exists s.
Qed.

(** C14: the builder keeps the promise behind its [unsafe] constructor.  The
    arrays it produces pass [validate_layout], with the declared term count as
    the number of reachable final states. *)
Theorem static_dat_sealed :
  Forall (λ e, Forall (λ u, is_label k u ∧ u ≤ C) e.1) entries → dat_room root C entries →
  ∃ s n, from_iter root entries = Ret (s, n) ∧ validate_layout s root = Ret (Ok n).
Proof.
  intros Hl Hroom. destruct (from_iter_correct k entries root C Hl Hroom)
    as (s & R & Hrun & Htyped & Hlay & Hfin & _).
  exists s, (size (foldl dict_insert ∅ entries)). split; [done|].
  destruct (validate_layout_spec k s root Htyped) as (r & -> & Hiff). f_equal. apply Hiff. eauto.
Qed.
End properties.

(** "abc", "abd" and the empty term, one of them twice *)
Definition example_entries : list (list nat * option nat) :=
  [([97; 98; 99], Some 1); ([], None); ([97; 98; 100], None); ([97; 98; 99], Some 2)].

Lemma example_labels :
  Forall (λ e, Forall (λ u, is_label ByteUnit u ∧ u ≤ 100) e.1) example_entries.
Proof. repeat constructor; try done; lia. Qed.

Lemma example_room : dat_room 1 100 example_entries.
Proof. unfold dat_room. vm_compute. congruence. Qed.

Lemma static_dat_correct_witness :
  ∃ s, from_iter 1 example_entries = Ret (s, 3) ∧
    term_value_from s [97; 98; 99] 1 = Some 2.
Proof.
  destruct (static_dat_correct ByteUnit example_entries 1 100 example_labels example_room)
    as (s & Hrun & Hlook).
  exists s. split; [exact Hrun|].
  apply (Hlook [97; 98; 99]). repeat constructor.
Defined.

Lemma static_dat_sealed_witness :
  ∃ s n, from_iter 1 example_entries = Ret (s, n) ∧ validate_layout s 1 = Ret (Ok n).
Proof. apply (static_dat_sealed ByteUnit example_entries 1 100 example_labels example_room). Defined.
