(* ===== verification/DatIncremental.v ===== *)
(** * The incremental double-array builder

    [DoubleArrayTrieBuilder] of src/src/double_array_trie/ascii.rs: terms are
    inserted into the arrays directly, and the children of a state move to a new
    BASE when a slot is taken.  The free list is never written and the rebuild
    threshold never read; neither is modelled. *)

From stdpp Require Import prelude gmap sets sorting.
From S2P Require Import Prelude Tree DatShared DatBuilder.

Section incremental.
Context {V : Type}.

Record DoubleArrayTrieBuilder := mkInc {
  i_base : list Z;
  i_check : list Z;
  i_final : list bool;
  i_values : list (option V);
  i_count : nat;
}.

Definition DoubleArrayTrieBuilder_new : DoubleArrayTrieBuilder :=
  mkInc [-1; 0]%Z [-1; -1]%Z [false; false] [None; None] 0.

(** ** Array access *)

Definition push_default (b : DoubleArrayTrieBuilder) : DoubleArrayTrieBuilder :=
  mkInc (i_base b ++ [-1]%Z) (i_check b ++ [-1]%Z) (i_final b ++ [false]) (i_values b ++ [None])
    (i_count b).

(** [while n >= self.check.len() { push the defaults }] *)
Definition grow (b : DoubleArrayTrieBuilder) (n : nat) : DoubleArrayTrieBuilder :=
  Nat.iter (S n - length (i_check b)) push_default b.

Definition set_base (b : DoubleArrayTrieBuilder) (x : nat) (v : Z) : exec DoubleArrayTrieBuilder :=
  l ← store (i_base b) x v; Ret (mkInc l (i_check b) (i_final b) (i_values b) (i_count b)).
Definition set_check (b : DoubleArrayTrieBuilder) (x : nat) (v : Z) : exec DoubleArrayTrieBuilder :=
  l ← store (i_check b) x v; Ret (mkInc (i_base b) l (i_final b) (i_values b) (i_count b)).
Definition set_final_at (b : DoubleArrayTrieBuilder) (x : nat) (v : bool) : exec DoubleArrayTrieBuilder :=
  l ← store (i_final b) x v; Ret (mkInc (i_base b) (i_check b) l (i_values b) (i_count b)).
Definition set_value (b : DoubleArrayTrieBuilder) (x : nat) (v : option V) : exec DoubleArrayTrieBuilder :=
  l ← store (i_values b) x v; Ret (mkInc (i_base b) (i_check b) (i_final b) l (i_count b)).

(** ** Transitions *)

Definition inc_transition (b : DoubleArrayTrieBuilder) (state byte : nat) : option nat :=
  match i_base b !! state with
  | None => None
  | Some base =>
      if (base <? 0)%Z then None
      else
        let next := usize_wrapping_add (Z.to_nat base) byte in
        match i_check b !! next with
        | None => None
        | Some c => if (c =? i32 (Z.of_nat state))%Z then Some next else None
        end
  end.

(** [next > 1 && (next >= self.check.len() || self.check[next] < 0)] for every byte *)
Definition base_free (b : DoubleArrayTrieBuilder) (base : nat) (bytes : list nat) : bool :=
  forallb (λ byte,
    let next := base + byte in
    (1 <? next) && (match i_check b !! next with Some c => (c <? 0)%Z | None => true end)) bytes.

(** The candidates from [base] up to [limit]; the search ends at the first slots
    behind the arrays, so that [fuel] need not cover the whole range. *)
Fixpoint search_up (fuel : nat) (b : DoubleArrayTrieBuilder) (bytes : list nat) (limit : Z) (base : nat) :
    exec (option nat) :=
  if (limit <? Z.of_nat base)%Z then Ret None
  else if base_free b base bytes then Ret (Some base)
  else match fuel with O => Panic | S fuel => search_up fuel b bytes limit (S base) end.

Definition find_free_base (b : DoubleArrayTrieBuilder) (start : nat) (bytes : list nat) : exec nat :=
  match bytes with
  | [] => Ret 0
  | _ =>
      let max_byte := max_list bytes in
      let max_base := Z.max 0 (i32_MAX - Z.of_nat max_byte) in
      let start_base := if (Z.of_nat start <=? max_base)%Z then start else Z.to_nat max_base in
      r ← search_up (length (i_check b) + 2) b bytes max_base start_base;
      match r with
      | Some base => Ret base
      | None => r ← search_up start_base b bytes (Z.of_nat start_base - 1) 0; r
      end
  end.

Definition all_bytes : list nat := seq 0 256.

(** The bytes with a transition from [state] *)
Definition child_bytes (b : DoubleArrayTrieBuilder) (state old_base : nat) : list nat :=
  filter (λ byte, i_check b !! (old_base + byte) = Some (i32 (Z.of_nat state))) all_bytes.

(** [for gc_byte in 0u8..=255 { if check[grandchild] == old_child { check[grandchild] = new_child } }] *)
Definition repoint (child_base old_child new_child : nat) (b : DoubleArrayTrieBuilder) (gc_byte : nat) :
    exec DoubleArrayTrieBuilder :=
  let grandchild := child_base + gc_byte in
  match i_check b !! grandchild with
  | Some c => if (c =? i32 (Z.of_nat old_child))%Z then set_check b grandchild (i32 (Z.of_nat new_child)) else Ret b
  | None => Ret b
  end.

(** Moving the child's data into its new slot, extending the arrays up to it; the
    result carries the child's BASE. *)
Definition copy_slot (state old_child new_child : nat) (b : DoubleArrayTrieBuilder) :
    exec (DoubleArrayTrieBuilder * Z) :=
  let b := grow b new_child in
  b ← set_check b new_child (i32 (Z.of_nat state));
  base ← i_base b !! old_child;
  b ← set_base b new_child base;
  final ← i_final b !! old_child;
  b ← set_final_at b new_child final;
  b ← (match i_values b !! old_child with Some value => set_value b new_child value | None => Ret b end);
  Ret (b, base).

Definition clear_slot (old_child : nat) (b : DoubleArrayTrieBuilder) : exec DoubleArrayTrieBuilder :=
  b ← set_check b old_child (-1)%Z;
  b ← set_base b old_child (-1)%Z;
  b ← set_final_at b old_child false;
  if old_child <? length (i_values b) then set_value b old_child None else Ret b.

(** The loop body that moves the child of one byte *)
Definition relocate_child (state old_base new_base byte : nat) (b : DoubleArrayTrieBuilder) (x : nat) :
    exec DoubleArrayTrieBuilder :=
  if x =? byte then Ret b
  else
    let old_child := old_base + x in
    let new_child := new_base + x in
    copied ← copy_slot state old_child new_child b;
    let '(b, base) := copied in
    b ← (if (0 <=? base)%Z
         then foldM (repoint (Z.to_nat base) old_child new_child) b all_bytes
         else Ret b);
    clear_slot old_child b.

Definition add_transition (b : DoubleArrayTrieBuilder) (state byte : nat) :
    exec (DoubleArrayTrieBuilder * nat) :=
  let b := Nat.iter (S state - length (i_base b)) push_default b in
  base ← i_base b !! state;
  placed ← (if (base <? 0)%Z
    then
      base ← find_free_base b ((state * 31) mod 1000 + byte) [byte];
      b ← set_base b state (Z.of_nat base);
      Ret (b, usize_wrapping_add base byte)
    else Ret (b, usize_wrapping_add (Z.to_nat base) byte));
  let '(b, next_state) := placed in
  let b := grow b next_state in
  c ← i_check b !! next_state;
  if (0 <=? c)%Z
  then
    old_base ← i_base b !! state;
    let bytes := child_bytes b state (Z.to_nat old_base) ++ [byte] in
    new_base ← find_free_base b (next_state + 1) bytes;
    b ← foldM (relocate_child state (Z.to_nat old_base) new_base byte) b bytes;
    b ← set_base b state (Z.of_nat new_base);
    let new_next := new_base + byte in
    let b := grow b new_next in
    b ← set_check b new_next (i32 (Z.of_nat state));
    Ret (b, new_next)
  else
    b ← set_check b next_state (i32 (Z.of_nat state));
    Ret (b, next_state).

(** ** Insertion *)

(** The loop body over the bytes of a term *)
Definition follow (acc : DoubleArrayTrieBuilder * nat) (byte : nat) :
    exec (DoubleArrayTrieBuilder * nat) :=
  let '(b, state) := acc in
  match inc_transition b state byte with
  | Some next => Ret (b, next)
  | None => add_transition b state byte
  end.

(** [while state >= self.is_final.len() { self.is_final.push(false) }] and the
    same for the values *)
Definition pad_final (b : DoubleArrayTrieBuilder) (state : nat) : DoubleArrayTrieBuilder :=
  mkInc (i_base b) (i_check b) (resize (Nat.max (length (i_final b)) (S state)) false (i_final b))
    (resize (Nat.max (length (i_values b)) (S state)) None (i_values b)) (i_count b).

Definition count_term (b : DoubleArrayTrieBuilder) : DoubleArrayTrieBuilder :=
  mkInc (i_base b) (i_check b) (i_final b) (i_values b) (S (i_count b)).

(** The empty term marks the root. *)
Definition mark_root (b : DoubleArrayTrieBuilder) (value : option V) : exec (bool * DoubleArrayTrieBuilder) :=
  let b := pad_final b 1 in
  final ← i_final b !! 1;
  if (final : bool)
  then
    b ← (if bool_decide (is_Some value) then set_value b 1 value else Ret b);
    Ret (false, b)
  else
    b ← set_final_at b 1 true;
    b ← set_value b 1 value;
    Ret (true, count_term b).

Definition mark_final (b : DoubleArrayTrieBuilder) (state : nat) (value : option V) :
    exec (bool * DoubleArrayTrieBuilder) :=
  if default false (i_final b !! state)
  then
    b ← (if bool_decide (is_Some value) && (state <? length (i_values b))
         then set_value b state value else Ret b);
    Ret (false, b)
  else
    let b := pad_final b state in
    b ← set_final_at b state true;
    b ← set_value b state value;
    Ret (true, count_term b).

Definition insert_with_value (b : DoubleArrayTrieBuilder) (term : list nat) (value : option V) :
    exec (bool * DoubleArrayTrieBuilder) :=
  match term with
  | [] => mark_root b value
  | _ => acc ← foldM follow (b, 1) term; mark_final (fst acc) (snd acc) value
  end.

(** ** Building *)

Definition derive_edges (b : DoubleArrayTrieBuilder) : list (list nat) :=
  imap (λ state base,
    if (base <? 0)%Z then []
    else filter (λ byte, i_check b !! (Z.to_nat base + byte) = Some (i32 (Z.of_nat state))) all_bytes)
  (i_base b).

Definition DoubleArrayTrieBuilder_build (b : DoubleArrayTrieBuilder) : DATCoreShared V * nat :=
  (mkDat (i_base b) (i_check b) (i_final b) (derive_edges b) (i_values b), i_count b).

(** ** The arrays as functions *)

Definition bt (b : DoubleArrayTrieBuilder) (x : nat) : Z := default (-1)%Z (i_base b !! x).
Definition ct (b : DoubleArrayTrieBuilder) (x : nat) : Z := default (-1)%Z (i_check b !! x).
Definition ft (b : DoubleArrayTrieBuilder) (x : nat) : bool := default false (i_final b !! x).
Definition vt (b : DoubleArrayTrieBuilder) (x : nat) : option V := default None (i_values b !! x).

Definition len4 (b : DoubleArrayTrieBuilder) (n : nat) : Prop :=
  length (i_base b) = n ∧ length (i_check b) = n ∧ length (i_final b) = n ∧ length (i_values b) = n.

(** The same arrays up to trailing defaults *)
Definition same (b b' : DoubleArrayTrieBuilder) : Prop :=
  (∀ x, bt b' x = bt b x ∧ ct b' x = ct b x ∧ ft b' x = ft b x ∧ vt b' x = vt b x) ∧
  i_count b' = i_count b.

Lemma default_snoc {A} (dft : A) (l : list A) x : default dft ((l ++ [dft]) !! x) = default dft (l !! x).
Proof.
  destruct (decide (x < length l)); [by rewrite lookup_app_l|].
  rewrite lookup_app_r, (lookup_ge_None_2 l) by lia.
  destruct (x - length l) as [|j]; [done|]. by rewrite lookup_ge_None_2 by (cbn; lia).
Qed.

Lemma push_spec b n : len4 b n → len4 (push_default b) (S n) ∧ same b (push_default b).
Proof.
  intros (? & ? & ? & ?). split.
  - unfold len4. cbn. rewrite !length_app. cbn. lia.
  - split; [|done]. intros x. unfold bt, ct, ft, vt. cbn. by rewrite !default_snoc.
Qed.

Lemma same_trans b1 b2 b3 : same b1 b2 → same b2 b3 → same b1 b3.
Proof.
  intros [H1 C1] [H2 C2]. split; [|congruence]. intros x.
  destruct (H1 x) as (<- & <- & <- & <-). apply H2.
Qed.

Lemma iter_push_spec i b n :
  len4 b n → len4 (Nat.iter i push_default b) (n + i) ∧ same b (Nat.iter i push_default b).
Proof.
  intros Hlen. induction i as [|i [IHl IHs]].
  { rewrite Nat.add_0_r. split; [done|]. by split. }
  change (Nat.iter (S i) push_default b) with (push_default (Nat.iter i push_default b)).
  destruct (push_spec _ _ IHl) as [Hl Hs]. rewrite Nat.add_succ_r. split; [done|].
  by eapply same_trans.
Qed.

Lemma grow_spec b n x : len4 b n → len4 (grow b x) (Nat.max n (S x)) ∧ same b (grow b x).
Proof.
  intros Hlen. pose proof Hlen as (_ & Hc & _). unfold grow. rewrite Hc.
  destruct (iter_push_spec (S x - n) b n Hlen) as [? ?].
  replace (Nat.max n (S x)) with (n + (S x - n)) by lia. done.
Qed.

Lemma set_base_spec b n x v :
  len4 b n → x < n → ∃ b', set_base b x v = Ret b' ∧ len4 b' n ∧ i_count b' = i_count b ∧
    ∀ y, bt b' y = (if decide (y = x) then v else bt b y) ∧ ct b' y = ct b y ∧ ft b' y = ft b y ∧ vt b' y = vt b y.
Proof.
  intros (? & ? & ? & ?) Hx. unfold set_base. rewrite store_Some by lia. eexists. split; [done|].
  split; [by split_and!; cbn; rewrite ?length_insert|]. split; [done|]. intros y.
  unfold bt, ct, ft, vt. cbn. by rewrite default_insert by lia.
Qed.

Lemma set_check_spec b n x v :
  len4 b n → x < n → ∃ b', set_check b x v = Ret b' ∧ len4 b' n ∧ i_count b' = i_count b ∧
    ∀ y, bt b' y = bt b y ∧ ct b' y = (if decide (y = x) then v else ct b y) ∧ ft b' y = ft b y ∧ vt b' y = vt b y.
Proof.
  intros (? & ? & ? & ?) Hx. unfold set_check. rewrite store_Some by lia. eexists. split; [done|].
  split; [by split_and!; cbn; rewrite ?length_insert|]. split; [done|]. intros y.
  unfold bt, ct, ft, vt. cbn. by rewrite default_insert by lia.
Qed.

Lemma set_final_at_spec b n x v :
  len4 b n → x < n → ∃ b', set_final_at b x v = Ret b' ∧ len4 b' n ∧ i_count b' = i_count b ∧
    ∀ y, bt b' y = bt b y ∧ ct b' y = ct b y ∧ ft b' y = (if decide (y = x) then v else ft b y) ∧ vt b' y = vt b y.
Proof.
  intros (? & ? & ? & ?) Hx. unfold set_final_at. rewrite store_Some by lia. eexists. split; [done|].
  split; [by split_and!; cbn; rewrite ?length_insert|]. split; [done|]. intros y.
  unfold bt, ct, ft, vt. cbn. by rewrite default_insert by lia.
Qed.

Lemma set_value_spec b n x v :
  len4 b n → x < n → ∃ b', set_value b x v = Ret b' ∧ len4 b' n ∧ i_count b' = i_count b ∧
    ∀ y, bt b' y = bt b y ∧ ct b' y = ct b y ∧ ft b' y = ft b y ∧ vt b' y = (if decide (y = x) then v else vt b y).
Proof.
  intros (? & ? & ? & ?) Hx. unfold set_value. rewrite store_Some by lia. eexists. split; [done|].
  split; [by split_and!; cbn; rewrite ?length_insert|]. split; [done|]. intros y.
  unfold bt, ct, ft, vt. cbn. by rewrite default_insert by lia.
Qed.

(** ** The invariant

    A state other than the root is occupied when CHECK names its parent; then it
    lies at the parent's BASE plus a byte.  Every other slot is empty. *)

Definition occupied (b : DoubleArrayTrieBuilder) (x : nat) : Prop := x = 1 ∨ (0 ≤ ct b x)%Z.

Definition vacant (b : DoubleArrayTrieBuilder) (x : nat) : Prop :=
  ct b x = (-1)%Z ∧ bt b x = (-1)%Z ∧ ft b x = false ∧ vt b x = None.

Definition child_of (b : DoubleArrayTrieBuilder) (p x : nat) : Prop :=
  p ≠ x ∧ occupied b p ∧ (0 ≤ bt b p)%Z ∧ ∃ u, u < 256 ∧ x = Z.to_nat (bt b p) + u.

Record inc_ok (b : DoubleArrayTrieBuilder) (n : nat) : Prop := {
  io_len : len4 b n;
  io_two : 2 ≤ n;
  io_root : ct b 1 = (-1)%Z;
  io_parent : ∀ x, (0 ≤ ct b x)%Z → 2 ≤ x ∧ child_of b (Z.to_nat (ct b x)) x;
  io_vacant : ∀ x, ¬ occupied b x → vacant b x;
  io_base : ∀ x, (-1 ≤ bt b x ≤ Z.of_nat n)%Z;
  io_small : (Z.of_nat n + 4000 ≤ i32_MAX)%Z;
}.

Lemma ct_bound b n x : len4 b n → (0 ≤ ct b x)%Z → x < n.
Proof.
  intros (_ & <- & _) H. apply Nat.nle_gt. intros Hge. unfold ct in H.
  rewrite lookup_ge_None_2 in H by done. cbn in H. lia.
Qed.

Lemma occupied_bound b n x : inc_ok b n → occupied b x → x < n.
Proof.
  intros Hok [->|H]; [pose proof (io_two _ _ Hok); lia|]. eapply ct_bound; [apply Hok|done].
Qed.

Lemma i32_nat b n x : inc_ok b n → x < n → i32 (Z.of_nat x) = Z.of_nat x.
Proof. intros Hok Hx. apply i32_id. pose proof (io_small _ _ Hok). unfold is_i32. lia. Qed.

Lemma trans_spec b n x u y :
  inc_ok b n → occupied b x → u < 256 →
  inc_transition b x u = Some y ↔
    (0 ≤ bt b x)%Z ∧ y = Z.to_nat (bt b x) + u ∧ ct b y = Z.of_nat x.
Proof.
  intros Hok Hx Hu. pose proof (occupied_bound b n x Hok Hx) as Hb.
  pose proof (io_len _ _ Hok) as (Lb & Lc & _). pose proof (io_base _ _ Hok x) as Hbase.
  pose proof (io_small _ _ Hok) as Hsmall. unfold inc_transition.
  rewrite (at_lookup (-1)%Z (i_base b)) by lia. fold (bt b x).
  destruct (Z.ltb_spec (bt b x) 0) as [Hneg|Hpos]; [split; [done|lia]|].
  destruct (usize_add_small (Z.to_nat (bt b x)) u) as [_ ->]; [lia..|].
  rewrite (i32_nat b n) by done. unfold ct.
  destruct (i_check b !! (Z.to_nat (bt b x) + u)) as [c|] eqn:Hc.
  - destruct (Z.eqb_spec c (Z.of_nat x)) as [->|Hne].
    + split; [intros [= <-]; by rewrite Hc|]. by intros (_ & -> & _).
    + split; [done|]. intros (_ & -> & E). rewrite Hc in E. done.
  - split; [done|]. intros (_ & -> & E). rewrite Hc in E. cbn in E. lia.
Qed.

(** ** Finding a base *)

Definition free_for (b : DoubleArrayTrieBuilder) (base : nat) (bytes : list nat) : Prop :=
  Forall (λ u, 1 < base + u ∧ (ct b (base + u) < 0)%Z) bytes.

Lemma base_free_spec b base bytes : base_free b base bytes = true ↔ free_for b base bytes.
Proof.
  unfold base_free, free_for. rewrite forallb_forall, Forall_forall.
  setoid_rewrite list_elem_of_In. setoid_rewrite andb_true_iff. setoid_rewrite Nat.ltb_lt.
  unfold ct. split; intros H u Hu; destruct (H u Hu) as [H1 H2]; (split; [done|]).
  - destruct (i_check b !! (base + u)); cbn; [by apply Z.ltb_lt in H2|lia].
  - destruct (i_check b !! (base + u)); cbn in *; [by apply Z.ltb_lt|done].
Qed.

Lemma search_up_spec fuel b n bytes limit base :
  len4 b n → Nat.max n 2 ≤ fuel + base → (Z.of_nat (Nat.max base (Nat.max n 2)) ≤ limit)%Z →
  ∃ r, search_up fuel b bytes limit base = Ret (Some r) ∧
    base ≤ r ≤ Nat.max base (Nat.max n 2) ∧ free_for b r bytes.
Proof.
  intros Hlen. revert base. induction fuel as [|fuel IH]; intros base Hfuel Hlimit; cbn [search_up].
  all: rewrite (proj2 (Z.ltb_ge _ _)) by lia.
  all: destruct (base_free b base bytes) eqn:Hfree;
    [exists base; split; [done|]; split; [lia|by apply base_free_spec]|].
  all: assert (base < Nat.max n 2) as Hlt; [apply Nat.nle_gt; intros Hge;
    apply not_true_iff_false in Hfree; apply Hfree, base_free_spec, Forall_forall; intros u _;
    split; [lia|]; unfold ct; destruct Hlen as (_ & <- & _); by rewrite lookup_ge_None_2 by lia|].
  - lia.
  - destruct (IH (S base)) as (r & -> & Hr & Hf); [lia..|]. exists r. split; [done|]. split; [lia|done].
Qed.

Lemma find_free_base_spec b n start bytes :
  inc_ok b n → bytes ≠ [] → Forall (λ u, u < 256) bytes → start ≤ Nat.max n 1255 →
  ∃ r, find_free_base b start bytes = Ret r ∧ start ≤ r ≤ Nat.max start (Nat.max n 2) ∧
    free_for b r bytes.
Proof.
  intros Hok Hne Hbytes Hstart. unfold find_free_base. destruct bytes as [|u bytes]; [done|].
  set (all := u :: bytes) in *. pose proof (io_small _ _ Hok) as Hsmall.
  assert (max_list all ≤ 255) as Hmax.
  { apply Nat.lt_succ_r. change (S 255) with 256. clear -Hbytes.
    induction all as [|x l IH]; cbn; [lia|]. inversion Hbytes; subst. specialize (IH H2). lia. }
  rewrite (proj2 (Z.leb_le _ _)) by lia.
  destruct (search_up_spec (length (i_check b) + 2) b n all
              (Z.max 0 (i32_MAX - Z.of_nat (max_list all))) start) as (r & -> & Hr & Hf).
  { apply Hok. }
  { destruct (io_len _ _ Hok) as (_ & -> & _). lia. }
  { pose proof (io_two _ _ Hok). lia. }
  cbn. by exists r.
Qed.

(** ** One insertion step as a simulation

    [sim b b' f st u st']: [b'] is [b] with the states renamed by [f] and one new
    transition, from [st] by [u] to the empty state [st']. *)

Record sim (b b' : DoubleArrayTrieBuilder) (f : nat → nat) (st u st' : nat) : Prop := {
  sim_root : f 1 = 1;
  sim_state : ∀ x, occupied b x → occupied b' (f x) ∧ ft b' (f x) = ft b x ∧ vt b' (f x) = vt b x;
  sim_fwd : ∀ x v y, occupied b x → v < 256 → inc_transition b x v = Some y →
    inc_transition b' (f x) v = Some (f y);
  sim_new : inc_transition b' (f st) u = Some st';
  sim_bwd : ∀ x v y', occupied b x → v < 256 → inc_transition b' (f x) v = Some y' →
    (∃ y, inc_transition b x v = Some y ∧ y' = f y) ∨ (x = st ∧ v = u ∧ y' = st');
  sim_leaf : occupied b' st' ∧ ft b' st' = false ∧ vt b' st' = None ∧
    ∀ v, v < 256 → inc_transition b' st' v = None;
  sim_occ : ∀ y, occupied b' y → (∃ x, occupied b x ∧ y = f x) ∨ y = st';
}.

(** The step without a conflict: [st] gets BASE [base] and the free slot
    [base + u] becomes its child. *)
Section extend.
Context (b : DoubleArrayTrieBuilder) (n : nat) (b' : DoubleArrayTrieBuilder) (n' st u base : nat).
Context (Hok : inc_ok b n) (Hst : occupied b st) (Hu : u < 256).
Context (Hbase : (0 ≤ bt b st)%Z → base = Z.to_nat (bt b st)).
Context (Htwo : 2 ≤ base + u) (Hfree : (ct b (base + u) < 0)%Z).
Context (Hlen : len4 b' n') (Hn : n ≤ n') (Hb : base ≤ n') (Hsmall : (Z.of_nat n' + 4000 ≤ i32_MAX)%Z).
Context (Hview : ∀ x, bt b' x = (if decide (x = st) then Z.of_nat base else bt b x) ∧
  ct b' x = (if decide (x = base + u) then Z.of_nat st else ct b x) ∧
  ft b' x = ft b x ∧ vt b' x = vt b x).

Lemma ext_free : ¬ occupied b (base + u).
Proof. intros [|]; lia. Qed.

Lemma ext_occ x : occupied b' x ↔ occupied b x ∨ x = base + u.
Proof.
  unfold occupied. destruct (Hview x) as (_ & -> & _). case_decide; [|tauto]. split; [tauto|]. intros _. right. lia.
Qed.

Lemma ext_base x : (0 ≤ bt b x)%Z → bt b' x = bt b x.
Proof. destruct (Hview x) as (-> & _). case_decide; [|done]. subst x. intros. rewrite Hbase by done. lia. Qed.

Lemma ext_st : bt b' st = Z.of_nat base.
Proof. destruct (Hview st) as (-> & _). by rewrite decide_True. Qed.

Lemma ext_check x : ct b' x = if decide (x = base + u) then Z.of_nat st else ct b x.
Proof. apply Hview. Qed.

Lemma ext_ok : inc_ok b' n'.
Proof.
  split; [done|pose proof (io_two _ _ Hok); lia| | | | |done].
  - rewrite ext_check, decide_False by lia. apply Hok.
  - intros x. rewrite ext_check. intros Hx. destruct (decide (x = base + u)) as [->|Hx'].
    + split; [done|]. rewrite Nat2Z.id. split; [intros E; apply ext_free; by rewrite <-E|].
      split; [apply ext_occ; by left|]. rewrite ext_st. split; [lia|]. exists u. split; [done|lia].
    + destruct (io_parent _ _ Hok x Hx) as (? & Hp & Ho & Hbp & v & Hv & Hxv).
      split; [done|]. split; [done|]. split; [apply ext_occ; by left|]. rewrite ext_base by done. eauto.
  - intros x Hx. rewrite ext_occ in Hx. destruct (io_vacant _ _ Hok x) as (? & ? & ? & ?); [tauto|].
    destruct (Hview x) as (Eb & Ec & Ef & Ev). unfold vacant. rewrite Eb, Ec, Ef, Ev.
    rewrite (decide_False (P := x = st)) by (intros E; apply Hx; left; by rewrite E).
    by rewrite decide_False by tauto.
  - intros x. destruct (Hview x) as (-> & _). pose proof (io_base _ _ Hok x). case_decide; lia.
Qed.

Lemma ext_bwd x v y :
  occupied b x → v < 256 → inc_transition b' x v = Some y →
  inc_transition b x v = Some y ∨ (x = st ∧ v = u ∧ y = base + u).
Proof.
  intros Hx Hv Ht. apply (trans_spec b' n') in Ht as (H0 & Hy & Hc);
    [|apply ext_ok|apply ext_occ; by left|done].
  rewrite ext_check in Hc. destruct (decide (y = base + u)) as [Ey|Hy'].
  - right. assert (x = st) as Ex by lia. rewrite Ex, ext_st in Hy. split_and!; [done|lia|done].
  - left. apply (trans_spec b n); [done..|].
    destruct (io_parent _ _ Hok y) as (_ & _ & _ & Hbp & _); [lia|]. rewrite Hc, Nat2Z.id in Hbp.
    rewrite ext_base in Hy by done. by split_and!.
Qed.

Lemma ext_leaf :
  occupied b' (base + u) ∧ ft b' (base + u) = false ∧ vt b' (base + u) = None ∧
  ∀ v, v < 256 → inc_transition b' (base + u) v = None.
Proof.
  assert (occupied b' (base + u)) as Ho by (apply ext_occ; by right).
  destruct (io_vacant _ _ Hok (base + u) ext_free) as (_ & Vb & Vf & Vv).
  destruct (Hview (base + u)) as (Eb & _ & Ef & Ev). split_and!; [done|by rewrite Ef|by rewrite Ev|].
  intros v Hv. destruct (inc_transition b' (base + u) v) as [y|] eqn:E; [|done].
  apply (trans_spec b' n') in E as (H0 & _); [|apply ext_ok|done..].
  rewrite decide_False in Eb; [lia|]. intros E. apply ext_free. by rewrite E.
Qed.

Lemma extend_sim : inc_ok b' n' ∧ sim b b' id st u (base + u).
Proof.
  split; [apply ext_ok|]. split; unfold id; [done| | | | |apply ext_leaf|].
  - intros x Hx. split; [apply ext_occ; by left|]. destruct (Hview x) as (_ & _ & -> & ->). done.
  - intros x v y Hx Hv Ht. apply (trans_spec b n) in Ht as (H0 & -> & Hc); [|done..].
    apply (trans_spec b' n'); [apply ext_ok|apply ext_occ; by left|done|]. rewrite ext_base by done.
    split_and!; [done..|]. rewrite ext_check, decide_False; [done|]. intros E. rewrite E in Hc. lia.
  - apply (trans_spec b' n'); [apply ext_ok|apply ext_occ; by left|done|]. rewrite ext_st, ext_check, decide_True by done.
    split_and!; [lia|lia|done].
  - intros x v y Hx Hv [Ht|?]%ext_bwd; [left; by exists y|by right|done..].
  - intros y [Hy|Hy]%ext_occ; [left; by exists y|by right].
Qed.
End extend.

(** [b'] is [b] with the states renamed by [f]. *)
Record rename (b b' : DoubleArrayTrieBuilder) (f : nat → nat) : Prop := {
  ren_root : f 1 = 1;
  ren_inj : ∀ x y, occupied b x → occupied b y → f x = f y → x = y;
  ren_state : ∀ x, occupied b x → occupied b' (f x) ∧ ft b' (f x) = ft b x ∧ vt b' (f x) = vt b x;
  ren_fwd : ∀ x v y, occupied b x → v < 256 → inc_transition b x v = Some y →
    inc_transition b' (f x) v = Some (f y);
  ren_bwd : ∀ x v y', occupied b x → v < 256 → inc_transition b' (f x) v = Some y' →
    ∃ y, inc_transition b x v = Some y ∧ y' = f y;
  ren_onto : ∀ y, occupied b' y → ∃ x, occupied b x ∧ y = f x;
}.

Lemma rename_sim b b1 b2 f g st u st' :
  rename b b1 f → f st = st → occupied b st → sim b1 b2 g st u st' → sim b b2 (g ∘ f) st u st'.
Proof.
  intros [Rr Ri Rs Rf Rb Ro] Hst Ho [Sr Ss Sf Sn Sb Sl So]. split; cbn;
    [by rewrite Rr| | |by rewrite Hst| |done|].
  - intros x Hx. destruct (Rs x Hx) as (H1 & <- & <-). by apply Ss.
  - intros x v y Hx Hv Ht. apply Sf; [by apply Rs|done|]. by apply Rf.
  - intros x v y' Hx Hv Ht. destruct (Sb (f x) v y') as [(y & Hy & ->)|(E & -> & ->)]; [by apply Rs|done..| |].
    + left. destruct (Rb x v y) as (z & Hz & ->); [done..|]. by exists z.
    + right. split_and!; [|done..]. apply Ri; [done..|]. by rewrite Hst.
  - intros y Hy. destruct (So y Hy) as [(x1 & Hx1 & ->)| ->]; [left|by right].
    destruct (Ro x1 Hx1) as (x & Hx & ->). by exists x.
Qed.

Lemma same_ok b n b' n' :
  inc_ok b n → same b b' → len4 b' n' → n ≤ n' → (Z.of_nat n' + 4000 ≤ i32_MAX)%Z →
  inc_ok b' n' ∧ rename b b' id.
Proof.
  intros Hok [Hv _] Hlen Hn Hmax.
  assert (∀ x, occupied b' x ↔ occupied b x) as Hocc.
  { intros x. unfold occupied. by destruct (Hv x) as (_ & -> & _). }
  assert (inc_ok b' n') as Hok'.
  { split; [done|pose proof (io_two _ _ Hok); lia| | | | |done].
    - destruct (Hv 1) as (_ & -> & _). apply Hok.
    - intros x. destruct (Hv x) as (_ & -> & _). intros Hx. unfold child_of. rewrite Hocc.
      destruct (Hv (Z.to_nat (ct b x))) as (-> & _). by apply Hok.
    - intros x. rewrite Hocc. unfold vacant. destruct (Hv x) as (-> & -> & -> & ->). apply Hok.
    - intros x. destruct (Hv x) as (-> & _). pose proof (io_base _ _ Hok x). lia. }
  split; [done|].
  assert (∀ x v y, occupied b x → v < 256 → inc_transition b' x v = Some y ↔ inc_transition b x v = Some y) as Ht.
  { intros x v y Hx Hu. rewrite (trans_spec b n), (trans_spec b' n') by (done || by apply Hocc).
    destruct (Hv x) as (-> & _). by destruct (Hv y) as (_ & -> & _). }
  split; unfold id; [done|done| | | |].
  - intros x Hx. destruct (Hv x) as (_ & _ & -> & ->). by rewrite Hocc.
  - intros x v y Hx Hu. by apply Ht.
  - intros x v y Hx Hu Hy. exists y. split; [|done]. by apply Ht.
  - intros y Hy. exists y. split; [by apply Hocc|done].
Qed.

(** ** Moving the children of a state *)

Lemma repoint_step b n child_base old new u :
  len4 b n → old < n → new < n → (Z.of_nat n ≤ i32_MAX)%Z →
  ∃ b', repoint child_base old new b u = Ret b' ∧ len4 b' n ∧ i_count b' = i_count b ∧
    ∀ y, bt b' y = bt b y ∧ ft b' y = ft b y ∧ vt b' y = vt b y ∧
      ct b' y = (if decide (y = child_base + u ∧ ct b y = Z.of_nat old) then Z.of_nat new else ct b y).
Proof.
  intros Hlen Hold Hnew Hn. unfold repoint.
  rewrite (i32_id (Z.of_nat old)), (i32_id (Z.of_nat new)) by (unfold is_i32; lia).
  assert (default (-1)%Z (i_check b !! (child_base + u)) = ct b (child_base + u)) as Hc by done.
  destruct (i_check b !! (child_base + u)) as [c|] eqn:Hl;
    [destruct (Z.eqb_spec c (Z.of_nat old)) as [->|Hne]|]; cbn in Hc.
  1: { destruct (set_check_spec b n (child_base + u) (Z.of_nat new)) as (b1 & -> & ? & ? & Hv); [done| |].
    { apply lookup_lt_Some in Hl. destruct Hlen as (_ & ? & _). lia. }
    exists b1. split_and!; [done..|]. intros y. destruct (Hv y) as (-> & -> & -> & ->).
    split_and!; [done..|]. repeat case_decide; naive_solver. }
  all: exists b; split_and!; [done..|]; intros y; split_and!; [done..|];
    rewrite decide_False; [done|]; intros [-> E]; lia.
Qed.

Lemma repoint_spec b n child_base old new bytes :
  len4 b n → old < n → new < n → (Z.of_nat n ≤ i32_MAX)%Z → old ≠ new →
  ∃ b', foldM (repoint child_base old new) b bytes = Ret b' ∧ len4 b' n ∧ i_count b' = i_count b ∧
    ∀ y, bt b' y = bt b y ∧ ft b' y = ft b y ∧ vt b' y = vt b y ∧
      ct b' y = (if decide (y ∈ map (Nat.add child_base) bytes ∧ ct b y = Z.of_nat old)
                 then Z.of_nat new else ct b y).
Proof.
  intros Hlen Hold Hnew Hn Hne. revert b Hlen. induction bytes as [|u bytes IH]; intros b Hlen; cbn [foldM].
  { exists b. split_and!; [done..|]. intros y. split_and!; [done..|]. rewrite decide_False; [done|].
    intros [Hy _]. by apply elem_of_nil in Hy. }
  destruct (repoint_step b n child_base old new u) as (b1 & -> & Hlen1 & Hc1 & Hv1); [done..|].
  cbn [mbind option_bind]. destruct (IH b1 Hlen1) as (b2 & -> & ? & Hc2 & Hv2).
  exists b2. split_and!; [done..|congruence|]. intros y.
  destruct (Hv2 y) as (-> & -> & -> & ->). destruct (Hv1 y) as (-> & -> & -> & ->).
  split_and!; [done..|]. cbn [map].
  assert (y ∈ child_base + u :: map (Nat.add child_base) bytes ↔
    y = child_base + u ∨ y ∈ map (Nat.add child_base) bytes) as Hin by apply elem_of_cons.
  destruct (decide (ct b y = Z.of_nat old)) as [E|E].
  - destruct (decide (y = child_base + u)) as [Ey|Ey].
    + rewrite (decide_True (P := y = child_base + u ∧ _)) by done.
      rewrite decide_False by (intros [_ ?]; lia). by rewrite decide_True by tauto.
    + rewrite (decide_False (P := y = child_base + u ∧ _)) by tauto. apply decide_ext. tauto.
  - by rewrite (decide_False (P := y = child_base + u ∧ _)), !decide_False by tauto.
Qed.

Lemma repoint_if b n base old new :
  len4 b n → old < n → new < n → (Z.of_nat n ≤ i32_MAX)%Z → old ≠ new →
  ∃ b', (if (0 <=? base)%Z then foldM (repoint (Z.to_nat base) old new) b all_bytes else Ret b) = Ret b' ∧
    len4 b' n ∧ i_count b' = i_count b ∧
    ∀ y, bt b' y = bt b y ∧ ft b' y = ft b y ∧ vt b' y = vt b y ∧
      ct b' y = (if decide ((0 ≤ base)%Z ∧ y ∈ map (Nat.add (Z.to_nat base)) all_bytes ∧ ct b y = Z.of_nat old)
                 then Z.of_nat new else ct b y).
Proof.
  intros Hlen Hold Hnew Hmax Hne. destruct (Z.leb_spec 0 base) as [Hp|Hp].
  - destruct (repoint_spec b n (Z.to_nat base) old new all_bytes) as (b' & -> & ? & ? & Hv); [done..|].
    exists b'. split_and!; [done..|]. intros y. destruct (Hv y) as (-> & -> & -> & ->).
    split_and!; [done..|]. apply decide_ext. tauto.
  - exists b. split_and!; [done..|]. intros y. split_and!; [done..|]. rewrite decide_False; [done|]. lia.
Qed.

Lemma copy_slot_spec b n st old new :
  len4 b n → old < n → st < n → (Z.of_nat n ≤ i32_MAX)%Z →
  ∃ b', copy_slot st old new b = Ret (b', bt b old) ∧ len4 b' (Nat.max n (S new)) ∧ i_count b' = i_count b ∧
    ∀ y, bt b' y = (if decide (y = new) then bt b old else bt b y) ∧
      ct b' y = (if decide (y = new) then Z.of_nat st else ct b y) ∧
      ft b' y = (if decide (y = new) then ft b old else ft b y) ∧
      vt b' y = (if decide (y = new) then vt b old else vt b y).
Proof.
  intros Hlen Hold Hst Hmax. unfold copy_slot. set (n2 := Nat.max n (S new)).
  destruct (grow_spec b n new Hlen) as [L0 [V0 C0]]. fold n2 in L0.
  set (g := grow b new) in *. rewrite i32_id by (unfold is_i32; lia).
  destruct (set_check_spec g n2 new (Z.of_nat st) L0) as (c1 & -> & L1 & C1 & V1); [lia|].
  cbn [mbind option_bind]. pose proof L1 as (Lb & _).
  rewrite (at_lookup (-1)%Z (i_base c1)) by lia. fold (bt c1 old). cbn [mbind option_bind].
  destruct (set_base_spec c1 n2 new (bt c1 old) L1) as (c2 & -> & L2 & C2 & V2); [lia|].
  cbn [mbind option_bind]. pose proof L2 as (_ & _ & Lf & _).
  rewrite (at_lookup false (i_final c2)) by lia. fold (ft c2 old). cbn [mbind option_bind].
  destruct (set_final_at_spec c2 n2 new (ft c2 old) L2) as (c3 & -> & L3 & C3 & V3); [lia|].
  cbn [mbind option_bind]. pose proof L3 as (_ & _ & _ & Lv).
  rewrite (at_lookup None (i_values c3)) by lia. fold (vt c3 old).
  destruct (set_value_spec c3 n2 new (vt c3 old) L3) as (c4 & -> & L4 & C4 & V4); [lia|].
  cbn [mbind option_bind].
  assert (bt c1 old = bt b old ∧ ft c2 old = ft b old ∧ vt c3 old = vt b old) as (Eb & Ef & Ev).
  { destruct (V3 old) as (_ & _ & _ & ->), (V2 old) as (_ & _ & -> & ->), (V1 old) as (-> & _ & -> & ->).
    destruct (V0 old) as (-> & _ & -> & ->). done. }
  exists c4. split; [by rewrite Eb|]. split; [done|]. split; [congruence|]. intros y.
  destruct (V4 y) as (-> & -> & -> & ->), (V3 y) as (-> & -> & -> & ->).
  destruct (V2 y) as (-> & -> & -> & ->), (V1 y) as (-> & -> & -> & ->), (V0 y) as (-> & -> & -> & ->).
  by rewrite Eb, Ef, Ev.
Qed.

Lemma clear_slot_spec b n old :
  len4 b n → old < n →
  ∃ b', clear_slot old b = Ret b' ∧ len4 b' n ∧ i_count b' = i_count b ∧
    ∀ y, bt b' y = (if decide (y = old) then (-1)%Z else bt b y) ∧
      ct b' y = (if decide (y = old) then (-1)%Z else ct b y) ∧
      ft b' y = (if decide (y = old) then false else ft b y) ∧
      vt b' y = (if decide (y = old) then None else vt b y).
Proof.
  intros Hlen Hold. unfold clear_slot.
  destruct (set_check_spec b n old (-1)%Z Hlen) as (c1 & -> & L1 & C1 & V1); [lia|].
  cbn [mbind option_bind].
  destruct (set_base_spec c1 n old (-1)%Z L1) as (c2 & -> & L2 & C2 & V2); [lia|].
  cbn [mbind option_bind].
  destruct (set_final_at_spec c2 n old false L2) as (c3 & -> & L3 & C3 & V3); [lia|].
  cbn [mbind option_bind]. rewrite (proj2 (Nat.ltb_lt _ _)) by (destruct L3 as (_ & _ & _ & ->); lia).
  destruct (set_value_spec c3 n old None L3) as (c4 & -> & L4 & C4 & V4); [lia|].
  exists c4. split; [done|]. split; [done|]. split; [congruence|]. intros y.
  destruct (V4 y) as (-> & -> & -> & ->), (V3 y) as (-> & -> & -> & ->).
  destruct (V2 y) as (-> & -> & -> & ->), (V1 y) as (-> & -> & -> & ->). done.
Qed.

Section relocate.
Context (b : DoubleArrayTrieBuilder) (n st ob nb byte : nat).
Context (Hok : inc_ok b n) (Hst : occupied b st) (Hob : bt b st = Z.of_nat ob).

Definition moved (D : list nat) (x : nat) : Prop := x ∈ map (Nat.add ob) D.
Definition arrived (D : list nat) (x : nat) : Prop := x ∈ map (Nat.add nb) D.

#[local] Instance moved_dec D x : Decision (moved D x).
Proof. unfold moved. apply _. Defined.
#[local] Instance arrived_dec D x : Decision (arrived D x).
Proof. unfold arrived. apply _. Defined.

(** The new number of a state *)
Definition shifted (D : list nat) (x : nat) : nat := if decide (moved D x) then x - ob + nb else x.

(** What the arrays look like when the children of the bytes [D] have moved. *)
Definition relocated (D : list nat) (b' : DoubleArrayTrieBuilder) : Prop :=
  ∀ x,
    bt b' x = (if decide (arrived D x) then bt b (x - nb + ob)
               else if decide (moved D x) then -1 else bt b x)%Z ∧
    ft b' x = (if decide (arrived D x) then ft b (x - nb + ob)
               else if decide (moved D x) then false else ft b x) ∧
    vt b' x = (if decide (arrived D x) then vt b (x - nb + ob)
               else if decide (moved D x) then None else vt b x) ∧
    ct b' x = (if decide (arrived D x) then Z.of_nat st
               else if decide (moved D x) then -1
               else if decide (0 ≤ ct b x)%Z then Z.of_nat (shifted D (Z.to_nat (ct b x)))
               else ct b x)%Z.

Definition sound_bytes (D : list nat) : Prop :=
  NoDup D ∧ Forall (λ u, u < 256 ∧ ct b (ob + u) = Z.of_nat st) D ∧ free_for b nb D.

Lemma moved_child D x : sound_bytes D → moved D x → ct b x = Z.of_nat st.
Proof.
  intros (_ & Hch & _) (u & -> & Hu)%list_elem_of_fmap. by eapply Forall_forall in Hch as [_ ?].
Qed.

Lemma arrived_free D x : sound_bytes D → arrived D x → (ct b x < 0)%Z ∧ 1 < x.
Proof.
  intros (_ & _ & Hf) (u & -> & Hu)%list_elem_of_fmap. eapply Forall_forall in Hf as [? ?]; done.
Qed.

Lemma not_both D x : sound_bytes D → arrived D x → ¬ moved D x.
Proof. intros HD Ha Hm. apply arrived_free in Ha; [|done]. apply moved_child in Hm; [|done]. lia. Qed.

Lemma st_not_moved D : sound_bytes D → ¬ moved D st.
Proof.
  intros HD Hm%moved_child; [|done].
  destruct (io_parent _ _ Hok st) as (_ & Hne & _); [lia|]. rewrite Hm, Nat2Z.id in Hne. done.
Qed.

Lemma st_not_arrived D : sound_bytes D → ¬ arrived D st.
Proof.
  intros HD [Hc Hx]%arrived_free; [|done]. destruct Hst as [->|?]; [lia|]. lia.
Qed.

Lemma moved_snoc D v x : moved (D ++ [v]) x ↔ moved D x ∨ x = ob + v.
Proof. unfold moved. rewrite map_app. cbn. rewrite elem_of_app, list_elem_of_singleton. done. Qed.

Lemma arrived_snoc D v x : arrived (D ++ [v]) x ↔ arrived D x ∨ x = nb + v.
Proof. unfold arrived. rewrite map_app. cbn. rewrite elem_of_app, list_elem_of_singleton. done. Qed.

Lemma sound_snoc D v :
  sound_bytes (D ++ [v]) →
  sound_bytes D ∧ ¬ moved D (ob + v) ∧ ¬ arrived D (nb + v) ∧ ct b (ob + v) = Z.of_nat st ∧
  (ct b (nb + v) < 0)%Z.
Proof.
  intros (Hnd & Hch & Hf). apply NoDup_app in Hnd as (Hnd & Hv & _).
  apply Forall_app in Hch as [Hch [[_ Hc] _]%Forall_cons].
  apply Forall_app in Hf as [Hf [[_ Hc'] _]%Forall_cons].
  split_and!; [done| | |done|done].
  - intros (u & E & Hu)%list_elem_of_fmap. assert (v = u) as -> by lia. apply (Hv u Hu). by left.
  - intros (u & E & Hu)%list_elem_of_fmap. assert (v = u) as -> by lia. apply (Hv u Hu). by left.
Qed.

(** CHECK names the old state of [v] exactly where it did before the move. *)
Lemma relocated_check D b1 v y :
  sound_bytes (D ++ [v]) → relocated D b1 → ct b1 y = Z.of_nat (ob + v) →
  ct b y = Z.of_nat (ob + v) ∧ ¬ arrived D y ∧ ¬ moved D y.
Proof.
  intros HD HR Hy. destruct (sound_snoc D v HD) as (HD' & Hmv & _ & Hc & _).
  assert (ob + v ≠ st) as Hne.
  { intros E. apply (st_not_moved _ HD), moved_snoc. by right. }
  destruct (HR y) as (_ & _ & _ & E). rewrite E in Hy.
  destruct (decide (arrived D y)); [lia|]. destruct (decide (moved D y)); [lia|].
  destruct (decide (0 ≤ ct b y)%Z); [|lia]. unfold shifted in Hy.
  destruct (decide (moved D (Z.to_nat (ct b y)))) as [Hm|Hm]; [|split; [lia|done]].
  exfalso. assert (arrived D (ob + v)) as Ha.
  { apply list_elem_of_fmap in Hm as (u & Eu & Hu). apply list_elem_of_fmap. exists u.
    split; [lia|done]. }
  apply arrived_free in Ha; [lia|done].
Qed.

(** The slots after the move of one child *)
Lemma relocated_step D b1 b2 v :
  sound_bytes (D ++ [v]) → relocated D b1 →
  (∀ y,
    bt b2 y = (if decide (y = ob + v) then (-1)%Z else if decide (y = nb + v) then bt b (ob + v) else bt b1 y) ∧
    ft b2 y = (if decide (y = ob + v) then false else if decide (y = nb + v) then ft b (ob + v) else ft b1 y) ∧
    vt b2 y = (if decide (y = ob + v) then None else if decide (y = nb + v) then vt b (ob + v) else vt b1 y) ∧
    ct b2 y = (if decide (y = ob + v) then (-1)%Z else if decide (y = nb + v) then Z.of_nat st
               else if decide ((0 ≤ bt b (ob + v))%Z ∧
                 y ∈ map (Nat.add (Z.to_nat (bt b (ob + v)))) all_bytes ∧ ct b1 y = Z.of_nat (ob + v))
               then Z.of_nat (nb + v) else ct b1 y)) →
  relocated (D ++ [v]) b2.
Proof.
  intros HD HR H x. destruct (sound_snoc D v HD) as (HD' & Hmv & Hav & Hc & Hf).
  destruct (H x) as (Eb & Ef & Ev & Ec). rewrite Eb, Ef, Ev, Ec. clear Eb Ef Ev Ec H.
  pose proof (HR x) as (Rb & Rf & Rv & Rc).
  destruct (decide (x = ob + v)) as [->|Ho].
  { assert (¬ arrived (D ++ [v]) (ob + v)) as Ha.
    { intros Ha%arrived_free; [lia|done]. }
    assert (moved (D ++ [v]) (ob + v)) as Hm by (apply moved_snoc; by right).
    by rewrite !(decide_False (P := arrived (D ++ [v]) (ob + v))), !(decide_True (P := moved (D ++ [v]) (ob + v))) by done. }
  destruct (decide (x = nb + v)) as [->|Hn].
  { assert (arrived (D ++ [v]) (nb + v)) as Ha by (apply arrived_snoc; by right).
    rewrite !(decide_True (P := arrived (D ++ [v]) (nb + v))) by done.
    by replace (nb + v - nb + ob) with (ob + v) by lia. }
  assert (arrived (D ++ [v]) x ↔ arrived D x) as Ha by (rewrite arrived_snoc; naive_solver).
  assert (moved (D ++ [v]) x ↔ moved D x) as Hm by (rewrite moved_snoc; naive_solver).
  rewrite !(decide_ext (arrived (D ++ [v]) x) (arrived D x)) by done.
  rewrite !(decide_ext (moved (D ++ [v]) x) (moved D x)) by done.
  split_and!; [done..|].
  match goal with |- (if @decide ?P ?d then _ else _) = _ => destruct (@decide P d) as [Hg|Hg] end.
  - destruct Hg as (_ & _ & Hg). apply (relocated_check D b1 v x HD HR) in Hg as (Hg & Ha' & Hm').
    rewrite !decide_False by done. rewrite decide_True by lia. unfold shifted. rewrite Hg, Nat2Z.id.
    rewrite decide_True by (apply moved_snoc; by right). lia.
  - rewrite Rc. destruct (decide (arrived D x)); [done|]. destruct (decide (moved D x)); [done|].
    destruct (decide (0 ≤ ct b x)%Z) as [Hx|]; [|done]. f_equal. unfold shifted.
    assert (ct b x ≠ Z.of_nat (ob + v)) as Hne.
    { intros E. destruct (io_parent _ _ Hok x Hx) as (_ & _ & _ & Hb & u & Hu & Hxu).
      rewrite E, Nat2Z.id in Hb, Hxu. apply Hg. split_and!; [done| |].
      - apply list_elem_of_fmap. exists u. split; [done|]. apply elem_of_seq. lia.
      - rewrite Rc, E. unfold shifted. rewrite Nat2Z.id, decide_False by done. done. }
    apply decide_ext. rewrite moved_snoc. split; [by left|]. intros [|]; [done|lia].
Qed.

Lemma relocate_child_spec D b1 n1 v :
  sound_bytes (D ++ [v]) → relocated D b1 → len4 b1 n1 → n ≤ n1 → v ≠ byte →
  (Z.of_nat (Nat.max n1 (S (nb + v))) ≤ i32_MAX)%Z →
  ∃ b2, relocate_child st ob nb byte b1 v = Ret b2 ∧ len4 b2 (Nat.max n1 (S (nb + v))) ∧
    i_count b2 = i_count b1 ∧ relocated (D ++ [v]) b2.
Proof.
  intros HD HR Hlen Hn Hv Hmax. destruct (sound_snoc D v HD) as (HD' & Hmv & Hav & Hc & Hf).
  assert (¬ arrived D (ob + v)) as Hao by (intros Ha%arrived_free; [lia|done]).
  assert (ob + v < n1) as Ho by (enough (ob + v < n) by lia; apply (ct_bound b); [apply Hok|lia]).
  pose proof (occupied_bound _ _ _ Hok Hst) as Hstn.
  assert (bt b1 (ob + v) = bt b (ob + v) ∧ ft b1 (ob + v) = ft b (ob + v) ∧ vt b1 (ob + v) = vt b (ob + v))
    as (Rb & Rf & Rv).
  { destruct (HR (ob + v)) as (-> & -> & -> & _).
    by rewrite !(decide_False (P := arrived D (ob + v))), !(decide_False (P := moved D (ob + v))) by done. }
  unfold relocate_child. rewrite (proj2 (Nat.eqb_neq _ _)) by done.
  destruct (copy_slot_spec b1 n1 st (ob + v) (nb + v)) as (c4 & -> & L4 & C4 & V4); [done|lia..|].
  set (n2 := Nat.max n1 (S (nb + v))) in *. rewrite Rb. cbn [mbind option_bind].
  destruct (repoint_if c4 n2 (bt b (ob + v)) (ob + v) (nb + v)) as (c5 & -> & L5 & C5 & V5); [done|lia..| |].
  { intros E. rewrite E in Hc. lia. }
  cbn [mbind option_bind].
  destruct (clear_slot_spec c5 n2 (ob + v)) as (c9 & -> & L9 & C9 & V9); [done|lia|].
  exists c9. split; [done|]. split; [done|]. split; [congruence|].
  apply (relocated_step D b1 c9 v HD HR). intros y.
  destruct (V9 y) as (-> & -> & -> & ->), (V5 y) as (-> & -> & -> & ->), (V4 y) as (-> & -> & -> & ->).
  rewrite Rb, Rf, Rv. split_and!; [done..|].
  destruct (decide (y = ob + v)); [done|]. destruct (decide (y = nb + v)) as [->|]; [|done].
  rewrite decide_False; [done|]. intros (_ & _ & E). apply (st_not_moved (D ++ [v]) HD), moved_snoc. right. lia.
Qed.

Lemma relocate_all D1 D2 b1 n1 :
  sound_bytes (D1 ++ D2) → byte ∉ D2 → relocated D1 b1 → len4 b1 n1 → n ≤ n1 →
  (Z.of_nat (Nat.max n1 (nb + 256)) ≤ i32_MAX)%Z →
  ∃ b2 n2, foldM (relocate_child st ob nb byte) b1 D2 = Ret b2 ∧ len4 b2 n2 ∧
    n1 ≤ n2 ≤ Nat.max n1 (nb + 256) ∧ i_count b2 = i_count b1 ∧ relocated (D1 ++ D2) b2.
Proof.
  revert D1 b1 n1. induction D2 as [|v D2 IH]; intros D1 b1 n1 HD Hb HR Hlen Hn Hmax; cbn [foldM].
  { exists b1, n1. rewrite app_nil_r. split_and!; (done || lia). }
  apply not_elem_of_cons in Hb as [Hv Hb].
  rewrite (app_assoc D1 [v] D2 : D1 ++ v :: D2 = _) in *.
  assert (v < 256 ∧ sound_bytes (D1 ++ [v])) as [Hv' HD1].
  { destruct HD as (Hnd & Hch & Hf). apply NoDup_app in Hnd as (? & _ & _).
    apply Forall_app in Hch as [Hch _]. apply Forall_app in Hf as [Hf _].
    split; [|done]. apply Forall_app in Hch as [_ Hch]. by apply Forall_cons in Hch as [[? _] _]. }
  destruct (relocate_child_spec D1 b1 n1 v) as (b2 & -> & L2 & C2 & R2); [done..|lia|].
  cbn [mbind option_bind].
  destruct (IH (D1 ++ [v]) b2 _ HD Hb R2 L2) as (b3 & n3 & -> & L3 & Hn3 & C3 & R3); [lia..|].
  exists b3, n3. split_and!; [done..|lia|lia|congruence|done].
Qed.

Lemma relocated_nil : relocated [] b.
Proof.
  intros x. assert (¬ arrived [] x ∧ ¬ moved [] x) as [Ha Hm] by (split; apply not_elem_of_nil).
  rewrite !(decide_False (P := arrived [] x)), ?(decide_False (P := moved [] x)) by done.
  split_and!; [done..|]. case_decide; [|done]. unfold shifted. rewrite decide_False by apply not_elem_of_nil.
  lia.
Qed.

(** ** The arrays after the move

    [b2] is the result of the loop and of writing the new BASE of [st]; [D] are all
    the bytes with a child. *)
Section renamed.
Context (D : list nat) (HD : sound_bytes D) (Hall : ∀ x, ct b x = Z.of_nat st → moved D x).
Context (b1 b2 : DoubleArrayTrieBuilder) (n2 : nat) (HR : relocated D b1).
Context (Hlen : len4 b2 n2) (Hn : n ≤ n2) (Hnb : nb ≤ n2) (Hmax : (Z.of_nat n2 + 4000 ≤ i32_MAX)%Z).
Context (Hv : ∀ x, bt b2 x = (if decide (x = st) then Z.of_nat nb else bt b1 x) ∧
  ct b2 x = ct b1 x ∧ ft b2 x = ft b1 x ∧ vt b2 x = vt b1 x).

Lemma ren_arrived x : arrived D x → ∃ u, x = nb + u ∧ u ∈ D ∧ u < 256 ∧ ct b (ob + u) = Z.of_nat st.
Proof.
  intros (u & -> & Hu)%list_elem_of_fmap. exists u. split_and!; [done..| |];
    destruct HD as (_ & Hch & _); by eapply Forall_forall in Hch as [? ?].
Qed.

Lemma shifted_moved x : moved D x → ∃ u, x = ob + u ∧ u ∈ D ∧ u < 256 ∧ shifted D x = nb + u ∧ arrived D (nb + u).
Proof.
  intros Hm. pose proof Hm as (u & -> & Hu)%list_elem_of_fmap. exists u.
  split_and!; [done..| | |].
  - destruct HD as (_ & Hch & _). by eapply Forall_forall in Hch as [? ?].
  - unfold shifted. rewrite decide_True by done. lia.
  - apply list_elem_of_fmap. by exists u.
Qed.

Lemma shifted_fixed x : ¬ moved D x → shifted D x = x.
Proof. intros. unfold shifted. by rewrite decide_False. Qed.

Lemma ren_occ x : occupied b x → occupied b2 (shifted D x).
Proof.
  intros Ho. destruct (decide (moved D x)) as [Hm|Hm].
  - destruct (shifted_moved x Hm) as (u & _ & _ & _ & -> & Ha). right.
    destruct (Hv (nb + u)) as (_ & -> & _). destruct (HR (nb + u)) as (_ & _ & _ & ->).
    rewrite decide_True by done. lia.
  - rewrite shifted_fixed by done. destruct Ho as [->|Ho]; [by left|right].
    destruct (Hv x) as (_ & -> & _). destruct (HR x) as (_ & _ & _ & ->).
    rewrite decide_False by (intros Ha%arrived_free; [lia|done]). rewrite decide_False, decide_True by done. lia.
Qed.

Lemma ren_view x :
  occupied b x → x ≠ st →
  bt b2 (shifted D x) = bt b x ∧ ft b2 (shifted D x) = ft b x ∧ vt b2 (shifted D x) = vt b x.
Proof.
  intros Ho Hne. destruct (Hv (shifted D x)) as (-> & _ & -> & ->).
  destruct (HR (shifted D x)) as (-> & -> & -> & _).
  destruct (decide (moved D x)) as [Hm|Hm].
  - destruct (shifted_moved x Hm) as (u & -> & _ & _ & -> & Ha).
    rewrite (decide_False (P := nb + u = st)) by (intros E; apply (st_not_arrived D HD); by rewrite <-E).
    rewrite !(decide_True (P := arrived D (nb + u))) by done.
    by replace (nb + u - nb + ob) with (ob + u) by lia.
  - rewrite shifted_fixed by done. rewrite (decide_False (P := x = st)) by done.
    assert (¬ arrived D x) as Ha.
    { intros [Hc Hx]%arrived_free; [|done]. destruct Ho as [->|?]; lia. }
    by rewrite !(decide_False (P := arrived D x)), !(decide_False (P := moved D x)) by done.
Qed.

Lemma ren_st : shifted D st = st ∧ bt b2 st = Z.of_nat nb ∧ ft b2 st = ft b st ∧ vt b2 st = vt b st.
Proof.
  assert (¬ moved D st ∧ ¬ arrived D st) as [Hm Ha].
  { split; [by apply st_not_moved|by apply st_not_arrived]. }
  split; [by apply shifted_fixed|]. destruct (Hv st) as (-> & _ & -> & ->).
  destruct (HR st) as (_ & -> & -> & _). rewrite decide_True by done.
  by rewrite !(decide_False (P := arrived D st)), !(decide_False (P := moved D st)) by done.
Qed.

(** CHECK at a slot of the new arrays *)
Lemma ren_check x :
  (0 ≤ ct b2 x)%Z →
  (arrived D x ∧ ct b2 x = Z.of_nat st) ∨
  (¬ arrived D x ∧ ¬ moved D x ∧ (0 ≤ ct b x)%Z ∧ ct b x ≠ Z.of_nat st ∧
   ct b2 x = Z.of_nat (shifted D (Z.to_nat (ct b x)))).
Proof.
  destruct (Hv x) as (_ & -> & _). destruct (HR x) as (_ & _ & _ & ->).
  destruct (decide (arrived D x)); [by left|]. destruct (decide (moved D x)) as [|Hm]; [lia|].
  destruct (decide (0 ≤ ct b x)%Z); [|lia]. right. split_and!; [done..| |done].
  intros E. apply Hm, Hall, E.
Qed.

Lemma shifted_inj x y : occupied b x → occupied b y → shifted D x = shifted D y → x = y.
Proof.
  assert (∀ z, arrived D z → ¬ occupied b z) as Hao.
  { intros z [Hc Hz]%arrived_free [->|?]; [lia|lia|done]. }
  intros Hx Hy. destruct (decide (moved D x)) as [Hmx|Hmx], (decide (moved D y)) as [Hmy|Hmy].
  - destruct (shifted_moved x Hmx) as (u & -> & _ & _ & -> & _), (shifted_moved y Hmy) as (w & -> & _ & _ & -> & _). lia.
  - destruct (shifted_moved x Hmx) as (u & -> & _ & _ & -> & Ha). rewrite (shifted_fixed y Hmy).
    intros <-. by destruct (Hao _ Ha).
  - destruct (shifted_moved y Hmy) as (u & -> & _ & _ & -> & Ha). rewrite (shifted_fixed x Hmx).
    intros ->. by destruct (Hao _ Ha).
  - by rewrite !shifted_fixed.
Qed.

Lemma ren_ok : inc_ok b2 n2.
Proof.
  pose proof ren_st as (Est & Ebst & _). split; [done|pose proof (io_two _ _ Hok); lia| | | | |done].
  - destruct (decide (0 ≤ ct b2 1)%Z) as [H|H].
    + destruct (ren_check 1 H) as [[Ha _]|(_ & _ & Hc & _)].
      * apply arrived_free in Ha; [lia|done].
      * rewrite (io_root _ _ Hok) in Hc. lia.
    + destruct (Hv 1) as (_ & E & _). destruct (HR 1) as (_ & _ & _ & E'). rewrite E' in E.
      destruct (decide (arrived D 1)); [lia|]. destruct (decide (moved D 1)); [done|].
      rewrite (io_root _ _ Hok) in E. by rewrite decide_False in E by lia.
  - intros x Hx. destruct (ren_check x Hx) as [[Ha E]|(Ha & Hm & Hc & Hne & E)]; rewrite E, Nat2Z.id.
    + destruct (ren_arrived x Ha) as (u & -> & Hu & Hu' & _). destruct (arrived_free D (nb + u) HD Ha).
      split; [lia|]. split; [intros E'; rewrite <-E' in Ha; by apply (st_not_arrived D HD)|].
      split; [rewrite <-Est; by apply ren_occ|]. rewrite Ebst. split; [lia|].
      exists u. split; [done|]. lia.
    + destruct (io_parent _ _ Hok x Hc) as (Hx2 & Hp & Ho & Hb & u & Hu & Hxu).
      split; [done|]. split.
      { destruct (decide (moved D (Z.to_nat (ct b x)))) as [Hm'|Hm'].
        - destruct (shifted_moved _ Hm') as (w & _ & _ & _ & -> & Ha'). by intros <-.
        - by rewrite shifted_fixed. }
      split; [by apply ren_occ|].
      destruct (ren_view (Z.to_nat (ct b x)) Ho) as (-> & _); [lia|]. eauto.
  - intros x Hx. assert (¬ arrived D x) as Ha.
    { intros Ha. apply Hx. right. destruct (Hv x) as (_ & -> & _). destruct (HR x) as (_ & _ & _ & ->).
      rewrite decide_True by done. lia. }
    assert (x ≠ st) as Hst' by (intros ->; apply Hx; rewrite <-Est; by apply ren_occ).
    unfold vacant. destruct (Hv x) as (-> & -> & -> & ->). rewrite decide_False by done.
    destruct (HR x) as (-> & -> & -> & ->). rewrite !(decide_False (P := arrived D x)) by done.
    destruct (decide (moved D x)) as [|Hm]; [done|].
    assert (vacant b x) as (Ec & Eb & Ef & Ev).
    { apply (io_vacant _ _ Hok). intros Ho. apply Hx. rewrite <-(shifted_fixed x Hm). by apply ren_occ. }
    rewrite decide_False by lia. done.
  - intros x. destruct (Hv x) as (-> & _). case_decide; [lia|]. destruct (HR x) as (-> & _).
    pose proof (io_base _ _ Hok x). pose proof (io_base _ _ Hok (x - nb + ob)). repeat case_decide; lia.
Qed.

Lemma ren_rename : rename b b2 (shifted D).
Proof.
  pose proof ren_ok as Hok2. pose proof ren_st as (Est & Ebst & Efst & Evst). split.
  - apply shifted_fixed. intros Hm. apply moved_child in Hm; [|done]. rewrite (io_root _ _ Hok) in Hm. lia.
  - apply shifted_inj.
  - intros x Hx. split; [by apply ren_occ|]. destruct (decide (x = st)) as [->|Hne].
    + by rewrite Est.
    + by apply ren_view.
  - intros x v y Hx Hu Ht. apply (trans_spec b n) in Ht as (Hb & -> & Hc); [|done..].
    apply (trans_spec b2 n2); [done|by apply ren_occ|done|].
    destruct (decide (x = st)) as [->|Hne].
    + destruct (shifted_moved _ (Hall _ Hc)) as (w & Ew & _ & _ & -> & Ha).
      rewrite Est, Ebst. split_and!; [lia|rewrite Hob in Ew; lia|].
      destruct (Hv (nb + w)) as (_ & -> & _). destruct (HR (nb + w)) as (_ & _ & _ & ->).
      by rewrite decide_True.
    + destruct (ren_view x Hx Hne) as (-> & _). set (y := Z.to_nat (bt b x) + v) in *.
      assert (¬ moved D y) as Hm by (intros E%moved_child; [lia|done]). rewrite (shifted_fixed y Hm).
      split_and!; [done..|]. destruct (Hv y) as (_ & -> & _). destruct (HR y) as (_ & _ & _ & ->).
      rewrite decide_False by (intros Ha%arrived_free; [lia|done]).
      rewrite decide_False, decide_True by (done || lia). by rewrite Hc, Nat2Z.id.
  - intros x v y' Hx Hu Ht. apply (trans_spec b2 n2) in Ht as (Hb & Hy & Hc); [|done|by apply ren_occ|done].
    assert (0 ≤ ct b2 y')%Z as Hc0 by lia.
    destruct (ren_check y' Hc0) as [[Ha E]|(Ha & Hm & Hcb & Hne & E)].
    + assert (x = st) as Ex by (apply shifted_inj; [done..|rewrite Est; lia]). subst x.
      destruct (ren_arrived y' Ha) as (u & -> & Hu1 & Hu2 & Hcu).
      rewrite Est, Ebst in Hy. assert (u = v) as -> by lia. exists (ob + v).
      assert (moved D (ob + v)) as Hm by (apply list_elem_of_fmap; by exists v).
      destruct (shifted_moved _ Hm) as (w & Ew & _ & _ & -> & _).
      split; [|lia]. apply (trans_spec b n); [done..|]. rewrite Hob. split_and!; [lia|lia|done].
    + assert (Z.to_nat (ct b y') = x) as Ex.
      { apply shifted_inj; [by apply (io_parent _ _ Hok)|done|lia]. }
      exists y'. rewrite (shifted_fixed y' Hm). split; [|done].
      assert (x ≠ st) as Hxs by lia. destruct (ren_view x Hx Hxs) as (Eb & _). rewrite Eb in Hb, Hy.
      apply (trans_spec b n); [done..|]. split_and!; [done|done|lia].
  - intros y [->|Hy].
    { exists 1. split; [by left|]. symmetry. apply shifted_fixed. intros Hm%moved_child; [|done].
      rewrite (io_root _ _ Hok) in Hm. lia. }
    destruct (ren_check y Hy) as [[Ha _]|(_ & Hm & Hc & _)].
    + destruct (ren_arrived y Ha) as (u & -> & Hu & _ & Hcu). exists (ob + u). split; [right; lia|].
      assert (moved D (ob + u)) as Hm by (apply list_elem_of_fmap; by exists u).
      destruct (shifted_moved _ Hm) as (w & Ew & _ & _ & -> & _). lia.
    + exists y. split; [by right|]. by rewrite shifted_fixed.
Qed.
End renamed.

End relocate.

(** ** Adding a transition *)

Lemma child_bytes_spec b n st ob :
  inc_ok b n → occupied b st → bt b st = Z.of_nat ob →
  NoDup (child_bytes b st ob) ∧
  (∀ u, u ∈ child_bytes b st ob ↔ u < 256 ∧ ct b (ob + u) = Z.of_nat st) ∧
  ∀ x, ct b x = Z.of_nat st → ∃ u, x = ob + u ∧ u ∈ child_bytes b st ob.
Proof.
  intros Hok Hst Hob. unfold child_bytes.
  rewrite (i32_nat b n) by (done || by apply (occupied_bound b)).
  assert (∀ x, i_check b !! x = Some (Z.of_nat st) ↔ ct b x = Z.of_nat st) as Hct.
  { intros x. unfold ct. destruct (i_check b !! x); cbn; [naive_solver|]. split; [done|lia]. }
  assert (∀ u, u ∈ filter (λ u, i_check b !! (ob + u) = Some (Z.of_nat st)) all_bytes ↔
    u < 256 ∧ ct b (ob + u) = Z.of_nat st) as Hin.
  { intros u. rewrite list_elem_of_filter, Hct. unfold all_bytes. rewrite elem_of_seq. split; [intros [? ?]|intros [? ?]]; (split; [lia|lia]). }
  split; [apply NoDup_filter, NoDup_seq|]. split; [done|].
  intros x Hx. destruct (io_parent _ _ Hok x) as (_ & _ & _ & _ & u & Hu & Hxu); [lia|].
  rewrite Hx, Nat2Z.id, Hob, Nat2Z.id in Hxu. subst x. exists u. split; [done|]. by apply Hin.
Qed.

(** Moving the children leaves a free slot for the new byte. *)
Lemma relocate_rename b n st ob byte next :
  inc_ok b n → occupied b st → bt b st = Z.of_nat ob → byte < 256 → next < n →
  inc_transition b st byte = None → (Z.of_nat n + 5000 ≤ i32_MAX)%Z →
  let bytes := child_bytes b st ob ++ [byte] in
  ∃ nb b1 b2 n2 f, find_free_base b (next + 1) bytes = Ret nb ∧
    foldM (relocate_child st ob nb byte) b bytes = Ret b1 ∧
    set_base b1 st (Z.of_nat nb) = Ret b2 ∧
    inc_ok b2 n2 ∧ n ≤ n2 ≤ n + 256 ∧ nb ≤ n ∧ i_count b2 = i_count b ∧ f st = st ∧ rename b b2 f ∧
    bt b2 st = Z.of_nat nb ∧ 2 ≤ nb + byte ∧ (ct b2 (nb + byte) < 0)%Z.
Proof.
  intros Hok Hst Hob Hbyte Hnext Hnone Hmax bytes.
  destruct (child_bytes_spec b n st ob) as (Hnd & Hin & Hall); [done..|].
  set (D := child_bytes b st ob) in *. pose proof (occupied_bound b n st Hok Hst) as Hstn.
  destruct (find_free_base_spec b n (next + 1) bytes) as (nb & -> & Hnb & Hfree); [done| | |lia|].
  { unfold bytes. by destruct D. }
  { apply Forall_app. split; [|by apply Forall_singleton]. apply Forall_forall. intros u Hu. by apply Hin. }
  apply Forall_app in Hfree as [Hfree [Hbf1 Hbf2]%Forall_singleton].
  assert (sound_bytes b st ob nb D) as HD.
  { split; [done|]. split; [|done]. apply Forall_forall. intros u. apply Hin. }
  assert (byte ∉ D) as Hbyte'.
  { intros [_ Hc]%Hin. assert (inc_transition b st byte = Some (ob + byte)); [|congruence].
    apply (trans_spec b n); [done..|]. rewrite Hob. split_and!; [lia|lia|done]. }
  assert (∀ x, ct b x = Z.of_nat st → moved ob D x) as Hmoved.
  { intros x Hx. destruct (Hall x Hx) as (u & -> & Hu). apply list_elem_of_fmap. by exists u. }
  pose proof (io_two _ _ Hok) as Htwo.
  destruct (relocate_all b n st ob nb byte Hok Hst [] D b n) as (b1 & n1 & Hrun & L1 & Hn1 & C1 & R1);
    [done|done|by apply relocated_nil|apply Hok|lia|lia|]. cbn [app] in R1.
  destruct (set_base_spec b1 n1 st (Z.of_nat nb) L1) as (b2 & Hb2 & L2 & C2 & V2); [lia|].
  assert (¬ arrived nb D (nb + byte)) as Hna.
  { intros (u & E & Hu)%list_elem_of_fmap. assert (byte = u) as -> by lia. done. }
  destruct (ren_st b n st ob nb Hok Hst Hob D HD b1 b2 R1 V2) as (Efst & Ebst & _).
  exists nb, b1, b2, n1, (shifted ob nb D). split; [done|]. split.
  { unfold bytes. rewrite foldM_app, Hrun. cbn [mbind option_bind foldM]. unfold relocate_child. by rewrite Nat.eqb_refl. }
  split; [done|]. split; [eapply ren_ok; (done || lia)|]. split; [lia|]. split; [lia|]. split; [congruence|].
  split; [done|]. split; [eapply ren_rename; (done || lia)|]. split; [done|]. split; [lia|].
  destruct (V2 (nb + byte)) as (_ & -> & _). destruct (R1 (nb + byte)) as (_ & _ & _ & ->).
  rewrite decide_False by done. repeat case_decide; lia.
Qed.

Lemma small_usize_add a n u :
  a ≤ n → u < 256 → (Z.of_nat n + 4000 ≤ i32_MAX)%Z → usize_wrapping_add a u = a + u.
Proof. intros. apply usize_add_small; unfold i32_MAX in *; lia. Qed.

(** The last writes of both branches *)
Lemma extend_run b n st u base :
  inc_ok b n → occupied b st → u < 256 → ((0 ≤ bt b st)%Z → base = Z.to_nat (bt b st)) →
  2 ≤ base + u → (ct b (base + u) < 0)%Z → base ≤ Nat.max n 1254 → (Z.of_nat (Nat.max n 1254) + 5000 ≤ i32_MAX)%Z →
  ∃ b1 b' n', set_base b st (Z.of_nat base) = Ret b1 ∧
    set_check (grow b1 (base + u)) (base + u) (i32 (Z.of_nat st)) = Ret b' ∧
    inc_ok b' n' ∧ n ≤ n' ≤ Nat.max n 1254 + 256 ∧ i_count b' = i_count b ∧ sim b b' id st u (base + u).
Proof.
  intros Hok Hst Hu Hbase Htwo Hfree Hb Hmax. pose proof (occupied_bound b n st Hok Hst) as Hstn.
  destruct (set_base_spec b n st (Z.of_nat base)) as (b1 & E1 & L1 & C1 & V1); [apply Hok|done|].
  destruct (grow_spec b1 n (base + u) L1) as [L2 [V2 C2]].
  rewrite (i32_nat b n) by done. set (n' := Nat.max n (S (base + u))) in *.
  destruct (set_check_spec (grow b1 (base + u)) n' (base + u) (Z.of_nat st) L2) as (b' & E2 & L' & C' & V'); [lia|].
  destruct (extend_sim b n b' n' st u base) as [Hok' Hsim]; [done..|lia|lia|lia| |].
  { intros x. destruct (V' x) as (-> & -> & -> & ->), (V2 x) as (-> & -> & -> & ->).
    by destruct (V1 x) as (-> & -> & -> & ->). }
  exists b1, b', n'. split_and!; [done..|lia|lia|congruence|done].
Qed.

Lemma set_base_same b n st base :
  inc_ok b n → occupied b st → bt b st = base → set_base b st base = Ret b.
Proof.
  intros Hok Hst <-. pose proof (occupied_bound b n st Hok Hst) as Hstn.
  pose proof (io_len _ _ Hok) as (Lb & _).
  unfold set_base. rewrite store_Some by lia. cbn [mbind option_bind].
  rewrite list_insert_id; [by destruct b|]. by rewrite (at_lookup (-1)%Z (i_base b)) by lia.
Qed.

Lemma check_grow b n x :
  len4 b n → i_check (grow b x) !! x = Some (ct b x).
Proof.
  intros Hlen. destruct (grow_spec b n x Hlen) as [(_ & Lc & _) [Hv _]].
  rewrite (at_lookup (-1)%Z (i_check (grow b x))) by lia. fold (ct (grow b x) x).
  by destruct (Hv x) as (_ & -> & _).
Qed.

(** The branch with a conflict, from the grown arrays *)
Lemma relocate_extend b n st ob u next :
  inc_ok b n → occupied b st → bt b st = Z.of_nat ob → u < 256 → next < n →
  inc_transition b st u = None → (Z.of_nat (Nat.max n 1254) + 5500 ≤ i32_MAX)%Z →
  let bytes := child_bytes b st ob ++ [u] in
  ∃ nb b1 b2 b' n' f, find_free_base b (next + 1) bytes = Ret nb ∧
    foldM (relocate_child st ob nb u) b bytes = Ret b1 ∧
    set_base b1 st (Z.of_nat nb) = Ret b2 ∧
    set_check (grow b2 (nb + u)) (nb + u) (i32 (Z.of_nat st)) = Ret b' ∧
    inc_ok b' n' ∧ n' ≤ Nat.max n 1254 + 512 ∧ i_count b' = i_count b ∧ f st = st ∧ sim b b' f st u (nb + u).
Proof.
  intros Hok Hst Hob Hu Hnext Hnone Hmax bytes.
  destruct (relocate_rename b n st ob u next) as
    (nb & b1 & b2 & n2 & f & Enb & Eloop & Eset & Hok2 & Hn2 & Hnb & Hc2 & Hf & Hren & Hb2 & Htwo & Hfree);
    [done..|lia|].
  assert (occupied b2 st) as Hst2 by (rewrite <-Hf; by apply (ren_state _ _ _ Hren st)).
  destruct (extend_run b2 n2 st u nb) as (b2' & b' & n' & E1 & E2 & Hok' & Hn' & Hc & Hsim); [done|done|lia..|].
  rewrite (set_base_same b2 n2 st (Z.of_nat nb)) in E1 by done. injection E1 as <-.
  exists nb, b1, b2, b', n', f. split_and!; [done..|lia|congruence|done|].
  by apply (rename_sim b b2 b' f id).
Qed.

Lemma add_transition_spec b n st u :
  inc_ok b n → occupied b st → 2 ≤ u < 256 → inc_transition b st u = None →
  (Z.of_nat (Nat.max n 1254) + 6000 ≤ i32_MAX)%Z →
  ∃ b' st' n' f, add_transition b st u = Ret (b', st') ∧ inc_ok b' n' ∧
    n' ≤ Nat.max n 1254 + 768 ∧ i_count b' = i_count b ∧ f st = st ∧ sim b b' f st u st'.
Proof.
  intros Hok Hst Hu Hnone Hmax. pose proof (occupied_bound b n st Hok Hst) as Hstn.
  pose proof (io_len _ _ Hok) as Hlen. pose proof Hlen as (Lb & _). pose proof (io_base _ _ Hok st) as Hb.
  unfold add_transition. replace (S st - length (i_base b)) with 0 by lia.
  change (Nat.iter 0 push_default b) with b.
  rewrite (at_lookup (-1)%Z (i_base b)) by lia. fold (bt b st). cbn [mbind option_bind].
  destruct (Z.ltb_spec (bt b st) 0) as [Hneg|Hpos].
  - assert ((st * 31) mod 1000 < 1000) as Hmod by (apply Nat.mod_upper_bound; lia).
    destruct (find_free_base_spec b n ((st * 31) mod 1000 + u) [u]) as (r & -> & Hr & [Hf1 Hf2]%Forall_singleton);
      [done|done|apply Forall_singleton; lia|lia|].
    destruct (extend_run b n st u r) as (b1 & b' & n' & E1 & E2 & Hok' & Hn' & Hc & Hsim); [done|done|lia..|].
    destruct (set_base_spec b n st (Z.of_nat r) Hlen Hstn) as (b1' & E1' & L1 & _ & V1).
    rewrite E1' in E1. injection E1 as ->.
    cbn [mbind option_bind]. rewrite E1'. cbn [mbind option_bind].
    rewrite (small_usize_add r (Nat.max n 1254)) by lia. rewrite (check_grow b1 n _ L1). cbn [mbind option_bind].
    destruct (V1 (r + u)) as (_ & -> & _). rewrite (proj2 (Z.leb_gt _ _)) by done. rewrite E2.
    exists b', (r + u), n', id. split_and!; [done|done|lia|done|done|done].
  - set (ob := Z.to_nat (bt b st)). cbn [mbind option_bind].
    assert (bt b st = Z.of_nat ob) as Hob by (unfold ob; lia).
    rewrite (small_usize_add ob n) by lia. rewrite (check_grow b n _ Hlen). cbn [mbind option_bind].
    destruct (Z.leb_spec 0 (ct b (ob + u))) as [Hconf|Hfree].
    + destruct (grow_spec b n (ob + u) Hlen) as [Lg Hsame]. set (g := grow b (ob + u)) in *.
      set (ng := Nat.max n (S (ob + u))) in *.
      destruct (same_ok b n g ng) as [Hokg Hren]; [done|done|done|lia|lia|].
      assert (bt g st = Z.of_nat ob) as Hobg by (destruct Hsame as [Hv _]; by destruct (Hv st) as (-> & _)).
      assert (occupied g st) as Hstg by (by apply (ren_state _ _ _ Hren st)).
      destruct (relocate_extend g ng st ob u (ob + u)) as
        (nb & b1 & b2 & b' & n' & f & Enb & Eloop & Eset & Echk & Hok' & Hn' & Hc & Hf & Hsim);
        [done|done|done|lia|lia| |lia|].
      { destruct (inc_transition g st u) as [y|] eqn:E; [|done].
        destruct (ren_bwd _ _ _ Hren st u y) as (z & Hz & _); [done|lia|done|congruence]. }
      assert (i_base g !! st = Some (Z.of_nat ob)) as ->.
      { rewrite (at_lookup (-1)%Z (i_base g)) by (destruct Lg; lia). f_equal. exact Hobg. }
      cbn [mbind option_bind]. rewrite Nat2Z.id, Enb. cbn [mbind option_bind]. rewrite Eloop.
      cbn [mbind option_bind]. rewrite Eset. cbn [mbind option_bind]. rewrite Echk.
      exists b', (nb + u), n', f. split_and!; [done|done|lia|destruct Hsame; congruence|done|].
      by apply (rename_sim b g b' id f).
    + destruct (extend_run b n st u ob) as (b1 & b' & n' & E1 & E2 & Hok' & Hn' & Hc & Hsim); [done|done|lia..|].
      rewrite (set_base_same b n st (Z.of_nat ob)) in E1 by done. injection E1 as <-.
      rewrite E2. exists b', (ob + u), n', id. split_and!; [done|done|lia|done|done|done].
Qed.

(** ** Terms *)

Definition is_term (t : list nat) : Prop := Forall (λ u, u < 256) t.

Lemma is_term_snoc t u : is_term (t ++ [u]) ↔ is_term t ∧ u < 256.
Proof. unfold is_term. by rewrite Forall_app, Forall_singleton. Qed.

Definition inc_path (b : DoubleArrayTrieBuilder) : list nat → option nat := path (inc_transition b) 1.

Definition inc_get (b : DoubleArrayTrieBuilder) (t : list nat) : option (option V) :=
  match inc_path b t with
  | None => None
  | Some x => if ft b x then Some (vt b x) else None
  end.

Lemma trans_occupied b n x u y :
  inc_ok b n → occupied b x → u < 256 → inc_transition b x u = Some y → occupied b y.
Proof. intros Hok Hx Hu Ht. apply (trans_spec b n) in Ht as (_ & _ & Hc); [|done..]. right. lia. Qed.

Lemma inc_path_occupied b n t x : inc_ok b n → is_term t → inc_path b t = Some x → occupied b x.
Proof.
  intros Hok. revert x. induction t as [|u t IH] using rev_ind; intros x Ht Hp.
  { injection Hp as <-. by left. }
  apply is_term_snoc in Ht as [Ht Hu]. apply path_snoc in Hp as (p & Hp & Hs).
  apply (trans_occupied b n p u x); [done|by apply IH|done..].
Qed.

(** CHECK and BASE determine the last step of a path. *)
Lemma inc_path_unique b n t1 t2 x :
  inc_ok b n → is_term t1 → is_term t2 → inc_path b t1 = Some x → inc_path b t2 = Some x → t1 = t2.
Proof.
  intros Hok. assert (∀ t u, is_term (t ++ [u]) → inc_path b (t ++ [u]) ≠ Some 1) as Hroot.
  { intros t u [Ht Hu]%is_term_snoc (p & Hp & Hs)%path_snoc.
    apply (trans_spec b n) in Hs as (_ & _ & Hc); [|done|by eapply inc_path_occupied|done].
    rewrite (io_root _ _ Hok) in Hc. lia. }
  revert t2 x. induction t1 as [|u t1 IH] using rev_ind; intros t2 x Ht1 Ht2 H1 H2;
    destruct t2 as [|v t2 _] using rev_ind.
  - done.
  - injection H1 as <-. by destruct (Hroot t2 v).
  - injection H2 as <-. by destruct (Hroot t1 u).
  - apply is_term_snoc in Ht1 as [Ht1 Hu], Ht2 as [Ht2 Hv].
    apply path_snoc in H1 as (p & H1 & S1), H2 as (q & H2 & S2).
    apply (trans_spec b n) in S1 as (_ & E1 & C1); [|done|by apply (inc_path_occupied b n t1)|done].
    apply (trans_spec b n) in S2 as (_ & E2 & C2); [|done|by apply (inc_path_occupied b n t2)|done].
    assert (p = q) as -> by lia. assert (u = v) as -> by lia. f_equal. by eapply IH.
Qed.

(** A simulation keeps the terms and adds one path. *)
Lemma sim_path b n b' f st u st' t :
  inc_ok b n → sim b b' f st u st' → inc_transition b st u = None → is_term t →
  (∀ x, inc_path b t = Some x → inc_path b' t = Some (f x)) ∧
  (∀ y, inc_path b' t = Some y → (∃ x, inc_path b t = Some x ∧ y = f x) ∨ (y = st' ∧ inc_path b t = None)).
Proof.
  intros Hok Hsim Hnone. induction t as [|v t IH] using rev_ind; intros Ht.
  { split; intros x [= <-]; [cbn; by rewrite (sim_root _ _ _ _ _ _ Hsim)|].
    left. exists 1. by rewrite (sim_root _ _ _ _ _ _ Hsim). }
  apply is_term_snoc in Ht as [Ht Hv]. destruct (IH Ht) as [IH1 IH2]. split.
  - intros x (p & Hp & Hs)%path_snoc. apply path_snoc. exists (f p). split; [by apply IH1|].
    apply (sim_fwd _ _ _ _ _ _ Hsim); [by eapply inc_path_occupied|done..].
  - intros y (p & Hp & Hs)%path_snoc. destruct (IH2 p Hp) as [(x & Hx & ->)|[-> _]].
    + destruct (sim_bwd _ _ _ _ _ _ Hsim x v y) as [(z & Hz & ->)|(-> & -> & ->)];
        [by eapply inc_path_occupied|done..| |].
      * left. exists z. split; [|done]. apply path_snoc. eauto.
      * right. split; [done|]. unfold inc_path in *. rewrite path_app, Hx. cbn. by rewrite Hnone.
    + destruct (sim_leaf _ _ _ _ _ _ Hsim) as (_ & _ & _ & Hleaf). by rewrite Hleaf in Hs.
Qed.

Lemma sim_get b n b' f st u st' t :
  inc_ok b n → sim b b' f st u st' → inc_transition b st u = None → is_term t →
  inc_get b' t = inc_get b t.
Proof.
  intros Hok Hsim Hnone Ht. destruct (sim_path b n b' f st u st' t) as [H1 H2]; [done..|].
  unfold inc_get. destruct (inc_path b' t) as [y|] eqn:Hy.
  - destruct (H2 y eq_refl) as [(x & Hx & ->)|[-> ->]].
    + rewrite Hx. destruct (sim_state _ _ _ _ _ _ Hsim x) as (_ & -> & ->); [by eapply inc_path_occupied|done].
    + by destruct (sim_leaf _ _ _ _ _ _ Hsim) as (_ & -> & _).
  - destruct (inc_path b t) as [x|]; [|done]. by specialize (H1 x eq_refl).
Qed.

(** Every state has a path, and only final states carry a value. *)
Definition inc_sealed (b : DoubleArrayTrieBuilder) : Prop :=
  ∀ x, occupied b x →
    (∃ t, is_term t ∧ inc_path b t = Some x) ∧ (ft b x = false → vt b x = None).

Lemma sim_sealed b n b' f st u st' :
  inc_ok b n → sim b b' f st u st' → inc_transition b st u = None → occupied b st → u < 256 →
  inc_sealed b → inc_sealed b'.
Proof.
  intros Hok Hsim Hnone Hst Hu Hs y Hy.
  assert (∀ x, occupied b x → ∃ t, is_term t ∧ inc_path b' t = Some (f x)) as Hpath.
  { intros x Hx. destruct (Hs x Hx) as [(t & Ht & Hp) _]. exists t. split; [done|].
    by apply (sim_path b n b' f st u st' t). }
  destruct (sim_occ _ _ _ _ _ _ Hsim y Hy) as [(x & Hx & ->)| ->].
  - destruct (sim_state _ _ _ _ _ _ Hsim x Hx) as (_ & -> & ->). split; [by apply Hpath|by apply Hs].
  - destruct (sim_leaf _ _ _ _ _ _ Hsim) as (_ & _ & Hv & _). split; [|done].
    destruct (Hpath st Hst) as (t & Ht & Hp). exists (t ++ [u]). split; [by apply is_term_snoc|].
    apply path_snoc. exists (f st). split; [done|]. apply (sim_new _ _ _ _ _ _ Hsim).
Qed.

(** ** Inserting a term *)

(** Room for [k] more transitions *)
Definition room (n k : nat) : Prop := (Z.of_nat (Nat.max n 1254 + 768 * k) + 6000 ≤ i32_MAX)%Z.

Lemma follow_ok b n p st u k :
  inc_ok b n → inc_sealed b → is_term p → inc_path b p = Some st → 2 ≤ u < 256 → room n (S k) →
  ∃ b' st' n', follow (b, st) u = Ret (b', st') ∧ inc_ok b' n' ∧ inc_sealed b' ∧ room n' k ∧ i_count b' = i_count b ∧
    inc_path b' (p ++ [u]) = Some st' ∧ ∀ t, is_term t → inc_get b' t = inc_get b t.
Proof.
  intros Hok Hseal Hp Hst Hu Hroom. unfold room in Hroom. unfold follow.
  destruct (inc_transition b st u) as [st'|] eqn:Hs.
  { exists b, st', n. split_and!; [done..|unfold room; lia|done| |done]. apply path_snoc. eauto. }
  assert (occupied b st) as Ho by by eapply inc_path_occupied.
  destruct (add_transition_spec b n st u) as (b' & st' & n' & f & -> & Hok' & Hn' & Hc & Hf & Hsim); [done..|lia|].
  exists b', st', n'. split_and!; [done|done| |unfold room; lia|done| |].
  - eapply (sim_sealed b n); (done || lia).
  - apply path_snoc. exists st. split.
    + destruct (sim_path b n b' f st u st' p) as [H1 _]; [done..|]. rewrite <-Hf. by apply H1.
    + rewrite <-Hf. apply (sim_new _ _ _ _ _ _ Hsim).
  - intros t Ht. by eapply sim_get.
Qed.

Lemma follow_all term b n p st k :
  inc_ok b n → inc_sealed b → is_term p → inc_path b p = Some st → Forall (λ u, 2 ≤ u < 256) term →
  room n (length term + k) →
  ∃ b' st' n', foldM follow (b, st) term = Ret (b', st') ∧ inc_ok b' n' ∧ inc_sealed b' ∧ room n' k ∧
    i_count b' = i_count b ∧ inc_path b' (p ++ term) = Some st' ∧ ∀ t, is_term t → inc_get b' t = inc_get b t.
Proof.
  revert b n p st. induction term as [|u term IH]; intros b n p st Hok Hseal Hp Hst Hterm Hroom; cbn [foldM].
  { exists b, st, n. rewrite app_nil_r. by split_and!. }
  apply Forall_cons in Hterm as [Hu Hterm].
  destruct (follow_ok b n p st u (length term + k)) as (b1 & st1 & n1 & -> & Hok1 & Hs1 & Hroom1 & Hc1 & Hp1 & Hg1);
    [done..|]. cbn [mbind option_bind].
  destruct (IH b1 n1 (p ++ [u]) st1) as (b2 & st2 & n2 & -> & Hok2 & Hs2 & Hroom2 & Hc2 & Hp2 & Hg2);
    [done|done| |done..|].
  { apply is_term_snoc. split; [done|lia]. }
  exists b2, st2, n2. rewrite <-app_assoc in Hp2. split_and!; [done..|congruence|done|].
  intros t Ht. by rewrite Hg2, Hg1.
Qed.

(** ** Marking a state *)

Definition new_value (b : DoubleArrayTrieBuilder) (x : nat) (value : option V) : option V :=
  if bool_decide (is_Some value) || negb (ft b x) then value else vt b x.

Definition marked (b b' : DoubleArrayTrieBuilder) (x : nat) (value : option V) : Prop :=
  i_base b' = i_base b ∧ i_check b' = i_check b ∧
  (∀ y, ft b' y = (if decide (y = x) then true else ft b y)) ∧
  (∀ y, vt b' y = (if decide (y = x) then new_value b x value else vt b y)) ∧
  i_count b' = (if ft b x then i_count b else S (i_count b)).

Lemma pad_final_id b n x : len4 b n → x < n → pad_final b x = b.
Proof.
  intros (? & ? & ? & ?) Hx. unfold pad_final. rewrite !Nat.max_l by lia. rewrite !resize_all_alt by done.
  by destruct b.
Qed.

Lemma set_value_marks b n x v :
  len4 b n → x < n → ∃ b', set_value b x v = Ret b' ∧ len4 b' n ∧ i_base b' = i_base b ∧ i_check b' = i_check b ∧
    i_final b' = i_final b ∧ i_count b' = i_count b ∧ ∀ y, vt b' y = (if decide (y = x) then v else vt b y).
Proof.
  intros Hlen Hx. destruct (set_value_spec b n x v Hlen Hx) as (b' & Hset & L' & C' & V').
  exists b'. unfold set_value in *. destruct (store (i_values b) x v); [|done].
  injection Hset as <-. split_and!; try done. apply V'.
Qed.

Lemma mark_final_spec b n x value :
  len4 b n → x < n →
  ∃ b', mark_final b x value = Ret (negb (ft b x), b') ∧ len4 b' n ∧ marked b b' x value.
Proof.
  intros Hlen Hx. pose proof Hlen as (_ & _ & Lf & Lv). unfold mark_final. fold (ft b x).
  unfold marked, new_value. destruct (ft b x) eqn:Hf; cbn [negb].
  - rewrite orb_false_r, (proj2 (Nat.ltb_lt _ _)), andb_true_r by lia.
    assert (∀ y, ft b y = (if decide (y = x) then true else ft b y)) as Hft.
    { intros y. case_decide; [by subst|done]. }
    destruct (bool_decide (is_Some value)); cbn [negb].
    + destruct (set_value_marks b n x value Hlen Hx) as (b' & -> & L' & ? & ? & Ef & ? & V').
      exists b'. split; [done|]. split; [done|]. split_and!; [done..| |done|done].
      intros y. rewrite <-Hft. unfold ft. by rewrite Ef.
    + exists b. split; [done|]. split; [done|]. split_and!; [done|done|done| |done].
      intros y. case_decide; [by subst|done].
  - rewrite orb_true_r. rewrite (pad_final_id b n) by done.
    destruct (set_final_at_spec b n x true Hlen Hx) as (b1 & E1 & L1 & C1 & V1).
    unfold set_final_at in E1. rewrite store_Some in E1 by lia. injection E1 as E1.
    unfold set_final_at. rewrite store_Some by lia. cbn [mbind option_bind]. rewrite E1.
    destruct (set_value_marks b1 n x value L1 Hx) as (b' & -> & L' & Eb & Ec & Ef & Ecnt & V').
    cbn [mbind option_bind]. exists (count_term b'). split; [done|]. split; [done|].
    rewrite <-E1 in Eb, Ec. cbn in Eb, Ec. split_and!; [done..| | |].
    + intros y. destruct (V1 y) as (_ & _ & <- & _). unfold ft. cbn. by rewrite Ef.
    + intros y. change (vt (count_term b') y) with (vt b' y). rewrite V'. destruct (V1 y) as (_ & _ & _ & ->). done.
    + cbn. by rewrite Ecnt, C1.
Qed.

Lemma mark_root_final b n value : len4 b n → 1 < n → mark_root b value = mark_final b 1 value.
Proof.
  intros Hlen Hn. unfold mark_root, mark_final. rewrite (pad_final_id b n) by done.
  destruct Hlen as (_ & _ & Lf & Lv). rewrite (at_lookup false (i_final b)) by lia.
  cbn [mbind option_bind default]. rewrite (proj2 (Nat.ltb_lt _ _)), andb_true_r by lia. done.
Qed.

Lemma marked_ok b n b' x value :
  inc_ok b n → occupied b x → len4 b' n → marked b b' x value → inc_ok b' n.
Proof.
  intros [_ H2 Hr Hp Hv Hb Hs] Hx Hlen (Eb & Ec & Ef & Ev & _).
  assert (∀ y, bt b' y = bt b y) as Hbt by (intros; unfold bt; by rewrite Eb).
  assert (∀ y, ct b' y = ct b y) as Hct by (intros; unfold ct; by rewrite Ec).
  split; [done|done|by rewrite Hct| | | |done].
  - intros y. unfold child_of, occupied. rewrite !Hct, !Hbt. apply Hp.
  - intros y Hy. unfold vacant. rewrite Hct, Hbt, Ef, Ev.
    assert (y ≠ x) as Hne by (intros ->; apply Hy; unfold occupied; by rewrite Hct).
    rewrite !decide_False by done. apply Hv. unfold occupied in *. by rewrite Hct in Hy.
  - intros y. by rewrite Hbt.
Qed.

Lemma marked_sealed b b' x value : occupied b x → marked b b' x value → inc_sealed b → inc_sealed b'.
Proof.
  intros Hx (Eb & Ec & Ef & Ev & _) Hs y Hy.
  assert (occupied b y) as Hy' by (unfold occupied, ct in *; by rewrite Ec in Hy).
  destruct (Hs y Hy') as [(t & Ht & Hp) Hv]. split.
  - exists t. split; [done|]. unfold inc_path, inc_transition in *. by rewrite Eb, Ec.
  - rewrite Ef, Ev. by case_decide.
Qed.

Lemma marked_get b n b' term x value t :
  inc_ok b n → is_term term → inc_path b term = Some x → marked b b' x value → is_term t →
  inc_get b' t = if decide (t = term) then Some (new_value b x value) else inc_get b t.
Proof.
  intros Hok Hterm Hx (Eb & Ec & Ef & Ev & _) Ht.
  assert (inc_path b' t = inc_path b t) as Hp.
  { unfold inc_path, inc_transition. by rewrite Eb, Ec. }
  unfold inc_get. rewrite Hp. case_decide as E.
  - subst t. rewrite Hx, Ef, Ev. by rewrite !decide_True.
  - destruct (inc_path b t) as [y|] eqn:Hy; [|done]. rewrite Ef, Ev.
    rewrite !decide_False; [done|..]; intros ->; apply E; by eapply inc_path_unique.
Qed.

(** ** The builder as a map *)

Record inc_models (b : DoubleArrayTrieBuilder) (n : nat) (m : gmap (list nat) (option V)) : Prop := {
  im_ok : inc_ok b n;
  im_sealed : inc_sealed b;
  im_terms : ∀ t, is_Some (m !! t) → is_term t;
  im_get : ∀ t, is_term t → inc_get b t = m !! t;
  im_size : i_count b = size m;
}.

Lemma insert_models b n m term value k :
  inc_models b n m → Forall (λ u, 2 ≤ u < 256) term → room n (length term + k) →
  ∃ b' n', insert_with_value b term value = Ret (bool_decide (m !! term = None), b') ∧
    inc_models b' n' (dict_insert m (term, value)) ∧ room n' k.
Proof.
  intros [Hok Hseal Hterms Hget Hsize] Hterm Hroom.
  assert (is_term term) as Ht by (eapply Forall_impl; [done|]; cbn; lia).
  destruct (follow_all term b n [] 1 k) as (b1 & x & n1 & Hrun & Hok1 & Hs1 & Hroom1 & Hc1 & Hp1 & Hg1);
    [done|done|constructor|done..|]. cbn [app] in Hp1.
  assert (occupied b1 x) as Hx by (by apply (inc_path_occupied b1 n1 term)).
  destruct (mark_final_spec b1 n1 x value) as (b2 & Hmark & L2 & HM); [apply Hok1|by eapply occupied_bound|].
  assert (m !! term = if ft b1 x then Some (vt b1 x) else None) as Hm.
  { rewrite <-Hget, <-Hg1 by done. unfold inc_get. by rewrite Hp1. }
  assert (insert_with_value b term value = mark_final b1 x value) as ->.
  { destruct term as [|u term']; cbn [insert_with_value].
    - cbn in Hrun. injection Hrun as <- <-. apply (mark_root_final b n); [apply Hok|]. pose proof (io_two _ _ Hok). lia.
    - unfold insert_with_value. rewrite Hrun. done. }
  exists b2, n1. split; [|split; [|done]].
  { rewrite Hmark, Hm. by destruct (ft b1 x). }
  split.
  - by eapply marked_ok.
  - by apply (marked_sealed b1 b2 x value).
  - intros t. rewrite dict_insert_lookup. case_decide; [by subst|]. apply Hterms.
  - intros t Hterm'. rewrite (marked_get b1 n1 b2 term x value t) by done. rewrite dict_insert_lookup.
    case_decide; [|by rewrite Hg1, Hget]. f_equal. unfold new_value. rewrite Hm.
    destruct (ft b1 x); cbn [negb]; [rewrite orb_false_r|rewrite orb_true_r]; done.
  - destruct HM as (_ & _ & _ & _ & ->). rewrite dict_insert_size, Hm, Hc1, Hsize. by destruct (ft b1 x).
Qed.

Lemma new_models : inc_models DoubleArrayTrieBuilder_new 2 ∅.
Proof.
  assert (∀ x, ct DoubleArrayTrieBuilder_new x = (-1)%Z) as Hct by (by intros [|[|x]]).
  assert (∀ x, ft DoubleArrayTrieBuilder_new x = false ∧ vt DoubleArrayTrieBuilder_new x = None) as Hfv
    by (by intros [|[|x]]).
  assert (∀ x, occupied DoubleArrayTrieBuilder_new x → x = 1) as Hocc.
  { intros x [->|Hx]; [done|]. rewrite Hct in Hx. lia. }
  split; [split| | | |].
  - done.
  - lia.
  - done.
  - intros x. rewrite Hct. lia.
  - intros x Hx. destruct (Hfv x). split_and!; try done. destruct x as [|[|x]]; [done| |done].
    destruct Hx. by left.
  - intros x. assert (bt DoubleArrayTrieBuilder_new x = -1 ∨ bt DoubleArrayTrieBuilder_new x = 0)%Z
      by (destruct x as [|[|x]]; auto). lia.
  - unfold i32_MAX. lia.
  - intros x ->%Hocc. split; [exists []; split; [constructor|done]|]. done.
  - intros t [v Hv]. by rewrite lookup_empty in Hv.
  - intros t _. rewrite lookup_empty. unfold inc_get. destruct (inc_path _ t) as [x|]; [|done].
    by destruct (Hfv x) as [-> _].
  - by rewrite map_size_empty.
Qed.

Definition insert_entries (b : DoubleArrayTrieBuilder) (entries : list (list nat * option V)) :
    exec DoubleArrayTrieBuilder :=
  foldM (λ b entry, r ← insert_with_value b entry.1 entry.2; Ret (snd r)) b entries.

Lemma insert_entries_models entries b n m :
  inc_models b n m → Forall (λ e, Forall (λ u, 2 ≤ u < 256) e.1) entries → room n (letters entries) →
  ∃ b' n', insert_entries b entries = Ret b' ∧ inc_models b' n' (foldl dict_insert m entries).
Proof.
  revert b n m. induction entries as [|[term value] entries IH]; intros b n m Hb Hl Hroom.
  { by exists b, n. }
  apply Forall_cons in Hl as [Ht Hl].
  destruct (insert_models b n m term value (letters entries)) as (b1 & n1 & Hins & Hb1 & Hroom1); [done..|].
  destruct (IH b1 n1 _ Hb1 Hl Hroom1) as (b2 & n2 & Hrun & Hb2).
  exists b2, n2. unfold insert_entries in *. cbn [foldM fst snd]. rewrite Hins. done.
Qed.

(** ** The built dictionary *)

Section built.
Context (b : DoubleArrayTrieBuilder) (n : nat) (m : gmap (list nat) (option V)) (Hb : inc_models b n m).

#[local] Instance occupied_dec x : Decision (occupied b x).
Proof. unfold occupied. apply _. Defined.

Definition built : DATCoreShared V := (DoubleArrayTrieBuilder_build b).1.
Definition states : list nat := filter (occupied b) (seq 0 n).

Lemma elem_states x : x ∈ states ↔ occupied b x.
Proof.
  unfold states. rewrite list_elem_of_filter, elem_of_seq. split; [by intros [? _]|]. intros Hx.
  split; [done|]. pose proof (occupied_bound b n x (im_ok _ _ _ Hb) Hx). lia.
Qed.

Lemma built_walk : walk built 1 = inc_path b.
Proof. done. Qed.

Lemma built_labels x : x < n → labels_of built x = if (bt b x <? 0)%Z then [] else child_bytes b x (Z.to_nat (bt b x)).
Proof.
  intros Hx. pose proof (io_len _ _ (im_ok _ _ _ Hb)) as (Lb & _).
  change (labels_of built x) with (default [] (derive_edges b !! x)). unfold derive_edges.
  rewrite list_lookup_imap, (at_lookup (-1)%Z (i_base b)) by lia. done.
Qed.

Lemma built_targets x y : occupied b x → y ∈ targets built x ↔ ct b y = Z.of_nat x.
Proof.
  intros Hx. pose proof (im_ok _ _ _ Hb) as Hok. pose proof (occupied_bound b n x Hok Hx) as Hxn.
  unfold targets. rewrite built_labels by done. change (base_of built x) with (Z.to_nat (bt b x)).
  destruct (Z.ltb_spec (bt b x) 0) as [Hneg|Hpos].
  - split; [by intros ?%elem_of_nil|]. intros Hc.
    destruct (io_parent _ _ Hok y) as (_ & _ & _ & Hp & _); [lia|]. rewrite Hc, Nat2Z.id in Hp. lia.
  - destruct (child_bytes_spec b n x (Z.to_nat (bt b x))) as (_ & Hin & Hall); [done|done|lia|].
    split.
    + intros (u & -> & Hu)%list_elem_of_fmap. by apply Hin.
    + intros (u & -> & Hu)%Hall. apply list_elem_of_fmap. by exists u.
Qed.

Lemma built_sorted x : x < n → StronglySorted lt (labels_of built x).
Proof.
  intros Hx. rewrite built_labels by done. destruct (bt b x <? 0)%Z; [constructor|].
  unfold child_bytes. apply StronglySorted_filter. unfold all_bytes. apply StronglySorted_seq.
Qed.

Lemma built_tree : tree (targets built) 1 states.
Proof.
  pose proof (im_ok _ _ _ Hb) as Hok. split; [apply NoDup_filter, NoDup_seq|].
  apply NoDup_Permutation; [apply NoDup_filter, NoDup_seq| |].
  - apply NoDup_cons. split.
    + intros (p & Hc & Hp%elem_states)%list_elem_of_bind. apply built_targets in Hc; [|done].
      rewrite (io_root _ _ Hok) in Hc. lia.
    + apply NoDup_bind; [| |apply NoDup_filter, NoDup_seq].
      * intros x1 x2 y Hx1%elem_states Hx2%elem_states H1%built_targets H2%built_targets; [lia|done..].
      * intros x Hx%elem_states. apply NoDup_targets, built_sorted.
        by apply (occupied_bound b n x Hok).
  - intros x. rewrite elem_states, elem_of_cons, list_elem_of_bind. split.
    + intros [->|Hx]; [by left|right]. exists (Z.to_nat (ct b x)).
      destruct (io_parent _ _ Hok x Hx) as (_ & _ & Ho & _). rewrite elem_states. split; [|done].
      apply built_targets; [done|lia].
    + intros [->|(p & Hc & Hp%elem_states)]; [by left|]. apply built_targets in Hc; [|done]. right. lia.
Qed.

Lemma built_reach x : occupied b x → rtc (λ p y, y ∈ targets built p) 1 x.
Proof.
  intros Hx. pose proof (im_ok _ _ _ Hb) as Hok. destruct (im_sealed _ _ _ Hb x Hx) as [(t & Ht & Hp) _].
  clear Hx. revert x Hp. induction t as [|u t IH] using rev_ind; intros x Hp.
  { injection Hp as <-. constructor. }
  apply is_term_snoc in Ht as [Ht Hu]. apply path_snoc in Hp as (p & Hp & Hs).
  assert (occupied b p) as Ho by (by apply (inc_path_occupied b n t)).
  eapply rtc_r; [by apply IH|]. apply built_targets; [done|]. by apply (trans_spec b n) in Hs as (_ & _ & ?).
Qed.

Lemma built_state x : occupied b x → state_ok built x.
Proof.
  intros Hx. pose proof (im_ok _ _ _ Hb) as Hok. pose proof (occupied_bound b n x Hok Hx) as Hxn.
  pose proof (io_len _ _ Hok) as (Lb & Lc & Lf & Lv). pose proof (io_small _ _ Hok) as Hsmall. split.
  - cbn. lia.
  - lia.
  - intros v Hv. cbn in *. rewrite (at_lookup false (i_final b)) by lia. f_equal. fold (ft b x).
    apply not_false_is_true. intros Hf. destruct (im_sealed _ _ _ Hb x Hx) as [_ Hnone].
    specialize (Hnone Hf). unfold vt in Hnone. by rewrite Hv in Hnone.
  - by apply built_sorted.
  - rewrite built_labels by done. intros Hne. exists (bt b x). split.
    + cbn. by rewrite (at_lookup (-1)%Z (i_base b)) by lia.
    + by destruct (Z.ltb_spec (bt b x) 0).
  - intros y Hy%built_targets; [|done]. cbn. rewrite <-Hy.
    rewrite (at_lookup (-1)%Z (i_check b)); [done|]. rewrite Lc. apply (ct_bound b); [apply Hok|lia].
Qed.

Lemma built_empty x : x < n → ¬ occupied b x → slot_empty built x.
Proof.
  intros Hx Ho. pose proof (im_ok _ _ _ Hb) as Hok. destruct (io_vacant _ _ Hok x Ho) as (Hc & Hbt & Hf & Hv).
  pose proof (io_len _ _ Hok) as (Lb & Lc & Lf & Lv).
  assert (labels_of built x = []) as Hl by (rewrite built_labels by done; by rewrite Hbt).
  split_and!; cbn [built DoubleArrayTrieBuilder_build fst d_base d_check d_final d_edges d_values].
  - rewrite (at_lookup (-1)%Z) by lia. f_equal. exact Hbt.
  - rewrite (at_lookup (-1)%Z) by lia. f_equal. exact Hc.
  - rewrite (at_lookup false) by lia. f_equal. exact Hf.
  - rewrite (at_lookup []); [f_equal; exact Hl|]. unfold derive_edges. rewrite length_imap. lia.
  - rewrite (at_lookup None) by lia. f_equal. exact Hv.
Qed.

Lemma built_layout : dat_layout built 1 states.
Proof.
  pose proof (im_ok _ _ _ Hb) as Hok. pose proof (io_len _ _ Hok) as (Lb & Lc & Lf & Lv). split.
  - split_and!; cbn [built DoubleArrayTrieBuilder_build fst d_base d_check d_final d_edges d_values]; try lia.
    unfold derive_edges. by rewrite length_imap.
  - intros c Hc. left. cbn in Hc. pose proof (io_root _ _ Hok) as Hr. unfold ct in Hr. rewrite Hc in Hr.
    cbn in Hr. lia.
  - apply built_tree.
  - intros x Hx%elem_states. by apply built_reach.
  - intros x Hx%elem_states. by apply built_state.
  - intros x Hx Hnot. apply built_empty; [cbn in Hx; lia|]. by rewrite <-elem_states.
Qed.

Lemma built_typed : dat_typed ByteUnit built.
Proof.
  pose proof (im_ok _ _ _ Hb) as Hok. pose proof (io_small _ _ Hok) as Hsmall.
  pose proof (io_len _ _ Hok) as (Lb & Lc & _).
  split_and!; cbn [built DoubleArrayTrieBuilder_build fst d_base d_check d_edges].
  - apply Forall_lookup. intros x z Hz. pose proof (io_base _ _ Hok x) as Hbx. unfold bt in Hbx.
    rewrite Hz in Hbx. cbn in Hbx. unfold is_i32. lia.
  - apply Forall_lookup. intros x z Hz. assert (ct b x = z) as <- by (unfold ct; by rewrite Hz).
    destruct (decide (occupied b x)) as [[->|Hx]|Hx].
    + rewrite (io_root _ _ Hok). unfold is_i32, i32_MAX. lia.
    + destruct (io_parent _ _ Hok x Hx) as (_ & _ & Ho & _).
      pose proof (occupied_bound b n _ Hok Ho). unfold is_i32. lia.
    + destruct (io_vacant _ _ Hok x Hx) as (-> & _). unfold is_i32, i32_MAX. lia.
  - apply Forall_lookup. intros x labels Hl.
    assert (x < n) as Hx.
    { apply lookup_lt_Some in Hl. unfold derive_edges in Hl. rewrite length_imap in Hl. lia. }
    assert (labels_of built x = labels) as <- by (by apply labels_of_edges).
    rewrite built_labels by done. destruct (bt b x <? 0)%Z; [constructor|].
    apply Forall_forall. intros u [_ Hu%elem_of_seq]%list_elem_of_filter.
    unfold is_label, try_from_certified_dat_offset. case_match; [done|lia].
Qed.

(** The final states are the terms. *)
Lemma built_finals : finals built states = size m.
Proof.
  pose proof (im_ok _ _ _ Hb) as Hok. pose proof (io_len _ _ Hok) as (_ & _ & Lf & _).
  set (keys := (map_to_list m).*1). set (f := λ t, default 0 (inc_path b t)).
  assert (∀ t, t ∈ keys ↔ is_Some (m !! t)) as Hkeys.
  { intros t. unfold keys. rewrite list_elem_of_fmap. split.
    - intros ([t' v] & -> & Hin%elem_of_map_to_list). by exists v.
    - intros [v Hv]. exists (t, v). by rewrite elem_of_map_to_list. }
  assert (∀ t, t ∈ keys → is_term t ∧ ∃ x, inc_path b t = Some x ∧ ft b x = true ∧ f t = x) as Hkey.
  { intros t Ht%Hkeys. pose proof (im_terms _ _ _ Hb t Ht) as Hterm. split; [done|].
    rewrite <-(im_get _ _ _ Hb t Hterm) in Ht. unfold inc_get, f in *.
    destruct (inc_path b t) as [x|]; [|by destruct Ht]. exists x. by destruct (ft b x), Ht. }
  assert (filter (λ d, d_final built !! d = Some true) states ≡ₚ map f keys) as Hperm.
  { apply NoDup_Permutation.
    - apply NoDup_filter, NoDup_filter, NoDup_seq.
    - apply NoDup_fmap_2_strong; [|apply NoDup_fst_map_to_list].
      intros t1 t2 (H1 & x & P1 & _ & E1)%Hkey (H2 & y & P2 & _ & E2)%Hkey E.
      apply (inc_path_unique b n t1 t2 x); try done. congruence.
    - intros x. rewrite list_elem_of_filter, elem_states, list_elem_of_fmap. split.
      + intros [Hf Hx]. destruct (im_sealed _ _ _ Hb x Hx) as [(t & Ht & Hp) _]. exists t.
        split; [unfold f; by rewrite Hp|]. apply Hkeys. rewrite <-(im_get _ _ _ Hb t Ht). unfold inc_get.
        rewrite Hp. unfold ft. cbn in Hf. rewrite Hf. cbn. eauto.
      + intros (t & -> & (Ht & y & Hp & Hf & ->)%Hkey). split; [|by apply (inc_path_occupied b n t)].
        cbn. rewrite (at_lookup false (i_final b)); [by f_equal|]. rewrite Lf.
        by apply (occupied_bound b n), (inc_path_occupied b n t). }
  unfold finals. rewrite Hperm, length_map. unfold keys. rewrite length_fmap. apply length_map_to_list.
Qed.

Lemma built_lookup t :
  is_term t →
  contains_term built t = bool_decide (is_Some (m !! t)) ∧ term_value built t = mjoin (m !! t).
Proof.
  intros Ht. unfold contains_term, term_value, contains_term_from, term_value_from.
  rewrite built_walk, <-(im_get _ _ _ Hb t Ht). unfold inc_get.
  destruct (inc_path b t) as [x|] eqn:Hp; [|done].
  change (default false (d_final built !! x)) with (ft b x). destruct (ft b x); [|done].
  split; [done|]. cbn. unfold vt. by destruct (i_values b !! x).
Qed.
End built.

End incremental.
Arguments DoubleArrayTrieBuilder V : clear implicits.

Section properties.
Context {V : Type} (entries : list (list nat * option V)).

(** C12: the incremental builder is the dictionary of its insertions.  For terms
    without the bytes 0 and 1, every insertion succeeds, whatever moves it needs;
    the built arrays pass [validate_layout] with the declared term count, which
    the [unsafe] constructor promises, and lookup gives the last value of a
    term. *)
Theorem incremental_refines :
  Forall (λ e, Forall (λ u, 2 ≤ u < 256) e.1) entries → room 2 (letters entries) →
  let m := foldl dict_insert ∅ entries in
  ∃ b, insert_entries DoubleArrayTrieBuilder_new entries = Ret b ∧
    let '(s, n) := DoubleArrayTrieBuilder_build b in
    n = size m ∧ validate_layout s 1 = Ret (Ok n) ∧
    ∀ t, is_term t → contains_term s t = bool_decide (is_Some (m !! t)) ∧ term_value s t = mjoin (m !! t).
Proof.
  intros Hl Hroom m.
  destruct (insert_entries_models entries _ _ _ new_models Hl Hroom) as (b & n & Hrun & Hb).
  exists b. split; [done|]. cbn [DoubleArrayTrieBuilder_build]. fold (built b).
  split; [apply Hb|]. split; [|intros t; by apply (built_lookup b n)].
  destruct (validate_layout_spec ByteUnit (built b) 1) as (r & Hr & Hiff); [by apply (built_typed b n m)|].
  change (mkDat _ _ _ _ _) with (built b). rewrite Hr. f_equal. apply Hiff. exists (states b n).
  split; [by apply (built_layout b n m)|]. rewrite (im_size _ _ _ Hb). symmetry. by apply (built_finals b n).
Qed.
End properties.

(** [5; 32] takes the slot 219, so that [219; 129] moves the children of the root. *)
Definition colliding_entries : list (list nat * option nat) :=
  [([5; 32], Some 1); ([6], None); ([5; 33; 9], Some 2); ([], Some 3); ([219; 129], None); ([5; 32], Some 4)].

Lemma incremental_refines_witness :
  ∃ b, insert_entries DoubleArrayTrieBuilder_new colliding_entries = Ret b ∧
    term_value (DoubleArrayTrieBuilder_build b).1 [5; 32] = Some 4.
Proof.
  destruct (incremental_refines colliding_entries) as (b & Hrun & _ & _ & Hlook).
  - repeat constructor; lia.
  - unfold room. vm_compute. congruence.
  - exists b. split; [exact Hrun|]. apply (Hlook [5; 32]). repeat constructor; lia.
Defined.

(** A term that starts with byte 1 corrupts the dictionary.  The root starts
    with BASE 0, and its slot for byte 1 is the root itself: inserting that one
    term makes the root its own child and final, so the empty term and every
    string of byte 1 are found, and the layout is not a valid one. *)
Theorem incremental_root_overwritten :
  ∃ b : DoubleArrayTrieBuilder unit,
    insert_with_value DoubleArrayTrieBuilder_new [1] None = Ret (true, b) ∧
    let '(s, n) := DoubleArrayTrieBuilder_build b in
    n = 1 ∧ contains_term s [] = true ∧ contains_term s [1; 1; 1] = true ∧
    validate_layout s 1 = Ret (Err (RepeatedOrCyclicTarget 1 1)).
Proof. eexists. split; [vm_compute; reflexivity|]. by vm_compute. Qed.
