(* ===== verification/Zipper.v ===== *)
(** * Dictionary zippers and the iterators over them

    [DictZipper] and [ValuedDictZipper] of src/src/zipper.rs as classes, with the
    laws an implementation owes; the depth-first iterators of iterator.rs,
    prefix_zipper.rs and excluding_prefix_zipper.rs over any zipper.  A label is a
    [nat] (a byte or a code point).  A stack is a list with its top first. *)

From stdpp Require Import prelude gmap sets sorting.
From S2P Require Import Prelude Tree.

(** ** The traits *)

Class DictZipper (Z : Type) := {
  zip_final : Z → bool;
  descend : Z → nat → option Z;
  children : Z → list (nat * Z);
  zip_path : Z → list nat;
}.

Class ValuedDictZipper (Z V : Type) := zip_value : Z → option V.

(** What a zipper over the units [zip_unit] promises at the positions [zip_ok]:
    descending appends the label to the path and ends after [zip_height] steps,
    and the children are the positions one can descend to, each once. *)
Class ZipperLaws (Z : Type) `{DictZipper Z} := {
  zip_unit : nat → Prop;
  zip_ok : Z → Prop;
  zip_height : Z → nat;
  descend_ok z l c : zip_ok z → zip_unit l → descend z l = Some c →
    zip_ok c ∧ zip_path c = zip_path z ++ [l] ∧ zip_height c < zip_height z;
  children_NoDup z : zip_ok z → NoDup (children z).*1;
  children_descend z l c : zip_ok z → (l, c) ∈ children z ↔ zip_unit l ∧ descend z l = Some c;
}.
Arguments zip_unit Z {_ _} _ : assert.

Definition is_key (Z : Type) `{ZipperLaws Z} (t : list nat) : Prop := Forall (zip_unit Z) t.

(** Only final positions carry a value. *)
Class ValuedLaws (Z V : Type) `{ZipperLaws Z} `{ValuedDictZipper Z V} :=
  value_final z v : zip_ok z → zip_value z = Some v → zip_final z = true.

(** ** What a zipper stands for *)

Section zipper.
Context {Z : Type} `{DictZipper Z}.

(** The loop [for unit in units { zipper = zipper.descend(unit)? }] *)
Definition descend_all (z : Z) (units : list nat) : option Z := path descend z units.

Definition accepts (z : Z) (t : list nat) : bool :=
  match descend_all z t with Some z' => zip_final z' | None => false end.

(** The default methods of the trait *)
Definition filter_map_children {T} (z : Z) (project : nat → option T) : list (nat * Z * T) :=
  omap (λ '(label, child), projected ← project label; Some (label, child, projected)) (children z).

Definition filter_map_children_and_finality {T} (z : Z) (project : nat → option T) :
    bool * list (nat * Z * T) :=
  (zip_final z, filter_map_children z project).

End zipper.

Definition lookup_value {Z V} `{DictZipper Z} `{ValuedDictZipper Z V} (z : Z) (t : list nat) : option V :=
  descend_all z t ≫= zip_value.

(** The child for every label in the list that has one *)
Definition children_by {W} (f : nat → option W) (labels : list nat) : list (nat * W) :=
  omap (λ label, child ← f label; Some (label, child)) labels.

Lemma children_by_NoDup {W} (f : nat → option W) labels : NoDup labels → NoDup (children_by f labels).*1.
Proof.
  unfold children_by. induction 1 as [|l labels Hl _ IH]; [constructor|]. cbn.
  destruct (f l) as [c|]; cbn; [|done]. constructor; [|done].
  intros ([l' c'] & -> & Hin)%list_elem_of_fmap. apply list_elem_of_omap in Hin as (l2 & Hl2 & E).
  cbn in *. destruct (f l2); cbn in E; simplify_eq. done.
Qed.

Lemma elem_of_children_by {W} (f : nat → option W) labels l c :
  (l, c) ∈ children_by f labels ↔ l ∈ labels ∧ f l = Some c.
Proof.
  unfold children_by. rewrite list_elem_of_omap. split.
  - intros (l' & Hl' & E). destruct (f l') eqn:Hf; cbn in E; by simplify_eq.
  - intros [Hl Hf]. exists l. by rewrite Hf.
Qed.

(** ** Depth-first search

    The [next] methods share one loop: pop a position, push its children
    ([expand], top first), and return what the position gives ([emit]), if it gives
    anything. *)

Section dfs.
Context {Z S I : Type} (expand : Z → list Z) (emit : S → Z → S * option I).

Fixpoint dfs_next (fuel : nat) (stack : list Z) (s : S) : exec (option I * (list Z * S)) :=
  match stack with
  | [] => Ret (None, ([], s))
  | z :: stack =>
      match fuel with
      | O => Panic
      | Datatypes.S fuel =>
          let stack := expand z ++ stack in
          match emit s z with
          | (s, Some item) => Ret (Some item, (stack, s))
          | (s, None) => dfs_next fuel stack s
          end
      end
  end.

End dfs.

(** [iterator.collect()] *)
Fixpoint collect {St I} (next : St → exec (option I * St)) (fuel : nat) (st : St) : exec (list I) :=
  r ← next st;
  match r with
  | (None, _) => Ret []
  | (Some item, st) =>
      match fuel with
      | O => Panic
      | S fuel => rest ← collect next fuel st; Ret (item :: rest)
      end
  end.

(** ** The iterators *)

Section iterators.
Context {Z V : Type} `{DictZipper Z} `{ValuedDictZipper Z V}.

Definition label_le (a b : nat * Z) : Prop := a.1 ≤ b.1.
#[global] Instance label_le_dec a b : Decision (label_le a b).
Proof. unfold label_le. apply _. Defined.

(** [children.sort_unstable_by_key(|(unit, _)| *unit)]; the labels are distinct. *)
Definition sorted_children (z : Z) : list Z := (merge_sort label_le (children z)).*2.

(** iterator.rs: the children are pushed in reverse, the smallest on top. *)
Definition DictionaryIterator_next (dft : V) (fuel : nat) (st : list Z * unit) :
    exec (option (list nat * V) * (list Z * unit)) :=
  dfs_next sorted_children
    (λ s z, (s, if zip_final z then Some (zip_path z, default dft (zip_value z)) else None))
    fuel st.1 st.2.

Definition DictionaryTermIterator_next (fuel : nat) (st : list Z * unit) :
    exec (option (list nat) * (list Z * unit)) :=
  dfs_next sorted_children (λ s z, (s, if zip_final z then Some (zip_path z) else None)) fuel st.1 st.2.

Definition iterator_new (root_zipper : Z) : list Z * unit := ([root_zipper], tt).

(** prefix_zipper.rs: the children are pushed in their order, the last on top. *)
Definition PrefixIterator_next (fuel : nat) (st : list Z * unit) :
    exec (option (list nat * Z) * (list Z * unit)) :=
  dfs_next (λ z, reverse (children z).*2)
    (λ s z, (s, if zip_final z then Some (zip_path z, z) else None)) fuel st.1 st.2.

Definition with_prefix (z : Z) (prefix : list nat) : option (list Z * unit) :=
  zipper ← descend_all z prefix; Some (iterator_new zipper).

(** [let value = zipper.value()?;] ends the iteration. *)
Definition value_or_stop {St} (r : option (list nat * Z) * St) : option (list nat * V) * St :=
  match r with
  | (Some (path, zipper), st) =>
      match zip_value zipper with
      | Some value => (Some (path, value), st)
      | None => (None, st)
      end
  | (None, st) => (None, st)
  end.

Definition ValuedPrefixIterator_next (fuel : nat) (st : list Z * unit) :
    exec (option (list nat * V) * (list Z * unit)) :=
  r ← PrefixIterator_next fuel st; Ret (value_or_stop r).

Definition with_prefix_values (z : Z) (prefix : list nat) : option (list Z * unit) :=
  with_prefix z prefix.

(** excluding_prefix_zipper.rs *)
Definition starts_with_any_excluded (path : list nat) (excluded_prefixes : list (list nat)) : bool :=
  existsb (λ excl, (length excl <=? length path) && bool_decide (take (length excl) path = excl))
    excluded_prefixes.

Definition ExcludingIterator_new (start_zipper : Z) (excluded_prefixes : list (list nat)) : list Z * unit :=
  (if starts_with_any_excluded (zip_path start_zipper) excluded_prefixes then [] else [start_zipper], tt).

Definition ExcludingIterator_next (excluded_prefixes : list (list nat)) (fuel : nat) (st : list Z * unit) :
    exec (option (list nat * Z) * (list Z * unit)) :=
  dfs_next
    (λ z, reverse (filter (λ c, starts_with_any_excluded (zip_path c) excluded_prefixes = false) (children z).*2))
    (λ s z, (s, if zip_final z then Some (zip_path z, z) else None)) fuel st.1 st.2.

Definition iter_excluding (z : Z) (excluded : list (list nat)) : list Z * unit :=
  ExcludingIterator_new z excluded.

Definition with_prefix_excluding (z : Z) (prefix : list nat) (excluded : list (list nat)) :
    option (list Z * unit) :=
  zipper ← descend_all z prefix; Some (ExcludingIterator_new zipper excluded).

Definition ValuedExcludingIterator_next (excluded_prefixes : list (list nat)) (fuel : nat)
    (st : list Z * unit) : exec (option (list nat * V) * (list Z * unit)) :=
  r ← ExcludingIterator_next excluded_prefixes fuel st; Ret (value_or_stop r).

End iterators.

(** The items that are left after each call of [next], and a size that falls with
    every item, tell what collecting returns. *)
Lemma collect_spec {St I} (next : St → exec (option I * St)) (inv : St → Prop) (size : St → nat)
    (out : St → list I) :
  (∀ st, inv st → ∃ r st', next st = Ret (r, st') ∧
    match r with
    | Some i => out st = i :: out st' ∧ size st' < size st ∧ inv st'
    | None => out st = []
    end) →
  ∀ n st, inv st → size st ≤ n → collect next n st = Ret (out st).
Proof.
  intros Hnext n. induction n as [|n IH]; intros st Hst Hn; cbn [collect];
    destruct (Hnext st Hst) as (r & st' & -> & Hr); cbn [mbind option_bind]; destruct r as [i|]; try by rewrite Hr.
  - lia.
  - destruct Hr as (-> & Hlt & Hst'). rewrite IH by (done || lia). done.
Qed.

(** ** The nodes of a search, in the order they are popped *)

Section search.
Context {Z : Type} (expand : Z → list Z) (ok : Z → Prop) (height : Z → nat).
Context (Hexp : ∀ z c, ok z → c ∈ expand z → ok c ∧ height c < height z).

Fixpoint preorder (fuel : nat) (z : Z) : list Z :=
  z :: match fuel with O => [] | S fuel => expand z ≫= preorder fuel end.

Definition nodes (z : Z) : list Z := preorder (height z) z.

Lemma expand_leaf z : ok z → height z = 0 → expand z = [].
Proof.
  intros Hz H0. destruct (expand z) as [|c cs] eqn:E; [done|].
  destruct (Hexp z c) as [_ ?]; [done|rewrite E; by left|lia].
Qed.

Lemma preorder_enough f1 f2 z : ok z → height z ≤ f1 → height z ≤ f2 → preorder f1 z = preorder f2 z.
Proof.
  revert f2 z. induction f1 as [|f1 IH]; intros [|f2] z Hz H1 H2; cbn; try rewrite (expand_leaf z) by (done || lia);
    [done..|].
  f_equal. apply Forall_bind_ext, Forall_forall. intros c Hc. destruct (Hexp z c) as [? ?]; [done..|].
  apply IH; [done|lia..].
Qed.

Lemma nodes_eq z : ok z → nodes z = z :: (expand z ≫= nodes).
Proof.
  intros Hz. unfold nodes. destruct (height z) as [|h] eqn:E; cbn; f_equal.
  - by rewrite expand_leaf.
  - apply Forall_bind_ext, Forall_forall. intros c Hc. destruct (Hexp z c) as [? ?]; [done..|].
    apply preorder_enough; [done|lia..].
Qed.

(** Induction over the positions below a position *)
Lemma nodes_ind (P : Z → Prop) :
  (∀ z, ok z → (∀ c, c ∈ expand z → P c) → P z) → ∀ z, ok z → P z.
Proof.
  intros Hstep z. remember (height z) as h eqn:Hh. revert z Hh.
  induction (lt_wf h) as [h _ IH]. intros z -> Hz. apply Hstep; [done|]. intros c Hc.
  destruct (Hexp z c) as [? ?]; [done..|]. by apply (IH (height c)).
Qed.

Lemma nodes_ok z : ok z → Forall ok (nodes z).
Proof.
  revert z. apply nodes_ind. intros z Hz IH. rewrite nodes_eq by done. constructor; [done|].
  apply Forall_bind, Forall_forall. auto.
Qed.

Definition stack_nodes (stack : list Z) : list Z := stack ≫= nodes.

Lemma stack_nodes_pop z stack : ok z → stack_nodes (z :: stack) = z :: stack_nodes (expand z ++ stack).
Proof. intros Hz. unfold stack_nodes. cbn. rewrite nodes_eq by done. cbn. by rewrite bind_app. Qed.

Lemma stack_push z stack : ok z → Forall ok stack → Forall ok (expand z ++ stack).
Proof. intros Hz Hs. apply Forall_app. split; [|done]. apply Forall_forall. intros c Hc. by apply (Hexp z). Qed.

Context {S I : Type} (emit : S → Z → S * option I).

(** What the positions give, in order *)
Fixpoint emits (s : S) (l : list Z) : list I :=
  match l with
  | [] => []
  | z :: l => match emit s z with (s, Some i) => i :: emits s l | (s, None) => emits s l end
  end.

Lemma dfs_next_spec fuel stack s :
  Forall ok stack → length (stack_nodes stack) ≤ fuel →
  ∃ r stack' s', dfs_next expand emit fuel stack s = Ret (r, (stack', s')) ∧ Forall ok stack' ∧
    length (stack_nodes stack') ≤ length (stack_nodes stack) ∧
    match r with
    | Some i => emits s (stack_nodes stack) = i :: emits s' (stack_nodes stack') ∧
        length (stack_nodes stack') < length (stack_nodes stack)
    | None => emits s (stack_nodes stack) = []
    end.
Proof.
  revert stack s. induction fuel as [|fuel IH]; intros [|z stack] s Hok Hf; cbn [dfs_next].
  1, 3: by exists None, [], s.
  - apply Forall_cons in Hok as [Hz _]. rewrite stack_nodes_pop in Hf by done. cbn in Hf. lia.
  - apply Forall_cons in Hok as [Hz Hok]. rewrite stack_nodes_pop in * by done. cbn in Hf. cbn [emits].
    pose proof (stack_push z stack Hz Hok) as Hok'. destruct (emit s z) as [s' [i|]].
    + exists (Some i), (expand z ++ stack), s'. cbn. split_and!; [done..|lia|done|lia].
    + destruct (IH (expand z ++ stack) s') as (r & stack' & s2 & -> & ? & ? & Hr); [done|lia|].
      exists r, stack', s2. cbn. split_and!; [done..|lia|]. destruct r; [|done]. destruct Hr. split; [done|lia].
Qed.

(** Collecting runs through all the positions, with one unit of fuel for each. *)
Lemma collect_dfs fuel n stack s :
  Forall ok stack → length (stack_nodes stack) ≤ fuel → length (stack_nodes stack) ≤ n →
  collect (λ st, dfs_next expand emit fuel st.1 st.2) n (stack, s) = Ret (emits s (stack_nodes stack)).
Proof.
  intros Hok Hf Hn.
  apply (collect_spec _ (λ st, Forall ok st.1 ∧ length (stack_nodes st.1) ≤ fuel)
    (λ st, length (stack_nodes st.1)) (λ st, emits st.2 (stack_nodes st.1))); [|done..].
  intros [stack' s'] [Hok' Hf']. cbn [fst snd] in *.
  destruct (dfs_next_spec fuel stack' s' Hok' Hf') as (r & stack2 & s2 & -> & Hok2 & Hle & Hr).
  exists r, (stack2, s2). split; [done|]. destruct r; [|done]. destruct Hr. split_and!; [done|done|done|cbn [fst]; lia].
Qed.
End search.

(** ** The language of a position *)

Section laws.
Context {Z : Type} `{ZipperLaws Z}.

Lemma children_ok z l c : zip_ok z → (l, c) ∈ children z →
  zip_ok c ∧ zip_path c = zip_path z ++ [l] ∧ zip_height c < zip_height z.
Proof. intros Hz [Hl Hc]%children_descend; [|done]. by apply (descend_ok z l c Hz). Qed.

(** A search that visits the children, in some order *)
Definition visits (expand : Z → list Z) : Prop := ∀ z, zip_ok z → expand z ≡ₚ (children z).*2.

Lemma visits_exp expand :
  visits expand → ∀ z c, zip_ok z → c ∈ expand z → zip_ok c ∧ zip_height c < zip_height z.
Proof.
  intros Hv z c Hz Hc. rewrite (Hv z Hz) in Hc. apply list_elem_of_fmap in Hc as ([l c'] & -> & Hc).
  destruct (children_ok z l c' Hz Hc) as (? & _ & ?). done.
Qed.

Lemma visits_child expand z c :
  visits expand → zip_ok z → c ∈ expand z ↔ ∃ l, zip_unit Z l ∧ descend z l = Some c.
Proof.
  intros Hv Hz. rewrite (Hv z Hz), list_elem_of_fmap. split.
  - intros ([l c'] & -> & Hc). exists l. by apply children_descend.
  - intros [l Hl]. exists (l, c). split; [done|]. by apply children_descend.
Qed.

Lemma nodes_descend expand z x :
  visits expand → zip_ok z → x ∈ nodes expand zip_height z ↔ ∃ t, is_key Z t ∧ descend_all z t = Some x.
Proof.
  intros Hv. pose proof (visits_exp expand Hv) as Hexp. revert z x.
  enough (∀ z, zip_ok z → ∀ x, x ∈ nodes expand zip_height z ↔ ∃ t, is_key Z t ∧ descend_all z t = Some x) by auto.
  refine (nodes_ind expand zip_ok zip_height Hexp
            (λ z, ∀ x, x ∈ nodes expand zip_height z ↔ ∃ t, is_key Z t ∧ descend_all z t = Some x) _).
  intros z Hz IH x.
  rewrite (nodes_eq expand zip_ok zip_height Hexp z Hz), elem_of_cons, list_elem_of_bind. split.
  - intros [->|(c & Hx & Hc)]; [exists []; split; [constructor|done]|].
    pose proof Hc as (l & Hu & Hl)%visits_child; [|done..]. apply IH in Hx as (t & Ht & Hd); [|done].
    exists (l :: t). split; [by constructor|]. unfold descend_all in *. cbn. by rewrite Hl.
  - intros ([|l t] & Ht & Hd); [left; by injection Hd|right]. unfold descend_all in Hd. cbn in Hd.
    apply Forall_cons in Ht as [Hu Ht]. destruct (descend z l) as [c|] eqn:Hl; [|done]. exists c.
    assert (c ∈ expand z) as Hc by (apply visits_child; eauto). split; [|done]. apply IH; eauto.
Qed.

Lemma descend_all_path z t x :
  zip_ok z → is_key Z t → descend_all z t = Some x → zip_ok x ∧ zip_path x = zip_path z ++ t.
Proof.
  intros Hz. revert x. induction t as [|l t IH] using rev_ind; intros x Ht Hx.
  { injection Hx as <-. by rewrite app_nil_r. }
  apply Forall_app in Ht as [Ht [Hu _]%Forall_cons].
  apply path_snoc in Hx as (p & Hp & Hl). destruct (IH p Ht Hp) as [Hok Hpath].
  destruct (descend_ok p l x Hok Hu Hl) as (? & -> & _). split; [done|]. by rewrite Hpath, app_assoc.
Qed.

Lemma descend_all_inj z t1 t2 x :
  zip_ok z → is_key Z t1 → is_key Z t2 → descend_all z t1 = Some x → descend_all z t2 = Some x → t1 = t2.
Proof.
  intros Hz K1 K2 H1 H2. apply descend_all_path in H1 as [_ E1], H2 as [_ E2]; [|done..].
  rewrite E1 in E2. by apply app_inv_head in E2.
Qed.

Lemma nodes_path expand z x :
  visits expand → zip_ok z → x ∈ nodes expand zip_height z → ∃ t, zip_path x = zip_path z ++ t.
Proof.
  intros Hv Hz (t & Ht & Hd)%nodes_descend; [|done..]. exists t. by apply (descend_all_path z t x).
Qed.

(** ** Lexicographic order *)

Fixpoint lex_lt (a b : list nat) : Prop :=
  match a, b with
  | [], _ :: _ => True
  | x :: a, y :: b => x < y ∨ (x = y ∧ lex_lt a b)
  | _, _ => False
  end.

#[global] Instance lex_lt_dec a b : Decision (lex_lt a b).
Proof. revert b. induction a as [|x a IH]; intros [|y b]; cbn; apply _. Defined.

Lemma lex_lt_app p a b : lex_lt a b → lex_lt (p ++ a) (p ++ b).
Proof. intros Hab. induction p; cbn; auto. Qed.

Lemma lex_lt_irrefl a : ¬ lex_lt a a.
Proof. induction a as [|x a IH]; [by intros []|]. intros [?|[_ Ha]]; [lia|exact (IH Ha)]. Qed.

Lemma lex_lt_trans a b c : lex_lt a b → lex_lt b c → lex_lt a c.
Proof.
  revert b c. induction a as [|x a IH]; intros [|y b] [|z c]; cbn; try done. intros [?|[-> ?]] [?|[-> ?]]; [left; lia|left; lia|left; lia|].
  right. split; [done|]. by eapply IH.
Qed.

Lemma lex_lt_asym a b : lex_lt a b → ¬ lex_lt b a.
Proof. intros H1 H2. destruct (lex_lt_irrefl a). by eapply lex_lt_trans. Qed.

Lemma lex_lt_total a b : lex_lt a b ∨ a = b ∨ lex_lt b a.
Proof.
  revert b. induction a as [|x a IH]; intros [|y b]; cbn; auto. destruct (IH b) as [?|[->|?]].
  all: destruct (decide (x < y)), (decide (y < x)), (decide (x = y)); subst; try lia; auto.
Qed.

Lemma sorted_children_visits : visits sorted_children.
Proof. intros z Hz. unfold sorted_children. by rewrite merge_sort_Permutation. Qed.

Lemma sorted_children_labels z :
  zip_ok z → StronglySorted (λ a b : nat * Z, a.1 < b.1) (merge_sort label_le (children z)).
Proof.
  intros Hz. assert (NoDup (merge_sort label_le (children z)).*1) as Hnd.
  { rewrite merge_sort_Permutation. by apply children_NoDup. }
  assert (StronglySorted label_le (merge_sort label_le (children z))) as Hs.
  { apply StronglySorted_merge_sort; [unfold label_le; intros ???; lia|]. intros a b. unfold label_le. lia. }
  induction Hs as [|a l Hs IH Ha]; [constructor|]. rewrite fmap_cons in Hnd. apply NoDup_cons in Hnd as [Hnot Hnd].
  constructor; [auto|]. apply Forall_forall. intros b Hb. rewrite Forall_forall in Ha. specialize (Ha b Hb).
  unfold label_le in Ha. enough (a.1 ≠ b.1) by lia. intros E. apply Hnot. rewrite E.
  apply list_elem_of_fmap. by exists b.
Qed.

(** The nodes come in the order of their paths. *)
Lemma nodes_sorted z :
  zip_ok z → StronglySorted (λ x y, lex_lt (zip_path x) (zip_path y)) (nodes sorted_children zip_height z).
Proof.
  pose proof (visits_exp _ sorted_children_visits) as Hexp.
  revert z. refine (nodes_ind sorted_children zip_ok zip_height Hexp _ _). intros z Hz IH.
  rewrite (nodes_eq sorted_children zip_ok zip_height Hexp z Hz). constructor.
  - pose proof (sorted_children_labels z Hz) as Hs.
    assert (∀ a, a ∈ merge_sort label_le (children z) → zip_unit Z a.1 ∧ descend z a.1 = Some a.2) as Hin.
    { intros [l c]. rewrite merge_sort_Permutation. by apply children_descend. }
    unfold sorted_children in *. induction Hs as [|[l c] cs Hs IHs Ha]; [constructor|].
    rewrite fmap_cons. cbn [mbind list_bind]. apply StronglySorted_app. split_and!.
    + intros x y Hx (c' & Hy & Hc')%list_elem_of_bind. apply list_elem_of_fmap in Hc' as ([l' c''] & -> & Hc').
      rewrite Forall_forall in Ha. specialize (Ha _ Hc'). cbn in Ha, Hx, Hy.
      destruct (Hin (l, c)) as [Hu Hl]; [by left|]. destruct (Hin (l', c'')) as [Hu' Hl']; [by right|].
      destruct (descend_ok z l c Hz Hu Hl) as (Hcok & Hcp & _),
        (descend_ok z l' c'' Hz Hu' Hl') as (Hcok' & Hcp' & _).
      apply nodes_path in Hx as [t ->], Hy as [t' ->]; try apply sorted_children_visits; try done.
      rewrite Hcp, Hcp', <-!app_assoc. apply lex_lt_app. cbn. auto.
    + apply IH. rewrite fmap_cons. by left.
    + apply IHs; [intros c' Hc'; apply IH; rewrite fmap_cons; by right|]. intros a Ha'. apply Hin. by right.
  - apply Forall_forall. intros x (c & Hx & Hc)%list_elem_of_bind.
    apply (visits_child sorted_children z c) in Hc as (l & Hu & Hl); [|apply sorted_children_visits|done].
    destruct (descend_ok z l c Hz Hu Hl) as (Hcok & Hcp & _).
    apply nodes_path in Hx as [t ->]; [|apply sorted_children_visits|done].
    rewrite Hcp. rewrite <-(app_nil_r (zip_path z)) at 1. rewrite <-app_assoc. by apply lex_lt_app.
Qed.

Lemma nodes_perm e1 e2 z :
  visits e1 → visits e2 → zip_ok z → nodes e1 zip_height z ≡ₚ nodes e2 zip_height z.
Proof.
  intros H1 H2. pose proof (visits_exp e1 H1) as X1. pose proof (visits_exp e2 H2) as X2.
  revert z. refine (nodes_ind e1 zip_ok zip_height X1 _ _). intros z Hz IH.
  rewrite (nodes_eq e1 zip_ok zip_height X1 z Hz), (nodes_eq e2 zip_ok zip_height X2 z Hz). constructor.
  transitivity (e1 z ≫= nodes e2 zip_height).
  - clear -IH. induction (e1 z) as [|c cs IHc]; [done|]. cbn. rewrite (IH c) by (by left).
    rewrite IHc; [done|]. intros c' Hc'. apply IH. by right.
  - apply bind_Permutation. rewrite (H1 z Hz), (H2 z Hz). done.
Qed.

Lemma nodes_NoDup expand z : visits expand → zip_ok z → NoDup (map zip_path (nodes expand zip_height z)).
Proof.
  intros Hv Hz. rewrite (nodes_perm expand sorted_children z Hv sorted_children_visits Hz).
  pose proof (nodes_sorted z Hz) as Hs. induction Hs as [|x l _ IH Hx]; [constructor|]. cbn.
  constructor; [|done]. intros (y & E & Hy)%list_elem_of_fmap. rewrite Forall_forall in Hx.
  apply (lex_lt_irrefl (zip_path x)). rewrite E at 2. by apply Hx.
Qed.

(** ** What the iterators return *)

Section results.
Context {I : Type} (item : Z → I).

Definition final_item (z : Z) : option I := if zip_final z then Some (item z) else None.

Lemma emits_pure l : emits (λ s z, (s, final_item z)) tt l = omap final_item l.
Proof. induction l as [|z l IH]; [done|]. cbn [emits]. cbn. destruct (final_item z); by rewrite IH. Qed.

Lemma collect_visits expand z fuel n :
  visits expand → zip_ok z → length (nodes expand zip_height z) ≤ fuel → length (nodes expand zip_height z) ≤ n →
  collect (λ st, dfs_next expand (λ s z, (s, final_item z)) fuel st.1 st.2) n (iterator_new z) =
    Ret (omap final_item (nodes expand zip_height z)).
Proof.
  intros Hv Hz Hf Hn. unfold iterator_new.
  assert (stack_nodes expand zip_height [z] = nodes expand zip_height z) as E.
  { unfold stack_nodes. cbn. apply app_nil_r. }
  rewrite (collect_dfs expand zip_ok zip_height (visits_exp expand Hv)); rewrite ?E; try done.
  - by rewrite emits_pure.
  - by repeat constructor.
Qed.

Lemma elem_of_items expand z i :
  visits expand → zip_ok z →
  i ∈ omap final_item (nodes expand zip_height z) ↔
    ∃ t x, is_key Z t ∧ descend_all z t = Some x ∧ zip_final x = true ∧ i = item x.
Proof.
  intros Hv Hz. rewrite list_elem_of_omap. unfold final_item. split.
  - intros (x & (t & Ht & Hd)%nodes_descend & Hi); [|done..]. exists t, x. by destruct (zip_final x); simplify_eq.
  - intros (t & x & Ht & Hd & Hf & ->). exists x. split; [|by rewrite Hf]. apply nodes_descend; eauto.
Qed.
End results.

Lemma omap_final {I} (item : Z → I) (l : list Z) : omap (final_item item) l = item <$> filter (λ z, zip_final z = true) l.
Proof.
  induction l as [|z l IH]; [done|]. rewrite filter_cons. cbn [omap list_omap]. rewrite IH. unfold final_item at 1.
  by destruct (zip_final z); case_decide.
Qed.

Lemma items_sorted {I} (item : Z → list nat * I) z :
  (∀ x, (item x).1 = zip_path x) → zip_ok z →
  StronglySorted (λ a b, lex_lt a.1 b.1) (omap (final_item item) (nodes sorted_children zip_height z)).
Proof.
  intros Hitem Hz. rewrite omap_final.
  pose proof (StronglySorted_filter _ (λ x, zip_final x = true) _ (nodes_sorted z Hz)) as Hs.
  induction Hs as [|x l _ IH Hx]; [constructor|]. rewrite fmap_cons. constructor; [done|].
  apply Forall_fmap. eapply Forall_impl; [done|]. intros y Hy. cbn. by rewrite !Hitem.
Qed.

Lemma final_items_NoDup {I} (item : Z → list nat * I) l :
  (∀ x, (item x).1 = zip_path x) → NoDup (map zip_path l) → NoDup (omap (final_item item) l).*1.
Proof.
  intros Hitem Hnd. rewrite omap_final, <-list_fmap_compose. induction l as [|x l IH]; [constructor|]. cbn in Hnd.
  apply NoDup_cons in Hnd as [Hx Hnd]. rewrite filter_cons. case_decide; [|auto].
  rewrite fmap_cons. constructor; [|auto]. cbn. rewrite Hitem.
  intros (y & E & Hy)%list_elem_of_fmap. apply Hx. rewrite E. cbn. rewrite Hitem.
  apply list_elem_of_fmap. exists y. split; [done|]. by apply list_elem_of_filter in Hy as [_ ?].
Qed.

Lemma items_NoDup {I} (item : Z → list nat * I) expand z :
  (∀ x, (item x).1 = zip_path x) → visits expand → zip_ok z →
  NoDup (omap (final_item item) (nodes expand zip_height z)).*1.
Proof. intros Hitem Hv Hz. apply final_items_NoDup; [done|]. by apply nodes_NoDup. Qed.

(** An iterator that visits the children in some order returns every term below
    the start once, and enough fuel is any fuel above a bound. *)
Lemma visits_spec {I} expand (item : Z → list nat * I) z :
  visits expand → (∀ x, (item x).1 = zip_path x) → zip_ok z →
  ∃ bound, ∀ fuel n, bound ≤ fuel → bound ≤ n →
  ∃ items, collect (λ st, dfs_next expand (λ s z, (s, final_item item z)) fuel st.1 st.2) n (iterator_new z) = Ret items ∧
    items = omap (final_item item) (nodes expand zip_height z) ∧ NoDup items.*1 ∧
    ∀ i, i ∈ items ↔ ∃ t x, is_key Z t ∧ descend_all z t = Some x ∧ zip_final x = true ∧ i = item x.
Proof.
  intros Hv Hitem Hz. exists (length (nodes expand zip_height z)). intros fuel n Hf Hn. eexists.
  split; [by apply collect_visits|]. split; [done|]. split; [by apply items_NoDup|].
  intros i. by apply elem_of_items.
Qed.

Lemma accepts_descend z t : accepts z t = true ↔ ∃ x, descend_all z t = Some x ∧ zip_final x = true.
Proof. unfold accepts. destruct (descend_all z t) as [x|]; naive_solver. Qed.

Lemma DictionaryIterator_spec {V} `{ValuedDictZipper Z V} (dft : V) z :
  zip_ok z →
  ∃ bound, ∀ fuel n, bound ≤ fuel → bound ≤ n →
  ∃ items, collect (DictionaryIterator_next dft fuel) n (iterator_new z) = Ret items ∧
    StronglySorted (λ a b, lex_lt a.1 b.1) items ∧
    ∀ p v, (p, v) ∈ items ↔
      ∃ t, is_key Z t ∧ p = zip_path z ++ t ∧ accepts z t = true ∧ v = default dft (lookup_value z t).
Proof.
  intros Hz.
  destruct (visits_spec sorted_children (λ x, (zip_path x, default dft (zip_value x))) z) as [bound Hb];
    [apply sorted_children_visits|done..|].
  exists bound. intros fuel n Hf Hn. destruct (Hb fuel n Hf Hn) as (items & Hrun & Heq & _ & Hin).
  exists items. split; [exact Hrun|]. split; [subst items; by apply items_sorted|].
  intros p v. rewrite Hin. split.
  - intros (t & x & Ht & Hd & Hfin & [= -> ->]). exists t. destruct (descend_all_path z t x Hz Ht Hd) as [_ ->].
    split_and!; [done..|apply accepts_descend; eauto|]. unfold lookup_value. by rewrite Hd.
  - intros (t & Ht & -> & (x & Hd & Hfin)%accepts_descend & ->). exists t, x.
    destruct (descend_all_path z t x Hz Ht Hd) as [_ <-]. unfold lookup_value. by rewrite Hd.
Qed.

(** ** Prefixes and exclusion *)

Lemma descend_all_app z t1 t2 :
  descend_all z (t1 ++ t2) = descend_all z t1 ≫= λ x, descend_all x t2.
Proof. unfold descend_all. rewrite path_app. by destruct (path descend z t1). Qed.

Lemma prefix_visits : visits (λ z : Z, reverse (children z).*2).
Proof. intros z _. apply reverse_Permutation. Qed.

Lemma starts_with_any_excluded_spec p excluded :
  starts_with_any_excluded p excluded = true ↔ ∃ e, e ∈ excluded ∧ e `prefix_of` p.
Proof.
  unfold starts_with_any_excluded. rewrite existsb_exists. setoid_rewrite andb_true_iff.
  setoid_rewrite Nat.leb_le. setoid_rewrite bool_decide_eq_true. setoid_rewrite <-list_elem_of_In.
  split; intros (e & He & Hp); exists e; (split; [done|]).
  - destruct Hp as [_ Hp]. exists (drop (length e) p). rewrite <-Hp at 1. by rewrite take_drop.
  - destruct Hp as [r ->]. rewrite length_app, take_app_length. split; [lia|done].
Qed.

(** The search that skips the excluded children finds the positions that are not
    excluded: an excluded position has only excluded positions below it. *)
Definition excluding (excluded : list (list nat)) (z : Z) : list Z :=
  reverse (filter (λ c, starts_with_any_excluded (zip_path c) excluded = false) (children z).*2).

Lemma excluding_exp excluded z c :
  zip_ok z → c ∈ excluding excluded z → zip_ok c ∧ zip_height c < zip_height z.
Proof.
  intros Hz Hc. unfold excluding in Hc. rewrite elem_of_reverse in Hc. apply list_elem_of_filter in Hc as [_ Hc].
  apply (visits_exp _ prefix_visits z c Hz). by rewrite elem_of_reverse.
Qed.

Lemma excluding_nodes excluded z x :
  zip_ok z → starts_with_any_excluded (zip_path z) excluded = false →
  x ∈ nodes (excluding excluded) zip_height z ↔
    (∃ t, is_key Z t ∧ descend_all z t = Some x) ∧ starts_with_any_excluded (zip_path x) excluded = false.
Proof.
  pose proof (excluding_exp excluded) as Hexp. revert z x.
  enough (∀ z, zip_ok z → ∀ x, starts_with_any_excluded (zip_path z) excluded = false →
    x ∈ nodes (excluding excluded) zip_height z ↔
    (∃ t, is_key Z t ∧ descend_all z t = Some x) ∧ starts_with_any_excluded (zip_path x) excluded = false) by auto.
  refine (nodes_ind (excluding excluded) zip_ok zip_height Hexp _ _). intros z Hz IH x Hnot.
  rewrite (nodes_eq (excluding excluded) zip_ok zip_height Hexp z Hz), elem_of_cons, list_elem_of_bind.
  assert (∀ c, c ∈ excluding excluded z ↔ (∃ l, zip_unit Z l ∧ descend z l = Some c) ∧
    starts_with_any_excluded (zip_path c) excluded = false) as Hchild.
  { intros c. rewrite <-(visits_child _ z c prefix_visits Hz). unfold excluding.
    rewrite !elem_of_reverse, list_elem_of_filter. tauto. }
  split.
  - intros [->|(c & Hx & Hc)]; [split; [exists []; split; [constructor|done]|done]|].
    pose proof Hc as [(l & Hu & Hl) Hcn]%Hchild. apply IH in Hx as [(t & Ht & Hd) Hxn]; [|done..].
    split; [|done]. exists (l :: t). split; [by constructor|]. unfold descend_all in *. cbn. by rewrite Hl.
  - intros [([|l t] & Ht & Hd) Hxn]; [left; by injection Hd|right]. unfold descend_all in Hd. cbn in Hd.
    apply Forall_cons in Ht as [Hu Ht]. destruct (descend z l) as [c|] eqn:Hl; [|done]. exists c.
    assert (starts_with_any_excluded (zip_path c) excluded = false) as Hcn.
    { destruct (descend_ok z l c Hz Hu Hl) as (Hc & _). destruct (descend_all_path c t x Hc Ht Hd) as [_ Hp].
      apply not_true_iff_false. intros (e & He & Hpre)%starts_with_any_excluded_spec.
      apply not_true_iff_false in Hxn. apply Hxn, starts_with_any_excluded_spec. exists e. split; [done|].
      rewrite Hp. by apply prefix_app_r. }
    assert (c ∈ excluding excluded z) as Hc by (apply Hchild; eauto). split; [|done]. apply IH; eauto.
Qed.
End laws.
