(* ===== verification/DatZipper.v ===== *)
(** * Double-array dictionaries and their zippers

    The constructors of [DoubleArrayTrie] and [DoubleArrayTrieChar]
    (src/src/double_array_trie/ascii.rs and char.rs) that sort their input, the
    zippers of zipper.rs and char_zipper.rs in the same directory, and the
    iteration over a dictionary. *)

From stdpp Require Import prelude gmap sets sorting.
From S2P Require Import Prelude Tree DatShared DatBuilder Zipper.

Section zipper.
Context {V : Type}.

(** ** The zipper *)

Record DoubleArrayTrieZipper (k : unit_kind) := mkZipper {
  dz_state : nat;
  dz_path : list nat;
  dz_shared : DATCoreShared V;
}.
Arguments mkZipper {k} _ _ _.
Arguments dz_state {k} _.
Arguments dz_path {k} _.
Arguments dz_shared {k} _.

(** The byte dictionary has its root at 1, the character dictionary at 0. *)
Definition root_state (k : unit_kind) : nat := match k with ByteUnit => 1 | CharUnit => 0 end.

Definition new_from_dict (k : unit_kind) (shared : DATCoreShared V) : DoubleArrayTrieZipper k :=
  mkZipper (root_state k) [] shared.

(** [(base as usize) + (label as usize)] and
    [(base as u32).wrapping_add(label as u32) as usize] *)
Definition zipper_next (k : unit_kind) (base : Z) (label : nat) : nat :=
  match k with
  | ByteUnit => Z.to_nat base + label
  | CharUnit => Z.to_nat (u32 (base + Z.of_nat label))
  end.

Definition zipper_is_final {k} (z : DoubleArrayTrieZipper k) : bool :=
  default false (d_final (dz_shared z) !! dz_state z).

Definition zipper_descend {k} (z : DoubleArrayTrieZipper k) (label : nat) : option (DoubleArrayTrieZipper k) :=
  match d_base (dz_shared z) !! dz_state z with
  | None => None
  | Some base =>
      if (base <? 0)%Z then None
      else
        let next := zipper_next k base label in
        match d_check (dz_shared z) !! next with
        | None => None
        | Some c =>
            if (c =? i32 (Z.of_nat (dz_state z)))%Z
            then Some (mkZipper next (dz_path z ++ [label]) (dz_shared z))
            else None
        end
  end.

Definition zipper_children {k} (z : DoubleArrayTrieZipper k) : list (nat * DoubleArrayTrieZipper k) :=
  children_by (zipper_descend z) (default [] (d_edges (dz_shared z) !! dz_state z)).

Definition zipper_value {k} (z : DoubleArrayTrieZipper k) : option V :=
  if zipper_is_final z then mjoin (d_values (dz_shared z) !! dz_state z) else None.

#[global] Instance dat_DictZipper k : DictZipper (DoubleArrayTrieZipper k) := {
  zip_final := zipper_is_final;
  descend := zipper_descend;
  children := zipper_children;
  zip_path := dz_path;
}.

#[global] Instance dat_ValuedDictZipper k : ValuedDictZipper (DoubleArrayTrieZipper k) V := zipper_value.

(** ** The laws *)

(** A dictionary with a valid layout and a root that is nobody's child *)
Definition sealed (k : unit_kind) (s : DATCoreShared V) : Prop :=
  dat_typed k s ∧ (∃ R, dat_layout s (root_state k) R) ∧
  ∀ c, d_check s !! root_state k = Some c → (c < 0)%Z.

Definition dat_zip_ok {k} (z : DoubleArrayTrieZipper k) : Prop :=
  sealed k (dz_shared z) ∧ Forall (is_label k) (dz_path z) ∧
  walk (dz_shared z) (root_state k) (dz_path z) = Some (dz_state z).

Lemma dat_zip_in {k} (z : DoubleArrayTrieZipper k) R :
  dat_zip_ok z → dat_layout (dz_shared z) (root_state k) R → dz_state z ∈ R.
Proof.
  intros ((Ht & _ & Ho) & Hp & Hw) HR. eapply (open_walk_in k _ _ R Ht HR Ho); [|done..].
  apply (tree_root _ _ _ (dl_tree _ _ _ HR)).
Qed.

(** One step of the zipper is one step of the lookup. *)
Lemma dat_descend_walk {k} (z : DoubleArrayTrieZipper k) l :
  dat_zip_ok z → is_label k l →
  zipper_descend z l =
    next ← walk_step (dz_shared z) (dz_state z) l; Some (mkZipper next (dz_path z ++ [l]) (dz_shared z)).
Proof.
  intros Hz Hl. pose proof Hz as ((Ht & (R & HR) & Ho) & _).
  pose proof (dat_zip_in z R Hz HR) as Hin.
  destruct (layout_lookups k _ _ R Ht HR (dz_state z) Hin) as (b & _ & _ & Hb & Hi & _).
  unfold zipper_descend, walk_step. rewrite Hb. destruct (Z.ltb_spec b 0) as [|Hpos]; [done|].
  assert (zipper_next k b l = usize_wrapping_add (Z.to_nat b) l) as ->.
  { pose proof (is_label_bound k l Hl) as Hlb. destruct Hi as [_ Hi].
    destruct (usize_add_small (Z.to_nat b) l) as [_ ->]; [lia|done|].
    unfold zipper_next. destruct k; [done|]. unfold u32. unfold i32_MAX in Hi. rewrite Z.mod_small by lia. lia. }
  cbn zeta. destruct (d_check (dz_shared z) !! usize_wrapping_add (Z.to_nat b) l) as [c|]; [|done].
  by destruct (c =? _)%Z.
Qed.

Lemma dat_descend_ok {k} (z : DoubleArrayTrieZipper k) l c :
  dat_zip_ok z → is_label k l → zipper_descend z l = Some c →
  dat_zip_ok c ∧ dz_path c = dz_path z ++ [l] ∧
  length (d_base (dz_shared c)) - length (dz_path c) < length (d_base (dz_shared z)) - length (dz_path z).
Proof.
  intros Hz Hl Hd. rewrite dat_descend_walk in Hd by done.
  destruct (walk_step _ _ l) as [next|] eqn:Hw; [|done]. injection Hd as <-. cbn.
  destruct Hz as (Hs & Hp & Hwalk).
  assert (Forall (is_label k) (dz_path z ++ [l])) as Hp'.
  { apply Forall_app. split; [done|]. by constructor. }
  assert (walk (dz_shared z) (root_state k) (dz_path z ++ [l]) = Some next) as Hwalk'.
  { apply path_snoc. eauto. }
  split; [by split_and!|]. split; [done|]. destruct Hs as (Ht & (R & HR) & Ho).
  pose proof (open_walk_length k _ _ R Ht HR Ho _ _ Hp' Hwalk') as Hlen.
  rewrite length_app in *. cbn in *. lia.
Qed.

Lemma dat_children_descend {k} (z : DoubleArrayTrieZipper k) l c :
  dat_zip_ok z → (l, c) ∈ zipper_children z ↔ is_label k l ∧ zipper_descend z l = Some c.
Proof.
  intros Hz. pose proof Hz as ((Ht & (R & HR) & Ho) & _). pose proof (dat_zip_in z R Hz HR) as Hin.
  unfold zipper_children. fold (labels_of (dz_shared z) (dz_state z)). rewrite elem_of_children_by. split.
  - intros [Hl Hd]. split; [|done]. pose proof (typed_labels k _ (dz_state z) Ht) as Hls. by eapply Forall_forall in Hls.
  - intros [Hl Hd]. split; [|done]. rewrite dat_descend_walk in Hd by done. destruct (walk_step _ _ l) as [next|] eqn:Hw; [|done].
    apply (layout_step k _ _ R Ht HR (dz_state z) l next Ho Hin Hl) in Hw as [? _]. done.
Qed.

#[global] Program Instance dat_ZipperLaws k : ZipperLaws (DoubleArrayTrieZipper k) := {
  zip_unit := is_label k;
  zip_ok := dat_zip_ok;
  zip_height z := length (d_base (dz_shared z)) - length (dz_path z);
}.
Next Obligation. intros k z l c. apply dat_descend_ok. Qed.
Next Obligation.
  intros k z Hz. apply children_by_NoDup. pose proof Hz as ((Ht & (R & HR) & Ho) & _).
  apply sorted_NoDup_lt, (so_sorted _ _ (dl_state _ _ _ HR _ (dat_zip_in z R Hz HR))).
Qed.
Next Obligation. intros k z l c. apply dat_children_descend. Qed.

#[global] Instance dat_ValuedLaws k : ValuedLaws (DoubleArrayTrieZipper k) V.
Proof.
  intros z v _ Hv. change (zip_final z) with (zipper_is_final z).
  unfold zip_value, dat_ValuedDictZipper, zipper_value in Hv. by destruct (zipper_is_final z).
Qed.

(** ** The zipper at the root is the dictionary *)

Lemma dat_root_ok k s : sealed k s → zip_ok (new_from_dict k s).
Proof. intros Hs. split; [done|]. split; [constructor|done]. Qed.

Lemma dat_descend_all {k} (z : DoubleArrayTrieZipper k) t :
  dat_zip_ok z → Forall (is_label k) t →
  descend_all z t = d ← walk (dz_shared z) (dz_state z) t; Some (mkZipper d (dz_path z ++ t) (dz_shared z)).
Proof.
  revert z. induction t as [|l t IH]; intros z Hz Ht.
  { cbn. rewrite app_nil_r. by destruct z. }
  apply Forall_cons in Ht as [Hl Ht]. unfold descend_all, walk in *. cbn.
  destruct (zipper_descend z l) as [c|] eqn:Hd.
  - destruct (dat_descend_ok z l c Hz Hl Hd) as (Hc & _). rewrite dat_descend_walk in Hd by done.
    destruct (walk_step _ _ l) as [next|]; [|done]. injection Hd as <-. rewrite IH by done. cbn.
    by rewrite <-app_assoc.
  - rewrite dat_descend_walk in Hd by done. by destruct (walk_step _ _ l).
Qed.

Lemma dat_accepts k s t :
  sealed k s → Forall (is_label k) t →
  accepts (new_from_dict k s) t = contains_term_from s t (root_state k) ∧
  lookup_value (new_from_dict k s) t = term_value_from s t (root_state k).
Proof.
  intros Hs Ht. pose proof (dat_root_ok k s Hs) as Hok.
  unfold accepts, lookup_value, contains_term_from, term_value_from.
  rewrite (dat_descend_all (new_from_dict k s) t Hok Ht). cbn.
  destruct (walk s (root_state k) t) as [d|]; done.
Qed.

(** ** Sorting constructors *)

(** The order of Rust's strings and slices *)
Fixpoint lex_leb (a b : list nat) : bool :=
  match a, b with
  | [], _ => true
  | _ :: _, [] => false
  | x :: a, y :: b => (x <? y) || ((x =? y) && lex_leb a b)
  end.

(** [sort_by(|a, b| a.0.cmp(&b.0))] is stable: an entry goes before the later ones
    with the same term. *)
Fixpoint insert_sorted {A} (e : list nat * A) (l : list (list nat * A)) : list (list nat * A) :=
  match l with
  | [] => [e]
  | e' :: l' => if lex_leb e.1 e'.1 then e :: l else e' :: insert_sorted e l'
  end.

Definition sort_by_term {A} (l : list (list nat * A)) : list (list nat * A) := foldr insert_sorted [] l.

(** [dedup_by]: the retained entry [b] takes the value of an equal successor [a]. *)
Fixpoint dedup_from {A} (b : list nat * A) (l : list (list nat * A)) : list (list nat * A) :=
  match l with
  | [] => [b]
  | a :: l => if bool_decide (a.1 = b.1) then dedup_from (b.1, a.2) l else b :: dedup_from a l
  end.

Definition dedup_by_term {A} (l : list (list nat * A)) : list (list nat * A) :=
  match l with [] => [] | b :: l => dedup_from b l end.

(** [DoubleArrayTrieChar::empty] *)
Definition empty_char : DATCoreShared V := mkDat [0%Z] [0%Z] [false] [[]] [None].

Definition from_sorted (k : unit_kind) (pairs : list (list nat * option V)) : exec (DATCoreShared V * nat) :=
  match k, pairs with
  | CharUnit, [] => Ret (empty_char, 0)
  | _, _ => from_iter (root_state k) pairs
  end.

Definition from_terms_with_values (k : unit_kind) (terms : list (list nat * V)) :
    exec (DATCoreShared V * nat) :=
  from_sorted k (prod_map id Some <$> dedup_by_term (sort_by_term terms)).

Definition from_terms (k : unit_kind) (terms : list (list nat)) : exec (DATCoreShared V * nat) :=
  from_sorted k ((λ '(t, _), (t, None)) <$> dedup_by_term (sort_by_term ((λ t, (t, tt)) <$> terms))).

(** The character dictionary looks a second time, with 32-bit arithmetic. *)
Definition char_walk_step (s : DATCoreShared V) (state c : nat) : option nat :=
  match d_base s !! state with
  | None => None
  | Some base =>
      if (base <? 0)%Z then None
      else
        let next := zipper_next CharUnit base c in
        match d_check s !! next with
        | None => None
        | Some parent => if (parent =? i32 (Z.of_nat state))%Z then Some next else None
        end
  end.

Definition char_get_value (s : DATCoreShared V) (term : list nat) : option V :=
  match term_value_from s term 0 with
  | Some v => Some v
  | None =>
      match path (char_walk_step s) 0 term with
      | None => None
      | Some state => if default false (d_final s !! state) then mjoin (d_values s !! state) else None
      end
  end.

Lemma char_get_value_eq s term :
  dat_typed CharUnit s → Forall (is_label CharUnit) term → char_get_value s term = term_value_from s term 0.
Proof.
  intros (Hb & _) Ht. unfold char_get_value, term_value_from.
  enough (∀ d, path (char_walk_step s) d term = walk s d term) as ->.
  { destruct (walk s 0 term) as [d|]; [|done]. destruct (default false _); [|done]. by destruct (mjoin _). }
  unfold walk. induction term as [|l term IH]; intros d; [done|].
  apply Forall_cons in Ht as [Hl Ht]. cbn.
  assert (char_walk_step s d l = walk_step s d l) as ->; [|by destruct (walk_step s d l); [apply IH|]].
  unfold char_walk_step, walk_step. destruct (d_base s !! d) as [b|] eqn:Hbd; [|done].
  destruct (Z.ltb_spec b 0) as [|Hpos]; [done|]. eapply Forall_lookup in Hb as [_ Hi]; [|exact Hbd].
  pose proof (is_label_bound CharUnit l Hl) as Hlb.
  destruct (usize_add_small (Z.to_nat b) l) as [_ ->]; [lia|done|].
  unfold zipper_next, u32. unfold i32_MAX in Hi. rewrite Z.mod_small by lia.
  by replace (Z.to_nat (b + Z.of_nat l)) with (Z.to_nat b + l) by lia.
Qed.

(** ** The last value wins *)

Definition of_term {A} (t : list nat) (l : list (list nat * A)) : list (list nat * A) := filter (λ e, e.1 = t) l.

Lemma insert_sorted_of_term {A} (e : list nat * A) l t :
  of_term t (insert_sorted e l) = of_term t (e :: l).
Proof.
  induction l as [|e' l IH]; [done|]. cbn [insert_sorted]. destruct (lex_leb e.1 e'.1) eqn:Hle; [done|].
  unfold of_term in *. rewrite !filter_cons in *. rewrite IH.
  destruct (decide (e'.1 = t)) as [E'|], (decide (e.1 = t)) as [E|]; try done.
  exfalso. rewrite E, E' in Hle. clear -Hle. induction t as [|x u IH]; [done|]. cbn [lex_leb] in Hle.
  rewrite Nat.ltb_irrefl, Nat.eqb_refl in Hle. cbn in Hle. auto.
Qed.

Lemma sort_by_term_of_term {A} (l : list (list nat * A)) t : of_term t (sort_by_term l) = of_term t l.
Proof.
  induction l as [|e l IH]; [done|]. cbn [sort_by_term foldr]. fold (sort_by_term l).
  rewrite insert_sorted_of_term. unfold of_term in *. by rewrite !filter_cons, IH.
Qed.

Lemma dedup_from_last {A} (b : list nat * A) l t : last (of_term t (dedup_from b l)) = last (of_term t (b :: l)).
Proof.
  revert b. induction l as [|a l IH]; intros b; [done|]. cbn [dedup_from]. case_bool_decide as E.
  - rewrite IH. unfold of_term. rewrite !filter_cons. cbn [fst]. rewrite E.
    destruct (decide (b.1 = t)); [|done]. rewrite last_cons_cons. by rewrite <-E, <-surjective_pairing.
  - unfold of_term in *. rewrite filter_cons. case_decide as Eb; [|by rewrite IH, !filter_cons, (decide_False (P := b.1 = t))].
    rewrite (filter_cons _ b), decide_True by done. rewrite !last_cons, IH. done.
Qed.

Lemma dedup_by_term_last {A} (l : list (list nat * A)) t : last (of_term t (dedup_by_term l)) = last (of_term t l).
Proof. destruct l as [|b l]; [done|]. apply dedup_from_last. Qed.

Lemma fold_lookup (l : list (list nat * V)) m t :
  foldl dict_insert m (prod_map id Some <$> l) !! t =
    match last (of_term t l) with Some e => Some (Some e.2) | None => m !! t end.
Proof.
  revert m. induction l as [|[u v] l IH]; intros m; [done|]. rewrite fmap_cons. cbn [foldl]. rewrite IH.
  unfold of_term. rewrite filter_cons. cbn [fst]. change (prod_map id Some (u, v)) with (u, Some v).
  rewrite dict_insert_lookup. destruct (decide (t = u)) as [->|E].
  - rewrite decide_True by done. rewrite last_cons. destruct (last _); [done|]. by destruct (m !! u).
  - by rewrite decide_False by congruence.
Qed.

(** Sorting and dropping earlier duplicates does not change the dictionary. *)
Lemma sorted_dictionary (terms : list (list nat * V)) :
  foldl dict_insert ∅ (prod_map id Some <$> dedup_by_term (sort_by_term terms)) =
  foldl dict_insert ∅ (prod_map id Some <$> terms).
Proof.
  apply map_eq. intros t. rewrite !fold_lookup. by rewrite dedup_by_term_last, sort_by_term_of_term.
Qed.

Lemma insert_sorted_perm {A} (e : list nat * A) l : insert_sorted e l ≡ₚ e :: l.
Proof.
  induction l as [|e' l IH]; [done|]. cbn [insert_sorted]. destruct (lex_leb e.1 e'.1); [done|].
  rewrite IH. apply perm_swap.
Qed.

Lemma sort_by_term_perm {A} (l : list (list nat * A)) : sort_by_term l ≡ₚ l.
Proof. induction l as [|e l IH]; [done|]. cbn. by rewrite insert_sorted_perm, IH. Qed.

Lemma dedup_from_keys {A} (b : list nat * A) l : (dedup_from b l).*1 `sublist_of` (b :: l).*1.
Proof.
  revert b. induction l as [|a l IH]; intros b; [done|]. cbn [dedup_from]. case_bool_decide.
  - etransitivity; [apply IH|]. rewrite !fmap_cons. by apply sublist_skip, sublist_cons.
  - rewrite !fmap_cons. apply sublist_skip. rewrite <-fmap_cons. apply IH.
Qed.

Lemma dedup_by_term_keys {A} (l : list (list nat * A)) : (dedup_by_term l).*1 `sublist_of` l.*1.
Proof. destruct l; [done|]. apply dedup_from_keys. Qed.

Lemma sum_lengths_sublist (l1 l2 : list (list nat)) :
  l1 `sublist_of` l2 → sum_list (length <$> l1) ≤ sum_list (length <$> l2).
Proof. induction 1; cbn; lia. Qed.

Lemma keys_some {A} (l : list (list nat * A)) : (prod_map id Some <$> l).*1 = l.*1.
Proof. rewrite <-list_fmap_compose. by apply list_fmap_ext. Qed.

Lemma sorted_letters (terms : list (list nat * V)) :
  letters (prod_map id Some <$> dedup_by_term (sort_by_term terms)) ≤ letters (prod_map id Some <$> terms).
Proof.
  unfold letters. rewrite !keys_some. etransitivity; [apply sum_lengths_sublist, dedup_by_term_keys|].
  by rewrite sort_by_term_perm.
Qed.

Lemma sorted_keys (P : list nat → Prop) (terms : list (list nat * V)) :
  Forall (λ e, P e.1) terms → Forall (λ e, P e.1) (prod_map id Some <$> dedup_by_term (sort_by_term terms)).
Proof.
  rewrite !Forall_forall. intros H e He.
  assert (e.1 ∈ terms.*1) as (e' & -> & He')%list_elem_of_fmap; [|by apply H].
  rewrite <-(sort_by_term_perm terms). eapply elem_of_sublist; [|apply dedup_by_term_keys].
  rewrite <-keys_some. apply list_elem_of_fmap. by exists e.
Qed.

Lemma from_sorted_iter k (terms : list (list nat * V)) :
  (k = CharUnit ∧ terms = []) ∨
  from_sorted k (prod_map id Some <$> dedup_by_term (sort_by_term terms)) =
    from_iter (root_state k) (prod_map id Some <$> dedup_by_term (sort_by_term terms)).
Proof.
  destruct k; [by right|]. destruct (dedup_by_term (sort_by_term terms)) as [|p ps] eqn:E; [left|by right].
  split; [done|]. apply Permutation_nil_r. rewrite <-(sort_by_term_perm terms).
  destruct (sort_by_term terms) as [|e l]; [done|]. exfalso. cbn in E. revert e E.
  induction l as [|a l IH]; intros e E; [done|]. cbn in E. case_bool_decide; [by apply IH in E|done].
Qed.

Lemma fold_keys (entries : list (list nat * option V)) m t :
  is_Some (foldl dict_insert m entries !! t) → is_Some (m !! t) ∨ t ∈ entries.*1.
Proof.
  revert m. induction entries as [|[u v] entries IH]; intros m; [by left|]. cbn [foldl].
  intros [H|H]%IH; [|right; rewrite fmap_cons; by right].
  rewrite dict_insert_lookup in H. case_decide as E; [|by left]. right. rewrite fmap_cons, E. by left.
Qed.

(** ** Iterating over a dictionary *)

(** The arrays [s] hold the dictionary [m]. *)
Record represents (k : unit_kind) (s : DATCoreShared V) (m : gmap (list nat) (option V)) : Prop := {
  rep_sealed : sealed k s;
  rep_keys : ∀ t, is_Some (m !! t) → Forall (is_label k) t;
  rep_lookup : ∀ t, Forall (is_label k) t →
    contains_term_from s t (root_state k) = bool_decide (is_Some (m !! t)) ∧
    term_value_from s t (root_state k) = mjoin (m !! t);
}.

Lemma represents_zipper k s m t :
  represents k s m → Forall (is_label k) t →
  accepts (new_from_dict k s) t = bool_decide (is_Some (m !! t)) ∧
  lookup_value (new_from_dict k s) t = mjoin (m !! t).
Proof.
  intros [Hs _ Hl] Ht. destruct (dat_accepts k s t Hs Ht) as [-> ->]. by apply Hl.
Qed.

Lemma dictionary_iteration (k : unit_kind) (s : DATCoreShared V) (m : gmap (list nat) (option V)) (dft : V) :
  represents k s m →
  ∃ bound, ∀ fuel steps, bound ≤ fuel → bound ≤ steps →
  ∃ items, collect (DictionaryIterator_next dft fuel) steps (iterator_new (new_from_dict k s)) = Ret items ∧
    StronglySorted (λ a b, lex_lt a.1 b.1) items ∧
    ∀ t v, (t, v) ∈ items ↔ ∃ o, m !! t = Some o ∧ v = default dft o.
Proof.
  intros Hrep. pose proof (dat_root_ok k s (rep_sealed _ _ _ Hrep)) as Hok.
  destruct (DictionaryIterator_spec dft (new_from_dict k s) Hok) as [bound Hb].
  exists bound. intros fuel steps Hf Hn. destruct (Hb fuel steps Hf Hn) as (items & Hrun & Hsort & Hin).
  exists items. split; [done|]. split; [done|]. intros t v. rewrite Hin. cbn [zip_path new_from_dict]. split.
  - intros (t' & Ht & -> & Ha & ->). destruct (represents_zipper k s m t' Hrep Ht) as [E1 E2].
    rewrite E1 in Ha. rewrite E2. cbn. apply bool_decide_eq_true in Ha as [o Ho]. exists o. rewrite Ho. done.
  - intros (o & Ho & ->). assert (Forall (is_label k) t) as Ht by (apply (rep_keys _ _ _ Hrep); eauto).
    destruct (represents_zipper k s m t Hrep Ht) as [E1 E2]. exists t. rewrite E1, E2, Ho. by split_and!.
Qed.

Lemma from_iter_sealed k (entries : list (list nat * option V)) C :
  Forall (λ e, Forall (λ u, is_label k u ∧ u ≤ C) e.1) entries → dat_room (root_state k) C entries →
  let m := foldl dict_insert ∅ entries in
  ∃ s, from_iter (root_state k) entries = Ret (s, size m) ∧ represents k s m.
Proof.
  intros Hl Hroom m. destruct (from_iter_correct k entries (root_state k) C Hl Hroom)
    as (s & R & Hrun & Ht & Hlay & _ & Hopen & Hlook).
  exists s. split; [done|]. split; [split_and!; eauto| |done].
  intros t [Hm|Hm]%fold_keys; [by destruct Hm; rewrite lookup_empty in *|].
  apply list_elem_of_fmap in Hm as (e & -> & He). eapply Forall_forall in Hl; [|exact He].
  eapply Forall_impl; [exact Hl|]. by intros u [? _].
Qed.
End zipper.
Arguments DoubleArrayTrieZipper V k : clear implicits.

Section properties.
Context {V : Type} (k : unit_kind) (C : nat) (terms : list (list nat * V)) (dft : V).

(** C24: what goes into a dictionary comes out of its iterator.  A dictionary made
    by [from_terms_with_values] holds one entry per term, with the last value
    given for it, whatever the order of the input; iterating returns exactly these
    entries, in lexicographic order, and ends. *)
Theorem dictionary_roundtrip :
  Forall (λ e, Forall (λ u, is_label k u ∧ u ≤ C) e.1) terms →
  dat_room (root_state k) C (prod_map id Some <$> terms) →
  let m := foldl dict_insert ∅ (prod_map id Some <$> terms) in
  ∃ s bound, from_terms_with_values k terms = Ret (s, size m) ∧
  ∀ fuel steps, bound ≤ fuel → bound ≤ steps →
  ∃ items, collect (DictionaryIterator_next dft fuel) steps (iterator_new (new_from_dict k s)) = Ret items ∧
    StronglySorted (λ a b, lex_lt a.1 b.1) items ∧
    ∀ t v, (t, v) ∈ items ↔ m !! t = Some (Some v).
Proof.
  intros Hl Hroom m.
  assert (∀ t, m !! t ≠ Some None) as Hsome.
  { intros t. unfold m. rewrite fold_lookup. by destruct (last _). }
  unfold from_terms_with_values. destruct (from_sorted_iter k terms) as [[-> Hnil]|Heq].
  { unfold m. rewrite Hnil. exists empty_char, 1. split; [done|]. intros fuel steps Hf Hn. exists [].
    split; [by destruct fuel as [|[|fuel]], steps; try lia|]. split; [constructor|]. intros t v. cbn.
    rewrite lookup_empty. split; [by intros ?%elem_of_nil|done]. }
  rewrite Heq. set (pairs := prod_map id Some <$> dedup_by_term (sort_by_term terms)).
  destruct (from_iter_sealed k pairs C) as (s & Hrun & Hrep).
  - unfold pairs. by apply (sorted_keys (Forall (λ u, is_label k u ∧ u ≤ C))).
  - unfold dat_room, pairs in *. pose proof (sorted_letters terms). nia.
  - unfold pairs in *. rewrite sorted_dictionary in *. fold m in Hrun, Hrep.
    destruct (dictionary_iteration k s m dft Hrep) as [bound Hb].
    exists s, bound. split; [done|]. intros fuel steps Hf Hn.
    destruct (Hb fuel steps Hf Hn) as (items & Hit & Hsort & Hin). exists items. split_and!; [done..|].
    intros t v. rewrite Hin. split; [|intros Ht; by exists (Some v)].
    intros ([o|] & Ho & ->); [done|]. by destruct (Hsome t).
Qed.
End properties.

Definition roundtrip_terms : list (list nat * nat) := [([98], 1); ([97; 99], 2); ([], 3); ([98], 4)].

Lemma dictionary_roundtrip_witness :
  let m := foldl dict_insert ∅ (prod_map id Some <$> roundtrip_terms) in
  ∃ s bound, from_terms_with_values ByteUnit roundtrip_terms = Ret (s, size m) ∧
  ∀ fuel steps, bound ≤ fuel → bound ≤ steps →
  ∃ items, collect (DictionaryIterator_next 0 fuel) steps (iterator_new (new_from_dict ByteUnit s)) = Ret items ∧
    StronglySorted (λ a b, lex_lt a.1 b.1) items ∧
    ∀ t v, (t, v) ∈ items ↔ m !! t = Some (Some v).
Proof.
  apply (dictionary_roundtrip ByteUnit 100 roundtrip_terms 0).
  - repeat constructor; try done; lia.
  - unfold dat_room. vm_compute. congruence.
Defined.

(** Iterating over the values below a prefix ends at the first term without a
    value.  In the dictionary with the term "a" for the value 1 and the term "b"
    without a value, the iterator returns nothing although "a" has a value. *)
Theorem valued_prefix_loses_entries :
  ∃ (s : DATCoreShared nat) st,
    from_iter 1 [([97], Some 1); ([98], None)] = Ret (s, 2) ∧
    with_prefix_values (new_from_dict ByteUnit s) [] = Some st ∧
    collect (ValuedPrefixIterator_next 10) 10 st = Ret [] ∧ term_value s [97] = Some 1.
Proof.
  eexists _, _. split; [vm_compute; reflexivity|]. split; [vm_compute; reflexivity|]. by vm_compute.
Qed.

(** The iterator over the entries returns a term without a value, with the
    default value. *)
Theorem iteration_invents_value :
  ∃ s : DATCoreShared nat, from_terms ByteUnit [[97]] = Ret (s, 1) ∧ term_value s [97] = None ∧
    collect (DictionaryIterator_next 0 10) 10 (iterator_new (new_from_dict ByteUnit s)) = Ret [([97], 0)].
Proof. eexists. split; [vm_compute; reflexivity|]. by vm_compute. Qed.
