(* ===== verification/SetZipper.v ===== *)
(** * Set operations on dictionaries

    The zippers that combine dictionaries: union_zipper/mod.rs,
    intersection_zipper.rs, difference_zipper.rs, symmetric_difference_zipper.rs and
    value_diff_zipper.rs of src/src, with the merge strategies of union_zipper.  Each
    is a zipper again, so the operations nest. *)

From stdpp Require Import prelude gmap sets sorting.
From S2P Require Import Prelude Tree DatShared DatBuilder Zipper DatZipper.

(** ** Merge strategies *)

Class ValueMergeStrategy (S V : Type) := merge_value : S → V → V → V.

Inductive FirstWins := mkFirstWins.
Inductive LastWins := mkLastWins.
Inductive LatticeJoin := mkLatticeJoin.
Inductive LatticeMeet := mkLatticeMeet.

#[global] Instance FirstWins_merge V : ValueMergeStrategy FirstWins V := λ _ existing _, existing.
#[global] Instance LastWins_merge V : ValueMergeStrategy LastWins V := λ _ _ new, new.

(** The lattice of the llattice crate is a parameter. *)
Class Lattice (V : Type) := { lat_join : V → V → V; lat_meet : V → V → V }.

#[global] Instance LatticeJoin_merge V `{Lattice V} : ValueMergeStrategy LatticeJoin V :=
  λ _ existing new, lat_join existing new.
#[global] Instance LatticeMeet_merge V `{Lattice V} : ValueMergeStrategy LatticeMeet V :=
  λ _ existing new, lat_meet existing new.

(** ** Labels *)

(** [labels.dedup()] *)
Fixpoint dedup_labels (labels : list nat) : list nat :=
  match labels with
  | a :: (b :: _) as rest => if a =? b then dedup_labels rest else a :: dedup_labels rest
  | _ => labels
  end.

(** [labels.sort_unstable()] *)
Definition sort_labels (labels : list nat) : list nat := merge_sort le labels.

(** ** Zippers side by side *)

Section many.
Context {Z : Type} `{DictZipper Z}.

(** [zippers.iter().map(|z| z.as_ref().and_then(|z| z.descend(label)))] *)
Definition descend_zippers (zippers : list (option Z)) (label : nat) : list (option Z) :=
  (λ z, z ≫= λ z, descend z label) <$> zippers.

Definition active (zippers : list (option Z)) : list Z := omap id zippers.

Definition any_active (zippers : list (option Z)) : bool := existsb (λ z, bool_decide (is_Some z)) zippers.
Definition all_active (zippers : list (option Z)) : bool := forallb (λ z, bool_decide (is_Some z)) zippers.

Definition child_labels (z : Z) : list nat := (children z).*1.

End many.

(** ** Union *)

Section union.
Context {Z S : Type} `{DictZipper Z}.

Record UnionZipper := mkUnion {
  u_zippers : list (option Z);
  u_path : list nat;
  u_strategy : S;
}.

Definition UnionZipper_with_strategy (zippers : list Z) (strategy : S) : UnionZipper :=
  mkUnion (Some <$> zippers) [] strategy.

Definition union_is_final (z : UnionZipper) : bool :=
  existsb (λ z, match z with Some z => zip_final z | None => false end) (u_zippers z).

Definition union_descend (z : UnionZipper) (label : nat) : option UnionZipper :=
  let new_zippers := descend_zippers (u_zippers z) label in
  if any_active new_zippers then Some (mkUnion new_zippers (u_path z ++ [label]) (u_strategy z)) else None.

Definition union_children (z : UnionZipper) : list (nat * UnionZipper) :=
  children_by (union_descend z) (dedup_labels (sort_labels (active (u_zippers z) ≫= child_labels))).

#[global] Instance union_DictZipper : DictZipper UnionZipper := {
  zip_final := union_is_final;
  descend := union_descend;
  children := union_children;
  zip_path := u_path;
}.

(** The loop that merges the values found *)
Definition merge_values {V} `{ValueMergeStrategy S V} (strategy : S) (values : list V) : option V :=
  foldl (λ result v,
    Some (match result with Some existing => merge_value strategy existing v | None => v end)) None values.

Definition union_value {V} `{ValuedDictZipper Z V} `{ValueMergeStrategy S V} (z : UnionZipper) : option V :=
  merge_values (u_strategy z) (omap zip_value (active (u_zippers z))).

#[global] Instance union_ValuedDictZipper {V} `{ValuedDictZipper Z V} `{ValueMergeStrategy S V} :
  ValuedDictZipper UnionZipper V := union_value.

End union.
Arguments UnionZipper Z S : clear implicits.

Definition UnionZipper_new {Z} (zippers : list Z) : UnionZipper Z FirstWins :=
  UnionZipper_with_strategy zippers mkFirstWins.

(** ** Intersection *)

Section intersection.
Context {Z S : Type} `{DictZipper Z}.

Record IntersectionZipper := mkIntersection {
  i_zippers : list (option Z);
  i_path : list nat;
  i_strategy : S;
}.

Definition IntersectionZipper_with_strategy (zippers : list Z) (strategy : S) : IntersectionZipper :=
  mkIntersection (Some <$> zippers) [] strategy.

Definition intersection_is_final (z : IntersectionZipper) : bool :=
  let active_count := length (active (i_zippers z)) in
  if active_count =? 0 then false
  else forallb zip_final (active (i_zippers z)) && (active_count =? length (i_zippers z)).

Definition intersection_descend (z : IntersectionZipper) (label : nat) : option IntersectionZipper :=
  let new_zippers := descend_zippers (i_zippers z) label in
  if all_active new_zippers
  then Some (mkIntersection new_zippers (i_path z ++ [label]) (i_strategy z)) else None.

(** [label_sets.sort_unstable_by_key(HashSet::len)]; the order of equal lengths does
    not show in the sorted result. *)
Definition by_size (a b : gset nat) : Prop := size a ≤ size b.
#[global] Instance by_size_dec a b : Decision (by_size a b).
Proof. unfold by_size. apply _. Defined.

Definition common_labels (zippers : list Z) : list nat :=
  match merge_sort by_size (list_to_set ∘ child_labels <$> zippers) with
  | [] => []
  | smallest :: rest =>
      sort_labels (filter (λ label, forallb (λ set, bool_decide (label ∈ set)) rest = true) (elements smallest))
  end.

Definition intersection_children (z : IntersectionZipper) : list (nat * IntersectionZipper) :=
  children_by (intersection_descend z) (common_labels (active (i_zippers z))).

#[global] Instance intersection_DictZipper : DictZipper IntersectionZipper := {
  zip_final := intersection_is_final;
  descend := intersection_descend;
  children := intersection_children;
  zip_path := i_path;
}.

Definition intersection_value {V} `{ValuedDictZipper Z V} `{ValueMergeStrategy S V}
    (z : IntersectionZipper) : option V :=
  if intersection_is_final z
  then merge_values (i_strategy z) (omap zip_value (active (i_zippers z))) else None.

#[global] Instance intersection_ValuedDictZipper {V} `{ValuedDictZipper Z V} `{ValueMergeStrategy S V} :
  ValuedDictZipper IntersectionZipper V := intersection_value.

End intersection.
Arguments IntersectionZipper Z S : clear implicits.

Definition IntersectionZipper_new {Z} (zippers : list Z) : IntersectionZipper Z LatticeMeet :=
  IntersectionZipper_with_strategy zippers mkLatticeMeet.

(** ** Difference *)

Section difference.
Context {Z : Type} `{DictZipper Z}.

Record DifferenceZipper := mkDifference {
  d_left : option Z;
  d_right : option Z;
  d_path : list nat;
}.

Definition DifferenceZipper_new (left right : Z) : DifferenceZipper := mkDifference (Some left) (Some right) [].

Definition new_with_optional_right (left : Z) (right : option Z) : DifferenceZipper :=
  mkDifference (Some left) right [].

Definition final_or_false (z : option Z) : bool := match z with Some z => zip_final z | None => false end.

Definition difference_is_final (z : DifferenceZipper) : bool :=
  final_or_false (d_left z) && negb (final_or_false (d_right z)).

Definition difference_descend (z : DifferenceZipper) (label : nat) : option DifferenceZipper :=
  match d_left z ≫= λ z, descend z label with
  | None => None
  | Some new_left =>
      Some (mkDifference (Some new_left) (d_right z ≫= λ z, descend z label) (d_path z ++ [label]))
  end.

Definition difference_children (z : DifferenceZipper) : list (nat * DifferenceZipper) :=
  children_by (difference_descend z) (match d_left z with Some z => child_labels z | None => [] end).

#[global] Instance difference_DictZipper : DictZipper DifferenceZipper := {
  zip_final := difference_is_final;
  descend := difference_descend;
  children := difference_children;
  zip_path := d_path;
}.

#[global] Instance difference_ValuedDictZipper {V} `{ValuedDictZipper Z V} : ValuedDictZipper DifferenceZipper V :=
  λ z, if difference_is_final z then d_left z ≫= zip_value else None.

End difference.
Arguments DifferenceZipper Z : clear implicits.

(** ** Symmetric difference *)

Section symmetric_difference.
Context {Z : Type} `{DictZipper Z}.

Record SymmetricDifferenceZipper := mkSymmetricDifference {
  s_zippers : list (option Z);
  s_path : list nat;
}.

Definition SymmetricDifferenceZipper_new (zippers : list Z) : SymmetricDifferenceZipper :=
  mkSymmetricDifference (Some <$> zippers) [].

Definition final_count (z : SymmetricDifferenceZipper) : nat :=
  length (filter (λ z, zip_final z = true) (active (s_zippers z))).

Definition symmetric_difference_is_final (z : SymmetricDifferenceZipper) : bool := final_count z =? 1.

Definition symmetric_difference_descend (z : SymmetricDifferenceZipper) (label : nat) :
    option SymmetricDifferenceZipper :=
  let new_zippers := descend_zippers (s_zippers z) label in
  if any_active new_zippers then Some (mkSymmetricDifference new_zippers (s_path z ++ [label])) else None.

Definition symmetric_difference_children (z : SymmetricDifferenceZipper) :
    list (nat * SymmetricDifferenceZipper) :=
  children_by (symmetric_difference_descend z)
    (dedup_labels (sort_labels (active (s_zippers z) ≫= child_labels))).

#[global] Instance symmetric_difference_DictZipper : DictZipper SymmetricDifferenceZipper := {
  zip_final := symmetric_difference_is_final;
  descend := symmetric_difference_descend;
  children := symmetric_difference_children;
  zip_path := s_path;
}.

(** [zippers.iter().filter_map(as_ref).find(is_final).and_then(value)] *)
#[global] Instance symmetric_difference_ValuedDictZipper {V} `{ValuedDictZipper Z V} :
  ValuedDictZipper SymmetricDifferenceZipper V :=
  λ z, if symmetric_difference_is_final z
       then head (filter (λ z, zip_final z = true) (active (s_zippers z))) ≫= zip_value else None.

End symmetric_difference.
Arguments SymmetricDifferenceZipper Z : clear implicits.

(** ** Value differences *)

Section value_diff.
Context {Z V : Type} `{DictZipper Z} `{ValuedDictZipper Z V} `{EqDecision V}.

Record ValueDiffZipper := mkValueDiff {
  v_left : option Z;
  v_right : option Z;
  v_path : list nat;
}.

Definition ValueDiffZipper_new (left right : Z) : ValueDiffZipper := mkValueDiff (Some left) (Some right) [].

(** [self.left.as_ref().filter(|z| z.is_final()).and_then(|z| z.value())] *)
Definition side_value (z : option Z) : option V := z ≫= λ z, if zip_final z then zip_value z else None.

Definition diff_values (z : ValueDiffZipper) : option (V * V) :=
  match side_value (v_left z), side_value (v_right z) with
  | Some l, Some r => Some (l, r)
  | _, _ => None
  end.

Definition values_differ (z : ValueDiffZipper) : bool :=
  match diff_values z with
  | Some (l, r) => negb (bool_decide (l = r))
  | None => false
  end.

Definition value_diff_descend (z : ValueDiffZipper) (label : nat) : option ValueDiffZipper :=
  match v_left z ≫= (λ z, descend z label), v_right z ≫= (λ z, descend z label) with
  | Some l, Some r => Some (mkValueDiff (Some l) (Some r) (v_path z ++ [label]))
  | _, _ => None
  end.

Definition label_set (z : option Z) : gset nat :=
  match z with Some z => list_to_set (child_labels z) | None => ∅ end.

Definition value_diff_children (z : ValueDiffZipper) : list (nat * ValueDiffZipper) :=
  children_by (value_diff_descend z) (sort_labels (elements (label_set (v_left z) ∩ label_set (v_right z)))).

#[global] Instance value_diff_DictZipper : DictZipper ValueDiffZipper := {
  zip_final := values_differ;
  descend := value_diff_descend;
  children := value_diff_children;
  zip_path := v_path;
}.

End value_diff.
Arguments ValueDiffZipper Z : clear implicits.

(** ** The iterators

    The five modules have the same iterator: a depth-first search that remembers
    the terms it has returned. *)

Section iterators.
Context {Z : Type} `{DictZipper Z}.

Definition set_iterator_new (zipper : Z) : list Z * gset (list nat) := ([zipper], ∅).

(** [if zipper.is_final() { if self.seen.insert(path) { return Some((path, zipper)) } }] *)
Definition emit_unseen (seen : gset (list nat)) (z : Z) : gset (list nat) * option (list nat * Z) :=
  if zip_final z
  then
    let path := zip_path z in
    if bool_decide (path ∈ seen) then (seen, None) else ({[path]} ∪ seen, Some (path, z))
  else (seen, None).

Definition set_iterator_next (fuel : nat) (st : list Z * gset (list nat)) :
    exec (option (list nat * Z) * (list Z * gset (list nat))) :=
  dfs_next (λ z, reverse (children z).*2) emit_unseen fuel st.1 st.2.

(** The valued iterators skip the terms without a value. *)
Fixpoint valued_iterator_next {V} `{ValuedDictZipper Z V} (fuel : nat) (st : list Z * gset (list nat)) :
    exec (option (list nat * V) * (list Z * gset (list nat))) :=
  r ← set_iterator_next fuel st;
  match r with
  | (None, st) => Ret (None, st)
  | (Some (path, zipper), st) =>
      match zip_value zipper with
      | Some value => Ret (Some (path, value), st)
      | None => match fuel with O => Panic | S fuel => valued_iterator_next fuel st end
      end
  end.

End iterators.

Section diff_iterator.
Context {Z V : Type} `{DictZipper Z} `{ValuedDictZipper Z V} `{EqDecision V}.

(** [ValueDiffIterator] returns both values. *)
Definition emit_diff (seen : gset (list nat)) (z : ValueDiffZipper Z) :
    gset (list nat) * option (list nat * V * V) :=
  if values_differ (V := V) z
  then
    let path := v_path z in
    if bool_decide (path ∈ seen) then (seen, None)
    else
      match diff_values z with
      | Some (left_value, right_value) => ({[path]} ∪ seen, Some (path, left_value, right_value))
      | None => ({[path]} ∪ seen, None)
      end
  else (seen, None).

Definition ValueDiffIterator_next (fuel : nat) (st : list (ValueDiffZipper Z) * gset (list nat)) :
    exec (option (list nat * V * V) * (list (ValueDiffZipper Z) * gset (list nat))) :=
  dfs_next (λ z, reverse (value_diff_children z).*2) emit_diff fuel st.1 st.2.

End diff_iterator.

(** ** Labels: sorted, each once *)

Lemma sort_labels_perm labels : sort_labels labels ≡ₚ labels.
Proof. apply merge_sort_Permutation. Qed.

Lemma sort_labels_sorted labels : StronglySorted le (sort_labels labels).
Proof. apply StronglySorted_merge_sort; apply _. Qed.

Lemma elem_of_dedup_labels labels l : l ∈ dedup_labels labels ↔ l ∈ labels.
Proof.
  induction labels as [|a [|b rest] IH]; [done..|]. change (dedup_labels (a :: b :: rest)) with
    (if a =? b then dedup_labels (b :: rest) else a :: dedup_labels (b :: rest)).
  destruct (Nat.eqb_spec a b) as [->|].
  - rewrite IH, !elem_of_cons. tauto.
  - rewrite elem_of_cons, IH, (elem_of_cons _ l a). done.
Qed.

Lemma dedup_labels_NoDup labels : StronglySorted le labels → NoDup (dedup_labels labels).
Proof.
  induction 1 as [|a rest Hs IH Ha]; [constructor|]. destruct rest as [|b rest]; [apply NoDup_singleton|].
  change (dedup_labels (a :: b :: rest)) with
    (if a =? b then dedup_labels (b :: rest) else a :: dedup_labels (b :: rest)).
  destruct (Nat.eqb_spec a b) as [->|Hne]; [done|]. constructor; [|done]. rewrite elem_of_dedup_labels.
  intros Hin. inversion Hs as [|? ? _ Hb]; subst. rewrite Forall_forall in Ha, Hb.
  assert (a ≤ b) by (apply Ha; by left). apply elem_of_cons in Hin as [->|Hin]; [done|].
  specialize (Hb a Hin). lia.
Qed.

(** ** The laws for zippers side by side *)

Section many_laws.
Context {Z : Type} `{ZipperLaws Z}.

Definition option_ok (o : option Z) : Prop := match o with Some z => zip_ok z | None => True end.
Definition option_height (o : option Z) : nat := match o with Some z => zip_height z | None => 0 end.
Definition max_height (zs : list (option Z)) : nat := max_list (option_height <$> zs).

Lemma any_active_spec (zs : list (option Z)) : any_active zs = true ↔ ∃ z, Some z ∈ zs.
Proof.
  unfold any_active. rewrite existsb_exists. setoid_rewrite <-list_elem_of_In. setoid_rewrite bool_decide_eq_true.
  split; [intros (o & Ho & z & ->); eauto|]. intros [z Hz]. exists (Some z). split; [done|]. by exists z.
Qed.

Lemma descend_zippers_Some (zs : list (option Z)) l c :
  Some c ∈ descend_zippers zs l ↔ ∃ z, Some z ∈ zs ∧ descend z l = Some c.
Proof.
  unfold descend_zippers. rewrite list_elem_of_fmap. split.
  - intros ([z|] & Hc & Hz); cbn in Hc; [|done]. by exists z.
  - intros (z & Hz & Hc). exists (Some z). by rewrite <-Hc.
Qed.

Lemma descend_option_ok o l :
  option_ok o → zip_unit Z l → option_ok (o ≫= λ z, descend z l) ∧ (option_height (o ≫= λ z, descend z l) ≤ option_height o) ∧
  (is_Some (o ≫= λ z, descend z l) → option_height (o ≫= λ z, descend z l) < option_height o).
Proof.
  intros Ho Hl. destruct o as [z|]; cbn; [|split_and!; [done..|by intros []]].
  destruct (descend z l) as [c|] eqn:Hd; cbn; [|split_and!; [done|lia|by intros []]].
  destruct (descend_ok z l c Ho Hl Hd) as (? & _ & ?). split_and!; [done|lia|lia].
Qed.

Lemma descend_zippers_ok zs l :
  Forall option_ok zs → zip_unit Z l → Forall option_ok (descend_zippers zs l).
Proof.
  intros Hzs Hl. apply Forall_fmap. eapply Forall_impl; [done|]. intros o Ho. by apply descend_option_ok.
Qed.

Lemma max_list_lt (l : list nat) n : Forall (λ x, x < n) l → 0 < n → max_list l < n.
Proof. induction 1; cbn; lia. Qed.

Lemma max_list_elem (l : list nat) x : x ∈ l → x ≤ max_list l.
Proof. induction 1; cbn; lia. Qed.

Lemma descend_zippers_height zs l :
  Forall option_ok zs → zip_unit Z l → any_active (descend_zippers zs l) = true →
  max_height (descend_zippers zs l) < max_height zs.
Proof.
  intros Hzs Hl Hany. rewrite Forall_forall in Hzs.
  assert (∀ o, o ∈ zs → option_height o ≤ max_height zs) as Hle.
  { intros o Ho. apply max_list_elem, list_elem_of_fmap. by exists o. }
  apply any_active_spec in Hany as [c (z & Hz & Hc)%descend_zippers_Some].
  destruct (descend_ok z l c) as (_ & _ & Hh); [by apply (Hzs (Some z))|done..|].
  specialize (Hle (Some z) Hz) as Hz'. cbn in Hz'.
  apply max_list_lt; [|lia]. apply Forall_fmap, Forall_fmap, Forall_forall. intros o Ho.
  destruct (descend_option_ok o l (Hzs o Ho) Hl) as (_ & _ & Hlt). specialize (Hle o Ho). unfold compose in *.
  destruct (o ≫= λ z, descend z l) as [c'|]; cbn in *; [|lia]. specialize (Hlt ltac:(eauto)). lia.
Qed.

Lemma elem_of_active (zs : list (option Z)) z : z ∈ active zs ↔ Some z ∈ zs.
Proof.
  unfold active. rewrite list_elem_of_omap. split; [by intros ([z'|] & Hz & [= ->])|]. intros Hz. by exists (Some z).
Qed.

Lemma elem_of_child_labels z l : zip_ok z → l ∈ child_labels z ↔ zip_unit Z l ∧ is_Some (descend z l).
Proof.
  intros Hz. unfold child_labels. rewrite list_elem_of_fmap. split.
  - intros ([l' c] & -> & [Hl Hc]%children_descend); [|done]. split; [done|]. by exists c.
  - intros (Hl & c & Hc). exists (l, c). split; [done|]. by apply children_descend.
Qed.

(** The labels of the union are those one of the zippers can follow. *)
Lemma union_labels zs l :
  Forall option_ok zs →
  l ∈ dedup_labels (sort_labels (active zs ≫= child_labels)) ↔
    zip_unit Z l ∧ any_active (descend_zippers zs l) = true.
Proof.
  intros Hzs. rewrite Forall_forall in Hzs.
  rewrite elem_of_dedup_labels, sort_labels_perm, list_elem_of_bind, any_active_spec. split.
  - intros (z & Hl & Hz%elem_of_active). apply elem_of_child_labels in Hl as (Hu & c & Hc); [|by apply (Hzs (Some z))].
    split; [done|]. exists c. apply descend_zippers_Some. eauto.
  - intros (Hu & c & (z & Hz & Hc)%descend_zippers_Some). exists z. split; [|by apply elem_of_active].
    apply elem_of_child_labels; [by apply (Hzs (Some z))|eauto].
Qed.

Lemma union_labels_NoDup (zs : list (option Z)) : NoDup (dedup_labels (sort_labels (active zs ≫= child_labels))).
Proof. apply dedup_labels_NoDup, sort_labels_sorted. Qed.

#[global] Program Instance union_ZipperLaws {S} : ZipperLaws (UnionZipper Z S) := {
  zip_unit := zip_unit Z;
  zip_ok z := Forall option_ok (u_zippers z);
  zip_height z := max_height (u_zippers z);
}.
Next Obligation.
  intros S z l c Hz Hl Hd. cbn in Hd. unfold union_descend in Hd.
  destruct (any_active _) eqn:Ha; [|done]. injection Hd as <-. cbn.
  split; [by apply descend_zippers_ok|]. split; [done|]. by apply descend_zippers_height.
Qed.
Next Obligation. intros S z _. apply children_by_NoDup, union_labels_NoDup. Qed.
Next Obligation.
  intros S z l c Hz. cbn. unfold union_children. rewrite elem_of_children_by, union_labels by done.
  unfold union_descend. destruct (any_active _); naive_solver.
Qed.

#[global] Program Instance symmetric_difference_ZipperLaws : ZipperLaws (SymmetricDifferenceZipper Z) := {
  zip_unit := zip_unit Z;
  zip_ok z := Forall option_ok (s_zippers z);
  zip_height z := max_height (s_zippers z);
}.
Next Obligation.
  intros z l c Hz Hl Hd. cbn in Hd. unfold symmetric_difference_descend in Hd.
  destruct (any_active _) eqn:Ha; [|done]. injection Hd as <-. cbn.
  split; [by apply descend_zippers_ok|]. split; [done|]. by apply descend_zippers_height.
Qed.
Next Obligation. intros z _. apply children_by_NoDup, union_labels_NoDup. Qed.
Next Obligation.
  intros z l c Hz. cbn. unfold symmetric_difference_children. rewrite elem_of_children_by, union_labels by done.
  unfold symmetric_difference_descend. destruct (any_active _); naive_solver.
Qed.
End many_laws.

Section more_laws.
Context {Z : Type} `{ZipperLaws Z}.

Lemma all_active_spec (zs : list (option Z)) : all_active zs = true ↔ ∀ o, o ∈ zs → is_Some o.
Proof.
  unfold all_active. rewrite forallb_forall. setoid_rewrite <-list_elem_of_In. by setoid_rewrite bool_decide_eq_true.
Qed.

Lemma elem_of_common_labels (zs : list Z) l :
  l ∈ common_labels zs ↔ zs ≠ [] ∧ ∀ z, z ∈ zs → l ∈ child_labels z.
Proof.
  unfold common_labels. set (sets := list_to_set ∘ child_labels <$> zs : list (gset nat)).
  assert (∀ s : gset nat, s ∈ merge_sort by_size sets ↔ ∃ z, s = list_to_set (child_labels z) ∧ z ∈ zs) as Hin.
  { intros s. rewrite merge_sort_Permutation. unfold sets. by rewrite list_elem_of_fmap. }
  assert (merge_sort by_size sets = [] ↔ zs = []) as Hnil.
  { split.
    - intros E. destruct zs as [|z zs]; [done|]. assert (list_to_set (child_labels z) ∈ merge_sort by_size sets) as Hz.
      { apply Hin. exists z. split; [done|by left]. } rewrite E in Hz. by apply elem_of_nil in Hz.
    - intros ->. done. }
  destruct (merge_sort by_size sets) as [|smallest rest].
  { rewrite (proj1 Hnil eq_refl). split; [by intros ?%elem_of_nil|by intros [? _]]. }
  rewrite sort_labels_perm, list_elem_of_filter, elem_of_elements, forallb_forall.
  setoid_rewrite <-list_elem_of_In. setoid_rewrite bool_decide_eq_true. split.
  - intros [Hrest Hs]. split; [intros E; by apply Hnil in E|]. intros z Hz.
    assert ((list_to_set (child_labels z) : gset nat) ∈ smallest :: rest) as Hz' by (apply Hin; eauto).
    apply (elem_of_list_to_set (C := gset nat)).
    apply elem_of_cons in Hz' as [->|Hz']; auto.
  - intros [_ Hall]. assert (∀ s, s ∈ smallest :: rest → l ∈ s) as Hs.
    { intros s (z & -> & Hz)%Hin. apply elem_of_list_to_set. auto. }
    split; [intros s Hs'; apply Hs; by right|apply Hs; by left].
Qed.

Lemma common_labels_NoDup (zs : list Z) : NoDup (common_labels zs).
Proof.
  unfold common_labels. destruct (merge_sort _ _); [constructor|].
  rewrite sort_labels_perm. apply NoDup_filter, NoDup_elements.
Qed.

Lemma all_descend_labels (zs : list (option Z)) l :
  zs ≠ [] → Forall option_ok zs → zip_unit Z l → all_active (descend_zippers zs l) = true →
  l ∈ common_labels (active zs) ∧ any_active (descend_zippers zs l) = true.
Proof.
  intros Hne Hok Hl Hall. rewrite all_active_spec in Hall. rewrite Forall_forall in Hok.
  assert (∀ o, o ∈ zs → ∃ z c, o = Some z ∧ descend z l = Some c) as Hd.
  { intros o Ho. destruct (Hall (o ≫= λ z, descend z l)) as [c Hc].
    - apply list_elem_of_fmap. by exists o.
    - destruct o as [z|]; [|done]. by exists z, c. }
  destruct zs as [|o zs]; [done|]. destruct (Hd o) as (z & c & -> & Hc); [by left|]. split.
  - apply elem_of_common_labels. split; [done|]. intros z' Hz'%elem_of_active.
    apply elem_of_child_labels; [by apply (Hok (Some z'))|]. split; [done|].
    destruct (Hd _ Hz') as (z2 & c2 & [= ->] & ?). eauto.
  - apply any_active_spec. exists c. apply descend_zippers_Some. exists z. split; [by left|done].
Qed.

#[global] Program Instance intersection_ZipperLaws {S} : ZipperLaws (IntersectionZipper Z S) := {
  zip_unit := zip_unit Z;
  zip_ok z := i_zippers z ≠ [] ∧ Forall option_ok (i_zippers z);
  zip_height z := max_height (i_zippers z);
}.
Next Obligation.
  intros S z l c [Hne Hz] Hl Hd. cbn in Hd. unfold intersection_descend in Hd.
  destruct (all_active _) eqn:Ha; [|done]. injection Hd as <-. cbn.
  destruct (all_descend_labels _ l Hne Hz Hl Ha) as [_ Hany].
  split; [split; [|by apply descend_zippers_ok]|]. { by destruct (i_zippers z). }
  split; [done|]. by apply descend_zippers_height.
Qed.
Next Obligation. intros S z _. apply children_by_NoDup, common_labels_NoDup. Qed.
Next Obligation.
  intros S z l c [Hne Hz]. cbn. unfold intersection_children. rewrite elem_of_children_by. split.
  - intros [Hl Hd]. split; [|done]. apply elem_of_common_labels in Hl as [Hact Hl].
    destruct (active (i_zippers z)) as [|a act] eqn:E; [done|].
    assert (a ∈ active (i_zippers z)) as Ha by (rewrite E; by left).
    specialize (Hl a). apply elem_of_child_labels in Hl as [? _]; [done| |by left].
    rewrite Forall_forall in Hz. by apply (Hz (Some a)), elem_of_active.
  - intros [Hl Hd]. split; [|done]. unfold intersection_descend in Hd. destruct (all_active _) eqn:Ha; [|done].
    by apply all_descend_labels.
Qed.

#[global] Program Instance difference_ZipperLaws : ZipperLaws (DifferenceZipper Z) := {
  zip_unit := zip_unit Z;
  zip_ok z := option_ok (d_left z) ∧ option_ok (d_right z);
  zip_height z := option_height (d_left z);
}.
Next Obligation.
  intros z l c [Hleft Hright] Hl Hd. cbn in Hd. unfold difference_descend in Hd.
  destruct (descend_option_ok (d_left z) l Hleft Hl) as (H1 & _ & H2).
  destruct (descend_option_ok (d_right z) l Hright Hl) as (H3 & _).
  destruct (d_left z ≫= λ z, descend z l) as [c'|]; [|done]. injection Hd as <-. cbn.
  split; [done|]. split; [done|]. apply H2. eauto.
Qed.
Next Obligation.
  intros z [Hleft _]. apply children_by_NoDup. destruct (d_left z); [by apply children_NoDup|constructor].
Qed.
Next Obligation.
  intros z l c [Hleft _]. cbn. unfold difference_children. rewrite elem_of_children_by. split.
  - intros [Hl Hd]. split; [|done]. destruct (d_left z); [by apply elem_of_child_labels in Hl as [? _]|by apply elem_of_nil in Hl].
  - intros [Hl Hd]. split; [|done]. unfold difference_descend in Hd. destruct (d_left z) as [zl|]; [|done]. cbn in Hd.
    apply elem_of_child_labels; [done|]. split; [done|]. destruct (descend zl l); [eauto|done].
Qed.

#[global] Program Instance value_diff_ZipperLaws {V} `{ValuedDictZipper Z V} `{EqDecision V} :
    ZipperLaws (ValueDiffZipper Z) (H := value_diff_DictZipper (V := V)) := {
  zip_unit := zip_unit Z;
  zip_ok z := option_ok (v_left z) ∧ option_ok (v_right z);
  zip_height z := option_height (v_left z);
}.
Next Obligation.
  intros V ?? z l c [Hleft Hright] Hl Hd. cbn in Hd. unfold value_diff_descend in Hd.
  destruct (descend_option_ok (v_left z) l Hleft Hl) as (Hl1 & _ & Hl2).
  destruct (descend_option_ok (v_right z) l Hright Hl) as (Hr1 & _).
  destruct (v_left z ≫= λ z, descend z l) as [c1|]; [|done].
  destruct (v_right z ≫= λ z, descend z l) as [c2|]; [|done]. injection Hd as <-. cbn.
  split; [done|]. split; [done|]. apply Hl2. eauto.
Qed.
Next Obligation.
  intros V ?? z _. apply children_by_NoDup. rewrite sort_labels_perm. apply NoDup_elements.
Qed.
Next Obligation.
  intros V ?? z l c [Hleft Hright]. cbn. unfold value_diff_children.
  rewrite elem_of_children_by, sort_labels_perm, elem_of_elements, elem_of_intersection. unfold label_set. split.
  - intros [[Hl _] Hd]. split; [|done]. destruct (v_left z); [|by apply elem_of_empty in Hl].
    apply elem_of_list_to_set in Hl. by apply elem_of_child_labels in Hl as [? _].
  - intros [Hl Hd]. split; [|done]. unfold value_diff_descend in Hd.
    destruct (v_left z) as [zl|]; [|done]. destruct (v_right z) as [zr|]; [|by cbn in Hd; destruct (descend zl l)].
    cbn in Hd. destruct (descend zl l) eqn:El; [|done]. destruct (descend zr l) eqn:Er; [|done].
    rewrite !elem_of_list_to_set. split; apply elem_of_child_labels; eauto.
Qed.
End more_laws.

(** ** The languages *)

Section languages.
Context {Z : Type} `{DictZipper Z}.

Definition option_accepts (t : list nat) (o : option Z) : bool :=
  match o with Some z => accepts z t | None => false end.

Lemma accepts_nil (z : Z) : accepts z [] = zip_final z.
Proof. done. Qed.

Lemma accepts_cons (z : Z) l t : accepts z (l :: t) = option_accepts t (descend z l).
Proof. unfold accepts, descend_all. cbn. by destruct (descend z l). Qed.

Lemma option_accepts_cons (o : option Z) l t :
  option_accepts (l :: t) o = option_accepts t (o ≫= λ z, descend z l).
Proof. destruct o as [z|]; [apply accepts_cons|done]. Qed.

End languages.

Section combined.
Context {Z : Type} `{DictZipper Z}.

Lemma option_accepts_descend (zs : list (option Z)) l t :
  option_accepts (l :: t) <$> zs = option_accepts t <$> descend_zippers zs l.
Proof.
  unfold descend_zippers. rewrite <-list_fmap_compose. apply list_fmap_ext. intros i o _. apply option_accepts_cons.
Qed.

Lemma inactive_accepts (zs : list (option Z)) t :
  any_active zs = false → Forall (λ b, b = false) (option_accepts t <$> zs).
Proof.
  intros Hno. apply Forall_fmap, Forall_forall. intros o Ho. cbn. destruct o as [z|]; [|done].
  exfalso. unfold any_active in Hno. apply not_true_iff_false in Hno. apply Hno, existsb_exists.
  exists (Some z). split; [by apply list_elem_of_In|done].
Qed.

Lemma existsb_map {A} (f : A → bool) l : existsb f l = existsb id (f <$> l).
Proof. induction l as [|x l IH]; [done|]. cbn. by rewrite IH. Qed.

Lemma forallb_map {A} (f : A → bool) l : forallb f l = forallb id (f <$> l).
Proof. induction l as [|x l IH]; [done|]. cbn. by rewrite IH. Qed.

Lemma existsb_false (l : list bool) : Forall (λ b, b = false) l → existsb id l = false.
Proof. induction 1 as [|b l -> _ IH]; [done|]. cbn. exact IH. Qed.

Lemma union_accepts {S} (z : UnionZipper Z S) t : accepts z t = existsb (option_accepts t) (u_zippers z).
Proof.
  revert z. induction t as [|l t IH]; intros z; [done|].
  rewrite accepts_cons, existsb_map, option_accepts_descend. cbn [descend union_DictZipper]. unfold union_descend.
  destruct (any_active _) eqn:Ha; cbn [option_accepts].
  - rewrite IH. cbn. by rewrite existsb_map.
  - symmetry. by apply existsb_false, inactive_accepts.
Qed.

(** The number of zippers that accept *)
Definition count_accepts (zs : list (option Z)) (t : list nat) : nat :=
  length (filter (λ b, b = true) (option_accepts t <$> zs)).

Lemma symmetric_difference_accepts (z : SymmetricDifferenceZipper Z) t :
  accepts z t = (count_accepts (s_zippers z) t =? 1).
Proof.
  revert z. induction t as [|l t IH]; intros z.
  - rewrite accepts_nil. cbn [zip_final symmetric_difference_DictZipper].
    unfold symmetric_difference_is_final, final_count, count_accepts. f_equal.
    induction (s_zippers z) as [|[x|] zs IHz]; [done| |].
    + change (active (Some x :: zs)) with (x :: active zs). rewrite fmap_cons, !filter_cons.
      change (option_accepts [] (Some x)) with (zip_final x).
      destruct (decide (zip_final x = true)); cbn [length]; by rewrite IHz.
    + change (active (None :: zs)) with (active zs). rewrite fmap_cons, filter_cons. cbn [option_accepts].
      rewrite decide_False by done. exact IHz.
  - rewrite accepts_cons. unfold count_accepts. rewrite option_accepts_descend.
    cbn [descend symmetric_difference_DictZipper]. unfold symmetric_difference_descend.
    destruct (any_active _) eqn:Ha; cbn [option_accepts]; [by rewrite IH|].
    apply (inactive_accepts _ t) in Ha. symmetry. apply Nat.eqb_neq.
    induction Ha as [|b bs -> _ IHb]; [done|]. rewrite filter_cons, decide_False by done. exact IHb.
Qed.

Lemma intersection_accepts {S} (z : IntersectionZipper Z S) t :
  accepts z t = negb (bool_decide (i_zippers z = [])) && forallb (option_accepts t) (i_zippers z).
Proof.
  revert z. induction t as [|l t IH]; intros z.
  - rewrite accepts_nil. cbn [zip_final intersection_DictZipper]. unfold intersection_is_final.
    destruct (i_zippers z) as [|o zs] eqn:Ez; [done|]. rewrite bool_decide_eq_false_2 by done. cbn [negb andb].
    clear Ez. assert (∀ zs : list (option Z), length (active zs) ≤ length zs) as Hlen.
    { intros zs'. induction zs' as [|[x|] zs' IHz]; unfold active in *; cbn in *; lia. }
    assert (∀ zs : list (option Z), forallb zip_final (active zs) && (length (active zs) =? length zs) =
      forallb (option_accepts []) zs) as Hall.
    { intros zs'. induction zs' as [|[x|] zs' IHz]; [done| |]; unfold active in *; cbn.
      - rewrite <-IHz. change (accepts x []) with (zip_final x). by destruct (zip_final x).
      - specialize (Hlen zs'). unfold active in Hlen. apply andb_false_intro2, Nat.eqb_neq. lia. }
    rewrite <-Hall. destruct (Nat.eqb_spec (length (active (o :: zs))) 0) as [E|]; [|done].
    rewrite E. symmetry. by apply andb_false_intro2.
  - rewrite accepts_cons. cbn [descend intersection_DictZipper]. unfold intersection_descend.
    rewrite (forallb_map (option_accepts (l :: t))), option_accepts_descend.
    destruct (all_active _) eqn:Ha; cbn [option_accepts].
    + rewrite IH. cbn [i_zippers]. rewrite (forallb_map (option_accepts t)). f_equal.
      by destruct (i_zippers z).
    + symmetry. apply andb_false_intro2. rewrite <-forallb_map. unfold all_active in Ha.
      induction (descend_zippers (i_zippers z) l) as [|[x|] zs IHz]; [done| |done]. cbn in *.
      rewrite IHz by done. apply andb_false_r.
Qed.

Lemma difference_accepts (z : DifferenceZipper Z) t :
  accepts z t = option_accepts t (d_left z) && negb (option_accepts t (d_right z)).
Proof.
  revert z. induction t as [|l t IH]; intros z; [done|].
  rewrite accepts_cons, !option_accepts_cons. cbn [descend difference_DictZipper]. unfold difference_descend.
  destruct (d_left z ≫= λ z, descend z l) as [c|]; [|done]. cbn [option_accepts]. by rewrite IH.
Qed.
End combined.

(** ** The values *)

Section values.
Context {Z V : Type} `{DictZipper Z} `{ValuedDictZipper Z V}.

Definition option_lookup (t : list nat) (o : option Z) : option V := o ≫= λ z, lookup_value z t.

Lemma lookup_value_cons (z : Z) l t : lookup_value z (l :: t) = option_lookup t (descend z l).
Proof. unfold lookup_value, descend_all. cbn. by destruct (descend z l). Qed.

Lemma option_lookup_descend (zs : list (option Z)) l t :
  omap (option_lookup (l :: t)) zs = omap (option_lookup t) (descend_zippers zs l).
Proof.
  unfold descend_zippers. induction zs as [|o zs IH]; [done|]. cbn. rewrite IH.
  assert (option_lookup (l :: t) o = option_lookup t (o ≫= λ z, descend z l)) as ->; [|done].
  destruct o as [z|]; [apply lookup_value_cons|done].
Qed.

Lemma omap_active (zs : list (option Z)) : omap zip_value (active zs) = omap (option_lookup []) zs.
Proof. induction zs as [|[z|] zs IH]; [done| |done]. unfold active in *. cbn. rewrite IH. done. Qed.

Lemma inactive_lookup (zs : list (option Z)) t : any_active zs = false → omap (option_lookup t) zs = [].
Proof. unfold any_active. induction zs as [|[z|] zs IH]; [done|done|]. cbn. exact IH. Qed.
End values.

Section combined_values.
Context {Z V : Type} `{DictZipper Z} `{ValuedDictZipper Z V}.

Lemma union_lookup {S} `{ValueMergeStrategy S V} (z : UnionZipper Z S) t :
  lookup_value z t = merge_values (u_strategy z) (omap (option_lookup t) (u_zippers z)).
Proof.
  revert z. induction t as [|l t IH]; intros z.
  - change (lookup_value z []) with (union_value z). unfold union_value. by rewrite omap_active.
  - rewrite lookup_value_cons, option_lookup_descend. cbn [descend union_DictZipper]. unfold union_descend.
    destruct (any_active _) eqn:Ha; cbn [option_lookup mbind option_bind]; [by rewrite IH|].
    by rewrite inactive_lookup.
Qed.

Lemma intersection_lookup {S} `{ValueMergeStrategy S V} (z : IntersectionZipper Z S) t :
  lookup_value z t =
    if accepts z t then merge_values (i_strategy z) (omap (option_lookup t) (i_zippers z)) else None.
Proof.
  revert z. induction t as [|l t IH]; intros z.
  - change (lookup_value z []) with (intersection_value z). unfold intersection_value. by rewrite omap_active.
  - rewrite lookup_value_cons, option_lookup_descend, accepts_cons. cbn [descend intersection_DictZipper].
    unfold intersection_descend. destruct (all_active _); cbn [option_lookup mbind option_bind option_accepts]; [|done].
    by rewrite IH.
Qed.

Lemma difference_lookup (z : DifferenceZipper Z) t :
  lookup_value z t = if accepts z t then option_lookup t (d_left z) else None.
Proof.
  revert z. induction t as [|l t IH]; intros z.
  - change (lookup_value z []) with (if difference_is_final z then d_left z ≫= zip_value else None).
    by destruct (d_left z).
  - rewrite lookup_value_cons, accepts_cons. cbn [descend difference_DictZipper]. unfold difference_descend.
    assert (option_lookup (l :: t) (d_left z) = option_lookup t (d_left z ≫= λ z, descend z l)) as ->.
    { destruct (d_left z) as [x|]; [apply lookup_value_cons|done]. }
    destruct (d_left z ≫= λ z, descend z l) as [c|]; [|done]. cbn [option_lookup mbind option_bind option_accepts].
    by rewrite IH.
Qed.

(** The value of the first zipper that accepts *)
Definition first_value (zs : list (option Z)) (t : list nat) : option V :=
  head (filter (λ o, option_accepts t o = true) zs) ≫= option_lookup t.

Lemma first_value_descend (zs : list (option Z)) l t : first_value zs (l :: t) = first_value (descend_zippers zs l) t.
Proof.
  unfold first_value, descend_zippers. induction zs as [|o zs IH]; [done|].
  rewrite fmap_cons, !filter_cons, option_accepts_cons.
  destruct (decide (option_accepts t (o ≫= λ z, descend z l) = true)) as [Ha|]; [|exact IH]. cbn.
  destruct o as [z|]; [apply lookup_value_cons|done].
Qed.

Lemma symmetric_difference_lookup (z : SymmetricDifferenceZipper Z) t :
  lookup_value z t = if accepts z t then first_value (s_zippers z) t else None.
Proof.
  revert z. induction t as [|l t IH]; intros z.
  - change (lookup_value z []) with (if symmetric_difference_is_final z
      then head (filter (λ z, zip_final z = true) (active (s_zippers z))) ≫= zip_value else None).
    rewrite accepts_nil. cbn [zip_final symmetric_difference_DictZipper].
    destruct (symmetric_difference_is_final z); [|done]. unfold first_value.
    induction (s_zippers z) as [|[x|] zs IHz]; [done| |].
    + change (active (Some x :: zs)) with (x :: active zs). rewrite !filter_cons.
      change (option_accepts [] (Some x)) with (zip_final x). by destruct (decide (zip_final x = true)).
    + change (active (None :: zs)) with (active zs). rewrite filter_cons. by rewrite decide_False.
  - rewrite lookup_value_cons, accepts_cons, first_value_descend. cbn [descend symmetric_difference_DictZipper].
    unfold symmetric_difference_descend. destruct (any_active _); cbn [option_lookup mbind option_bind option_accepts]; [|done].
    by rewrite IH.
Qed.
End combined_values.

(** ** The iterators return every term once *)

Section iteration.
Context {Z : Type} `{ZipperLaws Z}.

Let expand (z : Z) : list Z := reverse (children z).*2.
Let item (x : Z) : list nat * Z := (zip_path x, x).

(** No term is seen twice. *)
Lemma emits_unseen seen l :
  NoDup (map zip_path l) → (∀ x, x ∈ l → zip_path x ∉ seen) →
  emits emit_unseen seen l = omap (final_item item) l.
Proof.
  revert seen. induction l as [|x l IH]; intros seen Hnd Hseen; [done|]. cbn in Hnd.
  apply NoDup_cons in Hnd as [Hx Hnd]. cbn [emits omap list_omap]. unfold emit_unseen at 1, final_item at 1.
  destruct (zip_final x).
  - rewrite bool_decide_eq_false_2 by (apply Hseen; by left). f_equal. apply IH; [done|]. intros y Hy.
    apply not_elem_of_union. split; [|apply Hseen; by right]. intros E%elem_of_singleton. apply Hx. rewrite <-E.
    apply list_elem_of_fmap. by exists y.
  - apply IH; [done|]. intros y Hy. apply Hseen. by right.
Qed.

Lemma set_iterator_nodes z :
  zip_ok z → emits emit_unseen ∅ (nodes expand zip_height z) = omap (final_item item) (nodes expand zip_height z).
Proof.
  intros Hz. apply emits_unseen; [|set_solver]. by apply (nodes_NoDup expand z prefix_visits).
Qed.

Lemma set_iterator_spec z :
  zip_ok z →
  ∃ bound, ∀ fuel n, bound ≤ fuel → bound ≤ n →
  ∃ items, collect (set_iterator_next fuel) n (set_iterator_new z) = Ret items ∧ NoDup items.*1 ∧
    ∀ p, p ∈ items.*1 ↔ ∃ t, is_key Z t ∧ p = zip_path z ++ t ∧ accepts z t = true.
Proof.
  intros Hz. exists (length (nodes expand zip_height z)). intros fuel n Hf Hn.
  assert (stack_nodes expand zip_height [z] = nodes expand zip_height z) as E.
  { unfold stack_nodes. cbn. apply app_nil_r. }
  exists (omap (final_item item) (nodes expand zip_height z)). split; [|split].
  - unfold set_iterator_new. unfold set_iterator_next. change (λ z : Z, reverse (children z).*2) with expand.
    rewrite (collect_dfs expand zip_ok zip_height (visits_exp expand prefix_visits) emit_unseen);
      rewrite ?E; try done; [|by repeat constructor]. by rewrite set_iterator_nodes.
  - by apply (items_NoDup item expand z (λ _, eq_refl) prefix_visits).
  - intros p. rewrite list_elem_of_fmap. split.
    + intros (i & -> & (t & x & Ht & Hd & Hfin & ->)%(elem_of_items item expand z i prefix_visits Hz)).
      exists t. destruct (descend_all_path z t x Hz Ht Hd) as [_ Hp]. split_and!; [done..|].
      apply accepts_descend. eauto.
    + intros (t & Ht & -> & (x & Hd & Hfin)%accepts_descend). exists (item x).
      destruct (descend_all_path z t x Hz Ht Hd) as [_ <-]. split; [done|].
      apply (elem_of_items item expand z (item x) prefix_visits Hz). eauto 10.
Qed.

Section valued.
Context {V : Type} `{ValuedDictZipper Z V}.

Let valued_item (i : list nat * Z) : option (list nat * V) := v ← zip_value i.2; Some (i.1, v).
Let left_over (st : list Z * gset (list nat)) : list (list nat * V) :=
  omap valued_item (emits emit_unseen st.2 (stack_nodes expand zip_height st.1)).

Lemma valued_next_spec fuel st :
  Forall zip_ok st.1 → length (stack_nodes expand zip_height st.1) ≤ fuel →
  ∃ r st', valued_iterator_next fuel st = Ret (r, st') ∧
    match r with
    | Some i => left_over st = i :: left_over st' ∧
        length (stack_nodes expand zip_height st'.1) < length (stack_nodes expand zip_height st.1) ∧ Forall zip_ok st'.1
    | None => left_over st = []
    end.
Proof.
  revert st. induction fuel as [|fuel IH]; intros st Hok Hf; cbn [valued_iterator_next].
  all: unfold set_iterator_next at 1; change (λ z : Z, reverse (children z).*2) with expand.
  all: destruct (dfs_next_spec expand zip_ok zip_height (visits_exp expand prefix_visits) emit_unseen _ st.1 st.2 Hok Hf)
    as (r & stack & seen & -> & Hok' & Hle & Hr); cbn [mbind option_bind].
  all: destruct r as [[p x]|]; [|exists None, (stack, seen); split; [done|]; unfold left_over; by rewrite Hr].
  - lia.
  - destruct Hr as [Hr Hlt].
    assert (left_over st = match valued_item (p, x) with
      | Some i => i :: left_over (stack, seen) | None => left_over (stack, seen) end) as Hlo.
    { unfold left_over. rewrite Hr. done. }
    unfold valued_item in Hlo. cbn [fst snd] in Hlo.
    destruct (zip_value x) as [v|]; cbn [mbind option_bind] in *.
    + by exists (Some (p, v)), (stack, seen).
    + destruct (IH (stack, seen)) as (r2 & st2 & -> & Hr2); [done|cbn [fst]; lia|]. exists r2, st2. split; [done|].
      rewrite Hlo. destruct r2; [|exact Hr2]. destruct Hr2 as (? & ? & ?). cbn [fst] in *. split_and!; [done|lia|done].
Qed.

Lemma valued_iterator_spec z :
  zip_ok z →
  ∃ bound, ∀ fuel n, bound ≤ fuel → bound ≤ n →
  ∃ items, collect (valued_iterator_next fuel) n (set_iterator_new z) = Ret items ∧
    ∀ p v, (p, v) ∈ items ↔
      ∃ t, is_key Z t ∧ p = zip_path z ++ t ∧ accepts z t = true ∧ lookup_value z t = Some v.
Proof.
  intros Hz. exists (length (nodes expand zip_height z)). intros fuel n Hf Hn.
  assert (stack_nodes expand zip_height [z] = nodes expand zip_height z) as E.
  { unfold stack_nodes. cbn. apply app_nil_r. }
  exists (left_over (set_iterator_new z)). split.
  - apply (collect_spec _ (λ st, Forall zip_ok st.1 ∧ length (stack_nodes expand zip_height st.1) ≤ fuel)
      (λ st, length (stack_nodes expand zip_height st.1)) left_over); cbn [set_iterator_new fst]; rewrite ?E; [|by repeat constructor|done].
    intros st [Hok Hle]. destruct (valued_next_spec fuel st Hok Hle) as (r & st' & -> & Hr). exists r, st'.
    split; [done|]. destruct r; [|done]. destruct Hr as (? & ? & ?). split_and!; [done..|lia].
  - intros p v. unfold left_over, set_iterator_new. cbn [fst snd]. rewrite E, set_iterator_nodes by done.
    rewrite list_elem_of_omap. split.
    + intros (i & (t & x & Ht & Hd & Hfin & ->)%(elem_of_items item expand z _ prefix_visits Hz) & Hi).
      unfold valued_item in Hi. cbn in Hi. destruct (zip_value x) as [v'|] eqn:Hv; cbn in Hi; [|done]. simplify_eq.
      destruct (descend_all_path z t x Hz Ht Hd) as [_ Hp]. exists t. split_and!; [done..|apply accepts_descend; eauto|].
      unfold lookup_value. by rewrite Hd.
    + intros (t & Ht & -> & (x & Hd & Hfin)%accepts_descend & Hv). exists (item x).
      destruct (descend_all_path z t x Hz Ht Hd) as [_ <-]. split.
      * apply (elem_of_items item expand z (item x) prefix_visits Hz). eauto 10.
      * unfold lookup_value in Hv. rewrite Hd in Hv. cbn in Hv. unfold valued_item, item. cbn. by rewrite Hv.
Qed.
End valued.
End iteration.
