(* ===== verification/ZipperAlgebra.v ===== *)
(** * What the iterators and the set operations on dictionaries return

    The results on Zipper.v and SetZipper.v, stated for every zipper that keeps the
    laws, and their composition with the double-array dictionaries of DatZipper.v. *)

From stdpp Require Import prelude gmap sets sorting.
From S2P Require Import Prelude Tree DatShared DatBuilder Zipper DatZipper SetZipper.

(** The iterator [next] ends, and returns each of the paths that [P] describes
    once.  The bound is on the loop of one call and on the number of calls. *)
Definition enumerates {St I} (next : nat → St → exec (option (list nat * I) * St)) (st : St)
    (P : list nat → Prop) : Prop :=
  ∃ bound, ∀ fuel n, bound ≤ fuel → bound ≤ n →
  ∃ items, collect (next fuel) n st = Ret items ∧ NoDup items.*1 ∧ ∀ p, p ∈ items.*1 ↔ P p.

Lemma enumerates_ext {St I} (next : nat → St → exec (option (list nat * I) * St)) st (P Q : list nat → Prop) :
  (∀ p, P p ↔ Q p) → enumerates next st P → enumerates next st Q.
Proof.
  intros HPQ [bound Hb]. exists bound. intros fuel n Hf Hn. destruct (Hb fuel n Hf Hn) as (items & ? & ? & Hin).
  exists items. split_and!; [done..|]. intros p. by rewrite Hin.
Qed.

(** ** Prefixes and exclusion *)

Section prefix.
Context {Z : Type} `{ZipperLaws Z}.

Lemma excluding_NoDup excluded z :
  zip_ok z → NoDup (map zip_path (nodes (excluding excluded) zip_height z)).
Proof.
  intros Hz. set (e := λ z : Z, filter (λ c, starts_with_any_excluded (zip_path c) excluded = false) (reverse (children z).*2)).
  assert (∀ z, excluding excluded z = e z) as He.
  { intros z'. unfold excluding, e. by rewrite <-filter_reverse. }
  eapply sublist_NoDup; [by apply (nodes_NoDup _ z prefix_visits)|]. apply fmap_sublist. revert z Hz.
  refine (nodes_ind (excluding excluded) zip_ok zip_height (excluding_exp excluded) _ _). intros z Hz IH.
  rewrite (nodes_eq _ zip_ok zip_height (excluding_exp excluded) z Hz),
    (nodes_eq _ zip_ok zip_height (visits_exp _ prefix_visits) z Hz).
  apply sublist_skip. rewrite He in IH |- *. unfold e in IH |- *.
  induction (reverse (children z).*2) as [|c cs IHc]; [done|]. rewrite filter_cons in IH |- *. case_decide; cbn.
  - apply sublist_app; [apply IH; by left|]. apply IHc. intros c' Hc'. apply IH. by right.
  - apply sublist_inserts_l. by apply IHc.
Qed.

Let item (x : Z) : list nat * Z := (zip_path x, x).

Lemma excluding_iteration excluded z :
  zip_ok z →
  enumerates (ExcludingIterator_next excluded) (ExcludingIterator_new z excluded)
    (λ p, ∃ t, is_key Z t ∧ p = zip_path z ++ t ∧ accepts z t = true ∧
          starts_with_any_excluded p excluded = false).
Proof.
  intros Hz. unfold ExcludingIterator_new. destruct (starts_with_any_excluded (zip_path z) excluded) eqn:Hex.
  { exists 1. intros fuel n Hf Hn. exists []. split; [by destruct fuel, n; try lia|]. split; [constructor|].
    intros p. split; [by intros ?%elem_of_nil|]. intros (t & _ & -> & _ & Hnot).
    apply starts_with_any_excluded_spec in Hex as (e & He & Hp). apply not_true_iff_false in Hnot. destruct Hnot.
    apply starts_with_any_excluded_spec. exists e. split; [done|]. by apply prefix_app_r. }
  set (ns := nodes (excluding excluded) zip_height z). exists (length ns). intros fuel n Hf Hn.
  assert (stack_nodes (excluding excluded) zip_height [z] = ns) as E.
  { unfold stack_nodes. cbn. apply app_nil_r. }
  exists (omap (final_item item) ns). split; [|split].
  - unfold ExcludingIterator_next. fold (excluding excluded).
    rewrite (collect_dfs (excluding excluded) zip_ok zip_height (excluding_exp excluded));
      rewrite ?E; try done; [|by repeat constructor]. apply f_equal, (emits_pure item).
  - apply (final_items_NoDup item ns (λ _, eq_refl)). by apply excluding_NoDup.
  - intros p. rewrite list_elem_of_fmap. setoid_rewrite list_elem_of_omap. split.
    + intros (i & -> & x & [(t & Ht & Hd) Hnot]%excluding_nodes & Hx); [|done..].
      unfold final_item in Hx. destruct (zip_final x) eqn:Hfin; [|done]. injection Hx as <-.
      destruct (descend_all_path z t x Hz Ht Hd) as [_ Hp]. exists t. split_and!; [done..| |done].
      apply accepts_descend. eauto.
    + intros (t & Ht & -> & (x & Hd & Hfin)%accepts_descend & Hnot). exists (item x).
      destruct (descend_all_path z t x Hz Ht Hd) as [_ Hp]. rewrite <-Hp in *. split; [done|]. exists x.
      split; [apply excluding_nodes; eauto|]. unfold final_item. by rewrite Hfin.
Qed.

Lemma prefix_iteration z :
  zip_ok z →
  enumerates PrefixIterator_next (iterator_new z) (λ p, ∃ t, is_key Z t ∧ p = zip_path z ++ t ∧ accepts z t = true).
Proof.
  intros Hz. destruct (visits_spec _ item z prefix_visits (λ _, eq_refl) Hz) as [bound Hb].
  exists bound. intros fuel n Hf Hn. destruct (Hb fuel n Hf Hn) as (items & Hrun & _ & Hnd & Hin).
  exists items. split; [exact Hrun|]. split; [done|]. intros p. rewrite list_elem_of_fmap. setoid_rewrite Hin. split.
  - intros (i & -> & t & x & Ht & Hd & Hfin & ->). destruct (descend_all_path z t x Hz Ht Hd) as [_ Hp].
    exists t. split_and!; [done..|]. apply accepts_descend. eauto.
  - intros (t & Ht & -> & (x & Hd & Hfin)%accepts_descend). exists (item x).
    destruct (descend_all_path z t x Hz Ht Hd) as [_ Hp]. by eauto 10.
Qed.

(** The terms below a prefix *)
Lemma accepts_below z prefix x t :
  descend_all z prefix = Some x → accepts z (prefix ++ t) = accepts x t.
Proof. intros Hd. unfold accepts. by rewrite descend_all_app, Hd. Qed.

(** C26: the iterators below a prefix are exact.  From the root of any dictionary
    whose zipper keeps the laws, [with_prefix] is None just when no term has the
    prefix, and otherwise its iterator ends and returns each term with the prefix
    once; with excluded prefixes it returns the terms that have none of them. *)
Theorem prefix_iterators_exact z prefix excluded :
  zip_ok z → zip_path z = [] → is_key Z prefix →
  match with_prefix z prefix, with_prefix_excluding z prefix excluded with
  | Some st, Some st' =>
      enumerates PrefixIterator_next st (λ p, is_key Z p ∧ prefix `prefix_of` p ∧ accepts z p = true) ∧
      enumerates (ExcludingIterator_next excluded) st'
        (λ p, is_key Z p ∧ prefix `prefix_of` p ∧ accepts z p = true ∧ ∀ e, e ∈ excluded → ¬ e `prefix_of` p)
  | None, None => ∀ p, prefix `prefix_of` p → accepts z p = false
  | _, _ => False
  end.
Proof.
  intros Hz Hroot Hpre. unfold with_prefix, with_prefix_excluding.
  destruct (descend_all z prefix) as [x|] eqn:Hd; cbn [mbind option_bind].
  - destruct (descend_all_path z prefix x Hz Hpre Hd) as [Hx Hp]. rewrite Hroot in Hp. cbn in Hp.
    assert (∀ p, (∃ t, is_key Z t ∧ p = zip_path x ++ t ∧ accepts x t = true) ↔
      is_key Z p ∧ prefix `prefix_of` p ∧ accepts z p = true) as Hiff.
    { intros p. rewrite Hp. split.
      - intros (t & Ht & -> & Ha). rewrite (accepts_below z prefix x t Hd). split_and!; [|by eexists|done].
        by apply Forall_app.
      - intros (Hk & [t ->] & Ha). rewrite (accepts_below z prefix x t Hd) in Ha. exists t.
        by apply Forall_app in Hk as [_ ?]. }
    split; [by apply (enumerates_ext _ _ _ _ Hiff), prefix_iteration|].
    eapply enumerates_ext; [|by apply excluding_iteration]. intros p. cbn beta.
    assert (starts_with_any_excluded p excluded = false ↔ ∀ e, e ∈ excluded → ¬ e `prefix_of` p) as <-.
    { rewrite <-not_true_iff_false, starts_with_any_excluded_spec. naive_solver. }
    specialize (Hiff p). naive_solver.
  - intros p [t ->]. unfold accepts. by rewrite descend_all_app, Hd.
Qed.
End prefix.

(** ** Values that differ *)

Section value_diff.
Context {Z V : Type} `{ZipperLaws Z} `{ValuedDictZipper Z V} `{EqDecision V}.
#[local] Existing Instance value_diff_DictZipper.

Definition final_value (t : list nat) (o : option Z) : option V :=
  o ≫= λ z, if accepts z t then lookup_value z t else None.

Lemma final_value_cons l t o : final_value (l :: t) o = final_value t (o ≫= λ z, descend z l).
Proof.
  destruct o as [z|]; [|done]. cbn. unfold lookup_value, accepts, descend_all. cbn. by destruct (descend z l).
Qed.

Lemma diff_values_at (z : ValueDiffZipper Z) t :
  descend_all z t ≫= diff_values (V := V) =
    match final_value t (v_left z), final_value t (v_right z) with
    | Some l, Some r => Some (l, r)
    | _, _ => None
    end.
Proof.
  revert z. induction t as [|l t IH]; intros z; [done|]. rewrite !final_value_cons.
  change (descend_all z (l :: t)) with (c ← value_diff_descend z l; descend_all c t). unfold value_diff_descend.
  destruct (v_left z ≫= _) as [a|], (v_right z ≫= _) as [b|]; cbn [mbind option_bind]; [apply IH| |done..].
  by destruct (final_value t (Some a)).
Qed.

Let expand (z : ValueDiffZipper Z) : list (ValueDiffZipper Z) := reverse (children z).*2.
Let item (z : ValueDiffZipper Z) : list nat * ValueDiffZipper Z := (v_path z, z).
Let diff_item (z : ValueDiffZipper Z) : option (list nat * V * V) :=
  if values_differ z then '(a, b) ← diff_values z; Some (v_path z, a, b) else None.

Lemma emits_diff seen l :
  NoDup (map v_path l) → (∀ x, x ∈ l → v_path x ∉ seen) → emits emit_diff seen l = omap diff_item l.
Proof.
  revert seen. induction l as [|x l IH]; intros seen Hnd Hseen; [done|]. cbn in Hnd.
  apply NoDup_cons in Hnd as [Hx Hnd]. cbn [emits omap list_omap]. unfold emit_diff at 1, diff_item at 1.
  assert (∀ y, y ∈ l → v_path y ∉ ({[v_path x]} ∪ seen : gset (list nat))) as Hseen'.
  { intros y Hy. apply not_elem_of_union. split; [|apply Hseen; by right]. intros E%elem_of_singleton. apply Hx.
    rewrite <-E. apply list_elem_of_fmap. by exists y. }
  destruct (values_differ x).
  - rewrite bool_decide_eq_false_2 by (apply Hseen; by left).
    destruct (diff_values x) as [[a b]|]; cbn; [f_equal|]; by apply IH.
  - apply IH; [done|]. intros y Hy. apply Hseen. by right.
Qed.

Lemma diff_item_paths l : (omap diff_item l).*1.*1 = (omap (final_item item) l).*1.
Proof.
  induction l as [|x l IH]; [done|]. cbn [omap list_omap]. unfold diff_item at 1, final_item at 1.
  change (zip_final x) with (values_differ x). unfold values_differ at 1 2.
  destruct (diff_values x) as [[a b]|]; [|done]. case_bool_decide; cbn; by rewrite ?IH.
Qed.

(** The value-diff iterator is exact.  For two dictionaries it ends, and
    returns each term that has a value in both, and not the same, once, with the
    two values. *)
Theorem value_diff_exact (l r : Z) :
  zip_ok l → zip_ok r →
  ∃ bound, ∀ fuel n, bound ≤ fuel → bound ≤ n →
  ∃ items, collect (ValueDiffIterator_next fuel) n (set_iterator_new (ValueDiffZipper_new l r)) = Ret items ∧
    NoDup items.*1.*1 ∧
    ∀ t a b, (t, a, b) ∈ items ↔
      is_key Z t ∧ accepts l t = true ∧ lookup_value l t = Some a ∧
      accepts r t = true ∧ lookup_value r t = Some b ∧ a ≠ b.
Proof.
  intros Hl Hr. set (z := ValueDiffZipper_new l r). assert (zip_ok z) as Hz by done.
  pose proof (prefix_visits (Z := ValueDiffZipper Z)) as Hv. fold expand in Hv.
  set (ns := nodes expand zip_height z). exists (length ns). intros fuel n Hf Hn.
  assert (stack_nodes expand zip_height [z] = ns) as E by (unfold stack_nodes; cbn; apply app_nil_r).
  exists (omap diff_item ns). split; [|split].
  - unfold ValueDiffIterator_next, set_iterator_new. change (λ z, reverse (value_diff_children z).*2) with expand.
    rewrite (collect_dfs expand zip_ok zip_height (visits_exp expand Hv) emit_diff); rewrite ?E; try done;
      [|by repeat constructor].
    f_equal. apply emits_diff; [|set_solver]. by apply (nodes_NoDup expand z Hv).
  - rewrite diff_item_paths. by apply (items_NoDup item expand z).
  - intros t a b. rewrite list_elem_of_omap.
    transitivity (is_key Z t ∧ descend_all z t ≫= diff_values = Some (a, b) ∧ a ≠ b).
    + unfold diff_item, values_differ. split.
      * intros (x & (t' & Ht & Hd)%(nodes_descend expand z x Hv Hz) & Hx).
        destruct (descend_all_path z t' x Hz Ht Hd) as [_ Hp]. change (v_path x = t') in Hp.
        destruct (diff_values x) as [[a' b']|] eqn:Hdv; [|done]. case_bool_decide; [done|]. cbn in Hx. simplify_eq.
        rewrite Hd. by split_and!.
      * intros (Ht & Hd & Hne). destruct (descend_all z t) as [x|] eqn:Hx; [|done]. exists x. cbn in Hd. split.
        { apply (nodes_descend expand z x Hv Hz). by exists t. }
        destruct (descend_all_path z t x Hz Ht Hx) as [_ Hp]. change (v_path x = t) in Hp.
        rewrite Hd, bool_decide_eq_false_2 by done. cbn. by rewrite Hp.
    + rewrite diff_values_at. cbn. destruct (accepts l t), (accepts r t); cbn.
      all: destruct (lookup_value l t), (lookup_value r t); naive_solver.
Qed.
End value_diff.

(** ** The set operations *)

Section operations.
Context {Z V S : Type} `{ZipperLaws Z} `{ValuedDictZipper Z V} `{ValueMergeStrategy S V}.

Lemma existsb_Some t (zs : list Z) : existsb (option_accepts t) (Some <$> zs) = existsb (λ z, accepts z t) zs.
Proof. induction zs as [|z zs IH]; [done|]. cbn. by rewrite <-IH. Qed.

Lemma forallb_Some t (zs : list Z) : forallb (option_accepts t) (Some <$> zs) = forallb (λ z, accepts z t) zs.
Proof. induction zs as [|z zs IH]; [done|]. cbn. by rewrite <-IH. Qed.

Lemma omap_Some t (zs : list Z) :
  omap (option_lookup t) (Some <$> zs) = omap (λ z, lookup_value z t) zs.
Proof. induction zs as [|z zs IH]; [done|]. cbn. by rewrite <-IH. Qed.

Lemma count_Some t (zs : list Z) :
  count_accepts (Some <$> zs) t = length (filter (λ z, accepts z t = true) zs).
Proof.
  unfold count_accepts. induction zs as [|z zs IH]; [done|]. rewrite !fmap_cons, !filter_cons.
  change (option_accepts t (Some z)) with (accepts z t). destruct (decide (accepts z t = true)); cbn; by rewrite IH.
Qed.

Lemma first_value_Some t (zs : list Z) :
  first_value (Some <$> zs) t = head (filter (λ z, accepts z t = true) zs) ≫= λ z, lookup_value z t.
Proof.
  unfold first_value. induction zs as [|z zs IH]; [done|]. rewrite fmap_cons, !filter_cons.
  change (option_accepts t (Some z)) with (accepts z t). by destruct (decide (accepts z t = true)).
Qed.

(** The combined dictionaries are the set operations.  A term is in the union
    if it is in some dictionary, in the intersection if it is in all of them and
    there is one, in the difference if it is in the left and not in the right, in
    the symmetric difference if it is in exactly one; the value in the union and in
    the intersection merges the values of the dictionaries in their order, and the
    value in a difference is that of the dictionary the term comes from. *)
Theorem set_operations (zs : list Z) (strategy : S) (l r : Z) (t : list nat) :
  accepts (UnionZipper_with_strategy zs strategy) t = existsb (λ z, accepts z t) zs ∧
  lookup_value (UnionZipper_with_strategy zs strategy) t =
    merge_values strategy (omap (λ z, lookup_value z t) zs) ∧
  accepts (IntersectionZipper_with_strategy zs strategy) t =
    negb (bool_decide (zs = [])) && forallb (λ z, accepts z t) zs ∧
  lookup_value (IntersectionZipper_with_strategy zs strategy) t =
    (if accepts (IntersectionZipper_with_strategy zs strategy) t
     then merge_values strategy (omap (λ z, lookup_value z t) zs) else None) ∧
  accepts (DifferenceZipper_new l r) t = accepts l t && negb (accepts r t) ∧
  lookup_value (DifferenceZipper_new l r) t =
    (if accepts l t && negb (accepts r t) then lookup_value l t else None) ∧
  accepts (SymmetricDifferenceZipper_new zs) t = (length (filter (λ z, accepts z t = true) zs) =? 1) ∧
  lookup_value (SymmetricDifferenceZipper_new zs) t =
    (if accepts (SymmetricDifferenceZipper_new zs) t
     then head (filter (λ z, accepts z t = true) zs) ≫= λ z, lookup_value z t else None).
Proof.
  rewrite union_accepts, union_lookup, intersection_lookup, intersection_accepts, difference_lookup,
    difference_accepts, symmetric_difference_lookup, symmetric_difference_accepts.
  unfold UnionZipper_with_strategy, IntersectionZipper_with_strategy, SymmetricDifferenceZipper_new.
  cbn [u_zippers u_strategy i_zippers i_strategy s_zippers].
  rewrite existsb_Some, forallb_Some, omap_Some, count_Some, first_value_Some.
  assert (bool_decide (Some <$> zs = []) = bool_decide (zs = [])) as ->; [by destruct zs|done].
Qed.
End operations.

(** ** Double-array dictionaries combined *)

Section composition.
Context {V S : Type} `{ValueMergeStrategy S V} (k : unit_kind).

(** The value a union of two dictionaries has for a term *)
Definition union_entry (strategy : S) (a b : option (option V)) : option V :=
  match mjoin a, mjoin b with
  | Some x, Some y => Some (merge_value strategy x y)
  | Some x, None => Some x
  | None, o => o
  end.

Lemma represents_accepts (s : DATCoreShared V) (m : gmap (list nat) (option V)) (t : list nat) :
  represents k s m → Forall (is_label k) t → accepts (new_from_dict k s) t = bool_decide (t ∈ dom m).
Proof.
  intros Hrep Ht. destruct (represents_zipper k s m t Hrep Ht) as [-> _]. apply bool_decide_ext.
  symmetry. apply elem_of_dom.
Qed.

Lemma union_represents (sA sB : DATCoreShared V) (A B : gmap (list nat) (option V)) (strategy : S) (t : list nat) :
  represents k sA A → represents k sB B → Forall (is_label k) t →
  accepts (UnionZipper_with_strategy [new_from_dict k sA; new_from_dict k sB] strategy) t =
    bool_decide (t ∈ dom A ∪ dom B) ∧
  lookup_value (UnionZipper_with_strategy [new_from_dict k sA; new_from_dict k sB] strategy) t =
    union_entry strategy (A !! t) (B !! t).
Proof.
  intros HA HB Ht. rewrite union_accepts, union_lookup. split.
  - cbn [u_zippers UnionZipper_with_strategy fmap list_fmap existsb option_accepts].
    rewrite (represents_accepts sA A), (represents_accepts sB B) by done.
    rewrite orb_false_r, <-bool_decide_or. apply bool_decide_ext. by rewrite elem_of_union.
  - cbn [u_zippers u_strategy UnionZipper_with_strategy fmap list_fmap omap list_omap option_lookup mbind option_bind].
    destruct (represents_zipper k sA A t HA Ht) as [_ ->], (represents_zipper k sB B t HB Ht) as [_ ->].
    unfold union_entry. by destruct (mjoin (A !! t)), (mjoin (B !! t)).
Qed.

Lemma difference_represents (sA sB sC : DATCoreShared V) (A B C : gmap (list nat) (option V)) (strategy : S)
    (t : list nat) :
  represents k sA A → represents k sB B → represents k sC C → Forall (is_label k) t →
  let z := DifferenceZipper_new
    (UnionZipper_with_strategy [new_from_dict k sA; new_from_dict k sB] strategy)
    (UnionZipper_with_strategy [new_from_dict k sC] strategy) in
  accepts z t = bool_decide (t ∈ (dom A ∪ dom B) ∖ dom C) ∧
  lookup_value z t = if accepts z t then union_entry strategy (A !! t) (B !! t) else None.
Proof.
  intros HA HB HC Ht z. rewrite difference_lookup, difference_accepts. subst z.
  cbn [DifferenceZipper_new d_left d_right option_accepts option_lookup mbind option_bind].
  destruct (union_represents sA sB A B strategy t HA HB Ht) as [-> ->]. split; [|done].
  rewrite union_accepts. cbn [u_zippers UnionZipper_with_strategy fmap list_fmap existsb option_accepts].
  rewrite (represents_accepts sC C), orb_false_r, <-bool_decide_not, <-bool_decide_and by done.
  apply bool_decide_ext. by rewrite elem_of_difference.
Qed.

End composition.

(** ** Examples *)

Definition dict_a : list (list nat * option nat) := [([97], Some 1); ([97; 98], Some 2); ([99], None)].
Definition dict_b : list (list nat * option nat) := [([97], Some 7); ([98], Some 4)].

Definition entries_map (entries : list (list nat * option nat)) : gmap (list nat) (option nat) :=
  foldl dict_insert ∅ entries.

Lemma dict_a_built : ∃ s, from_iter 1 dict_a = Ret (s, 3) ∧ represents ByteUnit s (entries_map dict_a).
Proof.
  apply (from_iter_sealed ByteUnit dict_a 100); [|unfold dat_room; vm_compute; congruence].
  repeat constructor; try done; lia.
Qed.

Lemma dict_b_built : ∃ s, from_iter 1 dict_b = Ret (s, 2) ∧ represents ByteUnit s (entries_map dict_b).
Proof.
  apply (from_iter_sealed ByteUnit dict_b 100); [|unfold dat_room; vm_compute; congruence].
  repeat constructor; try done; lia.
Qed.

Lemma prefix_iterators_exact_witness :
  ∃ s, from_iter 1 dict_a = Ret (s, 3) ∧
  match with_prefix (new_from_dict ByteUnit s) [97], with_prefix_excluding (new_from_dict ByteUnit s) [97] [[97; 98]] with
  | Some st, Some st' =>
      enumerates PrefixIterator_next st
        (λ p, is_key (DoubleArrayTrieZipper nat ByteUnit) p ∧ [97] `prefix_of` p ∧ accepts (new_from_dict ByteUnit s) p = true) ∧
      enumerates (ExcludingIterator_next [[97; 98]]) st'
        (λ p, is_key (DoubleArrayTrieZipper nat ByteUnit) p ∧ [97] `prefix_of` p ∧ accepts (new_from_dict ByteUnit s) p = true ∧
          ∀ e, e ∈ [[97; 98]] → ¬ e `prefix_of` p)
  | None, None => ∀ p, [97] `prefix_of` p → accepts (new_from_dict ByteUnit s) p = false
  | _, _ => False
  end.
Proof.
  destruct dict_a_built as (s & Hs & Hrep). exists s. split; [exact Hs|].
  apply (prefix_iterators_exact (new_from_dict ByteUnit s) [97] [[97; 98]]).
  - apply dat_root_ok. exact (rep_sealed _ _ _ Hrep).
  - reflexivity.
  - repeat constructor; cbn; lia.
Defined.

Lemma value_diff_exact_witness :
  ∃ sa sb, from_iter 1 dict_a = Ret (sa, 3) ∧ from_iter 1 dict_b = Ret (sb, 2) ∧
  ∃ bound, ∀ fuel n, bound ≤ fuel → bound ≤ n →
  ∃ items, collect (ValueDiffIterator_next fuel) n
      (set_iterator_new (ValueDiffZipper_new (new_from_dict ByteUnit sa) (new_from_dict ByteUnit sb))) = Ret items ∧
    NoDup items.*1.*1 ∧
    ∀ t a b, (t, a, b) ∈ items ↔
      is_key (DoubleArrayTrieZipper nat ByteUnit) t ∧
      accepts (new_from_dict ByteUnit sa) t = true ∧ lookup_value (new_from_dict ByteUnit sa) t = Some a ∧
      accepts (new_from_dict ByteUnit sb) t = true ∧ lookup_value (new_from_dict ByteUnit sb) t = Some b ∧ a ≠ b.
Proof.
  destruct dict_a_built as (sa & Ha & Ra), dict_b_built as (sb & Hb & Rb). exists sa, sb. split; [exact Ha|].
  split; [exact Hb|]. apply (value_diff_exact (new_from_dict ByteUnit sa) (new_from_dict ByteUnit sb)).
  - apply dat_root_ok. exact (rep_sealed _ _ _ Ra).
  - apply dat_root_ok. exact (rep_sealed _ _ _ Rb).
Defined.

