(* ===== verification/Page.v ===== *)
(** * Writing into a page

    A page is a byte array of fixed length: [page[a..b].copy_from_slice(src)],
    [page.copy_within(a..b, d)], and what the page holds after such a write. *)

From stdpp Require Import prelude.
From S2P Require Import Prelude Bytes.
Local Open Scope Z_scope.

(** [buf[a..b].copy_from_slice(src)]: panics unless the range is in the buffer and
    has the length of [src]. *)
Definition copy_from_slice {A} (buf : list A) (a b : Z) (src : list A) : exec (list A) :=
  if decide (0 ≤ a ∧ a ≤ b ∧ b ≤ zlen buf ∧ zlen src = b - a)
  then Ret (take (Z.to_nat a) buf ++ src ++ drop (Z.to_nat b) buf) else Panic.

(** [buf.copy_within(a..b, d)] *)
Definition copy_within {A} (buf : list A) (a b d : Z) : exec (list A) :=
  src ← slice buf a b; copy_from_slice buf d (d + (b - a)) src.

(** ** What a buffer holds, position by position *)

Lemma holds_lookup {A} (buf : list A) (o : nat) x :
  holds buf (Z.of_nat o) x ↔
  (o + length x ≤ length buf)%nat ∧ ∀ i, (i < length x)%nat → buf !! (o + i)%nat = x !! i.
Proof.
  split.
  - intros (pre & post & -> & Ho). unfold zlen in Ho. assert (o = length pre) as -> by lia.
    rewrite !length_app. split; [lia|]. intros i Hi. rewrite lookup_app_r by lia.
    rewrite lookup_app_l by lia. f_equal. lia.
  - intros [Hlen Hx]. exists (take o buf), (drop (o + length x) buf).
    split; [|unfold zlen; rewrite length_take; lia].
    assert (take (length x) (drop o buf) = x) as Ht.
    { apply list_eq. intros i. destruct (decide (i < length x)%nat) as [Hi|Hi].
      - rewrite lookup_take_lt, lookup_drop by done. by apply Hx.
      - rewrite !lookup_ge_None_2; [done|lia|rewrite length_take, length_drop; lia]. }
    rewrite <-(take_drop o buf) at 1. f_equal. rewrite <-(take_drop (length x) (drop o buf)) at 1.
    by rewrite Ht, drop_drop.
Qed.

Lemma holds_nat {A} (buf : list A) off x : holds buf off x → off = Z.of_nat (Z.to_nat off).
Proof. intros H%holds_bound. lia. Qed.

Lemma holds_full {A} (buf : list A) : holds buf 0 buf.
Proof. exists [], []. by rewrite app_nil_r. Qed.

Lemma holds_nil {A} (buf : list A) off : 0 ≤ off ≤ zlen buf → holds buf off [].
Proof.
  intros Ho. replace off with (Z.of_nat (Z.to_nat off)) by lia. apply holds_lookup. unfold zlen in *. cbn.
  split; [lia|]. intros i Hi. lia.
Qed.

Lemma holds_app_2 {A} (buf : list A) off x y :
  holds buf off x → holds buf (off + zlen x) y → holds buf off (x ++ y).
Proof.
  intros Hx Hy. pose proof (holds_nat _ _ _ Hx) as E. set (o := Z.to_nat off) in *. rewrite E in Hx, Hy |- *.
  unfold zlen in Hy. rewrite <-Nat2Z.inj_add in Hy.
  apply holds_lookup in Hx as [_ Hx], Hy as [Hlen Hy]. apply holds_lookup.
  rewrite length_app. split; [lia|]. intros i Hi. destruct (decide (i < length x)%nat).
  - rewrite lookup_app_l by done. by apply Hx.
  - rewrite lookup_app_r by lia. rewrite <-Hy by lia. f_equal. lia.
Qed.

Lemma slice_holds {A} (buf : list A) a b x : slice buf a b = Ret x → holds buf a x ∧ zlen x = b - a.
Proof.
  intros Hs. pose proof (slice_Some _ _ _ _ Hs) as (H1 & H2 & H3 & H4). split; [|done].
  unfold slice in Hs. rewrite decide_True in Hs by done. injection Hs as <-.
  exists (take (Z.to_nat a) buf), (drop (Z.to_nat (b - a)) (drop (Z.to_nat a) buf)).
  rewrite !take_drop. split; [done|]. unfold zlen in *. rewrite length_take. lia.
Qed.

(** ** Writes *)

Section writes.
Context {A : Type} (buf : list A).

Lemma copy_from_slice_spec a src :
  0 ≤ a → a + zlen src ≤ zlen buf →
  ∃ buf', copy_from_slice buf a (a + zlen src) src = Ret buf' ∧ zlen buf' = zlen buf ∧
    holds buf' a src ∧
    ∀ off x, holds buf off x → off + zlen x ≤ a ∨ a + zlen src ≤ off → holds buf' off x.
Proof.
  intros Ha Hlen. unfold copy_from_slice. rewrite decide_True by (split_and!; try done; zlen_lia).
  eexists. split; [reflexivity|].
  destruct (Z_of_nat_complete a Ha) as [o ->].
  assert (Z.to_nat (Z.of_nat o + zlen src) = (o + length src)%nat) as -> by (unfold zlen; lia).
  rewrite Nat2Z.id. unfold zlen in Hlen.
  assert (length (take o buf) = o) as Ho by (rewrite length_take; lia).
  assert (∀ i, (i < o)%nat ∨ (o + length src ≤ i)%nat →
    (take o buf ++ src ++ drop (o + length src) buf) !! i = buf !! i) as Hout.
  { intros i [Hi|Hi].
    - rewrite lookup_app_l by lia. by rewrite lookup_take_lt.
    - rewrite !lookup_app_r by lia. rewrite lookup_drop. f_equal. lia. }
  assert (length (take o buf ++ src ++ drop (o + length src) buf) = length buf) as Hl.
  { rewrite !length_app, length_drop. lia. }
  split; [by unfold zlen; rewrite Hl|]. split.
  - eexists (take o buf), _. split; [done|]. unfold zlen. by rewrite Ho.
  - intros off x Hx Hd. pose proof (holds_nat _ _ _ Hx) as E. rewrite E in Hx, Hd |- *.
    apply holds_lookup in Hx as [Hb Hx]. apply holds_lookup. rewrite Hl. split; [done|]. intros i Hi.
    rewrite Hout by (unfold zlen in Hd; lia). by apply Hx.
Qed.

Lemma copy_within_spec a b d :
  0 ≤ a → a ≤ b → b ≤ zlen buf → 0 ≤ d → d + (b - a) ≤ zlen buf →
  ∃ buf', copy_within buf a b d = Ret buf' ∧ zlen buf' = zlen buf ∧
    (∀ off x, holds buf off x → a ≤ off → off + zlen x ≤ b → holds buf' (off - a + d) x) ∧
    (∀ off x, holds buf off x → off + zlen x ≤ d ∨ d + (b - a) ≤ off → holds buf' off x).
Proof.
  intros Ha Hab Hb Hd Hdb. unfold copy_within.
  destruct (slice_total buf a b) as [src Hs]; [done..|]. rewrite Hs. cbn.
  apply slice_holds in Hs as [Hs Hlen]. rewrite <-Hlen in Hdb |- *.
  destruct (copy_from_slice_spec d src Hd Hdb) as (buf' & -> & Hl & Hsrc & Hout).
  exists buf'. split_and!; [done..| |exact Hout]. intros off x Hx Hlo Hhi.
  pose proof (holds_nat _ _ _ Hx) as E. rewrite E in Hx, Hlo, Hhi |- *. set (o := Z.to_nat off) in *.
  pose proof (holds_nat _ _ _ Hs) as Ea. pose proof (holds_nat _ _ _ Hsrc) as Ed. rewrite Ea in Hs. rewrite Ed in Hsrc.
  replace (Z.of_nat o - a + d) with (Z.of_nat (o - Z.to_nat a + Z.to_nat d)) by lia.
  apply holds_lookup in Hx as [Hbx Hx], Hs as [Hbs Hs], Hsrc as [Hbd Hsrc]. apply holds_lookup.
  unfold zlen in *. split; [lia|]. intros i Hi. rewrite <-Hx by done.
  replace (o - Z.to_nat a + Z.to_nat d + i)%nat with (Z.to_nat d + (o - Z.to_nat a + i))%nat by lia.
  rewrite Hsrc by lia. rewrite <-Hs by lia. f_equal. lia.
Qed.
End writes.
