(* ===== verification/Bucket.v ===== *)
(** * String buckets

    The leaf page of persistent_artrie/bucket.rs: 8 KiB with a header, a directory
    of entries sorted by suffix, and the suffixes and values growing down from the
    end of the page.  The model works on the bytes of the page. *)

From stdpp Require Import prelude gmap.
From S2P Require Import Prelude Bytes Page.
Local Open Scope Z_scope.

(** ** Constants *)

Definition BUCKET_PAGE_SIZE : Z := 8192.
Definition MAX_BUCKET_ENTRIES : Z := 256.
Definition BUCKET_MAGIC : Z := 0x00544B4254524150.
Definition BUCKET_VERSION : Z := 1.
Definition BUCKET_HEADER_SIZE : Z := 32.
Definition ENTRY_SIZE : Z := 8.
Definition MAX_DATA_SIZE : Z := BUCKET_PAGE_SIZE - BUCKET_HEADER_SIZE.
Definition MIN_FREE_SPACE : Z := 256.

Definition COMPACTED : Z := 0x0001.
Definition NEEDS_SPLIT : Z := 0x0002.
Definition HAS_VALUES : Z := 0x0004.
Definition BUCKET_IS_LEAF : Z := 0x0008.

Definition u16_MAX : Z := 65535.

Inductive BucketError :=
| InvalidMagic (expected found : Z)
| UnsupportedVersion (max_supported found : Z)
| InvalidSize (expected found : Z)
| InsufficientSpace (needed available : Z)
| BucketFull
| DataTooLarge (max found : Z)
| InvalidIndex.

(** ** Header *)

Record BucketHeader := mkBucketHeader {
  b_magic : Z;
  b_version : Z;
  b_flags : Z;
  entry_count : Z;
  b_reserved : Z;
  data_start : Z;
  free_space : Z;
  b_checksum : Z;
}.

Definition BucketHeader_new : BucketHeader :=
  mkBucketHeader BUCKET_MAGIC BUCKET_VERSION BUCKET_IS_LEAF 0 0 (u32 BUCKET_PAGE_SIZE) (u32 MAX_DATA_SIZE) 0.

Definition with_flags (flags : Z) : BucketHeader :=
  let 'mkBucketHeader m v _ n r d f c := BucketHeader_new in
  mkBucketHeader m v (Z.lor flags BUCKET_IS_LEAF) n r d f c.

Definition has_values (h : BucketHeader) : bool := negb (Z.land (b_flags h) HAS_VALUES =? 0).
Definition needs_split (h : BucketHeader) : bool := negb (Z.land (b_flags h) NEEDS_SPLIT =? 0).

(** The threshold [(MAX_DATA_SIZE as f32 * 0.75) as u32] is exact. *)
Definition should_split (h : BucketHeader) : bool :=
  let used := u32 (u32 MAX_DATA_SIZE - free_space h) in
  let threshold := MAX_DATA_SIZE * 3 / 4 in
  (threshold <=? used) || (MAX_BUCKET_ENTRIES <=? entry_count h).

Definition bucket_validate (h : BucketHeader) : result unit BucketError :=
  if negb (b_magic h =? BUCKET_MAGIC) then Err (InvalidMagic BUCKET_MAGIC (b_magic h))
  else if BUCKET_VERSION <? b_version h then Err (UnsupportedVersion BUCKET_VERSION (b_version h))
  else Ok ().

Definition directory_end (h : BucketHeader) : Z := BUCKET_HEADER_SIZE + entry_count h * ENTRY_SIZE.

Definition available_space (h : BucketHeader) : Z :=
  if data_start h <=? directory_end h then 0 else data_start h - directory_end h.

Definition read_header (data : list Z) : exec BucketHeader :=
  magic ← get_le 8 data 0;
  version ← get_le 2 data 8;
  flags ← get_le 2 data 10;
  count ← get_le 2 data 12;
  reserved ← get_le 2 data 14;
  start ← get_le 4 data 16;
  free ← get_le 4 data 20;
  checksum ← get_le 4 data 24;
  Ret (mkBucketHeader magic version flags count reserved start free checksum).

Definition write_header (data : list Z) (h : BucketHeader) : exec (list Z) :=
  data ← copy_from_slice data 0 8 (to_le_bytes 8 (b_magic h));
  data ← copy_from_slice data 8 10 (to_le_bytes 2 (b_version h));
  data ← copy_from_slice data 10 12 (to_le_bytes 2 (b_flags h));
  data ← copy_from_slice data 12 14 (to_le_bytes 2 (entry_count h));
  data ← copy_from_slice data 14 16 (to_le_bytes 2 (b_reserved h));
  data ← copy_from_slice data 16 20 (to_le_bytes 4 (data_start h));
  data ← copy_from_slice data 20 24 (to_le_bytes 4 (free_space h));
  copy_from_slice data 24 28 (to_le_bytes 4 (b_checksum h)).

(** ** Directory entries *)

Record StringEntry := mkStringEntry {
  suffix_offset : Z;
  suffix_len : Z;
  value_offset : Z;
  value_len : Z;
}.

Definition key_only (suffix_offset suffix_len : Z) : StringEntry := mkStringEntry suffix_offset suffix_len 0 0.
Definition entry_with_value (suffix_offset suffix_len value_offset value_len : Z) : StringEntry :=
  mkStringEntry suffix_offset suffix_len value_offset value_len.

Definition has_value (e : StringEntry) : bool := 0 <? value_len e.
Definition data_size (e : StringEntry) : Z := suffix_len e + value_len e.

Definition StringEntry_to_bytes (e : StringEntry) : exec (list Z) :=
  let bytes := replicate (Z.to_nat ENTRY_SIZE) 0 in
  bytes ← copy_from_slice bytes 0 2 (to_le_bytes 2 (suffix_offset e));
  bytes ← copy_from_slice bytes 2 4 (to_le_bytes 2 (suffix_len e));
  bytes ← copy_from_slice bytes 4 6 (to_le_bytes 2 (value_offset e));
  copy_from_slice bytes 6 8 (to_le_bytes 2 (value_len e)).

Definition StringEntry_from_bytes (bytes : list Z) : exec StringEntry :=
  so ← get_le 2 bytes 0;
  sl ← get_le 2 bytes 2;
  vo ← get_le 2 bytes 4;
  vl ← get_le 2 bytes 6;
  Ret (mkStringEntry so sl vo vl).

(** ** The bucket *)

(** The page *)
Definition StringBucket : Type := list Z.

Definition StringBucket_new : exec StringBucket :=
  write_header (replicate (Z.to_nat BUCKET_PAGE_SIZE) 0) BucketHeader_new.

Definition with_values : exec StringBucket :=
  write_header (replicate (Z.to_nat BUCKET_PAGE_SIZE) 0) (with_flags HAS_VALUES).

Definition bucket_from_bytes (bytes : list Z) : exec (result StringBucket BucketError) :=
  if negb (zlen bytes =? BUCKET_PAGE_SIZE) then Ret (Err (InvalidSize BUCKET_PAGE_SIZE (zlen bytes)))
  else
    h ← read_header bytes;
    match bucket_validate h with
    | Ok _ => Ret (Ok bytes)
    | Err e => Ret (Err e)
    end.

Definition bucket_len (b : StringBucket) : exec Z := h ← read_header b; Ret (entry_count h).

Definition bucket_is_full (b : StringBucket) : exec bool :=
  h ← read_header b;
  Ret ((MAX_BUCKET_ENTRIES <=? entry_count h) || (available_space h <? ENTRY_SIZE + MIN_FREE_SPACE)).

Definition get_entry (b : StringBucket) (i : Z) : exec (option StringEntry) :=
  h ← read_header b;
  if entry_count h <=? i then Ret None
  else
    let offset := BUCKET_HEADER_SIZE + i * ENTRY_SIZE in
    bytes ← slice b offset (offset + ENTRY_SIZE);
    e ← StringEntry_from_bytes bytes;
    Ret (Some e).

Definition get_suffix (b : StringBucket) (e : StringEntry) : exec (list Z) :=
  slice b (suffix_offset e) (suffix_offset e + suffix_len e).

Definition bucket_get_value (b : StringBucket) (e : StringEntry) : exec (option (list Z)) :=
  if value_len e =? 0 then Ret None
  else v ← slice b (value_offset e) (value_offset e + value_len e); Ret (Some v).

(** [a.cmp(b)] on byte slices *)
Fixpoint bytes_cmp (a b : list Z) : comparison :=
  match a, b with
  | [], [] => Eq
  | [], _ :: _ => Lt
  | _ :: _, [] => Gt
  | x :: a, y :: b => match Z.compare x y with Eq => bytes_cmp a b | c => c end
  end.

(** The binary search; the interval shrinks with every step. *)
Fixpoint search_loop (b : StringBucket) (suffix : list Z) (fuel : nat) (left right : Z) : exec (result Z Z) :=
  if left <? right then
    match fuel with
    | O => Panic
    | S fuel =>
        let mid := left + (right - left) / 2 in
        r ← get_entry b mid;
        entry ← r;
        entry_suffix ← get_suffix b entry;
        match bytes_cmp entry_suffix suffix with
        | Lt => search_loop b suffix fuel (mid + 1) right
        | Gt => search_loop b suffix fuel left mid
        | Eq => Ret (Ok mid)
        end
    end
  else Ret (Err left).

Definition bucket_search (b : StringBucket) (suffix : list Z) : exec (result Z Z) :=
  h ← read_header b;
  let count := entry_count h in
  if count =? 0 then Ret (Err 0) else search_loop b suffix (Z.to_nat count) 0 count.

Definition bucket_contains (b : StringBucket) (suffix : list Z) : exec bool :=
  r ← bucket_search b suffix; Ret (match r with Ok _ => true | Err _ => false end).

Definition write_entry_at (b : StringBucket) (i : Z) (e : StringEntry) : exec StringBucket :=
  let offset := BUCKET_HEADER_SIZE + i * ENTRY_SIZE in
  bytes ← StringEntry_to_bytes e;
  copy_from_slice b offset (offset + ENTRY_SIZE) bytes.

Definition insert_entry_at (b : StringBucket) (i : Z) (e : StringEntry) : exec StringBucket :=
  h ← read_header b;
  let count := entry_count h in
  b ← (if i <? count
       then
         let src_start := BUCKET_HEADER_SIZE + i * ENTRY_SIZE in
         let src_end := BUCKET_HEADER_SIZE + count * ENTRY_SIZE in
         copy_within b src_start src_end (src_start + ENTRY_SIZE)
       else Ret b);
  write_entry_at b i e.

(** New count, data start and flags in the header, and the free space that follows *)
Definition header_update (h : BucketHeader) (count start flags : Z) : BucketHeader :=
  let h := mkBucketHeader (b_magic h) (b_version h) flags count (b_reserved h) start (free_space h) (b_checksum h) in
  mkBucketHeader (b_magic h) (b_version h) (b_flags h) (entry_count h) (b_reserved h) (data_start h)
    (u32 (available_space h)) (b_checksum h).

Definition update_value_at (b : StringBucket) (i : Z) (new_value : list Z) :
    exec (StringBucket * result unit BucketError) :=
  r ← get_entry b i;
  match r with
  | None => Ret (b, Err InvalidIndex)
  | Some entry =>
      if zlen new_value <=? value_len entry then
        let offset := value_offset entry in
        b ← copy_from_slice b offset (offset + zlen new_value) new_value;
        b ← write_entry_at b i
              (mkStringEntry (suffix_offset entry) (suffix_len entry) (value_offset entry) (u16 (zlen new_value)));
        Ret (b, Ok ())
      else
        h ← read_header b;
        let space_needed := zlen new_value in
        if available_space h <? space_needed then Ret (b, Err (InsufficientSpace space_needed (available_space h)))
        else
          let new_offset := data_start h - space_needed in
          b ← copy_from_slice b new_offset (new_offset + zlen new_value) new_value;
          b ← write_entry_at b i
                (mkStringEntry (suffix_offset entry) (suffix_len entry) (u16 new_offset) (u16 (zlen new_value)));
          b ← write_header b (header_update h (entry_count h) (u32 new_offset) (b_flags h));
          Ret (b, Ok ())
  end.

(** The part of [insert_impl] for a suffix that is not in the bucket *)
Definition insert_new (b : StringBucket) (h : BucketHeader) (insert_pos : Z) (suffix : list Z)
    (value : option (list Z)) : exec (StringBucket * result bool BucketError) :=
  let value_length := match value with Some v => zlen v | None => 0 end in
  let total_data_size := zlen suffix + value_length in
  let space_needed := ENTRY_SIZE + total_data_size in
  if available_space h <? space_needed then Ret (b, Err (InsufficientSpace space_needed (available_space h)))
  else if MAX_BUCKET_ENTRIES <=? entry_count h then Ret (b, Err BucketFull)
  else
    let new_data_start := data_start h - total_data_size in
    b ← copy_from_slice b new_data_start (new_data_start + zlen suffix) suffix;
    written ← match value with
              | Some v =>
                  let offset := new_data_start + zlen suffix in
                  b ← copy_from_slice b offset (offset + value_length) v; Ret (b, u16 offset)
              | None => Ret (b, 0)
              end;
    let '(b, voff) := written in
    let entry := mkStringEntry (u16 new_data_start) (u16 (zlen suffix)) voff (u16 value_length) in
    b ← insert_entry_at b insert_pos entry;
    let flags := match value with Some _ => Z.lor (b_flags h) HAS_VALUES | None => b_flags h end in
    b ← write_header b (header_update h (u16 (entry_count h + 1)) (u32 new_data_start) flags);
    Ret (b, Ok true).

Definition insert_impl (b : StringBucket) (suffix : list Z) (value : option (list Z)) :
    exec (StringBucket * result bool BucketError) :=
  let value_length := match value with Some v => zlen v | None => 0 end in
  if (u16_MAX <? zlen suffix) || (u16_MAX <? value_length)
  then Ret (b, Err (DataTooLarge u16_MAX (Z.max (zlen suffix) value_length)))
  else
    h ← read_header b;
    r ← bucket_search b suffix;
    match r with
    | Ok i =>
        match value with
        | Some new_value =>
            '(b, r) ← update_value_at b i new_value;
            Ret (b, match r with Ok _ => Ok false | Err e => Err e end)
        | None => Ret (b, Ok false)
        end
    | Err insert_pos => insert_new b h insert_pos suffix value
    end.

Definition bucket_insert_key (b : StringBucket) (suffix : list Z) : exec (StringBucket * result bool BucketError) :=
  insert_impl b suffix None.

Definition bucket_insert (b : StringBucket) (suffix value : list Z) : exec (StringBucket * result bool BucketError) :=
  insert_impl b suffix (Some value).

Definition bucket_remove (b : StringBucket) (suffix : list Z) : exec (StringBucket * option StringEntry) :=
  r ← bucket_search b suffix;
  match r with
  | Ok i =>
      r ← get_entry b i;
      entry ← r;
      h ← read_header b;
      let count := entry_count h in
      b ← (if i + 1 <? count
           then
             let src_start := BUCKET_HEADER_SIZE + (i + 1) * ENTRY_SIZE in
             let src_end := BUCKET_HEADER_SIZE + count * ENTRY_SIZE in
             copy_within b src_start src_end (BUCKET_HEADER_SIZE + i * ENTRY_SIZE)
           else Ret b);
      b ← write_header b (header_update h (u16 (entry_count h - 1)) (data_start h) (b_flags h));
      Ret (b, Some entry)
  | Err _ => Ret (b, None)
  end.

(** ** Whole-bucket operations *)

(** The suffix and value of the entry at an index, as the loops below read them *)
Definition read_item (b : StringBucket) (i : Z) : exec (list Z * option (list Z)) :=
  r ← get_entry b i;
  entry ← r;
  suffix ← get_suffix b entry;
  value ← bucket_get_value b entry;
  Ret (suffix, value).

Definition insert_item (b : StringBucket) (item : list Z * option (list Z)) :
    exec (StringBucket * result bool BucketError) :=
  match item.2 with
  | Some v => bucket_insert b item.1 v
  | None => bucket_insert_key b item.1
  end.

(** [.expect(..)] of an insertion *)
Definition expect_insert (b : StringBucket) (item : list Z * option (list Z)) : exec StringBucket :=
  '(b, r) ← insert_item b item;
  match r with Ok _ => Ret b | Err _ => Panic end.

(** [BucketIterator::next], which is also the order of [iter] *)
Definition BucketIterator_next (b : StringBucket) (count : Z) (i : Z) :
    exec (option (StringEntry * list Z) * Z) :=
  if count <=? i then Ret (None, i)
  else
    r ← get_entry b i;
    match r with
    | None => Ret (None, i)
    | Some entry => suffix ← get_suffix b entry; Ret (Some (entry, suffix), i + 1)
    end.

Definition empty_like (has_values : bool) : exec StringBucket :=
  if has_values then with_values else StringBucket_new.

Definition split_point (b : StringBucket) : exec (option Z) :=
  count ← bucket_len b;
  if count <? 2 then Ret None else Ret (Some (count / 2)).

(** Copying the entries [i..j] of a bucket into another *)
Definition copy_entries (b : StringBucket) (i j : Z) (into : StringBucket) : exec StringBucket :=
  foldM (λ into i, item ← read_item b i; expect_insert into item) into (seqZ i (j - i)).

Definition bucket_split (b : StringBucket) : exec (option (StringBucket * StringBucket * list Z)) :=
  p ← split_point b;
  match p with
  | None => Ret None
  | Some p =>
      count ← bucket_len b;
      h ← read_header b;
      left ← empty_like (has_values h);
      right ← empty_like (has_values h);
      left ← copy_entries b 0 p left;
      first ← read_item b p;
      right ← copy_entries b p count right;
      Ret (Some (left, right, first.1))
  end.

Record SplitByByteResult := mkSplitByByte {
  sb_buckets : gmap Z StringBucket;
  sb_finals : list (list Z * option (list Z));
  sb_overflow : list (Z * list Z * option (list Z));
}.

Definition split_entry (has_values : bool) (s : SplitByByteResult) (item : list Z * option (list Z)) :
    exec SplitByByteResult :=
  match item.1 with
  | [] => Ret (mkSplitByByte (sb_buckets s) (sb_finals s ++ [([], item.2)]) (sb_overflow s))
  | first_byte :: remaining =>
      bucket ← match sb_buckets s !! first_byte with
               | Some bucket => Ret bucket
               | None => empty_like has_values
               end;
      '(bucket, r) ← insert_item bucket (remaining, item.2);
      Ret (mkSplitByByte (<[first_byte := bucket]> (sb_buckets s)) (sb_finals s)
             (match r with
              | Ok _ => sb_overflow s
              | Err _ => sb_overflow s ++ [(first_byte, remaining, item.2)]
              end))
  end.

Definition split_by_first_byte (b : StringBucket) : exec SplitByByteResult :=
  h ← read_header b;
  count ← bucket_len b;
  foldM (λ s i, item ← read_item b i; split_entry (has_values h) s item) (mkSplitByByte ∅ [] []) (seqZ 0 count).

Definition bucket_compact (b : StringBucket) : exec StringBucket :=
  count ← bucket_len b;
  if count =? 0 then Ret b
  else
    h ← read_header b;
    entries ← mapM (read_item b) (seqZ 0 count);
    b ← empty_like (has_values h);
    b ← foldM expect_insert b entries;
    h ← read_header b;
    write_header b (mkBucketHeader (b_magic h) (b_version h) (Z.lor (b_flags h) COMPACTED) (entry_count h)
                      (b_reserved h) (data_start h) (free_space h) (b_checksum h)).

(** [?] leaves with the entries inserted so far. *)
Fixpoint merge_loop (b other : StringBucket) (indices : list Z) : exec (StringBucket * result unit BucketError) :=
  match indices with
  | [] => Ret (b, Ok ())
  | i :: indices =>
      item ← read_item other i;
      '(b, r) ← insert_item b item;
      match r with
      | Ok _ => merge_loop b other indices
      | Err e => Ret (b, Err e)
      end
  end.

Definition bucket_merge (b other : StringBucket) : exec (StringBucket * result unit BucketError) :=
  count ← bucket_len other; merge_loop b other (seqZ 0 count).

(** ** Reading and writing the header and the entries *)

Definition header_bytes (h : BucketHeader) : list Z :=
  to_le_bytes 8 (b_magic h) ++ to_le_bytes 2 (b_version h) ++ to_le_bytes 2 (b_flags h) ++
  to_le_bytes 2 (entry_count h) ++ to_le_bytes 2 (b_reserved h) ++ to_le_bytes 4 (data_start h) ++
  to_le_bytes 4 (free_space h) ++ to_le_bytes 4 (b_checksum h).

Definition entry_bytes (e : StringEntry) : list Z :=
  to_le_bytes 2 (suffix_offset e) ++ to_le_bytes 2 (suffix_len e) ++
  to_le_bytes 2 (value_offset e) ++ to_le_bytes 2 (value_len e).

Definition header_fits (h : BucketHeader) : Prop :=
  is_u64 (b_magic h) ∧ is_u16 (b_version h) ∧ is_u16 (b_flags h) ∧ is_u16 (entry_count h) ∧
  is_u16 (b_reserved h) ∧ is_u32 (data_start h) ∧ is_u32 (free_space h) ∧ is_u32 (b_checksum h).

Definition entry_fits (e : StringEntry) : Prop :=
  is_u16 (suffix_offset e) ∧ is_u16 (suffix_len e) ∧ is_u16 (value_offset e) ∧ is_u16 (value_len e).

Lemma zlen_header_bytes h : zlen (header_bytes h) = 28.
Proof. unfold header_bytes. zlen_lia. Qed.
Lemma zlen_entry_bytes e : zlen (entry_bytes e) = ENTRY_SIZE.
Proof. unfold entry_bytes, ENTRY_SIZE. zlen_lia. Qed.

Lemma holds_le n buf off z :
  0 ≤ z < 2 ^ (8 * Z.of_nat n) → holds buf off (to_le_bytes n z) → get_le n buf off = Ret z.
Proof. intros Hz H. rewrite (holds_get_le n buf off z H). by rewrite Z.mod_small. Qed.

(** Reads the next little-endian field of a sequence of them. *)
Ltac next_field H :=
  let H' := fresh "Hf" in
  apply holds_app in H as [H' H]; erewrite (holds_le _ _ _ _ _ H'); cbn [mbind option_bind];
  rewrite zlen_to_le_bytes in H;
  match type of H with holds _ ?o _ => let o' := eval vm_compute in o in change o with o' in H end.

Lemma read_header_holds data h : header_fits h → holds data 0 (header_bytes h) → read_header data = Ret h.
Proof.
  intros (H1 & H2 & H3 & H4 & H5 & H6 & H7 & H8) H. unfold read_header, header_bytes in *.
  do 7 next_field H. erewrite (holds_le _ _ _ _ _ H). cbn [mbind option_bind]. destruct h; reflexivity.
  Unshelve. all: assumption.
Qed.

Lemma entry_from_bytes e : entry_fits e → StringEntry_from_bytes (entry_bytes e) = Ret e.
Proof.
  intros (H1 & H2 & H3 & H4). unfold StringEntry_from_bytes.
  pose proof (holds_full (entry_bytes e)) as H. unfold entry_bytes at 2 in H.
  do 3 next_field H. erewrite (holds_le _ _ _ _ _ H). cbn [mbind option_bind]. destruct e; reflexivity.
  Unshelve. all: assumption.
Qed.

Lemma entry_to_bytes e : StringEntry_to_bytes e = Ret (entry_bytes e).
Proof. reflexivity. Qed.

(** A sequence of writes, each behind the one before, writes their concatenation. *)
Lemma copy_next {A} (data : list A) pre x a b :
  holds data 0 pre → a = zlen pre → b = a + zlen x → b ≤ zlen data →
  ∃ data', copy_from_slice data a b x = Ret data' ∧ zlen data' = zlen data ∧ holds data' 0 (pre ++ x) ∧
    ∀ off y, holds data off y → b ≤ off → holds data' off y.
Proof.
  intros Hpre -> -> Hlen. destruct (copy_from_slice_spec data (zlen pre) x) as (data' & -> & Hl & Hx & Hout); [zlen_lia|done|].
  exists data'. split_and!; [done..| |].
  - apply holds_app_2; [|done]. apply Hout; [done|]. left. lia.
  - intros off y Hy Ho. apply Hout; [done|]. by right.
Qed.

Ltac write_field Hh :=
  match goal with |- context [copy_from_slice ?data ?a ?b ?src] =>
    let d := fresh "d" in let E := fresh "E" in let L := fresh "L" in let O := fresh "O" in
    destruct (copy_next data _ src a b Hh) as (d & E & L & Hh' & O); [zlen_lia..|]; clear Hh; rename Hh' into Hh;
    rewrite E; cbn [mbind option_bind]
  end.

Lemma write_header_spec data h :
  28 ≤ zlen data →
  ∃ data', write_header data h = Ret data' ∧ zlen data' = zlen data ∧ holds data' 0 (header_bytes h) ∧
    ∀ off x, holds data off x → 28 ≤ off → holds data' off x.
Proof.
  intros Hlen. unfold write_header, header_bytes.
  assert (holds data 0 []) as Hh by (apply holds_nil; lia).
  do 8 write_field Hh. eexists. split; [reflexivity|]. split; [congruence|]. split.
  - revert Hh. by rewrite <-!app_assoc.
  - intros off x Hx Ho. repeat match goal with Hy : holds ?d _ x, O : ∀ off y, holds ?d off y → _ |- _ =>
      apply O in Hy; [|lia]; clear O end. done.
Qed.
