(* ===== verification/BucketMap.v ===== *)
(** * String buckets are sorted finite maps

    The invariant of a bucket page, the finite map it holds, and the operations of
    Bucket.v on that map. *)

From stdpp Require Import prelude gmap sorting.
From S2P Require Import Prelude Bytes Page Bucket.
Local Open Scope Z_scope.

(** ** The order of the suffixes *)

Lemma bytes_cmp_refl a : bytes_cmp a a = Eq.
Proof. induction a as [|x a IH]; [done|]. cbn. by rewrite Z.compare_refl. Qed.

Lemma bytes_cmp_eq a b : bytes_cmp a b = Eq ↔ a = b.
Proof.
  split; [|intros ->; apply bytes_cmp_refl]. revert b. induction a as [|x a IH]; intros [|y b]; try done.
  cbn. destruct (Z.compare_spec x y); try done. intros ?. f_equal; auto.
Qed.

Lemma bytes_cmp_antisym a b : bytes_cmp b a = CompOpp (bytes_cmp a b).
Proof.
  revert b. induction a as [|x a IH]; intros [|y b]; try done. cbn. rewrite (Z.compare_antisym x y).
  destruct (Z.compare x y); cbn; auto.
Qed.

Definition before (a b : list Z) : Prop := bytes_cmp a b = Lt.

#[export] Instance before_trans : Transitive before.
Proof.
  intros a b c. unfold before. revert b c. induction a as [|x a IH]; intros [|y b] [|z c]; try done. cbn.
  destruct (Z.compare_spec x y), (Z.compare_spec y z), (Z.compare_spec x z); try done; try lia. by apply IH.
Qed.

Lemma before_irrefl a : ¬ before a a.
Proof. unfold before. by rewrite bytes_cmp_refl. Qed.

Lemma bytes_cmp_gt a b : bytes_cmp a b = Gt ↔ before b a.
Proof. unfold before. rewrite (bytes_cmp_antisym a b). by destruct (bytes_cmp a b). Qed.

#[export] Instance before_dec a b : Decision (before a b).
Proof. unfold before. apply _. Defined.

(** ** The invariant *)

(** Two regions of the page, by offset and length, share no byte. *)
Definition apart (o l o' l' : Z) : Prop := l = 0 ∨ l' = 0 ∨ o + l ≤ o' ∨ o' + l' ≤ o.

(** The entry points to the item: a suffix and a value, empty for none. *)
Definition item_at (b : StringBucket) (e : StringEntry) (item : list Z * list Z) : Prop :=
  suffix_len e = zlen item.1 ∧ holds b (suffix_offset e) item.1 ∧
  value_len e = zlen item.2 ∧ (item.2 ≠ [] → holds b (value_offset e) item.2).

Definition entry_ok (start : Z) (e : StringEntry) : Prop :=
  entry_fits e ∧ start ≤ suffix_offset e ∧ value_offset e ≤ BUCKET_PAGE_SIZE ∧
  (0 < value_len e → start ≤ value_offset e).

Definition header_ok (h : BucketHeader) : Prop :=
  b_magic h = BUCKET_MAGIC ∧ b_version h = BUCKET_VERSION ∧ is_u16 (b_flags h) ∧ is_u16 (b_reserved h) ∧
  is_u32 (b_checksum h) ∧ 0 ≤ entry_count h ≤ MAX_BUCKET_ENTRIES ∧
  directory_end h ≤ data_start h ≤ BUCKET_PAGE_SIZE ∧ free_space h = available_space h.

Definition items_size (items : list (list Z * list Z)) : Z :=
  foldr (λ it n, zlen it.1 + zlen it.2 + n) 0 items.

Record bucket_inv (b : StringBucket) (h : BucketHeader) (es : list StringEntry)
    (items : list (list Z * list Z)) : Prop := {
  inv_len : zlen b = BUCKET_PAGE_SIZE;
  inv_header : holds b 0 (header_bytes h);
  inv_header_ok : header_ok h;
  inv_count : entry_count h = zlen es;
  inv_directory : ∀ i e, es !! i = Some e → holds b (BUCKET_HEADER_SIZE + Z.of_nat i * ENTRY_SIZE) (entry_bytes e);
  inv_entries : Forall (entry_ok (data_start h)) es;
  inv_items : Forall2 (item_at b) es items;
  inv_suffixes_apart : ∀ i j e e', es !! i = Some e → es !! j = Some e' →
    apart (value_offset e) (value_len e) (suffix_offset e') (suffix_len e');
  inv_values_apart : ∀ i j e e', es !! i = Some e → es !! j = Some e' → i ≠ j →
    apart (value_offset e) (value_len e) (value_offset e') (value_len e');
  inv_size : items_size items ≤ BUCKET_PAGE_SIZE - data_start h;
  inv_sorted : StronglySorted before items.*1;
}.

Lemma header_ok_fits h : header_ok h → header_fits h.
Proof.
  intros (Hm & Hv & ? & ? & ? & Hc & Hd & Hf). unfold directory_end, BUCKET_HEADER_SIZE, ENTRY_SIZE,
    BUCKET_PAGE_SIZE, MAX_BUCKET_ENTRIES in *.
  assert (0 ≤ available_space h < 2 ^ 32) as Ha.
  { unfold available_space, directory_end, BUCKET_HEADER_SIZE, ENTRY_SIZE. case_match; lia. }
  unfold header_fits, is_u64, is_u16, is_u32, BUCKET_MAGIC, BUCKET_VERSION in *. lia.
Qed.

Lemma available_eq h : header_ok h → available_space h = data_start h - directory_end h.
Proof.
  intros (_ & _ & _ & _ & _ & _ & Hd & _). unfold available_space. destruct (Z.leb_spec (data_start h) (directory_end h)); lia.
Qed.

Lemma header_update_ok h count start flags :
  header_ok h → 0 ≤ count ≤ MAX_BUCKET_ENTRIES → BUCKET_HEADER_SIZE + count * ENTRY_SIZE ≤ start ≤ BUCKET_PAGE_SIZE →
  is_u16 flags → header_ok (header_update h count start flags).
Proof.
  intros (? & ? & ? & ? & ? & ? & ? & ?) Hc Hs Hf. unfold header_update. cbv zeta. cbn.
  set (h' := mkBucketHeader _ _ _ _ _ _ (free_space h) _).
  assert (available_space h' = start - (BUCKET_HEADER_SIZE + count * ENTRY_SIZE)) as Ha.
  { unfold available_space, directory_end. cbn. destruct (Z.leb_spec start (BUCKET_HEADER_SIZE + count * ENTRY_SIZE)); lia. }
  rewrite u32_id by (rewrite Ha; unfold is_u32, BUCKET_HEADER_SIZE, ENTRY_SIZE, BUCKET_PAGE_SIZE in *; lia).
  split_and!; cbn; unfold directory_end; cbn; try done; lia.
Qed.

(** ** Reading *)

Section reading.
Context {b h es items} (Hinv : bucket_inv b h es items).

Lemma read_header_inv : read_header b = Ret h.
Proof using Hinv. apply read_header_holds; [apply header_ok_fits|]; apply Hinv. Qed.

Lemma length_items : length items = length es.
Proof using Hinv. symmetry. eapply Forall2_length, Hinv. Qed.

Lemma get_entry_inv i e : es !! i = Some e → get_entry b (Z.of_nat i) = Ret (Some e).
Proof using Hinv.
  intros He. unfold get_entry. rewrite read_header_inv. cbn [mbind option_bind]. rewrite (inv_count _ _ _ _ Hinv).
  pose proof (lookup_lt_Some _ _ _ He). destruct (Z.leb_spec (zlen es) (Z.of_nat i)); [unfold zlen in *; lia|].
  rewrite (holds_slice _ _ (entry_bytes e));
    [|by apply (inv_directory _ _ _ _ Hinv)|by rewrite zlen_entry_bytes].
  cbn [mbind option_bind]. rewrite entry_from_bytes; [done|].
  eapply Forall_lookup_1 in He; [|apply Hinv]. apply He.
Qed.

Lemma entry_item i s v :
  items !! i = Some (s, v) → ∃ e, es !! i = Some e ∧ item_at b e (s, v).
Proof using Hinv. intros Hi. eapply Forall2_lookup_r; [apply Hinv|done]. Qed.

Lemma get_suffix_inv e s v : item_at b e (s, v) → get_suffix b e = Ret s.
Proof using. intros (Hl & Hh & _). unfold get_suffix. apply holds_slice; [done|]. cbn in Hl. by rewrite Hl. Qed.

(** The value of an item: none when it is empty *)
Definition opt_value (v : list Z) : option (list Z) := match v with [] => None | _ => Some v end.

Lemma get_value_inv e s v : item_at b e (s, v) → bucket_get_value b e = Ret (opt_value v).
Proof using.
  intros (_ & _ & Hl & Hh). unfold bucket_get_value. cbn in Hl, Hh. rewrite Hl. destruct v as [|x v]; [done|].
  destruct (Z.eqb_spec (zlen (x :: v)) 0) as [E|]; [zlen_lia|].
  rewrite (holds_slice b (value_offset e) (x :: v)) by (done || by apply Hh). done.
Qed.

Lemma read_item_inv i s v : items !! i = Some (s, v) → read_item b (Z.of_nat i) = Ret (s, opt_value v).
Proof using Hinv.
  intros Hi. destruct (entry_item i s v Hi) as (e & He & Hat). unfold read_item.
  rewrite (get_entry_inv i e He). cbn [mbind option_bind]. rewrite (get_suffix_inv e s v Hat). cbn [mbind option_bind].
  by rewrite (get_value_inv e s v Hat).
Qed.

(** ** Search *)

(** Where a suffix is, or belongs *)
Definition found (s : list Z) (i : nat) : Prop := ∃ v, items !! i = Some (s, v).
Definition belongs (s : list Z) (p : nat) : Prop :=
  (p ≤ length items)%nat ∧ (∀ i it, items !! i = Some it → (i < p)%nat → before it.1 s) ∧
  (∀ i it, items !! i = Some it → (p ≤ i)%nat → before s it.1).

Lemma sorted_items i j it it' :
  items !! i = Some it → items !! j = Some it' → (i < j)%nat → before it.1 it'.1.
Proof using Hinv.
  intros Hi Hj Hij. eapply (StronglySorted_lookup_lt before items.*1 i j); [apply Hinv|done| |];
    rewrite list_lookup_fmap; [by rewrite Hi|by rewrite Hj].
Qed.

Lemma search_loop_inv s fuel l r :
  (r - l ≤ fuel)%nat → (l ≤ r ≤ length items)%nat →
  (∀ i it, items !! i = Some it → (i < l)%nat → before it.1 s) →
  (∀ i it, items !! i = Some it → (r ≤ i)%nat → before s it.1) →
  ∃ i, (search_loop b s fuel (Z.of_nat l) (Z.of_nat r) = Ret (Ok (Z.of_nat i)) ∧ found s i) ∨
       (search_loop b s fuel (Z.of_nat l) (Z.of_nat r) = Ret (Err (Z.of_nat i)) ∧ belongs s i).
Proof using Hinv.
  revert l r. induction fuel as [|fuel IH]; intros l r Hf Hlr Hlo Hhi; cbn [search_loop];
    destruct (Z.ltb_spec (Z.of_nat l) (Z.of_nat r)) as [Hlt|Hge]; [lia| | |].
  1, 3: exists l; right; split; [done|]; assert (r = l) as -> by lia; split; [lia|by split].
  set (mid := (l + (r - l) / 2)%nat).
  assert (Z.of_nat l + (Z.of_nat r - Z.of_nat l) / 2 = Z.of_nat mid) as ->.
  { unfold mid. rewrite Nat2Z.inj_add, Nat2Z.inj_div, Nat2Z.inj_sub by lia. done. }
  assert (l ≤ mid < r)%nat as Hmid.
  { unfold mid. assert ((r - l) / 2 < r - l)%nat by (apply Nat.div_lt; lia). lia. }
  destruct (lookup_lt_is_Some_2 items mid) as [[k v] Hk]; [lia|].
  destruct (entry_item mid k v Hk) as (e & He & Hat).
  rewrite (get_entry_inv mid e He). cbn [mbind option_bind]. rewrite (get_suffix_inv e k v Hat). cbn [mbind option_bind].
  destruct (bytes_cmp k s) eqn:Hc.
  - apply bytes_cmp_eq in Hc as ->. exists mid. left. split; [done|]. by exists v.
  - replace (Z.of_nat mid + 1) with (Z.of_nat (S mid)) by lia. apply IH; [lia|lia| |done].
    intros i it Hi Hle. destruct (decide (i = mid)) as [->|]; [by simplify_eq|].
    transitivity k; [|done]. eapply (sorted_items i mid it (k, v)); [done..|lia].
  - apply IH; [lia|lia|done|]. apply bytes_cmp_gt in Hc. intros i it Hi Hle.
    destruct (decide (i = mid)) as [->|]; [by simplify_eq|].
    transitivity k; [done|]. eapply (sorted_items mid i (k, v) it); [done..|lia].
Qed.

Lemma search_inv s :
  ∃ i, (bucket_search b s = Ret (Ok (Z.of_nat i)) ∧ found s i) ∨
       (bucket_search b s = Ret (Err (Z.of_nat i)) ∧ belongs s i).
Proof using Hinv.
  unfold bucket_search. rewrite read_header_inv. cbn [mbind option_bind]. rewrite (inv_count _ _ _ _ Hinv).
  assert (zlen es = Z.of_nat (length items)) as -> by (unfold zlen; by rewrite length_items).
  destruct (Z.eqb_spec (Z.of_nat (length items)) 0) as [E|].
  - exists O. right. split; [done|]. split; [lia|]. split; [lia|]. intros i it Hi%lookup_lt_Some. lia.
  - rewrite Nat2Z.id. apply (search_loop_inv s (length items) 0 (length items)); [lia|lia|lia|].
    intros i it Hi%lookup_lt_Some. lia.
Qed.

Lemma found_belongs s i p : found s i → belongs s p → False.
Proof using.
  intros [v Hi] (_ & Hlo & Hhi). apply (before_irrefl s).
  destruct (decide (i < p)%nat); [by apply (Hlo i (s, v))|apply (Hhi i (s, v)); [done|lia]].
Qed.
End reading.

(** ** The directory *)

Definition insert_at {A} (p : nat) (x : A) (l : list A) : list A := take p l ++ x :: drop p l.

Lemma insert_at_lookup {A} p (x : A) l j y :
  (p ≤ length l)%nat →
  insert_at p x l !! j = Some y →
  (j < p ∧ l !! j = Some y)%nat ∨ (j = p ∧ y = x) ∨ (∃ i, p ≤ i ∧ j = S i ∧ l !! i = Some y)%nat.
Proof.
  intros Hp. unfold insert_at. assert (length (take p l) = p) as Hl by (rewrite length_take; lia).
  destruct (decide (j < p)%nat) as [Hj|Hj].
  - rewrite lookup_app_l, lookup_take_lt by lia. auto.
  - rewrite lookup_app_r, Hl by lia. destruct (decide (j = p)) as [->|Hne].
    + rewrite Nat.sub_diag. cbn. intros [= ->]. auto.
    + rewrite lookup_cons_ne_0, lookup_drop by lia. intros Hy. right. right.
      exists (p + pred (j - p))%nat. split; [lia|]. split; [lia|done].
Qed.

Lemma insert_at_perm {A} p (x : A) l : insert_at p x l ≡ₚ x :: l.
Proof. unfold insert_at. rewrite <-Permutation_middle. by rewrite take_drop. Qed.

Lemma insert_at_fmap {A B} (f : A → B) p x l : f <$> insert_at p x l = insert_at p (f x) (f <$> l).
Proof. unfold insert_at. by rewrite fmap_app, fmap_cons, fmap_take, fmap_drop. Qed.

Lemma insert_at_Forall2 {A B} (R : A → B → Prop) p x y l k :
  Forall2 R l k → R x y → Forall2 R (insert_at p x l) (insert_at p y k).
Proof.
  intros Hlk Hxy. apply Forall2_app; [by apply Forall2_take|]. constructor; [done|]. by apply Forall2_drop.
Qed.

(** The directory of [es] is in the page. *)
Definition directory (b : StringBucket) (es : list StringEntry) : Prop :=
  ∀ i e, es !! i = Some e → holds b (BUCKET_HEADER_SIZE + Z.of_nat i * ENTRY_SIZE) (entry_bytes e).

(** Every region of [b] from [lo] on is in [b'] too. *)
Definition keeps (lo : Z) (b b' : StringBucket) : Prop :=
  zlen b' = zlen b ∧ ∀ off x, holds b off x → lo ≤ off → holds b' off x.

Lemma keeps_trans lo b1 b2 b3 : keeps lo b1 b2 → keeps lo b2 b3 → keeps lo b1 b3.
Proof. intros [L1 H1] [L2 H2]. split; [congruence|]. auto. Qed.

Lemma keeps_weaken lo lo' b b' : lo ≤ lo' → keeps lo b b' → keeps lo' b b'.
Proof. intros Hle [L Hk]. split; [done|]. intros off x Hx Ho. apply Hk; [done|lia]. Qed.

Lemma keeps_directory lo b b' es :
  keeps lo b b' → lo ≤ BUCKET_HEADER_SIZE → directory b es → directory b' es.
Proof.
  intros [_ Hk] Hlo Hd i e Hi. apply Hk; [by apply Hd|]. unfold ENTRY_SIZE. lia.
Qed.

Lemma write_header_keeps b h :
  zlen b = BUCKET_PAGE_SIZE →
  ∃ b', write_header b h = Ret b' ∧ holds b' 0 (header_bytes h) ∧ keeps BUCKET_HEADER_SIZE b b'.
Proof.
  intros Hl. destruct (write_header_spec b h) as (b' & Hw & Hl' & Hh & Hk); [rewrite Hl; by unfold BUCKET_PAGE_SIZE|].
  exists b'. split; [done|]. split; [done|]. split; [done|]. intros off x Hx Ho. apply Hk; [done|].
  unfold BUCKET_HEADER_SIZE in Ho. lia.
Qed.

Lemma write_entry_at_spec b i e :
  zlen b = BUCKET_PAGE_SIZE → 0 ≤ i → BUCKET_HEADER_SIZE + i * ENTRY_SIZE + ENTRY_SIZE ≤ BUCKET_PAGE_SIZE →
  ∃ b', write_entry_at b i e = Ret b' ∧ holds b' (BUCKET_HEADER_SIZE + i * ENTRY_SIZE) (entry_bytes e) ∧
    zlen b' = zlen b ∧
    ∀ off x, holds b off x →
      off + zlen x ≤ BUCKET_HEADER_SIZE + i * ENTRY_SIZE ∨ BUCKET_HEADER_SIZE + i * ENTRY_SIZE + ENTRY_SIZE ≤ off →
      holds b' off x.
Proof.
  intros Hl Hi Hb. unfold write_entry_at. rewrite entry_to_bytes. cbn [mbind option_bind].
  destruct (copy_from_slice_spec b (BUCKET_HEADER_SIZE + i * ENTRY_SIZE) (entry_bytes e)) as (b' & Hw & Hl' & Hh & Hk).
  - unfold BUCKET_HEADER_SIZE, ENTRY_SIZE. lia.
  - rewrite zlen_entry_bytes. lia.
  - rewrite zlen_entry_bytes in *. by exists b'.
Qed.

Lemma directory_update b b' es i e :
  directory b es →
  holds b' (BUCKET_HEADER_SIZE + Z.of_nat i * ENTRY_SIZE) (entry_bytes e) →
  (∀ off x, holds b off x →
    off + zlen x ≤ BUCKET_HEADER_SIZE + Z.of_nat i * ENTRY_SIZE ∨ BUCKET_HEADER_SIZE + Z.of_nat i * ENTRY_SIZE + ENTRY_SIZE ≤ off →
    holds b' off x) →
  directory b' (<[i := e]> es).
Proof.
  intros Hd He Hk j e' [(-> & -> & _)|[Hne Hj]]%list_lookup_insert_Some; [done|].
  apply Hk; [by apply Hd|]. rewrite zlen_entry_bytes. unfold ENTRY_SIZE. lia.
Qed.

(** Making room for an entry at position [p] *)
Lemma shift_up_spec b es p :
  zlen b = BUCKET_PAGE_SIZE → directory b es → (p ≤ length es)%nat →
  BUCKET_HEADER_SIZE + zlen es * ENTRY_SIZE + ENTRY_SIZE ≤ BUCKET_PAGE_SIZE →
  ∃ b', (if Z.of_nat p <? zlen es
      then copy_within b (BUCKET_HEADER_SIZE + Z.of_nat p * ENTRY_SIZE) (BUCKET_HEADER_SIZE + zlen es * ENTRY_SIZE)
             (BUCKET_HEADER_SIZE + Z.of_nat p * ENTRY_SIZE + ENTRY_SIZE)
      else Ret b) = Ret b' ∧
    (∀ i e, es !! i = Some e → (i < p)%nat → holds b' (BUCKET_HEADER_SIZE + Z.of_nat i * ENTRY_SIZE) (entry_bytes e)) ∧
    (∀ i e, es !! i = Some e → (p ≤ i)%nat → holds b' (BUCKET_HEADER_SIZE + Z.of_nat (S i) * ENTRY_SIZE) (entry_bytes e)) ∧
    keeps (BUCKET_HEADER_SIZE + zlen es * ENTRY_SIZE + ENTRY_SIZE) b b'.
Proof.
  intros Hl Hd Hp Hend.
  assert (∀ i e, es !! i = Some e → (i < length es)%nat ∧ zlen (entry_bytes e) = 8) as Hlen.
  { intros i e Hi. split; [by eapply lookup_lt_Some|apply zlen_entry_bytes]. }
  destruct (Z.ltb_spec (Z.of_nat p) (zlen es)) as [Hlt|Hge].
  - destruct (copy_within_spec b (BUCKET_HEADER_SIZE + Z.of_nat p * ENTRY_SIZE) (BUCKET_HEADER_SIZE + zlen es * ENTRY_SIZE)
      (BUCKET_HEADER_SIZE + Z.of_nat p * ENTRY_SIZE + ENTRY_SIZE)) as (b1 & Hw & Hl1 & Hmove & Hout);
      unfold BUCKET_HEADER_SIZE, ENTRY_SIZE in *; [lia..|].
    exists b1. split; [done|]. split_and!.
    + intros i e Hi Hip. apply Hout; [by apply Hd|]. destruct (Hlen i e Hi) as [_ ->]. lia.
    + intros i e Hi Hip. destruct (Hlen i e Hi) as [Hlt' Hle].
      replace (32 + Z.of_nat (S i) * 8) with (32 + Z.of_nat i * 8 - (32 + Z.of_nat p * 8) + (32 + Z.of_nat p * 8 + 8)) by lia.
      apply Hmove; [by apply Hd|lia|]. rewrite Hle. unfold zlen. lia.
    + split; [lia|]. intros off x Hx Ho. apply Hout; [done|]. right. lia.
  - exists b. split_and!; [done|intros i e Hi _; by apply Hd| |done].
    intros i e Hi. destruct (Hlen i e Hi). unfold zlen in Hge. lia.
Qed.

Lemma insert_entry_at_spec b h es p e :
  zlen b = BUCKET_PAGE_SIZE → read_header b = Ret h → entry_count h = zlen es → directory b es →
  (p ≤ length es)%nat → directory_end h + ENTRY_SIZE ≤ BUCKET_PAGE_SIZE →
  ∃ b', insert_entry_at b (Z.of_nat p) e = Ret b' ∧ directory b' (insert_at p e es) ∧
    keeps (directory_end h + ENTRY_SIZE) b b'.
Proof.
  intros Hl Hh Hc Hd Hp Hend. unfold insert_entry_at, directory_end in *. rewrite Hh. cbn [mbind option_bind]. cbv zeta.
  rewrite Hc in Hend |- *. destruct (shift_up_spec b es p Hl Hd Hp Hend) as (b1 & E & Hlo & Hhi & Hl1 & Hk1).
  unfold StringBucket in *. rewrite E. cbn [mbind option_bind].
  destruct (write_entry_at_spec b1 (Z.of_nat p) e) as (b2 & Hw & He & Hl2 & Hk2);
    [congruence|lia|unfold ENTRY_SIZE, zlen in *; lia|].
  exists b2. split; [done|]. split.
  - intros j e' [[Hj He']|[[-> ->]|(i & Hpi & -> & Hi)]]%insert_at_lookup; [|done| |done].
    + apply Hk2; [by apply Hlo|]. left. rewrite zlen_entry_bytes. unfold ENTRY_SIZE. lia.
    + apply Hk2; [by apply Hhi|]. right. unfold ENTRY_SIZE. lia.
  - split; [congruence|]. intros off x Hx Ho. apply Hk2; [by apply Hk1|]. right. unfold ENTRY_SIZE, zlen in *. lia.
Qed.

(** ** Keeping the invariant *)

Lemma items_kept start b b' es items :
  keeps start b b' → Forall (entry_ok start) es → Forall2 (item_at b) es items → Forall2 (item_at b') es items.
Proof.
  intros [_ Hk] Hes Hit. induction Hit as [|e it es items He _ IH]; [constructor|].
  apply Forall_cons in Hes as [Hok Hes]. constructor; [|by apply IH].
  destruct He as (H1 & H2 & H3 & H4), Hok as (_ & Hs & _ & Hv). split_and!; [done|by apply Hk|done|].
  intros Hne. apply Hk; [by apply H4|]. apply Hv. rewrite H3. destruct (it.2); [done|zlen_lia].
Qed.

Lemma entry_ok_weaken lo lo' es : lo' ≤ lo → Forall (entry_ok lo) es → Forall (entry_ok lo') es.
Proof.
  intros Hle Hes. eapply Forall_impl; [exact Hes|]. intros e (? & ? & ? & Hv). split_and!; [done|lia|done|].
  intros Hl. specialize (Hv Hl). lia.
Qed.

Lemma items_size_perm l k : l ≡ₚ k → items_size l = items_size k.
Proof. unfold items_size. intros H. induction H; cbn; lia. Qed.

Lemma items_size_nonneg l : 0 ≤ items_size l.
Proof. unfold items_size. induction l as [|it l IH]; cbn; [done|]. zlen_lia. Qed.

Lemma insert_at_sorted items s v p :
  StronglySorted before items.*1 → belongs (items := items) s p → StronglySorted before (insert_at p (s, v) items).*1.
Proof.
  intros Hs (Hp & Hlo & Hhi). unfold insert_at. rewrite fmap_app, fmap_cons, fmap_take, fmap_drop.
  assert (∀ x, x ∈ take p items.*1 → before x s) as Hb.
  { intros x (i & Hi & Hlt)%elem_of_take. rewrite list_lookup_fmap in Hi.
    destruct (items !! i) as [it|] eqn:E; [|done]. injection Hi as <-. by apply (Hlo i). }
  assert (∀ x, x ∈ drop p items.*1 → before s x) as Ha.
  { intros x (i & Hi)%list_elem_of_lookup. rewrite lookup_drop, list_lookup_fmap in Hi.
    destruct (items !! (p + i)%nat) as [it|] eqn:E; [|done]. injection Hi as <-. apply (Hhi (p + i)%nat); [done|lia]. }
  apply StronglySorted_app. split_and!.
  - intros x y Hx [->|Hy]%elem_of_cons; [by apply Hb|]. transitivity s; [by apply Hb|by apply Ha].
  - rewrite <-(take_drop p items.*1) in Hs. by apply StronglySorted_app in Hs as (_ & ? & _).
  - constructor; [|by apply Forall_forall].
    rewrite <-(take_drop p items.*1) in Hs. by apply StronglySorted_app in Hs as (_ & _ & ?).
Qed.

(** The regions of an entry at the bottom of the data area are apart from those of
    the others. *)
Lemma below_apart start e e' :
  entry_ok start e' → suffix_offset e + suffix_len e ≤ start → value_offset e + value_len e ≤ start →
  apart (value_offset e) (value_len e) (suffix_offset e') (suffix_len e') ∧
  apart (value_offset e') (value_len e') (suffix_offset e) (suffix_len e) ∧
  apart (value_offset e) (value_len e) (value_offset e') (value_len e') ∧
  apart (value_offset e') (value_len e') (value_offset e) (value_len e).
Proof.
  intros ((H1 & H2 & H3 & H4) & Hs & _ & Hv) Hes Hev. unfold is_u16, apart in *.
  destruct (decide (value_len e' = 0)); [lia|]. assert (start ≤ value_offset e') by (apply Hv; lia). lia.
Qed.

Lemma inv_insert b h es items b' h' e p s v :
  bucket_inv b h es items → belongs (items := items) s p →
  keeps (data_start h) b b' → holds b' 0 (header_bytes h') → header_ok h' → entry_count h' = zlen es + 1 →
  directory b' (insert_at p e es) → item_at b' e (s, v) →
  data_start h' = data_start h - zlen s - zlen v →
  entry_ok (data_start h') e → suffix_offset e + suffix_len e ≤ data_start h → value_offset e + value_len e ≤ data_start h →
  apart (value_offset e) (value_len e) (suffix_offset e) (suffix_len e) →
  bucket_inv b' h' (insert_at p e es) (insert_at p (s, v) items).
Proof.
  intros Hinv Hbel Hk Hh Hok Hc Hd Hat Hstart Hentry Hsuf Hval Hown.
  pose proof (length_items Hinv) as Hlen. pose proof Hbel as (Hp & _).
  pose proof (λ i e' Hi, below_apart (data_start h) e e'
    (Forall_lookup_1 _ _ i e' (inv_entries _ _ _ _ Hinv) Hi) Hsuf Hval) as Hes.
  split.
  - destruct Hk as [-> _]. apply Hinv.
  - done.
  - done.
  - rewrite Hc. unfold zlen. rewrite (Permutation_length (insert_at_perm p e es)). cbn. lia.
  - exact Hd.
  - rewrite insert_at_perm. constructor; [done|]. apply (entry_ok_weaken (data_start h)); [zlen_lia|apply Hinv].
  - apply insert_at_Forall2; [|done]. apply (items_kept (data_start h) b); [done|apply Hinv..].
  - intros i j a a' Ha Ha'. apply insert_at_lookup in Ha, Ha'; [|lia..].
    destruct Ha as [[_ Ha]|[[_ ->]|(i' & _ & _ & Ha)]], Ha' as [[_ Ha']|[[_ ->]|(j' & _ & _ & Ha')]];
      first [solve [eapply (inv_suffixes_apart _ _ _ _ Hinv); eassumption]|exact Hown|eapply Hes; eassumption].
  - intros i j a a' Ha Ha' Hij. apply insert_at_lookup in Ha, Ha'; [|lia..].
    destruct Ha as [[? Ha]|[[-> ->]|(i' & ? & -> & Ha)]], Ha' as [[? Ha']|[[-> ->]|(j' & ? & -> & Ha')]];
      first [solve [eapply (inv_values_apart _ _ _ _ Hinv); [eassumption|eassumption|lia]]|done|eapply Hes; eassumption].
  - rewrite (items_size_perm _ _ (insert_at_perm p (s, v) items)). cbn. fold (items_size items).
    pose proof (inv_size _ _ _ _ Hinv). lia.
  - apply insert_at_sorted; [apply Hinv|done].
Qed.

(** ** Insertion *)

Lemma lor_u16 a c : is_u16 a → is_u16 c → is_u16 (Z.lor a c).
Proof.
  unfold is_u16. intros Ha Hc. split; [apply Z.lor_nonneg; lia|].
  destruct (Z.eq_dec (Z.lor a c) 0) as [->|Hne]; [lia|].
  assert (0 ≤ Z.lor a c) by (apply Z.lor_nonneg; lia). apply Z.log2_lt_pow2; [lia|]. rewrite Z.log2_lor by lia.
  apply Z.max_lub_lt; (apply Z.le_lt_trans with (Z.log2 (2 ^ 16 - 1)); [apply Z.log2_le_mono; lia|done]).
Qed.

Definition item_cost (s v : list Z) : Z := ENTRY_SIZE + zlen s + zlen v.

(** The value the model stores for an optional argument *)
Definition given (value : option (list Z)) : list Z := default [] value.

Lemma given_len (value : option (list Z)) :
  match value with Some v => zlen v | None => 0 end = zlen (given value).
Proof. by destruct value. Qed.

(** The suffix and the value are written into the gap. *)
Lemma write_item_spec b ns s value :
  0 ≤ ns → ns + zlen s + zlen (given value) ≤ zlen b → zlen b = BUCKET_PAGE_SIZE →
  ∃ b1 b2, copy_from_slice b ns (ns + zlen s) s = Ret b1 ∧
    (match value with
     | Some v =>
         b' ← copy_from_slice b1 (ns + zlen s) (ns + zlen s + zlen (given value)) v; Ret (b', u16 (ns + zlen s))
     | None => Ret (b1, 0)
     end) = Ret (b2, match value with Some _ => ns + zlen s | None => 0 end) ∧
    zlen b2 = zlen b ∧ holds b2 ns s ∧ holds b2 (ns + zlen s) (given value) ∧
    (∀ off x, holds b off x → off + zlen x ≤ ns ∨ ns + zlen s + zlen (given value) ≤ off → holds b2 off x).
Proof.
  intros Hns Hlen Hb. destruct (copy_from_slice_spec b ns s) as (b1 & Hw1 & Hl1 & Hs1 & Hk1); [done|zlen_lia|].
  destruct value as [v|]; [change (given (Some v)) with v in *|change (given None) with (@nil Z) in *].
  - destruct (copy_from_slice_spec b1 (ns + zlen s) v) as (b2 & Hw2 & Hl2 & Hv2 & Hk2); [zlen_lia|lia|].
    exists b1, b2. rewrite Hw2. cbn. rewrite u16_id by (unfold is_u16, BUCKET_PAGE_SIZE in *; zlen_lia).
    split_and!; [done|done|congruence| |done|].
    + apply Hk2; [done|]. lia.
    + intros off x Hx Ho. apply Hk2; [apply Hk1; [done|]|]; zlen_lia.
  - exists b1, b1. split_and!; [done..| |].
    + apply holds_nil. zlen_lia.
    + intros off x Hx Ho. apply Hk1; [done|]. zlen_lia.
Qed.

(** What an insertion of a new item leaves, by the space and the entries there are *)
Definition inserted (b : StringBucket) (h : BucketHeader) (items : list (list Z * list Z)) (p : nat) (s v : list Z)
    (b' : StringBucket) (r : result bool BucketError) : Prop :=
  if available_space h <? item_cost s v
  then b' = b ∧ r = Err (InsufficientSpace (item_cost s v) (available_space h))
  else if MAX_BUCKET_ENTRIES <=? entry_count h then b' = b ∧ r = Err BucketFull
  else r = Ok true ∧ ∃ h' es', bucket_inv b' h' es' (insert_at p (s, v) items) ∧
    available_space h' = available_space h - item_cost s v ∧ entry_count h' = entry_count h + 1.

(** The page after the item, its entry and the header are written *)
Lemma insert_page b h es items p s value flags :
  bucket_inv b h es items → (p ≤ length es)%nat → item_cost s (given value) ≤ available_space h →
  let ns := data_start h - (zlen s + zlen (given value)) in
  let voff := match value with Some _ => ns + zlen s | None => 0 end in
  let e := mkStringEntry ns (zlen s) voff (zlen (given value)) in
  let h' := header_update h (entry_count h + 1) ns flags in
  ∃ b1 b2 b3 b4, copy_from_slice b ns (ns + zlen s) s = Ret b1 ∧
    (match value with
     | Some v =>
         b' ← copy_from_slice b1 (ns + zlen s) (ns + zlen s + zlen (given value)) v; Ret (b', u16 (ns + zlen s))
     | None => Ret (b1, 0)
     end) = Ret (b2, voff) ∧
    insert_entry_at b2 (Z.of_nat p) e = Ret b3 ∧ write_header b3 h' = Ret b4 ∧
    holds b4 0 (header_bytes h') ∧ directory b4 (insert_at p e es) ∧ item_at b4 e (s, given value) ∧
    keeps (data_start h) b b4.
Proof.
  intros Hinv Hp Hspace ns voff e h'. pose proof (inv_header_ok _ _ _ _ Hinv) as Hok.
  rewrite (available_eq h Hok) in Hspace. pose proof Hok as (_ & _ & _ & _ & _ & Hcn & Hst & _). unfold item_cost in Hspace.
  assert (directory_end h + ENTRY_SIZE ≤ ns ∧ ns + zlen s + zlen (given value) = data_start h) as [Hns Hns'] by (unfold ns; lia).
  assert (40 ≤ directory_end h + ENTRY_SIZE) as Hde by (unfold directory_end, BUCKET_HEADER_SIZE, ENTRY_SIZE; lia).
  destruct (write_item_spec b ns s value) as (b1 & b2 & E1 & E2 & Hl2 & Hs2 & Hv2 & Hk2);
    [lia|rewrite (inv_len _ _ _ _ Hinv); lia|apply Hinv|].
  rewrite (inv_len _ _ _ _ Hinv) in Hl2.
  destruct (insert_entry_at_spec b2 h es p e) as (b3 & E3 & Hd3 & Hk3); [done| |apply Hinv| |done|zlen_lia|].
  { apply read_header_holds; [by apply header_ok_fits|]. apply Hk2; [apply Hinv|]. rewrite zlen_header_bytes. lia. }
  { intros i e' Hi. apply Hk2; [by apply Hinv|]. left. rewrite zlen_entry_bytes. apply lookup_lt_Some in Hi.
    unfold directory_end in Hns. rewrite (inv_count _ _ _ _ Hinv) in Hns. unfold ENTRY_SIZE, zlen in *. lia. }
  destruct (write_header_keeps b3 h') as (b4 & E4 & Hh4 & Hk4); [by destruct Hk3 as [-> _]|].
  assert (keeps (directory_end h + ENTRY_SIZE) b2 b4) as Hk24.
  { eapply keeps_trans; [done|]. eapply keeps_weaken; [|done]. unfold BUCKET_HEADER_SIZE. lia. }
  exists b1, b2, b3, b4. split_and!; try done.
  - eapply keeps_directory; [exact Hk4|done|done].
  - split; [done|]. split; [apply Hk24; [done|cbn; lia]|]. split; [done|]. cbn. intros Hne.
    destruct value; [|done]. apply Hk24; [done|zlen_lia].
  - split; [destruct Hk24 as [-> _]; by rewrite (inv_len _ _ _ _ Hinv)|].
    intros off x Hx Ho. apply Hk24; [|zlen_lia]. apply Hk2; [done|lia].
Qed.

Lemma insert_new_inv b h es items p s value :
  bucket_inv b h es items → belongs (items := items) s p →
  ∃ b' r, insert_new b h (Z.of_nat p) s value = Ret (b', r) ∧ inserted b h items p s (given value) b' r.
Proof.
  intros Hinv Hbel. unfold insert_new, inserted. rewrite given_len. cbv zeta.
  assert (ENTRY_SIZE + (zlen s + zlen (given value)) = item_cost s (given value)) as -> by (unfold item_cost; lia).
  destruct (Z.ltb_spec (available_space h) (item_cost s (given value))) as [|Hspace]; [eauto|].
  destruct (Z.leb_spec MAX_BUCKET_ENTRIES (entry_count h)) as [|Hcount]; [eauto|].
  set (flags := match value with Some _ => Z.lor _ _ | None => _ end).
  destruct (insert_page b h es items p s value flags) as (b1 & b2 & b3 & b4 & E1 & E2 & E3 & E4 & Hh & Hd & Hat & Hk);
    [done|rewrite <-(length_items Hinv); apply Hbel|done|].
  pose proof (inv_header_ok _ _ _ _ Hinv) as Hok. rewrite (available_eq h Hok) in *. unfold item_cost in *.
  pose proof Hok as (_ & _ & Hf & _ & _ & Hcn & Hst & _).
  set (ns := data_start h - (zlen s + zlen (given value))) in *.
  assert (directory_end h + ENTRY_SIZE ≤ ns ∧ ns + zlen s + zlen (given value) = data_start h ∧ 32 ≤ directory_end h) as (Hns & Hns' & Hde).
  { unfold ns, directory_end, BUCKET_HEADER_SIZE, ENTRY_SIZE in *. zlen_lia. }
  assert (is_u16 ns ∧ is_u16 (zlen s) ∧ is_u16 (zlen (given value)) ∧ is_u32 ns ∧ is_u16 (entry_count h + 1) ∧ is_u16 (ns + zlen s))
    as (U1 & U2 & U3 & U4 & U5 & U6).
  { unfold is_u16, is_u32, BUCKET_PAGE_SIZE, MAX_BUCKET_ENTRIES, ENTRY_SIZE in *. zlen_lia. }
  unfold StringBucket in *. rewrite E1. cbn [mbind option_bind]. rewrite E2. cbn [mbind option_bind].
  rewrite (u16_id ns), (u16_id (zlen s)), (u16_id (zlen (given value))), (u16_id (entry_count h + 1)), (u32_id ns) by done.
  rewrite E3. cbn [mbind option_bind]. rewrite E4. cbn [mbind option_bind]. eexists _, _. split; [done|]. split; [done|].
  assert (header_ok (header_update h (entry_count h + 1) ns flags)) as Hok'.
  { apply header_update_ok; [done|lia|unfold directory_end, ENTRY_SIZE in *; zlen_lia|].
    unfold flags. destruct value; [by apply lor_u16|done]. }
  set (voff := match value with Some _ => ns + zlen s | None => 0 end) in *.
  assert (0 ≤ voff ≤ ns + zlen s ∧ (zlen (given value) = 0 ∨ voff = ns + zlen s)) as Hvoff.
  { unfold voff, ENTRY_SIZE in *. destruct value; [|split; [|by left]]; zlen_lia. }
  clearbody voff. clear E1 E2 E3 E4. unfold ENTRY_SIZE in *.
  eexists _, _. split.
  - eapply (inv_insert b h); try done; cbn.
    + by rewrite (inv_count _ _ _ _ Hinv).
    + lia.
    + unfold entry_ok, entry_fits; split_and!; cbn; unfold is_u16, BUCKET_PAGE_SIZE in *; zlen_lia.
    + zlen_lia.
    + zlen_lia.
    + unfold apart. zlen_lia.
  - rewrite (available_eq _ Hok'). split; [|done]. unfold directory_end, ENTRY_SIZE in *. cbn. lia.
Qed.

(** ** Changing a value *)

Lemma items_size_update items i s v v' :
  items !! i = Some (s, v) → items_size (<[i := (s, v')]> items) = items_size items - zlen v + zlen v'.
Proof.
  unfold items_size. revert i. induction items as [|it items IH]; intros [|i] Hi; [done|done| |].
  - injection Hi as ->. cbn. lia.
  - change (<[S i := (s, v')]> (it :: items)) with (it :: <[i := (s, v')]> items). cbn [foldr]. rewrite (IH i Hi). lia.
Qed.

Lemma fst_update (items : list (list Z * list Z)) i s v v' :
  items !! i = Some (s, v) → (<[i := (s, v')]> items).*1 = items.*1.
Proof.
  intros Hi. rewrite list_fmap_insert. apply list_insert_id. by rewrite list_lookup_fmap, Hi.
Qed.

Lemma inv_update b h es items b' h' i e e' s v v' :
  bucket_inv b h es items → es !! i = Some e → items !! i = Some (s, v) →
  zlen b' = zlen b → holds b' 0 (header_bytes h') → header_ok h' → entry_count h' = entry_count h →
  data_start h' ≤ data_start h → directory b' (<[i := e']> es) →
  (∀ j ej it, es !! j = Some ej → items !! j = Some it → i ≠ j → item_at b' ej it) → item_at b' e' (s, v') →
  suffix_offset e' = suffix_offset e → suffix_len e' = suffix_len e → entry_ok (data_start h') e' →
  (∀ j ej, es !! j = Some ej → apart (value_offset e') (value_len e') (suffix_offset ej) (suffix_len ej) ∧
    (i ≠ j → apart (value_offset e') (value_len e') (value_offset ej) (value_len ej))) →
  zlen v' - zlen v ≤ data_start h - data_start h' →
  bucket_inv b' h' (<[i := e']> es) (<[i := (s, v')]> items).
Proof.
  intros Hinv He Hi Hl Hh Hok Hc Hst Hd Hother Hat Hso Hsl Hentry Hap Hsz. split.
  - rewrite Hl. apply Hinv.
  - done.
  - done.
  - unfold zlen. rewrite length_insert. rewrite Hc. apply Hinv.
  - exact Hd.
  - apply Forall_insert; [|done]. apply (entry_ok_weaken (data_start h)); [done|apply Hinv].
  - apply Forall2_same_length_lookup_2; [rewrite !length_insert; symmetry; apply (length_items Hinv)|].
    intros j ej it [(-> & -> & _)|[Hne Hj]]%list_lookup_insert_Some.
    + rewrite list_lookup_insert_eq by (by eapply lookup_lt_Some). by intros [= <-].
    + rewrite list_lookup_insert_ne by done. intros Hit. by apply (Hother j).
  - intros j k a a' Ha Ha'.
    assert (∃ a0, es !! k = Some a0 ∧ suffix_offset a' = suffix_offset a0 ∧ suffix_len a' = suffix_len a0) as (a0 & Hk & -> & ->).
    { apply list_lookup_insert_Some in Ha' as [(-> & -> & _)|[_ Ha']]; eauto. }
    apply list_lookup_insert_Some in Ha as [(-> & -> & _)|[_ Ha]]; [by eapply Hap|].
    by eapply (inv_suffixes_apart _ _ _ _ Hinv).
  - intros j k a a' [(-> & -> & _)|[Hj Ha]]%list_lookup_insert_Some [(-> & -> & _)|[Hk Ha']]%list_lookup_insert_Some Hjk.
    + done.
    + by apply (Hap k).
    + destruct (Hap j a Ha) as [_ Hx]. specialize (Hx Hj). unfold apart in *. tauto.
    + by eapply (inv_values_apart _ _ _ _ Hinv j k).
  - rewrite (items_size_update items i s v v' Hi). pose proof (inv_size _ _ _ _ Hinv). lia.
  - rewrite (fst_update items i s v v' Hi). apply Hinv.
Qed.

(** What changing the value of an item leaves *)
Definition updated (b : StringBucket) (h : BucketHeader) (items : list (list Z * list Z)) (i : nat) (s v v' : list Z)
    (b' : StringBucket) (r : result unit BucketError) : Prop :=
  if (zlen v <? zlen v') && (available_space h <? zlen v')
  then b' = b ∧ r = Err (InsufficientSpace (zlen v') (available_space h))
  else r = Ok () ∧ ∃ h' es', bucket_inv b' h' es' (<[i := (s, v')]> items).

Lemma copy_nil {A} (b : list A) a : 0 ≤ a ≤ zlen b → copy_from_slice b a (a + 0) [] = Ret b.
Proof.
  intros Ha. unfold copy_from_slice. rewrite decide_True by zlen_lia. rewrite Z.add_0_r. cbn.
  by rewrite take_drop.
Qed.

Lemma apart_sub o l o' l' l2 : apart o l o' l' → 0 ≤ l2 ≤ l → apart o l2 o' l'.
Proof. unfold apart. lia. Qed.

(** A write over the old value keeps the regions apart from it. *)
Lemma overwrite_value (b : StringBucket) (o l : Z) (v : list Z) :
  zlen b = BUCKET_PAGE_SIZE → 0 ≤ o ≤ BUCKET_PAGE_SIZE → (0 < l → o + l ≤ BUCKET_PAGE_SIZE) → zlen v ≤ l →
  ∃ b', copy_from_slice b o (o + zlen v) v = Ret b' ∧ zlen b' = zlen b ∧ (v ≠ [] → holds b' o v) ∧
    ∀ off x, holds b off x → x = [] ∨ apart o l off (zlen x) → holds b' off x.
Proof.
  intros Hb Ho Hl Hv. destruct v as [|z v].
  - exists b. split; [apply copy_nil; lia|]. done.
  - destruct (copy_from_slice_spec b o (z :: v)) as (b' & Hw & Hl' & Hh & Hk); [lia|zlen_lia|].
    exists b'. split_and!; [done..|]. intros off x Hx Hap. destruct x as [|y x].
    + pose proof (holds_bound _ _ _ Hx). apply holds_nil. zlen_lia.
    + apply Hk; [done|]. destruct Hap as [?|Hap]; [done|]. unfold apart in Hap. zlen_lia.
Qed.

Lemma update_in_place b h es items i e s v v' :
  bucket_inv b h es items → es !! i = Some e → items !! i = Some (s, v) → zlen v' ≤ zlen v →
  ∃ b' b'' es', copy_from_slice b (value_offset e) (value_offset e + zlen v') v' = Ret b' ∧
    write_entry_at b' (Z.of_nat i) (mkStringEntry (suffix_offset e) (suffix_len e) (value_offset e) (zlen v')) = Ret b'' ∧
    bucket_inv b'' h es' (<[i := (s, v')]> items).
Proof.
  intros Hinv He Hi Hle. pose proof (Forall2_lookup_lr _ _ _ _ _ _ (inv_items _ _ _ _ Hinv) He Hi) as (Hsl & Hsh & Hvl & Hvh).
  pose proof (Forall_lookup_1 _ _ _ _ (inv_entries _ _ _ _ Hinv) He) as Hok. cbn in Hsl, Hsh, Hvl, Hvh.
  pose proof Hok as ((F1 & F2 & F3 & F4) & Hs & Hvo & Hv). unfold is_u16 in F3, F4.
  pose proof (inv_header_ok _ _ _ _ Hinv) as (_ & _ & _ & _ & _ & Hcn & Hst & _).
  pose proof (lookup_lt_Some _ _ _ He) as Hlt.
  assert (BUCKET_HEADER_SIZE + Z.of_nat i * ENTRY_SIZE + ENTRY_SIZE ≤ directory_end h) as Hde.
  { unfold directory_end. rewrite (inv_count _ _ _ _ Hinv). unfold ENTRY_SIZE, zlen. lia. }
  destruct (overwrite_value b (value_offset e) (value_len e) v') as (b1 & E1 & Hl1 & Hv1 & Hk1); [apply Hinv|lia| |lia|].
  { intros Hpos. rewrite <-(inv_len _ _ _ _ Hinv), Hvl. apply holds_bound, Hvh. intros ->. unfold zlen in Hvl. cbn in Hvl. lia. }
  assert (∀ off x, holds b off x → off + zlen x ≤ data_start h → holds b1 off x) as Hlow.
  { intros off x Hx Ho. apply Hk1; [done|]. right. unfold apart. lia. }
  set (e' := mkStringEntry (suffix_offset e) (suffix_len e) (value_offset e) (zlen v')).
  destruct (write_entry_at_spec b1 (Z.of_nat i) e') as (b2 & E2 & He2 & Hl2 & Hk2);
    [by rewrite Hl1, (inv_len _ _ _ _ Hinv)|lia|lia|].
  exists b1, b2, (<[i := e']> es). split; [done|]. split; [done|].
  assert (∀ off x, holds b off x → data_start h ≤ off → x = [] ∨ apart (value_offset e) (value_len e) off (zlen x) → holds b2 off x) as Hhigh.
  { intros off x Hx Ho Hap. apply Hk2; [by apply Hk1|]. right. lia. }
  assert (∀ j ej it, es !! j = Some ej → items !! j = Some it → holds b2 (suffix_offset ej) it.1) as Hsuf.
  { intros j ej it Hj Hit. pose proof (Forall2_lookup_lr _ _ _ _ _ _ (inv_items _ _ _ _ Hinv) Hj Hit) as (L & S' & _).
    apply Hhigh; [done|apply (Forall_lookup_1 _ _ _ _ (inv_entries _ _ _ _ Hinv) Hj)|]. right. rewrite <-L.
    by apply (inv_suffixes_apart _ _ _ _ Hinv i j). }
  apply (inv_update b h es items b2 h i e e' s v v' Hinv He Hi); try done.
  - congruence.
  - apply Hk2; [apply Hlow; [apply Hinv|]|]; rewrite zlen_header_bytes; unfold directory_end, BUCKET_HEADER_SIZE, ENTRY_SIZE in *; lia.
  - apply (inv_header_ok _ _ _ _ Hinv).
  - apply (directory_update b1); [|done|done]. intros j ej Hj. apply Hlow; [by apply Hinv|].
    rewrite zlen_entry_bytes. apply lookup_lt_Some in Hj. unfold directory_end in Hst. rewrite (inv_count _ _ _ _ Hinv) in Hst.
    unfold ENTRY_SIZE, zlen in *. lia.
  - intros j ej it Hj Hit Hne.
    pose proof (Forall2_lookup_lr _ _ _ _ _ _ (inv_items _ _ _ _ Hinv) Hj Hit) as (L1 & L2 & L3 & L4).
    split_and!; [done|by apply (Hsuf j)|done|]. intros Hnil. apply Hhigh; [by apply L4| |].
    + apply (Forall_lookup_1 _ _ _ _ (inv_entries _ _ _ _ Hinv) Hj). rewrite L3. destruct it.2; [done|zlen_lia].
    + right. rewrite <-L3. by apply (inv_values_apart _ _ _ _ Hinv i j).
  - split_and!; [done|by apply (Hsuf i e (s, v))|done|]. cbn. intros Hne. apply Hk2; [by apply Hv1|]. right.
    assert (0 < value_len e) by (rewrite Hvl; destruct v'; [done|zlen_lia]). specialize (Hv ltac:(lia)). lia.
  - unfold entry_ok, entry_fits, is_u16 in *. cbn. split_and!; zlen_lia.
  - intros j ej Hj. split; [|intros Hne]; (apply (apart_sub _ (value_len e)); [|cbn; zlen_lia]).
    + by apply (inv_suffixes_apart _ _ _ _ Hinv i j e ej).
    + by apply (inv_values_apart _ _ _ _ Hinv i j e ej).
  - lia.
Qed.

Lemma update_elsewhere b h es items i e s v v' :
  bucket_inv b h es items → es !! i = Some e → items !! i = Some (s, v) → zlen v < zlen v' →
  zlen v' ≤ available_space h →
  let no := data_start h - zlen v' in
  let e' := mkStringEntry (suffix_offset e) (suffix_len e) no (zlen v') in
  let h' := header_update h (entry_count h) no (b_flags h) in
  ∃ b1 b2 b3, copy_from_slice b no (no + zlen v') v' = Ret b1 ∧ write_entry_at b1 (Z.of_nat i) e' = Ret b2 ∧
    write_header b2 h' = Ret b3 ∧ bucket_inv b3 h' (<[i := e']> es) (<[i := (s, v')]> items).
Proof.
  intros Hinv He Hi Hlt Hspace no e' h'.
  pose proof (Forall2_lookup_lr _ _ _ _ _ _ (inv_items _ _ _ _ Hinv) He Hi) as (Hsl & Hsh & Hvl & Hvh). cbn in Hsl, Hsh, Hvl, Hvh.
  pose proof (Forall_lookup_1 _ _ _ _ (inv_entries _ _ _ _ Hinv) He) as ((F1 & F2 & F3 & F4) & Hs & Hvo & Hv).
  pose proof (inv_header_ok _ _ _ _ Hinv) as Hok. rewrite (available_eq h Hok) in Hspace.
  pose proof Hok as (_ & _ & Hfl & _ & _ & Hcn & Hst & _). pose proof (inv_len _ _ _ _ Hinv) as Hbl.
  pose proof (lookup_lt_Some _ _ _ He) as Hlt'.
  assert (BUCKET_HEADER_SIZE + Z.of_nat i * ENTRY_SIZE + ENTRY_SIZE ≤ directory_end h) as Hde.
  { unfold directory_end. rewrite (inv_count _ _ _ _ Hinv). unfold ENTRY_SIZE, zlen. lia. }
  assert (32 ≤ directory_end h) as Hde' by (unfold directory_end, BUCKET_HEADER_SIZE, ENTRY_SIZE; lia).
  destruct (copy_from_slice_spec b no v') as (b1 & E1 & Hl1 & Hh1 & Hk1); [unfold no; lia|unfold no; lia|].
  destruct (write_entry_at_spec b1 (Z.of_nat i) e') as (b2 & E2 & He2 & Hl2 & Hk2); [congruence|lia|lia|].
  destruct (write_header_keeps b2 h') as (b3 & E3 & Hh3 & Hk3); [congruence|].
  assert (∀ off x, holds b1 off x → directory_end h ≤ off → holds b3 off x) as Hk13.
  { intros off x Hx Ho. apply Hk3; [|unfold BUCKET_HEADER_SIZE; lia]. apply Hk2; [done|lia]. }
  assert (keeps (data_start h) b b3) as Hk.
  { split; [destruct Hk3 as [-> _]; congruence|]. intros off x Hx Ho. apply Hk13; [|lia]. apply Hk1; [done|]. unfold no. lia. }
  pose proof (items_kept _ _ _ _ _ Hk (inv_entries _ _ _ _ Hinv) (inv_items _ _ _ _ Hinv)) as Hitems.
  exists b1, b2, b3. split_and!; [done..|].
  apply (inv_update b h es items b3 h' i e e' s v v' Hinv He Hi); try done.
  - apply Hk.
  - apply header_update_ok; [done|done| |done]. unfold directory_end, no in *. zlen_lia.
  - cbn. unfold no. zlen_lia.
  - eapply keeps_directory; [exact Hk3|done|]. apply (directory_update b1); [|done|done].
    intros j ej Hj. apply Hk1; [by apply Hinv|]. left. rewrite zlen_entry_bytes. apply lookup_lt_Some in Hj.
    unfold directory_end, no in *. rewrite (inv_count _ _ _ _ Hinv) in Hspace. unfold ENTRY_SIZE, zlen in *. lia.
  - intros j ej it Hj Hit _. by apply (Forall2_lookup_lr _ _ _ _ _ _ Hitems Hj Hit).
  - pose proof (Forall2_lookup_lr _ _ _ _ _ _ Hitems He Hi) as (_ & Hs' & _).
    split_and!; [done|done|done|]. intros _. apply Hk13; [done|]. cbn. unfold no. lia.
  - unfold entry_ok, entry_fits, is_u16, no, BUCKET_PAGE_SIZE in *. cbn. zlen_lia.
  - intros j ej Hj. pose proof (Forall_lookup_1 _ _ _ _ (inv_entries _ _ _ _ Hinv) Hj) as ((_ & _ & _ & G4) & Gs & _ & Gv).
    unfold apart, is_u16, no in *. cbn. split; [|intros _]; lia.
  - cbn. unfold no. zlen_lia.
Qed.

Lemma update_value_at_inv b h es items i s v v' :
  bucket_inv b h es items → items !! i = Some (s, v) →
  ∃ b' r, update_value_at b (Z.of_nat i) v' = Ret (b', r) ∧ updated b h items i s v v' b' r.
Proof.
  intros Hinv Hi. destruct (entry_item Hinv i s v Hi) as (e & He & Hat).
  unfold update_value_at, updated. rewrite (get_entry_inv Hinv i e He). cbn [mbind option_bind].
  pose proof Hat as (_ & _ & Hvl & _). cbn in Hvl. rewrite Hvl.
  pose proof (inv_header_ok _ _ _ _ Hinv) as Hok. pose proof Hok as (_ & _ & _ & _ & _ & _ & Hst & _).
  assert (is_u16 (zlen v)) as Uv by (rewrite <-Hvl; by apply (Forall_lookup_1 _ _ _ _ (inv_entries _ _ _ _ Hinv) He)).
  destruct (Z.leb_spec (zlen v') (zlen v)) as [Hle|Hgt].
  - destruct (Z.ltb_spec (zlen v) (zlen v')); [lia|]. cbn [andb].
    destruct (update_in_place b h es items i e s v v' Hinv He Hi Hle) as (b1 & b2 & es' & E1 & E2 & Hinv').
    rewrite u16_id by (unfold is_u16 in *; zlen_lia). unfold StringBucket in *.
    rewrite E1. cbn [mbind option_bind]. rewrite E2. cbn [mbind option_bind]. eauto 10.
  - destruct (Z.ltb_spec (zlen v) (zlen v')); [|lia]. cbn [andb]. rewrite (read_header_inv Hinv). cbn [mbind option_bind].
    destruct (Z.ltb_spec (available_space h) (zlen v')) as [|Hspace]; [eauto|]. cbv zeta.
    destruct (update_elsewhere b h es items i e s v v' Hinv He Hi Hgt Hspace) as (b1 & b2 & b3 & E1 & E2 & E3 & Hinv').
    rewrite (available_eq h Hok) in Hspace.
    assert (0 ≤ directory_end h) by (unfold directory_end, BUCKET_HEADER_SIZE, ENTRY_SIZE; destruct Hok as (_ & _ & _ & _ & _ & ? & _); lia).
    rewrite (u16_id (zlen v')), (u16_id (data_start h - zlen v')), (u32_id (data_start h - zlen v'))
      by (unfold is_u16, is_u32, BUCKET_PAGE_SIZE in *; zlen_lia).
    unfold StringBucket in *. rewrite E1. cbn [mbind option_bind]. rewrite E2. cbn [mbind option_bind].
    rewrite E3. cbn [mbind option_bind]. eauto 10.
Qed.

(** ** Removal *)

Lemma lookup_delete_Some {A} (l : list A) i j x :
  delete i l !! j = Some x → ∃ k, l !! k = Some x ∧ k = (if decide (j < i)%nat then j else S j).
Proof.
  intros Hx. case_decide.
  - rewrite list_lookup_delete_lt in Hx by done. by exists j.
  - rewrite list_lookup_delete_ge in Hx by lia. by exists (S j).
Qed.

Lemma items_size_delete items i s v :
  items !! i = Some (s, v) → items_size (delete i items) = items_size items - zlen s - zlen v.
Proof.
  intros Hi. rewrite (items_size_perm items _ (delete_Permutation items i (s, v) Hi)). cbn. fold (items_size (delete i items)). lia.
Qed.

(** Closing the gap at position [i] *)
Lemma shift_down_spec b es i :
  zlen b = BUCKET_PAGE_SIZE → directory b es → (i < length es)%nat →
  BUCKET_HEADER_SIZE + zlen es * ENTRY_SIZE ≤ BUCKET_PAGE_SIZE →
  ∃ b', (if Z.of_nat i + 1 <? zlen es
      then copy_within b (BUCKET_HEADER_SIZE + (Z.of_nat i + 1) * ENTRY_SIZE) (BUCKET_HEADER_SIZE + zlen es * ENTRY_SIZE)
             (BUCKET_HEADER_SIZE + Z.of_nat i * ENTRY_SIZE)
      else Ret b) = Ret b' ∧ directory b' (delete i es) ∧ keeps (BUCKET_HEADER_SIZE + zlen es * ENTRY_SIZE) b b'.
Proof.
  intros Hl Hd Hi Hend.
  assert (∀ j e, es !! j = Some e → (j < length es)%nat ∧ zlen (entry_bytes e) = 8) as Hlen.
  { intros j e Hj. split; [by eapply lookup_lt_Some|apply zlen_entry_bytes]. }
  destruct (Z.ltb_spec (Z.of_nat i + 1) (zlen es)) as [Hlt|Hge].
  - destruct (copy_within_spec b (BUCKET_HEADER_SIZE + (Z.of_nat i + 1) * ENTRY_SIZE) (BUCKET_HEADER_SIZE + zlen es * ENTRY_SIZE)
      (BUCKET_HEADER_SIZE + Z.of_nat i * ENTRY_SIZE)) as (b1 & Hw & Hl1 & Hmove & Hout);
      unfold BUCKET_HEADER_SIZE, ENTRY_SIZE in *; [lia..|].
    exists b1. split; [done|]. split.
    + intros j e (k & Hk & ->)%lookup_delete_Some. destruct (Hlen _ _ Hk) as [Hlt' Hle]. unfold zlen in Hlen. case_decide.
      * apply Hout; [by apply Hd|]. rewrite Hle. unfold BUCKET_HEADER_SIZE, ENTRY_SIZE. lia.
      * unfold BUCKET_HEADER_SIZE, ENTRY_SIZE.
        replace (32 + Z.of_nat j * 8) with (32 + Z.of_nat (S j) * 8 - (32 + (Z.of_nat i + 1) * 8) + (32 + Z.of_nat i * 8)) by lia.
        apply Hmove; [by apply Hd|lia|]. rewrite Hle. unfold zlen. lia.
    + split; [lia|]. intros off x Hx Ho. apply Hout; [done|]. right. lia.
  - exists b. split; [done|]. split; [|done]. intros j e (k & Hk & ->)%lookup_delete_Some.
    destruct (Hlen _ _ Hk). case_decide; [by apply Hd|]. unfold zlen in Hge. lia.
Qed.

Lemma inv_delete b h es items b' h' i s v :
  bucket_inv b h es items → items !! i = Some (s, v) →
  keeps (data_start h) b b' → holds b' 0 (header_bytes h') → header_ok h' → entry_count h' = zlen es - 1 →
  data_start h' = data_start h → directory b' (delete i es) →
  bucket_inv b' h' (delete i es) (delete i items).
Proof.
  intros Hinv Hi Hk Hh Hok Hc Hst Hd. pose proof (lookup_lt_Some _ _ _ Hi) as Hlt. rewrite (length_items Hinv) in Hlt. split.
  - destruct Hk as [-> _]. apply Hinv.
  - done.
  - done.
  - rewrite Hc. unfold zlen. rewrite length_delete by (by apply lookup_lt_is_Some_2). lia.
  - exact Hd.
  - rewrite Hst. apply Forall_delete, Hinv.
  - apply Forall2_delete. apply (items_kept (data_start h) b); [done|apply Hinv..].
  - intros j k e e' (j' & Hj & _)%lookup_delete_Some (k' & Hk' & _)%lookup_delete_Some.
    by apply (inv_suffixes_apart _ _ _ _ Hinv j' k').
  - intros j k e e' (j' & Hj & Ej)%lookup_delete_Some (k' & Hk' & Ek)%lookup_delete_Some Hne.
    apply (inv_values_apart _ _ _ _ Hinv j' k'); [done..|]. repeat case_decide; lia.
  - rewrite (items_size_delete items i s v Hi), Hst. pose proof (inv_size _ _ _ _ Hinv). zlen_lia.
  - pose proof (inv_sorted _ _ _ _ Hinv) as Hs. rewrite <-(take_drop_middle items i (s, v) Hi) in Hs.
    rewrite delete_take_drop. rewrite !fmap_app in *. cbn in Hs. apply StronglySorted_app in Hs as (H1 & H2 & H3).
    apply StronglySorted_inv in H3 as [H3 _]. apply StronglySorted_app. split_and!; [|done..].
    intros x y Hx Hy. apply H1; [done|]. by right.
Qed.

Lemma remove_inv b h es items s :
  bucket_inv b h es items →
  ∃ b' r, bucket_remove b s = Ret (b', r) ∧
    ((∃ i v e h', items !! i = Some (s, v) ∧ es !! i = Some e ∧ r = Some e ∧
        bucket_inv b' h' (delete i es) (delete i items)) ∨
     (∃ p, belongs (items := items) s p ∧ b' = b ∧ r = None)).
Proof.
  intros Hinv. unfold bucket_remove.
  destruct (search_inv Hinv s) as (i & [[-> [v Hi]]|[-> Hbel]]); cbn [mbind option_bind]; [|eauto 10].
  destruct (entry_item Hinv i s v Hi) as (e & He & _). rewrite (get_entry_inv Hinv i e He), (read_header_inv Hinv).
  cbn [mbind option_bind]. cbv zeta. rewrite (inv_count _ _ _ _ Hinv).
  pose proof (inv_header_ok _ _ _ _ Hinv) as Hok. pose proof Hok as (_ & _ & Hf & _ & _ & Hcn & Hst & _).
  pose proof (lookup_lt_Some _ _ _ He) as Hlt. unfold directory_end in Hst. rewrite (inv_count _ _ _ _ Hinv) in Hst, Hcn.
  destruct (shift_down_spec b es i) as (b1 & E1 & Hd1 & Hk1); [apply Hinv|exact (inv_directory _ _ _ _ Hinv)|done|lia|].
  unfold StringBucket in *. rewrite E1. cbn [mbind option_bind].
  rewrite u16_id by (unfold is_u16, MAX_BUCKET_ENTRIES, zlen in *; lia). set (h' := header_update _ _ _ _).
  destruct (write_header_keeps b1 h') as (b2 & E2 & Hh2 & Hk2); [destruct Hk1 as [-> _]; apply Hinv|].
  rewrite E2. cbn [mbind option_bind]. eexists _, _. split; [done|]. left. exists i, v, e, h'. split_and!; [done..|].
  apply (inv_delete b h es items b2 h' i s v Hinv Hi); try done.
  - eapply keeps_trans; (eapply keeps_weaken; [|done]); unfold BUCKET_HEADER_SIZE, ENTRY_SIZE in *; zlen_lia.
  - apply header_update_ok; try done; unfold ENTRY_SIZE, zlen in *; lia.
  - by eapply keeps_directory.
Qed.

Lemma insert_impl_inv b h es items s value :
  bucket_inv b h es items →
  ∃ b' r, insert_impl b s value = Ret (b', r) ∧
    if (u16_MAX <? zlen s) || (u16_MAX <? zlen (given value))
    then b' = b ∧ r = Err (DataTooLarge u16_MAX (Z.max (zlen s) (zlen (given value))))
    else
      (∃ i v, items !! i = Some (s, v) ∧
        match value with
        | None => b' = b ∧ r = Ok false
        | Some v' => ∃ r', updated b h items i s v v' b' r' ∧ r = match r' with Ok _ => Ok false | Err e => Err e end
        end) ∨
      (∃ p, belongs (items := items) s p ∧ inserted b h items p s (given value) b' r).
Proof.
  intros Hinv. unfold insert_impl. rewrite given_len. destruct (_ || _); [eauto|].
  rewrite (read_header_inv Hinv). cbn [mbind option_bind].
  destruct (search_inv Hinv s) as (i & [[-> [v Hi]]|[-> Hbel]]); cbn [mbind option_bind].
  - destruct value as [v'|]; [|eauto 10].
    destruct (update_value_at_inv b h es items i s v v' Hinv Hi) as (b' & r & -> & Hu). cbn [mbind option_bind].
    eexists _, _. split; [done|]. left. eauto 10.
  - destruct (insert_new_inv b h es items i s value Hinv Hbel) as (b' & r & -> & Hr). eauto 10.
Qed.

(** ** The finite map of a bucket *)

(** The bucket holds the map; an item without a value has the empty one. *)
Definition bucket_holds (b : StringBucket) (m : gmap (list Z) (list Z)) : Prop :=
  ∃ h es items, bucket_inv b h es items ∧ m = list_to_map items.

Lemma before_NoDup (l : list (list Z)) : StronglySorted before l → NoDup l.
Proof.
  intros Hl. induction Hl as [|x l _ IH Hx]; constructor; [|done]. intros Hin.
  rewrite Forall_forall in Hx. by apply (before_irrefl x), Hx.
Qed.

Section maps.
Context {b h es items} (Hinv : bucket_inv b h es items).

Lemma items_keys : NoDup items.*1.
Proof using Hinv. apply before_NoDup, Hinv. Qed.

Lemma map_lookup i s v : items !! i = Some (s, v) → (list_to_map items : gmap (list Z) (list Z)) !! s = Some v.
Proof using Hinv. intros Hi. apply elem_of_list_to_map; [apply items_keys|]. by eapply list_elem_of_lookup_2. Qed.

Lemma map_lookup_None s p : belongs (items := items) s p → (list_to_map items : gmap (list Z) (list Z)) !! s = None.
Proof using Hinv.
  intros Hbel. apply not_elem_of_list_to_map. intros ([s' v] & Es & (i & Hi)%list_elem_of_lookup)%list_elem_of_fmap.
  cbn in Es. subst s'. eapply (found_belongs (items := items)); [by exists v|done].
Qed.

Lemma map_insert_at p s v :
  belongs (items := items) s p →
  (list_to_map (insert_at p (s, v) items) : gmap (list Z) (list Z)) = <[s := v]> (list_to_map items).
Proof using Hinv.
  intros Hbel. rewrite (list_to_map_proper (insert_at p (s, v) items) ((s, v) :: items)); [done| |apply insert_at_perm].
  apply before_NoDup, insert_at_sorted; [apply Hinv|done].
Qed.

Lemma map_delete i s v :
  items !! i = Some (s, v) → (list_to_map (delete i items) : gmap (list Z) (list Z)) = delete s (list_to_map items).
Proof using Hinv.
  intros Hi. pose proof (delete_Permutation items i (s, v) Hi) as Hp. pose proof items_keys as Hnd.
  rewrite (list_to_map_proper items ((s, v) :: delete i items)) by done. cbn.
  rewrite delete_insert_id; [done|]. apply not_elem_of_list_to_map.
  rewrite Hp in Hnd. by apply NoDup_cons in Hnd as [? _].
Qed.

Lemma map_update i s v v' :
  items !! i = Some (s, v) →
  (list_to_map (<[i := (s, v')]> items) : gmap (list Z) (list Z)) = <[s := v']> (list_to_map items).
Proof using Hinv.
  intros Hi. pose proof (lookup_lt_Some _ _ _ Hi). pose proof items_keys as Hnd.
  rewrite (list_to_map_proper (<[i := (s, v')]> items) ((s, v') :: delete i items)).
  - rewrite list_to_map_cons, (map_delete i s v Hi). by rewrite insert_delete_eq.
  - rewrite (fst_update items i s v v' Hi). done.
  - rewrite (delete_Permutation (<[i := (s, v')]> items) i (s, v')) by (by apply list_lookup_insert_eq).
    by rewrite !delete_take_drop, take_insert_ge, drop_insert_lt by lia.
Qed.
End maps.
