(* ===== verification/BucketOps.v ===== *)
(** * The operations of a bucket on its map

    What insertion, removal, compaction, splitting and merging of Bucket.v do to the
    finite map a page holds, and that none of them panics. *)

From stdpp Require Import prelude gmap sorting.
From S2P Require Import Prelude Bytes Page Bucket BucketMap.
Local Open Scope Z_scope.

(** ** Empty buckets *)

Lemma zeros_len : zlen (replicate (Z.to_nat BUCKET_PAGE_SIZE) 0) = BUCKET_PAGE_SIZE.
Proof. unfold zlen. by rewrite length_replicate. Qed.

Lemma empty_bucket_inv flags :
  is_u16 flags →
  let h := mkBucketHeader BUCKET_MAGIC BUCKET_VERSION flags 0 0 BUCKET_PAGE_SIZE MAX_DATA_SIZE 0 in
  ∃ b, write_header (replicate (Z.to_nat BUCKET_PAGE_SIZE) 0) h = Ret b ∧ bucket_inv b h [] [].
Proof.
  intros Hf h. destruct (write_header_keeps (replicate (Z.to_nat BUCKET_PAGE_SIZE) 0) h zeros_len) as (b & E & Hh & Hl & _).
  exists b. split; [exact E|]. clear E. rewrite zeros_len in Hl. split.
  - exact Hl.
  - exact Hh.
  - unfold header_ok, is_u16, is_u32 in *. cbn. split_and!; try done; lia.
  - done.
  - intros i e He. by rewrite lookup_nil in He.
  - constructor.
  - constructor.
  - intros i j e e' He. by rewrite lookup_nil in He.
  - intros i j e e' He. by rewrite lookup_nil in He.
  - done.
  - constructor.
Qed.

Lemma empty_like_inv values :
  ∃ b h, empty_like values = Ret b ∧ bucket_inv b h [] [] ∧ available_space h = MAX_DATA_SIZE ∧ entry_count h = 0.
Proof.
  destruct values; unfold empty_like.
  - destruct (empty_bucket_inv (Z.lor HAS_VALUES BUCKET_IS_LEAF)) as (b & E & Hb); [by vm_compute|].
    eexists b, _. split; [exact E|]. split; [exact Hb|]. clear E Hb. done.
  - destruct (empty_bucket_inv BUCKET_IS_LEAF) as (b & E & Hb); [by vm_compute|].
    eexists b, _. split; [exact E|]. split; [exact Hb|]. clear E Hb. done.
Qed.

Lemma new_bucket_holds : ∃ b, StringBucket_new = Ret b ∧ bucket_holds b ∅.
Proof.
  destruct (empty_bucket_inv BUCKET_IS_LEAF) as (b & E & Hb); [by vm_compute|]. exists b. split; [exact E|].
  eexists _, [], []. split; [exact Hb|done].
Qed.

(** ** Insertion and removal *)

Lemma map_size {b h es items} :
  bucket_inv b h es items → entry_count h = Z.of_nat (size (list_to_map items : gmap (list Z) (list Z))).
Proof.
  intros Hinv. rewrite (inv_count _ _ _ _ Hinv). unfold zlen. rewrite <-(length_items Hinv).
  rewrite map_size_list_to_map by (by eapply items_keys). done.
Qed.

(** The value an insertion leaves *)
Definition stored (old : option (list Z)) (value : option (list Z)) : list Z :=
  match value with Some v => v | None => default [] old end.

(** When an insertion may be refused *)
Definition refused (b : StringBucket) (m : gmap (list Z) (list Z)) (s : list Z) (value : option (list Z)) (e : BucketError) : Prop :=
  match e with
  | DataTooLarge _ _ => u16_MAX < zlen s ∨ u16_MAX < zlen (given value)
  | InsufficientSpace needed available =>
      available < needed ∧ needed = (if m !! s then zlen (given value) else item_cost s (given value)) ∧
      ∃ h, read_header b = Ret h ∧ available = available_space h
  | BucketFull => m !! s = None ∧ Z.of_nat (size m) = MAX_BUCKET_ENTRIES
  | _ => False
  end.

Lemma insert_impl_map b m s value :
  bucket_holds b m →
  ∃ b' r, insert_impl b s value = Ret (b', r) ∧
    match r with
    | Ok fresh => fresh = bool_decide (m !! s = None) ∧ bucket_holds b' (<[s := stored (m !! s) value]> m)
    | Err e => b' = b ∧ refused b m s value e
    end.
Proof.
  intros (h & es & items & Hinv & ->). set (m := list_to_map items : gmap (list Z) (list Z)).
  destruct (insert_impl_inv b h es items s value Hinv) as (b' & r & Hrun & Hr). exists b', r. split; [done|].
  destruct (Z.ltb_spec u16_MAX (zlen s)), (Z.ltb_spec u16_MAX (zlen (given value))); cbn [orb] in Hr;
    try (destruct Hr as [-> ->]; cbn; by auto).
  destruct Hr as [(i & v & Hi & Hr)|(p & Hbel & Hr)].
  - pose proof (map_lookup Hinv i s v Hi) as Hm. fold m in Hm. rewrite Hm.
    destruct value as [v'|]; [|destruct Hr as [-> ->]; split; [done|]; cbn; rewrite insert_id by done; by exists h, es, items].
    destruct Hr as (r' & Hu & ->). unfold updated in Hu. cbn [stored].
    destruct (Z.ltb_spec (zlen v) (zlen v')), (Z.ltb_spec (available_space h) (zlen v')); cbn [andb] in Hu.
    1: destruct Hu as [-> ->]; split; [done|]; cbn; rewrite Hm; split_and!; [done..|exists h; by rewrite (read_header_inv Hinv)].
    all: destruct Hu as (-> & h' & es' & Hinv'); split; [done|]; exists h', es', (<[i := (s, v')]> items);
      split; [done|]; by rewrite (map_update Hinv i s v v' Hi).
  - pose proof (map_lookup_None Hinv s p Hbel) as Hm. fold m in Hm. rewrite Hm. unfold inserted in Hr.
    destruct (Z.ltb_spec (available_space h) (item_cost s (given value))).
    { destruct Hr as [-> ->]. split; [done|]. cbn. rewrite Hm. split_and!; [done..|]. exists h. by rewrite (read_header_inv Hinv). }
    destruct (Z.leb_spec MAX_BUCKET_ENTRIES (entry_count h)).
    { destruct Hr as [-> ->]. split; [done|]. split; [done|]. pose proof (map_size Hinv) as Hsz. fold m in Hsz.
      destruct (inv_header_ok _ _ _ _ Hinv) as (_ & _ & _ & _ & _ & ? & _). lia. }
    destruct Hr as (-> & h' & es' & Hinv' & _). split; [done|]. exists h', es', (insert_at p (s, given value) items).
    split; [done|]. rewrite (map_insert_at Hinv p s _ Hbel). by destruct value.
Qed.

Lemma remove_map b m s :
  bucket_holds b m →
  ∃ b' r, bucket_remove b s = Ret (b', r) ∧ bucket_holds b' (delete s m) ∧
    match r with
    | Some e => get_suffix b e = Ret s ∧ ∃ v, m !! s = Some v ∧ bucket_get_value b e = Ret (opt_value v)
    | None => m !! s = None ∧ b' = b
    end.
Proof.
  intros (h & es & items & Hinv & ->). destruct (remove_inv b h es items s Hinv) as (b' & r & -> & Hr).
  exists b', r. split; [done|]. destruct Hr as [(i & v & e & h' & Hi & He & -> & Hinv')|(p & Hbel & -> & ->)].
  - split; [exists h', (delete i es), (delete i items); split; [done|]; by rewrite (map_delete Hinv i s v Hi)|].
    pose proof (Forall2_lookup_lr _ _ _ _ _ _ (inv_items _ _ _ _ Hinv) He Hi) as Hat.
    split; [by eapply get_suffix_inv|]. exists v. split; [by apply (map_lookup Hinv i)|]. by eapply get_value_inv.
  - pose proof (map_lookup_None Hinv s p Hbel) as Hm. rewrite delete_id by done. split; [|done]. by exists h, es, items.
Qed.

Lemma contains_map b m s : bucket_holds b m → bucket_contains b s = Ret (bool_decide (is_Some (m !! s))).
Proof.
  intros (h & es & items & Hinv & ->). unfold bucket_contains.
  destruct (search_inv Hinv s) as (i & [[-> [v Hi]]|[-> Hbel]]); cbn.
  - by rewrite (map_lookup Hinv i s v Hi).
  - by rewrite (map_lookup_None Hinv s i Hbel).
Qed.

(** ** Filling an empty bucket

    A bucket filled from empty wastes no space: what is left is the page without the
    costs of its items. *)

Definition items_cost (items : list (list Z * list Z)) : Z :=
  foldr (λ it n, item_cost it.1 it.2 + n) 0 items.

Lemma items_cost_size items : items_cost items = items_size items + zlen items * ENTRY_SIZE.
Proof.
  unfold items_cost, items_size, item_cost, ENTRY_SIZE. induction items as [|it items IH]; cbn; [done|].
  rewrite zlen_cons, IH. lia.
Qed.

Lemma items_cost_perm l k : l ≡ₚ k → items_cost l = items_cost k.
Proof. unfold items_cost. intros H. induction H; cbn; lia. Qed.

Lemma items_cost_app l k : items_cost (l ++ k) = items_cost l + items_cost k.
Proof. unfold items_cost. induction l as [|it l IH]; cbn; [done|]. lia. Qed.

Lemma items_cost_nonneg l : 0 ≤ items_cost l.
Proof. rewrite items_cost_size. pose proof (items_size_nonneg l). unfold ENTRY_SIZE. zlen_lia. Qed.

(** The items of a bucket fit into an empty one. *)
Lemma items_fit {b h es items} :
  bucket_inv b h es items → items_cost items ≤ MAX_DATA_SIZE ∧ (length items ≤ Z.to_nat MAX_BUCKET_ENTRIES)%nat.
Proof.
  intros Hinv. pose proof (inv_header_ok _ _ _ _ Hinv) as (_ & _ & _ & _ & _ & Hc & Hd & _).
  pose proof (inv_size _ _ _ _ Hinv) as Hsz. pose proof (length_items Hinv) as Hlen.
  rewrite items_cost_size. unfold directory_end, MAX_DATA_SIZE in *. rewrite (inv_count _ _ _ _ Hinv) in Hc, Hd.
  unfold zlen, MAX_BUCKET_ENTRIES, BUCKET_HEADER_SIZE, BUCKET_PAGE_SIZE in *. rewrite Hlen. lia.
Qed.

Definition compactly (b : StringBucket) (items : list (list Z * list Z)) : Prop :=
  ∃ h es its, bucket_inv b h es its ∧ its ≡ₚ items ∧ available_space h = MAX_DATA_SIZE - items_cost items.

Lemma compactly_holds b items : compactly b items → NoDup items.*1 → bucket_holds b (list_to_map items).
Proof.
  intros (h & es & its & Hinv & Hp & _) Hnd. exists h, es, its. split; [done|].
  apply list_to_map_proper; [done|by symmetry].
Qed.

Lemma empty_like_compactly values : ∃ b, empty_like values = Ret b ∧ compactly b [].
Proof.
  destruct (empty_like_inv values) as (b & h & E & Hb & Ha & _). exists b. split; [exact E|].
  exists h, [], []. split; [exact Hb|]. split; [done|]. exact Ha.
Qed.

Lemma given_opt v : given (opt_value v) = v.
Proof. by destruct v. Qed.

Lemma insert_item_impl b s value : insert_item b (s, value) = insert_impl b s value.
Proof. by destruct value. Qed.

Lemma compactly_insert b items s v :
  compactly b items → s ∉ items.*1 → items_cost items + item_cost s v ≤ MAX_DATA_SIZE →
  (length items < Z.to_nat MAX_BUCKET_ENTRIES)%nat →
  ∃ b', insert_item b (s, opt_value v) = Ret (b', Ok true) ∧ compactly b' (items ++ [(s, v)]).
Proof.
  intros (h & es & its & Hinv & Hp & Ha) Hs Hc Hn. rewrite insert_item_impl.
  destruct (insert_impl_inv b h es its s (opt_value v) Hinv) as (b' & r & -> & Hr). rewrite given_opt in Hr.
  pose proof (items_cost_nonneg items) as H0. unfold item_cost, ENTRY_SIZE in Hc.
  destruct (Z.ltb_spec u16_MAX (zlen s)); [unfold u16_MAX, MAX_DATA_SIZE, BUCKET_PAGE_SIZE, BUCKET_HEADER_SIZE in *; zlen_lia|].
  destruct (Z.ltb_spec u16_MAX (zlen v)); [unfold u16_MAX, MAX_DATA_SIZE, BUCKET_PAGE_SIZE, BUCKET_HEADER_SIZE in *; zlen_lia|].
  cbn [orb] in Hr. destruct Hr as [(i & v0 & Hi & _)|(p & Hbel & Hr)].
  { destruct Hs. rewrite <-Hp. apply list_elem_of_fmap. exists (s, v0). split; [done|]. by eapply list_elem_of_lookup_2. }
  unfold inserted in Hr. destruct (Z.ltb_spec (available_space h) (item_cost s v)); [unfold item_cost, ENTRY_SIZE in *; lia|].
  destruct (Z.leb_spec MAX_BUCKET_ENTRIES (entry_count h)).
  { rewrite (inv_count _ _ _ _ Hinv) in *. apply Permutation_length in Hp. rewrite (length_items Hinv) in Hp. unfold zlen in *. lia. }
  destruct Hr as (-> & h' & es' & Hinv' & Ha' & _). eexists. split; [done|].
  exists h', es', (insert_at p (s, v) its). split; [done|]. split.
  - rewrite insert_at_perm, Hp. apply Permutation_cons_append.
  - rewrite items_cost_app, Ha', Ha. cbn. lia.
Qed.

(** The whole list is inserted, in its order. *)
Lemma compactly_foldM b items l :
  compactly b items → NoDup (items ++ l).*1 → items_cost (items ++ l) ≤ MAX_DATA_SIZE →
  (length (items ++ l) ≤ Z.to_nat MAX_BUCKET_ENTRIES)%nat →
  ∃ b', foldM expect_insert b (prod_map id opt_value <$> l) = Ret b' ∧ compactly b' (items ++ l).
Proof.
  revert b items. induction l as [|[s v] l IH]; intros b items Hb Hnd Hc Hn.
  { exists b. split; [done|]. by rewrite app_nil_r. }
  rewrite (cons_middle (s, v) items l), app_assoc in *.
  destruct (compactly_insert b items s v Hb) as (b1 & E1 & Hb1).
  - rewrite !fmap_app in Hnd. apply NoDup_app in Hnd as [Hnd _]. apply NoDup_app in Hnd as (_ & Hnd & _).
    intros Hin. apply (Hnd s Hin). cbn. by left.
  - rewrite items_cost_app in Hc. pose proof (items_cost_nonneg l). rewrite items_cost_app in Hc. cbn in Hc. lia.
  - rewrite !length_app in Hn. cbn in Hn. lia.
  - destruct (IH b1 (items ++ [(s, v)]) Hb1 Hnd Hc Hn) as (b' & E' & Hb'). exists b'. split; [|done].
    assert (expect_insert b (prod_map id opt_value (s, v)) = Ret b1) as E2.
    { unfold expect_insert, prod_map, id. cbn [fst snd]. by rewrite E1. }
    rewrite fmap_cons. cbn [foldM]. rewrite E2. exact E'.
Qed.

(** ** Reading all items *)

Definition as_read : list Z * list Z → list Z * option (list Z) := prod_map id opt_value.

Section loops.
Context {b h es items} (Hinv : bucket_inv b h es items).

Lemma len_inv : bucket_len b = Ret (Z.of_nat (length items)).
Proof using Hinv.
  unfold bucket_len. rewrite (read_header_inv Hinv). cbn. rewrite (inv_count _ _ _ _ Hinv). unfold zlen.
  by rewrite (length_items Hinv).
Qed.

(** A loop over the entries [i..i + n] runs over their items. *)
Lemma loop_items {S} (f : S → list Z * option (list Z) → exec S) (st : S) (i n : nat) :
  (i + n ≤ length items)%nat →
  foldM (λ st i, item ← read_item b i; f st item) st (seqZ (Z.of_nat i) (Z.of_nat n)) =
    foldM f st (as_read <$> take n (drop i items)).
Proof using Hinv.
  revert st i. induction n as [|n IH]; intros st i Hn; [done|].
  destruct (lookup_lt_is_Some_2 items i) as [[s v] Hi]; [lia|].
  rewrite seqZ_cons by lia. rewrite (drop_S _ _ _ Hi). cbn [take]. rewrite fmap_cons. cbn [foldM].
  rewrite (read_item_inv Hinv i s v Hi). cbn [mbind option_bind].
  change (as_read (s, v)) with (s, opt_value v). destruct (f st (s, opt_value v)) as [st'|]; [|done]. cbn [mbind option_bind].
  replace (Z.succ (Z.of_nat i)) with (Z.of_nat (Datatypes.S i)) by lia.
  replace (Z.pred (Z.of_nat (Datatypes.S n))) with (Z.of_nat n) by lia. apply IH. lia.
Qed.

Lemma copy_entries_items (i j : nat) into :
  (i ≤ j ≤ length items)%nat →
  copy_entries b (Z.of_nat i) (Z.of_nat j) into = foldM expect_insert into (as_read <$> take (j - i) (drop i items)).
Proof using Hinv. intros Hij. unfold copy_entries. rewrite <-Nat2Z.inj_sub by lia. apply loop_items. lia. Qed.

Lemma read_all : mapM (read_item b) (seqZ 0 (Z.of_nat (length items))) = Ret (as_read <$> items).
Proof using Hinv.
  apply mapM_Some. apply Forall2_same_length_lookup_2.
  { rewrite length_seqZ, length_fmap. lia. }
  intros i z it Hz Hit. apply lookup_seqZ in Hz as [-> Hlt]. rewrite list_lookup_fmap in Hit.
  destruct (items !! i) as [[s v]|] eqn:Hi; [|done]. injection Hit as <-. rewrite Z.add_0_l.
  apply (read_item_inv Hinv i s v Hi).
Qed.

Lemma items_map_perm : map_to_list (list_to_map items : gmap (list Z) (list Z)) ≡ₚ items.
Proof using Hinv. apply map_to_list_to_map. apply (items_keys Hinv). Qed.

Lemma inv_reflag h' :
  header_ok h' → entry_count h' = entry_count h → data_start h' = data_start h →
  ∃ b', write_header b h' = Ret b' ∧ bucket_inv b' h' es items.
Proof using Hinv.
  intros Hok Hc Hd. destruct (write_header_keeps b h') as (b' & E & Hh & Hk); [apply Hinv|].
  exists b'. split; [done|]. pose proof (inv_header_ok _ _ _ _ Hinv) as (_ & _ & _ & _ & _ & Hcn & Hst & _).
  split; try done; rewrite ?Hd, ?Hc; try apply Hinv.
  - destruct Hk as [-> _]. apply Hinv.
  - eapply keeps_directory; [exact Hk|done|]. exact (inv_directory _ _ _ _ Hinv).
  - eapply (items_kept (data_start h)); [|apply Hinv..]. eapply keeps_weaken; [|done].
    unfold directory_end, ENTRY_SIZE in Hst. lia.
Qed.
End loops.

(** The cost of a map in a page *)
Definition map_cost (m : gmap (list Z) (list Z)) : Z := items_cost (map_to_list m).

Lemma flag_compacted_ok h :
  header_ok h →
  header_ok (mkBucketHeader (b_magic h) (b_version h) (Z.lor (b_flags h) COMPACTED) (entry_count h)
               (b_reserved h) (data_start h) (free_space h) (b_checksum h)).
Proof.
  intros (H1 & H2 & H3 & H4 & H5 & H6 & H7 & H8).
  exact (conj H1 (conj H2 (conj (lor_u16 _ COMPACTED H3 ltac:(done)) (conj H4 (conj H5 (conj H6 (conj H7 H8))))))).
Qed.

Lemma compact_inv b h es items :
  bucket_inv b h es items → items ≠ [] → ∃ b', bucket_compact b = Ret b' ∧ compactly b' items.
Proof.
  intros Hinv Hne. unfold bucket_compact. rewrite (len_inv Hinv). cbn [mbind option_bind].
  destruct (Z.eqb_spec (Z.of_nat (length items)) 0); [by destruct items|].
  rewrite (read_header_inv Hinv). cbn [mbind option_bind]. rewrite (read_all Hinv). cbn [mbind option_bind].
  destruct (empty_like_compactly (has_values h)) as (b0 & -> & Hb0). cbn [mbind option_bind].
  destruct (items_fit Hinv) as [Hc Hn].
  destruct (compactly_foldM b0 [] items Hb0) as (b1 & E1 & h1 & es1 & its1 & Hinv1 & Hp1 & Ha1); [apply (items_keys Hinv)|done|done|].
  unfold as_read. rewrite E1. cbn [mbind option_bind]. rewrite (read_header_inv Hinv1). cbn [mbind option_bind].
  pose proof (flag_compacted_ok h1 (inv_header_ok _ _ _ _ Hinv1)) as Hok.
  destruct (inv_reflag Hinv1 _ Hok eq_refl eq_refl) as (b2 & E2 & Hinv2). exists b2. split; [exact E2|].
  eexists _, es1, its1. split; [exact Hinv2|]. split; [done|].
  cbn [app] in Ha1. rewrite <-Ha1. by rewrite !available_eq by (done || apply Hinv1).
Qed.

(** ** Sequences of operations *)

Inductive bucket_op :=
| OpInsert (suffix value : list Z)
| OpInsertKey (suffix : list Z)
| OpRemove (suffix : list Z)
| OpCompact.

Inductive bucket_outcome :=
| Inserted (r : result bool BucketError)
| Removed (found : bool)
| Compacted.

Definition run_op (b : StringBucket) (op : bucket_op) : exec (StringBucket * bucket_outcome) :=
  match op with
  | OpInsert suffix value => '(b, r) ← bucket_insert b suffix value; Ret (b, Inserted r)
  | OpInsertKey suffix => '(b, r) ← bucket_insert_key b suffix; Ret (b, Inserted r)
  | OpRemove suffix =>
      '(b, r) ← bucket_remove b suffix; Ret (b, Removed (match r with Some _ => true | None => false end))
  | OpCompact => b ← bucket_compact b; Ret (b, Compacted)
  end.

Fixpoint run_bucket (b : StringBucket) (ops : list bucket_op) : exec (StringBucket * list bucket_outcome) :=
  match ops with
  | [] => Ret (b, [])
  | op :: ops =>
      '(b, out) ← run_op b op;
      '(b, outs) ← run_bucket b ops;
      Ret (b, out :: outs)
  end.

(** The same on a finite map: an insertion stores its value or is refused and
    changes nothing; a refusal names too much data, too little space or too many
    entries. *)
Definition map_insertion (m : gmap (list Z) (list Z)) (s : list Z) (value : option (list Z))
    (r : result bool BucketError) (m' : gmap (list Z) (list Z)) : Prop :=
  match r with
  | Ok fresh => fresh = bool_decide (m !! s = None) ∧ m' = <[s := stored (m !! s) value]> m
  | Err (DataTooLarge _ _) => m' = m ∧ (u16_MAX < zlen s ∨ u16_MAX < zlen (given value))
  | Err (InsufficientSpace needed available) =>
      m' = m ∧ available < needed ∧ needed = (if m !! s then zlen (given value) else item_cost s (given value))
  | Err BucketFull => m' = m ∧ m !! s = None ∧ Z.of_nat (size m) = MAX_BUCKET_ENTRIES
  | Err _ => False
  end.

Definition map_op (m : gmap (list Z) (list Z)) (op : bucket_op) (out : bucket_outcome) (m' : gmap (list Z) (list Z)) : Prop :=
  match op, out with
  | OpInsert s v, Inserted r => map_insertion m s (Some v) r m'
  | OpInsertKey s, Inserted r => map_insertion m s None r m'
  | OpRemove s, Removed found => found = bool_decide (is_Some (m !! s)) ∧ m' = delete s m
  | OpCompact, Compacted => m' = m
  | _, _ => False
  end.

Inductive map_ops : gmap (list Z) (list Z) → list bucket_op → list bucket_outcome → gmap (list Z) (list Z) → Prop :=
| map_ops_nil m : map_ops m [] [] m
| map_ops_cons m op out m1 ops outs m2 :
    map_op m op out m1 → map_ops m1 ops outs m2 → map_ops m (op :: ops) (out :: outs) m2.

Lemma insert_impl_step b m s value :
  bucket_holds b m →
  ∃ b' r m', insert_impl b s value = Ret (b', r) ∧ map_insertion m s value r m' ∧ bucket_holds b' m'.
Proof.
  intros Hb. destruct (insert_impl_map b m s value Hb) as (b' & r & E & Hr). exists b', r.
  destruct r as [fresh|e].
  - destruct Hr as [-> Hb']. by exists (<[s := stored (m !! s) value]> m).
  - destruct Hr as [-> He]. exists m. split; [done|]. split; [|done]. destruct e; try done.
    destruct He as (? & ? & _). done.
Qed.

Lemma compact_step b m : bucket_holds b m → ∃ b', bucket_compact b = Ret b' ∧ bucket_holds b' m.
Proof.
  intros (h & es & items & Hinv & ->). destruct (decide (items = [])) as [->|Hne].
  - exists b. unfold bucket_compact. rewrite (len_inv Hinv). split; [done|]. by exists h, es, [].
  - destruct (compact_inv b h es items Hinv Hne) as (b' & E & Hb'). exists b'. split; [done|].
    apply compactly_holds; [done|]. apply (items_keys Hinv).
Qed.

Lemma run_op_step b m op :
  bucket_holds b m → ∃ b' out m', run_op b op = Ret (b', out) ∧ map_op m op out m' ∧ bucket_holds b' m'.
Proof.
  intros Hb. destruct op as [s v|s|s|]; cbn [run_op].
  - destruct (insert_impl_step b m s (Some v) Hb) as (b' & r & m' & E & Hr & Hb'). unfold bucket_insert. rewrite E.
    by exists b', (Inserted r), m'.
  - destruct (insert_impl_step b m s None Hb) as (b' & r & m' & E & Hr & Hb'). unfold bucket_insert_key. rewrite E.
    by exists b', (Inserted r), m'.
  - destruct (remove_map b m s Hb) as (b' & r & -> & Hb' & Hr). eexists b', _, (delete s m). split; [done|].
    split; [|done]. split; [|done]. destruct r as [e|].
    + destruct Hr as (_ & v & -> & _). done.
    + by destruct Hr as [-> _].
  - destruct (compact_step b m Hb) as (b' & -> & Hb'). by exists b', Compacted, m.
Qed.

Lemma run_bucket_steps b m ops :
  bucket_holds b m → ∃ b' outs m', run_bucket b ops = Ret (b', outs) ∧ map_ops m ops outs m' ∧ bucket_holds b' m'.
Proof.
  revert b m. induction ops as [|op ops IH]; intros b m Hb.
  { exists b, [], m. split_and!; [done|constructor|done]. }
  destruct (run_op_step b m op Hb) as (b1 & out & m1 & E1 & H1 & Hb1).
  destruct (IH b1 m1 Hb1) as (b2 & outs & m2 & E2 & H2 & Hb2). exists b2, (out :: outs), m2.
  cbn [run_bucket]. rewrite E1. cbn. rewrite E2. cbn. split_and!; [done|by econstructor|done].
Qed.

(** What the entries of a page read out *)
Lemma bucket_contents b m :
  bucket_holds b m →
  ∃ l, bucket_len b = Ret (Z.of_nat (size m)) ∧
    mapM (read_item b) (seqZ 0 (Z.of_nat (size m))) = Ret (prod_map id opt_value <$> l) ∧
    l ≡ₚ map_to_list m ∧ StronglySorted before l.*1.
Proof.
  intros (h & es & items & Hinv & ->). exists items. rewrite map_size_list_to_map by apply (items_keys Hinv).
  split_and!; [apply (len_inv Hinv)|apply (read_all Hinv)|by rewrite (items_map_perm Hinv)|apply Hinv].
Qed.

(** A page that holds a map is accepted when it is loaded. *)
Lemma from_bytes_holds b m : bucket_holds b m → bucket_from_bytes b = Ret (Ok b).
Proof.
  intros (h & es & items & Hinv & _). unfold bucket_from_bytes. rewrite (inv_len _ _ _ _ Hinv), Z.eqb_refl. cbn [negb].
  rewrite (read_header_inv Hinv). cbn [mbind option_bind]. unfold bucket_validate.
  destruct (inv_header_ok _ _ _ _ Hinv) as (-> & -> & _). done.
Qed.

(** C15: a bucket page is a sorted finite map.  From an empty page, any sequence of
    insertions, removals and compactions runs without a panic and does to the page
    what it does to a finite map from suffixes to values; a refused insertion leaves
    the map as it is.  Afterwards the page is accepted when it is loaded, reading the
    directory gives the items of the map in the order of their suffixes, and
    [contains] answers by the map. *)
Theorem bucket_run_refines_map ops :
  ∃ b0 b outs m, StringBucket_new = Ret b0 ∧ run_bucket b0 ops = Ret (b, outs) ∧ map_ops ∅ ops outs m ∧
    bucket_from_bytes b = Ret (Ok b) ∧ (∀ s, bucket_contains b s = Ret (bool_decide (is_Some (m !! s)))) ∧
    ∃ l, bucket_len b = Ret (Z.of_nat (size m)) ∧
      mapM (read_item b) (seqZ 0 (Z.of_nat (size m))) = Ret (prod_map id opt_value <$> l) ∧
      l ≡ₚ map_to_list m ∧ StronglySorted before l.*1.
Proof.
  destruct new_bucket_holds as (b0 & E0 & Hb0). destruct (run_bucket_steps b0 ∅ ops Hb0) as (b & outs & m & E & Hm & Hb).
  exists b0, b, outs, m. split_and!; [exact E0|exact E|exact Hm|by eapply from_bytes_holds|intros s; by apply contains_map|by apply bucket_contents].
Qed.

(** ** Compaction *)

(** Compaction reclaims the space of removed and replaced data.  On a page that
    holds a nonempty map it does not panic, keeps the map, and afterwards a new item
    is accepted whenever the map with it fits into a page at all. *)
Theorem compact_reclaims b m s v :
  bucket_holds b m → m ≠ ∅ → m !! s = None →
  map_cost m + item_cost s v ≤ MAX_DATA_SIZE → Z.of_nat (size m) < MAX_BUCKET_ENTRIES →
  ∃ b1 b2, bucket_compact b = Ret b1 ∧ bucket_holds b1 m ∧
    bucket_insert b1 s v = Ret (b2, Ok true) ∧ bucket_holds b2 (<[s := v]> m).
Proof.
  intros (h & es & items & Hinv & ->) Hne Hs Hcost Hsize.
  destruct (compact_inv b h es items Hinv) as (b1 & E1 & Hb1); [by intros ->|].
  pose proof (compactly_holds b1 items Hb1 (items_keys Hinv)) as Hm1.
  destruct Hb1 as (h1 & es1 & its1 & Hinv1 & Hp1 & Ha1).
  unfold map_cost in Hcost. rewrite (items_cost_perm _ _ (items_map_perm Hinv)) in Hcost.
  destruct (insert_impl_map b1 (list_to_map items) s (Some v) Hm1) as (b2 & r & E2 & Hr).
  exists b1, b2. split; [done|]. split; [done|]. unfold bucket_insert. rewrite E2. destruct r as [fresh|e].
  - rewrite Hs in Hr. destruct Hr as [-> Hb2]. by rewrite bool_decide_eq_true_2.
  - exfalso. destruct Hr as [_ He]. pose proof (items_cost_nonneg items). unfold item_cost, ENTRY_SIZE in Hcost.
    destruct e; try done.
    + cbn in He. rewrite Hs in He. destruct He as (Hlt & -> & h' & Hh' & ->). rewrite (read_header_inv Hinv1) in Hh'.
      injection Hh' as <-. unfold item_cost, ENTRY_SIZE in Hlt. lia.
    + cbn in He. destruct He as [_ He]. lia.
    + cbn in He. unfold u16_MAX, MAX_DATA_SIZE, BUCKET_PAGE_SIZE, BUCKET_HEADER_SIZE in *. zlen_lia.
Qed.

(** ** Splitting *)

Lemma compactly_copy {b h es items} (Hinv : bucket_inv b h es items) (i j : nat) values :
  (i ≤ j ≤ length items)%nat →
  ∃ b0 b', empty_like values = Ret b0 ∧ copy_entries b (Z.of_nat i) (Z.of_nat j) b0 = Ret b' ∧
    bucket_holds b' (list_to_map (take (j - i) (drop i items))).
Proof.
  intros Hij. destruct (empty_like_compactly values) as (b0 & E0 & Hb0).
  set (l := take (j - i) (drop i items)).
  assert (l ⊆+ items) as Hsub.
  { apply sublist_submseteq. etrans; [apply sublist_take|apply sublist_drop]. }
  assert (NoDup l.*1) as Hnd.
  { eapply sublist_NoDup; [apply (items_keys Hinv)|]. apply fmap_sublist. etrans; [apply sublist_take|apply sublist_drop]. }
  apply submseteq_Permutation in Hsub as [k Hk]. destruct (items_fit Hinv) as [Hc Hn].
  rewrite (items_cost_perm _ _ Hk), items_cost_app in Hc. rewrite Hk, length_app in Hn.
  pose proof (items_cost_nonneg k).
  destruct (compactly_foldM b0 [] l Hb0) as (b' & E & Hb'); [done|cbn [app]; lia|cbn [app]; lia|].
  exists b0, b'. split; [exact E0|]. split; [by rewrite (copy_entries_items Hinv)|].
  by apply (compactly_holds b' l Hb').
Qed.

Lemma list_to_map_lookup (l : list (list Z * list Z)) s v :
  NoDup l.*1 → (list_to_map l : gmap (list Z) (list Z)) !! s = Some v ↔ ∃ i, l !! i = Some (s, v).
Proof. intros Hnd. rewrite <-elem_of_list_to_map by done. apply list_elem_of_lookup. Qed.

Section cut.
Context {b h es items} (Hinv : bucket_inv b h es items) (p : nat) (k v0 : list Z) (Hp : items !! p = Some (k, v0)).

Lemma part_NoDup n i : NoDup (take n (drop i items)).*1.
Proof using Hinv.
  eapply sublist_NoDup; [apply (items_keys Hinv)|]. apply fmap_sublist. etrans; [apply sublist_take|apply sublist_drop].
Qed.

(** The suffix [k] at [p] separates the items before and after [p]. *)
Lemma before_cut i s v : items !! i = Some (s, v) → before s k ↔ (i < p)%nat.
Proof using Hinv Hp.
  intros Hi. split.
  - intros Hb. destruct (decide (i < p)%nat) as [|Hge]; [done|]. exfalso. destruct (decide (i = p)) as [->|].
    + simplify_eq. by apply (before_irrefl k).
    + apply (before_irrefl k). transitivity s; [|done]. apply (sorted_items Hinv p i (k, v0) (s, v)); [done..|lia].
  - intros Hlt. by apply (sorted_items Hinv i p (s, v) (k, v0)).
Qed.

Lemma left_lookup s :
  (list_to_map (take p items) : gmap (list Z) (list Z)) !! s =
    if decide (before s k) then (list_to_map items : gmap (list Z) (list Z)) !! s else None.
Proof using Hinv Hp.
  apply option_eq. intros v. rewrite list_to_map_lookup by apply (part_NoDup p 0). split.
  - intros [i Hi]. apply lookup_take_Some in Hi as [Hi Hlt]. rewrite decide_True by (by eapply before_cut).
    apply list_to_map_lookup; [apply (items_keys Hinv)|]. by exists i.
  - case_decide as Hb; [|done]. intros [i Hi]%list_to_map_lookup; [|apply (items_keys Hinv)]. exists i.
    apply lookup_take_Some. split; [done|]. by eapply before_cut.
Qed.

Lemma right_lookup s :
  (list_to_map (take (length items - p) (drop p items)) : gmap (list Z) (list Z)) !! s =
    if decide (before s k) then None else (list_to_map items : gmap (list Z) (list Z)) !! s.
Proof using Hinv Hp.
  apply option_eq. intros v. rewrite list_to_map_lookup by apply part_NoDup.
  rewrite take_ge by (rewrite length_drop; lia). split.
  - intros [i Hi]. rewrite lookup_drop in Hi. rewrite decide_False by (rewrite (before_cut _ _ _ Hi); lia).
    apply list_to_map_lookup; [apply (items_keys Hinv)|]. eauto.
  - case_decide as Hb; [done|]. intros [i Hi]%list_to_map_lookup; [|apply (items_keys Hinv)]. exists (i - p)%nat.
    rewrite lookup_drop. rewrite (before_cut _ _ _ Hi) in Hb. by replace (p + (i - p))%nat with i by lia.
Qed.
End cut.

(** Splitting a bucket loses nothing.  A bucket with at least two items is
    split without a panic into two nonempty buckets: the left one holds the items
    before the split key, the right one the others; a smaller bucket is not split. *)
Theorem split_partitions b m :
  bucket_holds b m →
  if decide (size m < 2)%nat then bucket_split b = Ret None
  else ∃ left right k ml mr, bucket_split b = Ret (Some (left, right, k)) ∧
    bucket_holds left ml ∧ bucket_holds right mr ∧ ml ≠ ∅ ∧ is_Some (mr !! k) ∧
    ∀ s, ml !! s = (if decide (before s k) then m !! s else None) ∧
         mr !! s = (if decide (before s k) then None else m !! s).
Proof.
  intros (h & es & items & Hinv & ->). rewrite map_size_list_to_map by apply (items_keys Hinv).
  unfold bucket_split, split_point. rewrite (len_inv Hinv). cbn [mbind option_bind].
  case_decide as Hsz; (destruct (Z.ltb_spec (Z.of_nat (length items)) 2); [try lia; done|try lia]).
  cbn [mbind option_bind]. rewrite (read_header_inv Hinv). cbn [mbind option_bind].
  set (p := (length items / 2)%nat). assert (Z.of_nat (length items) / 2 = Z.of_nat p) as -> by (unfold p; by rewrite Nat2Z.inj_div).
  assert (0 < p < length items)%nat as Hp.
  { unfold p. split; [apply Nat.div_str_pos; lia|apply Nat.div_lt; lia]. }
  destruct (lookup_lt_is_Some_2 items p) as [[k v0] Hk]; [lia|].
  destruct (compactly_copy Hinv 0 p (has_values h)) as (b0 & left & E0 & El & Hl); [lia|].
  destruct (compactly_copy Hinv p (length items) (has_values h)) as (b0' & right & E0' & Er & Hr); [lia|].
  rewrite E0 in E0'. injection E0' as <-. rewrite E0. cbn [mbind option_bind].
  change (Z.of_nat 0) with 0 in El. rewrite El. cbn [mbind option_bind].
  rewrite (read_item_inv Hinv p k v0 Hk). cbn [mbind option_bind]. rewrite Er. cbn [mbind option_bind].
  rewrite drop_0, Nat.sub_0_r in Hl. eexists left, right, k, _, _. split; [done|]. split; [exact Hl|]. split; [exact Hr|].
  pose proof (left_lookup Hinv p k v0 Hk) as HL. pose proof (right_lookup Hinv p k v0 Hk) as HR. split_and!; [| |by auto].
  - destruct (lookup_lt_is_Some_2 items 0) as [[s v] Hs]; [lia|]. intros Hnil. specialize (HL s).
    rewrite Hnil, lookup_empty, decide_True in HL by (apply (before_cut Hinv p k v0 Hk 0 s v Hs); lia).
    by rewrite (map_lookup Hinv 0 s v Hs) in HL.
  - rewrite HR, decide_False by apply before_irrefl. by rewrite (map_lookup Hinv p k v0 Hk).
Qed.

(** ** Splitting by the first byte *)

(** The items whose suffix starts with [c], without it *)
Definition tail_item (c : Z) (it : list Z * list Z) : option (list Z * list Z) :=
  match it.1 with
  | x :: rest => if decide (x = c) then Some (rest, it.2) else None
  | [] => None
  end.
Definition tails (c : Z) (items : list (list Z * list Z)) : list (list Z * list Z) := omap (tail_item c) items.

Definition finals_of (items : list (list Z * list Z)) : list (list Z * option (list Z)) :=
  omap (λ it, match it.1 with [] => Some ([], opt_value it.2) | _ => None end) items.

Lemma tails_app c l k : tails c (l ++ k) = tails c l ++ tails c k.
Proof. apply omap_app. Qed.

Lemma elem_of_tails c l s v : (s, v) ∈ tails c l ↔ (c :: s, v) ∈ l.
Proof.
  unfold tails. rewrite list_elem_of_omap. unfold tail_item. split.
  - intros ([[|x rest] w] & Hin & Hs); cbn in Hs; [done|]. case_decide; [|done]. by simplify_eq.
  - intros Hin. exists (c :: s, v). split; [done|]. cbn. by rewrite decide_True.
Qed.

Lemma tails_cost c l : items_cost (tails c l) ≤ items_cost l.
Proof.
  unfold items_cost, tails. induction l as [|[s v] l IH]; cbn; [done|]. unfold tail_item at 1. cbn.
  assert (0 ≤ item_cost s v) by (unfold item_cost, ENTRY_SIZE; zlen_lia).
  destruct s as [|x rest]; cbn; [lia|]. case_decide; cbn; [|lia]. unfold item_cost in *. rewrite zlen_cons. lia.
Qed.

Lemma tails_length c l : (length (tails c l) ≤ length l)%nat.
Proof.
  unfold tails. induction l as [|it l IH]; cbn; [done|]. destruct (tail_item c it); cbn; lia.
Qed.

Lemma tails_NoDup c l : NoDup l.*1 → NoDup (tails c l).*1.
Proof.
  unfold tails. induction l as [|[s v] l IH]; [constructor|]. rewrite fmap_cons. intros [Hs Hnd]%NoDup_cons. cbn.
  destruct (tail_item c (s, v)) as [[r w]|] eqn:E; [|auto]. rewrite fmap_cons. constructor; [|auto]. cbn.
  unfold tail_item in E. cbn in E. destruct s as [|x rest]; [done|]. case_decide; [|done]. simplify_eq.
  intros ([r' w'] & -> & Hin)%list_elem_of_fmap. apply Hs. apply list_elem_of_fmap. exists (c :: r', w').
  split; [done|]. by apply elem_of_tails.
Qed.

(** What the loop has after the items [l] *)
Definition split_state (l : list (list Z * list Z)) (st : SplitByByteResult) : Prop :=
  sb_overflow st = [] ∧ sb_finals st = finals_of l ∧
  ∀ c, match sb_buckets st !! c with
       | Some bc => compactly bc (tails c l) ∧ tails c l ≠ []
       | None => tails c l = []
       end.

Lemma split_entry_step values l st s v :
  split_state l st → NoDup (l ++ [(s, v)]).*1 → items_cost (l ++ [(s, v)]) ≤ MAX_DATA_SIZE →
  (length (l ++ [(s, v)]) ≤ Z.to_nat MAX_BUCKET_ENTRIES)%nat →
  ∃ st', split_entry values st (as_read (s, v)) = Ret st' ∧ split_state (l ++ [(s, v)]) st'.
Proof.
  intros (Ho & Hf & Hb) Hnd Hc Hn. destruct s as [|x rest].
  { eexists. split; [reflexivity|]. split; [done|]. split.
    - cbn. rewrite Hf. unfold finals_of. by rewrite omap_app.
    - intros c. specialize (Hb c). cbn. rewrite tails_app. change (tails c [([], v)]) with (@nil (list Z * list Z)). by rewrite app_nil_r. }
  assert (∃ b0, (match sb_buckets st !! x with Some bucket => Ret bucket | None => empty_like values end) = Ret b0 ∧
    compactly b0 (tails x l)) as (b0 & E0 & Hb0).
  { specialize (Hb x). destruct (sb_buckets st !! x) as [b0|]; [exists b0; by destruct Hb|].
    rewrite Hb. apply empty_like_compactly. }
  pose proof (tails_NoDup x _ Hnd) as Hnd'. pose proof (tails_cost x (l ++ [(x :: rest, v)])) as Hc'.
  pose proof (tails_length x (l ++ [(x :: rest, v)])) as Hn'.
  assert (tails x [(x :: rest, v)] = [(rest, v)]) as Et by (cbn; by rewrite decide_True).
  rewrite tails_app, Et in Hnd', Hc', Hn'. rewrite items_cost_app in Hc'. rewrite length_app in Hn'. cbn in Hc', Hn'.
  destruct (compactly_insert b0 (tails x l) rest v Hb0) as (b1 & E1 & Hb1).
  - rewrite fmap_app in Hnd'. apply NoDup_app in Hnd' as (_ & Hnd' & _). intros Hin. apply (Hnd' rest Hin). by left.
  - lia.
  - lia.
  - unfold split_entry, as_read, prod_map, id. cbn [fst snd]. rewrite E0. cbn [mbind option_bind]. rewrite E1.
    cbn [mbind option_bind]. eexists. split; [reflexivity|]. split; [done|]. split.
    + cbn. rewrite Hf. unfold finals_of. rewrite omap_app. cbn. by rewrite app_nil_r.
    + intros c. cbn [sb_buckets]. rewrite tails_app. destruct (decide (x = c)) as [<-|Hne].
      * rewrite lookup_insert_eq, Et. split; [done|]. by destruct (tails x l).
      * rewrite lookup_insert_ne by done. unfold tails at 2 4 6. cbn. rewrite decide_False, app_nil_r by done. apply Hb.
Qed.

Lemma split_loop values l k st :
  split_state l st → NoDup (l ++ k).*1 → items_cost (l ++ k) ≤ MAX_DATA_SIZE →
  (length (l ++ k) ≤ Z.to_nat MAX_BUCKET_ENTRIES)%nat →
  ∃ st', foldM (split_entry values) st (as_read <$> k) = Ret st' ∧ split_state (l ++ k) st'.
Proof.
  revert l st. induction k as [|[s v] k IH]; intros l st Hst Hnd Hc Hn.
  { exists st. rewrite app_nil_r. done. }
  rewrite (cons_middle (s, v) l k), app_assoc in *.
  destruct (split_entry_step values l st s v Hst) as (st1 & E1 & Hst1).
  - rewrite fmap_app in Hnd. by apply NoDup_app in Hnd as [? _].
  - rewrite items_cost_app in Hc. pose proof (items_cost_nonneg k). lia.
  - rewrite length_app in Hn. lia.
  - destruct (IH _ st1 Hst1 Hnd Hc Hn) as (st2 & E2 & Hst2). exists st2. split; [|done].
    rewrite fmap_cons. cbn [foldM]. rewrite E1. exact E2.
Qed.

Lemma finals_lookup l :
  NoDup l.*1 →
  finals_of l = match (list_to_map l : gmap (list Z) (list Z)) !! [] with Some v => [([], opt_value v)] | None => [] end.
Proof.
  unfold finals_of. induction l as [|[s v] l IH]; [done|]. rewrite fmap_cons. intros [Hs Hnd]%NoDup_cons.
  cbn [omap list_omap list_to_map foldr]. destruct s as [|x s]; cbn in Hs |- *.
  - rewrite lookup_insert_eq. f_equal. rewrite IH by done. by rewrite not_elem_of_list_to_map_1.
  - rewrite lookup_insert_ne by done. by rewrite IH.
Qed.

(** Splitting by the first byte is exact.  The loop does not panic and nothing
    overflows: the child bucket of a byte holds the suffixes that start with it,
    without the byte, there is no child for other bytes, and the empty suffix is
    reported with its value. *)
Theorem split_by_first_byte_exact b m :
  bucket_holds b m →
  ∃ st, split_by_first_byte b = Ret st ∧ sb_overflow st = [] ∧
    sb_finals st = match m !! [] with Some v => [([], opt_value v)] | None => [] end ∧
    ∀ c, match sb_buckets st !! c with
         | Some bc => ∃ mc, bucket_holds bc mc ∧ mc ≠ ∅ ∧ ∀ s, mc !! s = m !! (c :: s)
         | None => ∀ s, m !! (c :: s) = None
         end.
Proof.
  intros (h & es & items & Hinv & ->). pose proof (items_keys Hinv) as Hnd. destruct (items_fit Hinv) as [Hc Hn].
  destruct (split_loop (has_values h) [] items (mkSplitByByte ∅ [] [])) as (st & E & Ho & Hf & Hb);
    [done|done|done|done|].
  cbn [app] in Hf, Hb. exists st. split_and!; [|done|by rewrite Hf, finals_lookup|].
  - unfold split_by_first_byte. rewrite (read_header_inv Hinv). cbn [mbind option_bind]. rewrite (len_inv Hinv).
    cbn [mbind option_bind]. rewrite <-E. rewrite (loop_items Hinv (split_entry (has_values h)) _ 0 (length items)) by lia.
    by rewrite drop_0, firstn_all.
  - assert (∀ c s, (list_to_map (tails c items) : gmap (list Z) (list Z)) !! s =
      (list_to_map items : gmap (list Z) (list Z)) !! (c :: s)) as Hlook.
    { intros c s. apply option_eq. intros v.
      rewrite <-!elem_of_list_to_map by (done || by apply tails_NoDup). apply elem_of_tails. }
    intros c. specialize (Hb c). destruct (sb_buckets st !! c) as [bc|].
    + destruct Hb as [Hb Hne]. exists (list_to_map (tails c items)). split; [by apply compactly_holds; [|apply tails_NoDup]|].
      split; [|done]. destruct (tails c items) as [|[s v] l]; [done|]. cbn. apply insert_non_empty.
    + intros s. rewrite <-Hlook, Hb. apply lookup_empty.
Qed.

(** ** Merging *)

(** The value of a suffix after merging: that of the other bucket, unless it has none *)
Definition merged (mine other : option (list Z)) : option (list Z) :=
  match other with
  | Some v => Some (stored mine (opt_value v))
  | None => mine
  end.

(** The items are inserted one by one, up to the first one that is refused. *)
Fixpoint merge_items (b : StringBucket) (l : list (list Z * list Z)) : exec (StringBucket * result unit BucketError) :=
  match l with
  | [] => Ret (b, Ok ())
  | it :: l =>
      '(b, r) ← insert_item b (as_read it);
      match r with
      | Ok _ => merge_items b l
      | Err e => Ret (b, Err e)
      end
  end.

Lemma merge_loop_items {other h es items} (Hother : bucket_inv other h es items) n i b :
  (i + n = length items)%nat →
  merge_loop b other (seqZ (Z.of_nat i) (Z.of_nat n)) = merge_items b (drop i items).
Proof.
  revert i b. induction n as [|n IH]; intros i b Hn.
  { rewrite drop_ge by lia. done. }
  destruct (lookup_lt_is_Some_2 items i) as [[s v] Hi]; [lia|].
  rewrite seqZ_cons by lia. rewrite (drop_S _ _ _ Hi). cbn [merge_loop merge_items].
  rewrite (read_item_inv Hother i s v Hi). cbn [mbind option_bind]. change (as_read (s, v)) with (s, opt_value v).
  destruct (insert_item b (s, opt_value v)) as [[b' [?|e]]|]; [|done..]. cbn [mbind option_bind].
  replace (Z.succ (Z.of_nat i)) with (Z.of_nat (S i)) by lia.
  replace (Z.pred (Z.of_nat (S n))) with (Z.of_nat n) by lia. apply IH. lia.
Qed.

Lemma merge_items_spec l b m :
  NoDup l.*1 → bucket_holds b m →
  ∃ b' r m' done rest, merge_items b l = Ret (b', r) ∧ bucket_holds b' m' ∧ l = done ++ rest ∧
    (∀ s, m' !! s = merged (m !! s) ((list_to_map done : gmap (list Z) (list Z)) !! s)) ∧
    match r with
    | Ok _ => rest = []
    | Err e => ∃ s v rest', rest = (s, v) :: rest' ∧ refused b' m' s (opt_value v) e
    end.
Proof.
  revert b m. induction l as [|[s v] l IH]; intros b m Hnd Hb.
  { exists b, (Ok ()), m, [], []. by split_and!. }
  rewrite fmap_cons in Hnd. apply NoDup_cons in Hnd as [Hs Hnd].
  destruct (insert_impl_map b m s (opt_value v) Hb) as (b1 & r & E & Hr).
  cbn [merge_items]. change (as_read (s, v)) with (s, opt_value v). rewrite insert_item_impl, E. cbn [mbind option_bind].
  destruct r as [fresh|e].
  - destruct Hr as [_ Hb1]. destruct (IH b1 _ Hnd Hb1) as (b' & r & m' & dn & rest & E' & Hb' & -> & Hm' & Hr).
    exists b', r, m', ((s, v) :: dn), rest. split_and!; [done..| |done]. intros s'. rewrite Hm'. cbn.
    destruct (decide (s = s')) as [<-|Hne].
    + rewrite !lookup_insert_eq. rewrite not_elem_of_list_to_map_1; [done|]. intros Hin. apply Hs. rewrite fmap_app.
      apply elem_of_app. by left.
    + by rewrite !lookup_insert_ne.
  - destruct Hr as [-> He]. exists b, (Err e), m, [], ((s, v) :: l). split_and!; [done..|]. eauto.
Qed.

(** Merging inserts the items of the other bucket in order.  When it succeeds
    the bucket holds the merged map; when it reports an error, the items before the
    refused one have been merged and the others not. *)
Theorem merge_exact b other m mo :
  bucket_holds b m → bucket_holds other mo →
  ∃ b' r m', bucket_merge b other = Ret (b', r) ∧ bucket_holds b' m' ∧
    match r with
    | Ok _ => ∀ s, m' !! s = merged (m !! s) (mo !! s)
    | Err e => ∃ s0 v0, mo !! s0 = Some v0 ∧ refused b' m' s0 (opt_value v0) e ∧
        ∀ s, m' !! s = if decide (before s s0) then merged (m !! s) (mo !! s) else m !! s
    end.
Proof.
  intros Hb (h & es & items & Hinv & ->). unfold bucket_merge. rewrite (len_inv Hinv). cbn [mbind option_bind].
  change 0 with (Z.of_nat 0). rewrite (merge_loop_items Hinv (length items) 0) by lia. rewrite drop_0.
  destruct (merge_items_spec items b m (items_keys Hinv) Hb) as (b' & r & m' & dn & rest & -> & Hb' & Heq & Hm' & Hr).
  exists b', r, m'. split; [done|]. split; [done|]. destruct r as [?|e].
  - subst rest. rewrite app_nil_r in Heq. by subst dn.
  - destruct Hr as (s0 & v0 & rest' & -> & He).
    assert (items !! length dn = Some (s0, v0)) as Hi by (rewrite Heq; by apply list_lookup_middle).
    exists s0, v0. split; [by apply (map_lookup Hinv (length dn))|]. split; [done|]. intros s. rewrite Hm'.
    pose proof (left_lookup Hinv (length dn) s0 v0 Hi s) as HL.
    assert (take (length dn) items = dn) as E by (rewrite Heq; apply take_app_length). rewrite E in HL. rewrite HL.
    by case_decide.
Qed.

(** ** Examples *)

(** Compaction of an empty bucket reclaims nothing.  After its only item, with
    8000 bytes of value, is removed, the bucket is empty; compaction returns it
    unchanged and 200 bytes are refused for lack of space. *)
Theorem compact_empty_keeps_waste :
  (b0 ← StringBucket_new;
   '(b1, _) ← bucket_insert b0 [97] (replicate 8000 0);
   '(b2, _) ← bucket_remove b1 [97];
   b3 ← bucket_compact b2;
   n ← bucket_len b3;
   '(_, r) ← bucket_insert b3 [98] (replicate 200 0);
   Ret (bool_decide (b3 = b2), n, r)) = Ret (true, 0, Err (InsufficientSpace 209 159)).
Proof. vm_compute. reflexivity. Qed.

Lemma filled_bucket items :
  NoDup items.*1 → items_cost items ≤ MAX_DATA_SIZE → (length items ≤ Z.to_nat MAX_BUCKET_ENTRIES)%nat →
  ∃ b0 b, StringBucket_new = Ret b0 ∧ foldM expect_insert b0 (prod_map id opt_value <$> items) = Ret b ∧
    bucket_holds b (list_to_map items).
Proof.
  intros Hnd Hc Hn. destruct (empty_bucket_inv BUCKET_IS_LEAF) as (b0 & E0 & Hb0); [by vm_compute|].
  destruct (compactly_foldM b0 [] items) as (b & E & Hb); [|done..|].
  { eexists _, [], []. split; [exact Hb0|]. split; [done|]. clear E0 Hb0. by vm_compute. }
  exists b0, b. split; [exact E0|]. split; [exact E|]. by apply (compactly_holds b items Hb).
Qed.

Definition example_items : list (list Z * list Z) := [([98; 1], [5; 6]); ([98], []); ([97], [7]); ([], [8])].

Definition example_map : gmap (list Z) (list Z) := list_to_map example_items.

Lemma example_bucket :
  ∃ b0 b, StringBucket_new = Ret b0 ∧ foldM expect_insert b0 (prod_map id opt_value <$> example_items) = Ret b ∧
    bucket_holds b example_map.
Proof. apply filled_bucket; [|by vm_compute|apply Nat.leb_le; by vm_compute]. by apply (bool_decide_unpack _). Qed.

Lemma compact_reclaims_witness :
  ∃ b b1 b2, bucket_compact b = Ret b1 ∧ bucket_holds b1 example_map ∧
    bucket_insert b1 [99] [1] = Ret (b2, Ok true) ∧ bucket_holds b2 (<[[99] := [1]]> example_map).
Proof.
  destruct example_bucket as (b0 & b & _ & _ & Hb). exists b.
  apply (compact_reclaims b example_map [99] [1] Hb).
  - discriminate.
  - vm_compute. reflexivity.
  - vm_compute. discriminate.
  - vm_compute. reflexivity.
Defined.

Lemma split_partitions_witness :
  ∃ b, if decide (size example_map < 2)%nat then bucket_split b = Ret None
  else ∃ left right k ml mr, bucket_split b = Ret (Some (left, right, k)) ∧
    bucket_holds left ml ∧ bucket_holds right mr ∧ ml ≠ ∅ ∧ is_Some (mr !! k) ∧
    ∀ s, ml !! s = (if decide (before s k) then example_map !! s else None) ∧
         mr !! s = (if decide (before s k) then None else example_map !! s).
Proof.
  destruct example_bucket as (b0 & b & _ & _ & Hb). exists b. exact (split_partitions b example_map Hb).
Defined.

Lemma split_by_first_byte_exact_witness :
  ∃ b st, split_by_first_byte b = Ret st ∧ sb_overflow st = [] ∧
    sb_finals st = [([], Some [8])] ∧
    ∀ c, match sb_buckets st !! c with
         | Some bc => ∃ mc, bucket_holds bc mc ∧ mc ≠ ∅ ∧ ∀ s, mc !! s = example_map !! (c :: s)
         | None => ∀ s, example_map !! (c :: s) = None
         end.
Proof.
  destruct example_bucket as (b0 & b & _ & _ & Hb). exists b.
  exact (split_by_first_byte_exact b example_map Hb).
Defined.

Lemma merge_exact_witness :
  ∃ b b' r m', bucket_merge b b = Ret (b', r) ∧ bucket_holds b' m' ∧
    match r with
    | Ok _ => ∀ s, m' !! s = merged (example_map !! s) (example_map !! s)
    | Err e => ∃ s0 v0, example_map !! s0 = Some v0 ∧ refused b' m' s0 (opt_value v0) e ∧
        ∀ s, m' !! s = if decide (before s s0)
                       then merged (example_map !! s) (example_map !! s)
                       else example_map !! s
    end.
Proof.
  destruct example_bucket as (b0 & b & _ & _ & Hb). exists b.
  exact (merge_exact b b example_map example_map Hb Hb).
Defined.
