(* ===== verification/Dawg.v ===== *)
(** * The nodes of the lock-free DAWG

    [LockFreeDawgNode] and the path-copying rewrites of
    src/src/dynamic_dawg/lockfree.rs.  Published nodes never change, so the memory is
    a growing list of nodes, the [graph]; an [Arc] is an index into it and two [Arc]s
    are pointer-equal when the indices are.  Dereferencing an index past the end is
    the panic: the theorems show that it does not happen.  Freeing a node that
    nothing reaches any more is not modelled. *)

From stdpp Require Import prelude gmap sets sorting.
From S2P Require Import Prelude Edges Tree.

Section dawg.
Context {V : Type}.

Record LockFreeDawgNode := mkDawgNode {
  dn_edges : list (nat * nat);
  dn_final : bool;
  dn_value : option V;
  dn_snapshot_id : option Z;
}.

Local Notation graph := (list LockFreeDawgNode).

(** [Arc::new] *)
Definition arc_new (g : graph) (node : LockFreeDawgNode) : graph * nat := (g ++ [node], length g).

Definition LockFreeDawgNode_new (is_final : bool) : LockFreeDawgNode := mkDawgNode [] is_final None None.

Definition dawg_node_value (node : LockFreeDawgNode) : option V :=
  if negb (dn_final node) then None else dn_value node.

Definition EDGE_LINEAR_SCAN_LIMIT : nat := 16.

(** [LockFreeEdgeList::find] *)
Definition edge_find (edges : list (nat * nat)) (label : nat) : option nat :=
  find_in_edges EDGE_LINEAR_SCAN_LIMIT edges label.

Definition copy_node (g : graph) (edges : list (nat * nat)) (is_final : bool) (value : option V) : graph * nat :=
  arc_new g (mkDawgNode edges is_final value None).

(** ** Lookup *)

Fixpoint find_node_from (g : graph) (current : nat) (units : list nat) : exec (option nat) :=
  match units with
  | [] => Ret (Some current)
  | label :: units =>
      node ← g !! current;
      match edge_find (dn_edges node) label with
      | None => Ret None
      | Some child => find_node_from g child units
      end
  end.

(** ** Path copying *)

Record Rewrite := mkRewrite { rw_node : nat; rw_changed : bool; rw_inserted : bool }.

(** The loop down the path: a missing child is a new empty node. *)
Definition walk_down (acc : graph * nat * list (nat * nat)) (label : nat) : exec (graph * nat * list (nat * nat)) :=
  let '(g, current, frames) := acc in
  node ← g !! current;
  let '(g, child) :=
    match edge_find (dn_edges node) label with
    | Some child => (g, child)
    | None => arc_new g (LockFreeDawgNode_new false)
    end in
  Ret (g, child, frames ++ [(current, label)]).

(** The loop back up: every node of the path is copied with its new child. *)
Definition copy_up (acc : graph * Rewrite) (frame : nat * nat) : exec (graph * Rewrite) :=
  let '(g, rewrite) := acc in
  let '(parent, label) := frame in
  node ← g !! parent;
  new_edges ← with_edge (dn_edges node) label (rw_node rewrite);
  let '(g, copy) := copy_node g new_edges (dn_final node) (dn_value node) in
  Ret (g, mkRewrite copy (rw_changed rewrite) (rw_inserted rewrite)).

Definition rewrite_path (g : graph) (node : nat) (units : list nat)
    (terminal : graph → nat → exec (graph * Rewrite)) : exec (graph * Rewrite) :=
  '(g, current, frames) ← foldM walk_down (g, node, []) units;
  '(g, rewrite) ← terminal g current;
  if negb (rw_changed rewrite) then Ret (g, mkRewrite node false false)
  else foldM copy_up (g, rewrite) (reverse frames).

(** The closures the operations pass to [rewrite_path] *)

Definition insert_terminal (g : graph) (node : nat) : exec (graph * Rewrite) :=
  n ← g !! node;
  if dn_final n then Ret (g, mkRewrite node false false)
  else let '(g, copy) := copy_node g (dn_edges n) true (dn_value n) in Ret (g, mkRewrite copy true true).

Definition value_terminal (value : option V) (g : graph) (node : nat) : exec (graph * Rewrite) :=
  n ← g !! node;
  let '(g, copy) := copy_node g (dn_edges n) true value in
  Ret (g, mkRewrite copy true (negb (dn_final n))).

Definition update_terminal (default_value : V) (update_fn : V → V) (g : graph) (node : nat) :
    exec (graph * Rewrite) :=
  n ← g !! node;
  let inserted := negb (dn_final n) in
  let next_value :=
    if dn_final n then
      match dn_value n with
      | Some value => update_fn value
      | None => default_value
      end
    else default_value in
  let '(g, copy) := copy_node g (dn_edges n) true (Some next_value) in
  Ret (g, mkRewrite copy true inserted).

Definition remove_terminal (g : graph) (node : nat) : exec (graph * Rewrite) :=
  n ← g !! node;
  if negb (dn_final n) then Ret (g, mkRewrite node false false)
  else let '(g, copy) := copy_node g (dn_edges n) false None in Ret (g, mkRewrite copy true false).

(** ** What a node stands for *)

Definition edge_to (g : graph) (a label : nat) : option nat :=
  match g !! a with Some n => edge_get label (dn_edges n) | None => None end.

(** Whether a node ends a term, and the value there *)
Definition node_entry (n : LockFreeDawgNode) : option (option V) :=
  if dn_final n then Some (dn_value n) else None.

(** What a node stands for: the terms below it with their optional values *)
Definition entry (g : graph) (a : nat) (t : list nat) : option (option V) :=
  match path (edge_to g) a t with
  | Some x => g !! x ≫= node_entry
  | None => None
  end.

(** Edges are sorted and lead to older nodes; only final nodes have a value. *)
Record node_ok (i : nat) (n : LockFreeDawgNode) : Prop := {
  no_sorted : StronglySorted lt (dn_edges n).*1;
  no_older : ∀ l c, edge_get l (dn_edges n) = Some c → c < i;
  no_value : dn_final n = false → dn_value n = None;
}.

Definition graph_ok (g : graph) : Prop := ∀ i n, g !! i = Some n → node_ok i n.

(** ** Lookups in a graph that grows *)

Lemma edge_find_get edges label :
  StronglySorted lt edges.*1 → edge_find edges label = edge_get label edges.
Proof. apply find_in_edges_get. Qed.

Lemma graph_ok_app g k : graph_ok (g ++ k) → graph_ok g.
Proof. intros Hg i n Hi. apply Hg. by apply lookup_app_l_Some. Qed.

Lemma graph_ok_snoc g n : graph_ok g → node_ok (length g) n → graph_ok (g ++ [n]).
Proof.
  intros Hg Hn i n' Hi. apply lookup_app_Some in Hi as [Hi|[? Hi]]; [by apply Hg|].
  apply list_lookup_singleton_Some in Hi as [? <-]. by replace i with (length g) by lia.
Qed.

Lemma edge_to_older g a l c : graph_ok g → edge_to g a l = Some c → c < a ∧ a < length g.
Proof.
  unfold edge_to. intros Hg. destruct (g !! a) as [n|] eqn:E; [|done]. intros Hc. split.
  - by eapply no_older; [apply Hg|].
  - by eapply lookup_lt_Some.
Qed.

Lemma edge_to_app g k a : a < length g → edge_to (g ++ k) a = edge_to g a.
Proof. intros Ha. unfold edge_to. by rewrite lookup_app_l. Qed.

Lemma path_older g a t x : graph_ok g → a < length g → path (edge_to g) a t = Some x → x ≤ a ∧ x + length t ≤ a.
Proof.
  intros Hg. revert a. induction t as [|l t IH]; intros a Ha Hp; cbn in *; [simplify_eq; lia|].
  destruct (edge_to g a l) as [c|] eqn:E; [|done]. apply edge_to_older in E; [|done].
  apply IH in Hp; lia.
Qed.

(** Nodes that are there keep their meaning. *)
Lemma path_grow g k a t :
  graph_ok g → a < length g → path (edge_to (g ++ k)) a t = path (edge_to g) a t.
Proof.
  intros Hg. revert a. induction t as [|l t IH]; intros a Ha; cbn; [done|].
  rewrite edge_to_app by done. destruct (edge_to g a l) as [c|] eqn:E; [|done].
  apply edge_to_older in E; [|done]. apply IH. lia.
Qed.

Lemma entry_grow g k a t : graph_ok g → a < length g → entry (g ++ k) a t = entry g a t.
Proof.
  intros Hg Ha. unfold entry. rewrite path_grow by done. destruct (path (edge_to g) a t) as [x|] eqn:E; [|done].
  apply path_older in E; [|done..]. by rewrite lookup_app_l by lia.
Qed.

Lemma entry_nil g a n : g !! a = Some n → entry g a [] = node_entry n.
Proof. intros Ha. unfold entry. cbn. by rewrite Ha. Qed.

Lemma entry_cons g a l t :
  entry g a (l :: t) = match edge_to g a l with Some c => entry g c t | None => None end.
Proof. unfold entry. cbn. by destruct (edge_to g a l). Qed.

Lemma find_node_from_path g a t :
  graph_ok g → a < length g → find_node_from g a t = Ret (path (edge_to g) a t).
Proof.
  intros Hg. revert a. induction t as [|l t IH]; intros a Ha; cbn; [done|].
  destruct (lookup_lt_is_Some_2 g a Ha) as [n Hn]. rewrite Hn. cbn. unfold edge_to at 1. rewrite Hn.
  rewrite edge_find_get by apply (no_sorted _ _ (Hg _ _ Hn)).
  destruct (edge_get l (dn_edges n)) as [c|] eqn:E; [|done].
  apply (no_older _ _ (Hg _ _ Hn)) in E. apply IH. lia.
Qed.

(** ** Path copying changes one term *)

Lemma entry_new_empty g t : graph_ok g → entry (g ++ [LockFreeDawgNode_new false]) (length g) t = None.
Proof.
  intros Hg. unfold entry. destruct t as [|l t]; cbn.
  - by rewrite list_lookup_middle by done.
  - unfold edge_to. by rewrite list_lookup_middle by done.
Qed.

Lemma node_ok_new i is_final : node_ok i (LockFreeDawgNode_new is_final).
Proof. split; [constructor|done|done]. Qed.

(** One step down: the child stands for what the parent has below the label. *)
Lemma walk_down_step g node label fr :
  graph_ok g → node < length g →
  ∃ k child, walk_down (g, node, fr) label = Ret (g ++ k, child, fr ++ [(node, label)]) ∧ graph_ok (g ++ k) ∧
    child < length (g ++ k) ∧ ∀ t, entry (g ++ k) child t = entry g node (label :: t).
Proof.
  intros Hg Hnode. destruct (lookup_lt_is_Some_2 g node Hnode) as [n Hn]. unfold walk_down. rewrite Hn. cbn [mbind option_bind].
  rewrite edge_find_get by apply (no_sorted _ _ (Hg _ _ Hn)).
  assert (edge_to g node label = edge_get label (dn_edges n)) as He by (unfold edge_to; by rewrite Hn).
  destruct (edge_get label (dn_edges n)) as [c|] eqn:E.
  - exists [], c. rewrite app_nil_r. apply (no_older _ _ (Hg _ _ Hn)) in E.
    split_and!; [done..|lia|]. intros t. by rewrite entry_cons, He.
  - exists [LockFreeDawgNode_new false], (length g). split_and!; [done|apply graph_ok_snoc; [done|apply node_ok_new]|
      rewrite length_app; cbn; lia|]. intros t. by rewrite entry_new_empty, entry_cons, He.
Qed.

(** One step up: the copy of the parent has the new child, and is otherwise the parent. *)
Lemma copy_up_step g rw node n label :
  graph_ok g → rw_node rw < length g → g !! node = Some n →
  ∃ n', copy_up (g, rw) (node, label) = Ret (g ++ [n'], mkRewrite (length g) (rw_changed rw) (rw_inserted rw)) ∧
    graph_ok (g ++ [n']) ∧ (∀ t, entry (g ++ [n']) (length g) (label :: t) = entry g (rw_node rw) t) ∧
    ∀ t, head t ≠ Some label → entry (g ++ [n']) (length g) t = entry g node t.
Proof.
  intros Hg Hrw Hn. pose proof (Hg _ _ Hn) as [Hs Hold Hv]. unfold copy_up. rewrite Hn. cbn [mbind option_bind].
  destruct (with_edge_spec (dn_edges n) label (rw_node rw) Hs) as (edges & -> & Hs' & Hget & _). cbn [mbind option_bind].
  set (n' := mkDawgNode edges (dn_final n) (dn_value n) None). exists n'.
  assert ((g ++ [n']) !! length g = Some n') as Hn' by by rewrite list_lookup_middle.
  assert (graph_ok (g ++ [n'])) as Hg'.
  { apply graph_ok_snoc; [done|]. split; [done| |done]. intros l c. cbn. rewrite Hget.
    destruct (l =? label); [congruence|]. intros Hc%Hold. apply lookup_lt_Some in Hn. lia. }
  assert (∀ l, edge_to (g ++ [n']) (length g) l = if l =? label then Some (rw_node rw) else edge_get l (dn_edges n)) as He.
  { intros l. unfold edge_to. rewrite Hn'. apply Hget. }
  split_and!; [done|done| |].
  - intros t. rewrite entry_cons, He, Nat.eqb_refl. by apply entry_grow.
  - intros [|l t] Hl; [by rewrite (entry_nil _ _ _ Hn'), (entry_nil _ _ _ Hn)|].
    rewrite !entry_cons, He, (proj2 (Nat.eqb_neq l label)) by naive_solver.
    unfold edge_to. rewrite Hn. destruct (edge_get l (dn_edges n)) as [c|] eqn:E; [|done].
    apply Hold in E. apply lookup_lt_Some in Hn. apply entry_grow; [done|lia].
Qed.

(** Down and up again: a node of the graph that takes the place of the one at the
    end of the path changes what is below the path, and nothing else. *)
Lemma rewrite_loops g node units fr :
  graph_ok g → node < length g →
  ∃ k cur fr', foldM walk_down (g, node, fr) units = Ret (g ++ k, cur, fr ++ fr') ∧ graph_ok (g ++ k) ∧
    cur < length (g ++ k) ∧ (∀ t, entry (g ++ k) cur t = entry g node (units ++ t)) ∧
    ∀ k2 rw, graph_ok ((g ++ k) ++ k2) → rw_node rw < length ((g ++ k) ++ k2) →
    ∃ k3 a, foldM copy_up ((g ++ k) ++ k2, rw) (reverse fr') =
        Ret (((g ++ k) ++ k2) ++ k3, mkRewrite a (rw_changed rw) (rw_inserted rw)) ∧
      graph_ok (((g ++ k) ++ k2) ++ k3) ∧ a < length (((g ++ k) ++ k2) ++ k3) ∧
      (∀ t, entry (((g ++ k) ++ k2) ++ k3) a (units ++ t) = entry ((g ++ k) ++ k2) (rw_node rw) t) ∧
      ∀ t, ¬ units `prefix_of` t → entry (((g ++ k) ++ k2) ++ k3) a t = entry g node t.
Proof.
  revert g node fr. induction units as [|label units IH]; intros g node fr Hg Hnode.
  { exists [], node, []. rewrite !app_nil_r. split_and!; [done..|]. intros k2 rw Hg2 Hrw. exists [], (rw_node rw).
    rewrite !app_nil_r. split_and!; [by destruct rw|done..|]. intros t []. apply prefix_nil. }
  destruct (walk_down_step g node label fr Hg Hnode) as (k0 & child & E & Hg0 & Hchild & Hent).
  destruct (IH (g ++ k0) child (fr ++ [(node, label)]) Hg0 Hchild) as (k & cur & fr' & E1 & Hg1 & Hcur & Hent1 & Hup).
  exists (k0 ++ k), cur, ((node, label) :: fr'). rewrite (app_assoc g k0 k). split_and!; [|done|done| |].
  - cbn [foldM]. rewrite E. cbn [mbind option_bind]. by rewrite E1, <-(app_assoc fr).
  - intros t. by rewrite Hent1, Hent.
  - intros k2 rw Hg2 Hrw. destruct (Hup k2 rw Hg2 Hrw) as (k3 & a & E3 & Hg3 & Ha & Hin & Hout).
    destruct (lookup_lt_is_Some_2 g node Hnode) as [n Hn].
    set (G := (((g ++ k0) ++ k) ++ k2) ++ k3) in *.
    assert (G !! node = Some n) as Hn3 by (unfold G; rewrite <-!app_assoc; by apply lookup_app_l_Some).
    destruct (copy_up_step G (mkRewrite a (rw_changed rw) (rw_inserted rw)) node n label Hg3 Ha Hn3)
      as (n' & E4 & Hg4 & Hin4 & Hout4).
    exists (k3 ++ [n']), (length G). rewrite (app_assoc _ k3 [n']). fold G. rewrite reverse_cons, foldM_app, E3.
    cbn [mbind option_bind foldM]. rewrite E4. cbn [mbind option_bind rw_changed rw_inserted].
    split_and!; [done|done|rewrite length_app; cbn; lia| |].
    + intros t. cbn [app]. rewrite Hin4. apply Hin.
    + intros t Ht. destruct (decide (head t = Some label)) as [Hl|Hl].
      * destruct t as [|l t]; [done|]. cbn in Hl. injection Hl as ->. rewrite Hin4. cbn [rw_node]. rewrite Hout, Hent; [done|].
        intros Hp. apply Ht. by apply prefix_cons.
      * rewrite Hout4 by done. unfold G. rewrite <-!app_assoc. by apply entry_grow.
Qed.

(** What a closure does to the node at the end of the path: it leaves a node with
    the entry [e] alone unless [changes e], and otherwise copies it with the entry
    [f e]. *)
Definition terminal_spec (terminal : graph → nat → exec (graph * Rewrite))
    (changes inserts : option (option V) → bool) (f : option (option V) → option (option V)) : Prop :=
  ∀ g a n, g !! a = Some n → (dn_final n = false → dn_value n = None) →
  if changes (node_entry n)
  then ∃ n', terminal g a = Ret (g ++ [n'], mkRewrite (length g) true (inserts (node_entry n))) ∧
    dn_edges n' = dn_edges n ∧ node_entry n' = f (node_entry n) ∧ (dn_final n' = false → dn_value n' = None)
  else ∃ rw, terminal g a = Ret (g, rw) ∧ rw_changed rw = false.

Definition is_new (e : option (option V)) : bool := match e with None => true | Some _ => false end.

Definition updated (default_value : V) (update_fn : V → V) (e : option (option V)) : option (option V) :=
  Some (Some (match e with Some (Some v) => update_fn v | _ => default_value end)).

Lemma insert_terminal_spec : terminal_spec insert_terminal is_new is_new (λ _, Some None).
Proof.
  intros g a n Hn Hv. unfold insert_terminal, node_entry. rewrite Hn. cbn. destruct (dn_final n); cbn; [eauto|].
  eexists. split_and!; [done|done|cbn; by rewrite Hv|done].
Qed.

Lemma value_terminal_spec value : terminal_spec (value_terminal value) (λ _, true) is_new (λ _, Some value).
Proof.
  intros g a n Hn Hv. unfold value_terminal, node_entry. rewrite Hn. cbn.
  exists (mkDawgNode (dn_edges n) true value None). split_and!; [by destruct (dn_final n)|done..].
Qed.

Lemma update_terminal_spec d f : terminal_spec (update_terminal d f) (λ _, true) is_new (updated d f).
Proof.
  intros g a n Hn Hv. unfold update_terminal, node_entry. rewrite Hn. cbn [mbind option_bind].
  assert (is_new (if dn_final n then Some (dn_value n) else None) = negb (dn_final n)) as -> by by destruct (dn_final n).
  eexists. split_and!; [done|done| |done].
  unfold updated. cbn. destruct (dn_final n); [|done]. by destruct (dn_value n).
Qed.

Lemma remove_terminal_spec : terminal_spec remove_terminal (λ e, negb (is_new e)) (λ _, false) (λ _, None).
Proof.
  intros g a n Hn Hv. unfold remove_terminal, node_entry. rewrite Hn. cbn. destruct (dn_final n); cbn; [|eauto].
  eexists. by split_and!.
Qed.

(** A node with the same edges stands for the same, but for the empty term. *)
Lemma entry_same_edges g a n n' t :
  graph_ok g → g !! a = Some n → dn_edges n' = dn_edges n → t ≠ [] →
  entry (g ++ [n']) (length g) t = entry g a t.
Proof.
  intros Hg Hn He Ht. destruct t as [|l t]; [done|]. rewrite !entry_cons. unfold edge_to.
  rewrite list_lookup_middle, Hn, He by done. destruct (edge_get l (dn_edges n)) as [c|] eqn:E; [|done].
  apply (no_older _ _ (Hg _ _ Hn)) in E. apply lookup_lt_Some in Hn. apply entry_grow; [done|lia].
Qed.

(** [g ++ k] has a node for the dictionary [m]. *)
Definition denotes (g : graph) (a : nat) (m : gmap (list nat) (option V)) : Prop :=
  a < length g ∧ ∀ t, entry g a t = m !! t.

Lemma denotes_grow g k a m : graph_ok g → denotes g a m → denotes (g ++ k) a m.
Proof. intros Hg [Ha Hm]. split; [rewrite length_app; lia|]. intros t. by rewrite entry_grow. Qed.

(** A rewrite changes the dictionary at one term, or leaves everything as it is. *)
Lemma rewrite_path_spec g root m units terminal changes inserts f :
  graph_ok g → denotes g root m → terminal_spec terminal changes inserts f →
  ∃ k rw, rewrite_path g root units terminal = Ret (g ++ k, rw) ∧ graph_ok (g ++ k) ∧
    rw_changed rw = changes (m !! units) ∧
    if changes (m !! units)
    then rw_inserted rw = inserts (m !! units) ∧ denotes (g ++ k) (rw_node rw) (partial_alter f units m)
    else rw = mkRewrite root false false.
Proof.
  intros Hg [Hroot Hm] Hterm. unfold rewrite_path.
  destruct (rewrite_loops g root units [] Hg Hroot) as (k & cur & fr & -> & Hg1 & Hcur & Hent & Hup).
  cbn [mbind option_bind app]. destruct (lookup_lt_is_Some_2 _ _ Hcur) as [n Hn].
  assert (node_entry n = m !! units) as Hne.
  { rewrite <-(entry_nil _ _ _ Hn), Hent, app_nil_r. apply Hm. }
  pose proof (Hterm _ _ _ Hn (no_value _ _ (Hg1 _ _ Hn))) as Ht. rewrite Hne in Ht.
  destruct (changes (m !! units)) eqn:Hch.
  - destruct Ht as (n' & -> & He & Hf & Hv). cbn [mbind option_bind rw_changed negb].
    assert (graph_ok ((g ++ k) ++ [n'])) as Hg2.
    { apply graph_ok_snoc; [done|]. destruct (Hg1 _ _ Hn) as [Hs Ho _]. split; rewrite ?He; [done| |done].
      intros l c Hc%Ho. lia. }
    destruct (Hup [n'] (mkRewrite (length (g ++ k)) true (inserts (m !! units))) Hg2) as (k3 & a & -> & Hg3 & Ha & Hin & Hout).
    { cbn. rewrite (length_app (g ++ k)). cbn. lia. }
    exists (k ++ [n'] ++ k3), (mkRewrite a true (inserts (m !! units))). rewrite !app_assoc in *. split_and!; [done|done|done|done|].
    split; [done|]. intros t. destruct (decide (units `prefix_of` t)) as [[t' ->]|Hp].
    + rewrite Hin. cbn [rw_node]. destruct (decide (t' = [])) as [->|Hne'].
      * rewrite app_nil_r, lookup_partial_alter_eq, (entry_nil _ _ n'); [done|]. by rewrite list_lookup_middle.
      * rewrite (entry_same_edges _ cur n) by done. rewrite Hent, Hm, lookup_partial_alter_ne; [done|].
        intros E. apply Hne', (app_inv_head units). by rewrite app_nil_r.
    + rewrite Hout, Hm by done. rewrite lookup_partial_alter_ne; [done|]. intros ->. by apply Hp.
  - destruct Ht as (rw & -> & Hrw). cbn [mbind option_bind]. rewrite Hrw. cbn [negb].
    exists k, (mkRewrite root false false). by split_and!.
Qed.

End dawg.
Arguments LockFreeDawgNode V : clear implicits.
Notation graph V := (list (LockFreeDawgNode V)).
