(* ===== verification/DawgZipper.v ===== *)
(** * Traversing a DAWG

    The zipper of src/src/dynamic_dawg/zipper.rs, and the two traversals of
    lockfree.rs that compaction uses: collecting the entries and counting the nodes
    of a revision.  The zipper keeps the graph it was made on; nodes that are
    allocated later do not change what it sees. *)

From stdpp Require Import prelude gmap sets sorting.
From S2P Require Import Prelude Edges Tree Dawg Zipper.

Section zipper.
Context {V : Type}.
Implicit Types g : graph V.

(** ** The zipper *)

Record DynamicDawgZipper := mkDawgZipper {
  wz_node : nat;
  wz_path : list nat;
  wz_graph : graph V;
}.

Definition dawg_zipper_new (g : graph V) (root : nat) : DynamicDawgZipper := mkDawgZipper root [] g.

Definition dawg_is_final (z : DynamicDawgZipper) : bool :=
  match wz_graph z !! wz_node z with Some n => dn_final n | None => false end.

Definition dawg_descend (z : DynamicDawgZipper) (label : nat) : option DynamicDawgZipper :=
  n ← wz_graph z !! wz_node z;
  child ← edge_find (dn_edges n) label;
  Some (mkDawgZipper child (wz_path z ++ [label]) (wz_graph z)).

Definition dawg_children (z : DynamicDawgZipper) : list (nat * DynamicDawgZipper) :=
  match wz_graph z !! wz_node z with
  | Some n => (λ '(label, child), (label, mkDawgZipper child (wz_path z ++ [label]) (wz_graph z))) <$> dn_edges n
  | None => []
  end.

Definition dawg_value (z : DynamicDawgZipper) : option V :=
  n ← wz_graph z !! wz_node z; dawg_node_value n.

#[global] Instance dawg_DictZipper : DictZipper DynamicDawgZipper := {
  zip_final := dawg_is_final;
  descend := dawg_descend;
  children := dawg_children;
  zip_path := wz_path;
}.

#[global] Instance dawg_ValuedDictZipper : ValuedDictZipper DynamicDawgZipper V := dawg_value.

(** ** The laws *)

Definition dawg_zip_ok (z : DynamicDawgZipper) : Prop :=
  graph_ok (wz_graph z) ∧ wz_node z < length (wz_graph z).

Lemma dawg_descend_edge z label :
  dawg_zip_ok z →
  dawg_descend z label =
    child ← edge_to (wz_graph z) (wz_node z) label; Some (mkDawgZipper child (wz_path z ++ [label]) (wz_graph z)).
Proof.
  intros [Hg Hz]. unfold dawg_descend, edge_to. destruct (lookup_lt_is_Some_2 _ _ Hz) as [n Hn]. rewrite Hn. cbn.
  by rewrite edge_find_get by apply (no_sorted _ _ (Hg _ _ Hn)).
Qed.

Lemma dawg_descend_ok z label c :
  dawg_zip_ok z → dawg_descend z label = Some c →
  dawg_zip_ok c ∧ wz_path c = wz_path z ++ [label] ∧ wz_node c < wz_node z.
Proof.
  intros Hz Hd. rewrite dawg_descend_edge in Hd by done. destruct (edge_to _ _ label) as [x|] eqn:E; [|done].
  destruct Hz as [Hg Hz]. apply edge_to_older in E; [|done]. injection Hd as <-. split; [split; [done|cbn; lia]|]. split; [done|cbn; lia].
Qed.

Lemma dawg_children_descend z l c :
  dawg_zip_ok z → (l, c) ∈ dawg_children z ↔ True ∧ dawg_descend z l = Some c.
Proof.
  intros Hz. rewrite dawg_descend_edge by done. destruct Hz as [Hg Hz]. unfold dawg_children, edge_to.
  destruct (lookup_lt_is_Some_2 _ _ Hz) as [n Hn]. rewrite Hn. pose proof (no_sorted _ _ (Hg _ _ Hn)) as Hs.
  rewrite list_elem_of_fmap. split.
  - intros ([l' x] & [= -> ->] & Hin). apply edge_get_Some in Hin; [|done]. by rewrite Hin.
  - intros [_ H]. destruct (edge_get l (dn_edges n)) as [x|] eqn:E; [|done]. cbn in H. injection H as <-.
    exists (l, x). split; [done|]. by apply edge_get_in.
Qed.

Lemma dawg_children_labels z : (dawg_children z).*1 = match wz_graph z !! wz_node z with Some n => (dn_edges n).*1 | None => [] end.
Proof.
  unfold dawg_children. destruct (wz_graph z !! wz_node z) as [n|]; [|done]. rewrite <-list_fmap_compose.
  apply list_fmap_ext. intros _ [l c] _. done.
Qed.

Lemma dawg_children_sorted z : dawg_zip_ok z → StronglySorted lt (dawg_children z).*1.
Proof.
  intros [Hg Hz]. rewrite dawg_children_labels. destruct (lookup_lt_is_Some_2 _ _ Hz) as [n Hn]. rewrite Hn.
  apply (no_sorted _ _ (Hg _ _ Hn)).
Qed.

Lemma sorted_lt_NoDup (l : list nat) : StronglySorted lt l → NoDup l.
Proof.
  induction 1 as [|x l _ IH Hx]; constructor; [|done]. intros Hin. rewrite Forall_forall in Hx. specialize (Hx x Hin). lia.
Qed.

#[global] Program Instance dawg_ZipperLaws : ZipperLaws DynamicDawgZipper := {
  zip_unit := λ _, True;
  zip_ok := dawg_zip_ok;
  zip_height := wz_node;
}.
Next Obligation. intros z l c Hz _ Hd. by apply (dawg_descend_ok z). Qed.
Next Obligation. intros z Hz. by apply sorted_lt_NoDup, dawg_children_sorted. Qed.
Next Obligation. intros z l c Hz. by apply dawg_children_descend. Qed.

#[global] Instance dawg_ValuedLaws : ValuedLaws DynamicDawgZipper V.
Proof.
  intros z v _. unfold zip_value, dawg_ValuedDictZipper, dawg_value. cbn. unfold dawg_is_final.
  destruct (wz_graph z !! wz_node z) as [n|]; [|done]. cbn. unfold dawg_node_value. by destruct (dn_final n).
Qed.

(** ** The zipper at a node stands for what the node does *)

Lemma dawg_descend_all z t :
  dawg_zip_ok z →
  descend_all z t = x ← path (edge_to (wz_graph z)) (wz_node z) t; Some (mkDawgZipper x (wz_path z ++ t) (wz_graph z)).
Proof.
  revert z. induction t as [|l t IH]; intros z Hz; cbn.
  { rewrite app_nil_r. by destruct z. }
  destruct (dawg_descend z l) as [c|] eqn:Hd.
  - pose proof Hd as (Hc & _)%dawg_descend_ok; [|done]. rewrite dawg_descend_edge in Hd by done.
    destruct (edge_to _ _ l) as [x|]; [|done]. injection Hd as <-. unfold descend_all in IH. rewrite IH by done. cbn.
    by rewrite <-app_assoc.
  - rewrite dawg_descend_edge in Hd by done. by destruct (edge_to _ _ l).
Qed.

Lemma dawg_accepts g a t :
  graph_ok g → a < length g →
  accepts (dawg_zipper_new g a) t = bool_decide (is_Some (entry g a t)) ∧
  lookup_value (dawg_zipper_new g a) t = mjoin (entry g a t).
Proof.
  intros Hg Ha. unfold accepts, lookup_value. rewrite dawg_descend_all by done. cbn. unfold entry.
  destruct (path (edge_to g) a t) as [x|] eqn:E; [|done]. cbn. apply path_older in E; [|done..].
  destruct (lookup_lt_is_Some_2 g x) as [n Hn]; [lia|].
  unfold dawg_is_final, zip_value, dawg_ValuedDictZipper, dawg_value, node_entry. cbn. rewrite Hn. cbn.
  unfold dawg_node_value. by destruct (dn_final n).
Qed.

(** ** Collecting the entries *)

(** A frame is the children still to visit, the next one first, and the length of
    the path to return to; the stack has its top first. *)
Fixpoint collect_entries_loop (g : graph V) (fuel : nat) (path : list nat) (stack : list (list (nat * nat) * nat))
    (entries : list (list nat * option V)) : exec (list (list nat * option V)) :=
  match stack with
  | [] => Ret entries
  | (children, depth) :: stack =>
      match fuel with
      | O => Panic
      | S fuel =>
          match children with
          | (label, child) :: children =>
              node ← g !! child;
              let parent_depth := length path in
              let path := path ++ [label] in
              let entries := if dn_final node then entries ++ [(path, dn_value node)] else entries in
              collect_entries_loop g fuel path ((dn_edges node, parent_depth) :: (children, depth) :: stack) entries
          | [] => collect_entries_loop g fuel (take depth path) stack entries
          end
      end
  end.

(** The positions below a node, in the order of the traversal *)
Definition positions (z : DynamicDawgZipper) : list DynamicDawgZipper :=
  nodes (λ z, (dawg_children z).*2) wz_node z.

(** Twice the number of positions is fuel enough. *)
Definition collect_visible_entries_from (g : graph V) (root : nat) : exec (list (list nat * option V)) :=
  node ← g !! root;
  let entries := if dn_final node then [([], dn_value node)] else [] in
  collect_entries_loop g (2 * length (positions (dawg_zipper_new g root))) [] [(dn_edges node, 0)] entries.

(** ** Counting the nodes *)

Fixpoint count_loop (g : graph V) (fuel : nat) (stack : list nat) (visited : gset nat) : exec (gset nat) :=
  match stack with
  | [] => Ret visited
  | pointer :: stack =>
      match fuel with
      | O => Panic
      | S fuel =>
          if decide (pointer ∈ visited) then count_loop g fuel stack visited
          else
            node ← g !! pointer;
            count_loop g fuel (reverse (dn_edges node).*2 ++ stack) ({[pointer]} ∪ visited)
      end
  end.

(** The edges and the root are pushed at most once each. *)
Definition count_unique_nodes_from (g : graph V) (root : nat) : exec nat :=
  visited ← count_loop g (S (length (g ≫= dn_edges))) [root] ∅;
  Ret (size visited).

(** ** What collecting returns *)

Definition entry_item (z : DynamicDawgZipper) : list nat * option V :=
  (wz_path z, match wz_graph z !! wz_node z with Some n => dn_value n | None => None end).

Lemma children_visits : visits (λ z, (dawg_children z).*2).
Proof. intros z _. reflexivity. Qed.

(** The children are sorted already. *)
Lemma children_in_order z : zip_ok z → sorted_children z = (dawg_children z).*2.
Proof.
  intros Hz. unfold sorted_children. f_equal.
  apply (StronglySorted_unique_strong (λ a b : nat * DynamicDawgZipper, a.1 < b.1)).
  - intros a b _ _ ? ?. lia.
  - apply (sorted_children_labels z Hz).
  - pose proof (dawg_children_sorted z Hz) as Hs. clear Hz. change (children z) with (dawg_children z).
    induction (dawg_children z) as [|a l IH]; [constructor|]. inversion Hs as [|? ? ? Hf]; subst. constructor; [auto|].
    apply Forall_forall. intros b Hb. rewrite Forall_forall in Hf. apply Hf. apply list_elem_of_fmap. by exists b.
  - apply merge_sort_Permutation.
Qed.

Lemma positions_eq z : zip_ok z → positions z = z :: ((dawg_children z).*2 ≫= positions).
Proof. apply (nodes_eq _ zip_ok zip_height (visits_exp _ children_visits)). Qed.

Lemma positions_sorted z : zip_ok z → positions z = nodes sorted_children zip_height z.
Proof.
  pose proof (visits_exp _ children_visits) as X1. pose proof (visits_exp _ sorted_children_visits) as X2.
  revert z. refine (nodes_ind _ zip_ok zip_height X1 _ _). intros z Hz IH.
  rewrite positions_eq, (nodes_eq _ zip_ok zip_height X2) by done. f_equal. rewrite children_in_order by done.
  apply Forall_bind_ext, Forall_forall. intros c Hc. by apply IH.
Qed.

Lemma positions_node g c n p :
  graph_ok g → g !! c = Some n →
  positions (mkDawgZipper c p g) =
    mkDawgZipper c p g :: (dn_edges n ≫= λ '(l, c'), positions (mkDawgZipper c' (p ++ [l]) g)).
Proof.
  intros Hg Hn. rewrite positions_eq by (split; [done|by eapply lookup_lt_Some]). f_equal.
  unfold dawg_children. cbn [wz_graph wz_node wz_path]. rewrite Hn. clear.
  induction (dn_edges n) as [|[l' c'] es IH]; [done|]. rewrite !fmap_cons, !bind_cons. by rewrite IH.
Qed.

Lemma final_position c p g l :
  omap (final_item entry_item) (mkDawgZipper c p g :: l) =
    match g !! c with Some n => if dn_final n then [(p, dn_value n)] else [] | None => [] end ++
    omap (final_item entry_item) l.
Proof.
  cbn [omap list_omap]. unfold final_item at 1, entry_item at 1. cbn. unfold dawg_is_final. cbn.
  destruct (g !! c) as [n|]; [|done]. by destruct (dn_final n).
Qed.

(** The positions the frames of the stack still have to visit *)
Fixpoint pending_positions (g : graph V) (path : list nat) (stack : list (list (nat * nat) * nat)) : list DynamicDawgZipper :=
  match stack with
  | [] => []
  | (cs, depth) :: stack =>
      (cs ≫= λ '(l, c), positions (mkDawgZipper c (path ++ [l]) g)) ++ pending_positions g (take depth path) stack
  end.

Lemma collect_entries_loop_spec g fuel path stack entries :
  graph_ok g → Forall (λ frame : list (nat * nat) * nat, Forall (λ e, e.2 < length g) frame.1) stack →
  2 * length (pending_positions g path stack) + length stack ≤ fuel →
  collect_entries_loop g fuel path stack entries =
    Ret (entries ++ omap (final_item entry_item) (pending_positions g path stack)).
Proof.
  intros Hg. revert path stack entries. induction fuel as [|fuel IH]; intros path [|[cs depth] stack] entries Hst Hf;
    cbn [collect_entries_loop pending_positions]; try (by rewrite app_nil_r); [cbn in Hf; lia|].
  apply Forall_cons in Hst as [Hcs Hst]. destruct cs as [|[l c] cs].
  - cbn in Hf |- *. by apply IH; [|lia].
  - apply Forall_cons in Hcs as [Hc Hcs]. cbn [fst snd] in *. destruct (lookup_lt_is_Some_2 g c Hc) as [n Hn].
    rewrite Hn. cbn [mbind option_bind].
    pose proof (positions_node g c n (path ++ [l]) Hg Hn) as Hpos.
    cbn [pending_positions] in Hf. rewrite bind_cons in Hf |- *. rewrite Hpos in Hf |- *.
    rewrite !length_app in Hf. cbn [length] in Hf.
    rewrite IH; [|constructor; [|constructor; [exact Hcs|exact Hst]]|].
    + cbn [pending_positions]. rewrite take_app_length, !omap_app, final_position, Hn. cbn [mbind option_bind].
      destruct (dn_final n); cbn [app]; by rewrite <-!(app_assoc).
    + cbn [fst]. apply Forall_forall. intros [l' c'] Hin. cbn. apply edge_get_Some in Hin; [|apply (no_sorted _ _ (Hg _ _ Hn))].
      apply (no_older _ _ (Hg _ _ Hn)) in Hin. lia.
    + cbn [pending_positions length]. rewrite take_app_length, !length_app. lia.
Qed.

Lemma collect_visible_entries_positions g root :
  graph_ok g → root < length g →
  collect_visible_entries_from g root = Ret (omap (final_item entry_item) (positions (dawg_zipper_new g root))).
Proof.
  intros Hg Hr. unfold collect_visible_entries_from. destruct (lookup_lt_is_Some_2 g root Hr) as [n Hn]. rewrite Hn.
  cbn [mbind option_bind].
  assert (positions (dawg_zipper_new g root) = dawg_zipper_new g root ::
    pending_positions g [] [(dn_edges n, 0)]) as Hpos.
  { unfold dawg_zipper_new. rewrite (positions_node g root n [] Hg Hn). cbn [pending_positions]. by rewrite app_nil_r. }
  rewrite Hpos. rewrite collect_entries_loop_spec; [|done| |cbn [length]; lia].
  - unfold dawg_zipper_new at 1. by rewrite final_position, Hn.
  - constructor; [|constructor]. cbn. apply Forall_forall. intros [l' c'] Hin. cbn.
    apply edge_get_Some in Hin; [|apply (no_sorted _ _ (Hg _ _ Hn))]. apply (no_older _ _ (Hg _ _ Hn)) in Hin. lia.
Qed.

(** The entries are those of the dictionary, in the order of the terms. *)
Lemma collect_visible_entries_spec g root m :
  graph_ok g → denotes g root m →
  ∃ entries, collect_visible_entries_from g root = Ret entries ∧ StronglySorted (λ a b, lex_lt a.1 b.1) entries ∧
    ∀ t v, (t, v) ∈ entries ↔ m !! t = Some v.
Proof.
  intros Hg [Hr Hm]. eexists. split; [by apply collect_visible_entries_positions|].
  assert (zip_ok (dawg_zipper_new g root)) as Hz by done. rewrite positions_sorted by done.
  split; [by apply items_sorted|]. intros t v. rewrite elem_of_items by (done || apply sorted_children_visits).
  rewrite <-Hm. unfold entry. setoid_rewrite (dawg_descend_all (dawg_zipper_new g root) _ Hz). cbn [wz_graph wz_node wz_path dawg_zipper_new app].
  split.
  - intros (t' & x & _ & Hx & Hf & Hi). destruct (path (edge_to g) root t') as [y|] eqn:E; [|done]. cbn in Hx. injection Hx as <-.
    unfold entry_item in Hi. cbn in Hf, Hi. unfold dawg_is_final in Hf. cbn in Hf. injection Hi as -> ->. rewrite E.
    destruct (g !! y) as [n|]; [|done]. cbn. unfold node_entry. by rewrite Hf.
  - intros H. destruct (path (edge_to g) root t) as [y|] eqn:E; [|done]. destruct (g !! y) as [n|] eqn:Hn; [|done]. cbn in H.
    unfold node_entry in H. destruct (dn_final n) eqn:Hf; [|done]. injection H as <-.
    exists t, (mkDawgZipper y t g). rewrite E. split_and!; [by apply Forall_true|done| |].
    + cbn. unfold dawg_is_final. cbn. by rewrite Hn.
    + unfold entry_item. cbn. by rewrite Hn.
Qed.

(** ** What counting returns *)

Definition reachable g (a x : nat) : Prop := ∃ t, path (edge_to g) a t = Some x.

Definition degree g (x : nat) : nat := match g !! x with Some n => length (dn_edges n) | None => 0 end.

(** The edges of the nodes that are not visited yet *)
Definition edges_left g (visited : gset nat) : nat :=
  sum_list_with (degree g) (filter (λ x, x ∉ visited) (seq 0 (length g))).

Lemma edges_left_visit g visited x :
  x < length g → x ∉ visited → edges_left g visited = degree g x + edges_left g ({[x]} ∪ visited).
Proof.
  intros Hx Hv. unfold edges_left.
  assert (filter (λ y, y ∉ visited) (seq 0 (length g)) ≡ₚ x :: filter (λ y, y ∉ {[x]} ∪ visited) (seq 0 (length g))) as ->; [|done].
  apply NoDup_Permutation.
  - apply NoDup_filter, NoDup_seq.
  - constructor; [|apply NoDup_filter, NoDup_seq]. rewrite list_elem_of_filter. set_solver.
  - intros y. rewrite elem_of_cons, !list_elem_of_filter, elem_of_seq. destruct (decide (y = x)) as [->|]; [|set_solver].
    split; [by left|]. intros _. split; [done|lia].
Qed.

Lemma list_filter_all {A} (P : A → Prop) `{∀ x, Decision (P x)} (l : list A) : (∀ x, P x) → filter P l = l.
Proof. intros HP. induction l as [|x l IH]; [done|]. by rewrite filter_cons, decide_True, IH. Qed.

Lemma edges_left_all g : edges_left g ∅ = length (g ≫= dn_edges).
Proof.
  unfold edges_left. rewrite list_filter_all by set_solver.
  unfold degree. induction g as [|n g IH] using rev_ind; [done|].
  rewrite length_app, seq_app, sum_list_with_app, bind_app, length_app. cbn. rewrite app_nil_r, list_lookup_middle by done. f_equal; [|lia].
  rewrite <-IH. clear IH. assert (∀ x, x ∈ seq 0 (length g) → x < length g) as Hs by (intros x Hx%elem_of_seq; lia).
  induction (seq 0 (length g)) as [|x l IH]; [done|]. cbn. rewrite lookup_app_l by (apply Hs; by left).
  rewrite IH; [done|]. intros y Hy. apply Hs. by right.
Qed.

Lemma node_edges g a n l c : graph_ok g → g !! a = Some n → (l, c) ∈ dn_edges n ↔ edge_to g a l = Some c.
Proof.
  intros Hg Hn. unfold edge_to. rewrite Hn. split; [|apply edge_get_in].
  apply edge_get_Some, (no_sorted _ _ (Hg _ _ Hn)).
Qed.

Lemma reachable_lt g a x : graph_ok g → a < length g → reachable g a x → x ≤ a.
Proof. intros Hg Ha [t Ht]. apply path_older in Ht; [lia|done..]. Qed.

Lemma reachable_edge g a x l c : reachable g a x → edge_to g x l = Some c → reachable g a c.
Proof. intros [t Ht] Hc. exists (t ++ [l]). apply path_snoc. eauto. Qed.

Lemma count_loop_spec g fuel root stack visited :
  graph_ok g → root < length g →
  (∀ x, x ∈ stack ∨ x ∈ visited → reachable g root x) →
  (∀ x l c, x ∈ visited → edge_to g x l = Some c → c ∈ stack ∨ c ∈ visited) →
  length stack + edges_left g visited ≤ fuel →
  ∃ X, count_loop g fuel stack visited = Ret X ∧ visited ⊆ X ∧ (∀ x, x ∈ stack → x ∈ X) ∧
    (∀ x, x ∈ X → reachable g root x) ∧ ∀ x l c, x ∈ X → edge_to g x l = Some c → c ∈ X.
Proof.
  intros Hg Hr. revert stack visited. induction fuel as [|fuel IH]; intros [|a stack] visited Hreach Hclosed Hf;
    cbn [count_loop]; [|cbn in Hf; lia| |].
  1, 2: exists visited; split_and!; [done|done|by intros x ?%elem_of_nil|by auto|];
    intros x l c Hx Hc; destruct (Hclosed x l c Hx Hc) as [?%elem_of_nil|]; done.
  case_decide as Ha.
  { destruct (IH stack visited) as (X & HX & Hsub & Hst & HR & HC); [set_solver| |cbn in Hf; lia|].
    - intros x l c Hx Hc. destruct (Hclosed x l c Hx Hc) as [[->|?]%elem_of_cons|]; auto.
    - exists X. split_and!; [done|done| |done|done]. intros x [->|Hx]%elem_of_cons; auto. }
  assert (reachable g root a) as Hra by (apply Hreach; left; by left).
  pose proof (reachable_lt g root a Hg Hr Hra) as Hlt. destruct (lookup_lt_is_Some_2 g a) as [n Hn]; [lia|].
  rewrite Hn. cbn [mbind option_bind]. set (stack' := reverse (dn_edges n).*2 ++ stack).
  assert (∀ c, c ∈ stack' ↔ (∃ l, edge_to g a l = Some c) ∨ c ∈ stack) as Hstack.
  { intros c. unfold stack'. rewrite elem_of_app, elem_of_reverse, list_elem_of_fmap. setoid_rewrite <-(node_edges g a n _ c Hg Hn).
    split; (intros [Hc|]; [left|by right]).
    - destruct Hc as ([l c'] & -> & Hin). by exists l.
    - destruct Hc as [l Hin]. by exists (l, c). }
  destruct (IH stack' ({[a]} ∪ visited)) as (X & HX & Hsub & Hst & HR & HC).
  - intros x [[[l Hl]|Hx]%Hstack|Hx]; [by eapply reachable_edge|apply Hreach; left; by right|].
    apply elem_of_union in Hx as [->%elem_of_singleton|Hx]; auto.
  - intros x l c [->%elem_of_singleton|Hx]%elem_of_union Hc; [left; apply Hstack; eauto|].
    destruct (Hclosed x l c Hx Hc) as [[->|?]%elem_of_cons|]; [set_solver|left; apply Hstack; by right|set_solver].
  - rewrite (edges_left_visit g visited a) in Hf by (done || lia). unfold stack'. unfold degree in Hf. rewrite Hn in Hf.
    rewrite length_app, length_reverse, length_fmap. cbn in Hf. lia.
  - exists X. split_and!; [done|set_solver| |done|done]. intros x [->|Hx]%elem_of_cons; [set_solver|].
    apply Hst, Hstack. by right.
Qed.

(** Counting gives the number of nodes one can reach. *)
Lemma count_unique_nodes_spec g root :
  graph_ok g → root < length g →
  ∃ X : gset nat, count_unique_nodes_from g root = Ret (size X) ∧ ∀ x, x ∈ X ↔ reachable g root x.
Proof.
  intros Hg Hr. unfold count_unique_nodes_from.
  destruct (count_loop_spec g (S (length (g ≫= dn_edges))) root [root] ∅ Hg Hr) as (X & -> & _ & Hst & Hreach & Hclosed).
  - intros x [->%list_elem_of_singleton|?%elem_of_empty]; [by exists []|done].
  - intros x l c ?%elem_of_empty. done.
  - rewrite edges_left_all. cbn. lia.
  - exists X. split; [done|]. intros x. split; [apply Hreach|]. intros [t Ht]. revert x Ht.
    induction t as [|l t IH] using rev_ind; intros x Ht.
    + injection Ht as <-. apply Hst. by left.
    + apply path_snoc in Ht as (p & Hp & Hl). eauto.
Qed.

End zipper.
Arguments DynamicDawgZipper V : clear implicits.
