(* ===== verification/DawgBuilder.v ===== *)
(** * The sorted DAWG builder

    [SortedDawgBuilder] of src/src/dynamic_dawg/lockfree.rs: terms come in order, the
    path of the last term is kept as pending nodes, and a suffix is frozen, sharing
    equal nodes, as soon as the next term leaves it.  The bulk constructors and
    compaction use it.  The pending nodes are in the order of the vector: the root
    first, the top last. *)

From stdpp Require Import prelude gmap sets sorting.
From S2P Require Import Prelude Edges Tree DatBuilder Zipper DatZipper Dawg DawgZipper.

Section builder.
Context {V : Type}.
Implicit Types g : graph V.

Record PendingBuildNode := mkPending {
  pb_label : option nat;
  pb_final : bool;
  pb_value : option V;
  pb_edges : list (nat * nat);
}.

Definition PendingBuildNode_root : PendingBuildNode := mkPending None false None [].
Definition PendingBuildNode_child (label : nat) : PendingBuildNode := mkPending (Some label) false None [].

(** Signatures are equal when the finality, the labels and the child pointers are. *)
Definition MergeSignature : Type := bool * list (nat * nat).

Record SortedDawgBuilder := mkSorted {
  sd_pending : list PendingBuildNode;
  sd_interned : gmap MergeSignature nat;
  sd_previous : list nat;
  sd_term_count : Z;
  sd_next_id : Z;
}.

Definition SortedDawgBuilder_new : SortedDawgBuilder := mkSorted [PendingBuildNode_root] ∅ [] 0 1.

Definition with_pending (b : SortedDawgBuilder) (pending : list PendingBuildNode) : SortedDawgBuilder :=
  mkSorted pending (sd_interned b) (sd_previous b) (sd_term_count b) (sd_next_id b).

(** [SnapshotNodeIdentity::new(id).expect(..)] *)
Definition snapshot_identity (id : Z) : exec Z := if (id =? 0)%Z then Panic else Ret id.

Definition freeze (g : graph V) (b : SortedDawgBuilder) (pending : PendingBuildNode) :
    exec (graph V * SortedDawgBuilder * nat) :=
  let signature := (pb_final pending, pb_edges pending) in
  match (match pb_value pending with None => sd_interned b !! signature | Some _ => None end) with
  | Some existing => Ret (g, b, existing)
  | None =>
      snapshot_id ← snapshot_identity (sd_next_id b);
      next_id ← (if decide (sd_next_id b + 1 < 2 ^ 64)%Z then Ret (sd_next_id b + 1)%Z else Panic);
      let '(g, node) := arc_new g (mkDawgNode (pb_edges pending) (pb_final pending) (pb_value pending) (Some snapshot_id)) in
      let interned :=
        match pb_value pending with None => <[signature := node]> (sd_interned b) | Some _ => sd_interned b end in
      Ret (g, mkSorted (sd_pending b) interned (sd_previous b) (sd_term_count b) next_id, node)
  end.

(** [Vec::pop] *)
Definition vec_pop {A} (l : list A) : option (list A * A) := x ← last l; Some (take (length l - 1) l, x).

(** The loop pops one node every time. *)
Fixpoint minimize_loop (fuel : nat) (g : graph V) (b : SortedDawgBuilder) (prefix_len : nat) :
    exec (graph V * SortedDawgBuilder) :=
  if prefix_len + 1 <? length (sd_pending b) then
    match fuel with
    | O => Panic
    | S fuel =>
        '(rest, pending) ← vec_pop (sd_pending b);
        label ← pb_label pending;
        '(g, b, frozen) ← freeze g (with_pending b rest) pending;
        '(rest, parent) ← vec_pop (sd_pending b);
        let parent := mkPending (pb_label parent) (pb_final parent) (pb_value parent) (pb_edges parent ++ [(label, frozen)]) in
        minimize_loop fuel g (with_pending b (rest ++ [parent])) prefix_len
    end
  else Ret (g, b).

Definition minimize_to (g : graph V) (b : SortedDawgBuilder) (prefix_len : nat) : exec (graph V * SortedDawgBuilder) :=
  minimize_loop (length (sd_pending b)) g b prefix_len.

(** [previous.iter().zip(units).take_while(|(left, right)| left == right).count()] *)
Fixpoint common_prefix (a b : list nat) : nat :=
  match a, b with
  | x :: a, y :: b => if x =? y then S (common_prefix a b) else 0
  | _, _ => 0
  end.

Definition sorted_insert (g : graph V) (b : SortedDawgBuilder) (units : list nat) (value : option V) :
    exec (graph V * SortedDawgBuilder) :=
  let common := common_prefix (sd_previous b) units in
  ordered ← (if common =? length (sd_previous b) then Ret true
             else if common <? length units then
               left ← sd_previous b !! common; right ← units !! common; Ret (left <? right)
             else Ret false);
  if negb ordered then Panic
  else
    '(g, b) ← minimize_to g b common;
    let pending := sd_pending b ++ (PendingBuildNode_child <$> drop common units) in
    '(rest, terminal) ← vec_pop pending;
    let term_count := if pb_final terminal then sd_term_count b else u64 (sd_term_count b + 1) in
    let terminal := mkPending (pb_label terminal) true value (pb_edges terminal) in
    Ret (g, mkSorted (rest ++ [terminal]) (sd_interned b) units term_count (sd_next_id b)).

Definition finish (g : graph V) (b : SortedDawgBuilder) : exec (graph V * nat * Z) :=
  '(g, b) ← minimize_to g b 0;
  '(_, root) ← vec_pop (sd_pending b);
  snapshot_id ← snapshot_identity (sd_next_id b);
  let '(g, root) := arc_new g (mkDawgNode (pb_edges root) (pb_final root) (pb_value root) (Some snapshot_id)) in
  Ret (g, root, sd_term_count b).

(** [from_sorted_entries_by]: the root and the term count of the version it makes *)
Definition from_sorted_entries (g : graph V) (entries : list (list nat * option V)) : exec (graph V * nat * Z) :=
  '(g, b) ← foldM (λ '(g, b) '(units, value), sorted_insert g b units value) (g, SortedDawgBuilder_new) entries;
  finish g b.

Definition from_sorted_terms (g : graph V) (terms : list (list nat)) : exec (graph V * nat * Z) :=
  from_sorted_entries g ((λ term, (term, None)) <$> terms).

(** [from_terms_with_values] and [from_terms] of ascii.rs; equal terms without values
    cannot be told apart, so that the unstable sort is as good as a stable one. *)
Definition dawg_from_terms_with_values (g : graph V) (entries : list (list nat * V)) : exec (graph V * nat * Z) :=
  from_sorted_entries g ((λ '(term, value), (term, Some value)) <$> sort_by_term entries).

Definition dawg_from_terms (g : graph V) (terms : list (list nat)) : exec (graph V * nat * Z) :=
  from_sorted_terms g (sort_by_term ((λ term, (term, tt)) <$> terms)).*1.

(** [sort_by(|(left, _), (right, _)| left.cmp(right))] is stable. *)
Definition build_minimized_parts (g : graph V) (entries : list (list nat * option V)) : exec (graph V * nat * Z) :=
  from_sorted_entries g (sort_by_term entries).

(** ** What the builder has frozen *)

(** The nodes the builder made are those from [base] on.  Each has something below
    it, and the valueless ones are interned under their signatures; the snapshot
    identities count the nodes from one. *)
Record frozen_ok (base : nat) g (b : SortedDawgBuilder) : Prop := {
  fz_base : base ≤ length g;
  fz_graph : graph_ok g;
  fz_sound sig a : sd_interned b !! sig = Some a →
    base ≤ a ∧ ∃ n, g !! a = Some n ∧ dn_value n = None ∧ (dn_final n, dn_edges n) = sig;
  fz_complete a n : base ≤ a → g !! a = Some n → dn_value n = None → sd_interned b !! (dn_final n, dn_edges n) = Some a;
  fz_nonempty a : base ≤ a → a < length g → ∃ t, is_Some (entry g a t);
  fz_own a l c : base ≤ a → edge_to g a l = Some c → base ≤ c;
  fz_ids i n : g !! (base + i) = Some n → dn_snapshot_id n = Some (Z.of_nat i + 1)%Z;
  fz_next : sd_next_id b = (Z.of_nat (length g - base) + 1)%Z;
}.

(** ** What the pending nodes stand for *)

Definition next_label (ps : list PendingBuildNode) : option nat := head ps ≫= pb_label.

Definition below g (edges : list (nat * nat)) (l : nat) (t : list nat) : option (option V) :=
  match edge_get l edges with Some c => entry g c t | None => None end.

Fixpoint stack_entry g (ps : list PendingBuildNode) (t : list nat) : option (option V) :=
  match ps with
  | [] => None
  | p :: ps =>
      match t with
      | [] => if pb_final p then Some (pb_value p) else None
      | l :: t => if decide (next_label ps = Some l) then stack_entry g ps t else below g (pb_edges p) l t
      end
  end.

(** A pending node whose edges are before the label of the next one *)
Record pending_ok (base : nat) g (next : option nat) (p : PendingBuildNode) : Prop := {
  po_sorted : StronglySorted lt (pb_edges p).*1;
  po_next l : next = Some l → Forall (λ e, e < l) (pb_edges p).*1;
  po_targets : Forall (λ c, base ≤ c < length g) (pb_edges p).*2;
  po_value : pb_final p = false → pb_value p = None;
}.

Fixpoint stack_ok (base : nat) g (ps : list PendingBuildNode) : Prop :=
  match ps with
  | [] => True
  | p :: ps => pending_ok base g (next_label ps) p ∧ stack_ok base g ps
  end.

Lemma below_grow g k edges l t :
  graph_ok g → Forall (λ c, c < length g) edges.*2 → below (g ++ k) edges l t = below g edges l t.
Proof.
  intros Hg He. unfold below. destruct (edge_get l edges) as [c|] eqn:E; [|done]. apply edge_get_in in E.
  apply entry_grow; [done|]. rewrite Forall_forall in He. apply He, list_elem_of_fmap. by exists (l, c).
Qed.

Lemma pending_targets base g next p : pending_ok base g next p → Forall (λ c, c < length g) (pb_edges p).*2.
Proof. intros Hp. eapply Forall_impl; [apply (po_targets _ _ _ _ Hp)|]. cbn. lia. Qed.

Lemma pending_ok_grow base g k next p : pending_ok base g next p → pending_ok base (g ++ k) next p.
Proof.
  intros [Hs Hn Ht Hv]. split; [done..| |done]. eapply Forall_impl; [done|]. cbn. intros c ?. rewrite length_app. lia.
Qed.

Lemma stack_ok_grow base g k ps : stack_ok base g ps → stack_ok base (g ++ k) ps.
Proof. induction ps as [|p ps IH]; [done|]. intros [Hp Hps]. split; [by apply pending_ok_grow|auto]. Qed.

Lemma stack_entry_grow base g k ps t :
  graph_ok g → stack_ok base g ps → stack_entry (g ++ k) ps t = stack_entry g ps t.
Proof.
  intros Hg. revert t. induction ps as [|p ps IH]; intros t Hok; [done|]. destruct Hok as [Hp Hps]. cbn.
  destruct t as [|l t]; [done|]. case_decide; [by apply IH|]. by eapply below_grow, pending_targets.
Qed.

Lemma entry_node g a n label t :
  g !! a = Some n → entry g a t = stack_entry g [mkPending label (dn_final n) (dn_value n) (dn_edges n)] t.
Proof.
  intros Hn. destruct t as [|l t]; [by rewrite (entry_nil _ _ _ Hn)|]. rewrite entry_cons. cbn. unfold edge_to, below.
  by rewrite Hn.
Qed.

(** ** Freezing *)

Lemma stack_entry_top g p q t : pb_final p = pb_final q → pb_value p = pb_value q → pb_edges p = pb_edges q →
  stack_entry g [p] t = stack_entry g [q] t.
Proof. intros E1 E2 E3. destruct t; cbn; by rewrite ?E1, ?E2, ?E3. Qed.

Lemma frozen_pending base g b pending : frozen_ok base g b → frozen_ok base g (with_pending b pending).
Proof. intros [????????]. by split. Qed.

(** A pending node with something below it *)
Definition inhabited (p : PendingBuildNode) : Prop := pb_final p = true ∨ pb_edges p ≠ [].

Lemma frozen_extend base g b p n :
  frozen_ok base g b → pending_ok base g None p → inhabited p →
  n = mkDawgNode (pb_edges p) (pb_final p) (pb_value p) (Some (sd_next_id b)) →
  graph_ok (g ++ [n]) ∧ (∃ t, is_Some (entry (g ++ [n]) (length g) t)) ∧
  ∀ t, entry (g ++ [n]) (length g) t = stack_entry g [p] t.
Proof.
  intros Hf Hp Hin ->. set (n := mkDawgNode _ _ _ _). pose proof (fz_graph _ _ _ Hf) as Hg.
  assert (graph_ok (g ++ [n])) as Hg'.
  { apply graph_ok_snoc; [done|]. split; [apply (po_sorted _ _ _ _ Hp)| |apply (po_value _ _ _ _ Hp)]. intros l c Hc%edge_get_in.
    pose proof (pending_targets _ _ _ _ Hp) as Ht. rewrite Forall_forall in Ht. apply Ht, list_elem_of_fmap. by exists (l, c). }
  assert (∀ t, entry (g ++ [n]) (length g) t = stack_entry g [p] t) as He.
  { intros t. rewrite (entry_node _ _ n (pb_label p)) by by rewrite list_lookup_middle.
    rewrite (stack_entry_top _ _ p) by done. apply (stack_entry_grow base); [done|]. by split. }
  split_and!; [done| |done]. destruct Hin as [Hfin|Hedges].
  - exists []. rewrite He. cbn. rewrite Hfin. eauto.
  - destruct (pb_edges p) as [|[l c] es] eqn:Ees; [done|]. pose proof (po_targets _ _ _ _ Hp) as Ht. rewrite Ees in Ht.
    apply Forall_cons in Ht as [Hc _]. destruct (fz_nonempty _ _ _ Hf c) as [t Ht]; [cbn in Hc; lia..|].
    exists (l :: t). rewrite He. cbn. unfold below. rewrite Ees. cbn. by rewrite Nat.eqb_refl.
Qed.

(** The builder with a new node for a pending node that is not interned yet *)
Definition with_node (b : SortedDawgBuilder) (p : PendingBuildNode) (node : nat) : SortedDawgBuilder :=
  mkSorted (sd_pending b)
    (match pb_value p with None => <[(pb_final p, pb_edges p) := node]> (sd_interned b) | Some _ => sd_interned b end)
    (sd_previous b) (sd_term_count b) (sd_next_id b + 1).

Lemma frozen_alloc base g b p :
  frozen_ok base g b → pending_ok base g None p → inhabited p →
  (pb_value p = None → sd_interned b !! (pb_final p, pb_edges p) = None) →
  let n := mkDawgNode (pb_edges p) (pb_final p) (pb_value p) (Some (sd_next_id b)) in
  frozen_ok base (g ++ [n]) (with_node b p (length g)).
Proof.
  intros Hf Hp Hin Hex n. pose proof (fz_base _ _ _ Hf) as Hbase. pose proof (fz_graph _ _ _ Hf) as Hg.
  destruct (frozen_extend base g b p n Hf Hp Hin eq_refl) as (Hg' & Hne & He).
  assert (∀ a, a < length (g ++ [n]) → a < length g ∨ a = length g) as Hlast by (intros a; rewrite length_app; cbn; lia).
  assert ((g ++ [n]) !! length g = Some n) as Hn by by rewrite list_lookup_middle.
  split; cbn [sd_interned sd_next_id with_node].
  - rewrite length_app. lia.
  - done.
  - intros sig a Ha. assert (sd_interned b !! sig = Some a ∨ (pb_value p = None ∧ sig = (pb_final p, pb_edges p) ∧ a = length g)) as [Hold|(Hv & -> & ->)].
    { destruct (pb_value p); [by left|]. apply lookup_insert_Some in Ha as [[<- <-]|[_ ?]]; [right|left]; done. }
    + destruct (fz_sound _ _ _ Hf _ _ Hold) as (? & n' & Hn' & ?). split; [done|]. exists n'. split; [|done]. by apply lookup_app_l_Some.
    + split; [done|]. by exists n.
  - intros a n' Ha Hn' Hv. destruct (Hlast a) as [Hlt| ->]; [by eapply lookup_lt_Some|..].
    + rewrite lookup_app_l in Hn' by done. pose proof (fz_complete _ _ _ Hf a n' Ha Hn' Hv) as Hc.
      destruct (pb_value p) eqn:Hpv; [done|]. rewrite lookup_insert_ne; [done|]. intros E. rewrite <-E, Hex in Hc; done.
    + rewrite Hn in Hn'. injection Hn' as <-. cbn in Hv. rewrite Hv. by rewrite lookup_insert_eq.
  - intros a Ha Hlt. destruct (Hlast a Hlt) as [Hl| ->]; [|done]. destruct (fz_nonempty _ _ _ Hf a Ha Hl) as [t Ht].
    exists t. by rewrite entry_grow.
  - intros a l c Ha Hc. destruct (edge_to_older _ _ _ _ Hg' Hc) as [_ Hlt]. destruct (Hlast a Hlt) as [Hl| ->].
    + rewrite edge_to_app in Hc by done. by eapply fz_own.
    + unfold edge_to in Hc. rewrite Hn in Hc. apply edge_get_in in Hc. pose proof (po_targets _ _ _ _ Hp) as Ht.
      rewrite Forall_forall in Ht. apply Ht, list_elem_of_fmap. by exists (l, c).
  - intros i n' Hn'. destruct (Hlast (base + i)) as [Hl|Hl]; [by eapply lookup_lt_Some|..].
    + rewrite lookup_app_l in Hn' by done. by apply (fz_ids _ _ _ Hf).
    + rewrite Hl, Hn in Hn'. injection Hn' as <-. cbn. rewrite (fz_next _ _ _ Hf). f_equal. lia.
  - rewrite (fz_next _ _ _ Hf), length_app. cbn. lia.
Qed.

Lemma freeze_spec base g b p :
  frozen_ok base g b → pending_ok base g None p → inhabited p → (sd_next_id b + 1 < 2 ^ 64)%Z →
  ∃ k b' a, freeze g b p = Ret (g ++ k, b', a) ∧ frozen_ok base (g ++ k) b' ∧ base ≤ a < length (g ++ k) ∧ length k ≤ 1 ∧
    (∀ t, entry (g ++ k) a t = stack_entry g [p] t) ∧ sd_pending b' = sd_pending b ∧
    sd_previous b' = sd_previous b ∧ sd_term_count b' = sd_term_count b.
Proof.
  intros Hf Hp Hin Hid. unfold freeze. set (existing := match pb_value p with None => _ | Some _ => None end).
  destruct existing as [a|] eqn:Hex; unfold existing in Hex.
  { destruct (pb_value p) eqn:Hv; [done|]. destruct (fz_sound _ _ _ Hf _ _ Hex) as (Ha & n & Hn & Hnv & [= E1 E2]).
    exists [], b, a. rewrite app_nil_r. split_and!; [done|done|done|by eapply lookup_lt_Some|cbn; lia| |done..].
    intros t. rewrite (entry_node _ _ n (pb_label p) t Hn). apply stack_entry_top; cbn; congruence. }
  unfold snapshot_identity. rewrite (proj2 (Z.eqb_neq _ _)) by (rewrite (fz_next _ _ _ Hf); lia).
  cbn [mbind option_bind]. rewrite decide_True by done. cbn [mbind option_bind arc_new].
  set (n := mkDawgNode _ _ _ _). destruct (frozen_extend base g b p n Hf Hp Hin eq_refl) as (Hg' & Hne & He).
  exists [n], (with_node b p (length g)), (length g). pose proof (fz_base _ _ _ Hf).
  split_and!; [done| |done|rewrite length_app; cbn; lia|cbn; lia|done..].
  apply frozen_alloc; [done..|]. intros Hv. by rewrite Hv in Hex.
Qed.

(** ** Folding the top of the stack into its parent *)

Definition add_edge (q : PendingBuildNode) (label a : nat) : PendingBuildNode :=
  mkPending (pb_label q) (pb_final q) (pb_value q) (pb_edges q ++ [(label, a)]).

Lemma next_label_app ps q rest q' rest' :
  pb_label q = pb_label q' → next_label (ps ++ q :: rest) = next_label (ps ++ q' :: rest').
Proof. intros E. destruct ps; [by cbn|done]. Qed.

Lemma edge_get_before edges l : Forall (λ e, e < l) edges.*1 → edge_get l edges = None.
Proof.
  intros Hall. destruct (edge_get l edges) as [c|] eqn:E; [|done]. apply edge_get_in in E.
  rewrite Forall_forall in Hall. enough (l < l) by lia. apply Hall, list_elem_of_fmap. by exists (l, c).
Qed.

Lemma stack_entry_fold base g k ps q p label a t :
  graph_ok g → stack_ok base g (ps ++ [q; p]) → pb_label p = Some label →
  (∀ t, entry (g ++ k) a t = stack_entry g [p] t) →
  stack_entry (g ++ k) (ps ++ [add_edge q label a]) t = stack_entry g (ps ++ [q; p]) t.
Proof.
  intros Hg. revert t. induction ps as [|r ps IH]; intros t Hok Hl Ha; destruct Hok as [Hr Hps]; cbn [app stack_entry] in *.
  - destruct t as [|l t]; [done|]. rewrite decide_False by done.
    assert (next_label [p] = Some label) as Hnext by exact Hl. rewrite Hnext in *.
    pose proof (edge_get_before _ _ (po_next _ _ _ _ Hr _ eq_refl)) as Hnone.
    unfold below. cbn [add_edge pb_edges]. rewrite edge_get_app. cbn [edge_get]. destruct (decide (Some label = Some l)) as [[= ->]|Hne].
    + rewrite Hnone, Nat.eqb_refl. apply Ha.
    + rewrite (proj2 (Nat.eqb_neq l label)) by congruence.
      pose proof (below_grow g k (pb_edges q) l t Hg (pending_targets _ _ _ _ Hr)) as Hb. unfold below in Hb.
      by destruct (edge_get l (pb_edges q)).
  - destruct t as [|l t]; [done|].
    rewrite (next_label_app ps (add_edge q label a) [] q [p]) by done. case_decide; [by apply IH|].
    by eapply below_grow, pending_targets.
Qed.

Lemma stack_ok_fold base g k ps q p label a :
  stack_ok base g (ps ++ [q; p]) → pb_label p = Some label → base ≤ a < length (g ++ k) →
  stack_ok base (g ++ k) (ps ++ [add_edge q label a]).
Proof.
  intros Hok Hl Ha. induction ps as [|r ps IH]; destruct Hok as [Hr Hps]; cbn [app stack_ok] in *.
  - split; [|done]. destruct (pending_ok_grow _ _ k _ _ Hr) as [Hs Hn Ht Hv]. specialize (Hn label Hl).
    split; cbn [add_edge pb_edges pb_final pb_value]; [|done| |done]; rewrite fmap_app.
    + apply StronglySorted_app. split_and!; [|done|repeat constructor]. intros x y Hx ->%list_elem_of_singleton.
      rewrite Forall_forall in Hn. by apply Hn.
    + apply Forall_app. split; [done|]. repeat constructor; cbn; lia.
  - split; [|by apply IH]. rewrite (next_label_app ps (add_edge q label a) [] q [p]) by done. by apply pending_ok_grow.
Qed.

Lemma stack_ok_app base g ps qs : stack_ok base g (ps ++ qs) → stack_ok base g qs.
Proof. induction ps as [|p ps IH]; [done|]. intros [_ ?]. auto. Qed.

Lemma vec_pop_snoc {A} (l : list A) x : vec_pop (l ++ [x]) = Some (l, x).
Proof.
  unfold vec_pop. rewrite last_snoc. cbn. rewrite length_app. cbn. replace (length l + 1 - 1) with (length l) by lia.
  by rewrite take_app_length.
Qed.

Lemma labels_snoc ps (q p : PendingBuildNode) (path : list nat) :
  pb_label <$> ps ++ [q; p] = None :: (Some <$> path) →
  ∃ path' x, path = path' ++ [x] ∧ length path' = length ps ∧ pb_label p = Some x ∧
    pb_label <$> ps ++ [q] = None :: (Some <$> path').
Proof.
  change [q; p] with ([q] ++ [p]). rewrite app_assoc, fmap_app. intros Hl.
  destruct path as [|x path _] using rev_ind.
  { apply (f_equal length) in Hl. rewrite !length_app, length_fmap, length_app in Hl. cbn in Hl. lia. }
  rewrite (fmap_app Some), app_comm_cons in Hl. apply app_inj_tail in Hl as [Hl Hx]. exists path, x. split_and!; [done| |done|done].
  apply (f_equal length) in Hl. rewrite length_fmap, length_app in Hl. cbn in Hl. rewrite length_fmap in Hl. lia.
Qed.

(** ** Minimizing a suffix *)

(** The pending nodes spell a prefix of the previous term; the edges of the top are
    not after the label that was left there. *)
Record suffix_inv (base : nat) g (b : SortedDawgBuilder) (m : gmap (list nat) (option V)) : Prop := {
  sx_frozen : frozen_ok base g b;
  sx_stack : stack_ok base g (sd_pending b);
  sx_labels : ∃ path rest, pb_label <$> sd_pending b = None :: (Some <$> path) ∧ sd_previous b = path ++ rest;
  sx_meaning t : stack_entry g (sd_pending b) t = m !! t;
  sx_top p : last (sd_pending b) = Some p →
    match sd_previous b !! (length (sd_pending b) - 1) with
    | Some l => Forall (λ e, e ≤ l) (pb_edges p).*1
    | None => pb_edges p = []
    end;
  sx_inhabited p : last (sd_pending b) = Some p → length (sd_pending b) > 1 → inhabited p;
}.

Definition suffix_size (base : nat) g (b : SortedDawgBuilder) : nat := (length g - base) + (length (sd_pending b) - 1).

Lemma suffix_pop base g b m :
  suffix_inv base g b m → 1 < length (sd_pending b) →
  ∃ ps q p label, sd_pending b = ps ++ [q; p] ∧ pb_label p = Some label ∧ pending_ok base g None p ∧
    pending_ok base g (Some label) q ∧ inhabited p ∧ sd_previous b !! length ps = Some label.
Proof.
  intros [Hf Hs (path & rest & Hl & Hprev) _ _ Hin] Hlen.
  destruct (sd_pending b) as [|p qs _] eqn:Eb using rev_ind; [cbn in Hlen; lia|].
  destruct qs as [|q ps _] using rev_ind; [cbn in Hlen; lia|]. rewrite <-app_assoc in *. cbn [app] in *.
  destruct (labels_snoc ps q p path Hl) as (path' & label & -> & Hlen' & Hlabel & _).
  exists ps, q, p, label. pose proof (stack_ok_app _ _ _ _ Hs) as [Hq [Hp _]]. cbn in Hq. rewrite Hlabel in Hq.
  split_and!; [done|done|done|done| |].
  - apply Hin; [|lia]. change [q; p] with ([q] ++ [p]). by rewrite app_assoc, last_snoc.
  - rewrite Hprev, lookup_app_l by (rewrite length_app; cbn; lia). by rewrite <-Hlen', list_lookup_middle.
Qed.

Lemma suffix_fold base g b m ps q p label k b1 a :
  suffix_inv base g b m → sd_pending b = ps ++ [q; p] → pb_label p = Some label →
  pending_ok base g (Some label) q → sd_previous b !! length ps = Some label →
  frozen_ok base (g ++ k) b1 → base ≤ a < length (g ++ k) → (∀ t, entry (g ++ k) a t = stack_entry g [p] t) →
  sd_previous b1 = sd_previous b →
  suffix_inv base (g ++ k) (with_pending b1 (ps ++ [add_edge q label a])) m.
Proof.
  intros Hinv Hb Hlabel Hq Hprev Hf1 Ha Hent Hprev1. pose proof Hinv as [Hf Hs (path & rest & Hl & Hpath) Hm _ _].
  rewrite Hb in *. split; cbn [sd_pending with_pending sd_previous].
  - by apply frozen_pending.
  - by eapply stack_ok_fold.
  - destruct (labels_snoc ps q p path Hl) as (path' & x & -> & _ & _ & Hl').
    exists path', (x :: rest). rewrite Hprev1, Hpath, <-app_assoc. split; [|done].
    rewrite <-Hl', !fmap_app. done.
  - intros t. rewrite <-Hm. by apply (stack_entry_fold base); [apply (fz_graph _ _ _ Hf)|..].
  - intros p'. rewrite last_snoc, length_app, Hprev1. cbn [length]. intros [= <-].
    replace (length ps + 1 - 1) with (length ps) by lia. rewrite Hprev. cbn. rewrite fmap_app. apply Forall_app. split.
    + eapply Forall_impl; [apply (po_next _ _ _ _ Hq _ eq_refl)|]. cbn. lia.
    + by repeat constructor.
  - intros p'. rewrite last_snoc. intros [= <-] _. right. cbn. by destruct (pb_edges q).
Qed.

Lemma minimize_loop_spec base fuel g b m c :
  suffix_inv base g b m → length (sd_pending b) ≤ fuel → (Z.of_nat (suffix_size base g b) + 2 < 2 ^ 64)%Z →
  ∃ k b', minimize_loop fuel g b c = Ret (g ++ k, b') ∧ suffix_inv base (g ++ k) b' m ∧
    suffix_size base (g ++ k) b' ≤ suffix_size base g b ∧
    length (sd_pending b') = Nat.min (length (sd_pending b)) (c + 1) ∧
    sd_previous b' = sd_previous b ∧ sd_term_count b' = sd_term_count b.
Proof.
  revert g b. induction fuel as [|fuel IH]; intros g b Hinv Hfuel Hsize; cbn [minimize_loop];
    destruct (Nat.ltb_spec (c + 1) (length (sd_pending b))) as [Hlt|Hge];
    [lia|exists [], b; rewrite app_nil_r; split_and!; done || lia| |exists [], b; rewrite app_nil_r; split_and!; done || lia].
  destruct (suffix_pop base g b m Hinv) as (ps & q & p & label & Hb & Hlabel & Hp & Hq & Hin & Hprev); [lia|].
  pose proof (sx_frozen _ _ _ _ Hinv) as Hf. pose proof (fz_base _ _ _ Hf) as Hbase.
  assert (sd_pending b = (ps ++ [q]) ++ [p]) as Hb2 by (rewrite Hb, <-app_assoc; done).
  rewrite Hb2, vec_pop_snoc. cbn [mbind option_bind]. rewrite Hlabel. cbn [mbind option_bind].
  destruct (freeze_spec base g (with_pending b (ps ++ [q])) p) as (k & b1 & a & -> & Hf1 & Ha & Hk & Hent & Hb1 & Hprev1 & Htc);
    [by apply frozen_pending|done|done|cbn; rewrite (fz_next _ _ _ Hf); unfold suffix_size in Hsize; lia|].
  cbn [mbind option_bind]. rewrite Hb1. cbn [sd_pending with_pending]. rewrite vec_pop_snoc. cbn [mbind option_bind].
  fold (add_edge q label a).
  pose proof (suffix_fold base g b m ps q p label k b1 a Hinv Hb Hlabel Hq Hprev Hf1 Ha Hent Hprev1) as Hinv'.
  assert (length (sd_pending b) = length ps + 2) as Hlen by (rewrite Hb, length_app; done).
  assert (suffix_size base (g ++ k) (with_pending b1 (ps ++ [add_edge q label a])) ≤ suffix_size base g b) as Hle.
  { unfold suffix_size. rewrite Hlen. cbn [sd_pending with_pending]. rewrite !length_app. cbn. lia. }
  destruct (IH (g ++ k) _ Hinv') as (k2 & b2 & -> & Hinv2 & Hle2 & Hlen2 & Hprev2 & Htc2);
    [cbn [sd_pending with_pending]; rewrite length_app; cbn; lia|lia|].
  exists (k ++ k2), b2. rewrite app_assoc. split_and!; [done|done|lia| |by rewrite Hprev2|by rewrite Htc2].
  rewrite Hlen2. cbn [sd_pending with_pending]. rewrite !length_app. cbn. lia.
Qed.

(** ** Inserting the next term *)

Lemma stack_entry_empty g us t : stack_entry g (PendingBuildNode_child <$> us) t = None.
Proof.
  revert t. induction us as [|u us IH]; intros t; [done|]. cbn. destruct t as [|l t]; [done|]. case_decide; [apply IH|done].
Qed.

(** New empty nodes change nothing, when the top has no edge for the first of them. *)
Lemma stack_entry_push g ps p us t :
  (∀ u, head us = Some u → edge_get u (pb_edges p) = None) →
  stack_entry g ((ps ++ [p]) ++ (PendingBuildNode_child <$> us)) t = stack_entry g (ps ++ [p]) t.
Proof.
  intros Hu. revert t. induction ps as [|q ps IH]; intros t; cbn [app stack_entry].
  - destruct t as [|l t]; [done|]. rewrite (decide_False (P := next_label [] = Some l)) by done. case_decide as Hl; [|done].
    rewrite stack_entry_empty. destruct us as [|u us]; [done|]. cbn in Hl. injection Hl as ->. unfold below. by rewrite Hu.
  - destruct t as [|l t]; [done|]. rewrite IH.
    assert (next_label ((ps ++ [p]) ++ (PendingBuildNode_child <$> us)) = next_label (ps ++ [p])) as -> by by destruct ps. done.
Qed.

Lemma stack_ok_push base g ps p us :
  stack_ok base g (ps ++ [p]) → (∀ u, head us = Some u → Forall (λ e, e < u) (pb_edges p).*1) →
  stack_ok base g ((ps ++ [p]) ++ (PendingBuildNode_child <$> us)).
Proof.
  intros Hok Hu. induction ps as [|q ps IH]; destruct Hok as [Hq Hps]; cbn [app stack_ok].
  - split.
    + destruct Hq as [Hs _ Ht Hv]. split; [done| |done|done]. intros l Hl. apply Hu. by destruct us.
    + clear. induction us as [|u us IH]; [done|]. split; [split|done]; cbn; by try constructor.
  - split; [|by apply IH]. by assert (next_label ((ps ++ [p]) ++ (PendingBuildNode_child <$> us)) = next_label (ps ++ [p])) as -> by by destruct ps.
Qed.

(** The entry at the top, and setting it *)
Lemma stack_entry_at_top g ps p lab path :
  pb_label <$> ps ++ [p] = lab :: (Some <$> path) →
  stack_entry g (ps ++ [p]) path = if pb_final p then Some (pb_value p) else None.
Proof.
  revert lab path. induction ps as [|q ps IH]; intros lab path Hl; cbn in Hl; injection Hl as _ Hl.
  - by destruct path.
  - destruct path as [|l path]; [by destruct ps|]. cbn [app stack_entry fmap list_fmap] in *.
    assert (next_label (ps ++ [p]) = Some l) as -> by (destruct ps; cbn in *; congruence).
    rewrite decide_True by done. by eapply IH.
Qed.

Lemma stack_entry_set_top g ps p value lab path t :
  pb_label <$> ps ++ [p] = lab :: (Some <$> path) →
  stack_entry g (ps ++ [mkPending (pb_label p) true value (pb_edges p)]) t =
    if decide (t = path) then Some value else stack_entry g (ps ++ [p]) t.
Proof.
  revert lab path t. induction ps as [|q ps IH]; intros lab path t Hl; cbn in Hl; injection Hl as _ Hl.
  - destruct path; [|done]. cbn. by destruct t.
  - destruct path as [|l path]; [by destruct ps|]. cbn [app stack_entry fmap list_fmap] in *.
    destruct t as [|l' t]; [done|].
    assert (next_label (ps ++ [p]) = Some l) as Hn by (destruct ps; cbn in *; congruence).
    rewrite (next_label_app ps _ [] p []) by done. rewrite Hn. destruct (decide (Some l = Some l')) as [[= <-]|Hne].
    + rewrite (IH (Some l) path) by done. destruct (decide (t = path)) as [->|]; [by rewrite decide_True|].
      by rewrite decide_False by congruence.
    + by rewrite decide_False by congruence.
Qed.

Lemma stack_ok_set_top base g ps p value :
  stack_ok base g (ps ++ [p]) → stack_ok base g (ps ++ [mkPending (pb_label p) true value (pb_edges p)]).
Proof.
  intros Hok. induction ps as [|q ps IH]; destruct Hok as [Hq Hps]; cbn [app stack_ok].
  - split; [|done]. by destruct Hq as [Hs Hn Ht Hv].
  - split; [|by apply IH]. by rewrite (next_label_app ps _ [] p []).
Qed.

(** Where the next term leaves the previous one *)
Lemma common_prefix_spec a b :
  (common_prefix a b = length a ∧ ∃ s, b = a ++ s) ∨
  (common_prefix a b = length b ∧ ∃ x s, a = b ++ x :: s) ∨
  ∃ p x y s s', a = p ++ x :: s ∧ b = p ++ y :: s' ∧ common_prefix a b = length p ∧ x ≠ y.
Proof.
  revert b. induction a as [|x a IH]; intros b; cbn; [left; eauto|].
  destruct b as [|y b]; [right; left; split; [done|]; exists x, a; done|].
  destruct (Nat.eqb_spec x y) as [->|Hne].
  - destruct (IH b) as [(E & s & ->)|[(E & z & s & ->)|(p & u & v & s & s' & -> & -> & E & Hne)]]; rewrite E.
    + left. cbn. eauto.
    + right; left. cbn. split; [done|]. by exists z, s.
    + right; right. by exists (y :: p), u, v, s, s'.
  - right; right. by exists [], x, y, a, b.
Qed.

Lemma lex_lt_leave p x y s s' : lex_lt (p ++ y :: s') (p ++ x :: s) ↔ y < x ∨ (x = y ∧ lex_lt s' s).
Proof. induction p as [|z p IH]; cbn; [naive_solver|]. rewrite <-IH. naive_solver lia. Qed.

Record builder_inv (base N : nat) g (b : SortedDawgBuilder) (m : gmap (list nat) (option V)) : Prop := {
  bi_suffix : suffix_inv base g b m;
  bi_full : length (sd_pending b) = length (sd_previous b) + 1;
  bi_size : suffix_size base g b ≤ N;
  bi_count : sd_term_count b = Z.of_nat (size m);
}.

Lemma builder_new base g : graph_ok g → base = length g → builder_inv base 0 g SortedDawgBuilder_new ∅.
Proof.
  intros Hg ->. split; [|done|unfold suffix_size; cbn; lia|done]. split; cbn.
  - split; cbn; [done..| | | | | |lia].
    + intros sig a. by rewrite lookup_empty.
    + intros a n Ha Hn%lookup_lt_Some. lia.
    + intros a ? ?. lia.
    + intros a l c Ha Hc%edge_to_older; [lia|done].
    + intros i n Hn%lookup_lt_Some. lia.
  - split; [|done]. split; cbn; by try constructor.
  - by exists [], [].
  - intros t. rewrite lookup_empty. by destruct t.
  - by intros p [= <-].
  - intros p _ ?. lia.
Qed.

Lemma snoc_push {A} (ps qs : list A) : qs ≠ [] → ∃ rest top, ps ++ qs = rest ++ [top] ∧ last qs = Some top.
Proof.
  intros Hq. destruct qs as [|top qs _] using rev_ind; [done|]. exists (ps ++ qs), top. by rewrite <-app_assoc, last_snoc.
Qed.

(** Extending the path to the new term and making its end final *)
Lemma insert_tail base N g b m ps p path us units value rest terminal :
  suffix_inv base g b m → sd_pending b = ps ++ [p] → pb_label <$> ps ++ [p] = None :: (Some <$> path) →
  units = path ++ us → suffix_size base g b ≤ N → sd_term_count b = Z.of_nat (size m) → (Z.of_nat (size m) + 1 < 2 ^ 64)%Z →
  (∀ u, head us = Some u → Forall (λ e, e < u) (pb_edges p).*1) → (us = [] → pb_edges p = []) →
  sd_pending b ++ (PendingBuildNode_child <$> us) = rest ++ [terminal] →
  builder_inv base (N + length us) g
    (mkSorted (rest ++ [mkPending (pb_label terminal) true value (pb_edges terminal)]) (sd_interned b) units
      (if pb_final terminal then sd_term_count b else u64 (sd_term_count b + 1)) (sd_next_id b))
    (<[units := value]> m).
Proof.
  intros Hinv Hb Hl -> HN Htc Hbound Hlt Hempty Hpush. pose proof Hinv as [Hf Hs _ Hm _ _]. rewrite Hb in Hs, Hm, Hpush.
  pose proof (stack_ok_push base g ps p us Hs Hlt) as Hok. rewrite Hpush in Hok.
  assert (∀ t, stack_entry g (rest ++ [terminal]) t = m !! t) as Hent.
  { intros t. rewrite <-Hm, <-Hpush. apply stack_entry_push. intros u Hu. apply edge_get_before. auto. }
  assert (pb_label <$> rest ++ [terminal] = None :: (Some <$> path ++ us)) as Hlab.
  { rewrite <-Hpush, fmap_app, Hl, <-app_comm_cons, (fmap_app Some). do 2 f_equal. rewrite <-list_fmap_compose. done. }
  pose proof (stack_entry_at_top g rest terminal _ _ Hlab) as Htop. rewrite Hent in Htop.
  assert (length rest = length path + length us) as Hlen.
  { apply (f_equal length) in Hlab. rewrite length_fmap, length_app in Hlab. cbn in Hlab. rewrite length_fmap, length_app in Hlab. lia. }
  assert (pb_edges terminal = []) as Hedges.
  { destruct us as [|u us _] using rev_ind.
    - rewrite app_nil_r in Hpush. apply app_inj_tail in Hpush as [_ <-]. auto.
    - rewrite (fmap_app PendingBuildNode_child), app_assoc in Hpush. by apply app_inj_tail in Hpush as [_ <-]. }
  split; cbn [sd_pending sd_previous sd_term_count].
  - split; cbn [sd_pending sd_previous].
    + by destruct Hf; split.
    + by apply stack_ok_set_top.
    + exists (path ++ us), []. rewrite app_nil_r. split; [|done]. by rewrite fmap_app in Hlab |- *.
    + intros t. rewrite (stack_entry_set_top g rest terminal value None (path ++ us)) by done. rewrite lookup_insert, Hent.
      destruct (decide (t = path ++ us)); by case_decide.
    + intros p'. rewrite last_snoc, length_app. cbn [length]. intros [= <-].
      rewrite (lookup_ge_None_2 (path ++ us)) by (rewrite length_app; lia). done.
    + intros p'. rewrite last_snoc. intros [= <-] _. by left.
  - rewrite !length_app. cbn. lia.
  - unfold suffix_size in *. cbn [sd_pending]. rewrite Hb in HN. apply (f_equal length) in Hl. rewrite length_fmap in Hl. cbn in Hl.
    rewrite length_fmap in Hl. rewrite !length_app in *. cbn in *. lia.
  - rewrite Htc. destruct (pb_final terminal).
    + by rewrite map_size_insert_Some.
    + rewrite map_size_insert_None by done. unfold u64. rewrite Z.mod_small by lia. lia.
Qed.

(** Where a term that does not come before the previous one leaves it *)
Lemma leave_point prev units :
  ¬ lex_lt units prev →
  let c := common_prefix prev units in
  ∃ path us, units = path ++ us ∧ length path = c ∧ c ≤ length prev ∧ take c prev = path ∧
    (us = [] → c = length prev) ∧ ∀ u, head us = Some u → c = length prev ∨ ∃ x, prev !! c = Some x ∧ x < u.
Proof.
  intros Hlt c. unfold c. destruct (common_prefix_spec prev units) as [(-> & s & Es)|[(E & x & s & Es)|(p & x & y & s & s' & E1 & E2 & -> & Hne)]].
  - exists prev, s. rewrite take_ge by lia. split_and!; eauto.
  - destruct Hlt. rewrite Es. rewrite <-(app_nil_r units) at 1. by apply lex_lt_app.
  - exists p, (y :: s'). rewrite E1, length_app. cbn. rewrite take_app_length. split_and!; [done|done|lia|done|done|].
    intros u [= <-]. right. exists x. rewrite list_lookup_middle by done. split; [done|].
    rewrite E1, E2, lex_lt_leave in Hlt. lia.
Qed.

(** The test of the assertion *)
Lemma ordered_test prev units :
  (if common_prefix prev units =? length prev then Ret true
   else if common_prefix prev units <? length units then
     left ← prev !! common_prefix prev units; right ← units !! common_prefix prev units; Ret (left <? right)
   else Ret false) = Ret (bool_decide (¬ lex_lt units prev)).
Proof.
  destruct (common_prefix_spec prev units) as [(-> & s & Es)|[(E & x & s & Es)|(p & x & y & s & s' & E1 & E2 & -> & Hne)]].
  - rewrite Nat.eqb_refl, bool_decide_true; [done|]. rewrite Es. clear. induction prev as [|x prev IH]; cbn; [intros H; by destruct s|].
    intros [?|[_ ?]]; [lia|auto].
  - rewrite E, (proj2 (Nat.eqb_neq _ _)), Nat.ltb_irrefl by (rewrite Es, length_app; cbn; lia).
    rewrite bool_decide_false; [done|]. intros Hlt. apply Hlt. rewrite Es. rewrite <-(app_nil_r units) at 1. by apply lex_lt_app.
  - rewrite (proj2 (Nat.eqb_neq _ _)) by (rewrite E1, length_app; cbn; lia).
    rewrite (proj2 (Nat.ltb_lt _ _)) by (rewrite E2, length_app; cbn; lia).
    rewrite E1, E2, !list_lookup_middle by done. cbn [mbind option_bind]. f_equal.
    destruct (Nat.ltb_spec x y); [rewrite bool_decide_true|rewrite bool_decide_false]; [done| |done|]; rewrite lex_lt_leave; lia.
Qed.

(** The builder takes a term that does not come before the previous one. *)
Lemma sorted_insert_spec base N g b m units value :
  builder_inv base N g b m → ¬ lex_lt units (sd_previous b) →
  (Z.of_nat N + 2 < 2 ^ 64)%Z → (Z.of_nat (size m) + 1 < 2 ^ 64)%Z →
  ∃ k b', sorted_insert g b units value = Ret (g ++ k, b') ∧ sd_previous b' = units ∧
    builder_inv base (N + length units) (g ++ k) b' (<[units := value]> m).
Proof.
  intros [Hinv Hfull HN Htc] Hlt HNb Hmb. unfold sorted_insert. rewrite ordered_test, bool_decide_true by done.
  destruct (leave_point (sd_previous b) units Hlt) as (path & us & Hunits & Hpath & Hc & Htake & Hus & Hhead).
  set (c := common_prefix (sd_previous b) units) in *.
  cbn [mbind option_bind negb]. unfold minimize_to.
  destruct (minimize_loop_spec base (length (sd_pending b)) g b m c Hinv) as (k & b1 & -> & Hinv1 & Hsz & Hlen & Hprev1 & Htc1); [done|lia|].
  cbn [mbind option_bind]. rewrite Hfull, Nat.min_r in Hlen by lia.
  destruct (sd_pending b1) as [|p ps _] eqn:Hb1 using rev_ind; [cbn in Hlen; lia|]. rewrite length_app in Hlen. cbn in Hlen.
  pose proof (sx_labels _ _ _ _ Hinv1) as (path1 & rest1 & Hl1 & Hp1). rewrite Hb1 in Hl1.
  assert (path1 = path) as ->.
  { rewrite <-Htake, <-Hprev1, Hp1. pose proof (f_equal length Hl1) as Hlen1. rewrite length_fmap, length_app in Hlen1. cbn in Hlen1.
    rewrite length_fmap in Hlen1. by rewrite take_app_length' by lia. }
  assert (drop c units = us) as -> by (rewrite Hunits, <-Hpath; apply drop_app_length).
  destruct (snoc_push ps (p :: (PendingBuildNode_child <$> us))) as (rest & terminal & Hpush & _); [done|].
  assert ((ps ++ [p]) ++ (PendingBuildNode_child <$> us) = rest ++ [terminal]) as Hpush' by (by rewrite <-app_assoc).
  rewrite Hpush', vec_pop_snoc. cbn [mbind option_bind].
  pose proof (sx_top _ _ _ _ Hinv1 p) as Htop. rewrite Hb1, last_snoc, length_app, Hprev1 in Htop. specialize (Htop eq_refl). cbn [length] in Htop.
  replace (length ps + 1 - 1) with c in Htop by lia.
  exists k. eexists. split; [done|]. split; [done|].
  pose proof (insert_tail base N (g ++ k) b1 m ps p path us units value rest terminal Hinv1 Hb1 Hl1 Hunits) as Htail.
  assert (N + length us ≤ N + length units) as Hle by (rewrite Hunits, length_app; lia).
  destruct Htail as [Hi Hfu Hn Hco]; [lia|by rewrite Htc1|done| | |by rewrite Hb1|split; [done|done|lia|done]].
  - intros u Hu. destruct (Hhead u Hu) as [Hcl|(x & Hx & Hxu)].
    + rewrite lookup_ge_None_2 in Htop by lia. rewrite Htop. constructor.
    + rewrite Hx in Htop. eapply Forall_impl; [exact Htop|]. cbn. lia.
  - intros Hnil. rewrite lookup_ge_None_2 in Htop by (rewrite (Hus Hnil); lia). done.
Qed.

(** ** All the terms *)

Definition last_values (m : gmap (list nat) (option V)) (entries : list (list nat * option V)) : gmap (list nat) (option V) :=
  foldl (λ m e, <[e.1 := e.2]> m) m entries.

Fixpoint nondecreasing (prev : list nat) (entries : list (list nat * option V)) : Prop :=
  match entries with
  | [] => True
  | e :: entries => ¬ lex_lt e.1 prev ∧ nondecreasing e.1 entries
  end.

Lemma map_size_insert_le (m : gmap (list nat) (option V)) t v : size (<[t := v]> m) ≤ size m + 1.
Proof.
  destruct (m !! t) eqn:E; [rewrite map_size_insert_Some by eauto|rewrite map_size_insert_None by done]; lia.
Qed.

Lemma insert_sorted_all base N g b m entries :
  builder_inv base N g b m → nondecreasing (sd_previous b) entries →
  (Z.of_nat (N + letters entries) + 2 < 2 ^ 64)%Z → (Z.of_nat (size m + length entries) < 2 ^ 64)%Z →
  ∃ k b', foldM (λ '(g, b) '(units, value), sorted_insert g b units value) (g, b) entries = Ret (g ++ k, b') ∧
    builder_inv base (N + letters entries) (g ++ k) b' (last_values m entries).
Proof.
  revert N g b m. induction entries as [|[units value] entries IH]; intros N g b m Hb Hord HN Hm; cbn [foldM].
  { exists [], b. rewrite app_nil_r. by rewrite Nat.add_0_r. }
  destruct Hord as [Hlt Hord]. change (letters ((units, value) :: entries)) with (length units + letters entries) in *.
  cbn [length] in Hm.
  destruct (sorted_insert_spec base N g b m units value Hb Hlt) as (k & b1 & -> & Hprev & Hb1); [lia..|].
  cbn [mbind option_bind]. pose proof (map_size_insert_le m units value).
  destruct (IH (N + length units) (g ++ k) b1 _ Hb1) as (k2 & b2 & -> & Hb2); [by rewrite Hprev|lia..|].
  exists (k ++ k2), b2. rewrite app_assoc, Nat.add_assoc. done.
Qed.

Lemma insert_unsorted base N g b m entries :
  builder_inv base N g b m → ¬ nondecreasing (sd_previous b) entries →
  (Z.of_nat (N + letters entries) + 2 < 2 ^ 64)%Z → (Z.of_nat (size m + length entries) < 2 ^ 64)%Z →
  foldM (λ '(g, b) '(units, value), sorted_insert g b units value) (g, b) entries = Panic.
Proof.
  revert N g b m. induction entries as [|[units value] entries IH]; intros N g b m Hb Hord HN Hm; cbn [foldM].
  { by destruct Hord. }
  change (letters ((units, value) :: entries)) with (length units + letters entries) in *. cbn [length] in Hm.
  destruct (decide (lex_lt units (sd_previous b))) as [Hlt|Hlt].
  { unfold sorted_insert. rewrite ordered_test, bool_decide_false by auto. done. }
  destruct (sorted_insert_spec base N g b m units value Hb Hlt) as (k & b1 & -> & Hprev & Hb1); [lia..|].
  cbn [mbind option_bind]. pose proof (map_size_insert_le m units value).
  apply (IH (N + length units) (g ++ k) b1 (<[units := value]> m) Hb1); [rewrite Hprev; naive_solver|lia..].
Qed.

(** ** The finished graph *)

(** The root is the last node.  The other nodes of the builder have something below
    them, and a valueless one is determined by its finality and edges. *)
Record built (base : nat) g (root : nat) (m : gmap (list nat) (option V)) : Prop := {
  bt_graph : graph_ok g;
  bt_root : root + 1 = length g;
  bt_base : base ≤ root;
  bt_denotes : denotes g root m;
  bt_own a l c : base ≤ a → edge_to g a l = Some c → base ≤ c;
  bt_nonempty a : base ≤ a → a < root → ∃ t, is_Some (entry g a t);
  bt_shared a b n n' : base ≤ a → a < root → base ≤ b → b < root → g !! a = Some n → g !! b = Some n' →
    dn_value n = None → dn_value n' = None → dn_final n = dn_final n' → dn_edges n = dn_edges n' → a = b;
  bt_ids i n : g !! (base + i) = Some n → dn_snapshot_id n = Some (Z.of_nat i + 1)%Z;
}.

Lemma finish_spec base N g b m :
  builder_inv base N g b m → (Z.of_nat N + 2 < 2 ^ 64)%Z →
  ∃ k root, finish g b = Ret (g ++ k, root, Z.of_nat (size m)) ∧ built base (g ++ k) root m.
Proof.
  intros [Hinv Hfull HN Htc] HNb. unfold finish, minimize_to.
  destruct (minimize_loop_spec base (length (sd_pending b)) g b m 0 Hinv) as (k & b1 & -> & Hinv1 & Hsz & Hlen & Hprev1 & Htc1); [done|lia|].
  cbn [mbind option_bind]. rewrite Hfull, Nat.min_r in Hlen by lia.
  destruct (sd_pending b1) as [|p [|? ?]] eqn:Hb1; cbn in Hlen; try lia. rewrite (vec_pop_snoc [] p : vec_pop [p] = Some ([], p)). cbn [mbind option_bind].
  destruct Hinv1 as [Hf Hs _ Hm _ _]. rewrite Hb1 in Hs, Hm. pose proof (fz_base _ _ _ Hf) as Hbase. pose proof (fz_next _ _ _ Hf) as Hnext.
  pose proof (fz_graph _ _ _ Hf) as Hg. destruct Hs as [Hp _].
  unfold snapshot_identity. rewrite (proj2 (Z.eqb_neq _ _)) by lia. cbn [mbind option_bind arc_new].
  set (n := mkDawgNode _ _ _ _). exists (k ++ [n]), (length (g ++ k)). rewrite app_assoc, Htc1, Htc. split; [done|].
  set (G := g ++ k) in *. assert ((G ++ [n]) !! length G = Some n) as Hn by by rewrite list_lookup_middle.
  assert (graph_ok (G ++ [n])) as Hg'.
  { apply graph_ok_snoc; [done|]. split; [apply (po_sorted _ _ _ _ Hp)| |apply (po_value _ _ _ _ Hp)]. intros l c Hc%edge_get_in.
    pose proof (pending_targets _ _ _ _ Hp) as Ht. rewrite Forall_forall in Ht. apply Ht, list_elem_of_fmap. by exists (l, c). }
  assert (∀ a, a < length G → (G ++ [n]) !! a = G !! a) as Hold by (intros; by apply lookup_app_l).
  split.
  - done.
  - by rewrite length_app.
  - done.
  - split; [rewrite length_app; cbn; lia|]. intros t. rewrite (entry_node _ _ n (pb_label p) t Hn), <-Hm.
    rewrite (stack_entry_top _ _ p) by done. apply (stack_entry_grow base); [done|]. by split.
  - intros a l c Ha Hc. destruct (decide (a < length G)) as [Hl|Hl].
    + rewrite edge_to_app in Hc by done. by eapply fz_own.
    + pose proof Hc as [_ Hlt]%edge_to_older; [|done]. rewrite length_app in Hlt. cbn in Hlt. replace a with (length G) in Hc by lia.
      unfold edge_to in Hc. rewrite Hn in Hc. apply edge_get_in in Hc. pose proof (po_targets _ _ _ _ Hp) as Ht.
      rewrite Forall_forall in Ht. apply Ht, list_elem_of_fmap. by exists (l, c).
  - intros a Ha Hlt. destruct (fz_nonempty _ _ _ Hf a Ha Hlt) as [t Ht]. exists t. by rewrite entry_grow.
  - intros a a' na nb Ha Hlta Hb Hltb Hna Hnb Hva Hvb Ef Ee. rewrite Hold in Hna, Hnb by done.
    apply (fz_complete _ _ _ Hf) in Hna, Hnb; [|done..]. rewrite Ef, Ee in Hna. congruence.
  - intros i n' Hn'. destruct (decide (base + i < length G)) as [Hl|Hl].
    + rewrite Hold in Hn' by done. by apply (fz_ids _ _ _ Hf).
    + pose proof Hn' as Hlt%lookup_lt_Some. rewrite length_app in Hlt. cbn in Hlt. replace (base + i) with (length G) in Hn' by lia.
      rewrite Hn in Hn'. injection Hn' as <-. cbn. rewrite Hnext. f_equal. lia.
Qed.

(** Entries few enough for the counters of the builder *)
Definition builder_room (entries : list (list nat * option V)) : Prop :=
  (Z.of_nat (letters entries) + 2 < 2 ^ 64 ∧ Z.of_nat (length entries) < 2 ^ 64)%Z.

Lemma from_sorted_entries_spec g entries :
  graph_ok g → nondecreasing [] entries → builder_room entries →
  ∃ k root, from_sorted_entries g entries = Ret (g ++ k, root, Z.of_nat (size (last_values ∅ entries))) ∧
    built (length g) (g ++ k) root (last_values ∅ entries).
Proof.
  intros Hg Hord [Hl Hn]. unfold from_sorted_entries.
  destruct (insert_sorted_all (length g) 0 g SortedDawgBuilder_new ∅ entries) as (k & b & -> & Hb);
    [by apply builder_new|done|cbn; lia|rewrite map_size_empty; cbn; lia|].
  cbn [mbind option_bind]. destruct (finish_spec _ _ _ _ _ Hb) as (k2 & root & -> & Hbuilt); [cbn; lia|].
  exists (k ++ k2), root. rewrite app_assoc. done.
Qed.

(** ** The finished graph is minimal *)

Lemma sorted_edges_ext (es es' : list (nat * nat)) :
  StronglySorted lt es.*1 → StronglySorted lt es'.*1 → (∀ l, edge_get l es = edge_get l es') → es = es'.
Proof.
  intros Hs Hs' Heq.
  assert (∀ es : list (nat * nat), StronglySorted lt es.*1 → StronglySorted (λ a b : nat * nat, a.1 < b.1) es ∧ NoDup es) as Hsort.
  { clear. intros es. induction es as [|e es IH]; intros Hs; [split; constructor|]. inversion Hs as [|? ? Hs1 Hf]; subst.
    destruct (IH Hs1) as [IH1 IH2]. rewrite Forall_forall in Hf. split; constructor; try done.
    - apply Forall_forall. intros e' He'. apply Hf, list_elem_of_fmap. by exists e'.
    - intros He. enough (e.1 < e.1) by lia. apply Hf, list_elem_of_fmap. by exists e. }
  destruct (Hsort es Hs), (Hsort es' Hs'). apply (StronglySorted_unique_strong (λ a b : nat * nat, a.1 < b.1)); [intros; lia|done..|].
  apply NoDup_Permutation; [done..|]. intros [l c].
  split; intros Hin%edge_get_Some; [|done| |done]; apply edge_get_in; congruence.
Qed.

Section minimal.
Context (base : nat) (g : graph V) (root : nat) (m : gmap (list nat) (option V)) (Hb : built base g root m).

Lemma built_reachable x t : path (edge_to g) root t = Some x → base ≤ x ∧ x ≤ root ∧ ∀ t', entry g x t' = m !! (t ++ t').
Proof.
  intros Ht. pose proof (bt_graph _ _ _ _ Hb) as Hg. destruct (bt_denotes _ _ _ _ Hb) as [Hr Hm].
  pose proof (path_older _ _ _ _ Hg Hr Ht) as [? _]. split_and!; [|done|].
  - revert x Ht H. induction t as [|l t IH] using rev_ind; intros x Ht _; [injection Ht as <-; apply (bt_base _ _ _ _ Hb)|].
    apply path_snoc in Ht as (p & Hp & Hl). eapply bt_own; [exact Hb|eapply IH; [done|]|done]. by eapply path_older.
  - intros t'. rewrite <-Hm. unfold entry. by rewrite path_app, Ht.
Qed.

Context (Hnone : ∀ t v, m !! t ≠ Some (Some v)).

Lemma built_valueless x t n : path (edge_to g) root t = Some x → g !! x = Some n → dn_value n = None.
Proof.
  intros Ht Hn. destruct (dn_final n) eqn:Hf; [|by eapply no_value; [apply (bt_graph _ _ _ _ Hb)|]].
  destruct (built_reachable x t Ht) as (_ & _ & He). specialize (He []). rewrite (entry_nil _ _ _ Hn), app_nil_r in He.
  unfold node_entry in He. rewrite Hf in He. destruct (dn_value n) as [v|]; [|done]. by destruct (Hnone t v).
Qed.

(** Nodes with the same terms below them have edges for the same labels. *)
Lemma built_step a b l c u v :
  path (edge_to g) root u = Some a → path (edge_to g) root v = Some b → (∀ w, entry g a w = entry g b w) →
  edge_to g a l = Some c →
  ∃ c', edge_to g b l = Some c' ∧ c < root ∧ c' < root ∧ ∀ w, entry g c w = entry g c' w.
Proof.
  intros Hu Hv0 Hab Hc. pose proof (bt_graph _ _ _ _ Hb) as Hg.
  destruct (built_reachable a u Hu) as (Hba & Har & _), (built_reachable b v Hv0) as (_ & Hbr & _).
  pose proof (bt_own _ _ _ _ Hb a l c Hba Hc) as Hbc. pose proof Hc as [Hca _]%edge_to_older; [|done].
  destruct (bt_nonempty _ _ _ _ Hb c Hbc) as [w Hw]; [lia|].
  pose proof (Hab (l :: w)) as Hlw. rewrite !entry_cons, Hc in Hlw. destruct (edge_to g b l) as [c'|] eqn:Hc'.
  - exists c'. pose proof Hc' as [? _]%edge_to_older; [|done]. split_and!; [done|lia|lia|]. intros w'.
    specialize (Hab (l :: w')). by rewrite !entry_cons, Hc, Hc' in Hab.
  - rewrite Hlw in Hw. by destruct Hw.
Qed.

(** Two inner nodes with the same terms below them are the same. *)
Lemma built_inner_distinct x y s t :
  x < root → y < root → path (edge_to g) root s = Some x → path (edge_to g) root t = Some y →
  (∀ u, entry g x u = entry g y u) → x = y.
Proof.
  revert y s t. induction (lt_wf x) as [x _ IH]. intros y s t Hx Hy Hs Ht Heq.
  pose proof (bt_graph _ _ _ _ Hb) as Hg. pose proof (bt_root _ _ _ _ Hb) as Hlen.
  destruct (built_reachable x s Hs) as (Hbx & _ & _), (built_reachable y t Ht) as (Hby & _ & _).
  destruct (lookup_lt_is_Some_2 g x) as [n Hn]; [lia|]. destruct (lookup_lt_is_Some_2 g y) as [n' Hn']; [lia|].
  pose proof (built_valueless x s n Hs Hn) as Hv. pose proof (built_valueless y t n' Ht Hn') as Hv'.
  apply (bt_shared _ _ _ _ Hb x y n n'); try done.
  - specialize (Heq []). rewrite (entry_nil _ _ _ Hn), (entry_nil _ _ _ Hn') in Heq. unfold node_entry in Heq.
    by destruct (dn_final n), (dn_final n').
  - apply sorted_edges_ext; [by eapply no_sorted, Hg..|]. intros l.
    assert (edge_to g x l = edge_get l (dn_edges n)) as <- by (unfold edge_to; by rewrite Hn).
    assert (edge_to g y l = edge_get l (dn_edges n')) as <- by (unfold edge_to; by rewrite Hn').
    destruct (edge_to g x l) as [c|] eqn:Hc.
    + destruct (built_step x y l c s t Hs Ht Heq Hc) as (c' & Hc' & ? & ? & Hw). rewrite Hc'. f_equal.
      apply (IH c) with (s ++ [l]) (t ++ [l]); [by apply edge_to_older in Hc as [? _]|done|done|apply path_snoc; eauto|apply path_snoc; eauto|done].
    + destruct (edge_to g y l) as [c|] eqn:Hc'; [|done].
      destruct (built_step y x l c t s Ht Hs (λ w, eq_sym (Heq w)) Hc') as (c' & E & _). congruence.
Qed.

(** The root differs from the nodes below it, whose terms are shorter. *)
Lemma built_root_distinct y t :
  t ≠ [] → path (edge_to g) root t = Some y → ¬ ∀ u, entry g root u = entry g y u.
Proof.
  intros Hne Ht Heq. pose proof (bt_graph _ _ _ _ Hb) as Hg. destruct (bt_denotes _ _ _ _ Hb) as [Hr Hm].
  destruct (built_reachable y t Ht) as (Hby & Hyr & He). pose proof (path_older _ _ _ _ Hg Hr Ht) as [_ Hlt].
  destruct (bt_nonempty _ _ _ _ Hb y Hby) as [w Hw]; [destruct t; [done|cbn in Hlt; lia]|].
  assert (∀ k, ∃ u, k ≤ length u ∧ is_Some (entry g root u)) as Hlong.
  { induction k as [|k (u & Hk & Hu)]; [exists w; split; [lia|by rewrite Heq]|].
    exists (t ++ u). split; [rewrite length_app; destruct t; [done|cbn; lia]|]. by rewrite Hm, <-He, <-Heq. }
  destruct (Hlong (S root)) as (u & Hk & Hu). unfold entry in Hu. destruct (path (edge_to g) root u) as [z|] eqn:Hz; [|by destruct Hu].
  apply path_older in Hz; [lia|done..].
Qed.

Lemma built_distinct x y :
  reachable g root x → reachable g root y → (∀ u, entry g x u = entry g y u) → x = y.
Proof.
  intros [s Hs] [t Ht] Heq. destruct (built_reachable x s Hs) as (_ & Hx & _), (built_reachable y t Ht) as (_ & Hy & _).
  destruct (decide (x = y)) as [|Hne]; [done|exfalso].
  destruct (decide (x = root)) as [->|Hxr].
  { apply (built_root_distinct y t); [|done|done]. intros ->. by injection Ht. }
  destruct (decide (y = root)) as [->|Hyr].
  { apply (built_root_distinct x s); [|done|done]. intros ->. by injection Hs. }
  apply Hne, (built_inner_distinct x y s t); [lia|lia|done..].
Qed.

End minimal.

(** A relation that tells the elements of [X] apart needs as many partners. *)
Lemma size_le_related (X Y : gset nat) (R : nat → nat → Prop) :
  (∀ x, x ∈ X → ∃ y, y ∈ Y ∧ R x y) → (∀ x x' y, x ∈ X → x' ∈ X → R x y → R x' y → x = x') → size X ≤ size Y.
Proof.
  revert Y. induction X as [|x X Hx IH] using set_ind_L; intros Y Htot Hinj; [rewrite size_empty; lia|].
  destruct (Htot x) as (y & Hy & Hxy); [set_solver|].
  rewrite size_union, size_singleton by set_solver.
  rewrite (union_difference_L {[y]} Y), size_union, size_singleton by set_solver.
  apply le_n_S, IH; [|set_solver]. intros x' Hx'. destruct (Htot x') as (y' & Hy' & Hxy'); [set_solver|].
  exists y'. split; [|done]. enough (y' ≠ y) by set_solver. intros ->.
  assert (x' = x) as -> by (apply (Hinj x' x y); set_solver). done.
Qed.

(** No graph for the same terms has fewer nodes. *)
Lemma built_minimal base g root m g2 root2 n n2 :
  built base g root m → (∀ t v, m !! t ≠ Some (Some v)) → graph_ok g2 → denotes g2 root2 m →
  count_unique_nodes_from g root = Ret n → count_unique_nodes_from g2 root2 = Ret n2 → n ≤ n2.
Proof.
  intros Hb Hnone Hg2 [Hr2 Hm2] Hn Hn2. destruct (bt_denotes _ _ _ _ Hb) as [Hr Hm].
  destruct (count_unique_nodes_spec g root (bt_graph _ _ _ _ Hb) Hr) as (X & E & HX). rewrite E in Hn. injection Hn as <-.
  destruct (count_unique_nodes_spec g2 root2 Hg2 Hr2) as (Y & E2 & HY). rewrite E2 in Hn2. injection Hn2 as <-.
  apply (size_le_related X Y (λ x y, ∀ u, entry g x u = entry g2 y u)).
  - intros x [t Ht]%HX. destruct (built_reachable _ _ _ _ Hb x t Ht) as (Hbx & Hxr & He).
    assert (is_Some (path (edge_to g2) root2 t)) as [y Hy].
    { destruct t as [|l t]; [cbn; eauto|]. pose proof (path_older _ _ _ _ (bt_graph _ _ _ _ Hb) Hr Ht) as [_ Hlt]. cbn in Hlt.
      destruct (bt_nonempty _ _ _ _ Hb x Hbx) as [w Hw]; [lia|]. rewrite He, <-Hm2 in Hw. unfold entry in Hw.
      rewrite path_app in Hw. destruct (path (edge_to g2) root2 (l :: t)); [eauto|]. by destruct Hw. }
    exists y. split; [apply HY; by exists t|]. intros u. rewrite He, <-Hm2. unfold entry. by rewrite path_app, Hy.
  - intros x x' y Hx%HX Hx'%HX Hxy Hxy'. apply (built_distinct _ _ _ _ Hb Hnone x x' Hx Hx'). intros u. by rewrite Hxy, Hxy'.
Qed.

End builder.
