(* ===== verification/DawgVersion.v ===== *)
(** * Versions of a lock-free DAWG

    [LockFreeDawg] of src/src/dynamic_dawg/lockfree.rs: a dictionary is an atomically
    published version, and a writer runs a loop that loads a version, prepares the
    next one and publishes it with a compare-and-swap.  Here is one turn of the loop
    of every operation, from the load to the compare-and-swap, and what it does to
    the dictionary. *)

From stdpp Require Import prelude gmap sets sorting.
From S2P Require Import Prelude Edges Tree DatBuilder Zipper DatZipper Dawg DawgZipper DawgBuilder.

Section version.
Context {V : Type}.
Implicit Types g : graph V.

(** The lazily built cursor graph is a cache of the root and left out. *)
Record GraphVersion := mkVersion {
  gv_root : nat;
  gv_term_count : Z;
  gv_needs_compaction : bool;
  gv_revision : Z;
}.

Definition next_revision (revision : Z) : exec Z :=
  if decide (revision + 1 < 2 ^ 64)%Z then Ret (revision + 1)%Z else Panic.

(** What an operation returns *)
Inductive outcome :=
| OBool (b : bool)
| OCount (n : Z)
| OValue (value : option V)
| OOptional (value : option (option V))
| OEntries (entries : list (list nat * option V))
| OPublished (len : Z)
| ONonEmpty.

(** A turn ends with a result, or with a version to publish and the result if that
    succeeds. *)
Inductive action :=
| Return (r : outcome)
| Publish (next : GraphVersion) (r : outcome).

(** [LockFreeDawg::new] *)
Definition LockFreeDawg_new (g : graph V) : graph V * GraphVersion :=
  let '(g, root) := arc_new g (LockFreeDawgNode_new false) in (g, mkVersion root 0 false 0).

(** [from_sorted_entries_by] *)
Definition frozen_version (g : graph V) (entries : list (list nat * option V)) : exec (graph V * GraphVersion) :=
  '(g, root, term_count) ← from_sorted_entries g entries;
  Ret (g, mkVersion root term_count false 0).

(** ** Writers *)

Definition usize_from (b : bool) : Z := if b then 1 else 0.

Definition insert_units (units : list nat) (g : graph V) (current : GraphVersion) : exec (graph V * action) :=
  '(g, rewrite) ← rewrite_path g (gv_root current) units insert_terminal;
  if negb (rw_changed rewrite) then Ret (g, Return (OBool false))
  else
    let inserted := rw_inserted rewrite in
    revision ← next_revision (gv_revision current);
    Ret (g, Publish (mkVersion (rw_node rewrite) (u64 (gv_term_count current + usize_from inserted))
                       (gv_needs_compaction current) revision) (OBool inserted)).

Definition insert_units_with_optional_value (units : list nat) (value : option V) (g : graph V)
    (current : GraphVersion) : exec (graph V * action) :=
  '(g, rewrite) ← rewrite_path g (gv_root current) units (value_terminal value);
  let inserted := rw_inserted rewrite in
  revision ← next_revision (gv_revision current);
  Ret (g, Publish (mkVersion (rw_node rewrite) (u64 (gv_term_count current + usize_from inserted))
                     (gv_needs_compaction current) revision) (OBool inserted)).

Definition update_or_insert_units (units : list nat) (default_value : V) (update_fn : V → V) (g : graph V)
    (current : GraphVersion) : exec (graph V * action) :=
  '(g, rewrite) ← rewrite_path g (gv_root current) units (update_terminal default_value update_fn);
  let inserted := rw_inserted rewrite in
  revision ← next_revision (gv_revision current);
  Ret (g, Publish (mkVersion (rw_node rewrite) (u64 (gv_term_count current + usize_from inserted))
                     (gv_needs_compaction current) revision) (OBool inserted)).

Definition remove_units (units : list nat) (g : graph V) (current : GraphVersion) : exec (graph V * action) :=
  '(g, rewrite) ← rewrite_path g (gv_root current) units remove_terminal;
  if negb (rw_changed rewrite) then Ret (g, Return (OBool false))
  else
    revision ← next_revision (gv_revision current);
    Ret (g, Publish (mkVersion (rw_node rewrite) (Z.max 0 (gv_term_count current - 1)) true revision) (OBool true)).

Definition clear (g : graph V) (current : GraphVersion) : exec (graph V * action) :=
  if (gv_term_count current =? 0)%Z then Ret (g, Return (OBool false))
  else
    let '(g, root) := arc_new g (LockFreeDawgNode_new false) in
    revision ← next_revision (gv_revision current);
    Ret (g, Publish (mkVersion root 0 false revision) (OBool true)).

Definition try_publish_if_empty (candidate : GraphVersion) (g : graph V) (current : GraphVersion) :
    exec (graph V * action) :=
  if negb (gv_term_count current =? 0)%Z then Ret (g, Return ONonEmpty)
  else
    revision ← next_revision (gv_revision current);
    Ret (g, Publish (mkVersion (gv_root candidate) (gv_term_count candidate) (gv_needs_compaction candidate) revision)
              (OPublished (gv_term_count candidate))).

(** [compact] and [minimize] *)
Definition rebuild_from_visible_entries (g : graph V) (current : GraphVersion) : exec (graph V * action) :=
  old_node_count ← count_unique_nodes_from g (gv_root current);
  entries ← collect_visible_entries_from g (gv_root current);
  '(g, new_root, _) ← build_minimized_parts g entries;
  new_node_count ← count_unique_nodes_from g new_root;
  revision ← next_revision (gv_revision current);
  Ret (g, Publish (mkVersion new_root (Z.of_nat (length entries)) false revision)
            (OCount (Z.of_nat (old_node_count - new_node_count)))).

(** ** Readers *)

Definition get_units_value (units : list nat) (g : graph V) (version : GraphVersion) : exec (graph V * action) :=
  terminal ← find_node_from g (gv_root version) units;
  match terminal with
  | None => Ret (g, Return (OValue None))
  | Some terminal => node ← g !! terminal; Ret (g, Return (OValue (dawg_node_value node)))
  end.

Definition get_units_optional_value (units : list nat) (g : graph V) (version : GraphVersion) :
    exec (graph V * action) :=
  terminal ← find_node_from g (gv_root version) units;
  match terminal with
  | None => Ret (g, Return (OOptional None))
  | Some terminal =>
      node ← g !! terminal;
      Ret (g, Return (OOptional (if dn_final node then Some (dawg_node_value node) else None)))
  end.

Definition contains_units (units : list nat) (g : graph V) (version : GraphVersion) : exec (graph V * action) :=
  terminal ← find_node_from g (gv_root version) units;
  match terminal with
  | None => Ret (g, Return (OBool false))
  | Some terminal => node ← g !! terminal; Ret (g, Return (OBool (dn_final node)))
  end.

Definition dawg_term_count (g : graph V) (version : GraphVersion) : exec (graph V * action) :=
  Ret (g, Return (OCount (gv_term_count version))).

Definition collect_visible_entries (g : graph V) (version : GraphVersion) : exec (graph V * action) :=
  entries ← collect_visible_entries_from g (gv_root version);
  Ret (g, Return (OEntries entries)).

(** ** Operations on a dictionary *)

Inductive dawg_op :=
| InsertUnits (units : list nat)
| InsertOptional (units : list nat) (value : option V)
| UpdateOrInsert (units : list nat) (default_value : V) (update_fn : V → V)
| RemoveUnits (units : list nat)
| ClearAll
| PublishSorted (entries : list (list nat * option V))
| Compact
| GetValue (units : list nat)
| GetOptional (units : list nat)
| Contains (units : list nat)
| TermCount
| Entries.

(** One turn; the candidate is the dictionary frozen from sorted entries. *)
Definition turn (op : dawg_op) (candidate : GraphVersion) : graph V → GraphVersion → exec (graph V * action) :=
  match op with
  | InsertUnits units => insert_units units
  | InsertOptional units value => insert_units_with_optional_value units value
  | UpdateOrInsert units default_value update_fn => update_or_insert_units units default_value update_fn
  | RemoveUnits units => remove_units units
  | ClearAll => clear
  | PublishSorted _ => try_publish_if_empty candidate
  | Compact => rebuild_from_visible_entries
  | GetValue units => get_units_value units
  | GetOptional units => get_units_optional_value units
  | Contains units => contains_units units
  | TermCount => dawg_term_count
  | Entries => collect_visible_entries
  end.

(** What an operation may do to a dictionary, and return *)
Definition op_spec (op : dawg_op) (m m' : gmap (list nat) (option V)) (r : outcome) : Prop :=
  match op with
  | InsertUnits units =>
      m' = match m !! units with None => <[units := None]> m | Some _ => m end ∧ r = OBool (is_new (m !! units))
  | InsertOptional units value => m' = <[units := value]> m ∧ r = OBool (is_new (m !! units))
  | UpdateOrInsert units d f =>
      m' = <[units := Some (match m !! units with Some (Some v) => f v | _ => d end)]> m ∧ r = OBool (is_new (m !! units))
  | RemoveUnits units => m' = delete units m ∧ r = OBool (negb (is_new (m !! units)))
  | ClearAll => m' = ∅ ∧ r = OBool (bool_decide (m ≠ ∅))
  | PublishSorted entries =>
      if decide (m = ∅) then m' = last_values ∅ entries ∧ r = OPublished (Z.of_nat (size m'))
      else m' = m ∧ r = ONonEmpty
  | Compact => m' = m ∧ ∃ n, r = OCount n
  | GetValue units => m' = m ∧ r = OValue (mjoin (m !! units))
  | GetOptional units => m' = m ∧ r = OOptional (m !! units)
  | Contains units => m' = m ∧ r = OBool (bool_decide (is_Some (m !! units)))
  | TermCount => m' = m ∧ r = OCount (Z.of_nat (size m))
  | Entries => m' = m ∧ ∃ entries, r = OEntries entries ∧ entries ≡ₚ map_to_list m ∧
      StronglySorted (λ a b, lex_lt a.1 b.1) entries
  end.

(** ** What a version holds *)

Record version_ok g (v : GraphVersion) (m : gmap (list nat) (option V)) : Prop := {
  vo_denotes : denotes g (gv_root v) m;
  vo_count : gv_term_count v = Z.of_nat (size m);
}.

Definition candidate_ok (op : dawg_op) (candidate : GraphVersion) g : Prop :=
  match op with PublishSorted entries => version_ok g candidate (last_values ∅ entries) | _ => True end.

Lemma version_ok_grow g k v m : graph_ok g → version_ok g v m → version_ok (g ++ k) v m.
Proof. intros Hg [Hd Hc]. split; [by apply denotes_grow|done]. Qed.

Lemma candidate_ok_grow op candidate g k : graph_ok g → candidate_ok op candidate g → candidate_ok op candidate (g ++ k).
Proof. intros Hg. destruct op; cbn; try done. by apply version_ok_grow. Qed.

(** The letters and terms of a dictionary, which bound what compaction builds *)
Definition map_weight (m : gmap (list nat) (option V)) : nat :=
  sum_list_with (λ e, length e.1 + 1) (map_to_list m).

Definition op_weight (op : dawg_op) : nat :=
  match op with
  | InsertUnits units | InsertOptional units _ | UpdateOrInsert units _ _ => length units + 1
  | PublishSorted entries => letters entries + length entries
  | _ => 0
  end.

Lemma map_weight_empty : map_weight ∅ = 0.
Proof. unfold map_weight. by rewrite map_to_list_empty. Qed.

Lemma map_weight_delete m t : map_weight (delete t m) ≤ map_weight m.
Proof.
  unfold map_weight. destruct (m !! t) as [v|] eqn:E; [|by rewrite delete_id].
  rewrite <-(insert_delete_id m t v E) at 2. rewrite map_to_list_insert by apply lookup_delete_eq. cbn. lia.
Qed.

Lemma map_weight_insert m t v : map_weight (<[t := v]> m) ≤ map_weight m + length t + 1.
Proof.
  rewrite <-insert_delete_eq. pose proof (map_weight_delete m t). unfold map_weight in *.
  rewrite map_to_list_insert by apply lookup_delete_eq. cbn. lia.
Qed.

Lemma map_weight_last_values m entries :
  map_weight (last_values m entries) ≤ map_weight m + letters entries + length entries.
Proof.
  unfold last_values, letters. revert m. induction entries as [|[t v] entries IH]; intros m; cbn [foldl]; [lia|].
  specialize (IH (<[t := v]> m)). pose proof (map_weight_insert m t v). cbn in *. lia.
Qed.

Lemma size_le_weight m : size m ≤ map_weight m.
Proof.
  unfold map_weight. rewrite <-length_map_to_list. induction (map_to_list m) as [|e l IH]; cbn; lia.
Qed.

Lemma op_spec_weight op m m' r : op_spec op m m' r → map_weight m' ≤ map_weight m + op_weight op.
Proof.
  destruct op; cbn; try (intros [-> _]; lia).
  - intros [-> _]. destruct (m !! units); [lia|]. pose proof (map_weight_insert m units None). lia.
  - intros [-> _]. pose proof (map_weight_insert m units value). lia.
  - intros [-> _]. set (v := Some _). pose proof (map_weight_insert m units v). lia.
  - intros [-> _]. pose proof (map_weight_delete m units). lia.
  - intros [-> _]. rewrite map_weight_empty. lia.
  - case_decide; intros [-> _]; [|lia]. pose proof (map_weight_last_values ∅ entries). rewrite map_weight_empty in *. lia.
Qed.

(** ** Readers see their version *)

Lemma find_terminal g root m units :
  graph_ok g → denotes g root m →
  ∃ x, find_node_from g root units = Ret x ∧
    match x with
    | Some x => ∃ n, g !! x = Some n ∧ node_entry n = m !! units ∧ (dn_final n = false → dn_value n = None)
    | None => m !! units = None
    end.
Proof.
  intros Hg [Hr Hm]. eexists. split; [by apply find_node_from_path|]. specialize (Hm units). unfold entry in Hm.
  destruct (path (edge_to g) root units) as [x|] eqn:E; [|done]. apply path_older in E; [|done..].
  destruct (lookup_lt_is_Some_2 g x) as [n Hn]; [lia|]. rewrite Hn in Hm. exists n. split_and!; [done..|].
  apply (no_value _ _ (Hg _ _ Hn)).
Qed.

Lemma get_units_value_spec g v m units :
  graph_ok g → version_ok g v m → get_units_value units g v = Ret (g, Return (OValue (mjoin (m !! units)))).
Proof.
  intros Hg Hv. destruct (find_terminal g _ m units Hg (vo_denotes _ _ _ Hv)) as (x & E & Hx).
  unfold get_units_value. rewrite E. cbn [mbind option_bind]. destruct x as [x|]; [|by rewrite Hx].
  destruct Hx as (n & Hn & <- & Hnv). rewrite Hn. cbn. unfold dawg_node_value, node_entry. by destruct (dn_final n).
Qed.

Lemma get_units_optional_value_spec g v m units :
  graph_ok g → version_ok g v m → get_units_optional_value units g v = Ret (g, Return (OOptional (m !! units))).
Proof.
  intros Hg Hv. destruct (find_terminal g _ m units Hg (vo_denotes _ _ _ Hv)) as (x & E & Hx).
  unfold get_units_optional_value. rewrite E. cbn [mbind option_bind]. destruct x as [x|]; [|by rewrite Hx].
  destruct Hx as (n & Hn & <- & Hnv). rewrite Hn. cbn. unfold dawg_node_value, node_entry. by destruct (dn_final n).
Qed.

Lemma contains_units_spec g v m units :
  graph_ok g → version_ok g v m → contains_units units g v = Ret (g, Return (OBool (bool_decide (is_Some (m !! units))))).
Proof.
  intros Hg Hv. destruct (find_terminal g _ m units Hg (vo_denotes _ _ _ Hv)) as (x & E & Hx).
  unfold contains_units. rewrite E. cbn [mbind option_bind]. destruct x as [x|]; [|by rewrite Hx].
  destruct Hx as (n & Hn & <- & Hnv). rewrite Hn. cbn. unfold node_entry. by destruct (dn_final n).
Qed.

(** Sorted entries of a dictionary are its entries in the only possible order. *)
Lemma sorted_entries_unique (l l' : list (list nat * option V)) :
  StronglySorted (λ a b, lex_lt a.1 b.1) l → StronglySorted (λ a b, lex_lt a.1 b.1) l' → l ≡ₚ l' → l = l'.
Proof.
  intros Hl Hl' Hp. apply (StronglySorted_unique_strong (λ a b : list nat * option V, lex_lt a.1 b.1)); [|done..].
  intros a b _ _ H1 H2. destruct (lex_lt_irrefl a.1). by eapply lex_lt_trans.
Qed.

Lemma sorted_entries_NoDup (l : list (list nat * option V)) : StronglySorted (λ a b, lex_lt a.1 b.1) l → NoDup l.
Proof.
  induction 1 as [|x l _ IH Hx]; constructor; [|done]. intros Hin. rewrite Forall_forall in Hx.
  by destruct (lex_lt_irrefl x.1); apply Hx.
Qed.

Lemma collect_entries_of g v m :
  graph_ok g → version_ok g v m →
  ∃ entries, collect_visible_entries_from g (gv_root v) = Ret entries ∧ entries ≡ₚ map_to_list m ∧
    StronglySorted (λ a b, lex_lt a.1 b.1) entries.
Proof.
  intros Hg Hv. destruct (collect_visible_entries_spec g (gv_root v) m Hg (vo_denotes _ _ _ Hv)) as (entries & E & Hs & Hin).
  exists entries. split_and!; [done| |done]. apply NoDup_Permutation; [by apply sorted_entries_NoDup|apply NoDup_map_to_list|].
  intros [t o]. by rewrite Hin, elem_of_map_to_list.
Qed.

(** ** Sorting and rebuilding *)

Lemma lex_leb_spec a b : lex_leb a b = bool_decide (¬ lex_lt b a).
Proof.
  revert b. induction a as [|x a IH]; intros [|y b]; cbn [lex_leb lex_lt]; try (symmetry; apply bool_decide_true; tauto); [symmetry; apply bool_decide_false; tauto|].
  rewrite IH. destruct (Nat.ltb_spec x y) as [?|?]; cbn [orb andb].
  - rewrite bool_decide_true; [done|]. intros [?|[? _]]; lia.
  - destruct (Nat.eqb_spec x y) as [->|?]; cbn [andb]; [|rewrite bool_decide_false; [done|intros Hn; apply Hn; left; lia]].
    apply bool_decide_ext. naive_solver lia.
Qed.

Lemma insert_sorted_nondecreasing prev (e : list nat * option V) l :
  ¬ lex_lt e.1 prev → nondecreasing prev l → nondecreasing prev (insert_sorted e l).
Proof.
  revert prev. induction l as [|e' l IH]; intros prev He Hl; cbn [insert_sorted]; [done|]. destruct Hl as [He' Hl].
  rewrite lex_leb_spec. case_bool_decide as Hle; [done|]. split; [done|]. apply IH; [|done].
  by apply lex_lt_asym.
Qed.

Lemma sort_nondecreasing (l : list (list nat * option V)) : nondecreasing [] (sort_by_term l).
Proof.
  induction l as [|e l IH]; [done|]. cbn. apply insert_sorted_nondecreasing; [|done]. intros H; by destruct e.1.
Qed.

Lemma last_values_lookup m (l : list (list nat * option V)) t :
  last_values m l !! t = match last (of_term t l) with Some e => Some e.2 | None => m !! t end.
Proof.
  unfold last_values. revert m. induction l as [|[u v] l IH]; intros m; [done|]. cbn [foldl]. rewrite IH. unfold of_term.
  rewrite filter_cons. cbn [fst snd]. destruct (decide (u = t)) as [->|Hne].
  - rewrite last_cons. destruct (last _); [done|]. by rewrite lookup_insert_eq.
  - destruct (last _); [done|]. by rewrite lookup_insert_ne.
Qed.

Lemma last_values_sort (l : list (list nat * option V)) : last_values ∅ (sort_by_term l) = last_values ∅ l.
Proof. apply map_eq. intros t. by rewrite !last_values_lookup, sort_by_term_of_term. Qed.

Lemma last_values_entries (l : list (list nat * option V)) m : l ≡ₚ map_to_list m → last_values ∅ l = m.
Proof.
  intros Hp. apply map_eq. intros t. rewrite last_values_lookup. destruct (last (of_term t l)) as [[u v]|] eqn:E.
  - apply last_Some_elem_of, list_elem_of_filter in E as [<- Hin]. rewrite Hp, elem_of_map_to_list in Hin. done.
  - rewrite lookup_empty. destruct (m !! t) as [v|] eqn:Em; [|done]. apply last_None in E.
    assert ((t, v) ∈ of_term t l) as Hin; [|rewrite E in Hin; by apply elem_of_nil in Hin].
    apply list_elem_of_filter. split; [done|]. by rewrite Hp, elem_of_map_to_list.
Qed.

Lemma letters_weight (l : list (list nat * option V)) : letters l + length l = sum_list_with (λ e, length e.1 + 1) l.
Proof. unfold letters. induction l as [|[t v] l IH]; [done|]. cbn in *. lia. Qed.

(** Building from entries in any order: the last value of a term wins. *)
Lemma build_minimized_spec g entries :
  graph_ok g → (Z.of_nat (letters entries + length entries) + 2 < 2 ^ 64)%Z →
  ∃ k root, build_minimized_parts g entries = Ret (g ++ k, root, Z.of_nat (size (last_values ∅ entries))) ∧
    built (length g) (g ++ k) root (last_values ∅ entries).
Proof.
  intros Hg Hroom. unfold build_minimized_parts. rewrite <-(last_values_sort entries).
  apply from_sorted_entries_spec; [done|apply sort_nondecreasing|].
  assert (letters (sort_by_term entries) + length (sort_by_term entries) = letters entries + length entries) as E.
  { rewrite !letters_weight. by rewrite sort_by_term_perm. }
  unfold builder_room. lia.
Qed.

(** ** Writers *)

Definition revision_room (v : GraphVersion) : Prop := (0 ≤ gv_revision v ∧ gv_revision v + 1 < 2 ^ 64)%Z.

Definition publishes (t : exec (graph V * action)) g (v : GraphVersion) m' (r : outcome) : Prop :=
  ∃ k next, t = Ret (g ++ k, Publish next r) ∧ graph_ok (g ++ k) ∧ version_ok (g ++ k) next m' ∧
    gv_revision next = (gv_revision v + 1)%Z.

Definition returns (t : exec (graph V * action)) g (r : outcome) : Prop :=
  ∃ k, t = Ret (g ++ k, Return r) ∧ graph_ok (g ++ k).

Lemma next_revision_room v : revision_room v → next_revision (gv_revision v) = Ret (gv_revision v + 1)%Z.
Proof. intros [? ?]. unfold next_revision. by rewrite decide_True. Qed.

Lemma size_alter_new (m : gmap (list nat) (option V)) (f : option (option V) → option (option V)) units x :
  f (m !! units) = Some x →
  Z.of_nat (size (partial_alter f units m)) = (Z.of_nat (size m) + usize_from (is_new (m !! units)))%Z.
Proof.
  intros Hf. assert (partial_alter f units m = <[units := x]> m) as ->.
  { apply map_eq. intros t. destruct (decide (t = units)) as [->|]; [by rewrite lookup_partial_alter_eq, lookup_insert_eq|].
    by rewrite lookup_partial_alter_ne, lookup_insert_ne. }
  destruct (m !! units) eqn:E; cbn; [rewrite map_size_insert_Some by eauto|rewrite map_size_insert_None by done]; lia.
Qed.

(** The three writers that set a term *)
Lemma setting_spec g v m units terminal changes f x :
  graph_ok g → version_ok g v m → revision_room v → (Z.of_nat (size m) + 1 < 2 ^ 64)%Z →
  terminal_spec terminal changes is_new f → changes (m !! units) = true → f (m !! units) = Some x →
  ∃ k rw, rewrite_path g (gv_root v) units terminal = Ret (g ++ k, rw) ∧ rw_changed rw = true ∧
    rw_inserted rw = is_new (m !! units) ∧ graph_ok (g ++ k) ∧
    version_ok (g ++ k) (mkVersion (rw_node rw) (u64 (gv_term_count v + usize_from (is_new (m !! units))))
      (gv_needs_compaction v) (gv_revision v + 1)) (<[units := x]> m).
Proof.
  intros Hg [Hd Hc] Hrev Hsize Hterm Hch Hf.
  destruct (rewrite_path_spec g (gv_root v) m units terminal changes is_new f Hg Hd Hterm) as (k & rw & E & Hg' & Hchg & Hrw).
  rewrite Hch in *. destruct Hrw as [Hins Hd']. exists k, rw. split_and!; [done..|].
  assert (partial_alter f units m = <[units := x]> m) as <-.
  { apply map_eq. intros t. destruct (decide (t = units)) as [->|]; [by rewrite lookup_partial_alter_eq, lookup_insert_eq|].
    by rewrite lookup_partial_alter_ne, lookup_insert_ne. }
  split; cbn; [done|]. rewrite (size_alter_new m f units x Hf), Hc. unfold u64. rewrite Z.mod_small; [done|].
  destruct (is_new (m !! units)); cbn; lia.
Qed.

Lemma insert_units_spec g v m units :
  graph_ok g → version_ok g v m → revision_room v → (Z.of_nat (size m) + 1 < 2 ^ 64)%Z →
  match m !! units with
  | Some _ => returns (insert_units units g v) g (OBool false)
  | None => publishes (insert_units units g v) g v (<[units := None]> m) (OBool true)
  end.
Proof.
  intros Hg Hv Hrev Hsize. unfold insert_units. destruct (m !! units) as [o|] eqn:E.
  - destruct (rewrite_path_spec g (gv_root v) m units _ _ _ _ Hg (vo_denotes _ _ _ Hv) insert_terminal_spec) as (k & rw & -> & Hg' & Hch & _).
    cbn [mbind option_bind]. rewrite Hch, E. by exists k.
  - destruct (setting_spec g v m units _ _ _ None Hg Hv Hrev Hsize insert_terminal_spec) as (k & rw & -> & Hchg & Hins & Hg' & Hv');
      [by rewrite E|done|].
    cbn [mbind option_bind negb]. rewrite Hchg, Hins, next_revision_room by done. cbn [mbind option_bind]. rewrite E in *. exists k. eexists. by split_and!.
Qed.

Lemma insert_optional_spec g v m units value :
  graph_ok g → version_ok g v m → revision_room v → (Z.of_nat (size m) + 1 < 2 ^ 64)%Z →
  publishes (insert_units_with_optional_value units value g v) g v (<[units := value]> m) (OBool (is_new (m !! units))).
Proof.
  intros Hg Hv Hrev Hsize. unfold insert_units_with_optional_value.
  destruct (setting_spec g v m units _ _ _ value Hg Hv Hrev Hsize (value_terminal_spec value)) as (k & rw & -> & _ & Hins & Hg' & Hv'); [done..|].
  cbn [mbind option_bind]. rewrite Hins, next_revision_room by done. exists k. eexists. by split_and!.
Qed.

Lemma update_or_insert_spec g v m units d f :
  graph_ok g → version_ok g v m → revision_room v → (Z.of_nat (size m) + 1 < 2 ^ 64)%Z →
  publishes (update_or_insert_units units d f g v) g v
    (<[units := Some (match m !! units with Some (Some v) => f v | _ => d end)]> m) (OBool (is_new (m !! units))).
Proof.
  intros Hg Hv Hrev Hsize. unfold update_or_insert_units.
  destruct (setting_spec g v m units _ _ _ (Some (match m !! units with Some (Some v) => f v | _ => d end)) Hg Hv Hrev Hsize
    (update_terminal_spec d f)) as (k & rw & -> & _ & Hins & Hg' & Hv'); [done..|].
  cbn [mbind option_bind]. rewrite Hins, next_revision_room by done. exists k. eexists. by split_and!.
Qed.

Lemma remove_units_spec g v m units :
  graph_ok g → version_ok g v m → revision_room v →
  match m !! units with
  | None => returns (remove_units units g v) g (OBool false)
  | Some _ => publishes (remove_units units g v) g v (delete units m) (OBool true)
  end.
Proof.
  intros Hg Hv Hrev. unfold remove_units.
  destruct (rewrite_path_spec g (gv_root v) m units _ _ _ _ Hg (vo_denotes _ _ _ Hv) remove_terminal_spec) as (k & rw & -> & Hg' & Hch & Hrw).
  cbn [mbind option_bind]. rewrite Hch. destruct (m !! units) as [o|] eqn:E; cbn [is_new negb] in *; [|by exists k].
  destruct Hrw as [_ Hd]. rewrite next_revision_room by done. cbn [mbind option_bind].
  assert (partial_alter (λ _, None) units m = delete units m) as Hdel by done. rewrite Hdel in Hd.
  exists k. eexists. split_and!; [done..|split; [exact Hd|]|done]. cbn. rewrite (vo_count _ _ _ Hv), map_size_delete_Some by eauto.
  assert (size m ≠ 0) by (intros H0%map_size_empty_inv; rewrite H0 in E; by rewrite lookup_empty in E). lia.
Qed.

Lemma denotes_new g : graph_ok g → denotes (g ++ [LockFreeDawgNode_new false]) (length g) ∅.
Proof. intros Hg. split; [rewrite length_app; cbn; lia|]. intros t. by rewrite entry_new_empty, lookup_empty. Qed.

Lemma clear_spec g v m :
  graph_ok g → version_ok g v m → revision_room v →
  if decide (m = ∅) then returns (clear g v) g (OBool false) else publishes (clear g v) g v ∅ (OBool true).
Proof.
  intros Hg Hv Hrev. unfold clear. rewrite (vo_count _ _ _ Hv). case_decide as Hm.
  - rewrite Hm, map_size_empty. cbn. exists []. by rewrite app_nil_r.
  - rewrite (proj2 (Z.eqb_neq _ _)) by (intros H0; apply Hm, map_size_empty_inv; lia). cbn [arc_new].
    rewrite next_revision_room by done. exists [LockFreeDawgNode_new false]. eexists.
    split_and!; [done|apply graph_ok_snoc; [done|apply node_ok_new]| |done]. split; cbn; [by apply denotes_new|by rewrite map_size_empty].
Qed.

Lemma try_publish_spec g v m candidate mc :
  graph_ok g → version_ok g v m → version_ok g candidate mc → revision_room v →
  if decide (m = ∅) then publishes (try_publish_if_empty candidate g v) g v mc (OPublished (Z.of_nat (size mc)))
  else returns (try_publish_if_empty candidate g v) g ONonEmpty.
Proof.
  intros Hg Hv [Hd Hc] Hrev. unfold try_publish_if_empty. rewrite (vo_count _ _ _ Hv). case_decide as Hm.
  - rewrite Hm, map_size_empty. cbn. rewrite next_revision_room by done. exists []. rewrite app_nil_r, <-Hc. eexists. by split_and!.
  - rewrite (proj2 (Z.eqb_neq _ _)) by (intros H0; apply Hm, map_size_empty_inv; lia). exists []. by rewrite app_nil_r.
Qed.

(** Compaction keeps the dictionary; the new graph is the one of the builder. *)
Lemma rebuild_spec g v m :
  graph_ok g → version_ok g v m → revision_room v → (Z.of_nat (map_weight m) + 2 < 2 ^ 64)%Z →
  ∃ k root n n', rebuild_from_visible_entries g v =
      Ret (g ++ k, Publish (mkVersion root (Z.of_nat (size m)) false (gv_revision v + 1)) (OCount (Z.of_nat (n - n')))) ∧
    built (length g) (g ++ k) root m ∧ count_unique_nodes_from g (gv_root v) = Ret n ∧
    count_unique_nodes_from (g ++ k) root = Ret n'.
Proof.
  intros Hg Hv Hrev Hw. destruct (vo_denotes _ _ _ Hv) as [Hr _]. unfold rebuild_from_visible_entries.
  destruct (count_unique_nodes_spec g (gv_root v) Hg Hr) as (X & -> & _). cbn [mbind option_bind].
  destruct (collect_entries_of g v m Hg Hv) as (entries & -> & Hp & Hs). cbn [mbind option_bind].
  destruct (build_minimized_spec g entries Hg) as (k & root & -> & Hb).
  { unfold map_weight in Hw. rewrite <-Hp, <-letters_weight in Hw. done. }
  cbn [mbind option_bind]. rewrite (last_values_entries entries m Hp) in Hb.
  destruct (bt_denotes _ _ _ _ Hb) as [Hr' _].
  destruct (count_unique_nodes_spec (g ++ k) root (bt_graph _ _ _ _ Hb) Hr') as (Y & EY & _). rewrite EY. cbn [mbind option_bind].
  rewrite next_revision_room by done. cbn [mbind option_bind]. rewrite (Permutation_length Hp), length_map_to_list. by exists k, root, (size X), (size Y).
Qed.

(** ** Iterating over a dictionary *)

Lemma dawg_iteration g root m (dft : V) :
  graph_ok g → denotes g root m →
  ∃ bound, ∀ fuel n, bound ≤ fuel → bound ≤ n →
  ∃ items, collect (DictionaryIterator_next dft fuel) n (iterator_new (dawg_zipper_new g root)) = Ret items ∧
    StronglySorted (λ a b, lex_lt a.1 b.1) items ∧
    ∀ t v, (t, v) ∈ items ↔ ∃ o, m !! t = Some o ∧ v = default dft o.
Proof.
  intros Hg [Hr Hm]. destruct (DictionaryIterator_spec dft (dawg_zipper_new g root)) as [bound Hb]; [done|].
  exists bound. intros fuel n Hf Hn. destruct (Hb fuel n Hf Hn) as (items & E & Hs & Hin). exists items. split_and!; [done..|].
  intros t v. rewrite Hin. cbn [zip_path dawg_DictZipper dawg_zipper_new wz_path app]. split.
  - intros (t' & _ & -> & Ha & ->). destruct (dawg_accepts g root t' Hg Hr) as [E1 E2]. rewrite E1, Hm in Ha. rewrite E2, Hm.
    apply bool_decide_eq_true in Ha as [o Ho]. exists o. by rewrite Ho.
  - intros (o & Ho & ->). destruct (dawg_accepts g root t Hg Hr) as [E1 E2]. exists t. rewrite E1, E2, Hm, Ho.
    split_and!; [by apply Forall_true|done..].
Qed.

Lemma insert_sorted_map {A B} (f : A → B) (e : list nat * A) l :
  insert_sorted (e.1, f e.2) ((λ x, (x.1, f x.2)) <$> l) = (λ x, (x.1, f x.2)) <$> insert_sorted e l.
Proof. induction l as [|e' l IH]; [done|]. cbn. destruct (lex_leb e.1 e'.1); [done|]. cbn. by rewrite IH. Qed.

Lemma sort_by_term_map {A B} (f : A → B) (l : list (list nat * A)) :
  sort_by_term ((λ x, (x.1, f x.2)) <$> l) = (λ x, (x.1, f x.2)) <$> sort_by_term l.
Proof. induction l as [|e l IH]; [done|]. rewrite fmap_cons. unfold sort_by_term in *. cbn [foldr]. rewrite IH. apply insert_sorted_map. Qed.

(** ** Properties *)

(** C27: what goes into a DAWG comes out of its iterator.  A dictionary made by
    [from_terms_with_values], whatever the order of the input, counts its terms; its
    iterator returns every term with the last value given for it, in lexicographic
    order, and ends. *)
Theorem dawg_roundtrip (entries : list (list nat * V)) (dft : V) :
  (Z.of_nat (letters (prod_map id Some <$> entries) + length entries) + 2 < 2 ^ 64)%Z →
  let m := last_values ∅ (prod_map id Some <$> entries) in
  ∃ g root bound, dawg_from_terms_with_values [] entries = Ret (g, root, Z.of_nat (size m)) ∧
  ∀ fuel n, bound ≤ fuel → bound ≤ n →
  ∃ items, collect (DictionaryIterator_next dft fuel) n (iterator_new (dawg_zipper_new g root)) = Ret items ∧
    StronglySorted (λ a b, lex_lt a.1 b.1) items ∧ ∀ t v, (t, v) ∈ items ↔ m !! t = Some (Some v).
Proof.
  intros Hroom m. destruct (build_minimized_spec [] (prod_map id Some <$> entries)) as (g & root & E & Hb).
  { by intros i n Hi. } { by rewrite length_fmap. }
  assert (dawg_from_terms_with_values [] entries = build_minimized_parts [] (prod_map id Some <$> entries)) as E'.
  { unfold dawg_from_terms_with_values, build_minimized_parts. f_equal.
    rewrite (list_fmap_ext (prod_map id Some) (λ x : list nat * V, (x.1, Some x.2)) entries) by (intros _ [? ?] _; done).
    rewrite sort_by_term_map. apply list_fmap_ext. intros _ [? ?] _. done. }
  destruct (dawg_iteration ([] ++ g) root m dft (bt_graph _ _ _ _ Hb) (bt_denotes _ _ _ _ Hb)) as [bound Hit].
  exists ([] ++ g), root, bound. split; [by rewrite E'|]. intros fuel n Hf Hn. destruct (Hit fuel n Hf Hn) as (items & ? & ? & Hin).
  exists items. split_and!; [done..|]. intros t v. rewrite Hin. split; [|intros Ht; by exists (Some v)].
  intros (o & Ho & ->). rewrite Ho. f_equal. unfold m in Ho. rewrite last_values_lookup, lookup_empty in Ho.
  destruct (last (of_term t (prod_map id Some <$> entries))) as [e|] eqn:El; [|done]. injection Ho as <-.
  apply last_Some_elem_of, list_elem_of_filter in El as [_ ([u w] & -> & _)%list_elem_of_fmap]. done.
Qed.

(** The sorted builder is exact.  From entries in lexicographically nondecreasing
    order it makes a root that stands for the last value of every term, counts the
    terms, and does not touch the nodes that were there; it panics exactly when an
    entry comes before its predecessor. *)
Theorem sorted_build_exact g entries :
  graph_ok g → builder_room entries →
  let m := last_values ∅ entries in
  (nondecreasing [] entries →
    ∃ k root, from_sorted_entries g entries = Ret (g ++ k, root, Z.of_nat (size m)) ∧ graph_ok (g ++ k) ∧
      ∀ t, entry (g ++ k) root t = m !! t) ∧
  (¬ nondecreasing [] entries → from_sorted_entries g entries = Panic).
Proof.
  intros Hg Hroom m. split; intros Hord.
  - destruct (from_sorted_entries_spec g entries Hg Hord Hroom) as (k & root & E & Hb). exists k, root.
    split_and!; [done|apply (bt_graph _ _ _ _ Hb)|apply (bt_denotes _ _ _ _ Hb)].
  - destruct Hroom as [Hl Hn]. unfold from_sorted_entries.
    rewrite (insert_unsorted (length g) 0 g SortedDawgBuilder_new ∅ entries); [done|by apply builder_new|done|cbn; lia|].
    rewrite map_size_empty. cbn. lia.
Qed.

(** C18: compaction is minimal.  Compacting a version prepares a version of the same
    dictionary and reports how many nodes fewer it has.  When no term has a value, no
    two nodes of the new version have the same terms below them, no graph of the same
    dictionary has fewer nodes, and the reported number is the exact difference. *)
Theorem compact_minimal g v m :
  graph_ok g → version_ok g v m → revision_room v → (Z.of_nat (map_weight m) + 2 < 2 ^ 64)%Z →
  ∃ k next n n', rebuild_from_visible_entries g v = Ret (g ++ k, Publish next (OCount (Z.of_nat (n - n')))) ∧
    graph_ok (g ++ k) ∧ version_ok (g ++ k) next m ∧
    count_unique_nodes_from g (gv_root v) = Ret n ∧ count_unique_nodes_from (g ++ k) (gv_root next) = Ret n' ∧
    ((∀ t value, m !! t ≠ Some (Some value)) →
      n' ≤ n ∧
      (∀ x y, reachable (g ++ k) (gv_root next) x → reachable (g ++ k) (gv_root next) y →
        (∀ t, entry (g ++ k) x t = entry (g ++ k) y t) → x = y) ∧
      ∀ g2 root2 n2, graph_ok g2 → denotes g2 root2 m → count_unique_nodes_from g2 root2 = Ret n2 → n' ≤ n2).
Proof.
  intros Hg Hv Hrev Hw. destruct (rebuild_spec g v m Hg Hv Hrev Hw) as (k & root & n & n' & E & Hb & Hn & Hn').
  eexists k, _, n, n'. split; [exact E|]. cbn [gv_root].
  split_and!; [apply (bt_graph _ _ _ _ Hb)|split; [apply (bt_denotes _ _ _ _ Hb)|done]|done|done|]. intros Hnone.
  split_and!; [|by apply (built_distinct _ _ _ _ Hb)|].
  - apply (built_minimal _ _ _ _ g (gv_root v) n' n Hb Hnone Hg (vo_denotes _ _ _ Hv) Hn' Hn).
  - intros g2 root2 n2 Hg2 Hd2 Hn2. by apply (built_minimal _ _ _ _ g2 root2 n' n2 Hb Hnone).
Qed.

End version.
Arguments dawg_op V : clear implicits.
Arguments outcome V : clear implicits.
Arguments action V : clear implicits.

(** The graph of the dictionary with "ab" and "cb", each inserted on its own path *)
Definition example_version : graph nat * GraphVersion :=
  let '(g, v) := LockFreeDawg_new [] in
  match insert_units [97; 98] g v with
  | Ret (g, Publish v _) =>
      match insert_units [99; 98] g v with Ret (g, Publish v _) => (g, v) | _ => (g, v) end
  | _ => (g, v)
  end.

Lemma example_version_ok :
  graph_ok example_version.1 ∧ version_ok example_version.1 example_version.2 (<[[99; 98] := None]> (<[[97; 98] := None]> ∅)).
Proof.
  set (new := LockFreeDawg_new (V := nat) []).
  assert (graph_ok new.1) as Hg0 by (apply (graph_ok_snoc []); [by intros i n Hi|apply node_ok_new]).
  assert (version_ok new.1 new.2 ∅) as Hv0 by (split; [by apply (denotes_new [])|done]).
  pose proof (insert_units_spec new.1 new.2 ∅ [97; 98] Hg0 Hv0) as H1. rewrite lookup_empty in H1.
  destruct H1 as (k1 & v1 & E1 & Hg1 & Hv1 & Hr1); [done..|].
  pose proof (insert_units_spec _ v1 _ [99; 98] Hg1 Hv1) as H2.
  assert ((<[[97; 98] := None]> (∅ : gmap (list nat) (option nat))) !! [99; 98] = None) as Hnone by done. rewrite Hnone in H2.
  destruct H2 as (k2 & v2 & E2 & Hg2 & Hv2 & _); [split; rewrite Hr1; cbn; lia|done|].
  assert (example_version = ((new.1 ++ k1) ++ k2, v2)) as ->.
  { unfold example_version. change (LockFreeDawg_new []) with (new.1, new.2). cbv iota beta. rewrite E1. cbv iota beta. by rewrite E2. }
  done.
Qed.

Lemma compact_minimal_witness :
  ∃ k next n n', rebuild_from_visible_entries example_version.1 example_version.2 =
      Ret (example_version.1 ++ k, Publish next (OCount (Z.of_nat (n - n')))) ∧ n' ≤ n.
Proof.
  destruct example_version_ok as [Hg Hv].
  destruct (compact_minimal example_version.1 example_version.2 (<[[99; 98] := None]> (<[[97; 98] := None]> ∅)) Hg Hv)
    as (k & next & n & n' & E & _ & _ & _ & _ & Hmin).
  - split; vm_compute; congruence.
  - vm_compute. reflexivity.
  - exists k, next, n, n'. split; [exact E|]. apply Hmin. intros t value. rewrite !lookup_insert. by repeat case_decide.
Defined.

Lemma sorted_build_exact_witness :
  ∃ k root, from_sorted_entries (V := nat) [] [([97; 98], None); ([97; 98], Some 1); ([99], Some 2)] = Ret ([] ++ k, root, 2%Z).
Proof.
  destruct (sorted_build_exact (V := nat) [] [([97; 98], None); ([97; 98], Some 1); ([99], Some 2)]) as [Hok _].
  - by intros i n Hi.
  - by split.
  - destruct Hok as (k & root & E & _); [cbn; split_and!; try tauto; intros [H|[? H]]; lia|]. by exists k, root.
Defined.

Lemma dawg_roundtrip_witness :
  ∃ g root bound, dawg_from_terms_with_values [] roundtrip_terms = Ret (g, root, 3%Z) ∧
  ∀ fuel n, bound ≤ fuel → bound ≤ n →
  ∃ items, collect (DictionaryIterator_next 0 fuel) n (iterator_new (dawg_zipper_new g root)) = Ret items ∧
    ([98], 4) ∈ items.
Proof.
  destruct (dawg_roundtrip roundtrip_terms 0) as (g & root & bound & E & Hit); [vm_compute; reflexivity|].
  exists g, root, bound. split; [exact E|]. intros fuel n Hf Hn. destruct (Hit fuel n Hf Hn) as (items & ? & _ & Hin).
  exists items. split; [done|]. apply Hin. vm_compute. reflexivity.
Defined.
