(* ===== verification/DawgConcurrent.v ===== *)
(** * Concurrent use of a lock-free DAWG

    Threads that share a [LockFreeDawg] (src/src/dynamic_dawg/lockfree.rs).  Every
    operation runs the loop of its method: load the current version, prepare the next
    one privately, and compare-and-swap the pointer to the current version; the
    readers load a version and compute from it.  Steps of the threads interleave in
    any way.  Retained versions are never freed or reused, so a version is an index
    into the list of all versions and the compare-and-swap compares indices.  The
    backoff after a failed compare-and-swap only waits and is left out. *)

From stdpp Require Import prelude gmap sets sorting.
From S2P Require Import Prelude Edges Tree DatBuilder Zipper DatZipper Dawg DawgZipper DawgBuilder DawgVersion.

Section concurrent.
Context {V : Type}.
Implicit Types g : graph V.

(** ** The machine *)

Inductive thread_state :=
| Idle
| Starting (op : dawg_op V)  (* the call has begun *)
| Looping (op : dawg_op V) (candidate : GraphVersion)  (* at the head of the loop *)
| Loaded (op : dawg_op V) (candidate : GraphVersion) (current : nat)
| Prepared (op : dawg_op V) (candidate : GraphVersion) (current next : nat) (r : outcome V)
| Finished (r : outcome V)
| Panicked.

Record machine := mkMachine {
  mc_graph : graph V;
  mc_versions : list GraphVersion;
  mc_current : nat;
  mc_threads : nat → thread_state;
}.

Definition set_thread (s : machine) (i : nat) (t : thread_state) : machine :=
  mkMachine (mc_graph s) (mc_versions s) (mc_current s) (λ j, if decide (j = i) then t else mc_threads s j).

Inductive event :=
| Invoke (op : dawg_op V)
| Freeze
| Load
| Prepare
| Cas (success : bool)
| Respond (r : outcome V).

(** A candidate that no operation but [PublishSorted] looks at *)
Definition no_candidate : GraphVersion := mkVersion 0 0 false 0.

(** Building the frozen dictionary comes before the loop. *)
Definition start (s : machine) (op : dawg_op V) : exec (machine * GraphVersion) :=
  match op with
  | PublishSorted entries =>
      '(g, candidate) ← frozen_version (mc_graph s) entries;
      Ret (mkMachine g (mc_versions s) (mc_current s) (mc_threads s), candidate)
  | _ => Ret (s, no_candidate)
  end.

(** One step of thread [i]; a panic ends the thread. *)
Inductive step (i : nat) : machine → event → machine → Prop :=
| step_invoke s op :
    mc_threads s i = Idle → step i s (Invoke op) (set_thread s i (Starting op))
| step_freeze s op s' candidate :
    mc_threads s i = Starting op → start s op = Ret (s', candidate) →
    step i s Freeze (set_thread s' i (Looping op candidate))
| step_freeze_panic s op :
    mc_threads s i = Starting op → start s op = Panic → step i s Freeze (set_thread s i Panicked)
| step_load s op candidate :
    mc_threads s i = Looping op candidate → step i s Load (set_thread s i (Loaded op candidate (mc_current s)))
| step_return s op candidate current v g r :
    mc_threads s i = Loaded op candidate current → mc_versions s !! current = Some v →
    turn op candidate (mc_graph s) v = Ret (g, Return r) →
    step i s Prepare (set_thread (mkMachine g (mc_versions s) (mc_current s) (mc_threads s)) i (Finished r))
| step_prepare s op candidate current v g next r :
    mc_threads s i = Loaded op candidate current → mc_versions s !! current = Some v →
    turn op candidate (mc_graph s) v = Ret (g, Publish next r) →
    step i s Prepare
      (set_thread (mkMachine g (mc_versions s ++ [next]) (mc_current s) (mc_threads s)) i
        (Prepared op candidate current (length (mc_versions s)) r))
| step_prepare_panic s op candidate current v :
    mc_threads s i = Loaded op candidate current → mc_versions s !! current = Some v →
    turn op candidate (mc_graph s) v = Panic → step i s Prepare (set_thread s i Panicked)
| step_cas s op candidate current next r :
    mc_threads s i = Prepared op candidate current next r → mc_current s = current →
    step i s (Cas true) (set_thread (mkMachine (mc_graph s) (mc_versions s) next (mc_threads s)) i (Finished r))
| step_retry s op candidate current next r :
    mc_threads s i = Prepared op candidate current next r → mc_current s ≠ current →
    step i s (Cas false) (set_thread s i (Looping op candidate))
| step_respond s r :
    mc_threads s i = Finished r → step i s (Respond r) (set_thread s i Idle).

(** The next step of a thread, executable; an idle thread calls [op]. *)
Definition advance (i : nat) (op : dawg_op V) (s : machine) : option (event * machine) :=
  match mc_threads s i with
  | Idle => Some (Invoke op, set_thread s i (Starting op))
  | Starting op =>
      Some (Freeze, match start s op with
                    | Ret (s, candidate) => set_thread s i (Looping op candidate)
                    | Panic => set_thread s i Panicked
                    end)
  | Looping op candidate => Some (Load, set_thread s i (Loaded op candidate (mc_current s)))
  | Loaded op candidate current =>
      v ← mc_versions s !! current;
      Some (Prepare,
        match turn op candidate (mc_graph s) v with
        | Ret (g, Return r) =>
            set_thread (mkMachine g (mc_versions s) (mc_current s) (mc_threads s)) i (Finished r)
        | Ret (g, Publish next r) =>
            set_thread (mkMachine g (mc_versions s ++ [next]) (mc_current s) (mc_threads s)) i
              (Prepared op candidate current (length (mc_versions s)) r)
        | Panic => set_thread s i Panicked
        end)
  | Prepared op candidate current next r =>
      if decide (mc_current s = current)
      then Some (Cas true, set_thread (mkMachine (mc_graph s) (mc_versions s) next (mc_threads s)) i (Finished r))
      else Some (Cas false, set_thread s i (Looping op candidate))
  | Finished r => Some (Respond r, set_thread s i Idle)
  | Panicked => None
  end.

Lemma advance_step i op s e s' : advance i op s = Some (e, s') → step i s e s'.
Proof.
  unfold advance. destruct (mc_threads s i) as [|op'|op' c|op' c cur|op' c cur next r|r|] eqn:Ht; intros E; simplify_eq/=.
  - by constructor.
  - destruct (start s op') as [[s1 c]|] eqn:Es; by econstructor.
  - by constructor.
  - destruct (mc_versions s !! cur) as [v|] eqn:Hv; simplify_eq/=.
    destruct (turn op' c (mc_graph s) v) as [[g [r|next r]]|] eqn:Hturn; by econstructor.
  - case_decide; simplify_eq/=; by econstructor.
  - by constructor.
Qed.

Inductive steps : machine → list (nat * event) → machine → Prop :=
| steps_nil s : steps s [] s
| steps_snoc s tr s1 i e s2 : steps s tr s1 → step i s1 e s2 → steps s (tr ++ [(i, e)]) s2.

(** The threads of a schedule take their next steps in turn. *)
Fixpoint run (schedule : list (nat * dawg_op V)) (s : machine) : option (list (nat * event) * machine) :=
  match schedule with
  | [] => Some ([], s)
  | (i, op) :: schedule =>
      '(e, s) ← advance i op s;
      '(tr, s) ← run schedule s;
      Some ((i, e) :: tr, s)
  end.

Lemma steps_trans s tr s1 tr' s2 : steps s tr s1 → steps s1 tr' s2 → steps s (tr ++ tr') s2.
Proof.
  intros H1 H2. induction H2 as [|s0 tr2 s3 i e s4 _ IH Hstep]; [by rewrite app_nil_r|]. rewrite app_assoc. econstructor; [|done]. auto.
Qed.

Lemma run_steps schedule s tr s' : run schedule s = Some (tr, s') → steps s tr s'.
Proof.
  revert s tr. induction schedule as [|[i op] schedule IH]; intros s tr; cbn; [intros [= <- <-]; constructor|].
  destruct (advance i op s) as [[e s1]|] eqn:E; cbn; [|done]. destruct (run schedule s1) as [[tr1 s2]|] eqn:E1; cbn; [|done].
  intros [= <- <-]. apply (steps_trans s [(i, e)] s1); [|auto]. apply (steps_snoc s [] s); [constructor|]. by eapply advance_step.
Qed.

(** A new dictionary and threads that do nothing yet *)
Definition initial : machine :=
  let '(g, v) := LockFreeDawg_new [] in mkMachine g [v] 0 (λ _, Idle).

(** ** Linearizability *)

(** A history is the events of the threads with a mark where an operation takes
    effect. *)
Inductive mark :=
| Ev (e : event)
| Lin (op : dawg_op V) (r : outcome V).

Inductive stage :=
| Quiescent
| Pending (op : dawg_op V)
| Effected (op : dawg_op V) (r : outcome V).

(** A thread takes effect once between the call of an operation and its return, with
    that operation and with the result it returns. *)
Definition phase_step (p : stage) (x : mark) (p' : stage) : Prop :=
  match p, x with
  | Quiescent, Ev (Invoke op) => p' = Pending op
  | Pending op, Lin op' r => op' = op ∧ p' = Effected op r
  | Effected op r, Ev (Respond r') => r' = r ∧ p' = Quiescent
  | Pending _, Ev (Freeze | Load | Prepare | Cas _) | Effected _ _, Ev (Freeze | Load | Prepare | Cas _) => p' = p
  | _, _ => False
  end.

Inductive phases : stage → list mark → stage → Prop :=
| phases_nil p : phases p [] p
| phases_snoc p l q x r : phases p l q → phase_step q x r → phases p (l ++ [x]) r.

Definition of_thread (i : nat) (history : list (nat * mark)) : list mark := (filter (λ x, x.1 = i) history).*2.

Definition events (history : list (nat * mark)) : list (nat * event) :=
  omap (λ x : nat * mark, match x.2 with Ev e => Some (x.1, e) | Lin _ _ => None end) history.

(** The operations that took effect, one after the other *)
Inductive sequential : gmap (list nat) (option V) → list (nat * mark) → gmap (list nat) (option V) → Prop :=
| seq_nil m : sequential m [] m
| seq_event m l m' i e : sequential m l m' → sequential m (l ++ [(i, Ev e)]) m'
| seq_lin m l m1 i op r m2 : sequential m l m1 → op_spec op m1 m2 r → sequential m (l ++ [(i, Lin op r)]) m2.

(** What an operation can add to the letters and terms of the dictionary *)
Definition light (w : nat) (e : event) : Prop :=
  match e with Invoke op => op_weight op ≤ w | _ => True end.

(** The entries given to bulk loads are in order, as the callers sort them. *)
Definition sorted_bulk (e : event) : Prop :=
  match e with Invoke (PublishSorted entries) => nondecreasing [] entries | _ => True end.

Lemma start_keeps s op s' candidate :
  start s op = Ret (s', candidate) → mc_threads s' = mc_threads s ∧ mc_current s' = mc_current s.
Proof.
  unfold start. destruct op; cbn; intros E; simplify_eq/=; try done. by destruct (frozen_version _ _) as [[? ?]|]; simplify_eq/=.
Qed.

(** ** One turn *)

(** An operation that leaves the dictionary alone takes effect when it loads. *)
Definition quiet (op : dawg_op V) (m : gmap (list nat) (option V)) : bool :=
  match op with
  | InsertUnits units => negb (is_new (m !! units))
  | RemoveUnits units => is_new (m !! units)
  | ClearAll => bool_decide (m = ∅)
  | PublishSorted _ => bool_decide (m ≠ ∅)
  | InsertOptional _ _ | UpdateOrInsert _ _ _ | Compact => false
  | _ => true
  end.

Definition turn_room (v : GraphVersion) (m : gmap (list nat) (option V)) : Prop :=
  revision_room v ∧ (Z.of_nat (map_weight m) + 2 < 2 ^ 64)%Z.

Lemma turn_room_size v m : turn_room v m → (Z.of_nat (size m) + 1 < 2 ^ 64)%Z.
Proof. intros [_ ?]. pose proof (size_le_weight m). lia. Qed.

Lemma returns_same g v m (f : graph V → GraphVersion → exec (graph V * action V)) r k :
  (∀ g, graph_ok g → version_ok g v m → f g v = Ret (g, Return r)) →
  version_ok g v m → graph_ok g → graph_ok (g ++ k) → returns (f (g ++ k) v) (g ++ k) r.
Proof. intros Hf Hv Hg Hg'. exists []. rewrite app_nil_r. split; [|done]. apply Hf; [done|by apply version_ok_grow]. Qed.

Lemma turn_quiet op candidate g v m :
  graph_ok g → version_ok g v m → candidate_ok op candidate g → turn_room v m → quiet op m = true →
  ∃ r, op_spec op m m r ∧ ∀ k, graph_ok (g ++ k) → returns (turn op candidate (g ++ k) v) (g ++ k) r.
Proof.
  intros Hg Hv Hc Hroom Hq. pose proof (turn_room_size v m Hroom) as Hsize. destruct Hroom as [Hrev Hw].
  pose proof (λ k, version_ok_grow g k v m Hg Hv) as Hvk. destruct op; cbn [quiet turn op_spec] in *; try done.
  - destruct (m !! units) as [o|] eqn:E; [|done]. exists (OBool false). split; [done|]. intros k Hk.
    pose proof (insert_units_spec (g ++ k) v m units Hk (Hvk k) Hrev Hsize) as Hs. by rewrite E in Hs.
  - destruct (m !! units) as [o|] eqn:E; [done|]. exists (OBool false). split; [by rewrite delete_id|]. intros k Hk.
    pose proof (remove_units_spec (g ++ k) v m units Hk (Hvk k) Hrev) as Hs. by rewrite E in Hs.
  - apply bool_decide_eq_true in Hq as ->. exists (OBool false). split; [by rewrite bool_decide_false by naive_solver|]. intros k Hk.
    pose proof (clear_spec (g ++ k) v ∅ Hk (Hvk k) Hrev) as Hs. by rewrite decide_True in Hs.
  - apply bool_decide_eq_true in Hq. exists ONonEmpty. rewrite decide_False by done. split; [done|]. intros k Hk.
    pose proof (try_publish_spec (g ++ k) v m candidate _ Hk (Hvk k) (version_ok_grow g k _ _ Hg Hc) Hrev) as Hs. by rewrite decide_False in Hs.
  - eexists. split; [done|]. intros k Hk. apply (returns_same g v m); [|done..]. intros g'. apply get_units_value_spec.
  - eexists. split; [done|]. intros k Hk. apply (returns_same g v m); [|done..]. intros g'. apply get_units_optional_value_spec.
  - eexists. split; [done|]. intros k Hk. apply (returns_same g v m); [|done..]. intros g'. apply contains_units_spec.
  - eexists. split; [done|]. intros k Hk. apply (returns_same g v m); [|done..]. intros g' _ [_ Hcount].
    unfold dawg_term_count. by rewrite Hcount.
  - destruct (collect_entries_of g v m Hg Hv) as (entries & _ & Hp & Hs). exists (OEntries entries). split; [eauto|]. intros k Hk.
    apply (returns_same g v m); [|done..]. intros g' Hg' Hv'. unfold collect_visible_entries.
    destruct (collect_entries_of g' v m Hg' Hv') as (entries' & -> & Hp' & Hs'). cbn.
    rewrite (sorted_entries_unique entries entries'); [done..|]. by rewrite Hp, Hp'.
Qed.

Lemma turn_publishes op candidate g v m :
  graph_ok g → version_ok g v m → candidate_ok op candidate g → turn_room v m → quiet op m = false →
  ∃ m' r, op_spec op m m' r ∧ publishes (turn op candidate g v) g v m' r.
Proof.
  intros Hg Hv Hc Hroom Hq. pose proof (turn_room_size v m Hroom) as Hsize. destruct Hroom as [Hrev Hw].
  destruct op; cbn [quiet turn op_spec] in *; try done.
  - destruct (m !! units) as [o|] eqn:E; [done|]. eexists _, _. split; [done|].
    pose proof (insert_units_spec g v m units Hg Hv Hrev Hsize) as Hs. by rewrite E in Hs.
  - eexists _, _. split; [done|]. by apply insert_optional_spec.
  - eexists _, _. split; [done|]. by apply update_or_insert_spec.
  - destruct (m !! units) as [o|] eqn:E; [|done]. eexists _, _. split; [done|].
    pose proof (remove_units_spec g v m units Hg Hv Hrev) as Hs. by rewrite E in Hs.
  - apply bool_decide_eq_false in Hq. eexists _, _. split; [done|]. rewrite bool_decide_true by done.
    pose proof (clear_spec g v m Hg Hv Hrev) as Hs. by rewrite decide_False in Hs.
  - apply bool_decide_eq_false, dec_stable in Hq as ->. eexists _, _. rewrite decide_True by done. split; [done|].
    pose proof (try_publish_spec g v ∅ candidate _ Hg Hv Hc Hrev) as Hs. by rewrite decide_True in Hs.
  - destruct (rebuild_spec g v m Hg Hv Hrev Hw) as (k & root & n & n' & -> & Hb & _). eexists m, _. split; [eauto|].
    exists k. eexists. split_and!; [done|apply (bt_graph _ _ _ _ Hb)| |done]. split; [apply (bt_denotes _ _ _ _ Hb)|done].
Qed.

(** The frozen dictionary of a bulk load *)
Lemma start_spec s op :
  graph_ok (mc_graph s) → sorted_bulk (Invoke op) → (Z.of_nat (op_weight op) + 2 < 2 ^ 64)%Z →
  ∃ k candidate, start s op = Ret (mkMachine (mc_graph s ++ k) (mc_versions s) (mc_current s) (mc_threads s), candidate) ∧
    graph_ok (mc_graph s ++ k) ∧ candidate_ok op candidate (mc_graph s ++ k).
Proof.
  intros Hg Hs Hw. destruct op; try (exists [], no_candidate; rewrite app_nil_r; by destruct s). cbn in *.
  destruct (from_sorted_entries_spec (mc_graph s) entries Hg Hs) as (k & root & E & Hb); [unfold builder_room; lia|].
  unfold frozen_version. rewrite E. cbn. eexists k, _. split; [done|]. split; [apply (bt_graph _ _ _ _ Hb)|].
  split; [apply (bt_denotes _ _ _ _ Hb)|done].
Qed.

(** ** The invariant *)

(** What a thread owes, given the dictionaries of all versions *)
Definition thread_ok (w : nat) g (versions : list GraphVersion) (ms : list (gmap (list nat) (option V)))
    (t : thread_state) (p : stage) : Prop :=
  match t with
  | Idle => p = Quiescent
  | Starting op => p = Pending op ∧ op_weight op ≤ w ∧ sorted_bulk (Invoke op)
  | Looping op candidate => p = Pending op ∧ op_weight op ≤ w ∧ candidate_ok op candidate g
  | Loaded op candidate current =>
      op_weight op ≤ w ∧ candidate_ok op candidate g ∧
      ∃ v m, versions !! current = Some v ∧ ms !! current = Some m ∧
        if quiet op m
        then ∃ r, p = Effected op r ∧ ∀ k, graph_ok (g ++ k) → returns (turn op candidate (g ++ k) v) (g ++ k) r
        else p = Pending op
  | Prepared op candidate current next r =>
      p = Pending op ∧ op_weight op ≤ w ∧ candidate_ok op candidate g ∧
      ∃ m m', ms !! current = Some m ∧ ms !! next = Some m' ∧ op_spec op m m' r
  | Finished r => ∃ op, p = Effected op r
  | Panicked => False
  end.

Definition versions_ok (n w : nat) g (versions : list GraphVersion) (ms : list (gmap (list nat) (option V))) : Prop :=
  Forall2 (λ v m, version_ok g v m ∧ (0 ≤ gv_revision v ≤ Z.of_nat n)%Z ∧ map_weight m ≤ n * w) versions ms.

Record machine_ok (w : nat) (tr : list (nat * event)) (s : machine) (history : list (nat * mark))
    (ms : list (gmap (list nat) (option V))) : Prop := {
  mo_events : events history = tr;
  mo_graph : graph_ok (mc_graph s);
  mo_versions : versions_ok (length tr) w (mc_graph s) (mc_versions s) ms;
  mo_current : ∃ m, ms !! mc_current s = Some m ∧ sequential ∅ history m;
  mo_threads i : ∃ p, phases Quiescent (of_thread i history) p ∧
    thread_ok w (mc_graph s) (mc_versions s) ms (mc_threads s i) p;
}.

Lemma thread_ok_grow w g k versions l ms l' t p :
  graph_ok g → thread_ok w g versions ms t p → thread_ok w (g ++ k) (versions ++ l) (ms ++ l') t p.
Proof.
  intros Hg. destruct t; cbn; try done.
  - intros (-> & ? & ?). split_and!; [done..|]. by apply candidate_ok_grow.
  - intros (? & Hc & v & m & Hv & Hm & Hq). split_and!; [done|by apply candidate_ok_grow|]. exists v, m.
    split_and!; [by apply lookup_app_l_Some..|]. destruct (quiet op m); [|done]. destruct Hq as (r & -> & Hr).
    exists r. split; [done|]. intros k'. rewrite <-app_assoc. apply Hr.
  - intros (-> & ? & Hc & m & m' & Hm & Hm' & Hs). split_and!; [done..|by apply candidate_ok_grow|]. exists m, m'.
    split_and!; [by apply lookup_app_l_Some..|done].
Qed.

Lemma versions_ok_grow n n' w g k versions ms :
  graph_ok g → n ≤ n' → versions_ok n w g versions ms → versions_ok n' w (g ++ k) versions ms.
Proof.
  intros Hg Hn Hv. eapply Forall2_impl; [exact Hv|]. intros v m (Hvm & ? & ?). cbn.
  split_and!; [by apply version_ok_grow|lia..|]. nia.
Qed.

Lemma events_app h h' : events (h ++ h') = events h ++ events h'.
Proof. apply omap_app. Qed.

Lemma of_thread_app i h h' : of_thread i (h ++ h') = of_thread i h ++ of_thread i h'.
Proof. unfold of_thread. by rewrite filter_app, fmap_app. Qed.

Lemma of_thread_other i j x : i ≠ j → of_thread i [(j, x)] = [].
Proof. intros Hne. unfold of_thread. rewrite filter_cons, decide_False by (cbn; congruence). done. Qed.

Lemma of_thread_own i x : of_thread i [(i, x)] = [x].
Proof. unfold of_thread. by rewrite filter_cons, decide_True by done. Qed.

(** The marks a step adds: the event, and the effect if the operation has it there *)
Definition step_marks (i : nat) (e : event) (effect : option (dawg_op V * outcome V)) : list (nat * mark) :=
  (i, Ev e) :: match effect with Some (op, r) => [(i, Lin op r)] | None => [] end.

(** It is enough to look at the thread that takes the step. *)
Lemma machine_ok_step w tr s history ms i e s' k l lm effect p p1 t m' :
  machine_ok w tr s history ms →
  mc_graph s' = mc_graph s ++ k → mc_versions s' = mc_versions s ++ l → graph_ok (mc_graph s') →
  versions_ok (length tr + 1) w (mc_graph s') (mc_versions s') (ms ++ lm) →
  (∀ j, mc_threads s' j = if decide (j = i) then t else mc_threads s j) →
  (ms ++ lm) !! mc_current s' = Some m' → sequential ∅ (history ++ step_marks i e effect) m' →
  phases Quiescent (of_thread i history) p → phase_step p (Ev e) p1 →
  (∃ p2, match effect with Some (op, r) => phase_step p1 (Lin op r) p2 | None => p2 = p1 end ∧
     thread_ok w (mc_graph s') (mc_versions s') (ms ++ lm) t p2) →
  machine_ok w (tr ++ [(i, e)]) s' (history ++ step_marks i e effect) (ms ++ lm).
Proof.
  intros [Hev Hg Hv Hcur Hth] Eg Evs Hg' Hv' Ht Hm' Hseq Hp Hp1 (p2 & Hp2 & Hok). split.
  - rewrite events_app, Hev. f_equal. unfold step_marks. by destruct effect as [[op r]|].
  - done.
  - rewrite length_app. done.
  - eauto.
  - intros j. rewrite Ht, of_thread_app. case_decide as Hj.
    + subst j. exists p2. split; [|done]. unfold step_marks. change (?x :: ?y) with ([x] ++ y) at 1.
      rewrite of_thread_app, of_thread_own, app_assoc.
      assert (phases Quiescent (of_thread i history ++ [Ev e]) p1) as Hp1' by (by econstructor).
      destruct effect as [[op r]|]; [rewrite of_thread_own; by econstructor|]. rewrite app_nil_r. by subst p2.
    + destruct (Hth j) as (q & Hq & Hqok). exists q. split.
      * unfold step_marks. change (?x :: ?y) with ([x] ++ y) at 1. rewrite of_thread_app, of_thread_other by done.
        destruct effect as [[op r]|]; [rewrite of_thread_other by done|]; by rewrite app_nil_r.
      * rewrite Eg, Evs. by apply thread_ok_grow.
Qed.

(** Steps that add nothing to the memory and have no effect on the dictionary *)
Lemma machine_ok_local w tr s history ms i e p p1 t :
  machine_ok w tr s history ms → phases Quiescent (of_thread i history) p → phase_step p (Ev e) p1 →
  thread_ok w (mc_graph s) (mc_versions s) ms t p1 →
  machine_ok w (tr ++ [(i, e)]) (set_thread s i t) (history ++ step_marks i e None) ms.
Proof.
  intros Hs Hp Hp1 Ht. pose proof Hs as [_ Hg Hv (m & Hm & Hseq) _].
  rewrite <-(app_nil_r ms). eapply (machine_ok_step w tr s history ms i e _ [] [] [] None p p1 t m Hs); cbn; rewrite ?app_nil_r; try done.
  - rewrite <-(app_nil_r (mc_graph s)). eapply versions_ok_grow; [done| |done]. lia.
  - by constructor.
  - eauto.
Qed.

(** ** Every step keeps the invariant *)

Definition room (n w : nat) : Prop := (Z.of_nat ((n + 1) * (w + 1)) + 2 < 2 ^ 64)%Z.

Lemma version_turn n w g versions ms current v :
  versions_ok n w g versions ms → room n w → versions !! current = Some v →
  ∃ m, ms !! current = Some m ∧ version_ok g v m ∧ turn_room v m ∧ map_weight m ≤ n * w ∧ (0 ≤ gv_revision v ≤ Z.of_nat n)%Z.
Proof.
  intros Hv Hroom Hc. destruct (Forall2_lookup_l _ _ _ _ _ Hv Hc) as (m & Hm & Hvm & Hr & Hw). exists m.
  unfold room in Hroom. split_and!; [done|done| |done|lia..]. split; [split|]; nia.
Qed.

Lemma step_ok_freeze w tr s i history ms op :
  machine_ok w tr s history ms → room (length tr) w → mc_threads s i = Starting op →
  ∃ s1 candidate history' ms', start s op = Ret (s1, candidate) ∧
    machine_ok w (tr ++ [(i, Freeze)]) (set_thread s1 i (Looping op candidate)) history' ms'.
Proof.
  intros Hs Hroom Ht. pose proof Hs as [_ Hg Hv (m & Hm & Hseq) Hth]. destruct (Hth i) as (p & Hp & Hok).
  rewrite Ht in Hok. destruct Hok as (-> & Hw & Hsort).
  destruct (start_spec s op Hg Hsort) as (k & candidate & E & Hg' & Hc); [unfold room in Hroom; nia|].
  eexists _, candidate, _, (ms ++ []). split; [exact E|].
  eapply (machine_ok_step w tr s history ms i Freeze _ k [] [] None (Pending op) (Pending op) _ m Hs); cbn; rewrite ?app_nil_r; try done.
  - eapply versions_ok_grow; [done| |done]. lia.
  - by constructor.
  - exists (Pending op). by split_and!.
Qed.

Lemma step_ok_load w tr s i history ms op candidate :
  machine_ok w tr s history ms → room (length tr) w → mc_threads s i = Looping op candidate →
  ∃ history' ms', machine_ok w (tr ++ [(i, Load)]) (set_thread s i (Loaded op candidate (mc_current s))) history' ms'.
Proof.
  intros Hs Hroom Ht. pose proof Hs as [_ Hg Hv (m & Hm & Hseq) Hth]. destruct (Hth i) as (p & Hp & Hok).
  rewrite Ht in Hok. destruct Hok as (-> & Hw & Hc). destruct (Forall2_lookup_r _ _ _ _ _ Hv Hm) as (v & Hcur & _).
  destruct (version_turn _ _ _ _ _ _ _ Hv Hroom Hcur) as (m0 & Hm0 & Hvm & Hturn & _). rewrite Hm in Hm0. injection Hm0 as <-.
  destruct (quiet op m) eqn:Hq.
  - destruct (turn_quiet op candidate _ v m Hg Hvm Hc Hturn Hq) as (r & Hspec & Hret).
    eexists _, (ms ++ []). eapply (machine_ok_step w tr s history ms i Load _ [] [] [] (Some (op, r)) (Pending op) (Pending op) _ m Hs);
      cbn; rewrite ?app_nil_r; try done.
    + rewrite <-(app_nil_r (mc_graph s)). eapply versions_ok_grow; [done| |done]. lia.
    + unfold step_marks. change (?x :: ?y) with ([x] ++ y). rewrite app_assoc. eapply seq_lin; [by constructor|done].
    + exists (Effected op r). split; [done|]. split_and!; [done..|]. exists v, m. rewrite Hq. split_and!; [done..|]. by exists r.
  - eexists _, ms. eapply machine_ok_local; [done|exact Hp|done|]. cbn. split_and!; [done..|]. exists v, m. by rewrite Hq.
Qed.

Lemma step_ok_prepare w tr s i history ms op candidate current v :
  machine_ok w tr s history ms → room (length tr) w → mc_threads s i = Loaded op candidate current →
  mc_versions s !! current = Some v →
  (∃ g r history' ms', turn op candidate (mc_graph s) v = Ret (g, Return r) ∧
    machine_ok w (tr ++ [(i, Prepare)])
      (set_thread (mkMachine g (mc_versions s) (mc_current s) (mc_threads s)) i (Finished r)) history' ms') ∨
  (∃ g next r history' ms', turn op candidate (mc_graph s) v = Ret (g, Publish next r) ∧
    machine_ok w (tr ++ [(i, Prepare)])
      (set_thread (mkMachine g (mc_versions s ++ [next]) (mc_current s) (mc_threads s)) i
        (Prepared op candidate current (length (mc_versions s)) r)) history' ms').
Proof.
  intros Hs Hroom Ht Hcur. pose proof Hs as [_ Hg Hv (m0 & Hm0 & Hseq) Hth]. destruct (Hth i) as (p & Hp & Hok).
  rewrite Ht in Hok. destruct Hok as (Hw & Hc & v' & m & Hv' & Hm & Hq). rewrite Hcur in Hv'. injection Hv' as <-.
  destruct (version_turn _ _ _ _ _ _ _ Hv Hroom Hcur) as (m1 & Hm1 & Hvm & Hturn & Hweight & Hrev). rewrite Hm in Hm1. injection Hm1 as <-.
  destruct (quiet op m) eqn:Hquiet; [left|right].
  - destruct Hq as (r & -> & Hret). destruct (Hret []) as (k & E & Hg'); [by rewrite app_nil_r|]. rewrite app_nil_r in E, Hg'.
    eexists _, r, _, (ms ++ []). split; [exact E|].
    eapply (machine_ok_step w tr s history ms i Prepare _ k [] [] None (Effected op r) (Effected op r) _ m0 Hs);
      cbn; rewrite ?app_nil_r; try done.
    + eapply versions_ok_grow; [done| |done]. lia.
    + by constructor.
    + exists (Effected op r). split; [done|]. by exists op.
  - subst p. destruct (turn_publishes op candidate _ v m Hg Hvm Hc Hturn Hquiet) as (m' & r & Hspec & k & next & E & Hg' & Hvn & Hrn).
    eexists _, next, r, _, (ms ++ [m']). split; [exact E|].
    pose proof (Forall2_length _ _ _ Hv) as Hlen. pose proof (op_spec_weight op m m' r Hspec) as Hwm.
    eapply (machine_ok_step w tr s history ms i Prepare _ k [next] [m'] None (Pending op) (Pending op) _ m0 Hs); cbn; try done.
    + apply Forall2_app; [eapply versions_ok_grow; [done| |done]; lia|]. repeat constructor; [apply Hvn..|lia|lia|nia].
    + by apply lookup_app_l_Some.
    + by constructor.
    + exists (Pending op). split; [done|]. split_and!; [done..|by apply candidate_ok_grow|]. exists m, m'.
      split_and!; [by apply lookup_app_l_Some|rewrite Hlen; by rewrite list_lookup_middle|done].
Qed.

Lemma step_ok_cas w tr s i history ms op candidate next r :
  machine_ok w tr s history ms → mc_threads s i = Prepared op candidate (mc_current s) next r →
  ∃ history' ms', machine_ok w (tr ++ [(i, Cas true)])
    (set_thread (mkMachine (mc_graph s) (mc_versions s) next (mc_threads s)) i (Finished r)) history' ms'.
Proof.
  intros Hs Ht. pose proof Hs as [_ Hg Hv (m0 & Hm0 & Hseq) Hth]. destruct (Hth i) as (p & Hp & Hok).
  rewrite Ht in Hok. destruct Hok as (-> & Hw & Hc & m & m' & Hm & Hm' & Hspec). rewrite Hm in Hm0. injection Hm0 as <-.
  eexists _, (ms ++ []).
  eapply (machine_ok_step w tr s history ms i (Cas true) _ [] [] [] (Some (op, r)) (Pending op) (Pending op) _ m' Hs);
    cbn; rewrite ?app_nil_r; try done.
  - rewrite <-(app_nil_r (mc_graph s)). eapply versions_ok_grow; [done| |done]. lia.
  - unfold step_marks. change (?x :: ?y) with ([x] ++ y). rewrite app_assoc. eapply seq_lin; [by constructor|done].
  - exists (Effected op r). split; [done|]. by exists op.
Qed.

Lemma step_ok w tr s i e s' history ms :
  machine_ok w tr s history ms → step i s e s' → light w e → sorted_bulk e → room (length tr) w →
  ∃ history' ms', machine_ok w (tr ++ [(i, e)]) s' history' ms'.
Proof.
  intros Hs Hstep Hl Hsort Hroom. destruct (mo_threads _ _ _ _ _ Hs i) as (p & Hp & Hok).
  destruct Hstep as [s op Ht|s op s' c Ht E|s op Ht E|s op c Ht|s op c cur v g r Ht Hv E|s op c cur v g next r Ht Hv E|
    s op c cur v Ht Hv E|s op c cur next r Ht Hc|s op c cur next r Ht Hc|s r Ht]; rewrite Ht in Hok.
  - cbn in Hok. subst p. eexists _, ms. by eapply machine_ok_local.
  - destruct (step_ok_freeze w tr s i history ms op Hs Hroom Ht) as (s1 & c' & h & ms' & E' & Hs'). rewrite E in E'.
    injection E' as <- <-. eauto.
  - destruct (step_ok_freeze w tr s i history ms op Hs Hroom Ht) as (s1 & c' & h & ms' & E' & Hs'). congruence.
  - by eapply step_ok_load.
  - destruct (step_ok_prepare w tr s i history ms op c cur v Hs Hroom Ht Hv) as [(g' & r' & h & ms' & E' & Hs')|(g' & n & r' & h & ms' & E' & Hs')];
      rewrite E in E'; [injection E' as <- <-; eauto|congruence].
  - destruct (step_ok_prepare w tr s i history ms op c cur v Hs Hroom Ht Hv) as [(g' & r' & h & ms' & E' & Hs')|(g' & n & r' & h & ms' & E' & Hs')];
      rewrite E in E'; [congruence|injection E' as <- <- <-; eauto].
  - destruct (step_ok_prepare w tr s i history ms op c cur v Hs Hroom Ht Hv) as [(g' & r' & h & ms' & E' & Hs')|(g' & n & r' & h & ms' & E' & Hs')];
      congruence.
  - subst cur. by eapply step_ok_cas.
  - destruct Hok as (-> & Hw & Hcand & _). eexists _, ms. by eapply machine_ok_local.
  - destruct Hok as (op & ->). eexists _, ms. by eapply machine_ok_local.
Qed.

Lemma initial_ok w : machine_ok w [] initial [] [∅].
Proof.
  assert (graph_ok [LockFreeDawgNode_new (V := V) false]) as Hg.
  { apply (graph_ok_snoc []); [by intros i n Hi|apply node_ok_new]. }
  split; cbn.
  - done.
  - done.
  - constructor; [|constructor]. split; [split; [by apply (denotes_new [])|cbn; by rewrite map_size_empty]|].
    split; [cbn; lia|]. pose proof (map_weight_empty (V := V)). lia.
  - exists ∅. split; [done|constructor].
  - intros i. exists Quiescent. split; [constructor|done].
Qed.

Lemma steps_ok w tr s :
  steps initial tr s → Forall (λ x, light w x.2 ∧ sorted_bulk x.2) tr → room (length tr) w →
  ∃ history ms, machine_ok w tr s history ms.
Proof.
  intros Hsteps. remember initial as s0 eqn:E0. induction Hsteps as [s|s tr s1 i e s2 Hsteps IH Hstep]; subst s.
  { intros _ _. exists [], [∅]. apply initial_ok. }
  intros [Htr [[Hl Hsort] _]%Forall_cons]%Forall_app Hroom. rewrite length_app in Hroom. cbn in Hroom.
  destruct IH as (history & ms & Hok); [done|done|unfold room in *; nia|].
  eapply step_ok; [done..|]. unfold room in *. nia.
Qed.

(** ** Properties *)

(** C6: the lock-free DAWG is linearizable.  Threads run any operations on one
    dictionary, with their steps interleaved in any way.  Then one can mark in every
    operation a point between its call and its return where it takes effect, such that
    the marked operations, one after the other, do to a finite map what they should and
    return what the threads return; a completed operation has taken effect.  No thread
    panics, and the published version holds the map.  The bounds are those of the
    64-bit counters: [w] bounds the letters an operation brings. *)
Theorem dawg_linearizable w tr s :
  steps initial tr s → Forall (λ x, light w x.2 ∧ sorted_bulk x.2) tr → room (length tr) w →
  ∃ history m, events history = tr ∧ sequential ∅ history m ∧
    (∀ i, ∃ p, phases Quiescent (of_thread i history) p) ∧ (∀ i, mc_threads s i ≠ Panicked) ∧
    ∃ v, mc_versions s !! mc_current s = Some v ∧ version_ok (mc_graph s) v m.
Proof.
  intros Hsteps Htr Hroom. destruct (steps_ok w tr s Hsteps Htr Hroom) as (history & ms & [Hev Hg Hv (m & Hm & Hseq) Hth]).
  exists history, m. split_and!; [done|done| | |].
  - intros i. destruct (Hth i) as (p & Hp & _). by exists p.
  - intros i Hi. destruct (Hth i) as (p & _ & Hok). by rewrite Hi in Hok.
  - destruct (Forall2_lookup_r _ _ _ _ _ Hv Hm) as (v & Hcur & Hvm & _). by exists v.
Qed.

Lemma steps_app s tr1 tr2 s' : steps s (tr1 ++ tr2) s' → ∃ s1, steps s tr1 s1 ∧ steps s1 tr2 s'.
Proof.
  revert s'. induction tr2 as [|x tr2 IH] using rev_ind; intros s' H.
  - rewrite app_nil_r in H. exists s'. split; [done|constructor].
  - rewrite app_assoc in H. remember ((tr1 ++ tr2) ++ [x]) as l eqn:E. destruct H as [|s tr s1 i e s2 H1 Hstep]; [by destruct (tr1 ++ tr2)|].
    apply app_inj_tail in E as [-> <-]. destruct (IH s1 H1) as (s3 & ? & ?). exists s3. split; [done|]. by econstructor.
Qed.

Lemma steps_one s i e s' : steps s [(i, e)] s' → step i s e s'.
Proof.
  intros H. remember [(i, e)] as l eqn:E. destruct H as [|s tr s1 j e' s2 H1 Hstep]; [done|].
  apply (app_inj_tail tr []) in E as [-> [= -> ->]]. remember [] as l eqn:E. destruct H1 as [|s tr']; [done|]. by destruct tr'.
Qed.

Definition in_turn (t : thread_state) : option nat :=
  match t with Loaded _ _ current => Some current | Prepared _ _ current _ _ => Some current | _ => None end.

(** While thread [i] does not load again and nobody else publishes, the version it
    loaded stays the current one until it is done with it. *)
Lemma turn_undisturbed i s mid s' current :
  in_turn (mc_threads s i) = Some current → mc_current s = current → steps s mid s' → (i, Load) ∉ mid →
  in_turn (mc_threads s' i) = None ∨
  (in_turn (mc_threads s' i) = Some current ∧ (mc_current s' = current ∨ ∃ j, j ≠ i ∧ (j, Cas true) ∈ mid)).
Proof.
  intros Ht Hc Hsteps. induction Hsteps as [s|s mid s1 j e s2 Hsteps IH Hstep]; intros Hload; [right; eauto|].
  rewrite elem_of_app in Hload. specialize (IH Ht Hc (λ H, Hload (or_introl H))).
  destruct (decide (j = i)) as [->|Hne].
  - destruct Hstep; try (destruct Hload; right; by left);
      cbn in *; rewrite decide_True by done; cbn; try (by left).
    destruct IH as [IH|[IH Hwin]]; rewrite H in IH; [done|]. right. split; [done|]. destruct Hwin as [|(j & ? & ?)]; [by left|].
    right. exists j. rewrite elem_of_app. eauto.
  - assert (mc_threads s2 i = mc_threads s1 i) as ->.
    { destruct Hstep as [|? ? ? ? ? [E _]%start_keeps| | | | | | | |]; cbn; rewrite decide_False by done; by rewrite ?E. }
    destruct IH as [IH|[IH Hwin]]; [by left|right]. split; [done|].
    assert (mc_current s2 = mc_current s1 ∨ e = Cas true) as [->| ->].
    { destruct Hstep as [|? ? ? ? ? [_ E]%start_keeps| | | | | | | |]; cbn; auto. }
    2: { right. exists j. rewrite elem_of_app. split; [done|]. right. by left. }
    destruct Hwin as [|(k & ? & ?)]; [by left|]. right. exists k. rewrite elem_of_app. eauto.
Qed.


End concurrent.

(** Two threads insert at the same time; the first one loses and retries. *)
Definition race : list (nat * dawg_op nat) :=
  (λ i, (i, InsertUnits [i])) <$> [0; 0; 1; 1; 0; 1; 1; 1; 0; 0; 0; 0; 0; 0; 1].

Definition race_trace : list (nat * event (V := nat)) :=
  [(0, Invoke (InsertUnits [0])); (0, Freeze); (1, Invoke (InsertUnits [1])); (1, Freeze)] ++
  (0, Load) :: [(1, Load); (1, Prepare); (1, Cas true); (0, Prepare)] ++
  [(0, Cas false); (0, Load); (0, Prepare); (0, Cas true); (0, Respond (OBool true)); (1, Respond (OBool true))].

Lemma race_run : fst <$> run race initial = Some race_trace.
Proof. vm_compute. reflexivity. Qed.

Lemma dawg_linearizable_witness :
  ∃ s history m, steps initial race_trace s ∧ events history = race_trace ∧ sequential ∅ history m ∧
    ∃ v, mc_versions s !! mc_current s = Some v ∧ version_ok (mc_graph s) v m.
Proof.
  pose proof race_run as E. destruct (run race initial) as [[tr s]|] eqn:Er; [|done]. injection E as ->.
  apply run_steps in Er. destruct (dawg_linearizable 2 race_trace s Er) as (history & m & ? & ? & _ & _ & ?).
  - repeat constructor.
  - vm_compute. reflexivity.
  - by exists s, history, m.
Defined.

