(* ===== verification/TraversalGraph.v ===== *)
(** * The compact traversal graph

    [SnapshotTraversalGraph] of src/src/lib.rs: a captured revision as two flat arrays,
    in which a node is a packed word with the start and the length of its edges and
    its finality.  The constructor checks the arrays once, so that the traversal can
    read without bounds checks.  A value handle is whatever the backend stores. *)

From stdpp Require Import prelude sorting.
From S2P Require Import Prelude.
Local Open Scope Z_scope.

(** ** Packed node ranges *)

Definition SNAPSHOT_RANGE_FINAL_BIT : Z := Z.shiftl 1 63.
Definition SNAPSHOT_RANGE_LENGTH_MASK : Z := Z.shiftr (2 ^ 32 - 1) 1.

Definition range_new (edge_start edge_len : Z) (is_final : bool) : option Z :=
  if SNAPSHOT_RANGE_LENGTH_MASK <? edge_len then None
  else
    let finality := if is_final then SNAPSHOT_RANGE_FINAL_BIT else 0 in
    Some (Z.lor (Z.lor edge_start (Z.shiftl edge_len 32)) finality).

Definition range_edge_start (r : Z) : Z := u32 r.
Definition range_edge_len (r : Z) : Z := Z.land (Z.shiftr r 32) SNAPSHOT_RANGE_LENGTH_MASK.
Definition range_is_final (r : Z) : bool := negb (Z.land r SNAPSHOT_RANGE_FINAL_BIT =? 0).

(** The three fields do not overlap. *)
Lemma range_fields start len is_final r :
  is_u32 start → 0 ≤ len → range_new start len is_final = Some r →
  range_edge_start r = start ∧ range_edge_len r = len ∧ range_is_final r = is_final ∧ is_u64 r.
Proof.
  intros Hs Hl. unfold range_new. change SNAPSHOT_RANGE_LENGTH_MASK with (2 ^ 31 - 1).
  destruct (Z.ltb_spec (2 ^ 31 - 1) len) as [|Hle]; [done|]. intros [= <-]. unfold is_u32 in Hs.
  assert (Z.lor start (Z.shiftl len 32) = len * 2 ^ 32 + start) as -> by (rewrite Z.lor_comm, lor_shiftl_add by lia; done).
  set (f := if is_final then SNAPSHOT_RANGE_FINAL_BIT else 0). set (b := if is_final then 1 else 0).
  assert (Z.lor (len * 2 ^ 32 + start) f = b * 2 ^ 63 + (len * 2 ^ 32 + start)) as ->.
  { rewrite Z.lor_comm. replace f with (b * 2 ^ 63) by (by destruct is_final). apply lor_mul_add; lia. }
  assert (b = 0 ∨ b = 1) as Hb by (destruct is_final; auto).
  unfold range_edge_start, range_edge_len, range_is_final, is_u64. split_and!.
  - unfold u32. replace (b * 2 ^ 63 + (len * 2 ^ 32 + start)) with (start + (b * 2 ^ 31 + len) * 2 ^ 32) by lia.
    rewrite Z.mod_add, Z.mod_small by lia. done.
  - rewrite Z.shiftr_div_pow2 by lia. replace (b * 2 ^ 63 + (len * 2 ^ 32 + start)) with (start + (b * 2 ^ 31 + len) * 2 ^ 32) by lia.
    rewrite Z.div_add, Z.div_small, Z.add_0_l by lia. change SNAPSHOT_RANGE_LENGTH_MASK with (Z.shiftl 1 31 - 1).
    rewrite land_mask by lia. rewrite Z.add_comm, Z.mod_add, Z.mod_small by lia. done.
  - change SNAPSHOT_RANGE_FINAL_BIT with (2 ^ 63). rewrite land_pow2_eqb, negb_involutive by lia.
    rewrite testbit_top by lia. destruct is_final; unfold b; [apply Z.leb_le|apply Z.leb_gt]; lia.
  - destruct Hb as [-> | ->]; lia.
  - destruct Hb as [-> | ->]; lia.
Qed.

(** ** The graph *)

Section graph.
Context {H : Type}.

Record SnapshotTraversalNode := mkTraversalNode {
  sn_edge_start : Z;
  sn_edge_len : Z;
  sn_final : bool;
  sn_handle : H;
}.

(** An edge is a label and a target index. *)
Record SnapshotTraversalGraph := mkTraversalGraph {
  tg_nodes : list Z;
  tg_handles : list H;
  tg_edges : list (nat * Z);
  tg_root : Z;
}.

(** [edges.get(start..start + len)] *)
Definition get_range {A} (l : list A) (start len : Z) : option (list A) :=
  if start + len <=? Z.of_nat (length l) then Some (take (Z.to_nat len) (drop (Z.to_nat start) l)) else None.

Fixpoint check_edges (node_count : Z) (previous : option nat) (range : list (nat * Z)) : bool :=
  match range with
  | [] => true
  | (label, target) :: range =>
      if (node_count <=? target) || match previous with Some p => (label <=? p)%nat | None => false end then false
      else check_edges node_count (Some label) range
  end.

Definition check_node (node_count : Z) (edges : list (nat * Z)) (node : SnapshotTraversalNode) : bool :=
  match get_range edges (sn_edge_start node) (sn_edge_len node) with
  | Some range => check_edges node_count None range
  | None => false
  end.

Definition SnapshotTraversalGraph_new (nodes : list SnapshotTraversalNode) (edges : list (nat * Z)) (root : Z) :
    option SnapshotTraversalGraph :=
  let node_count := Z.of_nat (length nodes) in
  if (node_count =? 0) || (node_count <=? root) then None
  else if forallb (check_node node_count edges) nodes then
    ranges ← mapM (λ node, range_new (sn_edge_start node) (sn_edge_len node) (sn_final node)) nodes;
    Some (mkTraversalGraph ranges (sn_handle <$> nodes) edges root)
  else None.

Definition graph_node_count (g : SnapshotTraversalGraph) : nat := length (tg_nodes g).

Definition graph_node (g : SnapshotTraversalGraph) (index : nat) : option SnapshotTraversalNode :=
  range ← tg_nodes g !! index;
  value_handle ← tg_handles g !! index;
  Some (mkTraversalNode (range_edge_start range) (range_edge_len range) (range_is_final range) value_handle).

(** The index and the slice panic when they are out of range. *)
Definition edges_and_finality (g : SnapshotTraversalGraph) (index : nat) : exec (list (nat * Z) * bool) :=
  node ← tg_nodes g !! index;
  edges ← get_range (tg_edges g) (range_edge_start node) (range_edge_len node);
  Ret (edges, range_is_final node).

(** Reading out of bounds is undefined behaviour here; it is [Panic] in the model. *)
Definition edges_and_finality_unchecked (g : SnapshotTraversalGraph) (index : nat) : exec (list (nat * Z) * bool) :=
  node ← tg_nodes g !! index;
  edges ← get_range (tg_edges g) (range_edge_start node) (range_edge_len node);
  Ret (edges, range_is_final node).

Definition value_handle (g : SnapshotTraversalGraph) (index : nat) : exec H := tg_handles g !! index.

(** ** What the constructor accepts *)

Definition node_typed (node : SnapshotTraversalNode) : Prop := is_u32 (sn_edge_start node) ∧ is_u32 (sn_edge_len node).

Lemma check_edges_spec count previous range :
  check_edges count previous range = true ↔
  Forall (λ e, e.2 < count) range ∧ StronglySorted lt range.*1 ∧
  match previous with Some p => Forall (λ l, (p < l)%nat) range.*1 | None => True end.
Proof.
  revert previous. induction range as [|[label target] range IH]; intros previous; cbn [check_edges].
  { split; [|done]. intros _. split_and!; [constructor..|]. destruct previous; [constructor|done]. }
  destruct (Z.leb_spec count target) as [Hge|Hlt]; cbn [orb].
  { split; [done|]. intros ([? _]%Forall_cons & _). cbn in *. lia. }
  assert (match previous with Some p => (label <=? p)%nat | None => false end = true ↔ ∃ p, previous = Some p ∧ (label ≤ p)%nat) as Hprev.
  { destruct previous as [p|]; [|naive_solver]. rewrite Nat.leb_le. naive_solver. }
  destruct (match previous with Some p => _ | None => false end) eqn:E.
  { destruct (proj1 Hprev eq_refl) as (p & -> & Hle). split; [done|]. intros (_ & _ & [Hp _]%Forall_cons). cbn in Hp. lia. }
  rewrite IH. cbn. rewrite Forall_cons. cbn. split.
  - intros (Ht & Hs & Hl). split_and!; [done..|by constructor|]. destruct previous as [p|]; [|done].
    assert ((p < label)%nat). { apply Nat.lt_nge. intros ?. enough (false = true) by done. apply Hprev. eauto. }
    constructor; [done|]. eapply Forall_impl; [done|]. cbn. lia.
  - intros ([_ Ht] & Hs & _). inversion Hs; subst. done.
Qed.

Lemma get_range_Some {A} (l : list A) start len range :
  0 ≤ start → 0 ≤ len → get_range l start len = Some range →
  range = take (Z.to_nat len) (drop (Z.to_nat start) l) ∧ Z.of_nat (length range) = len.
Proof.
  intros Hs Hl. unfold get_range. destruct (Z.leb_spec (start + len) (Z.of_nat (length l))); [|done]. intros [= <-].
  split; [done|]. rewrite length_take, length_drop. lia.
Qed.

(** Every node of an accepted graph can be read without bounds checks: its edges are
    the ones described, sorted, and lead to nodes of the graph. *)
Lemma graph_new_node nodes edges root g i node :
  Forall node_typed nodes → SnapshotTraversalGraph_new nodes edges root = Some g → nodes !! i = Some node →
  ∃ range, get_range edges (sn_edge_start node) (sn_edge_len node) = Some range ∧
    edges_and_finality g i = Ret (range, sn_final node) ∧ value_handle g i = Ret (sn_handle node) ∧ graph_node g i = Some node ∧
    Forall (λ e, e.2 < Z.of_nat (length nodes)) range ∧ StronglySorted lt range.*1.
Proof.
  intros Ht Hnew Hi. unfold SnapshotTraversalGraph_new in Hnew. destruct (_ || _); [done|].
  destruct (forallb _ nodes) eqn:Hall; [|done]. rewrite forallb_forall in Hall.
  specialize (Hall node). rewrite <-list_elem_of_In in Hall. specialize (Hall (list_elem_of_lookup_2 _ _ _ Hi)).
  unfold check_node in Hall. destruct (get_range edges _ _) as [range|] eqn:Er; [|done].
  apply check_edges_spec in Hall as (Htarget & Hsort & _).
  destruct (mapM _ nodes) as [ranges|] eqn:Em; [|done]. cbn in Hnew. injection Hnew as <-.
  apply mapM_Some in Em. destruct (Forall2_lookup_l _ _ _ _ _ Em Hi) as (r & Hr & Hrange).
  eapply Forall_lookup_1 in Ht as [Hts Htl]; [|exact Hi].
  destruct (range_fields _ _ _ _ Hts (proj1 Htl) Hrange) as (E1 & E2 & E3 & _).
  exists range. unfold edges_and_finality, value_handle, graph_node. cbn. rewrite Hr. cbn. rewrite list_lookup_fmap, Hi. cbn.
  rewrite E1, E2, E3, Er. split_and!; try done. by destruct node.
Qed.

End graph.
Arguments SnapshotTraversalNode H : clear implicits.
Arguments SnapshotTraversalGraph H : clear implicits.

(** C28: a compact traversal graph is safe to read without bounds checks.  When the
    constructor accepts the arrays, the root and every edge target are nodes, and for
    every node the unchecked read stays in bounds and gives exactly the edges and the
    finality of its description, with strictly increasing labels; the packed words
    give the descriptions back. *)
Theorem traversal_graph_safe {H} (nodes : list (SnapshotTraversalNode H)) edges root g :
  Forall node_typed nodes → SnapshotTraversalGraph_new nodes edges root = Some g →
  root < Z.of_nat (graph_node_count g) ∧ graph_node_count g = length nodes ∧
  ∀ i, (i < graph_node_count g)%nat →
    ∃ node range, nodes !! i = Some node ∧ graph_node g i = Some node ∧
      range = take (Z.to_nat (sn_edge_len node)) (drop (Z.to_nat (sn_edge_start node)) edges) ∧
      Z.of_nat (length range) = sn_edge_len node ∧
      edges_and_finality_unchecked g i = Ret (range, sn_final node) ∧
      Forall (λ e, e.2 < Z.of_nat (graph_node_count g)) range ∧ StronglySorted lt range.*1.
Proof.
  intros Ht Hnew. assert (graph_node_count g = length nodes ∧ root < Z.of_nat (length nodes)) as [Hcount Hroot].
  { unfold SnapshotTraversalGraph_new in Hnew. destruct (_ =? 0); [done|]. cbn [orb] in Hnew.
    destruct (Z.leb_spec (Z.of_nat (length nodes)) root) as [|Hlt]; [done|]. destruct (forallb _ nodes); [|done].
    destruct (mapM _ nodes) as [ranges|] eqn:Em; [|done]. cbn in Hnew. injection Hnew as <-. split; [|done].
    apply mapM_Some, Forall2_length in Em. by unfold graph_node_count. }
  rewrite Hcount. split_and!; [done..|]. intros i Hi. destruct (lookup_lt_is_Some_2 nodes i Hi) as [node Hn].
  destruct (graph_new_node nodes edges root g i node Ht Hnew Hn) as (range & Er & Ee & _ & Hg & Htarget & Hsort).
  eapply Forall_lookup_1 in Ht as [[Hs0 _] [Hl0 _]]; [|exact Hn].
  apply get_range_Some in Er as [Er Hlen]; [|done..]. exists node, range. by split_and!.
Qed.

Definition example_nodes : list (SnapshotTraversalNode Z) :=
  [mkTraversalNode 0 2 false 7; mkTraversalNode 2 0 true 8].
Definition example_edges : list (nat * Z) := [(97%nat, 1); (98%nat, 1)].

Lemma traversal_graph_safe_witness :
  ∃ g, SnapshotTraversalGraph_new example_nodes example_edges 0 = Some g ∧
    edges_and_finality_unchecked g 0 = Ret (example_edges, false).
Proof.
  eexists. split; [reflexivity|].
  destruct (traversal_graph_safe example_nodes example_edges 0 _ ltac:(repeat constructor; cbn; lia) eq_refl) as (_ & _ & Hread).
  destruct (Hread 0%nat) as (node & range & [= <-] & _ & -> & _ & E & _); [cbn; lia|]. exact E.
Defined.
