(* ===== verification/DawgProjection.v ===== *)
(** * Projecting a DAWG revision to a compact graph

    [frozen_traversal_graph_from_root] of src/src/dynamic_dawg/lockfree.rs: a revision
    becomes a [SnapshotTraversalGraph], by the dense identities of a freshly built
    graph or, for any graph, by numbering the nodes in the order they are found.  The
    value handle of a node is the node itself. *)

From stdpp Require Import prelude gmap sets sorting.
From S2P Require Import Prelude Edges Tree Dawg DawgZipper DawgBuilder DawgVersion DawgConcurrent TraversalGraph.

(** [let x = e?;] in a function that returns an [Option] and may panic *)
Local Notation "'let?' x ':=' e 'in' k" := (match e with None => Ret None | Some x => k end)
  (at level 200, x binder, e at level 100, k at level 200).

Section projection.
Context {V : Type}.
Implicit Types g : graph V.

(** [u32::try_from(n).ok()] *)
Definition u32_try_from (n : nat) : option Z := if (Z.of_nat n <? 2 ^ 32)%Z then Some (Z.of_nat n) else None.

(** [usize::try_from(node.snapshot_id?.get().checked_sub(1)?).ok()] *)
Definition dense_index (node : LockFreeDawgNode V) : option nat :=
  id ← dn_snapshot_id node;
  if (id <? 1)%Z then None else Some (Z.to_nat (id - 1)).

(** ** By the dense identities *)

Record dense_state := mkDense {
  ds_nodes : list (option (SnapshotTraversalNode nat));
  ds_scheduled : list bool;
  ds_edges : list (nat * Z);
  ds_stack : list nat;
}.

Definition dense_edge (g : graph V) (node_count : nat) (st : option dense_state) (edge : nat * nat) : exec (option dense_state) :=
  match st with
  | None => Ret None
  | Some st =>
      let '(label, child) := edge in
      child_node ← g !! child;
      let? child_index := dense_index child_node in
      if node_count <=? child_index then Ret None
      else
        let? target := u32_try_from child_index in
        let edges := ds_edges st ++ [(label, target)] in
        scheduled ← ds_scheduled st !! child_index;
        if (scheduled : bool) then Ret (Some (mkDense (ds_nodes st) (ds_scheduled st) edges (ds_stack st)))
        else
          scheduled ← store (ds_scheduled st) child_index true;
          Ret (Some (mkDense (ds_nodes st) scheduled edges (child :: ds_stack st)))
  end.

Fixpoint dense_loop (g : graph V) (node_count : nat) (fuel : nat) (st : dense_state) : exec (option dense_state) :=
  match ds_stack st with
  | [] => Ret (Some st)
  | node :: stack =>
      match fuel with
      | O => Panic
      | S fuel =>
          n ← g !! node;
          let? node_index := dense_index n in
          if node_count <=? node_index then Ret None
          else
            let? edge_start := u32_try_from (length (ds_edges st)) in
            r ← foldM (dense_edge g node_count) (Some (mkDense (ds_nodes st) (ds_scheduled st) (ds_edges st) stack)) (dn_edges n);
            let? st := r in
            let? edge_len := u32_try_from (length (dn_edges n)) in
            nodes ← store (ds_nodes st) node_index (Some (mkTraversalNode edge_start edge_len (dn_final n) node));
            dense_loop g node_count fuel (mkDense nodes (ds_scheduled st) (ds_edges st) (ds_stack st))
      end
  end.

Definition frozen_traversal_graph_from_snapshot_ids (g : graph V) (root : nat) : exec (option (SnapshotTraversalGraph nat)) :=
  n ← g !! root;
  let? root_index := dense_index n in
  let node_count := root_index + 1 in
  let? _ := u32_try_from node_count in
  scheduled ← store (replicate node_count false) root_index true;
  r ← dense_loop g node_count node_count (mkDense (replicate node_count None) scheduled [] [root]);
  let? st := r in
  let? nodes := mapM id (ds_nodes st) in
  let? root := u32_try_from root_index in
  Ret (SnapshotTraversalGraph_new nodes (ds_edges st) root).

(** ** By the pointers *)

Record found_state := mkFound {
  fs_indices : gmap nat Z;
  fs_discovered : list nat;
}.

(** The loop over the edges of a node *)
Definition find_edge (acc : option (found_state * list (nat * Z))) (edge : nat * nat) :
    exec (option (found_state * list (nat * Z))) :=
  match acc with
  | None => Ret None
  | Some (st, node_edges) =>
      let '(label, child) := edge in
      match fs_indices st !! child with
      | Some target => Ret (Some (st, node_edges ++ [(label, target)]))
      | None =>
          let? target := u32_try_from (length (fs_discovered st)) in
          Ret (Some (mkFound (<[child := target]> (fs_indices st)) (fs_discovered st ++ [child]), node_edges ++ [(label, target)]))
      end
  end.

(** The loop over the discovered nodes; the descriptions are finality, handle and edges. *)
Fixpoint find_loop (g : graph V) (fuel index : nat) (st : found_state) (descriptions : list (bool * nat * list (nat * Z))) :
    exec (option (list (bool * nat * list (nat * Z)))) :=
  match fs_discovered st !! index with
  | None => Ret (Some descriptions)
  | Some node =>
      match fuel with
      | O => Panic
      | S fuel =>
          n ← g !! node;
          r ← foldM find_edge (Some (st, [])) (dn_edges n);
          let? '(st, node_edges) := r in
          find_loop g fuel (S index) st (descriptions ++ [(dn_final n, node, node_edges)])
      end
  end.

(** The descriptions one after the other *)
Definition flatten (acc : option (list (SnapshotTraversalNode nat) * list (nat * Z))) (d : bool * nat * list (nat * Z)) :
    option (list (SnapshotTraversalNode nat) * list (nat * Z)) :=
  '(nodes, edges) ← acc;
  let '(is_final, handle, node_edges) := d in
  edge_start ← u32_try_from (length edges);
  edge_len ← u32_try_from (length node_edges);
  Some (nodes ++ [mkTraversalNode edge_start edge_len is_final handle], edges ++ node_edges).

Definition frozen_traversal_graph_from_pointers (g : graph V) (root : nat) : exec (option (SnapshotTraversalGraph nat)) :=
  r ← find_loop g (length g) 0 (mkFound {[root := 0%Z]} [root]) [];
  let? descriptions := r in
  let? '(nodes, edges) := foldl flatten (Some ([], [])) descriptions in
  Ret (SnapshotTraversalGraph_new nodes edges 0).

Definition frozen_traversal_graph_from_root (g : graph V) (root : nat) : exec (option (SnapshotTraversalGraph nat)) :=
  r ← frozen_traversal_graph_from_snapshot_ids g root;
  match r with
  | Some graph => Ret (Some graph)
  | None => frozen_traversal_graph_from_pointers g root
  end.

(** ** What a compact graph stands for *)

(** Following a term through the graph, and the value of the node it ends at *)
Fixpoint traverse (g : graph V) (G : SnapshotTraversalGraph nat) (index : nat) (t : list nat) : exec (option (option V)) :=
  '(edges, is_final) ← edges_and_finality G index;
  match t with
  | [] =>
      handle ← value_handle G index;
      node ← g !! handle;
      Ret (if (is_final : bool) then Some (dawg_node_value node) else None)
  | label :: t =>
      match list_find (λ e, e.1 = label) edges with
      | None => Ret None
      | Some (_, (_, target)) => traverse g G (Z.to_nat target) t
      end
  end.

(** [f] numbers the nodes of the revision in the compact graph. *)
Definition projects g (root : nat) (G : SnapshotTraversalGraph nat) (f : nat → nat) : Prop :=
  tg_root G = Z.of_nat (f root) ∧
  ∀ a, reachable g root a → ∃ n, g !! a = Some n ∧ value_handle G (f a) = Ret a ∧
    edges_and_finality G (f a) = Ret ((λ '(l, c), (l, Z.of_nat (f c))) <$> dn_edges n, dn_final n).

Lemma list_find_label (F : nat → Z) label (es : list (nat * nat)) :
  match list_find (λ e, e.1 = label) ((λ '(l, c), (l, F c)) <$> es) with
  | Some (_, (_, target)) => ∃ c, edge_get label es = Some c ∧ target = F c
  | None => edge_get label es = None
  end.
Proof.
  induction es as [|[l c] es IH]; [done|]. cbn. destruct (decide (l = label)) as [->|Hne].
  - rewrite Nat.eqb_refl. eauto.
  - rewrite (proj2 (Nat.eqb_neq label l)) by done. destruct (list_find _ _) as [[i [l' target]]|]; done.
Qed.

(** Traversing the compact graph gives what the revision has. *)
Lemma projects_traverse g root G f a t :
  graph_ok g → projects g root G f → reachable g root a → traverse g G (f a) t = Ret (entry g a t).
Proof.
  intros Hg Hproj. destruct Hproj as [_ Hp]. revert a. induction t as [|l t IH]; intros a Ha; cbn [traverse];
    destruct (Hp a Ha) as (n & Hn & Hh & He); rewrite He; cbn [mbind option_bind].
  - rewrite (entry_nil _ _ _ Hn), Hh. cbn. rewrite Hn. cbn. unfold node_entry, dawg_node_value. by destruct (dn_final n).
  - pose proof (list_find_label (λ c, Z.of_nat (f c)) l (dn_edges n)) as Hfind. rewrite entry_cons.
    assert (edge_to g a l = edge_get l (dn_edges n)) as Hedge by (unfold edge_to; by rewrite Hn). rewrite Hedge.
    destruct (list_find _ _) as [[i [l' target]]|]; [|by rewrite Hfind].
    destruct Hfind as (c & E & ->). rewrite E, Nat2Z.id. apply IH. eapply reachable_edge; [done|]. by rewrite Hedge.
Qed.

(** When the constructor accepts the arrays *)
Lemma graph_new_accepts (nodes : list (SnapshotTraversalNode nat)) edges root :
  nodes ≠ [] → (0 ≤ root < Z.of_nat (length nodes))%Z →
  Forall (λ node, (sn_edge_len node < 2 ^ 31)%Z ∧ ∃ range, get_range edges (sn_edge_start node) (sn_edge_len node) = Some range ∧
    Forall (λ e, (e.2 < Z.of_nat (length nodes))%Z) range ∧ StronglySorted lt range.*1) nodes →
  is_Some (SnapshotTraversalGraph_new nodes edges root).
Proof.
  intros Hne Hroot Hnodes. unfold SnapshotTraversalGraph_new.
  rewrite (proj2 (Z.eqb_neq _ _)) by (destruct nodes; [done|cbn; lia]). rewrite (proj2 (Z.leb_gt _ _)) by lia. cbn [orb].
  assert (forallb (check_node (Z.of_nat (length nodes)) edges) nodes = true) as ->.
  { apply forallb_forall. intros node Hin%list_elem_of_In. rewrite Forall_forall in Hnodes.
    destruct (Hnodes node Hin) as (_ & range & E & Ht & Hs). unfold check_node. rewrite E. by apply check_edges_spec. }
  assert (is_Some (mapM (λ node : SnapshotTraversalNode nat, range_new (sn_edge_start node) (sn_edge_len node) (sn_final node)) nodes)) as [ranges ->];
    [|cbn; eauto].
  apply mapM_is_Some. eapply Forall_impl; [exact Hnodes|]. intros node (Hlen & _). cbn in *. unfold range_new.
  change SNAPSHOT_RANGE_LENGTH_MASK with (2 ^ 31 - 1)%Z. rewrite (proj2 (Z.ltb_ge _ _)) by lia. eauto.
Qed.

(** When there is a node of the compact graph for every reachable node *)
Lemma new_projects g root nodes edges G f :
  Forall node_typed nodes → SnapshotTraversalGraph_new nodes edges (Z.of_nat (f root)) = Some G →
  (∀ a, reachable g root a → ∃ n node, g !! a = Some n ∧ nodes !! f a = Some node ∧ sn_final node = dn_final n ∧ sn_handle node = a ∧
    get_range edges (sn_edge_start node) (sn_edge_len node) = Some ((λ '(l, c), (l, Z.of_nat (f c))) <$> dn_edges n)) →
  projects g root G f.
Proof.
  intros Ht HG Hnodes. split.
  - unfold SnapshotTraversalGraph_new in HG. destruct (_ || _); [done|]. destruct (forallb _ _); [|done].
    destruct (mapM _ nodes); [|done]. by injection HG as <-.
  - intros a Ha. destruct (Hnodes a Ha) as (n & node & Hn & Hnode & Ef & Eh & Er). exists n. split; [done|].
    destruct (graph_new_node _ _ _ _ _ _ Ht HG Hnode) as (range & Er' & Ee & Ev & _). rewrite Ev, Ee, Eh, Ef.
    rewrite Er in Er'. by injection Er' as <-.
Qed.

Lemma relabelled_labels (F : nat → Z) (es : list (nat * nat)) : ((λ '(l, c), (l, F c)) <$> es).*1 = es.*1.
Proof. induction es as [|[l c] es IH]; [done|]. cbn. by f_equal. Qed.

Lemma get_range_app {A} (l k r : list A) : get_range (l ++ k ++ r) (Z.of_nat (length l)) (Z.of_nat (length k)) = Some k.
Proof.
  unfold get_range. rewrite (proj2 (Z.leb_le _ _)) by (rewrite !length_app; lia). by rewrite !Nat2Z.id, drop_app_length, take_app_length.
Qed.

Lemma get_range_grow {A} (l k range : list A) start len :
  (0 ≤ start)%Z → (0 ≤ len)%Z → get_range l start len = Some range → get_range (l ++ k) start len = Some range.
Proof.
  intros Hs Hn. unfold get_range. destruct (Z.leb_spec (start + len) (Z.of_nat (length l))); [|done]. intros [= <-].
  rewrite (proj2 (Z.leb_le _ _)) by (rewrite length_app; lia). rewrite drop_app_le by lia.
  rewrite take_app_le; [done|]. rewrite length_drop. lia.
Qed.

(** ** The numbering by pointers *)

Section pointers.
Context (g : graph V) (root : nat) (Hg : graph_ok g) (Hr : root < length g) (Hsize : (Z.of_nat (length g) < 2 ^ 32)%Z).

Record found_ok (st : found_state) : Prop := {
  fo_nodup : NoDup (fs_discovered st);
  fo_index a i : fs_indices st !! a = Some i ↔ (0 ≤ i)%Z ∧ fs_discovered st !! Z.to_nat i = Some a;
  fo_reach a : a ∈ fs_discovered st → reachable g root a;
}.

Definition numbered (st : found_state) (e : nat * nat) (e' : nat * Z) : Prop :=
  e.1 = e'.1 ∧ fs_indices st !! e.2 = Some e'.2.

Definition grows (st st' : found_state) : Prop :=
  fs_indices st ⊆ fs_indices st' ∧ fs_discovered st `prefix_of` fs_discovered st'.

Lemma numbered_grows st st' e e' : grows st st' → numbered st e e' → numbered st' e e'.
Proof. intros [Hi _] [? Hn]. split; [done|]. by eapply lookup_weaken. Qed.

Lemma found_bound st : found_ok st → length (fs_discovered st) ≤ length g.
Proof.
  intros [Hnd _ Hreach]. rewrite <-(length_seq (length g) 0). apply submseteq_length, NoDup_submseteq; [done|].
  intros a Ha. apply Hreach, reachable_lt in Ha; [|done..]. apply elem_of_seq. lia.
Qed.

(** Discovering a node that has no number yet *)
Lemma found_new st child :
  found_ok st → fs_indices st !! child = None → reachable g root child →
  u32_try_from (length (fs_discovered st)) = Some (Z.of_nat (length (fs_discovered st))) ∧
  let st' := mkFound (<[child := Z.of_nat (length (fs_discovered st))]> (fs_indices st)) (fs_discovered st ++ [child]) in
  found_ok st' ∧ grows st st'.
Proof.
  intros Hok Hnone Hreach. pose proof Hok as [Hnd Hidx Hre]. split.
  { unfold u32_try_from. pose proof (found_bound st Hok). by rewrite (proj2 (Z.ltb_lt _ _)) by lia. }
  assert (child ∉ fs_discovered st) as Hnot.
  { intros (i & Hi)%list_elem_of_lookup. rewrite (proj2 (Hidx child (Z.of_nat i))) in Hnone; [done|]. rewrite Nat2Z.id. split; [lia|done]. }
  intros st'. split; [|split; [by apply insert_subseteq|by exists [child]]]. split; cbn.
  - apply NoDup_app. split_and!; [done| |apply NoDup_singleton]. by intros x Hx ->%list_elem_of_singleton.
  - intros a i. destruct (decide (a = child)) as [->|Hne].
    + rewrite lookup_insert_eq. split.
      * intros [= <-]. rewrite Nat2Z.id, list_lookup_middle by done. split; [lia|done].
      * intros [Hi Hlk]. apply lookup_app_Some in Hlk as [Hlk|[? Hlk]]; [by apply list_elem_of_lookup_2 in Hlk|].
        apply list_lookup_singleton_Some in Hlk as [? _]. f_equal. lia.
    + rewrite lookup_insert_ne, Hidx by done. split; intros [Hi Hlk]; (split; [done|]).
      * by apply lookup_app_l_Some.
      * apply lookup_app_Some in Hlk as [Hlk|[? Hlk]]; [done|]. by apply list_lookup_singleton_Some in Hlk as [_ ->].
  - intros a [Ha| ->%list_elem_of_singleton]%elem_of_app; auto.
Qed.

Lemma grows_trans st1 st2 st3 : grows st1 st2 → grows st2 st3 → grows st1 st3.
Proof. intros [? ?] [? ?]. split; by etrans. Qed.

Lemma find_edges_spec st acc es :
  found_ok st → (∀ e, e ∈ es → reachable g root e.2) →
  ∃ st' es', foldM find_edge (Some (st, acc)) es = Ret (Some (st', acc ++ es')) ∧ found_ok st' ∧ grows st st' ∧
    Forall2 (numbered st') es es'.
Proof.
  revert st acc. induction es as [|[label child] es IH]; intros st acc Hok Hreach.
  { exists st, []. rewrite app_nil_r. split_and!; [done|done|split; done|constructor]. }
  cbn [foldM]. assert (∃ st1 target, find_edge (Some (st, acc)) (label, child) = Ret (Some (st1, acc ++ [(label, target)])) ∧
    found_ok st1 ∧ grows st st1 ∧ fs_indices st1 !! child = Some target) as (st1 & target & -> & Hok1 & Hg1 & Ht).
  { cbn [find_edge]. destruct (fs_indices st !! child) as [target|] eqn:E.
    - exists st, target. split_and!; [done|done|split; done|done].
    - destruct (found_new st child Hok E) as [-> [Hok1 Hg1]]; [by apply (Hreach (label, child)); left|].
      eexists _, _. split_and!; [done..|]. cbn. by rewrite lookup_insert_eq. }
  cbn [mbind option_bind]. destruct (IH st1 (acc ++ [(label, target)]) Hok1) as (st2 & es2 & -> & Hok2 & Hg2 & Hnum).
  { intros e He. apply Hreach. by right. }
  exists st2, ((label, target) :: es2). rewrite <-app_assoc. split_and!; [done|done|by eapply grows_trans|].
  constructor; [|done]. split; [done|]. cbn. eapply lookup_weaken; [done|apply Hg2].
Qed.

(** The descriptions of the first nodes *)
Definition described (st : found_state) (descriptions : list (bool * nat * list (nat * Z))) : Prop :=
  ∀ j d, descriptions !! j = Some d → ∃ a n es, fs_discovered st !! j = Some a ∧ g !! a = Some n ∧
    d = (dn_final n, a, es) ∧ Forall2 (numbered st) (dn_edges n) es.

Lemma described_grows st st' ds : grows st st' → described st ds → described st' ds.
Proof.
  intros Hgr Hd j d Hj. destruct (Hd j d Hj) as (a & n & es & Ha & Hn & -> & Hes). exists a, n, es.
  split_and!; [|done..|eapply Forall2_impl; [done|]; intros; by eapply numbered_grows].
  destruct Hgr as [_ [k ->]]. by apply lookup_app_l_Some.
Qed.

Lemma find_loop_spec fuel st ds :
  found_ok st → described st ds → length ds ≤ length (fs_discovered st) → length g ≤ fuel + length ds →
  ∃ st' ds', find_loop g fuel (length ds) st ds = Ret (Some ds') ∧ found_ok st' ∧ grows st st' ∧ described st' ds' ∧
    length ds' = length (fs_discovered st').
Proof.
  revert st ds. induction fuel as [|fuel IH]; intros st ds Hok Hd Hle Hfuel; cbn [find_loop];
    destruct (fs_discovered st !! length ds) as [a|] eqn:E;
    try (exists st, ds; split_and!; [done|done|by split|done|apply lookup_ge_None in E; lia]).
  { apply lookup_lt_Some in E. pose proof (found_bound st Hok). lia. }
  assert (reachable g root a) as Ha by (apply (fo_reach _ Hok); by apply list_elem_of_lookup_2 in E).
  pose proof (reachable_lt g root a Hg Hr Ha) as Hlt. destruct (lookup_lt_is_Some_2 g a) as [n Hn]; [lia|].
  rewrite Hn. cbn [mbind option_bind].
  destruct (find_edges_spec st [] (dn_edges n) Hok) as (st1 & es & -> & Hok1 & Hg1 & Hnum).
  { intros [l c] Hin. apply (reachable_edge g root a l c); [done|]. by apply (node_edges g a n). }
  cbn [mbind option_bind app]. pose proof Hg1 as [_ [k Hk]].
  assert (length (ds ++ [(dn_final n, a, es)]) = S (length ds)) as Hlen by (rewrite length_app; cbn; lia).
  destruct (IH st1 (ds ++ [(dn_final n, a, es)]) Hok1) as (st2 & ds2 & E2 & Hok2 & Hg2 & Hd2 & Hl2).
  - intros j d Hj. apply lookup_app_Some in Hj as [Hj|[Hge Hj]]; [by eapply described_grows|].
    apply list_lookup_singleton_Some in Hj as [Hz <-]. assert (j = length ds) as -> by lia. exists a, n, es.
    split_and!; [|done..]. rewrite Hk. by apply lookup_app_l_Some.
  - rewrite Hlen, Hk, length_app. apply lookup_lt_Some in E. lia.
  - rewrite Hlen. lia.
  - rewrite Hlen in E2. exists st2, ds2. split_and!; [done|done|by eapply grows_trans|done|done].
Qed.

(** The nodes in a list without duplicates have at most the edges of the graph. *)
Lemma degrees_bound l : NoDup l → (∀ a, a ∈ l → a < length g) → sum_list_with (degree g) l ≤ length (g ≫= dn_edges).
Proof.
  intros Hnd Hl. rewrite <-edges_left_all. unfold edges_left. rewrite list_filter_all by set_solver.
  destruct (submseteq_Permutation l (seq 0 (length g))) as [k ->]; [|rewrite sum_list_with_app; lia].
  apply NoDup_submseteq; [done|]. intros a Ha%Hl. apply elem_of_seq. lia.
Qed.

Lemma described_degrees st ds :
  described st ds → length ds = length (fs_discovered st) →
  sum_list_with (λ d, length d.2) ds = sum_list_with (degree g) (fs_discovered st).
Proof.
  intros Hd Hlen. assert (Forall2 (λ d a, length d.2 = degree g a) ds (fs_discovered st)) as Hall.
  { apply Forall2_lookup. intros j. destruct (ds !! j) as [d|] eqn:E.
    - destruct (Hd j d E) as (a & n & es & Ha & Hn & -> & Hes). rewrite Ha. constructor. cbn. unfold degree. rewrite Hn.
      by apply Forall2_length in Hes.
    - apply lookup_ge_None in E. rewrite Hlen in E. apply lookup_ge_None in E. rewrite E. constructor. }
  clear -Hall. induction Hall as [|d a ds l E _ IH]; cbn; [done|]. lia.
Qed.

(** The node of the compact graph with a description *)
Definition laid_out (edges : list (nat * Z)) (node : SnapshotTraversalNode nat) (d : bool * nat * list (nat * Z)) : Prop :=
  is_u32 (sn_edge_start node) ∧ sn_edge_len node = Z.of_nat (length d.2) ∧ sn_final node = d.1.1 ∧ sn_handle node = d.1.2 ∧
  get_range edges (sn_edge_start node) (sn_edge_len node) = Some d.2.

Lemma flatten_spec nodes edges ds :
  (Z.of_nat (length edges + sum_list_with (λ d, length d.2) ds) < 2 ^ 32)%Z →
  ∃ ns es, foldl flatten (Some (nodes, edges)) ds = Some (nodes ++ ns, edges ++ es) ∧
    Forall2 (laid_out (edges ++ es)) ns ds.
Proof.
  revert nodes edges. induction ds as [|[[fin h] ne] ds IH]; intros nodes edges Hsum; cbn in Hsum; cbn [foldl].
  { exists [], []. rewrite !app_nil_r. by split. }
  unfold flatten at 2. cbn [mbind option_bind]. unfold u32_try_from.
  rewrite !(proj2 (Z.ltb_lt _ _)) by lia. cbn [mbind option_bind].
  destruct (IH (nodes ++ [mkTraversalNode (Z.of_nat (length edges)) (Z.of_nat (length ne)) fin h]) (edges ++ ne)) as (ns & es & -> & Hall).
  { rewrite length_app. lia. }
  exists (mkTraversalNode (Z.of_nat (length edges)) (Z.of_nat (length ne)) fin h :: ns), (ne ++ es).
  rewrite <-app_assoc in Hall. split; [by rewrite <-!app_assoc|]. constructor; [|done]. unfold laid_out, is_u32. cbn.
  rewrite get_range_app. split_and!; done || lia.
Qed.

(** The position of a node among the discovered ones *)
Definition position_in (st : found_state) (a : nat) : nat := Z.to_nat (default 0%Z (fs_indices st !! a)).

Lemma discovered_all st ds a :
  found_ok st → described st ds → length ds = length (fs_discovered st) → root ∈ fs_discovered st →
  reachable g root a → a ∈ fs_discovered st.
Proof.
  intros Hok Hd Hlen Hroot [t Ht]. revert a Ht. induction t as [|l t IH] using rev_ind; intros a Ht.
  { cbn in Ht. by injection Ht as <-. }
  apply path_snoc in Ht as (b & Hb & Hedge). apply IH in Hb as (j & Hj)%list_elem_of_lookup.
  destruct (lookup_lt_is_Some_2 ds j) as [d Hdj]; [rewrite Hlen; by eapply lookup_lt_Some|].
  destruct (Hd j d Hdj) as (b' & n & es & Hb' & Hn & -> & Hes). rewrite Hb' in Hj. injection Hj as ->.
  assert ((l, a) ∈ dn_edges n) as (k & Hk)%list_elem_of_lookup by (by apply (node_edges g b n)).
  destruct (Forall2_lookup_l _ _ _ _ _ Hes Hk) as (e' & _ & _ & Hnum). apply (fo_index _ Hok) in Hnum as [_ Hnum].
  by eapply list_elem_of_lookup_2.
Qed.

Lemma numbered_edges st es es' :
  found_ok st → Forall2 (numbered st) es es' → es' = (λ '(l, c), (l, Z.of_nat (position_in st c))) <$> es.
Proof.
  intros Hok. induction 1 as [|[l c] [l' i] es es' [El Ei] _ IH]; [done|]. cbn in *. rewrite <-IH. subst. do 2 f_equal.
  unfold position_in. rewrite Ei. cbn. apply (fo_index _ Hok) in Ei as [? _]. lia.
Qed.

(** The node of the compact graph at a position, when every description has one *)
Lemma laid_out_node st ds nodes edges j node :
  found_ok st → described st ds → Forall2 (laid_out edges) nodes ds →
  (Z.of_nat (sum_list_with (λ d, length d.2) ds) < 2 ^ 31)%Z → nodes !! j = Some node →
  ∃ a n, fs_discovered st !! j = Some a ∧ g !! a = Some n ∧ sn_final node = dn_final n ∧ sn_handle node = a ∧
    is_u32 (sn_edge_start node) ∧ (0 ≤ sn_edge_len node < 2 ^ 31)%Z ∧
    get_range edges (sn_edge_start node) (sn_edge_len node) = Some ((λ '(l, c), (l, Z.of_nat (position_in st c))) <$> dn_edges n) ∧
    Forall (λ e, e.2 < Z.of_nat (length (fs_discovered st)))%Z ((λ '(l, c), (l, Z.of_nat (position_in st c))) <$> dn_edges n).
Proof.
  intros Hok Hd Hall Hsum Hj. destruct (Forall2_lookup_l _ _ _ _ _ Hall Hj) as (d & Hdj & Hs & El & Ef & Eh & Er).
  pose proof (sum_list_with_in d (λ d, length d.2) ds (list_elem_of_lookup_2 _ _ _ Hdj)) as Hdeg. cbn in Hdeg.
  destruct (Hd j d Hdj) as (a & n & es & Ha & Hn & -> & Hes). exists a, n. cbn [fst snd] in *.
  rewrite <-(numbered_edges st _ _ Hok Hes). split_and!; try done; [lia..|].
  apply Forall_forall. intros e' (k & Hk)%list_elem_of_lookup. destruct (Forall2_lookup_r _ _ _ _ _ Hes Hk) as (e & _ & _ & Hnum).
  apply (fo_index _ Hok) in Hnum as [? Hnum%lookup_lt_Some]. lia.
Qed.

Lemma laid_out_projects st ds nodes edges :
  found_ok st → described st ds → length ds = length (fs_discovered st) → fs_indices st !! root = Some 0%Z →
  Forall2 (laid_out edges) nodes ds → (Z.of_nat (sum_list_with (λ d, length d.2) ds) < 2 ^ 31)%Z →
  ∃ G, SnapshotTraversalGraph_new nodes edges 0 = Some G ∧ projects g root G (position_in st).
Proof.
  intros Hok Hd Hlen Hroot Hall Hsum. pose proof (proj1 (fo_index _ Hok _ _) Hroot) as [_ Hroot0]. cbn in Hroot0.
  pose proof (lookup_lt_Some _ _ _ Hroot0) as Hpos. pose proof (Forall2_length _ _ _ Hall) as Hlen'.
  assert (position_in st root = 0) as Hroot' by (unfold position_in; by rewrite Hroot).
  destruct (graph_new_accepts nodes edges 0) as [G HG].
  - intros ->. cbn in Hlen'. lia.
  - lia.
  - apply Forall_lookup. intros j node Hj.
    destruct (laid_out_node _ _ _ _ _ _ Hok Hd Hall Hsum Hj) as (a & n & Ha & Hn & _ & _ & _ & Hl & Er & Ht).
    split; [lia|]. eexists. split_and!; [exact Er|by rewrite Hlen', Hlen|]. rewrite relabelled_labels. apply (no_sorted _ _ (Hg _ _ Hn)).
  - exists G. split; [done|]. apply (new_projects _ _ nodes edges).
    + apply Forall_lookup. intros j node Hj.
      destruct (laid_out_node _ _ _ _ _ _ Hok Hd Hall Hsum Hj) as (a & n & Ha & Hn & _ & _ & Hs & Hl & _).
      split; [done|]. unfold is_u32. lia.
    + by rewrite Hroot'.
    + intros a Ha. assert (a ∈ fs_discovered st) as (j & Hj)%list_elem_of_lookup.
      { eapply discovered_all; [done..| |done]. by eapply list_elem_of_lookup_2. }
      assert (position_in st a = j) as ->.
      { unfold position_in. rewrite (proj2 (fo_index _ Hok a (Z.of_nat j))); [cbn; lia|]. rewrite Nat2Z.id. split; [lia|done]. }
      destruct (lookup_lt_is_Some_2 nodes j) as [node Hnode]; [rewrite Hlen', Hlen; by eapply lookup_lt_Some|].
      destruct (laid_out_node _ _ _ _ _ _ Hok Hd Hall Hsum Hnode) as (a' & n & Ha' & Hn & Ef & Eh & _ & _ & Er & _).
      rewrite Ha' in Hj. injection Hj as ->. eauto 10.
Qed.

(** Any revision with at most [2^31 - 1] edges and [2^32 - 1] nodes can be projected. *)
Lemma from_pointers_spec :
  (Z.of_nat (length (g ≫= dn_edges)) < 2 ^ 31)%Z →
  ∃ G f, frozen_traversal_graph_from_pointers g root = Ret (Some G) ∧ projects g root G f.
Proof.
  intros Hedges. unfold frozen_traversal_graph_from_pointers.
  assert (found_ok (mkFound {[root := 0%Z]} [root])) as Hok0.
  { split; cbn.
    - apply NoDup_singleton.
    - intros a i. rewrite lookup_singleton_Some, list_lookup_singleton_Some. split; [intros [<- <-]; by split_and!|].
      intros (? & ? & <-). split; [done|lia].
    - intros a ->%list_elem_of_singleton. by exists []. }
  destruct (find_loop_spec (length g) (mkFound {[root := 0%Z]} [root]) [] Hok0) as (st & ds & E & Hok & Hgr & Hd & Hlen); [done|cbn; lia|cbn; lia|].
  cbn [length] in E. rewrite E. cbn [mbind option_bind].
  assert (sum_list_with (λ d, length d.2) ds ≤ length (g ≫= dn_edges)) as Hsum.
  { rewrite (described_degrees st) by done. apply degrees_bound; [apply Hok|].
    intros a Ha%(fo_reach _ Hok)%(reachable_lt g root a Hg Hr). lia. }
  destruct (flatten_spec [] [] ds) as (nodes & edges & -> & Hall); [cbn; lia|]. cbn [app] in Hall |- *.
  destruct (laid_out_projects st ds nodes edges) as (G & -> & HG); [done..| |done|lia|eauto].
  eapply lookup_weaken; [|apply Hgr]. cbn. by rewrite lookup_singleton_eq.
Qed.

End pointers.

(** ** The numbering by dense identities *)

Section dense.
Context (g : graph V) (root base : nat) (Hg : graph_ok g) (Hr : root < length g).
(** What the builder guarantees of the nodes below its root *)
Context (Hids : ∀ a n, reachable g root a → g !! a = Some n → base ≤ a ∧ dn_snapshot_id n = Some (Z.of_nat (a - base) + 1)%Z).

Lemma dense_index_node a n : reachable g root a → g !! a = Some n → dense_index n = Some (a - base).
Proof.
  intros Ha Hn. destruct (Hids a n Ha Hn) as [_ E]. unfold dense_index. rewrite E. cbn.
  rewrite (proj2 (Z.ltb_ge _ _)) by lia. f_equal. lia.
Qed.

Lemma reachable_node a : reachable g root a → base ≤ a ∧ a ≤ root ∧ ∃ n, g !! a = Some n.
Proof.
  intros Ha. pose proof (reachable_lt g root a Hg Hr Ha). destruct (lookup_lt_is_Some_2 g a) as [n Hn]; [lia|].
  destruct (Hids a n Ha Hn). eauto.
Qed.

(** The edges of a node, by index *)
Definition by_index (n : LockFreeDawgNode V) : list (nat * Z) := (λ '(l, c), (l, Z.of_nat (c - base))) <$> dn_edges n.

(** [scheduled] marks the nodes that are done or on the stack. *)
Record dense_inv (finished : list nat) (st : dense_state) : Prop := {
  di_nodes : length (ds_nodes st) = root - base + 1;
  di_nodup : NoDup (finished ++ ds_stack st);
  di_reach a : a ∈ finished ++ ds_stack st → reachable g root a;
  di_scheduled i : i < root - base + 1 → ds_scheduled st !! i = Some (bool_decide (base + i ∈ finished ++ ds_stack st));
  di_filled i node : ds_nodes st !! i = Some (Some node) → node_typed node ∧
    ∃ n, g !! (base + i) = Some n ∧ sn_final node = dn_final n ∧ sn_handle node = base + i ∧
      get_range (ds_edges st) (sn_edge_start node) (sn_edge_len node) = Some (by_index n);
}.

Lemma dense_more_edges finished nodes scheduled edges stack k :
  dense_inv finished (mkDense nodes scheduled edges stack) → dense_inv finished (mkDense nodes scheduled (edges ++ k) stack).
Proof.
  intros [Hn Hnd Hre Hs Hf]. split; [done..|]. intros i node Hi. destruct (Hf i node Hi) as (Ht & n & Ha & Ef & Eh & Er).
  split; [done|]. exists n. split_and!; [done..|]. destruct Ht as [[? _] [? _]]. by apply get_range_grow.
Qed.

(** A child is put on the stack when it was not scheduled. *)
Lemma dense_schedule finished st label child :
  dense_inv finished st → reachable g root child →
  let edges := ds_edges st ++ [(label, Z.of_nat (child - base))] in
  ∃ st', (scheduled ← ds_scheduled st !! (child - base);
          if (scheduled : bool) then Ret (Some (mkDense (ds_nodes st) (ds_scheduled st) edges (ds_stack st)))
          else scheduled ← store (ds_scheduled st) (child - base) true;
               Ret (Some (mkDense (ds_nodes st) scheduled edges (child :: ds_stack st)))) = Ret (Some st') ∧
    dense_inv finished st' ∧ ds_edges st' = edges.
Proof.
  intros Hinv Hc edges. destruct (reachable_node child Hc) as (Hb & Hle & n & Hn). destruct st as [nodes scheduled es stack].
  apply (dense_more_edges _ _ _ _ _ [(label, Z.of_nat (child - base))]) in Hinv. cbn in *. pose proof Hinv as [Hl Hnd Hre Hs Hf]. cbn in *.
  rewrite Hs by lia. replace (base + (child - base)) with child by lia. cbn [mbind option_bind]. case_bool_decide as Hin.
  { by eexists. }
  rewrite store_Some by (eapply lookup_lt_Some, (Hs (child - base)); lia). eexists. split_and!; [done| |done].
  assert (∀ a, a ∈ finished ++ child :: stack ↔ a = child ∨ a ∈ finished ++ stack) as Hmem by set_solver.
  split; cbn; [done| | | |done].
  - rewrite <-Permutation_middle. by constructor.
  - intros a [-> |?]%Hmem; auto.
  - intros i Hi. destruct (decide (i = child - base)) as [-> |Hne].
    + rewrite list_lookup_insert_eq by (eapply lookup_lt_Some, (Hs (child - base)); lia). f_equal. symmetry. apply bool_decide_eq_true, Hmem. left. lia.
    + rewrite list_lookup_insert_ne, Hs by done. f_equal. apply bool_decide_ext. rewrite Hmem. split; [by right|].
      intros [?|?]; [lia|done].
Qed.

Lemma dense_edges_spec finished st es :
  dense_inv finished st → (∀ e, e ∈ es → reachable g root e.2) →
  ∃ r, foldM (dense_edge g (root - base + 1)) (Some st) es = Ret r ∧
    ∀ st', r = Some st' → dense_inv finished st' ∧ ds_edges st' = ds_edges st ++ ((λ '(l, c), (l, Z.of_nat (c - base))) <$> es).
Proof.
  revert st. induction es as [|[label child] es IH]; intros st Hinv Hes; cbn [foldM].
  { eexists. split; [done|]. intros ? [= <-]. by rewrite app_nil_r. }
  assert (reachable g root child) as Hc by (apply (Hes (label, child)); by left).
  destruct (reachable_node child Hc) as (Hb & Hle & n & Hn). cbn [dense_edge]. rewrite Hn. cbn [mbind option_bind].
  rewrite (dense_index_node child n Hc Hn), (proj2 (Nat.leb_gt _ _)) by lia.
  assert (∀ es, foldM (dense_edge g (root - base + 1)) None es = Ret None) as Hnone by (intros es'; induction es'; done).
  unfold u32_try_from. destruct (_ <? _)%Z; [|exists None; cbn; by rewrite Hnone].
  destruct (dense_schedule finished st label child Hinv Hc) as (st1 & -> & Hinv1 & Eedges).
  cbn [mbind option_bind]. destruct (IH st1 Hinv1) as (r & -> & Hr').
  { intros e He. apply Hes. by right. }
  exists r. split; [done|]. intros st' ->. destruct (Hr' st' eq_refl) as [? E]. split; [done|].
  rewrite E, Eedges. by rewrite <-app_assoc.
Qed.

Lemma dense_bound finished st : dense_inv finished st → length (finished ++ ds_stack st) ≤ root - base + 1.
Proof.
  intros [_ Hnd Hre _ _]. rewrite <-(length_seq (root - base + 1) base). apply submseteq_length, NoDup_submseteq; [done|].
  intros a Ha%Hre. apply reachable_node in Ha as (? & ? & _). apply elem_of_seq. lia.
Qed.

(** A popped node counts as done while its edges are read. *)
Lemma dense_pop finished nodes scheduled edges node stack :
  dense_inv finished (mkDense nodes scheduled edges (node :: stack)) → dense_inv (finished ++ [node]) (mkDense nodes scheduled edges stack).
Proof. intros [Hl Hnd Hre Hs Hf]. cbn in *. split; cbn; rewrite <-?app_assoc; done. Qed.

(** Its description is stored. *)
Lemma dense_store finished st node n start edges :
  dense_inv finished st → reachable g root node → g !! node = Some n → is_u32 (Z.of_nat start) → is_u32 (Z.of_nat (length (dn_edges n))) →
  start = length edges → ds_edges st = edges ++ by_index n →
  ∃ nodes, store (ds_nodes st) (node - base) (Some (mkTraversalNode (Z.of_nat start) (Z.of_nat (length (dn_edges n))) (dn_final n) node)) = Ret nodes ∧
    dense_inv finished (mkDense nodes (ds_scheduled st) (ds_edges st) (ds_stack st)).
Proof.
  intros [Hl Hnd Hre Hs Hf] Hnode Hn Hstart Hlen -> E. destruct (reachable_node node Hnode) as (Hb & Hle & _).
  rewrite store_Some by lia. eexists. split; [done|]. split; cbn; [by rewrite length_insert|done..|].
  intros i nd Hi. apply list_lookup_insert_Some in Hi as [(<- & [= <-] & _)|[_ Hi]]; [|by apply Hf].
  split; [done|]. exists n. cbn. replace (base + (node - base)) with node by lia. split_and!; [done..|].
  rewrite E. replace (length (dn_edges n)) with (length (by_index n)) by apply length_fmap.
  rewrite <-(app_nil_r (by_index n)) at 1. apply get_range_app.
Qed.

Lemma u32_try_from_Some n z : u32_try_from n = Some z → z = Z.of_nat n ∧ is_u32 (Z.of_nat n).
Proof. unfold u32_try_from, is_u32. destruct (Z.ltb_spec (Z.of_nat n) (2 ^ 32)); [|done]. intros [= <-]. lia. Qed.

Lemma dense_loop_spec fuel finished st :
  dense_inv finished st → root - base + 1 ≤ fuel + length finished →
  ∃ r, dense_loop g (root - base + 1) fuel st = Ret r ∧ ∀ st', r = Some st' → ∃ finished', dense_inv finished' st'.
Proof.
  revert finished st. induction fuel as [|fuel IH]; intros finished st Hinv Hfuel; destruct st as [nodes scheduled edges [|node stack]]; cbn [dense_loop ds_stack];
    try (eexists; split; [done|]; intros ? [= <-]; by eexists).
  { pose proof (dense_bound _ _ Hinv) as Hbd. cbn in Hbd. rewrite length_app in Hbd. cbn in Hbd. lia. }
  assert (reachable g root node) as Hnode by (apply (di_reach _ _ Hinv); cbn; set_solver).
  destruct (reachable_node node Hnode) as (Hb & Hle & n & Hn). rewrite Hn. cbn [mbind option_bind ds_edges ds_nodes ds_scheduled].
  rewrite (dense_index_node node n Hnode Hn), (proj2 (Nat.leb_gt _ _)) by lia.
  destruct (u32_try_from (length edges)) as [start|] eqn:Es; [|by eexists]. apply u32_try_from_Some in Es as [-> Hs].
  apply dense_pop in Hinv. destruct (dense_edges_spec _ _ (dn_edges n) Hinv) as (r & -> & Hr').
  { intros [l c] Hin. apply (reachable_edge g root node l c); [done|]. by apply (node_edges g node n). }
  cbn [mbind option_bind]. destruct r as [st1|]; [|by eexists]. destruct (Hr' st1 eq_refl) as [Hinv1 E1].
  destruct (u32_try_from (length (dn_edges n))) as [len|] eqn:El; [|by eexists]. apply u32_try_from_Some in El as [-> Hl].
  destruct (dense_store _ _ _ _ _ edges Hinv1 Hnode Hn Hs Hl eq_refl E1) as (nodes' & -> & Hinv2). cbn [mbind option_bind].
  apply (IH _ _ Hinv2). rewrite length_app. cbn. lia.
Qed.

(** When the dense projection gives a graph, it is the revision. *)
Lemma from_snapshot_ids_spec :
  ∃ r, frozen_traversal_graph_from_snapshot_ids g root = Ret r ∧ ∀ G, r = Some G → projects g root G (λ a, a - base).
Proof.
  assert (reachable g root root) as Hroot by by exists []. destruct (reachable_node root Hroot) as (Hb & _ & n & Hn).
  unfold frozen_traversal_graph_from_snapshot_ids. rewrite Hn. cbn [mbind option_bind]. rewrite (dense_index_node root n Hroot Hn).
  destruct (u32_try_from (root - base + 1)) as [count|]; [|by eexists]. rewrite store_Some by (rewrite length_replicate; lia). cbn [mbind option_bind].
  destruct (dense_loop_spec (root - base + 1) [] (mkDense (replicate (root - base + 1) None) (<[root - base := true]> (replicate (root - base + 1) false)) [] [root]))
    as (r & -> & Hr').
  { split; cbn.
    - by rewrite length_replicate.
    - apply NoDup_singleton.
    - by intros a ->%list_elem_of_singleton.
    - intros i Hi. destruct (decide (i = root - base)) as [-> |Hne].
      + rewrite list_lookup_insert_eq by (rewrite length_replicate; lia). f_equal. symmetry. apply bool_decide_eq_true, list_elem_of_singleton. lia.
      + rewrite list_lookup_insert_ne, lookup_replicate_2 by lia. f_equal. symmetry. apply bool_decide_eq_false. rewrite list_elem_of_singleton. lia.
    - by intros i node [[=] _]%lookup_replicate. }
  { cbn. lia. }
  cbn [mbind option_bind]. destruct r as [st|]; [|by eexists]. destruct (Hr' st eq_refl) as (finished & Hinv).
  destruct (mapM id (ds_nodes st)) as [nodes|] eqn:Em; [|by eexists]. apply mapM_Some in Em.
  destruct (u32_try_from (root - base)) as [z|] eqn:Ez; [|by eexists]. apply u32_try_from_Some in Ez as [-> _].
  eexists. split; [done|]. intros G HG. apply (new_projects _ _ nodes (ds_edges st)); [|done|].
  - apply Forall_lookup. intros j node Hj. destruct (Forall2_lookup_r _ _ _ _ _ Em Hj) as (o & Ho & Eo). cbn in Eo. subst o. by apply (di_filled _ _ Hinv) in Ho as [? _].
  - intros a Ha. destruct (reachable_node a Ha) as (Hba & Hle & _).
    destruct (lookup_lt_is_Some_2 nodes (a - base)) as [node Hnode].
    { rewrite <-(Forall2_length _ _ _ Em), (di_nodes _ _ Hinv). lia. }
    destruct (Forall2_lookup_r _ _ _ _ _ Em Hnode) as (o & Ho & Eo). cbn in Eo. subst o.
    destruct (di_filled _ _ Hinv _ _ Ho) as (_ & n' & Hn' & Ef & Eh & Er). replace (base + (a - base)) with a in * by lia. eauto 10.
Qed.

End dense.

(** ** Revisions that can be projected *)

(** A root is a copy, or the builder numbered the nodes below it. *)
Definition projectable g (root : nat) : Prop :=
  (∃ n, g !! root = Some n ∧ dn_snapshot_id n = None) ∨
  ∃ base, ∀ a n, reachable g root a → g !! a = Some n → base ≤ a ∧ dn_snapshot_id n = Some (Z.of_nat (a - base) + 1)%Z.

Lemma from_root_spec g root :
  graph_ok g → root < length g → projectable g root →
  (Z.of_nat (length g) < 2 ^ 32)%Z → (Z.of_nat (length (g ≫= dn_edges)) < 2 ^ 31)%Z →
  ∃ G f, frozen_traversal_graph_from_root g root = Ret (Some G) ∧ projects g root G f.
Proof.
  intros Hg Hr Hp Hsize Hedges. unfold frozen_traversal_graph_from_root.
  assert (∃ r, frozen_traversal_graph_from_snapshot_ids g root = Ret r ∧ ∀ G, r = Some G → ∃ f, projects g root G f) as (r & -> & HG).
  { destruct Hp as [(n & Hn & Hid)|[base Hids]].
    - exists None. split; [|done]. unfold frozen_traversal_graph_from_snapshot_ids. rewrite Hn. cbn. unfold dense_index. by rewrite Hid.
    - destruct (from_snapshot_ids_spec g root base Hg Hr Hids) as (r & -> & HG). eauto. }
  cbn [mbind option_bind]. destruct r as [G|].
  - destruct (HG G eq_refl) as [f Hf]. by exists G, f.
  - by apply from_pointers_spec.
Qed.

Lemma built_projectable base g root m : built base g root m → projectable g root.
Proof.
  intros Hb. right. exists base. intros a n [t Ht] Hn.
  assert (base ≤ a) as Ha.
  { clear Hn n. revert a Ht. induction t as [|l t IH] using rev_ind; intros a Ht.
    - cbn in Ht. injection Ht as <-. apply (bt_base _ _ _ _ Hb).
    - apply path_snoc in Ht as (b & Hpath & Hedge). eapply (bt_own _ _ _ _ Hb); [|done]. by apply IH. }
  split; [done|]. apply (bt_ids _ _ _ _ Hb). by replace (base + (a - base)) with a by lia.
Qed.

Lemma projectable_grow g k root : graph_ok g → root < length g → projectable g root → projectable (g ++ k) root.
Proof.
  intros Hg Hr [(n & Hn & Hid)|[base Hids]]; [left; exists n; split; [by apply lookup_app_l_Some|done]|right; exists base].
  intros a n [t Ht] Hn. rewrite path_grow in Ht by done. assert (reachable g root a) as Ha by by exists t.
  pose proof (reachable_lt g root a Hg Hr Ha). rewrite lookup_app_l in Hn by lia. by apply Hids.
Qed.

(** A copied node has no identity. *)
Definition copied g (a : nat) : Prop := ∃ n, g !! a = Some n ∧ dn_snapshot_id n = None.

Lemma copied_new g edges is_final value : copied (g ++ [mkDawgNode edges is_final value None]) (length g).
Proof. eexists. by rewrite list_lookup_middle. Qed.

Lemma copy_up_copied frames g rw g' rw' :
  foldM copy_up (g, rw) frames = Ret (g', rw') → copied g (rw_node rw) → copied g' (rw_node rw').
Proof.
  revert g rw. induction frames as [|[parent label] frames IH]; intros g rw; cbn [foldM]; [by intros [= -> ->]|].
  destruct (copy_up (g, rw) (parent, label)) as [[g1 rw1]|] eqn:E1; [|done]. intros E _. apply (IH g1 rw1); [done|].
  cbn in E1. destruct (g !! parent) as [n|]; [|done]. cbn in E1. destruct (with_edge _ _ _) as [es|]; [|done].
  injection E1 as <- <-. apply copied_new.
Qed.

(** The root after a rewrite is the old one or a copy. *)
Lemma rewrite_path_copied g root units terminal g' rw :
  (∀ g a g' rw, terminal g a = Ret (g', rw) → rw_changed rw = true → copied g' (rw_node rw)) →
  rewrite_path g root units terminal = Ret (g', rw) → rw_node rw = root ∨ copied g' (rw_node rw).
Proof.
  intros Hterm. unfold rewrite_path. destruct (foldM walk_down _ _) as [[[g1 current] frames]|]; [|done]. cbn [mbind option_bind].
  destruct (terminal g1 current) as [[g2 rw2]|] eqn:E; [|done]. cbn [mbind option_bind].
  destruct (rw_changed rw2) eqn:Ec; cbn [negb]; [|intros [= <- <-]; by left].
  intros E'. right. eapply copy_up_copied; [exact E'|]. by eapply Hterm.
Qed.

Lemma insert_terminal_copied g a g' rw : insert_terminal g a = Ret (g', rw) → rw_changed rw = true → copied g' (rw_node rw).
Proof. unfold insert_terminal. destruct (g !! a) as [n|]; [|done]. cbn. destruct (dn_final n); intros [= <- <-] Hc; [done|]. apply copied_new. Qed.

Lemma value_terminal_copied value g a g' rw : value_terminal value g a = Ret (g', rw) → rw_changed rw = true → copied g' (rw_node rw).
Proof. unfold value_terminal. destruct (g !! a) as [n|]; [|done]. cbn. intros [= <- <-] _. apply copied_new. Qed.

Lemma update_terminal_copied d f g a g' rw : update_terminal d f g a = Ret (g', rw) → rw_changed rw = true → copied g' (rw_node rw).
Proof. unfold update_terminal. destruct (g !! a) as [n|]; [|done]. cbn. intros [= <- <-] _. apply copied_new. Qed.

Lemma remove_terminal_copied g a g' rw : remove_terminal g a = Ret (g', rw) → rw_changed rw = true → copied g' (rw_node rw).
Proof. unfold remove_terminal. destruct (g !! a) as [n|]; [|done]. cbn. destruct (dn_final n); intros [= <- <-] Hc; [|done]. apply copied_new. Qed.

(** Every operation publishes a revision that can be projected. *)
Lemma turn_projectable op candidate g v m k next r :
  graph_ok g → version_ok g v m → candidate_ok op candidate g → turn_room v m → projectable g (gv_root v) →
  (∀ entries, op = PublishSorted entries → projectable g (gv_root candidate)) →
  turn op candidate g v = Ret (g ++ k, Publish next r) → projectable (g ++ k) (gv_root next).
Proof.
  intros Hg Hv Hc [Hrev Hw] Hp Hpc. destruct (vo_denotes _ _ _ Hv) as [Hr _].
  assert (∀ rw, rw_node rw = gv_root v ∨ copied (g ++ k) (rw_node rw) → projectable (g ++ k) (rw_node rw)) as Hrw.
  { intros rw [->|?]; [by apply projectable_grow|by left]. }
  destruct op; cbn [turn candidate_ok] in *.
  - unfold insert_units. destruct (rewrite_path _ _ _ _) as [[g1 rw]|] eqn:E; [|done]. cbn [mbind option_bind].
    destruct (negb _); [done|]. destruct (next_revision _); [|done]. cbn. intros [= -> <- _]. apply Hrw.
    eapply rewrite_path_copied; [|exact E]. apply insert_terminal_copied.
  - unfold insert_units_with_optional_value. destruct (rewrite_path _ _ _ _) as [[g1 rw]|] eqn:E; [|done]. cbn [mbind option_bind].
    destruct (next_revision _); [|done]. cbn. intros [= -> <- _]. apply Hrw.
    eapply rewrite_path_copied; [|exact E]. apply value_terminal_copied.
  - unfold update_or_insert_units. destruct (rewrite_path _ _ _ _) as [[g1 rw]|] eqn:E; [|done]. cbn [mbind option_bind].
    destruct (next_revision _); [|done]. cbn. intros [= -> <- _]. apply Hrw.
    eapply rewrite_path_copied; [|exact E]. apply update_terminal_copied.
  - unfold remove_units. destruct (rewrite_path _ _ _ _) as [[g1 rw]|] eqn:E; [|done]. cbn [mbind option_bind].
    destruct (negb _); [done|]. destruct (next_revision _); [|done]. cbn. intros [= -> <- _]. apply Hrw.
    eapply rewrite_path_copied; [|exact E]. apply remove_terminal_copied.
  - unfold clear. destruct (_ =? 0)%Z; [done|]. cbn [arc_new]. destruct (next_revision _); [|done]. cbn.
    intros [= E <- _]. apply app_inv_head in E as <-. left. apply copied_new.
  - unfold try_publish_if_empty. destruct (negb _); [done|]. destruct (next_revision _); [|done]. cbn.
    intros [= E <- _]. cbn. apply projectable_grow; [done|apply Hc|]. by eapply Hpc.
  - destruct (rebuild_spec g v m Hg Hv Hrev Hw) as (k' & root & n & n' & E & Hb & _). rewrite E. intros [= E' <- _].
    apply app_inv_head in E' as <-. by eapply built_projectable.
  - destruct Hv as [Hd Hcount]. rewrite (get_units_value_spec g v m units); done.
  - rewrite (get_units_optional_value_spec g v m units); done.
  - rewrite (contains_units_spec g v m units); done.
  - done.
  - unfold collect_visible_entries. by destruct (collect_visible_entries_from _ _).
Qed.

(** ** Every version of a shared dictionary can be projected *)

Definition candidate_of (t : thread_state (V := V)) : option (dawg_op V * GraphVersion) :=
  match t with
  | Looping op candidate | Loaded op candidate _ | Prepared op candidate _ _ _ => Some (op, candidate)
  | _ => None
  end.

Record all_projectable (s : machine (V := V)) : Prop := {
  ap_versions v : v ∈ mc_versions s → projectable (mc_graph s) (gv_root v);
  ap_candidates i entries c : candidate_of (mc_threads s i) = Some (PublishSorted entries, c) → projectable (mc_graph s) (gv_root c);
}.

(** It is enough to look at the new version and at the thread that takes the step. *)
Lemma all_projectable_step w tr s history ms i s' k l t :
  machine_ok w tr s history ms → all_projectable s →
  mc_graph s' = mc_graph s ++ k → mc_versions s' = mc_versions s ++ l →
  (∀ j, mc_threads s' j = if decide (j = i) then t else mc_threads s j) →
  (∀ v, v ∈ l → projectable (mc_graph s') (gv_root v)) →
  (∀ entries c, candidate_of t = Some (PublishSorted entries, c) →
    candidate_of (mc_threads s i) = Some (PublishSorted entries, c) ∨ projectable (mc_graph s') (gv_root c)) →
  all_projectable s'.
Proof.
  intros Hs [Hv Hc] Eg Ev Et Hl Hown. pose proof Hs as [_ Hg Hvs _ Hth].
  assert (∀ j entries c, candidate_of (mc_threads s j) = Some (PublishSorted entries, c) → projectable (mc_graph s') (gv_root c)) as Hold.
  { intros j entries c E. rewrite Eg. apply projectable_grow; [done| |by eapply Hc].
    destruct (Hth j) as (p & _ & Hok). destruct (mc_threads s j); cbn in E, Hok; simplify_eq; cbn in Hok.
    - destruct Hok as (_ & _ & [[? _] _]). done.
    - destruct Hok as (_ & [[? _] _] & _). done.
    - destruct Hok as (_ & _ & [[? _] _] & _). done. }
  split.
  - intros v. rewrite Ev. intros [Hin|Hin]%elem_of_app; [|by apply Hl]. rewrite Eg. apply projectable_grow; [done| |by apply Hv].
    apply list_elem_of_lookup in Hin as [x Hx]. destruct (Forall2_lookup_l _ _ _ _ _ Hvs Hx) as (m & _ & [[[? _] _] _]). done.
  - intros j entries c. rewrite Et. case_decide as Hj; [|apply Hold]. subst j. intros E. destruct (Hown entries c E) as [E'|]; [|done].
    by eapply Hold.
Qed.

(** A turn only adds nodes. *)
Lemma loaded_turn w tr s history ms i op c cur v :
  machine_ok w tr s history ms → room (length tr) w → mc_threads s i = Loaded op c cur → mc_versions s !! cur = Some v →
  ∃ m, version_ok (mc_graph s) v m ∧ candidate_ok op c (mc_graph s) ∧ turn_room v m ∧
    ∀ g a, turn op c (mc_graph s) v = Ret (g, a) → ∃ k, g = mc_graph s ++ k.
Proof.
  intros [_ Hg Hv _ Hth] Hroom Ht Hcur. destruct (Hth i) as (p & _ & Hok). rewrite Ht in Hok.
  destruct Hok as (_ & Hc & v' & m & Hv' & Hm & Hq). rewrite Hcur in Hv'. injection Hv' as <-.
  destruct (version_turn _ _ _ _ _ _ _ Hv Hroom Hcur) as (m1 & Hm1 & Hvm & Hturn & _). rewrite Hm in Hm1. injection Hm1 as <-.
  exists m. split_and!; [done..|]. intros g a E. destruct (quiet op m) eqn:Hquiet.
  - destruct Hq as (r & _ & Hret). destruct (Hret []) as (k & E' & _); [by rewrite app_nil_r|]. rewrite app_nil_r, E in E'.
    exists k. congruence.
  - destruct (turn_publishes op c _ v m Hg Hvm Hc Hturn Hquiet) as (m' & r & _ & k & next & E' & _). exists k. congruence.
Qed.

Lemma step_projectable w tr s history ms i e s' :
  machine_ok w tr s history ms → all_projectable s → step i s e s' → room (length tr) w → all_projectable s'.
Proof.
  intros Hs Hp Hstep Hroom. pose proof Hs as [_ Hg Hv _ Hth]. destruct (Hth i) as (p & _ & Hok).
  destruct Hstep as [s op Ht|s op s' c Ht E|s op Ht E|s op c Ht|s op c cur v g r Ht Hcur E|s op c cur v g next r Ht Hcur E|
    s op c cur v Ht Hcur E|s op c cur next r Ht Hc|s op c cur next r Ht Hc|s r Ht]; rewrite Ht in Hok;
    try (eapply (all_projectable_step w tr s history ms i _ [] [] _ Hs Hp); cbn; rewrite ?app_nil_r; try done;
      try (by intros v' Hin%elem_of_nil); rewrite Ht; cbn; by auto).
  - destruct Hok as (_ & Hw & Hsort).
    destruct (start_spec s op Hg Hsort) as (k & c' & E' & Hg' & Hc); [unfold room in Hroom; nia|]. rewrite E in E'. injection E' as -> ->.
    eapply (all_projectable_step w tr s history ms i _ k [] _ Hs Hp); cbn; rewrite ?app_nil_r; try done; [by intros v' Hin%elem_of_nil|].
    intros entries c [= -> ->]. right. cbn in E, Hsort, Hw. unfold frozen_version in E.
    destruct (from_sorted_entries_spec (mc_graph s) entries Hg Hsort) as (k' & root & Ek & Hb); [unfold builder_room; unfold room in Hroom; nia|].
    rewrite Ek in E. cbn in E. injection E as E <-. apply app_inv_head in E as <-. by eapply built_projectable.
  - destruct (loaded_turn _ _ _ _ _ _ _ _ _ _ Hs Hroom Ht Hcur) as (m & _ & _ & _ & Hk). destruct (Hk _ _ E) as [k ->].
    eapply (all_projectable_step w tr s history ms i _ k [] _ Hs Hp); cbn; rewrite ?app_nil_r; try done. by intros v' Hin%elem_of_nil.
  - destruct (loaded_turn _ _ _ _ _ _ _ _ _ _ Hs Hroom Ht Hcur) as (m & Hvm & Hcand & Hturn & Hk). destruct (Hk _ _ E) as [k ->].
    eapply (all_projectable_step w tr s history ms i _ k [next] _ Hs Hp); cbn; try done; [|rewrite Ht; cbn; by auto].
    intros v' ->%list_elem_of_singleton. eapply turn_projectable; [done..| | |exact E].
    + apply (ap_versions _ Hp). by eapply list_elem_of_lookup_2.
    + intros entries ->. apply (ap_candidates _ Hp i entries). by rewrite Ht.
Qed.

Lemma steps_projectable w tr s :
  steps initial tr s → Forall (λ x, light w x.2 ∧ sorted_bulk x.2) tr → room (length tr) w → all_projectable s.
Proof.
  intros Hsteps. remember initial as s0 eqn:E0. induction Hsteps as [s|s tr s1 i e s2 Hsteps IH Hstep]; subst s.
  { intros _ _. split; cbn; [|done]. intros v ->%list_elem_of_singleton. left. apply (copied_new []). }
  intros [Htr _]%Forall_app Hroom. rewrite length_app in Hroom. cbn in Hroom.
  assert (room (length tr) w) as Hroom' by (unfold room in *; nia).
  destruct (steps_ok w tr s1 Hsteps Htr Hroom') as (history & ms & Hok).
  eapply step_projectable; [exact Hok|by apply IH|done..].
Qed.

(** C17: the compact graph of a revision is the revision.  However threads have used a
    dictionary, every version of it, published or not, projects to a compact graph when
    the graph has fewer than [2^32] nodes and [2^31] edges, whether its nodes have the
    identities of the builder or are copies; following a term through the compact graph
    from its root never fails, and gives the finality and value the version has. *)
Theorem projection_exact w tr s v :
  steps initial tr s → Forall (λ x, light w x.2 ∧ sorted_bulk x.2) tr → room (length tr) w → v ∈ mc_versions s →
  (Z.of_nat (length (mc_graph s)) < 2 ^ 32)%Z → (Z.of_nat (length (mc_graph s ≫= dn_edges)) < 2 ^ 31)%Z →
  ∃ m G, version_ok (mc_graph s) v m ∧ frozen_traversal_graph_from_root (mc_graph s) (gv_root v) = Ret (Some G) ∧
    ∀ t, traverse (mc_graph s) G (Z.to_nat (tg_root G)) t = Ret (m !! t).
Proof.
  intros Hsteps Htr Hroom Hin Hnodes Hedges. destruct (steps_ok w tr s Hsteps Htr Hroom) as (history & ms & [_ Hg Hv _ _]).
  pose proof (ap_versions _ (steps_projectable w tr s Hsteps Htr Hroom) v Hin) as Hp.
  apply list_elem_of_lookup in Hin as [x Hx]. destruct (Forall2_lookup_l _ _ _ _ _ Hv Hx) as (m & _ & Hvm & _).
  destruct (vo_denotes _ _ _ Hvm) as [Hr Hm]. destruct (from_root_spec _ _ Hg Hr Hp Hnodes Hedges) as (G & f & HG & Hproj).
  exists m, G. split_and!; [done..|]. intros t. destruct (Hproj) as [Eroot _]. rewrite Eroot, Nat2Z.id, <-Hm.
  eapply projects_traverse; [done..|]. by exists [].
Qed.

End projection.

(** A bulk load, then an insertion by another thread *)
Definition load_schedule : list (nat * dawg_op nat) :=
  replicate 6 (0, PublishSorted [([97; 98], Some 1); ([99; 98], Some 1)]) ++ replicate 6 (1, InsertUnits [97]).

Definition load_run : list (nat * event (V := nat)) * machine (V := nat) := default ([], initial) (run load_schedule initial).

Lemma load_run_steps : steps initial load_run.1 load_run.2.
Proof.
  apply (run_steps load_schedule). unfold load_run. destruct (run load_schedule initial) as [[tr s]|] eqn:E; [done|].
  by vm_compute in E.
Qed.

Definition load_version : GraphVersion := default (mkVersion 0 0 false 0) (mc_versions load_run.2 !! mc_current load_run.2).

Lemma projection_exact_witness :
  ∃ G, frozen_traversal_graph_from_root (mc_graph load_run.2) (gv_root load_version) = Ret (Some G) ∧
    traverse (mc_graph load_run.2) G (Z.to_nat (tg_root G)) [97] = Ret (Some None) ∧
    traverse (mc_graph load_run.2) G (Z.to_nat (tg_root G)) [97; 98] = Ret (Some (Some 1)).
Proof.
  destruct (projection_exact 6 load_run.1 load_run.2 load_version) as (m & G & Hv & HG & Ht).
  - apply load_run_steps.
  - vm_compute. repeat constructor; [tauto|]. intros [H|[H _]]; lia.
  - vm_compute. reflexivity.
  - apply (list_elem_of_lookup_2 _ 2). vm_compute. reflexivity.
  - vm_compute. reflexivity.
  - vm_compute. reflexivity.
  - exists G. split; [exact HG|]. rewrite !Ht, <-!(proj2 (vo_denotes _ _ _ Hv)). split; vm_compute; reflexivity.
Defined.
