(* ===== verification/SuffixClasses.v ===== *)
(** * Suffix automata as classes of factors

    Why the online construction of a suffix automaton is right, apart from its
    representation.  A state stands for the longest of its words; its words are the
    suffixes of that word longer than the word of its suffix link.  The construction
    keeps three things: every factor of the text is a word of exactly one state, the
    suffix link of a state is a suffix, and an edge leads from every word of a state to
    the word extended by the label.

    A state may have no words at all, when its link has the same length: the
    construction makes such states when a text begins like an earlier one. *)

From stdpp Require Import prelude.
From S2P Require Import Prelude Tree.

(** ** Suffixes *)

Lemma suffix_compare (u v z : list nat) : u `suffix_of` z → v `suffix_of` z → length u ≤ length v → u `suffix_of` v.
Proof.
  intros Hu Hv Hlen. destruct (suffix_weak_total u v z Hu Hv) as [|Hvu]; [done|].
  assert (v = u) as ->; [|done]. destruct Hvu as [k ->]. rewrite length_app in Hlen. by destruct k; [|cbn in Hlen; lia].
Qed.

Lemma suffix_same_length (u v : list nat) : u `suffix_of` v → length v ≤ length u → u = v.
Proof. intros [k ->] Hlen. rewrite length_app in Hlen. by destruct k; [|cbn in Hlen; lia]. Qed.

Lemma suffix_snoc_both (u v : list nat) c : u ++ [c] `suffix_of` v ++ [c] ↔ u `suffix_of` v.
Proof.
  split; intros [k E].
  - rewrite app_assoc in E. apply app_inj_tail in E as [-> _]. by exists k.
  - exists k. by rewrite E, app_assoc.
Qed.

Lemma suffix_snoc_inv (u v : list nat) c : u `suffix_of` v ++ [c] → u = [] ∨ ∃ u', u = u' ++ [c] ∧ u' `suffix_of` v.
Proof.
  destruct u as [|d u _] using rev_ind; [by left|]. intros [k E]. right. rewrite app_assoc in E.
  apply app_inj_tail in E as [-> ->]. exists u. split; [done|by exists k].
Qed.

(** ** The invariant *)

(** [P] holds of the prefixes of the texts. *)
Definition factor (P : list nat → Prop) (u : list nat) : Prop := ∃ z, P z ∧ u `suffix_of` z.

(** [u] is a word of state [s]. *)
Definition class (L : nat → option nat) (w : nat → list nat) (s : nat) (u : list nat) : Prop :=
  u `suffix_of` w s ∧ ∀ l, L s = Some l → length (w l) < length u.

(** A state with words *)
Definition live (L : nat → option nat) (w : nat → list nat) (s : nat) : Prop := class L w s (w s).

Record automaton_ok (D : nat → Prop) (E : nat → nat → option nat) (L : nat → option nat) (w : nat → list nat)
    (P : list nat → Prop) : Prop := {
  ao_closed : P [] ∧ ∀ z c, P (z ++ [c]) → P z;
  ao_root : D 0 ∧ w 0 = [] ∧ L 0 = None;
  ao_link s : D s → s ≠ 0 → ∃ l, L s = Some l ∧ D l ∧ w l `suffix_of` w s ∧ live L w l;
  ao_factor s : D s → factor P (w s);
  ao_cover u : factor P u → ∃ s, D s ∧ class L w s u;
  ao_unique s t u : D s → D t → class L w s u → class L w t u → s = t;
  ao_edge s u c : D s → class L w s u →
    match E s c with Some t => D t ∧ class L w t (u ++ [c]) | None => ¬ factor P (u ++ [c]) end;
}.

Lemma class_ext L L' w w' s u : (∀ s, L s = L' s) → (∀ s, w s = w' s) → class L w s u → class L' w' s u.
Proof. intros HL Hw [Hu Hl]. split; [by rewrite <-Hw|]. intros l. rewrite <-HL, <-Hw. apply Hl. Qed.

Lemma automaton_ok_ext D D' E E' L L' w w' P :
  (∀ s, D s ↔ D' s) → (∀ s c, E s c = E' s c) → (∀ s, L s = L' s) → (∀ s, w s = w' s) →
  automaton_ok D E L w P → automaton_ok D' E' L' w' P.
Proof.
  intros HD HE HL Hw [Hc Hr Hl Hf Hcov Hu He].
  assert (∀ s u, class L w s u ↔ class L' w' s u) as Hcl by (intros s u; split; apply class_ext; intros; auto).
  split.
  - done.
  - by rewrite <-HD, <-Hw, <-HL.
  - intros s Hs Hs0. destruct (Hl s) as (l & El & HDl & Hsuf & Hlive); [by apply HD|done|]. exists l.
    unfold live in *. rewrite <-HL, <-!Hw. by rewrite <-HD, <-Hcl.
  - intros s. rewrite <-HD, <-Hw. apply Hf.
  - intros u (s & Hs & Hcs)%Hcov. exists s. by rewrite <-HD, <-Hcl.
  - intros s t u. rewrite <-!HD, <-!Hcl. apply Hu.
  - intros s u c. rewrite <-HD, <-Hcl, <-HE. intros Hs Hcs. specialize (He s u c Hs Hcs).
    destruct (E s c); [by rewrite <-HD, <-Hcl|done].
Qed.

(** Following suffix links *)
Notation anc L := (rtc (λ s l, L s = Some l)).

Inductive links (L : nat → option nat) : option nat → list nat → option nat → Prop :=
| links_nil p : links L p [] p
| links_cons s vs p : links L (L s) vs p → links L (Some s) (s :: vs) p.

Lemma links_anc L s vs p k : links L (Some s) vs p → k ∈ vs → anc L s k.
Proof.
  revert s. induction vs as [|v vs IH]; intros s Hl Hk; [by apply elem_of_nil in Hk|]. inversion Hl as [|? ? ? Hl']; subst.
  apply elem_of_cons in Hk as [->|Hk]; [done|]. destruct (L v) as [l|] eqn:El; [|inversion Hl'; subst; by apply elem_of_nil in Hk].
  eapply rtc_l; [exact El|]. by apply IH.
Qed.

Lemma links_split L s vs p k : links L (Some s) vs p → anc L s k → k ∈ vs ∨ ∃ a, p = Some a ∧ anc L a k.
Proof.
  revert s. induction vs as [|v vs IH]; intros s Hl Hk; inversion Hl as [|? ? ? Hl']; subst; [eauto|].
  inversion Hk as [|? l ? Hlink Hk']; subst; [left; by left|]. rewrite Hlink in Hl'.
  destruct (IH l Hl' Hk') as [?|?]; [left; by right|by right].
Qed.

Lemma links_end L s vs a : links L (Some s) vs (Some a) → anc L s a.
Proof.
  revert s. induction vs as [|v vs IH]; intros s Hl; inversion Hl as [|? ? ? Hl']; subst; [done|].
  destruct (L v) as [l|] eqn:El; [|inversion Hl']. eapply rtc_l; [exact El|]. by apply IH.
Qed.

Section automaton.
Context D E L w P (Hok : automaton_ok D E L w P).

Lemma factor_nil : factor P [].
Proof. exists []. split; [apply Hok|done]. Qed.

Lemma factor_suffix u v : u `suffix_of` v → factor P v → factor P u.
Proof. intros Hu (z & Hz & Hv). exists z. split; [done|]. by etrans. Qed.

Lemma factor_snoc u c : factor P (u ++ [c]) → factor P u.
Proof.
  intros (z & Hz & k & ->). exists (k ++ u). split; [|by exists k]. apply (proj2 (ao_closed _ _ _ _ _ Hok) _ c). by rewrite <-app_assoc.
Qed.

Lemma class_factor s u : D s → class L w s u → factor P u.
Proof. intros Hs [Hu _]. eapply factor_suffix; [done|]. by apply (ao_factor _ _ _ _ _ Hok). Qed.

Lemma class_live s u : class L w s u → live L w s.
Proof. intros [Hu Hl]. split; [done|]. intros l El. apply Hl in El. apply suffix_length in Hu. lia. Qed.

Lemma class_root : class L w 0 [].
Proof. destruct (ao_root _ _ _ _ _ Hok) as (_ & Ew & El). split; [by rewrite Ew|]. intros l. by rewrite El. Qed.

Lemma anc_ok s k : D s → anc L s k → D k ∧ w k `suffix_of` w s ∧ (k = s ∨ live L w k).
Proof.
  intros Hs Hk. induction Hk as [s|s l k El Hk IH]; [by auto|].
  assert (s ≠ 0) as Hs0 by (intros ->; destruct (ao_root _ _ _ _ _ Hok) as (_ & _ & ?); congruence).
  destruct (ao_link _ _ _ _ _ Hok s Hs Hs0) as (l' & El' & Hl & Hsuf & Hlive). rewrite El in El'. injection El' as <-.
  destruct (IH Hl) as (? & ? & Hk'). split_and!; [done|by etrans|]. right. by destruct Hk' as [->|].
Qed.

(** The suffixes of the word of a state are spread over the states along its links. *)
Lemma suffix_class s u : D s → u `suffix_of` w s → ∃ k, anc L s k ∧ class L w k u.
Proof.
  assert (∀ n s u, length (w s) ≤ n → D s → live L w s → u `suffix_of` w s → ∃ k, anc L s k ∧ class L w k u) as Hlive.
  { clear s u. induction n as [|n IH]; intros s u Hn Hs [_ Hl] Hu.
    all: destruct (L s) as [l|] eqn:El; [specialize (Hl l eq_refl)|exists s; split; [done|split; [done|]; by rewrite El]].
    { lia. }
    destruct (decide (length (w l) < length u)) as [Hlt|Hge].
    { exists s. split; [done|]. split; [done|]. intros l'. rewrite El. by intros [= <-]. }
    assert (s ≠ 0) as Hs0 by (intros ->; destruct (ao_root _ _ _ _ _ Hok) as (_ & _ & ?); congruence).
    destruct (ao_link _ _ _ _ _ Hok s Hs Hs0) as (l' & El' & HDl & Hsuf & Hlive). rewrite El in El'. injection El' as <-.
    destruct (IH l u) as (k & Hk & Hc); [lia|done..|by eapply suffix_compare; [| |lia]|].
    exists k. split; [|done]. by eapply rtc_l. }
  intros Hs Hu. destruct (decide (s = 0)) as [->|Hs0].
  { apply (Hlive (length (w 0))); [done..| |done]. eapply class_live, class_root. }
  destruct (ao_link _ _ _ _ _ Hok s Hs Hs0) as (l & El & HDl & Hsuf & Hl).
  destruct (decide (length (w l) < length (w s))) as [Hlt|Hge].
  - apply (Hlive (length (w s))); [done..| |done]. split; [done|]. intros l'. rewrite El. by intros [= <-].
  - apply suffix_same_length in Hsuf; [|lia]. destruct (Hlive (length (w l)) l u) as (k & Hk & Hc); [done..|by rewrite Hsuf|].
    exists k. split; [|done]. by eapply rtc_l.
Qed.

Lemma class_anc s k u : D s → D k → class L w k u → u `suffix_of` w s → anc L s k.
Proof.
  intros Hs Hk Hc Hu. destruct (suffix_class s u Hs Hu) as (k' & Hanc & Hc'). destruct (anc_ok s k' Hs Hanc) as (Hk' & _).
  by rewrite (ao_unique _ _ _ _ _ Hok k k' u).
Qed.

(** A word leads to the state whose word it is. *)
Lemma path_class u s : path E 0 u = Some s ↔ D s ∧ class L w s u.
Proof.
  destruct (ao_root _ _ _ _ _ Hok) as (H0 & _ & _). revert s. induction u as [|c u IH] using rev_ind; intros s.
  - cbn. split; [intros [= <-]; by split; [|apply class_root]|]. intros [Hs Hc]. f_equal.
    by apply (ao_unique _ _ _ _ _ Hok 0 s []); [| |apply class_root|].
  - rewrite path_snoc. split.
    + intros (p & Hp & Hedge). apply IH in Hp as [Hp Hc]. pose proof (ao_edge _ _ _ _ _ Hok p u c Hp Hc) as He. by rewrite Hedge in He.
    + intros [Hs Hc]. pose proof (class_factor s _ Hs Hc) as Hf.
      destruct (ao_cover _ _ _ _ _ Hok u) as (p & Hp & Hcp); [by eapply factor_snoc|]. exists p. split; [by apply IH|].
      pose proof (ao_edge _ _ _ _ _ Hok p u c Hp Hcp) as He. destruct (E p c) as [t|]; [|done]. f_equal. destruct He as [Ht Hct].
      by apply (ao_unique _ _ _ _ _ Hok t s (u ++ [c])).
Qed.

Lemma path_factor u : is_Some (path E 0 u) ↔ factor P u.
Proof.
  split.
  - intros [s [Hs Hc]%path_class]. by eapply class_factor.
  - intros (s & Hs & Hc)%(ao_cover _ _ _ _ _ Hok). exists s. by apply path_class.
Qed.

End automaton.

(** ** Adding the state of a longer prefix *)

(** A function with one value changed *)
Definition upd {A} (f : nat → A) (i : nat) (x : A) : nat → A := λ j, if decide (j = i) then x else f j.

Lemma upd_eq {A} (f : nat → A) i x : upd f i x i = x.
Proof. unfold upd. by rewrite decide_True. Qed.

Lemma upd_ne {A} (f : nat → A) i x j : j ≠ i → upd f i x j = f j.
Proof. intros. unfold upd. by rewrite decide_False. Qed.

Section add.
Context D E L w P (Hok : automaton_ok D E L w P).
Context (last : nat) (c : nat) (Hlast : D last) (Hx : P (w last)).
Context (vs : list nat) (p : option nat) (Hlinks : links L (Some last) vs p) (Hvs : ∀ s, s ∈ vs → E s c = None).
Context (r : nat) (Hr : D r) (Hlive : live L w r).
Context (Hp : match p with None => r = 0 | Some a => live L w a ∧ E a c = Some r ∧ w r = w a ++ [c] end).
Context (cur : nat) (Hcur : ¬ D cur).

Let x := w last.

Lemma walk_end a : p = Some a → anc L last a ∧ D a ∧ w a `suffix_of` x.
Proof.
  intros Ep. assert (anc L last a) as Ha by (apply (links_end L last vs); by rewrite <-Ep).
  by destruct (anc_ok D E L w P Hok last a Hlast Ha) as (? & ? & _).
Qed.

(** Which suffixes of the text with the new label are factors already *)
Lemma known_suffix u :
  u `suffix_of` x → factor P (u ++ [c]) ↔ match p with Some a => u `suffix_of` w a | None => False end.
Proof.
  intros Hu. split.
  - intros Hf. destruct (suffix_class D E L w P Hok last u Hlast Hu) as (k & Hk & Hc).
    destruct (anc_ok D E L w P Hok last k Hlast Hk) as (HDk & _ & _). pose proof (ao_edge _ _ _ _ _ Hok k u c HDk Hc) as He.
    destruct (links_split L last vs p k Hlinks Hk) as [Hin|(a & Ep & Ha)]; [by rewrite (Hvs k Hin) in He|].
    destruct (walk_end a Ep) as (_ & HDa & _). rewrite Ep. destruct (anc_ok D E L w P Hok a k HDa Ha) as (_ & Hka & _). destruct Hc as [Hc _]. by etrans.
  - destruct p as [a|]; [|done]. intros Hua. destruct Hp as (_ & _ & Er). eapply factor_suffix; [|by apply (ao_factor _ _ _ _ _ Hok r)].
    rewrite Er. by apply suffix_snoc_both.
Qed.

Lemma known_dec u : u `suffix_of` x → factor P (u ++ [c]) ∨ ¬ factor P (u ++ [c]).
Proof.
  intros Hu. rewrite (known_suffix u Hu). pose proof walk_end as Hend. destruct p as [a|]; [|tauto].
  destruct (Hend a eq_refl) as (_ & _ & Ha).
  destruct (decide (length u ≤ length (w a))) as [Hle|Hgt]; [left; by eapply suffix_compare|right].
  intros Hs%suffix_length. lia.
Qed.

Definition add_edges : nat → nat → option nat :=
  λ s d, if decide (s = cur) then None else if decide (d = c ∧ s ∈ vs) then Some cur else E s d.

Definition add_prefix (z : list nat) : Prop := P z ∨ z = x ++ [c].

Let L' := upd L cur (Some r).
Let w' := upd w cur (x ++ [c]).

Lemma add_class_old s u : D s → class L' w' s u ↔ class L w s u.
Proof.
  intros Hs. assert (s ≠ cur) as Hne by by intros ->. unfold class, L', w'. rewrite !(upd_ne _ _ _ s) by done.
  split; intros [Hu Hl]; (split; [done|]); intros l El; specialize (Hl l El).
  all: assert (l ≠ cur) as Hlne; [|by rewrite upd_ne in * by done].
  all: assert (s ≠ 0) as Hs0 by (intros ->; destruct (ao_root _ _ _ _ _ Hok) as (_ & _ & ?); congruence).
  all: destruct (ao_link _ _ _ _ _ Hok s Hs Hs0) as (l' & El' & HDl & _); intros ->; congruence.
Qed.

Lemma add_class_cur u' : class L' w' cur u' ↔ ∃ u, u' = u ++ [c] ∧ u `suffix_of` x ∧ ¬ factor P u'.
Proof.
  assert (r ≠ cur) as Hrne by by intros ->. unfold class, L', w'. rewrite !upd_eq.
  assert (∀ u, u `suffix_of` x → (length (w r) < length (u ++ [c]) ↔ ¬ factor P (u ++ [c]))) as Hlen.
  { intros u Hu. rewrite (known_suffix u Hu), length_app. cbn. pose proof walk_end as Hend. destruct p as [a|].
    - destruct Hp as (_ & _ & ->). destruct (Hend a eq_refl) as (_ & _ & Ha). rewrite length_app. cbn. split.
      + intros Hlt Hs%suffix_length. lia.
      + intros Hn. apply Nat.nle_gt. intros Hle. apply Hn. eapply suffix_compare; [done..|]. lia.
    - rewrite Hp. destruct (ao_root _ _ _ _ _ Hok) as (_ & -> & _). cbn. split; [tauto|lia]. }
  split.
  - intros [Hu Hl]. specialize (Hl r eq_refl). rewrite upd_ne in Hl by done.
    apply suffix_snoc_inv in Hu as [->|(u & -> & Hu)]; [cbn in Hl; lia|]. exists u. split_and!; [done..|]. by apply Hlen.
  - intros (u & -> & Hu & Hn). split; [by apply suffix_snoc_both|]. intros l [= <-]. rewrite upd_ne by done. by apply Hlen.
Qed.

Lemma add_live s : D s → live L' w' s ↔ live L w s.
Proof. intros Hs. unfold live. rewrite add_class_old by done. unfold w'. by rewrite upd_ne by (by intros ->). Qed.

Lemma add_factor u : factor add_prefix u ↔ factor P u ∨ u `suffix_of` x ++ [c].
Proof.
  split.
  - intros (z & [Hz| ->] & Hu); [left; by exists z|by right].
  - intros [(z & Hz & Hu)|Hu]; [exists z; split; [by left|done]|]. exists (x ++ [c]). split; [by right|done].
Qed.

Lemma add_edge_ok s u d :
  D s ∨ s = cur → class L' w' s u →
  match add_edges s d with
  | Some t => (D t ∨ t = cur) ∧ class L' w' t (u ++ [d])
  | None => ¬ factor add_prefix (u ++ [d])
  end.
Proof.
  intros [Hs| ->] Hc; unfold add_edges.
  - rewrite decide_False by (by intros ->). apply add_class_old in Hc; [|done]. case_decide as Hd.
    + destruct Hd as [-> Hin]. split; [by right|]. apply add_class_cur. exists u. split_and!; [done| |].
      * destruct (anc_ok D E L w P Hok last s Hlast) as (_ & Hsuf & _); [by eapply links_anc|]. destruct Hc. by etrans.
      * pose proof (ao_edge _ _ _ _ _ Hok s u c Hs Hc) as He. by rewrite Hvs in He.
    + pose proof (ao_edge _ _ _ _ _ Hok s u d Hs Hc) as He. destruct (E s d) as [t|].
      * destruct He as [Ht Hct]. split; [by left|]. by apply add_class_old.
      * rewrite add_factor. intros [?|Hsuf]; [done|].
        apply suffix_snoc_inv in Hsuf as [Hnil|(u' & [-> [= ->]]%app_inj_tail & Hu)]; [by destruct u|].
        assert (anc L last s) as Hanc by by eapply class_anc.
        destruct (links_split L last vs p s Hlinks Hanc) as [Hin|(a & Ep & Ha)]; [by destruct Hd|].
        apply He, (known_suffix u' Hu). rewrite Ep. destruct (walk_end a Ep) as (_ & HDa & _).
        destruct (anc_ok D E L w P Hok a s HDa Ha) as (_ & Hsa & _). destruct Hc as [Hc _]. by trans (w s).
  - rewrite decide_True by done. apply add_class_cur in Hc as (u0 & -> & Hu0 & Hn). rewrite add_factor. intros [Hf|Hsuf].
    + apply Hn. by eapply factor_snoc.
    + apply suffix_snoc_inv in Hsuf as [Hnil|(u' & Eu & Hu)]; [by destruct u0|]. apply app_inj_tail in Eu as [<- _]. apply Hn. by exists x.
Qed.

Lemma add_ok : automaton_ok (λ s, D s ∨ s = cur) add_edges L' w' add_prefix.
Proof.
  destruct (ao_root _ _ _ _ _ Hok) as (HD0 & Hw0 & HL0). assert (0 ≠ cur) as H0 by by intros <-. split.
  - split; [left; apply Hok|]. intros z d [Hz|Hz]; left.
    + by apply (proj2 (ao_closed _ _ _ _ _ Hok) z d).
    + by apply app_inj_tail in Hz as [-> _].
  - unfold L', w'. rewrite !upd_ne by done. by split_and!; [left|..].
  - intros s [Hs| ->] Hs0.
    + destruct (ao_link _ _ _ _ _ Hok s Hs Hs0) as (l & El & Hl & Hsuf & Hll). exists l. unfold L', w' at 1 2.
      rewrite !upd_ne by (by intros ->). split_and!; [done|by left|done|by apply add_live].
    + exists r. unfold L', w' at 1 2. rewrite !upd_eq, upd_ne by (by intros ->). split_and!; [done|by left| |by apply add_live].
      pose proof walk_end as Hend. destruct p as [a|]; [|rewrite Hp, Hw0; apply suffix_nil]. destruct Hp as (_ & _ & ->).
      apply suffix_snoc_both. by apply Hend.
  - intros s [Hs| ->]; rewrite add_factor; unfold w'.
    + left. rewrite upd_ne by (by intros ->). by apply (ao_factor _ _ _ _ _ Hok).
    + right. by rewrite upd_eq.
  - intros u. rewrite add_factor. intros Hf. assert (factor P u ∨ ∃ u', u = u' ++ [c] ∧ u' `suffix_of` x ∧ ¬ factor P u) as [Hu|Hu].
    { destruct Hf as [?|Hs]; [by left|]. apply suffix_snoc_inv in Hs as [->|(u' & -> & Hu')]; [left; by eapply factor_nil|].
      destruct (known_dec u' Hu'); [by left|right; eauto]. }
    + destruct (ao_cover _ _ _ _ _ Hok u Hu) as (s & Hs & Hc). exists s. split; [by left|by apply add_class_old].
    + exists cur. split; [by right|by apply add_class_cur].
  - intros s t u [Hs| ->] [Ht| ->] Hcs Hct; [| | |done].
    + apply add_class_old in Hcs, Hct; [|done..]. by apply (ao_unique _ _ _ _ _ Hok s t u).
    + apply add_class_old in Hcs; [|done]. apply add_class_cur in Hct as (? & _ & _ & []). by apply (class_factor D E L w P Hok s).
    + apply add_class_old in Hct; [|done]. apply add_class_cur in Hcs as (? & _ & _ & []). by apply (class_factor D E L w P Hok t).
  - apply add_edge_ok.
Qed.

End add.

(** ** Splitting a state *)

Section split.
Context D E L w P (Hok : automaton_ok D E L w P).
Context (a c q : nat) (Ha : D a) (Hlive : live L w a) (Hq : E a c = Some q).
Context (clone : nat) (Hclone : ¬ D clone) (Hv : w a ++ [c] ≠ w q).

Let v := w a ++ [c].

Definition split_links : nat → option nat := upd (upd L q (Some clone)) clone (L q).
Definition split_words : nat → list nat := upd w clone v.

Lemma split_target : D q ∧ class L w q v.
Proof. pose proof (ao_edge _ _ _ _ _ Hok a (w a) c Ha Hlive) as He. by rewrite Hq in He. Qed.

Lemma split_facts : q ≠ 0 ∧ q ≠ clone ∧ length v < length (w q) ∧ ∃ l, L q = Some l ∧ D l ∧ length (w l) < length v ∧ w l `suffix_of` v ∧ l ≠ q ∧ l ≠ clone.
Proof.
  destruct split_target as [HDq [Hsuf Hlen]]. destruct (ao_root _ _ _ _ _ Hok) as (_ & Hw0 & _).
  assert (q ≠ 0) as Hq0. { intros ->. rewrite Hw0 in Hsuf. apply suffix_nil_inv in Hsuf. unfold v in Hsuf. by destruct (w a). }
  assert (length v < length (w q)) as Hlt.
  { apply Nat.nle_gt. intros Hle. destruct Hv. by apply suffix_same_length. }
  destruct (ao_link _ _ _ _ _ Hok q HDq Hq0) as (l & El & HDl & Hl & _). specialize (Hlen l El).
  split_and!; [done|by intros ->|done|]. exists l. split_and!; [done..| | |by intros ->].
  - eapply suffix_compare; [done..|lia].
  - intros ->. lia.
Qed.

Lemma split_class_old s u : D s → s ≠ q → class split_links split_words s u ↔ class L w s u.
Proof.
  intros Hs Hne. assert (s ≠ clone) as Hnc by by intros ->. unfold class, split_links, split_words.
  rewrite !(upd_ne _ _ _ s) by done.
  split; intros [Hu Hl]; (split; [done|]); intros l El; specialize (Hl l El).
  all: assert (l ≠ clone) as Hlne; [|by rewrite upd_ne in * by done].
  all: assert (s ≠ 0) as Hs0 by (intros ->; destruct (ao_root _ _ _ _ _ Hok) as (_ & _ & ?); congruence).
  all: destruct (ao_link _ _ _ _ _ Hok s Hs Hs0) as (l' & El' & HDl & _); intros ->; congruence.
Qed.

Lemma split_class_q u : class split_links split_words q u ↔ u `suffix_of` w q ∧ length v < length u.
Proof.
  destruct split_facts as (_ & Hqc & _). unfold class, split_links, split_words. rewrite !(upd_ne _ clone _ q), upd_eq by done.
  split; intros [Hu Hl]; (split; [done|]).
  - specialize (Hl clone eq_refl). by rewrite upd_eq in Hl.
  - intros l [= <-]. by rewrite upd_eq.
Qed.

Lemma split_class_clone u : class split_links split_words clone u ↔ class L w q u ∧ length u ≤ length v.
Proof.
  destruct split_facts as (_ & Hqc & Hlt & l & El & _ & Hl & _ & _ & Hlc). destruct split_target as [_ [Hvq _]].
  unfold class, split_links, split_words. rewrite !upd_eq, El. split.
  - intros [Hu Hlen]. specialize (Hlen l eq_refl). rewrite upd_ne in Hlen by done. split_and!; [by etrans| |by apply suffix_length].
    by intros l' [= <-].
  - intros [[Hu Hlen] Hle]. split; [by eapply suffix_compare|]. intros l' [= <-]. rewrite upd_ne by done. by apply Hlen.
Qed.

(** A word keeps its state, or the state is split and it is one of the halves. *)
Lemma split_class s u :
  D s → class L w s u → s ≠ q ∧ class split_links split_words s u ∨ s = q ∧ (class split_links split_words q u ∨ class split_links split_words clone u).
Proof.
  intros Hs Hc. destruct (decide (s = q)) as [->|Hne]; [|left; split; [done|by apply split_class_old]].
  right. split; [done|]. destruct (decide (length u ≤ length v)) as [Hle|Hgt].
  - right. by apply split_class_clone.
  - left. apply split_class_q. split; [by destruct Hc|lia].
Qed.

Lemma split_live s : D s → live L w s → class split_links split_words s (w s).
Proof.
  intros Hs Hl. destruct (decide (s = q)) as [->|Hne]; [|by apply split_class_old].
  apply split_class_q. split; [done|]. by destruct split_facts as (_ & _ & ? & _).
Qed.

Lemma split_class_inv s u :
  D s ∨ s = clone → class split_links split_words s u → ∃ s', D s' ∧ class L w s' u ∧ (s' = s ∨ s' = q ∧ s = clone).
Proof.
  destruct split_target as [HDq _]. destruct split_facts as (_ & _ & Hlt & l & El & _ & Hl & _). intros [Hs| ->] Hc.
  - exists s. split_and!; [done| |by left]. destruct (decide (s = q)) as [->|Hne]; [|by apply split_class_old in Hc].
    apply split_class_q in Hc as [Hu Hlen]. split; [done|]. intros l'. rewrite El. intros [= <-]. lia.
  - apply split_class_clone in Hc as [Hc _]. exists q. by split_and!; [| |right].
Qed.

Lemma split_no_loop d : E q d ≠ Some q.
Proof.
  destruct split_target as [HDq Hc]. pose proof (ao_edge _ _ _ _ _ Hok q (w q) d HDq (class_live _ _ _ _ Hc)) as He.
  intros Eq. rewrite Eq in He. destruct He as [_ [Hs%suffix_length _]]. rewrite length_app in Hs. cbn in Hs. lia.
Qed.

(** A walk along the links of the old automaton is one along the new links, which pass
    the clone after the state that was split. *)
Lemma split_walk s vs p :
  D s → links L (Some s) vs (Some p) → p ≠ q →
  ∃ vs', links split_links (Some s) vs' (Some p) ∧ ∀ k, k ∈ vs' ↔ k ∈ vs ∨ (k = clone ∧ q ∈ vs).
Proof.
  intros Hs Hl Hp. destruct split_facts as (_ & Hqc & _ & l & El & HDl & _ & _ & _ & Hlc). revert s Hs Hl.
  induction vs as [|v0 vs IH]; intros s Hs Hl; inversion Hl as [|? ? ? Hl']; subst.
  { exists []. split; [constructor|]. intros k. set_solver. }
  destruct (L v0) as [k|] eqn:Ek; [|inversion Hl'].
  assert (D k) as HDk.
  { assert (v0 ≠ 0) as Hs0 by (intros ->; destruct (ao_root _ _ _ _ _ Hok) as (_ & _ & ?); congruence).
    destruct (ao_link _ _ _ _ _ Hok v0 Hs Hs0) as (k' & Ek' & Hk' & _). rewrite Ek in Ek'. by injection Ek' as <-. }
  destruct (IH k HDk Hl') as (vs' & Hvs' & Hin). destruct (decide (v0 = q)) as [->|Hne].
  - exists (q :: clone :: vs'). split; [|set_solver].
    assert (split_links q = Some clone) as Eq by (unfold split_links; by rewrite (upd_ne _ clone _ q), upd_eq).
    assert (split_links clone = Some k) as Ec by (unfold split_links; by rewrite upd_eq).
    constructor. rewrite Eq. constructor. by rewrite Ec.
  - exists (v0 :: vs'). split; [|set_solver].
    assert (split_links v0 = Some k) as Ev by (unfold split_links; by rewrite !upd_ne by (done || by intros ->)).
    constructor. by rewrite Ev.
Qed.

(** The states whose edge is redirected *)
Context (rs : list nat) (b : option nat) (Hlinks : links L (Some a) rs b).
Context (Hrs : ∀ s, s ∈ rs → E s c = Some q) (Hb : ∀ s, b = Some s → E s c ≠ Some q).

Definition split_edges : nat → nat → option nat :=
  λ s d, if decide (s = clone) then E q d else if decide (d = c ∧ s ∈ rs) then Some clone else E s d.

(** A state with a short word and an edge to the split state is redirected. *)
Lemma split_redirected s u : D s → class L w s u → E s c = Some q → u `suffix_of` w a → s ∈ rs.
Proof.
  intros Hs Hc HE Hu. assert (anc L a s) as Hanc by by eapply class_anc.
  destruct (links_split L a rs b s Hlinks Hanc) as [?|(k & Ek & Hk)]; [done|]. exfalso.
  assert (anc L a k) as Hak by (apply (links_end L a rs); by rewrite <-Ek).
  destruct (anc_ok D E L w P Hok a k Ha Hak) as (HDk & Hka & Hklive).
  assert (live L w k) as Hkl by (by destruct Hklive as [->|]). apply (Hb k Ek).
  pose proof (ao_edge _ _ _ _ _ Hok k (w k) c HDk Hkl) as He. destruct split_target as [HDq [Hvq Hlq]].
  destruct (E k c) as [t|].
  - destruct He as [Ht Hct]. f_equal. apply (ao_unique _ _ _ _ _ Hok t q (w k ++ [c])); [done..|].
    split; [etrans; [|done]; by apply suffix_snoc_both|]. intros l El.
    pose proof (ao_edge _ _ _ _ _ Hok s u c Hs Hc) as Hes. rewrite HE in Hes. destruct Hes as [_ [_ Hlen]]. specialize (Hlen l El).
    destruct (anc_ok D E L w P Hok k s HDk Hk) as (_ & Hsk & _). destruct Hc as [Hus _]. apply suffix_length in Hus, Hsk.
    rewrite length_app in *. cbn in *. lia.
  - destruct He. eapply factor_suffix; [|by apply (ao_factor _ _ _ _ _ Hok q HDq)]. etrans; [|done]. by apply suffix_snoc_both.
Qed.

Lemma split_edge_ok s u d :
  D s ∨ s = clone → class split_links split_words s u →
  match split_edges s d with
  | Some t => (D t ∨ t = clone) ∧ class split_links split_words t (u ++ [d])
  | None => ¬ factor P (u ++ [d])
  end.
Proof.
  intros Hs Hc. destruct (split_class_inv s u Hs Hc) as (s' & Hs' & Hc' & Hcase). destruct split_target as [HDq [Hvq _]].
  unfold split_edges. destruct Hcase as [->|[-> ->]].
  - rewrite decide_False by (by intros ->). case_decide as Hd.
    + destruct Hd as [-> Hin]. split; [by right|]. apply split_class_clone.
      pose proof (ao_edge _ _ _ _ _ Hok s u c Hs' Hc') as He. rewrite Hrs in He by done. destruct He as [_ He]. split; [done|].
      assert (anc L a s) as Hanc by by eapply links_anc. destruct (anc_ok D E L w P Hok a s Ha Hanc) as (_ & Hsa & _).
      destruct Hc' as [Hu _]. apply suffix_length in Hu, Hsa. unfold v. rewrite !length_app. lia.
    + pose proof (ao_edge _ _ _ _ _ Hok s u d Hs' Hc') as He. destruct (E s d) as [t|] eqn:Et; [|done]. destruct He as [Ht Hct].
      split; [by left|]. destruct (split_class t (u ++ [d]) Ht Hct) as [[_ ?]|[-> [?|Hcl]]]; [done..|]. exfalso.
      apply split_class_clone in Hcl as [_ Hle]. destruct Hct as [Hsuf _].
      assert (u ++ [d] `suffix_of` v) as Huv by by eapply suffix_compare. unfold v in Huv.
      apply suffix_snoc_inv in Huv as [?|(u' & Eu & Hu')]; [by destruct u|]. apply app_inj_tail in Eu as [<- ->].
      apply Hd. split; [done|]. by eapply split_redirected.
  - rewrite decide_True by done. pose proof (ao_edge _ _ _ _ _ Hok q u d Hs' Hc') as He. destruct (E q d) as [t|] eqn:Et; [|done].
    destruct He as [Ht Hct]. split; [by left|]. apply split_class_old; [done| |done]. intros ->. by destruct (split_no_loop d).
Qed.

Lemma split_ok : automaton_ok (λ s, D s ∨ s = clone) split_edges split_links split_words P.
Proof.
  destruct (ao_root _ _ _ _ _ Hok) as (HD0 & Hw0 & HL0). destruct split_target as [HDq [Hvq Hlq]].
  destruct split_facts as (Hq0 & Hqc & Hlt & l & El & HDl & Hl & Hlv & Hlne & Hlc).
  assert (0 ≠ clone) as H0 by by intros <-. split.
  - apply Hok.
  - unfold split_links, split_words. rewrite !upd_ne by done. by split_and!; [left|..].
  - assert (∀ s, D s → live L w s → live split_links split_words s) as Hlv'.
    { intros s Hs Hls. unfold live. unfold split_words at 2. rewrite upd_ne by (by intros ->).
      destruct (decide (s = q)) as [->|]; [by apply split_class_q|by apply split_class_old]. }
    intros s [Hs| ->] Hs0.
    + destruct (decide (s = q)) as [->|Hne].
      * exists clone. unfold split_links at 1, split_words at 1 2. rewrite !(upd_ne _ clone _ q), !upd_eq by done.
        split_and!; [done|by right|done|]. unfold live. unfold split_words at 2. rewrite upd_eq. by apply split_class_clone.
      * destruct (ao_link _ _ _ _ _ Hok s Hs Hs0) as (k & Ek & HDk & Hk & Hkl). exists k. unfold split_links at 1, split_words at 1 2.
        rewrite !upd_ne by (done || by intros ->). split_and!; [done|by left|done|by apply Hlv'].
    + exists l. unfold split_links at 1, split_words at 1 2. rewrite !upd_eq, upd_ne by done.
      split_and!; [done|by left|done|]. apply Hlv'; [done|].
      destruct (ao_link _ _ _ _ _ Hok q HDq Hq0) as (l' & El' & _ & _ & Hll). rewrite El in El'. by injection El' as <-.
  - intros s [Hs| ->]; unfold split_words.
    + rewrite upd_ne by (by intros ->). by apply (ao_factor _ _ _ _ _ Hok).
    + rewrite upd_eq. eapply factor_suffix; [done|]. by apply (ao_factor _ _ _ _ _ Hok).
  - intros u (s & Hs & Hc)%(ao_cover _ _ _ _ _ Hok). destruct (split_class s u Hs Hc) as [[_ ?]|[-> [?|?]]].
    + exists s. by split; [left|].
    + exists q. by split; [left|].
    + exists clone. by split; [right|].
  - intros s t u Hs Ht Hcs Hct. destruct (split_class_inv s u Hs Hcs) as (s' & Hs' & Hcs' & Hcase).
    destruct (split_class_inv t u Ht Hct) as (t' & Ht' & Hct' & Hcase').
    pose proof (ao_unique _ _ _ _ _ Hok s' t' u Hs' Ht' Hcs' Hct') as <-.
    assert (s = t ∨ (s = q ∧ t = clone) ∨ (s = clone ∧ t = q)) as [?|[[Es Et]|[Es Et]]];
      [destruct Hcase as [?|[? ?]], Hcase' as [?|[? ?]]; [left|right|right|left]; intuition congruence|done| |].
    all: rewrite Es in Hcs; rewrite Et in Hct; rewrite split_class_q, split_class_clone in *; lia.
  - apply split_edge_ok.
Qed.

End split.

(** ** Changing the presentation *)

(** Only the factors of the texts matter. *)
Lemma automaton_ok_factor D E L w (P P' : list nat → Prop) :
  (P' [] ∧ ∀ z c, P' (z ++ [c]) → P' z) → (∀ u, factor P u ↔ factor P' u) →
  automaton_ok D E L w P → automaton_ok D E L w P'.
Proof.
  intros Hc' Hf [Hc Hr Hl Hfac Hcov Hu He]. split; [done..| | |done|].
  - intros s Hs. by apply Hf, Hfac.
  - intros u Hu'. by apply Hcov, Hf.
  - intros s u c Hs Hcs. specialize (He s u c Hs Hcs). destruct (E s c); [done|]. by rewrite <-Hf.
Qed.

(** Renumbering the states with words *)
Section rename.
Context D E L w P (Hok : automaton_ok D E L w P).
Context (D' : nat → Prop) (E' : nat → nat → option nat) (L' : nat → option nat) (g : nat → nat).
Context (Hroot : D' 0 ∧ g 0 = 0) (Hlive : ∀ t, D' t → D (g t) ∧ live L w (g t)).
Context (Hinj : ∀ t t', D' t → D' t' → g t = g t' → t = t').
Context (Hsurj : ∀ s, D s → live L w s → ∃ t, D' t ∧ g t = s).
Context (HE : ∀ t c, D' t → match E (g t) c with Some s => ∃ t', E' t c = Some t' ∧ D' t' ∧ g t' = s | None => E' t c = None end).
Context (HL : ∀ t, D' t → match L (g t) with Some l => ∃ t', L' t = Some t' ∧ D' t' ∧ g t' = l | None => L' t = None end).

Lemma rename_class t u : D' t → class L' (λ t, w (g t)) t u ↔ class L w (g t) u.
Proof.
  intros Ht. pose proof (HL t Ht) as Hl. unfold class. destruct (L (g t)) as [l|].
  - destruct Hl as (t' & -> & _ & El). split; intros [Hu Hlen]; (split; [done|]); intros l' [= <-].
    + rewrite <-El. by apply Hlen.
    + rewrite El. by apply Hlen.
  - rewrite Hl. by split; intros [Hu _].
Qed.

Lemma rename_ok : automaton_ok D' E' L' (λ t, w (g t)) P.
Proof.
  destruct Hroot as [H0 Hg0], (ao_root _ _ _ _ _ Hok) as (_ & Hw0 & HL0). split.
  - apply Hok.
  - split_and!; [done|by rewrite Hg0|]. specialize (HL 0 H0). rewrite Hg0, HL0 in HL. exact HL.
  - intros t Ht Ht0. destruct (Hlive t Ht) as [HDt _].
    assert (g t ≠ 0) as Hgt by (intros Eg; apply Ht0, Hinj; [done..|congruence]).
    destruct (ao_link _ _ _ _ _ Hok (g t) HDt Hgt) as (l & El & HDl & Hsuf & Hl). pose proof (HL t Ht) as Hlt. rewrite El in Hlt.
    destruct Hlt as (t' & Et' & Ht' & Eg). exists t'. split; [done|]. split; [done|]. split; [by rewrite Eg|]. apply rename_class; [done|]. by rewrite Eg.
  - intros t Ht. apply (ao_factor _ _ _ _ _ Hok). by apply Hlive.
  - intros u (s & Hs & Hc)%(ao_cover _ _ _ _ _ Hok). destruct (Hsurj s Hs) as (t & Ht & Eg); [by eapply class_live|].
    exists t. split; [done|]. apply rename_class; [done|]. by rewrite Eg.
  - intros t t' u Ht Ht'. rewrite !rename_class by done. intros Hc Hc'. apply Hinj; [done..|].
    by apply (ao_unique _ _ _ _ _ Hok _ _ u); [apply Hlive|apply Hlive|..].
  - intros t u c Ht. rewrite rename_class by done. intros Hc. pose proof (ao_edge _ _ _ _ _ Hok (g t) u c (proj1 (Hlive t Ht)) Hc) as He.
    pose proof (HE t c Ht) as Het. destruct (E (g t) c) as [s|]; [|by rewrite Het]. destruct Het as (t' & -> & Ht' & Eg).
    split; [done|]. apply rename_class; [done|]. rewrite Eg. apply He.
Qed.

End rename.
