(* ===== verification/SuffixAutomaton.v ===== *)
(** * The suffix automaton: nodes and online construction

    [SuffixNode] and [SuffixAutomatonInner::extend] of
    src/src/suffix_automaton/core/node.rs and inner.rs.  Lengths and counts stay below
    the number of bytes of the texts, which fits a [usize].  The walks along suffix
    links run on fuel: the lengths of the states decrease along the links, except for
    the first step from a state without words. *)

From stdpp Require Import prelude sorting.
From S2P Require Import Prelude Edges Tree SuffixClasses.

Section nodes.
Context {V : Type}.

Record SuffixNode := mkSuffixNode {
  sx_edges : list (nat * nat);
  sx_link : option nat;
  sx_max_length : nat;
  sx_final : bool;
  sx_value : option V;
}.

Implicit Types nodes : list SuffixNode.

Definition SuffixNode_root : SuffixNode := mkSuffixNode [] None 0 false None.
Definition SuffixNode_new (max_length : nat) : SuffixNode := mkSuffixNode [] None max_length false None.

Definition find_edge (n : SuffixNode) (label : nat) : option nat := find_in_edges 16 (sx_edges n) label.

Definition set_edges (n : SuffixNode) (edges : list (nat * nat)) : SuffixNode :=
  mkSuffixNode edges (sx_link n) (sx_max_length n) (sx_final n) (sx_value n).
Definition set_link (n : SuffixNode) (link : option nat) : SuffixNode :=
  mkSuffixNode (sx_edges n) link (sx_max_length n) (sx_final n) (sx_value n).

Definition add_edge (n : SuffixNode) (label target : nat) : exec SuffixNode :=
  edges ← with_edge (sx_edges n) label target;
  Ret (set_edges n edges).

Definition update_edge (n : SuffixNode) (label new_target : nat) : SuffixNode * bool :=
  match list_find (λ e, e.1 = label) (sx_edges n) with
  | Some (idx, (l, _)) => (set_edges n (<[idx := (l, new_target)]> (sx_edges n)), true)
  | None => (n, false)
  end.

(** The first loop of [extend] *)
Fixpoint add_edges_back (fuel : nat) (nodes : list SuffixNode) (p : option nat) (unit cur : nat) :
    exec (list SuffixNode * option nat) :=
  match p with
  | None => Ret (nodes, None)
  | Some p_idx =>
      match fuel with
      | O => Panic
      | S fuel =>
          n ← nodes !! p_idx;
          match find_edge n unit with
          | Some _ => Ret (nodes, Some p_idx)
          | None =>
              n ← add_edge n unit cur;
              nodes ← store nodes p_idx n;
              add_edges_back fuel nodes (sx_link n) unit cur
          end
      end
  end.

(** The second loop *)
Fixpoint redirect_edges (fuel : nat) (nodes : list SuffixNode) (p2 : option nat) (unit q clone : nat) :
    exec (list SuffixNode) :=
  match p2 with
  | None => Ret nodes
  | Some p2_idx =>
      match fuel with
      | O => Panic
      | S fuel =>
          n ← nodes !! p2_idx;
          match find_edge n unit with
          | Some target =>
              if target =? q then
                let n := fst (update_edge n unit clone) in
                nodes ← store nodes p2_idx n;
                redirect_edges fuel nodes (sx_link n) unit q clone
              else Ret nodes
          | None => Ret nodes
          end
      end
  end.

(** [extend] on the nodes and the last state *)
Definition extend (nodes : list SuffixNode) (last_state unit : nat) : exec (list SuffixNode * nat) :=
  let cur := length nodes in
  last ← nodes !! last_state;
  let new_node := mkSuffixNode [] None (sx_max_length last + 1) true None in
  let nodes := nodes ++ [new_node] in
  '(nodes, p) ← add_edges_back (sx_max_length last + 2) nodes (Some last_state) unit cur;
  nodes ←
    match p with
    | Some p_idx =>
        pn ← nodes !! p_idx;
        q ← find_edge pn unit;
        qn ← nodes !! q;
        cn ← nodes !! cur;
        if sx_max_length pn + 1 =? sx_max_length qn then store nodes cur (set_link cn (Some q))
        else
          let clone := length nodes in
          let nodes := nodes ++ [mkSuffixNode (sx_edges qn) (sx_link qn) (sx_max_length pn + 1) true (sx_value qn)] in
          nodes ← store nodes cur (set_link cn (Some clone));
          qn ← nodes !! q;
          nodes ← store nodes q (set_link qn (Some clone));
          redirect_edges (sx_max_length pn + 1) nodes (Some p_idx) unit q clone
    | None =>
        cn ← nodes !! cur;
        store nodes cur (set_link cn (Some 0))
    end;
  Ret (nodes, cur).

(** ** The automaton of the nodes *)

Definition edge_of (nodes : list SuffixNode) (s c : nat) : option nat :=
  match nodes !! s with Some n => edge_get c (sx_edges n) | None => None end.
Definition link_of (nodes : list SuffixNode) (s : nat) : option nat := nodes !! s ≫= sx_link.
Definition state_of (nodes : list SuffixNode) (s : nat) : Prop := s < length nodes.

(** Edges are sorted, lengths are those of the words, and all states but the root are
    final and have a nonempty word. *)
Definition nodes_ok (w : nat → list nat) (nodes : list SuffixNode) : Prop :=
  ∀ s n, nodes !! s = Some n →
    StronglySorted lt (sx_edges n).*1 ∧ sx_max_length n = length (w s) ∧ (s ≠ 0 → sx_final n = true ∧ w s ≠ []).

Definition value_of (nodes : list SuffixNode) (s : nat) : option V := nodes !! s ≫= sx_value.

(** Everything but the edges *)
Definition meta (n : SuffixNode) : option nat * nat * bool * option V := (sx_link n, sx_max_length n, sx_final n, sx_value n).

Lemma find_edge_get w nodes s n c : nodes_ok w nodes → nodes !! s = Some n → find_edge n c = edge_of nodes s c.
Proof. intros Hok Hn. unfold edge_of. rewrite Hn. apply find_in_edges_get. by apply (Hok s n). Qed.

Lemma meta_lookup nodes nodes' s n : meta <$> nodes' = meta <$> nodes → nodes' !! s = Some n → ∃ n', nodes !! s = Some n' ∧ meta n = meta n'.
Proof.
  intros E Hn. assert ((meta <$> nodes') !! s = (meta <$> nodes) !! s) as Es by by rewrite E.
  rewrite !list_lookup_fmap, Hn in Es. destruct (nodes !! s) as [n'|]; [|done]. apply (inj Some) in Es. eauto.
Qed.

Lemma meta_length nodes nodes' : meta <$> nodes' = meta <$> nodes → length nodes' = length nodes.
Proof. intros E. by rewrite <-(length_fmap meta nodes'), E, length_fmap. Qed.

Lemma value_of_meta nodes nodes' s : meta <$> nodes' = meta <$> nodes → value_of nodes' s = value_of nodes s.
Proof.
  intros E. unfold value_of. destruct (nodes' !! s) as [n|] eqn:Hn.
  - destruct (meta_lookup nodes nodes' s n E Hn) as (n' & -> & [= _ _ _ Ev]). exact Ev.
  - apply lookup_ge_None in Hn. rewrite (meta_length _ _ E) in Hn. apply lookup_ge_None in Hn. by rewrite Hn.
Qed.

Lemma link_of_meta nodes nodes' s : meta <$> nodes' = meta <$> nodes → link_of nodes' s = link_of nodes s.
Proof.
  intros E. unfold link_of. destruct (nodes' !! s) as [n|] eqn:Hn.
  - destruct (meta_lookup nodes nodes' s n E Hn) as (n' & -> & [= El _ _ _]). exact El.
  - apply lookup_ge_None in Hn. rewrite (meta_length _ _ E) in Hn. apply lookup_ge_None in Hn. by rewrite Hn.
Qed.

(** Changing the edges of one node *)
Lemma set_edges_spec w nodes s n edges label target :
  nodes_ok w nodes → nodes !! s = Some n → StronglySorted lt edges.*1 →
  (∀ l, edge_get l edges = if l =? label then Some target else edge_get l (sx_edges n)) →
  let nodes' := <[s := set_edges n edges]> nodes in
  nodes_ok w nodes' ∧ meta <$> nodes' = meta <$> nodes ∧
  ∀ k d, edge_of nodes' k d = if decide (d = label ∧ k = s) then Some target else edge_of nodes k d.
Proof.
  intros Hok Hn Hs Hget nodes'. pose proof (lookup_lt_Some _ _ _ Hn) as Hlt. split_and!.
  - intros k m Hm. apply list_lookup_insert_Some in Hm as [(<- & <- & _)|[_ Hm]]; [|by apply Hok].
    split; [done|]. by apply (Hok s n).
  - unfold nodes'. rewrite list_fmap_insert. apply list_insert_id. by rewrite list_lookup_fmap, Hn.
  - intros k d. unfold edge_of, nodes'. destruct (decide (k = s)) as [->|Hne].
    + rewrite list_lookup_insert_eq, Hn by done. cbn. rewrite Hget.
      destruct (Nat.eqb_spec d label) as [->|Hd]; [by rewrite decide_True|]. rewrite decide_False by tauto. done.
    + rewrite list_lookup_insert_ne by done. by rewrite decide_False by tauto.
Qed.

Lemma add_edge_spec w nodes s n label target :
  nodes_ok w nodes → nodes !! s = Some n →
  ∃ n', add_edge n label target = Ret n' ∧ sx_link n' = sx_link n ∧
    let nodes' := <[s := n']> nodes in
    nodes_ok w nodes' ∧ meta <$> nodes' = meta <$> nodes ∧
    ∀ k d, edge_of nodes' k d = if decide (d = label ∧ k = s) then Some target else edge_of nodes k d.
Proof.
  intros Hok Hn. destruct (Hok s n Hn) as [Hs _]. unfold add_edge.
  destruct (with_edge_spec (sx_edges n) label target Hs) as (edges & -> & Hs' & Hget & _).
  eexists. split; [done|]. split; [done|]. by apply set_edges_spec.
Qed.

Lemma update_edge_spec w nodes s n label target t0 :
  nodes_ok w nodes → nodes !! s = Some n → edge_of nodes s label = Some t0 →
  ∃ n', update_edge n label target = (n', true) ∧ sx_link n' = sx_link n ∧
    let nodes' := <[s := n']> nodes in
    nodes_ok w nodes' ∧ meta <$> nodes' = meta <$> nodes ∧
    ∀ k d, edge_of nodes' k d = if decide (d = label ∧ k = s) then Some target else edge_of nodes k d.
Proof.
  intros Hok Hn Ht. destruct (Hok s n Hn) as [Hs _]. unfold edge_of in Ht. rewrite Hn in Ht. apply edge_get_in in Ht.
  unfold update_edge. destruct (list_find (λ e, e.1 = label) (sx_edges n)) as [[idx [l t1]]|] eqn:Ef.
  - apply list_find_Some in Ef as (Hidx & El & _). cbn in El. subst l. eexists. split; [done|]. split; [done|].
    apply set_edges_spec; [done..| |].
    + rewrite list_fmap_insert. cbn. rewrite list_insert_id; [done|]. by rewrite list_lookup_fmap, Hidx.
    + intros l. by apply edge_get_replace with t1.
  - apply list_find_None in Ef. rewrite Forall_forall in Ef. by destruct (Ef _ Ht).
Qed.

(** ** The walks along the links *)

Section walks.
Context (w : nat → list nat) (Dom : nat → Prop) (rank : nat → nat).

(** The links lead down in [rank]. *)
Definition descending (nodes : list SuffixNode) : Prop :=
  ∀ s, Dom s → s < length nodes ∧ ∀ l, link_of nodes s = Some l → Dom l ∧ rank l < rank s.

Lemma descending_meta nodes nodes' : meta <$> nodes' = meta <$> nodes → descending nodes → descending nodes'.
Proof.
  intros E Hd s Hs. rewrite (meta_length _ _ E). destruct (Hd s Hs) as [? Hl]. split; [done|]. intros l.
  rewrite (link_of_meta _ _ _ E). apply Hl.
Qed.

Lemma links_rank nodes s vs a : descending nodes → Dom s → links (link_of nodes) (Some s) vs (Some a) → Dom a ∧ rank a ≤ rank s.
Proof.
  intros Hd. revert s. induction vs as [|v vs IH]; intros s Hs Hl; inversion Hl as [|? ? ? Hl']; subst; [done|].
  destruct (link_of nodes v) as [l|] eqn:El; [|inversion Hl']. destruct (Hd v Hs) as [_ Hlink]. destruct (Hlink l El) as [HDl ?].
  destruct (IH l HDl Hl'). split; [done|lia].
Qed.

Lemma links_meta nodes nodes' o vs p : meta <$> nodes' = meta <$> nodes → links (link_of nodes') o vs p → links (link_of nodes) o vs p.
Proof. intros Hmeta Hl. induction Hl as [|k vs p Hk IH]; constructor. by rewrite <-(link_of_meta _ _ k Hmeta). Qed.

Lemma add_edges_back_spec fuel nodes s unit cur :
  nodes_ok w nodes → descending nodes → Dom s → rank s < fuel →
  ∃ nodes' vs p, add_edges_back fuel nodes (Some s) unit cur = Ret (nodes', p) ∧
    links (link_of nodes) (Some s) vs p ∧ (∀ k, k ∈ vs → edge_of nodes k unit = None) ∧
    (∀ a, p = Some a → is_Some (edge_of nodes a unit)) ∧
    nodes_ok w nodes' ∧ meta <$> nodes' = meta <$> nodes ∧
    ∀ k d, edge_of nodes' k d = if decide (d = unit ∧ k ∈ vs) then Some cur else edge_of nodes k d.
Proof.
  revert nodes s. induction fuel as [|fuel IH]; intros nodes s Hok Hd Hs Hr; [lia|]. cbn [add_edges_back].
  destruct (Hd s Hs) as [Hlt Hlink]. destruct (lookup_lt_is_Some_2 nodes s Hlt) as [n Hn]. rewrite Hn. cbn [mbind option_bind].
  rewrite (find_edge_get w nodes s n unit Hok Hn). destruct (edge_of nodes s unit) as [t|] eqn:He.
  { exists nodes, [], (Some s). split_and!; [done|constructor|by intros k Hk%elem_of_nil|intros a [= <-]; by rewrite He|done..|].
    intros k d. rewrite decide_False; [done|]. by intros [_ Hk%elem_of_nil]. }
  destruct (add_edge_spec w nodes s n unit cur Hok Hn) as (n' & -> & El & Hok1 & Hmeta1 & He1). cbn [mbind option_bind].
  rewrite store_Some by done. cbn [mbind option_bind]. set (nodes1 := <[s := n']> nodes) in *. rewrite El.
  assert (link_of nodes s = sx_link n) as Elink by (unfold link_of; by rewrite Hn).
  destruct (sx_link n) as [l|] eqn:Hl.
  - destruct (Hlink l Elink) as [HDl Hrl].
    destruct (IH nodes1 l Hok1 (descending_meta _ _ Hmeta1 Hd) HDl) as (nodes' & vs & p & E & Hlinks & Hnone & Hp & Hok' & Hmeta' & He'); [lia|].
    assert (s ∉ vs) as Hnot. { intros Hin%Hnone. rewrite He1, decide_True in Hin by done. done. }
    exists nodes', (s :: vs), p. split_and!; [done| | | |done|by rewrite Hmeta'|].
    + constructor. rewrite Elink. by eapply links_meta.
    + intros k [->|Hk]%elem_of_cons; [done|]. pose proof (Hnone k Hk) as Hk'. rewrite He1, decide_False in Hk'; [done|]. by intros [_ ->].
    + intros a Ha. specialize (Hp a Ha). rewrite He1 in Hp. case_decide as Hc; [|done]. destruct Hc as [_ ->].
      subst p. apply (links_rank nodes1) in Hlinks as [_ ?]; [lia|by eapply descending_meta|done].
    + intros k d. rewrite He'. rewrite He1. destruct (decide (d = unit)) as [->|]; [|by rewrite !decide_False by tauto].
      destruct (decide (k = s)) as [->|].
      * rewrite (decide_False (P := _ ∧ s ∈ vs)), !decide_True; [done|by split; [|left]|done|by intros [_ ?]].
      * destruct (decide (k ∈ vs)); [rewrite !decide_True; [done|by split; [|right]|done]|]. rewrite !decide_False; [done|set_solver..].
  - exists nodes1, [s], None. cbn. split_and!; [by destruct fuel|constructor; rewrite Elink; constructor|by intros k ->%list_elem_of_singleton|done..|].
    intros k d. rewrite He1. destruct (decide (d = unit ∧ k = s)) as [[-> ->]|Hn0]; [rewrite decide_True by set_solver; done|].
    rewrite decide_False; [done|set_solver].
Qed.

Lemma redirect_edges_spec fuel nodes s unit q clone :
  nodes_ok w nodes → descending nodes → Dom s → rank s < fuel → q ≠ clone →
  ∃ nodes' rs b, redirect_edges fuel nodes (Some s) unit q clone = Ret nodes' ∧
    links (link_of nodes) (Some s) rs b ∧ (∀ k, k ∈ rs → edge_of nodes k unit = Some q) ∧
    (∀ k, b = Some k → edge_of nodes k unit ≠ Some q) ∧
    nodes_ok w nodes' ∧ meta <$> nodes' = meta <$> nodes ∧
    ∀ k d, edge_of nodes' k d = if decide (d = unit ∧ k ∈ rs) then Some clone else edge_of nodes k d.
Proof.
  intros Hok Hd Hs Hr Hqc. revert nodes s Hok Hd Hs Hr. induction fuel as [|fuel IH]; intros nodes s Hok Hd Hs Hr; [lia|].
  cbn [redirect_edges].
  destruct (Hd s Hs) as [Hlt Hlink]. destruct (lookup_lt_is_Some_2 nodes s Hlt) as [n Hn]. rewrite Hn. cbn [mbind option_bind].
  rewrite (find_edge_get w nodes s n unit Hok Hn).
  assert (edge_of nodes s unit ≠ Some q → ∃ nodes' rs b, Ret nodes = Ret nodes' ∧
    links (link_of nodes) (Some s) rs b ∧ (∀ k, k ∈ rs → edge_of nodes k unit = Some q) ∧
    (∀ k, b = Some k → edge_of nodes k unit ≠ Some q) ∧ nodes_ok w nodes' ∧ meta <$> nodes' = meta <$> nodes ∧
    ∀ k d, edge_of nodes' k d = if decide (d = unit ∧ k ∈ rs) then Some clone else edge_of nodes k d) as Hstop.
  { intros Hne. exists nodes, [], (Some s). split_and!; [done|constructor|by intros k Hk%elem_of_nil|by intros k [= <-]|done..|].
    intros k d. rewrite decide_False; [done|]. by intros [_ Hk%elem_of_nil]. }
  destruct (edge_of nodes s unit) as [t|] eqn:He; [|by apply Hstop]. destruct (Nat.eqb_spec t q) as [->|Hne]; [|apply Hstop; congruence].
  clear Hstop. destruct (update_edge_spec w nodes s n unit clone q Hok Hn He) as (n' & -> & El & Hok1 & Hmeta1 & He1). cbn [fst].
  rewrite store_Some by done. cbn [mbind option_bind]. set (nodes1 := <[s := n']> nodes) in *. rewrite El.
  assert (link_of nodes s = sx_link n) as Elink by (unfold link_of; by rewrite Hn).
  destruct (sx_link n) as [l|] eqn:Hl.
  - destruct (Hlink l Elink) as [HDl Hrl].
    destruct (IH nodes1 l Hok1 (descending_meta _ _ Hmeta1 Hd) HDl) as (nodes' & rs & b & E & Hlinks & Hrs & Hb & Hok' & Hmeta' & He'); [lia|].
    assert (s ∉ rs) as Hnot. { intros Hin%Hrs. rewrite He1, decide_True in Hin by done. congruence. }
    exists nodes', (s :: rs), b. split_and!; [done| | | |done|by rewrite Hmeta'|].
    + constructor. rewrite Elink. by eapply links_meta.
    + intros k [->|Hk]%elem_of_cons; [done|]. pose proof (Hrs k Hk) as Hk'. rewrite He1, decide_False in Hk'; [done|]. by intros [_ ->].
    + intros k Hk. specialize (Hb k Hk). rewrite He1 in Hb. case_decide as Hc; [|done]. destruct Hc as [_ ->].
      subst b. apply (links_rank nodes1) in Hlinks as [_ ?]; [lia|by eapply descending_meta|done].
    + intros k d. rewrite He'. rewrite He1. destruct (decide (d = unit)) as [->|]; [|by rewrite !decide_False by tauto].
      destruct (decide (k = s)) as [->|].
      * rewrite (decide_False (P := _ ∧ s ∈ rs)), !decide_True; [done|by split; [|left]|done|by intros [_ ?]].
      * destruct (decide (k ∈ rs)); [rewrite !decide_True; [done|by split; [|right]|done]|]. rewrite !decide_False; [done|set_solver..].
  - exists nodes1, [s], None. cbn. split_and!; [by destruct fuel|constructor; rewrite Elink; constructor|by intros k ->%list_elem_of_singleton|done..|].
    intros k d. rewrite He1. destruct (decide (d = unit ∧ k = s)) as [[-> ->]|Hn0]; [rewrite decide_True by set_solver; done|].
    rewrite decide_False; [done|set_solver].
Qed.

End walks.

(** ** Extending the automaton *)

Lemma edge_of_snoc nodes n s d : sx_edges n = [] → edge_of (nodes ++ [n]) s d = edge_of nodes s d.
Proof.
  intros En. unfold edge_of. destruct (decide (s < length nodes)) as [Hlt|Hge]; [by rewrite lookup_app_l|].
  rewrite (lookup_ge_None_2 nodes s) by lia. destruct ((nodes ++ [n]) !! s) as [m|] eqn:Em; [|done].
  apply lookup_app_Some in Em as [Em%lookup_lt_Some|[_ Em]]; [lia|]. apply list_lookup_singleton_Some in Em as [_ <-]. by rewrite En.
Qed.

Lemma link_of_snoc nodes n s : link_of (nodes ++ [n]) s = upd (link_of nodes) (length nodes) (sx_link n) s.
Proof.
  unfold upd, link_of. case_decide as Hs; [subst s; by rewrite list_lookup_middle|].
  destruct (decide (s < length nodes)) as [Hlt|Hge]; [by rewrite lookup_app_l|].
  rewrite (lookup_ge_None_2 nodes s) by lia. by rewrite (lookup_ge_None_2 (nodes ++ [n])) by (rewrite length_app; cbn; lia).
Qed.

Lemma edge_of_copy nodes n s d q m :
  nodes !! q = Some m → sx_edges n = sx_edges m →
  edge_of (nodes ++ [n]) s d = if decide (s = length nodes) then edge_of nodes q d else edge_of nodes s d.
Proof.
  intros Hq En. unfold edge_of. case_decide as Hs; [subst s; by rewrite list_lookup_middle, Hq, En|].
  destruct (decide (s < length nodes)) as [Hlt|Hge]; [by rewrite lookup_app_l|].
  rewrite (lookup_ge_None_2 nodes s) by lia. by rewrite (lookup_ge_None_2 (nodes ++ [n])) by (rewrite length_app; cbn; lia).
Qed.

Lemma nodes_ok_snoc w nodes n x :
  nodes_ok w nodes → StronglySorted lt (sx_edges n).*1 → sx_max_length n = length x → sx_final n = true → x ≠ [] → 0 < length nodes →
  nodes_ok (upd w (length nodes) x) (nodes ++ [n]).
Proof.
  intros Hok Hs Hlen Hf Hx Hpos s m Hm. apply lookup_app_Some in Hm as [Hm|[Hge Hm]].
  - rewrite upd_ne by (apply lookup_lt_Some in Hm; lia). by apply Hok.
  - apply list_lookup_singleton_Some in Hm as [Hz <-]. assert (s = length nodes) as -> by lia. rewrite upd_eq.
    split_and!; [done..|]. by intros _.
Qed.

Lemma set_link_spec w nodes s n l :
  nodes_ok w nodes → nodes !! s = Some n →
  let nodes' := <[s := set_link n (Some l)]> nodes in
  store nodes s (set_link n (Some l)) = Ret nodes' ∧ nodes_ok w nodes' ∧ length nodes' = length nodes ∧
  (∀ k d, edge_of nodes' k d = edge_of nodes k d) ∧ (∀ k, link_of nodes' k = upd (link_of nodes) s (Some l) k) ∧
  ∀ k, value_of nodes' k = value_of nodes k.
Proof.
  intros Hok Hn nodes'. pose proof (lookup_lt_Some _ _ _ Hn) as Hlt. split_and!.
  - by apply store_Some.
  - intros k m Hm. apply list_lookup_insert_Some in Hm as [(<- & <- & _)|[_ Hm]]; [exact (Hok s n Hn)|by apply Hok].
  - apply length_insert.
  - intros k d. unfold edge_of, nodes'. destruct (decide (k = s)) as [->|]; [by rewrite list_lookup_insert_eq, Hn|by rewrite list_lookup_insert_ne].
  - intros k. unfold link_of, upd, nodes'. case_decide as Hk; [subst k; by rewrite list_lookup_insert_eq|by rewrite list_lookup_insert_ne].
  - intros k. unfold value_of, nodes'. destruct (decide (k = s)) as [->|]; [by rewrite list_lookup_insert_eq, Hn|by rewrite list_lookup_insert_ne].
Qed.

Lemma value_of_snoc nodes n s : value_of (nodes ++ [n]) s = if decide (s = length nodes) then sx_value n else value_of nodes s.
Proof.
  unfold value_of. case_decide as Hs; [subst s; by rewrite list_lookup_middle|].
  destruct (decide (s < length nodes)) as [Hlt|Hge]; [by rewrite lookup_app_l|].
  rewrite (lookup_ge_None_2 nodes s) by lia. by rewrite (lookup_ge_None_2 (nodes ++ [n])) by (rewrite length_app; cbn; lia).
Qed.

Lemma links_agree L L' (Dom : nat → Prop) s vs p :
  (∀ k, Dom k → L' k = L k ∧ ∀ l, L k = Some l → Dom l) → Dom s → links L' (Some s) vs p → links L (Some s) vs p ∧ ∀ k, k ∈ vs ∨ p = Some k → Dom k.
Proof.
  intros Hd. revert s. induction vs as [|v vs IH]; intros s Hs Hl; inversion Hl as [|? ? ? Hl']; subst.
  { split; [constructor|]. intros k [Hk%elem_of_nil|[= <-]]; done. }
  destruct (Hd v Hs) as [E Hlink]. rewrite E in Hl'. destruct (L v) as [l|] eqn:El.
  - destruct (IH l (Hlink l eq_refl) Hl') as [Hl1 Hin]. split; [constructor; by rewrite El|].
    intros k [[->|Hk]%elem_of_cons|Hk]; [done|apply Hin..]; auto.
  - inversion Hl'; subst. split; [constructor; rewrite El; constructor|]. intros k [->%list_elem_of_singleton|[=]]. done.
Qed.

Definition automaton (w : nat → list nat) (P : list nat → Prop) nodes : Prop :=
  nodes_ok w nodes ∧ automaton_ok (state_of nodes) (edge_of nodes) (link_of nodes) w P.

Section extend.
Context (w : nat → list nat) (P : list nat → Prop) (nodes : list SuffixNode) (Hauto : automaton w P nodes).
Context (last c : nat) (Hlast : last < length nodes) (Hx : P (w last)).
Context (Hedges : live (link_of nodes) w last ∨ ∀ d, edge_of nodes last d = None).

Let Hok : nodes_ok w nodes := proj1 Hauto.
Let Ha := proj2 Hauto.
Let cur := length nodes.
Let x' := w last ++ [c].

Definition rank (s : nat) : nat :=
  match link_of nodes s with
  | Some l => if length (w l) <? length (w s) then length (w s) else S (length (w s))
  | None => length (w s)
  end.

Lemma rank_link s l : s < length nodes → link_of nodes s = Some l → l < length nodes ∧ rank l < rank s.
Proof.
  intros Hs El. assert (s ≠ 0) as Hs0 by (intros ->; destruct (ao_root _ _ _ _ _ Ha) as (_ & _ & ?); congruence).
  destruct (ao_link _ _ _ _ _ Ha s Hs Hs0) as (l' & El' & HDl & Hsuf & [_ Hlive]). rewrite El in El'. injection El' as <-.
  split; [done|]. unfold rank. rewrite El. apply suffix_length in Hsuf.
  assert (match link_of nodes l with Some k => if length (w k) <? length (w l) then length (w l) else S (length (w l)) | None => length (w l) end = length (w l)) as ->.
  { destruct (link_of nodes l) as [k|] eqn:Ek; [|done]. by rewrite (proj2 (Nat.ltb_lt _ _)) by (by apply Hlive). }
  destruct (Nat.ltb_spec (length (w l)) (length (w s))); lia.
Qed.

Lemma rank_bound s : rank s ≤ length (w s) + 1.
Proof. unfold rank. destruct (link_of nodes s); [destruct (_ <? _)|]; lia. Qed.

Definition new_node : SuffixNode := mkSuffixNode [] None (length (w last) + 1) true None.

(** The first loop and the state it stops at *)
Lemma extend_walk :
  ∃ nodes1 vs p, add_edges_back (length (w last) + 2) (nodes ++ [new_node]) (Some last) c cur = Ret (nodes1, p) ∧
    links (link_of nodes) (Some last) vs p ∧ (∀ s, s ∈ vs → s < length nodes ∧ edge_of nodes s c = None) ∧
    (∀ a, p = Some a → a < length nodes ∧ live (link_of nodes) w a ∧ ∃ q, edge_of nodes a c = Some q ∧ q < length nodes ∧
      class (link_of nodes) w q (w a ++ [c])) ∧
    nodes_ok (upd w cur x') nodes1 ∧ length nodes1 = S cur ∧ (∀ s, link_of nodes1 s = link_of nodes s) ∧
    (∃ n, nodes1 !! cur = Some n) ∧ (∀ s, value_of nodes1 s = value_of nodes s) ∧
    ∀ s d, edge_of nodes1 s d = if decide (d = c ∧ s ∈ vs) then Some cur else edge_of nodes s d.
Proof.
  set (nodes0 := nodes ++ [new_node]).
  assert (∀ s, link_of nodes0 s = link_of nodes s) as Hlink0.
  { intros s. unfold nodes0. rewrite link_of_snoc. unfold upd. case_decide as Hs; [|done]. subst s.
    unfold link_of. by rewrite lookup_ge_None_2. }
  assert (nodes_ok (upd w cur x') nodes0) as Hok0.
  { apply nodes_ok_snoc; [done|constructor| |done|by destruct (w last)|lia]. unfold x'. rewrite length_app. done. }
  assert (∀ s d, edge_of nodes0 s d = edge_of nodes s d) as He0 by (intros; by apply edge_of_snoc).
  destruct (add_edges_back_spec (upd w cur x') (state_of nodes) rank (length (w last) + 2) nodes0 last c cur Hok0)
    as (nodes1 & vs & p & E & Hlinks & Hnone & Hp & Hok1 & Hmeta & He).
  { intros s Hs. split; [unfold nodes0; rewrite length_app; cbn; unfold state_of in Hs; lia|]. intros l. rewrite Hlink0. by apply rank_link. }
  { done. }
  { pose proof (rank_bound last). lia. }
  assert (links (link_of nodes) (Some last) vs p ∧ ∀ k, k ∈ vs ∨ p = Some k → k < length nodes) as [Hlinks' HD].
  { apply (links_agree _ (link_of nodes0) (state_of nodes)); [|done..]. intros k Hk. split; [apply Hlink0|]. intros l El. by apply (rank_link k). }
  pose proof (meta_length _ _ Hmeta) as Hlen. unfold nodes0 in Hlen. rewrite length_app in Hlen. cbn in Hlen.
  exists nodes1, vs, p. split_and!; [done..| | |done|unfold cur; lia| | | |].
  - intros s Hs. split; [apply HD; by left|]. rewrite <-He0. by apply Hnone.
  - intros a Ea. assert (a < length nodes) as HDa by (apply HD; by right). split; [done|].
    destruct (Hp a Ea) as [q Hq]. rewrite He0 in Hq.
    assert (live (link_of nodes) w a) as Hal.
    { destruct (anc_ok _ _ _ _ _ Ha last a Hlast) as (_ & _ & [Eal|?]); [|rewrite Eal in *|done].
      - apply (links_end _ last vs). by rewrite <-Ea.
      - destruct Hedges as [|Hn]; [done|]. by rewrite Hn in Hq. }
    split; [done|]. exists q. pose proof (ao_edge _ _ _ _ _ Ha a (w a) c HDa Hal) as Hedge. by rewrite Hq in Hedge.
  - intros s. rewrite (link_of_meta _ _ _ Hmeta). apply Hlink0.
  - apply lookup_lt_is_Some. unfold cur. lia.
  - intros s. rewrite (value_of_meta _ _ _ Hmeta). unfold nodes0. rewrite value_of_snoc. case_decide as Hs; [|done].
    subst s. unfold value_of. by rewrite lookup_ge_None_2.
  - intros s d. by rewrite He, He0.
Qed.

(** What an extension gives *)
Definition extended (nodes' : list SuffixNode) (w' : nat → list nat) : Prop :=
  automaton w' (λ z, P z ∨ z = x') nodes' ∧ cur < length nodes' ∧ w' cur = x' ∧ (∀ d, edge_of nodes' cur d = None) ∧
  value_of nodes' cur = None ∧
  (∀ s, s < length nodes → w' s = w s ∧ (live (link_of nodes') w' s ↔ live (link_of nodes) w s)) ∧
  ∀ s u, s < length nodes' → class (link_of nodes') w' s u →
    (s = cur ∧ ¬ factor P u) ∨
    (s ≠ cur ∧ ∃ s0, s0 < length nodes ∧ class (link_of nodes) w s0 u ∧ value_of nodes' s = value_of nodes s0).

(** Without a split *)
Lemma extend_linked nodes1 vs p r n :
  links (link_of nodes) (Some last) vs p → (∀ s, s ∈ vs → s < length nodes ∧ edge_of nodes s c = None) →
  match p with None => r = 0 | Some a => live (link_of nodes) w a ∧ edge_of nodes a c = Some r ∧ w r = w a ++ [c] end →
  r < length nodes → live (link_of nodes) w r →
  nodes_ok (upd w cur x') nodes1 → length nodes1 = S cur → (∀ s, link_of nodes1 s = link_of nodes s) →
  (∀ s, value_of nodes1 s = value_of nodes s) → nodes1 !! cur = Some n →
  (∀ s d, edge_of nodes1 s d = if decide (d = c ∧ s ∈ vs) then Some cur else edge_of nodes s d) →
  ∃ nodes', store nodes1 cur (set_link n (Some r)) = Ret nodes' ∧ extended nodes' (upd w cur x').
Proof.
  intros Hlinks Hvs Hp Hr Hlive Hok1 Hlen1 Hlink1 Hval1 Hn He1.
  destruct (set_link_spec _ nodes1 cur n r Hok1 Hn) as (-> & Hok2 & Hlen2 & He2 & Hlink2 & Hval2).
  set (nodes' := <[cur := set_link n (Some r)]> nodes1) in *. eexists. split; [done|].
  assert (¬ state_of nodes cur) as Hfresh by (unfold state_of, cur; lia).
  assert (∀ d, edge_of nodes cur d = None) as Hcur by (intros d; unfold edge_of; by rewrite lookup_ge_None_2).
  assert (cur ∉ vs) as Hnot by (intros [? _]%Hvs; unfold cur in *; lia).
  assert (∀ s d, add_edges (edge_of nodes) c vs cur s d = edge_of nodes' s d) as HE.
  { intros s d. rewrite He2, He1. unfold add_edges. case_decide as Hs; [|done]. subst s. by rewrite decide_False by tauto. }
  assert (∀ s, upd (link_of nodes) cur (Some r) s = link_of nodes' s) as HL.
  { intros s. rewrite Hlink2. unfold upd. case_decide; [done|]. by rewrite Hlink1. }
  pose proof (add_ok _ _ _ _ _ Ha last c Hlast Hx vs p Hlinks (λ s Hs, proj2 (Hvs s Hs)) r Hr Hlive Hp cur Hfresh) as Hadd.
  split_and!.
  - split; [done|]. eapply automaton_ok_ext; [|exact HE|exact HL|done|exact Hadd].
    intros s. unfold state_of. rewrite Hlen2, Hlen1. unfold cur. lia.
  - lia.
  - by rewrite upd_eq.
  - intros d. rewrite <-HE. unfold add_edges. by rewrite decide_True.
  - rewrite Hval2, Hval1. unfold value_of. by rewrite lookup_ge_None_2.
  - intros s Hs. assert (upd w cur x' s = w s) as Ews by (apply upd_ne; unfold cur; lia). split; [done|]. unfold live. rewrite Ews.
    rewrite <-(add_class_old _ _ _ _ _ Ha last c r cur Hfresh s (w s) Hs). split; apply class_ext; intros; auto.
  - intros s u Hs Hc. apply (class_ext _ _ _ _ _ _ (λ s, eq_sym (HL s)) (λ s, eq_refl)) in Hc.
    destruct (decide (s = cur)) as [->|Hne].
    + left. split; [done|]. by apply (add_class_cur _ _ _ _ _ Ha last c Hlast vs p Hlinks (λ s Hs, proj2 (Hvs s Hs)) r Hr Hlive Hp cur Hfresh) in Hc as (? & _ & _ & ?).
    + right. split; [done|]. exists s. assert (s < length nodes) as Hs' by (rewrite Hlen2, Hlen1 in Hs; unfold cur in *; lia).
      split_and!; [done| |by rewrite Hval2, Hval1]. by apply (add_class_old _ _ _ _ _ Ha last c r cur Hfresh s u Hs').
Qed.

(** ** With a split *)

Lemma clone_fresh : ¬ state_of nodes (S cur).
Proof. unfold state_of, cur. lia. Qed.

Lemma cur_fresh : ¬ (state_of nodes cur ∨ cur = S cur).
Proof. unfold state_of, cur. lia. Qed.

Section split.
Context (vs : list nat) (a q : nat) (Hlinks : links (link_of nodes) (Some last) vs (Some a)).
Context (Hvs : ∀ s, s ∈ vs → s < length nodes ∧ edge_of nodes s c = None).
Context (HDa : a < length nodes) (Hal : live (link_of nodes) w a) (Hq : edge_of nodes a c = Some q).
Context (HDq : q < length nodes) (Hv : w a ++ [c] ≠ w q).
Context (rs : list nat) (b : option nat) (Hrlinks : links (link_of nodes) (Some a) rs b).
Context (Hrs : ∀ s, s ∈ rs → edge_of nodes s c = Some q) (Hb : ∀ s, b = Some s → edge_of nodes s c ≠ Some q).

Let clone := S cur.

Let Hsplit := split_ok _ _ _ _ _ Ha a c q HDa Hal Hq clone clone_fresh Hv rs b Hrlinks Hrs Hb.
Let sE := split_edges (edge_of nodes) c q clone rs.
Let sL := split_links (link_of nodes) q clone.
Let sw := split_words w a c clone.

Lemma old_word s : s < length nodes → sw s = w s.
Proof. intros Hs. unfold sw, split_words. apply upd_ne. unfold clone, cur. lia. Qed.

Lemma a_not_q : a ≠ q.
Proof.
  destruct (split_facts _ _ _ _ _ Ha a c q HDa Hal Hq clone clone_fresh Hv) as (_ & _ & Hlt & _). intros Eaq.
  assert (length (w a) = length (w q)) by (by rewrite Eaq). rewrite length_app in Hlt. lia.
Qed.

(** The automaton after the split and the new state *)
Lemma split_add :
  ∃ vs', (∀ k, k ∈ vs' ↔ k ∈ vs ∨ (k = clone ∧ q ∈ vs)) ∧
    automaton_ok (λ s, (state_of nodes s ∨ s = clone) ∨ s = cur) (add_edges sE c vs' cur) (upd sL cur (Some clone)) (upd sw cur x')
      (λ z, P z ∨ z = x') ∧
    (∀ s, s < length nodes → live (link_of nodes) w s → class (upd sL cur (Some clone)) (upd sw cur x') s (w s)) ∧
    ∀ s u, s < S (S cur) → class (upd sL cur (Some clone)) (upd sw cur x') s u →
      (s = cur ∧ ¬ factor P u) ∨ ∃ s0, s0 < length nodes ∧ class (link_of nodes) w s0 u ∧ (s0 = s ∨ s0 = q ∧ s = clone).
Proof.
  destruct (split_walk _ _ _ _ _ Ha a c q HDa Hal Hq clone clone_fresh Hv last vs a Hlast Hlinks a_not_q) as (vs' & Hl' & Hin).
  exists vs'. split; [done|].
  assert (a ∈ rs) as Hars.
  { destruct (links_split _ _ _ _ a Hrlinks (rtc_refl _ _)) as [?|(k & Ek & Hk)]; [done|]. exfalso.
    assert (anc (link_of nodes) a k) as Hak by (apply (links_end _ _ rs); by rewrite <-Ek).
    destruct (anc_ok _ _ _ _ _ Ha a k HDa Hak) as (HDk & Hka & Hkl), (anc_ok _ _ _ _ _ Ha k a HDk Hk) as (_ & Hak' & _).
    assert (k = a) as ->; [|by destruct (Hb a Ek)].
    assert (w k = w a) as Ew by (apply suffix_same_length; [done|by apply suffix_length]).
    apply (ao_unique _ _ _ _ _ Ha k a (w a)); [done..| |done]. destruct Hkl as [Eka|?]; [rewrite Eka; exact Hal|by rewrite <-Ew]. }
  assert (∀ s, s ∈ vs' → sE s c = None) as Hnone.
  { intros s [Hs|[-> Hqv]]%Hin; unfold sE, split_edges.
    - destruct (Hvs s Hs) as [Hlt Hn]. rewrite !decide_False; [done| |unfold clone, cur; lia]. intros [_ Hr%Hrs]. congruence.
    - rewrite decide_True by done. by apply Hvs. }
  assert (sE a c = Some clone) as Hac.
  { unfold sE, split_edges. rewrite decide_False by (unfold clone, cur; lia). by rewrite decide_True. }
  assert (class sL sw clone (w a ++ [c])) as Hcc.
  { apply (split_class_clone _ _ _ _ _ Ha a c q HDa Hal Hq clone clone_fresh Hv). split; [|done].
    by apply (split_target _ _ _ _ _ Ha a c q HDa Hal Hq). }
  assert (sw clone = w a ++ [c]) as Ewc by (unfold sw, split_words; by rewrite upd_eq).
  assert (live sL sw a) as Hla.
  { unfold live. rewrite old_word by done. apply (split_class_old _ _ _ _ _ Ha a c q clone clone_fresh); [done|apply a_not_q|done]. }
  assert (live sL sw clone) as Hlc by (unfold live; by rewrite Ewc).
  assert (P (sw last)) as Hxs by by rewrite old_word.
  assert (x' = sw last ++ [c]) as Ex by (unfold x'; by rewrite old_word).
  assert (live sL sw a ∧ sE a c = Some clone ∧ sw clone = sw a ++ [c]) as Hpa by (by rewrite Ewc, old_word).
  split_and!.
  - rewrite Ex. exact (add_ok _ _ _ _ _ Hsplit last c (or_introl Hlast) Hxs vs' (Some a) Hl' Hnone clone (or_intror eq_refl) Hlc Hpa cur cur_fresh).
  - intros s Hs Hl. rewrite Ex. apply (add_class_old _ _ _ _ _ Hsplit last c clone cur cur_fresh s _ (or_introl Hs)).
    by apply (split_live _ _ _ _ _ Ha a c q HDa Hal Hq clone clone_fresh Hv).
  - intros s u Hs Hc. rewrite Ex in Hc. destruct (decide (s = cur)) as [->|Hne].
    + left. split; [done|]. by apply (add_class_cur _ _ _ _ _ Hsplit last c (or_introl Hlast) vs' (Some a) Hl' Hnone clone (or_intror eq_refl) Hlc Hpa cur cur_fresh)
        in Hc as (? & _ & _ & ?).
    + right. assert (state_of nodes s ∨ s = clone) as HDs by (unfold state_of, clone, cur in *; lia).
      apply (add_class_old _ _ _ _ _ Hsplit last c clone cur cur_fresh s u HDs) in Hc.
      by apply (split_class_inv _ _ _ _ _ Ha a c q HDa Hal Hq clone clone_fresh Hv) in Hc.
Qed.

End split.

(** The nodes with the clone, before edges are redirected *)
Definition cloned nodes4 (vs : list nat) (a q : nat) : Prop :=
  nodes_ok (upd (upd w cur x') (S cur) (w a ++ [c])) nodes4 ∧ length nodes4 = S (S cur) ∧
  (∀ s d, edge_of nodes4 s d =
     let s' := if decide (s = S cur) then q else s in if decide (d = c ∧ s' ∈ vs) then Some cur else edge_of nodes s' d) ∧
  (∀ s, link_of nodes4 s = upd (split_links (link_of nodes) q (S cur)) cur (Some (S cur)) s) ∧
  (∀ s, value_of nodes4 s = if decide (s = S cur) then value_of nodes q else value_of nodes s).

Lemma clone_stored nodes1 vs a q n qn :
  q < length nodes →
  nodes_ok (upd w cur x') nodes1 → length nodes1 = S cur → (∀ s, link_of nodes1 s = link_of nodes s) →
  (∀ s, value_of nodes1 s = value_of nodes s) → nodes1 !! cur = Some n → nodes1 !! q = Some qn →
  (∀ s d, edge_of nodes1 s d = if decide (d = c ∧ s ∈ vs) then Some cur else edge_of nodes s d) →
  ∃ nodes4, cloned nodes4 vs a q ∧
    (nodes ← store (nodes1 ++ [mkSuffixNode (sx_edges qn) (sx_link qn) (length (w a) + 1) true (sx_value qn)]) cur (set_link n (Some (S cur)));
     qn ← nodes !! q;
     nodes ← store nodes q (set_link qn (Some (S cur)));
     redirect_edges (length (w a) + 1) nodes (Some a) c q (S cur)) = redirect_edges (length (w a) + 1) nodes4 (Some a) c q (S cur).
Proof.
  intros HDq Hok1 Hlen1 Hlink1 Hval1 Hn Hqn He1.
  set (cnode := mkSuffixNode _ _ _ _ _). set (clone := S cur). set (nodes2 := nodes1 ++ [cnode]). set (w2 := upd (upd w cur x') clone (w a ++ [c])).
  assert (cur ≠ q ∧ clone ≠ q ∧ clone ≠ cur) as (Hcq & Hclq & Hclc) by (unfold clone, cur; lia).
  assert (length nodes1 = clone) as Hlen1' by done.
  assert (nodes_ok w2 nodes2) as Hok2.
  { unfold w2, nodes2. rewrite <-Hlen1'. apply nodes_ok_snoc; [done|by apply (Hok1 q qn)| |done|by destruct (w a)|unfold clone in *; lia].
    rewrite length_app. done. }
  assert (nodes2 !! cur = Some n) as Hn2 by by apply lookup_app_l_Some.
  destruct (set_link_spec w2 nodes2 cur n clone Hok2 Hn2) as (-> & Hok3 & Hlen3 & He3 & Hlink3 & Hval3). cbn [mbind option_bind].
  set (nodes3 := <[cur := set_link n (Some clone)]> nodes2) in *.
  assert (nodes3 !! q = Some qn) as Hqn3.
  { unfold nodes3. rewrite list_lookup_insert_ne by done. by apply lookup_app_l_Some. }
  rewrite Hqn3. cbn [mbind option_bind].
  destruct (set_link_spec w2 nodes3 q qn clone Hok3 Hqn3) as (-> & Hok4 & Hlen4 & He4 & Hlink4 & Hval4). cbn [mbind option_bind].
  set (nodes4 := <[q := set_link qn (Some clone)]> nodes3) in *. exists nodes4. split; [|done].
  assert (link_of nodes1 q = sx_link qn) as Elq by (unfold link_of; by rewrite Hqn).
  split_and!; [done| | | |].
  - rewrite Hlen4, Hlen3. unfold nodes2. rewrite length_app, Hlen1. cbn. lia.
  - intros s d. cbn zeta. rewrite He4, He3. unfold nodes2. rewrite (edge_of_copy nodes1 cnode s d q qn), Hlen1' by done.
    fold clone. destruct (decide (s = clone)); apply He1.
  - intros s. fold clone. rewrite Hlink4. unfold split_links, upd. destruct (decide (s = q)) as [->|].
    + by rewrite !decide_False by done.
    + rewrite Hlink3. unfold upd. destruct (decide (s = cur)); [done|]. unfold nodes2. rewrite link_of_snoc, Hlen1'. unfold upd.
      destruct (decide (s = clone)); [by rewrite <-Hlink1, Elq|apply Hlink1].
  - intros s. rewrite Hval4, Hval3. unfold nodes2. rewrite value_of_snoc, Hlen1'. fold clone. case_decide; [|apply Hval1].
    cbn. rewrite <-Hval1. unfold value_of. by rewrite Hqn.
Qed.

(** The edges after both loops *)
Lemma redirected_edge (vs vs' rs : list nat) q s d :
  (∀ d, edge_of nodes cur d = None) → (∀ k, k ∈ vs' ↔ k ∈ vs ∨ (k = S cur ∧ q ∈ vs)) →
  (∀ k, k ∈ vs → k < length nodes ∧ k ∉ rs) → (∀ k, k ∈ rs → k < length nodes) →
  add_edges (split_edges (edge_of nodes) c q (S cur) rs) c vs' cur s d =
    if decide (d = c ∧ s ∈ rs) then Some (S cur)
    else let s' := if decide (s = S cur) then q else s in if decide (d = c ∧ s' ∈ vs) then Some cur else edge_of nodes s' d.
Proof.
  intros Hcur Hvs' Hvs Hrs. cbn zeta. unfold add_edges, split_edges.
  assert (cur ∉ vs) as Hcv by (intros [? _]%Hvs; unfold cur in *; lia). assert (cur ∉ rs) as Hcr by (intros ?%Hrs; unfold cur in *; lia).
  assert (S cur ∉ vs) as Hcv' by (intros [? _]%Hvs; unfold cur in *; lia). assert (S cur ∉ rs) as Hcr' by (intros ?%Hrs; unfold cur in *; lia).
  destruct (decide (s = cur)) as [->|Hsc].
  { rewrite (decide_False (P := cur = S cur)) by lia. rewrite !decide_False by tauto. done. }
  destruct (decide (s = S cur)) as [->|Hscl].
  { rewrite (decide_False (P := d = c ∧ S cur ∈ rs)) by tauto.
    destruct (decide (d = c ∧ S cur ∈ vs')) as [[-> Hin]|Hn]; [rewrite decide_True; [done|]; by apply Hvs' in Hin as [?|[_ ?]]|].
    rewrite decide_False; [done|]. intros [-> Hin]. apply Hn. split; [done|]. apply Hvs'. by right. }
  destruct (decide (d = c ∧ s ∈ rs)) as [[-> Hin]|Hn].
  - rewrite decide_False; [done|]. intros [_ [Hv|[? _]]%Hvs']; [|done]. by destruct (Hvs s Hv).
  - destruct (decide (d = c ∧ s ∈ vs)) as [[-> Hin]|Hn']; [rewrite decide_True; [done|]; split; [done|]; apply Hvs'; by left|].
    rewrite decide_False; [done|]. intros [-> [?|[? _]]%Hvs']; [|done]. by apply Hn'.
Qed.

(** Redirecting edges to the clone *)
Lemma extend_cloned nodes4 vs a q :
  cloned nodes4 vs a q →
  links (link_of nodes) (Some last) vs (Some a) → (∀ s, s ∈ vs → s < length nodes ∧ edge_of nodes s c = None) →
  a < length nodes → live (link_of nodes) w a → edge_of nodes a c = Some q → q < length nodes → w a ++ [c] ≠ w q →
  ∃ nodes' w', redirect_edges (length (w a) + 1) nodes4 (Some a) c q (S cur) = Ret nodes' ∧ extended nodes' w'.
Proof.
  intros (Hok4 & Hlen4 & He4 & Hlink4 & Hval4) Hlinks Hvs HDa Hal Hq HDq Hv. set (clone := S cur) in *.
  destruct (split_facts _ _ _ _ _ Ha a c q HDa Hal Hq clone clone_fresh Hv) as (_ & _ & Hlt & _). rewrite length_app in Hlt. cbn in Hlt.
  set (Dom s := s < length nodes ∧ live (link_of nodes) w s ∧ length (w s) ≤ length (w a)).
  assert (∀ s, Dom s → link_of nodes4 s = link_of nodes s ∧ ∀ l, link_of nodes s = Some l → Dom l ∧ length (w l) < length (w s)) as HDom.
  { intros s (Hs & Hl & Hle). split.
    - rewrite Hlink4. unfold split_links. rewrite !upd_ne; [done|intros ->; lia|unfold clone, cur; lia..].
    - intros l El. assert (s ≠ 0) as Hs0 by (intros ->; destruct (ao_root _ _ _ _ _ Ha) as (_ & _ & ?); congruence).
      destruct (ao_link _ _ _ _ _ Ha s Hs Hs0) as (l' & El' & HDl & _ & Hll). rewrite El in El'. injection El' as <-.
      destruct Hl as [_ Hl]. specialize (Hl l El). split; [|done]. split_and!; [done..|lia]. }
  destruct (redirect_edges_spec _ Dom (λ s, length (w s)) (length (w a) + 1) nodes4 a c q clone Hok4)
    as (nodes' & rs & b & E & Hrl & Hrs & Hb & Hok' & Hmeta & He').
  { intros s Hs. destruct (HDom s Hs) as [El Hl]. split; [rewrite Hlen4; destruct Hs; unfold cur; lia|]. rewrite El. exact Hl. }
  { done. } { lia. } { unfold clone, cur. lia. }
  assert (links (link_of nodes) (Some a) rs b ∧ ∀ k, k ∈ rs ∨ b = Some k → Dom k) as [Hrl' HD].
  { apply (links_agree _ (link_of nodes4) Dom); [|done..]. intros k Hk. destruct (HDom k Hk) as [? Hl]. split; [done|].
    intros l El. by apply Hl. }
  assert (∀ s, s < length nodes → edge_of nodes4 s c = if decide (s ∈ vs) then Some cur else edge_of nodes s c) as He4c.
  { intros s Hs. rewrite He4. cbn zeta. rewrite (decide_False (P := s = clone)) by (unfold clone, cur; lia).
    destruct (decide (s ∈ vs)); [by rewrite decide_True|by rewrite decide_False by tauto]. }
  assert (∀ s, s ∈ rs → edge_of nodes s c = Some q) as Hrs'.
  { intros s Hs. destruct (HD s (or_introl Hs)) as [Hlt' _]. specialize (Hrs s Hs). rewrite He4c in Hrs by done.
    case_decide; [|done]. injection Hrs as Ecq. unfold cur in Ecq. lia. }
  assert (∀ s, b = Some s → edge_of nodes s c ≠ Some q) as Hb'.
  { intros s Es Eq. destruct (HD s (or_intror Es)) as [Hlt' _]. destruct (Hb s Es). rewrite He4c by done.
    rewrite decide_False; [done|]. intros Hin%Hvs. destruct Hin. congruence. }
  destruct (split_add vs a q Hlinks Hvs HDa Hal Hq HDq Hv rs b Hrl' Hrs' Hb') as (vs' & Hvs' & Hadd & Hold & Hcl).
  exists nodes', (upd (split_words w a c clone) cur x'). split; [done|].
  assert (clone ≠ cur) as Hcc by (unfold clone; lia). pose proof (meta_length _ _ Hmeta) as Hlen'. rewrite Hlen4 in Hlen'.
  assert (∀ s, link_of nodes' s = upd (split_links (link_of nodes) q clone) cur (Some clone) s) as HL.
  { intros s. rewrite (link_of_meta _ _ _ Hmeta). apply Hlink4. }
  assert (∀ d, edge_of nodes cur d = None) as Hcur by (intros d; unfold edge_of; by rewrite lookup_ge_None_2).
  assert (∀ s d, add_edges (split_edges (edge_of nodes) c q clone rs) c vs' cur s d = edge_of nodes' s d) as HE.
  { intros s d. rewrite He', He4. apply (redirected_edge vs vs' rs q s d); [done|done| |].
    - intros k Hk. split; [by apply Hvs|]. intros Hr%Hrs'. destruct (Hvs k Hk). congruence.
    - intros k Hk. by destruct (HD k (or_introl Hk)). }
  split_and!.
  - split; [|eapply automaton_ok_ext; [|exact HE|intros s; symmetry; apply HL|done|exact Hadd]].
    + assert (∀ s, upd (upd w cur x') clone (w a ++ [c]) s = upd (split_words w a c clone) cur x' s) as Eww.
      { intros s. unfold split_words, upd. destruct (decide (s = clone)) as [->|]; [by rewrite decide_False|done]. }
      intros s m Hm. destruct (Hok' s m Hm) as (? & ? & ?). by rewrite <-Eww.
    + intros s. unfold state_of. rewrite Hlen'. unfold clone, cur. lia.
  - lia.
  - by rewrite upd_eq.
  - intros d. rewrite <-HE. unfold add_edges. by rewrite decide_True.
  - rewrite (value_of_meta _ _ _ Hmeta), Hval4. rewrite decide_False by done. unfold value_of. by rewrite lookup_ge_None_2.
  - intros s Hs. assert (upd (split_words w a c clone) cur x' s = w s) as Ews.
    { unfold split_words. rewrite !upd_ne; [done|unfold clone, cur; lia..]. }
    split; [done|]. unfold live. rewrite Ews. split.
    + intros Hc%(class_ext _ _ _ _ _ _ HL (λ s, eq_refl)).
      destruct (Hcl s (w s)) as [[-> _]|(s0 & _ & Hc0 & [->|[_ ->]])]; [unfold cur; lia|done|unfold cur in *; lia|done|unfold clone, cur in *; lia].
    + intros Hl. apply (class_ext _ _ _ _ _ _ (λ s, eq_sym (HL s)) (λ s, eq_refl)). by apply Hold.
  - intros s u Hs Hc. rewrite Hlen' in Hs. apply (class_ext _ _ _ _ _ _ HL (λ s, eq_refl)) in Hc.
    destruct (Hcl s u Hs Hc) as [?|(s0 & Hs0 & Hc0 & Hcase)]; [by left|right].
    split; [destruct Hcase as [<-|[_ ->]]; unfold clone, cur; lia|]. exists s0. split_and!; [done..|].
    rewrite (value_of_meta _ _ _ Hmeta), Hval4. destruct Hcase as [->|[-> ->]]; [|by rewrite decide_True].
    by rewrite decide_False by (unfold clone, cur; lia).
Qed.

(** [extend] never panics, and gives the automaton of the text with one more unit. *)
Lemma extend_spec : ∃ nodes' w', extend nodes last c = Ret (nodes', cur) ∧ extended nodes' w'.
Proof.
  unfold extend. destruct (lookup_lt_is_Some_2 nodes last Hlast) as [ln Hln]. rewrite Hln. cbn [mbind option_bind].
  destruct (Hok last ln Hln) as (_ & -> & _). fold new_node cur.
  destruct extend_walk as (nodes1 & vs & p & -> & Hlinks & Hvs & Hp & Hok1 & Hlen1 & Hlink1 & [n Hn] & Hval1 & He1). cbn [mbind option_bind].
  destruct p as [a|].
  - destruct (Hp a eq_refl) as (HDa & Hal & q & Hq & HDq & Hcq). destruct (lookup_lt_is_Some_2 nodes1 a) as [pn Hpn]; [unfold cur in *; lia|].
    rewrite Hpn. cbn [mbind option_bind]. rewrite (find_edge_get _ nodes1 a pn c Hok1 Hpn), He1, decide_False.
    2: { intros [_ Ha']. destruct (Hvs a Ha'). congruence. }
    rewrite Hq. cbn [mbind option_bind]. destruct (lookup_lt_is_Some_2 nodes1 q) as [qn Hqn]; [unfold cur in *; lia|].
    rewrite Hqn, Hn. cbn [mbind option_bind]. destruct (Hok1 a pn Hpn) as (_ & -> & _), (Hok1 q qn Hqn) as (_ & -> & _).
    rewrite !upd_ne by (unfold cur; lia). destruct (Nat.eqb_spec (length (w a) + 1) (length (w q))) as [Heq|Hne].
    + assert (w a ++ [c] = w q) as Ew by (destruct Hcq as [Hs _]; apply suffix_same_length; [done|]; rewrite length_app; cbn; lia).
      destruct (extend_linked nodes1 vs (Some a) q n) as (nodes' & -> & Hext); try done. { by eapply class_live. }
      cbn [mbind option_bind]. eauto.
    + rewrite Hlen1. destruct (clone_stored nodes1 vs a q n qn) as (nodes4 & Hcl & ->); [done..|].
      destruct (extend_cloned nodes4 vs a q) as (nodes' & w' & -> & Hext); [done..| |cbn [mbind option_bind]; eauto].
      intros Ew. rewrite <-Ew, length_app in Hne. cbn in Hne. lia.
  - rewrite Hn. cbn [mbind option_bind]. destruct (ao_root _ _ _ _ _ Ha) as (H0 & _ & _).
    destruct (extend_linked nodes1 vs None 0 n) as (nodes' & -> & Hext); try done. { eapply class_live, class_root, Ha. }
    cbn [mbind option_bind]. eauto.
Qed.

End extend.
End nodes.
Arguments SuffixNode V : clear implicits.
