(* ===== verification/SuffixTexts.v ===== *)
(** * Inserting texts into a suffix automaton

    What the nodes are after [extend] has run over the bytes of a text: the automaton of
    all texts, with the values that were there, and a last state that has words unless
    the text occurs in an earlier one. *)

From stdpp Require Import prelude.
From S2P Require Import Prelude Tree SuffixClasses SuffixAutomaton.

(** ** Occurrences *)

(** [u] occurs in [text]. *)
Definition infix (u text : list nat) : Prop := ∃ z, z `prefix_of` text ∧ u `suffix_of` z.

Definition prefixes (texts : list (list nat)) (z : list nat) : Prop := z = [] ∨ ∃ text, text ∈ texts ∧ z `prefix_of` text.

(** [u] occurs in one of the texts, or is empty. *)
Definition occurs (texts : list (list nat)) (u : list nat) : Prop := u = [] ∨ ∃ text, text ∈ texts ∧ infix u text.

#[global] Instance infix_dec u text : Decision (infix u text).
Proof.
  refine (cast_if (decide (Exists (λ n, u `suffix_of` take n text) (seq 0 (S (length text)))))).
  all: rewrite Exists_exists in *.
  - abstract (destruct e as (n & _ & Hu); exists (take n text); split; [apply prefix_take|done]).
  - abstract (intros (z & [k ->] & Hu); destruct n; exists (length z); split; [apply elem_of_seq; rewrite length_app; lia|];
      by rewrite take_app_length).
Defined.

#[global] Instance occurs_dec texts u : Decision (occurs texts u).
Proof.
  refine (cast_if (decide (u = [] ∨ Exists (infix u) texts))); unfold occurs; abstract (rewrite Exists_exists in *; done).
Defined.

Lemma infix_length u text : infix u text → length u ≤ length text.
Proof. intros (z & Hz%prefix_length & Hu%suffix_length). lia. Qed.

Lemma infix_refl u : infix u u.
Proof. by exists u. Qed.

Lemma infix_app a u b : infix u (a ++ u ++ b).
Proof. exists (a ++ u). split; [exists b; by rewrite app_assoc|by exists a]. Qed.

Lemma infix_inv u text : infix u text → ∃ a b, text = a ++ u ++ b.
Proof. intros (z & [b ->] & a & ->). exists a, b. by rewrite <-app_assoc. Qed.

Lemma infix_trans u v text : infix u v → infix v text → infix u text.
Proof.
  intros (a & b & ->)%infix_inv (c & d & ->)%infix_inv. replace (c ++ (a ++ u ++ b) ++ d) with ((c ++ a) ++ u ++ (b ++ d)) by (by rewrite !app_assoc).
  apply infix_app.
Qed.

Lemma prefixes_closed texts : prefixes texts [] ∧ ∀ z c, prefixes texts (z ++ [c]) → prefixes texts z.
Proof.
  split; [by left|]. intros z c [E|(text & Ht & Hz)]; [by destruct z|]. right. exists text. split; [done|].
  etrans; [|done]. by apply prefix_app_r.
Qed.

Lemma factor_prefixes texts u : factor (prefixes texts) u ↔ occurs texts u.
Proof.
  split.
  - intros (z & [->|(text & Ht & Hz)] & Hu); [left; by apply suffix_nil_inv|]. right. exists text. split; [done|]. by exists z.
  - intros [->|(text & Ht & z & Hz & Hu)]; [exists []; split; [by left|done]|]. exists z. split; [|done]. right. eauto.
Qed.

Lemma prefixes_snoc texts text z : prefixes (texts ++ [text]) z ↔ prefixes texts z ∨ z `prefix_of` text.
Proof.
  unfold prefixes. split.
  - intros [->|(t & [Ht| ->%list_elem_of_singleton]%elem_of_app & Hz)]; [by left; left|left; right; eauto|by right].
  - intros [[->|(t & Ht & Hz)]|Hz]; [by left|right; exists t; split; [|done]; apply elem_of_app; by left|].
    right. exists text. split; [|done]. apply elem_of_app. right. by apply list_elem_of_singleton.
Qed.

Lemma occurs_snoc texts text u : occurs (texts ++ [text]) u ↔ occurs texts u ∨ infix u text.
Proof.
  rewrite <-!factor_prefixes. unfold factor, infix. setoid_rewrite prefixes_snoc. naive_solver.
Qed.

(** A text that occurs already adds no factors. *)
Lemma occurs_known texts text u : occurs texts text → occurs (texts ++ [text]) u ↔ occurs texts u.
Proof.
  intros Ht. rewrite occurs_snoc. split; [|by left]. intros [?|Hu]; [done|]. destruct Ht as [->|(t & Hin & Htt)].
  - left. apply infix_length in Hu. by destruct u; [|cbn in Hu; lia].
  - right. exists t. split; [done|]. by eapply infix_trans.
Qed.

Section texts.
Context {V : Type}.
Implicit Types nodes : list (SuffixNode V).

(** ** The value of a word *)

Definition word_value nodes (u : list nat) : option V := path (edge_of nodes) 0 u ≫= value_of nodes.

Lemma word_value_class w P nodes s u :
  automaton w P nodes → s < length nodes → class (link_of nodes) w s u → word_value nodes u = value_of nodes s.
Proof.
  intros [_ Ha] Hs Hc. unfold word_value. by rewrite (proj2 (path_class _ _ _ _ _ Ha u s) (conj Hs Hc)).
Qed.

Lemma word_value_None w P nodes u : automaton w P nodes → ¬ factor P u → word_value nodes u = None.
Proof.
  intros [_ Ha] Hf. unfold word_value. destruct (path (edge_of nodes) 0 u) eqn:E; [|done]. destruct Hf.
  apply (path_factor _ _ _ _ _ Ha). by rewrite E.
Qed.

Lemma automaton_iff w P P' nodes : (∀ z, P z ↔ P' z) → automaton w P nodes → automaton w P' nodes.
Proof.
  intros HP [Hok Ha]. split; [done|]. eapply automaton_ok_factor; [| |done].
  - destruct (ao_closed _ _ _ _ _ Ha) as [H0 Hc]. split; [by apply HP|]. intros z c. rewrite <-!HP. apply Hc.
  - intros u. unfold factor. setoid_rewrite HP. done.
Qed.

(** ** The loop over the text *)

Definition extend_text nodes (text : list nat) : exec (list (SuffixNode V) * nat) :=
  foldM (λ '(nodes, last_state) byte, extend nodes last_state byte) (nodes, 0) text.

Record text_inserted (w : nat → list nat) (P : list nat → Prop) nodes (text : list nat)
    (w' : nat → list nat) nodes' (last : nat) : Prop := {
  ti_automaton : automaton w' (λ z, P z ∨ z `prefix_of` text) nodes';
  ti_length : length nodes ≤ length nodes';
  ti_last : last < length nodes' ∧ w' last = text ∧ (text = [] → last = 0 ∧ nodes' = nodes) ∧
            (text ≠ [] → length nodes ≤ last ∧ ∀ d, edge_of nodes' last d = None);
  ti_old s : s < length nodes → w' s = w s ∧ (live (link_of nodes') w' s ↔ live (link_of nodes) w s);
  ti_live : live (link_of nodes') w' last ↔ text = [] ∨ ¬ factor P text;
  ti_words u : text ≠ [] →
    class (link_of nodes') w' last u ↔ u `suffix_of` text ∧ ¬ factor (λ z, P z ∨ (z `prefix_of` text ∧ z ≠ text)) u;
  ti_known u : factor P u → word_value nodes' u = word_value nodes u;
  ti_new u : ¬ factor P u → word_value nodes' u = None;
}.

Lemma prefix_snoc_iff (z t : list nat) c : z `prefix_of` t ++ [c] ↔ z `prefix_of` t ∨ z = t ++ [c].
Proof.
  split; [|intros [Hz| ->]; [by apply prefix_app_r|done]]. intros [k E]. destruct k as [|x k _] using rev_ind.
  - right. by rewrite app_nil_r in E.
  - left. rewrite app_assoc in E. apply app_inj_tail in E as [-> _]. by exists k.
Qed.

Lemma text_inserted_nil w P nodes : automaton w P nodes → text_inserted w P nodes [] w nodes 0.
Proof.
  intros Ha. destruct Ha as [Hok Ha]. destruct (ao_root _ _ _ _ _ Ha) as (H0 & Hw0 & _). split; try done.
  - eapply automaton_iff; [|by split]. intros z. split; [by left|]. intros [?| ->%prefix_nil_inv]; [done|]. apply Ha.
  - split; [by left|]. intros _. eapply class_live, class_root, Ha.
  - intros u Hf. by eapply word_value_None.
Qed.

(** One more byte *)
Lemma text_inserted_snoc w P nodes text w1 nodes1 last c :
  text_inserted w P nodes text w1 nodes1 last →
  ∃ nodes2 last2 w2, extend nodes1 last c = Ret (nodes2, last2) ∧ text_inserted w P nodes (text ++ [c]) w2 nodes2 last2.
Proof.
  intros [Ha1 Hlen (Hlast & Hwl & Hnil & Hcons) Hold Hlive Hwords Hknown Hnew]. set (P1 z := P z ∨ z `prefix_of` text) in *.
  destruct (extend_spec w1 P1 nodes1 Ha1 last c Hlast) as (nodes2 & w2 & E & Ha2 & Hcur & Hw2 & Hedges & Hval & Hold2 & Hcl).
  { right. by rewrite Hwl. }
  { destruct (decide (text = [])) as [->|Hne]; [left; apply Hlive; by left|right; by apply Hcons]. }
  rewrite Hwl in Hw2. set (x' := text ++ [c]) in *. exists nodes2, (length nodes1), w2. split; [done|].
  assert (x' ≠ []) as Hx' by (unfold x'; by destruct text).
  assert (automaton w2 (λ z, P z ∨ z `prefix_of` x') nodes2) as Ha2'.
  { eapply automaton_iff; [|exact Ha2]. intros z. unfold P1, x'. rewrite Hwl, prefix_snoc_iff. tauto. }
  assert (∀ u, factor (λ z, P z ∨ (z `prefix_of` x' ∧ z ≠ x')) u ↔ factor P1 u) as HP1.
  { intros u. unfold factor, P1. assert (∀ z, z `prefix_of` x' ∧ z ≠ x' ↔ z `prefix_of` text) as Hz; [|by setoid_rewrite Hz].
    intros z. unfold x'. rewrite prefix_snoc_iff. split; [tauto|]. intros Hz. split; [by left|]. intros ->.
    apply prefix_length in Hz. rewrite length_app in Hz. cbn in Hz. lia. }
  assert (∀ u, u `suffix_of` x' → ¬ factor P1 u → class (link_of nodes2) w2 (length nodes1) u) as Hnewc.
  { intros u Hu Hf. destruct (ao_cover _ _ _ _ _ (proj2 Ha2') u) as (s & Hs & Hc); [exists x'; split; [by right|done]|].
    destruct (Hcl s u Hs Hc) as [[-> _]|(_ & s0 & Hs0 & Hc0 & _)]; [done|]. destruct Hf. by apply (class_factor _ _ _ _ _ (proj2 Ha1) s0). }
  assert (∀ u, class (link_of nodes2) w2 (length nodes1) u → ¬ factor P1 u) as Hcn.
  { intros u Hc. destruct (Hcl _ u Hcur Hc) as [[_ ?]|[? _]]; done. }
  assert (factor P1 x' ↔ factor P x') as Hfx.
  { split; [|intros (z & Hz & Hu); exists z; split; [by left|done]]. intros (z & [Hz|Hz] & Hu); [by exists z|].
    apply prefix_length in Hz. apply suffix_length in Hu. unfold x' in Hu. rewrite length_app in Hu. cbn in Hu. lia. }
  split; try done.
  - lia.
  - intros s Hs. destruct (Hold s Hs) as [E1 Hl1], (Hold2 s) as [E2 Hl2]; [lia|]. by rewrite E2, E1, Hl2, Hl1.
  - unfold live. rewrite Hw2. split.
    + intros Hc%Hcn. right. by rewrite <-Hfx.
    + intros [?|Hf]; [done|]. apply Hnewc; [done|]. by rewrite Hfx.
  - intros u _. rewrite HP1. split; [|intros [? ?]; by apply Hnewc]. intros Hc. split; [|by apply Hcn].
    destruct Hc as [Hu _]. by rewrite Hw2 in Hu.
  - intros u Hu. rewrite <-(Hknown u Hu). assert (factor P1 u) as Hu1 by (destruct Hu as (z & ? & ?); exists z; split; [by left|done]).
    destruct (ao_cover _ _ _ _ _ (proj2 Ha2') u) as (s & Hs & Hc); [destruct Hu as (z & ? & ?); exists z; split; [by left|done]|].
    destruct (Hcl s u Hs Hc) as [[_ ?]|(_ & s0 & Hs0 & Hc0 & Ev)]; [done|].
    by rewrite (word_value_class _ _ _ s u Ha2' Hs Hc), (word_value_class _ _ _ s0 u Ha1 Hs0 Hc0).
  - intros u Hu. destruct (path (edge_of nodes2) 0 u) as [s|] eqn:Ep; [|unfold word_value; by rewrite Ep].
    apply (path_class _ _ _ _ _ (proj2 Ha2')) in Ep as [Hs Hc]. rewrite (word_value_class _ _ _ s u Ha2' Hs Hc).
    destruct (Hcl s u Hs Hc) as [[-> _]|(_ & s0 & Hs0 & Hc0 & ->)]; [done|].
    rewrite <-(word_value_class _ _ _ s0 u Ha1 Hs0 Hc0). by apply Hnew.
Qed.

Lemma extend_text_spec w P nodes text :
  automaton w P nodes → ∃ nodes' last w', extend_text nodes text = Ret (nodes', last) ∧ text_inserted w P nodes text w' nodes' last.
Proof.
  intros Ha. induction text as [|c text (nodes1 & last & w1 & E & Hti)] using rev_ind.
  - exists nodes, 0, w. split; [done|]. by apply text_inserted_nil.
  - unfold extend_text in *. rewrite foldM_app, E. cbn [mbind option_bind foldM].
    destruct (text_inserted_snoc _ _ _ _ _ _ _ c Hti) as (nodes2 & last2 & w2 & -> & Hti2). cbn. eauto.
Qed.

End texts.
