(* ===== verification/SuffixIndex.v ===== *)
(** * The suffix automaton as an index of texts

    [SuffixAutomatonInner] (src/src/suffix_automaton/core/inner.rs), the operations of
    [SuffixAutomaton] (ascii.rs) and the queries of [SuffixSourceSnapshot]
    (source_snapshot.rs): one automaton for all texts that were inserted, and a record
    of each text with its value.  An operation works on a private copy, which is
    published in one step when it reports a change (lockfree.rs), so it is a function on
    the state.  The stamps [producer_id] and [revision] are left out, and so is
    [last_state], which every operation sets to the root before it uses it.

    A text is its list of bytes.  A hash map is a finite map; where the code iterates
    over one, the theorems show that the result does not depend on the order. *)

From stdpp Require Import prelude gmap sorting.
From S2P Require Import Prelude Edges Tree Zipper DatShared SuffixClasses SuffixAutomaton.

Section index.
Context {V : Type}.

Record SuffixAutomatonInner := mkInner {
  sa_nodes : list (SuffixNode V);
  sa_string_count : nat;
  sa_source_texts : list (list nat);
  sa_source_values : list (option V);
  sa_sorted_source_indices : list nat;
  sa_positions : gmap nat (list (nat * nat));
  sa_needs_compaction : bool;
}.

Definition SuffixAutomatonInner_new : SuffixAutomatonInner :=
  mkInner [SuffixNode_root] 0 [] [] [] ∅ false.

Definition with_nodes (inner : SuffixAutomatonInner) nodes : SuffixAutomatonInner :=
  mkInner nodes (sa_string_count inner) (sa_source_texts inner) (sa_source_values inner)
    (sa_sorted_source_indices inner) (sa_positions inner) (sa_needs_compaction inner).

(** ** The sorted index of active sources *)

(** [slice::partition_point] on a partitioned slice *)
Fixpoint partition_point {A} (pred : A → exec bool) (l : list A) : exec nat :=
  match l with
  | [] => Ret 0
  | x :: l => b ← pred x; if (b : bool) then n ← partition_point pred l; Ret (S n) else Ret 0
  end.

Definition index_source (texts : list (list nat)) (sorted : list nat) (source_id : nat) : exec (list nat) :=
  insertion ← partition_point (λ existing,
    existing_text ← texts !! existing;
    source_text ← texts !! source_id;
    Ret (bool_decide (lex_lt existing_text source_text) ||
         (bool_decide (existing_text = source_text) && (existing <? source_id)))) sorted;
  vec_insert sorted insertion source_id.

Definition unindex_source (sorted : list nat) (source_id : nat) : list nat :=
  match list_find (λ existing, existing = source_id) sorted with
  | Some (index, _) => delete index sorted
  | None => sorted
  end.

(** Which sources have a position *)
Definition active_sources (texts : list (list nat)) (positions : gmap nat (list (nat * nat))) : list bool :=
  foldl (λ active entry, foldl (λ active position, <[position.1 := true]> active) active entry.2)
    (replicate (length texts) false) (map_to_list positions).

(** The order of the index *)
Definition source_lt (texts : list (list nat)) (left right : nat) : Prop :=
  let left_text := default [] (texts !! left) in
  let right_text := default [] (texts !! right) in
  lex_lt left_text right_text ∨ (left_text = right_text ∧ left < right).
Definition source_le (texts : list (list nat)) (left right : nat) : Prop := left = right ∨ source_lt texts left right.

#[global] Instance source_lt_dec texts : RelDecision (source_lt texts).
Proof. unfold source_lt. intros ??. apply _. Defined.
#[global] Instance source_le_dec texts : RelDecision (source_le texts).
Proof. unfold source_le. intros ??. apply _. Defined.

Definition rebuild_sorted_source_indices (inner : SuffixAutomatonInner) : SuffixAutomatonInner :=
  let active := active_sources (sa_source_texts inner) (sa_positions inner) in
  let indices := omap (λ source_id, if default false (active !! source_id) then Some source_id else None) (seq 0 (length active)) in
  mkInner (sa_nodes inner) (sa_string_count inner) (sa_source_texts inner) (sa_source_values inner)
    (merge_sort (source_le (sa_source_texts inner)) indices) (sa_positions inner) (sa_needs_compaction inner).

(** ** Insertion *)

Definition set_value (n : SuffixNode V) (value : option V) : SuffixNode V :=
  mkSuffixNode (sx_edges n) (sx_link n) (sx_max_length n) (sx_final n) value.

Definition push_position (positions : gmap nat (list (nat * nat))) (state : nat) (position : nat * nat) :
    gmap nat (list (nat * nat)) :=
  <[state := default [] (positions !! state) ++ [position]]> positions.

Definition insert_text_into_inner (inner : SuffixAutomatonInner) (text : list nat) (value : option V) :
    exec SuffixAutomatonInner :=
  let string_id := length (sa_source_texts inner) in
  let source_texts := sa_source_texts inner ++ [text] in
  let source_values := sa_source_values inner ++ [value] in
  '(nodes, last_state) ← foldM (λ '(nodes, last_state) byte, extend nodes last_state byte) (sa_nodes inner, 0) text;
  nodes ←
    match value with
    | Some value => n ← nodes !! last_state; store nodes last_state (set_value n (Some value))
    | None => Ret nodes
    end;
  let positions := push_position (sa_positions inner) last_state (string_id, length text) in
  sorted ← index_source source_texts (sa_sorted_source_indices inner) string_id;
  Ret (mkInner nodes (sa_string_count inner + 1) source_texts source_values sorted positions (sa_needs_compaction inner)).

(** The loop of [from_records], [from_texts] and [extend_records] *)
Definition insert_records (inner : SuffixAutomatonInner) (records : list (list nat * option V)) :
    exec SuffixAutomatonInner :=
  foldM (λ inner '(text, value), insert_text_into_inner inner text value) inner records.

(** ** Lookup *)

Definition find_term_state (inner : SuffixAutomatonInner) (term : list nat) : option nat :=
  path (λ state byte, node ← sa_nodes inner !! state; find_edge node byte) 0 term.

Definition value_from_inner (inner : SuffixAutomatonInner) (term : list nat) : option V :=
  state ← find_term_state inner term;
  node ← sa_nodes inner !! state;
  sx_value node.

(** [Dictionary::contains], through node handles *)
Definition sa_contains (inner : SuffixAutomatonInner) (term : list nat) : bool :=
  bool_decide (is_Some (path (λ state byte, node ← sa_nodes inner !! state; find_edge node byte) 0 term)).

Definition is_source (texts : list (list nat)) (text : list nat) (position : nat * nat) : bool :=
  (position.2 =? length text) &&
  match texts !! position.1 with Some source => bool_decide (source = text) | None => false end.

(** ** Removal *)

(** The position of the text with the smallest source identifier *)
Definition find_source (texts : list (list nat)) (positions : gmap nat (list (nat * nat))) (text : list nat) :
    option (nat * nat * nat) :=
  foldl (λ remove_location '(state_id, positions),
    foldl (λ remove_location '(position_index, position),
        if is_source texts text position &&
           match remove_location with Some (best_source_id, _, _) => position.1 <? best_source_id | None => true end
        then Some (position.1, state_id, position_index) else remove_location)
      remove_location (imap pair positions))
    None (map_to_list positions).

Definition sa_remove (inner : SuffixAutomatonInner) (text : list nat) : SuffixAutomatonInner * bool :=
  match find_source (sa_source_texts inner) (sa_positions inner) text with
  | None => (inner, false)
  | Some (source_id, state, index) =>
      match sa_positions inner !! state with
      | None => (inner, false)
      | Some positions =>
          let positions := delete index positions in
          let sorted := unindex_source (sa_sorted_source_indices inner) source_id in
          let new_positions :=
            match positions with
            | [] => delete state (sa_positions inner)
            | _ => <[state := positions]> (sa_positions inner)
            end in
          (mkInner (sa_nodes inner) (sa_string_count inner - 1) (sa_source_texts inner) (sa_source_values inner)
             sorted new_positions true, true)
      end
  end.

Definition sa_clear (inner : SuffixAutomatonInner) : SuffixAutomatonInner :=
  if (sa_string_count inner =? 0) && (length (sa_nodes inner) =? 1) then inner else SuffixAutomatonInner_new.

(** ** Compaction *)

(** The loop that marks the reachable states *)
Fixpoint mark (nodes : list (SuffixNode V)) (fuel : nat) (stack : list nat) (reachable : list bool) : exec (list bool) :=
  match stack with
  | [] => Ret reachable
  | state :: stack =>
      match fuel with
      | O => Panic
      | S fuel =>
          seen ← reachable !! state;
          if (seen : bool) then mark nodes fuel stack reachable
          else
            reachable ← store reachable state true;
            node ← nodes !! state;
            mark nodes fuel (rev_append (sx_edges node).*2 stack) reachable
      end
  end.

(** The kept nodes, and the new index of each old one *)
Definition sweep (nodes : list (SuffixNode V)) (reachable : list bool) : exec (list (SuffixNode V) * list nat) :=
  foldM (λ '(new_nodes, old_to_new) old_idx,
    kept ← reachable !! old_idx;
    if (kept : bool) then
      node ← nodes !! old_idx;
      old_to_new ← store old_to_new old_idx (length new_nodes);
      Ret (new_nodes ++ [node], old_to_new)
    else Ret (new_nodes, old_to_new))
    ([], replicate (length nodes) 0) (seq 0 (length nodes)).

Definition remap (old_to_new : list nat) (node : SuffixNode V) : exec (SuffixNode V) :=
  edges ← mapM (λ '(label, target), new ← old_to_new !! target; Ret (label, new)) (sx_edges node);
  link ← match sx_link node with Some link => new ← old_to_new !! link; Ret (Some new) | None => Ret None end;
  Ret (mkSuffixNode edges link (sx_max_length node) (sx_final node) (sx_value node)).

Definition sa_compact (inner : SuffixAutomatonInner) : exec SuffixAutomatonInner :=
  if negb (sa_needs_compaction inner) then Ret inner
  else
    let nodes := sa_nodes inner in
    reachable ← mark nodes (1 + length (nodes ≫= sx_edges)) [0] (replicate (length nodes) false);
    '(new_nodes, old_to_new) ← sweep nodes reachable;
    new_nodes ← mapM (remap old_to_new) new_nodes;
    new_positions ← foldM (λ new_positions '(old_state, positions),
      kept ← reachable !! old_state;
      if (kept : bool) then new_state ← old_to_new !! old_state; Ret (<[new_state := positions]> new_positions)
      else Ret new_positions) ∅ (map_to_list (sa_positions inner));
    Ret (mkInner new_nodes (sa_string_count inner) (sa_source_texts inner) (sa_source_values inner)
           (sa_sorted_source_indices inner) new_positions false).

(** ** Updates *)

(** [Iterator::max] *)
Definition iter_max (l : list nat) : option nat :=
  match l with [] => None | x :: l => Some (foldl max x l) end.

Definition update_source_record_value (inner : SuffixAutomatonInner) (state : nat) (term : list nat) (value : V) :
    SuffixAutomatonInner :=
  let source_id :=
    positions ← sa_positions inner !! state;
    let sources := (filter (λ p, is_source (sa_source_texts inner) term p = true) positions).*1 in
    match iter_max (filter (λ id, is_Some (mjoin (sa_source_values inner !! id))) sources) with
    | Some id => Some id
    | None => iter_max sources
    end in
  match source_id with
  | Some id =>
      mkInner (sa_nodes inner) (sa_string_count inner) (sa_source_texts inner) (<[id := Some value]> (sa_source_values inner))
        (sa_sorted_source_indices inner) (sa_positions inner) (sa_needs_compaction inner)
  | None => inner
  end.

(** [update_fn] as a function on values *)
Definition update_or_insert (inner : SuffixAutomatonInner) (term : list nat) (default_value : V) (update_fn : V → V) :
    exec (SuffixAutomatonInner * bool) :=
  match find_term_state inner term with
  | None => inner ← insert_text_into_inner inner term (Some default_value); Ret (inner, true)
  | Some state =>
      node ← sa_nodes inner !! state;
      match sx_value node with
      | Some value =>
          let value := update_fn value in
          nodes ← store (sa_nodes inner) state (set_value node (Some value));
          Ret (update_source_record_value (with_nodes inner nodes) state term value, false)
      | None =>
          nodes ← store (sa_nodes inner) state
                    (mkSuffixNode (sx_edges node) (sx_link node) (sx_max_length node) true (Some default_value));
          let inner := update_source_record_value (with_nodes inner nodes) state term default_value in
          if existsb (is_source (sa_source_texts inner) term) (default [] (sa_positions inner !! state)) then Ret (inner, true)
          else
            let string_id := length (sa_source_texts inner) in
            let source_texts := sa_source_texts inner ++ [term] in
            let source_values := sa_source_values inner ++ [Some default_value] in
            let positions := push_position (sa_positions inner) state (string_id, length term) in
            sorted ← index_source source_texts (sa_sorted_source_indices inner) string_id;
            Ret (mkInner (sa_nodes inner) (sa_string_count inner + 1) source_texts source_values sorted positions
                   (sa_needs_compaction inner), true)
      end
  end.

Definition sa_union_with (self other : SuffixAutomatonInner) (merge_fn : V → V → V) : exec (SuffixAutomatonInner * nat) :=
  foldM (λ '(self, processed) term,
    if decide (term = []) then Ret (self, processed)
    else
      match value_from_inner other term with
      | None => Ret (self, processed)
      | Some other_value =>
          let new_value :=
            match value_from_inner self term with
            | Some self_value => merge_fn self_value other_value
            | None => other_value
            end in
          '(self, _) ← update_or_insert self term new_value (λ _, new_value);
          Ret (self, processed + 1)
      end) (self, 0) (sa_source_texts other).

(** ** Occurrences *)

(** [bytes[start..].starts_with(needle)] for every start, as end positions *)
Definition occurrence_ends (bytes needle : list nat) : list nat :=
  omap (λ start, if bool_decide (needle `prefix_of` drop start bytes) then Some (start + length needle) else None)
    (seq 0 (length bytes - length needle + 1)).

Definition position_le (a b : nat * nat) : Prop := a.1 < b.1 ∨ (a.1 = b.1 ∧ a.2 ≤ b.2).
#[global] Instance position_le_dec : RelDecision position_le.
Proof. unfold position_le. intros ??. apply _. Defined.

(** [Vec::dedup] *)
Fixpoint dedup (l : list (nat * nat)) : list (nat * nat) :=
  match l with
  | x :: (y :: _) as l' => if decide (x = y) then dedup l' else x :: dedup l'
  | l => l
  end.

Definition match_positions (inner : SuffixAutomatonInner) (substring : list nat) : exec (list (nat * nat)) :=
  match substring with
  | [] => Ret []
  | _ =>
      found ← foldM (λ state byte,
        match state with
        | None => Ret None
        | Some state => node ← sa_nodes inner !! state; Ret (find_edge node byte)
        end) (Some 0) substring;
      match found with
      | None => Ret []
      | Some _ =>
          let active := active_sources (sa_source_texts inner) (sa_positions inner) in
          let result := concat (imap (λ source_id source,
            if negb (default false (active !! source_id)) || (length source <? length substring) then []
            else pair source_id <$> occurrence_ends source substring) (sa_source_texts inner)) in
          Ret (dedup (merge_sort position_le result))
      end
  end.

(** ** Snapshots of the active sources *)

(** [bytes.windows(n)], for a positive [n] *)
Definition windows (n : nat) (bytes : list nat) : list (list nat) :=
  (λ i, take n (drop i bytes)) <$> seq 0 (length bytes + 1 - n).

Definition unit_occurrences (source pattern : list nat) : nat :=
  match pattern with
  | [] => length source + 1
  | _ => length (filter (λ window, window = pattern) (windows (length pattern) source))
  end.

Definition has_occurrence (source pattern : list nat) : bool :=
  match pattern with
  | [] => true
  | _ => existsb (λ window, bool_decide (window = pattern)) (windows (length pattern) source)
  end.

Definition source_count (inner : SuffixAutomatonInner) : nat := length (sa_sorted_source_indices inner).

(** A record: the source identifier, the text and the value *)
Definition source_at (inner : SuffixAutomatonInner) (rank : nat) : exec (option (nat * list nat * option V)) :=
  match sa_sorted_source_indices inner !! rank with
  | None => Ret None
  | Some source_id =>
      text ← sa_source_texts inner !! source_id;
      value ← sa_source_values inner !! source_id;
      Ret (Some (source_id, text, value))
  end.

Definition source_records (inner : SuffixAutomatonInner) : exec (list (nat * list nat * option V)) :=
  mapM (λ rank, record ← source_at inner rank; record) (seq 0 (source_count inner)).

Definition contains_source (inner : SuffixAutomatonInner) (text : list nat) : exec bool :=
  let ids := sa_sorted_source_indices inner in
  first ← partition_point (λ id, source ← sa_source_texts inner !! id; Ret (bool_decide (lex_lt source text))) ids;
  match ids !! first with
  | None => Ret false
  | Some id => source ← sa_source_texts inner !! id; Ret (bool_decide (source = text))
  end.

Definition substring_frequency (inner : SuffixAutomatonInner) (pattern : list nat) : exec nat :=
  foldM (λ count id,
    source ← sa_source_texts inner !! id;
    next ← match pattern with [] => usize_checked_add (length source) 1 | _ => Ret (unit_occurrences source pattern) end;
    usize_checked_add count next) 0 (sa_sorted_source_indices inner).

Definition contains_substring (inner : SuffixAutomatonInner) (pattern : list nat) : exec bool :=
  match pattern with
  | [] => Ret (negb (source_count inner =? 0))
  | _ =>
      foldM (λ found id,
        if (found : bool) then Ret true
        else source ← sa_source_texts inner !! id; Ret (has_occurrence source pattern)) false (sa_sorted_source_indices inner)
  end.

(** ** Stored records *)

(** [SuffixAutomatonEntryIterator::next]; the state is the index *)
Definition entries_next (inner : SuffixAutomatonInner) (index : nat) : exec (option (list nat * option V) * nat) :=
  match sa_sorted_source_indices inner !! index with
  | None => Ret (None, index)
  | Some source_id =>
      text ← sa_source_texts inner !! source_id;
      let value := match sa_source_values inner !! source_id with Some value => value | None => value_from_inner inner text end in
      Ret (Some (text, value), index + 1)
  end.

Definition restore_missing_source_values (inner : SuffixAutomatonInner) : SuffixAutomatonInner :=
  if length (sa_source_texts inner) <=? length (sa_source_values inner) then inner
  else
    let restored := value_from_inner inner <$> drop (length (sa_source_values inner)) (sa_source_texts inner) in
    mkInner (sa_nodes inner) (sa_string_count inner) (sa_source_texts inner) (sa_source_values inner ++ restored)
      (sa_sorted_source_indices inner) (sa_positions inner) (sa_needs_compaction inner).

(** What [deserialize] does with the fields that were read *)
Definition after_deserialize (inner : SuffixAutomatonInner) : SuffixAutomatonInner :=
  rebuild_sorted_source_indices (restore_missing_source_values inner).

End index.
Arguments SuffixAutomatonInner V : clear implicits.
