(* ===== verification/SuffixRecords.v ===== *)
(** * The records of a suffix index

    What the index promises about its records, apart from the automaton: a list of
    records, in the order of insertion, and what insertion, removal, clearing and
    compaction do to it. *)

From stdpp Require Import prelude gmap sorting.
From S2P Require Import Prelude Edges Tree Zipper SuffixClasses SuffixAutomaton SuffixTexts SuffixIndex.

(** ** Lists *)

Lemma filter_Forall {A} (P : A → Prop) `{!∀ x, Decision (P x)} (l : list A) : Forall P l → filter P l = l.
Proof. induction 1 as [|x l Hx _ IH]; [done|]. by rewrite filter_cons_True, IH. Qed.

Lemma fmap_sublist {A B} (f : A → B) (l k : list A) : l `sublist_of` k → f <$> l `sublist_of` f <$> k.
Proof. induction 1; rewrite ?fmap_nil, ?fmap_cons; by constructor. Qed.

(** Deleting the element with a unique key *)
Lemma delete_filter {A B} `{EqDecision B} (key : A → B) (l : list A) i x :
  NoDup (key <$> l) → l !! i = Some x → delete i l = filter (λ y, key y ≠ key x) l.
Proof.
  revert i. induction l as [|y l IH]; [done|]. intros i Hnd Hx. rewrite fmap_cons in Hnd. apply NoDup_cons in Hnd as [Hy Hnd]. destruct i as [|i].
  - injection Hx as ->. rewrite filter_cons_False by auto. symmetry. apply filter_Forall, Forall_forall. intros z Hz Ez.
    destruct Hy. rewrite <-Ez. by apply list_elem_of_fmap_2.
  - rewrite filter_cons_True; [cbn; f_equal; by apply IH|]. intros Ey. destruct Hy. rewrite Ey.
    apply list_elem_of_fmap_2. by eapply list_elem_of_lookup_2.
Qed.

(** Inserting at the partition point keeps a list sorted. *)
Lemma partition_point_sorted {A} (R : A → A → Prop) (pred : A → exec bool) (f : A → bool) l x :
  Transitive R → StronglySorted R l → (∀ y, y ∈ l → pred y = Ret (f y)) → (∀ y, y ∈ l → if f y then R y x else R x y) →
  ∃ n, partition_point pred l = Ret n ∧ n ≤ length l ∧ StronglySorted R (take n l ++ x :: drop n l).
Proof.
  intros HR Hs. induction Hs as [|y l Hs IH Hy]; intros Hpred Hf.
  - exists 0. split_and!; [done..|]. repeat constructor.
  - cbn [partition_point]. rewrite Hpred by (by left). cbn [mbind option_bind].
    pose proof (Hf y (list_elem_of_here _ _)) as Hfy. destruct (f y).
    + destruct IH as (n & -> & Hn & Hs'); [intros; apply Hpred; by right|intros; apply Hf; by right|].
      exists (S n). split_and!; [done|cbn; lia|]. cbn. constructor; [done|]. apply Forall_forall. intros z Hz.
      rewrite elem_of_app, elem_of_cons in Hz. rewrite Forall_forall in Hy.
      destruct Hz as [Hz|[->|Hz]]; [|done|]; apply Hy; rewrite <-(take_drop n l); apply elem_of_app; [by left|by right].
    + exists 0. split_and!; [done|cbn; lia|]. cbn. constructor; [by constructor|]. constructor; [done|].
      eapply Forall_impl; [exact Hy|]. intros z Hz. by etrans.
Qed.

(** ** The order of the sources *)

#[global] Instance source_lt_trans texts : Transitive (source_lt texts).
Proof.
  intros a b c [Hab|[Eab Hab]] [Hbc|[Ebc Hbc]].
  - left. by eapply lex_lt_trans.
  - left. by rewrite <-Ebc.
  - left. by rewrite Eab.
  - right. split; [congruence|lia].
Qed.

Lemma source_lt_irrefl texts a : ¬ source_lt texts a a.
Proof. intros [H|[_ H]]; [by apply lex_lt_irrefl in H|lia]. Qed.

Lemma source_lt_total texts a b : a ≠ b → ¬ source_lt texts a b → source_lt texts b a.
Proof.
  intros Hne Hn. unfold source_lt in *. destruct (lex_lt_total (default [] (texts !! a)) (default [] (texts !! b))) as [?|[E|?]]; [tauto| |by left].
  right. split; [done|]. assert (¬ a < b) by tauto. lia.
Qed.

Lemma source_lt_ext texts texts' a b : texts !! a = texts' !! a → texts !! b = texts' !! b → source_lt texts a b ↔ source_lt texts' a b.
Proof. intros Ea Eb. unfold source_lt. by rewrite Ea, Eb. Qed.

Lemma sorted_sources_NoDup texts l : StronglySorted (source_lt texts) l → NoDup l.
Proof. apply StronglySorted_NoDup, source_lt_irrefl. Qed.

Lemma sorted_sources_ext texts texts' l :
  (∀ x, x ∈ l → texts !! x = texts' !! x) → StronglySorted (source_lt texts) l → StronglySorted (source_lt texts') l.
Proof.
  intros Hl Hs. induction Hs as [|x l Hs IH Hx]; constructor; [apply IH; intros; apply Hl; by right|].
  rewrite Forall_forall in *. intros y Hy. apply (source_lt_ext texts texts'); [apply Hl; by left|apply Hl; by right|by apply Hx].
Qed.

Lemma index_source_spec texts sorted id :
  StronglySorted (source_lt texts) sorted → (∀ x, x ∈ sorted → x < length texts) → id < length texts → id ∉ sorted →
  ∃ sorted', index_source texts sorted id = Ret sorted' ∧ StronglySorted (source_lt texts) sorted' ∧ sorted' ≡ₚ id :: sorted.
Proof.
  intros Hs Hlt Hid Hnot. unfold index_source. destruct (lookup_lt_is_Some_2 texts id Hid) as [text Ht].
  destruct (partition_point_sorted (source_lt texts) (λ existing,
    existing_text ← texts !! existing; source_text ← texts !! id;
    Ret (bool_decide (lex_lt existing_text source_text) || (bool_decide (existing_text = source_text) && (existing <? id))))
    (λ x, bool_decide (source_lt texts x id)) sorted id) as (n & E & Hn & Hs').
  - apply _.
  - done.
  - intros y Hy. destruct (lookup_lt_is_Some_2 texts y (Hlt y Hy)) as [ty Hty]. rewrite Hty, Ht. cbn [mbind option_bind]. f_equal.
    assert (source_lt texts y id ↔ lex_lt ty text ∨ (ty = text ∧ y < id)) as Hiff by (unfold source_lt; by rewrite Hty, Ht).
    symmetry. etrans; [apply (bool_decide_ext _ _ Hiff)|]. rewrite bool_decide_or, bool_decide_and. do 2 f_equal.
    destruct (Nat.ltb_spec y id); [by apply bool_decide_true|apply bool_decide_false; lia].
  - intros y Hy. case_bool_decide as Hc; [done|]. apply source_lt_total; [by intros ->|done].
  - rewrite E. cbn [mbind option_bind]. unfold vec_insert. rewrite decide_True by done. eexists. split_and!; [done..|].
    by rewrite <-Permutation_middle, take_drop.
Qed.

Lemma unindex_source_filter sorted id : NoDup sorted → unindex_source sorted id = filter (λ x, x ≠ id) sorted.
Proof.
  intros Hnd. unfold unindex_source. destruct (list_find (λ existing, existing = id) sorted) as [[i x]|] eqn:E.
  - apply list_find_Some in E as (Hx & -> & _). rewrite (delete_filter (λ x, x) sorted i id); [done|by rewrite list_fmap_id|done].
  - apply list_find_None in E. symmetry. by apply filter_Forall.
Qed.

(** ** The positions *)

Implicit Types positions : gmap nat (list (nat * nat)).

(** State [s] has a position of source [id]. *)
Definition holds positions (s id : nat) : Prop := ∃ l, positions !! s = Some l ∧ id ∈ l.*1.

(** Every source of the set has one position, at a state that fits it. *)
Record positions_ok (good : nat → nat → Prop) (tracked : nat → Prop) (len : nat → nat) positions : Prop := {
  po_NoDup s l : positions !! s = Some l → NoDup l.*1;
  po_nonempty s l : positions !! s = Some l → l ≠ [];
  po_good s id : holds positions s id → tracked id ∧ good s id;
  po_end s l id e : positions !! s = Some l → (id, e) ∈ l → e = len id;
  po_unique s s' id : holds positions s id → holds positions s' id → s = s';
  po_tracked id : tracked id → ∃ s, holds positions s id;
}.

Lemma positions_ok_empty good (tracked : nat → Prop) len : (∀ id, ¬ tracked id) → positions_ok good tracked len ∅.
Proof.
  intros Hn. split; try by intros; rewrite lookup_empty in *.
  - intros s id (l & Hl & _). by rewrite lookup_empty in Hl.
  - intros s s' id (l & Hl & _). by rewrite lookup_empty in Hl.
  - intros id Hid. by destruct (Hn id).
Qed.

Lemma positions_ok_mono (good good' : nat → nat → Prop) (tracked tracked' : nat → Prop) (len len' : nat → nat) positions :
  (∀ s id, tracked id → good s id → good' s id) → (∀ id, tracked id ↔ tracked' id) → (∀ id, tracked id → len id = len' id) →
  positions_ok good tracked len positions → positions_ok good' tracked' len' positions.
Proof.
  intros Hg Ht Hl [Hnd Hne Hgood Hend Huniq Htr]. split; [done..| | |done|].
  - intros s id Hh. destruct (Hgood s id Hh) as [Hid Hs]. split; [by apply Ht|by apply Hg].
  - intros s l id e Es Hin. rewrite <-Hl; [by eapply Hend|]. apply (Hgood s). exists l. split; [done|]. by apply (list_elem_of_fmap_2 fst _ (id, e)).
  - intros id Hid. by apply Htr, Ht.
Qed.

Lemma holds_push positions state id e s id' :
  holds (push_position positions state (id, e)) s id' ↔ holds positions s id' ∨ (s = state ∧ id' = id).
Proof.
  unfold holds, push_position. destruct (decide (s = state)) as [->|Hne].
  - setoid_rewrite lookup_insert_eq. split.
    + intros (l & [= <-] & Hin). rewrite fmap_app, elem_of_app in Hin. destruct Hin as [Hin|Hin%list_elem_of_singleton]; [|by right].
      left. destruct (positions !! state) as [l|]; [by exists l|by apply elem_of_nil in Hin].
    + intros [(l & -> & Hin)|[_ ->]]; (eexists; split; [done|]); rewrite fmap_app, elem_of_app; [by left|right; by left].
  - setoid_rewrite lookup_insert_ne; [|done]. split; [by left|]. by intros [?|[? _]].
Qed.

Lemma positions_ok_push good (tracked : nat → Prop) len positions state id :
  ¬ tracked id → good state id → positions_ok good tracked len positions →
  positions_ok good (λ x, tracked x ∨ x = id) len (push_position positions state (id, len id)).
Proof.
  intros Hnew Hgs [Hnd Hnil Hgood Hend Huniq Htr].
  assert (∀ s, ¬ holds positions s id) as Hno by (intros s Hh; destruct (Hgood s id Hh); done). split.
  - intros s l Hl. unfold push_position in Hl. apply lookup_insert_Some in Hl as [[<- <-]|[_ Hl]]; [|by eapply Hnd].
    rewrite fmap_app. apply NoDup_app. split_and!; [destruct (positions !! state) eqn:E; [by eapply Hnd|constructor]| |by apply NoDup_singleton].
    intros x Hx ->%list_elem_of_singleton. destruct (positions !! state) as [l|] eqn:E; [|by apply elem_of_nil in Hx].
    destruct (Hno state). by exists l.
  - intros s l Hl. unfold push_position in Hl. apply lookup_insert_Some in Hl as [[<- <-]|[_ Hl]]; [by destruct (default [] _)|by eapply Hnil].
  - intros s x [Hh|[-> ->]]%holds_push; [|by split; [right|]]. destruct (Hgood s x Hh). by split; [left|].
  - intros s l x e Hl Hin. unfold push_position in Hl. apply lookup_insert_Some in Hl as [[<- <-]|[_ Hl]]; [|by eapply Hend].
    apply elem_of_app in Hin as [Hin|Hin%list_elem_of_singleton]; [|congruence].
    destruct (positions !! state) as [l|] eqn:E; [by eapply Hend|by apply elem_of_nil in Hin].
  - intros s s' x [Hh|[-> ->]]%holds_push [Hh'|[-> ?]]%holds_push; [by eapply Huniq|subst; by destruct (Hno s)|by destruct (Hno s')|done].
  - intros x [Hx| ->].
    + destruct (Htr x Hx) as [s Hs]. exists s. apply holds_push. by left.
    + exists state. apply holds_push. by right.
Qed.

Definition drop_position positions (state i : nat) (l : list (nat * nat)) : gmap nat (list (nat * nat)) :=
  match delete i l with [] => delete state positions | l' => <[state := l']> positions end.

Lemma drop_position_lookup positions state i l s l' :
  drop_position positions state i l !! s = Some l' ↔ (s = state ∧ l' = delete i l ∧ l' ≠ []) ∨ (s ≠ state ∧ positions !! s = Some l').
Proof.
  unfold drop_position. destruct (decide (s = state)) as [->|Hne].
  - destruct (delete i l) as [|p k]; [rewrite lookup_delete_eq|rewrite lookup_insert_eq]; naive_solver.
  - destruct (delete i l) as [|p k]; [rewrite lookup_delete_ne by done|rewrite lookup_insert_ne by done]; naive_solver.
Qed.

Lemma positions_ok_drop good (tracked : nat → Prop) len positions state i l id e :
  positions !! state = Some l → l !! i = Some (id, e) → positions_ok good tracked len positions →
  positions_ok good (λ x, tracked x ∧ x ≠ id) len (drop_position positions state i l).
Proof.
  intros Hl Hi [Hnd Hnil Hgood Hend Huniq Htr].
  assert (delete i l = filter (λ p, p.1 ≠ id) l) as Edel by (apply (delete_filter fst l i (id, e)); [by apply (Hnd state)|done]).
  assert (holds positions state id) as Hid.
  { exists l. split; [done|]. apply (list_elem_of_fmap_2 fst _ (id, e)). by eapply list_elem_of_lookup_2. }
  assert (∀ s x, holds (drop_position positions state i l) s x ↔ holds positions s x ∧ x ≠ id) as Hholds.
  { intros s x. unfold holds. setoid_rewrite drop_position_lookup. rewrite Edel. split.
    - intros (l' & [(-> & -> & _)|[Hne Hl']] & Hx).
      + apply list_elem_of_fmap in Hx as ([x' ex] & -> & [Hp Hx]%list_elem_of_filter). split; [|done].
        exists l. split; [done|]. by apply (list_elem_of_fmap_2 fst _ (x', ex)).
      + split; [by exists l'|]. intros ->. destruct Hne. apply (Huniq s state id); [by exists l'|done].
    - intros [(l' & Hl' & Hx) Hne]. destruct (decide (s = state)) as [->|Hs]; [|exists l'; split; [by right|done]].
      assert (l' = l) as -> by congruence. apply list_elem_of_fmap in Hx as ([x' ex] & -> & Hx).
      assert ((x', ex) ∈ filter (λ p, p.1 ≠ id) l) as Hf by by apply list_elem_of_filter.
      exists (filter (λ p, p.1 ≠ id) l). split; [left|by apply (list_elem_of_fmap_2 fst _ (x', ex))].
      split_and!; [done..|]. intros En. rewrite En in Hf. by apply elem_of_nil in Hf. }
  split.
  - intros s l' [(-> & -> & _)|[_ Hl']]%drop_position_lookup; [|by apply (Hnd s)].
    eapply sublist_NoDup; [by apply (Hnd state)|]. apply fmap_sublist, sublist_delete.
  - intros s l' [(_ & _ & ?)|[_ Hl']]%drop_position_lookup; [done|by apply (Hnil s)].
  - intros s x [Hh Hne]%Hholds. by destruct (Hgood s x Hh).
  - intros s l' x ex [(-> & -> & _)|[_ Hl']]%drop_position_lookup Hin; [|by eapply Hend].
    apply (Hend state l); [done|]. rewrite Edel in Hin. by apply list_elem_of_filter in Hin as [_ ?].
  - intros s s' x [Hh _]%Hholds [Hh' _]%Hholds. by eapply Huniq.
  - intros x [Hx Hne]. destruct (Htr x Hx) as [s Hs]. exists s. by apply Hholds.
Qed.

(** ** Finding a source *)

Lemma foldl_bind {A B C} (f : C → B → C) (g : A → list B) c l :
  foldl (λ c a, foldl f c (g a)) c l = foldl f c (l ≫= g).
Proof.
  revert c. induction l as [|a l IH]; intros c; [done|]. rewrite bind_cons, foldl_app. cbn. apply IH.
Qed.

(** The positions with where they are *)
Definition located positions : list (nat * nat * (nat * nat)) :=
  map_to_list positions ≫= λ '(s, l), imap (λ i p, (s, i, p)) l.

Lemma elem_of_located positions s i p : (s, i, p) ∈ located positions ↔ ∃ l, positions !! s = Some l ∧ l !! i = Some p.
Proof.
  unfold located. rewrite list_elem_of_bind. split.
  - intros ([s' l] & Hin & Hs). apply elem_of_map_to_list in Hs. apply list_elem_of_lookup in Hin as [j Hj].
    rewrite list_lookup_imap in Hj. destruct (l !! j) eqn:E; [|done]. cbn in Hj. simplify_eq. eauto.
  - intros (l & Hl & Hi). exists (s, l). split; [|by apply elem_of_map_to_list]. apply list_elem_of_lookup. exists i.
    by rewrite list_lookup_imap, Hi.
Qed.

Definition better texts (text : list nat) (best : option (nat * nat * nat)) (x : nat * nat * (nat * nat)) : option (nat * nat * nat) :=
  let '(s, i, p) := x in
  if is_source texts text p && match best with Some (id, _, _) => p.1 <? id | None => true end then Some (p.1, s, i) else best.

Lemma find_source_located texts positions text :
  find_source texts positions text = foldl (better texts text) None (located positions).
Proof.
  unfold find_source, located. rewrite <-foldl_bind. generalize (@None (nat * nat * nat)).
  induction (map_to_list positions) as [|[s l] ps IH]; intros best; [done|]. cbn [foldl]. rewrite IH. f_equal. clear.
  assert (∀ k (g : nat → nat), foldl (λ remove_location '(position_index, position),
      if is_source texts text position && match remove_location with Some (best_source_id, _, _) => position.1 <? best_source_id | None => true end
      then Some (position.1, s, position_index) else remove_location) best (imap (λ i p, (g i, p)) k) =
    foldl (better texts text) best (imap (λ i p, (s, g i, p)) k)) as Hgen; [|apply (Hgen l (λ i, i))].
  intros k. revert best. induction k as [|p k IH]; intros best g; [done|]. rewrite !imap_cons. cbn [foldl better]. apply (IH _ (λ i, g (S i))).
Qed.

Lemma better_spec texts text items best :
  match foldl (better texts text) best items with
  | Some (id, s, i) =>
      (best = Some (id, s, i) ∨ ∃ e, (s, i, (id, e)) ∈ items ∧ is_source texts text (id, e) = true) ∧
      (∀ id' s' i', best = Some (id', s', i') → id ≤ id') ∧
      ∀ s' i' p, (s', i', p) ∈ items → is_source texts text p = true → id ≤ p.1
  | None => best = None ∧ ∀ s' i' p, (s', i', p) ∈ items → is_source texts text p = false
  end.
Proof.
  revert best. induction items as [|[[s i] [id e]] items IH]; intros best; cbn [foldl].
  - destruct best as [[[id s] i]|]; [|by split; [|intros ? ? ? ?%elem_of_nil]].
    split_and!; [by left|by intros ? ? ? [= -> _ _]|by intros ? ? ? ?%elem_of_nil].
  - specialize (IH (better texts text best (s, i, (id, e)))). destruct (foldl _ _ items) as [[[id2 s2] i2]|].
    + destruct IH as (Hor & Hbest & Hmin). unfold better in Hor, Hbest. cbn [fst] in *.
      assert (is_source texts text (id, e) = true → id2 ≤ id) as Hid.
      { intros Hs. rewrite Hs in Hbest. destruct best as [[[b bs] bi]|]; cbn [andb] in Hbest; [|by apply (Hbest id s i)].
        destruct (Nat.ltb_spec id b); [by apply (Hbest id s i)|]. specialize (Hbest b bs bi eq_refl). lia. }
      split_and!.
      * destruct Hor as [Eb|(e' & Hin & Hs)]; [|right; exists e'; by split; [right|]].
        destruct (is_source texts text (id, e)) eqn:Hs; cbn [andb] in Eb; [|by left].
        destruct best as [[[b bs] bi]|]; [destruct (Nat.ltb_spec id b); [|by left]|]; injection Eb as <- <- <-; right; exists e; (split; [by left|done]).
      * intros b bs bi Eb. rewrite Eb in Hbest. destruct (is_source texts text (id, e)); cbn [andb] in Hbest; [|by apply (Hbest b bs bi)].
        destruct (Nat.ltb_spec id b); [|by apply (Hbest b bs bi)]. specialize (Hbest id s i eq_refl). lia.
      * intros s' i' p [[= -> -> ->]|Hin]%elem_of_cons Hp; [by apply Hid|by eapply Hmin].
    + destruct IH as [Eb Hmin]. unfold better in Eb. destruct (is_source texts text (id, e)) eqn:Hs; cbn [andb] in Eb.
      * destruct best as [[[b bs] bi]|]; [by destruct (_ <? _)|done].
      * split; [done|]. intros s' i' p [[= -> -> ->]|Hin]%elem_of_cons; [done|by eapply Hmin].
Qed.

Lemma is_source_true texts text id e : is_source texts text (id, e) = true ↔ e = length text ∧ texts !! id = Some text.
Proof.
  unfold is_source. cbn. rewrite andb_true_iff, Nat.eqb_eq. destruct (texts !! id) as [t|]; [|naive_solver].
  rewrite bool_decide_eq_true. naive_solver.
Qed.

(** [find_source] finds the first tracked source with the text. *)
Lemma find_source_spec good (tracked : nat → Prop) texts positions text :
  positions_ok good tracked (λ id, length (default [] (texts !! id))) positions →
  match find_source texts positions text with
  | Some (id, s, i) =>
      (∃ l e, positions !! s = Some l ∧ l !! i = Some (id, e)) ∧ tracked id ∧ texts !! id = Some text ∧
      ∀ id', tracked id' → texts !! id' = Some text → id ≤ id'
  | None => ∀ id, tracked id → texts !! id ≠ Some text
  end.
Proof.
  intros [Hnd Hnil Hgood Hend Huniq Htr]. rewrite find_source_located.
  assert (∀ id, tracked id → texts !! id = Some text → ∃ s i e, (s, i, (id, e)) ∈ located positions ∧ is_source texts text (id, e) = true) as Hloc.
  { intros id Hid Ht. destruct (Htr id Hid) as (s & l & Hl & Hin). apply list_elem_of_fmap in Hin as ([x e] & -> & Hin).
    destruct (list_elem_of_lookup_1 _ _ Hin) as [i Hi]. exists s, i, e. split; [apply elem_of_located; eauto|].
    apply is_source_true. split; [|done]. cbn in Ht. by rewrite (Hend s l x e Hl Hin), Ht. }
  pose proof (better_spec texts text (located positions) None) as Hb. destruct (foldl _ _ _) as [[[id s] i]|].
  - destruct Hb as ([Hn|(e & Hin & Hs)] & _ & Hmin); [done|]. apply elem_of_located in Hin as (l & Hl & Hi).
    apply is_source_true in Hs as [_ Ht]. split_and!; [eauto| |done|].
    + apply (Hgood s id). exists l. split; [done|]. apply (list_elem_of_fmap_2 fst _ (id, e)). by eapply list_elem_of_lookup_2.
    + intros id' Hid' Ht'. destruct (Hloc id' Hid' Ht') as (s' & i' & e' & Hin' & Hs'). by apply (Hmin s' i' (id', e')).
  - destruct Hb as [_ Hno]. intros id Hid Ht. destruct (Hloc id Hid Ht) as (s & i & e & Hin & Hs). by rewrite (Hno s i (id, e) Hin) in Hs.
Qed.

(** ** The sources with a position *)

Lemma active_sources_spec good (tracked : nat → Prop) len texts positions id :
  positions_ok good tracked len positions → (∀ id, tracked id → id < length texts) →
  length (active_sources texts positions) = length texts ∧
  (default false (active_sources texts positions !! id) = true ↔ tracked id).
Proof.
  intros Hok Hlt. unfold active_sources.
  rewrite (foldl_bind (λ active (position : nat * nat), <[position.1 := true]> active) (λ entry : nat * list (nat * nat), entry.2)).
  set (ps := _ ≫= _). set (start := replicate _ _).
  assert (∀ x, x ∈ ps.*1 ↔ tracked x) as Hps.
  { intros x. unfold ps. rewrite list_elem_of_fmap. setoid_rewrite list_elem_of_bind. split.
    - intros ([x' e] & -> & [s l] & Hin & Hl%elem_of_map_to_list). apply (po_good _ _ _ _ Hok s). exists l. split; [done|].
      by apply (list_elem_of_fmap_2 fst _ (x', e)).
    - intros (s & l & Hl & Hin)%(po_tracked _ _ _ _ Hok). apply list_elem_of_fmap in Hin as ([x' e] & -> & Hin).
      exists (x', e). split; [done|]. exists (s, l). split; [done|]. by apply elem_of_map_to_list. }
  assert (∀ ps (a : list bool), length (foldl (λ active (position : nat * nat), <[position.1 := true]> active) a ps) = length a ∧
    ∀ id, id < length a → (default false (foldl (λ active (position : nat * nat), <[position.1 := true]> active) a ps !! id) = true ↔
      id ∈ ps.*1 ∨ default false (a !! id) = true)) as Hgen.
  { clear. induction ps as [|[x e] ps IH]; intros a; cbn [foldl fmap list_fmap fst].
    { split; [done|]. intros id _. split; [by right|]. by intros [?%elem_of_nil|]. }
    destruct (IH (<[x := true]> a)) as [Hl Hin]. rewrite length_insert in Hl. split; [done|]. intros id Hid.
    rewrite Hin by by rewrite length_insert. rewrite elem_of_cons. destruct (decide (x = id)) as [->|Hne].
    - rewrite list_lookup_insert_eq by done. cbn. tauto.
    - rewrite list_lookup_insert_ne by done. naive_solver. }
  destruct (Hgen ps start) as [Hl Hin]. assert (length start = length texts) as Hs by apply length_replicate. rewrite Hs in *.
  split; [done|]. destruct (decide (id < length texts)) as [Hid|Hge].
  - rewrite Hin by done. rewrite Hps. split; [|by left]. intros [?|Hf]; [done|]. unfold start in Hf. by rewrite lookup_replicate_2 in Hf.
  - rewrite lookup_ge_None_2 by lia. split; [done|]. intros ?%Hlt. lia.
Qed.
