(* ===== verification/SuffixCompact.v ===== *)
(** * Compaction of a suffix automaton

    The mark-and-sweep pass of [compact] (src/src/suffix_automaton/ascii.rs) keeps the
    states with words, renumbered in order: the automaton recognises the same words with
    the same values.  A state without words goes, and its positions with it. *)

From stdpp Require Import prelude gmap sorting.
From S2P Require Import Prelude Edges Tree SuffixClasses SuffixAutomaton SuffixTexts SuffixIndex SuffixRecords.

Section compact.
Context {V : Type}.
Implicit Types nodes : list (SuffixNode V).

(** ** Marking *)

(** The edges of the nodes that are not marked yet *)
Fixpoint pending nodes (reachable : list bool) : nat :=
  match nodes, reachable with
  | n :: nodes, b :: reachable => (if b then 0 else length (sx_edges n)) + pending nodes reachable
  | _, _ => 0
  end.

Lemma pending_start nodes : pending nodes (replicate (length nodes) false) = length (nodes ≫= sx_edges).
Proof. induction nodes as [|n nodes IH]; [done|]. cbn [length replicate pending]. by rewrite IH, bind_cons, length_app. Qed.

Lemma pending_mark nodes reachable s n :
  nodes !! s = Some n → reachable !! s = Some false →
  pending nodes reachable = length (sx_edges n) + pending nodes (<[s := true]> reachable).
Proof.
  revert reachable s. induction nodes as [|m nodes IH]; [done|]. intros [|b reachable] [|s] Hn Hb; try done.
  - injection Hn as ->. injection Hb as ->. done.
  - change (<[S s := true]> (b :: reachable)) with (b :: <[s := true]> reachable). cbn [pending]. rewrite (IH reachable s Hn Hb). lia.
Qed.

Section marking.
Context (w : nat → list nat) (P : list nat → Prop) (nodes : list (SuffixNode V)) (Hauto : automaton w P nodes).

Notation alive s := (s < length nodes ∧ live (link_of nodes) w s).

Lemma edge_alive s n l t : alive s → nodes !! s = Some n → (l, t) ∈ sx_edges n → edge_of nodes s l = Some t ∧ alive t.
Proof.
  intros [Hs Hl] Hn Hin. destruct Hauto as [Hok Ha]. assert (edge_of nodes s l = Some t) as He.
  { unfold edge_of. rewrite Hn. apply edge_get_Some; [by apply (Hok s n)|done]. }
  split; [done|]. pose proof (ao_edge _ _ _ _ _ Ha s (w s) l Hs Hl) as Hedge. rewrite He in Hedge. destruct Hedge as [Ht Hc].
  split; [done|]. by eapply class_live.
Qed.

Lemma link_alive s l : alive s → link_of nodes s = Some l → alive l.
Proof.
  intros [Hs _] El. destruct Hauto as [Hok Ha].
  assert (s ≠ 0) as Hs0 by (intros ->; destruct (ao_root _ _ _ _ _ Ha) as (_ & _ & ?); congruence).
  destruct (ao_link _ _ _ _ _ Ha s Hs Hs0) as (l' & El' & ? & _ & ?). rewrite El in El'. by injection El' as <-.
Qed.

Lemma root_alive : alive 0.
Proof. destruct Hauto as [_ Ha]. split; [apply Ha|]. eapply class_live, class_root, Ha. Qed.

(** The invariant of the loop *)
Definition marking (stack : list nat) (reachable : list bool) : Prop :=
  length reachable = length nodes ∧ (∀ s, s ∈ stack → alive s) ∧ (∀ s, reachable !! s = Some true → alive s) ∧
  (reachable !! 0 = Some true ∨ 0 ∈ stack) ∧
  ∀ s l t, reachable !! s = Some true → edge_of nodes s l = Some t → reachable !! t = Some true ∨ t ∈ stack.

Lemma marking_end reachable s : marking [] reachable → reachable !! s = Some true ↔ alive s.
Proof.
  intros (Hlen & _ & Hal & H0 & Hclosed). split; [apply Hal|]. intros [Hs Hl].
  destruct H0 as [H0|?%elem_of_nil]; [|done].
  assert (∀ u s, path (edge_of nodes) 0 u = Some s → reachable !! s = Some true) as Hpath.
  { clear s Hs Hl. induction u as [|c u IH] using rev_ind; intros s; [by intros [= <-]|].
    intros (p & Hp & He)%path_snoc. by destruct (Hclosed p c s (IH p Hp) He) as [?|?%elem_of_nil]. }
  apply (Hpath (w s)). by apply (path_class _ _ _ _ _ (proj2 Hauto)).
Qed.

Lemma elem_of_rev_append (x : nat) (l k : list nat) : x ∈ rev_append l k ↔ x ∈ l ∨ x ∈ k.
Proof. rewrite rev_append_rev, elem_of_app. by rewrite !list_elem_of_In, <-in_rev. Qed.

Lemma mark_step s n stack reachable :
  marking (s :: stack) reachable → nodes !! s = Some n → reachable !! s = Some false →
  marking (rev_append (sx_edges n).*2 stack) (<[s := true]> reachable).
Proof.
  intros (Hlen & Hst & Hal & H0 & Hclosed) Hn Hf. assert (alive s) as Hs by (apply Hst; by left).
  assert (s < length reachable) as Hsl by (rewrite Hlen; apply Hs). split_and!.
  - by rewrite length_insert.
  - intros t [Ht|Ht]%elem_of_rev_append; [|apply Hst; by right]. apply list_elem_of_fmap in Ht as ([l t'] & -> & Ht).
    by apply (edge_alive s n l).
  - intros t [(<- & _)|[_ Ht]]%list_lookup_insert_Some; [done|by apply Hal].
  - destruct (decide (s = 0)) as [->|Hne]; [left; by rewrite list_lookup_insert_eq|]. rewrite list_lookup_insert_ne by done.
    destruct H0 as [?|[?|?]%elem_of_cons]; [by left|congruence|right]. apply elem_of_rev_append. by right.
  - intros a l t Ha He. destruct (decide (t = s)) as [->|Hts]; [left; by rewrite list_lookup_insert_eq|].
    rewrite (list_lookup_insert_ne _ s t) by done. rewrite elem_of_rev_append.
    apply list_lookup_insert_Some in Ha as [(<- & _)|[_ Ha]].
    + right. left. unfold edge_of in He. rewrite Hn in He. apply edge_get_in in He. by apply (list_elem_of_fmap_2 snd _ (l, t)).
    + destruct (Hclosed a l t Ha He) as [?|[?|?]%elem_of_cons]; [by left|done|right; by right].
Qed.

Lemma mark_spec fuel stack reachable :
  marking stack reachable → length stack + pending nodes reachable ≤ fuel →
  ∃ reachable', mark nodes fuel stack reachable = Ret reachable' ∧ marking [] reachable'.
Proof.
  revert stack reachable. induction fuel as [|fuel IH]; intros [|s stack] reachable Hm Hfuel; cbn [mark length] in *; [eauto|lia|eauto|].
  destruct Hm as (Hlen & Hst & Hal & H0 & Hclosed). assert (alive s) as [Hs Hl] by (apply Hst; by left).
  destruct (lookup_lt_is_Some_2 reachable s) as [seen Hseen]; [lia|]. rewrite Hseen. cbn [mbind option_bind]. destruct seen.
  - apply IH; [|lia]. split_and!; [done| |done| |].
    + intros t Ht. apply Hst. by right.
    + destruct H0 as [?|[->|?]%elem_of_cons]; [by left|by left|by right].
    + intros a l t Ha He. destruct (Hclosed a l t Ha He) as [?|[->|?]%elem_of_cons]; [by left|by left|by right].
  - destruct (lookup_lt_is_Some_2 nodes s Hs) as [n Hn]. rewrite store_Some by lia. cbn [mbind option_bind]. rewrite Hn. cbn [mbind option_bind].
    apply IH; [by apply mark_step|]. rewrite (pending_mark nodes reachable s n Hn Hseen) in Hfuel.
    rewrite rev_append_rev, length_app, length_rev, length_fmap. lia.
Qed.

Lemma mark_all :
  ∃ reachable, mark nodes (1 + length (nodes ≫= sx_edges)) [0] (replicate (length nodes) false) = Ret reachable ∧
    length reachable = length nodes ∧ ∀ s, reachable !! s = Some true ↔ alive s.
Proof.
  destruct (mark_spec (1 + length (nodes ≫= sx_edges)) [0] (replicate (length nodes) false)) as (reachable & -> & Hm).
  - assert (∀ s, ¬ replicate (length nodes) false !! s = Some true) as Hno by (by intros s [? _]%lookup_replicate).
    split_and!; [apply length_replicate| | |right; by left|].
    + intros s ->%list_elem_of_singleton. apply root_alive.
    + intros s Hs. by destruct (Hno s).
    + intros s l t Hs. by destruct (Hno s).
  - rewrite pending_start. cbn. lia.
  - exists reachable. split_and!; [done|apply Hm|]. intros s. by apply marking_end.
Qed.

(** ** Sweeping *)

Section sweeping.
Context (reachable : list bool) (Hlen : length reachable = length nodes) (Hreach : ∀ s, reachable !! s = Some true ↔ alive s).

(** The kept states, in order *)
Definition kept_of (states : list nat) : list nat := filter (λ s, reachable !! s = Some true) states.
Definition kept : list nat := kept_of (seq 0 (length nodes)).

Lemma kept_alive s : s ∈ kept ↔ alive s.
Proof.
  unfold kept, kept_of. rewrite list_elem_of_filter, Hreach, elem_of_seq. split; [tauto|]. intros [Hs Hl]. split; [done|lia].
Qed.

Lemma kept_NoDup : NoDup kept.
Proof. apply NoDup_filter, NoDup_seq. Qed.

Lemma kept_root : kept !! 0 = Some 0.
Proof.
  destruct root_alive as [H0 Hl]. unfold kept, kept_of. destruct (length nodes) as [|n] eqn:E; [lia|]. cbn [seq].
  rewrite filter_cons_True; [done|]. apply Hreach. split; [lia|done].
Qed.

Lemma sweep_spec :
  ∃ new_nodes old_to_new, sweep nodes reachable = Ret (new_nodes, old_to_new) ∧
    Forall2 (λ s n, nodes !! s = Some n) kept new_nodes ∧ ∀ i s, kept !! i = Some s → old_to_new !! s = Some i.
Proof.
  unfold sweep.
  destruct (foldM_inv (λ states st, Forall2 (λ s n, nodes !! s = Some n) (kept_of states) st.1 ∧ length st.2 = length nodes ∧
      ∀ i s, kept_of states !! i = Some s → st.2 !! s = Some i)
    (λ '(new_nodes, old_to_new) old_idx,
      kept ← reachable !! old_idx;
      if (kept : bool) then
        node ← nodes !! old_idx;
        old_to_new ← store old_to_new old_idx (length new_nodes);
        Ret (new_nodes ++ [node], old_to_new)
      else Ret (new_nodes, old_to_new))
    ([], replicate (length nodes) 0) (seq 0 (length nodes))) as ([new_nodes old_to_new] & E & Hnew & _ & Hold).
  - split_and!; [constructor|apply length_replicate|done].
  - intros states s rest [new_nodes old_to_new] Eseq (Hnew & Hlo & Hold). cbn [fst snd] in *.
    assert (s ∈ seq 0 (length nodes)) as [_ Hs]%elem_of_seq by (rewrite Eseq; set_solver). cbn in Hs.
    assert (s ∉ states) as Hnot.
    { pose proof (NoDup_seq 0 (length nodes)) as Hnd. rewrite Eseq in Hnd. apply NoDup_app in Hnd as (_ & Hnd & _).
      intros Hin. by destruct (Hnd s Hin); left. }
    assert (kept_of (states ++ [s]) = kept_of states ++ kept_of [s]) as Eapp by apply filter_app.
    destruct (lookup_lt_is_Some_2 reachable s) as [b Hb]; [lia|]. rewrite Hb. cbn [mbind option_bind]. destruct b.
    + destruct (lookup_lt_is_Some_2 nodes s Hs) as [n Hn]. rewrite Hn, store_Some by lia. cbn [mbind option_bind].
      eexists. split; [done|]. cbn [fst snd]. rewrite length_insert, Eapp.
      assert (kept_of [s] = [s]) as -> by (unfold kept_of; by rewrite filter_cons_True).
      pose proof (Forall2_length _ _ _ Hnew) as Hl. split_and!; [by apply Forall2_app; [|constructor]|done|].
      intros i x Hx. apply lookup_app_Some in Hx as [Hx|[Hge Hx]].
      * rewrite list_lookup_insert_ne; [by apply Hold|]. intros ->. apply Hnot.
        apply list_elem_of_lookup_2 in Hx. by apply list_elem_of_filter in Hx as [_ ?].
      * apply list_lookup_singleton_Some in Hx as [Hi <-]. rewrite list_lookup_insert_eq by lia. f_equal. lia.
    + eexists. split; [done|]. assert (kept_of [s] = []) as Enil by (unfold kept_of; rewrite filter_cons_False; [done|congruence]).
      by rewrite Eapp, Enil, app_nil_r.
  - exists new_nodes, old_to_new. split_and!; [done..|]. intros i s Hs. by apply Hold.
Qed.

(** ** Renumbering *)

Context (new_nodes : list (SuffixNode V)) (old_to_new : list nat).
Context (Hnew : Forall2 (λ s n, nodes !! s = Some n) kept new_nodes).
Context (Hold : ∀ i s, kept !! i = Some s → old_to_new !! s = Some i).

Definition old_of (t : nat) : nat := default 0 (kept !! t).
Definition new_of (s : nat) : nat := default 0 (old_to_new !! s).

Definition remapped (n : SuffixNode V) : SuffixNode V :=
  mkSuffixNode ((λ e, (e.1, new_of e.2)) <$> sx_edges n) (new_of <$> sx_link n) (sx_max_length n) (sx_final n) (sx_value n).
Notation nodes' := (remapped <$> new_nodes).

Lemma kept_new s : alive s → old_to_new !! s = Some (new_of s) ∧ kept !! new_of s = Some s.
Proof.
  intros [i Hi]%kept_alive%list_elem_of_lookup. pose proof (Hold i s Hi) as E. unfold new_of. by rewrite E.
Qed.

Lemma kept_length : length nodes' = length kept.
Proof. rewrite length_fmap. symmetry. by eapply Forall2_length. Qed.

Lemma kept_lookup t : t < length nodes' → kept !! t = Some (old_of t) ∧ alive (old_of t).
Proof.
  rewrite kept_length. intros [s Hs]%lookup_lt_is_Some_2. unfold old_of. rewrite Hs. split; [done|]. cbn.
  apply kept_alive. by eapply list_elem_of_lookup_2.
Qed.

Lemma old_of_new s : alive s → new_of s < length nodes' ∧ old_of (new_of s) = s.
Proof.
  intros [_ Hk]%kept_new. rewrite kept_length. split; [by eapply lookup_lt_Some|]. unfold old_of. by rewrite Hk.
Qed.

Lemma old_of_inj t t' : t < length nodes' → t' < length nodes' → old_of t = old_of t' → t = t'.
Proof.
  intros [Ht _]%kept_lookup [Ht' _]%kept_lookup E. rewrite E in Ht. by eapply NoDup_lookup; [apply kept_NoDup|..].
Qed.

Lemma new_node_lookup t m : nodes' !! t = Some m → ∃ n, nodes !! old_of t = Some n ∧ m = remapped n.
Proof.
  intros Hm. assert (t < length nodes') as Ht by by eapply lookup_lt_Some. rewrite list_lookup_fmap in Hm.
  destruct (new_nodes !! t) as [n|] eqn:En; [|done]. injection Hm as <-. exists n. split; [|done].
  destruct (kept_lookup t Ht) as [Hk _]. by apply (Forall2_lookup_lr _ _ _ _ _ _ Hnew Hk En).
Qed.

Lemma old_node t : t < length nodes' → ∃ n, nodes !! old_of t = Some n ∧ nodes' !! t = Some (remapped n).
Proof. intros [m Hm]%lookup_lt_is_Some_2. destruct (new_node_lookup t m Hm) as (n & Hn & ->). eauto. Qed.

Lemma remap_spec : mapM (remap old_to_new) new_nodes = Ret nodes'.
Proof.
  apply mapM_pure. intros n Hn.
  apply list_elem_of_lookup in Hn as [t Ht]. assert (nodes' !! t = Some (remapped n)) as Ht' by by rewrite list_lookup_fmap, Ht.
  assert (t < length nodes') as Hlt by by eapply lookup_lt_Some. destruct (kept_lookup t Hlt) as [Hk Hal].
  pose proof (Forall2_lookup_lr _ _ _ _ _ _ Hnew Hk Ht) as Hold_n. unfold remap.
  assert (mapM (λ '(label, target), new ← old_to_new !! target; Ret (label, new)) (sx_edges n) =
    Ret ((λ e, (e.1, new_of e.2)) <$> sx_edges n)) as ->.
  { apply mapM_pure. intros [l s] Hin.
    destruct (edge_alive _ n l s Hal Hold_n Hin) as [_ Hs]. by rewrite (proj1 (kept_new s Hs)). }
  cbn [mbind option_bind]. unfold remapped. destruct (sx_link n) as [l|] eqn:El; [|done].
  rewrite (proj1 (kept_new l (link_alive _ l Hal (eq_trans (f_equal (λ o, o ≫= sx_link) Hold_n) El)))). done.
Qed.

Lemma edge_get_remapped (edges : list (nat * nat)) l : edge_get l ((λ e, (e.1, new_of e.2)) <$> edges) = new_of <$> edge_get l edges.
Proof. induction edges as [|[k t] edges IH]; [done|]. cbn. by destruct (l =? k). Qed.

Lemma compact_edge t c : t < length nodes' → edge_of nodes' t c = new_of <$> edge_of nodes (old_of t) c.
Proof.
  intros Ht. destruct (old_node t Ht) as (n & Hn & Hn'). unfold edge_of. rewrite Hn', Hn. apply edge_get_remapped.
Qed.

Lemma compact_link t : t < length nodes' → link_of nodes' t = new_of <$> link_of nodes (old_of t).
Proof. intros Ht. destruct (old_node t Ht) as (n & Hn & Hn'). unfold link_of. by rewrite Hn', Hn. Qed.

Lemma compact_value t : t < length nodes' → value_of nodes' t = value_of nodes (old_of t).
Proof. intros Ht. destruct (old_node t Ht) as (n & Hn & Hn'). unfold value_of. by rewrite Hn', Hn. Qed.

Lemma compact_hyps :
  (0 < length nodes' ∧ old_of 0 = 0) ∧
  (∀ t c, t < length nodes' → match edge_of nodes (old_of t) c with
     | Some s => ∃ t', edge_of nodes' t c = Some t' ∧ t' < length nodes' ∧ old_of t' = s
     | None => edge_of nodes' t c = None end) ∧
  (∀ t, t < length nodes' → match link_of nodes (old_of t) with
     | Some l => ∃ t', link_of nodes' t = Some t' ∧ t' < length nodes' ∧ old_of t' = l
     | None => link_of nodes' t = None end).
Proof.
  split_and!.
  - rewrite kept_length. by eapply lookup_lt_Some, kept_root.
  - unfold old_of. by rewrite kept_root.
  - intros t c Ht. rewrite compact_edge by done. destruct (old_node t Ht) as (n & Hn & _). destruct (kept_lookup t Ht) as [_ Hal].
    unfold edge_of. rewrite Hn. destruct (edge_get c (sx_edges n)) as [s|] eqn:E; [|done]. exists (new_of s). split; [done|].
    apply old_of_new. by apply (edge_alive _ n c s Hal Hn), edge_get_in.
  - intros t Ht. rewrite compact_link by done. destruct (link_of nodes (old_of t)) as [l|] eqn:E; [|done]. exists (new_of l). split; [done|].
    apply old_of_new. by eapply link_alive; [apply (kept_lookup t Ht)|].
Qed.

Lemma compact_class t u : t < length nodes' → class (link_of nodes') (λ t, w (old_of t)) t u ↔ class (link_of nodes) w (old_of t) u.
Proof. destruct compact_hyps as (_ & _ & HL). by apply (rename_class (link_of nodes) w (λ t, t < length nodes')). Qed.

(** The automaton is the same up to the numbering. *)
Lemma compact_automaton : automaton (λ t, w (old_of t)) P nodes'.
Proof.
  destruct compact_hyps as (H0 & HE & HL). split.
  - intros t m Hm. assert (t < length nodes') as Ht by by eapply lookup_lt_Some. destruct (new_node_lookup t m Hm) as (n & Hn & ->).
    destruct Hauto as [Hok _]. destruct (Hok _ n Hn) as (Hs & Hl & Hf). split_and!; [|done|].
    + cbn. by rewrite <-list_fmap_compose.
    + intros Ht0. apply Hf. intros E. apply Ht0, old_of_inj; [done|apply H0|]. rewrite E. symmetry. apply H0.
  - apply (rename_ok (state_of nodes) (edge_of nodes) (link_of nodes)); try done; [apply Hauto| | |].
    + intros t Ht. by apply kept_lookup.
    + intros t t' Ht Ht'. by apply old_of_inj.
    + intros s Hs Hl. exists (new_of s). by apply old_of_new.
Qed.

Lemma compact_word_value u : word_value nodes' u = word_value nodes u.
Proof.
  destruct (path (edge_of nodes') 0 u) as [t|] eqn:E.
  - apply (path_class _ _ _ _ _ (proj2 compact_automaton)) in E as [Ht Hc]. rewrite (word_value_class _ _ _ _ u compact_automaton Ht Hc).
    apply (compact_class t u Ht) in Hc. rewrite (word_value_class _ _ _ _ u Hauto (proj1 (proj2 (kept_lookup t Ht))) Hc). by apply compact_value.
  - unfold word_value at 1. rewrite E. symmetry. apply (word_value_None _ _ _ u Hauto).
    intros [s Hs]%(path_factor _ _ _ _ _ (proj2 compact_automaton)). congruence.
Qed.

(** ** The positions *)

Lemma compact_positions good (tracked : nat → Prop) (len : nat → nat) (is_kept : nat → Prop) (positions : gmap nat (list (nat * nat))) :
  positions_ok (λ s id, s < length nodes ∧ (is_kept id ↔ live (link_of nodes) w s)) tracked len positions →
  (∀ t id, t < length nodes' → is_kept id → good t id) →
  ∃ new_positions, foldM (λ new_positions '(old_state, positions),
      kept ← reachable !! old_state;
      if (kept : bool) then new_state ← old_to_new !! old_state; Ret (<[new_state := positions]> new_positions)
      else Ret new_positions) ∅ (map_to_list positions) = Ret new_positions ∧
    positions_ok good (λ id, tracked id ∧ is_kept id) len new_positions.
Proof.
  intros Hok Hgood.
  assert (∀ s l, positions !! s = Some l → s < length nodes) as Hstate.
  { intros s l Hl. destruct l as [|[id e] l0]; [by destruct (po_nonempty _ _ _ _ Hok s [] Hl)|].
    apply (po_good _ _ _ _ Hok s id). eexists. split; [exact Hl|]. by left. }
  destruct (foldM_inv (λ entries m, ∀ t l, m !! t = Some l ↔ ∃ s, (s, l) ∈ entries ∧ alive s ∧ new_of s = t)
    (λ new_positions '(old_state, positions),
      kept ← reachable !! old_state;
      if (kept : bool) then new_state ← old_to_new !! old_state; Ret (<[new_state := positions]> new_positions)
      else Ret new_positions) (∅ : gmap nat (list (nat * nat))) (map_to_list positions)) as (m & -> & Hm).
  { intros t l. rewrite lookup_empty. split; [done|]. by intros (s & ?%elem_of_nil & _). }
  { intros entries [s l] rest m Eent Hm. assert ((s, l) ∈ map_to_list positions) as Hl by (rewrite Eent; set_solver).
    apply elem_of_map_to_list in Hl. pose proof (Hstate s l Hl) as Hs. destruct (lookup_lt_is_Some_2 reachable s) as [b Hb]; [lia|].
    assert (s ∉ entries.*1) as Hnot.
    { pose proof (NoDup_fst_map_to_list positions) as Hnd. rewrite Eent, fmap_app, NoDup_app in Hnd. destruct Hnd as (_ & Hnd & _).
      intros Hin. by destruct (Hnd s Hin); left. }
    rewrite Hb. cbn [mbind option_bind]. destruct b.
    - assert (alive s) as Hal by by apply Hreach. rewrite (proj1 (kept_new s Hal)). cbn [mbind option_bind]. eexists. split; [done|].
      intros t k. rewrite lookup_insert_Some. setoid_rewrite elem_of_app. setoid_rewrite list_elem_of_singleton. split.
      + intros [[<- <-]|[_ (s' & Hin & Hs' & E)%Hm]]; [exists s; by split; [right|]|exists s'; by split; [left|]].
      + intros (s' & [Hin|[= -> ->]] & Hs' & E); [|by left]. right. split; [|apply Hm; eauto]. intros <-.
        assert (s' = s) as ->; [|destruct Hnot; by apply (list_elem_of_fmap_2 fst _ (s, k))].
        apply (inj Some). by rewrite <-(proj2 (kept_new s' Hs')), <-(proj2 (kept_new s Hal)), E.
    - eexists. split; [done|]. intros t k. rewrite Hm. setoid_rewrite elem_of_app. setoid_rewrite list_elem_of_singleton. split.
      + intros (s' & Hin & Hs'). exists s'. by split; [left|].
      + intros (s' & [Hin|[= -> ->]] & Hs' & E); [exists s'; by split|]. apply Hreach in Hs'. congruence. }
  exists m. split; [done|].
  assert (∀ t l, m !! t = Some l ↔ t < length nodes' ∧ positions !! old_of t = Some l) as Hlookup.
  { intros t l. rewrite Hm. split.
    - intros (s & Hl%elem_of_map_to_list & Hal & <-). destruct (old_of_new s Hal) as [? ->]. done.
    - intros [Ht Hl]. destruct (kept_lookup t Ht) as [_ Hal]. exists (old_of t). rewrite elem_of_map_to_list. split_and!; [done|apply Hal..|].
      apply old_of_inj; [by apply old_of_new|done|by apply old_of_new]. }
  assert (∀ t id, holds m t id ↔ t < length nodes' ∧ holds positions (old_of t) id) as Hholds.
  { intros t id. unfold holds. setoid_rewrite Hlookup. naive_solver. }
  split.
  - intros t l [_ Hl]%Hlookup. by eapply po_NoDup.
  - intros t l [_ Hl]%Hlookup. by eapply po_nonempty.
  - intros t id [Ht Hh]%Hholds. destruct (po_good _ _ _ _ Hok _ _ Hh) as (Htr & _ & Hk). destruct (kept_lookup t Ht) as [_ [_ Hl]].
    assert (is_kept id) by by apply Hk. split; [done|by apply Hgood].
  - intros t l id e [_ Hl]%Hlookup. by eapply po_end.
  - intros t t' id [Ht Hh]%Hholds [Ht' Hh']%Hholds. apply old_of_inj; [done..|]. by eapply po_unique.
  - intros id [Hid Hk]. destruct (po_tracked _ _ _ _ Hok id Hid) as [s Hs]. destruct (po_good _ _ _ _ Hok _ _ Hs) as (_ & Hlt & Hl).
    assert (alive s) as Hal by (split; [done|by apply Hl]). exists (new_of s). apply Hholds. destruct (old_of_new s Hal) as [? ->]. done.
Qed.

End sweeping.
End marking.
End compact.
