(* ===== verification/SuffixDictionary.v ===== *)
(** * The suffix index refines its list of sources

    The abstract state of a [SuffixAutomaton] is the list of sources in the order of
    insertion, and the value of every word.  The operations of the index refine those on
    the abstract state, whatever the order of the operations. *)

From stdpp Require Import prelude gmap sorting.
From S2P Require Import Prelude Edges Tree Zipper SuffixClasses SuffixAutomaton SuffixTexts SuffixIndex SuffixRecords SuffixCompact.

Section dictionary.
Context {V : Type}.
Implicit Types nodes : list (SuffixNode V).

(** ** Sources *)

Record source := mkSource {
  so_text : list nat;
  so_value : option V;
  so_active : bool; (** in the sorted index *)
  so_tracked : bool; (** has a position *)
  so_kept : bool; (** its position survives compaction *)
}.

Implicit Types recs : list source.

Definition texts_of recs : list (list nat) := so_text <$> recs.
Definition having (p : source → bool) recs (id : nat) : Prop := ∃ r, recs !! id = Some r ∧ p r = true.
Definition length_of recs (id : nat) : nat := length (default [] (texts_of recs !! id)).

(** The invariant *)
Record index_ok (w : nat → list nat) (inner : SuffixAutomatonInner V) recs : Prop := {
  io_automaton : automaton w (prefixes (texts_of recs)) (sa_nodes inner);
  io_texts : sa_source_texts inner = texts_of recs;
  io_values : sa_source_values inner = so_value <$> recs;
  io_sorted : StronglySorted (source_lt (texts_of recs)) (sa_sorted_source_indices inner);
  io_active id : id ∈ sa_sorted_source_indices inner ↔ having so_active recs id;
  io_count : sa_string_count inner = length (sa_sorted_source_indices inner);
  io_tracked id : having so_tracked recs id → having so_active recs id;
  io_positions : positions_ok
    (λ s id, s < length (sa_nodes inner) ∧ (having so_kept recs id ↔ live (link_of (sa_nodes inner)) w s))
    (having so_tracked recs) (length_of recs) (sa_positions inner);
}.

(** A fresh text gets a state of its own. *)
Definition fresh (texts : list (list nat)) (text : list nat) : bool :=
  bool_decide (text = []) || negb (bool_decide (occurs texts text)).

Definition new_source recs (text : list nat) (value : option V) : source :=
  mkSource text value true true (fresh (texts_of recs) text).

(** ** Nodes with another value *)

Definition with_value (n : SuffixNode V) (final : bool) (value : option V) : SuffixNode V :=
  mkSuffixNode (sx_edges n) (sx_link n) (sx_max_length n) final value.

Lemma with_value_edge nodes s n final value k d :
  nodes !! s = Some n → edge_of (<[s := with_value n final value]> nodes) k d = edge_of nodes k d.
Proof.
  intros Hn. unfold edge_of. destruct (decide (k = s)) as [->|]; [|by rewrite list_lookup_insert_ne].
  rewrite list_lookup_insert_eq by (by eapply lookup_lt_Some). by rewrite Hn.
Qed.

Lemma with_value_link nodes s n final value k :
  nodes !! s = Some n → link_of (<[s := with_value n final value]> nodes) k = link_of nodes k.
Proof.
  intros Hn. unfold link_of. destruct (decide (k = s)) as [->|]; [|by rewrite list_lookup_insert_ne].
  rewrite list_lookup_insert_eq by (by eapply lookup_lt_Some). by rewrite Hn.
Qed.

Lemma with_value_automaton w P nodes s n final value :
  automaton w P nodes → nodes !! s = Some n → (s ≠ 0 → final = true) → automaton w P (<[s := with_value n final value]> nodes).
Proof.
  intros [Hok Ha] Hn Hf. split.
  - intros k m Hm. apply list_lookup_insert_Some in Hm as [(<- & <- & _)|[_ Hm]]; [|by apply Hok].
    destruct (Hok s n Hn) as (? & ? & Hs). split_and!; [done..|]. intros Hs0. split; [by apply Hf|by apply Hs].
  - eapply automaton_ok_ext; [| | | |exact Ha]; [|intros; symmetry..|done].
    + intros k. unfold state_of. by rewrite length_insert.
    + by apply with_value_edge.
    + by apply with_value_link.
Qed.

Lemma path_ext {A L} (step step' : A → L → option A) s u : (∀ s l, step s l = step' s l) → path step s u = path step' s u.
Proof. intros E. revert s. induction u as [|l u IH]; intros s; [done|]. cbn. rewrite E. by destruct (step' s l). Qed.

Lemma with_value_word nodes s n final value u :
  nodes !! s = Some n →
  word_value (<[s := with_value n final value]> nodes) u = if decide (path (edge_of nodes) 0 u = Some s) then value else word_value nodes u.
Proof.
  intros Hn. unfold word_value. rewrite (path_ext _ (edge_of nodes)) by (intros; by apply with_value_edge).
  destruct (path (edge_of nodes) 0 u) as [k|]; [|by rewrite decide_False]. cbn. unfold value_of.
  destruct (decide (k = s)) as [->|Hne]; [rewrite decide_True by done|rewrite decide_False by congruence; by rewrite list_lookup_insert_ne].
  rewrite list_lookup_insert_eq by (by eapply lookup_lt_Some). done.
Qed.

(** ** Lookup in the index *)

Lemma find_term_state_path w inner recs u : index_ok w inner recs → find_term_state inner u = path (edge_of (sa_nodes inner)) 0 u.
Proof.
  intros Hio. apply path_ext. intros s c. destruct (sa_nodes inner !! s) as [n|] eqn:En.
  - apply (find_edge_get w); [apply Hio|done].
  - unfold edge_of. by rewrite En.
Qed.

Lemma find_term_state_class w inner recs u s :
  index_ok w inner recs → find_term_state inner u = Some s ↔ s < length (sa_nodes inner) ∧ class (link_of (sa_nodes inner)) w s u.
Proof. intros Hio. rewrite (find_term_state_path w inner recs u Hio). apply (path_class _ _ _ _ _ (proj2 (io_automaton _ _ _ Hio))). Qed.

Lemma find_term_state_occurs w inner recs u : index_ok w inner recs → is_Some (find_term_state inner u) ↔ occurs (texts_of recs) u.
Proof.
  intros Hio. rewrite (find_term_state_path w inner recs u Hio), (path_factor _ _ _ _ _ (proj2 (io_automaton _ _ _ Hio))).
  apply factor_prefixes.
Qed.

Lemma value_from_inner_word w inner recs u : index_ok w inner recs → value_from_inner inner u = word_value (sa_nodes inner) u.
Proof. intros Hio. unfold value_from_inner. by rewrite (find_term_state_path w inner recs u Hio). Qed.

(** ** One more source *)

Lemma having_snoc p recs r id : having p (recs ++ [r]) id ↔ having p recs id ∨ (id = length recs ∧ p r = true).
Proof.
  unfold having. split.
  - intros (r' & [Hr|[Hge Hr]]%lookup_app_Some & Hp); [left; eauto|]. apply list_lookup_singleton_Some in Hr as [? <-].
    right. split; [lia|done].
  - intros [(r' & Hr & Hp)|[-> Hp]]; [exists r'; split; [by apply lookup_app_l_Some|done]|]. exists r. by rewrite list_lookup_middle.
Qed.

#[global] Instance having_dec p recs id : Decision (having p recs id).
Proof.
  refine (match recs !! id as o return Decision (∃ r, o = Some r ∧ p r = true) with Some r => cast_if (decide (p r = true)) | None => right _ end).
  all: abstract naive_solver.
Defined.

Lemma having_lt p recs id : having p recs id → id < length recs.
Proof. intros (r & Hr & _). by eapply lookup_lt_Some. Qed.

Lemma texts_of_snoc recs r : texts_of (recs ++ [r]) = texts_of recs ++ [so_text r].
Proof. unfold texts_of. by rewrite fmap_app. Qed.

Lemma length_texts_of recs : length (texts_of recs) = length recs.
Proof. apply length_fmap. Qed.

Lemma length_of_snoc recs r id : id < length recs → length_of (recs ++ [r]) id = length_of recs id.
Proof. intros Hid. unfold length_of. rewrite texts_of_snoc, lookup_app_l by by rewrite length_texts_of. done. Qed.

(** What the two ways to add a source share: new nodes with the positions of the old
    ones, and one more position *)
Lemma index_ok_push w w' inner recs nodes' r state sorted dirty :
  index_ok w inner recs → so_active r = true → so_tracked r = true →
  automaton w' (prefixes (texts_of (recs ++ [r]))) nodes' → length (sa_nodes inner) ≤ length nodes' →
  (∀ s, s < length (sa_nodes inner) → live (link_of nodes') w' s ↔ live (link_of (sa_nodes inner)) w s) →
  state < length nodes' → (so_kept r = true ↔ live (link_of nodes') w' state) →
  StronglySorted (source_lt (texts_of (recs ++ [r]))) sorted → sorted ≡ₚ length recs :: sa_sorted_source_indices inner →
  index_ok w' (mkInner nodes' (sa_string_count inner + 1) (texts_of (recs ++ [r])) (so_value <$> (recs ++ [r])) sorted
    (push_position (sa_positions inner) state (length recs, length (so_text r))) dirty) (recs ++ [r]).
Proof.
  intros Hio Hact Htr Hauto Hlen Hlive Hstate Hkept Hsorted Hperm. split; cbn; try done.
  - intros id. rewrite Hperm, elem_of_cons, (io_active _ _ _ Hio), having_snoc, Hact. tauto.
  - rewrite Hperm, (io_count _ _ _ Hio). cbn. lia.
  - intros id. rewrite !having_snoc, Hact. intros [?|[-> _]]; [left; by apply (io_tracked _ _ _ Hio)|by right].
  - assert (length_of (recs ++ [r]) (length recs) = length (so_text r)) as El.
    { unfold length_of. rewrite texts_of_snoc, <-(length_texts_of recs), list_lookup_middle; done. }
    rewrite <-El. set (good s id := s < length nodes' ∧ (having so_kept (recs ++ [r]) id ↔ live (link_of nodes') w' s)).
    apply (positions_ok_mono good _ (λ id, having so_tracked recs id ∨ id = length recs) _ (length_of (recs ++ [r]))); [done| |done|].
    { intros id. rewrite having_snoc, Htr. tauto. }
    apply positions_ok_push; [| |eapply positions_ok_mono; [| | |apply (io_positions _ _ _ Hio)]].
    + intros ?%having_lt. lia.
    + split; [done|]. rewrite having_snoc, <-Hkept. split; [intros [?%having_lt|[_ ?]]; [lia|done]|by right].
    + intros s id Hid%having_lt [Hs Hk]. split; [lia|]. rewrite Hlive, <-Hk, having_snoc by done. split; [|by left]. intros [?|[? _]]; [done|lia].
    + done.
    + intros id Hid%having_lt. by rewrite length_of_snoc.
Qed.

Lemma index_source_push w inner recs r :
  index_ok w inner recs →
  ∃ sorted, index_source (texts_of (recs ++ [r])) (sa_sorted_source_indices inner) (length recs) = Ret sorted ∧
    StronglySorted (source_lt (texts_of (recs ++ [r]))) sorted ∧ sorted ≡ₚ length recs :: sa_sorted_source_indices inner.
Proof.
  intros Hio. assert (∀ x, x ∈ sa_sorted_source_indices inner → x < length recs) as Hlt.
  { intros x Hx%(io_active _ _ _ Hio). by eapply having_lt. }
  assert (length (texts_of (recs ++ [r])) = S (length recs)) as El by (rewrite length_texts_of, length_app; cbn; lia).
  apply index_source_spec; rewrite ?El.
  - eapply sorted_sources_ext; [|apply (io_sorted _ _ _ Hio)]. intros x Hx%Hlt. by rewrite texts_of_snoc, lookup_app_l by by rewrite length_texts_of.
  - intros x Hx%Hlt. lia.
  - lia.
  - intros Hx%Hlt. lia.
Qed.

(** ** Insertion *)

(** The values after an insertion: a word that occurred before keeps its value, a word
    that occurs in the new text only at its end gets the new one. *)
Definition value_after (texts : list (list nat)) (get : list nat → option V) (text : list nat) (value : option V) (u : list nat) : option V :=
  if decide (text = []) then
    if decide (u = []) then match value with Some v => Some v | None => get u end else get u
  else if decide (occurs texts u) then get u
  else if decide (u `suffix_of` text ∧ ¬ infix u (removelast text)) then value else None.

Lemma proper_prefix (z text : list nat) : text ≠ [] → z `prefix_of` text ∧ z ≠ text ↔ z `prefix_of` removelast text.
Proof.
  destruct text as [|c text _] using rev_ind; [done|]. intros _. rewrite removelast_last, prefix_snoc_iff. split; [tauto|].
  intros Hz. split; [by left|]. intros ->. apply prefix_length in Hz. rewrite length_app in Hz. cbn in Hz. lia.
Qed.

Lemma live_ext (L L' : nat → option nat) w s : (∀ k, L k = L' k) → live L w s ↔ live L' w s.
Proof. intros E. split; apply class_ext; auto. Qed.

(** The nodes with the value of the new text *)
Lemma insert_nodes w P nodes text (value : option V) w1 nodes1 last :
  text_inserted w P nodes text w1 nodes1 last →
  ∃ nodes2, match value with
      | Some value => n ← nodes1 !! last; store nodes1 last (set_value n (Some value))
      | None => Ret nodes1
      end = Ret nodes2 ∧
    automaton w1 (λ z, P z ∨ z `prefix_of` text) nodes2 ∧ length nodes2 = length nodes1 ∧ (∀ k, link_of nodes2 k = link_of nodes1 k) ∧
    ∀ u, word_value nodes2 u =
      if decide (path (edge_of nodes1) 0 u = Some last) then match value with Some v => Some v | None => word_value nodes1 u end
      else word_value nodes1 u.
Proof.
  intros Hti. pose proof (ti_automaton _ _ _ _ _ _ _ Hti) as Ha. destruct (ti_last _ _ _ _ _ _ _ Hti) as (Hlast & _).
  destruct value as [v|]; [|exists nodes1; do 4 (split; [done|]); intros u; by case_decide].
  destruct (lookup_lt_is_Some_2 nodes1 last Hlast) as [n Hn]. rewrite Hn. cbn [mbind option_bind]. rewrite store_Some by done.
  change (set_value n (Some v)) with (with_value n (sx_final n) (Some v)). eexists. split; [done|]. split.
  { apply with_value_automaton; [done..|]. apply (proj1 Ha last n Hn). }
  split_and!; [apply length_insert|intros k; by apply with_value_link|]. intros u. by apply with_value_word.
Qed.

Lemma insert_value w recs nodes text value w1 nodes1 last u :
  automaton w (prefixes (texts_of recs)) nodes → text_inserted w (prefixes (texts_of recs)) nodes text w1 nodes1 last →
  (if decide (path (edge_of nodes1) 0 u = Some last) then match value with Some v => Some v | None => word_value nodes1 u end
   else word_value nodes1 u) = value_after (texts_of recs) (word_value nodes) text value u.
Proof.
  intros Ha Hti. destruct (ti_last _ _ _ _ _ _ _ Hti) as (Hlast & _ & Hnil & _). unfold value_after.
  destruct (decide (text = [])) as [->|Hne].
  { destruct (Hnil eq_refl) as [-> ->]. destruct (ao_root _ _ _ _ _ (proj2 Ha)) as (H0 & Hw0 & _).
    assert (path (edge_of nodes) 0 u = Some 0 ↔ u = []) as Hroot; [|by rewrite (decide_ext _ _ _ _ Hroot)].
    split; [|by intros ->]. intros [_ [Hu _]]%(path_class _ _ _ _ _ (proj2 Ha)). rewrite Hw0 in Hu. by apply suffix_nil_inv. }
  assert (path (edge_of nodes1) 0 u = Some last ↔ ¬ occurs (texts_of recs) u ∧ u `suffix_of` text ∧ ¬ infix u (removelast text)) as Hpath.
  { rewrite (path_class _ _ _ _ _ (proj2 (ti_automaton _ _ _ _ _ _ _ Hti))), (ti_words _ _ _ _ _ _ _ Hti u Hne), <-factor_prefixes.
    assert (factor (λ z, prefixes (texts_of recs) z ∨ (z `prefix_of` text ∧ z ≠ text)) u ↔
      factor (prefixes (texts_of recs)) u ∨ infix u (removelast text)) as Hf; [|rewrite Hf; unfold state_of; tauto].
    unfold factor, infix. setoid_rewrite (proper_prefix _ text Hne). naive_solver. }
  destruct (decide (occurs (texts_of recs) u)) as [Ho|Hno].
  - rewrite decide_False by tauto. apply (ti_known _ _ _ _ _ _ _ Hti). by apply factor_prefixes.
  - rewrite (ti_new _ _ _ _ _ _ _ Hti u) by (by rewrite factor_prefixes). assert (path (edge_of nodes1) 0 u = Some last ↔ u `suffix_of` text ∧ ¬ infix u (removelast text)) as Hp by tauto.
    rewrite (decide_ext _ _ _ _ Hp). by destruct (decide _), value.
Qed.

Lemma insert_spec w inner recs text value :
  index_ok w inner recs →
  ∃ inner' w', insert_text_into_inner inner text value = Ret inner' ∧ index_ok w' inner' (recs ++ [new_source recs text value]) ∧
    sa_needs_compaction inner' = sa_needs_compaction inner ∧
    ∀ u, word_value (sa_nodes inner') u = value_after (texts_of recs) (word_value (sa_nodes inner)) text value u.
Proof.
  intros Hio. set (r := new_source recs text value). pose proof (io_automaton _ _ _ Hio) as Ha.
  destruct (extend_text_spec _ _ _ text Ha) as (nodes1 & last & w1 & E & Hti). unfold insert_text_into_inner.
  change (foldM _ _ text) with (extend_text (sa_nodes inner) text). rewrite E. cbn [mbind option_bind].
  destruct (insert_nodes _ _ _ _ value _ _ _ Hti) as (nodes2 & -> & Ha2 & Hlen2 & Hlink2 & Hval2). cbn [mbind option_bind].
  rewrite (io_texts _ _ _ Hio), (io_values _ _ _ Hio), length_texts_of.
  assert (texts_of recs ++ [text] = texts_of (recs ++ [r])) as -> by by rewrite texts_of_snoc.
  assert ((so_value <$> recs) ++ [value] = so_value <$> (recs ++ [r])) as -> by by rewrite fmap_app.
  destruct (index_source_push w inner recs r Hio) as (sorted & -> & Hsorted & Hperm). cbn [mbind option_bind].
  eexists _, w1. split; [done|]. split; [|split; [done|]].
  - destruct (ti_last _ _ _ _ _ _ _ Hti) as (Hlast & _). apply (index_ok_push w w1 inner recs nodes2 r last); try done.
    + eapply automaton_iff; [|exact Ha2]. intros z. by rewrite texts_of_snoc, prefixes_snoc.
    + rewrite Hlen2. apply Hti.
    + intros s Hs. rewrite (live_ext _ _ w1 s Hlink2). by apply (ti_old _ _ _ _ _ _ _ Hti).
    + by rewrite Hlen2.
    + rewrite (live_ext _ _ w1 last Hlink2), (ti_live _ _ _ _ _ _ _ Hti), factor_prefixes. cbn. unfold fresh.
      rewrite orb_true_iff, negb_true_iff, bool_decide_eq_true, bool_decide_eq_false. done.
  - intros u. cbn [sa_nodes]. rewrite Hval2. by eapply insert_value.
Qed.

(** ** Removal *)

Definition src_remove recs (text : list nat) : list source * bool :=
  match list_find (λ r, so_tracked r = true ∧ so_text r = text) recs with
  | Some (id, r) => (<[id := mkSource (so_text r) (so_value r) false false (so_kept r)]> recs, true)
  | None => (recs, false)
  end.

Lemma having_insert p recs id r r' x :
  recs !! id = Some r → having p (<[id := r']> recs) x ↔ if decide (x = id) then p r' = true else having p recs x.
Proof.
  intros Hr. unfold having. case_decide as Hx.
  - subst x. rewrite list_lookup_insert_eq by (by eapply lookup_lt_Some). naive_solver.
  - by rewrite list_lookup_insert_ne.
Qed.

Lemma having_here p recs id r : recs !! id = Some r → having p recs id ↔ p r = true.
Proof. unfold having. naive_solver. Qed.

Lemma having_same p recs id r r' x : recs !! id = Some r → p r' = p r → having p (<[id := r']> recs) x ↔ having p recs x.
Proof.
  intros Hr Hp. rewrite (having_insert p recs id r r' x Hr). case_decide as Hx; [|done]. subst x. by rewrite (having_here p recs id r Hr), Hp.
Qed.

Lemma having_off p recs id r r' x :
  recs !! id = Some r → p r' = false → having p (<[id := r']> recs) x ↔ having p recs x ∧ x ≠ id.
Proof. intros Hr Hp. rewrite (having_insert p recs id r r' x Hr), Hp. case_decide; naive_solver. Qed.

Lemma texts_of_insert recs id r r' : recs !! id = Some r → so_text r' = so_text r → texts_of (<[id := r']> recs) = texts_of recs.
Proof.
  intros Hr Ht. unfold texts_of. rewrite list_fmap_insert, Ht. apply list_insert_id. by rewrite list_lookup_fmap, Hr.
Qed.

Lemma remove_spec w inner recs text :
  index_ok w inner recs →
  let '(inner', removed) := sa_remove inner text in
  index_ok w inner' (src_remove recs text).1 ∧ removed = (src_remove recs text).2 ∧ sa_nodes inner' = sa_nodes inner ∧
  sa_needs_compaction inner' = sa_needs_compaction inner || removed.
Proof.
  intros Hio. unfold sa_remove. rewrite (io_texts _ _ _ Hio).
  pose proof (find_source_spec _ _ (texts_of recs) (sa_positions inner) text (io_positions _ _ _ Hio)) as Hfind.
  destruct (find_source (texts_of recs) (sa_positions inner) text) as [[[id s] i]|].
  - destruct Hfind as ((l & e & Hl & Hi) & (r & Hr & Htr) & Ht & Hmin). unfold texts_of in Ht. rewrite list_lookup_fmap, Hr in Ht. injection Ht as Ht.
    assert (list_find (λ r, so_tracked r = true ∧ so_text r = text) recs = Some (id, r)) as Ef.
    { apply list_find_Some. split_and!; [done..|]. intros j r' Hr' Hj [Htr' Ht']. specialize (Hmin j). unfold texts_of in Hmin.
      rewrite list_lookup_fmap, Hr' in Hmin. cbn in Hmin. rewrite Ht' in Hmin. assert (id ≤ j); [|lia]. apply Hmin; [by exists r'|done]. }
    unfold src_remove. rewrite Ef, Hl. cbn [fst snd]. split; [|split_and!; [done..|by rewrite orb_true_r]].
    set (r' := mkSource _ _ _ _ _).
    assert (∀ x, having so_active (<[id := r']> recs) x ↔ having so_active recs x ∧ x ≠ id) as Hact by (intros; by apply (having_off _ _ _ r)).
    assert (∀ x, having so_tracked (<[id := r']> recs) x ↔ having so_tracked recs x ∧ x ≠ id) as Htrk by (intros; by apply (having_off _ _ _ r)).
    assert (∀ x, having so_kept (<[id := r']> recs) x ↔ having so_kept recs x) as Hkept by (intros; by apply (having_same _ _ _ r)).
    pose proof (sorted_sources_NoDup _ _ (io_sorted _ _ _ Hio)) as Hnd. rewrite unindex_source_filter by done.
    assert (id ∈ sa_sorted_source_indices inner) as Hin by (apply (io_active _ _ _ Hio), (io_tracked _ _ _ Hio); by exists r).
    assert (texts_of (<[id := r']> recs) = texts_of recs) as Etexts by by apply (texts_of_insert _ _ r).
    split; cbn; rewrite ?Etexts.
    + apply Hio.
    + done.
    + rewrite (io_values _ _ _ Hio), list_fmap_insert, list_insert_id; [done|]. by rewrite list_lookup_fmap, Hr.
    + by apply StronglySorted_filter, Hio.
    + intros x. rewrite list_elem_of_filter, (io_active _ _ _ Hio), Hact. tauto.
    + rewrite (io_count _ _ _ Hio). pose proof (delete_filter (λ x, x) (sa_sorted_source_indices inner)) as Hdel.
      apply list_elem_of_lookup in Hin as [k Hk]. rewrite <-(Hdel k id) by (by rewrite ?list_fmap_id). rewrite length_delete by eauto. lia.
    + intros x. rewrite Hact, Htrk. intros [? ?]. split; [by apply (io_tracked _ _ _ Hio)|done].
    + assert (match delete i l with [] => delete s (sa_positions inner) | _ => <[s := delete i l]> (sa_positions inner) end =
        drop_position (sa_positions inner) s i l) as -> by (unfold drop_position; by destruct (delete i l)).
      eapply positions_ok_mono; [| | |eapply (positions_ok_drop _ _ _ _ s i l id e); [done..|apply (io_positions _ _ _ Hio)]].
      * intros k x _ [? Hk]. split; [done|]. by rewrite Hkept.
      * intros x. by rewrite Htrk.
      * intros x _. unfold length_of. by rewrite Etexts.
  - unfold src_remove. assert (list_find (λ r, so_tracked r = true ∧ so_text r = text) recs = None) as ->; [|by rewrite orb_false_r].
    apply list_find_None, Forall_forall. intros r Hr [Htr Ht]. apply list_elem_of_lookup in Hr as [id Hr].
    apply (Hfind id); [by exists r|]. unfold texts_of. by rewrite list_lookup_fmap, Hr; cbn; rewrite Ht.
Qed.

(** ** Clearing *)

Lemma index_ok_new : index_ok (λ _, []) SuffixAutomatonInner_new [].
Proof.
  assert (∀ p id, ¬ having p ([] : list source) id) as Hno by (by intros p id (r & Hr & _)).
  assert (∀ s : nat, state_of [SuffixNode_root (V := V)] s → s = 0) as H0 by (intros s Hs; unfold state_of in Hs; cbn in Hs; lia).
  split; cbn; try done.
  - split.
    + intros s n Hn. apply list_lookup_singleton_Some in Hn as [<- <-]. split_and!; [constructor|done..].
    + assert (∀ u, factor (prefixes (texts_of [])) u → u = []) as Hnil.
      { intros u [?|(t & Ht & _)]%factor_prefixes; [done|]. by apply elem_of_nil in Ht. }
      split.
      * apply prefixes_closed.
      * split_and!; [unfold state_of; cbn; lia|done..].
      * intros s ->%H0. done.
      * intros s _. exists []. split; [by left|done].
      * intros u ->%Hnil. exists 0. split; [unfold state_of; cbn; lia|]. by split.
      * intros s t u ->%H0 ->%H0. done.
      * intros s u c ->%H0 _. cbn. intros Hf%Hnil. by destruct u.
  - constructor.
  - intros id. split; [by intros ?%elem_of_nil|]. intros H. by apply Hno in H.
  - intros id H. by apply Hno in H.
  - apply positions_ok_empty. intros id. apply Hno.
Qed.

(** [clear] leaves an index alone that has no active source and never had a nonempty
    text. *)
Definition src_clear recs : option (list source) :=
  if forallb (λ r, negb (so_active r) && bool_decide (so_text r = [])) recs then None else Some [].

Lemma root_only w inner recs : index_ok w inner recs → length (sa_nodes inner) = 1 ↔ ∀ r, r ∈ recs → so_text r = [].
Proof.
  intros Hio. destruct (io_automaton _ _ _ Hio) as [Hok Ha]. destruct (ao_root _ _ _ _ _ Ha) as (H0 & Hw0 & _). unfold state_of in H0. split.
  - intros Hlen r Hr. destruct (ao_cover _ _ _ _ _ Ha (so_text r)) as (s & Hs & Hc & _).
    { apply factor_prefixes. right. exists (so_text r). split; [by apply list_elem_of_fmap_2|apply infix_refl]. }
    assert (s = 0) as -> by (unfold state_of in Hs; lia). rewrite Hw0 in Hc. by apply suffix_nil_inv.
  - intros Hall. destruct (decide (length (sa_nodes inner) = 1)) as [|Hne]; [done|]. exfalso.
    destruct (lookup_lt_is_Some_2 (sa_nodes inner) 1) as [n Hn]; [lia|]. destruct (Hok 1 n Hn) as (_ & _ & Hf).
    destruct (Hf ltac:(done)) as [_ Hw]. apply Hw. assert (state_of (sa_nodes inner) 1) as Hs by (unfold state_of; lia).
    apply (ao_factor _ _ _ _ _ Ha), factor_prefixes in Hs as [?|(t & Ht & Hi)]; [done|]. apply list_elem_of_fmap in Ht as (r & -> & Hr).
    rewrite (Hall r Hr) in Hi. apply infix_length in Hi. by destruct (w 1); [|cbn in Hi; lia].
Qed.

Lemma sa_clear_spec w inner recs :
  index_ok w inner recs →
  match src_clear recs with None => sa_clear inner = inner | Some recs' => recs' = [] ∧ sa_clear inner = SuffixAutomatonInner_new end.
Proof.
  intros Hio. unfold src_clear, sa_clear. rewrite (io_count _ _ _ Hio). pose proof (root_only w inner recs Hio) as Hroot.
  destruct (forallb _ recs) eqn:Hall.
  - rewrite forallb_forall in Hall. assert (∀ r, r ∈ recs → so_active r = false ∧ so_text r = []) as Hr.
    { intros r Hr%list_elem_of_In%Hall. by rewrite andb_true_iff, negb_true_iff, bool_decide_eq_true in Hr. }
    rewrite (proj2 Hroot) by (intros r Hin; by apply Hr). cbn. destruct (sa_sorted_source_indices inner) as [|id ids] eqn:Es; [done|].
    assert (id ∈ sa_sorted_source_indices inner) as (r & Hid & Hact)%(io_active _ _ _ Hio) by (rewrite Es; by left).
    destruct (Hr r); [by eapply list_elem_of_lookup_2|congruence].
  - split; [done|]. destruct (_ && _) eqn:Hc; [|done]. apply andb_true_iff in Hc as [Hlen H1]. apply Nat.eqb_eq in Hlen, H1.
    enough (forallb (λ r, negb (so_active r) && bool_decide (so_text r = [])) recs = true) by congruence.
    apply forallb_forall. intros r Hr%list_elem_of_In. apply andb_true_iff. split; [|apply bool_decide_eq_true; by apply (proj1 Hroot H1)].
    apply negb_true_iff. destruct (so_active r) eqn:Hact; [|done]. apply list_elem_of_lookup in Hr as [id Hr].
    assert (id ∈ sa_sorted_source_indices inner) as Hin by (apply (io_active _ _ _ Hio); by exists r).
    apply nil_length_inv in Hlen. rewrite Hlen in Hin. by apply elem_of_nil in Hin.
Qed.

(** ** Compaction *)

Definition src_compact recs : list source :=
  (λ r, mkSource (so_text r) (so_value r) (so_active r) (so_tracked r && so_kept r) (so_kept r)) <$> recs.

Lemma having_compact p p' recs id :
  (∀ r, p' (mkSource (so_text r) (so_value r) (so_active r) (so_tracked r && so_kept r) (so_kept r)) = p r) →
  having p' (src_compact recs) id ↔ having p recs id.
Proof.
  intros Hp. unfold having, src_compact. rewrite list_lookup_fmap. destruct (recs !! id) as [r|]; cbn.
  - split; intros (r' & [= <-] & Hr); [exists r; by rewrite <-Hp|eexists; split; [done|]; by rewrite Hp].
  - by split; intros (? & ? & _).
Qed.

Lemma compact_spec w inner recs :
  index_ok w inner recs →
  ∃ inner' w', sa_compact inner = Ret inner' ∧
    index_ok w' inner' (if sa_needs_compaction inner then src_compact recs else recs) ∧ sa_needs_compaction inner' = false ∧
    ∀ u, word_value (sa_nodes inner') u = word_value (sa_nodes inner) u.
Proof.
  intros Hio. unfold sa_compact. destruct (sa_needs_compaction inner) eqn:Hdirty; cbn [negb]; [|exists inner, w; by split_and!].
  pose proof (io_automaton _ _ _ Hio) as Ha. destruct (mark_all w _ _ Ha) as (reachable & -> & Hlen & Hreach). cbn [mbind option_bind].
  destruct (sweep_spec w _ _ Ha reachable Hlen Hreach) as (new_nodes & old_to_new & -> & Hnew & Hold). cbn [mbind option_bind].
  rewrite (remap_spec w _ _ Ha reachable Hlen Hreach new_nodes old_to_new Hnew Hold). cbn [mbind option_bind].
  destruct (compact_positions w _ _ Ha reachable Hlen Hreach new_nodes old_to_new Hnew Hold
    (λ t id, t < length (remapped old_to_new <$> new_nodes) ∧
      (having so_kept recs id ↔ live (link_of (remapped old_to_new <$> new_nodes)) (λ t, w (old_of (sa_nodes inner) reachable t)) t))
    _ _ (having so_kept recs) (sa_positions inner) (io_positions _ _ _ Hio)) as (positions & -> & Hpos).
  { intros t id Ht Hid. split; [done|]. split; [|done]. intros _. unfold live.
    apply (compact_class w _ _ Ha reachable Hlen Hreach new_nodes old_to_new Hnew Hold); [done|].
    by apply (kept_lookup w _ reachable Hlen Hreach new_nodes old_to_new Hnew). }
  cbn [mbind option_bind]. eexists _, _. split; [done|]. split; [|split; [done|]].
  - assert (texts_of (src_compact recs) = texts_of recs) as Et by (unfold texts_of, src_compact; by rewrite <-list_fmap_compose).
    assert (∀ id, having so_tracked (src_compact recs) id ↔ having so_tracked recs id ∧ having so_kept recs id) as Htr.
    { intros id. rewrite (having_compact (λ r, so_tracked r && so_kept r)) by done. unfold having. split.
      - intros (r & Hr & [? ?]%andb_true_iff). split; eauto.
      - intros [(r & Hr & Ht) (r' & Hr' & Hk)]. exists r. split; [done|]. assert (r' = r) as -> by congruence. by rewrite Ht, Hk. }
    split; cbn; rewrite ?Et.
    + apply (compact_automaton w _ _ Ha reachable Hlen Hreach new_nodes old_to_new Hnew Hold).
    + apply Hio.
    + rewrite (io_values _ _ _ Hio). unfold src_compact. by rewrite <-list_fmap_compose.
    + apply Hio.
    + intros id. rewrite (having_compact so_active) by done. apply Hio.
    + apply Hio.
    + intros id [Hid _]%Htr. rewrite (having_compact so_active) by done. by apply (io_tracked _ _ _ Hio).
    + eapply positions_ok_mono; [| | |exact Hpos].
      * intros s id _ [? ?]. split; [done|]. by rewrite (having_compact so_kept).
      * intros id. by rewrite Htr.
      * intros id _. unfold length_of. by rewrite Et.
  - intros u. apply (compact_word_value w _ _ Ha reachable Hlen Hreach new_nodes old_to_new Hnew Hold).
Qed.
End dictionary.
Arguments source V : clear implicits.
