(* ===== verification/SuffixRefinement.v ===== *)
(** * Runs of operations on a suffix index

    The abstract machine for a [SuffixAutomaton] and the simulation: every operation
    returns, and does to the index what the machine does to the sources and values.

    An update of an existing word changes the value of its state, and so that of the
    other words of the state; the machine says which words may change, not which do. *)

From stdpp Require Import prelude gmap sorting.
From S2P Require Import Prelude Edges Tree Zipper SuffixClasses SuffixAutomaton SuffixTexts SuffixIndex SuffixRecords SuffixCompact.
From S2P Require Import SuffixDictionary.

Section refinement.
Context {V : Type}.
Implicit Types recs : list (source V).

(** ** Updates *)

Definition set_so_value (r : source V) (v : V) : source V := mkSource (so_text r) (Some v) (so_active r) (so_tracked r) (so_kept r).

Lemma index_ok_value w inner recs id r v :
  index_ok w inner recs → recs !! id = Some r →
  index_ok w (mkInner (sa_nodes inner) (sa_string_count inner) (sa_source_texts inner) (<[id := Some v]> (sa_source_values inner))
    (sa_sorted_source_indices inner) (sa_positions inner) (sa_needs_compaction inner)) (<[id := set_so_value r v]> recs).
Proof.
  intros Hio Hr. assert (texts_of (<[id := set_so_value r v]> recs) = texts_of recs) as Et by by apply (texts_of_insert _ _ r).
  assert (∀ p x, p (set_so_value r v) = p r → having p (<[id := set_so_value r v]> recs) x ↔ having p recs x) as Hp.
  { intros p x. by apply having_same. }
  split; cbn; rewrite ?Et; try apply Hio.
  - by rewrite (io_values _ _ _ Hio), list_fmap_insert.
  - intros x. rewrite Hp by done. apply Hio.
  - intros x. rewrite !Hp by done. apply Hio.
  - eapply positions_ok_mono; [| | |apply (io_positions _ _ _ Hio)].
    + intros s x _ [? ?]. split; [done|]. by rewrite Hp.
    + intros x. by rewrite Hp.
    + intros x _. unfold length_of. by rewrite Et.
Qed.

Lemma index_ok_nodes w inner recs nodes :
  index_ok w inner recs → automaton w (prefixes (texts_of recs)) nodes → length nodes = length (sa_nodes inner) →
  (∀ k, link_of nodes k = link_of (sa_nodes inner) k) → index_ok w (with_nodes inner nodes) recs.
Proof.
  intros Hio Ha Hlen Hlink. split; cbn; try apply Hio; [done|]. eapply positions_ok_mono; [| | |apply (io_positions _ _ _ Hio)]; [|done..].
  intros s x _. by rewrite Hlen, (live_ext _ _ w s Hlink).
Qed.

Lemma iter_max_in l x : iter_max l = Some x → x ∈ l.
Proof.
  destruct l as [|y l]; [done|]. cbn. intros [= <-]. revert y. induction l as [|z l IH]; intros y; cbn; [by left|].
  pose proof (IH (max y z)) as [E|Hin]%elem_of_cons; [rewrite E; destruct (Nat.max_spec y z) as [[_ ->]|[_ ->]]; [right; by left|by left]|right; by right].
Qed.

Lemma iter_max_None l : iter_max l = None → l = [].
Proof. by destruct l. Qed.

(** The record that [update_source_record_value] changes, if any *)
Lemma update_record_spec w inner recs state term v :
  index_ok w inner recs →
  let at_state := existsb (is_source (sa_source_texts inner) term) (default [] (sa_positions inner !! state)) in
  let inner' := update_source_record_value inner state term v in
  sa_nodes inner' = sa_nodes inner ∧ sa_source_texts inner' = sa_source_texts inner ∧ sa_positions inner' = sa_positions inner ∧
  sa_needs_compaction inner' = sa_needs_compaction inner ∧
  if at_state then ∃ id r, recs !! id = Some r ∧ so_tracked r = true ∧ so_text r = term ∧ index_ok w inner' (<[id := set_so_value r v]> recs)
  else inner' = inner.
Proof.
  intros Hio. cbn zeta. unfold update_source_record_value. destruct (sa_positions inner !! state) as [l|] eqn:El; cbn [mbind option_bind default from_option]; [|done].
  set (sources := (filter (λ p, is_source (sa_source_texts inner) term p = true) l).*1).
  destruct (existsb _ _) eqn:Hex.
  - set (o := match iter_max _ with Some id => _ | None => _ end).
    assert (∃ id, o = Some id ∧ id ∈ sources) as (id & -> & Hid).
    { unfold o. destruct (iter_max (filter _ sources)) as [id|] eqn:E1.
      - exists id. split; [done|]. apply iter_max_in in E1. by apply list_elem_of_filter in E1 as [_ ?].
      - destruct (iter_max sources) as [id|] eqn:E2; [exists id; split; [done|by apply iter_max_in]|]. exfalso.
        apply iter_max_None in E2. unfold sources in E2. apply fmap_nil_inv in E2. apply existsb_exists in Hex as (p & Hp%list_elem_of_In & Hs).
        assert (p ∈ filter (λ p, is_source (sa_source_texts inner) term p = true) l) as Hin by by apply list_elem_of_filter.
        rewrite E2 in Hin. by apply elem_of_nil in Hin. }
    cbn. split_and!; [done..|]. unfold sources in Hid. apply list_elem_of_fmap in Hid as ([x e] & -> & [Hs Hin]%list_elem_of_filter). cbn [fst] in *.
    apply is_source_true in Hs as [_ Ht]. destruct (po_good _ _ _ _ (io_positions _ _ _ Hio) state x) as [(r & Hr & Htr) _].
    { exists l. split; [done|]. by apply (list_elem_of_fmap_2 fst _ (x, e)). }
    exists x, r. rewrite (io_texts _ _ _ Hio) in Ht. unfold texts_of in Ht. rewrite list_lookup_fmap, Hr in Ht. injection Ht as Ht.
    split_and!; [done..|]. by apply index_ok_value.
  - assert (sources = []) as ->; [|by cbn]. unfold sources. destruct (filter _ l) as [|p ps] eqn:Ef; [done|].
    assert (p ∈ filter (λ p, is_source (sa_source_texts inner) term p = true) l) as [Hs Hp]%list_elem_of_filter by (rewrite Ef; by left).
    assert (existsb (is_source (sa_source_texts inner) term) l = true) as Ht; [|by apply not_true_iff_false in Hex]. apply existsb_exists. exists p.
    split; [by apply list_elem_of_In|done].
Qed.

(** ** The machine *)

Record index_state := mkState {
  st_sources : list (source V);
  st_value : list nat → option V;
  st_dirty : bool;
}.

Inductive index_op :=
| Insert (text : list nat) (value : option V)
| Remove (text : list nat)
| Clear
| Compact
| UpdateOrInsert (term : list nat) (default_value : V) (update_fn : V → V).

(** An operation and what it reports *)
Definition run_op (inner : SuffixAutomatonInner V) (op : index_op) : exec (SuffixAutomatonInner V * bool) :=
  match op with
  | Insert text value => inner ← insert_text_into_inner inner text value; Ret (inner, true)
  | Remove text => Ret (sa_remove inner text)
  | Clear => Ret (sa_clear inner, true)
  | Compact => inner ← sa_compact inner; Ret (inner, true)
  | UpdateOrInsert term default_value update_fn => update_or_insert inner term default_value update_fn
  end.

(** The word gets the value, and perhaps other words that end where it ends *)
Definition class_updated (texts : list (list nat)) (term : list nat) (v : V) (get get' : list nat → option V) : Prop :=
  get' term = Some v ∧
  ∀ u, get' u = get u ∨ (get' u = Some v ∧ occurs texts u ∧ (u `suffix_of` term ∨ term `suffix_of` u)).

(** One tracked source of the text gets the value *)
Definition source_updated (term : list nat) (v : V) recs recs' : Prop :=
  ∃ id r, recs !! id = Some r ∧ so_tracked r = true ∧ so_text r = term ∧ recs' = <[id := set_so_value r v]> recs.

Inductive src_step : index_state → index_op → bool → index_state → Prop :=
| step_insert recs get dirty text value :
    src_step (mkState recs get dirty) (Insert text value) true
      (mkState (recs ++ [new_source recs text value]) (value_after (texts_of recs) get text value) dirty)
| step_remove recs get dirty text :
    src_step (mkState recs get dirty) (Remove text) (src_remove recs text).2
      (mkState (src_remove recs text).1 get (dirty || (src_remove recs text).2))
| step_clear recs get dirty :
    src_step (mkState recs get dirty) Clear true
      (match src_clear recs with Some recs' => mkState recs' (λ _, None) false | None => mkState recs get dirty end)
| step_compact recs get dirty :
    src_step (mkState recs get dirty) Compact true (mkState (if dirty then src_compact recs else recs) get false)
| step_update_new recs get dirty term v f :
    ¬ occurs (texts_of recs) term →
    src_step (mkState recs get dirty) (UpdateOrInsert term v f) true
      (mkState (recs ++ [new_source recs term (Some v)]) (value_after (texts_of recs) get term (Some v)) dirty)
| step_update_value recs get dirty term v f old recs' get' :
    occurs (texts_of recs) term → get term = Some old → recs' = recs ∨ source_updated term (f old) recs recs' →
    class_updated (texts_of recs) term (f old) get get' →
    src_step (mkState recs get dirty) (UpdateOrInsert term v f) false (mkState recs' get' dirty)
| step_update_none recs get dirty term v f recs' get' :
    occurs (texts_of recs) term → get term = None →
    recs' = recs ++ [mkSource term (Some v) true true true] ∨ source_updated term v recs recs' →
    class_updated (texts_of recs) term v get get' →
    src_step (mkState recs get dirty) (UpdateOrInsert term v f) true (mkState recs' get' dirty).

Definition simulates (inner : SuffixAutomatonInner V) (st : index_state) : Prop :=
  (∃ w, index_ok w inner (st_sources st)) ∧ sa_needs_compaction inner = st_dirty st ∧
  ∀ u, word_value (sa_nodes inner) u = st_value st u.

Lemma value_after_ext texts (get get' : list nat → option V) text value u :
  (∀ u, get u = get' u) → value_after texts get text value u = value_after texts get' text value u.
Proof. intros E. unfold value_after. by rewrite !E. Qed.

(** ** Updating an existing word *)

(** The nodes after the value of a state has changed *)
Lemma update_nodes w inner recs term state n final v get :
  index_ok w inner recs → find_term_state inner term = Some state → sa_nodes inner !! state = Some n → (state ≠ 0 → final = true) →
  (∀ u, word_value (sa_nodes inner) u = get u) →
  let nodes := <[state := with_value n final (Some v)]> (sa_nodes inner) in
  store (sa_nodes inner) state (with_value n final (Some v)) = Ret nodes ∧ index_ok w (with_nodes inner nodes) recs ∧
  class_updated (texts_of recs) term v get (word_value nodes).
Proof.
  intros Hio Hfind Hn Hfin Hget nodes. pose proof (io_automaton _ _ _ Hio) as Ha. pose proof (lookup_lt_Some _ _ _ Hn) as Hlt.
  split; [by apply store_Some|]. split; [|split].
  - apply index_ok_nodes; [done|by apply with_value_automaton|apply length_insert|intros k; by apply with_value_link].
  - unfold nodes. rewrite (with_value_word _ _ _ _ _ _ Hn), <-(find_term_state_path w inner recs term Hio), Hfind. by rewrite decide_True.
  - intros u. unfold nodes. rewrite (with_value_word _ _ _ _ _ _ Hn), <-(find_term_state_path w inner recs u Hio). case_decide as Hu; [|left; apply Hget].
    right. split; [done|]. split; [apply (find_term_state_occurs w inner recs u Hio); by rewrite Hu|].
    apply (find_term_state_class w inner recs) in Hu as [_ [Hu _]], Hfind as [_ [Ht _]]; [|done..]. by eapply suffix_weak_total.
Qed.

(** A source for a word that has a state already *)
Lemma push_known w inner recs term state v :
  index_ok w inner recs → find_term_state inner term = Some state →
  ∃ sorted, index_source (sa_source_texts inner ++ [term]) (sa_sorted_source_indices inner) (length (sa_source_texts inner)) = Ret sorted ∧
    index_ok w (mkInner (sa_nodes inner) (sa_string_count inner + 1) (sa_source_texts inner ++ [term])
      (sa_source_values inner ++ [Some v]) sorted
      (push_position (sa_positions inner) state (length (sa_source_texts inner), length term)) (sa_needs_compaction inner))
      (recs ++ [mkSource term (Some v) true true true]).
Proof.
  intros Hio Hfind. set (r := mkSource term (Some v) true true true). destruct (index_source_push w inner recs r Hio) as (sorted & E & Hs & Hp).
  assert (is_Some (find_term_state inner term)) as Ho by by rewrite Hfind. apply (find_term_state_occurs w inner recs term Hio) in Ho.
  apply (find_term_state_class w inner recs) in Hfind as [Hlt Hc]; [|done].
  rewrite (io_texts _ _ _ Hio), (io_values _ _ _ Hio), length_texts_of.
  replace (texts_of recs ++ [term]) with (texts_of (recs ++ [r])) by by rewrite texts_of_snoc.
  replace ((so_value <$> recs) ++ [Some v]) with (so_value <$> (recs ++ [r])) by by rewrite fmap_app.
  exists sorted. split; [done|]. apply (index_ok_push w w inner recs (sa_nodes inner) r state); try done.
  - destruct (io_automaton _ _ _ Hio) as [Hok Ha]. split; [done|]. eapply automaton_ok_factor; [apply prefixes_closed| |exact Ha].
    intros u. rewrite !factor_prefixes, texts_of_snoc. cbn. by rewrite occurs_known.
  - split; [|done]. intros _. by eapply class_live.
Qed.

Lemma update_refines inner st term v f :
  simulates inner st →
  ∃ inner' b st', update_or_insert inner term v f = Ret (inner', b) ∧ src_step st (UpdateOrInsert term v f) b st' ∧ simulates inner' st'.
Proof.
  destruct st as [recs get dirty]. intros ([w Hio] & Hdirty & Hget). cbn [st_sources st_dirty st_value] in *.
  pose proof (find_term_state_occurs w inner recs term Hio) as Hocc. unfold update_or_insert.
  destruct (find_term_state inner term) as [state|] eqn:Hfind.
  2: { destruct (insert_spec w inner recs term (Some v) Hio) as (inner' & w' & -> & Hio' & Hd & Hval). cbn [mbind option_bind].
    eexists _, _, _. split; [done|]. split; [apply step_update_new; intros Ho; apply Hocc in Ho as [? ?]; done|].
    split_and!; [by exists w'|by rewrite Hd|]. intros u. rewrite Hval. by apply value_after_ext. }
  assert (occurs (texts_of recs) term) as Ho by (apply Hocc; done).
  pose proof Hfind as [Hlt Hc]%(find_term_state_class w inner recs); [|done].
  destruct (lookup_lt_is_Some_2 (sa_nodes inner) state Hlt) as [n Hn]. rewrite Hn. cbn [mbind option_bind].
  assert (get term = sx_value n) as Hgt.
  { rewrite <-Hget. unfold word_value. rewrite <-(find_term_state_path w inner recs term Hio), Hfind. cbn. unfold value_of. by rewrite Hn. }
  destruct (sx_value n) as [old|] eqn:Hold.
  - change (set_value n (Some (f old))) with (with_value n (sx_final n) (Some (f old))).
    destruct (update_nodes w inner recs term state n (sx_final n) (f old) get Hio Hfind Hn) as (-> & Hio1 & Hcu); [|done|].
    { apply (proj1 (io_automaton _ _ _ Hio) state n Hn). }
    cbn [mbind option_bind]. set (inner1 := with_nodes _ _) in *.
    pose proof (update_record_spec w inner1 recs state term (f old) Hio1) as Hrec. cbn zeta in Hrec.
    destruct Hrec as (En & _ & _ & Ed & Hrec). set (inner2 := update_source_record_value _ _ _ _) in *.
    destruct (existsb _ _); [destruct Hrec as (id & r & Hr & Htr & Ht & Hio2)|rewrite Hrec in *].
    + eexists _, _, _. split; [done|]. split; [eapply step_update_value; [done..|right; by exists id, r|exact Hcu]|].
      split_and!; [by exists w|by rewrite Ed|by rewrite En].
    + eexists _, _, _. split; [done|]. split; [eapply step_update_value; [done..|by left|exact Hcu]|]. split_and!; [by exists w|done..].
  - change (mkSuffixNode (sx_edges n) (sx_link n) (sx_max_length n) true (Some v)) with (with_value n true (Some v)).
    destruct (update_nodes w inner recs term state n true v get Hio Hfind Hn) as (-> & Hio1 & Hcu); [done..|].
    cbn [mbind option_bind]. set (inner1 := with_nodes _ _) in *.
    pose proof (update_record_spec w inner1 recs state term v Hio1) as Hrec. cbn zeta in Hrec.
    destruct Hrec as (En & Et & Ep & Ed & Hrec). set (inner2 := update_source_record_value _ _ _ _) in *. rewrite Et, Ep.
    destruct (existsb _ _); [destruct Hrec as (id & r & Hr & Htr & Ht & Hio2)|rewrite Hrec in *].
    + eexists _, _, _. split; [done|]. split; [eapply step_update_none; [done..|right; by exists id, r|exact Hcu]|].
      split_and!; [by exists w|by rewrite Ed|by rewrite En].
    + assert (find_term_state inner1 term = Some state) as Hfind1.
      { rewrite <-Hfind, (find_term_state_path w inner1 recs term Hio1), (find_term_state_path w inner recs term Hio).
        apply path_ext. intros s c. by apply with_value_edge. }
      destruct (push_known w inner1 recs term state v Hio1 Hfind1) as (sorted & -> & Hio2). cbn [mbind option_bind].
      eexists _, _, _. split; [done|]. split; [eapply step_update_none; [done..|by left|exact Hcu]|]. split_and!; [by exists w|done..].
Qed.

(** ** The simulation *)

Lemma op_refines inner st op :
  simulates inner st → ∃ inner' b st', run_op inner op = Ret (inner', b) ∧ src_step st op b st' ∧ simulates inner' st'.
Proof.
  destruct op as [text value|text| | |term v f]; [| | | |apply update_refines].
  all: destruct st as [recs get dirty]; intros ([w Hio] & Hdirty & Hget); cbn [run_op st_sources st_dirty st_value] in *.
  - destruct (insert_spec w inner recs text value Hio) as (inner' & w' & -> & Hio' & Hd & Hval). cbn [mbind option_bind].
    eexists _, _, _. split; [done|]. split; [apply step_insert|]. split_and!; [by exists w'|by rewrite Hd|].
    intros u. rewrite Hval. by apply value_after_ext.
  - pose proof (remove_spec w inner recs text Hio) as Hrem. destruct (sa_remove inner text) as [inner' b].
    destruct Hrem as (Hio' & -> & En & Ed). eexists _, _, _. split; [done|]. split; [apply step_remove|].
    split_and!; [by exists w|by rewrite Ed, Hdirty|by rewrite En].
  - pose proof (sa_clear_spec w inner recs Hio) as Hcl. eexists _, _, _. split; [done|]. split; [apply step_clear|].
    destruct (src_clear recs) as [recs'|]; [|rewrite Hcl; split_and!; [by exists w|done..]]. destruct Hcl as [-> ->].
    split_and!; [exists (λ _, []); apply index_ok_new|done|]. intros u. by destruct u.
  - destruct (compact_spec w inner recs Hio) as (inner' & w' & -> & Hio' & Hd & Hval). cbn [mbind option_bind].
    eexists _, _, _. split; [done|]. split; [apply step_compact|]. rewrite Hdirty in Hio'. split_and!; [by exists w'|done|].
    intros u. cbn. by rewrite Hval.
Qed.

(** Runs *)
Fixpoint run_ops (inner : SuffixAutomatonInner V) (ops : list index_op) : exec (SuffixAutomatonInner V * list bool) :=
  match ops with
  | [] => Ret (inner, [])
  | op :: ops => '(inner, b) ← run_op inner op; '(inner, bs) ← run_ops inner ops; Ret (inner, b :: bs)
  end.

Inductive src_steps : index_state → list index_op → list bool → index_state → Prop :=
| steps_nil st : src_steps st [] [] st
| steps_cons st op b st1 ops bs st2 : src_step st op b st1 → src_steps st1 ops bs st2 → src_steps st (op :: ops) (b :: bs) st2.

Definition initial_state : index_state := mkState [] (λ _, None) false.

Lemma simulates_new : simulates SuffixAutomatonInner_new initial_state.
Proof. split_and!; [exists (λ _, []); apply index_ok_new|done|]. intros u. by destruct u. Qed.

Lemma run_refines inner st ops :
  simulates inner st → ∃ inner' bs st', run_ops inner ops = Ret (inner', bs) ∧ src_steps st ops bs st' ∧ simulates inner' st'.
Proof.
  revert inner st. induction ops as [|op ops IH]; intros inner st Hsim.
  - exists inner, [], st. split_and!; [done|constructor|apply Hsim..].
  - destruct (op_refines inner st op Hsim) as (inner1 & b & st1 & E & Hstep & Hsim1). cbn [run_ops]. rewrite E. cbn [mbind option_bind].
    destruct (IH inner1 st1 Hsim1) as (inner2 & bs & st2 & -> & Hsteps & Hsim2). cbn [mbind option_bind].
    exists inner2, (b :: bs), st2. split; [done|]. split; [by econstructor|done].
Qed.

End refinement.
