(* ===== verification/SuffixQueries.v ===== *)
(** * Queries of a suffix index

    What the queries answer in terms of the sources: substring containment, match
    positions, the snapshot of the active sources, the iterator over the stored records,
    and the index that deserialization rebuilds. *)

From stdpp Require Import prelude gmap sorting.
From S2P Require Import Prelude Edges Tree Zipper DatShared SuffixClasses SuffixAutomaton SuffixTexts SuffixIndex SuffixRecords.
From S2P Require Import SuffixCompact SuffixDictionary SuffixRefinement.

(** ** Sorted lists *)

Definition position_lt (a b : nat * nat) : Prop := a.1 < b.1 ∨ (a.1 = b.1 ∧ a.2 < b.2).

Lemma sort_sorted {A} (R S : A → A → Prop) `{!RelDecision R} (l : list A) :
  Transitive R → Total R → AntiSymm (=) R → (∀ x y, S x y → R x y) → StronglySorted S l → merge_sort R l = l.
Proof.
  intros HT Htot Hanti HSR Hl. apply (StronglySorted_unique R).
  - by apply StronglySorted_merge_sort.
  - induction Hl as [|x l _ IH Hx]; constructor; [done|]. eapply Forall_impl; [exact Hx|]. auto.
  - apply merge_sort_Permutation.
Qed.

#[global] Instance position_le_trans : Transitive position_le.
Proof. intros [a b] [c d] [e f]. unfold position_le. cbn. lia. Qed.
#[global] Instance position_le_total : Total position_le.
Proof. intros [a b] [c d]. unfold position_le. cbn. lia. Qed.
#[global] Instance position_le_antisymm : AntiSymm (=) position_le.
Proof. intros [a b] [c d]. unfold position_le. cbn. intros ? ?. f_equal; lia. Qed.

Lemma position_lt_le a b : position_lt a b → position_le a b.
Proof. unfold position_lt, position_le. lia. Qed.

Lemma position_lt_irrefl a : ¬ position_lt a a.
Proof. unfold position_lt. lia. Qed.

Lemma dedup_sorted l : StronglySorted position_lt l → dedup l = l.
Proof.
  induction 1 as [|x l Hl IH Hx]; [done|]. cbn [dedup]. destruct l as [|y l]; [done|]. rewrite decide_False, IH; [done|].
  intros ->. inversion Hx as [|? ? Hy _]; subst. by apply position_lt_irrefl in Hy.
Qed.

Lemma omap_seq_sorted {B} (R : B → B → Prop) (f : nat → option B) n m :
  (∀ i j x y, i < j → f i = Some x → f j = Some y → R x y) → StronglySorted R (omap f (seq n m)).
Proof.
  intros Hf. revert n. induction m as [|m IH]; intros n; [constructor|]. cbn. destruct (f n) as [x|] eqn:E; [|apply IH].
  constructor; [apply IH|]. apply Forall_forall. intros y (j & Hj%elem_of_seq & Hy)%list_elem_of_omap. eapply Hf; [|done..]. lia.
Qed.

Lemma StronglySorted_app_intro {A} (R : A → A → Prop) l1 l2 :
  StronglySorted R l1 → StronglySorted R l2 → (∀ x y, x ∈ l1 → y ∈ l2 → R x y) → StronglySorted R (l1 ++ l2).
Proof.
  intros H1 H2 H12. induction H1 as [|x l _ IH Hx]; [done|]. cbn. constructor.
  - apply IH. intros y z Hy. apply H12. by right.
  - apply Forall_app. split; [done|]. apply Forall_forall. intros y Hy. apply H12; [by left|done].
Qed.

(** ** Occurrences *)

(** The pattern ends at position [stop]. *)
Definition ends_at (text u : list nat) (stop : nat) : Prop := stop ≤ length text ∧ u `suffix_of` take stop text.

#[global] Instance ends_at_dec text u stop : Decision (ends_at text u stop).
Proof. unfold ends_at. apply _. Defined.

Lemma ends_at_start (text u : list nat) start :
  start + length u ≤ length text → u `prefix_of` drop start text ↔ u `suffix_of` take (start + length u) text.
Proof.
  intros Hle. split.
  - intros [k E]. exists (take start text). rewrite <-(take_drop start text) at 1. rewrite E, app_assoc.
    assert (length (take start text ++ u) = start + length u) as El by (rewrite length_app, length_take; lia).
    rewrite <-El at 1. by rewrite take_app_length.
  - intros [k E]. assert (length k = start) as Hk.
    { apply (f_equal length) in E. rewrite length_app, length_take in E. lia. }
    exists (drop (start + length u) text). rewrite <-(take_drop (start + length u) text) at 1. rewrite E, <-app_assoc, <-Hk.
    by rewrite drop_app_length.
Qed.

Lemma infix_ends text u : infix u text ↔ ∃ stop, ends_at text u stop.
Proof.
  split.
  - intros (z & Hz & Hu). exists (length z). split; [by apply prefix_length|]. destruct Hz as [k ->]. by rewrite take_app_length.
  - intros (stop & _ & Hu). exists (take stop text). split; [apply prefix_take|done].
Qed.

Lemma elem_of_occurrence_ends text u stop :
  length u ≤ length text → stop ∈ occurrence_ends text u ↔ ends_at text u stop.
Proof.
  intros Hlen. unfold occurrence_ends. rewrite list_elem_of_omap. split.
  - intros (start & Hs%elem_of_seq & E). case_bool_decide as Hp; [|done]. injection E as <-.
    split; [lia|]. apply ends_at_start; [lia|done].
  - intros [Hle Hu]. pose proof (suffix_length _ _ Hu) as Hl. rewrite length_take in Hl. exists (stop - length u).
    assert (stop - length u + length u = stop) as E by lia. split; [apply elem_of_seq; lia|].
    rewrite bool_decide_true; [by rewrite E|]. apply ends_at_start; rewrite E; [lia|done].
Qed.

Lemma occurrence_ends_sorted text u : StronglySorted lt (occurrence_ends text u).
Proof.
  apply omap_seq_sorted. intros i j x y Hij Hx Hy. repeat case_bool_decide; simplify_eq. lia.
Qed.

(** The number of occurrences, by their ends *)
Definition occurrence_count (u text : list nat) : nat := length (filter (ends_at text u) (seq 0 (S (length text)))).

Lemma window_ends (text u : list nat) i : i + length u ≤ length text → take (length u) (drop i text) = u ↔ ends_at text u (i + length u).
Proof.
  intros Hle. unfold ends_at. rewrite <-ends_at_start by done. split.
  - intros E. split; [done|]. exists (drop (length u) (drop i text)). rewrite <-E at 1. by rewrite take_drop.
  - intros [_ [k ->]]. by rewrite take_app_length.
Qed.

Lemma filter_length_fmap {A B} (P : B → Prop) (Q : A → Prop) `{!∀ x, Decision (P x)} `{!∀ x, Decision (Q x)} (f : A → B) (l : list A) :
  (∀ x, x ∈ l → P (f x) ↔ Q x) → length (filter P (f <$> l)) = length (filter Q l).
Proof.
  induction l as [|x l IH]; intros Hpq; [done|]. rewrite fmap_cons, !filter_cons. rewrite (decide_ext _ _ _ _ (Hpq x (list_elem_of_here _ _))).
  case_decide; cbn; rewrite IH; [done| |done|]; intros; apply Hpq; by right.
Qed.

Lemma filter_none {A} (P : A → Prop) `{!∀ x, Decision (P x)} (l : list A) : (∀ x, x ∈ l → ¬ P x) → filter P l = [].
Proof. induction l as [|x l IH]; intros Hn; [done|]. rewrite filter_cons_False by (apply Hn; by left). apply IH. intros y Hy. apply Hn. by right. Qed.

Lemma filter_ext_in {A} (P Q : A → Prop) `{!∀ x, Decision (P x)} `{!∀ x, Decision (Q x)} (l : list A) :
  (∀ x, x ∈ l → P x ↔ Q x) → filter P l = filter Q l.
Proof.
  induction l as [|x l IH]; intros Hpq; [done|]. rewrite !filter_cons, (decide_ext _ _ _ _ (Hpq x (list_elem_of_here _ _))).
  rewrite IH; [done|]. intros y Hy. apply Hpq. by right.
Qed.

Lemma unit_occurrences_count source pattern : unit_occurrences source pattern = occurrence_count pattern source.
Proof.
  unfold unit_occurrences, occurrence_count. destruct pattern as [|c pattern].
  - rewrite filter_Forall; [by rewrite length_seq; lia|]. apply Forall_forall. intros n [_ Hn]%elem_of_seq. split; [lia|apply suffix_nil].
  - set (u := c :: pattern). unfold windows. assert (∀ n, n < length u → ¬ ends_at source u n) as Hshort.
    { intros n Hn [_ Hu%suffix_length]. rewrite length_take in Hu. lia. }
    destruct (decide (length u ≤ S (length source))) as [Hle|Hgt].
    + replace (S (length source)) with (length u + (length source + 1 - length u)) by lia. rewrite seq_app, filter_app, length_app. cbn [Nat.add].
      rewrite (filter_none _ (seq 0 (length u))) by (intros n [_ Hn]%elem_of_seq; by apply Hshort).
      assert (∀ m, seq (length u) m = Nat.add (length u) <$> seq 0 m) as -> by (intros m; by rewrite fmap_add_seq, Nat.add_0_r).
      change (length []) with 0. rewrite Nat.add_0_l.
      rewrite (filter_length_fmap _ (λ i, ends_at source u (i + length u))), (filter_length_fmap _ (λ i, ends_at source u (i + length u))); [done| |].
      * intros i _. by rewrite Nat.add_comm.
      * intros i [_ Hi]%elem_of_seq. apply window_ends. lia.
    + replace (length source + 1 - length u) with 0 by lia.
      rewrite (filter_none (ends_at source u)); [done|]. intros n [_ Hn]%elem_of_seq. apply Hshort. lia.
Qed.

Lemma has_occurrence_infix source pattern : has_occurrence source pattern = bool_decide (infix pattern source).
Proof.
  unfold has_occurrence. destruct pattern as [|c pattern].
  - symmetry. apply bool_decide_true. exists []. split; [apply prefix_nil|done].
  - set (u := c :: pattern). unfold windows. apply eq_true_iff_eq. rewrite bool_decide_eq_true, infix_ends, existsb_exists. split.
    + intros (x & Hx%list_elem_of_In & Hd%bool_decide_eq_true). apply list_elem_of_fmap in Hx as (i & -> & [_ Hi]%elem_of_seq).
      exists (i + length u). apply window_ends; [lia|done].
    + intros (stop & Hle & Hu). pose proof (suffix_length _ _ Hu) as Hl. rewrite length_take in Hl. exists u. split; [|by apply bool_decide_eq_true].
      apply list_elem_of_In, list_elem_of_fmap. exists (stop - length u). split; [|apply elem_of_seq; lia]. symmetry. apply window_ends; [lia|].
      replace (stop - length u + length u) with stop by lia. done.
Qed.

Section queries.
Context {V : Type}.
Context (w : nat → list nat) (inner : SuffixAutomatonInner V) (recs : list (source V)) (Hio : index_ok w inner recs).

Lemma contains_occurs u : sa_contains inner u = bool_decide (occurs (texts_of recs) u).
Proof. apply bool_decide_ext. apply (find_term_state_occurs w inner recs u Hio). Qed.

(** ** Match positions *)

Lemma match_walk u :
  foldM (λ state byte,
    match state with
    | None => Ret None
    | Some state => node ← sa_nodes inner !! state; Ret (find_edge node byte)
    end) (Some 0) u = Ret (find_term_state inner u).
Proof.
  induction u as [|c u IH] using rev_ind; [done|]. rewrite foldM_app, IH. cbn [mbind option_bind foldM].
  unfold find_term_state. rewrite path_app. fold (find_term_state inner u). destruct (find_term_state inner u) as [s|] eqn:E; [|done].
  apply (find_term_state_class w inner recs u s Hio) in E as [Hs _]. destruct (lookup_lt_is_Some_2 _ _ Hs) as [n Hn]. cbn. rewrite Hn. cbn.
  by destruct (find_edge n c).
Qed.

(** The positions the code collects, before it sorts them *)
Definition found_positions (active : list bool) (texts : list (list nat)) (u : list nat) : list (nat * nat) :=
  concat (imap (λ source_id source,
    if negb (default false (active !! source_id)) || (length source <? length u) then []
    else pair source_id <$> occurrence_ends source u) texts).

Lemma elem_of_concat_imap {A B} (f : nat → A → list B) (l : list A) b :
  b ∈ concat (imap f l) ↔ ∃ i x, l !! i = Some x ∧ b ∈ f i x.
Proof.
  rewrite list_elem_of_In, in_concat. setoid_rewrite <-list_elem_of_In. split.
  - intros (k & Hk & Hb). apply list_elem_of_lookup in Hk as [i Hi]. rewrite list_lookup_imap in Hi.
    destruct (l !! i) as [x|] eqn:E; [|done]. injection Hi as <-. eauto.
  - intros (i & x & Hx & Hb). exists (f i x). split; [|done]. apply list_elem_of_lookup. exists i. by rewrite list_lookup_imap, Hx.
Qed.

Lemma concat_imap_sorted {A B} (R : B → B → Prop) (f : nat → A → list B) (l : list A) :
  (∀ i x, l !! i = Some x → StronglySorted R (f i x)) →
  (∀ i j x y a b, i < j → l !! i = Some x → l !! j = Some y → a ∈ f i x → b ∈ f j y → R a b) →
  StronglySorted R (concat (imap f l)).
Proof.
  revert f. induction l as [|x l IH]; intros f Hone Htwo; [constructor|]. rewrite imap_cons. cbn [concat]. apply StronglySorted_app_intro.
  - by apply Hone.
  - apply IH; [intros i y Hy; by apply (Hone (S i))|]. intros i j y z a b Hij Hy Hz. apply (Htwo (S i) (S j) y z a b); [lia|done..].
  - intros a b Ha (j & y & Hy & Hb)%elem_of_concat_imap. by apply (Htwo 0 (S j) x y a b); [lia|..].
Qed.

Lemma found_positions_sorted active texts u : StronglySorted position_lt (found_positions active texts u).
Proof.
  apply concat_imap_sorted.
  - intros i x _. destruct (_ || _); [constructor|]. induction (occurrence_ends_sorted x u) as [|e l _ IH He]; [constructor|].
    cbn. constructor; [done|]. apply Forall_fmap. eapply Forall_impl; [exact He|]. intros e' He'. right. done.
  - intros i j x y a b Hij _ _. destruct (_ || _); [by intros ?%elem_of_nil|]. intros (e & -> & _)%list_elem_of_fmap.
    destruct (_ || _); [by intros ?%elem_of_nil|]. intros (e' & -> & _)%list_elem_of_fmap. by left.
Qed.

Lemma match_positions_spec u :
  ∃ result, match_positions inner u = Ret result ∧ StronglySorted position_lt result ∧
    ∀ id stop, (id, stop) ∈ result ↔ u ≠ [] ∧ ∃ r, recs !! id = Some r ∧ so_tracked r = true ∧ ends_at (so_text r) u stop.
Proof.
  unfold match_positions. destruct u as [|c u0]; [exists []; split_and!; [done|constructor|]; intros id stop; split; [by intros ?%elem_of_nil|by intros [? _]]|].
  set (u := c :: u0). rewrite match_walk. cbn [mbind option_bind]. rewrite (io_texts _ _ _ Hio).
  destruct (find_term_state inner u) as [s|] eqn:E.
  - change (concat _) with (found_positions (active_sources (texts_of recs) (sa_positions inner)) (texts_of recs) u).
    pose proof (found_positions_sorted (active_sources (texts_of recs) (sa_positions inner)) (texts_of recs) u) as Hs.
    rewrite (sort_sorted position_le position_lt), dedup_sorted by (first [done|apply _|apply position_lt_le]). eexists. split_and!; [done..|].
    intros id stop. unfold found_positions. rewrite elem_of_concat_imap. unfold texts_of. setoid_rewrite list_lookup_fmap. split.
    + intros (i & text & Ht & Hin). destruct (recs !! i) as [r|] eqn:Hr; [|done]. injection Ht as <-.
      destruct (_ || _) eqn:Hc; [by apply elem_of_nil in Hin|]. apply orb_false_iff in Hc as [Ha Hl]. apply negb_false_iff in Ha. apply Nat.ltb_ge in Hl.
      apply list_elem_of_fmap in Hin as (e & [= -> ->] & He). apply elem_of_occurrence_ends in He; [|done].
      apply (active_sources_spec _ _ _ _ _ i (io_positions _ _ _ Hio)) in Ha as (r' & Hr' & Htr); [|intros ? ?%having_lt; by rewrite length_fmap].
      split; [done|]. exists r. assert (r' = r) as -> by congruence. done.
    + intros (_ & r & Hr & Htr & He). exists id, (so_text r). rewrite Hr. split; [done|].
      assert (default false (active_sources (so_text <$> recs) (sa_positions inner) !! id) = true) as ->.
      { apply (active_sources_spec _ _ _ _ _ id (io_positions _ _ _ Hio)); [intros ? ?%having_lt; by rewrite length_fmap|by exists r]. }
      assert (length u ≤ length (so_text r)) as Hl by (apply infix_length, infix_ends; eauto).
      rewrite (proj2 (Nat.ltb_ge _ _) Hl). cbn. apply list_elem_of_fmap. exists stop. split; [done|]. by apply elem_of_occurrence_ends.
  - exists []. split_and!; [done|constructor|]. intros id stop. split; [by intros ?%elem_of_nil|]. intros (_ & r & Hr & _ & He). exfalso.
    assert (is_Some (find_term_state inner u)) as [? ?]; [|congruence]. apply (find_term_state_occurs w inner recs u Hio). right.
    exists (so_text r). split; [apply list_elem_of_fmap_2; by eapply list_elem_of_lookup_2|]. apply infix_ends. eauto.
Qed.

(** ** The snapshot of the active sources *)

(** The record of a source *)
Definition record_of (id : nat) : nat * list nat * option V :=
  (id, default [] (texts_of recs !! id), mjoin ((so_value <$> recs) !! id)).

Lemma record_of_source id r : recs !! id = Some r → record_of id = (id, so_text r, so_value r).
Proof. intros Hr. unfold record_of, texts_of. by rewrite !list_lookup_fmap, Hr. Qed.

Lemma sorted_source id : id ∈ sa_sorted_source_indices inner → ∃ r, recs !! id = Some r ∧ so_active r = true ∧
  sa_source_texts inner !! id = Some (so_text r) ∧ sa_source_values inner !! id = Some (so_value r).
Proof.
  intros (r & Hr & Ha)%(io_active _ _ _ Hio). exists r. rewrite (io_texts _ _ _ Hio), (io_values _ _ _ Hio). unfold texts_of.
  by rewrite !list_lookup_fmap, Hr.
Qed.

Lemma source_at_spec rank : source_at inner rank = Ret (record_of <$> sa_sorted_source_indices inner !! rank).
Proof.
  unfold source_at. destruct (sa_sorted_source_indices inner !! rank) as [id|] eqn:E; [|done].
  destruct (sorted_source id) as (r & Hr & _ & Et & Ev); [by eapply list_elem_of_lookup_2|]. rewrite Et, Ev. cbn.
  by rewrite (record_of_source id r Hr).
Qed.

Lemma source_records_eq : source_records inner = Ret (record_of <$> sa_sorted_source_indices inner).
Proof.
  unfold source_records, source_count. apply mapM_Some, Forall2_same_length_lookup. split; [by rewrite length_seq, length_fmap|].
  intros i k x [-> Hlt]%lookup_seq Hx. rewrite Nat.add_0_l, source_at_spec. rewrite list_lookup_fmap in Hx. by rewrite Hx.
Qed.

Lemma source_records_spec :
  ∃ l, source_records inner = Ret l ∧ length l = sa_string_count inner ∧ StronglySorted (source_lt (texts_of recs)) l.*1.*1 ∧
    ∀ id text value, (id, text, value) ∈ l ↔ ∃ r, recs !! id = Some r ∧ so_active r = true ∧ text = so_text r ∧ value = so_value r.
Proof.
  exists (record_of <$> sa_sorted_source_indices inner). rewrite source_records_eq. split_and!; [done| | |].
  - by rewrite length_fmap, (io_count _ _ _ Hio).
  - assert (∀ l, (record_of <$> l).*1.*1 = l) as -> by (induction l as [|id l IH]; [done|]; cbn; by rewrite IH). apply Hio.
  - intros id text value. rewrite list_elem_of_fmap. split.
    + intros (x & E & Hx). destruct (sorted_source x Hx) as (r & Hr & Ha & _). rewrite (record_of_source x r Hr) in E. simplify_eq. eauto.
    + intros (r & Hr & Ha & -> & ->). exists id. rewrite (record_of_source id r Hr). split; [done|]. apply (io_active _ _ _ Hio). by exists r.
Qed.

Lemma partition_point_spec {A} (pred : A → exec bool) (f : A → bool) l :
  (∀ y, y ∈ l → pred y = Ret (f y)) →
  ∃ n, partition_point pred l = Ret n ∧ (∀ i x, i < n → l !! i = Some x → f x = true) ∧ ∀ x, l !! n = Some x → f x = false.
Proof.
  induction l as [|y l IH]; intros Hp; [by exists 0|]. cbn [partition_point]. rewrite Hp by (by left). cbn [mbind option_bind].
  destruct (f y) eqn:Ef.
  - destruct IH as (n & -> & Hlt & Hn); [intros; apply Hp; by right|]. exists (S n). split_and!; [done| |done].
    intros [|i] x Hi Hx; [by injection Hx as <-|]. apply (Hlt i); [lia|done].
  - exists 0. split_and!; [done|lia|]. by intros x [= <-].
Qed.

Lemma contains_source_spec text : ∃ b, contains_source inner text = Ret b ∧ (b = true ↔ ∃ r, r ∈ recs ∧ so_active r = true ∧ so_text r = text).
Proof.
  unfold contains_source. set (ids := sa_sorted_source_indices inner). set (f id := bool_decide (lex_lt (default [] (texts_of recs !! id)) text)).
  destruct (partition_point_spec (λ id, source ← sa_source_texts inner !! id; Ret (bool_decide (lex_lt source text))) f ids) as (n & -> & Hlt & Hn).
  { intros id (r & Hr & _ & Et & _)%sorted_source. rewrite Et. cbn. unfold f, texts_of. by rewrite list_lookup_fmap, Hr. }
  cbn [mbind option_bind].
  assert (∀ r, r ∈ recs → so_active r = true → so_text r = text → ∃ i id, n ≤ i ∧ ids !! i = Some id ∧ recs !! id = Some r) as Hthere.
  { intros r Hr Ha Ht. apply list_elem_of_lookup in Hr as [id Hr]. assert (id ∈ ids) as Hid by (apply (io_active _ _ _ Hio); by exists r).
    apply list_elem_of_lookup in Hid as [i Hi]. exists i, id. split_and!; [|done..]. destruct (decide (n ≤ i)) as [|Hgt]; [done|].
    assert (f id = true) as Hf by (apply (Hlt i); [lia|done]). unfold f, texts_of in Hf. rewrite list_lookup_fmap, Hr in Hf. cbn in Hf.
    apply bool_decide_eq_true in Hf. rewrite Ht in Hf. by apply lex_lt_irrefl in Hf. }
  destruct (ids !! n) as [id|] eqn:Ei.
  - destruct (sorted_source id) as (r & Hr & Ha & Et & _); [by eapply list_elem_of_lookup_2|]. rewrite Et. cbn. eexists. split; [done|].
    rewrite bool_decide_eq_true. split; [intros <-; exists r; split_and!; [by eapply list_elem_of_lookup_2|done..]|].
    intros (r' & Hr' & Ha' & Ht'). destruct (Hthere r' Hr' Ha' Ht') as (i & id' & Hi & Hid' & Hrr). pose proof (Hn id eq_refl) as Hf. unfold f in Hf.
    apply bool_decide_eq_false in Hf. unfold texts_of in Hf. rewrite list_lookup_fmap, Hr in Hf. cbn in Hf.
    destruct (decide (i = n)) as [->|Hne]; [congruence|].
    pose proof (StronglySorted_lookup_lt _ _ n i id id' (io_sorted _ _ _ Hio) ltac:(lia) Ei Hid') as Hord. unfold source_lt, texts_of in Hord.
    rewrite !list_lookup_fmap, Hr, Hrr in Hord. cbn in Hord. rewrite Ht' in Hord. tauto.
  - exists false. split; [done|]. split; [done|]. intros (r' & Hr' & Ha' & Ht'). destruct (Hthere r' Hr' Ha' Ht') as (i & id' & Hi & Hid' & _).
    apply lookup_ge_None in Ei. apply lookup_lt_Some in Hid'. lia.
Qed.

Lemma contains_substring_spec u :
  ∃ b, contains_substring inner u = Ret b ∧ (b = true ↔ ∃ r, r ∈ recs ∧ so_active r = true ∧ infix u (so_text r)).
Proof.
  assert ((∃ r, r ∈ recs ∧ so_active r = true ∧ infix u (so_text r)) ↔
    ∃ id, id ∈ sa_sorted_source_indices inner ∧ infix u (default [] (texts_of recs !! id))) as Hiff.
  { unfold texts_of. split.
    - intros (r & Hr & Ha & Hu). apply list_elem_of_lookup in Hr as [id Hr]. exists id. rewrite list_lookup_fmap, Hr.
      split; [apply (io_active _ _ _ Hio); by exists r|done].
    - intros (id & (r & Hr & Ha & _)%sorted_source & Hu). rewrite list_lookup_fmap, Hr in Hu. exists r. split; [by eapply list_elem_of_lookup_2|done]. }
  unfold contains_substring. destruct u as [|c u0].
  - eexists. split; [done|]. rewrite Hiff, negb_true_iff, Nat.eqb_neq. unfold source_count. split.
    + intros Hne. destruct (sa_sorted_source_indices inner) as [|id ids]; [done|]. exists id. split; [by left|]. exists []. split; [apply prefix_nil|done].
    + intros (id & Hid & _) Hl. apply nil_length_inv in Hl. rewrite Hl in Hid. by apply elem_of_nil in Hid.
  - set (u := c :: u0) in *.
    destruct (foldM_inv (λ ids b, b = true ↔ ∃ id, id ∈ ids ∧ infix u (default [] (texts_of recs !! id)))
      (λ found id, if (found : bool) then Ret true else source ← sa_source_texts inner !! id; Ret (has_occurrence source u))
      false (sa_sorted_source_indices inner)) as (b & -> & Hb).
    { split; [done|]. by intros (id & ?%elem_of_nil & _). }
    { intros ids id rest b El Hb. destruct b.
      - exists true. split; [done|]. split; [|done]. intros _. destruct (proj1 Hb eq_refl) as (x & Hx & Hi). exists x. split; [set_solver|done].
      - destruct (sorted_source id) as (r & Hr & _ & Et & _); [rewrite El; set_solver|]. rewrite Et. cbn [mbind option_bind]. eexists. split; [done|].
        rewrite has_occurrence_infix, bool_decide_eq_true. assert (default [] (texts_of recs !! id) = so_text r) as Ed by (unfold texts_of; by rewrite list_lookup_fmap, Hr).
        split.
        + intros Hi. exists id. rewrite Ed. split; [set_solver|done].
        + intros (x & [Hx| ->%list_elem_of_singleton]%elem_of_app & Hi); [|by rewrite Ed in Hi].
          assert (false = true) by (apply Hb; eauto). done. }
    exists b. by rewrite Hiff.
Qed.

(** ** Frequencies *)

Definition active_ids : list nat := filter (having so_active recs) (seq 0 (length recs)).

Lemma sorted_active : sa_sorted_source_indices inner ≡ₚ active_ids.
Proof.
  apply NoDup_Permutation; [by eapply sorted_sources_NoDup, Hio|apply NoDup_filter, NoDup_seq|].
  intros id. unfold active_ids. rewrite list_elem_of_filter, elem_of_seq, (io_active _ _ _ Hio). split; [|tauto].
  intros Hid. pose proof (having_lt _ _ _ Hid). split; [done|lia].
Qed.

(** The occurrences in the active sources *)
Definition frequency (u : list nat) : nat :=
  sum_list ((λ r, if so_active r then occurrence_count u (so_text r) else 0) <$> recs).

Lemma sum_list_perm (l k : list nat) : l ≡ₚ k → sum_list l = sum_list k.
Proof. induction 1; cbn in *; lia. Qed.

Lemma sum_list_snoc (l : list nat) x : sum_list (l ++ [x]) = sum_list l + x.
Proof. induction l as [|y l IH]; cbn in *; lia. Qed.
End queries.

Lemma sum_active {V} (recs : list (source V)) (f : list nat → nat) :
  sum_list ((λ id, f (default [] (texts_of recs !! id))) <$> active_ids recs) = sum_list ((λ r, if so_active r then f (so_text r) else 0) <$> recs).
Proof.
  induction recs as [|r recs IH] using rev_ind; [done|]. rewrite fmap_app, list_fmap_singleton, sum_list_snoc, <-IH. unfold active_ids.
  rewrite length_app, Nat.add_1_r, seq_S, filter_app, fmap_app.
  assert (filter (having so_active (recs ++ [r])) (seq 0 (length recs)) = filter (having so_active recs) (seq 0 (length recs))) as ->.
  { apply filter_ext_in. intros id [_ Hid]%elem_of_seq. rewrite having_snoc. split; [|by left]. intros [?|[? _]]; [done|lia]. }
  assert ((λ id, f (default [] (texts_of (recs ++ [r]) !! id))) <$> filter (having so_active recs) (seq 0 (length recs)) =
    (λ id, f (default [] (texts_of recs !! id))) <$> filter (having so_active recs) (seq 0 (length recs))) as ->.
  { apply list_fmap_ext. intros i id Hid. apply list_elem_of_lookup_2, list_elem_of_filter in Hid as [_ [_ Hid]%elem_of_seq].
    by rewrite texts_of_snoc, lookup_app_l by (by rewrite length_texts_of). }
  assert (having so_active (recs ++ [r]) (length recs) ↔ so_active r = true) as Hr by (apply having_here; by rewrite list_lookup_middle).
  rewrite Nat.add_0_l, filter_cons, filter_nil, (decide_ext _ _ _ _ Hr). case_decide as Ha.
  - cbn [fmap list_fmap]. rewrite sum_list_snoc, Ha, texts_of_snoc. by rewrite list_lookup_middle by (by rewrite length_texts_of).
  - rewrite app_nil_r. apply not_true_is_false in Ha. rewrite Ha. lia.
Qed.

(** A sum with overflow checks *)
Lemma checked_sum (f : nat → nat) (step : nat → nat → exec nat) ids c :
  (∀ c id, id ∈ ids → step c id = usize_checked_add c (f id)) → (Z.of_nat c < 2 ^ 64)%Z →
  foldM step c ids = usize_checked_add c (sum_list (f <$> ids)).
Proof.
  revert c. induction ids as [|id ids IH]; intros c Hstep Hc; cbn [foldM fmap list_fmap sum_list].
  - unfold usize_checked_add. rewrite Nat.add_0_r. by rewrite (proj2 (Z.ltb_lt _ _)) by (cbn; lia).
  - rewrite Hstep by (by left). unfold usize_checked_add at 1. destruct (Z.ltb_spec (Z.of_nat c + Z.of_nat (f id)) (2 ^ 64)) as [Hlt|Hge].
    + cbn [mbind option_bind]. rewrite IH; [|intros; apply Hstep; by right|lia]. unfold usize_checked_add. cbn. rewrite Nat.add_assoc.
      by rewrite Nat2Z.inj_add, Nat2Z.inj_add, Z.add_assoc.
    + cbn. unfold usize_checked_add. rewrite (proj2 (Z.ltb_ge _ _)); [done|]. cbn. lia.
Qed.

Lemma substring_frequency_spec {V} w (inner : SuffixAutomatonInner V) recs u :
  index_ok w inner recs →
  substring_frequency inner u = if (Z.of_nat (frequency recs u) <? 2 ^ 64)%Z then Ret (frequency recs u) else Panic.
Proof.
  intros Hio. unfold substring_frequency. set (f id := occurrence_count u (default [] (texts_of recs !! id))).
  rewrite (checked_sum f); [|intros c id Hid|done].
  - rewrite (sum_list_perm _ (f <$> active_ids recs)) by (by rewrite (sorted_active w inner recs Hio)).
    unfold f. rewrite (sum_active recs (occurrence_count u)). done.
  - destruct (sorted_source w inner recs Hio id Hid) as (r & Hr & _ & Et & _). rewrite Et. cbn [mbind option_bind]. unfold f, texts_of.
    rewrite list_lookup_fmap, Hr. cbn [default from_option fmap option_fmap option_map]. rewrite <-unit_occurrences_count.
    unfold Datatypes.id. destruct u as [|x u]; [|done]. cbn [unit_occurrences]. unfold usize_checked_add.
    destruct (Z.ltb_spec (Z.of_nat (length (so_text r)) + Z.of_nat 1) (2 ^ 64)); cbn [mbind option_bind]; [done|].
    rewrite (proj2 (Z.ltb_ge _ _)); [done|]. lia.
Qed.

(** ** The stored records *)

Lemma entries_spec {V} w (inner : SuffixAutomatonInner V) recs n :
  index_ok w inner recs → length (sa_sorted_source_indices inner) ≤ n →
  collect (entries_next inner) n 0 = Ret ((λ id, (default [] (texts_of recs !! id), mjoin ((so_value <$> recs) !! id))) <$> sa_sorted_source_indices inner).
Proof.
  intros Hio. set (g id := _).
  assert (∀ i, entries_next inner i = Ret (match sa_sorted_source_indices inner !! i with Some id => (Some (g id), S i) | None => (None, i) end)) as Hnext.
  { intros i. unfold entries_next. destruct (sa_sorted_source_indices inner !! i) as [id|] eqn:E; [|done].
    destruct (sorted_source w inner recs Hio id) as (r & Hr & _ & Et & Ev); [by eapply list_elem_of_lookup_2|]. rewrite Et, Ev.
    cbn [mbind option_bind]. rewrite Nat.add_1_r. unfold g, texts_of. by rewrite !list_lookup_fmap, Hr. }
  assert (∀ n i, length (sa_sorted_source_indices inner) ≤ i + n →
    collect (entries_next inner) n i = Ret (g <$> drop i (sa_sorted_source_indices inner))) as Hgen; [|intros Hn; by apply (Hgen n 0)].
  clear n. induction n as [|n IH]; intros i Hn; cbn [collect]; rewrite Hnext; cbn [mbind option_bind].
  all: destruct (sa_sorted_source_indices inner !! i) as [id|] eqn:E; [|apply lookup_ge_None in E; by rewrite drop_ge].
  - apply lookup_lt_Some in E. lia.
  - rewrite IH by lia. cbn [mbind option_bind]. by rewrite (drop_S _ id i E), fmap_cons.
Qed.

(** ** Deserialization *)

#[global] Instance source_le_trans texts : Transitive (source_le texts).
Proof. intros a b c [->|Hab] [->|Hbc]; unfold source_le; auto. right. by etrans. Qed.
#[global] Instance source_le_total texts : Total (source_le texts).
Proof.
  intros a b. unfold source_le. destruct (decide (a = b)) as [->|Hne]; [by left; left|]. destruct (decide (source_lt texts a b)); [by left; right|].
  right. right. by apply source_lt_total.
Qed.
#[global] Instance source_le_antisymm texts : AntiSymm (=) (source_le texts).
Proof. intros a b [->|Hab] [E|Hba]; [done..|]. destruct (source_lt_irrefl texts a). by etrans. Qed.

(** What is written: all but the derived index *)
Definition serialized {V} (inner : SuffixAutomatonInner V) : SuffixAutomatonInner V :=
  mkInner (sa_nodes inner) (sa_string_count inner) (sa_source_texts inner) (sa_source_values inner) [] (sa_positions inner)
    (sa_needs_compaction inner).

Lemma deserialize_spec {V} w (inner : SuffixAutomatonInner V) recs :
  index_ok w inner recs → (∀ id, having so_active recs id → having so_tracked recs id) → after_deserialize (serialized inner) = inner.
Proof.
  intros Hio Hall. unfold after_deserialize, restore_missing_source_values, serialized. cbn [sa_source_texts sa_source_values].
  assert (length (sa_source_texts inner) = length (sa_source_values inner)) as El.
  { rewrite (io_texts _ _ _ Hio), (io_values _ _ _ Hio), length_texts_of. by rewrite length_fmap. }
  rewrite (proj2 (Nat.leb_le _ _)) by lia. unfold rebuild_sorted_source_indices.
  cbn [sa_nodes sa_string_count sa_source_texts sa_source_values sa_positions sa_needs_compaction].
  set (indices := omap _ _). assert (merge_sort (source_le (sa_source_texts inner)) indices = sa_sorted_source_indices inner) as ->; [|by destruct inner].
  assert (∀ id, having so_tracked recs id → id < length (sa_source_texts inner)) as Hlt.
  { intros id Hid%having_lt. rewrite (io_texts _ _ _ Hio). by rewrite length_texts_of. }
  apply (StronglySorted_unique (source_le (sa_source_texts inner))).
  - apply StronglySorted_merge_sort; apply _.
  - rewrite (io_texts _ _ _ Hio). induction (io_sorted _ _ _ Hio) as [|x l _ IH Hx]; constructor; [done|].
    eapply Forall_impl; [exact Hx|]. by right.
  - rewrite merge_sort_Permutation. apply NoDup_Permutation; [|by eapply sorted_sources_NoDup, Hio|].
    + assert (StronglySorted lt indices) as Hs.
      { apply omap_seq_sorted. intros i j x y Hij. do 2 case_match; intros; simplify_eq; done. }
      clear -Hs. induction Hs as [|x l _ IH Hx]; constructor; [|done]. intros Hin. rewrite Forall_forall in Hx. specialize (Hx x Hin). lia.
    + intros id. rewrite (io_active _ _ _ Hio). unfold indices. rewrite list_elem_of_omap.
      destruct (active_sources_spec _ _ _ (sa_source_texts inner) _ id (io_positions _ _ _ Hio) Hlt) as [Hlen Hact]. split.
      * intros (x & _ & E). destruct (default false (active_sources (sa_source_texts inner) (sa_positions inner) !! x)) eqn:Ex; [|done]. injection E as <-. by apply (io_tracked _ _ _ Hio), Hact.
      * intros Hid%Hall. exists id. rewrite (proj2 Hact Hid). split; [|done]. apply elem_of_seq. rewrite Hlen. apply Hlt in Hid. lia.
Qed.
