(* ===== verification/SuffixZipper.v ===== *)
(** * The zipper of a suffix automaton

    [SuffixAutomatonZipper] of src/src/suffix_automaton/zipper.rs as a lawful zipper, so
    that the generic iterators run over it: [iter_bytes] and [iter_terms] enumerate the
    words of the automaton.  Reading the edges of a state lengthens its longest word, so
    a zipper can descend at most as often as the longest text is long. *)

From stdpp Require Import prelude gmap sorting.
From S2P Require Import Prelude Edges Tree Zipper SuffixClasses SuffixAutomaton SuffixTexts SuffixIndex SuffixRecords.
From S2P Require Import SuffixCompact SuffixDictionary SuffixRefinement SuffixQueries.

Section zipper.
Context {V : Type}.

Record SuffixAutomatonZipper := mkSuffixZipper {
  sz_inner : SuffixAutomatonInner V;
  sz_state : nat;
  sz_path : list nat;
}.

Definition suffix_zipper_new (inner : SuffixAutomatonInner V) : SuffixAutomatonZipper := mkSuffixZipper inner 0 [].

Definition suffix_is_final (z : SuffixAutomatonZipper) : bool :=
  match sa_nodes (sz_inner z) !! sz_state z with Some node => sx_final node | None => false end.

(** The loop over the edges finds the first with the label. *)
Definition suffix_descend (z : SuffixAutomatonZipper) (label : nat) : option SuffixAutomatonZipper :=
  node ← sa_nodes (sz_inner z) !! sz_state z;
  target ← edge_get label (sx_edges node);
  Some (mkSuffixZipper (sz_inner z) target (sz_path z ++ [label])).

Definition suffix_children (z : SuffixAutomatonZipper) : list (nat * SuffixAutomatonZipper) :=
  let edges := match sa_nodes (sz_inner z) !! sz_state z with Some node => sx_edges node | None => [] end in
  (λ '(label, target), (label, mkSuffixZipper (sz_inner z) target (sz_path z ++ [label]))) <$> edges.

Definition suffix_value (z : SuffixAutomatonZipper) : option V :=
  node ← sa_nodes (sz_inner z) !! sz_state z;
  if sx_final node then sx_value node else None.

#[global] Instance suffix_DictZipper : DictZipper SuffixAutomatonZipper := {
  zip_final := suffix_is_final;
  descend := suffix_descend;
  children := suffix_children;
  zip_path := sz_path;
}.

#[global] Instance suffix_ValuedDictZipper : ValuedDictZipper SuffixAutomatonZipper V := suffix_value.

(** ** The laws *)

Definition suffix_zip_ok (z : SuffixAutomatonZipper) : Prop :=
  ∃ w P, automaton w P (sa_nodes (sz_inner z)) ∧ sz_state z < length (sa_nodes (sz_inner z)) ∧
    live (link_of (sa_nodes (sz_inner z))) w (sz_state z).

(** What is left of the longest word *)
Definition suffix_height (z : SuffixAutomatonZipper) : nat :=
  max_list (sx_max_length <$> sa_nodes (sz_inner z)) -
  match sa_nodes (sz_inner z) !! sz_state z with Some n => sx_max_length n | None => 0 end.

Lemma suffix_descend_edge z label :
  suffix_descend z label =
    target ← edge_of (sa_nodes (sz_inner z)) (sz_state z) label; Some (mkSuffixZipper (sz_inner z) target (sz_path z ++ [label])).
Proof. unfold suffix_descend, edge_of. by destruct (sa_nodes (sz_inner z) !! sz_state z). Qed.

Lemma max_length_bound (nodes : list (SuffixNode V)) s n : nodes !! s = Some n → sx_max_length n ≤ max_list (sx_max_length <$> nodes).
Proof.
  revert s. induction nodes as [|m nodes IH]; [done|]. intros [|s] Hs; cbn in *; [injection Hs as ->; lia|]. specialize (IH s Hs). lia.
Qed.

Lemma suffix_descend_ok z label c :
  suffix_zip_ok z → suffix_descend z label = Some c →
  suffix_zip_ok c ∧ sz_path c = sz_path z ++ [label] ∧ suffix_height c < suffix_height z.
Proof.
  intros (w & P & [Hok Ha] & Hs & Hl) Hd. rewrite suffix_descend_edge in Hd.
  pose proof (ao_edge _ _ _ _ _ Ha _ _ label Hs Hl) as He. destruct (edge_of _ _ label) as [t|]; [|done]. injection Hd as <-.
  destruct He as [Ht Hc]. split; [|split; [done|]].
  - exists w, P. split_and!; [done..|]. by eapply class_live.
  - unfold suffix_height. cbn [sz_inner sz_state].
    destruct (lookup_lt_is_Some_2 _ _ Hs) as [n Hn], (lookup_lt_is_Some_2 _ _ Ht) as [m Hm]. rewrite Hn, Hm.
    pose proof (max_length_bound _ _ _ Hm) as Hb. destruct (Hok _ _ Hn) as (_ & -> & _), (Hok _ _ Hm) as (_ & Em & _).
    destruct Hc as [Hsuf%suffix_length _]. rewrite length_app in Hsuf. cbn in Hsuf. lia.
Qed.

Lemma suffix_children_labels z :
  (suffix_children z).*1 = match sa_nodes (sz_inner z) !! sz_state z with Some n => (sx_edges n).*1 | None => [] end.
Proof.
  unfold suffix_children. destruct (sa_nodes (sz_inner z) !! sz_state z) as [n|]; [|done]. rewrite <-list_fmap_compose.
  apply list_fmap_ext. by intros _ [l c] _.
Qed.

Lemma suffix_children_NoDup z : suffix_zip_ok z → NoDup (suffix_children z).*1.
Proof.
  intros (w & P & [Hok _] & Hs & _). rewrite suffix_children_labels. destruct (lookup_lt_is_Some_2 _ _ Hs) as [n Hn]. rewrite Hn.
  destruct (Hok _ _ Hn) as [Hsort _]. induction Hsort as [|x l _ IH Hx]; constructor; [|done]. intros Hin.
  rewrite Forall_forall in Hx. specialize (Hx x Hin). lia.
Qed.

Lemma suffix_children_descend z l c : suffix_zip_ok z → (l, c) ∈ suffix_children z ↔ True ∧ suffix_descend z l = Some c.
Proof.
  intros (w & P & [Hok _] & Hs & _). unfold suffix_children, suffix_descend. destruct (lookup_lt_is_Some_2 _ _ Hs) as [n Hn]. rewrite Hn.
  destruct (Hok _ _ Hn) as [Hsort _]. cbn [mbind option_bind]. rewrite list_elem_of_fmap. split.
  - intros ([l' t] & [= -> ->] & Hin). apply edge_get_Some in Hin; [|done]. by rewrite Hin.
  - intros [_ H]. destruct (edge_get l (sx_edges n)) as [t|] eqn:E; [|done]. cbn in H. injection H as <-.
    exists (l, t). split; [done|]. by apply edge_get_in.
Qed.

#[global] Program Instance suffix_ZipperLaws : ZipperLaws SuffixAutomatonZipper := {
  zip_unit := λ _, True;
  zip_ok := suffix_zip_ok;
  zip_height := suffix_height;
}.
Next Obligation. intros z l c Hz _ Hd. by apply (suffix_descend_ok z). Qed.
Next Obligation. intros z Hz. by apply suffix_children_NoDup. Qed.
Next Obligation. intros z l c Hz. by apply suffix_children_descend. Qed.

#[global] Instance suffix_ValuedLaws : ValuedLaws SuffixAutomatonZipper V.
Proof.
  intros z v _. unfold zip_value, suffix_ValuedDictZipper, suffix_value. cbn. unfold suffix_is_final.
  destruct (sa_nodes (sz_inner z) !! sz_state z) as [n|]; [|done]. cbn. by destruct (sx_final n).
Qed.

(** ** What the zipper of an index stands for *)

Lemma suffix_descend_all inner s p t :
  descend_all (mkSuffixZipper inner s p) t = x ← path (edge_of (sa_nodes inner)) s t; Some (mkSuffixZipper inner x (p ++ t)).
Proof.
  revert s p. induction t as [|l t IH]; intros s p; cbn; [by rewrite app_nil_r|]. rewrite suffix_descend_edge. cbn [sz_inner sz_state sz_path].
  destruct (edge_of (sa_nodes inner) s l) as [x|]; [|done]. cbn. unfold descend_all in IH. rewrite IH. by rewrite <-app_assoc.
Qed.

Section of_index.
Context (w : nat → list nat) (inner : SuffixAutomatonInner V) (recs : list (source V)) (Hio : index_ok w inner recs).

Lemma suffix_zipper_ok : zip_ok (suffix_zipper_new inner).
Proof.
  exists w, (prefixes (texts_of recs)). pose proof (io_automaton _ _ _ Hio) as Ha. split; [done|]. split; [apply Ha|].
  eapply class_live, class_root, Ha.
Qed.

Lemma suffix_accepts t :
  t ≠ [] → accepts (suffix_zipper_new inner) t = bool_decide (occurs (texts_of recs) t) ∧
    lookup_value (suffix_zipper_new inner) t = word_value (sa_nodes inner) t.
Proof.
  intros Ht. unfold accepts, lookup_value, suffix_zipper_new. rewrite suffix_descend_all. unfold word_value.
  pose proof (find_term_state_occurs w inner recs t Hio) as Ho. rewrite (find_term_state_path w inner recs t Hio) in Ho.
  destruct (path (edge_of (sa_nodes inner)) 0 t) as [s|] eqn:E; cbn [mbind option_bind].
  - pose proof (proj1 (path_class _ _ _ _ _ (proj2 (io_automaton _ _ _ Hio)) t s) E) as [Hs [Hc _]].
    destruct (lookup_lt_is_Some_2 _ _ Hs) as [n Hn]. destruct (io_automaton _ _ _ Hio) as [Hok Ha].
    assert (sx_final n = true) as Hf.
    { apply (Hok s n Hn). intros ->. destruct (ao_root _ _ _ _ _ Ha) as (_ & Hw0 & _). rewrite Hw0 in Hc. by apply suffix_nil_inv in Hc. }
    unfold value_of. cbn. unfold suffix_is_final, zip_value, suffix_ValuedDictZipper, suffix_value. cbn. rewrite Hn. cbn. rewrite Hf.
    split; [|done]. symmetry. apply bool_decide_true, Ho. done.
  - split; [|done]. symmetry. apply bool_decide_false. rewrite <-Ho. by intros [? ?].
Qed.

End of_index.
End zipper.
