(* ===== verification/Publication.v ===== *)
(** * Publishing revisions through one atomic pointer

    [LockFreeSuffixAutomaton] (src/src/suffix_automaton/lockfree.rs): threads share a
    pointer to the current revision.  [mutate] loads it, runs a closure on a private
    copy, and compare-and-swaps the pointer to the copy, with a revision number one
    higher; a closure that reports no change returns without publishing.  Steps of the
    threads interleave in any way.

    The closure is a parameter: the theorems hold for any operations that return on
    every state of an invariant and change nothing when they report no change.  A
    revision that a thread holds is neither freed nor reused, so a revision is an index
    into the list of all revisions.  Waiting after a failed compare-and-swap is left
    out. *)

From stdpp Require Import prelude.
From S2P Require Import Prelude.

Section publication.
Context {D Op R : Type} (closure : Op → D → exec (D * R * bool)).

Record revision := mkRevision {
  rv_producer : Z;
  rv_number : Z;
  rv_data : D;
}.

(** ** The machine *)

Inductive worker :=
| Resting
| Retrying (op : Op)  (* at the head of the loop *)
| Holding (op : Op) (current : nat)  (* has loaded *)
| Swapping (op : Op) (current : nat) (next : revision) (r : R)  (* before the compare-and-swap *)
| Returning (r : R)
| Crashed.

Record cell := mkCell {
  cl_revisions : list revision;
  cl_current : nat;
  cl_workers : nat → worker;
}.

Definition set_worker (c : cell) (i : nat) (t : worker) : cell :=
  mkCell (cl_revisions c) (cl_current c) (λ j, if decide (j = i) then t else cl_workers c j).

Inductive cell_event :=
| Call (op : Op)
| Read
| Run
| Swap (success : bool)
| Reply (r : R).

(** The body of the loop between the load and the compare-and-swap.  An inner [None]
    is a return without publication. *)
Definition mutate_body (op : Op) (current : revision) : exec (option revision * R) :=
  '(data, result, changed) ← closure op (rv_data current);
  if negb changed then Ret (None, result)
  else if (rv_number current + 1 <? 2 ^ 64)%Z
       then Ret (Some (mkRevision (rv_producer current) (rv_number current + 1) data), result)
       else Panic.

(** What worker [i] does next; a resting worker calls [op]. *)
Definition cell_step (i : nat) (op : Op) (c : cell) : option (cell_event * cell) :=
  match cl_workers c i with
  | Resting => Some (Call op, set_worker c i (Retrying op))
  | Retrying op => Some (Read, set_worker c i (Holding op (cl_current c)))
  | Holding op current =>
      v ← cl_revisions c !! current;
      Some (Run, match mutate_body op v with
                 | Ret (None, r) => set_worker c i (Returning r)
                 | Ret (Some next, r) => set_worker c i (Swapping op current next r)
                 | Panic => set_worker c i Crashed
                 end)
  | Swapping op current next r =>
      if decide (cl_current c = current)
      then Some (Swap true, set_worker (mkCell (cl_revisions c ++ [next]) (length (cl_revisions c)) (cl_workers c)) i (Returning r))
      else Some (Swap false, set_worker c i (Retrying op))
  | Returning r => Some (Reply r, set_worker c i Resting)
  | Crashed => None
  end.

(** A schedule says whose turn it is and what a resting worker calls. *)
Fixpoint cell_run (schedule : list (nat * Op)) (c : cell) : option (list (nat * cell_event) * cell) :=
  match schedule with
  | [] => Some ([], c)
  | (i, op) :: schedule =>
      '(e, c) ← cell_step i op c;
      '(tr, c) ← cell_run schedule c;
      Some ((i, e) :: tr, c)
  end.

(** [from_inner]: the first revision *)
Definition cell_new (producer : Z) (data : D) : cell := mkCell [mkRevision producer 0 data] 0 (λ _, Resting).

(** ** Histories *)

(** The events, with a mark where an operation takes effect *)
Inductive cell_mark :=
| Event (e : cell_event)
| Effect (op : Op) (r : R).

(** Where a worker is in an operation *)
Inductive progress :=
| Outside
| Before (op : Op)
| After (op : Op) (r : R).

(** An operation takes effect once, between its call and its reply, with the result it
    replies. *)
Definition progresses (p : progress) (m : cell_mark) : option progress :=
  match p, m with
  | Outside, Event (Call op) => Some (Before op)
  | Before op, Event (Read | Run | Swap _) => Some (Before op)
  | Before op, Effect op' r => Some (After op' r)
  | After op r, Event (Read | Run | Swap _) => Some (After op r)
  | After op r, Event (Reply r') => Some Outside
  | _, _ => None
  end.

(** The mark agrees with the operation the worker is in. *)
Definition agrees (p : progress) (m : cell_mark) : Prop :=
  match p, m with
  | Before op, Effect op' _ => op' = op
  | After _ r, Event (Reply r') => r' = r
  | _, _ => True
  end.

Inductive proper_history : list (nat * cell_mark) → (nat → progress) → Prop :=
| proper_nil : proper_history [] (λ _, Outside)
| proper_snoc h f i m p f' :
    proper_history h f → progresses (f i) m = Some p → agrees (f i) m →
    (∀ j, f' j = if decide (j = i) then p else f j) →
    proper_history (h ++ [(i, m)]) f'.

Definition cell_events (h : list (nat * cell_mark)) : list (nat * cell_event) :=
  omap (λ x : nat * cell_mark, match x.2 with Event e => Some (x.1, e) | Effect _ _ => None end) h.

Definition effects (h : list (nat * cell_mark)) : list (Op * R) :=
  omap (λ x : nat * cell_mark, match x.2 with Effect op r => Some (op, r) | Event _ => None end) h.

(** Running the operations one after the other; [n] counts the changes. *)
Inductive serial : D → list (Op * R) → D → nat → Prop :=
| serial_nil d : serial d [] d 0
| serial_snoc d l d1 n op r d2 b :
    serial d l d1 n → closure op d1 = Ret (d2, r, b) → serial d (l ++ [(op, r)]) d2 (if b then S n else n).

(** ** The invariant *)

Context (inv : D → Prop) (start : D) (producer : Z).
Context (Hstart : inv start).
Context (Hclosure : ∀ op d, inv d → ∃ d' r b, closure op d = Ret (d', r, b) ∧ inv d' ∧ (b = false → d' = d)).

(** What a worker owes *)
Definition worker_ok (revisions : list revision) (t : worker) (p : progress) : Prop :=
  match t with
  | Resting => p = Outside
  | Retrying op => p = Before op
  | Holding op current =>
      ∃ v d' r b, revisions !! current = Some v ∧ closure op (rv_data v) = Ret (d', r, b) ∧
        p = if (b : bool) then Before op else After op r
  | Swapping op current next r =>
      p = Before op ∧ ∃ v d', revisions !! current = Some v ∧ closure op (rv_data v) = Ret (d', r, true) ∧
        next = mkRevision (rv_producer v) (rv_number v + 1) d'
  | Returning r => ∃ op, p = After op r
  | Crashed => False
  end.

Record cell_ok (tr : list (nat * cell_event)) (c : cell) (h : list (nat * cell_mark)) (f : nat → progress) : Prop := {
  co_events : cell_events h = tr;
  co_proper : proper_history h f;
  co_revisions k v : cl_revisions c !! k = Some v → inv (rv_data v) ∧ rv_producer v = producer ∧ rv_number v = Z.of_nat k;
  co_length : length (cl_revisions c) ≤ S (length tr);
  co_current : S (cl_current c) = length (cl_revisions c);
  co_serial v : cl_revisions c !! cl_current c = Some v → serial start (effects h) (rv_data v) (cl_current c);
  co_workers i : worker_ok (cl_revisions c) (cl_workers c i) (f i);
}.

Lemma worker_ok_grow revisions l t p : worker_ok revisions t p → worker_ok (revisions ++ l) t p.
Proof.
  destruct t; cbn; try done.
  - intros (v & d' & r & b & Hv & ? & ?). exists v, d', r, b. split_and!; [by apply lookup_app_l_Some|done..].
  - intros (? & v & d' & Hv & ? & ?). split; [done|]. exists v, d'. split_and!; [by apply lookup_app_l_Some|done..].
Qed.

Definition marks_of (i : nat) (e : cell_event) (effect : option (Op * R)) : list (nat * cell_mark) :=
  (i, Event e) :: match effect with Some (op, r) => [(i, Effect op r)] | None => [] end.

Lemma cell_events_marks h i e effect : cell_events (h ++ marks_of i e effect) = cell_events h ++ [(i, e)].
Proof. unfold cell_events, marks_of. rewrite omap_app. f_equal. by destruct effect as [[op r]|]. Qed.

Lemma effects_marks h i e effect : effects (h ++ marks_of i e effect) = effects h ++ option_list effect.
Proof. unfold effects, marks_of. rewrite omap_app. f_equal. by destruct effect as [[op r]|]. Qed.

(** The marks of one step *)
Lemma proper_marks h f i e effect p1 p2 :
  proper_history h f → progresses (f i) (Event e) = Some p1 → agrees (f i) (Event e) →
  match effect with Some (op, r) => p1 = Before op ∧ p2 = After op r | None => p2 = p1 end →
  proper_history (h ++ marks_of i e effect) (λ j, if decide (j = i) then p2 else f j).
Proof.
  intros Hh Hp1 Ha Hp2. assert (proper_history (h ++ [(i, Event e)]) (λ j, if decide (j = i) then p1 else f j)) as H1 by by econstructor.
  unfold marks_of. destruct effect as [[op r]|]; [|by subst p2]. destruct Hp2 as [-> ->].
  change (h ++ ?x :: ?y) with (h ++ [x] ++ y). rewrite app_assoc. eapply proper_snoc; [exact H1| | |].
  - cbn beta. by rewrite decide_True by done.
  - cbn beta. by rewrite decide_True by done.
  - intros j. cbn beta. by destruct (decide (j = i)).
Qed.

(** It is enough to look at the worker that takes the step. *)
Lemma cell_ok_step tr c h f i e c' l effect p1 p2 t :
  cell_ok tr c h f → cl_revisions c' = cl_revisions c ++ l → length l ≤ 1 →
  (∀ k v, l !! k = Some v → inv (rv_data v) ∧ rv_producer v = producer ∧ rv_number v = Z.of_nat (length (cl_revisions c) + k)) →
  S (cl_current c') = length (cl_revisions c') →
  (∀ v, cl_revisions c' !! cl_current c' = Some v → serial start (effects h ++ option_list effect) (rv_data v) (cl_current c')) →
  (∀ j, cl_workers c' j = if decide (j = i) then t else cl_workers c j) →
  progresses (f i) (Event e) = Some p1 → agrees (f i) (Event e) →
  match effect with Some (op, r) => p1 = Before op ∧ p2 = After op r | None => p2 = p1 end →
  worker_ok (cl_revisions c') t p2 →
  ∃ h' f', cell_ok (tr ++ [(i, e)]) c' h' f'.
Proof.
  intros [Hev Hh Hrev Hlen Hcur Hser Hwk] Erev Hl Hnew Hcur' Hser' Hw Hp1 Ha Hp2 Ht.
  exists (h ++ marks_of i e effect), (λ j, if decide (j = i) then p2 else f j). split.
  - by rewrite cell_events_marks, Hev.
  - by eapply proper_marks.
  - intros k v. rewrite Erev. intros [Hk|[Hge Hk]]%lookup_app_Some; [by apply Hrev|]. destruct (Hnew _ _ Hk) as (? & ? & ->).
    split_and!; [done..|]. f_equal. lia.
  - rewrite Erev, !length_app. cbn. lia.
  - done.
  - intros v Hv. rewrite effects_marks. by apply Hser'.
  - intros j. rewrite Hw. case_decide; [done|]. rewrite Erev. by apply worker_ok_grow.
Qed.

(** Steps that neither publish nor take effect *)
Lemma cell_ok_local tr c h f i e p1 t :
  cell_ok tr c h f → progresses (f i) (Event e) = Some p1 → agrees (f i) (Event e) → worker_ok (cl_revisions c) t p1 →
  ∃ h' f', cell_ok (tr ++ [(i, e)]) (set_worker c i t) h' f'.
Proof.
  intros Hc Hp1 Ha Ht. pose proof Hc as [_ _ _ _ Hcur Hser _].
  eapply (cell_ok_step tr c h f i e _ [] None p1 p1 t); cbn; rewrite ?app_nil_r; try done. lia.
Qed.

Lemma current_revision tr c h f : cell_ok tr c h f → ∃ v, cl_revisions c !! cl_current c = Some v.
Proof. intros Hc. apply lookup_lt_is_Some. pose proof (co_current _ _ _ _ Hc). lia. Qed.

(** Loading: an operation that will report no change takes effect here. *)
Lemma cell_ok_read tr c h f i op :
  cell_ok tr c h f → cl_workers c i = Retrying op →
  ∃ h' f', cell_ok (tr ++ [(i, Read)]) (set_worker c i (Holding op (cl_current c))) h' f'.
Proof.
  intros Hc Ht. destruct (current_revision tr c h f Hc) as [v Hv]. pose proof Hc as [_ _ Hrev _ Hcur Hser Hwk].
  pose proof (Hwk i) as Hi. rewrite Ht in Hi. cbn in Hi.
  destruct (Hclosure op (rv_data v) (proj1 (Hrev _ _ Hv))) as (d' & r & b & E & _ & Hsame). destruct b.
  - eapply cell_ok_local; [done|by rewrite Hi|by rewrite Hi|]. by exists v, d', r, true.
  - eapply (cell_ok_step tr c h f i Read _ [] (Some (op, r)) (Before op) (After op r)); cbn; rewrite ?app_nil_r; try done.
    + lia.
    + intros v' Hv'. rewrite Hv in Hv'. injection Hv' as <-. rewrite <-(Hsame eq_refl).
      by eapply (serial_snoc start (effects h) (rv_data v) (cl_current c) op r d' false); [apply Hser|].
    + by rewrite Hi.
    + by rewrite Hi.
    + by exists v, d', r, false.
Qed.

Lemma cell_ok_run tr c h f i op current v :
  cell_ok tr c h f → (Z.of_nat (S (length tr)) < 2 ^ 64)%Z → cl_workers c i = Holding op current → cl_revisions c !! current = Some v →
  ∃ h' f', cell_ok (tr ++ [(i, Run)]) (match mutate_body op v with
    | Ret (None, r) => set_worker c i (Returning r)
    | Ret (Some next, r) => set_worker c i (Swapping op current next r)
    | Panic => set_worker c i Crashed
    end) h' f'.
Proof.
  intros Hc Hroom Ht Hv. pose proof Hc as [_ _ Hrev Hlen Hcur Hser Hwk]. pose proof (Hwk i) as Hi. rewrite Ht in Hi.
  destruct Hi as (v' & d' & r & b & Hv' & E & Hp). rewrite Hv in Hv'. injection Hv' as <-. unfold mutate_body. rewrite E. cbn [mbind option_bind].
  destruct b; cbn [negb].
  - destruct (Hrev _ _ Hv) as (_ & _ & En). apply lookup_lt_Some in Hv as Hlt. rewrite (proj2 (Z.ltb_lt _ _)) by (rewrite En; lia).
    eapply cell_ok_local; [done|by rewrite Hp|by rewrite Hp|]. split; [done|]. by exists v, d'.
  - eapply cell_ok_local; [done|by rewrite Hp|by rewrite Hp|]. by exists op.
Qed.

Lemma cell_ok_swap tr c h f i op next r :
  cell_ok tr c h f → cl_workers c i = Swapping op (cl_current c) next r →
  ∃ h' f', cell_ok (tr ++ [(i, Swap true)])
    (set_worker (mkCell (cl_revisions c ++ [next]) (length (cl_revisions c)) (cl_workers c)) i (Returning r)) h' f'.
Proof.
  intros Hc Ht. pose proof Hc as [_ _ Hrev Hlen Hcur Hser Hwk]. pose proof (Hwk i) as Hi. rewrite Ht in Hi.
  destruct Hi as (Hp & v & d' & Hv & E & ->). destruct (Hrev _ _ Hv) as (Hinv & Hprod & Hnum).
  destruct (Hclosure op (rv_data v) Hinv) as (d2 & r2 & b2 & E2 & Hinv2 & _). rewrite E in E2. injection E2 as <- <- <-.
  eapply (cell_ok_step tr c h f i (Swap true) _ [mkRevision (rv_producer v) (rv_number v + 1) d'] (Some (op, r)) (Before op) (After op r));
    cbn; try done.
  - intros k x Hx. apply list_lookup_singleton_Some in Hx as [Hk <-]. subst k. cbn. split_and!; [done..|]. rewrite Hnum. lia.
  - rewrite length_app. cbn. lia.
  - intros x. rewrite list_lookup_middle by done. intros [= <-]. cbn. rewrite <-Hcur.
    by eapply (serial_snoc start (effects h) (rv_data v) (cl_current c) op r d' true); [apply Hser|].
  - by rewrite Hp.
  - by rewrite Hp.
  - by exists op.
Qed.

Lemma cell_step_ok tr c h f i op e c' :
  cell_ok tr c h f → (Z.of_nat (S (length tr)) < 2 ^ 64)%Z → cell_step i op c = Some (e, c') →
  ∃ h' f', cell_ok (tr ++ [(i, e)]) c' h' f'.
Proof.
  intros Hc Hroom. pose proof (co_workers _ _ _ _ Hc i) as Hi. unfold cell_step.
  destruct (cl_workers c i) as [|op'|op' current|op' current next r|r|] eqn:Ht; intros E; cbn in Hi.
  - injection E as <- <-. eapply cell_ok_local; [done|by rewrite Hi|by rewrite Hi|done].
  - injection E as <- <-. by apply (cell_ok_read tr c h f).
  - destruct (cl_revisions c !! current) as [v|] eqn:Hv; [|done]. cbn in E. injection E as <- <-. by apply (cell_ok_run tr c h f).
  - case_decide as Hcur; injection E as <- <-; [subst current; by apply (cell_ok_swap tr c h f i op')|].
    destruct Hi as [Hp _]. eapply cell_ok_local; [done|by rewrite Hp|by rewrite Hp|done].
  - injection E as <- <-. destruct Hi as [op' Hp]. eapply cell_ok_local; [done|by rewrite Hp|by rewrite Hp|done].
  - done.
Qed.

Lemma cell_new_ok : cell_ok [] (cell_new producer start) [] (λ _, Outside).
Proof.
  split; cbn; try done; [constructor| |].
  - intros k v Hv. apply list_lookup_singleton_Some in Hv as [Hk <-]. by subst k.
  - intros v [= <-]. constructor.
Qed.

Lemma cell_run_ok schedule tr c h f tr' c' :
  cell_ok tr c h f → (Z.of_nat (length tr + length schedule) < 2 ^ 64)%Z → cell_run schedule c = Some (tr', c') →
  ∃ h' f', cell_ok (tr ++ tr') c' h' f'.
Proof.
  revert tr c h f tr'. induction schedule as [|[i op] schedule IH]; intros tr c h f tr' Hc Hroom E; cbn in E.
  - injection E as <- <-. rewrite app_nil_r. eauto.
  - destruct (cell_step i op c) as [[e c1]|] eqn:Es; [|done]. cbn in E. destruct (cell_run schedule c1) as [[tr1 c2]|] eqn:Er; [|done].
    cbn in E. injection E as <- <-. cbn [length] in Hroom.
    destruct (cell_step_ok tr c h f i op e c1 Hc) as (h1 & f1 & Hc1); [lia|done|].
    change (tr ++ ?x :: ?y) with (tr ++ [x] ++ y). rewrite app_assoc. eapply IH; [done| |done]. rewrite length_app. cbn. lia.
Qed.

(** A worker can always take its next step. *)
Lemma cell_step_progress tr c h f i op : cell_ok tr c h f → ∃ e c', cell_step i op c = Some (e, c').
Proof.
  intros Hc. pose proof (co_workers _ _ _ _ Hc i) as Hi. unfold cell_step. destruct (cl_workers c i); cbn in Hi; try by eauto.
  - destruct Hi as (v & d' & r & b & -> & _). cbn. eauto.
  - case_decide; eauto.
Qed.

Lemma cell_run_progress schedule tr c h f :
  cell_ok tr c h f → (Z.of_nat (length tr + length schedule) < 2 ^ 64)%Z → ∃ tr' c', cell_run schedule c = Some (tr', c').
Proof.
  revert tr c h f. induction schedule as [|[i op] schedule IH]; intros tr c h f Hc Hroom; cbn; [eauto|]. cbn in Hroom.
  destruct (cell_step_progress tr c h f i op Hc) as (e & c1 & E). rewrite E. cbn.
  destruct (cell_step_ok tr c h f i op e c1 Hc) as (h1 & f1 & Hc1); [lia|done|].
  destruct (IH _ _ _ _ Hc1) as (tr' & c' & ->); [rewrite length_app; cbn; lia|]. cbn. eauto.
Qed.

(** Every schedule runs, and its execution is linearizable. *)
Lemma cell_linearizable schedule :
  (Z.of_nat (length schedule) < 2 ^ 64)%Z →
  ∃ tr c h f v, cell_run schedule (cell_new producer start) = Some (tr, c) ∧ cell_events h = tr ∧ proper_history h f ∧
    cl_revisions c !! cl_current c = Some v ∧ serial start (effects h) (rv_data v) (cl_current c) ∧
    rv_producer v = producer ∧ rv_number v = Z.of_nat (cl_current c) ∧ ∀ i, cl_workers c i ≠ Crashed.
Proof.
  intros Hroom. destruct (cell_run_progress schedule [] _ _ _ cell_new_ok Hroom) as (tr & c & E).
  destruct (cell_run_ok schedule [] _ _ _ tr c cell_new_ok Hroom E) as (h & f & Hc). cbn in Hc.
  destruct (current_revision tr c h f Hc) as [v Hv]. exists tr, c, h, f, v.
  destruct (co_revisions _ _ _ _ Hc _ _ Hv) as (_ & ? & ?). split_and!; try done; try apply Hc; [exact Hv|].
  intros i Hi. pose proof (co_workers _ _ _ _ Hc i) as Hw. by rewrite Hi in Hw.
Qed.

End publication.
