(* ===== verification/SuffixProperties.v ===== *)
(** * What a suffix index promises

    The properties of [SuffixAutomaton] over every sequence of operations on an empty
    index and every interleaving of threads, and the runs on which it loses records and
    values. *)

From stdpp Require Import prelude gmap sorting.
From S2P Require Import Prelude Edges Tree Zipper DatShared SuffixClasses SuffixAutomaton SuffixTexts SuffixIndex SuffixRecords.
From S2P Require Import SuffixCompact SuffixDictionary SuffixRefinement SuffixQueries SuffixZipper Publication.

(** A run on an empty index and the state of the machine it simulates *)
Lemma run_new {V} (ops : list (index_op (V := V))) :
  ∃ inner bs st w, run_ops SuffixAutomatonInner_new ops = Ret (inner, bs) ∧ src_steps initial_state ops bs st ∧
    index_ok w inner (st_sources st) ∧ ∀ u, word_value (sa_nodes inner) u = st_value st u.
Proof.
  destruct (run_refines SuffixAutomatonInner_new initial_state ops simulates_new) as (inner & bs & st & E & Hsteps & [w Hio] & _ & Hval).
  by exists inner, bs, st, w.
Qed.


(** C22: after any sequence of operations the snapshot queries answer from the active
    sources alone.  The records are the active sources with their own texts and values,
    as many as the index counts, in lexicographic order with ties by insertion;
    [contains_source] finds exactly the texts of active sources, [contains_substring]
    exactly the words that occur in one, and [substring_frequency] counts the
    occurrences, overlapping ones and those in duplicate texts included, and panics
    exactly when the count does not fit 64 bits. *)
Theorem suffix_snapshot_exact {V} (ops : list (index_op (V := V))) :
  ∃ inner bs st, run_ops SuffixAutomatonInner_new ops = Ret (inner, bs) ∧ src_steps initial_state ops bs st ∧
    (∃ l, source_records inner = Ret l ∧ length l = sa_string_count inner ∧
      StronglySorted (source_lt (texts_of (st_sources st))) l.*1.*1 ∧
      ∀ id text value, (id, text, value) ∈ l ↔
        ∃ r, st_sources st !! id = Some r ∧ so_active r = true ∧ text = so_text r ∧ value = so_value r) ∧
    (∀ text, ∃ b, contains_source inner text = Ret b ∧
      (b = true ↔ ∃ r, r ∈ st_sources st ∧ so_active r = true ∧ so_text r = text)) ∧
    (∀ u, ∃ b, contains_substring inner u = Ret b ∧
      (b = true ↔ ∃ r, r ∈ st_sources st ∧ so_active r = true ∧ infix u (so_text r))) ∧
    ∀ u, substring_frequency inner u =
      if (Z.of_nat (frequency (st_sources st) u) <? 2 ^ 64)%Z then Ret (frequency (st_sources st) u) else Panic.
Proof.
  destruct (run_new ops) as (inner & bs & st & w & E & Hsteps & Hio & Hval). exists inner, bs, st. split_and!; [done..| | | |].
  - by eapply source_records_spec.
  - intros text. by eapply contains_source_spec.
  - intros u. by eapply contains_substring_spec.
  - intros u. by eapply substring_frequency_spec.
Qed.


(** ** Concurrent use *)

(** The closures the operations give to [mutate]: the operation and whether it reports a
    change *)
Definition suffix_closure {V} (op : index_op (V := V)) (inner : SuffixAutomatonInner V) :
    exec (SuffixAutomatonInner V * bool * bool) :=
  '(inner', result) ← run_op inner op;
  let changed :=
    match op with
    | Insert _ _ | UpdateOrInsert _ _ _ => true
    | Remove _ => result
    | Clear => negb ((sa_string_count inner =? 0) && (length (sa_nodes inner) =? 1))
    | Compact => sa_needs_compaction inner
    end in
  Ret (inner', result, changed).

Lemma remove_unchanged {V} (inner : SuffixAutomatonInner V) text : (sa_remove inner text).2 = false → (sa_remove inner text).1 = inner.
Proof.
  unfold sa_remove. destruct (find_source _ _ text) as [[[id s] i]|]; [|done]. by destruct (sa_positions inner !! s).
Qed.

Lemma suffix_closure_spec {V} (op : index_op (V := V)) inner :
  (∃ st, simulates inner st) →
  ∃ inner' r b, suffix_closure op inner = Ret (inner', r, b) ∧ (∃ st, simulates inner' st) ∧ (b = false → inner' = inner).
Proof.
  intros [st Hsim]. destruct (op_refines inner st op Hsim) as (inner' & r & st' & E & _ & Hsim'). unfold suffix_closure. rewrite E.
  cbn [mbind option_bind]. eexists _, _, _. split; [done|]. split; [eauto|]. destruct op; cbn in *; try done.
  - intros ->. injection E as E. rewrite <-(remove_unchanged inner text) by by rewrite E. by rewrite E.
  - injection E as <- <-. unfold sa_clear. by destruct (_ && _).
  - intros Hd. unfold sa_compact in E. rewrite Hd in E. by injection E as <- <-.
Qed.

Lemma src_steps_snoc {V} st (ops : list (index_op (V := V))) bs st1 op b st2 :
  src_steps st ops bs st1 → src_step st1 op b st2 → src_steps st (ops ++ [op]) (bs ++ [b]) st2.
Proof. induction 1; intros Hs; cbn; econstructor; eauto. constructor. Qed.

Lemma serial_refines {V} inner st (l : list (index_op (V := V) * bool)) inner' n :
  simulates inner st → serial suffix_closure inner l inner' n → ∃ st', src_steps st l.*1 l.*2 st' ∧ simulates inner' st'.
Proof.
  intros Hsim. induction 1 as [|inner l inner1 n op r inner2 b _ IH E]; [exists st; split; [constructor|done]|].
  destruct (IH Hsim) as (st1 & Hsteps & Hsim1). destruct (op_refines inner1 st1 op Hsim1) as (inner3 & r3 & st3 & E3 & Hstep & Hsim3).
  unfold suffix_closure in E. rewrite E3 in E. cbn in E. injection E as <- <- _. exists st3. split; [|done].
  rewrite !fmap_app. by eapply src_steps_snoc.
Qed.

(** C7: threads use one suffix index in any interleaving of fewer than 2^64 steps.  The
    run does not get stuck and no thread panics.  Every operation takes effect once
    between its call and its reply, with the result it replies; the effects in that
    order are a run of the machine of sources, which the published revision simulates.
    The revision number is the number of effects that reported a change, and the
    producer stays the same. *)
Theorem suffix_linearizable {V} (producer : Z) (schedule : list (nat * index_op (V := V))) :
  (Z.of_nat (length schedule) < 2 ^ 64)%Z →
  ∃ tr c h f v st, cell_run suffix_closure schedule (cell_new producer SuffixAutomatonInner_new) = Some (tr, c) ∧
    cell_events h = tr ∧ proper_history h f ∧ src_steps initial_state (effects h).*1 (effects h).*2 st ∧
    cl_revisions c !! cl_current c = Some v ∧ simulates (rv_data v) st ∧
    rv_producer v = producer ∧ rv_number v = Z.of_nat (cl_current c) ∧
    serial suffix_closure SuffixAutomatonInner_new (effects h) (rv_data v) (cl_current c) ∧ ∀ i, cl_workers c i ≠ Crashed.
Proof.
  intros Hroom. assert (∃ st, simulates (SuffixAutomatonInner_new (V := V)) st) as Hnew by (eexists; apply simulates_new).
  destruct (cell_linearizable suffix_closure (λ d, ∃ st, simulates d st) SuffixAutomatonInner_new producer Hnew suffix_closure_spec schedule Hroom)
    as (tr & c & h & f & v & E & Hev & Hp & Hv & Hser & ? & ? & ?).
  destruct (serial_refines _ _ _ _ _ simulates_new Hser) as (st & Hsteps & Hsim). by exists tr, c, h, f, v, st.
Qed.

(** ** Deserialization *)

Definition is_compact {V} (op : index_op (V := V)) : bool := match op with Compact => true | _ => false end.

(** Until an index is compacted, every active source has its position. *)
Definition all_tracked {V} (recs : list (source V)) : Prop := ∀ id, having so_active recs id → having so_tracked recs id.

Lemma all_tracked_snoc {V} (recs : list (source V)) r : all_tracked recs → so_tracked r = true → all_tracked (recs ++ [r]).
Proof. intros Hall Hr id. rewrite !having_snoc. intros [?|[-> _]]; [left; by apply Hall|by right]. Qed.

Lemma all_tracked_value {V} (recs : list (source V)) id r v :
  recs !! id = Some r → all_tracked recs → all_tracked (<[id := set_so_value r v]> recs).
Proof. intros Hr Hall x. rewrite !(having_same _ _ _ r) by done. apply Hall. Qed.

Lemma all_tracked_step {V} st (op : index_op (V := V)) b st' :
  src_step st op b st' → is_compact op = false → all_tracked (st_sources st) → all_tracked (st_sources st').
Proof.
  intros Hstep Hc Hall. inversion Hstep; subst; cbn in *; try done.
  - by apply all_tracked_snoc.
  - unfold src_remove. destruct (list_find _ recs) as [[id r]|] eqn:E; [|done]. apply list_find_Some in E as (Hr & _). cbn.
    intros x. rewrite !(having_off _ _ _ r) by done. intros [? ?]. split; [by apply Hall|done].
  - unfold src_clear. destruct (forallb _ recs); [done|]. by intros x (r & ? & _).
  - by apply all_tracked_snoc.
  - match goal with H : _ ∨ source_updated _ _ _ _ |- _ => destruct H as [->|(id & r & Hr & _ & _ & ->)] end; [done|by apply all_tracked_value].
  - match goal with H : _ ∨ source_updated _ _ _ _ |- _ => destruct H as [->|(id & r & Hr & _ & _ & ->)] end;
      [by apply all_tracked_snoc|by apply all_tracked_value].
Qed.

Lemma all_tracked_steps {V} st (ops : list (index_op (V := V))) bs st' :
  src_steps st ops bs st' → Forall (λ op, is_compact op = false) ops → all_tracked (st_sources st) → all_tracked (st_sources st').
Proof.
  induction 1 as [|st op b st1 ops bs st2 Hstep _ IH]; [done|]. intros [Hc Hops]%Forall_cons Hall. apply IH; [done|]. by eapply all_tracked_step.
Qed.

(** An index that was never compacted comes back from its serialized fields as it
    was: deserialization rebuilds the derived index of active sources, in the same
    order, and restores no values. *)
Theorem suffix_deserialize_roundtrip {V} (ops : list (index_op (V := V))) :
  Forall (λ op, is_compact op = false) ops →
  ∃ inner bs, run_ops SuffixAutomatonInner_new ops = Ret (inner, bs) ∧ after_deserialize (serialized inner) = inner.
Proof.
  intros Hops. destruct (run_new ops) as (inner & bs & st & w & E & Hsteps & Hio & _). exists inner, bs. split; [done|].
  eapply deserialize_spec; [done|]. eapply all_tracked_steps; [done..|]. by intros id (r & ? & _).
Qed.

(** ** Lost values and records *)

(** Inserting a nonempty text that occurs in the index already, with a value, leaves
    the value of the text as it was: [insert_with_value] reports success, and
    [get_value] still returns the old value or none. *)
Theorem indexed_value_ignored {V} (ops : list (index_op (V := V))) inner bs text v :
  run_ops SuffixAutomatonInner_new ops = Ret (inner, bs) → text ≠ [] → sa_contains inner text = true →
  ∃ inner', insert_text_into_inner inner text (Some v) = Ret inner' ∧ value_from_inner inner' text = value_from_inner inner text.
Proof.
  intros E Ht Hc. destruct (run_new ops) as (inner0 & bs0 & st & w & E0 & _ & Hio & _). rewrite E in E0. injection E0 as <- <-.
  rewrite (contains_occurs w inner _ Hio) in Hc. apply bool_decide_eq_true in Hc.
  destruct (insert_spec w inner _ text (Some v) Hio) as (inner' & w' & Ei & Hio' & _ & Hval). exists inner'. split; [done|].
  rewrite (value_from_inner_word w' inner' _ text Hio'), (value_from_inner_word w inner _ text Hio), Hval. unfold value_after.
  by rewrite decide_False, decide_True by done.
Qed.

Definition text_hello : list nat := [104; 101; 108; 108; 111].
Definition text_ell : list nat := [101; 108; 108].
Definition text_x : list nat := [120].

Definition lossy_run : list (index_op (V := nat)) :=
  [Insert text_hello None; Insert text_ell None; Insert text_x None; Remove text_x].

(** The index after a run *)
Definition index_after {V} (ops : list (index_op (V := V))) : SuffixAutomatonInner V :=
  match run_ops SuffixAutomatonInner_new ops with Some (inner, _) => inner | None => SuffixAutomatonInner_new end.

Lemma run_index_after {V} (ops : list (index_op (V := V))) : ∃ bs, run_ops SuffixAutomatonInner_new ops = Ret (index_after ops, bs).
Proof. destruct (run_new ops) as (inner & bs & st & w & E & _). exists bs. unfold index_after. by rewrite E. Qed.


Definition union_target : list (index_op (V := nat)) := [Insert text_x None].
Definition union_source : list (index_op (V := nat)) := [Insert text_hello (Some 1); Remove text_hello].

Definition union_run : exec (SuffixAutomatonInner nat * nat) :=
  sa_union_with (index_after union_target) (index_after union_source) (λ _ right, right).

(** A union takes in removed texts: the other index has had "hello" removed, and
    after the union the text is a source of the target. *)
Theorem union_restores_removed :
  contains_source (index_after union_source) text_hello = Ret false ∧
  contains_source (index_after union_target) text_hello = Ret false ∧
  ('(inner, processed) ← union_run; b ← contains_source inner text_hello; Ret (processed, b, sa_string_count inner)) = Ret (1, true, 2).
Proof. split_and!; vm_compute; reflexivity. Qed.

Lemma suffix_deserialize_roundtrip_witness :
  ∃ inner bs, run_ops SuffixAutomatonInner_new lossy_run = Ret (inner, bs) ∧ after_deserialize (serialized inner) = inner.
Proof. apply (suffix_deserialize_roundtrip lossy_run). repeat constructor. Defined.

Lemma indexed_value_ignored_witness :
  ∃ inner', insert_text_into_inner (index_after lossy_run) text_ell (Some 7) = Ret inner' ∧
    value_from_inner inner' text_ell = value_from_inner (index_after lossy_run) text_ell.
Proof.
  destruct (run_index_after lossy_run) as [bs E].
  apply (indexed_value_ignored lossy_run (index_after lossy_run) bs text_ell 7 E); [discriminate|by vm_compute].
Defined.

(** Two threads insert at the same time; the second retries. *)
Definition suffix_race : list (nat * index_op (V := nat)) :=
  (λ i : nat, (i, Insert [i] None)) <$> [0; 1; 0; 1; 0; 1; 0; 1; 1; 1; 1; 0; 1].

Lemma suffix_linearizable_witness :
  ∃ tr c h f v st, cell_run suffix_closure suffix_race (cell_new 1 SuffixAutomatonInner_new) = Some (tr, c) ∧
    cell_events h = tr ∧ proper_history h f ∧ src_steps initial_state (effects h).*1 (effects h).*2 st ∧
    cl_revisions c !! cl_current c = Some v ∧ simulates (rv_data v) st ∧
    rv_producer v = 1%Z ∧ rv_number v = Z.of_nat (cl_current c) ∧
    serial suffix_closure SuffixAutomatonInner_new (effects h) (rv_data v) (cl_current c) ∧ ∀ i, cl_workers c i ≠ Crashed.
Proof. apply (suffix_linearizable 1 suffix_race). by vm_compute. Defined.
