(* ===== verification/EdgeStore.v ===== *)
(** * The adaptive edge store

    [AdaptiveEdgeStore] (src/src/persistent_artrie/core/adaptive_edge_store.rs), the
    immutable child storage of the overlay nodes: a sorted vector of edges that is
    searched in a way that depends on its size and on the type of its labels.  Every
    update builds a new store.

    A label is a number and [label_kind] its Rust type.  A label of type [u8] is below
    256, the size of the index tables.  Allocations succeed. *)

From stdpp Require Import prelude gmap sorting.
From S2P Require Import Prelude.
Local Open Scope Z_scope.
Local Open Scope list_scope.

Inductive label_kind : Set := U8 | U32 | U64.

Definition TINY_LIMIT : nat := 4.
Definition SMALL_LIMIT : nat := 16.
Definition SORTED_LIMIT : nat := 64.
Definition BYTE_INDEXED_LIMIT : nat := 48.
Definition BYTE_INDEX48_SENTINEL : Z := 255.
Definition BYTE_DENSE_SENTINEL : Z := 65535.

(** The trait [AdaptiveLabel] *)
Definition as_byte (k : label_kind) (label : Z) : option Z := match k with U8 => Some label | _ => None end.
Definition adaptive_sorted_limit (k : label_kind) : nat := match k with U64 => 128 | _ => SORTED_LIMIT end.

Inductive ExistingReplacementError : Set := Empty | NotStrictlyAscending | EdgeAbsent | TierInvariant.

Section edge_store.
Context {C : Type} (k : label_kind).

Inductive AdaptiveEdgeStore : Type :=
| Tiny (entries : list (Z * C))
| Small (entries : list (Z * C))
| Sorted (entries : list (Z * C))
| SparseIndexed (positions : gmap Z nat) (entries : list (Z * C))
| ByteIndexed48 (index : list Z) (entries : list (Z * C))
| ByteDense256 (index : list Z) (entries : list (Z * C)).

Definition store_new : AdaptiveEdgeStore := Tiny [].

Definition store_entries (s : AdaptiveEdgeStore) : list (Z * C) :=
  match s with
  | Tiny entries | Small entries | Sorted entries | SparseIndexed _ entries
  | ByteIndexed48 _ entries | ByteDense256 _ entries => entries
  end.

Definition store_len (s : AdaptiveEdgeStore) : nat := length (store_entries s).

(** [binary_search_by_key] on a sorted slice: the index of the label, or where it
    belongs *)
Fixpoint search_label (label : Z) (entries : list (Z * C)) : result nat nat :=
  match entries with
  | [] => Err 0%nat
  | (edge, _) :: entries =>
      if label =? edge then Ok 0%nat
      else if label <? edge then Err 0%nat
      else match search_label label entries with Ok i => Ok (S i) | Err i => Err (S i) end
  end.

Fixpoint find_linear (entries : list (Z * C)) (label : Z) : option C :=
  match entries with
  | [] => None
  | (edge, child) :: entries =>
      if edge =? label then Some child
      else if label <? edge then None
      else find_linear entries label
  end.

Definition find_binary (entries : list (Z * C)) (label : Z) : option C :=
  match search_label label entries with
  | Ok index => snd <$> entries !! index
  | Err _ => None
  end.

Definition store_find (s : AdaptiveEdgeStore) (label : Z) : option C :=
  match s with
  | Tiny entries => find_linear entries label
  | Small entries | Sorted entries => find_binary entries label
  | SparseIndexed positions entries => idx ← positions !! label; snd <$> entries !! idx
  | ByteIndexed48 index entries =>
      byte ← as_byte k label;
      idx ← index !! Z.to_nat byte;
      if idx =? BYTE_INDEX48_SENTINEL then None else snd <$> entries !! Z.to_nat idx
  | ByteDense256 index entries =>
      byte ← as_byte k label;
      idx ← index !! Z.to_nat byte;
      if idx =? BYTE_DENSE_SENTINEL then None else snd <$> entries !! Z.to_nat idx
  end.

Definition contains_key (s : AdaptiveEdgeStore) (label : Z) : bool := bool_decide (is_Some (store_find s label)).

Definition entry_at (s : AdaptiveEdgeStore) (index : nat) : option (Z * C) := store_entries s !! index.

(** ** Building *)

Fixpoint sparse_from (idx : nat) (positions : gmap Z nat) (entries : list (Z * C)) : gmap Z nat :=
  match entries with
  | [] => positions
  | (label, _) :: entries => sparse_from (S idx) (<[label := idx]> positions) entries
  end.

Definition build_sparse_index (entries : list (Z * C)) : gmap Z nat := sparse_from 0 ∅ entries.

Fixpoint byte_index_from (cast : Z → Z) (idx : nat) (index : list Z) (entries : list (Z * C)) : list Z :=
  match entries with
  | [] => index
  | (label, _) :: entries =>
      byte_index_from cast (S idx)
        (match as_byte k label with Some byte => <[Z.to_nat byte := cast (Z.of_nat idx)]> index | None => index end) entries
  end.

Definition build_byte_index48 (entries : list (Z * C)) : list Z :=
  byte_index_from u8 0 (replicate 256 BYTE_INDEX48_SENTINEL) entries.

Definition build_byte_dense_index (entries : list (Z * C)) : list Z :=
  byte_index_from u16 0 (replicate 256 BYTE_DENSE_SENTINEL) entries.

(** [from_sorted_entries] and its fallible twin *)
Definition from_sorted_entries (entries : list (Z * C)) : AdaptiveEdgeStore :=
  let len := length entries in
  if (len <=? TINY_LIMIT)%nat then Tiny entries
  else if (len <=? SMALL_LIMIT)%nat then Small entries
  else match head entries ≫= (λ e, as_byte k e.1) with
       | Some _ =>
           if (len <=? BYTE_INDEXED_LIMIT)%nat then ByteIndexed48 (build_byte_index48 entries) entries
           else ByteDense256 (build_byte_dense_index entries) entries
       | None =>
           if (len <=? adaptive_sorted_limit k)%nat then Sorted entries
           else SparseIndexed (build_sparse_index entries) entries
       end.

(** [entries.windows(2).position(|pair| pair[0].0 >= pair[1].0)] *)
Fixpoint first_descent (entries : list (Z * C)) : option nat :=
  match entries with
  | a :: (b :: _) as rest => if b.1 <=? a.1 then Some 0%nat else S <$> first_descent rest
  | _ => None
  end.

(** [SortedUniqueEntries::try_new] *)
Definition sorted_unique_try_new (entries : list (Z * C)) : result (list (Z * C)) nat :=
  match first_descent entries with
  | Some index => Err (S index)
  | None => Ok entries
  end.

Definition store_with_edge (s : AdaptiveEdgeStore) (label : Z) (child : C) : AdaptiveEdgeStore :=
  let entries := store_entries s in
  match search_label label entries with
  | Ok index => from_sorted_entries (take index entries ++ [(label, child)] ++ drop (S index) entries)
  | Err index => from_sorted_entries (take index entries ++ [(label, child)] ++ drop index entries)
  end.

Definition store_without_edge (s : AdaptiveEdgeStore) (label : Z) : option AdaptiveEdgeStore :=
  let entries := store_entries s in
  match search_label label entries with
  | Ok index => Some (from_sorted_entries (take index entries ++ drop (S index) entries))
  | Err _ => None
  end.

Definition store_clone (s : AdaptiveEdgeStore) : AdaptiveEdgeStore := from_sorted_entries (store_entries s).

(** [take]: what is left and what is taken *)
Definition store_take (s : AdaptiveEdgeStore) : AdaptiveEdgeStore * AdaptiveEdgeStore := (store_new, s).

(** ** Replacing existing edges *)

Fixpoint merge_existing_replacements (source replacements : list (Z * C)) :
    result (list (Z * C)) ExistingReplacementError :=
  match source with
  | [] => match replacements with [] => Ok [] | _ => Err EdgeAbsent end
  | (source_label, source_child) :: source =>
      let push entry rest := match rest with Ok l => Ok (entry :: l) | Err e => Err e end in
      match replacements with
      | (replacement_label, replacement_child) :: replacements' =>
          if replacement_label <? source_label then Err EdgeAbsent
          else if replacement_label =? source_label
               then push (source_label, replacement_child) (merge_existing_replacements source replacements')
               else push (source_label, source_child) (merge_existing_replacements source replacements)
      | [] => push (source_label, source_child) (merge_existing_replacements source [])
      end
  end.

Definition try_with_existing_replacements (s : AdaptiveEdgeStore) (replacements : list (Z * C)) :
    result AdaptiveEdgeStore ExistingReplacementError :=
  let merged source (tier : list (Z * C) → AdaptiveEdgeStore) :=
    match merge_existing_replacements source replacements with Ok l => Ok (tier l) | Err e => Err e end in
  match replacements with
  | [] => Err Empty
  | _ =>
      match first_descent replacements with
      | Some _ => Err NotStrictlyAscending
      | None =>
          match s with
          | Tiny source => if (TINY_LIMIT <? length source)%nat then Err TierInvariant else merged source Tiny
          | Small source => if (SMALL_LIMIT <? length source)%nat then Err TierInvariant else merged source Small
          | Sorted source => merged source Sorted
          | SparseIndexed _ source => merged source (λ l, SparseIndexed (build_sparse_index l) l)
          | ByteIndexed48 index source => merged source (ByteIndexed48 index)
          | ByteDense256 index source => merged source (ByteDense256 index)
          end
      end
  end.

(** ** What a store stands for *)

(** The first edge with a label *)
Fixpoint label_get (label : Z) (entries : list (Z * C)) : option C :=
  match entries with
  | [] => None
  | (edge, child) :: entries => if label =? edge then Some child else label_get label entries
  end.

(** Labels are of their type, the edges are sorted, and the tables are the ones the
    builder makes for them. *)
Definition label_ok (label : Z) : Prop := match k with U8 => 0 ≤ label < 256 | U32 => 0 ≤ label < 2 ^ 32 | U64 => 0 ≤ label < 2 ^ 64 end.

Definition edges_ok (entries : list (Z * C)) : Prop :=
  StronglySorted Z.lt entries.*1 ∧ Forall label_ok entries.*1.

Definition store_ok (s : AdaptiveEdgeStore) : Prop :=
  edges_ok (store_entries s) ∧ s = from_sorted_entries (store_entries s).

(** ** Lookups *)

Lemma label_get_in label entries c : label_get label entries = Some c → (label, c) ∈ entries.
Proof.
  induction entries as [|[e x] entries IH]; cbn; [done|].
  destruct (Z.eqb_spec label e) as [->|]; [intros [= ->]; by left|]. right. auto.
Qed.

Lemma label_get_None label entries : label_get label entries = None ↔ label ∉ entries.*1.
Proof.
  induction entries as [|[e x] entries IH]; cbn; [set_solver|].
  destruct (Z.eqb_spec label e) as [->|Hne]; [set_solver|]. rewrite IH. set_solver.
Qed.

Lemma label_get_app l a b :
  label_get l (a ++ b) = match label_get l a with Some c => Some c | None => label_get l b end.
Proof. induction a as [|[e x] a IH]; [done|]. cbn [app label_get]. by destruct (l =? e). Qed.

Lemma sorted_cons_inv (e : Z) (x : C) entries :
  StronglySorted Z.lt ((e, x) :: entries).*1 → StronglySorted Z.lt entries.*1 ∧ Forall (Z.lt e) entries.*1.
Proof. cbn. by inversion 1. Qed.

Lemma label_get_below label entries : Forall (Z.lt label) entries.*1 → label_get label entries = None.
Proof. intros Hf. apply label_get_None. intros Hin. rewrite Forall_forall in Hf. apply Hf in Hin. lia. Qed.

Lemma label_get_lookup label entries i c :
  StronglySorted Z.lt entries.*1 → entries !! i = Some (label, c) → label_get label entries = Some c.
Proof.
  revert i. induction entries as [|[e x] entries IH]; intros i Hs Hi; [done|]. apply sorted_cons_inv in Hs as [Hs Hf].
  destruct i as [|i]; cbn in *; [simplify_eq; by rewrite Z.eqb_refl|].
  destruct (Z.eqb_spec label e) as [->|]; [|by apply IH with i]. apply list_elem_of_lookup_2, (list_elem_of_fmap_2 fst) in Hi.
  rewrite Forall_forall in Hf. apply Hf in Hi. cbn in Hi. lia.
Qed.

Lemma search_label_spec label entries :
  StronglySorted Z.lt entries.*1 →
  match search_label label entries with
  | Ok i => ∃ c, entries !! i = Some (label, c) ∧ label_get label entries = Some c
  | Err i => label_get label entries = None ∧
      Forall (λ e, e < label) (take i entries).*1 ∧ Forall (λ e, label < e) (drop i entries).*1
  end.
Proof.
  induction entries as [|[e x] entries IH]; cbn [search_label label_get]; [intros; split_and!; constructor|].
  intros Hs. apply sorted_cons_inv in Hs as [Hs Hf]. specialize (IH Hs).
  destruct (Z.eqb_spec label e) as [->|Hne]; [by exists x|]. destruct (Z.ltb_spec label e) as [Hlt|Hge].
  - assert (Forall (Z.lt label) entries.*1) as Hf' by (eapply Forall_impl; [done|]; cbn; lia).
    split_and!; [by apply label_get_below|constructor|by constructor].
  - destruct (search_label label entries) as [i|i]; cbn; [done|]. destruct IH as (? & ? & ?).
    split_and!; [done|constructor; [lia|done]|done].
Qed.

Lemma find_linear_get entries label : StronglySorted Z.lt entries.*1 → find_linear entries label = label_get label entries.
Proof.
  induction entries as [|[e x] entries IH]; intros Hs; [done|]. apply sorted_cons_inv in Hs as [Hs Hf]. cbn. rewrite Z.eqb_sym.
  destruct (Z.eqb_spec label e) as [->|Hne]; [done|]. destruct (Z.ltb_spec label e) as [Hlt|]; [|auto].
  symmetry. apply label_get_below. eapply Forall_impl; [done|]. cbn. lia.
Qed.

Lemma find_binary_get entries label : StronglySorted Z.lt entries.*1 → find_binary entries label = label_get label entries.
Proof.
  intros Hs. unfold find_binary. pose proof (search_label_spec label entries Hs) as Hsearch.
  destruct (search_label label entries); [by destruct Hsearch as (c & -> & ->)|by destruct Hsearch as (-> & _)].
Qed.

Lemma sparse_from_spec entries idx positions label :
  StronglySorted Z.lt entries.*1 →
  (∀ i c, entries !! i = Some (label, c) → sparse_from idx positions entries !! label = Some (idx + i)%nat) ∧
  (label_get label entries = None → sparse_from idx positions entries !! label = positions !! label).
Proof.
  revert idx positions. induction entries as [|[e x] entries IH]; intros idx positions Hs; [by split; [intros []|]|].
  apply sorted_cons_inv in Hs as [Hs Hf]. destruct (IH (S idx) (<[e := idx]> positions) Hs) as [Hin Hout]. cbn. split.
  - intros [|i] c Hi; cbn in Hi; [|rewrite (Hin _ _ Hi); f_equal; lia]. simplify_eq.
    rewrite Hout by by apply label_get_below. rewrite lookup_insert_eq. f_equal. lia.
  - destruct (Z.eqb_spec label e) as [->|Hne]; [done|]. intros Hnone. rewrite Hout by done. by rewrite lookup_insert_ne by done.
Qed.

Lemma byte_index_from_spec cast entries idx index label :
  k = U8 → StronglySorted Z.lt entries.*1 → Forall label_ok entries.*1 → label_ok label → length index = 256%nat →
  (∀ i c, entries !! i = Some (label, c) →
     byte_index_from cast idx index entries !! Z.to_nat label = Some (cast (Z.of_nat (idx + i)))) ∧
  (label_get label entries = None → byte_index_from cast idx index entries !! Z.to_nat label = index !! Z.to_nat label).
Proof using Type.
  intros Hk. unfold label_ok. rewrite Hk. revert idx index. induction entries as [|[e x] entries IH]; intros idx index Hs Ha Hl Hlen; [by split; [intros []|]|].
  apply sorted_cons_inv in Hs as [Hs Hf]. apply Forall_cons in Ha as [He Ha]. cbn in He. cbn -[Z.to_nat].
  unfold as_byte at 1 2. rewrite Hk.
  destruct (IH (S idx) (<[Z.to_nat e := cast (Z.of_nat idx)]> index) Hs Ha Hl) as [Hin Hout]; [by rewrite length_insert|]. split.
  - intros [|i] c Hi; cbn in Hi; [|rewrite (Hin _ _ Hi); do 2 f_equal; lia]. simplify_eq.
    rewrite Hout by by apply label_get_below. rewrite list_lookup_insert_eq by (rewrite Hlen; lia). do 2 f_equal. lia.
  - destruct (Z.eqb_spec label e) as [->|Hne]; [done|]. intros Hnone. rewrite Hout by done. apply list_lookup_insert_ne. lia.
Qed.

Lemma byte_edges_length entries : k = U8 → edges_ok entries → (length entries ≤ 256)%nat.
Proof using Type.
  intros Hk [Hs Hl]. 
  assert (entries.*1 ⊆+ seqZ 0 256) as Hsub.
  { apply NoDup_submseteq; [apply (StronglySorted_NoDup Z.lt); [lia|done]|]. intros e He. rewrite Forall_forall in Hl. apply Hl in He. unfold label_ok in He. rewrite Hk in He.
    apply elem_of_seqZ. lia. }
  apply submseteq_length in Hsub. by rewrite length_fmap, length_seqZ in Hsub.
Qed.

(** Every tier finds what the vector holds. *)
Lemma store_find_get s label : store_ok s → label_ok label → store_find s label = label_get label (store_entries s).
Proof.
  intros [Hok Es] Hl. pose proof Hok as [Hs Ha]. rewrite Es at 1. set (entries := store_entries s) in *. clearbody entries. clear s Es.
  unfold from_sorted_entries. do 2 (destruct (_ <=? _)%nat; [by (apply find_linear_get || apply find_binary_get)|]).
  destruct (head entries ≫= _) as [b|] eqn:Hb.
  - assert (k = U8) as Hk by (destruct (head entries); [|done]; cbn in Hb; unfold as_byte in Hb; by destruct k).
    pose proof (byte_edges_length entries Hk Hok) as Hlen.
    pose proof (search_label_spec label entries Hs) as Hsearch.
    destruct (_ <=? _)%nat eqn:Hsmall; cbn [store_find]; unfold as_byte; rewrite Hk; cbn [mbind option_bind].
    + apply Nat.leb_le in Hsmall. unfold BYTE_INDEXED_LIMIT in Hsmall.
      destruct (byte_index_from_spec u8 entries 0 (replicate 256 BYTE_INDEX48_SENTINEL) label) as [Hin Hout]; [done..|].
      unfold build_byte_index48. destruct (search_label label entries) as [i|i].
      * destruct Hsearch as (c & Hi & ->). rewrite (Hin _ _ Hi). apply lookup_lt_Some in Hi as Hlt. cbn [mbind option_bind Nat.add].
        rewrite u8_id by (unfold is_u8; lia). rewrite (proj2 (Z.eqb_neq _ _)) by (unfold BYTE_INDEX48_SENTINEL; lia).
        by rewrite Nat2Z.id, Hi.
      * destruct Hsearch as (Hnone & _). rewrite Hout, Hnone by done.
        rewrite lookup_replicate_2 by (unfold label_ok in Hl; rewrite Hk in Hl; lia). done.
    + destruct (byte_index_from_spec u16 entries 0 (replicate 256 BYTE_DENSE_SENTINEL) label) as [Hin Hout]; [done..|].
      unfold build_byte_dense_index. destruct (search_label label entries) as [i|i].
      * destruct Hsearch as (c & Hi & ->). rewrite (Hin _ _ Hi). apply lookup_lt_Some in Hi as Hlt. cbn [mbind option_bind Nat.add].
        rewrite u16_id by (unfold is_u16; lia). rewrite (proj2 (Z.eqb_neq _ _)) by (unfold BYTE_DENSE_SENTINEL; lia).
        by rewrite Nat2Z.id, Hi.
      * destruct Hsearch as (Hnone & _). rewrite Hout, Hnone by done.
        rewrite lookup_replicate_2 by (unfold label_ok in Hl; rewrite Hk in Hl; lia). done.
  - destruct (_ <=? _)%nat; [by apply find_binary_get|]. cbn [store_find]. unfold build_sparse_index.
    destruct (sparse_from_spec entries 0 ∅ label Hs) as [Hin Hout]. pose proof (search_label_spec label entries Hs) as Hsearch.
    destruct (search_label label entries) as [i|i].
    + destruct Hsearch as (c & Hi & ->). rewrite (Hin _ _ Hi). cbn. by rewrite Hi.
    + destruct Hsearch as (Hnone & _). by rewrite Hout, Hnone.
Qed.

(** ** Updates *)

Lemma store_entries_from entries : store_entries (from_sorted_entries entries) = entries.
Proof.
  unfold from_sorted_entries. do 2 (destruct (_ <=? _)%nat; [done|]).
  destruct (head entries ≫= _); by destruct (_ <=? _)%nat.
Qed.

Lemma from_sorted_entries_ok entries : edges_ok entries → store_ok (from_sorted_entries entries).
Proof. intros H. unfold store_ok. by rewrite store_entries_from. Qed.

Lemma store_new_ok : store_ok store_new.
Proof. split; [split; constructor|done]. Qed.

Lemma edges_ok_app a b : edges_ok (a ++ b) ↔ edges_ok a ∧ edges_ok b ∧ ∀ x y, x ∈ a.*1 → y ∈ b.*1 → x < y.
Proof using Type.
  unfold edges_ok. rewrite fmap_app, Forall_app, StronglySorted_app. set_solver.
Qed.

(** Setting the child of a label that a sorted vector has at [i], or lacks there *)
Lemma edges_replaced entries i label c0 c :
  edges_ok entries → entries !! i = Some (label, c0) →
  let entries' := take i entries ++ [(label, c)] ++ drop (S i) entries in
  edges_ok entries' ∧ entries'.*1 = entries.*1 ∧
  ∀ l, label_get l entries' = if l =? label then Some c else label_get l entries.
Proof using Type.
  intros Hok Hi entries'.
  assert (entries'.*1 = entries.*1) as Hlabels.
  { unfold entries'. rewrite <-(take_drop_middle _ _ _ Hi) at 3. by rewrite !fmap_app, !fmap_cons. }
  split_and!; [|done|].
  - destruct Hok. unfold edges_ok. by rewrite Hlabels.
  - intros l. replace (label_get l entries) with (label_get l (take i entries ++ (label, c0) :: drop (S i) entries)) by (by rewrite take_drop_middle).
    rewrite <-(take_drop_middle _ _ _ Hi) in Hok. unfold entries'. rewrite !label_get_app. cbn [label_get app].
    destruct (Z.eqb_spec l label) as [->|]; [|done].
    apply edges_ok_app in Hok as (_ & _ & Hlt). replace (label_get label (take i entries)) with (@None C); [done|].
    symmetry. apply label_get_None. intros Hin. specialize (Hlt label label Hin). cbn in Hlt. rewrite elem_of_cons in Hlt. lia.
Qed.

Lemma edges_inserted entries i label c :
  edges_ok entries → label_ok label → label_get label entries = None →
  Forall (λ e, e < label) (take i entries).*1 → Forall (λ e, label < e) (drop i entries).*1 →
  let entries' := take i entries ++ [(label, c)] ++ drop i entries in
  edges_ok entries' ∧ ∀ l, label_get l entries' = if l =? label then Some c else label_get l entries.
Proof using Type.
  intros Hok Hl Hnone H1 H2 entries'. rewrite Forall_forall in H1, H2. split.
  - rewrite <-(take_drop i entries) in Hok. apply edges_ok_app in Hok as (Ha & Hb & Hab). unfold entries'. apply edges_ok_app. split_and!; [done| |].
    + change [(label, c)] with ([(label, c)] ++ []). rewrite <-app_assoc. cbn [app]. change ((label, c) :: drop i entries) with ([(label, c)] ++ drop i entries).
      apply edges_ok_app. split_and!; [split; repeat constructor; done|done|]. intros x y Hx Hy. apply list_elem_of_singleton in Hx as ->. by apply H2.
    + intros x y Hx. rewrite fmap_app, elem_of_app. intros [Hy|Hy]; [|by apply Hab]. apply list_elem_of_singleton in Hy as ->. by apply H1.
  - intros l. replace (label_get l entries) with (label_get l (take i entries ++ drop i entries)) by (by rewrite take_drop).
    rewrite <-(take_drop i entries), label_get_app in Hnone. unfold entries'. rewrite !label_get_app. cbn [label_get].
    destruct (Z.eqb_spec l label) as [->|]; [|done]. by destruct (label_get label (take i entries)).
Qed.

Lemma store_with_edge_spec s label c :
  store_ok s → label_ok label →
  store_ok (store_with_edge s label c) ∧
  ∀ l, label_get l (store_entries (store_with_edge s label c)) = if l =? label then Some c else label_get l (store_entries s).
Proof.
  intros [Hok _] Hl. unfold store_with_edge. pose proof (search_label_spec label (store_entries s) (proj1 Hok)) as Hsearch.
  destruct (search_label label (store_entries s)) as [i|i].
  - destruct Hsearch as (c0 & Hi & _). destruct (edges_replaced _ i label c0 c Hok Hi) as (? & _ & ?).
    rewrite store_entries_from. split; [by apply from_sorted_entries_ok|done].
  - destruct Hsearch as (Hnone & H1 & H2). destruct (edges_inserted _ i label c Hok Hl Hnone H1 H2).
    rewrite store_entries_from. split; [by apply from_sorted_entries_ok|done].
Qed.

Lemma store_without_edge_spec s label :
  store_ok s →
  match store_without_edge s label with
  | Some s' => store_ok s' ∧ is_Some (label_get label (store_entries s)) ∧
      ∀ l, label_get l (store_entries s') = if l =? label then None else label_get l (store_entries s)
  | None => label_get label (store_entries s) = None
  end.
Proof.
  intros [Hok _]. unfold store_without_edge. pose proof (search_label_spec label (store_entries s) (proj1 Hok)) as Hsearch.
  destruct (search_label label (store_entries s)) as [i|i]; [|by destruct Hsearch]. destruct Hsearch as (c & Hi & Hget).
  set (entries := store_entries s) in *. clearbody entries. pose proof Hok as Hok'.
  rewrite <-(take_drop_middle _ _ _ Hi) in Hok'. apply edges_ok_app in Hok' as (Ha & Hb & Hab).
  change ((label, c) :: ?x) with ([(label, c)] ++ x) in Hb. apply edges_ok_app in Hb as (_ & Hb & Hlt). rewrite store_entries_from. split_and!.
  - apply from_sorted_entries_ok, edges_ok_app. split_and!; [done..|]. intros x y Hx Hy. apply Hab; [done|]. cbn. by right.
  - eauto.
  - intros l. replace (label_get l entries) with (label_get l (take i entries ++ (label, c) :: drop (S i) entries)) by (by rewrite take_drop_middle).
    rewrite !label_get_app. cbn [label_get].
    destruct (Z.eqb_spec l label) as [->|]; [|done].
    replace (label_get label (take i entries)) with (@None C);
      [replace (label_get label (drop (S i) entries)) with (@None C); [done|]|]; symmetry; apply label_get_None; intros Hin.
    + specialize (Hlt label label). cbn in Hlt. rewrite list_elem_of_singleton in Hlt. specialize (Hlt eq_refl Hin). lia.
    + specialize (Hab label label Hin). cbn in Hab. rewrite elem_of_cons in Hab. lia.
Qed.

Lemma store_clone_id s : store_ok s → store_clone s = s.
Proof. by intros [_ ?]. Qed.

(** ** Replacements *)

Lemma first_descent_None (entries : list (Z * C)) : first_descent entries = None ↔ StronglySorted Z.lt entries.*1.
Proof.
  induction entries as [|[a x] [|[b y] entries] IH]; [split; [constructor|done]|split; [repeat constructor|done]|].
  cbn [first_descent fst]. destruct (Z.leb_spec b a) as [Hle|Hlt].
  - split; [done|]. intros [_ Hf]%sorted_cons_inv. apply Forall_cons in Hf as [Hf _]. cbn in Hf. lia.
  - rewrite fmap_None, IH. split.
    + intros Hs. cbn in *. constructor; [done|]. inversion Hs as [|? ? _ Hf]; subst. constructor; [done|]. eapply Forall_impl; [done|]. cbn. lia.
    + by intros [? _]%sorted_cons_inv.
Qed.

Lemma merge_existing_replacements_spec source replacements :
  StronglySorted Z.lt source.*1 → StronglySorted Z.lt replacements.*1 →
  match merge_existing_replacements source replacements with
  | Ok l => l.*1 = source.*1 ∧ replacements.*1 ⊆ source.*1 ∧
      ∀ label, label_get label l = match label_get label replacements with Some c => Some c | None => label_get label source end
  | Err e => e = EdgeAbsent ∧ ¬ replacements.*1 ⊆ source.*1
  end.
Proof.
  revert replacements. induction source as [|[a x] source IH]; intros [|[b y] replacements] Hs Hr; cbn [merge_existing_replacements].
  - split_and!; [done|set_solver|done].
  - split; [done|set_solver].
  - apply sorted_cons_inv in Hs as [Hs Hf]. specialize (IH [] Hs). destruct (merge_existing_replacements source []) as [l|e].
    + destruct IH as (El & _ & Hget); [constructor|]. split_and!; [cbn; by f_equal|set_solver|]. intros label. cbn. by rewrite Hget.
    + destruct IH as (_ & []); [constructor|set_solver].
  - apply sorted_cons_inv in Hs as [Hs Hf]. destruct (Z.ltb_spec b a) as [Hlt|Hge].
    { split; [done|]. intros Hsub. specialize (Hsub b). cbn in Hsub. rewrite !elem_of_cons in Hsub. destruct Hsub as [->|Hin]; [by left|lia|].
      rewrite Forall_forall in Hf. apply Hf in Hin. lia. }
    destruct (Z.eqb_spec b a) as [->|Hne].
    + apply sorted_cons_inv in Hr as [Hr Hg]. specialize (IH replacements Hs Hr). destruct (merge_existing_replacements source replacements) as [l|e].
      * destruct IH as (El & Hsub & Hget). split_and!; [cbn; by f_equal|set_solver|]. intros label. cbn. rewrite Hget. by destruct (label =? a).
      * destruct IH as (-> & Hnot). split; [done|]. intros Hsub. apply Hnot. intros z Hz. specialize (Hsub z). cbn in Hsub.
        rewrite !elem_of_cons in Hsub. destruct Hsub as [->|?]; [by right| |done]. rewrite Forall_forall in Hg. apply Hg in Hz. lia.
    + specialize (IH _ Hs Hr). apply sorted_cons_inv in Hr as [Hr Hg]. destruct (merge_existing_replacements source _) as [l|e].
      * destruct IH as (El & Hsub & Hget). split_and!; [cbn; by f_equal|set_solver|]. intros label. cbn [label_get]. rewrite Hget. cbn [label_get].
        destruct (Z.eqb_spec label a) as [->|]; [|done]. rewrite (proj2 (Z.eqb_neq a b)) by lia.
        rewrite label_get_below; [done|]. eapply Forall_impl; [done|]. cbn. lia.
      * destruct IH as (-> & Hnot). split; [done|]. intros Hsub. apply Hnot. intros z Hz. specialize (Hsub z Hz). cbn in Hsub.
        apply elem_of_cons in Hsub as [->|?]; [|done]. cbn in Hz. apply elem_of_cons in Hz as [->|Hz]; [lia|]. rewrite Forall_forall in Hg. apply Hg in Hz. lia.
Qed.

(** The tables depend on the labels alone. *)
Lemma byte_index_from_labels cast idx index (a b : list (Z * C)) :
  a.*1 = b.*1 → byte_index_from cast idx index a = byte_index_from cast idx index b.
Proof using Type.
  revert idx index b. induction a as [|[l x] a IH]; intros idx index [|[l' y] b] E; try done. cbn in E. injection E as -> E. cbn. by apply IH.
Qed.

Lemma first_label (a : list (Z * C)) : head a ≫= (λ e, as_byte k e.1) = head a.*1 ≫= as_byte k.
Proof. by destruct a as [|[]]. Qed.

(** A replacement keeps the tier: the result is what the builder makes of the merged
    vector. *)
Lemma replaced_tier s replacements l :
  store_ok s → replacements ≠ [] → StronglySorted Z.lt replacements.*1 →
  merge_existing_replacements (store_entries s) replacements = Ok l → l.*1 = (store_entries s).*1 →
  try_with_existing_replacements s replacements = Ok (from_sorted_entries l).
Proof.
  intros [_ Es] Hne Hr Hm El. assert (length l = length (store_entries s)) as Hlen by by rewrite <-!(length_fmap fst), El.
  unfold try_with_existing_replacements. destruct replacements as [|r replacements]; [done|].
  rewrite (proj2 (first_descent_None _) Hr). rewrite Es. unfold from_sorted_entries.
  rewrite !first_label, El, Hlen. destruct (Nat.leb_spec (length (store_entries s)) TINY_LIMIT) as [H1|H1].
  { rewrite (proj2 (Nat.ltb_ge _ _)) by done. by rewrite Hm. }
  destruct (Nat.leb_spec (length (store_entries s)) SMALL_LIMIT) as [H2|H2].
  { rewrite (proj2 (Nat.ltb_ge _ _)) by done. by rewrite Hm. }
  destruct (head _ ≫= _); destruct (_ <=? _)%nat; rewrite Hm; try done; unfold build_byte_index48, build_byte_dense_index;
    by rewrite (byte_index_from_labels _ _ _ l (store_entries s) El).
Qed.

Lemma try_with_existing_replacements_spec s replacements :
  store_ok s →
  match try_with_existing_replacements s replacements with
  | Ok s' => store_ok s' ∧ replacements ≠ [] ∧ StronglySorted Z.lt replacements.*1 ∧
      replacements.*1 ⊆ (store_entries s).*1 ∧ (store_entries s').*1 = (store_entries s).*1 ∧
      ∀ l, label_get l (store_entries s') =
        match label_get l replacements with Some c => Some c | None => label_get l (store_entries s) end
  | Err Empty => replacements = []
  | Err NotStrictlyAscending => ¬ StronglySorted Z.lt replacements.*1
  | Err EdgeAbsent => ¬ replacements.*1 ⊆ (store_entries s).*1
  | Err TierInvariant => False
  end.
Proof.
  intros Hok. destruct (decide (replacements = [])) as [->|Hne]; [done|].
  destruct (first_descent replacements) eqn:Hd.
  { unfold try_with_existing_replacements. destruct replacements; [done|]. rewrite Hd. by rewrite <-first_descent_None, Hd. }
  apply first_descent_None in Hd as Hr. pose proof Hok as [[Hs Hl] Es].
  pose proof (merge_existing_replacements_spec _ _ Hs Hr) as Hm. destruct (merge_existing_replacements _ _) as [l|e] eqn:E.
  - destruct Hm as (El & Hsub & Hget). rewrite (replaced_tier s replacements l) by done. rewrite store_entries_from.
    split_and!; try done. apply from_sorted_entries_ok. unfold edges_ok. by rewrite El.
  - destruct Hm as [-> Hnot]. unfold try_with_existing_replacements. destruct replacements as [|r replacements]; [done|]. rewrite Hd. rewrite Es.
    unfold from_sorted_entries. destruct (Nat.leb_spec (length (store_entries s)) TINY_LIMIT) as [H1|H1].
    { rewrite (proj2 (Nat.ltb_ge _ _)) by done. by rewrite E. }
    destruct (Nat.leb_spec (length (store_entries s)) SMALL_LIMIT) as [H2|H2].
    { rewrite (proj2 (Nat.ltb_ge _ _)) by done. by rewrite E. }
    destruct (head _ ≫= _); destruct (_ <=? _)%nat; by rewrite E.
Qed.

End edge_store.
Arguments AdaptiveEdgeStore C : clear implicits.

(** C19: a store is a map from labels to children, whatever its tier: lookup after an
    insertion, a removal or a replacement of existing edges is lookup in the updated
    map, updates keep the store well formed, and a replacement is refused exactly when
    it is empty, out of order or names an edge the store lacks. *)
Theorem edge_store_exact {C} k (s : AdaptiveEdgeStore C) label c replacements :
  store_ok k s → label_ok k label →
  let find := store_find k s in
  (store_ok k (store_with_edge k s label c) ∧
   ∀ l, label_ok k l → store_find k (store_with_edge k s label c) l = if l =? label then Some c else find l) ∧
  match store_without_edge k s label with
  | Some s' => is_Some (find label) ∧ store_ok k s' ∧
      ∀ l, label_ok k l → store_find k s' l = if l =? label then None else find l
  | None => find label = None
  end ∧
  match try_with_existing_replacements s replacements with
  | Ok s' => store_ok k s' ∧ replacements ≠ [] ∧ StronglySorted Z.lt replacements.*1 ∧
      (∀ l, l ∈ replacements.*1 → is_Some (find l)) ∧
      ∀ l, label_ok k l → store_find k s' l = match label_get l replacements with Some c => Some c | None => find l end
  | Err Empty => replacements = []
  | Err NotStrictlyAscending => ¬ StronglySorted Z.lt replacements.*1
  | Err EdgeAbsent => ¬ replacements.*1 ⊆ (store_entries s).*1
  | Err TierInvariant => False
  end.
Proof.
  intros Hok Hl find. assert (∀ l, label_ok k l → find l = label_get l (store_entries s)) as Hfind by (intros; by apply store_find_get).
  split; [|split].
  - destruct (store_with_edge_spec k s label c Hok Hl) as [Hok' Hget]. split; [done|]. intros l Hl'. by rewrite Hfind, store_find_get, Hget.
  - pose proof (store_without_edge_spec k s label Hok) as H. destruct (store_without_edge k s label) as [s'|]; [|by rewrite Hfind].
    destruct H as (Hok' & Hsome & Hget). rewrite Hfind by done. split; [done|]. split; [done|]. intros l Hl'. by rewrite Hfind, store_find_get, Hget.
  - pose proof (try_with_existing_replacements_spec k s replacements Hok) as H. destruct (try_with_existing_replacements s replacements) as [s'|[]]; try done.
    destruct H as (Hok' & Hne & Hs & Hsub & _ & Hget). split; [done|]. do 2 (split; [done|]). split.
    + intros l Hin%Hsub. destruct Hok as [[_ Ha] _]. rewrite Forall_forall in Ha. rewrite Hfind by by apply Ha.
      destruct (label_get l (store_entries s)) eqn:E; [done|]. by apply label_get_None in E.
    + intros l Hl'. by rewrite Hfind, store_find_get, Hget.
Qed.

(** A store of fifty byte edges, which is in the dense tier *)
Lemma edge_store_exact_witness :
  let s := foldl (λ s i, store_with_edge U8 s (5 * Z.of_nat i) i) store_new (seq 0 50) in
  match s with ByteDense256 _ _ => True | _ => False end ∧
  store_find U8 (store_with_edge U8 s 7 99%nat) 7 = Some 99%nat ∧ store_find U8 (store_with_edge U8 s 7 99%nat) 20 = Some 4%nat ∧
  match store_without_edge U8 s 245 with Some (ByteDense256 _ _) => True | _ => False end.
Proof.
  intros s. assert (store_ok U8 s) as Hs.
  { unfold s. split; [|vm_compute; reflexivity]. split; [apply first_descent_None; vm_compute; reflexivity|].
    apply Forall_forall. vm_compute. intros x Hx. repeat (apply elem_of_cons in Hx as [->|Hx]; [done|]). by apply elem_of_nil in Hx. }
  assert (∀ l, 0 ≤ l < 256 → label_ok U8 l) as Hl by done.
  destruct (edge_store_exact U8 s 7 99%nat [] Hs) as ((_ & Hget) & _); [by apply Hl|].
  split; [vm_compute; exact I|]. split; [rewrite Hget by (apply Hl; lia); reflexivity|]. split; [rewrite Hget by (apply Hl; lia); vm_compute; reflexivity|].
  vm_compute. exact I.
Defined.
