(* ===== verification/OverlayNode.v ===== *)
(** * The nodes of the overlay

    [OverlayNode] and [Child] (src/src/persistent_artrie/core/overlay/node.rs), the
    immutable nodes of the lock-free overlay of the persistent tries.  Every change
    makes a new node with a higher version; only the durable stamp of a node is written
    in place.

    A child in memory is an [Arc], here the address of a node in a growing memory (see
    [OverlayWalk.v]); a child on disk is a swizzled pointer.  [k] is the type of the key
    units: [u8] for byte tries, [u32] for character tries. *)

From stdpp Require Import prelude gmap sorting.
From S2P Require Import Prelude SwizzledPtr EdgeStore.
Local Open Scope Z_scope.
Local Open Scope list_scope.

Module flags.
Definition IS_FINAL : Z := 1.
Definition IS_DIRTY : Z := 2.
Definition IS_LEAF : Z := 4.
Definition HAS_VALUE : Z := 8.
End flags.

Inductive Child : Type :=
| InMem (node : nat)
| OnDisk (ptr : SwizzledPtr).

Definition child_is_null (c : Child) : bool := match c with OnDisk p => is_null p | InMem _ => false end.
Definition child_is_on_disk (c : Child) : bool := match c with OnDisk _ => true | InMem _ => false end.
Definition as_in_mem (c : Child) : option nat := match c with InMem node => Some node | OnDisk _ => None end.
Definition as_on_disk (c : Child) : option SwizzledPtr := match c with OnDisk p => Some p | InMem _ => None end.

Inductive ChildReplacementError : Set :=
| ZeroVersionDelta
| VersionDeltaOverflow
| VersionOverflow
| StoreError (e : ExistingReplacementError).

Section node.
Context {V : Type} (k : label_kind).

Record OverlayNode := mkOverlay {
  on_version : Z;
  on_stamp : Z;  (* [serial_disk_ptr] *)
  on_store : AdaptiveEdgeStore Child;
  on_flags : Z;
  on_value : option V;
  on_prefix : list Z;
  on_prefix_len : Z;
}.

(** ** Construction *)

Definition OverlayNode_new : OverlayNode := mkOverlay 0 0 store_new 0 None [] 0.

Definition OverlayNode_with_prefix (MAX_PREFIX_LEN : nat) (prefix : list Z) : OverlayNode :=
  let prefix_len := u8 (Z.of_nat (length prefix `min` MAX_PREFIX_LEN)) in
  mkOverlay 0 0 store_new 0 None (take (Z.to_nat prefix_len) prefix) prefix_len.

(** [from_sorted_children_with]; building the store succeeds. *)
Definition from_sorted_children (final : bool) (value : option V) (children : list (Z * Child)) : OverlayNode :=
  let has_value := bool_decide (is_Some value) in
  let node_flags := if final then Z.lor 0 flags.IS_FINAL else 0 in
  let node_flags := if has_value then Z.lor node_flags flags.HAS_VALUE else node_flags in
  mkOverlay (u64 (Z.of_nat (length children) + Z.b2z final + Z.b2z has_value)) 0
    (from_sorted_entries k children) node_flags value [] 0.

(** ** Reading *)

Definition onode_num_children (n : OverlayNode) : nat := store_len (on_store n).
Definition onode_is_empty (n : OverlayNode) : bool := (onode_num_children n =? 0)%nat.
Definition onode_is_final (n : OverlayNode) : bool := negb (Z.land (on_flags n) flags.IS_FINAL =? 0).
Definition onode_has_value (n : OverlayNode) : bool := bool_decide (is_Some (on_value n)).
Definition find_child (n : OverlayNode) (key : Z) : option Child := store_find k (on_store n) key.
Definition child_at (n : OverlayNode) (index : nat) : option (Z * Child) := entry_at (on_store n) index.

(** [&self.prefix[..self.prefix_len]] *)
Definition onode_prefix (n : OverlayNode) : exec (list Z) := slice_to (on_prefix n) (Z.to_nat (on_prefix_len n)).

(** [match_prefix]: how many units agree *)
Fixpoint match_units (prefix key : list Z) : nat :=
  match prefix, key with
  | p :: prefix, u :: key => if p =? u then S (match_units prefix key) else 0
  | _, _ => 0
  end.

Definition onode_match_prefix (n : OverlayNode) (key : list Z) : exec nat :=
  prefix ← onode_prefix n; Ret (match_units prefix key).

Definition onode_prefix_matches (n : OverlayNode) (key : list Z) : exec bool :=
  matched ← onode_match_prefix n key; Ret (Z.of_nat matched =? on_prefix_len n).

(** ** New versions *)

Definition next_version (n : OverlayNode) : Z := u64 (on_version n + 1).

Definition with_child (n : OverlayNode) (key : Z) (child : Child) : OverlayNode :=
  mkOverlay (next_version n) 0 (store_with_edge k (on_store n) key child) (on_flags n) (on_value n)
    (on_prefix n) (on_prefix_len n).

Definition try_with_child_replacements (n : OverlayNode) (replacements : list (Z * Child)) (version_delta : Z) :
    result OverlayNode ChildReplacementError :=
  if version_delta =? 0 then Err ZeroVersionDelta
  else if 2 ^ 64 <=? version_delta then Err VersionDeltaOverflow
  else if 2 ^ 64 <=? on_version n + version_delta then Err VersionOverflow
  else match try_with_existing_replacements (on_store n) replacements with
       | Err e => Err (StoreError e)
       | Ok store =>
           Ok (mkOverlay (on_version n + version_delta) 0 store (on_flags n) (on_value n) (on_prefix n) (on_prefix_len n))
       end.

Definition without_child (n : OverlayNode) (key : Z) : option OverlayNode :=
  store ← store_without_edge k (on_store n) key;
  Some (mkOverlay (next_version n) 0 store (on_flags n) (on_value n) (on_prefix n) (on_prefix_len n)).

Definition with_prefix_replaced (MAX_PREFIX_LEN : nat) (n : OverlayNode) (prefix : list Z) : OverlayNode :=
  let prefix_len := u8 (Z.of_nat (length prefix `min` MAX_PREFIX_LEN)) in
  mkOverlay (next_version n) 0 (store_clone k (on_store n)) (on_flags n) (on_value n)
    (take (Z.to_nat prefix_len) prefix) prefix_len.

Definition as_final (n : OverlayNode) : OverlayNode :=
  mkOverlay (next_version n) 0 (store_clone k (on_store n)) (Z.lor (on_flags n) flags.IS_FINAL) (on_value n)
    (on_prefix n) (on_prefix_len n).

(** The mask is [!(IS_FINAL | HAS_VALUE)] on [u8]. *)
Definition as_non_final (n : OverlayNode) : OverlayNode :=
  mkOverlay (next_version n) 0 (store_clone k (on_store n))
    (Z.land (on_flags n) (255 - Z.lor flags.IS_FINAL flags.HAS_VALUE)) None (on_prefix n) (on_prefix_len n).

Definition set_value (n : OverlayNode) (value : V) : OverlayNode :=
  mkOverlay (next_version n) 0 (store_clone k (on_store n)) (Z.lor (on_flags n) flags.HAS_VALUE) (Some value)
    (on_prefix n) (on_prefix_len n).

(** [Clone] *)
Definition onode_clone (n : OverlayNode) : OverlayNode :=
  mkOverlay (on_version n) 0 (store_clone k (on_store n)) (on_flags n) (on_value n) (on_prefix n) (on_prefix_len n).

(** [set_durable_stamp] writes the node in place. *)
Definition set_durable_stamp (n : OverlayNode) (raw : Z) : OverlayNode :=
  mkOverlay (on_version n) raw (on_store n) (on_flags n) (on_value n) (on_prefix n) (on_prefix_len n).

(** ** What a node says *)

(** Whether a key ends here, and with which value *)
Definition onode_entry (n : OverlayNode) : option (option V) := if onode_is_final n then Some (on_value n) else None.

(** The store is well formed, an address is below [bound], and a value is on a final
    node only. *)
Record onode_ok (bound : nat) (n : OverlayNode) : Prop := {
  oo_store : store_ok k (on_store n);
  oo_below l a : label_get l (store_entries (on_store n)) = Some (InMem a) → (a < bound)%nat;
  oo_value : onode_is_final n = false → on_value n = None;
}.

Lemma find_child_get n key b : onode_ok b n → label_ok k key → find_child n key = label_get key (store_entries (on_store n)).
Proof. intros Hn Hk. apply store_find_get; [apply Hn|done]. Qed.

Lemma flag_test a i : 0 ≤ i → negb (Z.land a (2 ^ i) =? 0) = Z.testbit a i.
Proof. intros Hi. rewrite land_pow2_eqb by done. apply negb_involutive. Qed.

Lemma is_final_bit n : onode_is_final n = Z.testbit (on_flags n) 0.
Proof. apply (flag_test _ 0). lia. Qed.

Lemma as_final_is_final n : onode_is_final (as_final n) = true.
Proof. rewrite is_final_bit. cbn [on_flags as_final]. by rewrite Z.lor_spec, orb_true_r. Qed.

Lemma as_non_final_is_final n : onode_is_final (as_non_final n) = false.
Proof. rewrite is_final_bit. cbn [on_flags as_non_final]. by rewrite Z.land_spec, andb_false_r. Qed.

Lemma set_value_is_final n v : onode_is_final (set_value n v) = onode_is_final n.
Proof. rewrite !is_final_bit. cbn [on_flags set_value]. by rewrite Z.lor_spec, orb_false_r. Qed.

(** The entries of the copies *)
Lemma as_final_entry n : (onode_is_final n = false → on_value n = None) → onode_entry n = None → onode_entry (as_final n) = Some None.
Proof. unfold onode_entry. rewrite as_final_is_final. destruct (onode_is_final n); [done|]. intros H _. cbn. by rewrite H. Qed.

Lemma as_non_final_entry n : onode_entry (as_non_final n) = None.
Proof. unfold onode_entry. by rewrite as_non_final_is_final. Qed.

Lemma final_value_entry n v : onode_entry (set_value (as_final n) v) = Some (Some v).
Proof. unfold onode_entry. by rewrite set_value_is_final, as_final_is_final. Qed.

(** Copies are well formed and keep or update the edges. *)
Lemma onode_ok_mono b b' n : (b ≤ b')%nat → onode_ok b n → onode_ok b' n.
Proof. intros Hb [? Hbelow ?]. split; [done| |done]. intros l a Ha%Hbelow. lia. Qed.

Lemma OverlayNode_new_ok b : onode_ok b OverlayNode_new.
Proof. split; [apply store_new_ok|done|done]. Qed.

Lemma with_child_spec b n key c :
  onode_ok b n → label_ok k key → (∀ a, c = InMem a → (a < b)%nat) →
  onode_ok b (with_child n key c) ∧ onode_entry (with_child n key c) = onode_entry n ∧
  ∀ l, label_get l (store_entries (on_store (with_child n key c))) = if l =? key then Some c else label_get l (store_entries (on_store n)).
Proof.
  intros [Hs Hb Hv] Hk Hc. destruct (store_with_edge_spec k (on_store n) key c Hs Hk) as [Hs' Hget]. split_and!; [|done|exact Hget].
  split; [done| |exact Hv]. intros l a. cbn. rewrite Hget. destruct (l =? key); [intros [= ->]; by apply Hc|apply Hb].
Qed.

Lemma try_with_child_replacements_spec b n replacements delta n' :
  onode_ok b n → (∀ l a, (l, InMem a) ∈ replacements → (a < b)%nat) → try_with_child_replacements n replacements delta = Ok n' →
  onode_ok b n' ∧ onode_entry n' = onode_entry n ∧ on_stamp n' = 0 ∧
  ∀ l, label_get l (store_entries (on_store n')) =
    match label_get l replacements with Some c => Some c | None => label_get l (store_entries (on_store n)) end.
Proof.
  intros [Hs Hb Hv] Hr E. unfold try_with_child_replacements in E. destruct (_ =? _); [done|]. do 2 (destruct (_ <=? _); [done|]).
  pose proof (try_with_existing_replacements_spec k (on_store n) replacements Hs) as H.
  destruct (try_with_existing_replacements _ _) as [s|]; [|done]. injection E as <-. destruct H as (Hs' & _ & _ & _ & _ & Hget).
  split_and!; [|done|done|exact Hget]. split; [done| |exact Hv]. intros l a. cbn. rewrite Hget.
  destruct (label_get l replacements) as [c|] eqn:Er; [|apply Hb]. intros [= ->]. apply label_get_in in Er. by eapply Hr.
Qed.

Lemma as_final_ok b n : onode_ok b n → onode_ok b (as_final n).
Proof.
  intros [Hs Hb Hv]. split; cbn [on_store as_final]; rewrite ?store_clone_id by done; [done..|]. by rewrite as_final_is_final.
Qed.

Lemma as_non_final_ok b n : onode_ok b n → onode_ok b (as_non_final n).
Proof. intros [Hs Hb Hv]. by split; cbn [on_store as_non_final]; rewrite ?store_clone_id by done. Qed.

Lemma set_value_ok b n v : onode_ok b n → onode_is_final n = true → onode_ok b (set_value n v).
Proof.
  intros [Hs Hb Hv] Hf. split; cbn [on_store set_value]; rewrite ?store_clone_id by done; [done..|]. by rewrite set_value_is_final, Hf.
Qed.

End node.
Arguments OverlayNode V : clear implicits.
