(* ===== verification/OverlayWalk.v ===== *)
(** * Walking and rewriting the overlay

    The descent and the path copying that the writers of the overlay share
    (src/src/persistent_artrie/core/overlay/cas_walk.rs), the path builders of the byte
    trie (src/src/persistent_artrie/lockfree_cas.rs) and the loading of an evicted node
    (src/src/persistent_artrie/overlay_fault.rs).

    Published nodes are shared and never change, so the memory is a growing list of
    nodes and an [Arc] is an index into it; dereferencing an index past the end is the
    panic, which the theorems exclude.  What an arena slot holds, decoded, is the
    parameter [read_node]: a durable record never changes.  Allocation succeeds. *)

From stdpp Require Import prelude gmap sorting.
From S2P Require Import Prelude SwizzledPtr EdgeStore OverlayNode.
Local Open Scope Z_scope.
Local Open Scope list_scope.

(** The errors of [PersistentARTrieError] that the overlay makes, and those of the layers
    below *)
Inductive TrieError : Type :=
| InternalError
| CorruptedFile
| InvalidOperation
| StorageError (e : Z).

(** A node as an arena slot holds it *)
Record disk_node {V : Type} := mkDiskNode {
  dk_final : bool;
  dk_value : option V;
  dk_prefix : list Z;
  dk_children : list (Z * SwizzledPtr);
}.
Arguments disk_node V : clear implicits.

Inductive FaultMode : Set := Fault | NoFaultIn.

Inductive ChildResolution : Type :=
| RInMem (node : nat)
| RFaulted (node : nat)
| RFaultFailed (e : TrieError)
| RNull
| RAbsent.

Inductive DurableBuildError : Type :=
| BAlreadyExists
| BFailure (e : TrieError).

(** Where the descent of a path builder ends: at the end of the key, at a node that lacks
    the next edge, or at an edge that cannot be followed *)
Inductive descent : Type :=
| Reached (spine : list (nat * Z)) (current : nat)
| Missing (spine : list (nat * Z)) (current : nat) (unit : Z) (rest : list Z)
| NullEdge
| FaultError (e : TrieError).

Definition INLINE_OVERLAY_DEPTH : nat := 16.

Section walk.
Context {V : Type} (k : label_kind) (read_node : ArenaSlot → result (disk_node V) TrieError).

Local Notation memory := (list (OverlayNode V)).

Definition oarc_new (m : memory) (n : OverlayNode V) : memory * nat := (m ++ [n], length m).

(** ** Loading a durable node *)

Definition read_record (disk_ptr : SwizzledPtr) : result (disk_node V) TrieError :=
  match disk_location disk_ptr with
  | None => Err InternalError
  | Some loc =>
      if block_id loc =? 0 then Err InternalError
      else read_node (mkArenaSlot (block_id loc - 1) (offset loc))
  end.

(** The node of a record itself; its children stay on disk. *)
Definition record_node (r : disk_node V) : OverlayNode V :=
  let real := OverlayNode_new in
  let real := if dk_final r then as_final k real else real in
  let real := match dk_value r with Some v => set_value k real v | None => real end in
  foldl (λ real e, with_child k real e.1 (OnDisk e.2)) real (filter (λ e, is_null e.2 = false) (dk_children r)).

(** Its prefix becomes a chain of nodes above it. *)
Definition expand_prefix (m : memory) (real : OverlayNode V) (prefix : list Z) : memory * OverlayNode V :=
  foldl (λ '(m, cur) u, let '(m, a) := oarc_new m cur in (m, with_child k OverlayNode_new u (InMem a)))
    (m, real) (reverse prefix).

Definition load_overlay_node_from_disk (m : memory) (disk_ptr : SwizzledPtr) : memory * result nat TrieError :=
  match read_record disk_ptr with
  | Err e => (m, Err e)
  | Ok r =>
      let '(m, cur) := expand_prefix m (record_node r) (dk_prefix r) in
      let '(m, a) := oarc_new m (set_durable_stamp cur (to_raw disk_ptr)) in
      (m, Ok a)
  end.

(** ** The shared descent *)

Fixpoint find_leaf_iterative (m : memory) (current : nat) (key : list Z) : exec (option nat) :=
  node ← m !! current;
  match key with
  | [] => Ret (if onode_is_final node then Some current else None)
  | unit :: key =>
      match find_child k node unit ≫= as_in_mem with
      | Some child => find_leaf_iterative m child key
      | None => Ret None
      end
  end.

Fixpoint find_in_lockfree_trie (m : memory) (current : nat) (key : list Z) : exec bool :=
  node ← m !! current;
  match key with
  | [] => Ret (onode_is_final node)
  | unit :: key =>
      match find_child k node unit with
      | None => Ret false
      | Some child =>
          match as_in_mem child with
          | None => Ret false
          | Some child => find_in_lockfree_trie m child key
          end
      end
  end.

Definition resolve_or_fault (m : memory) (node : nat) (unit : Z) (fault : FaultMode) : exec (memory * ChildResolution) :=
  n ← m !! node;
  match find_child k n unit with
  | None => Ret (m, RAbsent)
  | Some child =>
      match as_in_mem child with
      | Some a => Ret (m, RInMem a)
      | None =>
          match as_on_disk child with
          | Some on_disk =>
              if negb (is_null on_disk) then
                match fault with
                | NoFaultIn => Ret (m, RNull)
                | Fault =>
                    match load_overlay_node_from_disk m on_disk with
                    | (m, Ok loaded) => Ret (m, RFaulted loaded)
                    | (m, Err e) => Ret (m, RFaultFailed e)
                    end
                end
              else Ret (m, RNull)
          | None => Ret (m, RNull)
          end
      end
  end.

(** [try_push_overlay_path_spine]: beyond the inline frames the bound must leave room. *)
Definition try_push_spine (spine : list (nat * Z)) (frame : nat * Z) (maximum_frames : nat) : exec (list (nat * Z)) :=
  if (INLINE_OVERLAY_DEPTH <=? length spine)%nat && (maximum_frames <=? length spine)%nat then Panic
  else Ret (spine ++ [frame]).

(** The loop of the path builders *)
Fixpoint descend (fault : FaultMode) (m : memory) (spine : list (nat * Z)) (current : nat) (units : list Z) (capacity : nat) :
    exec (memory * descent) :=
  match units with
  | [] => Ret (m, Reached spine current)
  | unit :: rest =>
      '(m, resolution) ← resolve_or_fault m current unit fault;
      match resolution with
      | RInMem child | RFaulted child =>
          spine ← try_push_spine spine (current, unit) capacity;
          descend fault m spine child rest capacity
      | RFaultFailed e => Ret (m, FaultError e)
      | RNull => Ret (m, NullEdge)
      | RAbsent => Ret (m, Missing spine current unit rest)
      end
  end.

Definition create_spine (m : memory) (suffix : list Z) (leaf : OverlayNode V) : memory * (nat * nat) :=
  let '(m, leaf) := oarc_new m leaf in
  let '(m, current) :=
    foldl (λ '(m, current) unit, oarc_new m (with_child k OverlayNode_new unit (InMem current))) (m, leaf) (reverse suffix) in
  (m, (current, leaf)).

Definition unwind_spine (m : memory) (spine : list (nat * Z)) (child : nat) : exec (memory * nat) :=
  foldM (λ '(m, child) frame,
    n ← m !! frame.1;
    Ret (oarc_new m (with_child k n frame.2 (InMem child)))) (m, child) (reverse spine).

(** Publish a new node above the spine. *)
Definition rebuild (m : memory) (spine : list (nat * Z)) (n : OverlayNode V) : exec (memory * nat) :=
  let '(m, a) := oarc_new m n in unwind_spine m spine a.

(** Splice a new path for [rest] below [unit]. *)
Definition splice (m : memory) (spine : list (nat * Z)) (current : nat) (unit : Z) (rest : list Z) (leaf : OverlayNode V) :
    exec (memory * nat) :=
  let '(m, (subtree, _)) := create_spine m rest leaf in
  n ← m !! current;
  rebuild m spine (with_child k n unit (InMem subtree)).

(** ** The path builders *)

Definition build_final_path_iterative (m : memory) (node : nat) (term : list Z) (depth : nat) :
    exec (memory * result nat DurableBuildError) :=
  if (length term <? depth)%nat then Ret (m, Err (BFailure InternalError))
  else
    '(m, d) ← descend Fault m [] node (drop depth term) (length term - depth);
    match d with
    | Reached spine current =>
        n ← m !! current;
        if onode_is_final n then Ret (m, Err BAlreadyExists)
        else '(m, root) ← rebuild m spine (as_final k n); Ret (m, Ok root)
    | Missing spine current key rest =>
        '(m, root) ← splice m spine current key rest (as_final k OverlayNode_new); Ret (m, Ok root)
    | NullEdge => Ret (m, Err (BFailure CorruptedFile))
    | FaultError e => Ret (m, Err (BFailure e))
    end.

Definition build_remove_path_iterative (m : memory) (node : nat) (term : list Z) (depth : nat) :
    exec (memory * result nat DurableBuildError) :=
  if (length term <? depth)%nat then Ret (m, Err (BFailure InternalError))
  else
    '(m, d) ← descend Fault m [] node (drop depth term) (length term - depth);
    match d with
    | Reached spine current =>
        n ← m !! current;
        if negb (onode_is_final n) then Ret (m, Err BAlreadyExists)
        else '(m, root) ← rebuild m spine (as_non_final k n); Ret (m, Ok root)
    | Missing _ _ _ _ | NullEdge => Ret (m, Err BAlreadyExists)
    | FaultError e => Ret (m, Err (BFailure e))
    end.

Definition build_value_spine (m : memory) (node : nat) (key : list Z) (depth : nat) (value : V) (fault : FaultMode) :
    exec (memory * result nat TrieError) :=
  if (length key <? depth)%nat then Ret (m, Err InternalError)
  else
    '(m, d) ← descend fault m [] node (drop depth key) (length key - depth);
    match d with
    | Reached spine current =>
        n ← m !! current;
        '(m, root) ← rebuild m spine (set_value k (as_final k n) value); Ret (m, Ok root)
    | Missing spine current unit rest =>
        '(m, root) ← splice m spine current unit rest (set_value k (as_final k OverlayNode_new) value); Ret (m, Ok root)
    | NullEdge => Ret (m, Err (match fault with NoFaultIn => InternalError | Fault => CorruptedFile end))
    | FaultError e => Ret (m, Err e)
    end.

Definition build_value_path_iterative (m : memory) (node : nat) (key : list Z) (value : V) : exec (memory * result nat TrieError) :=
  build_value_spine m node key 0 value Fault.

(** ** What an overlay stands for *)

(** A place in the trie: a node in memory, a durable record with what is left of its
    prefix, or an edge that cannot be followed *)
Inductive place : Type :=
| AtNode (a : nat)
| Stored (r : disk_node V) (rest : list Z)
| Broken.

Definition enter (c : Child) : place :=
  match c with
  | InMem a => AtNode a
  | OnDisk p =>
      if is_null p then Broken
      else match read_record p with Ok r => Stored r (dk_prefix r) | Err _ => Broken end
  end.

Definition edge_of (n : OverlayNode V) (u : Z) : option Child := label_get u (store_entries (on_store n)).

Definition place_next (m : memory) (pl : place) (u : Z) : option place :=
  match pl with
  | AtNode a => match m !! a with Some n => enter <$> edge_of n u | None => None end
  | Stored r [] => enter <$> edge_of (record_node r) u
  | Stored r (p :: rest) => if u =? p then Some (Stored r rest) else None
  | Broken => Some Broken
  end.

Definition place_entry (m : memory) (pl : place) : option (option (option V)) :=
  match pl with
  | AtNode a => Some (m !! a ≫= onode_entry)
  | Stored r [] => Some (onode_entry (record_node r))
  | Stored r (_ :: _) => Some None
  | Broken => None
  end.

(** What a key is at a place: [None] when an edge on its path cannot be followed, and
    otherwise its entry *)
Fixpoint look (m : memory) (pl : place) (t : list Z) : option (option (option V)) :=
  match t with
  | [] => place_entry m pl
  | u :: t => match place_next m pl u with Some pl => look m pl t | None => Some None end
  end.

(** The keys below a node, with their optional values *)
Definition content (m : memory) (a : nat) (t : list Z) : option (option V) := default None (look m (AtNode a) t).

(** The path of a key is in memory, as far as there are edges. *)
Fixpoint resident (m : memory) (a : nat) (t : list Z) : Prop :=
  match t with
  | [] => True
  | u :: t =>
      match m !! a ≫= λ n, edge_of n u with
      | Some (InMem b) => resident m b t
      | Some (OnDisk _) => False
      | None => True
      end
  end.

(** Nodes are well formed, and a node with a stamp stands for the record the stamp names. *)
Definition memory_ok (m : memory) : Prop :=
  ∀ i n, m !! i = Some n → onode_ok k i n ∧
    (on_stamp n ≠ 0 → ∀ p, to_raw p = on_stamp n → ∀ t, look m (AtNode i) t = look m (enter (OnDisk p)) t).

Definition units_ok (t : list Z) : Prop := Forall (label_ok k) t.

(** Units are of their type and a value is at the end of a key. *)
Definition record_ok (r : disk_node V) : Prop :=
  units_ok (dk_prefix r) ∧ units_ok (dk_children r).*1 ∧ (dk_final r = false → dk_value r = None).

(** ** Memory that grows *)

Lemma memory_node m i n : memory_ok m → m !! i = Some n → onode_ok k i n.
Proof using Type. intros Hm Hi. by apply Hm. Qed.

Context (Hdisk : ∀ slot r, read_node slot = Ok r → record_ok r).

Definition place_ok (m : memory) (pl : place) : Prop :=
  match pl with AtNode a => (a < length m)%nat | Stored r _ => record_ok r | Broken => True end.

Lemma record_edges_spec l n b :
  onode_ok k b n → units_ok l.*1 →
  onode_ok k b (foldl (λ real (e : Z * SwizzledPtr), with_child k real e.1 (OnDisk e.2)) n l) ∧
  onode_entry (foldl (λ real (e : Z * SwizzledPtr), with_child k real e.1 (OnDisk e.2)) n l) = onode_entry n ∧
  ∀ u a, edge_of (foldl (λ real (e : Z * SwizzledPtr), with_child k real e.1 (OnDisk e.2)) n l) u = Some (InMem a) → edge_of n u = Some (InMem a).
Proof using Type.
  revert n. induction l as [|[u p] l IH]; intros n Hn Hl; [done|]. apply Forall_cons in Hl as [Hu Hl]. cbn in Hu.
  destruct (with_child_spec k b n u (OnDisk p) Hn Hu) as (Hn' & He & Hget); [done|].
  destruct (IH (with_child k n u (OnDisk p)) Hn' Hl) as (? & Hent & Hedge). cbn [foldl fst snd]. split_and!; [done|by rewrite Hent|].
  intros x a Ha%Hedge. unfold edge_of in Ha |- *. rewrite Hget in Ha. by destruct (x =? u).
Qed.

(** The node of a record has its children on disk. *)
Lemma record_node_spec r b :
  record_ok r → onode_ok k b (record_node r) ∧ ∀ u a, edge_of (record_node r) u ≠ Some (InMem a).
Proof using Type.
  intros (_ & Hl & Hv). unfold record_node. set (n := match dk_value r with Some v => _ | None => _ end).
  assert (onode_ok k b n ∧ ∀ u a, edge_of n u ≠ Some (InMem a)) as [Hn Hedges].
  { unfold n. destruct (dk_final r) eqn:Hf, (dk_value r) as [v|] eqn:Ev; (split; [|done]); try by discriminate (Hv eq_refl).
    - apply set_value_ok; [apply as_final_ok, OverlayNode_new_ok|apply as_final_is_final].
    - apply as_final_ok, OverlayNode_new_ok.
    - apply OverlayNode_new_ok. }
  destruct (record_edges_spec (filter (λ e, is_null e.2 = false) (dk_children r)) n b) as (Hok & _ & Hedge); [done| |].
  { apply Forall_forall. intros u (e & -> & He)%list_elem_of_fmap. apply list_elem_of_filter in He as [_ He].
    unfold units_ok in Hl. rewrite Forall_forall in Hl. apply Hl. by apply list_elem_of_fmap_2. }
  split; [done|]. intros u a Ha%Hedge. by eapply Hedges.
Qed.

Lemma read_record_ok p r : read_record p = Ok r → record_ok r.
Proof.
  unfold read_record. destruct (disk_location p) as [loc|]; [|done]. destruct (block_id loc =? 0); [done|]. apply Hdisk.
Qed.

Lemma enter_disk_ok m p : place_ok m (enter (OnDisk p)).
Proof. cbn. destruct (is_null p); [done|]. destruct (read_record p) eqn:E; [|done]. by apply read_record_ok in E. Qed.

Lemma enter_ok m n u c : onode_ok k (length m) n → edge_of n u = Some c → place_ok m (enter c).
Proof. intros Hn Hc. destruct c as [a|p]; [by apply (oo_below k _ _ Hn u)|apply enter_disk_ok]. Qed.

Lemma place_next_grow m l pl u : place_ok m pl → place_next (m ++ l) pl u = place_next m pl u.
Proof using Type. intros Hpl. destruct pl as [a|r rest|]; [|done..]. cbn in *. by rewrite lookup_app_l. Qed.

Lemma place_next_ok m pl u pl' : memory_ok m → place_ok m pl → place_next m pl u = Some pl' → place_ok m pl'.
Proof.
  intros Hm Hpl. destruct pl as [a|r [|x rest]|]; cbn; cbn in Hpl.
  - destruct (m !! a) as [n|] eqn:Hn; [|done]. intros (c & Hc & ->)%fmap_Some.
    eapply (enter_ok m n u); [|exact Hc]. eapply onode_ok_mono; [|by apply (memory_node m)]. lia.
  - intros ([a'|p] & Hc & ->)%fmap_Some; [|apply enter_disk_ok]. by apply (record_node_spec r 0 Hpl) in Hc.
  - destruct (u =? x); [|done]. by intros [= <-].
  - by intros [= <-].
Qed.

Lemma look_grow m l pl t : memory_ok m → place_ok m pl → look (m ++ l) pl t = look m pl t.
Proof.
  intros Hm. revert pl. induction t as [|u t IH]; intros pl Hpl; cbn [look].
  - destruct pl as [a|r rest|]; [|done..]. cbn in *. by rewrite lookup_app_l.
  - rewrite place_next_grow by done. destruct (place_next m pl u) as [pl'|] eqn:E; [|done]. apply IH. by eapply place_next_ok.
Qed.

Lemma content_grow m l a t : memory_ok m → (a < length m)%nat → content (m ++ l) a t = content m a t.
Proof. intros Hm Ha. unfold content. by rewrite look_grow. Qed.

(** What a new node stands for *)
Lemma look_new m n t :
  memory_ok m → onode_ok k (length m) n →
  look (m ++ [n]) (AtNode (length m)) t =
    match t with
    | [] => Some (onode_entry n)
    | u :: t => match edge_of n u with Some c => look m (enter c) t | None => Some None end
    end.
Proof.
  intros Hm Hn. destruct t as [|u t]; cbn [look place_entry place_next]; rewrite list_lookup_middle by done; [done|].
  destruct (edge_of n u) as [c|] eqn:E; [|done]. cbn. apply look_grow; [done|]. by eapply enter_ok.
Qed.

Lemma look_at m a n t :
  m !! a = Some n →
  look m (AtNode a) t =
    match t with
    | [] => Some (onode_entry n)
    | u :: t => match edge_of n u with Some c => look m (enter c) t | None => Some None end
    end.
Proof using Type. intros Ha. destruct t as [|u t]; cbn [look place_next place_entry]; rewrite Ha; [done|]. by destruct (edge_of n u). Qed.

Lemma memory_ok_stamped m n :
  memory_ok m → onode_ok k (length m) n →
  (∀ p, to_raw p = on_stamp n → ∀ t, look (m ++ [n]) (AtNode (length m)) t = look m (enter (OnDisk p)) t) → memory_ok (m ++ [n]).
Proof.
  intros Hm Hn Hstamp i n' Hi. apply lookup_app_Some in Hi as [Hi|[Hge Hi]].
  - destruct (Hm i n' Hi) as [Hok Hs]. split; [done|]. intros H0 p Hp t. apply lookup_lt_Some in Hi.
    rewrite (look_grow m [n] (AtNode i)), (look_grow m [n] (enter (OnDisk p))) by (done || apply enter_disk_ok). by apply Hs.
  - apply list_lookup_singleton_Some in Hi as [Hz <-]. replace i with (length m) by lia. split; [done|].
    intros _ p Hp t. rewrite (Hstamp p Hp). symmetry. apply look_grow; [done|apply enter_disk_ok].
Qed.

Lemma memory_ok_snoc m n : memory_ok m → onode_ok k (length m) n → on_stamp n = 0 → memory_ok (m ++ [n]).
Proof.
  intros Hm Hn H0 i n' Hi. apply lookup_app_Some in Hi as [Hi|[Hge Hi]].
  - destruct (Hm i n' Hi) as [Hok Hs]. split; [done|]. intros H p Hp t. apply lookup_lt_Some in Hi.
    rewrite (look_grow m [n] (AtNode i)), (look_grow m [n] (enter (OnDisk p))) by (done || apply enter_disk_ok). by apply Hs.
  - apply list_lookup_singleton_Some in Hi as [Hz <-]. by replace i with (length m) by lia.
Qed.

(** ** Loading *)

Lemma read_record_raw p q : to_raw p = to_raw q → enter (OnDisk p) = enter (OnDisk q).
Proof using Type. unfold to_raw. intros E. cbn. unfold read_record, disk_location, is_null. by rewrite E. Qed.

Lemma record_node_stamp r : on_stamp (record_node r) = 0.
Proof using Type.
  unfold record_node. set (n := match dk_value r with Some v => _ | None => _ end).
  assert (on_stamp n = 0) as Hn by (unfold n; by destruct (dk_final r), (dk_value r)). clearbody n. revert n Hn.
  induction (filter _ _) as [|e l IH]; intros n Hn; [done|]. by apply IH.
Qed.

Lemma expand_prefix_cons m real u prefix :
  expand_prefix m real (u :: prefix) =
    let '(m, cur) := expand_prefix m real prefix in (m ++ [cur], with_child k OverlayNode_new u (InMem (length m))).
Proof using Type.
  unfold expand_prefix. rewrite reverse_cons, foldl_app. cbn. by destruct (foldl _ _ _).
Qed.

Lemma expand_prefix_spec m r rest :
  memory_ok m → record_ok r → units_ok rest →
  ∃ l cur, expand_prefix m (record_node r) rest = (m ++ l, cur) ∧ memory_ok (m ++ l) ∧ onode_ok k (length (m ++ l)) cur ∧ on_stamp cur = 0 ∧
    ∀ t, look ((m ++ l) ++ [cur]) (AtNode (length (m ++ l))) t = look m (Stored r rest) t.
Proof.
  intros Hm Hr. induction rest as [|u rest IH]; intros Hu.
  - destruct (record_node_spec r (length m) Hr) as [Hn _]. exists [], (record_node r). rewrite app_nil_r. split_and!; [done..|apply record_node_stamp|].
    intros t. rewrite look_new by done. destruct t as [|u t]; [done|]. cbn [look place_next]. by destruct (edge_of (record_node r) u).
  - apply Forall_cons in Hu as [Hu Hrest]. destruct (IH Hrest) as (l & cur & E & Hml & Hcur & H0 & Hlook).
    assert (memory_ok ((m ++ l) ++ [cur])) as Hml' by by apply memory_ok_snoc.
    destruct (with_child_spec k (length ((m ++ l) ++ [cur])) (OverlayNode_new (V:=V)) u (InMem (length (m ++ l))) (OverlayNode_new_ok k _) Hu) as (Hw & He & Hget).
    { intros a [= <-]. rewrite (length_app (m ++ l)). cbn. lia. }
    exists (l ++ [cur]), (with_child k OverlayNode_new u (InMem (length (m ++ l)))). rewrite expand_prefix_cons, E, app_assoc. split_and!; [done..|].
    intros t. rewrite look_new by done. destruct t as [|x t]; [by rewrite He|]. unfold edge_of. rewrite Hget. cbn.
    destruct (x =? u); [apply Hlook|done].
Qed.

(** A loaded node stands for what the record does. *)
Lemma load_spec m p :
  memory_ok m → is_null p = false →
  match load_overlay_node_from_disk m p with
  | (m', Ok a) => ∃ l n, m' = m ++ l ∧ memory_ok m' ∧ m' !! a = Some n ∧ on_stamp n = to_raw p ∧
      (∀ t, look m' (AtNode a) t = look m (enter (OnDisk p)) t)
  | (m', Err e) => m' = m ∧ enter (OnDisk p) = Broken
  end.
Proof.
  intros Hm Hp. unfold load_overlay_node_from_disk. cbn [enter]. rewrite Hp. destruct (read_record p) as [r|e] eqn:Er; [|done].
  pose proof (read_record_ok p r Er) as Hr. destruct (expand_prefix_spec m r (dk_prefix r) Hm Hr) as (l & cur & -> & Hml & Hcur & H0 & Hlook); [apply Hr|].
  cbn. exists (l ++ [set_durable_stamp cur (to_raw p)]), (set_durable_stamp cur (to_raw p)).
  assert (onode_ok k (length (m ++ l)) (set_durable_stamp cur (to_raw p))) as Hcur' by (by destruct Hcur).
  assert (∀ t, look ((m ++ l) ++ [set_durable_stamp cur (to_raw p)]) (AtNode (length (m ++ l))) t = look m (Stored r (dk_prefix r)) t) as Hlook'.
  { intros t. rewrite look_new, <-Hlook, look_new by done. done. }
  split_and!; [by rewrite app_assoc| |by rewrite list_lookup_middle|done|exact Hlook'].
  apply memory_ok_stamped; [done..|]. intros q Hq t. cbn in Hq. rewrite Hlook', (read_record_raw q p) by done. cbn [enter]. rewrite Hp, Er.
  symmetry. by apply look_grow.
Qed.

(** ** Path copying *)

(** A copy of a node with a new child *)
Lemma look_relink m a n u c :
  memory_ok m → m !! a = Some n → label_ok k u → (c < length m)%nat →
  let m' := m ++ [with_child k n u (InMem c)] in
  memory_ok m' ∧ (∀ t, look m' (AtNode (length m)) (u :: t) = look m (AtNode c) t) ∧
  ∀ t, head t ≠ Some u → look m' (AtNode (length m)) t = look m (AtNode a) t.
Proof.
  intros Hm Ha Hu Hc m'. assert (onode_ok k (length m) n) as Hn.
  { eapply onode_ok_mono; [|by apply (memory_node m)]. apply lookup_lt_Some in Ha. lia. }
  destruct (with_child_spec k (length m) n u (InMem c) Hn Hu) as (Hn' & He & Hget); [by intros ? [= <-]|]. split_and!.
  - by apply memory_ok_snoc.
  - intros t. unfold m'. rewrite look_new by done. unfold edge_of. by rewrite Hget, Z.eqb_refl.
  - intros t Ht. unfold m'. rewrite look_new, (look_at _ _ _ _ Ha) by done. destruct t as [|x t]; [by rewrite He|].
    unfold edge_of. rewrite Hget. rewrite (proj2 (Z.eqb_neq x u)); [done|]. intros ->. by destruct Ht.
Qed.

(** Unwinding a spine that leads along [pre] to a node [c] makes a trie that has [c]
    below [pre] and is [orig] elsewhere. *)
Definition unwinds (m : memory) (orig : list Z → option (option (option V))) (spine : list (nat * Z)) (pre : list Z) : Prop :=
  ∀ l c, memory_ok (m ++ l) → (c < length (m ++ l))%nat →
  ∃ l2 a, unwind_spine (m ++ l) spine c = Ret ((m ++ l) ++ l2, a) ∧ memory_ok ((m ++ l) ++ l2) ∧ (a < length ((m ++ l) ++ l2))%nat ∧
    (∀ t, look ((m ++ l) ++ l2) (AtNode a) (pre ++ t) = look (m ++ l) (AtNode c) t) ∧
    ∀ t, ¬ pre `prefix_of` t → look ((m ++ l) ++ l2) (AtNode a) t = orig t.

Lemma unwinds_nil m orig : unwinds m orig [] [].
Proof.
  intros l c Hm Hc. exists [], c. rewrite app_nil_r. split_and!; [done..|]. intros t []. apply prefix_nil.
Qed.

Lemma unwinds_cons m a n u spine pre child :
  memory_ok m → m !! a = Some n → label_ok k u → (child < length m)%nat →
  (∀ t, look m (AtNode child) t = look m (AtNode a) (u :: t)) →
  unwinds m (look m (AtNode child)) spine pre → unwinds m (look m (AtNode a)) ((a, u) :: spine) (u :: pre).
Proof.
  intros Hm Ha Hu Hchild Hlook H l c Hml Hc. destruct (H l c Hml Hc) as (l2 & b & E & Hm2 & Hb & Hin & Hout).
  set (m2 := (m ++ l) ++ l2) in *. assert (m2 !! a = Some n) as Ha2 by (unfold m2; rewrite <-app_assoc; by apply lookup_app_l_Some).
  destruct (look_relink m2 a n u b Hm2 Ha2 Hu Hb) as (Hm3 & Hin3 & Hout3).
  exists (l2 ++ [with_child k n u (InMem b)]), (length m2). rewrite (app_assoc (m ++ l)). fold m2. split_and!; [|done|rewrite (length_app m2); cbn; lia| |].
  - unfold unwind_spine in E |- *. rewrite reverse_cons, foldM_app, E. cbn [mbind option_bind foldM fst snd]. by rewrite Ha2.
  - intros t. cbn [app]. by rewrite Hin3, Hin.
  - intros t Ht. destruct (decide (head t = Some u)) as [Hh|Hh].
    + destruct t as [|x t]; [done|]. cbn in Hh. injection Hh as ->. rewrite Hin3, Hout; [by rewrite Hlook|]. intros Hp. apply Ht. by apply prefix_cons.
    + rewrite Hout3 by done. unfold m2. rewrite <-app_assoc. apply look_grow; [done|]. cbn. by apply lookup_lt_Some in Ha.
Qed.

(** More memory may come before the unwinding. *)
Lemma unwinds_grow m l orig spine pre : unwinds m orig spine pre → unwinds (m ++ l) orig spine pre.
Proof using Type.
  intros H l1 c Hm Hc. destruct (H (l ++ l1) c) as (l2 & a & H2); rewrite ?app_assoc in *; eauto.
Qed.

(** One more step down *)
Lemma unwinds_snoc m orig spine pre cur n u :
  memory_ok m → m !! cur = Some n → label_ok k u → (∀ t, look m (AtNode cur) t = orig (pre ++ t)) →
  unwinds m orig spine pre → unwinds m orig (spine ++ [(cur, u)]) (pre ++ [u]).
Proof.
  intros Hm Hn Hu Hlook H l c Hml Hc. assert ((m ++ l) !! cur = Some n) as Hn' by by apply lookup_app_l_Some.
  destruct (look_relink (m ++ l) cur n u c Hml Hn' Hu Hc) as (Hm1 & Hin1 & Hout1). set (n1 := with_child k n u (InMem c)) in *.
  destruct (H (l ++ [n1]) (length (m ++ l))) as (l2 & a & E & Hm2 & Ha & Hin & Hout); rewrite ?app_assoc in *; [done|rewrite (length_app (m ++ l)); cbn; lia|].
  exists ([n1] ++ l2), a. rewrite (app_assoc (m ++ l)). split_and!; [|done|done| |].
  - unfold unwind_spine in E |- *. rewrite reverse_snoc. cbn [foldM fst snd]. rewrite Hn'. exact E.
  - intros t. rewrite <-(app_assoc pre), Hin. apply Hin1.
  - intros t Ht. destruct (decide (pre `prefix_of` t)) as [[t' ->]|Hp]; [|by apply Hout]. rewrite Hin.
    rewrite Hout1, look_grow; [apply Hlook|done|cbn; by apply lookup_lt_Some in Hn|].
    intros Hh. apply Ht. destruct t' as [|x t']; [done|]. cbn in Hh. injection Hh as ->. exists t'. by rewrite <-app_assoc.
Qed.

Lemma unwinds_ext m orig orig' spine pre : (∀ t, orig t = orig' t) → unwinds m orig spine pre → unwinds m orig' spine pre.
Proof using Type.
  intros Heq H l c Hm Hc. destruct (H l c Hm Hc) as (l2 & a & E & H1 & H2 & H3 & H4). exists l2, a. split_and!; try done.
  intros t Ht. rewrite H4 by done. apply Heq.
Qed.

(** ** The descent *)

Lemma resolve_spec m a n u :
  memory_ok m → m !! a = Some n → label_ok k u →
  ∃ l res, resolve_or_fault m a u Fault = Ret (m ++ l, res) ∧ memory_ok (m ++ l) ∧
    match res with
    | RInMem c | RFaulted c => (c < length (m ++ l))%nat ∧ ∀ t, look (m ++ l) (AtNode c) t = look m (AtNode a) (u :: t)
    | RFaultFailed _ | RNull => l = [] ∧ ∀ t, look m (AtNode a) (u :: t) = None
    | RAbsent => l = [] ∧ edge_of n u = None
    end.
Proof.
  intros Hm Ha Hu. unfold resolve_or_fault. rewrite Ha. cbn [mbind option_bind]. rewrite (find_child_get k n u a) by (done || by apply (memory_node m)).
  change (label_get u (store_entries (on_store n))) with (edge_of n u).
  assert (∀ t, look m Broken t = None) as Hbroken by (intros t; by induction t).
  destruct (edge_of n u) as [[c|p]|] eqn:E; cbn [as_in_mem as_on_disk].
  - exists [], (RInMem c). rewrite app_nil_r. split_and!; [done..| |].
    + apply (oo_below k _ _ (memory_node _ _ _ Hm Ha) u) in E. apply lookup_lt_Some in Ha. lia.
    + intros t. rewrite (look_at _ _ _ _ Ha). by rewrite E.
  - destruct (is_null p) eqn:Hp; cbn [negb].
    { exists [], RNull. rewrite app_nil_r. split_and!; [done..|]. intros t. rewrite (look_at _ _ _ _ Ha), E. cbn [enter]. by rewrite Hp, Hbroken. }
    pose proof (load_spec m p Hm Hp) as Hload. destruct (load_overlay_node_from_disk m p) as [m' [c|e]].
    + destruct Hload as (l & nc & -> & Hm' & Hc & _ & Hlook). exists l, (RFaulted c). split_and!; [done..|by apply lookup_lt_Some in Hc|].
      intros t. by rewrite Hlook, (look_at _ _ _ _ Ha), E.
    + destruct Hload as [-> Hb]. exists [], (RFaultFailed e). rewrite app_nil_r. split_and!; [done..|]. intros t.
      by rewrite (look_at _ _ _ _ Ha), E, Hb, Hbroken.
  - exists [], RAbsent. by rewrite app_nil_r.
Qed.

(** What a descent from [a] along [units] ends with *)
Definition descent_ok (m : memory) (a : nat) (units : list Z) (spine : list (nat * Z)) (l : memory) (d : descent) : Prop :=
  match d with
  | Reached spine' c => ∃ fr, spine' = spine ++ fr ∧ (c < length (m ++ l))%nat ∧
      (∀ t, look (m ++ l) (AtNode c) t = look m (AtNode a) (units ++ t)) ∧ unwinds (m ++ l) (look m (AtNode a)) fr units
  | Missing spine' c u rest => ∃ fr pre n, spine' = spine ++ fr ∧ units = pre ++ u :: rest ∧ (m ++ l) !! c = Some n ∧ edge_of n u = None ∧
      (∀ t, look (m ++ l) (AtNode c) t = look m (AtNode a) (pre ++ t)) ∧ unwinds (m ++ l) (look m (AtNode a)) fr pre
  | NullEdge | FaultError _ => look m (AtNode a) units = None
  end.

Lemma descent_ok_next m a n u units spine l c l' d :
  memory_ok m → m !! a = Some n → label_ok k u → memory_ok (m ++ l) → (c < length (m ++ l))%nat →
  (∀ t, look (m ++ l) (AtNode c) t = look m (AtNode a) (u :: t)) → memory_ok ((m ++ l) ++ l') →
  descent_ok (m ++ l) c units (spine ++ [(a, u)]) l' d → descent_ok m a (u :: units) spine (l ++ l') d.
Proof.
  intros Hm Hn Hu Hml Hc Hlook Hml' Hd.
  assert (∀ fr pre, unwinds ((m ++ l) ++ l') (look (m ++ l) (AtNode c)) fr pre →
            unwinds (m ++ l ++ l') (look m (AtNode a)) ((a, u) :: fr) (u :: pre)) as Hcons.
  { intros fr pre H. rewrite app_assoc. eapply unwinds_ext, (unwinds_cons _ a n u fr pre c Hml'); [|by do 2 apply lookup_app_l_Some|done|rewrite (length_app (m ++ l)); lia| |].
    - intros t. rewrite <-app_assoc. apply look_grow; [done|]. by apply lookup_lt_Some in Hn.
    - intros t. rewrite look_grow, Hlook by done. rewrite <-app_assoc. symmetry. apply look_grow; [done|]. by apply lookup_lt_Some in Hn.
    - eapply unwinds_ext; [|exact H]. intros t. symmetry. by apply look_grow. }
  destruct d as [sp b|sp b v rest| |e]; cbn [descent_ok] in Hd |- *; [| |by rewrite <-Hlook..].
  - destruct Hd as (fr & -> & Hb & Hl & Hun). exists ((a, u) :: fr). rewrite <-app_assoc, (app_assoc m). split_and!; [done..| |].
    + intros t. by rewrite Hl, Hlook.
    + rewrite <-app_assoc. by apply Hcons.
  - destruct Hd as (fr & pre & n' & -> & -> & Hb & He & Hl & Hun). exists ((a, u) :: fr), (u :: pre), n'. rewrite <-app_assoc, (app_assoc m). split_and!; [done..| |].
    + intros t. by rewrite Hl, Hlook.
    + rewrite <-app_assoc. by apply Hcons.
Qed.

Lemma descend_spec m spine a units capacity :
  memory_ok m → (a < length m)%nat → units_ok units → (length spine + length units ≤ capacity)%nat →
  ∃ l d, descend Fault m spine a units capacity = Ret (m ++ l, d) ∧ memory_ok (m ++ l) ∧ descent_ok m a units spine l d.
Proof.
  revert m spine a. induction units as [|u units IH]; intros m spine a Hm Ha Hu Hcap.
  { exists [], (Reached spine a). cbn [descend descent_ok]. rewrite app_nil_r. split_and!; [done..|]. exists []. rewrite app_nil_r. split_and!; [done..|]. apply unwinds_nil. }
  apply Forall_cons in Hu as [Hu Hus]. destruct (lookup_lt_is_Some_2 m a Ha) as [n Hn]. cbn [descend].
  destruct (resolve_spec m a n u Hm Hn Hu) as (l & res & -> & Hml & Hres). cbn [mbind option_bind].
  assert (∀ c, (c < length (m ++ l))%nat → (∀ t, look (m ++ l) (AtNode c) t = look m (AtNode a) (u :: t)) →
    ∃ l' d, (spine' ← try_push_spine spine (a, u) capacity; descend Fault (m ++ l) spine' c units capacity) = Ret (m ++ l', d) ∧
      memory_ok (m ++ l') ∧ descent_ok m a (u :: units) spine l' d) as Hnext.
  { intros c Hc Hlook. unfold try_push_spine. cbn [length] in Hcap.
    rewrite (proj2 (Nat.leb_gt capacity (length spine))), andb_false_r by lia. cbn [mbind option_bind].
    destruct (IH (m ++ l) (spine ++ [(a, u)]) c Hml Hc Hus) as (l' & d & -> & Hml' & Hd); [rewrite length_app; cbn; lia|].
    exists (l ++ l'), d. rewrite app_assoc. split_and!; [done..|]. by eapply descent_ok_next. }
  destruct res as [c|c|e| |]; [by apply Hnext; apply Hres..| | |]; destruct Hres as [-> Hnone]; exists []; rewrite app_nil_r in *.
  - exists (FaultError e). split_and!; [done..|]. apply Hnone.
  - exists NullEdge. split_and!; [done..|]. apply Hnone.
  - exists (Missing spine a u units). split_and!; [done..|]. exists [], [], n. rewrite !app_nil_r. split_and!; [done..|]. apply unwinds_nil.
Qed.

(** ** The builders *)

Lemma create_spine_spec m suffix leaf :
  memory_ok m → onode_ok k (length m) leaf → on_stamp leaf = 0 → (∀ u, edge_of leaf u = None) → units_ok suffix →
  ∃ l c b, create_spine m suffix leaf = (m ++ l, (c, b)) ∧ memory_ok (m ++ l) ∧ (c < length (m ++ l))%nat ∧
    ∀ t, look (m ++ l) (AtNode c) t = Some (if decide (t = suffix) then onode_entry leaf else None).
Proof.
  intros Hm Hleaf H0 Hedges. unfold create_spine. cbn [oarc_new]. induction suffix as [|u suffix IH]; intros Hs.
  - exists [leaf], (length m), (length m). split_and!; [done|by apply memory_ok_snoc|rewrite length_app; cbn; lia|].
    intros t. rewrite look_new by done. destruct t as [|u t]; [done|]. by rewrite Hedges.
  - apply Forall_cons in Hs as [Hu Hs]. destruct (IH Hs) as (l & c & b & E & Hml & Hc & Hlook). rewrite reverse_cons, foldl_app.
    destruct (foldl _ _ (reverse suffix)) as [m1 c1]. injection E as -> -> <-. cbn [foldl].
    destruct (with_child_spec k (length (m ++ l)) (OverlayNode_new (V:=V)) u (InMem c) (OverlayNode_new_ok k _) Hu) as (Hw & He & Hget); [by intros ? [= <-]|].
    exists (l ++ [with_child k OverlayNode_new u (InMem c)]), (length (m ++ l)), (length m). rewrite app_assoc.
    split_and!; [done|by apply memory_ok_snoc|rewrite (length_app (m ++ l)); cbn; lia|].
    intros t. rewrite look_new by done. destruct t as [|x t]; [by rewrite He|]. unfold edge_of. rewrite Hget. cbn [enter].
    destruct (Z.eqb_spec x u) as [->|Hne]; cbn.
    + rewrite Hlook. do 2 case_decide; congruence.
    + case_decide; congruence.
Qed.

(** A changed copy at the end of a spine changes one key. *)
Lemma path_rebuild_spec m spine pre orig cur n n' :
  memory_ok m → m !! cur = Some n → onode_ok k (length m) n' → on_stamp n' = 0 → (∀ u, edge_of n' u = edge_of n u) →
  (∀ t, look m (AtNode cur) t = orig (pre ++ t)) → unwinds m orig spine pre →
  ∃ l a, rebuild m spine n' = Ret (m ++ l, a) ∧ memory_ok (m ++ l) ∧ (a < length (m ++ l))%nat ∧
    ∀ t, look (m ++ l) (AtNode a) t = if decide (t = pre) then Some (onode_entry n') else orig t.
Proof.
  intros Hm Hn Hn' H0 Hedges Hlook Hun. unfold rebuild. cbn [oarc_new].
  destruct (Hun [n'] (length m)) as (l & a & E & Hm' & Ha & Hin & Hout); [by apply memory_ok_snoc|rewrite length_app; cbn; lia|].
  exists ([n'] ++ l), a. rewrite app_assoc. split_and!; [done..|]. intros t. destruct (decide (pre `prefix_of` t)) as [[t' ->]|Hp].
  - rewrite Hin, look_new by done. destruct t' as [|u t']; [by rewrite app_nil_r, decide_True|].
    rewrite decide_False by (intros E'; apply (f_equal length) in E'; rewrite length_app in E'; cbn in E'; lia).
    by rewrite Hedges, <-Hlook, (look_at _ _ _ _ Hn).
  - rewrite Hout, decide_False; [done| |done]. intros ->. by apply Hp.
Qed.

(** So does a new path below a node. *)
Lemma splice_spec m spine pre orig cur n u rest leaf :
  memory_ok m → m !! cur = Some n → edge_of n u = None → label_ok k u → units_ok rest →
  (∀ b, onode_ok k b leaf) → on_stamp leaf = 0 → (∀ x, edge_of leaf x = None) →
  (∀ t, look m (AtNode cur) t = orig (pre ++ t)) → unwinds m orig spine pre →
  ∃ l a, splice m spine cur u rest leaf = Ret (m ++ l, a) ∧ memory_ok (m ++ l) ∧ (a < length (m ++ l))%nat ∧
    ∀ t, look (m ++ l) (AtNode a) t = if decide (t = pre ++ u :: rest) then Some (onode_entry leaf) else orig t.
Proof.
  intros Hm Hn He Hu Hrest Hleaf H0 Hedges Hlook Hun. unfold splice.
  destruct (create_spine_spec m rest leaf Hm (Hleaf _) H0 Hedges Hrest) as (l & c & b & -> & Hml & Hc & Hsub).
  assert ((m ++ l) !! cur = Some n) as Hn' by by apply lookup_app_l_Some. rewrite Hn'. cbn [mbind option_bind].
  destruct (look_relink (m ++ l) cur n u c Hml Hn' Hu Hc) as (Hm1 & Hin1 & Hout1). unfold rebuild. cbn [oarc_new].
  set (n1 := with_child k n u (InMem c)) in *. destruct (Hun (l ++ [n1]) (length (m ++ l))) as (l2 & a & E & Hm2 & Ha & Hin & Hout).
  { by rewrite app_assoc. }
  { rewrite app_assoc, (length_app (m ++ l)). cbn. lia. }
  rewrite app_assoc in *. exists (l ++ [n1] ++ l2), a. rewrite !app_assoc. split_and!; [done..|]. intros t.
  destruct (decide (pre `prefix_of` t)) as [[t' ->]|Hp].
  - rewrite Hin. destruct (decide (head t' = Some u)) as [Hh|Hh].
    + destruct t' as [|x t']; [done|]. cbn in Hh. injection Hh as ->. rewrite Hin1, Hsub.
      assert (orig (pre ++ u :: t') = Some None) as Ho by by rewrite <-Hlook, (look_at _ _ _ _ Hn), He.
      destruct (decide (t' = rest)) as [->|Hne]; [by rewrite decide_True|]. rewrite decide_False, Ho; [done|].
      intros E'. apply Hne. apply app_inv_head in E'. congruence.
    + rewrite Hout1 by done. rewrite look_grow, Hlook by (done || by apply lookup_lt_Some in Hn). rewrite decide_False; [done|].
      intros E'. apply app_inv_head in E'. apply Hh. by rewrite E'.
  - rewrite Hout, decide_False; [done| |done]. intros ->. apply Hp. by eexists.
Qed.

(** The node at the end of a descent *)
Lemma reached_entry m l a c n units :
  (m ++ l) !! c = Some n → (∀ t, look (m ++ l) (AtNode c) t = look m (AtNode a) (units ++ t)) →
  look m (AtNode a) units = Some (onode_entry n).
Proof using Type. intros Hn Hl. rewrite <-(app_nil_r units), <-Hl. by rewrite (look_at _ _ _ _ Hn). Qed.

Lemma copy_edges n n' : store_ok k (on_store n) → on_store n' = store_clone k (on_store n) → ∀ u, edge_of n' u = edge_of n u.
Proof using Type. intros Hs E u. unfold edge_of. by rewrite E, store_clone_id. Qed.

Lemma build_final_spec m root term :
  memory_ok m → (root < length m)%nat → units_ok term →
  ∃ l res, build_final_path_iterative m root term 0 = Ret (m ++ l, res) ∧ memory_ok (m ++ l) ∧
    match res with
    | Ok a => look m (AtNode root) term = Some None ∧ (a < length (m ++ l))%nat ∧
        ∀ t, look (m ++ l) (AtNode a) t = if decide (t = term) then Some (Some None) else look m (AtNode root) t
    | Err BAlreadyExists => ∃ v, look m (AtNode root) term = Some (Some v)
    | Err (BFailure _) => look m (AtNode root) term = None
    end.
Proof.
  intros Hm Hroot Hterm. unfold build_final_path_iterative. rewrite (proj2 (Nat.ltb_ge _ _)) by lia. rewrite drop_0, Nat.sub_0_r.
  destruct (descend_spec m [] root term (length term) Hm Hroot Hterm) as (l & d & -> & Hml & Hd); [done|]. cbn [mbind option_bind].
  destruct d as [sp c|sp c u rest| |e]; cbn [descent_ok] in Hd.
  - destruct Hd as (fr & -> & Hc & Hl & Hun). destruct (lookup_lt_is_Some_2 _ _ Hc) as [n Hn]. rewrite Hn. cbn [mbind option_bind app].
    pose proof (reached_entry _ _ _ _ _ _ Hn Hl) as He. unfold onode_entry in He. destruct (onode_is_final n) eqn:Hf.
    + exists l, (Err BAlreadyExists). split_and!; eauto.
    + pose proof (memory_node _ _ _ Hml Hn) as Hok. destruct (path_rebuild_spec (m ++ l) fr term (look m (AtNode root)) c n (as_final k n)) as (l2 & a & -> & Hm2 & Ha & Hlook); try done.
      { eapply as_final_ok, onode_ok_mono; [|done]. lia. }
      { apply copy_edges; [apply Hok|done]. }
      exists (l ++ l2), (Ok a). rewrite app_assoc. split_and!; [done..|]. intros t. rewrite Hlook, as_final_entry; [done|apply Hok|]. unfold onode_entry. by rewrite Hf.
  - destruct Hd as (fr & pre & n & -> & -> & Hn & He & Hl & Hun). apply Forall_app in Hterm as [_ [Hu Hrest]%Forall_cons]. cbn [app].
    destruct (splice_spec (m ++ l) fr pre (look m (AtNode root)) c n u rest (as_final k OverlayNode_new)) as (l2 & a & -> & Hm2 & Ha & Hlook); try done.
    { intros b. apply as_final_ok, OverlayNode_new_ok. }
    exists (l ++ l2), (Ok a). rewrite app_assoc. split_and!; [done..| |done|done]. by rewrite <-Hl, (look_at _ _ _ _ Hn), He.
  - exists l, (Err (BFailure CorruptedFile)). by split_and!.
  - exists l, (Err (BFailure e)). by split_and!.
Qed.

Lemma build_remove_spec m root term :
  memory_ok m → (root < length m)%nat → units_ok term →
  ∃ l res, build_remove_path_iterative m root term 0 = Ret (m ++ l, res) ∧ memory_ok (m ++ l) ∧
    match res with
    | Ok a => (∃ v, look m (AtNode root) term = Some (Some v)) ∧ (a < length (m ++ l))%nat ∧
        ∀ t, look (m ++ l) (AtNode a) t = if decide (t = term) then Some None else look m (AtNode root) t
    | Err BAlreadyExists => content m root term = None
    | Err (BFailure _) => look m (AtNode root) term = None
    end.
Proof.
  intros Hm Hroot Hterm. unfold build_remove_path_iterative. rewrite (proj2 (Nat.ltb_ge _ _)) by lia. rewrite drop_0, Nat.sub_0_r.
  destruct (descend_spec m [] root term (length term) Hm Hroot Hterm) as (l & d & -> & Hml & Hd); [done|]. cbn [mbind option_bind]. unfold content.
  destruct d as [sp c|sp c u rest| |e]; cbn [descent_ok] in Hd.
  - destruct Hd as (fr & -> & Hc & Hl & Hun). destruct (lookup_lt_is_Some_2 _ _ Hc) as [n Hn]. rewrite Hn. cbn [mbind option_bind app].
    pose proof (reached_entry _ _ _ _ _ _ Hn Hl) as He. unfold onode_entry in He. destruct (onode_is_final n) eqn:Hf; cbn [negb].
    + pose proof (memory_node _ _ _ Hml Hn) as Hok. destruct (path_rebuild_spec (m ++ l) fr term (look m (AtNode root)) c n (as_non_final k n)) as (l2 & a & -> & Hm2 & Ha & Hlook); try done.
      { eapply as_non_final_ok, onode_ok_mono; [|done]. lia. }
      { apply copy_edges; [apply Hok|done]. }
      exists (l ++ l2), (Ok a). rewrite app_assoc. split_and!; [done|done|by eauto|done|]. intros t. by rewrite Hlook, as_non_final_entry.
    + exists l, (Err BAlreadyExists). split_and!; [done..|]. by rewrite He.
  - destruct Hd as (fr & pre & n & -> & -> & Hn & He & Hl & Hun). exists l, (Err BAlreadyExists). split_and!; [done..|].
    by rewrite <-Hl, (look_at _ _ _ _ Hn), He.
  - exists l, (Err BAlreadyExists). split_and!; [done..|]. by rewrite Hd.
  - exists l, (Err (BFailure e)). by split_and!.
Qed.

Lemma build_value_spec m root key value :
  memory_ok m → (root < length m)%nat → units_ok key →
  ∃ l res, build_value_path_iterative m root key value = Ret (m ++ l, res) ∧ memory_ok (m ++ l) ∧
    match res with
    | Ok a => is_Some (look m (AtNode root) key) ∧ (a < length (m ++ l))%nat ∧
        ∀ t, look (m ++ l) (AtNode a) t = if decide (t = key) then Some (Some (Some value)) else look m (AtNode root) t
    | Err _ => look m (AtNode root) key = None
    end.
Proof.
  intros Hm Hroot Hterm. unfold build_value_path_iterative, build_value_spine. rewrite (proj2 (Nat.ltb_ge _ _)) by lia. rewrite drop_0, Nat.sub_0_r.
  destruct (descend_spec m [] root key (length key) Hm Hroot Hterm) as (l & d & -> & Hml & Hd); [done|]. cbn [mbind option_bind].
  destruct d as [sp c|sp c u rest| |e]; cbn [descent_ok] in Hd.
  - destruct Hd as (fr & -> & Hc & Hl & Hun). destruct (lookup_lt_is_Some_2 _ _ Hc) as [n Hn]. rewrite Hn. cbn [mbind option_bind app].
    pose proof (memory_node _ _ _ Hml Hn) as Hok.
    destruct (path_rebuild_spec (m ++ l) fr key (look m (AtNode root)) c n (set_value k (as_final k n) value)) as (l2 & a & -> & Hm2 & Ha & Hlook); try done.
    { apply set_value_ok; [|apply as_final_is_final]. eapply as_final_ok, onode_ok_mono; [|done]. lia. }
    { intros u. unfold edge_of. cbn. by rewrite !store_clone_id by (rewrite ?store_clone_id; apply Hok). }
    exists (l ++ l2), (Ok a). rewrite app_assoc. split_and!; [done|done| |done|].
    + rewrite (reached_entry _ _ _ _ _ _ Hn Hl). eauto.
    + intros t. by rewrite Hlook, final_value_entry.
  - destruct Hd as (fr & pre & n & -> & -> & Hn & He & Hl & Hun). apply Forall_app in Hterm as [_ [Hu Hrest]%Forall_cons]. cbn [app].
    destruct (splice_spec (m ++ l) fr pre (look m (AtNode root)) c n u rest (set_value k (as_final k OverlayNode_new) value))
      as (l2 & a & -> & Hm2 & Ha & Hlook); try done.
    { intros b. apply set_value_ok; [apply as_final_ok, OverlayNode_new_ok|apply as_final_is_final]. }
    exists (l ++ l2), (Ok a). rewrite app_assoc. split_and!; [done|done| |done|].
    + rewrite <-Hl, (look_at _ _ _ _ Hn), He. eauto.
    + intros t. by rewrite Hlook, final_value_entry.
  - exists l, (Err CorruptedFile). by split_and!.
  - exists l, (Err e). by split_and!.
Qed.

(** ** Reading *)

(** The resident walk finds a key that is in memory all along its path. *)
Lemma find_leaf_spec m a t :
  memory_ok m → (a < length m)%nat → units_ok t →
  ∃ r, find_leaf_iterative m a t = Ret r ∧
    match r with
    | Some b => ∃ n, m !! b = Some n ∧ onode_is_final n = true ∧ look m (AtNode a) t = Some (Some (on_value n))
    | None => resident m a t → look m (AtNode a) t = Some None
    end.
Proof.
  intros Hm. revert a. induction t as [|u t IH]; intros a Ha Hu; destruct (lookup_lt_is_Some_2 m a Ha) as [n Hn]; cbn [find_leaf_iterative resident]; rewrite Hn; cbn [mbind option_bind].
  - eexists. split; [done|]. rewrite (look_at _ _ _ _ Hn). unfold onode_entry. destruct (onode_is_final n) eqn:E; [|done]. by exists n.
  - apply Forall_cons in Hu as [Hu Hus]. rewrite (find_child_get k n u a) by (done || by apply (memory_node m)).
    change (label_get u (store_entries (on_store n))) with (edge_of n u). rewrite (look_at _ _ _ _ Hn).
    destruct (edge_of n u) as [[b|p]|] eqn:E; cbn [mbind option_bind as_in_mem enter]; [|(exists None; by split)..].
    apply IH; [|done]. apply (oo_below k _ _ (memory_node _ _ _ Hm Hn) u) in E. lia.
Qed.

Lemma find_in_lockfree_trie_spec m a t :
  memory_ok m → (a < length m)%nat → units_ok t →
  ∃ r, find_leaf_iterative m a t = Ret r ∧ find_in_lockfree_trie m a t = Ret (bool_decide (is_Some r)).
Proof.
  intros Hm. revert a. induction t as [|u t IH]; intros a Ha Hu; destruct (lookup_lt_is_Some_2 m a Ha) as [n Hn];
    cbn [find_leaf_iterative find_in_lockfree_trie]; rewrite Hn; cbn [mbind option_bind].
  - eexists. split; [done|]. by destruct (onode_is_final n).
  - apply Forall_cons in Hu as [Hu Hus]. rewrite (find_child_get k n u a) by (done || by apply (memory_node m)).
    destruct (label_get u (store_entries (on_store n))) as [[b|p]|] eqn:E; cbn [mbind option_bind as_in_mem]; [|(exists None; by split)..].
    apply IH; [|done]. apply (oo_below k _ _ (memory_node _ _ _ Hm Hn) u) in E. lia.
Qed.

End walk.
