(* ===== verification/OverlayFault.v ===== *)
(** * Faulting evicted nodes in, and evicting them

    The read path of the overlay that loads evicted nodes back
    ([find_leaf_faulting]) and the eviction of chains of nodes
    ([build_chain_replacement_into], [build_chain_ancestor_replacement_into])
    of src/src/persistent_artrie/core/overlay/evict.rs.

    A retry of [find_leaf_faulting] publishes a root with the loaded node in place.
    Whether that publication lands is up to other threads and to the registry of
    evictable nodes, so it is an argument: [lands] says of each retry whether its root
    became the published one. *)

From stdpp Require Import prelude gmap sorting.
From S2P Require Import Prelude SwizzledPtr EdgeStore OverlayNode OverlayWalk.
Local Open Scope Z_scope.
Local Open Scope list_scope.

Definition DEFAULT_MAX_FAULTIN_RETRIES : nat := 16.

(** [DecodedFaultCache]: the node last loaded, and where on the key *)
Record DecodedFaultCache := mkDecoded {
  df_key_depth : nat;
  df_raw_pointer : Z;
  df_node : nat;
}.

(** How one retry ends *)
Inductive fault_attempt : Type :=
| Answered (found : option nat)
| LoadFailed (e : TrieError)
| Faulted (new_root : nat) (cache : DecodedFaultCache).

Section fault.
Context {V : Type} (k : label_kind) (read_node : ArenaSlot → result (disk_node V) TrieError).

Local Notation memory := (list (OverlayNode V)).

(** ** Reading *)

Fixpoint walk_no_fault (m : memory) (current : nat) (key : list Z) : exec (option nat) :=
  n ← m !! current;
  match key with
  | [] => Ret (if onode_is_final n then Some current else None)
  | edge :: key =>
      match find_child k n edge with
      | None => Ret None
      | Some child => match as_in_mem child with Some c => walk_no_fault m c key | None => Ret None end
      end
  end.

Fixpoint walk_faulting_snapshot (m : memory) (current : nat) (suffix : list Z) : exec (memory * result (option nat) TrieError) :=
  n ← m !! current;
  match suffix with
  | [] => Ret (m, Ok (if onode_is_final n then Some current else None))
  | edge :: suffix =>
      match find_child k n edge with
      | None => Ret (m, Ok None)
      | Some (InMem child) => walk_faulting_snapshot m child suffix
      | Some (OnDisk ptr) =>
          if negb (is_null ptr) then
            match load_overlay_node_from_disk k read_node m ptr with
            | (m, Ok next) => walk_faulting_snapshot m next suffix
            | (m, Err e) => Ret (m, Err e)
            end
          else Ret (m, Ok None)
      end
  end.

(** The walk of one retry from the node [current], which [spine] leads to *)
Fixpoint fault_walk (m : memory) (cache : option DecodedFaultCache) (spine : list (nat * Z)) (current : nat)
    (key : list Z) (idx bound : nat) : exec (memory * fault_attempt) :=
  n ← m !! current;
  match key with
  | [] => Ret (m, Answered (if onode_is_final n then Some current else None))
  | edge :: key =>
      match find_child k n edge with
      | None => Ret (m, Answered None)
      | Some (InMem child) =>
          spine ← try_push_spine spine (current, edge) bound;
          fault_walk m cache spine child key (S idx) bound
      | Some (OnDisk ptr) =>
          if negb (is_null ptr) then
            let raw := to_raw ptr in
            let '(m, loaded) :=
              match cache with
              | Some cached =>
                  if (df_key_depth cached =? idx)%nat && (df_raw_pointer cached =? raw) then (m, Ok (df_node cached))
                  else load_overlay_node_from_disk k read_node m ptr
              | None => load_overlay_node_from_disk k read_node m ptr
              end in
            match loaded with
            | Err e => Ret (m, LoadFailed e)
            | Ok loaded =>
                '(m, new_root) ← rebuild k m spine (with_child k n edge (InMem loaded));
                Ret (m, Faulted new_root (mkDecoded idx raw loaded))
            end
          else Ret (m, Answered None)
      end
  end.

(** The retries, and the answer from the last decoded node when they are used up *)
Fixpoint fault_retries (lands : nat → bool) (fuel attempt : nat) (m : memory) (root : nat)
    (cache : option DecodedFaultCache) (key : list Z) : exec (memory * nat * result (option nat) TrieError) :=
  match fuel with
  | O =>
      found ← walk_no_fault m root key;
      match found, cache with
      | Some leaf, _ => Ret (m, root, Ok (Some leaf))
      | None, Some decoded =>
          '(m, r) ← walk_faulting_snapshot m (df_node decoded) (drop (S (df_key_depth decoded)) key);
          Ret (m, root, r)
      | None, None => Ret (m, root, Ok None)
      end
  | S fuel =>
      '(m, a) ← fault_walk m cache [] root key 0 (length key);
      match a with
      | Answered found => Ret (m, root, Ok found)
      | LoadFailed e => Ret (m, root, Err e)
      | Faulted new_root cache =>
          fault_retries lands fuel (S attempt) m (if lands attempt then new_root else root) (Some cache) key
      end
  end.

Definition find_leaf_faulting (lands : nat → bool) (m : memory) (root : nat) (key : list Z) (max_faultin_retries : nat) :
    exec (memory * nat * result (option nat) TrieError) :=
  fault_retries lands (S max_faultin_retries) 0 m root None key.

(** ** Eviction *)

(** A frame of a chain: the edge, the selected candidate at its end, and the node above
    once the walk has passed *)
Record ChainWalkFrame := mkChainFrame {
  cf_edge : Z;
  cf_selected : option nat;
}.

(** The walk down: the nodes above the edges it passes, and the node it reaches *)
Fixpoint chain_down (m : memory) (current : nat) (frames : list ChainWalkFrame) : exec (list (nat * ChainWalkFrame) * nat) :=
  match frames with
  | [] => Ret ([], current)
  | frame :: frames =>
      n ← m !! current;
      match find_child k n (cf_edge frame) ≫= as_in_mem with
      | None => Ret ([], current)
      | Some child =>
          '(parents, reached) ← chain_down m child frames;
          Ret ((current, frame) :: parents, reached)
      end
  end.

(** Whether a node may be replaced by the disk record of a candidate *)
Definition evictable (m : memory) (a : nat) (disk_ptr : SwizzledPtr) : exec bool :=
  n ← m !! a;
  Ret (bool_decide (is_Some (disk_location disk_ptr)) && (on_stamp n =? to_raw disk_ptr)).

(** One frame on the way up.  The inner [None] is a failure, on which nothing is
    published. *)
Definition chain_up (candidates : list SwizzledPtr) (acc : option (memory * nat * list nat)) (f : nat * ChainWalkFrame) :
    exec (option (memory * nat * list nat)) :=
  match acc with
  | None => Ret None
  | Some (m, current, successful) =>
      let '(parent, frame) := f in
      '(replacement, successful) ←
        match successful with
        | [] =>
            match cf_selected frame with
            | None => Ret (Some None, [])
            | Some candidate =>
                match candidates !! candidate with
                | None => Ret (None, [])
                | Some disk_ptr =>
                    e ← evictable m current disk_ptr;
                    Ret (if (e : bool) then (Some (Some (OnDisk disk_ptr)), [candidate]) else (Some None, []))
                end
            end
        | _ => Ret (Some (Some (InMem current)), successful)
        end;
      match replacement with
      | None => Ret None
      | Some None => Ret (Some (m, parent, successful))
      | Some (Some child) =>
          n ← m !! parent;
          match try_with_child_replacements n [(cf_edge frame, child)] 1 with
          | Err _ => Ret None
          | Ok n => let '(m, a) := oarc_new m n in Ret (Some (m, a, successful))
          end
      end
  end.

Definition build_chain_replacement_into (m : memory) (old_root : nat) (frames : list ChainWalkFrame)
    (candidates : list SwizzledPtr) : exec (option (memory * nat * list nat)) :=
  '(parents, reached) ← chain_down m old_root frames;
  r ← foldM (chain_up candidates) (Some (m, reached, [])) (reverse parents);
  match r with
  | Some (m, current, (_ :: _) as successful) => Ret (Some (m, current, successful))
  | _ => Ret None
  end.

(** Relink the ancestors above a replaced subtree. *)
Fixpoint relink_ancestors (m : memory) (ancestors : list (nat * Z)) (replacement_root : nat) : exec (option (memory * nat)) :=
  match ancestors with
  | [] => Ret (Some (m, replacement_root))
  | (ancestor, edge) :: ancestors =>
      n ← m !! ancestor;
      match try_with_child_replacements n [(edge, InMem replacement_root)] 1 with
      | Err _ => Ret None
      | Ok n => let '(m, a) := oarc_new m n in relink_ancestors m ancestors a
      end
  end.

(** The walk from [current]; [above] are the ancestors, nearest first. *)
Fixpoint chain_ancestor (m : memory) (above : list (nat * Z)) (current : nat) (frames : list ChainWalkFrame)
    (candidates : list SwizzledPtr) : exec (option (memory * nat * list nat)) :=
  match frames with
  | [] => Ret None
  | frame :: frames =>
      n ← m !! current;
      match find_child k n (cf_edge frame) ≫= as_in_mem with
      | None => Ret None
      | Some child =>
          let go_on := chain_ancestor m ((current, cf_edge frame) :: above) child frames candidates in
          match cf_selected frame with
          | None => go_on
          | Some candidate =>
              match candidates !! candidate with
              | None => Ret None
              | Some disk_ptr =>
                  e ← evictable m child disk_ptr;
                  if (e : bool) then
                    match try_with_child_replacements n [(cf_edge frame, OnDisk disk_ptr)] 1 with
                    | Err _ => Ret None
                    | Ok n =>
                        let '(m, a) := oarc_new m n in
                        r ← relink_ancestors m above a;
                        match r with
                        | None => Ret None
                        | Some (m, root) => Ret (Some (m, root, [candidate]))
                        end
                    end
                  else go_on
              end
          end
      end
  end.

Definition build_chain_ancestor_replacement_into (m : memory) (old_root : nat) (frames : list ChainWalkFrame)
    (candidates : list SwizzledPtr) : exec (option (memory * nat * list nat)) :=
  chain_ancestor m [] old_root frames candidates.

(** ** Reads are exact *)

Context (Hdisk : ∀ slot r, read_node slot = Ok r → record_ok k r).

Local Notation memory_ok := (memory_ok k read_node).
Local Notation look := (look k read_node).
Local Notation enter := (enter read_node).
Local Notation unwinds := (unwinds k read_node).

(** The answer [r] to a key that is [e] *)
Definition answer_ok (m : memory) (r : result (option nat) TrieError) (e : option (option (option V))) : Prop :=
  match r with
  | Ok (Some b) => ∃ n, m !! b = Some n ∧ onode_is_final n = true ∧ e = Some (Some (on_value n))
  | Ok None => default None e = None
  | Err _ => e = None
  end.

Lemma answer_ok_grow m l r e : answer_ok m r e → answer_ok (m ++ l) r e.
Proof using Type. destruct r as [[b|]|]; [|done..]. intros (n & Hn & ?). exists n. split; [by apply lookup_app_l_Some|done]. Qed.

Lemma answer_leaf m a n e :
  m !! a = Some n → e = Some (onode_entry n) → answer_ok m (Ok (if onode_is_final n then Some a else None)) e.
Proof using Type. intros Hn ->. unfold onode_entry. destruct (onode_is_final n) eqn:E; [|done]. by exists n. Qed.

Lemma find_edge_of m a n u : memory_ok m → m !! a = Some n → label_ok k u → find_child k n u = edge_of n u.
Proof using Type. intros Hm Ha Hu. by apply (find_child_get k n u a); [apply (memory_node k read_node m)|]. Qed.

Lemma walk_no_fault_find m a key : walk_no_fault m a key = find_leaf_iterative k m a key.
Proof using Type.
  revert a. induction key as [|u key IH]; intros a; cbn [walk_no_fault find_leaf_iterative]; [done|].
  destruct (m !! a) as [n|]; [|done]. cbn [mbind option_bind]. destruct (find_child k n u) as [c|]; [|done]. cbn [mbind option_bind].
  by destruct (as_in_mem c).
Qed.

Lemma walk_faulting_snapshot_spec m a t :
  memory_ok m → (a < length m)%nat → units_ok k t →
  ∃ l r, walk_faulting_snapshot m a t = Ret (m ++ l, r) ∧ memory_ok (m ++ l) ∧ answer_ok (m ++ l) r (look m (AtNode a) t).
Proof.
  revert m a. induction t as [|u t IH]; intros m a Hm Ha Hu; destruct (lookup_lt_is_Some_2 m a Ha) as [n Hn];
    cbn [walk_faulting_snapshot]; rewrite Hn; cbn [mbind option_bind].
  - exists []. eexists. rewrite app_nil_r. split_and!; [done..|]. eapply answer_leaf; [done|]. by rewrite (look_at _ _ _ _ _ _ Hn).
  - apply Forall_cons in Hu as [Hu Hus]. rewrite (find_edge_of m a n u) by done. rewrite (look_at _ _ _ _ _ _ Hn).
    destruct (edge_of n u) as [[b|p]|] eqn:E.
    + apply IH; [done| |done]. apply (oo_below k _ _ (memory_node _ _ _ _ _ Hm Hn) u) in E. lia.
    + destruct (is_null p) eqn:Hp; cbn [negb].
      { exists [], (Ok None). rewrite app_nil_r. split_and!; [done..|]. cbn. rewrite Hp. clear. by induction t. }
      pose proof (load_spec k read_node Hdisk m p Hm Hp) as Hload. destruct (load_overlay_node_from_disk k read_node m p) as [m' [b|e]].
      * destruct Hload as (l & nb & -> & Hm' & Hb & _ & Hlook). destruct (IH (m ++ l) b Hm') as (l' & r & -> & Hm2 & Hr); [by apply lookup_lt_Some in Hb|done|].
        exists (l ++ l'), r. rewrite app_assoc. split_and!; [done..|]. by rewrite <-Hlook.
      * destruct Hload as [-> Hb]. exists [], (Err e). rewrite app_nil_r. split_and!; [done..|]. rewrite Hb. clear. by induction t.
    + exists [], (Ok None). by rewrite app_nil_r.
Qed.

(** Replacing a child by a node that stands for the same changes nothing. *)
Lemma rebuild_same m spine pre orig cur n u c loaded :
  memory_ok m → m !! cur = Some n → label_ok k u → edge_of n u = Some c → (loaded < length m)%nat →
  (∀ t, look m (AtNode loaded) t = look m (enter c) t) →
  (∀ t, look m (AtNode cur) t = orig (pre ++ t)) → unwinds m orig spine pre →
  ∃ l a, rebuild k m spine (with_child k n u (InMem loaded)) = Ret (m ++ l, a) ∧ memory_ok (m ++ l) ∧ (a < length (m ++ l))%nat ∧
    ∀ t, look (m ++ l) (AtNode a) t = orig t.
Proof.
  intros Hm Hn Hu He Hloaded Hsame Hlook Hun. unfold rebuild. cbn [oarc_new].
  destruct (look_relink k read_node Hdisk m cur n u loaded Hm Hn Hu Hloaded) as (Hm1 & Hin1 & Hout1).
  destruct (Hun [with_child k n u (InMem loaded)] (length m) Hm1) as (l & a & E & Hm2 & Ha & Hin & Hout); [rewrite length_app; cbn; lia|].
  exists ([with_child k n u (InMem loaded)] ++ l), a. rewrite app_assoc. split_and!; [done..|]. intros t.
  destruct (decide (pre `prefix_of` t)) as [[t' ->]|Hp]; [|by apply Hout]. rewrite Hin, <-Hlook.
  destruct (decide (head t' = Some u)) as [Hh|Hh]; [|by apply Hout1]. destruct t' as [|x t']; [done|]. cbn in Hh. injection Hh as ->.
  by rewrite Hin1, Hsame, (look_at _ _ _ _ _ _ Hn), He.
Qed.

(** A decoded node stands for a record on the path of the key. *)
Definition decoded_ok (m : memory) (orig : list Z → option (option (option V))) (key : list Z) (d : DecodedFaultCache) : Prop :=
  (df_node d < length m)%nat ∧
  (∃ p, to_raw p = df_raw_pointer d ∧ ∀ t, look m (AtNode (df_node d)) t = look m (enter (OnDisk p)) t) ∧
  ∀ t, look m (AtNode (df_node d)) t = orig (take (S (df_key_depth d)) key ++ t).

Lemma decoded_ok_grow m l orig key d : memory_ok m → decoded_ok m orig key d → decoded_ok (m ++ l) orig key d.
Proof.
  intros Hm (Hd & (p & Hp & H1) & H2). split_and!; [rewrite length_app; lia| |].
  - exists p. split; [done|]. intros t. rewrite !look_grow; [apply H1|done..|by apply enter_disk_ok|done|done|done].
  - intros t. by rewrite look_grow.
Qed.

(** Loading, or taking the decoded node *)
Lemma fault_load m cache idx p orig key :
  memory_ok m → is_null p = false → (∀ d, cache = Some d → decoded_ok m orig key d) →
  ∃ l loaded,
    match cache with
    | Some cached =>
        if (df_key_depth cached =? idx)%nat && (df_raw_pointer cached =? to_raw p) then (m, Ok (df_node cached))
        else load_overlay_node_from_disk k read_node m p
    | None => load_overlay_node_from_disk k read_node m p
    end = (m ++ l, loaded) ∧ memory_ok (m ++ l) ∧
    match loaded with
    | Ok b => (b < length (m ++ l))%nat ∧ ∀ t, look (m ++ l) (AtNode b) t = look (m ++ l) (enter (OnDisk p)) t
    | Err _ => enter (OnDisk p) = Broken
    end.
Proof.
  intros Hm Hp Hcache.
  assert (∃ l loaded, load_overlay_node_from_disk k read_node m p = (m ++ l, loaded) ∧ memory_ok (m ++ l) ∧
    match loaded with
    | Ok b => (b < length (m ++ l))%nat ∧ ∀ t, look (m ++ l) (AtNode b) t = look (m ++ l) (enter (OnDisk p)) t
    | Err _ => enter (OnDisk p) = Broken
    end) as Hload.
  { pose proof (load_spec k read_node Hdisk m p Hm Hp) as H. destruct (load_overlay_node_from_disk k read_node m p) as [m' [b|e]].
    - destruct H as (l & n & -> & Hm' & Hb & _ & Hlook). exists l, (Ok b). split_and!; [done..|by apply lookup_lt_Some in Hb|].
      intros t. rewrite Hlook. symmetry. apply look_grow; [done|done|]. by apply enter_disk_ok.
    - destruct H as [-> Hb]. exists [], (Err e). by rewrite app_nil_r. }
  destruct cache as [d|]; [|exact Hload]. destruct (_ && _) eqn:Ed; [|exact Hload].
  apply andb_prop in Ed as [_ Hraw%Z.eqb_eq]. destruct (Hcache d eq_refl) as (Hd & (q & Hq & Hsame) & _).
  exists [], (Ok (df_node d)). rewrite app_nil_r. split_and!; [done..|]. intros t. rewrite Hsame.
  by rewrite (read_record_raw read_node q p) by congruence.
Qed.

Lemma fault_walk_spec m cache spine cur pre key orig :
  memory_ok m → (cur < length m)%nat → units_ok k key →
  (∀ t, look m (AtNode cur) t = orig (pre ++ t)) → unwinds m orig spine pre → length spine = length pre →
  (∀ d, cache = Some d → decoded_ok m orig (pre ++ key) d) →
  ∃ l a, fault_walk m cache spine cur key (length pre) (length (pre ++ key)) = Ret (m ++ l, a) ∧ memory_ok (m ++ l) ∧
    match a with
    | Answered found => answer_ok (m ++ l) (Ok found) (orig (pre ++ key))
    | LoadFailed e => answer_ok (m ++ l) (Err e) (orig (pre ++ key))
    | Faulted root d => (root < length (m ++ l))%nat ∧ (∀ t, look (m ++ l) (AtNode root) t = orig t) ∧ decoded_ok (m ++ l) orig (pre ++ key) d
    end.
Proof.
  revert spine cur pre. induction key as [|u key IH]; intros spine cur pre Hm Hcur Hu Hlook Hun Hlen Hcache;
    destruct (lookup_lt_is_Some_2 m cur Hcur) as [n Hn]; cbn [fault_walk]; rewrite Hn; cbn [mbind option_bind].
  { exists []. eexists. rewrite app_nil_r. split_and!; [done..|]. eapply answer_leaf; [done|]. by rewrite <-Hlook, (look_at _ _ _ _ _ _ Hn). }
  apply Forall_cons in Hu as [Hu Hus]. rewrite (find_edge_of m cur n u) by done. destruct (edge_of n u) as [[b|p]|] eqn:E.
  - unfold try_push_spine. rewrite (proj2 (Nat.leb_gt (length (pre ++ u :: key)) (length spine))), andb_false_r by (rewrite length_app, Hlen; cbn; lia).
    cbn [mbind option_bind].
    replace (S (length pre)) with (length (pre ++ [u])) by (rewrite length_app; cbn; lia).
    replace (pre ++ u :: key) with ((pre ++ [u]) ++ key) in * by (by rewrite <-app_assoc). apply IH; try done.
    + apply (oo_below k _ _ (memory_node _ _ _ _ _ Hm Hn) u) in E. lia.
    + intros t. rewrite <-app_assoc, <-Hlook, (look_at _ _ _ _ _ _ Hn). cbn [app]. by rewrite E.
    + by eapply unwinds_snoc.
    + rewrite !length_app. cbn. lia.
  - destruct (is_null p) eqn:Hp; cbn [negb].
    { exists [], (Answered None). rewrite app_nil_r. split_and!; [done..|]. cbn. rewrite <-Hlook, (look_at _ _ _ _ _ _ Hn), E. cbn.
      rewrite Hp. clear. by induction key. }
    destruct (fault_load m cache (length pre) p orig (pre ++ u :: key) Hm Hp Hcache) as (l & loaded & -> & Hm' & Hl).
    destruct loaded as [b|e].
    + destruct Hl as (Hb & Hsame). assert ((m ++ l) !! cur = Some n) as Hn' by by apply lookup_app_l_Some.
      destruct (rebuild_same (m ++ l) spine pre orig cur n u (OnDisk p) b) as (l2 & root & -> & Hm2 & Hroot & Hsame2); try done.
      { intros t. by rewrite look_grow. }
      { by apply unwinds_grow. }
      exists (l ++ l2), (Faulted root (mkDecoded (length pre) (to_raw p) b)). cbn [mbind option_bind]. rewrite app_assoc. split_and!; [done..|].
      apply decoded_ok_grow; [done|]. split_and!; [done|by exists p|]. intros t. cbn [df_node df_key_depth].
      rewrite Hsame, look_grow by (done || by apply enter_disk_ok).
      replace (take (S (length pre)) (pre ++ u :: key)) with (pre ++ [u]); [rewrite <-app_assoc, <-Hlook, (look_at _ _ _ _ _ _ Hn); cbn [app]; by rewrite E|].
      rewrite take_app, take_ge by lia. replace (S (length pre) - length pre)%nat with 1%nat by lia. done.
    + exists l, (LoadFailed e). split_and!; [done..|]. cbn. rewrite <-Hlook, (look_at _ _ _ _ _ _ Hn), E, Hl. clear. by induction key.
  - exists [], (Answered None). rewrite app_nil_r. split_and!; [done..|]. cbn. by rewrite <-Hlook, (look_at _ _ _ _ _ _ Hn), E.
Qed.

Lemma fault_retries_spec lands fuel attempt m root cache key orig :
  memory_ok m → (root < length m)%nat → units_ok k key → (∀ t, look m (AtNode root) t = orig t) →
  (∀ d, cache = Some d → decoded_ok m orig key d) → (fuel = 0%nat → is_Some cache) →
  ∃ l root' r, fault_retries lands fuel attempt m root cache key = Ret (m ++ l, root', r) ∧ memory_ok (m ++ l) ∧
    (root' < length (m ++ l))%nat ∧ (∀ t, look (m ++ l) (AtNode root') t = orig t) ∧ answer_ok (m ++ l) r (orig key).
Proof.
  revert attempt m root cache. induction fuel as [|fuel IH]; intros attempt m root cache Hm Hroot Hu Hlook Hcache Hsome; cbn [fault_retries].
  - rewrite walk_no_fault_find. destruct (find_leaf_spec k read_node m root key Hm Hroot Hu) as ([b|] & -> & Hb); cbn [mbind option_bind].
    + exists [], root, (Ok (Some b)). rewrite app_nil_r. split_and!; [done..|]. by rewrite <-Hlook.
    + destruct Hsome as [d ->]; [done|]. destruct (Hcache d eq_refl) as (Hd & _ & Hlookd).
      destruct (walk_faulting_snapshot_spec m (df_node d) (drop (S (df_key_depth d)) key) Hm Hd) as (l & r & -> & Hm' & Hr); [by apply Forall_drop|].
      exists l, root, r. split_and!; [done..|rewrite length_app; lia| |by rewrite Hlookd, take_drop in Hr]. intros t. by rewrite look_grow.
  - destruct (fault_walk_spec m cache [] root [] key orig Hm Hroot Hu Hlook (unwinds_nil _ _ _ _) eq_refl Hcache) as (l & a & E & Hm' & Ha).
    cbn [length app] in E, Ha. rewrite E. cbn [mbind option_bind].
    assert (∀ t, look (m ++ l) (AtNode root) t = orig t) as Hlook' by (intros t; by rewrite look_grow).
    assert (root < length (m ++ l))%nat as Hroot' by (rewrite length_app; lia).
    destruct a as [found|e|new_root d].
    + by exists l, root, (Ok found).
    + by exists l, root, (Err e).
    + destruct Ha as (Hnew & Hlooknew & Hd). destruct (IH (S attempt) (m ++ l) (if lands attempt then new_root else root) (Some d)) as (l' & root' & r & -> & H);
        [done|by destruct (lands attempt)|done|by destruct (lands attempt)|by intros ? [= <-]|done|].
      exists (l ++ l'), root', r. by rewrite app_assoc.
Qed.

(** ** Eviction changes nothing *)

Lemma replace_same m a n u c c' n' :
  memory_ok m → m !! a = Some n → edge_of n u = Some c → try_with_child_replacements n [(u, c')] 1 = Ok n' →
  (∀ b, c' = InMem b → (b < length m)%nat) → (∀ t, look m (enter c') t = look m (enter c) t) →
  memory_ok (m ++ [n']) ∧ ∀ t, look (m ++ [n']) (AtNode (length m)) t = look m (AtNode a) t.
Proof.
  intros Hm Ha Hc E Hb Hsame. assert (onode_ok k (length m) n) as Hn.
  { eapply onode_ok_mono; [|by apply (memory_node k read_node m)]. apply lookup_lt_Some in Ha. lia. }
  destruct (try_with_child_replacements_spec k (length m) n [(u, c')] 1 n' Hn) as (Hn' & He & H0 & Hget); [|done|].
  { intros l b [= -> Heq]%list_elem_of_singleton. by apply Hb. }
  split; [by apply memory_ok_snoc|]. intros t. rewrite look_new, (look_at _ _ _ _ _ _ Ha) by done. destruct t as [|x t]; [by rewrite He|].
  unfold edge_of. rewrite Hget. cbn. destruct (Z.eqb_spec x u) as [->|]; [|done].
  unfold edge_of in Hc. by rewrite Hc.
Qed.

(** A node with the stamp of a record stands for it. *)
Lemma evictable_spec m a p :
  memory_ok m → (a < length m)%nat →
  ∃ b, evictable m a p = Ret b ∧ (b = true → ∀ t, look m (enter (OnDisk p)) t = look m (AtNode a) t).
Proof using Type.
  intros Hm Ha. destruct (lookup_lt_is_Some_2 m a Ha) as [n Hn]. unfold evictable. rewrite Hn. cbn [mbind option_bind].
  eexists. split; [done|]. intros [Hloc%bool_decide_eq_true Hs%Z.eqb_eq]%andb_prop t. symmetry.
  apply (Hm a n Hn); [|done]. rewrite Hs. intros H0. destruct Hloc as [loc Hloc]. unfold disk_location, is_null in Hloc. unfold to_raw in H0.
  by rewrite H0 in Hloc.
Qed.

(** The nodes a walk down passes *)
Fixpoint chain_path (m : memory) (root : nat) (parents : list (nat * ChainWalkFrame)) (reached : nat) : Prop :=
  match parents with
  | [] => reached = root
  | (p, f) :: parents =>
      p = root ∧ ∃ n child, m !! root = Some n ∧ edge_of n (cf_edge f) = Some (InMem child) ∧ chain_path m child parents reached
  end.

Definition frames_ok (frames : list ChainWalkFrame) : Prop := Forall (λ f, label_ok k (cf_edge f)) frames.

Lemma edge_below m a n u b : memory_ok m → m !! a = Some n → edge_of n u = Some (InMem b) → (b < length m)%nat.
Proof using Type. intros Hm Ha E. apply (oo_below k _ _ (memory_node _ _ _ _ _ Hm Ha) u) in E. apply lookup_lt_Some in Ha. lia. Qed.

Lemma chain_step m a n u :
  memory_ok m → m !! a = Some n → label_ok k u →
  (find_child k n u ≫= as_in_mem) = match edge_of n u with Some (InMem b) => Some b | _ => None end.
Proof using Type. intros Hm Ha Hu. rewrite (find_edge_of m a n u) by done. by destruct (edge_of n u) as [[]|]. Qed.

Lemma chain_down_spec m root frames :
  memory_ok m → (root < length m)%nat → frames_ok frames →
  ∃ parents reached, chain_down m root frames = Ret (parents, reached) ∧ chain_path m root parents reached ∧ (reached < length m)%nat.
Proof using Type.
  intros Hm. revert root. induction frames as [|f frames IH]; intros root Hroot Hf; cbn [chain_down]; [by exists [], root|].
  apply Forall_cons in Hf as [Hf Hfs]. destruct (lookup_lt_is_Some_2 m root Hroot) as [n Hn]. rewrite Hn. cbn [mbind option_bind].
  rewrite (chain_step m root n) by done. destruct (edge_of n (cf_edge f)) as [[b|]|] eqn:E; [|by exists [], root..].
  destruct (IH b) as (parents & reached & -> & Hp & Hr); [by eapply edge_below|done|].
  exists ((root, f) :: parents), reached. split_and!; [done..| |done]. split; [done|]. by exists n, b.
Qed.

(** A node [cur] made above [m] that stands for what [a] does *)
Definition stands (m l : memory) (cur a : nat) : Prop :=
  memory_ok (m ++ l) ∧ (cur < length (m ++ l))%nat ∧ ∀ t, look (m ++ l) (AtNode cur) t = look m (AtNode a) t.

(** Relinking a parent to a child that stands for its old one *)
Lemma stands_parent m l p n u child c' n' :
  memory_ok m → memory_ok (m ++ l) → m !! p = Some n → edge_of n u = Some (InMem child) →
  try_with_child_replacements n [(u, c')] 1 = Ok n' → (∀ b, c' = InMem b → (b < length (m ++ l))%nat) →
  (∀ t, look (m ++ l) (enter c') t = look m (AtNode child) t) →
  stands m (l ++ [n']) (length (m ++ l)) p.
Proof.
  intros Hm Hml Hp E Hn' Hb Hsame. unfold stands. rewrite app_assoc. assert ((m ++ l) !! p = Some n) as Hp' by by apply lookup_app_l_Some.
  destruct (replace_same (m ++ l) p n u (InMem child) c' n' Hml Hp' E Hn' Hb) as [H1 H2].
  { intros t. rewrite Hsame. symmetry. apply look_grow; [done|done|]. by eapply edge_below. }
  split_and!; [done|rewrite (length_app (m ++ l)); cbn; lia|]. intros t. rewrite H2. apply look_grow; [done|done|]. by apply lookup_lt_Some in Hp.
Qed.

Lemma chain_up_spec m candidates l cur successful p f n child :
  memory_ok m → m !! p = Some n → edge_of n (cf_edge f) = Some (InMem child) → stands m l cur child →
  ∃ r, chain_up candidates (Some (m ++ l, cur, successful)) (p, f) = Ret r ∧
    match r with None => True | Some (m', cur', _) => ∃ l', m' = m ++ l' ∧ stands m l' cur' p end.
Proof.
  intros Hm Hp E (Hml & Hcur & Hlook).
  assert (∀ c' (succ : list nat), (∀ b, c' = InMem b → (b < length (m ++ l))%nat) → (∀ t, look (m ++ l) (enter c') t = look m (AtNode child) t) →
    ∃ r, (n ← (m ++ l) !! p;
          match try_with_child_replacements n [(cf_edge f, c')] 1 with
          | Err _ => Ret None
          | Ok n => let '(m, a) := oarc_new (m ++ l) n in Ret (Some (m, a, succ))
          end) = Ret r ∧
      match r with None => True | Some (m', cur', _) => ∃ l', m' = m ++ l' ∧ stands m l' cur' p end) as Hrelink.
  { intros c' succ Hb Hsame. rewrite (lookup_app_l_Some _ _ _ _ Hp). cbn [mbind option_bind oarc_new].
    destruct (try_with_child_replacements n _ 1) as [n'|] eqn:En; [|by exists None]. eexists. split; [done|]. exists (l ++ [n']).
    split; [by rewrite app_assoc|]. by eapply stands_parent. }
  cbn [chain_up]. destruct successful as [|s successful]; [|apply Hrelink; [by intros ? [= <-]|done]].
  assert (stands m l p p) as Hstay.
  { apply lookup_lt_Some in Hp. split_and!; [done|rewrite length_app; lia|]. intros t. by apply look_grow. }
  destruct (cf_selected f) as [cand|]; [|eexists; split; [done|by exists l]].
  destruct (candidates !! cand) as [q|]; [|by exists None].
  destruct (evictable_spec (m ++ l) cur q Hml Hcur) as ([] & -> & Hev); cbn [mbind option_bind].
  - apply Hrelink; [done|]. intros t. rewrite Hev by done. apply Hlook.
  - eexists. split; [done|]. by exists l.
Qed.

Lemma chain_fold_spec m candidates root parents reached :
  memory_ok m → (reached < length m)%nat → chain_path m root parents reached →
  ∃ r, foldM (chain_up candidates) (Some (m, reached, [])) (reverse parents) = Ret r ∧
    match r with None => True | Some (m', cur, _) => ∃ l, m' = m ++ l ∧ stands m l cur root end.
Proof.
  intros Hm Hr. revert root. induction parents as [|[p f] parents IH]; intros root Hpath; cbn [chain_path] in Hpath.
  { subst. eexists. split; [done|]. exists []. unfold stands. by rewrite app_nil_r. }
  destruct Hpath as (-> & n & child & Hn & E & Hpath). destruct (IH child Hpath) as (r & Er & Hr'). rewrite reverse_cons, foldM_app, Er.
  cbn [mbind option_bind foldM]. destruct r as [[[m' cur] succ]|]; [|by exists None]. destruct Hr' as (l & -> & Hst).
  destruct (chain_up_spec m candidates l cur succ root f n child) as (r & -> & Hres); try done. by exists r.
Qed.

Lemma build_chain_spec m root frames candidates :
  memory_ok m → (root < length m)%nat → frames_ok frames →
  ∃ r, build_chain_replacement_into m root frames candidates = Ret r ∧
    match r with None => True | Some (m', root', _) => ∃ l, m' = m ++ l ∧ stands m l root' root end.
Proof.
  intros Hm Hroot Hf. unfold build_chain_replacement_into. destruct (chain_down_spec m root frames Hm Hroot Hf) as (parents & reached & -> & Hp & Hr).
  cbn [mbind option_bind]. destruct (chain_fold_spec m candidates root parents reached Hm Hr Hp) as (r & -> & H). cbn [mbind option_bind].
  destruct r as [[[m' cur] [|s succ]]|]; (eexists; split; [done|done]).
Qed.

(** The ancestors of a node, nearest first *)
Fixpoint above_ok (m : memory) (above : list (nat * Z)) (a root : nat) : Prop :=
  match above with
  | [] => a = root
  | (p, u) :: above => ∃ n, m !! p = Some n ∧ edge_of n u = Some (InMem a) ∧ above_ok m above p root
  end.

Lemma relink_ancestors_spec m above a root l b :
  memory_ok m → above_ok m above a root → stands m l b a →
  ∃ r, relink_ancestors (m ++ l) above b = Ret r ∧
    match r with None => True | Some (m', root') => ∃ l', m' = m ++ l' ∧ stands m l' root' root end.
Proof.
  intros Hm. revert a l b. induction above as [|[p u] above IH]; intros a l b Hab Hst; cbn [above_ok] in Hab; cbn [relink_ancestors].
  { subst. eexists. split; [done|]. by exists l. }
  destruct Hab as (n & Hn & E & Hab). rewrite (lookup_app_l_Some _ _ _ _ Hn). cbn [mbind option_bind oarc_new].
  destruct (try_with_child_replacements n _ 1) as [n'|] eqn:En; [|by exists None]. rewrite <-app_assoc.
  apply (IH p); [done|]. destruct Hst as (Hml & Hb & Hlook). eapply stands_parent; try done. by intros ? [= <-].
Qed.

Lemma chain_ancestor_spec m above current root frames candidates :
  memory_ok m → (current < length m)%nat → frames_ok frames → above_ok m above current root →
  ∃ r, chain_ancestor m above current frames candidates = Ret r ∧
    match r with None => True | Some (m', root', _) => ∃ l, m' = m ++ l ∧ stands m l root' root end.
Proof.
  intros Hm. revert above current. induction frames as [|f frames IH]; intros above current Hc Hf Hab; cbn [chain_ancestor]; [by exists None|].
  apply Forall_cons in Hf as [Hf Hfs]. destruct (lookup_lt_is_Some_2 m current Hc) as [n Hn]. rewrite Hn. cbn [mbind option_bind].
  rewrite (chain_step m current n) by done. destruct (edge_of n (cf_edge f)) as [[b|]|] eqn:E; [|by exists None..].
  assert (b < length m)%nat as Hb by by eapply edge_below.
  assert (above_ok m ((current, cf_edge f) :: above) b root) as Hab' by (by exists n).
  destruct (cf_selected f) as [cand|]; [|by apply IH]. destruct (candidates !! cand) as [q|]; [|by exists None].
  destruct (evictable_spec m b q Hm Hb) as ([] & -> & Hev); cbn [mbind option_bind]; [|by apply IH].
  destruct (try_with_child_replacements n _ 1) as [n'|] eqn:En; [|by exists None]. cbn [oarc_new].
  destruct (relink_ancestors_spec m above current root [n'] (length m) Hm Hab) as (r & -> & Hr).
  { pose proof (stands_parent m [] current n (cf_edge f) b (OnDisk q) n') as Hst. rewrite !app_nil_r in Hst. apply Hst; try done. by apply Hev. }
  cbn [mbind option_bind]. destruct r as [[m' root']|]; [|by exists None]. eexists. split; [done|done].
Qed.

(** ** Evict, then read *)

(** The two ways a chain is evicted *)
Inductive chain_builder : Set := LeafFirst | NearestAncestor.

Definition evict_chain (b : chain_builder) (m : memory) (root : nat) (frames : list ChainWalkFrame) (candidates : list SwizzledPtr) :
    exec (option (memory * nat * list nat)) :=
  match b with
  | LeafFirst => build_chain_replacement_into m root frames candidates
  | NearestAncestor => build_chain_ancestor_replacement_into m root frames candidates
  end.

Lemma evict_chain_spec b m root frames candidates :
  memory_ok m → (root < length m)%nat → frames_ok frames →
  ∃ r, evict_chain b m root frames candidates = Ret r ∧
    match r with None => True | Some (m', root', _) => ∃ l, m' = m ++ l ∧ stands m l root' root end.
Proof. destruct b; [by apply build_chain_spec|]. intros. by apply chain_ancestor_spec. Qed.

(** C16: reads of an evicted overlay are exact.  Eviction of a chain of nodes never
    panics, and the tree it makes has every key the
    old one has, with the same value, and none besides.  A faulting read of it,
    whichever of its publications land, answers what the old tree holds for the key (an
    error only when a record on the key's path cannot be read), and leaves a published
    tree that still has the same keys and values. *)
Theorem evicted_reads_exact b m root frames candidates lands key retries :
  memory_ok m → (root < length m)%nat → frames_ok frames → units_ok k key →
  ∃ r, evict_chain b m root frames candidates = Ret r ∧
    match r with
    | None => True
    | Some (m1, root1, _) =>
        memory_ok m1 ∧ (∀ t, look m1 (AtNode root1) t = look m (AtNode root) t) ∧
        ∃ m2 root2 answer, find_leaf_faulting lands m1 root1 key retries = Ret (m2, root2, answer) ∧
          memory_ok m2 ∧ (∀ t, look m2 (AtNode root2) t = look m (AtNode root) t) ∧
          answer_ok m2 answer (look m (AtNode root) key)
    end.
Proof.
  intros Hm Hroot Hf Hkey. destruct (evict_chain_spec b m root frames candidates Hm Hroot Hf) as (r & -> & Hr). exists r. split; [done|].
  destruct r as [[[m1 root1] succ]|]; [|done]. destruct Hr as (l & -> & Hml & Hr1 & Hlook). split; [done|]. split; [done|].
  destruct (fault_retries_spec lands (S retries) 0 (m ++ l) root1 None key (look m (AtNode root)))
    as (l' & root2 & answer & E & Hm2 & _ & Hlook2 & Ha); try done.
  by exists ((m ++ l) ++ l'), root2, answer.
Qed.

End fault.

(** ** A small overlay with a durable child *)

Definition demo_read (slot : ArenaSlot) : result (disk_node Z) TrieError := Ok (mkDiskNode Z true (Some 7) [] []).
Definition demo_ptr : SwizzledPtr := on_disk 3 5 TNode4.

(** The child as loaded, under the root's edge 98 *)
Definition demo_memory : list (OverlayNode Z) :=
  let '(m, _) := load_overlay_node_from_disk U8 demo_read [] demo_ptr in
  m ++ [with_child U8 OverlayNode_new 98 (InMem 0)].

Lemma demo_disk slot r : demo_read slot = Ok r → record_ok U8 r.
Proof. intros [= <-]. split; [by constructor|]. split; [by constructor|done]. Qed.

Lemma demo_memory_ok : memory_ok U8 demo_read demo_memory.
Proof.
  unfold demo_memory. pose proof (load_spec U8 demo_read demo_disk [] demo_ptr) as H.
  destruct (load_overlay_node_from_disk U8 demo_read [] demo_ptr) as [m [a|]] eqn:E; [|by vm_compute in E].
  destruct H as (l & n & -> & Hm & Ha & _); [intros i n Hi; by rewrite lookup_nil in Hi|by vm_compute|]. cbn [app] in *.
  assert (length l = 1%nat) as Hlen by (by vm_compute in E; injection E as <- _).
  apply memory_ok_snoc; [by apply demo_disk|done| |done].
  apply with_child_spec; [apply OverlayNode_new_ok|by vm_compute|]. intros b [= <-]. lia.
Qed.

Lemma evicted_reads_exact_witness :
  ∃ r, evict_chain U8 NearestAncestor demo_memory 1 [mkChainFrame 98 (Some 0%nat)] [demo_ptr] = Ret r ∧ is_Some r ∧
    match r with
    | None => True
    | Some (m1, root1, _) =>
        memory_ok U8 demo_read m1 ∧ (∀ t, look U8 demo_read m1 (AtNode root1) t = look U8 demo_read demo_memory (AtNode 1) t) ∧
        ∃ m2 root2 answer, find_leaf_faulting U8 demo_read (λ _, true) m1 root1 [98] 2 = Ret (m2, root2, answer) ∧
          memory_ok U8 demo_read m2 ∧ (∀ t, look U8 demo_read m2 (AtNode root2) t = look U8 demo_read demo_memory (AtNode 1) t) ∧
          answer_ok m2 answer (look U8 demo_read demo_memory (AtNode 1) [98])
    end.
Proof.
  destruct (evicted_reads_exact U8 demo_read demo_disk NearestAncestor demo_memory 1 [mkChainFrame 98 (Some 0%nat)] [demo_ptr] (λ _, true) [98] 2)
    as (r & E & H).
  - apply demo_memory_ok.
  - vm_compute. lia.
  - constructor; [by vm_compute|constructor].
  - constructor; [by vm_compute|constructor].
  - exists r. split; [exact E|]. split; [|exact H]. vm_compute in E. injection E as <-. by eexists.
Defined.
