(* ===== verification/CounterCodec.v ===== *)
(** * Counter leaves

    The arithmetic substrate of the counters of the persistent tries
    (src/src/persistent_artrie/core/counter_codec.rs): a leaf is 8 little-endian bytes,
    read into a wide integer by the counter's type and written back with that type's
    range check.

    A value of the trie goes through [bincode], which is a library: [serialize] and
    [deserialize] are arguments, and [bincode_fixint] is what the code relies on, the
    fixed-width little-endian layout of the legacy configuration. *)

From stdpp Require Import prelude.
From S2P Require Import Prelude Bytes.
Local Open Scope Z_scope.
Local Open Scope list_scope.

(** The types a trie's values may have, as far as counters distinguish them *)
Inductive counter_type : Set := CounterU64 | CounterI64 | NotACounter.

Definition counter_leaf_to_i128 (ty : counter_type) (le_bytes : list Z) : option Z :=
  if negb (length le_bytes =? 8)%nat then None
  else match ty with
       | CounterU64 => Some (from_le_bytes le_bytes)
       | CounterI64 => Some (i64 (from_le_bytes le_bytes))
       | NotACounter => None
       end.

Definition i128_to_counter_leaf (ty : counter_type) (n : Z) : option (list Z) :=
  match ty with
  | CounterU64 => if (n <? 0) || (2 ^ 64 - 1 <? n) then None else Some (to_le_bytes 8 n)
  | CounterI64 => if (n <? - 2 ^ 63) || (2 ^ 63 - 1 <? n) then None else Some (to_le_bytes 8 n)
  | NotACounter => None
  end.

Definition counter_return_i64 (n : Z) : Z := i64 n.

(** The loop of [split_u64_delta_to_i64_chunks] *)
Fixpoint split_chunks (fuel : nat) (remaining : Z) : list Z :=
  match fuel with
  | O => []
  | S fuel =>
      if 0 <? remaining then
        let take := Z.min remaining (2 ^ 63 - 1) in
        take :: split_chunks fuel (remaining - take)
      else []
  end.

(** A third round empties every [u64]: [split_chunks_sum]. *)
Definition split_u64_delta_to_i64_chunks (delta : Z) : list Z := if delta =? 0 then [0] else split_chunks 3 delta.

(** The values of a counter type *)
Definition counter_range (ty : counter_type) (n : Z) : Prop :=
  match ty with CounterU64 => 0 ≤ n < 2 ^ 64 | CounterI64 => - 2 ^ 63 ≤ n < 2 ^ 63 | NotACounter => False end.

#[export] Instance counter_range_dec ty n : Decision (counter_range ty n).
Proof. destruct ty; cbn; apply _. Defined.

Lemma split_chunks_sum delta :
  0 ≤ delta < 2 ^ 64 →
  let chunks := split_u64_delta_to_i64_chunks delta in
  foldr Z.add 0 chunks = delta ∧ Forall (λ c, 0 ≤ c < 2 ^ 63) chunks ∧ (length chunks ≤ 3)%nat.
Proof.
  intros Hd chunks. unfold chunks, split_u64_delta_to_i64_chunks. destruct (Z.eqb_spec delta 0) as [->|H0].
  { split; [done|]. split; [repeat constructor; lia|cbn; lia]. }
  cbn [split_chunks].
  repeat match goal with |- context [0 <? ?r] => destruct (Z.ltb_spec 0 r) end;
    (split; [cbn [foldr]; lia|]; split; [repeat constructor; lia|cbn [length]; lia]).
Qed.

Lemma i64_in_range n : - 2 ^ 63 ≤ n < 2 ^ 63 → i64 (n mod 2 ^ 64) = n.
Proof. intros Hn. unfold i64. rewrite Zplus_mod_idemp_l, Z.mod_small; lia. Qed.

Lemma i64_back n : 0 ≤ n < 2 ^ 64 → i64 n mod 2 ^ 64 = n.
Proof. intros Hn. unfold i64. rewrite Zminus_mod_idemp_l. replace (n + 2 ^ 63 - 2 ^ 63) with n by lia. by apply Z.mod_small. Qed.

Lemma counter_leaf_roundtrip ty n :
  counter_range ty n → ∃ leaf, i128_to_counter_leaf ty n = Some leaf ∧ leaf = to_le_bytes 8 n ∧ counter_leaf_to_i128 ty leaf = Some n.
Proof.
  intros Hn. exists (to_le_bytes 8 n). unfold counter_leaf_to_i128. rewrite length_to_le_bytes. cbn [negb Nat.eqb].
  rewrite from_to_le_bytes. change (2 ^ (8 * Z.of_nat 8)) with (2 ^ 64). destruct ty; [| |done]; unfold i128_to_counter_leaf; cbn [counter_range] in Hn.
  - rewrite (proj2 (Z.ltb_ge n 0)), (proj2 (Z.ltb_ge (2 ^ 64 - 1) n)) by lia. by rewrite Z.mod_small.
  - rewrite (proj2 (Z.ltb_ge n (- 2 ^ 63))), (proj2 (Z.ltb_ge (2 ^ 63 - 1) n)) by lia. split_and!; [done..|]. f_equal. by apply i64_in_range.
Qed.

Lemma counter_leaf_out_of_range ty n : ¬ counter_range ty n → i128_to_counter_leaf ty n = None.
Proof.
  intros Hn. destruct ty; cbn in Hn |- *; [| |done].
  - destruct (Z.ltb_spec n 0), (Z.ltb_spec (2 ^ 64 - 1) n); try done. exfalso. lia.
  - destruct (Z.ltb_spec n (- 2 ^ 63)), (Z.ltb_spec (2 ^ 63 - 1) n); try done. exfalso. lia.
Qed.

(** ** Typed values *)

Section typed.
Context (ty : counter_type) (serialize : Z → option (list Z)) (deserialize : list Z → option Z).

Definition counter_value_to_i128 (value : Z) : option Z :=
  bytes ← serialize value;
  counter_leaf_to_i128 ty bytes.

Definition i128_to_counter_value (n : Z) : option Z :=
  bytes ← i128_to_counter_leaf ty n;
  deserialize bytes.

(** What the code relies on of [bincode]'s legacy configuration *)
Definition bincode_fixint : Prop :=
  ∀ v, counter_range ty v → serialize v = Some (to_le_bytes 8 v) ∧ deserialize (to_le_bytes 8 v) = Some v.

Lemma counter_value_exact v : bincode_fixint → counter_range ty v → counter_value_to_i128 v = Some v.
Proof.
  intros Hb Hv. unfold counter_value_to_i128. destruct (Hb v Hv) as [-> _]. cbn.
  by destruct (counter_leaf_roundtrip ty v Hv) as (leaf & _ & -> & E).
Qed.

Lemma i128_to_counter_value_exact n : bincode_fixint → i128_to_counter_value n = if decide (counter_range ty n) then Some n else None.
Proof.
  intros Hb. unfold i128_to_counter_value. case_decide as Hn.
  - destruct (counter_leaf_roundtrip ty n Hn) as (leaf & -> & -> & _). cbn. by apply Hb.
  - by rewrite counter_leaf_out_of_range.
Qed.
End typed.

(** C38: a counter's increment is exact at full width, for signed and unsigned counters
    alike: the sum of a stored value and a delta is computed without wrapping, and is
    stored exactly when it is a value of the type; a delta split for the log is at most
    three non-negative [i64]s that sum to it; and the [i64] returned to the caller gives
    the unsigned count back. *)
Theorem counter_increment_exact ty serialize deserialize v delta :
  bincode_fixint ty serialize deserialize → counter_range ty v → - 2 ^ 63 ≤ delta < 2 ^ 64 →
  (counter_value_to_i128 ty serialize v ≫= λ n, i128_to_counter_value ty deserialize (n + delta)) =
    (if decide (counter_range ty (v + delta)) then Some (v + delta) else None) ∧
  (0 ≤ delta → let chunks := split_u64_delta_to_i64_chunks delta in
     foldr Z.add 0 chunks = delta ∧ Forall (λ c, 0 ≤ c < 2 ^ 63) chunks ∧ (length chunks ≤ 3)%nat) ∧
  (ty = CounterU64 → counter_return_i64 v mod 2 ^ 64 = v).
Proof.
  intros Hb Hv Hd. split; [|split].
  - rewrite (counter_value_exact ty serialize deserialize) by done. cbn. by apply (i128_to_counter_value_exact ty serialize).
  - intros H0. apply split_chunks_sum. lia.
  - intros ->. by apply i64_back.
Qed.

Lemma counter_increment_exact_witness :
  (counter_value_to_i128 CounterU64 (λ v, Some (to_le_bytes 8 v)) (2 ^ 63 + 9) ≫=
     λ n, i128_to_counter_value CounterU64 (λ bs, Some (from_le_bytes bs)) (n + 5)) = Some (2 ^ 63 + 14).
Proof.
  apply (counter_increment_exact CounterU64 (λ v, Some (to_le_bytes 8 v)) (λ bs, Some (from_le_bytes bs)) (2 ^ 63 + 9) 5).
  - intros v Hv. split; [done|]. rewrite from_to_le_bytes. f_equal. apply Z.mod_small. exact Hv.
  - cbn. lia.
  - lia.
Defined.
