(* ===== verification/OverlayReplay.v ===== *)
(** * Replaying a log into the overlay

    What a reopen does with the write-ahead log of a byte trie of [u64] values: the
    publishers that write no log ([insert_cas], [overlay_remove_no_wal] of
    src/src/persistent_artrie/lockfree_cas.rs, [overlay_publish_value] of
    src/src/persistent_artrie/overlay_write_mode.rs, the root publishers of
    src/src/persistent_artrie/core/overlay/flip.rs), the application of one recovered
    operation and the drain of the log's segments.

    A reopen is single-threaded, so every compare-and-swap of the root lands and a
    publisher is one step.  [read_node] gives the records of the data file; whether a
    read that loads an evicted node publishes it depends on the registry of evictable
    nodes, so [lands] is an argument; a trie's value goes through [bincode]'s
    [serialize] and [deserialize]. *)

From stdpp Require Import prelude gmap sorting.
From S2P Require Import Prelude Bytes SwizzledPtr WalCodec WalHeader WalFrame Reconcile Recovery Rebuild EdgeStore OverlayNode OverlayWalk OverlayFault CounterCodec.
Local Open Scope Z_scope.
Local Open Scope list_scope.

(** The published root with its term count, and the positive lookup cache *)
Record overlay := mkLive {
  ov_mem : list (OverlayNode Z);
  ov_root : nat;
  ov_count : Z;
  ov_cache : gset (list Z);
}.

Definition with_mem (o : overlay) (m : list (OverlayNode Z)) : overlay := mkLive m (ov_root o) (ov_count o) (ov_cache o).
Definition cache_insert (o : overlay) (t : list Z) : overlay := mkLive (ov_mem o) (ov_root o) (ov_count o) ({[t]} ∪ ov_cache o).
Definition cache_remove (o : overlay) (t : list Z) : overlay := mkLive (ov_mem o) (ov_root o) (ov_count o) (ov_cache o ∖ {[t]}).

(** [compare_exchange_revision_counted] on an unchanged root: the count must stay a
    [usize]. *)
Definition publish_counted (o : overlay) (m : list (OverlayNode Z)) (new : nat) (term_count_delta : Z) : exec overlay :=
  let term_count := ov_count o + term_count_delta in
  if (0 <=? term_count) && (term_count <? 2 ^ 64) then Ret (mkLive m new term_count (ov_cache o)) else Panic.

(** How an attempt on a path ends; conflicts do not happen here. *)
Inductive path_result : Set := PathApplied | PathIdempotent | PathIoError.

Section replay.
Context (read_node : ArenaSlot → result (disk_node Z) TrieError) (lands : nat → bool).
Context (value_serialize : Z → option (list Z)) (value_deserialize : list Z → option Z).

(** ** Publishers without a log *)

Definition try_insert_lockfree_path_durable (o : overlay) (term : list Z) : exec (overlay * path_result) :=
  '(m, r) ← build_final_path_iterative U8 read_node (ov_mem o) (ov_root o) term 0;
  match r with
  | Ok new_root => o ← publish_counted o m new_root 1; Ret (o, PathApplied)
  | Err BAlreadyExists => Ret (with_mem o m, PathIdempotent)
  | Err (BFailure _) => Ret (with_mem o m, PathIoError)
  end.

Definition try_remove_lockfree_path (o : overlay) (term : list Z) : exec (overlay * path_result) :=
  '(m, r) ← build_remove_path_iterative U8 read_node (ov_mem o) (ov_root o) term 0;
  match r with
  | Ok new_root => o ← publish_counted o m new_root (-1); Ret (o, PathApplied)
  | Err BAlreadyExists => Ret (with_mem o m, PathIdempotent)
  | Err (BFailure _) => Ret (with_mem o m, PathIoError)
  end.

Definition publish_root_cas (o : overlay) (transform : OverlayNode Z → OverlayNode Z) (needs_publish : OverlayNode Z → bool) :
    exec (overlay * bool) :=
  old ← ov_mem o !! ov_root o;
  if negb (needs_publish old) then Ret (o, false)
  else
    let new := transform old in
    let term_count_delta :=
      match onode_is_final old, onode_is_final new with
      | false, true => 1
      | true, false => -1
      | _, _ => 0
      end in
    let '(m, a) := oarc_new (ov_mem o) new in
    o ← publish_counted o m a term_count_delta;
    Ret (o, true).

Definition overlay_publish_root_membership (o : overlay) : exec (overlay * bool) :=
  publish_root_cas o (as_final U8) (λ r, negb (onode_is_final r)).

Definition overlay_publish_root_value (o : overlay) (value : Z) : exec overlay :=
  '(o, _) ← publish_root_cas o (λ r, set_value U8 (as_final U8 r) value) (λ _, true);
  Ret o.

Definition insert_cas (o : overlay) (term : list Z) : exec (overlay * bool) :=
  if bool_decide (term ∈ ov_cache o) then Ret (o, false)
  else
    match term with
    | [] =>
        '(o, inserted) ← overlay_publish_root_membership o;
        Ret (if (inserted : bool) then cache_insert o [] else o, inserted)
    | _ =>
        '(o, r) ← try_insert_lockfree_path_durable o term;
        match r with
        | PathApplied => Ret (cache_insert o term, true)
        | PathIdempotent => Ret (cache_insert o term, false)
        | PathIoError => Ret (o, false)
        end
    end.

Definition overlay_remove_no_wal (o : overlay) (term : list Z) : exec overlay :=
  '(o, r) ← try_remove_lockfree_path o term;
  match r with
  | PathApplied | PathIdempotent => Ret (cache_remove o term)
  | PathIoError => Ret o
  end.

Definition overlay_remove (o : overlay) (units : list Z) : exec overlay :=
  match units with
  | [] => '(o, _) ← publish_root_cas o (as_non_final U8) onode_is_final; Ret o
  | _ => overlay_remove_no_wal o units
  end.

Definition overlay_publish_value (o : overlay) (units : list Z) (value : Z) : exec (overlay * result unit TrieError) :=
  found ← find_leaf_iterative U8 (ov_mem o) (ov_root o) units;
  let term_count_delta := match found with None => 1 | Some _ => 0 end in
  '(m, r) ← build_value_path_iterative U8 read_node (ov_mem o) (ov_root o) units value;
  match r with
  | Err e => Ret (with_mem o m, Err e)
  | Ok new_root =>
      o ← publish_counted o m new_root term_count_delta;
      Ret (cache_insert o units, Ok tt)
  end.

Definition overlay_publish_membership_any (o : overlay) (units : list Z) : exec overlay :=
  match units with
  | [] => '(o, _) ← overlay_publish_root_membership o; Ret o
  | _ => '(o, _) ← insert_cas o units; Ret o
  end.

Definition overlay_publish_value_any (o : overlay) (units : list Z) (value : Z) : exec (overlay * bool) :=
  match units with
  | [] => o ← overlay_publish_root_value o value; Ret (o, true)
  | _ =>
      '(o, r) ← overlay_publish_value o units value;
      Ret (o, match r with Ok _ => true | Err _ => false end)
  end.

Definition overlay_value_get (o : overlay) (units : list Z) : exec (overlay * option Z) :=
  '(m, root, found) ← find_leaf_faulting U8 read_node lands (ov_mem o) (ov_root o) units DEFAULT_MAX_FAULTIN_RETRIES;
  let o := mkLive m root (ov_count o) (ov_cache o) in
  match found with
  | Ok (Some leaf) => n ← m !! leaf; Ret (o, on_value n)
  | Ok None | Err _ => Ret (o, None)
  end.

(** ** One recovered operation *)

Definition publish_decoded (o : overlay) (units : list Z) (value : option Z) : exec (overlay * bool) :=
  match value with
  | Some v => overlay_publish_value_any o units v
  | None => Ret (o, false)
  end.

Definition apply_recovered_operation_overlay (o : overlay) (op : RecoveredOperation) : exec (overlay * bool) :=
  match op with
  | RInsert _ units (Some value_bytes) => publish_decoded o units (value_deserialize value_bytes)
  | RInsert _ units None => o ← overlay_publish_membership_any o units; Ret (o, true)
  | RRemove _ units => o ← overlay_remove o units; Ret (o, true)
  | RUpsert _ units value => publish_decoded o units (value_deserialize value)
  | RCompareAndSwap _ units new_value success =>
      if negb success then Ret (o, false) else publish_decoded o units (value_deserialize new_value)
  | RIncrement _ units delta (Some v) =>
      publish_decoded o units
        (counter_leaf_to_i128 CounterU64 (to_le_bytes 8 v) ≫= i128_to_counter_value CounterU64 value_deserialize)
  | RIncrement _ units delta None =>
      match units with
      | [] => Ret (o, true)
      | _ =>
          '(o, current) ← overlay_value_get o units;
          match
            match current with
            | Some value => counter_value_to_i128 CounterU64 value_serialize value
            | None => Some 0
            end
          with
          | None => Ret (o, false)
          | Some current_i128 =>
              publish_decoded o units (i128_to_counter_value CounterU64 value_deserialize (current_i128 + delta))
          end
      end
  end.

Fixpoint apply_recovered (o : overlay) (applied : Z) (winners : list RecoveredOperation) : exec (overlay * Z) :=
  match winners with
  | [] => Ret (o, applied)
  | op :: winners =>
      '(o, b) ← apply_recovered_operation_overlay o op;
      apply_recovered o (if (b : bool) then inc applied else applied) winners
  end.

(** ** Draining the segments *)

(** The records that carry data, for the transaction filter *)
Definition is_data_record (record : WalRecord) : bool :=
  match record with
  | BeginTx _ | CommitTx _ | AbortTx _ | Checkpoint _ _ | CommitRank _ _ _
  | VersionUpdate _ _ _ _ | VersionDurable _ _ | VersionGc _ => false
  | _ => true
  end.

(** The records collected so far, their regimes, and the least sequence number seen *)
Definition drain_state : Type := list (Z * WalRecord) * gmap Z RankRegime * option Z.

(** One segment's records, up to its first corrupt one *)
Fixpoint drain_records (seg_regime : RankRegime) (surviving : option (gset Z)) (st : drain_state)
    (results : list (result (Z * WalRecord) WalError)) : drain_state :=
  match results with
  | [] | Err _ :: _ => st
  | Ok (lsn, record) :: results =>
      let '(all_records, regime_by_lsn, physical_min_lsn) := st in
      let physical_min_lsn := Some (match physical_min_lsn with Some m => Z.min m lsn | None => lsn end) in
      let dropped :=
        match surviving with
        | Some surviving => is_data_record record && negb (bool_decide (lsn ∈ surviving))
        | None => false
        end in
      if dropped then drain_records seg_regime surviving (all_records, regime_by_lsn, physical_min_lsn) results
      else
        drain_records seg_regime surviving
          (all_records ++ [(lsn, record)], <[lsn := seg_regime]> regime_by_lsn, physical_min_lsn) results
  end.

(** What the transactions of an owned segment leave *)
Definition tx_surviving_lsns (elapsed : Z) (seg_regime : RankRegime) (segment : file) : exec (option (gset Z)) :=
  match seg_regime with
  | Overlay => Ret None
  | Owned =>
      r ← recover elapsed segment;
      Ret (match r with
           | Ok state => Some (list_to_set (map op_lsn (operations state)))
           | Err _ => None
           end)
  end.

Fixpoint drain_segments (elapsed : Z) (st : drain_state) (segments : list file) : exec drain_state :=
  match segments with
  | [] => Ret st
  | segment :: segments =>
      seg_regime ← segment_regime segment;
      surviving ← tx_surviving_lsns elapsed seg_regime segment;
      match WalReader_new segment with
      | Err _ => drain_segments elapsed st segments
      | Ok input =>
          results ← read_log input;
          drain_segments elapsed (drain_records seg_regime surviving st results) segments
      end
  end.

Definition drain_segments_into_overlay (elapsed : Z) (o : overlay) (segments : list file) (loaded_from_disk : bool)
    (image_checkpoint_lsn : Z) : exec (overlay * result Z TrieError) :=
  '(all_records, regime_by_lsn, physical_min_lsn) ← drain_segments elapsed ([], ∅, None) segments;
  let gap :=
    match physical_min_lsn with
    | Some min_lsn =>
        let guard_applies := negb loaded_from_disk in
        let frontier :=
          if loaded_from_disk then Z.max image_checkpoint_lsn (Z.max 0 (min_lsn - 1)) else 0 in
        guard_applies && (Z.min (2 ^ 64 - 1) (frontier + 1) <? min_lsn)
    | None => false
    end in
  if gap then Ret (o, Err CorruptedFile)
  else
    let winners :=
      reconcile_lww_with_regime all_records loaded_from_disk image_checkpoint_lsn
        (λ lsn, default Owned (regime_by_lsn !! lsn)) in
    '(o, applied) ← apply_recovered o 0 winners;
    Ret (o, Ok applied).

End replay.

(** ** What the publishers do to the content *)

Section content.
Context (read_node : ArenaSlot → result (disk_node Z) TrieError).

Local Notation memory := (list (OverlayNode Z)).
Local Notation memory_ok := (memory_ok U8 read_node).
Local Notation look := (look U8 read_node).
Local Notation units_ok := (units_ok U8).

Definition look_of (o : overlay) (t : list Z) : option (option (option Z)) := look (ov_mem o) (AtNode (ov_root o)) t.

(** A published root: the values are [u64]s and the count covers the keys. *)
Record root_ok (m : memory) (root : nat) (count : Z) : Prop := mkRootOk {
  ro_memory : memory_ok m;
  ro_root : (root < length m)%nat;
  ro_values : ∀ t v, look m (AtNode root) t = Some (Some (Some v)) → is_u64 v;
  ro_count : ∀ l, NoDup l → (∀ t, t ∈ l → ∃ v, look m (AtNode root) t = Some (Some v)) → zlen l ≤ count;
}.

Record overlay_ok (o : overlay) : Prop := mkOverlayOk {
  oo_root : root_ok (ov_mem o) (ov_root o) (ov_count o);
  oo_cache : ∀ t, t ∈ ov_cache o → t ≠ [] ∧ ∃ v, look_of o t = Some (Some v);
}.

(** 1 for a key that is there *)
Definition presence (e : option (option (option Z))) : Z := match e with Some (Some _) => 1 | _ => 0 end.

Lemma root_ok_count_nonneg m root count : root_ok m root count → 0 ≤ count.
Proof. intros H. apply (ro_count _ _ _ H []); [constructor|by intros t ?%elem_of_nil]. Qed.

Lemma root_ok_present m root count t v : root_ok m root count → look m (AtNode root) t = Some (Some v) → 1 ≤ count.
Proof.
  intros H Ht. apply (ro_count _ _ _ H [t]); [apply NoDup_singleton|]. intros x ->%list_elem_of_singleton. by exists v.
Qed.

(** The same content *)
Lemma root_ok_same m m' root root' count :
  root_ok m root count → memory_ok m' → (root' < length m')%nat → (∀ t, look m' (AtNode root') t = look m (AtNode root) t) →
  root_ok m' root' count.
Proof.
  intros [Hm Hr Hv Hc] Hm' Hr' Hl. split; [done..| |].
  - intros t v. rewrite Hl. apply Hv.
  - intros l Hnd Hin. apply Hc; [done|]. intros t Ht. rewrite <-Hl. by apply Hin.
Qed.

(** One key's entry changes, and the count by enough. *)
Lemma root_ok_update m root count m' root' term e delta :
  root_ok m root count → memory_ok m' → (root' < length m')%nat →
  (∀ t, look m' (AtNode root') t = if decide (t = term) then e else look m (AtNode root) t) →
  (∀ v, e = Some (Some (Some v)) → is_u64 v) → presence e - presence (look m (AtNode root) term) ≤ delta →
  root_ok m' root' (count + delta).
Proof.
  intros [Hm Hr Hv Hc] Hm' Hr' Hl He Hd. split; [done..| |].
  - intros t v. rewrite Hl. case_decide; [apply He|apply Hv].
  - intros l Hnd Hin. destruct (decide (term ∈ l)) as [Ht|Ht].
    + assert (presence e = 1) as E1. { destruct (Hin _ Ht) as [v Hv']. rewrite Hl, decide_True in Hv' by done. by rewrite Hv'. }
      apply list_elem_of_split in Ht as (l1 & l2 & ->).
      assert (NoDup (l1 ++ l2) ∧ term ∉ l1 ++ l2) as [Hnd' Hout].
      { rewrite <-Permutation_middle in Hnd. by apply NoDup_cons in Hnd as [? ?]. }
      assert (∀ t, t ∈ l1 ++ l2 → ∃ v, look m (AtNode root) t = Some (Some v)) as Hin'.
      { intros t Ht. destruct (Hin t) as [v Hv']; [set_solver|]. rewrite Hl, decide_False in Hv'; [by exists v|]. by intros ->. }
      unfold presence in Hd at 2. destruct (look m (AtNode root) term) as [[w|]|] eqn:Ew.
      * assert (zlen (l1 ++ term :: l2) ≤ count); [|lia]. apply Hc; [done|]. intros t Ht.
        destruct (decide (t = term)) as [->|Hne]; [by exists w|]. apply Hin'. set_solver.
      * specialize (Hc (l1 ++ l2) Hnd' Hin'). rewrite !zlen_app, ?zlen_cons in *. lia.
      * specialize (Hc (l1 ++ l2) Hnd' Hin'). rewrite !zlen_app, ?zlen_cons in *. lia.
    + assert (∀ t, t ∈ l → ∃ v, look m (AtNode root) t = Some (Some v)) as Hin'.
      { intros t Ht'. destruct (Hin t Ht') as [v Hv']. rewrite Hl, decide_False in Hv'; [by exists v|]. by intros ->. }
      unfold presence in Hd at 2. destruct (look m (AtNode root) term) as [[w|]|] eqn:Ew.
      * assert (zlen (term :: l) ≤ count) as Hc'.
        { apply Hc; [by constructor|]. intros t [->|Ht']%elem_of_cons; [by exists w|]. by apply Hin'. }
        rewrite zlen_cons in Hc'. assert (0 ≤ presence e) by (by destruct e as [[]|]). lia.
      * specialize (Hc l Hnd Hin'). assert (0 ≤ presence e) by (by destruct e as [[]|]). lia.
      * specialize (Hc l Hnd Hin'). assert (0 ≤ presence e) by (by destruct e as [[]|]). lia.
Qed.

End content.

Section publishers.
Context (read_node : ArenaSlot → result (disk_node Z) TrieError).
Context (Hdisk : ∀ slot r, read_node slot = Ok r → OverlayWalk.record_ok U8 r).

Local Notation look_of := (look_of read_node).
Local Notation root_ok := (root_ok read_node).
Local Notation overlay_ok := (overlay_ok read_node).
Local Notation units_ok := (units_ok U8).

(** The overlay's root is fine, whatever the cache holds. *)
Local Notation live_ok o := (root_ok (ov_mem o) (ov_root o) (ov_count o)).

(** [o'] is [o] with the entry of [term] replaced by [e]. *)
Definition updated (o o' : overlay) (term : list Z) (e : option (option (option Z))) : Prop :=
  live_ok o' ∧ ov_count o' ≤ ov_count o + 1 ∧ ∀ t, look_of o' t = if decide (t = term) then e else look_of o t.

Lemma updated_same o o' term :
  live_ok o → live_ok o' → ov_count o' = ov_count o → (∀ t, look_of o' t = look_of o t) → updated o o' term (look_of o term).
Proof. intros Ho Ho' Hc Hl. split_and!; [done|lia|]. intros t. rewrite Hl. by case_decide; subst. Qed.

Lemma updated_with_mem o l term : live_ok o → OverlayWalk.memory_ok U8 read_node (ov_mem o ++ l) → updated o (with_mem o (ov_mem o ++ l)) term (look_of o term).
Proof.
  intros Ho Hm. assert (∀ t, look_of (with_mem o (ov_mem o ++ l)) t = look_of o t) as Hl.
  { intros t. unfold look_of. cbn. apply look_grow; [done|apply Ho|apply Ho]. }
  apply updated_same; [done| |done|done]. eapply root_ok_same; [done|done| |exact Hl]. cbn. rewrite length_app. pose proof (ro_root _ _ _ _ Ho). lia.
Qed.

(** A counted publication *)
Lemma publish_counted_spec o m new term e delta :
  live_ok o → OverlayWalk.memory_ok U8 read_node m → (new < length m)%nat →
  (∀ t, look U8 read_node m (AtNode new) t = if decide (t = term) then e else look_of o t) →
  (∀ v, e = Some (Some (Some v)) → is_u64 v) → presence e - presence (look_of o term) ≤ delta → delta ≤ 1 → ov_count o + 1 < 2 ^ 64 →
  ∃ o', publish_counted o m new delta = Ret o' ∧ ov_cache o' = ov_cache o ∧ updated o o' term e.
Proof.
  intros Ho Hm Hn Hl Hv Hd H1 Hmax. pose proof (root_ok_update _ _ _ _ _ _ _ _ _ Ho Hm Hn Hl Hv Hd) as Hok.
  pose proof (root_ok_count_nonneg _ _ _ _ Hok). exists (mkLive m new (ov_count o + delta) (ov_cache o)). unfold publish_counted.
  rewrite (proj2 (Z.leb_le _ _)), (proj2 (Z.ltb_lt _ _)) by lia. split; [done|]. split; [done|]. split_and!; [done|cbn; lia|exact Hl].
Qed.

(** What membership does to an entry *)
Definition insert_entry (e : option (option (option Z))) : option (option (option Z)) :=
  match e with Some None => Some (Some None) | e => e end.
Definition remove_entry (e : option (option (option Z))) : option (option (option Z)) :=
  match e with Some (Some _) => Some None | e => e end.
Definition value_entry (v : Z) (e : option (option (option Z))) : option (option (option Z)) :=
  match e with Some _ => Some (Some (Some v)) | None => None end.

Lemma try_insert_spec o term :
  live_ok o → units_ok term → ov_count o + 1 < 2 ^ 64 →
  ∃ o' r, try_insert_lockfree_path_durable read_node o term = Ret (o', r) ∧ ov_cache o' = ov_cache o ∧
    updated o o' term (insert_entry (look_of o term)) ∧
    match r with PathIoError => look_of o term = None | _ => ∃ v, look_of o' term = Some (Some v) end.
Proof.
  intros Ho Hu Hmax. unfold try_insert_lockfree_path_durable.
  destruct (build_final_spec U8 read_node Hdisk (ov_mem o) (ov_root o) term) as (l & res & -> & Hm & Hres); [apply Ho|apply Ho|done|].
  cbn [mbind option_bind]. destruct res as [a|[|e]].
  - destruct Hres as (Hold & Ha & Hl). fold (look_of o term) in Hold.
    destruct (publish_counted_spec o (ov_mem o ++ l) a term (Some (Some None)) 1) as (o' & -> & Hc & Hup); try done.
    { rewrite Hold. cbn. lia. }
    exists o', PathApplied. rewrite Hold. split_and!; try done. exists None. destruct Hup as (_ & _ & ->). by rewrite decide_True.
  - destruct Hres as [v Hv]. fold (look_of o term) in Hv. eexists _, PathIdempotent. split; [done|]. split; [done|].
    pose proof (updated_with_mem o l term Ho Hm) as Hup. rewrite Hv in *. split; [exact Hup|]. exists v. destruct Hup as (_ & _ & ->). by rewrite decide_True.
  - fold (look_of o term) in Hres. eexists _, PathIoError. split; [done|]. split; [done|].
    pose proof (updated_with_mem o l term Ho Hm) as Hup. by rewrite Hres in *.
Qed.

Lemma try_remove_spec o term :
  live_ok o → units_ok term → ov_count o + 1 < 2 ^ 64 →
  ∃ o' r, try_remove_lockfree_path read_node o term = Ret (o', r) ∧ ov_cache o' = ov_cache o ∧
    updated o o' term (remove_entry (look_of o term)) ∧ (r = PathIoError → look_of o term = None).
Proof.
  intros Ho Hu Hmax. unfold try_remove_lockfree_path.
  destruct (build_remove_spec U8 read_node Hdisk (ov_mem o) (ov_root o) term) as (l & res & -> & Hm & Hres); [apply Ho|apply Ho|done|].
  cbn [mbind option_bind]. destruct res as [a|[|e]].
  - destruct Hres as ((v & Hold) & Ha & Hl). fold (look_of o term) in Hold.
    destruct (publish_counted_spec o (ov_mem o ++ l) a term (Some None) (-1)) as (o' & -> & Hc & Hup); try done.
    { rewrite Hold. cbn. lia. }
    exists o', PathApplied. rewrite Hold. by split_and!.
  - unfold content in Hres. fold (look_of o term) in Hres. eexists _, PathIdempotent. split; [done|]. split; [done|]. split; [|done].
    pose proof (updated_with_mem o l term Ho Hm) as Hup. by destruct (look_of o term) as [[v|]|].
  - fold (look_of o term) in Hres. eexists _, PathIoError. split; [done|]. split; [done|].
    pose proof (updated_with_mem o l term Ho Hm) as Hup. by rewrite Hres in *.
Qed.

(** *** The root *)

Lemma root_node o : live_ok o → ∃ n, ov_mem o !! ov_root o = Some n ∧ onode_ok U8 (length (ov_mem o)) n ∧ look_of o [] = Some (onode_entry n).
Proof.
  intros Ho. destruct (lookup_lt_is_Some_2 _ _ (ro_root _ _ _ _ Ho)) as [n Hn]. exists n. split; [done|]. split.
  - eapply onode_ok_mono; [|eapply memory_node; [apply Ho|exact Hn]]. apply lookup_lt_Some in Hn. lia.
  - unfold OverlayReplay.look_of. by rewrite (look_at _ _ _ _ _ _ Hn).
Qed.

Lemma publish_root_spec o n f needs :
  live_ok o → ov_mem o !! ov_root o = Some n → onode_ok U8 (length (ov_mem o)) (f n) → on_stamp (f n) = 0 →
  (∀ u, edge_of (f n) u = edge_of n u) → (∀ v, onode_entry (f n) = Some (Some v) → is_u64 v) → ov_count o + 1 < 2 ^ 64 →
  ∃ o', publish_root_cas o f needs = Ret (o', needs n) ∧ ov_cache o' = ov_cache o ∧
    updated o o' [] (if needs n then Some (onode_entry (f n)) else look_of o []).
Proof.
  intros Ho Hn Hf H0 Hedges Hv Hmax. unfold publish_root_cas. rewrite Hn. cbn [mbind option_bind].
  destruct (needs n); cbn [negb]; [|by exists o; split_and!; [..|apply updated_same]].
  destruct (path_rebuild_spec U8 read_node Hdisk (ov_mem o) [] [] (look_of o) (ov_root o) n (f n)) as (l & a & E & Hm & Ha & Hl); try done.
  { apply Ho. } { apply unwinds_nil. }
  cbn [rebuild oarc_new unwind_spine reverse foldM] in E. injection E as E <-. cbn [oarc_new]. rewrite E.
  set (delta := match onode_is_final n, onode_is_final (f n) with false, true => 1 | true, false => -1 | _, _ => 0 end).
  assert (delta ≤ 1 ∧ presence (Some (onode_entry (f n))) - presence (look_of o []) ≤ delta) as [Hd1 Hd2].
  { unfold look_of, OverlayReplay.look_of. rewrite (look_at _ _ _ _ _ _ Hn). unfold onode_entry, delta.
    destruct (onode_is_final n), (onode_is_final (f n)); cbn; lia. }
  destruct (publish_counted_spec o (ov_mem o ++ l) (length (ov_mem o)) [] (Some (onode_entry (f n))) delta) as (o' & -> & Hc & Hup); try done.
  { intros v [= Hv']. by apply Hv. }
  exists o'. by split_and!.
Qed.

Lemma insert_root_spec o :
  live_ok o → ov_count o + 1 < 2 ^ 64 →
  ∃ o' b, overlay_publish_root_membership o = Ret (o', b) ∧ ov_cache o' = ov_cache o ∧ updated o o' [] (insert_entry (look_of o [])).
Proof.
  intros Ho Hmax. destruct (root_node o Ho) as (n & Hn & Hok & Hl). unfold overlay_publish_root_membership.
  destruct (publish_root_spec o n (as_final U8) (λ r, negb (onode_is_final r))) as (o' & -> & Hc & Hup); try done.
  { by apply as_final_ok. }
  { apply (copy_edges U8); [apply Hok|done]. }
  { intros v Hv. destruct (onode_is_final n) eqn:Hf.
    - apply (ro_values _ _ _ _ Ho [] v). fold (look_of o []). rewrite Hl. unfold onode_entry in *. rewrite as_final_is_final in Hv. cbn in Hv. rewrite Hf. congruence.
    - rewrite as_final_entry in Hv; [done|apply Hok|]. unfold onode_entry. by rewrite Hf. }
  exists o', (negb (onode_is_final n)). split; [done|]. split; [done|]. rewrite Hl in *.
  destruct (onode_is_final n) eqn:Hf; cbn [negb] in Hup.
  - unfold onode_entry in *. by rewrite Hf in *.
  - rewrite as_final_entry in Hup; [|apply Hok|unfold onode_entry; by rewrite Hf]. unfold onode_entry. by rewrite Hf.
Qed.

Lemma value_root_spec o v :
  live_ok o → is_u64 v → ov_count o + 1 < 2 ^ 64 →
  ∃ o', overlay_publish_root_value o v = Ret o' ∧ ov_cache o' = ov_cache o ∧ updated o o' [] (value_entry v (look_of o [])).
Proof.
  intros Ho Hv Hmax. destruct (root_node o Ho) as (n & Hn & Hok & Hl). unfold overlay_publish_root_value.
  destruct (publish_root_spec o n (λ r, set_value U8 (as_final U8 r) v) (λ _, true)) as (o' & -> & Hc & Hup); try done.
  { apply set_value_ok; [by apply as_final_ok|apply as_final_is_final]. }
  { intros u. unfold edge_of. cbn. by rewrite !store_clone_id by (rewrite ?store_clone_id; apply Hok). }
  { intros w. rewrite final_value_entry. by intros [= <-]. }
  exists o'. split; [done|]. split; [done|]. rewrite Hl. by rewrite final_value_entry in Hup.
Qed.

Lemma remove_root_spec o :
  live_ok o → ov_count o + 1 < 2 ^ 64 →
  ∃ o', overlay_remove read_node o [] = Ret o' ∧ ov_cache o' = ov_cache o ∧ updated o o' [] (remove_entry (look_of o [])).
Proof.
  intros Ho Hmax. destruct (root_node o Ho) as (n & Hn & Hok & Hl). unfold overlay_remove.
  destruct (publish_root_spec o n (as_non_final U8) onode_is_final) as (o' & -> & Hc & Hup); try done.
  { by apply as_non_final_ok. }
  { apply (copy_edges U8); [apply Hok|done]. }
  { intros v. by rewrite as_non_final_entry. }
  exists o'. split; [done|]. split; [done|]. rewrite Hl in *. rewrite as_non_final_entry in Hup. unfold onode_entry in *.
  by destruct (onode_is_final n).
Qed.

End publishers.

(** ** One operation, whole *)

Section applying.
Context (read_node : ArenaSlot → result (disk_node Z) TrieError) (lands : nat → bool).
Context (value_serialize : Z → option (list Z)) (value_deserialize : list Z → option Z).
Context (Hdisk : ∀ slot r, read_node slot = Ok r → OverlayWalk.record_ok U8 r).
Context (Hfixint : bincode_fixint CounterU64 value_serialize value_deserialize).
Context (Hu64 : ∀ bs v, value_deserialize bs = Some v → is_u64 v).

Local Notation look_of := (look_of read_node).
Local Notation overlay_ok := (overlay_ok read_node).
Local Notation units_ok := (units_ok U8).
Local Notation updated := (updated read_node).
Local Notation live_ok o := (root_ok read_node (ov_mem o) (ov_root o) (ov_count o)).

(** What an operation does to the entry of its key *)
Definition replay_effect (op : RecoveredOperation) (e : option (option Z)) : option (option Z) :=
  let decoded bytes := match value_deserialize bytes with Some v => Some (Some v) | None => e end in
  match op with
  | RInsert _ _ None => match e with None => Some None | Some v => Some v end
  | RInsert _ _ (Some bytes) => decoded bytes
  | RUpsert _ _ bytes => decoded bytes
  | RCompareAndSwap _ _ bytes success => if (success : bool) then decoded bytes else e
  | RRemove _ _ => None
  | RIncrement _ _ _ (Some v) => Some (Some (u64 v))
  | RIncrement _ units delta None =>
      match units with
      | [] => e
      | _ =>
          let total := match e with Some (Some v) => v | _ => 0 end + delta in
          if decide (is_u64 total) then Some (Some total) else e
      end
  end.

(** The overlay after an operation on [term] *)
Definition applied (o o' : overlay) (term : list Z) (e : option (option (option Z))) : Prop :=
  updated o o' term e ∧ overlay_ok o'.

Lemma applied_cache o o' term e c :
  overlay_ok o → updated o o' term e →
  (∀ t, t ∈ c → if decide (t = term) then t ≠ [] ∧ ∃ v, e = Some (Some v) else t ∈ ov_cache o) →
  applied o (mkLive (ov_mem o') (ov_root o') (ov_count o') c) term e.
Proof.
  intros Ho (Hok & Hc & Hl) Hcache. split; [split_and!; done|]. split; [done|]. intros t Ht. specialize (Hcache t Ht).
  unfold look_of, OverlayReplay.look_of in *. cbn in *. rewrite Hl. case_decide; [done|]. apply (oo_cache _ _ Ho t Hcache).
Qed.

(** Nothing of the cache changed, or the key left it. *)
Lemma applied_kept o o' term e :
  overlay_ok o → updated o o' term e → ov_cache o' = ov_cache o → (term ∈ ov_cache o → ∃ v, e = Some (Some v)) → applied o o' term e.
Proof.
  intros Ho Hup Hc Hin. destruct o' as [m root count c]. cbn in Hc. subst c.
  apply (applied_cache o (mkLive m root count (ov_cache o)) term e); [done..|]. intros t Ht. case_decide as Hd; [|done]. subst.
  split; [by apply (oo_cache _ _ Ho)|by apply Hin].
Qed.

Lemma applied_inserted o o' term e :
  overlay_ok o → updated o o' term e → ov_cache o' = ov_cache o → term ≠ [] → (∃ v, e = Some (Some v)) → applied o (cache_insert o' term) term e.
Proof.
  intros Ho Hup Hc Hne He. unfold cache_insert. apply (applied_cache o o'); [done..|]. intros t Ht. rewrite Hc in Ht. case_decide; [by subst|set_solver].
Qed.

Lemma applied_removed o o' term e :
  overlay_ok o → updated o o' term e → ov_cache o' = ov_cache o → applied o (cache_remove o' term) term e.
Proof.
  intros Ho Hup Hc. unfold cache_remove. apply (applied_cache o o'); [done..|]. intros t Ht. rewrite Hc in Ht. case_decide; set_solver.
Qed.

Lemma cached_present o t : overlay_ok o → t ∈ ov_cache o → ∃ v, look_of o t = Some (Some v).
Proof. intros Ho Ht. by apply (oo_cache _ _ Ho). Qed.

Lemma root_uncached o : overlay_ok o → [] ∉ ov_cache o.
Proof. intros Ho Ht. by apply (oo_cache _ _ Ho) in Ht as [? _]. Qed.

Lemma insert_any_spec o term :
  overlay_ok o → units_ok term → ov_count o + 1 < 2 ^ 64 →
  ∃ o', overlay_publish_membership_any read_node o term = Ret o' ∧ applied o o' term (insert_entry (look_of o term)).
Proof.
  intros Ho Hu Hmax. destruct term as [|x term]; cbn [overlay_publish_membership_any].
  { destruct (insert_root_spec read_node Hdisk o (oo_root _ _ Ho) Hmax) as (o' & b & -> & Hc & Hup). exists o'. split; [done|].
    apply applied_kept; [done..|]. by intros ?%root_uncached. }
  unfold insert_cas. case_bool_decide as Hin; cbn [mbind option_bind].
  { destruct (cached_present o (x :: term) Ho Hin) as [v Hv]. exists o. split; [done|]. rewrite Hv. cbn. rewrite <-Hv.
    split; [|done]. apply updated_same; [apply Ho..|done|done]. }
  destruct (try_insert_spec read_node Hdisk o (x :: term) (oo_root _ _ Ho) Hu Hmax) as (o' & r & -> & Hc & Hup & Hr). cbn [mbind option_bind].
  destruct r.
  3: { exists o'. split; [done|]. apply applied_kept; [done..|]. done. }
  all: exists (cache_insert o' (x :: term)); split; [done|]; apply applied_inserted; [done..|]; destruct Hr as [v Hr]; exists v;
       destruct Hup as (_ & _ & Hl); rewrite Hl, decide_True in Hr by done; exact Hr.
Qed.

Lemma remove_any_spec o term :
  overlay_ok o → units_ok term → ov_count o + 1 < 2 ^ 64 →
  ∃ o', overlay_remove read_node o term = Ret o' ∧ applied o o' term (remove_entry (look_of o term)).
Proof.
  intros Ho Hu Hmax. destruct term as [|x term].
  { destruct (remove_root_spec read_node Hdisk o (oo_root _ _ Ho) Hmax) as (o' & -> & Hc & Hup). exists o'. split; [done|].
    apply applied_kept; [done..|]. by intros ?%root_uncached. }
  cbn [overlay_remove]. unfold overlay_remove_no_wal.
  destruct (try_remove_spec read_node Hdisk o (x :: term) (oo_root _ _ Ho) Hu Hmax) as (o' & r & -> & Hc & Hup & Hr). cbn [mbind option_bind].
  destruct r; [(exists (cache_remove o' (x :: term)); split; [done|]; by apply applied_removed)..|].
  exists o'. split; [done|]. apply applied_kept; [done..|]. intros Hin. destruct (cached_present _ _ Ho Hin) as [v Hv]. rewrite Hr in Hv; done.
Qed.

Lemma value_any_spec o term v :
  overlay_ok o → units_ok term → is_u64 v → ov_count o + 1 < 2 ^ 64 →
  ∃ o' b, overlay_publish_value_any read_node o term v = Ret (o', b) ∧ applied o o' term (value_entry v (look_of o term)).
Proof.
  intros Ho Hu Hv Hmax. destruct term as [|x term]; cbn [overlay_publish_value_any].
  { destruct (value_root_spec read_node Hdisk o v (oo_root _ _ Ho) Hv Hmax) as (o' & -> & Hc & Hup). exists o', true. split; [done|].
    apply applied_kept; [done..|]. by intros ?%root_uncached. }
  unfold overlay_publish_value. pose proof (oo_root _ _ Ho) as Hlive.
  destruct (find_leaf_spec U8 read_node (ov_mem o) (ov_root o) (x :: term)) as (found & -> & Hfound); [apply Hlive|apply Hlive|done|].
  cbn [mbind option_bind].
  destruct (build_value_spec U8 read_node Hdisk (ov_mem o) (ov_root o) (x :: term) v) as (l & res & -> & Hm & Hres); [apply Hlive|apply Hlive|done|].
  cbn [mbind option_bind]. destruct res as [a|e].
  - destruct Hres as (Hsome & Ha & Hl). fold (look_of o (x :: term)) in Hsome, Hfound.
    destruct (publish_counted_spec read_node o (ov_mem o ++ l) a (x :: term) (Some (Some (Some v))) match found with None => 1 | Some _ => 0 end)
      as (o' & -> & Hc & Hup); try done.
    { by intros ? [= <-]. }
    { destruct found as [b|]; [destruct Hfound as (n & _ & _ & ->); cbn; lia|]. assert (0 ≤ presence (look_of o (x :: term))) by (by destruct (look_of o (x :: term)) as [[]|]). change (presence (Some (Some (Some v)))) with 1. lia. }
    { destruct found; lia. }
    eexists _, true. split; [done|]. destruct Hsome as [e He]. rewrite He. cbn [value_entry]. apply applied_inserted; [done..|by eexists].
  - fold (look_of o (x :: term)) in Hres. eexists _, false. split; [done|]. rewrite Hres. cbn [value_entry].
    pose proof (updated_with_mem read_node Hdisk o l (x :: term) Hlive Hm) as Hup. rewrite Hres in Hup. apply applied_kept; [done..|].
    intros Hin. destruct (cached_present _ _ Ho Hin) as [w Hw]. congruence.
Qed.

Lemma value_get_spec o term :
  overlay_ok o → units_ok term →
  ∃ o', overlay_value_get read_node lands o term = Ret (o', match look_of o term with Some (Some v) => v | _ => None end) ∧
    overlay_ok o' ∧ ov_count o' = ov_count o ∧ ∀ t, look_of o' t = look_of o t.
Proof.
  intros Ho Hu. unfold overlay_value_get, find_leaf_faulting. pose proof (oo_root _ _ Ho) as Hlive.
  destruct (fault_retries_spec U8 read_node Hdisk lands (S DEFAULT_MAX_FAULTIN_RETRIES) 0 (ov_mem o) (ov_root o) None term (look_of o))
    as (l & root' & r & -> & Hm & Hroot & Hl & Ha); try done; [apply Hlive..|].
  cbn [mbind option_bind]. set (o' := mkLive _ _ _ _).
  assert (overlay_ok o' ∧ ov_count o' = ov_count o ∧ ∀ t, look_of o' t = look_of o t) as Hok.
  { split; [|done]. split; [by eapply root_ok_same|]. intros t Ht. destruct (oo_cache _ _ Ho t Ht) as [Hne [v Hv]]. split; [done|]. exists v. rewrite <-Hv. apply Hl. }
  exists o'. split; [|done]. destruct r as [[b|]|e]; cbn in Ha.
  - destruct Ha as (n & Hn & _ & ->). rewrite Hn. done.
  - by destruct (look_of o term) as [[v|]|].
  - by rewrite Ha.
Qed.

Lemma publish_decoded_spec o term v :
  overlay_ok o → units_ok term → (∀ w, v = Some w → is_u64 w) → ov_count o + 1 < 2 ^ 64 →
  ∃ o' b, publish_decoded read_node o term v = Ret (o', b) ∧
    applied o o' term (match v with Some w => value_entry w (look_of o term) | None => look_of o term end).
Proof.
  intros Ho Hu Hv Hmax. destruct v as [w|]; cbn [publish_decoded]; [apply value_any_spec; auto|].
  exists o, false. split; [done|]. split; [|done]. apply updated_same; [apply Ho..|done|done].
Qed.

(** After a read, which may have moved the root *)
Lemma applied_from o o1 o' term e :
  ov_count o1 = ov_count o → (∀ t, look_of o1 t = look_of o t) → applied o1 o' term e → applied o o' term e.
Proof. intros Hc Hl [(H1 & H2 & H3) H4]. split; [|done]. split_and!; [done|lia|]. intros t. by rewrite H3, Hl. Qed.

Lemma absolute_decoded v : (counter_leaf_to_i128 CounterU64 (to_le_bytes 8 v) ≫= i128_to_counter_value CounterU64 value_deserialize) = Some (u64 v).
Proof.
  unfold counter_leaf_to_i128. rewrite length_to_le_bytes. cbn [negb Nat.eqb]. rewrite from_to_le_bytes. change (2 ^ (8 * Z.of_nat 8)) with (2 ^ 64).
  cbn [mbind option_bind]. rewrite (i128_to_counter_value_exact _ value_serialize) by done. rewrite decide_True; [done|]. cbn. apply Z.mod_pos_bound. lia.
Qed.

(** The operation's effect on the looks of its key *)
Lemma effect_decoded bytes (e : option (option (option Z))) :
  match value_deserialize bytes with Some w => value_entry w e | None => e end =
    ((λ e, match value_deserialize bytes with Some v => Some (Some v) | None => e end) <$> e).
Proof. destruct (value_deserialize bytes); by destruct e. Qed.

Lemma increment_spec o lsn x term delta :
  overlay_ok o → units_ok (x :: term) → ov_count o + 1 < 2 ^ 64 →
  let op := RIncrement lsn (x :: term) delta None in
  ∃ o' b, apply_recovered_operation_overlay read_node lands value_serialize value_deserialize o op = Ret (o', b) ∧
    applied o o' (x :: term) (replay_effect op <$> look_of o (x :: term)).
Proof.
  intros Ho Hu Hmax op. unfold op. cbn [apply_recovered_operation_overlay].
  destruct (value_get_spec o (x :: term) Ho Hu) as (o1 & -> & Ho1 & Hc1 & Hl1). cbn [mbind option_bind].
  set (cur := match look_of o (x :: term) with Some (Some (Some v)) => v | _ => 0 end).
  assert (match match look_of o (x :: term) with Some (Some v) => v | _ => None end with
          | Some value => counter_value_to_i128 CounterU64 value_serialize value
          | None => Some 0
          end = Some cur) as ->.
  { unfold cur. destruct (look_of o (x :: term)) as [[[v|]|]|] eqn:E; try done. apply (counter_value_exact _ _ value_deserialize); [done|].
    by apply (ro_values _ _ _ _ (oo_root _ _ Ho) (x :: term)). }
  rewrite (i128_to_counter_value_exact _ value_serialize) by done.
  destruct (publish_decoded_spec o1 (x :: term) (if decide (counter_range CounterU64 (cur + delta)) then Some (cur + delta) else None)) as (o' & b & -> & Hap);
    [done|done|by case_decide; intros ? [= <-]|lia|].
  exists o', b. split; [done|]. eapply applied_from in Hap; [|done|done]. rewrite Hl1 in Hap. cbn [replay_effect].
  rewrite (decide_ext (counter_range CounterU64 (cur + delta)) (is_u64 (cur + delta))) in Hap by done.
  destruct (look_of o (x :: term)) as [e|] eqn:E; cbn [value_entry fmap option_fmap option_map] in *.
  - cbn [replay_effect]. fold cur. by destruct (decide (is_u64 (cur + delta))).
  - by destruct (decide (is_u64 (cur + delta))).
Qed.

(** One recovered operation does its effect to its key, and nothing else. *)
Lemma apply_recovered_operation_spec o op :
  overlay_ok o → units_ok (op_term op) → ov_count o + 1 < 2 ^ 64 →
  ∃ o' b, apply_recovered_operation_overlay read_node lands value_serialize value_deserialize o op = Ret (o', b) ∧
    applied o o' (op_term op) (replay_effect op <$> look_of o (op_term op)).
Proof.
  intros Ho Hu Hmax.
  assert (∀ term bytes, units_ok term → ∃ o' b, publish_decoded read_node o term (value_deserialize bytes) = Ret (o', b) ∧
    applied o o' term ((λ e, match value_deserialize bytes with Some v => Some (Some v) | None => e end) <$> look_of o term)) as Hdec.
  { intros term bytes Ht. destruct (publish_decoded_spec o term (value_deserialize bytes)) as (o' & b & -> & Hap); [done|done|by apply Hu64|done|].
    exists o', b. split; [done|]. by rewrite effect_decoded in Hap. }
  destruct op as [lsn term [bytes|]|lsn term|lsn term delta [v|]|lsn term bytes|lsn term bytes [|]];
    cbn [op_term apply_recovered_operation_overlay negb] in *.
  - by apply Hdec.
  - destruct (insert_any_spec o term Ho Hu Hmax) as (o' & -> & Hap). exists o', true. split; [done|].
    by destruct (look_of o term) as [[]|].
  - destruct (remove_any_spec o term Ho Hu Hmax) as (o' & -> & Hap). exists o', true. split; [done|].
    by destruct (look_of o term) as [[]|].
  - rewrite absolute_decoded. destruct (publish_decoded_spec o term (Some (u64 v))) as (o' & b & -> & Hap); [done|done| |done|].
    { intros w [= <-]. apply Z.mod_pos_bound. lia. }
    exists o', b. split; [done|]. by destruct (look_of o term).
  - destruct term as [|x term]; [|by apply increment_spec].
    exists o, true. split; [done|]. split; [|done]. replace (replay_effect _ <$> look_of o []) with (look_of o []) by (by destruct (look_of o [])).
    apply updated_same; [apply Ho..|done|done].
  - by apply Hdec.
  - by apply Hdec.
  - exists o, false. split; [done|]. split; [|done].
    replace (replay_effect _ <$> look_of o term) with (look_of o term) by (by destruct (look_of o term)).
    apply updated_same; [apply Ho..|done|done].
Qed.

(** The effects of the operations on a key, one after the other *)
Definition run_effects (ops : list RecoveredOperation) (t : list Z) (e : option (option Z)) : option (option Z) :=
  run_ops replay_effect e (filter (λ op, op_term op = t) ops).

Lemma apply_recovered_spec o n ops :
  overlay_ok o → Forall (λ op, units_ok (op_term op)) ops → ov_count o + zlen ops < 2 ^ 64 →
  ∃ o' n', apply_recovered read_node lands value_serialize value_deserialize o n ops = Ret (o', n') ∧ overlay_ok o' ∧
    ov_count o' ≤ ov_count o + zlen ops ∧ ∀ t, look_of o' t = run_effects ops t <$> look_of o t.
Proof.
  revert o n. induction ops as [|op ops IH]; intros o n Ho Hu Hmax; cbn [apply_recovered].
  { exists o, n. split; [done|]. split; [done|]. rewrite zlen_nil. split; [lia|]. intros t. unfold run_effects. cbn. by destruct (look_of o t). }
  apply Forall_cons in Hu as [Hu Hus]. rewrite zlen_cons in *. pose proof (zlen_nonneg ops).
  destruct (apply_recovered_operation_spec o op Ho Hu) as (o1 & b & -> & (_ & Hc1 & Hl1) & Ho1); [lia|]. cbn [mbind option_bind].
  destruct (IH o1 (if b then inc n else n) Ho1 Hus) as (o' & n' & -> & Ho' & Hc' & Hl'); [lia|].
  exists o', n'. split; [done|]. split; [done|]. split; [lia|]. intros t. rewrite Hl', Hl1. unfold run_effects. rewrite filter_cons.
  destruct (decide (t = op_term op)) as [->|Hne].
  - rewrite decide_True by done. cbn. by destruct (look_of o (op_term op)).
  - by rewrite decide_False by done.
Qed.

(** *** The log of a crash *)

(** The least sequence number seen, starting from [m] *)
Definition least_seen (m : option Z) (records : list (Z * WalRecord)) : option Z :=
  foldl (λ m e, Some (match m with Some m => Z.min m e.1 | None => e.1 end)) m records.

Lemma least_seen_spec m records :
  match least_seen m records with
  | None => m = None ∧ records = []
  | Some l => (m = Some l ∨ ∃ e, e ∈ records ∧ e.1 = l) ∧ (∀ e, e ∈ records → l ≤ e.1) ∧ ∀ l', m = Some l' → l ≤ l'
  end.
Proof.
  revert m. induction records as [|e records IH]; intros m; cbn.
  { destruct m as [l|]; [|done]. split_and!; [by left|by intros e ?%elem_of_nil|]. intros l' [= ->]. lia. }
  fold (least_seen (Some (match m with Some m => Z.min m e.1 | None => e.1 end)) records).
  specialize (IH (Some (match m with Some m => Z.min m e.1 | None => e.1 end))). destruct (least_seen _ records) as [l|]; [|by destruct IH].
  destruct IH as (Hfrom & Hle & Hm). specialize (Hm _ eq_refl). split_and!.
  - destruct Hfrom as [[= <-]|(x & Hx & Hl)]; [|right; exists x; set_solver].
    destruct m as [m|]; [|right; exists e; set_solver]. destruct (Z.min_spec m e.1) as [[_ ->]|[_ ->]]; [by left|right; exists e; set_solver].
  - intros x [->|Hx]%elem_of_cons; [|by apply Hle]. destruct m; lia.
  - intros l' ->. lia.
Qed.

Lemma drain_records_spec records regimes m results :
  ∃ regimes', drain_records Overlay None (records, regimes, m) results =
      (records ++ trusted results, regimes', least_seen m (trusted results)) ∧
    ∀ lsn, regimes' !! lsn = if decide (lsn ∈ (trusted results).*1) then Some Overlay else regimes !! lsn.
Proof.
  revert records regimes m. induction results as [|[[lsn record]|e] results IH]; intros records regimes m; cbn [drain_records].
  - exists regimes. by rewrite app_nil_r.
  - rewrite trusted_cons. destruct (IH (records ++ [(lsn, record)]) (<[lsn := Overlay]> regimes) (Some (match m with Some m => Z.min m lsn | None => lsn end)))
      as (regimes' & -> & Hr). exists regimes'. rewrite <-app_assoc. split; [done|]. intros lsn'. rewrite Hr. cbn. destruct (decide (lsn' = lsn)) as [->|Hne].
    + rewrite lookup_insert_eq. assert (lsn ∈ lsn :: (trusted results).*1) by set_solver. by repeat case_decide.
    + rewrite lookup_insert_ne by done. apply decide_ext. set_solver.
  - exists regimes. by rewrite app_nil_r.
Qed.

Lemma drain_overlay_file elapsed h header p tail :
  header_ok h → WalHeader_regime h = Overlay → WalHeader_to_bytes h = Ret header → Forall (λ e, frame_ok e.1 e.2) p → torn tail →
  ∃ regimes, drain_segments elapsed ([], ∅, None) [Contents (header ++ frames p ++ tail)] = Ret (p, regimes, least_seen None p) ∧
    ∀ lsn, lsn ∈ p.*1 → regimes !! lsn = Some Overlay.
Proof.
  intros Hh Hr Hb Hp Ht. destruct (header_roundtrip_ok h [] Hh) as (buf & E & Hlen & Hread). rewrite Hb in E. injection E as <-.
  rewrite app_nil_r in Hread. cbn [drain_segments]. unfold segment_regime, WalReader_read_header. cbn [File_open].
  rewrite read_exact_app by (unfold zlen; by rewrite Hlen). cbn [fst]. rewrite Hread. cbn [mbind option_bind]. rewrite Hr.
  cbn [tx_surviving_lsns mbind option_bind WalReader_new File_open].
  rewrite <-Hlen, drop_app_length, read_log_torn by done. cbn [mbind option_bind].
  destruct (drain_records_spec [] ∅ None (map Ok p ++ if zlen tail <? RECORD_HEADER_SIZE then [] else [Err UnexpectedEof])) as (regimes & -> & Hreg).
  rewrite trusted_torn in *. replace (trusted (if zlen tail <? _ then _ else _)) with (@nil (Z * WalRecord)) in * by (by destruct (_ <? _)).
  rewrite app_nil_r in *. cbn [app] in *. exists regimes. split; [done|]. intros lsn Hlsn. by rewrite Hreg, decide_True.
Qed.

(** Only the regimes of the log's own records matter. *)
Lemma reconcile_regime_ext records loaded checkpoint f g :
  (∀ lsn, lsn ∈ records.*1 → f lsn = g lsn) →
  reconcile_lww_with_regime records loaded checkpoint f = reconcile_lww_with_regime records loaded checkpoint g.
Proof.
  intros H. unfold reconcile_lww_with_regime. do 2 f_equal. rewrite !flat_map_concat_map. f_equal. apply map_ext_in. intros [lsn r] Hin%list_elem_of_In.
  unfold stamp_record. rewrite H; [done|]. apply list_elem_of_fmap. by exists (lsn, r).
Qed.

Lemma reconcile_elem records loaded checkpoint regime_of op :
  op ∈ reconcile_lww_with_regime records loaded checkpoint regime_of →
  ∃ lsn record, (lsn, record) ∈ records ∧ op ∈ recovered_operations_from_record lsn record.
Proof.
  unfold reconcile_lww_with_regime. intros (s & -> & Hs)%list_elem_of_fmap. rewrite sort_stable_perm in Hs.
  apply elem_of_stamp_log in Hs. destruct s as [[g lsn] op]. destruct Hs as (record & Hin & _ & Hop & _). by exists lsn, record.
Qed.

Lemma recovered_units lsn record op :
  WalCodec.record_ok record → op ∈ recovered_operations_from_record lsn record → units_ok (op_term op).
Proof.
  intros Hr Hop.
  assert (∀ t, bytes_ok t → units_ok t) as Hbytes. { intros t [Ht _]. eapply Forall_impl; [exact Ht|]. done. }
  destruct record as [| | | | | | | |? ? ? [|]|entries|entries| | | |]; cbn in Hop; try by apply elem_of_nil in Hop.
  all: try (apply list_elem_of_singleton in Hop as ->; cbn in Hr |- *; apply Hbytes; tauto).
  all: apply list_elem_of_fmap in Hop as ([t v] & -> & Hin); cbn; destruct Hr as [_ Hr]; rewrite Forall_forall in Hr; apply Hbytes, (Hr _ Hin).
Qed.

(** Draining the log a crash leaves: whole records under a header of the overlay
    regime, then the remains of an append.  Every key ends with the effects of its
    ranked operations, in the order of their generations. *)
Lemma drain_crash_spec elapsed o h header p tail loaded checkpoint :
  overlay_ok o → header_ok h → WalHeader_regime h = Overlay → WalHeader_to_bytes h = Ret header → Forall (λ e, frame_ok e.1 e.2) p → torn tail →
  (loaded = false → p = [] ∨ ∃ e, e ∈ p ∧ e.1 ≤ 1) →
  let winners := reconcile_lww p loaded checkpoint Overlay in
  ov_count o + zlen winners < 2 ^ 64 →
  ∃ o' n, drain_segments_into_overlay read_node lands value_serialize value_deserialize elapsed o
      [Contents (header ++ frames p ++ tail)] loaded checkpoint = Ret (o', Ok n) ∧ overlay_ok o' ∧
    ∀ t, look_of o' t = run_effects winners t <$> look_of o t.
Proof.
  intros Ho Hh Hr Hb Hp Ht Hgap winners Hmax. unfold drain_segments_into_overlay.
  destruct (drain_overlay_file elapsed h header p tail Hh Hr Hb Hp Ht) as (regimes & -> & Hreg). cbn [mbind option_bind].
  assert (match least_seen None p with
          | Some min_lsn => negb loaded && (Z.min (2 ^ 64 - 1) ((if loaded then Z.max checkpoint (Z.max 0 (min_lsn - 1)) else 0) + 1) <? min_lsn)
          | None => false
          end = false) as ->.
  { pose proof (least_seen_spec None p) as Hl. destruct (least_seen None p) as [l|]; [|done]. destruct loaded; [done|]. cbn [negb andb].
    destruct Hl as ([|(x & Hx & _)] & Hle & _); [done|]. destruct (Hgap eq_refl) as [->|(e & He & H1)]; [by apply elem_of_nil in Hx|].
    specialize (Hle e He). apply Z.ltb_ge. lia. }
  rewrite (reconcile_regime_ext p loaded checkpoint _ (λ _, Overlay)) by (intros lsn Hlsn; by rewrite Hreg).
  fold (reconcile_lww p loaded checkpoint Overlay). fold winners.
  destruct (apply_recovered_spec o 0 winners Ho) as (o' & n & -> & Ho' & _ & Hl); [|done|by exists o', n].
  apply Forall_forall. intros op Hop. apply reconcile_elem in Hop as (lsn & record & Hin & Hop). rewrite Forall_forall in Hp.
  eapply recovered_units; [|done]. apply (Hp _ Hin).
Qed.

End applying.
