(* ===== verification/OverlayDurable.v ===== *)
(** * Durable writes of the overlay

    The threads that share an overlay of [u64] values under byte keys, with its
    write-ahead log: the durable membership and value writes
    (src/src/persistent_artrie/lockfree_cas.rs, [DurableOverlayWrite] of
    src/src/persistent_artrie/core/overlay/durable_write.rs with the byte trie's hooks in
    src/src/persistent_artrie/overlay_write_mode.rs, the retry loop [drive_cas] of
    src/src/persistent_artrie/core/overlay/cas_walk.rs) and the lock-free reads.

    A thread's program counter says where in its method it is.  One step is one access to
    what threads share: the lookup cache, the published root, the commit sequence, an
    append to the log, a sync of the log, the committed watermark.  Steps of different
    threads interleave in any way.  The log grows at its end; an append or a sync may
    fail.  Every attempt of a faulting read looks at one published root, so the read is
    one step; the roots that it and the eviction publish are steps of their own, which
    take place at any time.

    [mc_published] and [mc_replies] record what happened, and no step looks at them. *)

From stdpp Require Import prelude gmap sorting.
From S2P Require Import Prelude Bytes SwizzledPtr WalCodec WalHeader WalFrame Reconcile Recovery Rebuild Watermark EdgeStore OverlayNode OverlayWalk OverlayFault CounterCodec OverlayReplay.
Local Open Scope Z_scope.
Local Open Scope list_scope.

(** [std::str::from_utf8] accepts exactly the well-formed sequences. *)
Fixpoint valid_utf8 (bs : list Z) : bool :=
  let within lo hi b := (lo <=? b) && (b <=? hi) in
  let cont := within 128 191 in
  match bs with
  | [] => true
  | b0 :: bs =>
      if b0 <? 128 then valid_utf8 bs
      else
        match bs with
        | [] => false
        | b1 :: bs =>
            if within 194 223 b0 then cont b1 && valid_utf8 bs
            else
              match bs with
              | [] => false
              | b2 :: bs =>
                  if within 224 239 b0 then
                    within (if b0 =? 224 then 160 else 128) (if b0 =? 237 then 159 else 191) b1 && cont b2 && valid_utf8 bs
                  else
                    match bs with
                    | [] => false
                    | b3 :: bs =>
                        within 240 244 b0 && within (if b0 =? 240 then 144 else 128) (if b0 =? 244 then 143 else 191) b1 &&
                        cont b2 && cont b3 && valid_utf8 bs
                    end
              end
        end
  end.

Inductive DurabilityPolicy : Set := Immediate | GroupCommit | Periodic | NoDurability.

(** The policies [durable_policy_gate] lets through, which are those that sync *)
Definition synchronous (p : DurabilityPolicy) : bool :=
  match p with Immediate | GroupCommit => true | Periodic | NoDurability => false end.

Inductive operation : Type :=
| InsertCas (term : list Z)
| RemoveCas (term : list Z)
| InsertValue (term : list Z) (value : Z)
| UpsertValue (term : list Z) (value : Z)
| SwapValue (term : list Z) (expected : option Z) (new : Z)
| IncrementCas (term : list Z) (delta : Z)
| Contains (term : list Z)
| Get (term : list Z).

Definition op_key (op : operation) : list Z :=
  match op with
  | InsertCas t | RemoveCas t | InsertValue t _ | UpsertValue t _ | SwapValue t _ _ | IncrementCas t _ | Contains t | Get t => t
  end.

Inductive reply : Type :=
| RBool (b : bool)
| RCount (n : Z)
| RValue (v : option Z)
| RErr.

(** A published root; no two publications have the same number. *)
Record revision := mkRevision {
  rv_id : nat;
  rv_node : nat;
  rv_count : Z;
}.

Record shared := mkShared {
  sh_mem : list (OverlayNode Z);
  sh_rev : revision;
  sh_seq : Z;  (* commit_seq *)
  sh_wal : list (Z * WalRecord);
  sh_synced : nat;  (* the records of the log known durable *)
  sh_cache : gset (list Z);
  sh_watermark : CommittedWatermark;
  sh_policy : DurabilityPolicy;
}.

Inductive pc : Type :=
| Idle
| Starting (op : operation)
| Probing (op : operation)  (* before the presence check *)
| FaultProbing (op : operation)
| Hoisted (op : operation) (r : reply)  (* a no-op, before its effect on the cache *)
| Probed (op : operation) (existed : bool)  (* before the append *)
| Appended (op : operation) (existed : bool) (lsn : Z)  (* before the sync *)
| Pending (op : operation) (existed : bool) (lsn : Z)  (* at the head of the retry loop *)
| Loaded (op : operation) (existed : bool) (lsn : Z) (rev : revision)
| Claimed (op : operation) (existed : bool) (lsn : Z) (rev : revision) (gen : Z)
| Ready (op : operation) (existed : bool) (lsn : Z) (rev : revision) (gen : Z) (new : nat) (delta : Z) (r : reply)
| Visible (op : operation) (lsn gen : Z) (r : reply)  (* before the effect on the cache *)
| Ranking (op : operation) (lsn gen : Z) (r : reply)
| RankAppended (op : operation) (lsn gen rank_lsn : Z) (r : reply)
| Marking (op : operation) (committed : option Z) (lsns : list Z) (r : reply)
| Burning (op : operation) (lsn : Z)  (* nothing to do, before the effect on the cache *)
| Replying (op : operation) (committed : option Z) (r : reply)
| Crashed.

(** ** The shared state *)

Definition set_mem (s : shared) (m : list (OverlayNode Z)) : shared :=
  mkShared m (sh_rev s) (sh_seq s) (sh_wal s) (sh_synced s) (sh_cache s) (sh_watermark s) (sh_policy s).
Definition set_cache (s : shared) (c : gset (list Z)) : shared :=
  mkShared (sh_mem s) (sh_rev s) (sh_seq s) (sh_wal s) (sh_synced s) c (sh_watermark s) (sh_policy s).

(** A new root takes the place of the current one. *)
Definition publish (s : shared) (m : list (OverlayNode Z)) (node : nat) (count : Z) : shared :=
  mkShared m (mkRevision (S (rv_id (sh_rev s))) node count) (sh_seq s) (sh_wal s) (sh_synced s) (sh_cache s) (sh_watermark s) (sh_policy s).

Definition mark_positive_cache (s : shared) (t : list Z) : shared := set_cache s ({[t]} ∪ sh_cache s).
Definition invalidate_positive_cache (s : shared) (t : list Z) : shared := set_cache s (sh_cache s ∖ {[t]}).

(** [claim_commit_seq]; the sequence starts with the log and does not reach [2^64]. *)
Definition claim_generation (s : shared) : shared * Z :=
  let gen := sh_seq s + 1 in
  (mkShared (sh_mem s) (sh_rev s) gen (sh_wal s) (sh_synced s) (sh_cache s) (sh_watermark s) (sh_policy s), gen).

Definition mark (s : shared) (lsn : Z) : shared :=
  mkShared (sh_mem s) (sh_rev s) (sh_seq s) (sh_wal s) (sh_synced s) (sh_cache s) (mark_committed (sh_watermark s) lsn) (sh_policy s).

Section durable.
Context (read_node : ArenaSlot → result (disk_node Z) TrieError).
Context (value_serialize : Z → option (list Z)) (value_deserialize : list Z → option Z).
Context (first_lsn : Z).

Definition append_record (s : shared) (r : WalRecord) : shared * Z :=
  let lsn := first_lsn + zlen (sh_wal s) in
  (mkShared (sh_mem s) (sh_rev s) (sh_seq s) (sh_wal s ++ [(lsn, r)]) (sh_synced s) (sh_cache s) (sh_watermark s) (sh_policy s), lsn).

(** [sync_wal_after_append]: under a synchronous policy a sync, which covers the whole
    log, and may fail *)
Definition sync_wal (ok : bool) (s : shared) : shared * bool :=
  if negb (synchronous (sh_policy s)) then (s, true)
  else if ok then
    (mkShared (sh_mem s) (sh_rev s) (sh_seq s) (sh_wal s) (length (sh_wal s)) (sh_cache s) (sh_watermark s) (sh_policy s), true)
  else (s, false).

(** ** The operations' parts *)

Definition serialize_opt (v : option Z) : option (option (list Z)) :=
  match v with
  | None => Some None
  | Some v => bytes ← value_serialize v; Some (Some bytes)
  end.

(** The record an operation logs; [None] when it cannot be built *)
Definition op_record (op : operation) : option WalRecord :=
  match op with
  | InsertCas t => Some (Insert t None)
  | RemoveCas t => Some (Remove t)
  | InsertValue t v => bytes ← value_serialize v; Some (Insert t (Some bytes))
  | UpsertValue t v => bytes ← value_serialize v; Some (Upsert t bytes)
  | SwapValue t _ v => bytes ← value_serialize v; Some (Upsert t bytes)
  | IncrementCas t d => if d <=? 2 ^ 63 - 1 then Some (BatchIncrement [(t, d)]) else None
  | Contains _ | Get _ => None
  end.

(** The effect on the cache of an operation that is done *)
Definition touch_cache (s : shared) (op : operation) : shared :=
  match op with
  | InsertCas t | InsertValue t _ | UpsertValue t _ | SwapValue t _ _ => mark_positive_cache s t
  | RemoveCas t => invalidate_positive_cache s t
  | IncrementCas _ _ | Contains _ | Get _ => s
  end.

(** [find_leaf_lockfree] on the current root, and the value there *)
Definition find_current (s : shared) (t : list Z) : exec (option nat) := find_leaf_iterative U8 (sh_mem s) (rv_node (sh_rev s)) t.

Definition leaf_value (m : list (OverlayNode Z)) (leaf : option nat) : exec (option Z) :=
  match leaf with
  | None => Ret None
  | Some a => n ← m !! a; Ret (on_value n)
  end.

(** A faulting read of the current root *)
Definition read_faulting (s : shared) (t : list Z) : exec (shared * result (option nat) TrieError) :=
  '(m, _, found) ← find_leaf_faulting U8 read_node (λ _, false) (sh_mem s) (rv_node (sh_rev s)) t DEFAULT_MAX_FAULTIN_RETRIES;
  Ret (set_mem s m, found).

Definition found_bool {A} (o : option A) : bool := match o with Some _ => true | None => false end.

(** The presence check of each operation *)
Definition probe_insert (s : shared) (t : list Z) : exec (shared * pc) :=
  found ← find_current s t;
  Ret (s, if found_bool found then Hoisted (InsertCas t) (RBool false) else Probed (InsertCas t) false).

Definition probe_remove (s : shared) (t : list Z) : exec (shared * pc) :=
  found ← find_current s t;
  Ret (s, if found_bool found then Probed (RemoveCas t) true
          else match t with [] => Hoisted (RemoveCas t) (RBool false) | _ => FaultProbing (RemoveCas t) end).

Definition probe_insert_value (s : shared) (t : list Z) (v : Z) : exec (shared * pc) :=
  found ← find_current s t;
  Ret (s, if found_bool found then Replying (InsertValue t v) None (RBool false) else Probed (InsertValue t v) false).

Definition probe_upsert (s : shared) (t : list Z) (v : Z) : exec (shared * pc) :=
  found ← find_current s t;
  Ret (s, Probed (UpsertValue t v) (found_bool found)).

Definition probe_swap (s : shared) (t : list Z) (expected : option Z) (v : Z) : exec (shared * pc) :=
  found ← find_current s t;
  current ← leaf_value (sh_mem s) found;
  let op := SwapValue t expected v in
  Ret (s, match serialize_opt current, serialize_opt expected with
          | Some c, Some e => if bool_decide (c = e) then Probed op (found_bool found) else Replying op None (RBool false)
          | _, _ => Replying op None RErr
          end).

Definition contains_lockfree (s : shared) (t : list Z) : exec (shared * pc) :=
  '(s, r) ← read_faulting s t;
  match r with
  | Ok found => Ret (s, Replying (Contains t) None (RBool (found_bool found)))
  | Err _ =>
      found ← find_in_lockfree_trie U8 (sh_mem s) (rv_node (sh_rev s)) t;
      Ret (s, Replying (Contains t) None (RBool found))
  end.

Definition get_lockfree (s : shared) (t : list Z) : exec (shared * pc) :=
  '(s, r) ← read_faulting s t;
  found ← match r with Ok found => Ret found | Err _ => find_current s t end;
  v ← leaf_value (sh_mem s) found;
  Ret (s, Replying (Get t) None (RValue v)).

Definition probe (s : shared) (op : operation) : exec (shared * pc) :=
  match op with
  | InsertCas t => probe_insert s t
  | RemoveCas t => probe_remove s t
  | InsertValue t v => probe_insert_value s t v
  | UpsertValue t v => probe_upsert s t v
  | SwapValue t expected v => probe_swap s t expected v
  | IncrementCas _ _ => Ret (s, Probed op false)
  | Contains t => contains_lockfree s t
  | Get t => get_lockfree s t
  end.

(** [find_leaf_faulting(...)?] before a remove *)
Definition fault_probe (s : shared) (op : operation) : exec (shared * pc) :=
  '(s, r) ← read_faulting s (op_key op);
  Ret (s, match r with
          | Err _ => Replying op None RErr
          | Ok (Some _) => Probed op true
          | Ok None => Hoisted op (RBool false)
          end).

(** The loop's head for the root's own membership: is it already so? *)
Definition root_in_state (op : operation) (m : list (OverlayNode Z)) (rev : revision) : exec bool :=
  match op with
  | InsertCas [] => n ← m !! rv_node rev; Ret (onode_is_final n)
  | RemoveCas [] => n ← m !! rv_node rev; Ret (negb (onode_is_final n))
  | _ => Ret false
  end.

(** What an attempt does on its snapshot: the next root with the change of the count
    and the reply, nothing to do, or an error *)
Inductive attempted : Type :=
| Next (new : nat) (delta : Z) (r : reply)
| NotApplied
| AttemptFailed.

Definition build_outcome (r : result nat DurableBuildError) (delta : Z) : attempted :=
  match r with
  | Ok new => Next new delta (RBool true)
  | Err BAlreadyExists => NotApplied
  | Err (BFailure _) => AttemptFailed
  end.

(** [build_value_path_iterative] and the change of the count *)
Definition build_value (m : list (OverlayNode Z)) (root : nat) (t : list Z) (v : Z) (was_present : bool) (r : reply) :
    exec (list (OverlayNode Z) * attempted) :=
  '(m, built) ← build_value_path_iterative U8 read_node m root t v;
  Ret (m, match built with
          | Ok new => Next new (if was_present then 0 else 1) r
          | Err _ => AttemptFailed
          end).

(** One round of [publish_root_cas_ranked] *)
Definition root_attempt (m : list (OverlayNode Z)) (root : nat) (transform : OverlayNode Z → OverlayNode Z) :
    exec (list (OverlayNode Z) * attempted) :=
  old ← m !! root;
  let new := transform old in
  let delta := match onode_is_final old, onode_is_final new with false, true => 1 | true, false => -1 | _, _ => 0 end in
  let '(m, a) := oarc_new m new in
  Ret (m, Next a delta (RBool true)).

Definition attempt_insert (m : list (OverlayNode Z)) (root : nat) (t : list Z) : exec (list (OverlayNode Z) * attempted) :=
  match t with
  | [] => root_attempt m root (as_final U8)
  | _ => '(m, r) ← build_final_path_iterative U8 read_node m root t 0; Ret (m, build_outcome r 1)
  end.

Definition attempt_remove (m : list (OverlayNode Z)) (root : nat) (t : list Z) : exec (list (OverlayNode Z) * attempted) :=
  match t with
  | [] => root_attempt m root (as_non_final U8)
  | _ => '(m, r) ← build_remove_path_iterative U8 read_node m root t 0; Ret (m, build_outcome r (-1))
  end.

Inductive ValueWriteMode : Type :=
| InsertOnce
| Upserting
| CompareAndSwapping (expected_bytes : option (list Z)).

(** One round of [value_publish_inner] *)
Definition value_publish_inner (m : list (OverlayNode Z)) (root : nat) (t : list Z) (v : Z) (mode : ValueWriteMode) (r : reply) :
    exec (list (OverlayNode Z) * attempted) :=
  found ← find_leaf_iterative U8 m root t;
  match mode with
  | InsertOnce => if found_bool found then Ret (m, NotApplied) else build_value m root t v false r
  | Upserting => build_value m root t v (found_bool found) r
  | CompareAndSwapping expected_bytes =>
      current ← leaf_value m found;
      match serialize_opt current with
      | Some c => if bool_decide (c = expected_bytes) then build_value m root t v (found_bool found) r else Ret (m, NotApplied)
      | None => Ret (m, AttemptFailed)
      end
  end.

(** The increment's read of the counter: on the current root, and on an error on the
    snapshot *)
Definition read_count (s : shared) (root : nat) (t : list Z) : exec (shared * Z) :=
  '(s, r) ← read_faulting s t;
  found ← match r with Ok found => Ret found | Err _ => find_leaf_iterative U8 (sh_mem s) root t end;
  v ← leaf_value (sh_mem s) found;
  Ret (s, default 0 v).

(** One round of [try_increment_cas_inner] *)
Definition try_increment_cas_inner (s : shared) (root : nat) (t : list Z) (delta : Z) : exec (shared * attempted) :=
  found ← find_leaf_iterative U8 (sh_mem s) root t;
  '(s, cur) ← read_count s root t;
  match i128_to_counter_value CounterU64 value_deserialize (cur + delta) with
  | None => Ret (s, AttemptFailed)
  | Some new_val =>
      '(m, a) ← build_value (sh_mem s) root t new_val (found_bool found) (RCount new_val);
      Ret (set_mem s m, a)
  end.

Definition attempt (s : shared) (op : operation) (existed : bool) (rev : revision) : exec (shared * attempted) :=
  let m := sh_mem s in
  let root := rv_node rev in
  let lift r := '(m, a) ← r; Ret (set_mem s m, a) in
  match op with
  | InsertCas t => lift (attempt_insert m root t)
  | RemoveCas t => lift (attempt_remove m root t)
  | InsertValue t v => lift (value_publish_inner m root t v InsertOnce (RBool true))
  | UpsertValue t v => lift (value_publish_inner m root t v Upserting (RBool (negb existed)))
  | SwapValue t expected v =>
      match serialize_opt expected with
      | Some expected_bytes => lift (value_publish_inner m root t v (CompareAndSwapping expected_bytes) (RBool true))
      | None => Ret (s, AttemptFailed)
      end
  | IncrementCas t d => try_increment_cas_inner s root t d
  | Contains _ | Get _ => Ret (s, AttemptFailed)
  end.

(** [compare_exchange_revision_counted] *)
Definition cas_root (s : shared) (rev : revision) (new : nat) (delta : Z) : exec (option shared) :=
  let count := rv_count rev + delta in
  if (0 <=? count) && (count <? 2 ^ 64) then
    Ret (if bool_decide (rv_id (sh_rev s) = rv_id rev) then Some (publish s (sh_mem s) new count) else None)
  else Panic.

(** [durable_policy_gate], and the cache's answer where the operation asks it; an
    increment's key has to be text. *)
Definition start (s : shared) (op : operation) : pc :=
  let gated p := if synchronous (sh_policy s) then p else Replying op None RErr in
  match op with
  | Contains t => if bool_decide (t ∈ sh_cache s) then Replying op None (RBool true) else Probing op
  | Get _ => Probing op
  | InsertCas t => gated (if bool_decide (t ∈ sh_cache s) then Replying op None (RBool false) else Probing op)
  | IncrementCas t _ => if valid_utf8 t then gated (Probing op) else Replying op None RErr
  | RemoveCas _ | InsertValue _ _ | UpsertValue _ _ | SwapValue _ _ _ => gated (Probing op)
  end.

(** ** A thread's next step

    [ok] says whether an append or a sync of this step succeeds. *)

(** The retry loop: load the root, claim a generation, build the next root, publish it.
    A lost race starts over. *)
Definition drive_cas (s : shared) (p : pc) : exec (shared * pc) :=
  match p with
  | Pending op existed lsn => Ret (s, Loaded op existed lsn (sh_rev s))
  | Loaded op existed lsn rev =>
      in_state ← root_in_state op (sh_mem s) rev;
      if (in_state : bool) then Ret (s, Burning op lsn)
      else let '(s, gen) := claim_generation s in Ret (s, Claimed op existed lsn rev gen)
  | Claimed op existed lsn rev gen =>
      '(s, a) ← attempt s op existed rev;
      Ret (s, match a with
              | Next new delta r => Ready op existed lsn rev gen new delta r
              | NotApplied => Burning op lsn
              | AttemptFailed => Replying op None RErr
              end)
  | Ready op existed lsn rev gen new delta r =>
      published ← cas_root s rev new delta;
      Ret (match published with
           | Some s => (s, Visible op lsn gen r)
           | None => (s, Pending op existed lsn)
           end)
  | Visible op lsn gen r => Ret (touch_cache s op, Ranking op lsn gen r)
  | Burning op lsn =>
      Ret (match op with InsertCas _ | RemoveCas _ => touch_cache s op | _ => s end, Marking op None [lsn] (RBool false))
  | _ => Panic
  end.

(** The rank of a visible write, and the marks; a burned record has only its mark. *)
Definition commit_rank_and_mark (ok : bool) (s : shared) (p : pc) : exec (shared * pc) :=
  match p with
  | Ranking op lsn gen r =>
      if (ok : bool) then
        let '(s, rank_lsn) := append_record s (CommitRank lsn (op_key op) gen) in
        Ret (s, RankAppended op lsn gen rank_lsn r)
      else Ret (s, Replying op None RErr)
  | RankAppended op lsn gen rank_lsn r =>
      let '(s, synced) := sync_wal ok s in
      Ret (s, if (synced : bool) then Marking op (Some lsn) [lsn; rank_lsn] r else Replying op None RErr)
  | Marking op committed lsns r =>
      Ret (match lsns with
           | [] => (s, Replying op committed r)
           | lsn :: lsns => (mark s lsn, Marking op committed lsns r)
           end)
  | _ => Panic
  end.

(** The data record: appended, then synced *)
Definition append_durable_wal (ok : bool) (s : shared) (p : pc) : exec (shared * pc) :=
  match p with
  | Probed op existed =>
      match op_record op with
      | None => Ret (s, Replying op None RErr)
      | Some record =>
          if (ok : bool) then let '(s, lsn) := append_record s record in Ret (s, Appended op existed lsn)
          else Ret (s, Replying op None RErr)
      end
  | Appended op existed lsn =>
      let '(s, synced) := sync_wal ok s in
      Ret (s, if (synced : bool) then Pending op existed lsn else Replying op None RErr)
  | _ => Panic
  end.

Definition advance (ok : bool) (s : shared) (p : pc) : exec (shared * pc) :=
  match p with
  | Idle | Crashed => Panic
  | Starting op => Ret (s, start s op)
  | Probing op => probe s op
  | FaultProbing op => fault_probe s op
  | Hoisted op r => Ret (touch_cache s op, Replying op None r)
  | Probed _ _ | Appended _ _ _ => append_durable_wal ok s p
  | Pending _ _ _ | Loaded _ _ _ _ | Claimed _ _ _ _ _ | Ready _ _ _ _ _ _ _ _ | Visible _ _ _ _ | Burning _ _ => drive_cas s p
  | Ranking _ _ _ _ | RankAppended _ _ _ _ _ | Marking _ _ _ _ => commit_rank_and_mark ok s p
  | Replying op committed r => Ret (s, Idle)
  end.

(** ** The system *)

(** The values an operation writes are [u64]s, and its key is bytes. *)
Definition op_ok (op : operation) : Prop :=
  units_ok U8 (op_key op) ∧
  match op with InsertValue _ v | UpsertValue _ v | SwapValue _ _ v => is_u64 v | IncrementCas _ d => is_u64 d | _ => True end.

(** A publication: the generation, the data record, the operation and its reply *)
Record publication := mkPub {
  pb_gen : Z;
  pb_lsn : Z;
  pb_op : operation;
  pb_reply : reply;
}.

Record machine := mkMachine {
  mc_shared : shared;
  mc_threads : nat → pc;
  mc_published : list publication;
  mc_replies : list (operation * option Z * reply);
}.

Definition set_thread (threads : nat → pc) (i : nat) (p : pc) : nat → pc := λ j, if decide (j = i) then p else threads j.

(** What the step from [p] to [p'] adds to the history *)
Definition published_by (p p' : pc) : list publication :=
  match p, p' with
  | Ready op _ lsn _ gen _ _ r, Visible _ _ _ _ => [mkPub gen lsn op r]
  | _, _ => []
  end.

Definition replied_by (p : pc) : list (operation * option Z * reply) :=
  match p with Replying op committed r => [(op, committed, r)] | _ => [] end.

(** Loading an evicted node, and evicting: the published root changes and its content
    does not. *)
Inductive maintenance (s : shared) : shared → Prop :=
| maintain_fault key m' root' d :
    fault_walk U8 read_node (sh_mem s) None [] (rv_node (sh_rev s)) key 0 (length key) = Ret (m', Faulted root' d) →
    units_ok U8 key → maintenance s (publish s m' root' (rv_count (sh_rev s)))
| maintain_evict b frames candidates m' root' evicted :
    evict_chain U8 b (sh_mem s) (rv_node (sh_rev s)) frames candidates = Ret (Some (m', root', evicted)) →
    frames_ok U8 frames → maintenance s (publish s m' root' (rv_count (sh_rev s))).

Inductive step (allowed : DurabilityPolicy → Prop) (s : machine) : machine → Prop :=
| step_invoke i op :
    mc_threads s i = Idle → op_ok op →
    step allowed s (mkMachine (mc_shared s) (set_thread (mc_threads s) i (Starting op)) (mc_published s) (mc_replies s))
| step_advance i ok sh p :
    mc_threads s i ≠ Idle → advance ok (mc_shared s) (mc_threads s i) = Ret (sh, p) →
    step allowed s (mkMachine sh (set_thread (mc_threads s) i p) (mc_published s ++ published_by (mc_threads s i) p)
                      (mc_replies s ++ replied_by (mc_threads s i)))
| step_panic i ok :
    mc_threads s i ≠ Idle → advance ok (mc_shared s) (mc_threads s i) = Panic →
    step allowed s (mkMachine (mc_shared s) (set_thread (mc_threads s) i Crashed) (mc_published s) (mc_replies s))
| step_maintain sh :
    maintenance (mc_shared s) sh → step allowed s (mkMachine sh (mc_threads s) (mc_published s) (mc_replies s))
| step_policy policy :
    allowed policy →
    step allowed s (mkMachine (mkShared (sh_mem (mc_shared s)) (sh_rev (mc_shared s)) (sh_seq (mc_shared s)) (sh_wal (mc_shared s))
                      (sh_synced (mc_shared s)) (sh_cache (mc_shared s)) (sh_watermark (mc_shared s)) policy)
                    (mc_threads s) (mc_published s) (mc_replies s)).

(** ** What the system keeps *)

Context (Hdisk : ∀ slot r, read_node slot = Ok r → OverlayWalk.record_ok U8 r).
Context (Hfixint : bincode_fixint CounterU64 value_serialize value_deserialize).

Local Notation memory := (list (OverlayNode Z)).
Local Notation memory_ok := (memory_ok U8 read_node).
Local Notation look := (look U8 read_node).
Local Notation units_ok := (units_ok U8).
Local Notation root_ok := (root_ok read_node).

(** What a published operation does to the entry of its key *)
Definition live_effect (op : operation) (e : option (option Z)) : option (option Z) :=
  match op with
  | InsertCas _ => match e with None => Some None | Some v => Some v end
  | RemoveCas _ => None
  | InsertValue _ v | UpsertValue _ v | SwapValue _ _ v => Some (Some v)
  | IncrementCas _ d =>
      let total := match e with Some (Some v) => v | _ => 0 end + d in
      if decide (is_u64 total) then Some (Some total) else e
  | Contains _ | Get _ => e
  end.

Definition run_live (ops : list operation) (t : list Z) (e : option (option Z)) : option (option Z) :=
  foldl (λ e op, live_effect op e) e (filter (λ op, op_key op = t) ops).

Definition writes (op : operation) : bool := match op with Contains _ | Get _ => false | _ => true end.

Definition pub_lsns (pubs : list publication) : list Z := pb_lsn <$> pubs.
Definition pub_ops (pubs : list publication) : list operation := pb_op <$> pubs.
Definition pub_gens (pubs : list publication) : list Z := pb_gen <$> pubs.

(** The reply [r] of an operation published when its key's entry was [e] *)
Definition reply_sound (op : operation) (e : option (option Z)) (r : reply) : Prop :=
  match op with
  | InsertCas _ => e = None ∧ r = RBool true
  | RemoveCas _ => is_Some e ∧ r = RBool true
  | InsertValue _ _ | SwapValue _ _ _ => r = RBool true
  | UpsertValue _ _ => ∃ b, r = RBool b
  | IncrementCas _ _ => ∃ n, r = RCount n ∧ live_effect op e = Some (Some n)
  | Contains _ | Get _ => False
  end.

(** The log: numbered from [first_lsn]; every record is an operation's or ranks a
    publication, which no other record does; every publication has its record. *)
Record log_ok (wal : list (Z * WalRecord)) (pubs : list publication) : Prop := mkLogOk {
  lo_numbers : ∀ k e, wal !! k = Some e → e.1 = first_lsn + Z.of_nat k;
  lo_records : ∀ lsn record, (lsn, record) ∈ wal →
    (∃ op, op_record op = Some record) ∨
    ∃ pub, record = CommitRank (pb_lsn pub) (op_key (pb_op pub)) (pb_gen pub) ∧ pub ∈ pubs;
  lo_before : ∀ l data t g, (l, CommitRank data t g) ∈ wal → data < l;
  lo_once : ∀ l l' data t t' g g', (l, CommitRank data t g) ∈ wal → (l', CommitRank data t' g') ∈ wal → l = l';
  lo_published : ∀ pub, pub ∈ pubs → op_ok (pb_op pub) ∧ ∃ record, op_record (pb_op pub) = Some record ∧ (pb_lsn pub, record) ∈ wal;
  lo_distinct : NoDup (pub_lsns pubs);
}.

(** The published root: its content is that of the publications, in their order. *)
Record content_ok (look0 : list Z → option (option (option Z))) (m : memory) (rev : revision) (pubs : list publication) : Prop := mkContentOk {
  co_root : root_ok m (rv_node rev) (rv_count rev);
  co_look : ∀ t, look m (AtNode (rv_node rev)) t = run_live (pub_ops pubs) t <$> look0 t;
  co_replies : ∀ pre pub post, pubs = pre ++ pub :: post →
    ∃ e, run_live (pub_ops pre) (op_key (pb_op pub)) <$> look0 (op_key (pb_op pub)) = Some e ∧ reply_sound (pb_op pub) e (pb_reply pub);
}.

(** A committed operation: published, and its rank durable *)
Definition committed_in (wal : list (Z * WalRecord)) (synced : nat) (pubs : list publication) (op : operation) (lsn : Z) (r : reply) : Prop :=
  ∃ gen k l, mkPub gen lsn op r ∈ pubs ∧ wal !! k = Some (l, CommitRank lsn (op_key op) gen) ∧ (k < synced)%nat.

(** What a reply claims *)
Definition reply_ok (wal : list (Z * WalRecord)) (synced : nat) (pubs : list publication) (op : operation) (committed : option Z) (r : reply) : Prop :=
  match committed with
  | Some lsn => committed_in wal synced pubs op lsn r
  | None => writes op = true → match r with RBool b => b = false ∧ (∀ t v, op ≠ UpsertValue t v) | RErr => True | _ => False end
  end.

Definition unranked_lsn (wal : list (Z * WalRecord)) (lsn : Z) : Prop := ∀ l t g, (l, CommitRank lsn t g) ∉ wal.

(** The data record of an operation that is not yet ranked *)
Definition pc_lsn (p : pc) : option Z :=
  match p with
  | Appended _ _ lsn | Pending _ _ lsn | Loaded _ _ lsn _ | Claimed _ _ lsn _ _ | Ready _ _ lsn _ _ _ _ _
  | Visible _ lsn _ _ | Ranking _ lsn _ _ => Some lsn
  | _ => None
  end.

Definition logged (wal : list (Z * WalRecord)) (pubs : list publication) (op : operation) (lsn : Z) : Prop :=
  op_ok op ∧ (∃ record, op_record op = Some record ∧ (lsn, record) ∈ wal) ∧ lsn ∉ pub_lsns pubs ∧ unranked_lsn wal lsn.

(** A snapshot: the current root unless something was published since *)
Definition snapshot_ok (s : shared) (rev : revision) : Prop :=
  (rv_node rev < length (sh_mem s))%nat ∧ (rv_id rev ≤ rv_id (sh_rev s))%nat ∧ (rv_id rev = rv_id (sh_rev s) → rev = sh_rev s).

Definition generation_ok (s : shared) (pubs : list publication) (rev : revision) (gen : Z) : Prop :=
  gen ≤ sh_seq s ∧ (rv_id rev = rv_id (sh_rev s) → ∀ g, g ∈ pub_gens pubs → g < gen).

(** What an attempt made, as long as its snapshot is the current root *)
Definition attempt_ok (s : shared) (op : operation) (rev : revision) (new : nat) (delta : Z) (r : reply) : Prop :=
  (new < length (sh_mem s))%nat ∧
  (rv_id rev = rv_id (sh_rev s) → ∃ e, look (sh_mem s) (AtNode (rv_node rev)) (op_key op) = Some e ∧
     (∀ t, look (sh_mem s) (AtNode new) t = if decide (t = op_key op) then Some (live_effect op e) else look (sh_mem s) (AtNode (rv_node rev)) t) ∧
     (∀ v, live_effect op e = Some (Some v) → is_u64 v) ∧ presence (Some (live_effect op e)) - presence (Some e) ≤ delta ∧ reply_sound op e r).

Definition thread_ok (s : shared) (pubs : list publication) (p : pc) : Prop :=
  match p with
  | Idle | Crashed => True
  | Starting op | Probing op | Probed op _ => op_ok op
  | FaultProbing op => op_ok op ∧ ∃ t, op = RemoveCas t
  | Hoisted op r => reply_ok (sh_wal s) (sh_synced s) pubs op None r
  | Appended op _ lsn | Pending op _ lsn => logged (sh_wal s) pubs op lsn
  | Loaded op _ lsn rev => logged (sh_wal s) pubs op lsn ∧ snapshot_ok s rev
  | Claimed op _ lsn rev gen =>
      logged (sh_wal s) pubs op lsn ∧ snapshot_ok s rev ∧ generation_ok s pubs rev gen ∧ root_in_state op (sh_mem s) rev = Ret false
  | Ready op _ lsn rev gen new delta r =>
      logged (sh_wal s) pubs op lsn ∧ snapshot_ok s rev ∧ generation_ok s pubs rev gen ∧ attempt_ok s op rev new delta r
  | Visible op lsn gen r | Ranking op lsn gen r => mkPub gen lsn op r ∈ pubs ∧ unranked_lsn (sh_wal s) lsn
  | RankAppended op lsn gen rank_lsn r => mkPub gen lsn op r ∈ pubs ∧ (rank_lsn, CommitRank lsn (op_key op) gen) ∈ sh_wal s
  | Marking op committed _ r | Replying op committed r => reply_ok (sh_wal s) (sh_synced s) pubs op committed r
  | Burning op _ => ∀ t v, op ≠ UpsertValue t v
  end.

Record system_ok (look0 : list Z → option (option (option Z))) (s : machine) : Prop := mkSystemOk {
  so_content : content_ok look0 (sh_mem (mc_shared s)) (sh_rev (mc_shared s)) (mc_published s);
  so_log : log_ok (sh_wal (mc_shared s)) (mc_published s);
  so_gens : StronglySorted Z.lt (pub_gens (mc_published s)) ∧ ∀ g, g ∈ pub_gens (mc_published s) → g ≤ sh_seq (mc_shared s);
  so_synced : (sh_synced (mc_shared s) ≤ length (sh_wal (mc_shared s)))%nat;
  so_policy : synchronous (sh_policy (mc_shared s)) = true;
  so_threads : ∀ i, thread_ok (mc_shared s) (mc_published s) (mc_threads s i);
  so_owners : ∀ i j lsn, pc_lsn (mc_threads s i) = Some lsn → pc_lsn (mc_threads s j) = Some lsn → i = j;
  so_replies : ∀ op committed r, (op, committed, r) ∈ mc_replies s →
    reply_ok (sh_wal (mc_shared s)) (sh_synced (mc_shared s)) (mc_published s) op committed r;
}.

(** *** Steps of others *)

(** The shared state from one step to the next: [w] is what the log gained and [q] the
    publications. *)
Record grows (s : shared) (pubs : list publication) (s' : shared) (w : list (Z * WalRecord)) (q : list publication) : Prop := mkGrows {
  gr_mem : ∃ l, sh_mem s' = sh_mem s ++ l;
  gr_ok : memory_ok (sh_mem s);
  gr_id : (rv_id (sh_rev s) ≤ rv_id (sh_rev s'))%nat;
  gr_rev : rv_id (sh_rev s) = rv_id (sh_rev s') → sh_rev s' = sh_rev s ∧ q = [];
  gr_wal : sh_wal s' = sh_wal s ++ w;
  gr_seq : sh_seq s ≤ sh_seq s';
  gr_synced : (sh_synced s ≤ sh_synced s')%nat;
}.

Lemma committed_in_mono wal synced pubs w synced' q op lsn r :
  (synced ≤ synced')%nat → committed_in wal synced pubs op lsn r → committed_in (wal ++ w) synced' (pubs ++ q) op lsn r.
Proof.
  intros Hs (gen & k & l & Hp & Hk & Hlt). exists gen, k, l. split_and!; [set_solver|by apply lookup_app_l_Some|lia].
Qed.

Lemma reply_ok_mono wal synced pubs w synced' q op committed r :
  (synced ≤ synced')%nat → reply_ok wal synced pubs op committed r → reply_ok (wal ++ w) synced' (pubs ++ q) op committed r.
Proof. intros Hs. destruct committed as [lsn|]; [by apply committed_in_mono|done]. Qed.

Lemma unranked_app wal w lsn : unranked_lsn wal lsn → unranked_lsn w lsn → unranked_lsn (wal ++ w) lsn.
Proof. intros H1 H2 l t g [?|?]%elem_of_app; [by eapply H1|by eapply H2]. Qed.

Lemma logged_mono wal pubs w q op lsn :
  lsn ∉ pub_lsns q → unranked_lsn w lsn → logged wal pubs op lsn → logged (wal ++ w) (pubs ++ q) op lsn.
Proof.
  intros Hq Hw (Hok & (record & Hr & Hin) & Hp & Hu). split; [done|]. split; [exists record; set_solver|].
  split; [unfold pub_lsns in *; rewrite fmap_app; set_solver|by apply unranked_app].
Qed.

Lemma root_in_state_grow op m l rev b : root_in_state op m rev = Ret b → root_in_state op (m ++ l) rev = Ret b.
Proof.
  destruct op as [[]|[]| | | | | |]; cbn; try done; intros (n & Hn & E)%bind_Some; by rewrite (lookup_app_l_Some _ _ _ _ Hn).
Qed.

Lemma thread_ok_grows s pubs s' w q p :
  grows s pubs s' w q → (∀ lsn, pc_lsn p = Some lsn → lsn ∉ pub_lsns q ∧ unranked_lsn w lsn) →
  thread_ok s pubs p → thread_ok s' (pubs ++ q) p.
Proof.
  intros [[l Hmem] Hok Hid Hrev Hwal Hseq Hsync] Hown.
  assert (∀ rev, snapshot_ok s rev → snapshot_ok s' rev) as Hsnap.
  { intros rev (H1 & H2 & H3). split_and!; [rewrite Hmem, length_app; lia|lia|]. intros E.
    destruct (Hrev ltac:(lia)) as [-> _]. apply H3. lia. }
  assert (∀ rev gen, snapshot_ok s rev → generation_ok s pubs rev gen → generation_ok s' (pubs ++ q) rev gen) as Hgen.
  { intros rev gen (_ & Hle & _) [H1 H2]. split; [lia|]. intros E. destruct (Hrev ltac:(lia)) as [_ ->]. rewrite app_nil_r. apply H2. lia. }
  assert (∀ op rev new delta r, snapshot_ok s rev → attempt_ok s op rev new delta r → attempt_ok s' op rev new delta r) as Hatt.
  { intros op rev new delta r (Hn & Hle & _) [H1 H2]. split; [rewrite Hmem, length_app; lia|]. intros E.
    destruct (H2 ltac:(lia)) as (e & He & Hl & Hrest). exists e. rewrite Hmem. rewrite look_grow by done. split; [done|]. split; [|done].
    intros t. rewrite !look_grow by done. apply Hl. }
  assert (∀ op rev b, root_in_state op (sh_mem s) rev = Ret b → root_in_state op (sh_mem s') rev = Ret b) as Hstate.
  { intros op rev b. rewrite Hmem. apply root_in_state_grow. }
  assert (∀ op committed r, reply_ok (sh_wal s) (sh_synced s) pubs op committed r → reply_ok (sh_wal s') (sh_synced s') (pubs ++ q) op committed r) as Hrep.
  { intros op committed r. rewrite Hwal. by apply reply_ok_mono. }
  destruct p; cbn [thread_ok pc_lsn] in *; try done; try (by apply Hrep); rewrite ?Hwal.
  all: try (destruct (Hown _ eq_refl) as [Hq Hw]).
  - by apply logged_mono.
  - by apply logged_mono.
  - intros [H1 H2]. split; [by apply logged_mono|auto].
  - intros (H1 & H2 & H3 & H4). split; [by apply logged_mono|]. split; [auto|]. split; [auto|]. by apply Hstate.
  - intros (H1 & H2 & H3 & H4). split; [by apply logged_mono|]. split; [auto|]. split; auto.
  - intros [H1 H2]. split; [set_solver|by apply unranked_app].
  - intros [H1 H2]. split; [set_solver|by apply unranked_app].
  - intros [H1 H2]. split; set_solver.
Qed.

(** *** One thread moves *)

Lemma set_thread_eq threads i p : set_thread threads i p i = p.
Proof. unfold set_thread. by rewrite decide_True. Qed.

Lemma set_thread_ne threads i j p : j ≠ i → set_thread threads i p j = threads j.
Proof. intros H. unfold set_thread. by rewrite decide_False. Qed.

Lemma thread_moves look0 s i sh p w q new_replies :
  system_ok look0 s → grows (mc_shared s) (mc_published s) sh w q →
  content_ok look0 (sh_mem sh) (sh_rev sh) (mc_published s ++ q) → log_ok (sh_wal sh) (mc_published s ++ q) →
  StronglySorted Z.lt (pub_gens (mc_published s ++ q)) → (∀ g, g ∈ pub_gens (mc_published s ++ q) → g ≤ sh_seq sh) →
  (sh_synced sh ≤ length (sh_wal sh))%nat → synchronous (sh_policy sh) = true → thread_ok sh (mc_published s ++ q) p →
  (∀ j lsn, j ≠ i → pc_lsn (mc_threads s j) = Some lsn → lsn ∉ pub_lsns q ∧ unranked_lsn w lsn ∧ pc_lsn p ≠ Some lsn) →
  (∀ op committed r, (op, committed, r) ∈ new_replies → reply_ok (sh_wal sh) (sh_synced sh) (mc_published s ++ q) op committed r) →
  system_ok look0 (mkMachine sh (set_thread (mc_threads s) i p) (mc_published s ++ q) (mc_replies s ++ new_replies)).
Proof.
  intros [Hc Hl Hg Hs Hp Ht Ho Hr] Hgr Hc' Hl' Hg1 Hg2 Hs' Hp' Hown Hothers Hrep. split; cbn; [done|done|done|done|done| | |].
  - intros j. destruct (decide (j = i)) as [->|Hne]; [by rewrite set_thread_eq|]. rewrite set_thread_ne by done.
    eapply thread_ok_grows; [done| |apply Ht]. intros lsn Hlsn. by destruct (Hothers j lsn Hne Hlsn) as (? & ? & _).
  - intros j1 j2 lsn. destruct (decide (j1 = i)) as [->|H1], (decide (j2 = i)) as [->|H2]; rewrite ?set_thread_eq, ?set_thread_ne by done.
    + done.
    + intros E1 E2. by destruct (Hothers j2 lsn H2 E2) as (_ & _ & []).
    + intros E1 E2. by destruct (Hothers j1 lsn H1 E1) as (_ & _ & []).
    + apply Ho.
  - intros op committed r [Hin|Hin]%elem_of_app; [|by apply Hrep]. rewrite (gr_wal _ _ _ _ _ Hgr).
    eapply reply_ok_mono; [|by apply Hr]. apply Hgr.
Qed.

(** The shared state but for the memory, the cache, the sequence, the syncs and the
    watermark is as before. *)
Record quiet (s s' : shared) : Prop := mkQuiet {
  qt_mem : ∃ l, sh_mem s' = sh_mem s ++ l;
  qt_ok : memory_ok (sh_mem s');
  qt_rev : sh_rev s' = sh_rev s;
  qt_wal : sh_wal s' = sh_wal s;
  qt_seq : sh_seq s ≤ sh_seq s';
  qt_synced : (sh_synced s ≤ sh_synced s')%nat;
  qt_policy : sh_policy s' = sh_policy s;
}.

Lemma content_ok_grow look0 m l rev pubs : content_ok look0 m rev pubs → memory_ok (m ++ l) → content_ok look0 (m ++ l) rev pubs.
Proof.
  intros [Hr Hl Hp] Hm. assert (∀ t, look (m ++ l) (AtNode (rv_node rev)) t = look m (AtNode (rv_node rev)) t) as Hlook.
  { intros t. apply look_grow; [done|apply Hr|apply Hr]. }
  split; [|intros t; by rewrite Hlook, Hl|done]. eapply root_ok_same; [done|done| |exact Hlook]. rewrite length_app. pose proof (ro_root _ _ _ _ Hr). lia.
Qed.

Lemma quiet_grows s s' pubs : memory_ok (sh_mem s) → quiet s s' → grows s pubs s' [] [].
Proof. intros Hm [H1 H2 H3 H4 H5 H6 H7]. split; try done; [by rewrite H3|by rewrite H4, app_nil_r]. Qed.

Lemma system_memory look0 s : system_ok look0 s → memory_ok (sh_mem (mc_shared s)).
Proof. intros H. apply H. Qed.

Lemma quiet_step look0 s i sh p new_replies :
  system_ok look0 s → quiet (mc_shared s) sh → (sh_synced sh ≤ length (sh_wal sh))%nat → thread_ok sh (mc_published s) p →
  (∀ lsn, pc_lsn p = Some lsn → pc_lsn (mc_threads s i) = Some lsn) →
  (∀ op committed r, (op, committed, r) ∈ new_replies → reply_ok (sh_wal sh) (sh_synced sh) (mc_published s) op committed r) →
  system_ok look0 (mkMachine sh (set_thread (mc_threads s) i p) (mc_published s) (mc_replies s ++ new_replies)).
Proof.
  intros Hok Hq Hsync Hp Hlsn Hrep. pose proof (quiet_grows _ _ (mc_published s) (system_memory _ _ Hok) Hq) as Hgr.
  destruct Hq as [[l Hmem] Hm Hrev Hwal Hseq Hsy Hpol].
  rewrite <-(app_nil_r (mc_published s)). eapply thread_moves; [done|done|..]; rewrite ?app_nil_r; try done.
  - rewrite Hmem, Hrev in *. apply content_ok_grow; [apply Hok|done].
  - rewrite Hwal. apply Hok.
  - apply Hok.
  - intros g Hg. pose proof (proj2 (so_gens _ _ Hok) g Hg). lia.
  - rewrite Hpol. apply Hok.
  - intros j lsn Hne Hj. split_and!; [by apply not_elem_of_nil|by intros ??? ?%elem_of_nil|]. intros E%Hlsn. apply Hne. by eapply so_owners.
Qed.

Lemma quiet_refl s : memory_ok (sh_mem s) → quiet s s.
Proof. intros H. split; try done. exists []. by rewrite app_nil_r. Qed.

Lemma quiet_set_mem s l : memory_ok (sh_mem s ++ l) → quiet s (set_mem s (sh_mem s ++ l)).
Proof. intros H. split; try done. by exists l. Qed.

Lemma quiet_set_cache s c : memory_ok (sh_mem s) → quiet s (set_cache s c).
Proof. intros H. split; try done. exists []. by rewrite app_nil_r. Qed.

Lemma quiet_touch s op : memory_ok (sh_mem s) → quiet s (touch_cache s op).
Proof. intros H. destruct op; by (apply quiet_set_cache || apply quiet_refl). Qed.

Lemma quiet_trans s1 s2 s3 : quiet s1 s2 → quiet s2 s3 → quiet s1 s3.
Proof.
  intros [[l1 E1] ? ? ? ? ? ?] [[l2 E2] ? ? ? ? ? ?]. split; [|done|congruence|congruence|lia|lia|congruence]. exists (l1 ++ l2). by rewrite E2, E1, app_assoc.
Qed.

(** *** Probes *)

Lemma set_mem_same s : set_mem s (sh_mem s ++ []) = s.
Proof. rewrite app_nil_r. by destruct s. Qed.

Lemma read_faulting_spec s t :
  memory_ok (sh_mem s) → (rv_node (sh_rev s) < length (sh_mem s))%nat → units_ok t →
  ∃ l r, read_faulting s t = Ret (set_mem s (sh_mem s ++ l), r) ∧ memory_ok (sh_mem s ++ l) ∧
    answer_ok (sh_mem s ++ l) r (look (sh_mem s) (AtNode (rv_node (sh_rev s))) t).
Proof.
  intros Hm Hr Ht. unfold read_faulting, find_leaf_faulting.
  destruct (fault_retries_spec U8 read_node Hdisk (λ _, false) (S DEFAULT_MAX_FAULTIN_RETRIES) 0 (sh_mem s) (rv_node (sh_rev s)) None t
    (look (sh_mem s) (AtNode (rv_node (sh_rev s))))) as (l & root' & r & -> & Hm' & _ & _ & Ha); try done.
  by exists l, r.
Qed.

Lemma leaf_value_spec m r e : answer_ok m (Ok r) e → leaf_value m r = Ret (match e with Some (Some v) => v | _ => None end).
Proof.
  destruct r as [b|]; cbn; [intros (n & -> & _ & ->); done|]. by destruct e as [[]|].
Qed.

Lemma find_answer m a t : memory_ok m → (a < length m)%nat → units_ok t →
  ∃ r, find_leaf_iterative U8 m a t = Ret r ∧
    match r with
    | Some b => ∃ n, m !! b = Some n ∧ onode_is_final n = true ∧ look m (AtNode a) t = Some (Some (on_value n))
    | None => True
    end.
Proof. intros Hm Ha Ht. destruct (find_leaf_spec U8 read_node m a t Hm Ha Ht) as ([b|] & E & H); [by exists (Some b)|by exists None]. Qed.

Lemma leaf_value_total m a t r : memory_ok m → (a < length m)%nat → units_ok t → find_leaf_iterative U8 m a t = Ret r → ∃ v, leaf_value m r = Ret v.
Proof.
  intros Hm Ha Ht E. destruct (find_answer m a t Hm Ha Ht) as (r' & E' & H). rewrite E in E'. injection E' as <-.
  destruct r as [b|]; [|by eexists]. destruct H as (n & Hn & _). cbn. rewrite Hn. by eexists.
Qed.

Lemma probe_spec s pubs op :
  memory_ok (sh_mem s) → (rv_node (sh_rev s) < length (sh_mem s))%nat → op_ok op →
  ∃ l p, probe s op = Ret (set_mem s (sh_mem s ++ l), p) ∧ memory_ok (sh_mem s ++ l) ∧
    thread_ok (set_mem s (sh_mem s ++ l)) pubs p ∧ pc_lsn p = None.
Proof.
  intros Hm Hr Hop. assert (units_ok (op_key op)) as Ht by apply Hop.
  assert (∀ p, thread_ok s pubs p → pc_lsn p = None →
    ∃ l p', Ret (s, p) = Ret (set_mem s (sh_mem s ++ l), p') ∧ memory_ok (sh_mem s ++ l) ∧
      thread_ok (set_mem s (sh_mem s ++ l)) pubs p' ∧ pc_lsn p' = None) as Hstay.
  { intros p Hp Hl. exists [], p. by rewrite set_mem_same, app_nil_r. }
  destruct (find_answer (sh_mem s) (rv_node (sh_rev s)) (op_key op) Hm Hr Ht) as (found & Hfind & _).
  destruct (read_faulting_spec s (op_key op) Hm Hr Ht) as (l & r & Hread & Hml & Ha).
  destruct op as [t|t|t v|t v|t e v|t d|t|t]; cbn [probe op_key] in *;
    unfold probe_insert, probe_remove, probe_insert_value, probe_upsert, probe_swap, contains_lockfree, get_lockfree, find_current;
    rewrite ?Hfind, ?Hread; cbn [mbind option_bind].
  - apply Hstay; by destruct found.
  - apply Hstay; destruct found, t; cbn; eauto; by split.
  - apply Hstay; by destruct found.
  - apply Hstay; done.
  - destruct (leaf_value_total _ _ _ _ Hm Hr Ht Hfind) as [c ->]. cbn [mbind option_bind].
    destruct (serialize_opt c), (serialize_opt e); try case_bool_decide; apply Hstay; done.
  - by apply Hstay.
  - destruct r as [f|e]; [by eexists l, _|].
    destruct (find_in_lockfree_trie_spec U8 read_node (sh_mem s ++ l) (rv_node (sh_rev s)) t Hml) as (f & _ & E); [rewrite length_app; lia|done|].
    cbn. rewrite E. by eexists l, _.
  - destruct r as [f|e]; cbn [mbind option_bind].
    + cbn. rewrite (leaf_value_spec _ _ _ Ha). by eexists l, _.
    + cbn. destruct (find_answer (sh_mem s ++ l) (rv_node (sh_rev s)) t Hml) as (f & Hf & _); [rewrite length_app; lia|done|]. rewrite Hf. cbn.
      destruct (leaf_value_total (sh_mem s ++ l) (rv_node (sh_rev s)) t f Hml) as [v ->]; [rewrite length_app; lia|done|done|]. by eexists l, _.
Qed.

Lemma fault_probe_spec s pubs op :
  memory_ok (sh_mem s) → (rv_node (sh_rev s) < length (sh_mem s))%nat → op_ok op → (∃ t, op = RemoveCas t) →
  ∃ l p, fault_probe s op = Ret (set_mem s (sh_mem s ++ l), p) ∧ memory_ok (sh_mem s ++ l) ∧
    thread_ok (set_mem s (sh_mem s ++ l)) pubs p ∧ pc_lsn p = None.
Proof.
  intros Hm Hr Hop [t ->]. unfold fault_probe. cbn [op_key]. destruct (read_faulting_spec s t Hm Hr) as (l & r & -> & Hml & _); [apply Hop|].
  cbn [mbind option_bind]. eexists l, _. split; [done|]. split; [done|]. by destruct r as [[]|].
Qed.

(** *** Attempts *)

(** What an attempt promises about the memory [m] it made from the root [root] *)
Definition attempt_made (m : memory) (root : nat) (op : operation) (a : attempted) : Prop :=
  match a with
  | Next new delta r => (new < length m)%nat ∧ ∃ e, look m (AtNode root) (op_key op) = Some e ∧
      (∀ t, look m (AtNode new) t = if decide (t = op_key op) then Some (live_effect op e) else look m (AtNode root) t) ∧
      presence (Some (live_effect op e)) - presence (Some e) ≤ delta ∧ reply_sound op e r
  | NotApplied => ∀ t v, op ≠ UpsertValue t v
  | AttemptFailed => True
  end.

Definition attempt_in (m : memory) (root : nat) (op : operation) (r : exec (memory * attempted)) : Prop :=
  ∃ l a, r = Ret (m ++ l, a) ∧ memory_ok (m ++ l) ∧ attempt_made (m ++ l) root op a.

Lemma attempt_stay m root op a : memory_ok m → attempt_made m root op a → attempt_in m root op (Ret (m, a)).
Proof. intros Hm Ha. exists [], a. by rewrite app_nil_r. Qed.

Lemma insert_attempt m root t :
  memory_ok m → (root < length m)%nat → units_ok t → t ≠ [] →
  attempt_in m root (InsertCas t) ('(m, r) ← build_final_path_iterative U8 read_node m root t 0; Ret (m, build_outcome r 1)).
Proof.
  intros Hm Hr Ht Hne. destruct (build_final_spec U8 read_node Hdisk m root t Hm Hr Ht) as (l & res & -> & Hml & Hres). cbn [mbind option_bind].
  eexists l, _. split; [done|]. split; [done|]. destruct res as [a|[|e]]; [|done|done]. destruct Hres as (Hold & Ha & Hl). cbn. split; [done|].
  exists None. rewrite look_grow by done. split; [done|]. split; [|split; [lia|done]]. intros x. rewrite Hl. by rewrite look_grow by done.
Qed.

Lemma remove_attempt m root t :
  memory_ok m → (root < length m)%nat → units_ok t → t ≠ [] →
  attempt_in m root (RemoveCas t) ('(m, r) ← build_remove_path_iterative U8 read_node m root t 0; Ret (m, build_outcome r (-1))).
Proof.
  intros Hm Hr Ht Hne. destruct (build_remove_spec U8 read_node Hdisk m root t Hm Hr Ht) as (l & res & -> & Hml & Hres). cbn [mbind option_bind].
  eexists l, _. split; [done|]. split; [done|]. destruct res as [a|[|e]]; [|done|done]. destruct Hres as ((v & Hold) & Ha & Hl). cbn. split; [done|].
  exists (Some v). rewrite look_grow by done. split; [done|]. split; [|split; [lia|by split]]. intros x. rewrite Hl. by rewrite look_grow by done.
Qed.

Lemma root_attempt_spec m root f op n :
  memory_ok m → m !! root = Some n → op_key op = [] → onode_ok U8 (length m) (f n) → on_stamp (f n) = 0 →
  (∀ u, edge_of (f n) u = edge_of n u) → onode_entry (f n) = live_effect op (onode_entry n) → reply_sound op (onode_entry n) (RBool true) →
  attempt_in m root op (root_attempt m root f).
Proof.
  intros Hm Hn Hk Hf H0 Hedges He Hrep. unfold root_attempt. rewrite Hn. cbn [mbind option_bind oarc_new].
  destruct (path_rebuild_spec U8 read_node Hdisk m [] [] (look m (AtNode root)) root n (f n)) as (l & a & E & Hml & Ha & Hl); try done.
  { apply unwinds_nil. }
  cbn [rebuild oarc_new unwind_spine reverse foldM] in E. injection E as E <-.
  eexists l, _. rewrite E. split; [done|]. split; [done|]. cbn [attempt_made]. split; [done|]. apply lookup_lt_Some in Hn as Hroot.
  exists (onode_entry n). rewrite Hk, look_grow by done. split; [by rewrite (look_at _ _ _ _ _ _ Hn)|]. split.
  { intros t. rewrite Hl, look_grow by done. by rewrite He. }
  split; [|done]. rewrite <-He. unfold onode_entry. destruct (onode_is_final n), (onode_is_final (f n)); cbn; lia.
Qed.

(** A value built on [root], with the sign of its key's presence *)
Lemma value_built m root t v found r :
  memory_ok m → (root < length m)%nat → units_ok t → find_leaf_iterative U8 m root t = Ret found →
  ∃ l a, build_value m root t v (found_bool found) r = Ret (m ++ l, a) ∧ memory_ok (m ++ l) ∧
    match a with Next new _ _ => (new < length (m ++ l))%nat | NotApplied => False | AttemptFailed => True end ∧
    ∀ op, op_key op = t → (∀ e, look m (AtNode root) t = Some e → live_effect op e = Some (Some v) ∧ reply_sound op e r) →
      attempt_made (m ++ l) root op a.
Proof.
  intros Hm Hr Ht Hfind. unfold build_value.
  destruct (build_value_spec U8 read_node Hdisk m root t v Hm Hr Ht) as (l & res & -> & Hml & Hres). cbn [mbind option_bind].
  eexists l, _. split; [done|]. split; [done|]. destruct res as [a|e]; [|done]. destruct Hres as ([e He] & Ha & Hl). split; [done|].
  intros op Hk Heff. destruct (Heff e He) as [Hlive Hsound].
  cbn [attempt_made]. split; [done|]. exists e. rewrite Hk, look_grow by done. split; [done|]. rewrite Hlive. split.
  { intros x. by rewrite Hl, look_grow. }
  split; [|done]. destruct (find_answer m root t Hm Hr Ht) as (found' & E & Hf). rewrite Hfind in E. injection E as <-.
  destruct found as [b|]; cbn [found_bool].
  - destruct Hf as (n & _ & _ & Hlook). rewrite He in Hlook. injection Hlook as ->. cbn. lia.
  - change (presence (Some (Some (Some v)))) with 1. assert (0 ≤ presence (Some e)) by (by destruct e). lia.
Qed.

Lemma value_attempt m root t v found op r :
  memory_ok m → (root < length m)%nat → units_ok t → find_leaf_iterative U8 m root t = Ret found → op_key op = t →
  (∀ e, look m (AtNode root) t = Some e → live_effect op e = Some (Some v) ∧ reply_sound op e r) →
  attempt_in m root op (build_value m root t v (found_bool found) r).
Proof.
  intros Hm Hr Ht Hfind Hk Heff. destruct (value_built m root t v found r Hm Hr Ht Hfind) as (l & a & E & Hml & _ & Hmade).
  exists l, a. auto.
Qed.

Lemma publish_attempt m root t v mode op r :
  memory_ok m → (root < length m)%nat → units_ok t → op_key op = t → (mode ≠ Upserting → ∀ t v, op ≠ UpsertValue t v) →
  (∀ e, look m (AtNode root) t = Some e → live_effect op e = Some (Some v) ∧ reply_sound op e r) →
  attempt_in m root op (value_publish_inner m root t v mode r).
Proof.
  intros Hm Hr Ht Hk Hop Heff. unfold value_publish_inner. destruct (find_answer m root t Hm Hr Ht) as (found & Hfind & _). rewrite Hfind. cbn [mbind option_bind].
  destruct mode as [| |eb].
  - destruct found as [b|]; cbn [found_bool]; [apply attempt_stay; [done|by exact (Hop ltac:(done))]|]. by apply (value_attempt _ _ _ _ None).
  - by apply value_attempt.
  - destruct (leaf_value_total _ _ _ _ Hm Hr Ht Hfind) as [c ->]. cbn [mbind option_bind]. destruct (serialize_opt c); [|by apply attempt_stay].
    case_bool_decide; [by apply value_attempt|]. apply attempt_stay; [done|by exact (Hop ltac:(done))].
Qed.

Lemma find_leaf_grow m l a t r : find_leaf_iterative U8 m a t = Ret r → find_leaf_iterative (V:=Z) U8 (m ++ l) a t = Ret r.
Proof.
  revert a. induction t as [|u t IH]; intros a; cbn [find_leaf_iterative]; intros (n & Hn & E)%bind_Some; rewrite (lookup_app_l_Some _ _ _ _ Hn);
    cbn [mbind option_bind]; [done|]. destruct (find_child U8 n u ≫= as_in_mem); auto.
Qed.

(** The counter an increment reads is the current one. *)
Lemma read_count_spec s root t :
  memory_ok (sh_mem s) → (rv_node (sh_rev s) < length (sh_mem s))%nat → (root < length (sh_mem s))%nat → units_ok t →
  ∃ l n, read_count s root t = Ret (set_mem s (sh_mem s ++ l), n) ∧ memory_ok (sh_mem s ++ l) ∧
    ∀ e, look (sh_mem s) (AtNode (rv_node (sh_rev s))) t = Some e → n = match e with Some (Some v) => v | _ => 0 end.
Proof.
  intros Hm Hr Hroot Ht. unfold read_count. destruct (read_faulting_spec s t Hm Hr Ht) as (l & r & -> & Hml & Ha). cbn [mbind option_bind].
  destruct r as [f|err]; cbn [mbind option_bind].
  - change (sh_mem (set_mem s (sh_mem s ++ l))) with (sh_mem s ++ l). rewrite (leaf_value_spec _ _ _ Ha). cbn [mbind option_bind]. eexists l, _. split; [done|]. split; [done|].
    intros e ->. by destruct e as [[v|]|].
  - change (sh_mem (set_mem s (sh_mem s ++ l))) with (sh_mem s ++ l).
    destruct (find_answer (sh_mem s ++ l) root t Hml) as (f & Hf & _); [rewrite length_app; lia|done|]. rewrite Hf. cbn [mbind option_bind].
    destruct (leaf_value_total (sh_mem s ++ l) root t f Hml) as [v ->]; [rewrite length_app; lia|done|done|]. cbn [mbind option_bind].
    eexists l, _. split; [done|]. split; [done|]. intros e E. cbn in Ha. congruence.
Qed.

Lemma attempt_made_ok s op rev count l a :
  root_ok (sh_mem s) (rv_node (sh_rev s)) count → op_ok op → snapshot_ok s rev → memory_ok (sh_mem s ++ l) →
  (rv_id rev = rv_id (sh_rev s) → attempt_made (sh_mem s ++ l) (rv_node rev) op a) →
  match a with
  | Next new delta r => (new < length (sh_mem s ++ l))%nat
  | NotApplied => ∀ t v, op ≠ UpsertValue t v
  | AttemptFailed => True
  end →
  match a with
  | Next new delta r => attempt_ok (set_mem s (sh_mem s ++ l)) op rev new delta r
  | NotApplied => ∀ t v, op ≠ UpsertValue t v
  | AttemptFailed => True
  end.
Proof.
  intros Hroot [Hk Hop] (Hn & Hid & Hrev) Hml Hmade Hbound. destruct a as [new delta r| |]; [|done|done]. split; [done|]. intros E.
  destruct (Hmade E) as (_ & e & He & Hl & Hpres & Hsound). exists e. cbn [sh_mem set_mem]. split; [done|]. split; [done|]. split; [|done].
  rewrite look_grow in He by (done || apply Hroot). specialize (Hrev E). subst rev.
  assert (∀ v, e = Some (Some v) → is_u64 v) as Hkeep by (intros v ->; by eapply ro_values).
  intros v Hv. destruct op; cbn in Hv, Hop; try done; try (injection Hv as <-; exact Hop); try by apply Hkeep.
  - apply Hkeep. by destruct e.
  - destruct (decide (is_u64 _)) as [Hu|]; [by injection Hv as <-|by apply Hkeep].
Qed.

Lemma increment_attempt s t d found rev count :
  root_ok (sh_mem s) (rv_node (sh_rev s)) count → op_ok (IncrementCas t d) → snapshot_ok s rev →
  find_leaf_iterative U8 (sh_mem s) (rv_node rev) t = Ret found →
  ∃ l a, try_increment_cas_inner s (rv_node rev) t d = Ret (set_mem s (sh_mem s ++ l), a) ∧ memory_ok (sh_mem s ++ l) ∧
    match a with
    | Next new delta r => attempt_ok (set_mem s (sh_mem s ++ l)) (IncrementCas t d) rev new delta r
    | NotApplied => ∀ t' v, IncrementCas t d ≠ UpsertValue t' v
    | AttemptFailed => True
    end.
Proof.
  intros Hroot Hop Hsnap Hfind. unfold try_increment_cas_inner. rewrite Hfind. cbn [mbind option_bind].
  pose proof (ro_memory _ _ _ _ Hroot) as Hm. assert (units_ok t) as Ht by apply Hop.
  assert (rv_node rev < length (sh_mem s))%nat as Hn by apply Hsnap.
  destruct (read_count_spec s (rv_node rev) t Hm (ro_root _ _ _ _ Hroot) Hn Ht) as (l & n & -> & Hml & Hcount). cbn [mbind option_bind].
  rewrite (i128_to_counter_value_exact _ value_serialize) by done. case_decide as Hrange; [|by exists l, AttemptFailed].
  cbn [sh_mem set_mem]. destruct (value_built (sh_mem s ++ l) (rv_node rev) t (n + d) found (RCount (n + d))) as (l2 & a & -> & Hml2 & Hbound & Hmade);
    [done|rewrite length_app; lia|done|by apply find_leaf_grow|]. cbn [mbind option_bind].
  exists (l ++ l2), a. rewrite app_assoc. split; [done|]. split; [done|]. rewrite <-app_assoc in *.
  eapply attempt_made_ok; [done..| |by destruct a]. intros E. destruct Hsnap as (_ & _ & Hrev). specialize (Hrev E). subst rev.
  apply Hmade; [done|]. intros e He. rewrite look_grow in He by done. rewrite (Hcount e He) in *. cbn. rewrite decide_True by done. by eauto.
Qed.

Lemma attempt_spec s op existed rev count :
  root_ok (sh_mem s) (rv_node (sh_rev s)) count → op_ok op → snapshot_ok s rev → root_in_state op (sh_mem s) rev = Ret false →
  ∃ l a, attempt s op existed rev = Ret (set_mem s (sh_mem s ++ l), a) ∧ memory_ok (sh_mem s ++ l) ∧
    match a with
    | Next new delta r => attempt_ok (set_mem s (sh_mem s ++ l)) op rev new delta r
    | NotApplied => ∀ t v, op ≠ UpsertValue t v
    | AttemptFailed => True
    end.
Proof.
  intros Hroot Hop Hsnap Hstate. pose proof (ro_memory _ _ _ _ Hroot) as Hm. assert (units_ok (op_key op)) as Ht by apply Hop.
  assert (rv_node rev < length (sh_mem s))%nat as Hn by apply Hsnap. destruct (lookup_lt_is_Some_2 _ _ Hn) as [n Hlook].
  assert (onode_ok U8 (length (sh_mem s)) n) as Hnok.
  { eapply onode_ok_mono; [|eapply memory_node; [exact Hm|exact Hlook]]. lia. }
  assert (∀ r, attempt_in (sh_mem s) (rv_node rev) op r →
    ∃ l a, ('(m, a) ← r; Ret (set_mem s m, a)) = Ret (set_mem s (sh_mem s ++ l), a) ∧ memory_ok (sh_mem s ++ l) ∧
      match a with
      | Next new delta r => attempt_ok (set_mem s (sh_mem s ++ l)) op rev new delta r
      | NotApplied => ∀ t v, op ≠ UpsertValue t v
      | AttemptFailed => True
      end) as Hlift.
  { intros r (l & a & -> & Hml & Hmade). exists l, a. split; [done|]. split; [done|]. eapply attempt_made_ok; [done..|]. by destruct a as [? ? ?| |]; [apply Hmade|..]. }
  assert (∀ a, match a with Next _ _ _ => False | NotApplied => ∀ t v, op ≠ UpsertValue t v | AttemptFailed => True end →
    ∃ l a', Ret (s, a) = Ret (set_mem s (sh_mem s ++ l), a') ∧ memory_ok (sh_mem s ++ l) ∧
      match a' with
      | Next new delta r => attempt_ok (set_mem s (sh_mem s ++ l)) op rev new delta r
      | NotApplied => ∀ t v, op ≠ UpsertValue t v
      | AttemptFailed => True
      end) as Hstay.
  { intros a Ha. exists [], a. rewrite set_mem_same, app_nil_r. split; [done|]. split; [done|]. by destruct a. }
  destruct (find_answer (sh_mem s) (rv_node rev) (op_key op) Hm Hn Ht) as (found & Hfind & _).
  destruct op as [t|t|t v|t v|t e v|t d|t|t]; cbn [attempt op_key] in *.
  - destruct t as [|x t]; [|by apply Hlift, insert_attempt]. cbn in Hstate. rewrite Hlook in Hstate. injection Hstate as Hf.
    apply Hlift, (root_attempt_spec _ _ _ _ n); try done.
    + by apply as_final_ok.
    + apply (copy_edges U8); [apply Hnok|done].
    + rewrite as_final_entry; [|apply Hnok|]; unfold onode_entry; by rewrite Hf.
    + unfold onode_entry. by rewrite Hf.
  - destruct t as [|x t]; [|by apply Hlift, remove_attempt]. cbn in Hstate. rewrite Hlook in Hstate. injection Hstate as Hf%negb_false_iff.
    apply Hlift, (root_attempt_spec _ _ _ _ n); try done.
    + by apply as_non_final_ok.
    + apply (copy_edges U8); [apply Hnok|done].
    + by rewrite as_non_final_entry.
    + unfold onode_entry. rewrite Hf. split; [by eexists|done].
  - apply Hlift. by apply publish_attempt.
  - apply Hlift. apply publish_attempt; [done..|]. intros e _. split; [done|]. by eexists.
  - destruct (serialize_opt e); [|by apply Hstay]. apply Hlift. by apply publish_attempt.
  - by eapply increment_attempt.
  - by apply Hstay.
  - by apply Hstay.
Qed.

(** *** The log grows *)

Lemma log_lsn wal pubs lsn record : log_ok wal pubs → (lsn, record) ∈ wal → first_lsn ≤ lsn < first_lsn + zlen wal.
Proof.
  intros Hl (k & Hk)%list_elem_of_lookup. apply (lo_numbers _ _ Hl) in Hk as E. cbn in E. apply lookup_lt_Some in Hk. unfold zlen. lia.
Qed.

Lemma op_record_rank op data t g : op_record op ≠ Some (CommitRank data t g).
Proof.
  destruct op; cbn; try done; try (by intros (bytes & _ & [=])%bind_Some). by destruct (_ <=? _).
Qed.

Lemma log_numbers_snoc (wal : list (Z * WalRecord)) r :
  (∀ k e, wal !! k = Some e → e.1 = first_lsn + Z.of_nat k) →
  ∀ k e, (wal ++ [(first_lsn + zlen wal, r)]) !! k = Some e → e.1 = first_lsn + Z.of_nat k.
Proof.
  intros H k e [Hk|[Hge Hk]]%lookup_app_Some; [by apply H|]. apply list_lookup_singleton_Some in Hk as [Hz <-]. cbn. unfold zlen. lia.
Qed.

Lemma log_append_data wal pubs op record :
  log_ok wal pubs → op_record op = Some record → log_ok (wal ++ [(first_lsn + zlen wal, record)]) pubs.
Proof.
  intros [H1 H2 H0 H3 H4 H5] Hop. split; [by apply log_numbers_snoc| | | | |done].
  - intros lsn r [Hin|[= -> ->]%list_elem_of_singleton]%elem_of_app; [by apply H2 in Hin|left; by exists op].
  - intros l data t g [Hin|[= _ <-]%list_elem_of_singleton]%elem_of_app; [by eapply H0|by apply op_record_rank in Hop].
  - intros l l' data t t' g g' Ha Hb. apply elem_of_app in Ha as [Ha|[= _ <-]%list_elem_of_singleton]; [|by apply op_record_rank in Hop].
    apply elem_of_app in Hb as [Hb|[= _ <-]%list_elem_of_singleton]; [|by apply op_record_rank in Hop]. by eapply H3.
  - intros pub Hpub. destruct (H4 pub Hpub) as (Hok & r & Hr & Hin). split; [done|]. exists r. set_solver.
Qed.

Lemma log_append_rank wal pubs pub :
  log_ok wal pubs → pub ∈ pubs → unranked_lsn wal (pb_lsn pub) →
  log_ok (wal ++ [(first_lsn + zlen wal, CommitRank (pb_lsn pub) (op_key (pb_op pub)) (pb_gen pub))]) pubs.
Proof.
  intros Hlog Hpub Hun. pose proof Hlog as [H1 H2 H0 H3 H4 H5]. split; [by apply log_numbers_snoc| | | | |done].
  - intros lsn r [Hin|[= -> ->]%list_elem_of_singleton]%elem_of_app; [by apply H2 in Hin|right; by exists pub].
  - intros l data t g [Hin|[= -> -> _ _]%list_elem_of_singleton]%elem_of_app; [by eapply H0|].
    destruct (H4 pub Hpub) as (_ & r & _ & Hin). apply (log_lsn _ _ _ _ Hlog) in Hin. lia.
  - intros l l' data t t' g g' [Ha|[= -> -> -> ->]%list_elem_of_singleton]%elem_of_app [Hb|Hb]%elem_of_app.
    + by eapply H3.
    + apply list_elem_of_singleton in Hb as [= -> -> _ _]. by apply Hun in Ha.
    + by apply Hun in Hb.
    + by apply list_elem_of_singleton in Hb as [= -> _].
  - intros p Hp. destruct (H4 p Hp) as (Hok & r & Hr & Hin). split; [done|]. exists r. set_solver.
Qed.

Lemma log_publish wal pubs pub :
  log_ok wal pubs → logged wal pubs (pb_op pub) (pb_lsn pub) → log_ok wal (pubs ++ [pub]).
Proof.
  intros [H1 H2 H0 H3 H4 H5] (Hok & Hrec & Hnew & _). split; [done| |done|done| |].
  - intros lsn r Hin. destruct (H2 lsn r Hin) as [?|(p & Hp & Hin')]; [by left|right]. exists p. set_solver.
  - intros p [Hp|Hp]%elem_of_app; [by apply H4|]. by apply list_elem_of_singleton in Hp as ->.
  - unfold pub_lsns in *. rewrite fmap_app. apply NoDup_app. split; [done|]. split; [|apply NoDup_singleton].
    intros x Hx ->%list_elem_of_singleton. done.
Qed.

(** An operation in flight has its record. *)
Lemma owned_in_log s pubs p lsn :
  thread_ok s pubs p → log_ok (sh_wal s) pubs → pc_lsn p = Some lsn → ∃ record, (lsn, record) ∈ sh_wal s.
Proof.
  intros Hp Hl E.
  assert (∀ op lsn, logged (sh_wal s) pubs op lsn → ∃ record, (lsn, record) ∈ sh_wal s) as Hlogged by (intros op l (_ & (r & _ & Hr) & _); by exists r).
  assert (∀ pub, pub ∈ pubs → ∃ record, (pb_lsn pub, record) ∈ sh_wal s) as Hpub.
  { intros pub Hin. destruct (lo_published _ _ Hl pub Hin) as (_ & r & _ & Hr). by exists r. }
  destruct p; cbn in E, Hp; try done; injection E as <-; try (by eapply Hlogged); try (destruct Hp as [Hp _]; by eapply Hlogged).
  all: destruct Hp as [Hp _]; apply (Hpub _ Hp).
Qed.

Lemma fresh_lsn_unowned s pubs p :
  thread_ok s pubs p → log_ok (sh_wal s) pubs → pc_lsn p ≠ Some (first_lsn + zlen (sh_wal s)).
Proof. intros Hp Hl E. destruct (owned_in_log s pubs p _ Hp Hl E) as [r Hr]. apply (log_lsn _ _ _ _ Hl) in Hr. lia. Qed.

Lemma append_grows s pubs r :
  memory_ok (sh_mem s) → grows s pubs (append_record s r).1 [(first_lsn + zlen (sh_wal s), r)] [].
Proof. intros Hm. split; try done. exists []. by rewrite app_nil_r. Qed.

(** An operation's record is appended. *)
Lemma data_append_step look0 s i op existed record :
  system_ok look0 s → op_ok op → op_record op = Some record →
  let '(sh, lsn) := append_record (mc_shared s) record in
  system_ok look0 (mkMachine sh (set_thread (mc_threads s) i (Appended op existed lsn)) (mc_published s) (mc_replies s)).
Proof.
  intros Hok Hop Hrec. pose proof (append_grows (mc_shared s) (mc_published s) record (system_memory _ _ Hok)) as Hgr.
  cbn [append_record fst] in *. set (lsn := first_lsn + zlen (sh_wal (mc_shared s))) in *.
  pose proof (so_log _ _ Hok) as Hlog.
  assert (∀ r, (lsn, r) ∉ sh_wal (mc_shared s)) as Hfresh. { intros r Hin. apply (log_lsn _ _ _ _ Hlog) in Hin. lia. }
  rewrite <-(app_nil_r (mc_published s)), <-(app_nil_r (mc_replies s)).
  eapply thread_moves; [done|done|..]; cbn; rewrite ?app_nil_r; try apply Hok.
  - by apply log_append_data with op.
  - rewrite length_app. pose proof (so_synced _ _ Hok). lia.
  - split; [done|]. split; [exists record; split; [done|set_solver]|]. split.
    + intros (pub & E & Hpub)%list_elem_of_fmap. destruct (lo_published _ _ Hlog pub Hpub) as (_ & r & _ & Hr). apply (Hfresh r). by rewrite E.
    + intros l t g [Hin|Hin]%elem_of_app.
      * destruct (lo_records _ _ Hlog _ _ Hin) as [[op' E]|(pub & [= E _ _] & Hpub)]; [by apply op_record_rank in E|].
        destruct (lo_published _ _ Hlog pub Hpub) as (_ & r & _ & Hr). apply (Hfresh r). by rewrite E.
      * apply list_elem_of_singleton in Hin as [= _ <-]. by apply op_record_rank in Hrec.
  - intros j l Hne Hj. split_and!; [by apply not_elem_of_nil| |].
    + intros x t g Hin%list_elem_of_singleton. injection Hin as _ <-. by apply op_record_rank in Hrec.
    + intros [= <-]. by eapply fresh_lsn_unowned; [apply (so_threads _ _ Hok)|..].
  - by intros ? ? ? ?%elem_of_nil.
Qed.

(** A publication is ranked. *)
Lemma rank_step look0 s i op lsn gen r :
  system_ok look0 s → mc_threads s i = Ranking op lsn gen r →
  let '(sh, rank_lsn) := append_record (mc_shared s) (CommitRank lsn (op_key op) gen) in
  system_ok look0 (mkMachine sh (set_thread (mc_threads s) i (RankAppended op lsn gen rank_lsn r)) (mc_published s) (mc_replies s)).
Proof.
  intros Hok Hi. pose proof (append_grows (mc_shared s) (mc_published s) (CommitRank lsn (op_key op) gen) (system_memory _ _ Hok)) as Hgr.
  pose proof (so_threads _ _ Hok i) as Hti. rewrite Hi in Hti. destruct Hti as [Hpub Hun]. pose proof (so_log _ _ Hok) as Hlog.
  cbn [append_record fst] in *. rewrite <-(app_nil_r (mc_published s)), <-(app_nil_r (mc_replies s)).
  eapply thread_moves; [done|done|..]; cbn; rewrite ?app_nil_r; try apply Hok.
  - apply (log_append_rank _ _ (mkPub gen lsn op r)); done.
  - rewrite length_app. pose proof (so_synced _ _ Hok). lia.
  - split; [done|set_solver].
  - intros j l Hne Hj. split_and!; [by apply not_elem_of_nil| |done].
    intros x t g Hin%list_elem_of_singleton. injection Hin as _ -> _ _. apply Hne. eapply so_owners; [done|done|]. by rewrite Hi.
  - by intros ? ? ? ?%elem_of_nil.
Qed.

(** *** The root changes *)

Lemma run_live_snoc ops op t e :
  run_live (ops ++ [op]) t e = if decide (t = op_key op) then live_effect op (run_live ops t e) else run_live ops t e.
Proof.
  unfold run_live. rewrite filter_app, foldl_app, (filter_cons _ op). destruct (decide (t = op_key op)) as [->|Hne].
  - by rewrite decide_True.
  - by rewrite decide_False.
Qed.

Lemma split_snoc {A} (l pre post : list A) x y :
  l ++ [x] = pre ++ y :: post → (post = [] ∧ y = x ∧ pre = l) ∨ ∃ post', post = post' ++ [x] ∧ l = pre ++ y :: post'.
Proof.
  intros E. destruct post as [|z post _] using rev_ind.
  - left. by apply app_inj_tail in E as [-> ->].
  - right. exists post. change (pre ++ y :: post ++ [z]) with (pre ++ (y :: post) ++ [z]) in E. rewrite app_assoc in E.
    by apply app_inj_tail in E as [-> ->].
Qed.

Lemma content_publish look0 s pubs rev new delta pub :
  content_ok look0 (sh_mem s) (sh_rev s) pubs → snapshot_ok s rev → rv_id rev = rv_id (sh_rev s) →
  attempt_ok s (pb_op pub) rev new delta (pb_reply pub) →
  content_ok look0 (sh_mem s) (mkRevision (S (rv_id (sh_rev s))) new (rv_count rev + delta)) (pubs ++ [pub]).
Proof.
  intros [Hr Hl Hp] (_ & _ & Hrev) E [Hnew Hatt]. specialize (Hrev E). destruct (Hatt E) as (e & He & Hln & Hv & Hpres & Hsound). subst rev.
  pose proof He as He'. rewrite Hl in He. split; cbn.
  - eapply root_ok_update; [done|apply Hr|done|exact Hln|by intros v [= ?]; apply Hv|]. by rewrite He'.
  - intros t. rewrite Hln, Hl. unfold pub_ops. rewrite fmap_app. cbn [fmap list_fmap]. fold (pub_ops pubs).
    destruct (decide (t = op_key (pb_op pub))) as [->|Hne].
    + destruct (look0 (op_key (pb_op pub))) as [e0|]; [|done]. cbn [fmap option_fmap option_map] in *. rewrite run_live_snoc, decide_True by done. congruence.
    + destruct (look0 t) as [e0|]; [|done]. cbn [fmap option_fmap option_map]. by rewrite run_live_snoc, decide_False.
  - intros pre pub' post Ep. apply split_snoc in Ep as [(_ & -> & ->)|(post' & -> & ->)]; [by exists e|]. by apply (Hp pre pub' post').
Qed.

Lemma cas_step look0 s i op existed lsn rev gen new delta r :
  system_ok look0 s → mc_threads s i = Ready op existed lsn rev gen new delta r → rv_id (sh_rev (mc_shared s)) = rv_id rev →
  let sh := publish (mc_shared s) (sh_mem (mc_shared s)) new (rv_count rev + delta) in
  system_ok look0 (mkMachine sh (set_thread (mc_threads s) i (Visible op lsn gen r)) (mc_published s ++ [mkPub gen lsn op r]) (mc_replies s)).
Proof.
  intros Hok Hi E sh. pose proof (so_threads _ _ Hok i) as Hti. rewrite Hi in Hti. destruct Hti as (Hlog & Hsnap & [Hg Hgen] & Hatt).
  assert (grows (mc_shared s) (mc_published s) sh [] [mkPub gen lsn op r]) as Hgr.
  { split; cbn; try done; [exists []; by rewrite app_nil_r|by eapply system_memory|lia|lia|by rewrite app_nil_r]. }
  rewrite <-(app_nil_r (mc_replies s)). eapply thread_moves; [done|exact Hgr|..]; try apply Hok.
  - apply (content_publish look0 (mc_shared s) (mc_published s) rev new delta (mkPub gen lsn op r)); [apply Hok|done|done|done].
  - apply log_publish; [apply Hok|done].
  - unfold pub_gens. rewrite fmap_app. apply StronglySorted_app. split_and!; [|apply Hok|repeat constructor].
    intros x y Hx Hy%list_elem_of_singleton. subst y. by apply Hgen.
  - unfold pub_gens. rewrite fmap_app. intros g [Hin|Hin]%elem_of_app; [by apply (so_gens _ _ Hok)|]. by apply list_elem_of_singleton in Hin as ->.
  - split; [set_solver|apply Hlog].
  - intros j l Hne Hj. assert (l ≠ lsn). { intros ->. apply Hne. eapply so_owners; [done|done|]. by rewrite Hi. }
    split_and!; [by intros ?%list_elem_of_singleton|by intros ??? ?%elem_of_nil|]. cbn. congruence.
  - by intros ? ? ? ?%elem_of_nil.
Qed.

(** Loading and evicting keep the content. *)
Lemma maintenance_same s s' :
  memory_ok (sh_mem s) → (rv_node (sh_rev s) < length (sh_mem s))%nat → maintenance s s' →
  ∃ l root', s' = publish s (sh_mem s ++ l) root' (rv_count (sh_rev s)) ∧ memory_ok (sh_mem s ++ l) ∧ (root' < length (sh_mem s ++ l))%nat ∧
    ∀ t, look (sh_mem s ++ l) (AtNode root') t = look (sh_mem s) (AtNode (rv_node (sh_rev s))) t.
Proof.
  intros Hm Hr [key m' root' d E Hk|b frames candidates m' root' evicted E Hf].
  - destruct (fault_walk_spec U8 read_node Hdisk (sh_mem s) None [] (rv_node (sh_rev s)) [] key (look (sh_mem s) (AtNode (rv_node (sh_rev s)))))
      as (l & a & E' & Hml & Ha); try done. { apply unwinds_nil. }
    cbn [app length] in E'. rewrite E in E'. injection E' as -> <-. destruct Ha as (Hroot & Hl & _). by exists l, root'.
  - destruct (evict_chain_spec U8 read_node Hdisk b (sh_mem s) (rv_node (sh_rev s)) frames candidates Hm Hr Hf) as (r & E' & Hres).
    rewrite E in E'. injection E' as <-. destruct Hres as (l & -> & Hml & Hroot & Hl). by exists l, root'.
Qed.

Lemma maintain_step look0 s sh :
  system_ok look0 s → maintenance (mc_shared s) sh → system_ok look0 (mkMachine sh (mc_threads s) (mc_published s) (mc_replies s)).
Proof.
  intros Hok Hmaint. pose proof (so_content _ _ Hok) as Hc. pose proof (co_root _ _ _ _ Hc) as Hroot.
  destruct (maintenance_same _ _ (system_memory _ _ Hok) (ro_root _ _ _ _ Hroot) Hmaint) as (l & root' & -> & Hml & Hr & Hl).
  assert (grows (mc_shared s) (mc_published s) (publish (mc_shared s) (sh_mem (mc_shared s) ++ l) root' (rv_count (sh_rev (mc_shared s)))) [] []) as Hgr.
  { split; cbn; try done; [by exists l|by eapply system_memory|lia|lia|by rewrite app_nil_r]. }
  split; cbn; try apply Hok.
  - split; cbn; [by eapply root_ok_same| |apply Hc]. intros t. rewrite Hl. apply Hc.
  - intros i. rewrite <-(app_nil_r (mc_published s)). eapply thread_ok_grows; [exact Hgr| |apply Hok].
    intros lsn _. split; [by apply not_elem_of_nil|by intros ??? ?%elem_of_nil].
Qed.

Lemma policy_step look0 s policy :
  system_ok look0 s → synchronous policy = true →
  system_ok look0 (mkMachine (mkShared (sh_mem (mc_shared s)) (sh_rev (mc_shared s)) (sh_seq (mc_shared s)) (sh_wal (mc_shared s))
    (sh_synced (mc_shared s)) (sh_cache (mc_shared s)) (sh_watermark (mc_shared s)) policy) (mc_threads s) (mc_published s) (mc_replies s)).
Proof. intros Hok Hp. by split; try apply Hok. Qed.

(** *** A thread's step *)

Lemma quiet_move look0 s i sh p :
  system_ok look0 s → quiet (mc_shared s) sh → sh_synced sh = sh_synced (mc_shared s) → thread_ok sh (mc_published s) p →
  (∀ lsn, pc_lsn p = Some lsn → pc_lsn (mc_threads s i) = Some lsn) →
  system_ok look0 (mkMachine sh (set_thread (mc_threads s) i p) (mc_published s ++ []) (mc_replies s ++ [])).
Proof.
  intros Hok Hq Hs Hp Hl. rewrite (app_nil_r (mc_published s)). apply quiet_step; try done.
  - rewrite Hs, (qt_wal _ _ Hq). apply Hok.
  - by intros ? ? ? ?%elem_of_nil.
Qed.

(** The shared state does not change. *)
Lemma stay_move look0 s i p :
  system_ok look0 s → thread_ok (mc_shared s) (mc_published s) p → (∀ lsn, pc_lsn p = Some lsn → pc_lsn (mc_threads s i) = Some lsn) →
  system_ok look0 (mkMachine (mc_shared s) (set_thread (mc_threads s) i p) (mc_published s ++ []) (mc_replies s ++ [])).
Proof. intros Hok Hp Hl. apply quiet_move; try done. by eapply quiet_refl, system_memory. Qed.

Lemma touch_synced s op : sh_synced (touch_cache s op) = sh_synced s ∧ sh_wal (touch_cache s op) = sh_wal s.
Proof. by destruct op. Qed.

Lemma sync_spec ok s s' synced :
  memory_ok (sh_mem s) → synchronous (sh_policy s) = true → (sh_synced s ≤ length (sh_wal s))%nat → sync_wal ok s = (s', synced) →
  quiet s s' ∧ (sh_synced s' ≤ length (sh_wal s'))%nat ∧ (synced = true → sh_synced s' = length (sh_wal s')).
Proof.
  intros Hm Hp Hs. unfold sync_wal. rewrite Hp. cbn [negb]. destruct ok; intros [= <- <-]; [|by split; [apply quiet_refl|]].
  split; [|done]. split; try done. exists []. by rewrite app_nil_r.
Qed.

(** After a sync, the thread goes on or fails. *)
Lemma sync_move look0 s i ok sh synced p :
  system_ok look0 s → sync_wal ok (mc_shared s) = (sh, synced) →
  (quiet (mc_shared s) sh → (synced = true → sh_synced sh = length (sh_wal sh)) → thread_ok sh (mc_published s) p) →
  (∀ lsn, pc_lsn p = Some lsn → pc_lsn (mc_threads s i) = Some lsn) →
  system_ok look0 (mkMachine sh (set_thread (mc_threads s) i p) (mc_published s ++ []) (mc_replies s ++ [])).
Proof.
  intros Hok E Hp Hl.
  destruct (sync_spec ok (mc_shared s) sh synced (system_memory _ _ Hok) (so_policy _ _ Hok) (so_synced _ _ Hok) E) as (Hq & Hs & Hall).
  rewrite (app_nil_r (mc_published s)). apply quiet_step; auto. by intros ? ? ? ?%elem_of_nil.
Qed.

Lemma quiet_thread s s' pubs p : memory_ok (sh_mem s) → quiet s s' → thread_ok s pubs p → thread_ok s' pubs p.
Proof.
  intros Hm Hq Hp. rewrite <-(app_nil_r pubs). eapply thread_ok_grows; [by apply quiet_grows| |done].
  intros lsn _. split; [by apply not_elem_of_nil|by intros ??? ?%elem_of_nil].
Qed.

Lemma starting_step look0 s i op ok sh p :
  system_ok look0 s → mc_threads s i = Starting op → advance ok (mc_shared s) (Starting op) = Ret (sh, p) →
  system_ok look0 (mkMachine sh (set_thread (mc_threads s) i p) (mc_published s ++ []) (mc_replies s ++ [])).
Proof.
  intros Hok Hi E. pose proof (so_threads _ _ Hok i) as Hti. rewrite Hi in Hti. cbn in Hti.
  assert (∃ q, Ret (sh, p) = Ret (mc_shared s, q) ∧ thread_ok (mc_shared s) (mc_published s) q ∧ pc_lsn q = None) as (q & [= -> ->] & Hq & Hl).
  { rewrite <-E. destruct op; cbn; eexists; (split; [done|]); destruct (synchronous (sh_policy (mc_shared s))); try destruct (valid_utf8 _); try case_bool_decide; done. }
  apply stay_move; [done..|]. by rewrite Hl.
Qed.

Lemma attempt_step look0 s i op existed lsn rev gen ok sh p :
  system_ok look0 s → mc_threads s i = Claimed op existed lsn rev gen → advance ok (mc_shared s) (Claimed op existed lsn rev gen) = Ret (sh, p) →
  system_ok look0 (mkMachine sh (set_thread (mc_threads s) i p) (mc_published s ++ []) (mc_replies s ++ [])).
Proof.
  intros Hok Hi E. pose proof (so_threads _ _ Hok i) as Hti. rewrite Hi in Hti. pose proof Hti as Hc. destruct Hti as (Hlog & Hsnap & Hgen & Hst).
  cbn [advance append_durable_wal drive_cas commit_rank_and_mark] in E. destruct (attempt_spec (mc_shared s) op existed rev (rv_count (sh_rev (mc_shared s)))) as (l & a & Ea & Hml & Ha);
    [apply Hok|apply Hlog|done|done|]. rewrite Ea in E. cbn [mbind option_bind] in E. injection E as <- <-.
  apply quiet_move; [done|by apply quiet_set_mem|done| |rewrite Hi; by destruct a].
  apply (quiet_thread _ (set_mem (mc_shared s) (sh_mem (mc_shared s) ++ l))) in Hc; [|by eapply system_memory|by apply quiet_set_mem].
  destruct Hc as (H1 & H2 & H3 & _). destruct a as [new delta r| |]; [exact (conj H1 (conj H2 (conj H3 Ha)))|done|done].
Qed.

Lemma ready_step look0 s i op existed lsn rev gen new delta r ok sh p :
  system_ok look0 s → mc_threads s i = Ready op existed lsn rev gen new delta r →
  advance ok (mc_shared s) (Ready op existed lsn rev gen new delta r) = Ret (sh, p) →
  system_ok look0 (mkMachine sh (set_thread (mc_threads s) i p) (mc_published s ++ published_by (Ready op existed lsn rev gen new delta r) p) (mc_replies s ++ [])).
Proof.
  intros Hok Hi E. pose proof (so_threads _ _ Hok i) as Hti. rewrite Hi in Hti. cbn [advance drive_cas cas_root] in E. unfold cas_root in E.
  destruct (_ && _); [|done]. cbn [mbind option_bind] in E. case_bool_decide as Hid; injection E as <- <-; cbn [published_by].
  - rewrite (app_nil_r (mc_replies s)). eapply cas_step; done.
  - apply stay_move; [done|apply Hti|]. by rewrite Hi.
Qed.

Lemma advance_ok look0 s i ok sh p :
  system_ok look0 s → mc_threads s i ≠ Idle → advance ok (mc_shared s) (mc_threads s i) = Ret (sh, p) →
  system_ok look0 (mkMachine sh (set_thread (mc_threads s) i p) (mc_published s ++ published_by (mc_threads s i) p)
                     (mc_replies s ++ replied_by (mc_threads s i))).
Proof.
  intros Hok _. pose proof (so_threads _ _ Hok i) as Hti. pose proof (system_memory _ _ Hok) as Hm.
  pose proof (co_root _ _ _ _ (so_content _ _ Hok)) as Hroot.
  destruct (mc_threads s i) as [|op|op|op|op r|op existed|op existed lsn|op existed lsn|op existed lsn rev|op existed lsn rev gen
    |op existed lsn rev gen new delta r|op lsn gen r|op lsn gen r|op lsn gen rank_lsn r|op committed lsns r|op lsn|op committed r|] eqn:Hi;
    cbn [published_by replied_by]; try done.
  - by apply starting_step.
  - cbn. destruct (probe_spec (mc_shared s) (mc_published s) op Hm (ro_root _ _ _ _ Hroot) Hti) as (l & q & -> & Hml & Hq & Hl). intros [= <- <-].
    apply quiet_move; [done|by apply quiet_set_mem|done|done|by rewrite Hl].
  - cbn [advance append_durable_wal drive_cas commit_rank_and_mark]. destruct Hti as [Hop Ht]. destruct (fault_probe_spec (mc_shared s) (mc_published s) op Hm (ro_root _ _ _ _ Hroot) Hop Ht) as (l & q & -> & Hml & Hq & Hl).
    intros [= <- <-]. apply quiet_move; [done|by apply quiet_set_mem|done|done|by rewrite Hl].
  - cbn. intros [= <- <-]. destruct (touch_synced (mc_shared s) op) as [Hs Hw].
    apply quiet_move; [done|by apply quiet_touch|done| |done]. exact Hti.
  - cbn [advance append_durable_wal drive_cas commit_rank_and_mark]. destruct (op_record op) as [record|] eqn:Hrec; [|intros [= <- <-]; by apply stay_move].
    destruct ok; [|intros [= <- <-]; by apply stay_move]. pose proof (data_append_step look0 s i op existed record Hok Hti Hrec) as Hd.
    destruct (append_record (mc_shared s) record) as [sh' lsn]. intros [= <- <-]. by rewrite !app_nil_r.
  - cbn [advance append_durable_wal drive_cas commit_rank_and_mark]. destruct (sync_wal ok (mc_shared s)) as [sh' synced] eqn:E. intros [= <- <-].
    eapply sync_move; [done|exact E| |rewrite Hi; by destruct synced]. intros Hq _. destruct synced; [|done]. by apply (quiet_thread (mc_shared s) sh' (mc_published s) (Pending op existed lsn)).
  - cbn. intros [= <- <-]. apply stay_move; [done| |by rewrite Hi]. split; [done|]. split; [apply Hroot|done].
  - cbn [advance append_durable_wal drive_cas commit_rank_and_mark]. destruct Hti as [Hlog Hsnap]. destruct (root_in_state op (sh_mem (mc_shared s)) rev) as [[|]|] eqn:Est; [| |done]; cbn [mbind option_bind claim_generation].
    + intros [= <- <-]. apply stay_move; [done| |done]. cbn. intros t v ->. done.
    + intros [= <- <-]. apply quiet_move; [done| |done| |by rewrite Hi].
      { split; cbn; try done; [exists []; by rewrite app_nil_r|lia]. }
      split; [done|]. split; [done|]. split; [|done]. split; [done|]. intros _ g Hg. pose proof (proj2 (so_gens _ _ Hok) g Hg). lia.
  - by apply attempt_step.
  - by apply ready_step.
  - cbn. intros [= <- <-]. destruct (touch_synced (mc_shared s) op) as [Hs Hw].
    apply quiet_move; [done|by apply quiet_touch|done| |by rewrite Hi]. cbn. by rewrite Hw.
  - cbn [advance append_durable_wal drive_cas commit_rank_and_mark]. destruct ok; [|intros [= <- <-]; by apply stay_move]. pose proof (rank_step look0 s i op lsn gen r Hok Hi) as Hd.
    destruct (append_record (mc_shared s) _) as [sh' rank_lsn]. intros [= <- <-]. by rewrite !app_nil_r.
  - cbn [advance append_durable_wal drive_cas commit_rank_and_mark]. destruct (sync_wal ok (mc_shared s)) as [sh' synced] eqn:E. intros [= <- <-].
    eapply sync_move; [done|exact E| |by destruct synced]. intros Hq Hall. destruct synced; [|done]. destruct Hti as [Hpub Hrank].
    apply list_elem_of_lookup in Hrank as [k Hk]. exists gen, k, rank_lsn. rewrite Hall, (qt_wal _ _ Hq) by done.
    split; [done|]. split; [done|]. by apply lookup_lt_Some in Hk.
  - cbn. destruct lsns as [|l lsns]; intros [= <- <-]; [by apply stay_move|]. apply quiet_move; [done| |done|done|done].
    split; cbn; try done. exists []. by rewrite app_nil_r.
  - cbn. intros [= <- <-]. cbn in Hti.
    assert (∃ c, match op with InsertCas _ | RemoveCas _ => touch_cache (mc_shared s) op | _ => mc_shared s end = set_cache (mc_shared s) c) as [c ->].
    { destruct op; cbn; try (by eexists); exists (sh_cache (mc_shared s)); by destruct (mc_shared s). }
    apply quiet_move; [done|by apply quiet_set_cache|done| |done]. done.
  - cbn. intros [= <- <-]. rewrite (app_nil_r (mc_published s)). apply quiet_step; [done|by apply quiet_refl|apply Hok|done|done|].
    intros op' c' r' E%list_elem_of_singleton. by injection E as -> -> ->.
Qed.

Lemma durable_step_ok look0 s s' : system_ok look0 s → step (λ p, synchronous p = true) s s' → system_ok look0 s'.
Proof.
  intros Hok [i op Hi Hop|i ok sh p Hi E|i ok Hi E|sh Hmaint|policy Hpol].
  - rewrite <-(app_nil_r (mc_published s)), <-(app_nil_r (mc_replies s)). by apply stay_move.
  - by eapply advance_ok.
  - rewrite <-(app_nil_r (mc_published s)), <-(app_nil_r (mc_replies s)). by apply stay_move.
  - by apply maintain_step.
  - by apply policy_step.
Qed.

(** ** From a start *)

Definition initial (m : memory) (rev : revision) (seq : Z) (wm : CommittedWatermark) (policy : DurabilityPolicy) : machine :=
  mkMachine (mkShared m rev seq [] 0 ∅ wm policy) (λ _, Idle) [] [].

Inductive reachable (allowed : DurabilityPolicy → Prop) (s : machine) : machine → Prop :=
| reach_here : reachable allowed s s
| reach_step s1 s2 : reachable allowed s s1 → step allowed s1 s2 → reachable allowed s s2.

Lemma durable_initial_ok m rev seq wm policy :
  root_ok m (rv_node rev) (rv_count rev) → synchronous policy = true →
  system_ok (look m (AtNode (rv_node rev))) (initial m rev seq wm policy).
Proof.
  intros Hr Hp. split; cbn; try done.
  - split; [done| |by intros [|? ?] ? ? [=]]. intros t. by destruct (look m _ t).
  - split; try done; try (by intros ? ? ?%elem_of_nil); [by intros ? ? ? ? ?%elem_of_nil|by intros ? ? ? ? ? ? ? ?%elem_of_nil|by intros ? ?%elem_of_nil|constructor].
  - split; [constructor|by intros ? ?%elem_of_nil].
  - by intros ? ? ? ?%elem_of_nil.
Qed.

Lemma reachable_ok look0 s s' : reachable (λ p, synchronous p = true) s s' → system_ok look0 s → system_ok look0 s'.
Proof. induction 1; [done|]. intros Hok. eapply durable_step_ok; [|done]. auto. Qed.

(** ** Recovery *)

(** What replaying an operation's record does: a delta for the empty key is dropped. *)
Definition replayed_effect (op : operation) (e : option (option Z)) : option (option Z) :=
  match op with IncrementCas [] _ => e | _ => live_effect op e end.

Definition run_replayed (ops : list operation) (t : list Z) (e : option (option Z)) : option (option Z) :=
  foldl (λ e op, replayed_effect op e) e (filter (λ op, op_key op = t) ops).

Definition is_ranked (wal : list (Z * WalRecord)) (lsn : Z) : bool :=
  existsb (λ e, match e.2 with CommitRank data _ _ => data =? lsn | _ => false end) wal.

(** The publications a log keeps *)
Definition kept (wal : list (Z * WalRecord)) (pubs : list publication) : list publication :=
  filter (λ pub, is_ranked wal (pb_lsn pub) = true) pubs.

Definition recovered_op (pub : publication) : RecoveredOperation :=
  let lsn := pb_lsn pub in
  match pb_op pub with
  | InsertCas t => RInsert lsn t None
  | InsertValue t v => RInsert lsn t (Some (default [] (value_serialize v)))
  | UpsertValue t v | SwapValue t _ v => RUpsert lsn t (default [] (value_serialize v))
  | IncrementCas t d => RIncrement lsn t d None
  | RemoveCas t | Contains t | Get t => RRemove lsn t
  end.

Definition stamped_pub (pub : publication) : stamped := (pb_gen pub, pb_lsn pub, recovered_op pub).

Lemma record_recovered pub record :
  op_record (pb_op pub) = Some record → recovered_operations_from_record (pb_lsn pub) record = [recovered_op pub].
Proof.
  unfold recovered_op. destruct (pb_op pub); cbn; try (by intros [= <-]); try (by intros (bytes & -> & [= <-])%bind_Some).
  destruct (_ <=? _); [|done]. by intros [= <-].
Qed.

Lemma recovered_term pub : op_term (recovered_op pub) = op_key (pb_op pub).
Proof. unfold recovered_op. by destruct (pb_op pub). Qed.

Lemma recovered_effect pub e : op_ok (pb_op pub) → writes (pb_op pub) = true → replay_effect value_deserialize (recovered_op pub) e = replayed_effect (pb_op pub) e.
Proof.
  intros [_ Hv] Hw. assert (∀ v, is_u64 v → value_deserialize (default [] (value_serialize v)) = Some v) as Hde.
  { intros v Hu. destruct (Hfixint v Hu) as [-> ?]. done. }
  unfold recovered_op. destruct (pb_op pub) as [t|t|t v|t v|t x v|t d|t|t]; cbn in *; rewrite ?Hde by done; done.
Qed.

Lemma is_ranked_spec wal lsn : is_ranked wal lsn = true ↔ ∃ l t g, (l, CommitRank lsn t g) ∈ wal.
Proof.
  unfold is_ranked. rewrite existsb_exists. split.
  - intros ([l r] & Hin & E). apply list_elem_of_In in Hin. destruct r; try done. apply Z.eqb_eq in E as ->. eauto.
  - intros (l & t & g & Hin). eexists. split; [by apply list_elem_of_In|]. cbn. apply Z.eqb_refl.
Qed.

Lemma log_unique wal pubs lsn r r' : log_ok wal pubs → (lsn, r) ∈ wal → (lsn, r') ∈ wal → r = r'.
Proof.
  intros Hl (k & Hk)%list_elem_of_lookup (k' & Hk')%list_elem_of_lookup.
  pose proof (lo_numbers _ _ Hl k _ Hk). pose proof (lo_numbers _ _ Hl k' _ Hk'). cbn in *. assert (k = k') as <- by lia. congruence.
Qed.

Lemma pub_unique wal pubs pub pub' : log_ok wal pubs → pub ∈ pubs → pub' ∈ pubs → pb_lsn pub = pb_lsn pub' → pub = pub'.
Proof.
  intros Hl (k & Hk)%list_elem_of_lookup (k' & Hk')%list_elem_of_lookup E.
  assert (k = k') as <-; [|congruence]. eapply (NoDup_lookup (pub_lsns pubs)); [apply (lo_distinct _ _ Hl)| |].
  - unfold pub_lsns. by rewrite list_lookup_fmap, Hk.
  - unfold pub_lsns. rewrite list_lookup_fmap, Hk'. cbn. by rewrite E.
Qed.

(** A rank in the log names its publication. *)
Lemma rank_publication wal pubs l lsn t g :
  log_ok wal pubs → (l, CommitRank lsn t g) ∈ wal → ∃ pub, pub ∈ pubs ∧ pb_lsn pub = lsn ∧ pb_gen pub = g ∧ op_key (pb_op pub) = t.
Proof.
  intros Hl Hin. destruct (lo_records _ _ Hl _ _ Hin) as [[op E]|(pub & [= -> -> ->] & Hpub)]; [by apply op_record_rank in E|]. by exists pub.
Qed.

Section crash.
Context (wal p rest : list (Z * WalRecord)) (pubs : list publication) (loaded : bool) (checkpoint : Z).
Context (Hlog : log_ok wal pubs) (Hwal : wal = p ++ rest) (Hsorted : StronglySorted Z.lt (pub_gens pubs)).
Context (Hfrom : if loaded then checkpoint < first_lsn else first_lsn ≤ 1).

Lemma prefix_elem e : e ∈ p → e ∈ wal.
Proof. rewrite Hwal. set_solver. Qed.

(** A record with a number below one of the prefix is in the prefix. *)
Lemma prefix_below lsn r l r' : (lsn, r) ∈ wal → (l, r') ∈ p → lsn < l → (lsn, r) ∈ p.
Proof.
  intros (k & Hk)%list_elem_of_lookup (k' & Hk')%list_elem_of_lookup Hlt.
  assert (wal !! k' = Some (l, r')) as Hk2 by (rewrite Hwal; by apply lookup_app_l_Some).
  pose proof (lo_numbers _ _ Hlog k _ Hk). pose proof (lo_numbers _ _ Hlog k' _ Hk2). cbn in *. apply lookup_lt_Some in Hk'.
  apply list_elem_of_lookup. exists k. rewrite Hwal, lookup_app_l in Hk by lia. done.
Qed.

(** The ranks of a record are all the generation of its publication. *)
Lemma declared_generation pub g : pub ∈ pubs → last (declared_ranks p (pb_lsn pub)) = Some g → g = pb_gen pub.
Proof.
  intros Hpub Hlast. apply last_Some_elem_of in Hlast. unfold declared_ranks in Hlast.
  apply list_elem_of_omap in Hlast as ([l r] & Hin & E). cbn in E. destruct r; try done. case_decide as Hd; [|done]. injection E as ->. rewrite Hd in Hin.
  destruct (rank_publication _ _ _ _ _ _ Hlog (prefix_elem _ Hin)) as (pub' & Hpub' & El & <- & _). by rewrite (pub_unique _ _ pub pub' Hlog Hpub Hpub').
Qed.

Lemma ranked_declared pub : pub ∈ pubs → is_ranked p (pb_lsn pub) = true → last (declared_ranks p (pb_lsn pub)) = Some (pb_gen pub).
Proof.
  intros Hpub (l & t & g & Hin)%is_ranked_spec. destruct (last (declared_ranks p (pb_lsn pub))) as [g'|] eqn:E.
  - by rewrite (declared_generation pub g' Hpub E).
  - apply last_None in E. exfalso. assert (g ∈ declared_ranks p (pb_lsn pub)) as Hg; [|rewrite E in Hg; by apply elem_of_nil in Hg].
    apply list_elem_of_omap. eexists. split; [done|]. cbn. by rewrite decide_True.
Qed.

Lemma stamped_kept s : s ∈ stamp_log p loaded checkpoint (λ _, Overlay) ↔ s ∈ stamped_pub <$> kept p pubs.
Proof.
  rewrite elem_of_stamp_log, list_elem_of_fmap. destruct s as [[g lsn] op]. split.
  - intros (record & Hin & _ & Hop & Hgen). unfold generation_of in Hgen. destruct (last (declared_ranks p lsn)) as [g'|] eqn:El; [subst g'|by destruct Hgen].
    pose proof El as Hlast. apply last_Some_elem_of in Hlast. unfold declared_ranks in Hlast. apply list_elem_of_omap in Hlast as ([l r] & Hr & E).
    cbn in E. destruct r as [| | | | | | | | | | | | | |data t gen]; try done. case_decide as Hd; [|done]. injection E as ->. subst data.
    destruct (rank_publication _ _ _ _ _ _ Hlog (prefix_elem _ Hr)) as (pub & Hpub & <- & <- & _).
    destruct (lo_published _ _ Hlog pub Hpub) as (_ & record' & Hrec & Hin'). rewrite (log_unique _ _ _ _ _ Hlog (prefix_elem _ Hin) Hin') in Hop.
    rewrite (record_recovered pub record' Hrec) in Hop. apply list_elem_of_singleton in Hop as ->. exists pub. split; [done|].
    apply list_elem_of_filter. split; [|done]. apply is_ranked_spec. eauto.
  - intros (pub & [= -> -> ->] & [Hr Hpub]%list_elem_of_filter). destruct (lo_published _ _ Hlog pub Hpub) as (_ & record & Hrec & Hin).
    pose proof Hr as (l & t & g & Hl)%is_ranked_spec. exists record. split_and!.
    + eapply prefix_below; [exact Hin|exact Hl|]. by eapply (lo_before _ _ Hlog), prefix_elem.
    + intros (-> & _ & Hle). apply (log_lsn _ _ _ _ Hlog) in Hin. lia.
    + rewrite (record_recovered pub record Hrec). by apply list_elem_of_singleton.
    + unfold generation_of. by rewrite (ranked_declared pub Hpub Hr).
Qed.

Lemma prefix_distinct : NoDup p.*1.
Proof.
  apply NoDup_alt. intros i j x Hi Hj. rewrite list_lookup_fmap in Hi, Hj. apply fmap_Some in Hi as (e & He & ->). apply fmap_Some in Hj as (e' & He' & E).
  assert (wal !! i = Some e ∧ wal !! j = Some e') as [H1 H2] by (rewrite Hwal; split; by apply lookup_app_l_Some).
  apply (lo_numbers _ _ Hlog) in H1, H2. lia.
Qed.

Lemma one_operation e : e ∈ p → (length (recovered_operations_from_record e.1 e.2) ≤ 1)%nat.
Proof.
  intros Hin. destruct e as [lsn r]. destruct (lo_records _ _ Hlog _ _ (prefix_elem _ Hin)) as [[op E]|(pub & -> & _)]; [|cbn; lia].
  cbn [fst snd]. pose proof (record_recovered (mkPub 0 lsn op RErr) r E) as H. cbn [pb_lsn pb_op] in H. rewrite H. cbn. lia.
Qed.

Lemma stamps_distinct (records : list (Z * WalRecord)) f :
  NoDup records.*1 →
  (∀ e s, e ∈ records → s ∈ f e → s.1.2 = e.1) → (∀ e, e ∈ records → (length (f e) ≤ 1)%nat) →
  NoDup (flat_map (f : Z * WalRecord → list stamped) records).
Proof.
  intros Hnd Hs Hl. induction records as [|e records IH]; [constructor|]. cbn [flat_map]. cbn in Hnd. apply NoDup_cons in Hnd as [Hout Hnd].
  apply NoDup_app. split_and!.
  - specialize (Hl e ltac:(set_solver)). destruct (f e) as [|x [|]]; [constructor|apply NoDup_singleton|cbn in Hl; lia].
  - intros s Hs1 Hs2. apply list_elem_of_In, in_flat_map in Hs2 as (e' & He'%list_elem_of_In & Hs2%list_elem_of_In).
    apply Hout. apply list_elem_of_fmap. exists e'. split; [|done]. rewrite <-(Hs e s), <-(Hs e' s); [done|set_solver..].
  - apply IH; [done|..]; intros; [apply Hs|apply Hl]; set_solver.
Qed.

Lemma stamp_log_NoDup : NoDup (stamp_log p loaded checkpoint (λ _, Overlay)).
Proof.
  unfold stamp_log. apply stamps_distinct; [apply prefix_distinct| |].
  - intros [lsn r] s Hin Hs. unfold stamp_record in Hs. destruct (_ && _); [by apply elem_of_nil in Hs|].
    destruct (rank_map p !! lsn); [|by apply elem_of_nil in Hs]. by apply list_elem_of_fmap in Hs as (op & -> & _).
  - intros [lsn r] Hin. pose proof (one_operation _ Hin) as H1. unfold stamp_record. destruct (_ && _); [cbn; lia|].
    destruct (rank_map p !! lsn); [|cbn; lia]. by rewrite length_map.
Qed.

Lemma kept_gens : StronglySorted Z.lt (pub_gens (kept p pubs)).
Proof.
  clear Hlog. unfold kept, pub_gens in *. induction pubs as [|pub l IH]; [constructor|]. cbn in Hsorted. apply StronglySorted_inv in Hsorted as [Hs Hf].
  rewrite filter_cons. case_decide; [|by apply IH]. cbn. constructor; [by apply IH|]. apply Forall_forall. intros g (x & -> & Hx)%list_elem_of_fmap.
  apply list_elem_of_filter in Hx as [_ Hx]. rewrite Forall_forall in Hf. apply Hf. by apply list_elem_of_fmap_2.
Qed.

(** Reconciling the prefix gives the kept publications' operations, in their order. *)
Lemma reconcile_kept : reconcile_lww p loaded checkpoint Overlay = recovered_op <$> kept p pubs.
Proof.
  unfold reconcile_lww, reconcile_lww_with_regime. fold (stamp_log p loaded checkpoint (λ _, Overlay)).
  assert (NoDup (stamped_pub <$> kept p pubs)) as Hnd.
  { apply (NoDup_fmap_1 (λ s : stamped, s.1.1)). rewrite <-list_fmap_compose. change (NoDup (pub_gens (kept p pubs))).
    eapply StronglySorted_NoDup; [|apply kept_gens]. intros x. lia. }
  assert (StronglySorted (λ a b, key_le a b = true) (stamped_pub <$> kept p pubs)) as Hkey.
  { pose proof kept_gens as H. unfold pub_gens in H. induction (kept p pubs) as [|x l IH]; [constructor|]. cbn in *. apply NoDup_cons in Hnd as [_ Hnd].
    apply StronglySorted_inv in H as [H Hf]. constructor; [by apply IH|]. apply Forall_forall. intros s (y & -> & Hy)%list_elem_of_fmap.
    apply key_le_spec. left. rewrite Forall_forall in Hf. apply (Hf (pb_gen y)). by apply list_elem_of_fmap_2. }
  assert (sort_stable (stamp_log p loaded checkpoint (λ _, Overlay)) = stamped_pub <$> kept p pubs) as ->; [|by rewrite <-list_fmap_compose].
  eapply (StronglySorted_unique_strong (λ a b, key_le a b = true)); [|apply sort_stable_sorted|done|].
  - intros x y Hx Hy Hxy Hyx. rewrite sort_stable_perm in Hx. apply stamped_kept, list_elem_of_fmap in Hx as (a & -> & Ha).
    apply list_elem_of_fmap in Hy as (b & -> & Hb). apply key_le_spec in Hxy, Hyx. cbn in *. f_equal.
    apply list_elem_of_filter in Ha as [_ Ha], Hb as [_ Hb]. apply (pub_unique _ _ _ _ Hlog Ha Hb). lia.
  - rewrite sort_stable_perm. apply NoDup_Permutation; [apply stamp_log_NoDup|done|apply stamped_kept].
Qed.
(** Each kept publication has its data record in the prefix. *)
Lemma kept_below : zlen (recovered_op <$> kept p pubs) ≤ zlen p.
Proof.
  unfold zlen. rewrite length_fmap. apply Nat2Z.inj_le. rewrite <-(length_fmap pb_lsn), <-(length_fmap fst p). apply submseteq_length, NoDup_submseteq.
  - eapply sublist_NoDup; [apply (lo_distinct _ _ Hlog)|apply fmap_sublist, sublist_filter].
  - intros lsn (pub & -> & Hpub)%list_elem_of_fmap. apply list_elem_of_filter in Hpub as [(l & t & g & Hin)%is_ranked_spec Hpub].
    destruct (lo_published _ _ Hlog pub Hpub) as (_ & r & _ & Hr). apply list_elem_of_fmap. exists (pb_lsn pub, r). split; [done|].
    eapply prefix_below; [exact Hr|exact Hin|]. eapply (lo_before _ _ Hlog _ _ t g). by apply prefix_elem.
Qed.

End crash.

Lemma run_recovered pubs wal t e :
  log_ok wal pubs → ∀ l, (∀ pub, pub ∈ l → pub ∈ pubs) → run_effects value_deserialize (recovered_op <$> l) t e = run_replayed (pub_ops l) t e.
Proof.
  intros Hlog l Hl. unfold run_effects, run_ops, run_replayed, pub_ops. revert e. induction l as [|pub l IH]; intros e; [done|]. cbn [fmap list_fmap].
  rewrite !filter_cons, recovered_term. assert (∀ x, x ∈ l → x ∈ pubs) as Hl' by set_solver. case_decide; [|by apply IH]. cbn [foldl].
  rewrite recovered_effect; [by apply IH| |].
  - apply (lo_published _ _ Hlog). apply Hl. set_solver.
  - destruct (lo_published _ _ Hlog pub) as (_ & r & Hr & _); [apply Hl; set_solver|]. by destruct (pb_op pub).
Qed.

Lemma run_replayed_live ops t e : (∀ d, IncrementCas [] d ∉ ops) → run_replayed ops t e = run_live ops t e.
Proof.
  intros Hne. unfold run_replayed, run_live. revert e. induction ops as [|op ops IH]; intros e; [done|]. rewrite !filter_cons.
  assert (∀ d, IncrementCas [] d ∉ ops) as Hne' by set_solver. case_decide; [|by apply IH]. cbn [foldl]. rewrite IH by done. f_equal.
  destruct op as [| | | | |[|x t'] d| |]; try done. exfalso. apply (Hne d). set_solver.
Qed.

(** The reply of a read that looks into the trie *)
Definition read_reply (op : operation) (e : option (option Z)) : reply :=
  match op with Get _ => RValue (default None e) | _ => RBool (found_bool e) end.

Lemma read_probe_spec s op s' r e :
  memory_ok (sh_mem s) → (rv_node (sh_rev s) < length (sh_mem s))%nat → op_ok op → writes op = false →
  probe s op = Ret (s', Replying op None r) → look (sh_mem s) (AtNode (rv_node (sh_rev s))) (op_key op) = Some e → r = read_reply op e.
Proof.
  intros Hm Hr Hop Hw. destruct (read_faulting_spec s (op_key op) Hm Hr) as (l & found & Hread & _ & Ha); [apply Hop|].
  destruct op; try done; cbn [op_key probe] in *; unfold contains_lockfree, get_lockfree; rewrite Hread; cbn [mbind option_bind]; intros E He; rewrite He in Ha; (destruct found as [found|]; [|done]).
  - injection E as _ <-. cbn. destruct found as [b|]; [destruct Ha as (n & _ & _ & [= ->]); done|]. cbn in Ha. by subst e.
  - cbn [mbind option_bind] in E. cbn in E. rewrite (leaf_value_spec _ _ _ Ha) in E. cbn in E. injection E as _ <-. by destruct e.
Qed.



(** *** Schedules

    A run given by its events: an invocation, a step of a thread with the fate of its
    append or sync, an eviction, a change of the policy. *)
Inductive event : Type :=
| Invoke (i : nat) (op : operation)
| Go (i : nat) (ok : bool)
| Evict (b : chain_builder) (frames : list ChainWalkFrame) (candidates : list SwizzledPtr)
| SetPolicy (policy : DurabilityPolicy).

Definition event_ok (allowed : DurabilityPolicy → Prop) (e : event) : Prop :=
  match e with Invoke _ op => op_ok op | Go _ _ => True | Evict _ frames _ => frames_ok U8 frames | SetPolicy p => allowed p end.

Definition play (s : machine) (e : event) : exec machine :=
  match e with
  | Invoke i op =>
      match mc_threads s i with
      | Idle => Ret (mkMachine (mc_shared s) (set_thread (mc_threads s) i (Starting op)) (mc_published s) (mc_replies s))
      | _ => Panic
      end
  | Go i ok =>
      '(sh, p) ← advance ok (mc_shared s) (mc_threads s i);
      Ret (mkMachine sh (set_thread (mc_threads s) i p) (mc_published s ++ published_by (mc_threads s i) p) (mc_replies s ++ replied_by (mc_threads s i)))
  | Evict b frames candidates =>
      r ← evict_chain U8 b (sh_mem (mc_shared s)) (rv_node (sh_rev (mc_shared s))) frames candidates;
      match r with
      | Some (m, root, _) =>
          Ret (mkMachine (publish (mc_shared s) m root (rv_count (sh_rev (mc_shared s)))) (mc_threads s) (mc_published s) (mc_replies s))
      | None => Ret s
      end
  | SetPolicy policy =>
      Ret (mkMachine (mkShared (sh_mem (mc_shared s)) (sh_rev (mc_shared s)) (sh_seq (mc_shared s)) (sh_wal (mc_shared s))
             (sh_synced (mc_shared s)) (sh_cache (mc_shared s)) (sh_watermark (mc_shared s)) policy)
           (mc_threads s) (mc_published s) (mc_replies s))
  end.

Lemma play_step allowed s e s' : event_ok allowed e → play s e = Ret s' → s' = s ∨ step allowed s s'.
Proof.
  destruct e as [i op|i ok|b frames candidates|policy]; cbn; intros He.
  - destruct (mc_threads s i) eqn:Ei; try done. intros [= <-]. right. by constructor.
  - destruct (advance ok (mc_shared s) (mc_threads s i)) as [[sh p]|] eqn:E; [|done]. cbn. intros [= <-]. right. econstructor; [|exact E].
    intros Ei. by rewrite Ei in E.
  - destruct (evict_chain U8 b _ _ _ _) as [[[[m root] succ]|]|] eqn:E; [| |done]; cbn; intros [= <-]; [right|by left].
    apply step_maintain. by eapply maintain_evict.
  - intros [= <-]. right. by constructor.
Qed.

Lemma play_reachable allowed s0 es s s' :
  Forall (event_ok allowed) es → reachable allowed s0 s → foldM play s es = Ret s' → reachable allowed s0 s'.
Proof.
  intros He. revert s. induction He as [|e es He Hes IH]; intros s Hs; [intros [= <-]; done|]. cbn [foldM].
  destruct (play s e) as [s1|] eqn:E; [|done]. cbn [mbind option_bind]. apply IH. destruct (play_step allowed s e s1 He E) as [->|?]; [done|]. by econstructor.
Qed.


End durable.

(** ** Runs of a small overlay *)

Definition demo_serialize (v : Z) : option (list Z) := Some (to_le_bytes 8 v).
Definition demo_deserialize (bs : list Z) : option Z := let v := from_le_bytes bs in if decide (is_u64 v) then Some v else None.

Lemma demo_fixint : bincode_fixint CounterU64 demo_serialize demo_deserialize.
Proof. intros v Hv. split; [done|]. unfold demo_deserialize. rewrite from_to_le_bytes, Z.mod_small by exact Hv. by rewrite decide_True. Qed.

Lemma demo_deserialize_u64 bs v : demo_deserialize bs = Some v → is_u64 v.
Proof. unfold demo_deserialize. case_decide; [|done]. by intros [= <-]. Qed.

Definition demo_start (m : list (OverlayNode Z)) (root : nat) (count : Z) : machine :=
  initial m (mkRevision 0 root count) 0 (CommittedWatermark_new 0) Immediate.

Definition demo_play (s : machine) (es : list event) : exec machine := foldM (play demo_read demo_serialize demo_deserialize 1) s es.

Definition steps (i n : nat) : list event := replicate n (Go i true).

(** An insert is published; a remove of the same key runs to its end; the insert then
    enters the key into the cache and ends.  A lookup and an insert follow. *)
Definition stale_schedule : list event :=
  Invoke 0 (InsertCas [97]) :: steps 0 8 ++ Invoke 1 (RemoveCas [97]) :: steps 1 15 ++ steps 0 7 ++
  Invoke 1 (Contains [97]) :: steps 1 2 ++ Invoke 1 (InsertCas [97]) :: steps 1 2.

(** The node of a key is evicted, and the key is inserted with a value. *)
Definition evicted_schedule : list event :=
  Evict NearestAncestor [mkChainFrame 98 (Some 0%nat)] [demo_ptr] :: Invoke 0 (InsertValue [98] 9) :: steps 0 15.

(** A key is inserted, and the counter at the empty key is incremented. *)
Definition counting_schedule : list event :=
  Invoke 0 (UpsertValue [98] 9) :: steps 0 15 ++ Invoke 1 (IncrementCas [] 5) :: steps 1 15.

Lemma empty_look t : look U8 demo_read [OverlayNode_new] (AtNode 0) t = Some None.
Proof. by destruct t as [|u t]. Qed.

Lemma empty_root_ok : root_ok demo_read [OverlayNode_new] 0 0.
Proof.
  split; [|cbn; lia| |].
  - intros i n Hi. destruct i as [|i]; [|done]. injection Hi as <-. split; [apply OverlayNode_new_ok|done].
  - intros t v. by rewrite empty_look.
  - intros [|t l] _ Hl; [done|]. destruct (Hl t) as (v & Hv); [set_solver|]. by rewrite empty_look in Hv.
Qed.

(** The content under the root a machine publishes *)
Definition machine_look (s : machine) (t : list Z) : option (option (option Z)) :=
  look U8 demo_read (sh_mem (mc_shared s)) (AtNode (rv_node (sh_rev (mc_shared s)))) t.

Definition synchronously (p : DurabilityPolicy) : Prop := synchronous p = true.

Lemma schedules_ok :
  Forall (event_ok synchronously) stale_schedule ∧ Forall (event_ok synchronously) evicted_schedule ∧ Forall (event_ok synchronously) counting_schedule.
Proof. split; [|split]; repeat constructor; cbn; lia. Qed.

Lemma demo_reachable m root count es s :
  Forall (event_ok synchronously) es → demo_play (demo_start m root count) es = Ret s →
  reachable demo_read demo_serialize demo_deserialize 1 synchronously (demo_start m root count) s.
Proof. intros He E. eapply play_reachable; [done|apply reach_here|exact E]. Qed.




Lemma demo_header_ok : header_ok (mkWalHeader MAGIC_OVERLAY VERSION 0 0 1 (replicate 35 0)).
Proof.
  split; [by right|]. split; [by vm_compute|]. split; [by vm_compute|]. split; [by vm_compute|]. split; [by vm_compute|]. split; [done|].
  apply Forall_replicate. by vm_compute.
Qed.

